(* ===== verification/_CoqProject ===== *)
-Q . S2P
Prelude.v
Bytes.v
Hlc.v
Cbor.v
Registry.v
Stamp.v
Versions.v
Patch.v
Registers.v
FieldState.v
Fold.v
Convergence.v
Project.v
Prune.v
Wire.v
Envelope.v
Groups.v
Snapshot.v
SnapshotJoin.v
SnapshotDoc.v
SortOrder.v
Ids.v
Deps.v
TaskGraph.v
RateLimit.v
RelayLog.v
RelayRing.v
Calendar.v
SunriseTime.v
Rrule.v
Constraint.v
Gregorian.v
RoutineGen.v
Routine.v
RoutineEdit.v
SplitSeries.v
Streak.v
RecurExamples.v
Search.v
SearchLex.v
SearchLeaf.v
SearchRound.v
SearchParse.v
SearchGrammar.v
SearchCanon.v
SearchExamples.v
SearchText.v
SearchDays.v
EnvelopeFacts.v
EnvelopeSeal.v
Chain.v
ChainFacts.v
ChainPrefix.v
ChainEvidence.v
Compaction.v
ChainHistory.v
CompactionFacts.v
ChainReach.v
ChainRoots.v
ChainClaims.v
CanonFacts.v
DeviceCert.v
Transition.v
TransitionFacts.v
IdentityChain.v
Identity.v
IdentitySiblings.v
IdentityFold.v
IdentityInv.v
IdentityPublish.v
IdentityClaims.v
