(* ===== verification/Prelude.v ===== *)
(** * Sunrise: a verification of its core

    Sunrise is an offline-first planner.  Every device keeps a whole vault, an
    edit is an op in a log, a relay that cannot read them carries the ops
    between devices, and each device folds what it receives into the same
    state.  On top of that state a domain library computes: recurring routines,
    streaks, dependencies, times, sort keys, constraints, search.  The
    development models these two layers and the relay's log, from the Rust
    crates under src/crates; the names of definitions are the source's.

    ** The parts

    - Foundations.  [Prelude]: total orders from comparisons (what Rust
      derives), sorting, automation.  [Bytes]: byte strings.  [Hlc]
      (sunrise-cbor/src/hlc.rs): the clock ops are stamped with.  [Cbor]
      (canonical.rs, cbor_value.rs, bounded.rs): the canonical form ops are
      stored in.  [Registry] (sunrise-id/src/registry): every entity's fields
      and how each merges, as data.
    - Merging, sunrise-core/src/engine/merge and its callers.  [Stamp]: stamps
      and op-refs.  [Versions] (versions.rs): the version DAG of an entity,
      its frontiers and heads.  [Patch] (patch.rs): reading and checking a
      patch.  [Registers] (register.rs): the antichain each register keeps.
      [FieldState] (state.rs): map entries, OR-sets, counters and the
      bookkeeping.  [Fold] (mod.rs, [merge_op_inner]): folding one op.
      [Convergence]: what the tables hold as a function of the set of ops
      folded.  [Project] (project.rs): reading the tables back as an entity.
      [Prune] (prune.rs): forgetting versions.  [Snapshot] (snapshot.rs):
      writing the tables of a stream out and joining them into another
      replica's; [SnapshotJoin] and [SnapshotDoc] prove it.  [Groups]
      (engine/groups.rs, engine/sync.rs): commits of several ops, delivered
      in pieces.
    - The op log.  [Envelope] (sunrise-crypto/src/op_envelope): an op sealed,
      signed, decoded and opened, with its hash; [EnvelopeFacts],
      [EnvelopeSeal] prove it.  [Chain] (engine/chain.rs, oplog.rs, park.rs,
      sync.rs, sunrise-storage/src/oplog.rs, sunrise-crypto/src/merkle.rs):
      the tables of the log as one record [Log], receiving, parking and
      writing an op, the links each op names and the evidence kept of
      disagreements, contiguous prefixes, their roots and the digests peers
      compare.  [Compaction] (engine/compaction.rs): floors and the rows
      deleted under them.  [ChainFacts], [ChainPrefix], [ChainEvidence] hold
      the invariant of a delivery, [ChainHistory] and [CompactionFacts] that
      of compaction, [ChainReach] that of every history, [ChainRoots] what a
      root is, [ChainClaims] the theorems.
    - The account's identity.  [DeviceCert] (sunrise-crypto/src/device_cert,
      identity.rs): the certificate an identity signs for a device.
      [Transition] (identity_transition.rs): the hash two identities sign when
      one hands over to the next, the roster and the shares it covers;
      [TransitionFacts] proves what it fixes.  [IdentityChain]
      (identity_chain.rs, hpke_seal.rs): the published record of a chain, its
      codec, its verification and the shares carried along it.  [Identity]
      (engine/identity.rs, engine/identity_chain.rs, the transition arms of
      engine/sync.rs): the table of transitions a replica holds, which rows it
      admits, the fold that finds the identity in force, the roster applied to
      the devices, publishing and seeding a chain.  [IdentitySiblings] proves
      which rows are kept, [IdentityFold] what the fold walks, [IdentityInv]
      the table's invariant, [IdentityPublish] that a published chain decodes
      and verifies (with [CanonFacts], what a canonical encoding holds), and
      [IdentityClaims] the theorems.
    - Domain, sunrise-domain/src.  [SortOrder], [Ids] (sunrise-id), [Deps] and
      [TaskGraph] (deps.rs, engine/task.rs); [Calendar], [SunriseTime]
      (time.rs, time/), [Rrule], [RoutineGen], [Routine], [RoutineEdit],
      [SplitSeries], [Streak] (routine.rs, rrule.rs, routine_gen.rs,
      routine_gen/, streak.rs), [Constraint] (constraint/); [Gregorian] is a
      concrete calendar for the examples, [RecurExamples] the examples.
      [Search] (search/): a query's values, lexer, parser and canonical text,
      proved to read back in [SearchLex], [SearchLeaf], [SearchRound],
      [SearchParse], [SearchGrammar] and [SearchCanon], with [SearchExamples];
      [SearchText] (search/text.rs): folding and highlighting; [SearchDays]
      (search/date.rs): the days a date value covers.
    - The relay, sunrise-server/src.  [Wire] (sunrise-wire-protocol and the
      envelope header): frames and negotiation.  [RelayLog] (relay_log/): the
      durable log.  [RelayRing] (relay.rs): the in-memory backlog.
      [RateLimit] (api/ratelimit/): token buckets and the bounded store.

    ** State and effects

    A SQL table is a finite map from its primary key to its other columns, or
    a set of rows; a statement is the function it computes on the map, and a
    transaction that rolls back is a result that carries no state.  A function
    that can fail returns [option] or the [result] of [Prelude].  Machine
    integers are [Z] with their saturation or wrap-around written out; ids are
    their big-endian values.  Loops that are not structural carry fuel, and a
    theorem says the fuel given is enough: a bound's length plus one for
    [SortOrder.between], the number of edges for the searches of [Deps], the
    source's own backstop [MAX_PERIODS] for [RoutineGen.expand] (whose
    reaching it is an error the code returns, see [expand_answers]), the
    number of tokens for the search parser ([enough_fuel], [parse_is_total]),
    the length of a prefix for the root of an op chain, the size of the table
    plus one for the walk of the identity chain, which never meets an identity
    twice ([IdentityClaims.chain_is_authorised]).

    ** What other libraries are

    Code the repository does not hold is a parameter: ciborium's reader and
    writer (class [Cbor.Ciborium]; that the reader reads what the writer
    wrote is [EnvelopeFacts.CiboriumLaws]), zstd, the hash, signature and
    cipher of the crypto crates (class [Envelope.Crypto], [CryptoLaws], and
    [IdentityInv.HashWidths] for the widths of what they return), HPKE
    ([IdentityChain.Hpke]), the codec serde derives for the payload of a
    transition op ([Identity.TransitionCodec], [TransitionCodecLaws]),
    serde's test that a value fits a field ([value_fits]), what projection
    takes from serde and jiff ([Project.ProjectionLib]), jiff's civil calendar
    (class [Calendar.Jiff] with its documented laws) and its printed dates
    ([SearchLeaf.IsoDates]), and the Unicode tables highlighting folds with
    ([SearchText.Unicode]).  A hash is a function, not injective by
    assumption: a theorem about hashes, the sixteen-byte op ids derived from one
    included, has a collision as its other case, in the inputs it names.  Each parameter is instantiated by a
    concrete function where a theorem with a hypothesis is shown to apply.
    Two kinds of hypothesis are about the data: a delivery has one op for each
    position and its values encode ([deliverable], [consistent_delivery]), and a
    log's seqs stay below 2^63 - 1 with no two ops under one id ([history]).

    ** What the theorems show

    - Replicas that received the same ops agree, whatever the order, the
      repetitions and the way commits were cut ([Groups], [Convergence],
      [Versions]); the state agreed on is the one the documents describe
      (registers, OR-sets, counters, full-state ops, in [Convergence] and
      [Project]); pruning is invisible ([Prune]) and joining a snapshot is
      folding its ops ([Snapshot]); clocks are causal and bounded ([Hlc]).
    - A sealed op opens to what was sealed, its hash covers every field, and
      what decodes is well formed ([EnvelopeSeal]).  Over every history of
      deliveries, parked ops, own writes and compactions ([ChainReach.history]),
      every disagreement between signed claims is kept as evidence, an own
      write over a waiting expectation apart, and no other is, a cursor is the end of what is held without a hole, equal
      roots mean equal ops, and compaction deletes only what every known
      device acknowledged ([ChainClaims]).
    - The identity in force is the end of a chain each link of which the
      identity before it signed, the rows it is read from are the greatest
      ever offered and stay verified under every identity reached, one hash
      stands for one hand-over, the roster in force rebinds no device, and a
      chain one replica publishes is the chain another follows
      ([IdentityClaims]).
    - The relay loses nothing it acknowledged without saying so, keeps its
      bounds, and limits the rates it promises ([RelayLog], [RelayRing],
      [RateLimit]).
    - What is written is read back: canonical CBOR, frames, identifiers,
      times, rules, queries.
    - Expansion, splits, streaks, cycle rules and constraints do what their
      reference definitions say.

    ** Not modelled

    SQL text, file and network I/O, the cryptographic primitives, the bindings
    and the applications; which certificate a received op is verified under,
    adopting a successor's keys and emitting a rotation, revocation and key
    epochs; seeding a published chain in the histories of [IdentityClaims.holdings]
    (it is proved from an empty table); raising a log's floor from
    a joined snapshot inside a history ([Chain.settle_below_floor] is defined,
    and no history takes it); the replay of parked ops after an upgrade; serde
    codecs other than canonical CBOR; display text. *)

From Stdlib Require Import ZArith Lia Init.Byte.
From stdpp Require Import base tactics orders decidable countable option list sorting gmap sets.

Create HintDb sunrise.

(** ** Total orders given by a comparison

    Rust derives [Ord] for a struct as the lexicographic comparison of its
    fields in declaration order.  A type whose source derives [Ord] gets a
    [Cmp] instance here, built from the instances of its fields, and the laws
    come with it. *)

Declare Scope sunrise_scope.
Delimit Scope sunrise_scope with sun.
#[global] Open Scope sunrise_scope.

Class Cmp (A : Type) := cmp : A → A → comparison.
#[global] Hint Mode Cmp ! : typeclass_instances.

Class CmpLaws (A : Type) `{Cmp A} : Prop := {
  cmp_eq_iff (x y : A) : cmp x y = Eq ↔ x = y;
  cmp_opp (x y : A) : cmp y x = CompOpp (cmp x y);
  cmp_lt_tr (x y z : A) : cmp x y = Lt → cmp y z = Lt → cmp x z = Lt;
}.

(** Strictly below, and at most: [a ≼ b] is "not [b ≺ a]", which is what a
    Rust [>=] between totally ordered values computes. *)
Definition tlt {A} `{Cmp A} (x y : A) : Prop := cmp x y = Lt.
Definition tle {A} `{Cmp A} (x y : A) : Prop := cmp y x ≠ Lt.
Infix "≺" := tlt (at level 70, no associativity) : sunrise_scope.
Infix "≼" := tle (at level 70, no associativity) : sunrise_scope.

#[global] Instance tlt_dec {A} `{Cmp A} (x y : A) : Decision (x ≺ y).
Proof. unfold tlt. solve_decision. Defined.
#[global] Instance tle_dec {A} `{Cmp A} (x y : A) : Decision (x ≼ y).
Proof. unfold tle. solve_decision. Defined.

(** Rust's [Ord::max] and [Ord::min] on such a type. *)
Definition cmax {A} `{Cmp A} (x y : A) : A := if decide (x ≺ y) then y else x.
Definition cmin {A} `{Cmp A} (x y : A) : A := if decide (y ≺ x) then y else x.

Section total_order.
Context {A : Type} `{CmpLaws A}.
Implicit Types x y z : A.

Lemma tlt_irrefl x : ¬ x ≺ x.
  Proof. unfold tlt. rewrite (proj2 (cmp_eq_iff x x) eq_refl). done. Qed.
Lemma tlt_trans x y z : x ≺ y → y ≺ z → x ≺ z.
  Proof. apply cmp_lt_tr. Qed.
Lemma tlt_total x y : x ≺ y ∨ x = y ∨ y ≺ x.
  Proof.
    unfold tlt. destruct (cmp x y) eqn:E.
    - right; left. by apply cmp_eq_iff.
    - by left.
    - do 2 right. by rewrite cmp_opp, E.
  Qed.
Lemma tle_not_tlt x y : x ≼ y ↔ ¬ y ≺ x.
  Proof. done. Qed.
Lemma not_tlt x y : ¬ x ≺ y → y ≼ x.
  Proof. done. Qed.
Lemma not_tle x y : ¬ x ≼ y → y ≺ x.
  Proof. unfold tle, tlt. destruct (decide (cmp y x = Lt)); tauto. Qed.
Lemma tle_refl x : x ≼ x.
  Proof. apply tlt_irrefl. Qed.
Lemma tle_cases x y : x ≼ y ↔ x ≺ y ∨ x = y.
  Proof.
    split.
    - destruct (tlt_total x y) as [?|[?|Hgt]]; [by left|by right|].
      intros Hle. by destruct (Hle Hgt).
    - intros [Hlt| ->]; [|apply tle_refl].
      intros Hgt. exact (tlt_irrefl _ (tlt_trans _ _ _ Hlt Hgt)).
  Qed.
Lemma tlt_tle x y : x ≺ y → x ≼ y.
  Proof. rewrite tle_cases. by left. Qed.
Lemma tlt_tle_trans x y z : x ≺ y → y ≼ z → x ≺ z.
  Proof. rewrite tle_cases. intros ? [?| ->]; [by eapply tlt_trans|done]. Qed.
Lemma tle_tlt_trans x y z : x ≼ y → y ≺ z → x ≺ z.
  Proof. rewrite tle_cases. intros [?| ->] ?; [by eapply tlt_trans|done]. Qed.
Lemma tle_trans x y z : x ≼ y → y ≼ z → x ≼ z.
  Proof.
    intros Hxy Hyz. apply not_tlt. intros Hzx.
    exact (Hyz (tlt_tle_trans _ _ _ Hzx Hxy)).
  Qed.
Lemma tle_antisymm x y : x ≼ y → y ≼ x → x = y.
  Proof.
    intros Hxy Hyx. destruct (tlt_total x y) as [Hlt|[Heq|Hgt]]; [|done|].
    - by destruct (Hyx Hlt).
    - by destruct (Hxy Hgt).
  Qed.
Lemma tle_ne_tlt x y : x ≼ y → x ≠ y → x ≺ y.
  Proof. rewrite tle_cases. tauto. Qed.
Lemma tle_total x y : x ≼ y ∨ y ≼ x.
  Proof. rewrite !tle_cases. destruct (tlt_total x y) as [?|[?|?]]; auto. Qed.
End total_order.

(** [tord] decides goals of a total order from the hypotheses about [≺], [≼],
    [=] and their negations, by closing them under transitivity. *)
Ltac tord_learn P prf :=
  lazymatch goal with
  | _ : P |- _ => fail
  | _ => pose proof (prf : P)
  end.

Ltac tord_step :=
  match goal with
  | H : ?x ≺ ?x |- _ => destruct (tlt_irrefl x H)
  | H : ¬ ?x ≺ ?y |- _ => apply not_tlt in H
  | H : ¬ ?x ≼ ?y |- _ => apply not_tle in H
  | H1 : ?x ≺ ?y, H2 : ?y ≺ ?z |- _ => tord_learn (x ≺ z) (tlt_trans x y z H1 H2)
  | H1 : ?x ≺ ?y, H2 : ?y ≼ ?z |- _ => tord_learn (x ≺ z) (tlt_tle_trans x y z H1 H2)
  | H1 : ?x ≼ ?y, H2 : ?y ≺ ?z |- _ => tord_learn (x ≺ z) (tle_tlt_trans x y z H1 H2)
  | H1 : ?x ≼ ?y, H2 : ?y ≼ ?z |- _ =>
      assert_fails (unify x z); tord_learn (x ≼ z) (tle_trans x y z H1 H2)
  | H1 : ?x ≼ ?y, H2 : ?x ≠ ?y |- _ => tord_learn (x ≺ y) (tle_ne_tlt x y H1 H2)
  | H1 : ?x ≼ ?y, H2 : ?y ≠ ?x |- _ =>
      tord_learn (x ≺ y) (tle_ne_tlt x y H1 (not_eq_sym H2))
  end.

Ltac tord_close := solve [ repeat tord_step; done ].

Ltac tord :=
  intros; simplify_eq;
  lazymatch goal with
  | |- False => tord_close
  | |- ?x ≺ ?y => destruct (decide (x ≺ y)); [done|exfalso; tord_close]
  | |- ?x ≼ ?y => destruct (decide (x ≼ y)); [done|exfalso; tord_close]
  | |- ¬ _ => intros ?; simplify_eq; tord_close
  | |- ?x = ?y => apply tle_antisymm; tord
  | |- _ => exfalso; tord_close
  end.

Section cmax_lemmas.
Context {A : Type} `{CmpLaws A}.
Implicit Types x y z : A.

Lemma cmax_l x y : x ≼ cmax x y.
  Proof. unfold cmax. case_decide; tord. Qed.
Lemma cmax_r x y : y ≼ cmax x y.
  Proof. unfold cmax. case_decide; tord. Qed.
Lemma cmax_case x y : cmax x y = x ∨ cmax x y = y.
  Proof. unfold cmax. case_decide; auto. Qed.
Lemma cmax_right x y : x ≼ y → cmax x y = y.
  Proof.
    intros [?| ->]%tle_cases; unfold cmax; case_decide; done.
  Qed.
Lemma cmax_comm x y : cmax x y = cmax y x.
  Proof.
    unfold cmax. repeat case_decide; try done; [exfalso; tord|apply tle_antisymm; tord].
  Qed.
Lemma cmin_comm x y : cmin x y = cmin y x.
  Proof.
    unfold cmin. repeat case_decide; try done; [exfalso; tord|apply tle_antisymm; tord].
  Qed.
Lemma cmax_lub x y z : x ≼ z → y ≼ z → cmax x y ≼ z.
  Proof. unfold cmax. by case_decide. Qed.
Lemma cmin_l x y : cmin x y ≼ x.
  Proof. unfold cmin. case_decide; tord. Qed.
Lemma cmin_r x y : cmin x y ≼ y.
  Proof. unfold cmin. case_decide; tord. Qed.
Lemma cmin_case x y : cmin x y = x ∨ cmin x y = y.
  Proof. unfold cmin. case_decide; auto. Qed.
Lemma cmin_glb x y z : z ≼ x → z ≼ y → z ≼ cmin x y.
  Proof. unfold cmin. by case_decide. Qed.
End cmax_lemmas.

(** ** Instances *)

#[export] Instance Z_cmp : Cmp Z := Z.compare.
#[export] Instance Z_cmp_laws : CmpLaws Z.
Proof.
  split; unfold cmp, Z_cmp.
  - apply Z.compare_eq_iff.
  - intros. apply Z.compare_antisym.
  - intros x y z. rewrite !Z.compare_lt_iff. lia.
Qed.

#[export] Instance bool_cmp : Cmp bool := λ x y,
  match x, y with
  | false, true => Lt
  | true, false => Gt
  | _, _ => Eq
  end.
#[export] Instance bool_cmp_laws : CmpLaws bool.
Proof.
  split; unfold cmp, bool_cmp.
  - intros [] []; split; congruence.
  - by intros [] [].
  - by intros [] [] [].
Qed.

(** Lexicographic comparison of pairs: the second component decides only
    between equal first ones. *)
#[export] Instance prod_cmp {A B} `{Cmp A, Cmp B} : Cmp (A * B) := λ x y,
  match cmp x.1 y.1 with
  | Eq => cmp x.2 y.2
  | c => c
  end.
#[export] Instance prod_cmp_laws {A B} `{CmpLaws A, CmpLaws B} : CmpLaws (A * B).
Proof.
  split; unfold cmp, prod_cmp.
  - intros [a b] [a' b']; simpl. destruct (cmp a a') eqn:E; simpl.
    + apply cmp_eq_iff in E as ->. rewrite cmp_eq_iff. split; [by intros ->|by intros [= ->]].
    + split; [done|]. intros [= -> ->]. by rewrite (proj2 (cmp_eq_iff a' a') eq_refl) in E.
    + split; [done|]. intros [= -> ->]. by rewrite (proj2 (cmp_eq_iff a' a') eq_refl) in E.
  - intros [a b] [a' b']; simpl. rewrite (cmp_opp a a').
    destruct (cmp a a') eqn:E; simpl; [apply cmp_opp|done|done].
  - intros [a b] [a' b'] [a'' b'']; simpl.
    destruct (cmp a a') eqn:E1; [apply cmp_eq_iff in E1 as ->| |done].
    + destruct (cmp a' a''); [apply cmp_lt_tr|done|done].
    + destruct (cmp a' a'') eqn:E2; [apply cmp_eq_iff in E2 as <-| |done].
      * by rewrite E1.
      * by rewrite (cmp_lt_tr _ _ _ E1 E2).
Qed.

(** [Option]'s derived order: [None] first. *)
#[export] Instance option_cmp {A} `{Cmp A} : Cmp (option A) := λ x y,
  match x, y with
  | None, None => Eq
  | None, Some _ => Lt
  | Some _, None => Gt
  | Some a, Some b => cmp a b
  end.
#[export] Instance option_cmp_laws {A} `{CmpLaws A} : CmpLaws (option A).
Proof.
  split; unfold cmp, option_cmp.
  - intros [a|] [b|]; try (split; congruence). rewrite cmp_eq_iff. split; congruence.
  - intros [a|] [b|]; try done. apply cmp_opp.
  - intros [a|] [b|] [c|]; try done. apply cmp_lt_tr.
Qed.

(** The order a record gets from an injection into an ordered type: the tuple
    of its fields, in declaration order. *)
Definition cmp_on {A B} `{Cmp B} (f : A → B) : Cmp A := λ x y, cmp (f x) (f y).
Lemma cmp_on_laws {A B} `{CmpLaws B} (f : A → B) :
  Inj (=) (=) f → @CmpLaws A (cmp_on f).
Proof.
  intros Hf. split; unfold cmp, cmp_on.
  - intros x y. rewrite cmp_eq_iff. split; [apply (inj f)|congruence].
  - intros. apply cmp_opp.
  - intros x y z. apply cmp_lt_tr.
Qed.

Lemma Z_tlt_lt (x y : Z) : x ≺ y ↔ (x < y)%Z.
Proof. apply Z.compare_lt_iff. Qed.
Lemma Z_tle_le (x y : Z) : x ≼ y ↔ (x ≤ y)%Z.
Proof. unfold tle, cmp, Z_cmp. rewrite Z.compare_lt_iff. lia. Qed.

Lemma prod_tlt {A B} `{CmpLaws A, CmpLaws B} (x y : A * B) :
  x ≺ y ↔ x.1 ≺ y.1 ∨ (x.1 = y.1 ∧ x.2 ≺ y.2).
Proof.
  destruct x as [a b], y as [a' b']. unfold tlt at 1, cmp, prod_cmp; simpl.
  destruct (cmp a a') eqn:E; unfold tlt; rewrite E.
  - apply cmp_eq_iff in E as ->. split; [by right|]. by intros [?|[_ ?]].
  - split; [by left|done].
  - split; [done|]. intros [?|[-> _]]; [done|].
    by rewrite (proj2 (cmp_eq_iff a' a') eq_refl) in E.
Qed.

(** ** Fallible results *)

(** Rust's [Result<A, E>]. *)
Inductive result (E A : Type) : Type :=
  | Ok (a : A)
  | Err (e : E).
Arguments Ok {E A} a.
Arguments Err {E A} e.

#[export] Instance result_eq_dec {E A} `{EqDecision E, EqDecision A} : EqDecision (result E A).
Proof. solve_decision. Defined.

Definition result_bind {E A B} (m : result E A) (f : A → result E B) : result E B :=
  match m with
  | Ok a => f a
  | Err e => Err e
  end.

(** Rust's [?] operator. *)
Notation "'try' x <- m ; k" := (result_bind m (λ x, k))
  (at level 100, x pattern, m at next level, right associativity) : sunrise_scope.

(** [Option::ok_or]. *)
Definition ok_or {E A} (o : option A) (e : E) : result E A :=
  match o with
  | Some a => Ok a
  | None => Err e
  end.

Lemma result_bind_Ok {E A B} (m : result E A) (f : A → result E B) b :
  result_bind m f = Ok b ↔ ∃ a, m = Ok a ∧ f a = Ok b.
Proof. destruct m; simpl; split; [eauto|by intros (? & [= ->] & ?)|done|by intros (? & ? & ?)]. Qed.

(** ** Machine integers

    An unsigned [w]-bit integer is a [Z] in [0 .. 2^w - 1]. *)
Definition u8_max : Z := 255.
Definition u16_max : Z := 65535.
Definition u32_max : Z := 4294967295.
Definition u64_max : Z := 18446744073709551615.
Definition u128_max : Z := 340282366920938463463374607431768211455.
Definition i64_max : Z := 9223372036854775807.
Definition i64_min : Z := -9223372036854775808.

Lemma widths_are_powers :
  (u8_max = 2 ^ 8 - 1 ∧ u16_max = 2 ^ 16 - 1 ∧ u32_max = 2 ^ 32 - 1 ∧
   u64_max = 2 ^ 64 - 1 ∧ u128_max = 2 ^ 128 - 1 ∧ i64_max = 2 ^ 63 - 1 ∧
   i64_min = - 2 ^ 63)%Z.
Proof. by vm_compute. Qed.

Definition in_u8 (x : Z) : Prop := (0 ≤ x ≤ u8_max)%Z.
Definition in_u32 (x : Z) : Prop := (0 ≤ x ≤ u32_max)%Z.
Definition in_u64 (x : Z) : Prop := (0 ≤ x ≤ u64_max)%Z.
Definition in_u128 (x : Z) : Prop := (0 ≤ x ≤ u128_max)%Z.

(** [saturating_add] and [saturating_sub] on an unsigned type whose greatest
    value is [top], and [i64::saturating_add]. *)
Definition sat_add (top x y : Z) : Z := Z.min (x + y) top.
Definition sat_sub (x y : Z) : Z := Z.max (x - y) 0.
Definition sat_add_i64 (x y : Z) : Z := Z.max i64_min (Z.min (x + y) i64_max).

(** [widths] replaces the width constants by their values, for [lia]. *)
Ltac widths :=
  unfold in_u8, in_u32, in_u64, in_u128, sat_add, sat_sub, sat_add_i64 in *;
  unfold u8_max, u16_max, u32_max, u64_max, u128_max, i64_max, i64_min in *.

(** [forall_list] splits [Forall P [x1; ..; xn]] into its [n] instances. *)
Ltac forall_list := repeat first [apply Forall_nil_2 | apply Forall_cons_2].

(** ** Stable sorting

    Rust's [sort_by_key] is stable: elements equal in the order keep their
    places.  [isort] is the insertion sort with that property. *)
Section isort.
Context {A : Type} (R : A → A → Prop) `{!RelDecision R}.

Fixpoint insert_sorted (x : A) (l : list A) : list A :=
  match l with
  | [] => [x]
  | y :: l' => if decide (R x y) then x :: l else y :: insert_sorted x l'
  end.
Definition isort (l : list A) : list A := foldr insert_sorted [] l.

Lemma insert_sorted_Permutation x l : insert_sorted x l ≡ₚ x :: l.
Proof.
  induction l as [|y l IH]; simpl; [done|]. case_decide; [done|].
  rewrite IH. by constructor.
Qed.
Lemma isort_Permutation l : isort l ≡ₚ l.
Proof. induction l as [|x l IH]; simpl; [done|]. by rewrite insert_sorted_Permutation, IH. Qed.

Lemma elem_of_isort x l : x ∈ isort l ↔ x ∈ l.
Proof. by rewrite isort_Permutation. Qed.
Lemma length_isort l : length (isort l) = length l.
Proof. by rewrite isort_Permutation. Qed.

Lemma insert_sorted_Sorted `{!Total R} x l : Sorted R l → Sorted R (insert_sorted x l).
Proof.
  induction 1 as [|y l Hs IH Hhd]; simpl; [by repeat constructor|]. case_decide as Hxy.
  - by repeat constructor.
  - assert (R y x) as Hyx by (destruct (total R x y); done).
    constructor; [done|]. destruct l as [|z l]; simpl; [by constructor|].
    case_decide; [by constructor|]. by inversion Hhd; constructor.
Qed.
Lemma isort_Sorted `{!Total R} l : Sorted R (isort l).
Proof. induction l; simpl; [constructor|]. by apply insert_sorted_Sorted. Qed.
Lemma isort_StronglySorted `{!Total R, !Transitive R} l : StronglySorted R (isort l).
Proof. apply Sorted_StronglySorted; [intros ???; by etrans|apply isort_Sorted]. Qed.

Lemma insert_sorted_id x l : Sorted R (x :: l) → insert_sorted x l = x :: l.
Proof.
  intros Hs. apply Sorted_inv in Hs as [_ Hhd]. destruct l as [|y l]; simpl; [done|].
  apply HdRel_inv in Hhd. by rewrite decide_True.
Qed.
(** A list already in order is left as it is. *)
Lemma isort_id l : Sorted R l → isort l = l.
Proof.
  induction l as [|x l IH]; intros Hs; simpl; [done|]. apply Sorted_inv in Hs as [Hl Hhd].
  rewrite IH by done. apply insert_sorted_id. by constructor.
Qed.

(** Without ties the order of the input does not matter. *)
Lemma isort_unique `{!Total R, !Transitive R} l1 l2 :
  (∀ x y, x ∈ l1 → y ∈ l1 → R x y → R y x → x = y) → l1 ≡ₚ l2 → isort l1 = isort l2.
Proof.
  intros Hanti Hp.
  assert (isort l1 ≡ₚ isort l2) as Hpp by by rewrite !isort_Permutation.
  assert (∀ x y, x ∈ isort l1 → y ∈ isort l1 → R x y → R y x → x = y) as Ha
    by (intros x y; rewrite !elem_of_isort; apply Hanti).
  pose proof (isort_StronglySorted l1) as H1. pose proof (isort_StronglySorted l2) as H2.
  revert Hpp Ha H1 H2. generalize (isort l1) (isort l2). clear.
  induction l as [|x l IH]; intros l2 Hp Ha H1 H2.
  { by apply Permutation_nil_l in Hp as ->. }
  destruct l2 as [|y l2]; [by apply Permutation_nil_r in Hp|].
  apply StronglySorted_inv in H1 as [H1 Hx], H2 as [H2 Hy].
  rewrite Forall_forall in Hx, Hy.
  assert (x = y) as <-.
  { assert (x ∈ y :: l2) as Hin1 by (rewrite <-Hp; by left).
    assert (y ∈ x :: l) as Hin2 by (rewrite Hp; by left).
    apply elem_of_cons in Hin1 as [|Hin1]; [done|].
    apply elem_of_cons in Hin2 as [|Hin2]; [done|].
    apply Ha; [by left|by right|by apply Hx|by apply Hy]. }
  f_equal. apply (IH l2); [by apply Permutation_cons_inv in Hp| |done|done].
  intros a b Ha' Hb'. apply Ha; by right.
Qed.
End isort.

(** ** Filters that keep nothing, and everything *)

Lemma filter_none {A} (P : A → Prop) `{!∀ x, Decision (P x)} (l : list A) : (∀ x, x ∈ l → ¬ P x) → filter P l = [].
Proof.
  induction l as [|x l IH]; intros Hl; [done|]. rewrite filter_cons_False by (apply Hl; left). apply IH.
  intros y Hy. apply Hl. by right.
Qed.

Lemma filter_all {A} (P : A → Prop) `{!∀ x, Decision (P x)} (l : list A) : (∀ x, x ∈ l → P x) → filter P l = l.
Proof.
  induction l as [|x l IH]; intros Hl; [done|]. rewrite filter_cons_True by (apply Hl; left). f_equal. apply IH.
  intros y Hy. apply Hl. by right.
Qed.

(** A list sorted by a key, cut at a value of the key. *)
Lemma sorted_split {A B} `{CmpLaws B} (f : A → B) (d : B) (l : list A) :
  StronglySorted (λ x y, f x ≺ f y) l → l = filter (λ x, f x ≺ d) l ++ filter (λ x, ¬ f x ≺ d) l.
Proof.
  induction 1 as [|x l _ IH Hall]; [done|]. rewrite !filter_cons. destruct (decide (f x ≺ d)) as [Hx|Hx].
  - rewrite (decide_False (P := ¬ f x ≺ d)) by tauto. cbn [app]. by f_equal.
  - rewrite (decide_True (P := ¬ f x ≺ d)) by done. rewrite Forall_forall in Hall.
    assert (∀ y, y ∈ l → ¬ f y ≺ d) as Hl by (intros y Hy Hyd; apply Hx; eapply tlt_trans; [by apply Hall|done]).
    rewrite (filter_none (λ y, f y ≺ d)) by done. cbn [app]. f_equal. symmetry. by apply filter_all.
Qed.

Lemma StronglySorted_sublist {A} (R : relation A) (l k : list A) :
  l `sublist_of` k → StronglySorted R k → StronglySorted R l.
Proof.
  induction 1 as [|x l k Hs IH|x l k Hs IH]; intros Hk; [done| |]; apply StronglySorted_inv in Hk as [Hk Hx]; [|by apply IH].
  constructor; [by apply IH|]. rewrite Forall_forall in Hx |- *. intros y Hy. apply Hx. by eapply elem_of_sublist.
Qed.

(** ** Folding a fallible step over a list *)

Fixpoint foldm {A B} (f : B → A → option B) (b : B) (l : list A) : option B :=
  match l with
  | [] => Some b
  | x :: l' => b' ← f b x; foldm f b' l'
  end.

Lemma foldm_app {A B} (f : B → A → option B) b l1 l2 :
  foldm f b (l1 ++ l2) = (b' ← foldm f b l1; foldm f b' l2).
Proof. revert b. induction l1 as [|x l1 IH]; intros b; simpl; [done|]. by destruct (f b x); simpl. Qed.

Lemma foldm_fmap {A A' B} (f : B → A' → option B) (g : A → A') b l :
  foldm f b (g <$> l) = foldm (λ b x, f b (g x)) b l.
Proof. revert b. induction l as [|x l IH]; intros b; simpl; [done|]. by destruct (f b (g x)); simpl. Qed.

(** A step that is itself a fold of smaller ones. *)
Lemma foldm_bind {A A' B} (f : B → A' → option B) (g : A → list A') b l :
  foldm f b (l ≫= g) = foldm (λ b x, foldm f b (g x)) b l.
Proof.
  revert b. induction l as [|x l IH]; intros b; simpl; [done|].
  rewrite foldm_app. by destruct (foldm f b (g x)); simpl.
Qed.

Lemma foldm_ext {A B} (f g : B → A → option B) b l :
  (∀ b x, x ∈ l → f b x = g b x) → foldm f b l = foldm g b l.
Proof.
  revert b. induction l as [|x l IH]; intros b Hfg; simpl; [done|].
  rewrite Hfg by by left. destruct (g b x); simpl; [|done]. apply IH. intros ???. apply Hfg. by right.
Qed.
