(* ===== verification/Bytes.v ===== *)
(** * Bytes

    A byte is a [Z] in [0 .. 255]; a byte string is a list of them.  The
    big-endian readings of [u16::from_be_bytes] and of the 16-byte ids, and
    the bytewise comparison Rust's slices have. *)

From Stdlib Require Import ZArith Lia.
From Stdlib Require Ascii String.
From stdpp Require Import base tactics decidable countable option list numbers.
From S2P Require Import Prelude.
Open Scope Z_scope.

Abbreviation bytes := (list Z).

Definition is_byte (b : Z) : Prop := 0 ≤ b < 256.
Definition are_bytes (l : bytes) : Prop := Forall is_byte l.
#[export] Instance is_byte_dec b : Decision (is_byte b).
Proof. unfold is_byte. apply _. Defined.
#[export] Instance are_bytes_dec l : Decision (are_bytes l).
Proof. unfold are_bytes. apply _. Defined.

(** [be_decode l] is the big-endian value of [l], [be_encode n x] the [n]
    bytes of [x]. *)
Definition be_decode (l : bytes) : Z := foldl (λ acc b, acc * 256 + b) 0 l.

Fixpoint be_encode (n : nat) (x : Z) : bytes :=
  match n with
  | O => []
  | S n' => be_encode n' (x / 256) ++ [x mod 256]
  end.

(** A byte below a shifted value. *)
Lemma lor_is_add a b k : 0 ≤ k → 0 ≤ b < 2 ^ k → Z.lor (a * 2 ^ k) b = a * 2 ^ k + b.
Proof.
  intros Hk Hb. assert (Z.land (a * 2 ^ k) b = 0) as Hland.
  { apply Z.bits_inj'. intros n Hn. rewrite Z.land_spec, Z.bits_0. destruct (decide (n < k)).
    - by rewrite Z.mul_pow2_bits_low.
    - rewrite <-(Z.mod_small b (2 ^ k)) by done. rewrite Z.mod_pow2_bits_high by lia. apply andb_false_r. }
  by rewrite Z.add_nocarry_lxor, Z.lxor_lor by done.
Qed.
Lemma be_decode_app l1 l2 :
  be_decode (l1 ++ l2) = be_decode l1 * 256 ^ Z.of_nat (length l2) + be_decode l2.
Proof.
  unfold be_decode. rewrite foldl_app. generalize (foldl (λ acc b, acc * 256 + b) 0 l1). induction l2 as [|b l2 IH]; intros a; cbn [foldl length].
  - change (Z.of_nat 0) with 0. lia.
  - rewrite IH, (IH (0 * 256 + b)), Nat2Z.inj_succ, Z.pow_succ_r by lia. lia.
Qed.

Lemma be_decode_snoc l b : be_decode (l ++ [b]) = be_decode l * 256 + b.
Proof. rewrite be_decode_app. unfold be_decode; simpl. lia. Qed.

Lemma be_decode_bounds l : are_bytes l → 0 ≤ be_decode l < 256 ^ Z.of_nat (length l).
Proof.
  induction l as [|b l IH] using rev_ind; intros Hl; [unfold be_decode; simpl; lia|].
  apply Forall_app in Hl as [Hl Hb]. apply Forall_cons_1 in Hb as [Hb _].
  specialize (IH Hl). unfold is_byte in Hb. rewrite be_decode_snoc, length_app; cbn [length].
  replace (Z.of_nat (length l + 1)) with (Z.succ (Z.of_nat (length l))) by lia.
  rewrite Z.pow_succ_r by lia. lia.
Qed.

Lemma length_be_encode n x : length (be_encode n x) = n.
Proof. revert x. induction n; intros x; simpl; [done|]. rewrite length_app, IHn. simpl. lia. Qed.

Lemma be_encode_bytes n x : are_bytes (be_encode n x).
Proof.
  revert x. induction n; intros x; simpl; [constructor|].
  apply Forall_app. split; [apply IHn|]. apply Forall_singleton. apply (Z.mod_pos_bound x 256). lia.
Qed.

Lemma be_decode_encode n x : 0 ≤ x < 256 ^ Z.of_nat n → be_decode (be_encode n x) = x.
Proof.
  revert x. induction n as [|n IH]; intros x Hx.
  - change (256 ^ Z.of_nat 0) with 1 in Hx. unfold be_decode; simpl. lia.
  - cbn [be_encode]. rewrite Nat2Z.inj_succ, Z.pow_succ_r in Hx by lia.
    rewrite be_decode_snoc, IH; [pose proof (Z.div_mod x 256); lia|].
    split; [apply Z.div_pos; lia|]. apply Z.div_lt_upper_bound; lia.
Qed.

Lemma be_encode_decode l : are_bytes l → be_encode (length l) (be_decode l) = l.
Proof.
  induction l as [|b l IH] using rev_ind; intros Hl; [done|].
  apply Forall_app in Hl as [Hl Hb]. apply Forall_cons_1 in Hb as [Hb _]. unfold is_byte in Hb.
  rewrite length_app, be_decode_snoc; cbn [length]. rewrite Nat.add_comm. cbn [Nat.add be_encode].
  rewrite Z.div_add_l, Z.div_small, Z.add_0_r by lia. rewrite IH by done. f_equal.
  rewrite Z.add_comm, Z.mod_add, Z.mod_small by lia. done.
Qed.

#[export] Hint Resolve be_encode_bytes : sunrise.

(** ** Bytewise comparison *)

Fixpoint bytes_compare (a b : bytes) : comparison :=
  match a, b with
  | [], [] => Eq
  | [], _ => Lt
  | _, [] => Gt
  | x :: a', y :: b' => match Z.compare x y with Eq => bytes_compare a' b' | c => c end
  end.

#[export] Instance bytes_cmp : Cmp bytes := bytes_compare.
#[export] Instance bytes_cmp_laws : CmpLaws bytes.
Proof.
  split; unfold cmp, bytes_cmp.
  - intros x; induction x as [|a x IH]; intros [|b y]; simpl; try (split; congruence).
    destruct (Z.compare a b) eqn:E.
    + apply Z.compare_eq_iff in E as ->. rewrite IH. split; [by intros ->|by intros [= ->]].
    + split; [done|]. intros [= -> ->]. by rewrite Z.compare_refl in E.
    + split; [done|]. intros [= -> ->]. by rewrite Z.compare_refl in E.
  - intros x; induction x as [|a x IH]; intros [|b y]; simpl; try done.
    rewrite (Z.compare_antisym a b). destruct (Z.compare a b); simpl; [apply IH|done..].
  - intros x; induction x as [|a x IH]; intros [|b y] [|c z]; simpl; try done.
    destruct (Z.compare a b) eqn:E1, (Z.compare b c) eqn:E2; try done;
      rewrite ?Z.compare_eq_iff, ?Z.compare_lt_iff in E1, E2; subst;
      repeat match goal with |- context [Z.compare ?p ?q] =>
        let E := fresh in destruct (Z.compare p q) eqn:E end;
      rewrite ?Z.compare_eq_iff, ?Z.compare_lt_iff, ?Z.compare_gt_iff in *; try lia; try done.
    by apply IH.
Qed.

(** ** Text

    A Rust [&str] is a [string] of its UTF-8 bytes; [text_bytes] is
    [str::as_bytes] and [text_of] reads bytes as text again. *)

Definition text_bytes (s : String.string) : bytes :=
  (λ c, Z.of_nat (Ascii.nat_of_ascii c)) <$> String.list_ascii_of_string s.
Definition text_of (b : bytes) : String.string :=
  String.string_of_list_ascii ((λ x, Ascii.ascii_of_nat (Z.to_nat x)) <$> b).

Lemma text_bytes_are_bytes s : are_bytes (text_bytes s).
Proof.
  apply Forall_fmap, Forall_true. intros c. simpl. unfold is_byte.
  pose proof (Ascii.nat_ascii_bounded c). lia.
Qed.
Lemma text_of_bytes s : text_of (text_bytes s) = s.
Proof.
  unfold text_of, text_bytes. rewrite <-list_fmap_compose.
  rewrite <-(String.string_of_list_ascii_of_string s) at 2. f_equal.
  rewrite <-(list_fmap_id (String.list_ascii_of_string s)) at 2. apply list_fmap_ext.
  intros _ c _. simpl. by rewrite Nat2Z.id, Ascii.ascii_nat_embedding.
Qed.
Lemma text_bytes_of b : are_bytes b → text_bytes (text_of b) = b.
Proof.
  intros Hb. unfold text_bytes, text_of. rewrite String.list_ascii_of_string_of_list_ascii, <-list_fmap_compose.
  induction Hb as [|x b Hx _ IH]; [done|]. cbn [fmap list_fmap]. rewrite IH. f_equal. unfold is_byte in Hx. simpl.
  rewrite Ascii.nat_ascii_embedding by lia. lia.
Qed.
Lemma text_bytes_app s1 s2 : text_bytes (String.append s1 s2) = text_bytes s1 ++ text_bytes s2.
Proof. unfold text_bytes. induction s1 as [|c s1 IH]; [done|]. exact (f_equal (cons _) IH). Qed.
Lemma text_bytes_inj s1 s2 : text_bytes s1 = text_bytes s2 → s1 = s2.
Proof. intros E. by rewrite <-(text_of_bytes s1), E, text_of_bytes. Qed.
Lemma text_of_app b1 b2 : text_of (b1 ++ b2) = String.append (text_of b1) (text_of b2).
Proof. unfold text_of. induction b1 as [|x b1 IH]; [done|]. exact (f_equal (String.String _) IH). Qed.
Lemma length_text_bytes s : length (text_bytes s) = String.length s.
Proof. unfold text_bytes. rewrite length_fmap. induction s as [|c s IH]; [done|]. exact (f_equal S IH). Qed.
Lemma length_text_of b : String.length (text_of b) = length b.
Proof. unfold text_of. induction b as [|x b IH]; [done|]. exact (f_equal S IH). Qed.
#[export] Hint Resolve text_bytes_are_bytes : sunrise.
