(* ===== verification/Hlc.v ===== *)
(** * Hybrid logical clocks (sunrise-cbor/src/hlc.rs)

    A clock reading is a wall-clock millisecond and a counter; [send] stamps an
    op, [receive] absorbs a peer's stamp.  Both components keep their machine
    width: [physical_ms] is a [u64], [logical] a [u32] whose increment
    saturates. *)

From Stdlib Require Import ZArith Lia.
From stdpp Require Import base tactics decidable countable option list sorting.
From S2P Require Import Prelude.
Open Scope Z_scope.
#[local] Coercion Z.of_nat : nat >-> Z.

(** ** The reading and its order *)

Record Hlc := mkHlc { physical_ms : Z; logical : Z }.

#[export] Instance Hlc_eq_dec : EqDecision Hlc.
Proof. solve_decision. Defined.

Definition hlc_key (h : Hlc) : Z * Z := (physical_ms h, logical h).

#[export] Instance hlc_key_inj : Inj (=) (=) hlc_key.
Proof. intros [] [] [= -> ->]. done. Qed.
#[export] Instance Hlc_countable : Countable Hlc.
Proof. apply (inj_countable' hlc_key (λ '(p, l), mkHlc p l)). by intros []. Defined.

(** The derived [Ord]: physical time first, then the counter. *)
#[export] Instance Hlc_cmp : Cmp Hlc := cmp_on hlc_key.
#[export] Instance Hlc_cmp_laws : CmpLaws Hlc := cmp_on_laws hlc_key _.

Lemma hlc_lt_iff a b :
  a ≺ b ↔ physical_ms a < physical_ms b ∨
          (physical_ms a = physical_ms b ∧ logical a < logical b).
Proof. rewrite <-!Z_tlt_lt. apply (prod_tlt (hlc_key a) (hlc_key b)). Qed.

Definition hlc_wf (h : Hlc) : Prop := in_u64 (physical_ms h) ∧ in_u32 (logical h).

(** ** Operations *)

Definition MAX_DRIFT_MS : Z := 5 * 60 * 1000.

Inductive HlcError := DriftTooLarge (ahead_ms : Z).

Definition hlc_at (ms : Z) : Hlc := mkHlc ms 0.

Definition send (self : Hlc) (now_ms : Z) : Hlc :=
  if decide (now_ms > physical_ms self) then mkHlc now_ms 0
  else mkHlc (physical_ms self) (sat_add u32_max (logical self) 1).

Definition max3 (a b c : Z) : Z :=
  let ab := if decide (a > b) then a else b in
  if decide (ab > c) then ab else c.

Definition max_u32 (a b : Z) : Z := if decide (a > b) then a else b.

Definition receive (self received : Hlc) (now_ms : Z) : result HlcError Hlc :=
  if decide (physical_ms received > sat_add u64_max now_ms MAX_DRIFT_MS) then
    Err (DriftTooLarge (physical_ms received - now_ms))
  else
    let physical := max3 (physical_ms self) (physical_ms received) now_ms in
    let logical :=
      if decide (physical = physical_ms self ∧ physical = physical_ms received) then
        sat_add u32_max (max_u32 (logical self) (logical received)) 1
      else if decide (physical = physical_ms self) then
        sat_add u32_max (logical self) 1
      else if decide (physical = physical_ms received) then
        sat_add u32_max (logical received) 1
      else 0 in
    Ok (mkHlc physical logical).

(** ** A device's clock as a run of events

    [run] threads the clock through a device's sends and receives, in order,
    and collects the stamps it emitted.  A refused reading leaves the clock as
    it was: the caller drops the op. *)
Inductive ClockEvent :=
  | Send (now_ms : Z)
  | Receive (received : Hlc) (now_ms : Z).

Definition clock_step (h : Hlc) (e : ClockEvent) : Hlc * option Hlc :=
  match e with
  | Send now => (send h now, Some (send h now))
  | Receive r now =>
      match receive h r now with
      | Ok h' => (h', None)
      | Err _ => (h, None)
      end
  end.

Fixpoint run (h : Hlc) (es : list ClockEvent) : Hlc * list Hlc :=
  match es with
  | [] => (h, [])
  | e :: es =>
      let '(h1, out) := clock_step h e in
      let '(h2, outs) := run h1 es in
      (h2, option_list out ++ outs)
  end.

Definition event_now (e : ClockEvent) : Z :=
  match e with Send now => now | Receive _ now => now end.

(** The counter headroom a run of [n] events needs: no counter it can
    continue is within [n] of saturation. *)
Definition headroom (n : Z) (h : Hlc) : Prop := logical h + n ≤ u32_max.
Definition event_headroom (n : Z) (e : ClockEvent) : Prop :=
  match e with Send _ => True | Receive r _ => headroom n r end.

(** ** Lemmas *)

Ltac hlc_cases :=
  unfold send, receive, max3, max_u32, headroom, event_headroom, hlc_wf, MAX_DRIFT_MS in *;
  cbn [physical_ms logical] in *;
  repeat case_decide; cbn [physical_ms logical] in *; simplify_eq/=; widths.

Lemma send_wf h now : hlc_wf h → in_u64 now → hlc_wf (send h now).
Proof. intros. hlc_cases; lia. Qed.

Lemma receive_wf h r now h' :
  hlc_wf h → hlc_wf r → in_u64 now → receive h r now = Ok h' → hlc_wf h'.
Proof. intros. hlc_cases; lia. Qed.

Lemma send_headroom n h now :
  0 ≤ n → hlc_wf h → headroom (n + 1) h → headroom n (send h now).
Proof. intros. hlc_cases; lia. Qed.

Lemma receive_headroom n h r now h' :
  0 ≤ n → hlc_wf h → hlc_wf r → headroom (n + 1) h → headroom (n + 1) r →
  receive h r now = Ok h' → headroom n h'.
Proof. intros. hlc_cases; lia. Qed.

Lemma send_lt h now : headroom 1 h ∨ physical_ms h < now → h ≺ send h now.
Proof. rewrite hlc_lt_iff. intros. hlc_cases; lia. Qed.

Lemma receive_lt h r now h' :
  hlc_wf h → hlc_wf r → headroom 1 h → headroom 1 r →
  receive h r now = Ok h' → h ≺ h' ∧ r ≺ h'.
Proof. rewrite !hlc_lt_iff. intros. hlc_cases; lia. Qed.

Lemma receive_le h r now h' :
  hlc_wf h → hlc_wf r → receive h r now = Ok h' → h ≼ h' ∧ r ≼ h'.
Proof. rewrite !tle_not_tlt, !hlc_lt_iff. intros. hlc_cases; lia. Qed.

Definition event_wf (e : ClockEvent) : Prop :=
  match e with
  | Send now => in_u64 now
  | Receive r now => hlc_wf r ∧ in_u64 now
  end.

(** One event moves the clock forward or leaves it, and consumes at most one
    unit of headroom. *)
Lemma clock_step_spec n h e :
  0 ≤ n → hlc_wf h → event_wf e → headroom (n + 1) h → event_headroom (n + 1) e →
  let '(h', out) := clock_step h e in
  hlc_wf h' ∧ headroom n h' ∧ h ≼ h' ∧ (∀ s, out = Some s → s = h' ∧ h ≺ s).
Proof.
  intros Hn Hwf He Hh Heh. destruct e as [now|r now]; simpl.
  - assert (h ≺ send h now) by (apply send_lt; left; unfold headroom in *; lia).
    split_and!; [by apply send_wf|by apply send_headroom|by apply tlt_tle|naive_solver].
  - destruct He as [Hr Hnow]. destruct (receive h r now) as [h'|] eqn:E.
    + assert (h ≺ h' ∧ r ≺ h') as [Hlt _].
      { eapply receive_lt; eauto; simpl in *; unfold headroom in *; lia. }
      split_and!; [by apply (receive_wf h r now)|by apply (receive_headroom n h r now)|by apply tlt_tle|done].
    + split_and!; [done|unfold headroom in *; lia|apply tle_refl|done].
Qed.

Lemma run_spec es h :
  hlc_wf h → Forall event_wf es →
  headroom (length es) h → Forall (event_headroom (length es)) es →
  let '(h', outs) := run h es in
  h ≼ h' ∧ Forall (λ s, h ≺ s) outs ∧ StronglySorted tlt outs.
Proof.
  revert h. induction es as [|e es IH]; intros h Hwf Hes Hh Hhs; simpl.
  { split_and!; [apply tle_refl|constructor|constructor]. }
  apply Forall_cons in Hes as [He Hes]. apply Forall_cons in Hhs as [Hhe Hhs].
  cbn [length] in Hh, Hhe, Hhs. rewrite Nat2Z.inj_succ, <-Z.add_1_r in Hh, Hhe, Hhs.
  pose proof (clock_step_spec (length es) h e ltac:(lia) Hwf He Hh Hhe) as Hstep.
  destruct (clock_step h e) as [h1 out]. destruct Hstep as (Hwf1 & Hh1 & Hle & Hout).
  assert (Forall (event_headroom (length es)) es) as Hhs'.
  { eapply Forall_impl; [exact Hhs|]. intros []; simpl; unfold headroom; [done|lia]. }
  specialize (IH h1 Hwf1 Hes Hh1 Hhs').
  destruct (run h1 es) as [h2 outs]. destruct IH as (Hle2 & Hall & Hsorted).
  split_and!; [by eapply tle_trans| |].
  - apply Forall_app. split.
    + destruct out as [s|]; [|constructor]. constructor; [|constructor]. by apply Hout.
    + eapply Forall_impl; [exact Hall|]. intros s Hs. by eapply tle_tlt_trans.
  - destruct out as [s|]; [|done]. destruct (Hout s eq_refl) as [-> _].
    by constructor.
Qed.

Lemma max3_max a b c : max3 a b c = Z.max a (Z.max b c).
Proof. unfold max3. repeat case_decide; lia. Qed.

Lemma receive_physical h r now h' :
  receive h r now = Ok h' →
  physical_ms r ≤ now + MAX_DRIFT_MS ∧
  physical_ms h' = Z.max (physical_ms h) (Z.max (physical_ms r) now).
Proof.
  unfold receive. case_decide as Hd; [intros E; discriminate E|].
  intros E. injection E as <-. split; [unfold sat_add in Hd; lia|].
  cbn [physical_ms]. by rewrite max3_max.
Qed.

(** ** Properties *)

(** C18: [send] moves a device's clock strictly forward whatever the wall clock
    reads, as long as the counter is not saturated; at a saturated counter
    and a wall clock that has not advanced it returns its input, a tie that
    the last terms of the merge stamp break. *)
Theorem send_strictly_increases h now :
  hlc_wf h →
  (h ≺ send h now) ∨ (send h now = h ∧ logical h = u32_max ∧ now ≤ physical_ms h).
Proof.
  intros Hwf. destruct (decide (logical h + 1 ≤ u32_max ∨ physical_ms h < now)) as [Hd|Hd].
  - left. by apply send_lt.
  - right. destruct h as [p l], Hwf as [_ Hl]. unfold send, sat_add. cbn [physical_ms logical] in *.
    case_decide; [lia|]. unfold in_u32 in Hl. split_and!; [f_equal; lia|lia|lia].
Qed.

Lemma send_strictly_increases_witness :
  hlc_wf (mkHlc 7200000 3) ∧
  ((mkHlc 7200000 3 ≺ send (mkHlc 7200000 3) 3600000) ∨
   (send (mkHlc 7200000 3) 3600000 = mkHlc 7200000 3 ∧ 3 = u32_max ∧ 3600000 ≤ 7200000)).
Proof.
  assert (hlc_wf (mkHlc 7200000 3)) as Hwf by (unfold hlc_wf; simpl; widths; lia).
  split; [exact Hwf|]. apply (send_strictly_increases (mkHlc 7200000 3) 3600000 Hwf).
Defined.

(** C23: [receive] refuses exactly the readings further ahead of the wall clock
    than the drift limit, with how far ahead they are; otherwise the new clock
    dominates both the local clock and the received stamp (strictly, unless a
    counter it continues is saturated), keeps the machine widths, and never
    takes a physical component none of its inputs had. *)
Theorem receive_absorbs_or_refuses h r now :
  hlc_wf h → hlc_wf r → in_u64 now →
  match receive h r now with
  | Err (DriftTooLarge ahead) =>
      physical_ms r > Z.min (now + MAX_DRIFT_MS) u64_max ∧
      ahead = physical_ms r - now ∧ in_u64 ahead
  | Ok h' =>
      physical_ms r ≤ now + MAX_DRIFT_MS ∧ hlc_wf h' ∧ h ≼ h' ∧ r ≼ h' ∧
      (headroom 1 h → headroom 1 r → h ≺ h' ∧ r ≺ h') ∧
      physical_ms h' = Z.max now (Z.max (physical_ms h) (physical_ms r))
  end.
Proof.
  intros Hh Hr Hnow. destruct (receive h r now) as [h'|[ahead]] eqn:E.
  - split_and!.
    + by apply receive_physical in E as [? _].
    + by apply (receive_wf h r now).
    + by apply (receive_le h r now).
    + by apply (receive_le h r now).
    + intros. by apply (receive_lt h r now).
    + apply receive_physical in E as [_ ->]. lia.
  - unfold receive in E. case_decide; [|done]. injection E as <-.
    destruct Hr as [Hr _]. unfold sat_add, MAX_DRIFT_MS, in_u64 in *. lia.
Qed.

Lemma receive_absorbs_or_refuses_witness :
  receive (mkHlc 100 3) (mkHlc 100 7) 100 = Ok (mkHlc 100 8) ∧
  match receive (mkHlc 100 3) (mkHlc 100 7) 100 with
  | Err (DriftTooLarge ahead) =>
      100 > Z.min (100 + MAX_DRIFT_MS) u64_max ∧ ahead = 100 - 100 ∧ in_u64 ahead
  | Ok h' =>
      100 ≤ 100 + MAX_DRIFT_MS ∧ hlc_wf h' ∧ mkHlc 100 3 ≼ h' ∧ mkHlc 100 7 ≼ h' ∧
      (headroom 1 (mkHlc 100 3) → headroom 1 (mkHlc 100 7) →
         mkHlc 100 3 ≺ h' ∧ mkHlc 100 7 ≺ h') ∧
      physical_ms h' = Z.max 100 (Z.max 100 100)
  end.
Proof.
  split; [reflexivity|].
  apply (receive_absorbs_or_refuses (mkHlc 100 3) (mkHlc 100 7) 100);
    unfold hlc_wf; simpl; widths; lia.
Defined.

(** C22: causality.  Whatever the wall clocks read, the stamps one device emits
    along any run of sends and receives strictly increase; and once a peer's
    stamp [r] has been absorbed, every stamp the device emits afterwards is
    strictly above [r].  The counters have headroom for the run: a [u32] that
    starts low takes more than four billion events inside one millisecond to
    use it up. *)
Theorem emitted_stamps_are_causal h r now h' es :
  hlc_wf h → hlc_wf r → in_u64 now → Forall event_wf es →
  headroom (length es + 1) h → headroom (length es + 1) r →
  Forall (event_headroom (length es)) es →
  receive h r now = Ok h' →
  StronglySorted tlt (run h' es).2 ∧
  Forall (λ s, h ≺ s) (run h' es).2 ∧ Forall (λ s, r ≺ s) (run h' es).2.
Proof.
  intros Hh Hr Hnow Hes Hhh Hrh Hhs E.
  pose proof (receive_headroom (length es) h r now h' ltac:(lia) Hh Hr Hhh Hrh E) as Hh'.
  assert (h ≺ h' ∧ r ≺ h') as [Hlt Hrt].
  { eapply receive_lt; eauto; unfold headroom in *; lia. }
  pose proof (run_spec es h' (receive_wf _ _ _ _ Hh Hr Hnow E) Hes Hh' Hhs) as Hrun.
  destruct (run h' es) as [h'' outs]; simpl. destruct Hrun as (_ & Hall & ?).
  split_and!; [done| |]; (eapply Forall_impl; [exact Hall|]); intros s Hs;
    by eapply tlt_trans.
Qed.

Definition witness_events : list ClockEvent :=
  [Send 1000; Receive (mkHlc 1500 4) 1000; Send 900; Send 1501].

Lemma emitted_stamps_are_causal_witness :
  receive (hlc_at 7) (mkHlc 1200 9) 1000 = Ok (mkHlc 1200 10) ∧
  StronglySorted tlt (run (mkHlc 1200 10) witness_events).2 ∧
  Forall (λ s, hlc_at 7 ≺ s) (run (mkHlc 1200 10) witness_events).2 ∧
  Forall (λ s, mkHlc 1200 9 ≺ s) (run (mkHlc 1200 10) witness_events).2.
Proof.
  split; [reflexivity|].
  apply (emitted_stamps_are_causal (hlc_at 7) (mkHlc 1200 9) 1000 (mkHlc 1200 10)
           witness_events);
    try (unfold witness_events; forall_list); unfold headroom, hlc_wf; simpl;
    unfold headroom, hlc_wf; simpl; try done; widths; lia.
Defined.

(** A peer with a fast clock cannot drag a device along: as long as the
    device's own wall clock never reads beyond [T], its clock never passes [T]
    by more than the drift limit, whatever readings it is sent. *)
Theorem clock_stays_within_drift T h es :
  physical_ms h ≤ T + MAX_DRIFT_MS →
  Forall (λ e, event_now e ≤ T) es →
  physical_ms (run h es).1 ≤ T + MAX_DRIFT_MS.
Proof.
  intros Hh Hes. revert h Hh. induction Hes as [|e es He _ IH]; intros h Hh; [done|].
  simpl. destruct (clock_step h e) as [h1 out] eqn:E.
  specialize (IH h1). destruct (run h1 es) as [h2 outs]. simpl in *. apply IH.
  destruct e as [now|r now]; simpl in *.
  - injection E as <- _. hlc_cases; lia.
  - destruct (receive h r now) as [h'|] eqn:Er; injection E as <- _; [|done].
    apply receive_physical in Er as [? ->]. unfold MAX_DRIFT_MS in *. lia.
Qed.

Lemma clock_stays_within_drift_witness :
  physical_ms (run (hlc_at 0)
    [Send 1000; Receive (mkHlc 9000000 0) 1000; Receive (mkHlc 300000 2) 1000]).1
    ≤ 1000 + MAX_DRIFT_MS.
Proof.
  apply (clock_stays_within_drift 1000); [by vm_compute|]. forall_list; simpl; lia.
Defined.
