(* ===== verification/Cbor.v ===== *)
(** * Canonical CBOR (sunrise-cbor: canonical.rs, cbor_value.rs, bounded.rs)

    [Value] is the tree the source matches on; a float is kept by its bits.
    Writing a tree out and reading bytes in is ciborium's: [into_writer] and
    [from_reader] are parameters. *)

From Stdlib Require Import ZArith Lia.
From stdpp Require Import base tactics decidable countable option list sorting strings.
From S2P Require Import Prelude Bytes.
Open Scope Z_scope.

#[local] Unset Elimination Schemes.
Inductive Value :=
  | Integer (n : Z)
  | Bytes (b : bytes)
  | Float (bits : Z)
  | Text (s : string)
  | Bool (b : bool)
  | Null
  | Tag (t : Z) (v : Value)
  | Array (items : list Value)
  | VMap (entries : list (Value * Value)).
#[local] Set Elimination Schemes.

(** The induction principle with its hypothesis on every item and entry. *)
Section value_induction.
Context (P : Value → Prop).
Hypothesis (Hint : ∀ n, P (Integer n)) (Hbytes : ∀ b, P (Bytes b)) (Hfloat : ∀ b, P (Float b))
  (Htext : ∀ s, P (Text s)) (Hbool : ∀ b, P (Bool b)) (Hnull : P Null)
  (Htag : ∀ t v, P v → P (Tag t v))
  (Harray : ∀ l, Forall P l → P (Array l))
  (Hmap : ∀ l, Forall (λ kv, P kv.1 ∧ P kv.2) l → P (VMap l)).

Fixpoint Value_ind (v : Value) : P v :=
  match v with
  | Integer n => Hint n
  | Bytes b => Hbytes b
  | Float b => Hfloat b
  | Text s => Htext s
  | Bool b => Hbool b
  | Null => Hnull
  | Tag t v => Htag t v (Value_ind v)
  | Array l => Harray l ((fix go l : Forall P l :=
      match l with
      | [] => Forall_nil_2 _
      | x :: l' => Forall_cons_2 _ _ _ (Value_ind x) (go l')
      end) l)
  | VMap l => Hmap l ((fix go l : Forall (λ kv, P kv.1 ∧ P kv.2) l :=
      match l with
      | [] => Forall_nil_2 _
      | (k, x) :: l' => Forall_cons_2 _ (k, x) _ (conj (Value_ind k) (Value_ind x)) (go l')
      end) l)
  end.
End value_induction.

(** ** Reading a tree (ciborium's [as_text], [as_array], .. as the source
    uses them) *)

Definition as_text (v : Value) : option string := match v with Text s => Some s | _ => None end.
Definition as_bytes (v : Value) : option bytes := match v with Bytes b => Some b | _ => None end.
Definition as_integer (v : Value) : option Z := match v with Integer n => Some n | _ => None end.
Definition as_array (v : Value) : option (list Value) :=
  match v with Array l => Some l | _ => None end.
Definition as_map (v : Value) : option (list (Value * Value)) :=
  match v with VMap l => Some l | _ => None end.
Definition is_null (v : Value) : bool := match v with Null => true | _ => false end.

Fixpoint contains_float (v : Value) : bool :=
  match v with
  | Float _ => true
  | Array items => existsb contains_float items
  | VMap entries => existsb (λ '(k, val), contains_float k || contains_float val) entries
  | Tag _ inner => contains_float inner
  | _ => false
  end.

(** [CborValue]'s [Deserialize]: a tree with no float in it. *)
Definition cbor_value (v : Value) : option Value := if contains_float v then None else Some v.

Definition MAX_VALUE_DEPTH : nat := 8.
Definition MAX_DOC_DEPTH : nat := 32.

Inductive ValueDecodeError := TooDeep | Malformed.
Inductive CanonicalError :=
  | Encode
  | Decode
  | DecodeTooDeep
  | NonCanonical (input reencoded : nat).

Definition from_bounded (e : ValueDecodeError) : CanonicalError :=
  match e with TooDeep => DecodeTooDeep | Malformed => Decode end.

Section canonical.
(** ciborium's writer: the bytes it wrote, and whether it wrote the whole
    value. *)
Context (into_writer : Value → bytes * bool).

Definition entry_key (kv : Value * Value) : bytes := (into_writer kv.1).1.
Definition entry_le (a b : Value * Value) : Prop := entry_key a ≼ entry_key b.
#[export] Instance entry_le_dec : RelDecision entry_le.
Proof. intros a b. unfold entry_le. apply _. Defined.

(** Every map's entries sorted by their keys' encoded bytes. *)
Fixpoint canonicalize (v : Value) : Value :=
  match v with
  | VMap entries => VMap (isort entry_le (map (λ '(k, v), (k, canonicalize v)) entries))
  | Array items => Array (map canonicalize items)
  | Tag t inner => Tag t (canonicalize inner)
  | other => other
  end.

Definition write (v : Value) : result CanonicalError bytes :=
  match into_writer v with
  | (out, true) => Ok out
  | (_, false) => Err Encode
  end.

(** A type that serializes to a [Value], and ciborium's bounded reader for
    it: what it read, and the bytes it left. *)
Context {T : Type} (serialized : T → option Value)
  (from_reader_with_recursion_limit : nat → bytes → result ValueDecodeError (T * bytes)).

Definition encode_canonical (x : T) : result CanonicalError bytes :=
  try v <- ok_or (serialized x) Encode;
  write (canonicalize v).

Definition decode_bounded (input : bytes) (max_depth : nat) : result CanonicalError T :=
  match from_reader_with_recursion_limit max_depth input with
  | Ok (x, _) => Ok x
  | Err e => Err (from_bounded e)
  end.

Definition decode_canonical_within (input : bytes) (max_depth : nat) : result CanonicalError T :=
  try value <- decode_bounded input max_depth;
  try re_encoded <- encode_canonical value;
  if decide (re_encoded ≠ input) then Err (NonCanonical (length input) (length re_encoded))
  else Ok value.

Definition decode_canonical (input : bytes) : result CanonicalError T :=
  decode_canonical_within input MAX_DOC_DEPTH.

Definition decode_lenient (input : bytes) : result CanonicalError T :=
  decode_bounded input MAX_DOC_DEPTH.
End canonical.

(** ** Decidable equality of trees *)

#[export] Instance Value_eq_dec : EqDecision Value.
Proof.
  refine (fix go (a b : Value) {struct a} : Decision (a = b) :=
    match a, b with
    | Integer x, Integer y => cast_if (decide (x = y))
    | Bytes x, Bytes y => cast_if (decide (x = y))
    | Float x, Float y => cast_if (decide (x = y))
    | Text x, Text y => cast_if (decide (x = y))
    | Bool x, Bool y => cast_if (decide (x = y))
    | Null, Null => left eq_refl
    | Tag t x, Tag u y => cast_if_and (decide (t = u)) (go x y)
    | Array l, Array k => cast_if ((fix gos (l k : list Value) : Decision (l = k) :=
        match l, k with
        | [], [] => left eq_refl
        | x :: l', y :: k' => cast_if_and (go x y) (gos l' k')
        | _, _ => right _
        end) l k)
    | VMap l, VMap k => cast_if ((fix gos (l k : list (Value * Value)) : Decision (l = k) :=
        match l, k with
        | [], [] => left eq_refl
        | (x, x') :: l', (y, y') :: k' => cast_if_and3 (go x y) (go x' y') (gos l' k')
        | _, _ => right _
        end) l k)
    | _, _ => right _
    end); clear go; abstract (congruence || (subst; congruence)).
Defined.

(** ** Canonical form *)

Section canonical_facts.
Context (into_writer : Value → bytes * bool).
Local Abbreviation canonicalize := (canonicalize into_writer).
Local Abbreviation entry_le := (entry_le into_writer).
Local Abbreviation entry_key := (entry_key into_writer).

#[export] Instance entry_le_trans : Transitive entry_le.
Proof. intros a b c. unfold Cbor.entry_le. apply tle_trans. Qed.
#[export] Instance entry_le_total : Total entry_le.
Proof. intros a b. unfold Cbor.entry_le. apply tle_total. Qed.

(** Every map's entries are in the order of their encoded keys. *)
Fixpoint is_canonical (v : Value) : Prop :=
  match v with
  | VMap entries =>
      Sorted entry_le entries ∧
      (fix go l := match l with [] => True | (_, x) :: l' => is_canonical x ∧ go l' end) entries
  | Array items =>
      (fix go l := match l with [] => True | x :: l' => is_canonical x ∧ go l' end) items
  | Tag _ inner => is_canonical inner
  | _ => True
  end.

Lemma is_canonical_array l : is_canonical (Array l) ↔ Forall is_canonical l.
Proof.
  induction l as [|x l IH]; simpl; [by split|]. rewrite Forall_cons, <-IH. done.
Qed.
Lemma is_canonical_map l :
  is_canonical (VMap l) ↔ Sorted entry_le l ∧ Forall (λ kv, is_canonical kv.2) l.
Proof.
  simpl. apply and_iff_compat_l.
  induction l as [|[k x] l IH]; simpl; [by split|]. by rewrite Forall_cons, <-IH.
Qed.

Lemma canonicalize_is_canonical v : is_canonical (canonicalize v).
Proof.
  induction v as [| | | | | |t v IH|l IH|l IH] using Value_ind; try done.
  - simpl Cbor.canonicalize. rewrite is_canonical_array. by apply Forall_map.
  - simpl Cbor.canonicalize. rewrite is_canonical_map. split; [apply (isort_Sorted _)|].
    rewrite isort_Permutation. apply Forall_map. eapply Forall_impl; [exact IH|].
    by intros [k x] [_ ?].
Qed.

Lemma canonicalize_id v : is_canonical v → canonicalize v = v.
Proof.
  induction v as [| | | | | |t v IH|l IH|l IH] using Value_ind; intros Hc; try done.
  - simpl. f_equal. by apply IH.
  - rewrite is_canonical_array in Hc. simpl. f_equal.
    induction l as [|x l IHl]; [done|]. inversion IH; inversion Hc; subst.
    simpl. f_equal; auto.
  - rewrite is_canonical_map in Hc. destruct Hc as [Hs Hc]. simpl. f_equal.
    assert (map (λ '(k, v), (k, canonicalize v)) l = l) as ->; [|by apply isort_id].
    clear Hs. induction l as [|[k x] l IHl]; [done|]. inversion IH; inversion Hc; subst.
    simpl in *. f_equal; [f_equal; naive_solver|auto].
Qed.

(** Canonical form holds the same floats. *)
Lemma contains_float_canonicalize v : contains_float (canonicalize v) = contains_float v.
Proof.
  induction v as [| | | | | |t v IH|l IH|l IH] using Value_ind; try done.
  - simpl. induction l as [|x l IHl]; [done|]. inversion IH; subst. simpl. f_equal; auto.
  - simpl. transitivity (existsb (λ '(k, val), contains_float k || contains_float val)
      (map (λ '(k, v), (k, canonicalize v)) l)).
    + apply eq_iff_eq_true. rewrite !existsb_exists.
      setoid_rewrite <-list_elem_of_In. by setoid_rewrite elem_of_isort.
    + induction l as [|[k x] l IHl]; [done|]. inversion IH as [|? ? [_ Hx]]; subst.
      simpl in *. by rewrite Hx, IHl.
Qed.

(** Two trees that differ only in the order of their maps' entries, where the
    keys of one map are encoded differently from one another. *)
#[local] Unset Elimination Schemes.
Inductive same_value : Value → Value → Prop :=
  | same_refl v : same_value v v
  | same_tag t v w : same_value v w → same_value (Tag t v) (Tag t w)
  | same_array l k : Forall2 same_value l k → same_value (Array l) (Array k)
  | same_map l k p :
      Forall2 (λ a b, a.1 = b.1 ∧ same_value a.2 b.2) l p → p ≡ₚ k →
      NoDup (entry_key <$> l) → same_value (VMap l) (VMap k).
#[local] Set Elimination Schemes.

Lemma same_value_canonical v w : same_value v w → canonicalize v = canonicalize w.
Proof.
  revert w. induction v as [| | | | | |t v IH|l IH|l IH] using Value_ind; intros w Hs; inversion Hs; subst; try done.
  - simpl. f_equal. auto.
  - simpl. f_equal. match goal with H : Forall2 _ _ _ |- _ => rename H into Hf end.
    clear Hs. induction Hf as [|a b l p Hab Hf IHf]; [done|].
    inversion IH; subst. simpl. f_equal; auto.
  - match goal with H : Forall2 _ _ _ |- _ => rename H into Hf end. simpl. f_equal.
    assert (map (λ '(k, v), (k, canonicalize v)) l = map (λ '(k, v), (k, canonicalize v)) p) as Heq.
    { clear Hs. repeat match goal with H : _ ≡ₚ _ |- _ => clear H | H : NoDup _ |- _ => clear H end.
      induction Hf as [|[a x] [b y] l p [Hk Hv] Hf IHf]; [done|]. simpl in *. subst b.
      inversion IH as [|? ? [_ Hx]]; subst. f_equal; [f_equal; by apply Hx|auto]. }
    apply isort_unique; [apply _..| |].
    + intros a b Ha Hb Hab Hba.
      apply list_elem_of_In, in_map_iff in Ha as ([ka xa] & <- & Ha%list_elem_of_In).
      apply list_elem_of_In, in_map_iff in Hb as ([kb xb] & <- & Hb%list_elem_of_In).
      assert (entry_key (ka, xa) = entry_key (kb, xb)) as Hkey by by apply tle_antisymm.
      assert ((ka, xa) = (kb, xb)) as [= <- <-]; [|done].
      match goal with H : NoDup _ |- _ => rename H into Hnd end.
      clear -Ha Hb Hkey Hnd.
      apply list_elem_of_lookup in Ha as [i Hi], Hb as [j Hj].
      assert (i = j) as <-; [|congruence].
      eapply NoDup_lookup; [exact Hnd| |]; rewrite list_lookup_fmap;
        [rewrite Hi|rewrite Hj]; simpl; [done|by rewrite Hkey].
    + rewrite Heq. by apply Permutation_map.
Qed.
End canonical_facts.

Section decode.
Context (into_writer : Value → bytes * bool) {T : Type} (serialized : T → option Value)
  (from_reader : nat → bytes → result ValueDecodeError (T * bytes)).

Lemma decode_canonical_within_Ok input d x :
  decode_canonical_within into_writer serialized from_reader input d = Ok x ↔
  decode_bounded from_reader input d = Ok x ∧ encode_canonical into_writer serialized x = Ok input.
Proof.
  unfold decode_canonical_within. destruct (decode_bounded _ _ _) as [y|e]; simpl.
  - destruct (encode_canonical _ _ y) as [re|e] eqn:E; simpl.
    + case_decide as Hre.
      * split; [done|]. intros [[= <-] He]. congruence.
      * assert (re = input) as -> by (destruct (decide (re = input)); [done|tauto]).
        split; [intros [= <-]; done|by intros [[= ->] _]].
    + split; [done|]. intros [[= <-] He]. congruence.
  - split; [done|]. by intros [? _].
Qed.
End decode.

(** [canonicalize] puts every tree in the one form the format allows: its
    result has every map's entries in encoded-key order at every depth, it
    changes nothing exactly when the tree is in that form already, it neither
    adds nor drops a float, and trees that differ only in the order in which
    their maps list distinct keys come out equal, so they are written as the
    same bytes by whoever writes them. *)
Theorem canonical_form_is_unique (into_writer : Value → bytes * bool) :
  (∀ v, is_canonical into_writer (canonicalize into_writer v)) ∧
  (∀ v, is_canonical into_writer v ↔ canonicalize into_writer v = v) ∧
  (∀ v, contains_float (canonicalize into_writer v) = contains_float v) ∧
  (∀ v w, same_value into_writer v w → canonicalize into_writer v = canonicalize into_writer w).
Proof.
  split_and!.
  - apply canonicalize_is_canonical.
  - intros v. split; [apply canonicalize_id|]. intros <-. apply canonicalize_is_canonical.
  - apply contains_float_canonicalize.
  - apply same_value_canonical.
Qed.

(** A writer for the examples: an integer is one byte. *)
Definition small_writer (v : Value) : bytes * bool :=
  match v with Integer n => ([n], true) | _ => ([], false) end.

Definition two_keys : Value :=
  VMap [(Integer 2, Null); (Integer 1, Array [VMap [(Integer 9, Null); (Integer 3, Bool true)]])].
Definition two_keys_sorted : Value :=
  VMap [(Integer 1, Array [VMap [(Integer 3, Bool true); (Integer 9, Null)]]); (Integer 2, Null)].

Lemma canonical_form_is_unique_witness :
  same_value small_writer two_keys two_keys_sorted ∧
  canonicalize small_writer two_keys = canonicalize small_writer two_keys_sorted.
Proof.
  assert (same_value small_writer two_keys two_keys_sorted) as Hs.
  { apply (same_map _ _ _ [(Integer 2, Null);
      (Integer 1, Array [VMap [(Integer 3, Bool true); (Integer 9, Null)]])]).
    - constructor; [split; [done|constructor]|]. constructor; [|constructor].
      split; [done|]. simpl. constructor. constructor; [|constructor].
      apply (same_map _ _ _ [(Integer 9, Null); (Integer 3, Bool true)]).
      + repeat constructor.
      + apply Permutation_swap.
      + apply (bool_decide_unpack _). vm_compute. exact I.
    - apply Permutation_swap.
    - apply (bool_decide_unpack _). vm_compute. exact I. }
  split; [exact Hs|].
  exact (proj2 (proj2 (proj2 (canonical_form_is_unique small_writer))) _ _ Hs).
Defined.

(** The canonical decoder accepts exactly the bytes the canonical encoder
    writes: it returns [x] when the bounded reader does and re-encoding [x]
    gives the input back, so no two inputs decode to one value, and a refusal
    as non-canonical reports the two lengths of a re-encoding that differs. *)
Theorem decode_canonical_exact {T : Type} (into_writer : Value → bytes * bool)
    (serialized : T → option Value)
    (from_reader : nat → bytes → result ValueDecodeError (T * bytes)) (max_depth : nat) :
  let decode i := decode_canonical_within into_writer serialized from_reader i max_depth in
  (∀ i x, decode i = Ok x ↔
     decode_bounded from_reader i max_depth = Ok x ∧ encode_canonical into_writer serialized x = Ok i) ∧
  (∀ i j x, decode i = Ok x → decode j = Ok x → i = j) ∧
  (∀ i n m, decode i = Err (NonCanonical n m) → ∃ x re,
     decode_bounded from_reader i max_depth = Ok x ∧
     encode_canonical into_writer serialized x = Ok re ∧
     re ≠ i ∧ n = length i ∧ m = length re).
Proof.
  intros decode. split_and!.
  - intros i x. apply decode_canonical_within_Ok.
  - intros i j x [_ Hi]%decode_canonical_within_Ok [_ Hj]%decode_canonical_within_Ok. congruence.
  - intros i n m. unfold decode, decode_canonical_within.
    destruct (decode_bounded from_reader i max_depth) as [x|e] eqn:Ed; simpl.
    2:{ intros [= ->]. revert Ed. unfold decode_bounded.
        by destruct (from_reader _ _) as [[]|[]]. }
    destruct (encode_canonical into_writer serialized x) as [re|e] eqn:Ee; simpl.
    2:{ intros [= ->]. revert Ee. unfold encode_canonical, write.
        destruct (serialized x); simpl; [|done]. by destruct (into_writer _) as [? []]. }
    case_decide; [|done]. intros [= <- <-]. eauto 10.
Qed.

(** A reader for the examples: one byte is an integer, whatever follows. *)
Definition small_reader (_ : nat) (b : bytes) : result ValueDecodeError (Value * bytes) :=
  match b with n :: rest => Ok (Integer n, rest) | [] => Err Malformed end.

Lemma decode_canonical_exact_witness :
  decode_canonical_within small_writer Some small_reader [7] 8 = Ok (Integer 7) ∧
  decode_canonical_within small_writer Some small_reader [7; 0] 8 = Err (NonCanonical 2 1) ∧
  encode_canonical small_writer Some (Integer 7) = Ok [7] ∧
  ∃ x re, decode_bounded small_reader [7; 0] 8 = Ok x ∧
    encode_canonical small_writer Some x = Ok re ∧ re ≠ [7; 0] ∧ 2%nat = length [7; 0] ∧ 1%nat = length re.
Proof.
  destruct (decode_canonical_exact small_writer Some small_reader 8) as (H1 & _ & H3).
  assert (decode_canonical_within small_writer Some small_reader [7] 8 = Ok (Integer 7)) as Hd
    by (vm_compute; reflexivity).
  assert (decode_canonical_within small_writer Some small_reader [7; 0] 8 = Err (NonCanonical 2 1))
    as He by (vm_compute; reflexivity).
  split; [exact Hd|]. split; [exact He|].
  split; [exact (proj2 (proj1 (H1 _ _) Hd))|exact (H3 _ _ _ He)].
Defined.

(** ** The codec the merge state is stored through (engine/merge/state.rs)

    What the client of ciborium needs of it, as one interface. *)
Class Ciborium := {
  into_writer : Value → bytes * bool;
  from_reader : nat → bytes → result ValueDecodeError (Value * bytes);
}.

(** [None] is the encoder's error, which rolls the transaction back. *)
Definition enc `{Ciborium} (v : Value) : option bytes :=
  match encode_canonical into_writer Some v with Ok b => Some b | Err _ => None end.

(** Bytes that do not decode read as [Null]. *)
Definition dec `{Ciborium} (b : bytes) : Value :=
  match decode_bounded from_reader b MAX_DOC_DEPTH with Ok v => v | Err _ => Null end.
