(* ===== verification/Registry.v ===== *)
(** * The entity registry (sunrise-id/src/registry, engine/merge/patch.rs)

    The one declaration of what an entity is: its prefix, its op-log tag, how
    it merges, and the CRDT type and conflict class of every field of its
    records.  The tables are the entries of registry/table.rs as the macro of
    registry/definition.rs expands them. *)

From Stdlib Require Import ZArith Ascii String.
From stdpp Require Import base tactics decidable countable option list strings gmap.
From S2P Require Import Prelude.
Open Scope string_scope.
Open Scope list_scope.

Inductive Merge := Lww | AppendOnly | Control | Unsynced.
Inductive Owner := OwnerMeta | OwnerField (field : string) | OwnerParent | Unowned.
Inductive OpClass := Create | Update | Delete.
Inductive Crdt := Register | Map | OrSet | Counter | Nested | Derived.
Inductive Conflict := Merge_ | Quiet | Tracked | State | Tombstone.
Inductive Unknowns := Extra | Body | Plain.

Definition TERMINAL_STATES : list string := ["done"; "cancelled"].

Module EntityKind.
Inductive t :=
  | Task | Stream | Context | Routine | Block | Note | Attachment | Person | Device
  | Identity | FocusSession | ReviewSnapshot | Preferences | SavedView.
End EntityKind.

Record FieldSpec := mkField {
  f_name : string;
  f_rust : string;
  f_value_type : string;
  f_crdt : Crdt;
  f_conflict : Conflict;
  f_default : option string;
}.

Record Storage := mkStorage { st_table : string; st_key : string; st_unknowns : Unknowns }.

Record RecordSpec := mkRecordSpec {
  r_name : string;
  r_storage : option Storage;
  r_fields : list FieldSpec;
  r_unknowns : option string;
}.

Record OpSpec := mkOpSpec {
  op_variant : string;
  op_payload : string;
  op_inner_kind : string;
  op_class : OpClass;
  op_target : string;
}.

Record EntitySpec := {
  e_kind : EntityKind.t;
  e_prefix : string;
  e_tag : string;
  e_merge : Merge;
  e_owner : Owner;
  e_features : list string;
  e_ops : list OpSpec;
  e_records : list RecordSpec;
}.

#[export] Instance Merge_eq_dec : EqDecision Merge. Proof. solve_decision. Defined.
#[export] Instance Owner_eq_dec : EqDecision Owner. Proof. solve_decision. Defined.
#[export] Instance OpClass_eq_dec : EqDecision OpClass. Proof. solve_decision. Defined.
#[export] Instance Crdt_eq_dec : EqDecision Crdt. Proof. solve_decision. Defined.
#[export] Instance Conflict_eq_dec : EqDecision Conflict. Proof. solve_decision. Defined.
#[export] Instance Unknowns_eq_dec : EqDecision Unknowns. Proof. solve_decision. Defined.
#[export] Instance EntityKind_eq_dec : EqDecision EntityKind.t. Proof. solve_decision. Defined.
#[export] Instance FieldSpec_eq_dec : EqDecision FieldSpec. Proof. solve_decision. Defined.
#[export] Instance Storage_eq_dec : EqDecision Storage. Proof. solve_decision. Defined.
#[export] Instance RecordSpec_eq_dec : EqDecision RecordSpec. Proof. solve_decision. Defined.
#[export] Instance OpSpec_eq_dec : EqDecision OpSpec. Proof. solve_decision. Defined.
#[export] Instance EntitySpec_eq_dec : EqDecision EntitySpec. Proof. solve_decision. Defined.

(** ** The field forms of the registry's grammar *)

(** [rust: ty => Register(class);] *)
Definition register (rust ty : string) (class : Conflict) : FieldSpec :=
  mkField rust rust ty Register class None.
(** [rust as "wire": ty => Register(class);] *)
Definition register_as (rust wire ty : string) (class : Conflict) : FieldSpec :=
  mkField wire rust ty Register class None.
(** [rust: ty => Register(class) = default;] *)
Definition register_or (rust ty : string) (class : Conflict) (default : string) : FieldSpec :=
  mkField rust rust ty Register class (Some default).
(** [rust: ty => crdt;], for the CRDT types every write of which survives. *)
Definition keeps_all (rust ty : string) (crdt : Crdt) : FieldSpec :=
  mkField rust rust ty crdt Merge_ None.

(** A JSON string: the text between two double quotes. *)
Definition json_string (s : string) : string :=
  String (ascii_of_nat 34) (s ++ String (ascii_of_nat 34) EmptyString)%string.

(** ** The entries *)

Definition task_spec : EntitySpec := {|
  e_kind := EntityKind.Task;
  e_prefix := "tsk_";
  e_tag := "task";
  e_merge := Lww;
  e_owner := OwnerField "stream_id";
  e_features := [];
  e_ops := [mkOpSpec "TaskCreate" "Task" "task.create" Create "id";
    mkOpSpec "TaskUpdate" "Task" "task.update" Update "id";
    mkOpSpec "TaskDelete" "Task" "task.delete" Delete "id"];
  e_records := [mkRecordSpec "Task" (Some (mkStorage "tasks" "id" Extra)) [
      register "id" "EntityRef" Quiet;
      register "created_at" "Timestamp" Quiet;
      register "updated_at" "Timestamp" Quiet;
      register_or "title" "String" Tracked (json_string EmptyString);
      register "body" "Option<NoteBody>" Tracked;
      register_or "stream_id" "Option<EntityRef>" Tracked (json_string "str_0000076XBEE9MQ6S9ED5Q64VVR");
      keeps_all "contexts" "BTreeSet<EntityRef>" OrSet;
      register_or "state" "TaskState" State (json_string "todo");
      register "priority" "Option<u8>" Quiet;
      register "energy" "Option<Energy>" Quiet;
      register "estimated_duration_s" "Option<u64>" Quiet;
      register_as "planned_at" "scheduled_at" "Option<SunriseTime>" Tracked;
      register "target_at" "Option<SunriseTime>" Tracked;
      register_as "hard_due_at" "due_at" "Option<SunriseTime>" Tracked;
      register "scheduling_constraints" "Vec<ScheduleConstraint>" Tracked;
      register "completed_at" "Option<SunriseTime>" Quiet;
      keeps_all "deferred_count" "i64" Counter;
      keeps_all "blocks" "BTreeSet<EntityRef>" Derived;
      keeps_all "blocked_by" "BTreeSet<EntityRef>" OrSet;
      register "assignee" "Option<EntityRef>" Tracked;
      register "routine_id" "Option<EntityRef>" Quiet;
      register "routine_occurrence" "Option<Timestamp>" Quiet;
      register "hard_constraint_violated" "bool" Quiet;
      register "reminder_lead_s" "Option<u32>" Quiet;
      register "sort_order" "Option<String>" Quiet;
      register "triaged_at" "Option<Timestamp>" Quiet;
      register "cancel_reason" "Option<String>" Quiet;
      register "late_acknowledged_at" "Option<Timestamp>" Quiet;
      register "archived" "bool" Quiet;
      register "deleted" "bool" Tombstone] (Some "unknown")]
|}.

Definition stream_spec : EntitySpec := {|
  e_kind := EntityKind.Stream;
  e_prefix := "str_";
  e_tag := "stream";
  e_merge := Lww;
  e_owner := OwnerMeta;
  e_features := [];
  e_ops := [mkOpSpec "StreamCreate" "Stream" "stream.create" Create "id";
    mkOpSpec "StreamUpdate" "Stream" "stream.update" Update "id";
    mkOpSpec "StreamDelete" "Stream" "stream.delete" Delete "id"];
  e_records := [mkRecordSpec "Stream" (Some (mkStorage "streams" "stream_id" Extra)) [
      register "id" "EntityRef" Quiet;
      register "created_at" "Timestamp" Quiet;
      register "updated_at" "Timestamp" Quiet;
      register "name" "String" Tracked;
      register "description" "Option<NoteBody>" Tracked;
      register "color" "StreamColor" Quiet;
      register "icon" "Option<String>" Quiet;
      register "parent_id" "Option<EntityRef>" Tracked;
      register "sort_order" "String" Quiet;
      register "archived" "bool" Quiet;
      register "paused" "bool" Quiet;
      register "paused_until" "Option<CompatTime>" Tracked;
      register "review_cadence" "StreamReviewCadence" Quiet;
      register "default_context" "Option<EntityRef>" Quiet;
      register "reminder_lead_s" "Option<u32>" Quiet;
      register "deleted" "bool" Tombstone;
      register "rehomed_to" "Option<EntityRef>" Tracked] (Some "unknown")]
|}.

Definition context_spec : EntitySpec := {|
  e_kind := EntityKind.Context;
  e_prefix := "ctx_";
  e_tag := "context";
  e_merge := Lww;
  e_owner := OwnerMeta;
  e_features := [];
  e_ops := [mkOpSpec "ContextCreate" "Context" "context.create" Create "id";
    mkOpSpec "ContextUpdate" "Context" "context.update" Update "id";
    mkOpSpec "ContextDelete" "Context" "context.delete" Delete "id"];
  e_records := [mkRecordSpec "Context" (Some (mkStorage "contexts" "id" Extra)) [
      register "id" "EntityRef" Quiet;
      register "created_at" "Timestamp" Quiet;
      register "updated_at" "Timestamp" Quiet;
      register_or "name" "String" Tracked (json_string EmptyString);
      register "description" "Option<String>" Tracked;
      register "archived" "bool" Quiet;
      register "deleted" "bool" Tombstone] (Some "unknown")]
|}.

Definition routine_spec : EntitySpec := {|
  e_kind := EntityKind.Routine;
  e_prefix := "rtn_";
  e_tag := "routine";
  e_merge := Lww;
  e_owner := OwnerMeta;
  e_features := ["routine.civil_times"; "routine.series"];
  e_ops := [mkOpSpec "RoutineCreate" "Box<Routine>" "routine.create" Create "id";
    mkOpSpec "RoutineUpdate" "Box<Routine>" "routine.update" Update "id";
    mkOpSpec "RoutineDelete" "Box<Routine>" "routine.delete" Delete "id"];
  e_records := [mkRecordSpec "Routine" (Some (mkStorage "routines" "id" Extra)) [
      register "id" "EntityRef" Quiet;
      register "created_at" "Timestamp" Quiet;
      register "updated_at" "Timestamp" Quiet;
      keeps_all "template" "TaskTemplate" Nested;
      register "rrule" "RRule" Tracked;
      register "timezone" "String" Tracked;
      register "starts_at" "CompatTime" Tracked;
      register "ends_at" "Option<CompatTime>" Tracked;
      register "scheduling_constraints" "Vec<ScheduleConstraint>" Tracked;
      register "skip_dates" "Vec<Timestamp>" Tracked;
      keeps_all "skipped_keys" "Vec<String>" OrSet;
      register "catchup_policy" "RoutineCatchupPolicy" Quiet;
      keeps_all "streak_counter" "i64" Derived;
      keeps_all "last_completed_at" "Option<CompatTime>" Derived;
      register "grace_window_s" "Option<u64>" Quiet;
      register "forgiveness_enabled" "bool" Quiet;
      keeps_all "streak_started_at" "Option<Timestamp>" Derived;
      keeps_all "forgivenesses_in_window" "u32" Derived;
      keeps_all "streak_keys" "Vec<String>" OrSet;
      register "paused" "bool" Quiet;
      register "paused_until" "Option<CompatTime>" Tracked;
      register "archived" "bool" Quiet;
      register "deleted" "bool" Tombstone;
      register "split_from" "Option<EntityRef>" Quiet] (Some "unknown");
    mkRecordSpec "TaskTemplate" None [
      register "title" "String" Tracked;
      register "stream_id" "Option<EntityRef>" Tracked;
      register "contexts" "Vec<EntityRef>" Tracked;
      register "energy" "Option<Energy>" Tracked;
      register "priority" "Option<u8>" Tracked;
      register "estimated_duration_s" "Option<u64>" Tracked;
      register "body" "Option<NoteBody>" Tracked] (Some "unknown")]
|}.

Definition block_spec : EntitySpec := {|
  e_kind := EntityKind.Block;
  e_prefix := "blk_";
  e_tag := "block";
  e_merge := Lww;
  e_owner := OwnerField "stream_id";
  e_features := [];
  e_ops := [mkOpSpec "BlockCreate" "Box<Block>" "block.create" Create "id";
    mkOpSpec "BlockUpdate" "Box<Block>" "block.update" Update "id";
    mkOpSpec "BlockDelete" "Box<Block>" "block.delete" Delete "id"];
  e_records := [mkRecordSpec "Block" (Some (mkStorage "blocks" "id" Extra)) [
      register "id" "EntityRef" Quiet;
      register "created_at" "Timestamp" Quiet;
      register "updated_at" "Timestamp" Quiet;
      register "stream_id" "Option<EntityRef>" Tracked;
      register "starts_at" "SunriseTime" Tracked;
      register "ends_at" "SunriseTime" Tracked;
      register "title" "Option<String>" Tracked;
      register "title_track_task" "bool" Quiet;
      keeps_all "tasks" "BTreeSet<EntityRef>" OrSet;
      register "deleted" "bool" Tombstone] (Some "unknown")]
|}.

Definition note_spec : EntitySpec := {|
  e_kind := EntityKind.Note;
  e_prefix := "not_";
  e_tag := "note";
  e_merge := Unsynced;
  e_owner := Unowned;
  e_features := [];
  e_ops := [];
  e_records := [mkRecordSpec "Note" None [
      register "id" "EntityRef" Quiet;
      register "created_at" "Timestamp" Quiet;
      register "updated_at" "Timestamp" Quiet;
      register "parent" "EntityRef" Quiet;
      register "body" "NoteBody" Quiet;
      register "deleted" "bool" Quiet] (Some "unknown")]
|}.

Definition attachment_spec : EntitySpec := {|
  e_kind := EntityKind.Attachment;
  e_prefix := "att_";
  e_tag := "attachment";
  e_merge := Lww;
  e_owner := OwnerParent;
  e_features := ["attachment.thumbnail"];
  e_ops := [mkOpSpec "AttachmentCreate" "Box<Attachment>" "attachment.create" Create "id";
    mkOpSpec "AttachmentDelete" "Box<Attachment>" "attachment.delete" Delete "id"];
  e_records := [mkRecordSpec "Attachment" (Some (mkStorage "attachments" "id" Extra)) [
      register "id" "EntityRef" Quiet;
      register "created_at" "Timestamp" Quiet;
      register "updated_at" "Timestamp" Quiet;
      register "parent" "EntityRef" Quiet;
      register "filename" "String" Quiet;
      register "mime_type" "String" Quiet;
      register "size_bytes" "u64" Quiet;
      register "blob_key" "[u8; 32]" Quiet;
      register "blob_id" "[u8; 16]" Quiet;
      register "chunk_count" "u32" Quiet;
      register "content_hash" "[u8; 32]" Quiet;
      register "ciphertext_hash" "[u8; 32]" Quiet;
      register "width" "Option<u32>" Quiet;
      register "height" "Option<u32>" Quiet;
      register "thumbnail_blob_id" "Option<[u8; 16]>" Quiet;
      register "thumbnail_blob_key" "Option<[u8; 32]>" Quiet;
      register "thumbnail_mime" "Option<String>" Quiet;
      register "thumbnail_size_bytes" "Option<u32>" Quiet;
      register "thumbnail_content_hash" "Option<[u8; 32]>" Quiet;
      register "thumbnail_ciphertext_hash" "Option<[u8; 32]>" Quiet;
      register "deleted" "bool" Tombstone] (Some "unknown")]
|}.

Definition person_spec : EntitySpec := {|
  e_kind := EntityKind.Person;
  e_prefix := "prs_";
  e_tag := "person";
  e_merge := Unsynced;
  e_owner := Unowned;
  e_features := [];
  e_ops := [];
  e_records := [mkRecordSpec "Person" None [
      register "id" "EntityRef" Quiet;
      register "created_at" "Timestamp" Quiet;
      register "updated_at" "Timestamp" Quiet;
      register "display_name" "String" Quiet;
      register "identity_id" "Option<EntityRef>" Quiet;
      register "deleted" "bool" Quiet] (Some "unknown")]
|}.

Definition device_spec : EntitySpec := {|
  e_kind := EntityKind.Device;
  e_prefix := "dev_";
  e_tag := "device";
  e_merge := Control;
  e_owner := OwnerMeta;
  e_features := [];
  e_ops := [];
  e_records := []
|}.

Definition identity_spec : EntitySpec := {|
  e_kind := EntityKind.Identity;
  e_prefix := "idn_";
  e_tag := "identity";
  e_merge := Control;
  e_owner := OwnerMeta;
  e_features := [];
  e_ops := [];
  e_records := []
|}.

Definition focus_session_spec : EntitySpec := {|
  e_kind := EntityKind.FocusSession;
  e_prefix := "fcs_";
  e_tag := "focus_session";
  e_merge := AppendOnly;
  e_owner := OwnerField "stream_id";
  e_features := [];
  e_ops := [mkOpSpec "FocusStart" "Box<FocusStart>" "focus.start" Create "id";
    mkOpSpec "FocusEnd" "Box<FocusEnd>" "focus.end" Update "session_id";
    mkOpSpec "FocusInterrupt" "Interruption" "focus.interrupt" Update "session_id"];
  e_records := [mkRecordSpec "FocusStart" (Some (mkStorage "focus_sessions" "id" Extra)) [
      register "id" "EntityRef" Quiet;
      register "task_id" "EntityRef" Quiet;
      register "stream_id" "EntityRef" Quiet;
      register_as "started_at" "started_at_ms" "Timestamp" Quiet;
      register "planned_ms" "Option<u64>" Quiet;
      register "energy" "Option<Energy>" Quiet;
      register "kind" "FocusKind" Quiet;
      register "chunk" "Option<Chunk>" Quiet] (Some "unknown");
    mkRecordSpec "FocusEnd" (Some (mkStorage "focus_session_ends" "session_id" Extra)) [
      register "session_id" "EntityRef" Quiet;
      register_as "ended_at" "ended_at_ms" "Timestamp" Quiet;
      register "actual_focused_ms" "u64" Quiet;
      register "interruptions" "Vec<Interruption>" Quiet;
      register "completed_task" "bool" Quiet] (Some "unknown");
    mkRecordSpec "Interruption" (Some (mkStorage "focus_interruptions" "session_id" Plain)) [
      register "session_id" "EntityRef" Quiet;
      register_as "at" "at_ms" "Timestamp" Quiet;
      register "reason" "InterruptionReason" Quiet] None]
|}.

Definition review_snapshot_spec : EntitySpec := {|
  e_kind := EntityKind.ReviewSnapshot;
  e_prefix := "rvw_";
  e_tag := "review_snapshot";
  e_merge := AppendOnly;
  e_owner := OwnerMeta;
  e_features := [];
  e_ops := [mkOpSpec "ReviewSnapshotCreate" "Box<ReviewSnapshot>" "review.snapshot" Create "id"];
  e_records := [mkRecordSpec "ReviewSnapshot" (Some (mkStorage "review_snapshots" "id" Body)) [
      register "id" "EntityRef" Quiet;
      register "created_at" "Timestamp" Quiet;
      register_as "window_start" "window_start_ms" "Timestamp" Quiet;
      register_as "window_end" "window_end_ms" "Timestamp" Quiet;
      register "totals" "ReviewTotals" Quiet;
      register "streams" "Vec<ReviewSnapshotStream>" Quiet;
      register "streaks" "Vec<StreakRow>" Quiet;
      register "note" "Option<String>" Quiet] (Some "unknown")]
|}.

Definition preferences_spec : EntitySpec := {|
  e_kind := EntityKind.Preferences;
  e_prefix := "prf_";
  e_tag := "preferences";
  e_merge := Lww;
  e_owner := OwnerMeta;
  e_features := ["preferences.entity"];
  e_ops := [];
  e_records := [mkRecordSpec "Preferences" (Some (mkStorage "preferences" "id" Extra)) [
      register "id" "EntityRef" Quiet;
      register "created_at" "Timestamp" Quiet;
      register "updated_at" "Timestamp" Quiet;
      keeps_all "values" "BTreeMap<String, CborValue>" Map] (Some "unknown")]
|}.

Definition saved_view_spec : EntitySpec := {|
  e_kind := EntityKind.SavedView;
  e_prefix := "svw_";
  e_tag := "saved_view";
  e_merge := Lww;
  e_owner := OwnerMeta;
  e_features := ["saved_view.entity"];
  e_ops := [];
  e_records := [mkRecordSpec "SavedView" (Some (mkStorage "saved_views" "id" Extra)) [
      register "id" "EntityRef" Quiet;
      register "created_at" "Timestamp" Quiet;
      register "updated_at" "Timestamp" Quiet;
      register "name" "String" Tracked;
      register "view" "ViewKind" Tracked;
      register "filter" "ViewFilter" Tracked;
      register "sort" "ViewSort" Quiet;
      register "sort_order" "Option<String>" Quiet;
      register "deleted" "bool" Tombstone] (Some "unknown")]
|}.

(** ** The expansion (registry/definition.rs) *)

Definition ENTITIES : list EntitySpec :=
  [task_spec; stream_spec; context_spec; routine_spec; block_spec; note_spec; attachment_spec;
   person_spec; device_spec; identity_spec; focus_session_spec; review_snapshot_spec;
   preferences_spec; saved_view_spec].

Definition spec (k : EntityKind.t) : EntitySpec :=
  match k with
  | EntityKind.Task => task_spec
  | EntityKind.Stream => stream_spec
  | EntityKind.Context => context_spec
  | EntityKind.Routine => routine_spec
  | EntityKind.Block => block_spec
  | EntityKind.Note => note_spec
  | EntityKind.Attachment => attachment_spec
  | EntityKind.Person => person_spec
  | EntityKind.Device => device_spec
  | EntityKind.Identity => identity_spec
  | EntityKind.FocusSession => focus_session_spec
  | EntityKind.ReviewSnapshot => review_snapshot_spec
  | EntityKind.Preferences => preferences_spec
  | EntityKind.SavedView => saved_view_spec
  end.

Definition prefix (k : EntityKind.t) : string := e_prefix (spec k).
Definition tag (k : EntityKind.t) : string := e_tag (spec k).

Definition all : list EntityKind.t := e_kind <$> ENTITIES.

Definition from_prefix (p : string) : option EntityKind.t :=
  e_kind <$> List.find (λ e, bool_decide (e_prefix e = p)) ENTITIES.

(** [EntitySpec::record] and [EntitySpec::storage]. *)
Definition record (e : EntitySpec) (name : string) : option RecordSpec :=
  List.find (λ r, bool_decide (r_name r = name)) (e_records e).
Definition storage (e : EntitySpec) : option Storage :=
  r ← head (e_records e); r_storage r.

(** ** Finding a field by its wire name (merge/patch.rs) *)

(** [str::split_once]: around the first [c]. *)
Fixpoint split_once (c : ascii) (s : string) : option (string * string) :=
  match s with
  | EmptyString => None
  | String x s' =>
      if decide (x = c) then Some (EmptyString, s')
      else match split_once c s' with
           | Some (a, b) => Some (String x a, b)
           | None => None
           end
  end.

Definition field_named (r : RecordSpec) (name : string) : option FieldSpec :=
  List.find (λ f, bool_decide (f_name f = name)) (r_fields r).

(** The record a nested field of the entity's own record holds. *)
Definition nested_record (e : EntitySpec) (parent : string) : option RecordSpec :=
  r ← head (e_records e);
  f ← List.find (λ f, bool_decide (f_name f = parent) && bool_decide (f_crdt f = Nested))
        (r_fields r);
  record e (f_value_type f).

(** The registered field [name] names: a top-level one, or [parent.child]
    under a nested record. *)
Definition registered_field (e : EntitySpec) (name : string) : option (RecordSpec * FieldSpec) :=
  r ← head (e_records e);
  match field_named r name with
  | Some f => Some (r, f)
  | None =>
      '(parent, child) ← split_once "." name;
      nested ← nested_record e parent;
      f ← field_named nested child;
      Some (nested, f)
  end.

(** The conflict class a register folds by: a field this build does not know
    is [Quiet] (merge/register.rs). *)
Definition class_of (e : EntitySpec) (field : string) : Conflict :=
  match registered_field e field with
  | Some (_, f) => f_conflict f
  | None => Quiet
  end.

(** ** Lemmas *)

(** The entry of a kind is at the kind's place in [ENTITIES]. *)
Lemma spec_ENTITIES : spec <$> all = ENTITIES.
Proof. reflexivity. Qed.

Lemma from_prefix_spec p k : from_prefix p = Some k ↔ p = prefix k.
Proof.
  split.
  - unfold from_prefix. intros Hf. apply fmap_Some in Hf as (e & He & ->).
    apply find_some in He as [Hin Hp]. apply bool_decide_eq_true in Hp as <-.
    apply list_elem_of_In in Hin. revert e Hin. apply Forall_forall.
    repeat constructor.
  - intros ->. by destruct k.
Qed.

Definition has_dot (s : string) : bool :=
  match split_once "." s with Some _ => true | None => false end.

(** What [registered_field] must answer for a field of [e]'s own record, and
    for the fields of the record it nests. *)
Definition finds_field (e : EntitySpec) (r : RecordSpec) (f : FieldSpec) : bool :=
  bool_decide (registered_field e (f_name f) = Some (r, f)) &&
  match f_crdt f, record e (f_value_type f) with
  | Nested, Some nested =>
      forallb (λ c, bool_decide
        (registered_field e (f_name f ++ "." ++ f_name c)%string = Some (nested, c)))
        (r_fields nested)
  | Nested, None => false
  | _, _ => true
  end.

Definition finds_fields (e : EntitySpec) : bool :=
  match e_records e with
  | [] => true
  | r :: _ => forallb (finds_field e r) (r_fields r)
  end.

Lemma finds_fields_all : Forall (λ e, finds_fields e = true) ENTITIES.
Proof. repeat constructor. Qed.

(** The registry names are unambiguous: a prefix reads back as the kind it
    was written for and no other string reads as a kind, no two entities share
    a tag or a prefix, no two ops a variant or an [inner_kind], and within one
    record no two fields a wire name; and no wire name holds a dot, so a
    dotted path can only name a nested record's field. *)
Theorem registry_names_are_unambiguous :
  (∀ p k, from_prefix p = Some k ↔ p = prefix k) ∧
  NoDup (e_tag <$> ENTITIES) ∧ NoDup (e_prefix <$> ENTITIES) ∧
  NoDup (op_variant <$> (ENTITIES ≫= e_ops)) ∧
  NoDup (op_inner_kind <$> (ENTITIES ≫= e_ops)) ∧
  Forall (λ r, NoDup (f_name <$> r_fields r) ∧
               Forall (λ f, has_dot (f_name f) = false) (r_fields r)) (ENTITIES ≫= e_records).
Proof.
  split; [apply from_prefix_spec|]. apply (bool_decide_unpack _). vm_compute. exact I.
Qed.

(** Every registered path resolves to its own declaration: each field of an
    entity's record by its wire name, and each field of a nested record by
    [parent.child]; a register, and nothing else, declares a conflict class;
    [State] is [Task.state] alone; and [Tombstone] is exactly the [deleted]
    flag of the entities that merge field by field, so a delete is decided by
    the delete rule for every one of them. *)
Theorem registered_fields_resolve :
  ∀ k, finds_fields (spec k) = true ∧
    Forall (λ r, Forall (λ f,
      (f_crdt f = Register ↔ f_conflict f ≠ Merge_) ∧
      (f_conflict f = State ↔ k = EntityKind.Task ∧ f_name f = "state") ∧
      (f_conflict f = Tombstone ↔
         e_merge (spec k) = Lww ∧ head (e_records (spec k)) = Some r ∧ f_name f = "deleted"))
      (r_fields r)) (e_records (spec k)).
Proof. intros k. destruct k; (split; [reflexivity|]); apply (bool_decide_unpack _); vm_compute; exact I. Qed.
