(* ===== verification/Stamp.v ===== *)
(** * Merge stamps and op-refs (engine/lww.rs, engine/merge/mod.rs, state.rs)

    Every field write of an op carries the op's stamp, [(hlc, device, seq,
    stream)] compared in that order; an op is named by its op-ref, [(stream,
    device, seq)].  A 16-byte id is its big-endian value, so that comparing two
    ids byte by byte is comparing two [Z]. *)

From Stdlib Require Import ZArith Lia.
From stdpp Require Import base tactics decidable countable option list gmap.
From S2P Require Import Prelude Hlc.
Open Scope Z_scope.

Abbreviation Id := Z (only parsing).

(** ** The stamp an op writes with, and the one a row holds (lww.rs) *)

Record LwwStamp := mkLww { l_hlc : Hlc; l_device : Id; l_seq : Z }.
Record RowLww := mkRow { r_hlc : Hlc; r_device : option Id; r_seq : Z }.

#[export] Instance LwwStamp_eq_dec : EqDecision LwwStamp.
Proof. solve_decision. Defined.

(** The register rule, as [lww_wins] tests it, in order: the clock, a
    placeholder row, the device, then the sequence number. *)
Definition lww_wins (incoming : LwwStamp) (row : RowLww) : bool :=
  if decide (l_hlc incoming ≠ r_hlc row) then bool_decide (r_hlc row ≺ l_hlc incoming)
  else match r_device row with
       | None => true
       | Some row_dev =>
           if decide (row_dev ≠ l_device incoming) then bool_decide (row_dev < l_device incoming)
           else bool_decide (r_seq row ≤ l_seq incoming)
       end.

(** ** The merge's comparison key (merge/mod.rs) *)

Record Stamp := mkStamp { s_hlc : Hlc; s_device : Id; s_seq : Z; s_stream : Id }.
Record OpRef := mkOpRef { o_stream : Id; o_device : Id; o_seq : Z }.

#[export] Instance Stamp_eq_dec : EqDecision Stamp.
Proof. solve_decision. Defined.
#[export] Instance OpRef_eq_dec : EqDecision OpRef.
Proof. solve_decision. Defined.

Definition stamp_key (s : Stamp) : Hlc * (Z * (Z * Z)) :=
  (s_hlc s, (s_device s, (s_seq s, s_stream s))).
Definition opref_key (o : OpRef) : Z * (Z * Z) := (o_stream o, (o_device o, o_seq o)).

#[export] Instance stamp_key_inj : Inj (=) (=) stamp_key.
Proof. intros [] [] [= -> -> -> ->]. done. Qed.
#[export] Instance opref_key_inj : Inj (=) (=) opref_key.
Proof. intros [] [] [= -> -> ->]. done. Qed.

#[export] Instance Stamp_countable : Countable Stamp.
Proof. apply (inj_countable' stamp_key (λ '(h, (d, (q, t))), mkStamp h d q t)). by intros []. Defined.
#[export] Instance OpRef_countable : Countable OpRef.
Proof. apply (inj_countable' opref_key (λ '(t, (d, q)), mkOpRef t d q)). by intros []. Defined.

(** The derived [Ord] of [Stamp] and of [OpRef]. *)
#[export] Instance Stamp_cmp : Cmp Stamp := cmp_on stamp_key.
#[export] Instance Stamp_cmp_laws : CmpLaws Stamp := cmp_on_laws stamp_key _.
#[export] Instance OpRef_cmp : Cmp OpRef := cmp_on opref_key.
#[export] Instance OpRef_cmp_laws : CmpLaws OpRef := cmp_on_laws opref_key _.

Definition stamp_of_lww (lww : LwwStamp) (stream : Id) : Stamp :=
  mkStamp (l_hlc lww) (l_device lww) (l_seq lww) stream.

Definition lww_of (s : Stamp) : LwwStamp := mkLww (s_hlc s) (s_device s) (s_seq s).

Definition op_ref (s : Stamp) : OpRef := mkOpRef (s_stream s) (s_device s) (s_seq s).

(** Whether a write stamped [at] replaces the one a map entry holds, stamped
    [held] (state.rs). *)
Definition replaces (at_ held : Stamp) : bool :=
  if decide (lww_of at_ = lww_of held) then bool_decide (s_stream held ≤ s_stream at_)
  else lww_wins (lww_of at_) (mkRow (s_hlc held) (Some (s_device held)) (s_seq held)).

(** ** Lemmas *)

Lemma stamp_lt_iff a b :
  a ≺ b ↔
  s_hlc a ≺ s_hlc b ∨ (s_hlc a = s_hlc b ∧
    (s_device a < s_device b ∨ (s_device a = s_device b ∧
      (s_seq a < s_seq b ∨ (s_seq a = s_seq b ∧ s_stream a < s_stream b))))).
Proof.
  transitivity (stamp_key a ≺ stamp_key b); [done|].
  by rewrite !prod_tlt, !Z_tlt_lt.
Qed.

Lemma stamp_eq_iff a b :
  a = b ↔ s_hlc a = s_hlc b ∧ s_device a = s_device b ∧ s_seq a = s_seq b ∧
          s_stream a = s_stream b.
Proof. destruct a, b; simpl. split; [by intros [= -> -> -> ->]|by intros (-> & -> & -> & ->)]. Qed.

(** Stamps of one device with one clock reading are ordered by [seq], then
    stream: all that the device-local SQL comparison reads. *)
Lemma op_ref_device s : o_device (op_ref s) = s_device s.
Proof. done. Qed.

Lemma lww_wins_placeholder inc h q : lww_wins inc (mkRow h None q) = bool_decide (h ≼ l_hlc inc).
Proof.
  unfold lww_wins; simpl. case_decide as Hne; symmetry.
  - apply bool_decide_ext. split; [|apply tlt_tle]. intros. by apply tle_ne_tlt.
  - apply bool_decide_eq_true. subst. apply tle_refl.
Qed.

Lemma stamp_lt_same_clock a b :
  s_hlc a = s_hlc b →
  a ≺ b ↔ s_device a < s_device b ∨ (s_device a = s_device b ∧
    (s_seq a < s_seq b ∨ (s_seq a = s_seq b ∧ s_stream a < s_stream b))).
Proof.
  intros Hh. rewrite stamp_lt_iff, Hh. pose proof (tlt_irrefl (s_hlc b)).
  split; [intros [?|[_ ?]]; done|by right].
Qed.

Lemma stamp_lt_other_clock a b : s_hlc a ≠ s_hlc b → a ≺ b ↔ s_hlc a ≺ s_hlc b.
Proof. intros Hh. rewrite stamp_lt_iff. split; [intros [?|[? _]]; done|by left]. Qed.

Lemma replaces_iff x y : replaces x y = true ↔ y ≼ x.
Proof.
  rewrite tle_not_tlt. unfold replaces, lww_wins, lww_of; simpl.
  destruct (decide (s_hlc x = s_hlc y)) as [Hh|Hh].
  - rewrite (stamp_lt_same_clock _ _ Hh).
    case_decide as Heq; [injection Heq as Hd Hq|case_decide; [done|case_decide]];
      rewrite bool_decide_eq_true; try lia.
    assert (s_seq x ≠ s_seq y) by congruence. lia.
  - rewrite (stamp_lt_other_clock _ _ Hh), decide_False by congruence.
    rewrite decide_True by done. rewrite bool_decide_eq_true.
    destruct (tlt_total (s_hlc x) (s_hlc y)) as [?|[?|?]]; split; tord.
Qed.

(** The map and register rule is the total order on stamps: a write
    replaces the one an entry holds exactly when its full stamp is at least
    the held one, so an entry keeps the greatest stamp written to it in
    whatever order the writes arrive; and one device's own later op (same
    clock reading, same device, greater [seq]) always replaces its earlier
    one. *)
Theorem replaces_is_stamp_order at_ held :
  (replaces at_ held = true ↔ held ≼ at_) ∧
  (s_hlc at_ = s_hlc held → s_device at_ = s_device held → s_seq held < s_seq at_ →
   replaces at_ held = true ∧ replaces held at_ = false).
Proof.
  split; [apply replaces_iff|]. intros Hh Hd Hq.
  rewrite <-not_true_iff_false, !replaces_iff, !tle_not_tlt, !stamp_lt_same_clock by done.
  lia.
Qed.

Definition edit_1 : Stamp := mkStamp (mkHlc 1000 0) 7 3 1.
Definition edit_2 : Stamp := mkStamp (mkHlc 1000 0) 7 4 1.

Example replaces_same_millisecond : replaces edit_2 edit_1 = true ∧ replaces edit_1 edit_2 = false.
Proof. split; reflexivity. Qed.
