(* ===== verification/Versions.v ===== *)
(** * The version DAG of one entity (engine/merge/versions.rs)

    [entity_versions] and [entity_frontier] restricted to the rows of one
    entity, keyed as their primary keys are: a version row by its op-ref, a
    frontier row by the version's op-ref and a device.  A version's frontier
    maps each device to the greatest stamp of that device's versions it
    reaches.

    The specification is the order itself: [edge] is one step down (a named
    parent, or an earlier version of the same device), and the theorems show
    that the stored frontiers and heads are exactly what the set of versions
    applied determines, whatever order they arrived in. *)

From Stdlib Require Import ZArith Lia.
From stdpp Require Import base tactics decidable countable option list sorting gmap relations strings.
From S2P Require Import Prelude Hlc Stamp.
Open Scope Z_scope.

Abbreviation Frontier := (gmap Id Stamp).

Inductive VersionKind := Legacy | Patch.

Record Version := mkVersion {
  v_at : Stamp;
  v_kind : VersionKind;
  v_origin : string;
  v_create : bool;
  v_parents : option (list OpRef);
  v_group : option (Id * Z);
  v_fields : gset string;
}.

Record Admission := mkAdmission { admitted : bool; refined : bool }.

(** A row of [entity_versions]: the version and its [is_head] column. *)
Record VRow := mkVRow { row_version : Version; row_head : bool }.

Record VTables := mkVTables {
  entity_versions : gmap OpRef VRow;
  entity_frontier : gmap OpRef Frontier;
}.

Definition no_versions : VTables := mkVTables ∅ ∅.

#[export] Instance VersionKind_eq_dec : EqDecision VersionKind.
Proof. solve_decision. Defined.
#[export] Instance Version_eq_dec : EqDecision Version.
Proof. solve_decision. Defined.

Definition row_at (r : VRow) : Stamp := v_at (row_version r).
Definition parents_list (v : Version) : list OpRef := default [] (v_parents v).

(** The rows of a query with no [ORDER BY]: nothing below depends on the
    order [map_to_list] returns them in. *)
Definition rows (t : VTables) : list VRow := (map_to_list (entity_versions t)).*2.

(** ** Reads *)

Definition stamp_of (t : VTables) (op : OpRef) : option Stamp :=
  row_at <$> entity_versions t !! op.

Definition frontier_of (t : VTables) (v : OpRef) : Frontier :=
  default ∅ (entity_frontier t !! v).

Definition frontier_at (t : VTables) (v : OpRef) (device : Id) : option Stamp :=
  frontier_of t v !! device.

(** The greatest of a list of stamps: [ORDER BY .. DESC LIMIT 1]. *)
Definition greatest (l : list Stamp) : option Stamp :=
  foldr (λ s acc, Some (match acc with None => s | Some m => cmax s m end)) None l.

Definition previous_of_device (t : VTables) (at_ : Stamp) : option OpRef :=
  op_ref <$> greatest
    (filter (λ s, s_device s = s_device at_ ∧ s ≺ at_) (row_at <$> rows t)).

Definition arrived_late (t : VTables) (at_ : Stamp) : bool :=
  existsb (λ r,
    bool_decide (at_ ≺ row_at r) &&
    (bool_decide (s_device (row_at r) = s_device at_) ||
     bool_decide (op_ref at_ ∈ parents_list (row_version r)))) (rows t).

Definition head_stamps (t : VTables) : list Stamp :=
  row_at <$> filter (λ r, row_head r = true) (rows t).

(** ** The order *)

Definition join (into from : Frontier) : Frontier :=
  union_with (λ held at_, Some (cmax held at_)) into from.

Definition reached_by (a : Stamp) (f : Frontier) : bool :=
  match f !! s_device a with
  | Some reached => bool_decide (a ≼ reached)
  | None => false
  end.

(** ** Writes *)

Definition insert_version (t : VTables) (v : Version) : VTables :=
  mkVTables (<[op_ref (v_at v) := mkVRow v false]> (entity_versions t)) (entity_frontier t).

Definition insert_frontier (t : VTables) (v : OpRef) (f : Frontier) : VTables :=
  mkVTables (entity_versions t) (<[v := f]> (entity_frontier t)).

Definition set_head (t : VTables) (v : OpRef) (head : bool) : VTables :=
  mkVTables (alter (λ r, mkVRow (row_version r) head) v (entity_versions t)) (entity_frontier t).

(** Join the frontier of one named parent, read by [look], if the parent is
    applied and its stamp is below the child's (D3). *)
Definition join_parent (t : VTables) (at_ : Stamp) (look : OpRef → Frontier)
    (f : Frontier) (parent : OpRef) : Frontier :=
  match stamp_of t parent with
  | Some p => if decide (p ≺ at_) then join f (look parent) else f
  | None => f
  end.

(** [recompute]'s pass over the rows in stamp order.  [rc_done] holds the
    frontiers computed so far (the source's [frontiers] vector, indexed by
    version) and [rc_latest] each device's latest version so far. *)
Record RcState := mkRc { rc_done : gmap OpRef Frontier; rc_latest : gmap Id Stamp }.

Definition rc_row (t : VTables) (st : RcState) (row : VRow) : RcState :=
  let at_ := row_at row in
  let f0 := join (frontier_of t (op_ref at_)) {[s_device at_ := at_]} in
  let f1 := foldl (join_parent t at_ (λ p, default ∅ (rc_done st !! p))) f0
                  (parents_list (row_version row)) in
  let f2 := match rc_latest st !! s_device at_ with
            | Some previous => join f1 (default ∅ (rc_done st !! op_ref previous))
            | None => f1
            end in
  mkRc (<[op_ref at_ := f2]> (rc_done st)) (<[s_device at_ := at_]> (rc_latest st)).

Definition row_le (r1 r2 : VRow) : Prop := row_at r1 ≼ row_at r2.
#[export] Instance row_le_dec : RelDecision row_le.
Proof. intros r1 r2. unfold row_le. apply _. Defined.

Definition rc_heads (st : RcState) : list Stamp :=
  let latest := (map_to_list (rc_latest st)).*2 in
  filter (λ c, Forall (λ d,
    ¬ (d ≠ c ∧ reached_by c (default ∅ (rc_done st !! op_ref d)) = true)) latest) latest.

Definition recompute (t : VTables) : VTables :=
  let st := foldl (rc_row t) (mkRc ∅ ∅) (merge_sort row_le (rows t)) in
  mkVTables
    ((λ r, mkVRow (row_version r) (bool_decide (row_at r ∈ rc_heads st))) <$> entity_versions t)
    (rc_done st).

Definition admit_version (t : VTables) (v : Version) : VTables * Admission :=
  let at_ := v_at v in
  let me := op_ref at_ in
  match stamp_of t me with
  | Some _ => (t, mkAdmission false false)
  | None =>
      if arrived_late t at_ then
        (recompute (insert_version t v), mkAdmission true true)
      else
        let f0 : Frontier := {[s_device at_ := at_]} in
        let f1 := foldl (join_parent t at_ (frontier_of t)) f0 (parents_list v) in
        let f := match previous_of_device t at_ with
                 | Some previous => join f1 (frontier_of t previous)
                 | None => f1
                 end in
        let t1 := insert_frontier (insert_version t v) me f in
        let t2 := foldl (λ t h, set_head t (op_ref h) false) t1
                    (filter (λ h, reached_by h f = true) (head_stamps t)) in
        (set_head t2 me true, mkAdmission true false)
  end.

Definition opref_le (a b : OpRef) : Prop := a ≼ b.
#[export] Instance opref_le_dec : RelDecision opref_le.
Proof. intros a b. unfold opref_le. apply _. Defined.

Definition heads (t : VTables) : list OpRef := merge_sort opref_le (op_ref <$> head_stamps t).

Definition precedes (t : VTables) (a b : OpRef) : bool :=
  if decide (a = b) then false
  else match stamp_of t b, stamp_of t a with
       | Some _, Some at_ =>
           match frontier_at t b (o_device a) with
           | Some r => bool_decide (at_ ≼ r)
           | None => false
           end
       | _, _ => false
       end.

(** ** Pruning's and the conflict query's reads *)

(** One version as the pruning rule reads it. *)
Record Node := mkNode {
  n_at : Stamp;
  n_parents : list OpRef;
  n_frontier : Frontier;
  n_head : bool;
  n_keys : bool;
}.

Definition wrote_keys (v : Version) : bool :=
  bool_decide (v_kind v = Patch) &&
  (bool_decide ("streak_keys"%string ∈ v_fields v) || bool_decide ("skipped_keys"%string ∈ v_fields v)).

Definition nodes (t : VTables) : list Node :=
  (λ r, mkNode (row_at r) (parents_list (row_version r)) (frontier_of t (op_ref (row_at r)))
          (row_head r) (wrote_keys (row_version r)))
  <$> merge_sort row_le (rows t).

(** Delete the rows of the versions in [gone]: the tables left, and how many
    version rows went. *)
Definition forget (t : VTables) (gone : gset OpRef) : VTables * nat :=
  (mkVTables (filter (λ kv, kv.1 ∉ gone) (entity_versions t))
             (filter (λ kv, kv.1 ∉ gone) (entity_frontier t)),
   size (filter (λ op, is_Some (entity_versions t !! op)) gone)).

Record HeadVersion := mkHeadVersion { hv_at : Stamp; hv_fields : gset string }.

Definition head_le (a b : HeadVersion) : Prop := hv_at a ≼ hv_at b.
#[export] Instance head_le_dec : RelDecision head_le.
Proof. intros a b. unfold head_le. apply _. Defined.

Definition unmerged_head (t : VTables) (d : Stamp) (floor : option Stamp) (h : OpRef) :
    option HeadVersion :=
  if decide (h = op_ref d) then None
  else if precedes t (op_ref d) h then None
  else match entity_versions t !! h with
       | None => None
       | Some row =>
           if decide (v_kind (row_version row) ≠ Patch) then None
           else if (match floor with Some l => bool_decide (row_at row ≺ l) | None => false end)
           then None
           else Some (mkHeadVersion (row_at row) (v_fields (row_version row)))
       end.

Definition unmerged_heads (t : VTables) (d : Stamp) (floor : option Stamp) : list HeadVersion :=
  merge_sort head_le (omap (unmerged_head t d floor) (heads t)).

(** ** The specification: the order the versions define *)

(** The versions stored, without what the fold derives for them. *)
Definition versions_of (t : VTables) : gmap OpRef Version := row_version <$> entity_versions t.

Definition wf_versions (vs : gmap OpRef Version) : Prop :=
  ∀ op v, vs !! op = Some v → op_ref (v_at v) = op.

(** [s] is the stamp of an applied version. *)
Definition applied (vs : gmap OpRef Version) (s : Stamp) : Prop :=
  ∃ v, vs !! op_ref s = Some v ∧ v_at v = s.

(** One step down: a smaller stamp that the version names as a parent, or
    that its own device wrote. *)
Definition edge (vs : gmap OpRef Version) (a b : Stamp) : Prop :=
  ∃ v, vs !! op_ref a = Some v ∧ v_at v = a ∧ applied vs b ∧ b ≺ a ∧
       (s_device b = s_device a ∨ op_ref b ∈ parents_list v).

Definition reaches (vs : gmap OpRef Version) : Stamp → Stamp → Prop := rtc (edge vs).

(** [a] happened before [b]: [b]'s writer had [a] below it. *)
Definition before (vs : gmap OpRef Version) (a b : Stamp) : Prop := tc (edge vs) b a.

Definition is_head (vs : gmap OpRef Version) (a : Stamp) : Prop := ∀ x, ¬ edge vs x a.

(** [f] is the frontier of the version stamped [a]: per device, the greatest
    stamp it reaches. *)
Definition sound (vs : gmap OpRef Version) (a : Stamp) (f : Frontier) : Prop :=
  ∀ d s, f !! d = Some s → s_device s = d ∧ reaches vs a s.
Definition covers (f : Frontier) (s : Stamp) : Prop :=
  ∃ m, f !! s_device s = Some m ∧ s ≼ m.
Definition exact (vs : gmap OpRef Version) (a : Stamp) (f : Frontier) : Prop :=
  sound vs a f ∧ ∀ s, reaches vs a s → covers f s.

Definition frontiers_exact (t : VTables) : Prop :=
  ∀ op v, versions_of t !! op = Some v → exact (versions_of t) (v_at v) (frontier_of t op).
Definition heads_exact (t : VTables) : Prop :=
  ∀ op r, entity_versions t !! op = Some r →
    (row_head r = true ↔ is_head (versions_of t) (row_at r)).

Definition versions_ok (t : VTables) : Prop :=
  wf_versions (versions_of t) ∧ frontiers_exact t ∧ heads_exact t ∧
  dom (entity_frontier t) ⊆ dom (entity_versions t).

(** ** Lemmas about the order *)

Lemma edge_applied_l vs a b : edge vs a b → applied vs a.
Proof. intros (v & ? & ? & _). by exists v. Qed.
Lemma edge_applied_r vs a b : edge vs a b → applied vs b.
Proof. by intros (v & _ & _ & ? & _). Qed.
Lemma edge_lt vs a b : edge vs a b → b ≺ a.
Proof. by intros (v & _ & _ & _ & ? & _). Qed.
#[export] Hint Resolve edge_applied_l edge_applied_r edge_lt : sunrise.

Lemma edge_same_device vs a b :
  applied vs a → applied vs b → b ≺ a → s_device b = s_device a → edge vs a b.
Proof. intros (v & ? & ?) ? ? ?. exists v. auto 10. Qed.

Lemma reaches_applied vs a b : applied vs a → reaches vs a b → applied vs b.
Proof. intros Ha Hr. induction Hr; eauto with sunrise. Qed.

Lemma reaches_le vs a b : reaches vs a b → b ≼ a.
Proof.
  intros Hr. induction Hr as [|a b c He _ IH]; [apply tle_refl|].
  apply edge_lt in He. tord.
Qed.

Lemma reaches_cases vs a b : reaches vs a b ↔ a = b ∨ before vs b a.
Proof. apply rtc_tc. Qed.

Lemma before_lt vs a b : before vs a b → a ≺ b.
Proof. intros Hb. induction Hb as [x y He|x y z He _ IH]; apply edge_lt in He; tord. Qed.

Lemma before_applied vs a b : before vs a b → applied vs a ∧ applied vs b.
Proof.
  intros Hb. induction Hb as [x y He|x y z He _ [Hz _]]; split; eauto with sunrise.
Qed.

Lemma before_trans vs a b c : before vs a b → before vs b c → before vs a c.
Proof. intros ? ?. by eapply tc_transitive. Qed.

Lemma before_irrefl vs a : ¬ before vs a a.
Proof. intros H%before_lt. by apply tlt_irrefl in H. Qed.

Lemma before_edge vs a b : before vs a b → ∃ y, edge vs y a.
Proof. intros Hb. induction Hb; eauto. Qed.

(** A version's earlier ones on its device are below everything it is. *)
Lemma same_device_below vs a m s :
  applied vs m → applied vs s → s_device s = s_device m → s ≼ m →
  reaches vs a m → reaches vs a s.
Proof.
  intros Hm Hs Hd Hle Hr. apply tle_cases in Hle as [Hlt| ->]; [|done].
  eapply rtc_r; [exact Hr|]. by apply edge_same_device.
Qed.

(** Reading a frontier is reading the order. *)
Lemma covers_reaches vs a f s :
  applied vs a → exact vs a f → applied vs s → (covers f s ↔ reaches vs a s).
Proof.
  intros Ha [Hsound Hcov] Hs. split; [|apply Hcov].
  intros (m & Hm & Hle). destruct (Hsound _ _ Hm) as [Hd Hr].
  apply (same_device_below vs a m s); try done. by apply (reaches_applied vs a).
Qed.

Lemma reached_by_covers a f : reached_by a f = true ↔ covers f a.
Proof.
  unfold reached_by, covers. destruct (f !! s_device a) as [m|].
  - rewrite bool_decide_eq_true. split; [eauto|]. by intros (? & [= <-] & ?).
  - split; [done|]. by intros (? & ? & _).
Qed.

Lemma exact_unique vs a f g : exact vs a f → exact vs a g → f = g.
Proof.
  assert (∀ f g d s, exact vs a f → exact vs a g → f !! d = Some s → g !! d = Some s) as Hdir.
  { clear f g. intros f g d s [Hsf Hcf] [Hsg Hcg] Hs.
    destruct (Hsf _ _ Hs) as [<- Hr]. destruct (Hcg _ Hr) as (m & Hm & Hle).
    destruct (Hsg _ _ Hm) as [Hd Hrm]. destruct (Hcf _ Hrm) as (m' & Hm' & Hle').
    rewrite Hd in Hm'. simplify_eq. rewrite Hm. f_equal. tord. }
  intros Hf Hg. apply map_eq. intros d. destruct (f !! d) as [s|] eqn:E.
  - symmetry. by apply (Hdir f g).
  - destruct (g !! d) as [s|] eqn:E'; [|done]. apply (Hdir g f) in E'; [congruence|done..].
Qed.

(** ** Joining frontiers *)

Lemma lookup_join f g d :
  join f g !! d = match f !! d, g !! d with
                  | Some x, Some y => Some (cmax x y)
                  | Some x, None => Some x
                  | None, o => o
                  end.
Proof. unfold join. rewrite lookup_union_with. by destruct (f !! d), (g !! d). Qed.

Lemma covers_join_l f g s : covers f s → covers (join f g) s.
Proof.
  intros (m & Hm & Hle). unfold covers. rewrite lookup_join, Hm.
  destruct (g !! _) as [y|]; eexists; split; try done.
  pose proof (cmax_l m y). tord.
Qed.

Lemma covers_join_r f g s : covers g s → covers (join f g) s.
Proof.
  intros (m & Hm & Hle). unfold covers. rewrite lookup_join, Hm.
  destruct (f !! _) as [y|]; eexists; split; try done.
  pose proof (cmax_r y m). tord.
Qed.

Lemma sound_join vs a f g : sound vs a f → sound vs a g → sound vs a (join f g).
Proof.
  intros Hf Hg d s. rewrite lookup_join.
  destruct (f !! d) as [x|] eqn:Ef, (g !! d) as [y|] eqn:Eg; intros [= <-]; auto.
  destruct (cmax_case x y) as [-> | ->]; auto.
Qed.

Lemma sound_below vs a b f : reaches vs a b → sound vs b f → sound vs a f.
Proof. intros Hab Hf d s Hs. destruct (Hf _ _ Hs). split; [done|]. by etrans. Qed.

Lemma sound_empty vs a : sound vs a ∅.
Proof. intros d s. by rewrite lookup_empty. Qed.

Lemma sound_singleton vs a : sound vs a {[s_device a := a]}.
Proof. intros d s [<- <-]%lookup_singleton_Some. split; [done|]. apply rtc_refl. Qed.

#[export] Hint Resolve covers_join_l covers_join_r sound_join sound_empty sound_singleton : sunrise.

(** ** Reading the tables *)

Lemma lookup_versions_of t op : versions_of t !! op = row_version <$> entity_versions t !! op.
Proof. apply lookup_fmap. Qed.

Lemma stamp_of_versions t op : stamp_of t op = v_at <$> versions_of t !! op.
Proof. unfold stamp_of. rewrite lookup_versions_of. by destruct (entity_versions t !! op). Qed.

Lemma stamp_of_applied t op s :
  wf_versions (versions_of t) →
  stamp_of t op = Some s ↔ op = op_ref s ∧ applied (versions_of t) s.
Proof.
  intros Hwf. rewrite stamp_of_versions. split.
  - intros (v & Hv & ->)%fmap_Some. pose proof (Hwf _ _ Hv) as <-.
    split; [done|]. by exists v.
  - intros [-> (v & Hv & <-)]. by rewrite Hv.
Qed.

Lemma elem_of_rows t r : r ∈ rows t ↔ ∃ op, entity_versions t !! op = Some r.
Proof.
  unfold rows. rewrite list_elem_of_fmap. split.
  - intros ([op r'] & -> & Hin%elem_of_map_to_list). by exists op.
  - intros [op Hr]. exists (op, r). split; [done|]. by apply elem_of_map_to_list.
Qed.

Lemma rows_applied t s :
  wf_versions (versions_of t) → applied (versions_of t) s ↔ ∃ r, r ∈ rows t ∧ row_at r = s.
Proof.
  intros Hwf. setoid_rewrite elem_of_rows. split.
  - intros (v & Hv & <-). rewrite lookup_versions_of in Hv.
    apply fmap_Some in Hv as (r & Hr & ->). eauto.
  - intros (r & [op Hr] & <-).
    assert (versions_of t !! op = Some (row_version r)) as Hv
      by (by rewrite lookup_versions_of, Hr).
    exists (row_version r). unfold row_at. by rewrite (Hwf _ _ Hv).
Qed.

Lemma greatest_spec l m :
  greatest l = Some m ↔ m ∈ l ∧ ∀ s, s ∈ l → s ≼ m.
Proof.
  revert m. induction l as [|x l IH]; intros m; simpl.
  { split; [done|]. by intros [?%not_elem_of_nil _]. }
  setoid_rewrite elem_of_cons. destruct (greatest l) as [g|] eqn:E.
  - destruct (proj1 (IH g) eq_refl) as [Hg Hmax]. split.
    + intros [= <-]. split; [destruct (cmax_case x g) as [-> | ->]; auto|].
      intros s [-> | Hs]; [apply cmax_l|]. pose proof (cmax_r x g).
      specialize (Hmax s Hs). tord.
    + intros [Hm Hub]. f_equal. apply tle_antisymm.
      * apply cmax_lub; auto.
      * destruct Hm as [-> | Hm]; [apply cmax_l|]. pose proof (cmax_r x g).
        specialize (Hmax m Hm). tord.
  - assert (l = []) as ->.
    { destruct l as [|y l]; [done|]. simpl in E. by destruct (greatest l). }
    split.
    + intros [= <-]. split; [by left|].
      intros s [-> | ?%not_elem_of_nil]; [apply tle_refl|done].
    + intros [[-> | ?%not_elem_of_nil] _]; done.
Qed.

Lemma greatest_None l : greatest l = None ↔ l = [].
Proof. destruct l as [|x l]; simpl; [done|]. by destruct (greatest l). Qed.

Lemma previous_of_device_spec t at_ :
  wf_versions (versions_of t) →
  match previous_of_device t at_ with
  | Some op => ∃ m, op = op_ref m ∧ applied (versions_of t) m ∧ s_device m = s_device at_ ∧
      m ≺ at_ ∧ ∀ s, applied (versions_of t) s → s_device s = s_device at_ → s ≺ at_ → s ≼ m
  | None => ∀ s, applied (versions_of t) s → s_device s = s_device at_ → ¬ s ≺ at_
  end.
Proof.
  intros Hwf. unfold previous_of_device.
  assert (∀ s, s ∈ filter (λ s, s_device s = s_device at_ ∧ s ≺ at_) (row_at <$> rows t) ↔
               (s_device s = s_device at_ ∧ s ≺ at_) ∧ applied (versions_of t) s) as Hin.
  { intros s. rewrite list_elem_of_filter, list_elem_of_fmap, rows_applied by done.
    split; intros [Hc (r & ? & ?)]; (split; [done|]); by exists r. }
  destruct (greatest _) as [m|] eqn:E; simpl.
  - apply greatest_spec in E as [Hm Hmax]. apply Hin in Hm as [[] ?].
    exists m. split_and!; try done. intros s ???. apply Hmax, Hin. auto.
  - apply greatest_None in E. intros s ? ? ?.
    apply (not_elem_of_nil s). rewrite <-E. apply Hin. auto.
Qed.

Lemma arrived_late_spec t at_ :
  arrived_late t at_ = true ↔
  ∃ r, r ∈ rows t ∧ at_ ≺ row_at r ∧
       (s_device (row_at r) = s_device at_ ∨ op_ref at_ ∈ parents_list (row_version r)).
Proof.
  unfold arrived_late. rewrite existsb_exists. split.
  - intros (r & Hr%list_elem_of_In & Hb). exists r.
    rewrite andb_true_iff, orb_true_iff, !bool_decide_eq_true in Hb. done.
  - intros (r & Hr & Hb). exists r.
    rewrite andb_true_iff, orb_true_iff, !bool_decide_eq_true. by rewrite <-list_elem_of_In.
Qed.

(** ** Admitting a version *)

Lemma applied_insert vs v s :
  applied (<[op_ref (v_at v) := v]> vs) s →
  s = v_at v ∨ applied vs s.
Proof.
  intros (w & Hw & <-). apply lookup_insert_Some in Hw as [[_ ->]|[_ Hw]]; [by left|].
  right. by exists w.
Qed.

Section one_more.
Context (vs : gmap OpRef Version) (v : Version).
Hypothesis Hfresh : vs !! op_ref (v_at v) = None.
Let vs' : gmap OpRef Version := <[op_ref (v_at v) := v]> vs.

Lemma wf_insert : wf_versions vs → wf_versions vs'.
Proof. intros Hwf op w [[<- <-]|[_ Hw]]%lookup_insert_Some; [done|by apply Hwf]. Qed.

Lemma applied_old s : applied vs s → applied vs' s ∧ op_ref s ≠ op_ref (v_at v).
Proof.
  intros (w & Hw & <-). assert (op_ref (v_at w) ≠ op_ref (v_at v)) as Hne by congruence.
  split; [|done]. exists w. split; [|done]. by apply lookup_insert_Some; right.
Qed.

Lemma applied_new : applied vs' (v_at v).
Proof. exists v. split; [apply lookup_insert_eq|done]. Qed.

Lemma edge_old a b : edge vs a b → edge vs' a b.
Proof.
  intros (w & Hw & <- & Hb & Hlt & Hor). exists w. split_and!; try done.
  - apply lookup_insert_Some. right. split; [congruence|done].
  - by apply applied_old.
Qed.

Lemma reaches_old a b : reaches vs a b → reaches vs' a b.
Proof. intros Hr. induction Hr; [apply rtc_refl|]. eapply rtc_l; eauto using edge_old. Qed.

Lemma sound_old a f : sound vs a f → sound vs' a f.
Proof. intros Hf d s Hs. destruct (Hf _ _ Hs). split; [done|]. by apply reaches_old. Qed.

(** [v] is not late: no version above it is by its device or names it. *)
Definition not_late : Prop :=
  ∀ w, vs !! op_ref (v_at w) = Some w → v_at v ≺ v_at w →
    s_device (v_at w) ≠ s_device (v_at v) ∧ op_ref (v_at v) ∉ parents_list w.

Hypothesis Hlate : not_late.

Lemma edge_new_from a b : edge vs' a b → applied vs a → edge vs a b.
Proof.
  intros (w & Hw & <- & Hb & Hlt & Hor) (w' & Hw' & Heq).
  apply lookup_insert_Some in Hw as [[Heqr <-]|[Hne Hw]]; [congruence|].
  apply applied_insert in Hb as [-> | Hb].
  - destruct (Hlate w Hw Hlt) as [Hd Hp]. destruct Hor as [Hor|Hor]; [by destruct Hd|done].
  - exists w. auto 10.
Qed.

Lemma reaches_new_from a b : reaches vs' a b → applied vs a → reaches vs a b.
Proof.
  intros Hr. induction Hr as [|a b c He _ IH]; intros Ha; [apply rtc_refl|].
  apply edge_new_from in He; [|done]. eapply rtc_l; [done|]. apply IH. eauto with sunrise.
Qed.

Lemma exact_old a f : applied vs a → exact vs a f → exact vs' a f.
Proof.
  intros Ha [Hs Hc]. split; [by apply sound_old|].
  intros s Hr. apply Hc. by apply reaches_new_from.
Qed.

Lemma no_edge_to_new a : ¬ edge vs' a (v_at v).
Proof.
  intros He. pose proof He as (w & Hw & <- & _ & Hlt & _).
  apply lookup_insert_Some in Hw as [[_ <-]|[_ Hw]].
  - by apply tlt_irrefl in Hlt.
  - assert (applied vs (v_at v)) as (w' & Hw' & _).
    { eapply edge_applied_r, edge_new_from; [done|]. by exists w. }
    congruence.
Qed.

Lemma is_head_old a : applied vs a → is_head vs' a ↔ is_head vs a ∧ ¬ edge vs' (v_at v) a.
Proof.
  intros Ha. split.
  - intros Hh. split; [|apply Hh]. intros x Hx. by apply (Hh x), edge_old.
  - intros [Hh Hv] x Hx.
    destruct (applied_insert vs v x (edge_applied_l _ _ _ Hx)) as [-> | Hx']; [done|].
    by apply (Hh x), edge_new_from.
Qed.

(** Reaching an old version from the new one, by [covers]: the new version's
    exact frontier decides which heads it replaces. *)
Lemma edge_new_covers f a :
  exact vs' (v_at v) f → applied vs a → is_head vs a →
  (edge vs' (v_at v) a ↔ covers f a).
Proof.
  intros Hf Ha Hh.
  assert (applied vs' a ∧ op_ref a ≠ op_ref (v_at v)) as [Ha' Hne] by by apply applied_old.
  rewrite (covers_reaches vs' (v_at v) f a applied_new Hf Ha'). split.
  - intros He. by apply rtc_once.
  - intros Hr. apply rtc_inv_r in Hr as [Heq | (x & Hvx & Hxa)]; [by rewrite Heq in Hne|].
    destruct (applied_insert vs v x (edge_applied_l _ _ _ Hxa)) as [-> | Hx]; [done|].
    apply edge_new_from in Hxa; [|done]. by destruct (Hh x).
Qed.
End one_more.

(** *** The incremental step *)

Lemma stamp_of_insert t v op :
  op ≠ op_ref (v_at v) → stamp_of (insert_version t v) op = stamp_of t op.
Proof. intros Hne. unfold stamp_of; simpl. by rewrite lookup_insert_ne. Qed.

Lemma versions_of_insert t v :
  versions_of (insert_version t v) = <[op_ref (v_at v) := v]> (versions_of t).
Proof. apply fmap_insert. Qed.

(** Joining the frontiers of the named parents: what each of them covers, the
    result covers. *)
Lemma join_parents_spec t vs at_ look ps f :
  wf_versions (versions_of t) →
  (∀ m, op_ref m ∈ ps → applied (versions_of t) m → m ≺ at_ → sound vs at_ (look (op_ref m))) →
  sound vs at_ f →
  let g := foldl (join_parent t at_ look) f ps in
  sound vs at_ g ∧ (∀ s, covers f s → covers g s) ∧
  (∀ m s, op_ref m ∈ ps → applied (versions_of t) m → m ≺ at_ →
     covers (look (op_ref m)) s → covers g s).
Proof.
  intros Hwf. revert f. induction ps as [|p ps IH]; intros f Hlook Hf; simpl.
  { split_and!; [done|done|]. by intros m s ?%not_elem_of_nil. }
  assert (sound vs at_ (join_parent t at_ look f p) ∧
          (∀ s, covers f s → covers (join_parent t at_ look f p) s) ∧
          (∀ m s, op_ref m = p → applied (versions_of t) m → m ≺ at_ →
             covers (look (op_ref m)) s → covers (join_parent t at_ look f p) s))
    as (Hs & Hkeep & Hnew).
  { unfold join_parent. destruct (stamp_of t p) as [m|] eqn:E.
    - apply (stamp_of_applied t p m Hwf) in E as [-> Hm]. case_decide as Hlt.
      + split_and!; [apply sound_join; [done|apply Hlook; [by left|done..]]|eauto with sunrise|].
        intros m' s Heq _ _ Hr. rewrite Heq in Hr. eauto with sunrise.
      + split_and!; try done. intros m' s Heq Hm' Hlt'. exfalso. apply Hlt.
        assert (m' = m) as ->; [|done].
        destruct Hm' as (w' & Hw' & <-), Hm as (w & Hw & <-). congruence.
    - split_and!; try done. intros m s <- Hm. exfalso.
      assert (stamp_of t (op_ref m) = Some m) by (by apply stamp_of_applied). congruence. }
  destruct (IH (join_parent t at_ look f p)) as (HS & HK & HN);
    [intros m ???; apply Hlook; [by right|done..]|done|].
  split_and!; [done|auto|].
  intros m s [Heq|Hin]%elem_of_cons Hm Hlt Hr; eauto.
Qed.

(** The frontier [admit_version] computes for a version that is not late. *)
Definition new_frontier (t : VTables) (v : Version) : Frontier :=
  let f1 := foldl (join_parent t (v_at v) (frontier_of t)) {[s_device (v_at v) := v_at v]}
                  (parents_list v) in
  match previous_of_device t (v_at v) with
  | Some previous => join f1 (frontier_of t previous)
  | None => f1
  end.

Section new_frontier.
Context (t : VTables) (v : Version).
Hypothesis Hok : versions_ok t.
Hypothesis Hfresh : versions_of t !! op_ref (v_at v) = None.
Let vs' := <[op_ref (v_at v) := v]> (versions_of t).

Lemma frontier_of_exact m :
  applied (versions_of t) m → exact (versions_of t) m (frontier_of t (op_ref m)).
Proof. destruct Hok as (_ & Hex & _). intros (w & Hw & <-). by apply Hex. Qed.

(** Joining the frontier of a version one step below keeps the frontier sound
    and makes it cover all that version reaches. *)
Lemma step_below m :
  edge vs' (v_at v) m → applied (versions_of t) m →
  sound vs' (v_at v) (frontier_of t (op_ref m)) ∧
  ∀ s, reaches (versions_of t) m s → covers (frontier_of t (op_ref m)) s.
Proof.
  intros He Hm. destruct (frontier_of_exact m Hm) as [Hs Hc]. split; [|done].
  eapply sound_below; [by apply rtc_once|]. by apply sound_old.
Qed.

Lemma new_frontier_exact : not_late (versions_of t) v → exact vs' (v_at v) (new_frontier t v).
Proof.
  intros Hlate. unfold new_frontier.
  destruct Hok as (Hwf & _).
  assert (∀ m, op_ref m ∈ parents_list v → applied (versions_of t) m → m ≺ v_at v →
            edge vs' (v_at v) m) as Hparent.
  { intros m Hp Hm Hlt. exists v. split_and!; try done; [apply lookup_insert_eq| |by right].
    by apply applied_old. }
  destruct (join_parents_spec t vs' (v_at v) (frontier_of t) (parents_list v)
              {[s_device (v_at v) := v_at v]})
    as (Hs & Hkeep & Hpar); [done| |apply sound_singleton|].
  { intros m Hp Hm Hlt. by apply step_below; [apply Hparent|]. }
  set (f1 := foldl _ _ _) in *.
  pose proof (previous_of_device_spec t (v_at v) Hwf) as Hprev.
  set (f := match previous_of_device t (v_at v) with
            | Some previous => join f1 (frontier_of t previous) | None => f1 end).
  assert (sound vs' (v_at v) f ∧ (∀ s, covers f1 s → covers f s) ∧
    ∀ b s, applied (versions_of t) b → b ≺ v_at v → s_device b = s_device (v_at v) →
      reaches (versions_of t) b s → covers f s) as (Hsf & Hkf & Hdf).
  { subst f. destruct (previous_of_device t (v_at v)) as [op|].
    - destruct Hprev as (m & -> & Hm & Hd & Hlt & Hmax).
      assert (edge vs' (v_at v) m) as He.
      { apply edge_same_device; [apply applied_new|by apply applied_old|done|done]. }
      destruct (step_below m He Hm) as [Hsm Hcm]. split_and!; eauto with sunrise.
      intros b s Hb Hlb Hdb Hr. apply covers_join_r, Hcm. etrans; [|exact Hr].
      apply (same_device_below _ m m b); try done; [congruence|by apply Hmax].
    - split_and!; try done. intros b s Hb Hlb Hdb. by destruct (Hprev b). }
  split; [done|]. intros s Hr. apply rtc_inv in Hr as [<- | (b & He & Hr)].
  - apply Hkf, Hkeep. exists (v_at v). split; [apply lookup_singleton_eq|apply tle_refl].
  - pose proof He as (w & Hw & Hat & Hb & Hlt & Hor).
    apply lookup_insert_Some in Hw as [[_ <-]|[Hne _]]; [|done].
    apply applied_insert in Hb as [-> | Hb]; [by apply tlt_irrefl in Hlt|].
    apply reaches_new_from in Hr; [|done..].
    destruct Hor as [Hd|Hp]; [by eapply Hdf|]. apply Hkf.
    by apply (Hpar b); [..|apply step_below; [apply Hparent|..]].
Qed.
End new_frontier.

Lemma not_late_of t v :
  wf_versions (versions_of t) → arrived_late t (v_at v) = false → not_late (versions_of t) v.
Proof.
  intros Hwf Hl w Hw Hlt. rewrite lookup_versions_of in Hw.
  apply fmap_Some in Hw as (r & Hr & ->).
  assert (¬ (s_device (row_at r) = s_device (v_at v) ∨
             op_ref (v_at v) ∈ parents_list (row_version r))) as Hn; [|tauto].
  intros Hor. apply not_true_iff_false in Hl. apply Hl, arrived_late_spec.
  exists r. split_and!; [|done..]. apply elem_of_rows. eauto.
Qed.

(** Marking a list of heads: every other column stays. *)
Lemma clear_heads_lookup t hs op :
  entity_versions (foldl (λ t h, set_head t (op_ref h) false) t hs) !! op =
  (λ r, mkVRow (row_version r) (row_head r && bool_decide (op ∉ op_ref <$> hs)))
    <$> entity_versions t !! op.
Proof.
  revert t. induction hs as [|h hs IH]; intros t; cbn [foldl].
  { destruct (entity_versions t !! op) as [[v hd]|]; [|done]. simpl.
    by destruct hd. }
  rewrite IH. cbn [set_head entity_versions]. rewrite lookup_alter, fmap_cons.
  destruct (decide (op_ref h = op)) as [<-|Hne];
    (destruct (entity_versions t !! _) as [r|]; [|done]); cbn [fmap option_fmap option_map]; do 2 f_equal; cbn [row_head].
  - rewrite (bool_decide_eq_false_2 (op_ref h ∉ op_ref h :: _)); [by rewrite andb_false_r|].
    intros Hn. apply Hn. by left.
  - f_equal. apply bool_decide_ext. rewrite not_elem_of_cons. split; [|tauto].
    intros ?. split; [|done]. congruence.
Qed.

Lemma clear_heads_frontier t hs :
  entity_frontier (foldl (λ t h, set_head t (op_ref h) false) t hs) = entity_frontier t.
Proof. revert t. induction hs as [|h hs IH]; intros t; [done|]. simpl. by rewrite IH. Qed.

Lemma head_stamps_spec t h :
  h ∈ head_stamps t ↔ ∃ op r, entity_versions t !! op = Some r ∧ row_head r = true ∧ row_at r = h.
Proof.
  unfold head_stamps. rewrite list_elem_of_fmap.
  setoid_rewrite list_elem_of_filter. setoid_rewrite elem_of_rows.
  split; [intros (r & -> & ? & op & ?)|intros (op & r & ? & ? & <-)]; eauto 10.
Qed.

Section admit_ok.
Context (t : VTables) (v : Version).
Hypothesis Hok : versions_ok t.
Hypothesis Hfresh : versions_of t !! op_ref (v_at v) = None.
Hypothesis Hlate : arrived_late t (v_at v) = false.

Let me := op_ref (v_at v).
Let f := new_frontier t v.
Let hs := filter (λ h, reached_by h f = true) (head_stamps t).
Let t' := set_head (foldl (λ t h, set_head t (op_ref h) false)
                     (insert_frontier (insert_version t v) me f) hs) me true.

Lemma admit_step_lookup op :
  entity_versions t' !! op =
  if decide (op = me) then Some (mkVRow v true)
  else (λ r, mkVRow (row_version r) (row_head r && bool_decide (op ∉ op_ref <$> hs)))
         <$> entity_versions t !! op.
Proof.
  unfold t'. cbn [set_head entity_versions]. destruct (decide (op = me)) as [->|Hne].
  - rewrite lookup_alter_eq, clear_heads_lookup. cbn [insert_frontier insert_version entity_versions].
    by rewrite lookup_insert_eq.
  - rewrite lookup_alter_ne, clear_heads_lookup by done.
    cbn [insert_frontier insert_version entity_versions]. by rewrite lookup_insert_ne.
Qed.

Lemma admit_step_versions : versions_of t' = <[me := v]> (versions_of t).
Proof.
  apply map_eq. intros op. rewrite lookup_versions_of, admit_step_lookup, lookup_insert.
  case_decide as Heq; case_decide as Heq'; try congruence; [done|].
  rewrite lookup_versions_of. by destruct (entity_versions t !! op).
Qed.

Lemma admit_step_frontier op :
  frontier_of t' op = if decide (op = me) then f else frontier_of t op.
Proof.
  unfold frontier_of, t'. cbn [set_head entity_frontier].
  rewrite clear_heads_frontier. cbn [insert_frontier entity_frontier].
  destruct (decide (op = me)) as [->|Hne]; [by rewrite lookup_insert_eq|].
  by rewrite lookup_insert_ne.
Qed.

Lemma replaced_spec op r :
  entity_versions t !! op = Some r →
  (op ∈ op_ref <$> hs ↔ row_head r = true ∧ covers f (row_at r)).
Proof.
  destruct Hok as (Hwf & _). intros Hr.
  assert (op_ref (row_at r) = op) as Hop by (apply Hwf; by rewrite lookup_versions_of, Hr).
  rewrite list_elem_of_fmap. unfold hs. setoid_rewrite list_elem_of_filter.
  setoid_rewrite reached_by_covers. setoid_rewrite head_stamps_spec. split.
  - intros (h & -> & Hc & op' & r' & Hr' & Hh & <-).
    assert (op_ref (row_at r') = op') as Hop' by (apply Hwf; by rewrite lookup_versions_of, Hr').
    rewrite Hop' in Hr. by simplify_eq.
  - intros [Hh Hc]. exists (row_at r). eauto 10.
Qed.

Lemma admit_step_ok : versions_ok t'.
Proof.
  destruct Hok as (Hwf & Hex & Hhd & Hdom).
  pose proof (not_late_of t v Hwf Hlate) as Hnl.
  pose proof (new_frontier_exact t v Hok Hfresh Hnl) as Hf.
  unfold versions_ok. rewrite admit_step_versions. split_and!.
  - by apply wf_insert.
  - unfold frontiers_exact. rewrite admit_step_versions. intros op w.
    rewrite admit_step_frontier. intros [[<- <-]|[Hne Hw]]%lookup_insert_Some.
    + by rewrite decide_True.
    + rewrite decide_False by done. apply exact_old; [done|done| |by apply Hex].
      exists w. by rewrite (Hwf _ _ Hw).
  - unfold heads_exact. rewrite admit_step_versions. intros op r.
    rewrite admit_step_lookup. case_decide as Heq.
    + intros [= <-]. simpl. split; [|done]. intros _ x. by apply no_edge_to_new.
    + intros (r0 & Hr0 & ->)%fmap_Some. unfold row_at; simpl. fold (row_at r0).
      assert (applied (versions_of t) (row_at r0)) as Ha by (apply rows_applied;
        [done|]; exists r0; split; [apply elem_of_rows; eauto|done]).
      unfold me. rewrite (is_head_old _ v) by done. rewrite <-(Hhd op r0 Hr0).
      rewrite andb_true_iff, bool_decide_eq_true, (replaced_spec op r0 Hr0).
      assert (row_head r0 = true → edge (<[op_ref (v_at v):=v]> (versions_of t)) (v_at v)
                (row_at r0)
              ↔ covers f (row_at r0)) as Hiff; [|tauto].
      intros Hh. apply edge_new_covers; try done. by apply (Hhd op r0).
  - unfold t'; simpl. rewrite clear_heads_frontier; simpl. intros op.
    rewrite !elem_of_dom. intros Hop. change (is_Some (entity_versions t' !! op)).
    rewrite admit_step_lookup. case_decide as Heq; [by eexists|].
    rewrite fmap_is_Some. apply elem_of_dom, Hdom, elem_of_dom.
    by rewrite lookup_insert_ne in Hop by done.
Qed.
End admit_ok.

(** *** The recompute pass *)

#[export] Instance row_le_trans : Transitive row_le.
Proof. intros a b c. unfold row_le. apply tle_trans. Qed.
#[export] Instance row_le_total : Total row_le.
Proof. intros a b. unfold row_le. apply tle_total. Qed.

Section recompute.
Context (t : VTables).
Let vs := versions_of t.
Hypothesis Hwf : wf_versions vs.
(** What is stored is a floor: never more than the exact frontier. *)
Hypothesis Hfloor : ∀ op v, vs !! op = Some v → sound vs (v_at v) (frontier_of t op).

Let sorted := merge_sort row_le (rows t).

Lemma elem_of_sorted r : r ∈ sorted ↔ r ∈ rows t.
Proof. unfold sorted. by rewrite merge_sort_Permutation. Qed.

Lemma row_op_ref r op : entity_versions t !! op = Some r → op_ref (row_at r) = op.
Proof. intros Hr. apply Hwf. unfold vs. by rewrite lookup_versions_of, Hr. Qed.

Lemma row_applied r : r ∈ rows t → applied vs (row_at r).
Proof. intros Hr. apply rows_applied; [done|]. by exists r. Qed.

Lemma row_version_lookup r : r ∈ rows t → vs !! op_ref (row_at r) = Some (row_version r).
Proof.
  intros [op Hr]%elem_of_rows. rewrite (row_op_ref r op Hr).
  unfold vs. by rewrite lookup_versions_of, Hr.
Qed.

Lemma rows_inj r1 r2 : r1 ∈ rows t → r2 ∈ rows t → row_at r1 = row_at r2 → r1 = r2.
Proof.
  intros [op1 H1]%elem_of_rows [op2 H2]%elem_of_rows Heq.
  apply row_op_ref in H1 as Ho1. apply row_op_ref in H2 as Ho2. congruence.
Qed.

Lemma rows_NoDup : NoDup (rows t).
Proof.
  apply (NoDup_fmap_1 (λ r, op_ref (row_at r))). unfold rows.
  replace ((λ r, op_ref (row_at r)) <$> (map_to_list (entity_versions t)).*2)
    with (map_to_list (entity_versions t)).*1; [apply NoDup_fst_map_to_list|].
  rewrite <-list_fmap_compose. apply list_fmap_ext. intros i [op r] Hi.
  apply list_elem_of_lookup_2, elem_of_map_to_list in Hi. symmetry. by apply row_op_ref.
Qed.

(** The rows passed before the next one of the sorted pass are strictly
    below it. *)
Lemma sorted_prefix_lt l1 r l2 r' :
  sorted = l1 ++ r :: l2 → r' ∈ l1 → row_at r' ≺ row_at r.
Proof.
  intros Heq Hr'.
  assert (StronglySorted row_le (l1 ++ r :: l2)) as Hss
    by (rewrite <-Heq; apply (StronglySorted_merge_sort row_le)).
  assert (NoDup (l1 ++ r :: l2)) as Hnd.
  { rewrite <-Heq. unfold sorted. rewrite merge_sort_Permutation. apply rows_NoDup. }
  apply tle_ne_tlt.
  - apply (StronglySorted_app_1_elem_of row_le l1 (r :: l2)); [done|done|by left].
  - intros Hat. apply NoDup_app in Hnd as (_ & Hdisj & _). apply (Hdisj r' Hr').
    assert (r' = r) as ->; [|by left].
    apply rows_inj; [..|done]; apply elem_of_sorted; rewrite Heq; apply elem_of_app;
      [by left|right; by left].
Qed.

(** A version strictly below the next row of the sorted pass was passed
    already. *)
Lemma sorted_prefix l1 r l2 s :
  sorted = l1 ++ r :: l2 → applied vs s → s ≺ row_at r → ∃ r', r' ∈ l1 ∧ row_at r' = s.
Proof.
  intros Heq Hs Hlt. apply rows_applied in Hs as (r' & Hr' & <-); [|done].
  exists r'. split; [|done]. apply elem_of_sorted in Hr'. rewrite Heq in Hr'.
  apply elem_of_app in Hr' as [?|Hr']; [done|]. exfalso.
  assert (StronglySorted row_le (l1 ++ r :: l2)) as Hss
    by (rewrite <-Heq; apply (StronglySorted_merge_sort row_le)).
  apply StronglySorted_app_1_r, StronglySorted_inv in Hss as [_ Hall].
  apply elem_of_cons in Hr' as [-> | Hr']; [by apply tlt_irrefl in Hlt|].
  rewrite Forall_forall in Hall. by apply (Hall r' Hr').
Qed.

Definition rc_inv (l1 : list VRow) (st : RcState) : Prop :=
  (∀ r, r ∈ l1 → ∃ f, rc_done st !! op_ref (row_at r) = Some f ∧ exact vs (row_at r) f) ∧
  (∀ op, is_Some (rc_done st !! op) → ∃ r, r ∈ l1 ∧ op = op_ref (row_at r)) ∧
  (∀ d, match rc_latest st !! d with
        | Some s => s_device s = d ∧ (∃ r, r ∈ l1 ∧ row_at r = s) ∧
                    ∀ r, r ∈ l1 → s_device (row_at r) = d → row_at r ≼ s
        | None => ∀ r, r ∈ l1 → s_device (row_at r) ≠ d
        end).

Lemma rc_row_exact l1 r l2 st :
  sorted = l1 ++ r :: l2 → rc_inv l1 st →
  ∃ f, rc_row t st r = mkRc (<[op_ref (row_at r) := f]> (rc_done st))
                            (<[s_device (row_at r) := row_at r]> (rc_latest st)) ∧
       exact vs (row_at r) f.
Proof.
  intros Hsorted (Hdone & _ & Hlatest). set (at_ := row_at r).
  assert (r ∈ rows t) as Hr.
  { apply elem_of_sorted. rewrite Hsorted. apply elem_of_app. right. by left. }
  pose proof (row_version_lookup r Hr) as Hv. pose proof (row_applied r Hr) as Ha.
  assert (∀ m, applied vs m → m ≺ at_ →
            exact vs m (default ∅ (rc_done st !! op_ref m))) as Hbelow.
  { intros m Hm Hlt. destruct (sorted_prefix l1 r l2 m) as (r' & Hr' & <-); [done..|].
    destruct (Hdone r' Hr') as (f & -> & Hf). done. }
  assert (∀ m, applied vs m → m ≺ at_ → edge vs at_ m →
            sound vs at_ (default ∅ (rc_done st !! op_ref m))) as Hsound.
  { intros m Hm Hlt He. eapply sound_below; [by apply rtc_once|]. by apply Hbelow. }
  unfold rc_row. fold at_. eexists. split; [done|].
  set (f0 := join (frontier_of t (op_ref at_)) {[s_device at_ := at_]}).
  assert (sound vs at_ f0) as Hs0.
  { apply sound_join; [|apply sound_singleton]. by apply Hfloor. }
  destruct (join_parents_spec t vs at_ (λ p, default ∅ (rc_done st !! p))
    (parents_list (row_version r)) f0) as (Hs & Hkeep & Hpar); [done| |done|].
  { intros m Hp Hm Hlt. apply Hsound; [done..|]. exists (row_version r). auto 10. }
  set (f1 := foldl _ f0 _) in *. specialize (Hlatest (s_device at_)).
  set (f2 := match rc_latest st !! s_device at_ with Some p => _ | None => _ end).
  assert (sound vs at_ f2 ∧ (∀ s, covers f1 s → covers f2 s) ∧
    ∀ b s, applied vs b → b ≺ at_ → s_device b = s_device at_ → reaches vs b s → covers f2 s)
    as (Hsf & Hkf & Hdf).
  { subst f2. destruct (rc_latest st !! s_device at_) as [p|].
    - destruct Hlatest as (Hd & (rp & Hrp & Hp) & Hmax).
      assert (applied vs p) as Hpa.
      { rewrite <-Hp. apply row_applied, elem_of_sorted. rewrite Hsorted.
        apply elem_of_app. by left. }
      assert (p ≺ at_) as Hlt.
      { rewrite <-Hp. by apply (sorted_prefix_lt l1 r l2). }
      split_and!; [|eauto with sunrise|].
      + apply sound_join; [done|]. apply Hsound; [done..|]. by apply edge_same_device.
      + intros b s Hb Hlb Hdb Hbs. apply covers_join_r, (Hbelow p Hpa Hlt).
        destruct (sorted_prefix l1 r l2 b) as (rb & Hrb & <-); [done..|].
        etrans; [|exact Hbs]. apply (same_device_below _ p p); try done; [congruence|].
        by apply Hmax.
    - split_and!; try done. intros b s Hb Hlb Hdb.
      destruct (sorted_prefix l1 r l2 b) as (rb & Hrb & <-); [done..|]. by destruct (Hlatest rb). }
  split; [done|]. intros s Hreach. apply rtc_inv in Hreach as [<- | (b & He & Hbs)].
  - apply Hkf, Hkeep, covers_join_r. exists at_.
    split; [apply lookup_singleton_eq|apply tle_refl].
  - pose proof He as (w & Hw & _ & Hb & Hlt & Hor). 
    assert (w = row_version r) as -> by (unfold at_ in Hw; congruence).
    destruct Hor as [Hd|Hp]; [by eapply Hdf|]. apply Hkf.
    apply (Hpar b); try done. by apply Hbelow.
Qed.

Lemma rc_row_inv l1 r l2 st :
  sorted = l1 ++ r :: l2 → rc_inv l1 st → rc_inv (l1 ++ [r]) (rc_row t st r).
Proof.
  intros Hsorted Hinv. destruct (rc_row_exact l1 r l2 st Hsorted Hinv) as (f & -> & Hf).
  destruct Hinv as (Hdone & Hdom & Hlatest).
  assert (∀ r', r' ∈ l1 → row_at r' ≺ row_at r) as Hlt
    by (intros; by apply (sorted_prefix_lt l1 r l2)).
  assert (∀ r', r' ∈ l1 ++ [r] ↔ r' ∈ l1 ∨ r' = r) as Hin.
  { intros r'. by rewrite elem_of_app, list_elem_of_singleton. }
  split_and!; cbn [rc_done rc_latest].
  - intros r' [Hr'| ->]%Hin.
    + destruct (Hdone r' Hr') as (f' & Hf' & ?). destruct (decide (op_ref (row_at r') = op_ref (row_at r))) as [Heq|Hne].
      * exfalso. assert (row_at r' = row_at r) as Hat.
        { assert (r' ∈ rows t ∧ r ∈ rows t) as [H1 H2].
          { split; apply elem_of_sorted; rewrite Hsorted; apply elem_of_app;
              [by left|right; by left]. }
          pose proof (row_version_lookup r' H1) as E1. pose proof (row_version_lookup r H2) as E2.
          rewrite Heq in E1. unfold row_at. congruence. }
        specialize (Hlt r' Hr'). rewrite Hat in Hlt. by apply tlt_irrefl in Hlt.
      * exists f'. by rewrite lookup_insert_ne.
    + exists f. by rewrite lookup_insert_eq.
  - intros op [<-|[_ Hop]]%lookup_insert_is_Some.
    + exists r. split; [apply Hin; by right|done].
    + destruct (Hdom op Hop) as (r' & ? & ->). exists r'. split; [apply Hin; by left|done].
  - intros d. destruct (decide (s_device (row_at r) = d)) as [<-|Hne].
    + rewrite lookup_insert_eq. split_and!; [done|exists r; split; [apply Hin; by right|done]|].
      intros r' [Hr'| ->]%Hin _; [|apply tle_refl]. by apply tlt_tle, Hlt.
    + rewrite lookup_insert_ne by done. specialize (Hlatest d).
      destruct (rc_latest st !! d) as [s|].
      * destruct Hlatest as (? & (r' & ? & ?) & Hmax).
        split_and!; [done|exists r'; split; [apply Hin; by left|done]|].
        intros r'' [Hr''| ->]%Hin ?; [by apply Hmax|done].
      * intros r' [Hr'| ->]%Hin; [by apply Hlatest|done].
Qed.

Let final := foldl (rc_row t) (mkRc ∅ ∅) sorted.

Lemma rc_final : rc_inv sorted final.
Proof.
  assert (∀ l1 l2 st, sorted = l1 ++ l2 → rc_inv l1 st → rc_inv sorted (foldl (rc_row t) st l2))
    as Hgen.
  { intros l1 l2. revert l1. induction l2 as [|r l2 IH]; intros l1 st Heq Hinv; cbn [foldl].
    - rewrite app_nil_r in Heq. by rewrite Heq.
    - apply (IH (l1 ++ [r])); [by rewrite <-app_assoc|]. by eapply rc_row_inv. }
  apply (Hgen [] sorted); [done|]. split_and!.
  - by intros r ?%not_elem_of_nil.
  - intros op. cbn [rc_done]. rewrite lookup_empty. by intros [].
  - intros d. cbn [rc_latest]. rewrite lookup_empty. by intros r ?%not_elem_of_nil.
Qed.

Lemma latest_spec s :
  s ∈ (map_to_list (rc_latest final)).*2 ↔
  applied vs s ∧ ∀ x, applied vs x → s_device x = s_device s → x ≼ s.
Proof.
  destruct rc_final as (_ & _ & Hlatest). rewrite list_elem_of_fmap.
  assert (∀ x, applied vs x ↔ ∃ r, r ∈ sorted ∧ row_at r = x) as Happ.
  { intros x. unfold vs. rewrite (rows_applied t x Hwf). by setoid_rewrite elem_of_sorted. }
  split.
  - intros ([d s'] & -> & Hin%elem_of_map_to_list). specialize (Hlatest d). rewrite Hin in Hlatest.
    destruct Hlatest as (<- & (r & Hr & <-) & Hmax). split; [apply Happ; eauto|].
    intros x (r' & Hr' & <-)%Happ Hd. by apply Hmax.
  - intros [Hs Hmax]. apply Happ in Hs as (r & Hr & <-). specialize (Hlatest (s_device (row_at r))).
    destruct (rc_latest final !! _) as [s|] eqn:E; [|by destruct (Hlatest r)].
    destruct Hlatest as (Hd & (r' & Hr' & <-) & Hub). exists (s_device (row_at r), row_at r').
    split; [|by apply elem_of_map_to_list]. simpl. apply tle_antisymm; [by apply Hub|].
    apply Hmax; [apply Happ; eauto|done].
Qed.

Lemma rc_heads_spec s : s ∈ rc_heads final ↔ applied vs s ∧ is_head vs s.
Proof.
  unfold rc_heads. rewrite list_elem_of_filter, Forall_forall.
  setoid_rewrite reached_by_covers. setoid_rewrite latest_spec.
  assert (∀ x, applied vs x → exact vs x (default ∅ (rc_done final !! op_ref x))) as Hex.
  { intros x Hx. apply rows_applied in Hx as (r & Hr & <-); [|done].
    destruct rc_final as (Hdone & _). destruct (Hdone r) as (f & -> & Hf);
      [by apply elem_of_sorted|done]. }
  split.
  - intros (Hno & Hs & Hmax). split; [done|]. intros x He.
    pose proof (edge_applied_l _ _ _ He) as Hx.
    (* the latest version of [x]'s device reaches [s] *)
    assert (∃ d, applied vs d ∧ (∀ y, applied vs y → s_device y = s_device d → y ≼ d) ∧
              s_device d = s_device x) as (d & Hd & Hdmax & Hdev).
    { destruct rc_final as (_ & _ & Hlatest). specialize (Hlatest (s_device x)).
      apply rows_applied in Hx as (r & Hr & <-); [|done]. apply elem_of_sorted in Hr.
      destruct (rc_latest final !! _) as [d|] eqn:E; [|by destruct (Hlatest r)].
      assert (d ∈ (map_to_list (rc_latest final)).*2) as Hin.
      { apply list_elem_of_fmap. exists (s_device (row_at r), d).
        split; [done|]. by apply elem_of_map_to_list. }
      apply latest_spec in Hin as [? ?]. exists d. split_and!; try done. by destruct Hlatest. }
    assert (reaches vs d s) as Hreach.
    { etrans; [|by apply rtc_once].
      apply (same_device_below vs d d x); try done. by apply Hdmax. }
    apply (Hno d); [done|]. split.
    + intros ->. assert (x ≼ s) by by apply Hdmax. apply edge_lt in He. tord.
    + by apply (Hex d).
  - intros [Hs Hh].
    assert (∀ x, applied vs x → reaches vs x s → x = s) as Htop.
    { intros x Hx Hr. apply rtc_inv_r in Hr as [?|(y & _ & He)]; [done|]. by destruct (Hh y). }
    split_and!; [|done|].
    + intros d [Hd _] [Hne Hc]. apply Hne, Htop; [done|]. by eapply covers_reaches; [|apply Hex|..].
    + intros x Hx Hd. apply not_tlt. intros Hlt. apply (Hh x). by apply edge_same_device.
Qed.

Lemma recompute_versions : versions_of (recompute t) = vs.
Proof.
  apply map_eq. intros op. unfold vs. rewrite !lookup_versions_of. unfold recompute; simpl.
  rewrite lookup_fmap. by destruct (entity_versions t !! op).
Qed.

Lemma recompute_ok : versions_ok (recompute t).
Proof.
  pose proof rc_final as (Hdone & Hdom & _).
  unfold versions_ok. rewrite recompute_versions. split_and!.
  - done.
  - unfold frontiers_exact. rewrite recompute_versions. intros op v Hv.
    assert (∃ r, r ∈ sorted ∧ row_version r = v ∧ op_ref (row_at r) = op) as (r & Hr & <- & <-).
    { unfold vs in Hv. rewrite lookup_versions_of in Hv. apply fmap_Some in Hv as (r & Hr & ->).
      exists r. split_and!; [apply elem_of_sorted, elem_of_rows; eauto|done|by apply row_op_ref]. }
    destruct (Hdone r Hr) as (f & Hf & Hex). unfold frontier_of, recompute; simpl.
    fold sorted. fold final. by rewrite Hf.
  - unfold heads_exact. rewrite recompute_versions. intros op r. unfold recompute; simpl.
    fold sorted. fold final. rewrite lookup_fmap. intros (r0 & Hr0 & ->)%fmap_Some. simpl.
    etrans; [apply bool_decide_eq_true|]. etrans; [apply rc_heads_spec|].
    unfold row_at; simpl. fold (row_at r0).
    assert (applied vs (row_at r0)) by (apply row_applied, elem_of_rows; eauto). tauto.
  - unfold recompute; simpl. fold sorted. fold final. intros op. rewrite !elem_of_dom.
    intros (r & Hr & ->)%Hdom. rewrite lookup_fmap, fmap_is_Some.
    apply elem_of_sorted, elem_of_rows in Hr as [op Hr]. by rewrite (row_op_ref r op Hr), Hr.
Qed.
End recompute.

(** ** Admission, end to end *)

(** Every version folded comes from one universe of ops, in which an op-ref
    names one version: the op log's replay invariant. *)
Definition consistent (vs : gmap OpRef Version) (v : Version) : Prop :=
  ∀ w, vs !! op_ref (v_at v) = Some w → w = v.

Lemma admit_ok t v :
  versions_ok t → consistent (versions_of t) v →
  versions_ok (admit_version t v).1 ∧
  versions_of (admit_version t v).1 = <[op_ref (v_at v) := v]> (versions_of t) ∧
  (admitted (admit_version t v).2 = false ↔ versions_of t !! op_ref (v_at v) = Some v).
Proof.
  intros Hok Hcons. unfold admit_version. rewrite stamp_of_versions.
  destruct (versions_of t !! op_ref (v_at v)) as [w|] eqn:E; cbn [fmap option_fmap option_map].
  { apply Hcons in E as Hw. subst w. split_and!; [done|by rewrite insert_id|done]. }
  destruct (arrived_late t (v_at v)) eqn:Hlate; cbn [fst snd].
  - assert (versions_of (recompute (insert_version t v)) = versions_of (insert_version t v)) as Heq
      by apply recompute_versions.
    rewrite Heq, versions_of_insert. split_and!; [|done|done].
    destruct Hok as (Hwf & Hex & _ & Hdom). apply recompute_ok.
    + rewrite versions_of_insert. by apply wf_insert.
    + rewrite versions_of_insert. intros op x. change (frontier_of (insert_version t v) op) with (frontier_of t op).
      intros [[<- <-]|[Hne Hx]]%lookup_insert_Some.
      * unfold frontier_of. destruct (entity_frontier t !! op_ref (v_at v)) as [f|] eqn:Ef;
          [|apply sound_empty]. exfalso.
        assert (op_ref (v_at v) ∈ dom (entity_versions t)) as [r Hr]%elem_of_dom
          by (apply Hdom, elem_of_dom; eauto).
        by rewrite lookup_versions_of, Hr in E.
      * apply sound_old; [done|]. by apply Hex.
  - split_and!; [by apply admit_step_ok|by apply admit_step_versions|done].
Qed.

(** Admission only adds pairs to the order, and none between versions already
    applied unless it re-folded the frontiers. *)
Lemma admit_order t v :
  versions_ok t → consistent (versions_of t) v →
  (∀ a b, before (versions_of t) a b → before (versions_of (admit_version t v).1) a b) ∧
  (refined (admit_version t v).2 = false → ∀ a b,
     applied (versions_of t) b →
     before (versions_of (admit_version t v).1) a b → before (versions_of t) a b).
Proof.
  intros Hok Hcons. destruct (admit_ok t v Hok Hcons) as (_ & Hvs & _). rewrite Hvs.
  destruct (versions_of t !! op_ref (v_at v)) as [w|] eqn:E.
  { apply Hcons in E as Hw. subst w. by rewrite insert_id. }
  split.
  - intros a b Hab. induction Hab as [x y He|x y z He _ IH].
    + apply tc_once. by apply edge_old.
    + eapply tc_l; [by apply edge_old|done].
  - intros Href a b Hb Hab.
    assert (not_late (versions_of t) v) as Hnl.
    { apply not_late_of; [apply Hok|]. unfold admit_version in Href.
      rewrite stamp_of_versions, E in Href. simpl in Href.
      by destruct (arrived_late t (v_at v)). }
    induction Hab as [x y He|x y z He _ IH].
    + apply tc_once. by apply (edge_new_from _ v).
    + assert (edge (versions_of t) x y) as He' by by apply (edge_new_from _ v).
      eapply tc_l; [exact He'|]. apply IH. eauto with sunrise.
Qed.

(** [versions_ok] determines the tables from the versions alone. *)
Lemma versions_ok_unique t1 t2 :
  versions_ok t1 → versions_ok t2 → versions_of t1 = versions_of t2 → t1 = t2.
Proof.
  intros (Hwf1 & Hex1 & Hhd1 & Hdom1) (Hwf2 & Hex2 & Hhd2 & Hdom2) Heq.
  assert (∀ op, entity_versions t1 !! op = None ↔ entity_versions t2 !! op = None) as Hnone.
  { intros op. apply (f_equal (.!! op)) in Heq. rewrite !lookup_versions_of in Heq.
    by destruct (entity_versions t1 !! op), (entity_versions t2 !! op). }
  assert (entity_versions t1 = entity_versions t2) as Hv.
  { apply map_eq. intros op. specialize (Hnone op). pose proof (f_equal (.!! op) Heq) as Hop.
    rewrite !lookup_versions_of in Hop.
    destruct (entity_versions t1 !! op) as [r1|] eqn:E1, (entity_versions t2 !! op) as [r2|] eqn:E2;
      try (destruct Hnone; naive_solver); try done.
    injection Hop as Hop. pose proof (Hhd1 op r1 E1) as H1. pose proof (Hhd2 op r2 E2) as H2.
    unfold row_at in H1, H2. rewrite Hop, Heq in H1.
    destruct r1 as [v1 []], r2 as [v2 []]; simpl in *; subst; try done;
      [destruct H2 as [_ H2]; by rewrite H2 by by apply H1
      |destruct H1 as [_ H1]; by rewrite H1 by by apply H2]. }
  destruct t1 as [tv1 tf1], t2 as [tv2 tf2]; simpl in *. subst tv2. f_equal.
  apply map_eq. intros op.
  destruct (tv1 !! op) as [r|] eqn:E.
  - assert (versions_of (mkVTables tv1 tf1) !! op = Some (row_version r)) as Hr
      by (by rewrite lookup_versions_of; simpl; rewrite E).
    pose proof (Hex1 op _ Hr) as F1. rewrite Heq in Hr. pose proof (Hex2 op _ Hr) as F2.
    rewrite Heq in F1. pose proof (exact_unique _ _ _ _ F1 F2) as Hf.
    assert (∀ tf, exact (versions_of (mkVTables tv1 tf2)) (v_at (row_version r))
                    (frontier_of (mkVTables tv1 tf) op) → is_Some (tf !! op)) as Hsome.
    { intros tf [_ Hc]. destruct (Hc _ (rtc_refl _ _)) as (m & Hm & _). unfold frontier_of in Hm.
      simpl in Hm. destruct (tf !! op); [eauto|].
      simpl in Hm. by rewrite lookup_empty in Hm. }
    destruct (Hsome _ F1) as [f1 Hf1], (Hsome _ F2) as [f2 Hf2].
    unfold frontier_of in Hf; simpl in Hf. rewrite Hf1, Hf2 in Hf |- *. simpl in Hf. by f_equal.
  - assert (∀ tf : gmap OpRef Frontier, dom tf ⊆ dom tv1 → tf !! op = None) as Hn; [|by rewrite !Hn].
    intros tf Hd. apply not_elem_of_dom. intros Hin. apply Hd in Hin. by apply elem_of_dom in Hin as [? ?]; simplify_eq.
Qed.

(** ** Folding a whole delivery *)

Definition admit_all (t : VTables) (l : list Version) : VTables :=
  foldl (λ t v, (admit_version t v).1) t l.

(** Every version delivered comes from one universe, in which an op-ref names
    one version: two deliveries of one op carry the same bytes. *)
Definition one_universe (l : list Version) : Prop :=
  ∀ v w, v ∈ l → w ∈ l → op_ref (v_at v) = op_ref (v_at w) → v = w.

Lemma no_versions_ok : versions_ok no_versions.
Proof.
  split_and!; [| | |done].
  - intros op v. unfold versions_of, no_versions; simpl. by rewrite fmap_empty, lookup_empty.
  - intros op v. unfold versions_of, no_versions; simpl. by rewrite fmap_empty, lookup_empty.
  - intros op r. unfold no_versions; simpl. by rewrite lookup_empty.
Qed.

(** What a delivery holds, from any table of the same universe. *)
Lemma admit_all_ok t l :
  versions_ok t → one_universe l →
  (∀ op w v, versions_of t !! op = Some w → v ∈ l → op = op_ref (v_at v) → v = w) →
  versions_ok (admit_all t l) ∧
  ∀ op v, versions_of (admit_all t l) !! op = Some v ↔
          versions_of t !! op = Some v ∨ (v ∈ l ∧ op = op_ref (v_at v)).
Proof.
  revert t. induction l as [|v l IH]; intros t Hok Hu Hc; simpl.
  { split; [done|]. intros op v. split; [by left|]. by intros [?|[?%not_elem_of_nil _]]. }
  destruct (admit_ok t v) as (Hok' & Hvs & _); [done| |].
  { intros w Hw. symmetry. by apply (Hc _ w v Hw); [left|]. }
  destruct (IH (admit_version t v).1) as [Hok2 Hl]; [done| | |].
  { intros a b Ha Hb. apply Hu; by right. }
  { intros op w x. rewrite Hvs. intros [[<- <-]|[_ Hw]]%lookup_insert_Some Hx Hop.
    - symmetry. apply Hu; [by left|by right|done].
    - apply (Hc op w x Hw); [by right|done]. }
  split; [done|]. intros op x. rewrite Hl, Hvs, lookup_insert_Some, elem_of_cons. split.
  - intros [[[<- <-]|[_ ?]]|[? ->]]; auto.
  - intros [Hx|[[-> | Hx] ->]]; [|by auto..].
    destruct (decide (op_ref (v_at v) = op)) as [Heq|]; [|by auto].
    left. left. split; [done|]. apply (Hc op x v Hx); [by left|done].
Qed.

Lemma delivered_ok l :
  one_universe l →
  versions_ok (admit_all no_versions l) ∧
  ∀ op v, versions_of (admit_all no_versions l) !! op = Some v ↔ v ∈ l ∧ op = op_ref (v_at v).
Proof.
  intros Hu. destruct (admit_all_ok no_versions l) as [Hok Hl]; [apply no_versions_ok|done| |].
  { intros op w v. unfold versions_of, no_versions; simpl. by rewrite fmap_empty, lookup_empty. }
  split; [done|]. intros op v. rewrite Hl. unfold versions_of at 1, no_versions; simpl.
  rewrite fmap_empty, lookup_empty. split; [by intros [?|?]|by right].
Qed.

(** The versions two devices applied, in whatever orders and however often,
    give them the same stored DAG. *)
Lemma admit_all_converges l1 l2 :
  one_universe l1 → (∀ v, v ∈ l1 ↔ v ∈ l2) →
  admit_all no_versions l1 = admit_all no_versions l2.
Proof.
  intros Hu Hsame. assert (one_universe l2) as Hu2
    by (intros v w ?%Hsame ?%Hsame; by apply Hu).
  destruct (delivered_ok l1 Hu) as [Hok1 H1], (delivered_ok l2 Hu2) as [Hok2 H2].
  apply versions_ok_unique; [done..|]. apply map_eq. intros op. apply option_eq. intros v.
  by rewrite H1, H2, Hsame.
Qed.

(** ** Reading the order back *)

Lemma precedes_before t a b :
  versions_ok t → applied (versions_of t) a → applied (versions_of t) b →
  precedes t (op_ref a) (op_ref b) = true ↔ before (versions_of t) a b.
Proof.
  intros (Hwf & Hex & _) Ha Hb. unfold precedes.
  assert (stamp_of t (op_ref a) = Some a) as -> by by apply stamp_of_applied.
  assert (stamp_of t (op_ref b) = Some b) as -> by by apply stamp_of_applied.
  assert (∃ v, versions_of t !! op_ref b = Some v ∧ v_at v = b) as (v & Hv & Hvb) by done.
  pose proof (Hex _ _ Hv) as Hexb. rewrite Hvb in Hexb.
  case_decide as Heq.
  { split; [done|]. intros Hbef. exfalso. assert (a = b) as ->.
    { destruct Ha as (x & Hx & <-), Hb as (y & Hy & <-). congruence. }
    by apply before_irrefl in Hbef. }
  transitivity (reached_by a (frontier_of t (op_ref b)) = true); [done|].
  rewrite reached_by_covers, (covers_reaches (versions_of t) b) by done.
  rewrite reaches_cases. split; [intros [->|?]; done|by right].
Qed.

Lemma precedes_applied t a b :
  wf_versions (versions_of t) → precedes t a b = true →
  ∃ sa sb, a = op_ref sa ∧ b = op_ref sb ∧ applied (versions_of t) sa ∧ applied (versions_of t) sb.
Proof.
  intros Hwf. unfold precedes. case_decide; [done|].
  destruct (stamp_of t b) as [sb|] eqn:Eb, (stamp_of t a) as [sa|] eqn:Ea; try done.
  intros _. apply stamp_of_applied in Ea as [-> ?], Eb as [-> ?]; [|done..]. eauto 10.
Qed.

Lemma elem_of_heads t op :
  versions_ok t →
  op ∈ heads t ↔ ∃ s, op = op_ref s ∧ applied (versions_of t) s ∧ is_head (versions_of t) s.
Proof.
  intros (Hwf & _ & Hhd & _). unfold heads. rewrite merge_sort_Permutation, list_elem_of_fmap.
  unfold head_stamps. setoid_rewrite list_elem_of_fmap. setoid_rewrite list_elem_of_filter.
  setoid_rewrite elem_of_rows. split.
  - intros (s & -> & r & -> & Hr & [op' Hop]). exists (row_at r). split_and!; [done| |].
    + apply rows_applied; [done|]. exists r. split; [|done]. by apply elem_of_rows; exists op'.
    + by apply (Hhd op' r).
  - intros (s & -> & (v & Hv & <-) & Hs). rewrite lookup_versions_of in Hv.
    apply fmap_Some in Hv as (r & Hr & ->). eexists. split; [done|]. exists r.
    split_and!; [done| |by eexists]. by apply (Hhd _ r Hr).
Qed.

(** Every applied version is a head or happened before one. *)
Lemma below_a_head t s :
  versions_ok t → applied (versions_of t) s →
  ∃ h, applied (versions_of t) h ∧ is_head (versions_of t) h ∧ reaches (versions_of t) h s.
Proof.
  intros Hok Hs. pose proof Hok as (Hwf & Hex & _).
  set (up := filter (λ x, reached_by s (frontier_of t (op_ref x)) = true) (row_at <$> rows t)).
  assert (∀ x, x ∈ up ↔ applied (versions_of t) x ∧ reaches (versions_of t) x s) as Hup.
  { intros x. unfold up. rewrite list_elem_of_filter, list_elem_of_fmap.
    split.
    - intros [Hr (r & -> & Hin)]. assert (applied (versions_of t) (row_at r)) as Ha
        by (apply rows_applied; eauto).
      split; [done|]. apply reached_by_covers in Hr.
      eapply covers_reaches; [exact Ha| |exact Hs|exact Hr]. by apply frontier_of_exact.
    - intros [Ha Hr]. split.
      + apply reached_by_covers. by apply (frontier_of_exact t Hok x Ha).
      + apply rows_applied in Ha as (r & ? & <-); eauto. }
  destruct (greatest up) as [m|] eqn:E.
  - apply greatest_spec in E as [[Hm Hr]%Hup Hmax]. exists m. split_and!; try done.
    intros x Hx. assert (x ∈ up) as Hin.
    { apply Hup. split; [eauto with sunrise|]. by eapply rtc_l. }
    apply edge_lt in Hx. specialize (Hmax x Hin). tord.
  - apply greatest_None in E. exfalso. apply (not_elem_of_nil s). rewrite <-E.
    apply Hup. split; [done|apply rtc_refl].
Qed.

(** ** The fold of a whole delivery, read off the delivery alone *)

(** The versions of a delivery, by op-ref. *)
Definition history (l : list Version) : gmap OpRef Version :=
  list_to_map ((λ v, (op_ref (v_at v), v)) <$> l).

Lemma versions_of_delivered l :
  one_universe l → versions_of (admit_all no_versions l) = history l.
Proof.
  intros Hu. destruct (delivered_ok l Hu) as [_ Hl]. apply map_eq. intros op.
  apply option_eq. intros v. rewrite Hl. unfold history.
  rewrite <-elem_of_list_to_map'.
  - rewrite list_elem_of_fmap. split.
    + intros [Hv ->]. by exists v.
    + by intros (w & [= -> ->] & Hw).
  - intros w Hx Hy. apply list_elem_of_fmap in Hx as (v1 & [= Hr1 <-] & Hv1).
    apply list_elem_of_fmap in Hy as (v2 & [= Hr2 <-] & Hv2).
    apply Hu; [done..|congruence].
Qed.

Lemma applied_history l s :
  one_universe l → applied (history l) s ↔ ∃ v, v ∈ l ∧ v_at v = s.
Proof.
  intros Hu. rewrite <-versions_of_delivered by done. destruct (delivered_ok l Hu) as [_ Hl].
  unfold applied. setoid_rewrite Hl. split.
  - intros (v & [Hv _] & <-). by exists v.
  - intros (v & Hv & <-). by exists v.
Qed.

Lemma one_universe_NoDup l : NoDup ((λ v, op_ref (v_at v)) <$> l) → one_universe l.
Proof.
  induction l as [|x l IH]; simpl; [intros _ v w ?%not_elem_of_nil; done|].
  intros [Hx Hnd]%NoDup_cons v w [->|Hv]%elem_of_cons [->|Hw]%elem_of_cons Heq; [done| | |by apply IH].
  - destruct Hx. rewrite Heq. by apply (list_elem_of_fmap_2 (λ v, op_ref (v_at v))).
  - destruct Hx. rewrite <-Heq. by apply (list_elem_of_fmap_2 (λ v, op_ref (v_at v))).
Qed.

(** A device's stored version DAG (rows, head flags and frontiers) is a
    function of the set of versions it applied: any two deliveries of the same
    versions, in any order, with any duplicates, late arrivals re-folded by
    [recompute] included, leave the same tables. *)
Theorem admit_order_irrelevant l1 l2 :
  one_universe l1 → (∀ v, v ∈ l1 ↔ v ∈ l2) →
  admit_all no_versions l1 = admit_all no_versions l2.
Proof. apply admit_all_converges. Qed.

Definition example_version (ms device seq : Z) (parents : list OpRef) (fields : gset string) : Version :=
  mkVersion (mkStamp (mkHlc ms 0) device seq 1) Patch "user" false (Some parents) None fields.
Definition v_create_ : Version := example_version 100 1 1 [] {["title"%string]}.
Definition v_rename : Version := example_version 200 2 1 [op_ref (v_at v_create_)] {["title"%string]}.
Definition v_estimate : Version := example_version 150 3 1 [op_ref (v_at v_create_)] {["estimate"%string]}.

Lemma example_one_universe : one_universe [v_create_; v_rename; v_estimate].
Proof. apply one_universe_NoDup. apply (bool_decide_unpack _). vm_compute. exact I. Qed.

(** The late arrivals of this delivery take the [recompute] path. *)
Lemma admit_order_irrelevant_witness :
  one_universe [v_create_; v_rename; v_estimate] ∧
  admit_all no_versions [v_create_; v_rename; v_estimate] =
  admit_all no_versions [v_rename; v_estimate; v_rename; v_create_; v_estimate].
Proof.
  split; [apply example_one_universe|].
  apply (admit_order_irrelevant _ _ example_one_universe). intros v.
  rewrite !elem_of_cons. tauto.
Defined.

Example late_arrival_recomputes :
  (admit_version (admit_all no_versions [v_rename; v_estimate]) v_create_).2 = mkAdmission true true.
Proof. vm_compute. reflexivity. Qed.

(** C9: [precedes] reads happened-before off a frontier: after any delivery it
    answers [true] for [a] and [b] exactly when [b]'s writer had [a] below it,
    through any chain of named parents and earlier writes of one device, and
    that relation is a strict partial order inside the stamp order. *)
Theorem precedes_is_happened_before l :
  one_universe l →
  (∀ a b, precedes (admit_all no_versions l) a b = true ↔
     ∃ sa sb, a = op_ref sa ∧ b = op_ref sb ∧ before (history l) sa sb) ∧
  (∀ a, ¬ before (history l) a a) ∧
  (∀ a b c, before (history l) a b → before (history l) b c → before (history l) a c) ∧
  (∀ a b, before (history l) a b → a ≺ b).
Proof.
  intros Hu. rewrite <-versions_of_delivered by done. destruct (delivered_ok l Hu) as [Hok _].
  split_and!; [|apply before_irrefl|apply before_trans|apply before_lt]. intros a b. split.
  - intros Hp. destruct (precedes_applied _ _ _ (proj1 Hok) Hp) as (sa & sb & -> & -> & Ha & Hb).
    exists sa, sb. split_and!; [done..|]. by apply precedes_before.
  - intros (sa & sb & -> & -> & Hb). destruct (before_applied _ _ _ Hb).
    by apply precedes_before.
Qed.

Lemma precedes_is_happened_before_witness :
  one_universe [v_create_; v_rename; v_estimate] ∧
  precedes (admit_all no_versions [v_create_; v_rename; v_estimate])
    (op_ref (v_at v_create_)) (op_ref (v_at v_rename)) = true ∧
  ∃ sa sb, op_ref (v_at v_create_) = op_ref sa ∧ op_ref (v_at v_rename) = op_ref sb ∧
    before (history [v_create_; v_rename; v_estimate]) sa sb.
Proof.
  split; [apply example_one_universe|].
  assert (precedes (admit_all no_versions [v_create_; v_rename; v_estimate])
    (op_ref (v_at v_create_)) (op_ref (v_at v_rename)) = true) as Hp by (vm_compute; reflexivity).
  split; [exact Hp|].
  exact (proj1 (proj1 (precedes_is_happened_before _ example_one_universe) _ _) Hp).
Defined.

(** The heads are exactly the delivered versions nothing delivered was
    written above, every delivered version is a head or happened before one,
    and the heads are what a writer names as its [parents]: each version with
    a head above it is recovered from them. *)
Theorem heads_are_the_maximal_versions l :
  one_universe l →
  (∀ op, op ∈ heads (admit_all no_versions l) ↔
     ∃ v, v ∈ l ∧ op = op_ref (v_at v) ∧
          ∀ w, w ∈ l → ¬ before (history l) (v_at v) (v_at w)) ∧
  (∀ v, v ∈ l → ∃ h, op_ref h ∈ heads (admit_all no_versions l) ∧
     (h = v_at v ∨ before (history l) (v_at v) h)).
Proof.
  intros Hu. destruct (delivered_ok l Hu) as [Hok _].
  pose proof (λ s, applied_history l s Hu) as Happ.
  pose proof (λ op, elem_of_heads _ op Hok) as Hin. rewrite versions_of_delivered in Hin by done.
  split.
  - intros op. rewrite Hin. split.
    + intros (s & -> & (v & Hv & <-)%Happ & Hh). exists v. split_and!; [done..|].
      intros w _ [y He]%before_edge. by apply (Hh y).
    + intros (v & Hv & -> & Hno). exists (v_at v).
      assert (applied (history l) (v_at v)) as Hav by (apply Happ; eauto).
      split_and!; [done..|]. intros x He. pose proof (edge_applied_l _ _ _ He) as (w & Hw & <-)%Happ.
      apply (Hno w Hw). by apply tc_once.
  - intros v Hv. destruct (below_a_head _ (v_at v) Hok) as (h & Ha & Hh & Hr).
    { rewrite versions_of_delivered by done. apply Happ. eauto. }
    rewrite versions_of_delivered in Ha, Hh, Hr by done.
    exists h. split; [apply Hin; eauto|]. apply reaches_cases in Hr as [->|?]; auto.
Qed.

Lemma heads_are_the_maximal_versions_witness :
  one_universe [v_create_; v_rename; v_estimate] ∧
  op_ref (v_at v_rename) ∈ heads (admit_all no_versions [v_create_; v_rename; v_estimate]) ∧
  ∃ v, v ∈ [v_create_; v_rename; v_estimate] ∧ op_ref (v_at v_rename) = op_ref (v_at v) ∧
    ∀ w, w ∈ [v_create_; v_rename; v_estimate] →
      ¬ before (history [v_create_; v_rename; v_estimate]) (v_at v) (v_at w).
Proof.
  split; [apply example_one_universe|].
  assert (op_ref (v_at v_rename) ∈ heads (admit_all no_versions [v_create_; v_rename; v_estimate])) as Hh.
  { apply (bool_decide_unpack _). vm_compute. exact I. }
  split; [exact Hh|].
  exact (proj1 (proj1 (heads_are_the_maximal_versions _ example_one_universe) _) Hh).
Defined.

#[export] Instance head_le_trans : Transitive head_le.
Proof. intros a b c. unfold head_le. apply tle_trans. Qed.
#[export] Instance head_le_total : Total head_le.
Proof. unfold head_le. intros a b. apply tle_total. Qed.

(** The branches "edited while deleted" reports for a delete [d] are exactly
    the heads other than [d] whose writer had not applied [d], written by a
    patch at or above the floor; each is reported with its own stamp and the
    fields it wrote, oldest first. *)
Theorem unmerged_heads_exact l d floor :
  one_universe l → applied (history l) d →
  let t := admit_all no_versions l in
  (∀ h, h ∈ unmerged_heads t d floor ↔
     ∃ v, v ∈ l ∧ h = mkHeadVersion (v_at v) (v_fields v) ∧
          (∀ w, w ∈ l → ¬ before (history l) (v_at v) (v_at w)) ∧
          v_at v ≠ d ∧ ¬ before (history l) d (v_at v) ∧
          v_kind v = Patch ∧ (∀ f, floor = Some f → f ≼ v_at v)) ∧
  StronglySorted head_le (unmerged_heads t d floor).
Proof.
  intros Hu Hd t. split; [|apply StronglySorted_merge_sort; apply _].
  destruct (delivered_ok l Hu) as [Hok Hl]. fold t in Hok, Hl.
  pose proof (heads_are_the_maximal_versions l Hu) as [Hheads _]. fold t in Hheads.
  intros h. unfold unmerged_heads. rewrite merge_sort_Permutation, list_elem_of_omap.
  assert (∀ v, v ∈ l → precedes t (op_ref d) (op_ref (v_at v)) = false ↔
               ¬ before (history l) d (v_at v)) as Hprec.
  { intros v Hv. rewrite <-not_true_iff_false, precedes_before; [|done|..];
      unfold t; rewrite versions_of_delivered by done; [done..|]. apply applied_history; eauto. }
  assert (∀ v, v ∈ l → op_ref (v_at v) = op_ref d ↔ v_at v = d) as Hd'.
  { intros v Hv. split; [|by intros ->]. intros Heq.
    apply applied_history in Hd as (w & Hw & <-); [|done]. by rewrite (Hu v w Hv Hw Heq). }
  assert (∀ v, v ∈ l → ∃ r, entity_versions t !! op_ref (v_at v) = Some r ∧ row_version r = v)
    as Hrow.
  { intros v Hv. assert (versions_of t !! op_ref (v_at v) = Some v) as Hlv by by apply Hl.
    rewrite lookup_versions_of in Hlv. apply fmap_Some in Hlv as (r & ? & ?); eauto. }
  split.
  - intros (op & (v & Hv & -> & Hmax)%Hheads & Hh). exists v.
    destruct (Hrow v Hv) as (r & Hr & <-). unfold unmerged_head in Hh. rewrite Hr in Hh.
    case_decide as Hne; [done|]. destruct (precedes t _ _) eqn:Hp; [done|].
    apply Hprec in Hp; [|done]. case_decide as Hk; [done|].
    rewrite Hd' in Hne by done. unfold row_at in *.
    destruct floor as [f|]; [case_bool_decide as Hf; [done|]|]; injection Hh as <-.
    + split_and!; try done. by intros ? [= <-].
    + by split_and!.
  - intros (v & Hv & -> & Hmax & Hne & Hnb & Hk & Hf). exists (op_ref (v_at v)).
    split; [apply Hheads; eauto|]. destruct (Hrow v Hv) as (r & Hr & <-). unfold unmerged_head.
    rewrite Hr, decide_False by by rewrite Hd'.
    apply Hprec in Hnb; [|done]. rewrite Hnb, decide_False by tauto. unfold row_at.
    destruct floor as [f|]; [|done]. rewrite bool_decide_eq_false_2; [done|]. by apply Hf.
Qed.

Lemma unmerged_heads_exact_witness :
  one_universe [v_create_; v_rename; v_estimate] ∧
  applied (history [v_create_; v_rename; v_estimate]) (v_at v_estimate) ∧
  unmerged_heads (admit_all no_versions [v_create_; v_rename; v_estimate]) (v_at v_estimate) None =
    [mkHeadVersion (v_at v_rename) {["title"%string]}] ∧
  ∃ v, v ∈ [v_create_; v_rename; v_estimate] ∧
    mkHeadVersion (v_at v_rename) {["title"%string]} = mkHeadVersion (v_at v) (v_fields v) ∧
    v_at v ≠ v_at v_estimate.
Proof.
  split; [apply example_one_universe|].
  assert (applied (history [v_create_; v_rename; v_estimate]) (v_at v_estimate)) as Ha.
  { exists v_estimate. split; vm_compute; reflexivity. }
  split; [exact Ha|].
  assert (unmerged_heads (admit_all no_versions [v_create_; v_rename; v_estimate])
    (v_at v_estimate) None = [mkHeadVersion (v_at v_rename) {["title"%string]}]) as Hu
    by (vm_compute; reflexivity).
  split; [exact Hu|].
  destruct (proj1 (proj1 (unmerged_heads_exact _ _ None example_one_universe Ha)
    (mkHeadVersion (v_at v_rename) {["title"%string]}))) as (v & Hv & Heq & _ & Hne & _).
  { rewrite Hu. by left. }
  exists v. auto.
Defined.
