(* ===== verification/Patch.v ===== *)
(** * Reading a patch (engine/merge/patch.rs, engine/groups.rs)

    A [Patch]'s field ops, parsed from CBOR, and the check every one passes
    against the registry before anything is written.  Whether a value fits a
    field's Rust type is serde's, through the domain records' derives: the
    check takes it as the parameter [value_fits]. *)

From Stdlib Require Import ZArith Lia Ascii String.
From stdpp Require Import base tactics decidable countable option list strings gmap.
From S2P Require Import Prelude Bytes Cbor Hlc Registry Stamp.
Open Scope Z_scope.

(** ** Op-refs as CBOR (merge/mod.rs) *)

Definition id_bytes (v : Value) : option Id :=
  b ← as_bytes v;
  if decide (length b = 16%nat) then Some (be_decode b) else None.

Definition from_value (v : Value) : option OpRef :=
  items ← as_array v;
  match items with
  | [stream; device; seq] =>
      s ← id_bytes stream;
      d ← id_bytes device;
      n ← as_integer seq;
      if decide (0 ≤ n ≤ u64_max) then Some (mkOpRef s d n) else None
  | _ => None
  end.

Definition to_value (r : OpRef) : Value :=
  Array [Bytes (be_encode 16 (o_stream r)); Bytes (be_encode 16 (o_device r)); Integer (o_seq r)].

(** ** Field ops *)

Inductive FieldOp :=
  | FSet (v : Value)
  | FEdit (add : list Value) (remove : list (Value * list OpRef))
  | FInc (n : Z)
  | FMap (entries : list (string * Value)).

(** What a refusal carries: the kind to park under, or that it is invalid. *)
Inductive PatchProblem := Park (kind : string) | Invalid.

Definition UNWRITABLE : list string := ["id"; "created_at"; "updated_at"]%string.
Definition PATCH_KIND : string := "Patch".

(** The string order of a [BTreeMap]'s keys: by bytes. *)
Definition string_le (a b : string) : Prop := String.compare a b ≠ Gt.
#[export] Instance string_le_dec : RelDecision string_le.
Proof. intros a b. unfold string_le. apply _. Defined.

(** A CBOR map's entries as a [BTreeMap] from its text keys: refused for a
    key that is not text, and for a repeated one. *)
Fixpoint text_keys (seen : list string) (entries : list (Value * Value)) :
    result PatchProblem (list (string * Value)) :=
  match entries with
  | [] => Ok []
  | (k, v) :: rest =>
      try k <- ok_or (as_text k) Invalid;
      if decide (k ∈ seen) then Err Invalid
      else try rest <- text_keys (k :: seen) rest; Ok ((k, v) :: rest)
  end.

Definition key {A} (name : string) (keys : list (string * A)) : option A :=
  snd <$> List.find (λ kv, bool_decide (kv.1 = name)) keys.

Definition known_op (k : string) : bool :=
  bool_decide (k ∈ ["set"; "add"; "remove"; "inc"; "map"]%string).

Fixpoint traverse {A B} (f : A → result PatchProblem B) (l : list A) : result PatchProblem (list B) :=
  match l with
  | [] => Ok []
  | x :: l' => try y <- f x; try ys <- traverse f l'; Ok (y :: ys)
  end.

Definition parse_add (v : Value) : result PatchProblem (list Value) :=
  try items <- ok_or (as_array v) Invalid;
  match items with [] => Err Invalid | _ => Ok items end.

Definition parse_remove_item (item : Value) : result PatchProblem (Value * list OpRef) :=
  try items <- ok_or (as_array item) Invalid;
  match items with
  | [element; tags] =>
      try tags <- ok_or (as_array tags) Invalid;
      match tags with
      | [] => Err Invalid
      | _ => try refs <- traverse (λ t, ok_or (from_value t) Invalid) tags; Ok (element, refs)
      end
  | _ => Err Invalid
  end.

Definition parse_remove (v : Value) : result PatchProblem (list (Value * list OpRef)) :=
  try items <- ok_or (as_array v) Invalid;
  match items with [] => Err Invalid | _ => traverse parse_remove_item items end.

Definition optional {A} (f : Value → result PatchProblem (list A)) (o : option Value) :
    result PatchProblem (list A) :=
  match o with None => Ok [] | Some v => f v end.

(** [parse_field_op], the recursive call for a map entry's own op being
    [parse]. *)
Definition parse_step (parse : Value → result PatchProblem FieldOp) (raw : Value) :
    result PatchProblem FieldOp :=
  try entries <- ok_or (as_map raw) Invalid;
  try keys <- text_keys [] entries;
  match head (isort string_le (filter (λ k, known_op k = false) keys.*1)) with
  | Some unknown => Err (Park (PATCH_KIND ++ "." ++ unknown))
  | None =>
      let has name := match key name keys with Some _ => true | None => false end in
      let edit := has "add"%string || has "remove"%string in
      let count (b : bool) : nat := if b then 1%nat else 0%nat in
      if decide ((count (has "set"%string) + count edit + count (has "inc"%string) +
                  count (has "map"%string))%nat ≠ 1%nat)
      then Err Invalid
      else match key "set" keys with
      | Some v => Ok (FSet v)
      | None =>
      match key "inc" keys with
      | Some v =>
          match as_integer v with
          | Some n => if decide (i64_min ≤ n ≤ i64_max ∧ n ≠ 0) then Ok (FInc n) else Err Invalid
          | None => Err Invalid
          end
      | None =>
      match key "map" keys with
      | Some v =>
          try entries <- ok_or (as_map v) Invalid;
          try out <- traverse (λ '(k, op),
            try k <- ok_or (as_text k) Invalid;
            try op <- parse op;
            match op with FSet value => Ok (k, value) | _ => Err Invalid end) entries;
          match out with [] => Err Invalid | _ => Ok (FMap out) end
      | None =>
          try add <- optional parse_add (key "add" keys);
          try remove <- optional parse_remove (key "remove" keys);
          Ok (FEdit add remove)
      end end end
  end.

(** How deep a tree nests, which bounds the recursion. *)
Fixpoint depth (v : Value) : nat :=
  match v with
  | Tag _ v => S (depth v)
  | Array l => S (list_max (map depth l))
  | VMap l => S (list_max (map (λ '(k, v), Nat.max (depth k) (depth v)) l))
  | _ => O
  end.

Fixpoint parse_fuel (fuel : nat) (raw : Value) : result PatchProblem FieldOp :=
  match fuel with
  | O => Err Invalid
  | S fuel' => parse_step (parse_fuel fuel') raw
  end.

Definition parse_field_op (raw : Value) : result PatchProblem FieldOp :=
  parse_fuel (S (depth raw)) raw.

(** ** Checking a whole patch *)

Record PatchPayload := mkPatch {
  p_kind : EntityKind.t;
  p_id : Id;
  p_create : bool;
  p_origin : option string;
  p_parents : option (list OpRef);
  p_group : option (Id * Z);
  (** the field map's entries, in key order *)
  p_fields : list (string * Value);
}.

Definition GENERATED_ORIGIN : string := "generated".
Definition is_generated (p : PatchPayload) : bool := bool_decide (p_origin p = Some GENERATED_ORIGIN).

Inductive OpEffect := ECreate | EUpdate | EDelete | EControl.

Definition effect (p : PatchPayload) : OpEffect :=
  if p_create p then ECreate
  else
    let deletes :=
      match key "deleted" (p_fields p) ≫= as_map with
      | Some entries => existsb (λ kv, bool_decide (as_text kv.1 = Some "set"%string) &&
                                       bool_decide (kv.2 = Bool true)) entries
      | None => false
      end in
    if deletes then EDelete else EUpdate.

Fixpoint check_parents (seen : list OpRef) (parents : list OpRef) : result PatchProblem () :=
  match parents with
  | [] => Ok ()
  | r :: rest =>
      if decide (o_seq r = 0 ∨ i64_max < o_seq r) then Err Invalid
      else if decide (r ∈ seen) then Err Invalid
      else check_parents (r :: seen) rest
  end.

Definition check_causal_keys (p : PatchPayload) : result PatchProblem () :=
  try _ <- (match p_parents p with None => Ok () | Some l => check_parents [] l end);
  match p_group p with
  | Some (_, size) => if decide (size < 2) then Err Invalid else Ok ()
  | None => Ok ()
  end.

Section check.
Context (value_fits : EntityKind.t → string → Value → bool).

Definition check_field (e : EntitySpec) (k : EntityKind.t) (name : string) (op : FieldOp) :
    result PatchProblem () :=
  if decide (name ∈ UNWRITABLE) then Err Invalid
  else match registered_field e name with
  | None => Ok ()
  | Some (_, field) =>
      let fits :=
        match f_crdt field, op with
        | Register, FSet v => Some (value_fits k name v)
        | OrSet, FEdit add remove =>
            Some (forallb (λ el, value_fits k name (Array [el])) (add ++ remove.*1))
        | Counter, FInc _ => Some true
        | Map, FMap entries =>
            Some (forallb (λ '(mk, v), is_null v || value_fits k name (VMap [(Text mk, v)])) entries)
        | _, _ => None
        end in
      match fits with Some true => Ok () | _ => Err Invalid end
  end.

Definition check_register_set (k : EntityKind.t) (name : string) (value : Value) :
    result PatchProblem () :=
  check_field (spec k) k name (FSet value).

Fixpoint check_fields (e : EntitySpec) (k : EntityKind.t) (ops : list (string * FieldOp)) :
    result PatchProblem () :=
  match ops with
  | [] => Ok ()
  | (name, op) :: rest => try _ <- check_field e k name op; check_fields e k rest
  end.

Definition check_patch (p : PatchPayload) : result PatchProblem (list (string * FieldOp)) :=
  let e := spec (p_kind p) in
  match e_merge e with
  | Unsynced => Err (Park PATCH_KIND)
  | AppendOnly | Control => Err Invalid
  | Lww =>
      try _ <- check_causal_keys p;
      match p_fields p with
      | [] => Err Invalid
      | fields =>
          try out <- traverse (λ '(name, raw), try op <- parse_field_op raw; Ok (name, op)) fields;
          try _ <- check_fields e (p_kind p) out;
          Ok out
      end
  end.
End check.

(** ** Writing a value at a field's path *)

Definition position (name : string) (entries : list (Value * Value)) : option nat :=
  fst <$> list_find (λ kv, as_text kv.1 = Some name) entries.

Fixpoint set_path (entries : list (Value * Value)) (path : list string) (value : Value) :
    list (Value * Value) :=
  match path with
  | [] => entries
  | [first] =>
      match position first entries with
      | Some i => alter (λ kv, (kv.1, value)) i entries
      | None => entries ++ [(Text first, value)]
      end
  | first :: rest =>
      let '(i, entries1) :=
        match position first entries with
        | Some i => (i, entries)
        | None => (length entries, entries ++ [(Text first, VMap [])])
        end in
      alter (λ kv, match kv.2 with
                   | VMap inner => (kv.1, VMap (set_path inner rest value))
                   | _ => kv
                   end) i entries1
  end.

Definition field_path (k : EntityKind.t) (name : string) : list string :=
  match split_once "." name with
  | Some (parent, child) =>
      match nested_record (spec k) parent with
      | Some _ => [parent; child]
      | None => [name]
      end
  | None => [name]
  end.

Definition set_field (k : EntityKind.t) (entries : list (Value * Value)) (name : string)
    (value : Value) : list (Value * Value) :=
  set_path entries (field_path k name) value.

(** ** Group marks (engine/groups.rs) *)

Definition FULL_STATE_GROUP_KEY : string := "op_group".

Definition entry (name : string) (entries : list (Value * Value)) : option Value :=
  snd <$> List.find (λ kv, bool_decide (as_text kv.1 = Some name)) entries.

(** A full-state op's group mark, when it names [at_]. *)
Definition read_mark (v : Value) (at_ : OpRef) : option (Id * Z) :=
  entries ← as_map v;
  id ← entry "id" entries ≫= as_bytes;
  size ← entry "size" entries ≫= as_integer;
  if decide (0 ≤ size ≤ u64_max) then
    op ← entry "op" entries ≫= from_value;
    if decide (length id = 16%nat ∧ 2 ≤ size ∧ op = at_) then Some (be_decode id, size) else None
  else None.

(** The mark [mark] writes. *)
Definition mark_value (group : Id * Z) (at_ : OpRef) : Value :=
  VMap [(Text "id", Bytes (be_encode 16 group.1)); (Text "op", to_value at_);
        (Text "size", Integer group.2)].

(** ** Lemmas *)

Lemma traverse_Ok {A B} (f : A → result PatchProblem B) l ys :
  traverse f l = Ok ys ↔ Forall2 (λ x y, f x = Ok y) l ys.
Proof.
  revert ys. induction l as [|x l IH]; intros ys; simpl.
  { split; [intros [= <-]; constructor|]. intros Hf. by inversion Hf. }
  rewrite result_bind_Ok. setoid_rewrite result_bind_Ok. split.
  - intros (y & Hy & zs & Hzs%IH & [= <-]). by constructor.
  - intros Hf. inversion Hf; subst. eexists. split; [done|]. eexists. split; [by apply IH|done].
Qed.

Lemma traverse_ext {A B} (f g : A → result PatchProblem B) l :
  (∀ x, x ∈ l → f x = g x) → traverse f l = traverse g l.
Proof.
  induction l as [|x l IH]; intros Hfg; simpl; [done|].
  rewrite Hfg by by left. rewrite IH; [done|]. intros y Hy. apply Hfg. by right.
Qed.

Lemma list_max_elem n l : n ∈ l → (n ≤ list_max l)%nat.
Proof. intros Hn. pose proof (proj1 (list_max_le l (list_max l)) (le_n _)) as Hf.
  rewrite List.Forall_forall in Hf. apply Hf. by apply list_elem_of_In. Qed.

(** An entry of a map nests less deep than the map. *)
Lemma depth_entry k v l : (k, v) ∈ l → (depth v < depth (VMap l))%nat.
Proof.
  intros Hin. simpl. apply Nat.lt_succ_r.
  etrans; [|apply (list_max_elem (Nat.max (depth k) (depth v)))]; [lia|].
  apply list_elem_of_In, in_map_iff. exists (k, v). split; [done|]. by apply list_elem_of_In.
Qed.

Lemma text_keys_Ok seen entries keys :
  text_keys seen entries = Ok keys →
  entries = (λ kv, (Text kv.1, kv.2)) <$> keys ∧ NoDup keys.*1 ∧ ∀ k, k ∈ keys.*1 → k ∉ seen.
Proof.
  revert seen keys. induction entries as [|[k v] rest IH]; intros seen keys; simpl.
  { intros [= <-]. split_and!; [done|constructor|]. by intros k ?%not_elem_of_nil. }
  rewrite result_bind_Ok. intros (s & Hs & Hr). case_decide as Hseen; [done|].
  apply result_bind_Ok in Hr as (ks & Hks & [= <-]).
  destruct (IH (s :: seen) ks Hks) as (-> & Hnd & Hno).
  destruct k; try done. injection Hs as ->. simpl. split_and!; [done| |].
  - constructor; [|done]. intros Hin. apply (Hno s Hin). by left.
  - intros k [->|Hk]%elem_of_cons; [done|]. intros Hin. apply (Hno k Hk). by right.
Qed.

Lemma key_elem {A} name (keys : list (string * A)) v : key name keys = Some v → (name, v) ∈ keys.
Proof.
  unfold key. intros Hf. apply fmap_Some in Hf as ([k x] & Hf & ->).
  apply find_some in Hf as [Hin Hk%bool_decide_eq_true]. simpl in *. subst k.
  by apply list_elem_of_In.
Qed.

Lemma parse_step_ext f g raw :
  (∀ v, (depth v < depth raw)%nat → f v = g v) → parse_step f raw = parse_step g raw.
Proof.
  intros Hfg. unfold parse_step. destruct raw as [| | | | | | | |entries]; try done. simpl as_map.
  cbn [ok_or result_bind].
  destruct (text_keys [] entries) as [keys|] eqn:Ek; [|done]. cbn [result_bind].
  destruct (text_keys_Ok _ _ _ Ek) as (Hent & _ & _).
  destruct (head _); [done|]. case_decide; [done|].
  destruct (key "set" keys); [done|]. destruct (key "inc" keys); [done|].
  destruct (key "map" keys) as [v|] eqn:Emap; [|done].
  destruct v as [| | | | | | | |sub]; try done. simpl as_map. cbn [ok_or result_bind].
  rewrite (traverse_ext _ (λ '(k, op), try k <- ok_or (as_text k) Invalid; try op <- g op;
            match op with FSet value => Ok (k, value) | _ => Err Invalid end)); [done|].
  intros [k op] Hin. rewrite Hfg; [done|].
  apply depth_entry in Hin. etrans; [exact Hin|]. apply (depth_entry (Text "map")).
  rewrite Hent. apply list_elem_of_fmap. exists ("map"%string, VMap sub). split; [done|].
  by apply key_elem.
Qed.

Lemma parse_fuel_enough n m raw :
  (depth raw < n)%nat → (depth raw < m)%nat → parse_fuel n raw = parse_fuel m raw.
Proof.
  revert m raw. induction n as [|n IH]; intros m raw Hn Hm; [lia|].
  destruct m as [|m]; [lia|]. simpl. apply parse_step_ext. intros v Hv. apply IH; lia.
Qed.

(** [parse_field_op] terminates: the fuel its definition spends, one more
    than the tree's depth, is enough for every recursive call a map entry
    makes, so it satisfies the recursive equation of the source on every
    input. *)
Theorem parse_field_op_terminates raw :
  parse_field_op raw = parse_step parse_field_op raw ∧
  ∀ fuel, (depth raw < fuel)%nat → parse_fuel fuel raw = parse_field_op raw.
Proof.
  split.
  - unfold parse_field_op at 1. simpl. apply parse_step_ext. intros v Hv.
    apply parse_fuel_enough; lia.
  - intros fuel Hf. apply parse_fuel_enough; lia.
Qed.

Definition nested_map_op : Value :=
  VMap [(Text "map", VMap [(Text "evening", VMap [(Text "set", Integer 3)])])].

Lemma parse_field_op_terminates_witness :
  (depth nested_map_op < 9)%nat ∧
  parse_fuel 9 nested_map_op = parse_field_op nested_map_op ∧
  parse_field_op nested_map_op = Ok (FMap [("evening"%string, Integer 3)]).
Proof.
  assert (depth nested_map_op < 9)%nat as Hd by (vm_compute; lia).
  split; [exact Hd|]. split; [exact (proj2 (parse_field_op_terminates nested_map_op) 9%nat Hd)|].
  vm_compute. reflexivity.
Defined.

(** ** Op-refs and marks *)

Definition opref_ok (r : OpRef) : Prop :=
  in_u128 (o_stream r) ∧ in_u128 (o_device r) ∧ in_u64 (o_seq r).

Lemma id_bytes_encode x : in_u128 x → id_bytes (Bytes (be_encode 16 x)) = Some x.
Proof.
  intros Hx. unfold id_bytes; cbn [as_bytes mbind option_bind].
  rewrite decide_True by apply length_be_encode. rewrite be_decode_encode; [done|].
  change (256 ^ Z.of_nat 16) with (u128_max + 1). unfold in_u128 in Hx. lia.
Qed.

Lemma from_value_array s d n a b :
  id_bytes s = Some a → id_bytes d = Some b → in_u64 n →
  from_value (Array [s; d; Integer n]) = Some (mkOpRef a b n).
Proof.
  intros Hs Hd Hn. unfold from_value. cbn [as_array mbind option_bind].
  rewrite Hs, Hd. cbn [mbind option_bind as_integer]. by rewrite decide_True.
Qed.

Lemma from_to_value r : opref_ok r → from_value (to_value r) = Some r.
Proof.
  intros (Hs & Hd & Hq). destruct r as [s d q].
  apply from_value_array; [by apply id_bytes_encode..|done].
Qed.

Lemma be_decode_u128 x : in_u128 x → be_decode (be_encode 16 x) = x.
Proof.
  intros Hx. rewrite be_decode_encode; [done|].
  change (256 ^ Z.of_nat 16) with (u128_max + 1). unfold in_u128 in Hx. lia.
Qed.

Lemma read_mark_entries b o n group at_ at' :
  in_u64 n → 2 ≤ n → from_value o = Some at_ → length b = 16%nat → be_decode b = group →
  read_mark (VMap [(Text "id", Bytes b); (Text "op", o); (Text "size", Integer n)]) at' =
  if decide (at_ = at') then Some (group, n) else None.
Proof.
  intros Hn H2 Ho Hb Hg. unfold read_mark. cbn [as_map mbind option_bind].
  change (entry "id" _) with (Some (Bytes b)). change (entry "size" _) with (Some (Integer n)).
  change (entry "op" _) with (Some o).
  cbn [mbind option_bind as_bytes as_integer]. rewrite decide_True by done. rewrite Ho.
  cbn [mbind option_bind]. case_decide as Hc.
  - destruct Hc as (_ & _ & ->). rewrite decide_True by done. by rewrite Hg.
  - rewrite decide_False; [done|]. intros ->. apply Hc. by split_and!.
Qed.

(** A group's mark binds an op to its own group and to nothing else: read
    back at the op it was written for it gives the group's id and size, and a
    copy of it carried by another op (an older build keeps it as an unknown
    field and re-emits it) is no mark at all; and the op-ref inside it, like
    every OR-set tag and named parent, reads back as the op it names. *)
Theorem group_mark_names_its_own_op group at_ at' :
  in_u128 group.1 → in_u64 group.2 → 2 ≤ group.2 → opref_ok at_ →
  from_value (to_value at_) = Some at_ ∧
  read_mark (mark_value group at_) at' =
    if decide (at_ = at') then Some (group.1, group.2) else None.
Proof.
  intros Hid Hsz H2 Hat. split; [by apply from_to_value|].
  apply read_mark_entries; [done|done|by apply from_to_value|apply length_be_encode|].
  by apply be_decode_u128.
Qed.

Lemma group_mark_names_its_own_op_witness :
  opref_ok (mkOpRef 1 7 3) ∧
  read_mark (mark_value (99, 2) (mkOpRef 1 7 3)) (mkOpRef 1 7 3) = Some (99, 2) ∧
  read_mark (mark_value (99, 2) (mkOpRef 1 7 3)) (mkOpRef 1 7 4) = None.
Proof.
  assert (opref_ok (mkOpRef 1 7 3)) as Ho by (unfold opref_ok; widths; simpl; lia).
  split; [exact Ho|].
  assert (∀ at', read_mark (mark_value (99, 2) (mkOpRef 1 7 3)) at' =
    if decide (mkOpRef 1 7 3 = at') then Some (99, 2) else None) as Hm.
  { intros at'. apply (group_mark_names_its_own_op (99, 2) (mkOpRef 1 7 3) at');
      [widths; simpl; lia|widths; simpl; lia|simpl; lia|exact Ho]. }
  split; [rewrite Hm; reflexivity|rewrite Hm; reflexivity].
Defined.

(** ** What a checked patch is *)

Lemma check_parents_Ok seen l :
  check_parents seen l = Ok () ↔
  Forall (λ r, o_seq r ≠ 0 ∧ o_seq r ≤ i64_max) l ∧ NoDup l ∧ ∀ r, r ∈ l → r ∉ seen.
Proof.
  revert seen. induction l as [|r l IH]; intros seen; simpl.
  { split; [|done]. intros _. split_and!; [constructor|constructor|]. by intros r ?%not_elem_of_nil. }
  rewrite Forall_cons_iff, NoDup_cons. case_decide as Hq; [split; [done|intros ([] & _); lia]|].
  case_decide as Hs; [split; [done|]; intros (_ & _ & Hno); by destruct (Hno r); [left|]|].
  rewrite IH. split.
  - intros (HF & Hnd & Hno). split_and!; [lia|lia|done| |done|].
    + intros Hin. apply (Hno r Hin). by left.
    + intros x [->|Hx]%elem_of_cons; [done|]. intros ?. apply (Hno x Hx). by right.
  - intros ([? HF] & [Hr Hnd] & Hno). split_and!; [done|done|].
    intros x Hx [->|?]%elem_of_cons; [done|]. apply (Hno x); [by right|done].
Qed.

(** The fields a patch may write, and how: not identity or a derived
    timestamp, and a registered field only by its own CRDT's op with values
    that fit. *)
Definition op_fits (value_fits : EntityKind.t → string → Value → bool) (k : EntityKind.t)
    (name : string) (crdt : Crdt) (op : FieldOp) : Prop :=
  match crdt, op with
  | Register, FSet v => value_fits k name v = true
  | OrSet, FEdit add remove =>
      Forall (λ el, value_fits k name (Array [el]) = true) (add ++ remove.*1)
  | Counter, FInc _ => True
  | Map, FMap entries =>
      Forall (λ kv, kv.2 = Null ∨ value_fits k name (VMap [(Text kv.1, kv.2)]) = true) entries
  | _, _ => False
  end.

Definition writable (value_fits : EntityKind.t → string → Value → bool) (k : EntityKind.t)
    (name : string) (op : FieldOp) : Prop :=
  (name ∉ UNWRITABLE) ∧
  (∀ r f, registered_field (spec k) name = Some (r, f) → op_fits value_fits k name (f_crdt f) op).

Lemma forallb_Forall {A} (f : A → bool) l : forallb f l = true ↔ Forall (λ x, f x = true) l.
Proof. by rewrite forallb_forall, List.Forall_forall. Qed.

Lemma is_null_true v : is_null v = true ↔ v = Null.
Proof. destruct v; simpl; split; congruence. Qed.

Lemma fits_bool (b : bool) :
  match Some b with Some true => Ok () | _ => Err Invalid end = (Ok () : result PatchProblem ()) ↔
  b = true.
Proof. by destruct b. Qed.

Lemma check_field_Ok fits k name op :
  check_field fits (spec k) k name op = Ok () ↔ writable fits k name op.
Proof.
  unfold check_field, writable. case_decide as Hu.
  { split; [done|]. by intros []. }
  destruct (registered_field (spec k) name) as [[r f]|].
  2:{ split; [|done]. by intros _. }
  transitivity (op_fits fits k name (f_crdt f) op).
  2:{ split; [intros ?; split; [done|]; by intros ?? [= _ <-]|]. intros [_ Hf]. by eapply Hf. }
  destruct (f_crdt f), op; simpl; try done; rewrite fits_bool; [done| |].
  - rewrite forallb_Forall. apply Forall_iff. intros [mk v]. by rewrite orb_true_iff, is_null_true.
  - by rewrite forallb_Forall.
Qed.

Lemma check_fields_Ok fits k ops :
  check_fields fits (spec k) k ops = Ok () ↔ Forall (λ no, writable fits k no.1 no.2) ops.
Proof.
  induction ops as [|[name op] ops IH]; simpl; [by split|].
  rewrite result_bind_Ok, Forall_cons_iff, <-IH, <-check_field_Ok. simpl. split.
  - intros ([] & ? & ?). done.
  - intros [? ?]. by exists ().
Qed.

Lemma check_causal_keys_Ok p :
  check_causal_keys p = Ok () ↔
  (∀ l, p_parents p = Some l → Forall (λ r, o_seq r ≠ 0 ∧ o_seq r ≤ i64_max) l ∧ NoDup l) ∧
  (∀ g n, p_group p = Some (g, n) → 2 ≤ n).
Proof.
  unfold check_causal_keys. rewrite result_bind_Ok.
  transitivity ((∀ l, p_parents p = Some l → check_parents [] l = Ok ()) ∧
                (∀ g n, p_group p = Some (g, n) → 2 ≤ n)).
  - destruct (p_parents p) as [l|], (p_group p) as [[g n]|]; split.
    + intros ([] & ? & Hg). case_decide; [done|]. split; [by intros ? [= <-]|].
      intros ? ? [= <- <-]. lia.
    + intros [Hl Hg]. exists (). split; [by apply Hl|]. case_decide; [|done].
      specialize (Hg g n eq_refl). lia.
    + intros ([] & ? & _). split; [by intros ? [= <-]|done].
    + intros [Hl _]. exists (). split; [by apply Hl|done].
    + intros (_ & _ & Hg). case_decide; [done|]. split; [done|]. intros ? ? [= <- <-]. lia.
    + intros [_ Hg]. exists (). split; [done|]. case_decide; [|done].
      specialize (Hg g n eq_refl). lia.
    + intros _. done.
    + intros _. by exists ().
  - apply and_iff_compat_r. split; intros Hl l Hp; specialize (Hl l Hp).
    + apply check_parents_Ok in Hl as (? & ? & _). done.
    + apply check_parents_Ok. split_and!; try tauto. intros r _. apply not_elem_of_nil.
Qed.

(** A patch is accepted whole or not at all, and the acceptance is a pure
    function of the op: [check_patch] returns field ops exactly when the
    entity merges by fields, every named parent is a distinct op-ref an op can
    have, a named group has at least two members, at least one field is
    written, every field's op parses, and each one is writable: not identity
    or a derived timestamp, and a registered field only through its own CRDT's
    op with values its type holds; the ops it returns are one per field, in
    the fields' order. *)
Theorem check_patch_exact value_fits p ops :
  check_patch value_fits p = Ok ops ↔
  e_merge (spec (p_kind p)) = Lww ∧
  (∀ l, p_parents p = Some l → Forall (λ r, o_seq r ≠ 0 ∧ o_seq r ≤ i64_max) l ∧ NoDup l) ∧
  (∀ g n, p_group p = Some (g, n) → 2 ≤ n) ∧
  p_fields p ≠ [] ∧
  Forall2 (λ raw no, no.1 = raw.1 ∧ parse_field_op raw.2 = Ok no.2) (p_fields p) ops ∧
  Forall (λ no, writable value_fits (p_kind p) no.1 no.2) ops.
Proof.
  unfold check_patch. destruct (e_merge (spec (p_kind p))); try (split; [done|by intros [? _]]).
  rewrite result_bind_Ok.
  transitivity (check_causal_keys p = Ok () ∧ p_fields p ≠ [] ∧
    traverse (λ '(name, raw), try op <- parse_field_op raw; Ok (name, op)) (p_fields p) = Ok ops ∧
    check_fields value_fits (spec (p_kind p)) (p_kind p) ops = Ok ()).
  - split.
    + intros ([] & Hc & Hf). destruct (p_fields p) as [|f fs]; [done|].
      apply result_bind_Ok in Hf as (out & Hout & Hf).
      apply result_bind_Ok in Hf as ([] & Hck & [= <-]). done.
    + intros (Hc & Hne & Hout & Hck). exists (). split; [done|].
      destruct (p_fields p) as [|f fs]; [done|]. rewrite Hout. cbn [result_bind]. by rewrite Hck.
  - rewrite check_causal_keys_Ok, traverse_Ok, check_fields_Ok.
    assert (∀ fs, Forall2 (λ x y, (let '(name, raw) := x in try op <- parse_field_op raw; Ok (name, op))
                = Ok y) fs ops ↔
      Forall2 (λ raw no, no.1 = raw.1 ∧ parse_field_op raw.2 = Ok no.2) fs ops) as ->; [|tauto].
    intros fs. split; intros Hf; (eapply Forall2_impl; [exact Hf|]); intros [n raw] [n' op]; simpl.
    + rewrite result_bind_Ok. by intros (? & ? & [= -> ->]).
    + intros [-> Hp]. by rewrite Hp.
Qed.
