(* ===== verification/Registers.v ===== *)
(** * The register fold (engine/merge/register.rs)

    What a register holds is its antichain: the writes at or above the legacy
    floor that no other such write descends from.  [merge_registers] stores
    the member of greatest rank and [register_losers] the others.  The
    definitions are the incremental fold the code runs; the specification is
    [maxset], the maximal elements of the set of all candidate writes. *)

From Stdlib Require Import ZArith Lia.
From stdpp Require Import base tactics decidable countable option list strings gmap.
From S2P Require Import Prelude Bytes Cbor Hlc Registry Stamp Versions.
Open Scope Z_scope.

Definition USER : string := "user".
Definition GENERATED : string := "generated".

Record Member := mkMember { m_at : Stamp; m_value : option bytes; m_origin : string }.
#[export] Instance Member_eq_dec : EqDecision Member. Proof. solve_decision. Defined.

(** A row of [register_losers], less its key. *)
Record Loser := mkLoser { lo_member : Member; lo_legacy : bool }.

(** One entity's rows of the two tables. *)
Record RegTables := mkRegTables {
  merge_registers : gmap string Member;
  register_losers : gmap (string * OpRef) Loser;
}.
Definition no_registers : RegTables := mkRegTables ∅ ∅.

Record Held := mkHeld { hd_winner : option Member; hd_losers : list Member }.
Definition no_held : Held := mkHeld None [].

Record Registers := mkRegisters {
  rg_floor : option Stamp;
  rg_held : gmap string Held;
  rg_fields : gmap string (list Member);
  rg_dirty : gset string;
}.

(** ** Rank and winner *)

Section fold.
Context `{Ciborium} (e : EntitySpec).

Definition decoded (m : Member) : option Value := dec <$> m_value m.

(** Origin, then the class rule, then the stamp. *)
Definition rank (class : Conflict) (m : Member) : bool * (bool * Stamp) :=
  let user := negb (bool_decide (m_origin m = GENERATED)) in
  let key :=
    match class with
    | State => match decoded m with
               | Some (Text s) => bool_decide (s ∈ TERMINAL_STATES)
               | _ => false
               end
    | Tombstone => bool_decide (decoded m = Some (Bool true))
    | Merge_ | Quiet | Tracked => false
    end in
  (user, (key, m_at m)).

(** [Iterator::max_by_key]: the last of the greatest. *)
Definition winner (class : Conflict) (members : list Member) : option Member :=
  foldl (λ acc m, match acc with
                  | None => Some m
                  | Some w => if decide (rank class m ≺ rank class w) then Some w else Some m
                  end) None members.

(** ** Reading the order off the stored frontiers *)

(** [Frontiers::of]: a version with no frontier entry for its own device
    reaches itself.  (The source's cache of frontiers read is dropped: nothing
    writes the frontier table while a [Registers] lives, and [refilter], which
    clears it, follows the only write.) *)
Definition frontier_self (t : VTables) (v : Stamp) : Frontier :=
  let f := frontier_of t (op_ref v) in
  match f !! s_device v with Some _ => f | None => <[s_device v := v]> f end.

Definition precedes_at (t : VTables) (a b : Stamp) : bool :=
  if decide (a = b) then false
  else match frontier_self t b !! s_device a with
       | Some r => bool_decide (a ≼ r)
       | None => false
       end.

(** ** The fold *)

Definition add_held_loser (held : gmap string Held) (row : (string * OpRef) * Loser) :
    gmap string Held :=
  let f := row.1.1 in
  let h := default no_held (held !! f) in
  <[f := mkHeld (hd_winner h) (hd_losers h ++ [lo_member row.2])]> held.

Definition load (db : RegTables) (floor : option Stamp) : Registers :=
  let held0 := (λ m, mkHeld (Some m) []) <$> merge_registers db in
  let held := foldl add_held_loser held0 (map_to_list (register_losers db)) in
  mkRegisters floor held
    ((λ h, option_list (hd_winner h) ++ hd_losers h) <$> held) ∅.

Definition below_floor (floor : option Stamp) (at_ : Stamp) : bool :=
  match floor with Some l => bool_decide (at_ ≺ l) | None => false end.

Definition members_of (r : Registers) (field : string) : list Member :=
  default [] (rg_fields r !! field).

Definition offer (t : VTables) (r : Registers) (field : string) (value : option Value)
    (at_ : Stamp) (origin : string) : option Registers :=
  if below_floor (rg_floor r) at_ then Some r
  else
    let members := members_of r field in
    let r' := mkRegisters (rg_floor r) (rg_held r) (<[field := members]> (rg_fields r)) (rg_dirty r) in
    if existsb (λ m, bool_decide (m_at m = at_)) members then Some r'
    else if existsb (λ m, precedes_at t at_ (m_at m)) members then Some r'
    else
      let kept := filter (λ m, precedes_at t (m_at m) at_ = false) members in
      v ← match value with None => Some None | Some v => Some <$> enc v end;
      Some (mkRegisters (rg_floor r) (rg_held r)
              (<[field := kept ++ [mkMember at_ v origin]]> (rg_fields r))
              ({[field]} ∪ rg_dirty r)).

(** The fields a pass over every register changed the length of. *)
Definition shrunk (old new : gmap string (list Member)) : gset string :=
  filter (λ f, length (default [] (new !! f)) ≠ length (default [] (old !! f))) (dom old).

Definition raise_floor (r : Registers) (floor : Stamp) : Registers :=
  let fields := filter (λ m, ¬ m_at m ≺ floor) <$> rg_fields r in
  mkRegisters (Some (match rg_floor r with None => floor | Some l => cmax l floor end))
    (rg_held r) fields (shrunk (rg_fields r) fields ∪ rg_dirty r).

Definition undominated (t : VTables) (all : list Member) : list Member :=
  filter (λ m, existsb (λ n, precedes_at t (m_at m) (m_at n)) all = false) all.

Definition refilter (t : VTables) (r : Registers) : Registers :=
  let fields := undominated t <$> rg_fields r in
  mkRegisters (rg_floor r) (rg_held r) fields (shrunk (rg_fields r) fields ∪ rg_dirty r).

(** ** Writing back *)

Definition write_winner (db : RegTables) (field : string) (w : Member) : RegTables :=
  mkRegTables (<[field := w]> (merge_registers db)) (register_losers db).

Definition write_loser (floor : option Stamp) (db : RegTables) (field : string) (m : Member) :
    RegTables :=
  mkRegTables (merge_registers db)
    (<[(field, op_ref (m_at m)) := mkLoser m (bool_decide (floor = Some (m_at m)))]>
       (register_losers db)).

Definition delete_loser (db : RegTables) (field : string) (m : Member) : RegTables :=
  mkRegTables (merge_registers db) (delete (field, op_ref (m_at m)) (register_losers db)).

Definition flush_field (r : Registers) (db : RegTables) (field : string) : RegTables :=
  let members := members_of r field in
  let held := default no_held (rg_held r !! field) in
  let won := winner (class_of e field) members in
  let db1 :=
    match won with
    | Some w => if decide (hd_winner held ≠ Some w) then write_winner db field w else db
    | None => match hd_winner held with
              | Some _ => mkRegTables (delete field (merge_registers db)) (register_losers db)
              | None => db
              end
    end in
  let losers := filter (λ m, Some m ≠ won) members in
  let db2 := foldl (λ db gone, delete_loser db field gone) db1
               (filter (λ h, h ∉ losers) (hd_losers held)) in
  foldl (λ db new, write_loser (rg_floor r) db field new) db2
    (filter (λ m, m ∉ hd_losers held) losers).

Definition flush (r : Registers) (db : RegTables) : RegTables :=
  foldl (flush_field r) db (elements (rg_dirty r)).
End fold.

(** ** The specification: maximal elements *)

Section maxset.
Context {A : Type} (p : A → A → bool).

(** [l] holds exactly the elements of [C] nothing in [C] descends from. *)
Definition maxset (C l : list A) : Prop :=
  ∀ m, m ∈ l ↔ m ∈ C ∧ ∀ n, n ∈ C → p m n = false.

Definition strict_on (C : list A) : Prop :=
  (∀ x, x ∈ C → p x x = false) ∧
  (∀ x y z, x ∈ C → y ∈ C → z ∈ C → p x y = true → p y z = true → p x z = true).

Lemma strict_on_cons x C : strict_on (x :: C) → strict_on C.
Proof.
  intros [Hi Ht]. split.
  - intros y Hy. apply Hi. by right.
  - intros a b c Ha Hb Hc. by apply Ht; right.
Qed.

Lemma strict_on_ext C C' : (∀ x, x ∈ C' → x ∈ C) → strict_on C → strict_on C'.
Proof. intros Hsub [Hi Ht]. split; [auto|]. intros x y z Hx Hy Hz. apply Ht; auto. Qed.

Lemma maxset_ext C C' l l' :
  (∀ x, x ∈ C ↔ x ∈ C') → (∀ x, x ∈ l ↔ x ∈ l') → maxset C l → maxset C' l'.
Proof.
  intros HC Hl Hm m. rewrite <-Hl, (Hm m), HC. apply and_iff_compat_l.
  split; intros Hn n Hin; by apply Hn, HC.
Qed.

Lemma maxset_unique C l l' : maxset C l → maxset C l' → ∀ x, x ∈ l ↔ x ∈ l'.
Proof. intros H1 H2 x. by rewrite (H1 x), (H2 x). Qed.

(** In a finite set every element is maximal or below one that is. *)
Lemma maximal_above C x :
  strict_on C → x ∈ C → ∃ m, m ∈ C ∧ (m = x ∨ p x m = true) ∧ ∀ n, n ∈ C → p m n = false.
Proof.
  revert x. induction C as [|y C IH]; intros x Hs Hx; [by apply not_elem_of_nil in Hx|].
  pose proof Hs as [Hi Ht]. pose proof (strict_on_cons _ _ Hs) as Hs'.
  assert (∀ x, x ∈ C → ∃ m, m ∈ y :: C ∧ (m = x ∨ p x m = true) ∧
            ∀ n, n ∈ y :: C → p m n = false) as HC.
  { clear x Hx. intros x Hx. destruct (IH x Hs' Hx) as (m & Hm & Hxm & Hmax).
    destruct (p m y) eqn:Emy.
    - exists y. split; [by left|]. split.
      + right. destruct Hxm as [<-|Hxm]; [done|]. by apply (Ht x m y); try (by right); [left|..].
      + intros n [-> | Hn]%elem_of_cons; [apply Hi; by left|].
        apply not_true_iff_false. intros Hyn.
        assert (p m n = true) by (apply (Ht m y n); try (by right); [by left|done|done]).
        by rewrite Hmax in *.
    - exists m. split; [by right|]. split; [done|].
      intros n [-> | Hn]%elem_of_cons; auto. }
  apply elem_of_cons in Hx as [-> | Hx]; [|by apply HC].
  destruct (existsb (p y) C) eqn:Ey.
  - apply existsb_exists in Ey as (z & Hz%list_elem_of_In & Hyz).
    destruct (HC z Hz) as (m & Hm & Hzm & Hmax). exists m. split; [done|]. split; [|done].
    right. destruct Hzm as [->|Hzm]; [done|]. apply (Ht y z m); [by left|by right|done..].
  - exists y. split; [by left|]. split; [by left|].
    intros n [-> | Hn]%elem_of_cons; [apply Hi; by left|].
    apply not_true_iff_false. intros Hyn.
    assert (existsb (p y) C = true); [|congruence].
    apply existsb_exists. exists n. by rewrite <-list_elem_of_In.
Qed.

(** Adding one candidate: it is left out when a maximal element is above it,
    and otherwise joins and evicts those below it. *)
Lemma maxset_dominated C l w m :
  strict_on (w :: C) → maxset C l → m ∈ l → p w m = true → maxset (w :: C) l.
Proof.
  intros [Hi Ht] Hmax Hm Hwm x. apply Hmax in Hm as [HmC Hm]. rewrite (Hmax x). split.
  - intros [Hx Hxn]. split; [by right|].
    intros n [-> | Hn]%elem_of_cons; [|by apply Hxn].
    apply not_true_iff_false. intros Hxw.
    assert (p x m = true) by (apply (Ht x w m); try (by right); [by left|done|done]).
    by rewrite Hxn in *.
  - intros [[-> | Hx]%elem_of_cons Hxn].
    + by rewrite Hxn in Hwm by by right.
    + split; [done|]. intros n Hn. apply Hxn. by right.
Qed.

Lemma maxset_join C l w :
  strict_on (w :: C) → maxset C l → (∀ m, m ∈ l → p w m = false) →
  maxset (w :: C) (filter (λ m, p m w = false) l ++ [w]).
Proof.
  intros Hs Hmax Hw x. pose proof Hs as [Hi Ht].
  rewrite elem_of_app, list_elem_of_filter, list_elem_of_singleton, (Hmax x). split.
  - intros [[Hxw [Hx Hxn]]| ->].
    + split; [by right|]. intros n [-> | Hn]%elem_of_cons; auto.
    + split; [by left|]. intros n [-> | Hn]%elem_of_cons; [apply Hi; by left|].
      apply not_true_iff_false. intros Hwn.
      destruct (maximal_above C n (strict_on_cons _ _ Hs) Hn) as (m & Hm & Hnm & Hmm).
      assert (p w m = true) as Hwm.
      { destruct Hnm as [->|Hnm]; [done|]. apply (Ht w n m); [by left|by right|by right|done..]. }
      rewrite Hw in Hwm; [done|]. by apply Hmax.
  - intros [[-> | Hx]%elem_of_cons Hxn]; [by right|]. left. split; [apply Hxn; by left|].
    split; [done|]. intros n Hn. apply Hxn. by right.
Qed.

(** Dropping what an up-closed filter drops keeps the maximal elements. *)
Lemma maxset_filter (P : A → Prop) `{∀ x, Decision (P x)} C l :
  (∀ x y, x ∈ C → y ∈ C → p x y = true → P x → P y) →
  maxset C l → maxset (filter P C) (filter P l).
Proof.
  intros Hup Hmax x. rewrite !list_elem_of_filter, (Hmax x). split.
  - intros [HP [Hx Hn]]. split; [done|]. intros n [_ Hn']%list_elem_of_filter. auto.
  - intros [[HP Hx] Hn]. split_and!; [done..|]. intros n HnC.
    apply not_true_iff_false. intros Hxn.
    assert (P n) by by apply (Hup x n).
    rewrite Hn in Hxn; [done|]. by apply list_elem_of_filter.
Qed.
End maxset.

(** When the order gains pairs, the maximal elements of the old maximal set
    are the maximal elements of the whole. *)
Lemma maxset_refine {A} (p q : A → A → bool) C l :
  (∀ x y, x ∈ C → y ∈ C → p x y = true → q x y = true) → strict_on p C → strict_on q C →
  maxset p C l →
  maxset q C (filter (λ m, existsb (λ n, q m n) l = false) l).
Proof.
  intros Hpq Hp [Hi Ht] Hmax x. rewrite list_elem_of_filter, (Hmax x). split.
  - intros [Hex [Hx _]]. split; [done|]. intros n Hn. apply not_true_iff_false. intros Hxn.
    destruct (maximal_above p C n Hp Hn) as (m & Hm & Hnm & Hmm).
    assert (q x m = true) as Hxm.
    { destruct Hnm as [->|Hnm]; [done|]. apply (Ht x n m); auto. }
    apply not_true_iff_false in Hex. apply Hex. apply existsb_exists. exists m.
    rewrite <-list_elem_of_In. split; [|done]. by apply Hmax.
  - intros [Hx Hn]. split.
    + apply not_true_iff_false. rewrite existsb_exists. intros (n & Hnl%list_elem_of_In & Hxn).
      apply Hmax in Hnl as [HnC _]. by rewrite Hn in Hxn.
    + split; [done|]. intros n HnC. apply not_true_iff_false. intros Hxn.
      apply Hpq in Hxn; [|done..]. by rewrite Hn in Hxn.
Qed.

(** ** Reading the order *)

Definition prec (t : VTables) (m n : Member) : bool := precedes_at t (m_at m) (m_at n).

Lemma precedes_at_before t a b :
  versions_ok t → applied (versions_of t) a → applied (versions_of t) b →
  precedes_at t a b = true ↔ before (versions_of t) a b.
Proof.
  intros Hok Ha Hb. unfold precedes_at. case_decide as Heq.
  { split; [done|]. subst. by intros ?%before_irrefl. }
  pose proof (frontier_of_exact t Hok b Hb) as Hex.
  assert (frontier_self t b = frontier_of t (op_ref b)) as ->.
  { unfold frontier_self. destruct Hex as [_ Hc].
    destruct (Hc b (rtc_refl _ _)) as (m & -> & _). done. }
  transitivity (reached_by a (frontier_of t (op_ref b)) = true); [done|].
  rewrite reached_by_covers, (covers_reaches (versions_of t) b) by done.
  rewrite reaches_cases. split; [intros [->|?]; done|by right].
Qed.

(** The candidates of a register: applied versions' writes, one per version. *)
Definition cands_ok (t : VTables) (C : list Member) : Prop :=
  (∀ m, m ∈ C → applied (versions_of t) (m_at m)) ∧
  (∀ m n, m ∈ C → n ∈ C → m_at m = m_at n → m = n).

Lemma prec_strict t C : versions_ok t → cands_ok t C → strict_on (prec t) C.
Proof.
  intros Hok [Ha _]. split.
  - intros x Hx. apply not_true_iff_false. unfold prec.
    rewrite precedes_at_before by auto. apply before_irrefl.
  - intros x y z Hx Hy Hz. unfold prec. rewrite !precedes_at_before by auto. apply before_trans.
Qed.

Lemma prec_lt t C x y :
  versions_ok t → cands_ok t C → x ∈ C → y ∈ C → prec t x y = true → m_at x ≺ m_at y.
Proof.
  intros Hok [Ha _] Hx Hy. unfold prec. rewrite precedes_at_before by auto. apply before_lt.
Qed.

(** ** The winner is a function of the set *)

Section facts.
Context `{Ciborium} (e : EntitySpec).

Definition one_per_stamp (l : list Member) : Prop :=
  ∀ m n, m ∈ l → n ∈ l → m_at m = m_at n → m = n.

Lemma rank_at class m n : rank class m = rank class n → m_at m = m_at n.
Proof. by intros [= _ _ ?]. Qed.

Lemma winner_Some class l w :
  one_per_stamp l → winner class l = Some w ↔ w ∈ l ∧ ∀ m, m ∈ l → rank class m ≼ rank class w.
Proof.
  revert w. induction l as [|x l IH] using rev_ind; intros w Hone.
  { split; [done|]. by intros [?%not_elem_of_nil _]. }
  assert (one_per_stamp l) as Hl
    by (intros a b Ha Hb; apply Hone; apply elem_of_app; by left).
  specialize (λ w, IH w Hl). unfold winner. rewrite foldl_app. cbn [foldl].
  fold (winner class l).
  setoid_rewrite elem_of_app. setoid_rewrite list_elem_of_singleton.
  destruct (winner class l) as [g|] eqn:E.
  - destruct (proj1 (IH g) eq_refl) as [Hg Hmax]. case_decide as Hlt; split.
    + intros [= <-]. split; [by left|]. intros m [Hm| ->]; [by apply Hmax|by apply tlt_tle].
    + intros [[Hw| ->] Hub].
      * f_equal. apply (Hl g w Hg Hw), (rank_at class), tle_antisymm; [apply Hub; by left|by apply Hmax].
      * exfalso. specialize (Hub g (or_introl Hg)). tord.
    + intros [= <-]. split; [by right|]. intros m [Hm| ->]; [|apply tle_refl].
      specialize (Hmax m Hm). tord.
    + intros [[Hw| ->] Hub]; [|done]. f_equal.
      assert (rank class x = rank class w) as Hr.
      { apply tle_antisymm; [apply Hub; by right|]. specialize (Hmax w Hw). tord. }
      apply Hone; [apply elem_of_app; right; by apply list_elem_of_singleton
                  |apply elem_of_app; by left|by eapply rank_at].
  - assert (l = []) as ->.
    { destruct l as [|y l _] using rev_ind; [done|]. unfold winner in E.
      rewrite foldl_app in E. cbn [foldl] in E. destruct (foldl _ None l); [case_decide|]; done. }
    split.
    + intros [= <-]. split; [by right|]. intros m [?%not_elem_of_nil| ->]; [done|apply tle_refl].
    + intros [[?%not_elem_of_nil| ->] _]; done.
Qed.

Lemma winner_None class l : winner class l = None ↔ l = [].
Proof.
  split; [|by intros ->]. destruct l as [|x l _] using rev_ind; [done|].
  unfold winner. rewrite foldl_app. cbn [foldl]. destruct (foldl _ None l); [case_decide|]; done.
Qed.

Lemma winner_ext class l l' :
  one_per_stamp l → (∀ m, m ∈ l ↔ m ∈ l') → winner class l = winner class l'.
Proof.
  intros Hone Hext. assert (one_per_stamp l') as Hone'
    by (intros a b ?%Hext ?%Hext; by apply Hone).
  destruct (winner class l') as [w|] eqn:E.
  - apply winner_Some in E as [Hw Hub]; [|done]. apply winner_Some; [done|].
    split; [by apply Hext|]. intros m Hm. by apply Hub, Hext.
  - apply winner_None in E as ->. apply winner_None. destruct l as [|x l]; [done|].
    exfalso. apply (not_elem_of_nil x), Hext. by left.
Qed.

(** ** The operations keep the antichain *)

(** [W f] lists every write to [f] the entity's versions made; the candidates
    are those at or above the floor. *)
Definition cands (W : string → list Member) (floor : option Stamp) (f : string) : list Member :=
  filter (λ m, below_floor floor (m_at m) = false) (W f).

(** [r] holds every register's antichain. *)
Definition reg_ok (t : VTables) (W : string → list Member) (r : Registers) : Prop :=
  ∀ f, maxset (prec t) (cands W (rg_floor r) f) (members_of r f).

(** The members of a field not marked dirty are the ones loaded. *)
Definition held_members (h : Held) : list Member := option_list (hd_winner h) ++ hd_losers h.
Definition clean (r : Registers) : Prop :=
  ∀ f, f ∉ rg_dirty r → ∀ m,
    m ∈ members_of r f ↔ m ∈ held_members (default no_held (rg_held r !! f)).

Definition writes_ok (t : VTables) (W : string → list Member) : Prop := ∀ f, cands_ok t (W f).

Definition add_write (W : string → list Member) (f : string) (m : Member) : string → list Member :=
  λ g, if decide (g = f) then m :: W g else W g.

Lemma cands_sub W floor f m : m ∈ cands W floor f → m ∈ W f.
Proof. by intros [_ ?]%list_elem_of_filter. Qed.

Lemma cands_cands_ok t W floor f : writes_ok t W → cands_ok t (cands W floor f).
Proof.
  intros HW. destruct (HW f) as [Ha Hi]. split.
  - intros m Hm%cands_sub. auto.
  - intros m n Hm%cands_sub Hn%cands_sub. auto.
Qed.

Lemma members_of_insert fl h fs d f g l :
  members_of (mkRegisters fl h (<[f := l]> fs) d) g =
  if decide (g = f) then l else default [] (fs !! g).
Proof.
  unfold members_of; simpl. case_decide; subst; [by rewrite lookup_insert_eq|by rewrite lookup_insert_ne].
Qed.

Lemma offer_ok t r W f value at_ origin v :
  versions_ok t → writes_ok t (add_write W f (mkMember at_ v origin)) →
  match value with None => Some None | Some v => Some <$> enc v end = Some v →
  reg_ok t W r → clean r →
  ∃ r', offer t r f value at_ origin = Some r' ∧
    reg_ok t (add_write W f (mkMember at_ v origin)) r' ∧ clean r' ∧
    rg_floor r' = rg_floor r ∧ rg_held r' = rg_held r.
Proof.
  intros Hok HW Hv Hr Hclean. unfold offer.
  set (w := mkMember at_ v origin) in *.
  destruct (below_floor (rg_floor r) at_) eqn:Hfl.
  { eexists. split; [done|]. split_and!; [|done..]. intros g.
    eapply maxset_ext; [..|apply (Hr g)]; [|done]. intros m. unfold cands.
    rewrite !list_elem_of_filter. unfold add_write. case_decide; [|done].
    rewrite elem_of_cons. split; [intuition|]. intros [? [->|?]]; [|done]. simpl in *. congruence. }
  set (C := cands W (rg_floor r) f).
  assert (∀ m, m ∈ w :: C ↔ m ∈ cands (add_write W f w) (rg_floor r) f) as HC.
  { intros m. unfold C, cands, add_write. rewrite decide_True by done.
    rewrite elem_of_cons, !list_elem_of_filter, elem_of_cons. split; [|intuition].
    intros [->|?]; [split; [done|by left]|intuition]. }
  pose proof (cands_cands_ok t _ (rg_floor r) f HW) as Hcf.
  assert (strict_on (prec t) (w :: C)) as Hstrict
    by (eapply strict_on_ext; [|by apply prec_strict]; intros m; apply HC).
  assert (∀ l (d : gset string), maxset (prec t) (w :: C) l →
    reg_ok t (add_write W f w) (mkRegisters (rg_floor r) (rg_held r) (<[f := l]> (rg_fields r)) d))
    as Hset.
  { intros l d Hl g. rewrite members_of_insert. simpl. case_decide as Hg.
    - subst g. eapply maxset_ext; [apply HC|done|done].
    - unfold cands, add_write. rewrite decide_False by done. apply (Hr g). }
  assert (∀ l (d : gset string), (∀ m, f ∉ d → m ∈ l ↔ m ∈ members_of r f) → rg_dirty r ⊆ d →
    clean (mkRegisters (rg_floor r) (rg_held r) (<[f := l]> (rg_fields r)) d)) as Hcl.
  { intros l d Hl Hd g Hg m. rewrite members_of_insert. simpl. simpl in Hg.
    case_decide; [subst; rewrite Hl by done|]; apply Hclean; set_solver. }
  destruct (existsb _ (members_of r f)) eqn:Eat.
  { apply existsb_exists in Eat as (m & Hm%list_elem_of_In & Hat%bool_decide_eq_true).
    eexists. split; [done|]. split_and!; [|by apply Hcl|done..]. apply Hset.
    assert (m ∈ C) as HmC by by apply (Hr f).
    assert (m = w) as ->.
    { apply (proj2 Hcf); [apply HC; by right|apply HC; by left|done]. }
    eapply maxset_ext; [..|apply (Hr f)]; [|done]. intros x. rewrite elem_of_cons.
    split; [by right|]. by intros [-> |?]. }
  destruct (existsb _ (members_of r f)) eqn:Edom in |- *.
  { apply existsb_exists in Edom as (m & Hm%list_elem_of_In & Hdom).
    eexists. split; [done|]. split_and!; [|by apply Hcl|done..]. apply Hset.
    apply (maxset_dominated _ _ _ w m); [done|apply (Hr f)|done|done]. }
  rewrite Hv. eexists. split; [done|]. split_and!; [| |done..].
  - apply Hset. apply maxset_join; [done|apply Hr|]. intros m Hm. apply not_true_iff_false.
    intros Hp. apply not_true_iff_false in Edom. apply Edom, existsb_exists. exists m.
    by rewrite <-list_elem_of_In.
  - apply Hcl; [|set_solver]. intros m Hf. set_solver.
Qed.

(** A write by a version whose write to the field is counted already. *)
Lemma offer_again t r W f value at_ origin m :
  versions_ok t → writes_ok t W → reg_ok t W r → clean r → m ∈ W f → m_at m = at_ →
  ∃ r', offer t r f value at_ origin = Some r' ∧
    reg_ok t W r' ∧ clean r' ∧ rg_floor r' = rg_floor r ∧ rg_held r' = rg_held r.
Proof.
  intros Hok HW Hr Hclean Hm <-. unfold offer.
  destruct (below_floor (rg_floor r) (m_at m)) eqn:Hfl; [by exists r|].
  assert (m ∈ cands W (rg_floor r) f) as Hc by by apply list_elem_of_filter.
  set (r' := mkRegisters _ _ _ _).
  assert (∀ g, members_of r' g = members_of r g) as Hmem.
  { intros g. subst r'. rewrite members_of_insert. case_decide; [by subst|done]. }
  assert (reg_ok t W r' ∧ clean r' ∧ rg_floor r' = rg_floor r ∧ rg_held r' = rg_held r) as Hr'.
  { split_and!; [|by intros g Hg x; rewrite Hmem; apply Hclean|done|done].
    intros g. rewrite Hmem. apply (Hr g). }
  destruct (existsb _ (members_of r f)) eqn:Eat; [by exists r'|].
  destruct (existsb (λ n, precedes_at t (m_at m) (m_at n)) (members_of r f)) eqn:Edom; [by exists r'|].
  exfalso. pose proof (cands_cands_ok t W (rg_floor r) f HW) as Hco.
  destruct (maximal_above (prec t) _ m (prec_strict t _ Hok Hco) Hc) as (n & Hn & Hmn & Hmax).
  assert (n ∈ members_of r f) as Hnm by by apply (Hr f).
  destruct Hmn as [->|Hmn].
  - apply not_true_iff_false in Eat. apply Eat, existsb_exists. exists m.
    rewrite <-list_elem_of_In, bool_decide_eq_true. done.
  - apply not_true_iff_false in Edom. apply Edom, existsb_exists. exists n.
    by rewrite <-list_elem_of_In.
Qed.

(** A pass that filters every register's members. *)
Lemma filter_same_length {A} (P : A → Prop) `{∀ x, Decision (P x)} (l : list A) :
  length (filter P l) = length l → filter P l = l.
Proof.
  induction l as [|x l IH]; [done|]. rewrite filter_cons. case_decide.
  - intros [= Hl]. f_equal. by apply IH.
  - pose proof (length_filter P l). simpl. lia.
Qed.

Lemma members_of_fmap fl h (g : list Member → list Member) fs d f :
  g [] = [] → members_of (mkRegisters fl h (g <$> fs) d) f = g (default [] (fs !! f)).
Proof. intros Hg. unfold members_of; simpl. rewrite lookup_fmap. by destruct (fs !! f). Qed.

Lemma clean_shrunk r fl (g : list Member → list Member) :
  g [] = [] → (∀ l, length (g l) = length l → g l = l) → clean r →
  clean (mkRegisters fl (rg_held r) (g <$> rg_fields r)
           (shrunk (rg_fields r) (g <$> rg_fields r) ∪ rg_dirty r)).
Proof.
  intros Hg Hlen Hclean f Hf m. simpl in *. apply not_elem_of_union in Hf as [Hsh Hd].
  rewrite members_of_fmap by done.
  change (default [] (rg_fields r !! f)) with (members_of r f).
  assert (g (members_of r f) = members_of r f) as ->; [|by apply Hclean].
  apply Hlen. unfold shrunk in Hsh. rewrite elem_of_filter, lookup_fmap, elem_of_dom in Hsh.
  unfold members_of. destruct (rg_fields r !! f) as [l|]; simpl in *; [|by rewrite Hg].
  apply dec_stable. intros Hne. apply Hsh. eauto.
Qed.

Lemma raise_floor_ok t W r L :
  versions_ok t → writes_ok t W → reg_ok t W r → clean r →
  match rg_floor r with Some l => l ≺ L | None => True end →
  reg_ok t W (raise_floor r L) ∧ clean (raise_floor r L) ∧
  rg_floor (raise_floor r L) = Some L ∧ rg_held (raise_floor r L) = rg_held r.
Proof.
  intros Hok HW Hr Hclean HL.
  assert (rg_floor (raise_floor r L) = Some L) as Hfl.
  { simpl. destruct (rg_floor r) as [l|]; [|done]. f_equal. apply cmax_right. by apply tlt_tle. }
  split_and!; [| |done|done].
  - intros f. rewrite Hfl. unfold raise_floor. rewrite members_of_fmap by done.
    eapply maxset_ext; [..|apply (maxset_filter (prec t) (λ m, ¬ m_at m ≺ L)), (Hr f)]; [|done|].
    + intros m. unfold cands. rewrite !list_elem_of_filter. simpl.
      rewrite bool_decide_eq_false. unfold below_floor.
      destruct (rg_floor r) as [l|]; [|tauto]. rewrite bool_decide_eq_false.
      split; [tauto|]. intros [HmL Hm]. split_and!; [done| |done]. intros Hml. apply HmL.
      by apply (tlt_trans _ l).
    + intros x y Hx Hy Hxy HxL HyL. apply HxL.
      apply (prec_lt t (cands W (rg_floor r) f)) in Hxy; [|done|by apply cands_cands_ok|done..].
      by apply (tlt_trans _ (m_at y)).
  - apply clean_shrunk; [done| |done]. intros l. apply filter_same_length.
Qed.

Lemma refilter_ok t t' W r :
  versions_ok t → versions_ok t' → writes_ok t W → writes_ok t' W →
  (∀ a b, before (versions_of t) a b → before (versions_of t') a b) →
  reg_ok t W r → clean r →
  reg_ok t' W (refilter t' r) ∧ clean (refilter t' r) ∧
  rg_floor (refilter t' r) = rg_floor r ∧ rg_held (refilter t' r) = rg_held r.
Proof.
  intros Hok Hok' HW HW' Hmono Hr Hclean. split_and!; [| |done|done].
  - intros f. unfold refilter. rewrite members_of_fmap by done. simpl.
    pose proof (cands_cands_ok t W (rg_floor r) f HW) as Hc.
    pose proof (cands_cands_ok t' W (rg_floor r) f HW') as Hc'.
    apply (maxset_refine (prec t)); [|by apply prec_strict..|apply Hr].
    intros x y Hx Hy. unfold prec. destruct Hc, Hc'.
    rewrite !precedes_at_before by auto. apply Hmono.
  - apply clean_shrunk; [done| |done]. intros l. apply filter_same_length.
Qed.

(** Registers read against tables whose order is the same on their writes. *)
Lemma reg_ok_same t t' W r :
  versions_ok t → versions_ok t' → writes_ok t W → writes_ok t' W →
  (∀ a b, applied (versions_of t) a → applied (versions_of t) b →
     before (versions_of t) a b ↔ before (versions_of t') a b) →
  reg_ok t W r → reg_ok t' W r.
Proof.
  intros Hok Hok' HW HW' Hsame Hr f m. rewrite (Hr f m).
  pose proof (cands_cands_ok t W (rg_floor r) f HW) as [Hc _].
  pose proof (cands_cands_ok t' W (rg_floor r) f HW') as [Hc' _].
  assert (∀ x y, x ∈ cands W (rg_floor r) f → y ∈ cands W (rg_floor r) f →
            prec t x y = prec t' x y) as Hp.
  { intros x y Hx Hy. apply eq_iff_eq_true. unfold prec.
    rewrite !precedes_at_before by auto. apply Hsame; auto. }
  split; intros [Hm Hn]; (split; [done|]); intros n HnC; [rewrite <-Hp|rewrite Hp]; auto.
Qed.

(** ** Loading and writing back *)

(** [db] stores the antichain of the writes [W] at or above [floor]: its
    winner, and each other member with its legacy mark. *)
Definition stored (t : VTables) (W : string → list Member) (floor : option Stamp) (db : RegTables) :
    Prop :=
  ∀ f, ∃ A, maxset (prec t) (cands W floor f) A ∧
    merge_registers db !! f = winner (class_of e f) A ∧
    ∀ op lo, register_losers db !! (f, op) = Some lo ↔
      ∃ m, m ∈ A ∧ Some m ≠ winner (class_of e f) A ∧ op = op_ref (m_at m) ∧
           lo = mkLoser m (bool_decide (floor = Some (m_at m))).

(** What [r] took from [db] when it was loaded. *)
Definition held_ok (db : RegTables) (r : Registers) : Prop :=
  ∀ f, let h := default no_held (rg_held r !! f) in
    merge_registers db !! f = hd_winner h ∧
    (∀ m, m ∈ hd_losers h → ∃ lo,
       register_losers db !! (f, op_ref (m_at m)) = Some lo ∧ lo_member lo = m) ∧
    (∀ op lo, register_losers db !! (f, op) = Some lo →
       lo_member lo ∈ hd_losers h ∧ op = op_ref (m_at (lo_member lo))).

Lemma held_foldl rows held0 f :
  let h0 := default no_held (held0 !! f) in
  default no_held (foldl add_held_loser held0 rows !! f) =
  mkHeld (hd_winner h0) (hd_losers h0 ++ ((λ row, lo_member row.2) <$> filter (λ row, row.1.1 = f) rows)).
Proof.
  revert held0. induction rows as [|[[g op] lo] rows IH]; intros held0; cbn [foldl].
  { simpl. rewrite app_nil_r. by destruct (default no_held _). }
  rewrite IH. rewrite filter_cons. cbn [fst snd]. unfold add_held_loser. cbn [fst snd].
  destruct (decide (g = f)) as [->|Hne].
  - rewrite lookup_insert_eq. simpl. by rewrite <-app_assoc.
  - by rewrite lookup_insert_ne.
Qed.

Lemma load_held db floor f :
  default no_held (rg_held (load db floor) !! f) =
  mkHeld (merge_registers db !! f)
    ((λ row, lo_member row.2) <$> filter (λ row, row.1.1 = f) (map_to_list (register_losers db))).
Proof.
  unfold load; simpl. rewrite held_foldl. rewrite lookup_fmap.
  by destruct (merge_registers db !! f).
Qed.

Lemma load_members db floor f :
  members_of (load db floor) f = held_members (default no_held (rg_held (load db floor) !! f)).
Proof.
  unfold load, members_of; simpl. rewrite lookup_fmap. by destruct (_ !! f).
Qed.

Lemma load_losers db floor f m :
  m ∈ hd_losers (default no_held (rg_held (load db floor) !! f)) ↔
  ∃ op lo, register_losers db !! (f, op) = Some lo ∧ lo_member lo = m.
Proof.
  rewrite load_held. simpl. rewrite list_elem_of_fmap. split.
  - intros ([[g op] lo] & -> & Hin). apply list_elem_of_filter in Hin as [Hg Hin].
    apply elem_of_map_to_list in Hin. simpl in *. subst g. eauto.
  - intros (op & lo & Hlo & <-). exists ((f, op), lo). split; [done|].
    apply list_elem_of_filter. split; [done|]. by apply elem_of_map_to_list.
Qed.

Lemma option_list_elem {A} (o : option A) x : x ∈ option_list o ↔ o = Some x.
Proof.
  destruct o as [y|]; simpl; [rewrite list_elem_of_singleton; split; [by intros ->|by intros [= ->]]|].
  split; [by intros ?%not_elem_of_nil|done].
Qed.

Lemma load_ok t W floor db :
  writes_ok t W → stored t W floor db →
  reg_ok t W (load db floor) ∧ clean (load db floor) ∧ held_ok db (load db floor).
Proof.
  intros HW Hst. split_and!.
  - intros f. rewrite load_members. destruct (Hst f) as (A & HA & Hwin & Hlo).
    assert (one_per_stamp A) as Hone.
    { destruct (cands_cands_ok t W floor f HW) as [_ Hi]. intros a b Ha Hb.
      apply HA in Ha as [Ha _], Hb as [Hb _]. by apply Hi. }
    eapply maxset_ext; [..|exact HA]; [done|]. intros m. unfold held_members.
    rewrite elem_of_app, option_list_elem, load_losers, load_held. simpl. rewrite Hwin. split.
    + intros Hm. destruct (decide (winner (class_of e f) A = Some m)) as [|Hne]; [by left|right].
      exists (op_ref (m_at m)), (mkLoser m (bool_decide (floor = Some (m_at m)))).
      split; [|done]. apply Hlo. exists m. split_and!; [done|congruence|done..].
    + intros [Hw|(op & lo & Hl & <-)]; [by apply winner_Some in Hw as [? _]|].
      apply Hlo in Hl as (m & ? & _ & _ & ->). done.
  - intros f _ m. by rewrite load_members.
  - intros f. cbn zeta. split_and!.
    + by rewrite load_held.
    + intros m (op & lo & Hlo & <-)%load_losers. exists lo. split; [|done].
      destruct (Hst f) as (A & _ & _ & Hl).
      assert (op = op_ref (m_at (lo_member lo))) as <-; [|done].
      by destruct (proj1 (Hl op lo) Hlo) as (m & _ & _ & -> & ->).
    + intros op lo Hlo. split; [apply load_losers; eauto|].
      destruct (Hst f) as (A & _ & _ & Hl).
      by destruct (proj1 (Hl op lo) Hlo) as (m & _ & _ & -> & ->).
Qed.

(** What was loaded of a stored register: its winner is the winner of the
    members, no loser is the winner, and every member is a write. *)
Lemma load_held_facts t W floor db f :
  writes_ok t W → stored t W floor db →
  let h := default no_held (rg_held (load db floor) !! f) in
  hd_winner h = winner (class_of e f) (held_members h) ∧
  (∀ m, m ∈ hd_losers h → Some m ≠ hd_winner h) ∧
  (∀ m, m ∈ held_members h → m ∈ W f).
Proof.
  intros HW Hst h. destruct (load_ok t W floor db HW Hst) as (Hr & _ & _).
  destruct (Hst f) as (A & HA & Hwin & Hlo).
  assert (∀ m, m ∈ A ↔ m ∈ held_members h) as HAm.
  { intros m. unfold h. rewrite <-load_members. by apply (maxset_unique _ _ _ _ HA (Hr f)). }
  assert (one_per_stamp A) as Hone.
  { destruct (cands_cands_ok t W floor f HW) as [_ Hi]. intros a b [Ha _]%HA [Hb _]%HA. by apply Hi. }
  assert (hd_winner h = winner (class_of e f) A) as Hh by (unfold h; by rewrite load_held).
  split_and!.
  - rewrite Hh. by apply winner_ext.
  - intros m (op & lo & Hl & <-)%load_losers. rewrite Hh.
    by apply Hlo in Hl as (m & _ & Hne & _ & ->).
  - intros m Hm. apply HAm, HA in Hm as [Hm _]. by eapply cands_sub.
Qed.

(** The two loops of [flush_field]. *)
Lemma delete_losers_spec f l db :
  merge_registers (foldl (λ db m, delete_loser db f m) db l) = merge_registers db ∧
  ∀ g op, register_losers (foldl (λ db m, delete_loser db f m) db l) !! (g, op) =
    if decide (g = f ∧ op ∈ (λ m, op_ref (m_at m)) <$> l) then None
    else register_losers db !! (g, op).
Proof.
  revert db. induction l as [|m l IH]; intros db; cbn [foldl fmap list_fmap].
  { split; [done|]. intros g op. rewrite decide_False; [done|].
    by intros [_ ?%not_elem_of_nil]. }
  destruct (IH (delete_loser db f m)) as [Hm Hl]. rewrite Hm. split; [done|].
  intros g op. rewrite Hl. unfold delete_loser; simpl.
  destruct (decide (g = f ∧ op ∈ (λ m, op_ref (m_at m)) <$> l)) as [[? ?]|Hno].
  - rewrite decide_True; [done|]. split; [done|by right].
  - destruct (decide ((g, op) = (f, op_ref (m_at m)))) as [[= -> ->]|Hne].
    + rewrite lookup_delete_eq, decide_True; [done|]. split; [done|by left].
    + rewrite lookup_delete_ne by congruence. rewrite decide_False; [done|].
      intros [-> [->|?]%elem_of_cons]; [done|]. by apply Hno.
Qed.

Lemma write_losers_spec floor f l db :
  merge_registers (foldl (λ db m, write_loser floor db f m) db l) = merge_registers db ∧
  (∀ g op, g ≠ f ∨ op ∉ (λ m, op_ref (m_at m)) <$> l →
     register_losers (foldl (λ db m, write_loser floor db f m) db l) !! (g, op) =
     register_losers db !! (g, op)) ∧
  ∀ m, m ∈ l → (∀ n, n ∈ l → op_ref (m_at n) = op_ref (m_at m) → n = m) →
    register_losers (foldl (λ db m, write_loser floor db f m) db l) !! (f, op_ref (m_at m)) =
    Some (mkLoser m (bool_decide (floor = Some (m_at m)))).
Proof.
  revert db. induction l as [|x l IH]; intros db; cbn [foldl fmap list_fmap].
  { split_and!; [done..|]. by intros m ?%not_elem_of_nil. }
  destruct (IH (write_loser floor db f x)) as (Hm & Hl & Hin). split_and!; [by rewrite Hm| |].
  - intros g op Hno. rewrite Hl.
    + unfold write_loser; simpl. rewrite lookup_insert_ne; [done|].
      intros [= -> <-]. destruct Hno as [?|Hno]; [done|]. apply Hno. by left.
    + destruct Hno as [?|Hno]; [by left|]. right. intros ?. apply Hno. by right.
  - intros m Hml Huniq.
    destruct (decide (op_ref (m_at m) ∈ (λ m, op_ref (m_at m)) <$> l)) as [Hr|Hr].
    + apply list_elem_of_fmap in Hr as (n & Hrn & Hn).
      assert (n = m) as -> by (apply Huniq; [by right|done]).
      apply Hin; [done|]. intros k Hk. apply Huniq. by right.
    + rewrite Hl by by right. apply elem_of_cons in Hml as [->|Hml].
      * unfold write_loser; simpl. by rewrite lookup_insert_eq.
      * destruct Hr. by apply (list_elem_of_fmap_2 (λ m, op_ref (m_at m))).
Qed.

Lemma applied_op_ref_inj vs a b : applied vs a → applied vs b → op_ref a = op_ref b → a = b.
Proof. intros (v & Hv & <-) (w & Hw & <-) Heq. congruence. Qed.

Section flush.
Context (t : VTables) (W : string → list Member) (r : Registers) (db0 : RegTables).
Hypothesis Hok : versions_ok t.
Hypothesis HW : writes_ok t W.
Hypothesis Hr : reg_ok t W r.
Hypothesis Hclean : clean r.
Hypothesis Hheld : held_ok db0 r.
Let held f := default no_held (rg_held r !! f).
Hypothesis Hwon : ∀ f, hd_winner (held f) = winner (class_of e f) (held_members (held f)).
Hypothesis Hlost : ∀ f m, m ∈ hd_losers (held f) → Some m ≠ hd_winner (held f).
Hypothesis HheldW : ∀ f m, m ∈ held_members (held f) → m ∈ W f.
Hypothesis Hflag : ∀ f op lo, register_losers db0 !! (f, op) = Some lo →
  lo_member lo ∈ members_of r f →
  lo_legacy lo = bool_decide (rg_floor r = Some (m_at (lo_member lo))).

(** Two writes of one field by one op are one write. *)
Lemma write_inj f m n : m ∈ W f → n ∈ W f → op_ref (m_at m) = op_ref (m_at n) → m = n.
Proof.
  intros Hm Hn Heq. destruct (HW f) as [Ha Hi]. apply Hi; [done..|].
  eapply applied_op_ref_inj; [apply Ha, Hm|apply Ha, Hn|done].
Qed.

Lemma members_W f m : m ∈ members_of r f → m ∈ W f.
Proof. intros Hm. apply Hr in Hm as [Hm _]. by eapply cands_sub. Qed.

Lemma members_one f : one_per_stamp (members_of r f).
Proof. intros m n Hm%members_W Hn%members_W. by apply (HW f). Qed.

(** The rows of one field, as they should be. *)
Definition field_stored (db : RegTables) (f : string) : Prop :=
  merge_registers db !! f = winner (class_of e f) (members_of r f) ∧
  ∀ op lo, register_losers db !! (f, op) = Some lo ↔
    ∃ m, m ∈ members_of r f ∧ Some m ≠ winner (class_of e f) (members_of r f) ∧
         op = op_ref (m_at m) ∧ lo = mkLoser m (bool_decide (rg_floor r = Some (m_at m))).
Definition same_rows (db db' : RegTables) (f : string) : Prop :=
  merge_registers db' !! f = merge_registers db !! f ∧
  ∀ op, register_losers db' !! (f, op) = register_losers db !! (f, op).

Lemma clean_field_stored f : f ∉ rg_dirty r → field_stored db0 f.
Proof.
  intros Hf. pose proof (Hclean f Hf) as Hm. destruct (Hheld f) as (Hw & Hl1 & Hl2).
  fold (held f) in Hm, Hw, Hl1, Hl2.
  assert (winner (class_of e f) (members_of r f) = hd_winner (held f)) as Hwin.
  { rewrite Hwon. by apply winner_ext; [apply members_one|]. }
  split; [by rewrite Hwin|]. intros op lo. rewrite Hwin. split.
  - intros Hlo. destruct (Hl2 op lo Hlo) as [Hin Hop].
    assert (lo_member lo ∈ members_of r f) as Hmem
      by (apply Hm; unfold held_members; apply elem_of_app; by right).
    exists (lo_member lo). split_and!; [done| |done|].
    + apply not_eq_sym. intros Heq. by apply (Hlost f (lo_member lo)).
    + rewrite <-(Hflag f op lo) by done. by destruct lo.
  - intros (m & Hmem & Hne & -> & ->). apply Hm in Hmem. unfold held_members in Hmem.
    apply elem_of_app in Hmem as [Hmem%option_list_elem|Hmem]; [congruence|].
    destruct (Hl1 m Hmem) as (lo & Hlo & <-). rewrite Hlo. f_equal.
    rewrite <-(Hflag f _ lo Hlo); [by destruct lo|]. apply Hm. unfold held_members.
    apply elem_of_app. by right.
Qed.

Lemma flush_field_stored db f :
  same_rows db0 db f → field_stored (flush_field e r db f) f ∧
  ∀ g, g ≠ f → same_rows db (flush_field e r db f) g.
Proof.
  intros [Hsm Hsl]. destruct (Hheld f) as (Hw & Hl1 & Hl2). fold (held f) in Hw, Hl1, Hl2.
  unfold flush_field. fold (held f).
  set (won := winner (class_of e f) (members_of r f)).
  set (losers := filter (λ m, Some m ≠ won) (members_of r f)).
  set (db1 := match won with Some w => _ | None => _ end).
  assert (merge_registers db1 !! f = won ∧ register_losers db1 = register_losers db ∧
          ∀ g, g ≠ f → merge_registers db1 !! g = merge_registers db !! g) as (H1 & H2 & H3).
  { subst db1. destruct won as [w|].
    - case_decide as Hne; simpl.
      + rewrite lookup_insert_eq. split_and!; [done..|]. intros g Hg. by rewrite lookup_insert_ne.
      + split_and!; [|done..]. by rewrite Hsm, Hw.
    - destruct (hd_winner (held f)) as [h|] eqn:Eh; simpl.
      + rewrite lookup_delete_eq. split_and!; [done..|]. intros g Hg. by rewrite lookup_delete_ne.
      + split_and!; [|done..]. by rewrite Hsm, Hw. }
  set (gone := filter (λ h, h ∉ losers) (hd_losers (held f))).
  destruct (delete_losers_spec f gone db1) as [Hd1 Hd2].
  set (db2 := foldl (λ db m, delete_loser db f m) db1 gone) in *.
  set (new := filter (λ m, m ∉ hd_losers (held f)) losers).
  destruct (write_losers_spec (rg_floor r) f new db2) as (Hn1 & Hn2 & Hn3).
  set (db3 := foldl (λ db m, write_loser (rg_floor r) db f m) db2 new) in *.
  assert (∀ m, m ∈ losers → m ∈ W f) as HlW
    by (intros m [_ Hm]%list_elem_of_filter; by apply members_W).
  assert (∀ m, m ∈ hd_losers (held f) → m ∈ W f) as HhW
    by (intros m Hm; apply HheldW; apply elem_of_app; by right).
  assert (∀ m, m ∈ new → register_losers db3 !! (f, op_ref (m_at m)) =
            Some (mkLoser m (bool_decide (rg_floor r = Some (m_at m))))) as Hnew.
  { intros m Hm. apply Hn3; [done|]. intros n Hn Heq.
    apply list_elem_of_filter in Hm as [_ Hm], Hn as [_ Hn]. eapply write_inj; [..|exact Heq]; auto. }
  assert (∀ m, m ∈ losers → m ∈ hd_losers (held f) → register_losers db3 !! (f, op_ref (m_at m)) =
            Some (mkLoser m (bool_decide (rg_floor r = Some (m_at m))))) as Hold.
  { intros m Hm Hmh. rewrite Hn2; [|right]; [rewrite Hd2, decide_False|].
    - destruct (Hl1 m Hmh) as (lo & Hlo & <-). rewrite H2, Hsl, Hlo. f_equal.
      rewrite <-(Hflag f _ lo Hlo); [by destruct lo|]. by apply list_elem_of_filter in Hm as [_ ?].
    - intros [_ Hg]. apply list_elem_of_fmap in Hg as (g & Heq & Hg).
      apply list_elem_of_filter in Hg as [Hgl Hgh]. apply Hgl.
      assert (g = m) as ->; [|done]. eapply write_inj; [by apply HhW|by apply HlW|done].
    - intros Hg. apply list_elem_of_fmap in Hg as (g & Heq & Hg).
      apply list_elem_of_filter in Hg as [Hgl Hgh]. apply Hgl.
      assert (g = m) as ->; [|done]. eapply write_inj; [by apply HlW|by apply HlW|done]. }
  split.
  - split; [rewrite Hn1, Hd1; exact H1|]. intros op lo. fold won. split.
    + intros Hlo. destruct (decide (op ∈ (λ m, op_ref (m_at m)) <$> new)) as [Hin|Hno].
      * apply list_elem_of_fmap in Hin as (m & -> & Hm). rewrite (Hnew m Hm) in Hlo.
        injection Hlo as <-. exists m. apply list_elem_of_filter in Hm as [_ Hm].
        apply list_elem_of_filter in Hm as [Hne Hm]. by split_and!.
      * rewrite Hn2 in Hlo by by right. rewrite Hd2 in Hlo. case_decide as Hg; [done|].
        rewrite H2, Hsl in Hlo. destruct (Hl2 op lo Hlo) as [Hlh Hop].
        destruct (decide (lo_member lo ∈ losers)) as [Hll|Hll].
        -- assert (lo = mkLoser (lo_member lo) (bool_decide (rg_floor r = Some (m_at (lo_member lo)))))
             as Heq.
           { rewrite <-(Hflag f op lo Hlo); [by destruct lo|].
             by apply list_elem_of_filter in Hll as [_ ?]. }
           exists (lo_member lo). apply list_elem_of_filter in Hll as [? ?]. by split_and!.
        -- destruct Hg. split; [done|]. rewrite Hop.
           apply (list_elem_of_fmap_2 (λ m, op_ref (m_at m))). by apply list_elem_of_filter.
    + intros (m & Hm & Hne & -> & ->).
      assert (m ∈ losers) as Hml by by apply list_elem_of_filter.
      destruct (decide (m ∈ hd_losers (held f))); [by apply Hold|].
      apply Hnew. by apply list_elem_of_filter.
  - intros g Hg. split; [rewrite Hn1, Hd1; by apply H3|]. intros op.
    rewrite Hn2 by by left. rewrite Hd2, decide_False by by intros [-> _]. by rewrite H2.
Qed.

Lemma flush_ok : stored t W (rg_floor r) (flush e r db0).
Proof.
  assert (∀ l db, NoDup l → (∀ f, f ∈ l → same_rows db0 db f) →
    (∀ f, f ∉ l → field_stored db f) →
    ∀ f, field_stored (foldl (flush_field e r) db l) f) as Hall.
  { induction l as [|f l IH]; intros db Hnd Hin Hout; cbn [foldl].
    { intros f. apply Hout. apply not_elem_of_nil. }
    apply NoDup_cons in Hnd as [Hfl Hnd].
    destruct (flush_field_stored db f) as [Hf Hg]; [apply Hin; by left|].
    apply IH; [done| |].
    - intros g Hgl. assert (g ≠ f) as Hne by by intros ->.
      destruct (Hg g Hne) as [G1 G2], (Hin g) as [I1 I2]; [by right|].
      split; [congruence|]. intros op. by rewrite G2.
    - intros g Hgl. destruct (decide (g = f)) as [->|Hne]; [done|].
      destruct (Hg g Hne) as [G1 G2], (Hout g) as [O1 O2];
        [by intros [?|?]%elem_of_cons|]. split; [congruence|]. intros op. by rewrite G2. }
  intros f. exists (members_of r f). split; [apply Hr|].
  apply (Hall (elements (rg_dirty r)) db0).
  - apply NoDup_elements.
  - intros g _. done.
  - intros g Hg. apply clean_field_stored. by rewrite <-elem_of_elements.
Qed.
End flush.

(** [stored] determines the rows. *)
Lemma stored_unique t W floor db1 db2 :
  writes_ok t W → stored t W floor db1 → stored t W floor db2 → db1 = db2.
Proof.
  intros HW H1 H2.
  assert (∀ f, merge_registers db1 !! f = merge_registers db2 !! f ∧
     ∀ op, register_losers db1 !! (f, op) = register_losers db2 !! (f, op)) as Heq.
  { intros f. destruct (H1 f) as (A1 & M1 & W1 & L1), (H2 f) as (A2 & M2 & W2 & L2).
    pose proof (maxset_unique _ _ _ _ M1 M2) as HA.
    assert (winner (class_of e f) A1 = winner (class_of e f) A2) as HWin.
    { apply winner_ext; [|done]. destruct (cands_cands_ok t W floor f HW) as [_ Hi].
      intros a b [Ha _]%M1 [Hb _]%M1. by apply Hi. }
    split; [by rewrite W1, W2|]. intros op. apply option_eq. intros lo.
    rewrite L1, L2. setoid_rewrite HA. by rewrite HWin. }
  destruct db1 as [m1 l1], db2 as [m2 l2]; simpl in *. f_equal; apply map_eq.
  - intros f. apply Heq.
  - intros [f op]. apply Heq.
Qed.

Lemma stored_empty t floor : stored t (λ _, []) floor no_registers.
Proof.
  intros f. exists []. split; [|split].
  - intros m. split; [by intros ?%not_elem_of_nil|]. by intros [?%cands_sub%not_elem_of_nil _].
  - unfold no_registers; simpl. by rewrite lookup_empty.
  - intros op lo. unfold no_registers; simpl. rewrite lookup_empty. split; [done|].
    by intros (m & ?%not_elem_of_nil & _).
Qed.
End facts.
