(* ===== verification/FieldState.v ===== *)
(** * The merge state of one entity (engine/merge/state.rs)

    The rows the merge tables hold for one entity, keyed by their primary
    keys, and the writes made to them one field at a time.  The definitions
    return [None] where the code returns the encoder's error, which rolls the
    transaction back; a write SQLite itself refuses does the same and is not
    modelled. *)

From Stdlib Require Import ZArith Lia.
From stdpp Require Import base tactics decidable countable option list strings gmap.
From S2P Require Import Prelude Bytes Cbor Hlc Registry Stamp Versions Patch Registers.
Open Scope Z_scope.

(** ** The bookkeeping row ([merge_entities]) *)

Record Meta := mkMeta {
  mt_created : bool;
  mt_create : option Stamp;
  mt_legacy : option Stamp;
  mt_patch_ms : option Z;
  mt_head : Stamp;
}.

Definition fresh (at_ : Stamp) : Meta := mkMeta false None None None at_.

Definition note (m : Meta) (at_ : Stamp) : Meta :=
  mkMeta (mt_created m) (mt_create m) (mt_legacy m) (mt_patch_ms m) (cmax (mt_head m) at_).

Definition note_create (m : Meta) (at_ : Stamp) : Meta :=
  mkMeta true (Some (match mt_create m with None => at_ | Some c => cmin c at_ end))
    (mt_legacy m) (mt_patch_ms m) (mt_head m).

Definition note_patch (m : Meta) (at_ : Stamp) : Meta :=
  let ms := physical_ms (s_hlc at_) in
  mkMeta (mt_created m) (mt_create m) (mt_legacy m)
    (Some (match mt_patch_ms m with None => ms | Some p => Z.max p ms end)) (mt_head m).

Definition set_legacy (m : Meta) (at_ : Stamp) : Meta :=
  mkMeta (mt_created m) (mt_create m) (Some at_) (mt_patch_ms m) (mt_head m).

(** ** The field tables *)

Record MapEntry := mkMapEntry { me_value : bytes; me_at : Stamp; me_origin : string }.

(** [merge_map_entries] by (field, key); [merge_orset_adds] by (field,
    element, tag), holding the add's clock reading; [merge_orset_removes] by
    (field, element, tag); [merge_counter_deltas] by (field, op), holding the
    op's clock reading and the delta. *)
Record FieldTables := mkFieldTables {
  map_entries : gmap (string * string) MapEntry;
  orset_adds : gmap (string * bytes * OpRef) Hlc;
  orset_removes : gset (string * bytes * OpRef);
  counter_deltas : gmap (string * OpRef) (Hlc * Z);
}.
Definition no_fields : FieldTables := mkFieldTables ∅ ∅ ∅ ∅.

(** The stamp of the op a row is tagged with ([stamp_cols]). *)
Definition row_stamp (h : Hlc) (op : OpRef) : Stamp :=
  mkStamp h (o_device op) (o_seq op) (o_stream op).

Section writes.
Context `{Ciborium}.

Definition write_map_entry (db : FieldTables) (field k : string) (value : Value) (at_ : Stamp)
    (origin : string) : option FieldTables :=
  let refused := match map_entries db !! (field, k) with
                 | Some held => negb (replaces at_ (me_at held))
                 | None => false
                 end in
  if refused then Some db
  else
    v ← enc value;
    Some (mkFieldTables (<[(field, k) := mkMapEntry v at_ origin]> (map_entries db))
            (orset_adds db) (orset_removes db) (counter_deltas db)).

(** [INSERT OR IGNORE]. *)
Definition insert_new {K V} `{Countable K} (k : K) (v : V) (m : gmap K V) : gmap K V :=
  match m !! k with Some _ => m | None => <[k := v]> m end.

Definition add_element (db : FieldTables) (field : string) (element : Value) (at_ : Stamp)
    (floor : option Stamp) : option FieldTables :=
  if below_floor floor at_ then Some db
  else
    el ← enc element;
    Some (mkFieldTables (map_entries db)
            (insert_new (field, el, op_ref at_) (s_hlc at_) (orset_adds db))
            (orset_removes db) (counter_deltas db)).

Definition remove_element (db : FieldTables) (field : string) (element : Value) (tag : OpRef) :
    option FieldTables :=
  el ← enc element;
  Some (mkFieldTables (map_entries db) (orset_adds db)
          ({[(field, el, tag)]} ∪ orset_removes db) (counter_deltas db)).

Definition at_or_below_floor (floor : option Stamp) (at_ : Stamp) : bool :=
  match floor with Some l => bool_decide (at_ ≼ l) | None => false end.

Definition add_delta (db : FieldTables) (field : string) (delta : Z) (at_ : Stamp)
    (floor : option Stamp) : FieldTables :=
  if at_or_below_floor floor at_ then db
  else mkFieldTables (map_entries db) (orset_adds db) (orset_removes db)
         (insert_new (field, op_ref at_) (s_hlc at_, delta) (counter_deltas db)).
End writes.

(** The two [DELETE]s of [prune_below_floor]; the registers' part is
    [raise_floor]. *)
Definition prune_tables (db : FieldTables) (floor : Stamp) : FieldTables :=
  mkFieldTables (map_entries db)
    (filter (λ kv, ¬ row_stamp kv.2 kv.1.2 ≺ floor) (orset_adds db))
    (orset_removes db)
    (filter (λ kv, ¬ row_stamp kv.2.1 kv.1.2 ≼ floor) (counter_deltas db)).

Definition prune_below_floor (db : FieldTables) (floor : Stamp) (regs : Registers) :
    FieldTables * Registers :=
  (prune_tables db floor, raise_floor regs floor).

(** ** One entity *)

Record Entity := mkEntity {
  en_meta : option Meta;
  en_versions : VTables;
  en_registers : RegTables;
  en_fields : FieldTables;
}.
Definition no_entity : Entity := mkEntity None no_versions no_registers no_fields.
