(* ===== verification/Fold.v ===== *)
(** * Folding an op into its entity (engine/merge/mod.rs)

    [merge_op_inner] folds one op: it admits the op's version, loads the
    registers, folds the op's writes and writes the registers and the
    bookkeeping back.  The projection of the entity to its row is Project.v's.

    An op's content is also read as a list of [Write]s, one per row it touches;
    folding the op is applying its writes one after another, which is how
    Convergence.v reasons about it. *)

From Stdlib Require Import ZArith Lia String.
From stdpp Require Import base tactics decidable countable option list strings gmap.
From S2P Require Import Prelude Bytes Cbor Hlc Registry Stamp Versions Patch Registers FieldState.
Open Scope Z_scope.

Inductive InnerOp :=
  | OpPatch (p : PatchPayload)
  | OpLegacy (inner_kind : string) (state : list (Value * Value)).

(** An op as it is folded: its content, the sender's stamp, the stream it was
    sealed under, and the group of a full-state member. *)
Record DOp := mkDOp {
  d_inner : InnerOp;
  d_lww : LwwStamp;
  d_stream : Id;
  d_group : option (Id * Z);
}.
#[export] Instance PatchPayload_eq_dec : EqDecision PatchPayload.
Proof. solve_decision. Defined.
#[export] Instance InnerOp_eq_dec : EqDecision InnerOp.
Proof. solve_decision. Defined.
#[export] Instance DOp_eq_dec : EqDecision DOp.
Proof. solve_decision. Defined.

Definition d_at (d : DOp) : Stamp := stamp_of_lww (d_lww d) (d_stream d).

(** What the fold of one op threads: the bookkeeping, the field tables and the
    entity's registers in memory. *)
Record FoldState := mkFold { fs_meta : Meta; fs_fields : FieldTables; fs_regs : Registers }.

Definition has_field (r : RecordSpec) (name : string) : bool :=
  existsb (λ f, bool_decide (f_name f = name)) (r_fields r).

(** ** Origins and the fields an op writes *)

Definition legacy_origin (inner_kind : string) (state : list (Value * Value)) : string :=
  let names_routine := existsb (λ kv, bool_decide (as_text kv.1 = Some "routine_id"%string) &&
                                      negb (is_null kv.2)) state in
  if bool_decide (inner_kind = "task.create"%string) && names_routine then GENERATED else USER.

Definition legacy_fields (e : EntitySpec) (state : list (Value * Value)) : gset string :=
  list_to_set (match head (e_records e) with Some r => f_name <$> r_fields r | None => [] end) ∪
  list_to_set (filter (λ k, k ≠ FULL_STATE_GROUP_KEY) (omap (λ kv, as_text kv.1) state)).

(** [str::ends_with]. *)
Definition ends_with (suffix s : string) : bool :=
  bool_decide (String.substring (String.length s - String.length suffix) (String.length suffix) s = suffix ∧
               (String.length suffix ≤ String.length s)%nat).

Section fold.
Context `{Ciborium} (value_fits : EntityKind.t → string → Value → bool) (e : EntitySpec).

(** ** The folds *)

Section one_op.
Context (t : VTables) (at_ : Stamp) (origin : string).

Definition offer_field (st : FoldState) (field : string) (value : option Value) : option FoldState :=
  regs ← offer t (fs_regs st) field value at_ origin;
  Some (mkFold (fs_meta st) (fs_fields st) regs).

Definition with_fields (st : FoldState) (o : option FieldTables) : option FoldState :=
  db ← o; Some (mkFold (fs_meta st) db (fs_regs st)).

Definition add_to (st : FoldState) (field : string) (element : Value) : option FoldState :=
  with_fields st (add_element (fs_fields st) field element at_ (mt_legacy (fs_meta st))).

Definition remove_from (st : FoldState) (field : string) (element : Value) (tag : OpRef) :
    option FoldState :=
  with_fields st (remove_element (fs_fields st) field element tag).

Definition set_entry (st : FoldState) (field k : string) (v : Value) : option FoldState :=
  with_fields st (write_map_entry (fs_fields st) field k v at_ origin).

Definition inc_field (st : FoldState) (field : string) (n : Z) : option FoldState :=
  with_fields st (Some (add_delta (fs_fields st) field n at_ (mt_legacy (fs_meta st)))).

Definition fold_field_op (st : FoldState) (fo : string * FieldOp) : option FoldState :=
  let '(field, op) := fo in
  match op with
  | FSet v => offer_field st field (Some v)
  | FEdit add remove =>
      st ← foldm (λ st element, add_to st field element) st add;
      foldm (λ st er, foldm (λ st tag, remove_from st field er.1 tag) st er.2) st remove
  | FInc n => inc_field st field n
  | FMap entries => foldm (λ st kv, set_entry st field kv.1 kv.2) st entries
  end.

Definition fold_patch (create : bool) (ops : list (string * FieldOp)) (st : FoldState) :
    option FoldState :=
  let m := note (fs_meta st) at_ in
  let m := if create then note_create m at_ else m in
  foldm fold_field_op (mkFold (note_patch m at_) (fs_fields st) (fs_regs st)) ops.

Definition fold_legacy_field (state : list (Value * Value)) (st : FoldState) (field : FieldSpec) :
    option FoldState :=
  let value := entry (f_name field) state in
  match f_crdt field with
  | Register | Derived | Counter => offer_field st (f_name field) value
  | OrSet =>
      foldm (λ st element, add_to st (f_name field) element) st
        (default [] (value ≫= as_array))
  | Map =>
      foldm (λ st kv, match as_text kv.1 with
                      | Some k => set_entry st (f_name field) k kv.2
                      | None => Some st
                      end) st (default [] (value ≫= as_map))
  | Nested =>
      let inner := default [] (value ≫= as_map) in
      let sub := record e (f_value_type field) in
      let sub_fields := match sub with Some s => r_fields s | None => [] end in
      st ← foldm (λ st sf, offer_field st (f_name field ++ "." ++ f_name sf)%string
                             (entry (f_name sf) inner)) st sub_fields;
      foldm (λ st kv,
        match as_text kv.1 with
        | None => Some st
        | Some k =>
            if match sub with Some s => has_field s k | None => false end then Some st
            else offer_field st (f_name field ++ "." ++ k)%string (Some kv.2)
        end) st inner
  end.

Definition fold_legacy (state : list (Value * Value)) (st : FoldState) : option FoldState :=
  let m := note_create (note (fs_meta st) at_) at_ in
  let raises := match mt_legacy m with None => true | Some l => bool_decide (l ≺ at_) end in
  let st1 :=
    if raises then
      let '(db, regs) := prune_below_floor (fs_fields st) at_ (fs_regs st) in
      mkFold (set_legacy m at_) db regs
    else mkFold m (fs_fields st) (fs_regs st) in
  match head (e_records e) with
  | None => Some st1
  | Some r =>
      st2 ← foldm (fold_legacy_field state) st1 (r_fields r);
      foldm (λ st kv,
        match as_text kv.1 with
        | None => Some st
        | Some k =>
            if bool_decide (k = FULL_STATE_GROUP_KEY) || has_field r k then Some st
            else offer_field st k (Some kv.2)
        end) st2 state
  end.
End one_op.

(** The version an op is admitted as, and the field ops of a patch. *)
Definition patch_version (d : DOp) (p : PatchPayload) (ops : list (string * FieldOp)) : Version :=
  mkVersion (d_at d) Patch (if is_generated p then GENERATED else USER) (p_create p) (p_parents p)
    (p_group p) (list_to_set ops.*1).

Definition legacy_version (d : DOp) (inner_kind : string) (state : list (Value * Value)) : Version :=
  mkVersion (d_at d) Legacy (legacy_origin inner_kind state) (ends_with ".create" inner_kind) None
    (d_group d) (legacy_fields e state).

Definition registers_after (t : VTables) (db : RegTables) (m : Meta) (admitted : Admission) :
    Registers :=
  let regs := load db (mt_legacy m) in
  if refined admitted then refilter t regs else regs.

(** Admit [v], then fold the op's writes with [body] and write back. *)
Definition fold_version (en : Entity) (v : Version)
    (body : VTables → FoldState → option FoldState) : option Entity :=
  let m := default (fresh (v_at v)) (en_meta en) in
  let '(t, admitted) := admit_version (en_versions en) v in
  st ← body t (mkFold m (en_fields en) (registers_after t (en_registers en) m admitted));
  Some (mkEntity (Some (fs_meta st)) t (flush e (fs_regs st) (en_registers en)) (fs_fields st)).

Definition merge_op_inner (en : Entity) (d : DOp) : option Entity :=
  match d_inner d with
  | OpPatch p =>
      match check_patch value_fits p with
      | Err _ => Some en
      | Ok ops =>
          let v := patch_version d p ops in
          fold_version en v (λ t, fold_patch t (d_at d) (v_origin v) (p_create p) ops)
      end
  | OpLegacy inner_kind state =>
      let v := legacy_version d inner_kind state in
      fold_version en v (λ t, fold_legacy t (d_at d) (v_origin v) state)
  end.

(** A delivery: ops folded one transaction at a time. *)
Definition merge_all (en : Entity) (l : list DOp) : option Entity := foldm merge_op_inner en l.
End fold.

(** ** An op as a list of writes *)

Inductive Write :=
  | WReg (field : string) (value : option Value)
  | WAdd (field : string) (element : Value)
  | WRemove (field : string) (element : Value) (tag : OpRef)
  | WEntry (field k : string) (value : Value)
  | WInc (field : string) (n : Z).

Section writes.
Context `{Ciborium} (e : EntitySpec).

Definition field_op_writes (fo : string * FieldOp) : list Write :=
  let '(field, op) := fo in
  match op with
  | FSet v => [WReg field (Some v)]
  | FEdit add remove =>
      (WAdd field <$> add) ++ (remove ≫= λ er, WRemove field er.1 <$> er.2)
  | FInc n => [WInc field n]
  | FMap entries => (λ kv, WEntry field kv.1 kv.2) <$> entries
  end.

Definition legacy_field_writes (state : list (Value * Value)) (field : FieldSpec) : list Write :=
  let value := entry (f_name field) state in
  match f_crdt field with
  | Register | Derived | Counter => [WReg (f_name field) value]
  | OrSet => WAdd (f_name field) <$> default [] (value ≫= as_array)
  | Map =>
      omap (λ kv, (λ k, WEntry (f_name field) k kv.2) <$> as_text kv.1)
        (default [] (value ≫= as_map))
  | Nested =>
      let inner := default [] (value ≫= as_map) in
      let sub := record e (f_value_type field) in
      let sub_fields := match sub with Some s => r_fields s | None => [] end in
      ((λ sf, WReg (f_name field ++ "." ++ f_name sf)%string (entry (f_name sf) inner)) <$> sub_fields)
      ++ omap (λ kv,
           k ← as_text kv.1;
           if match sub with Some s => has_field s k | None => false end then None
           else Some (WReg (f_name field ++ "." ++ k)%string (Some kv.2))) inner
  end.

Definition legacy_writes (state : list (Value * Value)) : list Write :=
  match head (e_records e) with
  | None => []
  | Some r =>
      (r_fields r ≫= legacy_field_writes state)
      ++ omap (λ kv,
           k ← as_text kv.1;
           if bool_decide (k = FULL_STATE_GROUP_KEY) || has_field r k then None
           else Some (WReg k (Some kv.2))) state
  end.

Section apply.
Context (t : VTables) (at_ : Stamp) (origin : string).

Definition apply_write (st : FoldState) (w : Write) : option FoldState :=
  match w with
  | WReg field value => offer_field t at_ origin st field value
  | WAdd field element => add_to at_ st field element
  | WRemove field element tag => remove_from st field element tag
  | WEntry field k value => set_entry at_ origin st field k value
  | WInc field n => inc_field at_ st field n
  end.

Lemma foldm_omap {A} (g : A → option Write) (f : FoldState → A → option FoldState) st l :
  (∀ st x, f st x = match g x with Some w => apply_write st w | None => Some st end) →
  foldm f st l = foldm apply_write st (omap g l).
Proof.
  intros Hf. revert st. induction l as [|x l IH]; intros st; simpl; [done|].
  rewrite Hf. destruct (g x) as [w|]; simpl; [|apply IH].
  by destruct (apply_write st w); simpl; [apply IH|].
Qed.

Lemma fold_field_op_writes st fo :
  fold_field_op t at_ origin st fo = foldm apply_write st (field_op_writes fo).
Proof.
  destruct fo as [field [v|add remove|n|entries]]; simpl.
  - by destruct (offer_field _ _ _ _ _ _).
  - rewrite foldm_app, foldm_fmap. simpl. destruct (foldm _ st add) as [st'|]; [|done]. simpl.
    rewrite foldm_bind. apply foldm_ext. intros b er _. by rewrite foldm_fmap.
  - done.
  - by rewrite foldm_fmap.
Qed.

Lemma fold_legacy_field_writes state st field :
  fold_legacy_field e t at_ origin state st field = foldm apply_write st (legacy_field_writes state field).
Proof.
  unfold fold_legacy_field, legacy_field_writes. destruct (f_crdt field).
  1,4,6: simpl; by destruct (offer_field _ _ _ _ _ _).
  - apply foldm_omap. intros st' [k v]; simpl. by destruct (as_text k).
  - by rewrite foldm_fmap.
  - rewrite foldm_app, foldm_fmap. simpl. destruct (foldm _ st _) as [st'|]; [|done]. simpl.
    apply foldm_omap. intros st2 [k v]; simpl. destruct (as_text k); simpl; [|done]. by case_match.
Qed.

Lemma fold_patch_writes create ops st :
  fold_patch t at_ origin create ops st =
  foldm apply_write
    (mkFold (note_patch (let m := note (fs_meta st) at_ in if create then note_create m at_ else m) at_)
       (fs_fields st) (fs_regs st)) (ops ≫= field_op_writes).
Proof.
  unfold fold_patch. rewrite foldm_bind. apply foldm_ext. intros b fo _. apply fold_field_op_writes.
Qed.

(** The state a full-state op's writes are folded from: the floor raised. *)
Definition legacy_start (st : FoldState) : FoldState :=
  let m := note_create (note (fs_meta st) at_) at_ in
  let raises := match mt_legacy m with None => true | Some l => bool_decide (l ≺ at_) end in
  if raises then
    mkFold (set_legacy m at_) (prune_tables (fs_fields st) at_) (raise_floor (fs_regs st) at_)
  else mkFold m (fs_fields st) (fs_regs st).

Lemma fold_legacy_writes state st :
  fold_legacy e t at_ origin state st = foldm apply_write (legacy_start st) (legacy_writes state).
Proof.
  unfold fold_legacy, legacy_writes. fold (legacy_start st).
  transitivity (match head (e_records e) with
    | None => Some (legacy_start st)
    | Some r =>
      st2 ← foldm (fold_legacy_field e t at_ origin state) (legacy_start st) (r_fields r);
      foldm (λ st kv,
        match as_text kv.1 with
        | None => Some st
        | Some k =>
            if bool_decide (k = FULL_STATE_GROUP_KEY) || has_field r k then Some st
            else offer_field t at_ origin st k (Some kv.2)
        end) st2 state
    end).
  { unfold legacy_start. by case_match. }
  destruct (head (e_records e)) as [r|]; [|done].
  rewrite foldm_app, foldm_bind.
  rewrite (foldm_ext (fold_legacy_field e t at_ origin state) (λ st fd, foldm apply_write st (legacy_field_writes state fd)))
    by (intros; apply fold_legacy_field_writes).
  destruct (foldm _ _ (r_fields r)) as [st2|]; [|done]. simpl.
  apply foldm_omap. intros st3 [k v]; simpl. destruct (as_text k); simpl; [|done]. by case_match.
Qed.
End apply.
End writes.
