(* ===== verification/Convergence.v ===== *)
(** * Strong eventual consistency of one entity

    What the merge tables hold as a function of the set of ops folded, in any
    order and with any duplicates (the contract merge/mod.rs states), and the
    theorems read off it: convergence, idempotence, the register, OR-set,
    counter and map rules, and the last-writer-wins reading of a history of
    full-state ops. *)

From Stdlib Require Import ZArith Lia String.
From stdpp Require Import base tactics decidable countable option list strings gmap relations.
From S2P Require Import Prelude Bytes Cbor Hlc Registry Stamp Versions Patch Registers FieldState Fold.
Open Scope Z_scope.

(** ** An op, as the fold sees it *)

Record Eff := mkEff {
  ef_version : Version;
  ef_legacy : bool;
  ef_creates : bool;
  ef_writes : list Write;
}.
Definition at_of (a : Eff) : Stamp := v_at (ef_version a).
Definition origin_of (a : Eff) : string := v_origin (ef_version a).

Section eff.
Context `{Ciborium} (value_fits : EntityKind.t → string → Value → bool) (e : EntitySpec).

(** [None] for a patch [check_patch] refuses, which folds nothing. *)
Definition eff (d : DOp) : option Eff :=
  match d_inner d with
  | OpPatch p =>
      match check_patch value_fits p with
      | Err _ => None
      | Ok ops => Some (mkEff (patch_version d p ops) false (p_create p) (ops ≫= field_op_writes))
      end
  | OpLegacy inner_kind state =>
      Some (mkEff (legacy_version e d inner_kind state) true true (legacy_writes e state))
  end.

(** The state an op's writes are folded from. *)
Definition start (a : Eff) (st : FoldState) : FoldState :=
  if ef_legacy a then legacy_start (at_of a) st
  else
    let m := note (fs_meta st) (at_of a) in
    mkFold (note_patch (if ef_creates a then note_create m (at_of a) else m) (at_of a))
      (fs_fields st) (fs_regs st).

Definition fold_eff (en : Entity) (a : Eff) : option Entity :=
  fold_version e en (ef_version a)
    (λ t st, foldm (apply_write t (at_of a) (origin_of a)) (start a st) (ef_writes a)).

Lemma merge_op_eff en d :
  merge_op_inner value_fits e en d = match eff d with Some a => fold_eff en a | None => Some en end.
Proof.
  unfold merge_op_inner, eff, fold_eff, fold_version. destruct (d_inner d) as [p|kd state].
  - destruct (check_patch value_fits p) as [ops|]; [|done]. cbn [ef_version].
    destruct (admit_version _ _) as [t adm]. by rewrite fold_patch_writes.
  - cbn [ef_version]. destruct (admit_version _ _) as [t adm]. by rewrite fold_legacy_writes.
Qed.

Lemma merge_all_eff en l : merge_all value_fits e en l = foldm fold_eff en (omap eff l).
Proof.
  revert en. induction l as [|d l IH]; intros en; [done|]. unfold merge_all in *. simpl.
  rewrite merge_op_eff. destruct (eff d) as [a|]; simpl; [|apply IH].
  destruct (fold_eff en a); simpl; [apply IH|done].
Qed.
End eff.

(** ** One op's writes on the field tables *)

Definition entry_of (f k : string) (w : Write) : option Value :=
  match w with
  | WEntry f' k' v => if decide (f' = f ∧ k' = k) then Some v else None
  | _ => None
  end.
Definition reg_of (f : string) (w : Write) : option (option Value) :=
  match w with WReg f' v => if decide (f' = f) then Some v else None | _ => None end.
Definition inc_of (f : string) (w : Write) : option Z :=
  match w with WInc f' n => if decide (f' = f) then Some n else None | _ => None end.

(** The last value an op writes at a map key; the first it writes to a
    register; the first delta it makes. *)
Definition last_entry (ws : list Write) (f k : string) : option Value := last (omap (entry_of f k) ws).
Definition first_reg (ws : list Write) (f : string) : option (option Value) := head (omap (reg_of f) ws).
Definition first_inc (ws : list Write) (f : string) : option Z := head (omap (inc_of f) ws).

Section one_op.
Context `{Ciborium}.

Definition adds_el (ws : list Write) (f : string) (el : bytes) : Prop :=
  ∃ v, WAdd f v ∈ ws ∧ enc v = Some el.
Definition removes_el (ws : list Write) (f : string) (el : bytes) (tag : OpRef) : Prop :=
  ∃ v, WRemove f v tag ∈ ws ∧ enc v = Some el.

Definition encodable_write (w : Write) : Prop :=
  match w with
  | WReg _ None | WInc _ _ => True
  | WReg _ (Some v) | WAdd _ v | WRemove _ v _ | WEntry _ _ v => is_Some (enc v)
  end.

(** What one op stamped [at_] makes of the field tables [db]. *)
Definition fields_after (at_ : Stamp) (origin : string) (floor : option Stamp) (ws : list Write)
    (db db' : FieldTables) : Prop :=
  (∀ f k, map_entries db' !! (f, k) =
     match last_entry ws f k with
     | None => map_entries db !! (f, k)
     | Some v =>
         match map_entries db !! (f, k) with
         | Some held => if decide (me_at held ≼ at_) then
                          (λ b, mkMapEntry b at_ origin) <$> enc v else Some held
         | None => (λ b, mkMapEntry b at_ origin) <$> enc v
         end
     end) ∧
  (∀ f el tag h, orset_adds db' !! (f, el, tag) = Some h ↔
     orset_adds db !! (f, el, tag) = Some h ∨
     (orset_adds db !! (f, el, tag) = None ∧ tag = op_ref at_ ∧ h = s_hlc at_ ∧
      below_floor floor at_ = false ∧ adds_el ws f el)) ∧
  (∀ f el tag, (f, el, tag) ∈ orset_removes db' ↔
     (f, el, tag) ∈ orset_removes db ∨ removes_el ws f el tag) ∧
  (∀ (f : string) (op : OpRef), counter_deltas db' !! (f, op) =
     match counter_deltas db !! (f, op) with
     | Some x => Some x
     | None => if decide (op = op_ref at_ ∧ at_or_below_floor floor at_ = false)
               then (λ n, (s_hlc at_, n)) <$> first_inc ws f else None
     end).

Lemma fields_after_nil at_ origin floor db : fields_after at_ origin floor [] db db.
Proof.
  split_and!.
  - done.
  - intros f el tag h. split; [by left|]. intros [?|(_ & _ & _ & _ & v & ?%not_elem_of_nil & _)]; done.
  - intros f el tag. split; [by left|]. by intros [?|(v & ?%not_elem_of_nil & _)].
  - intros f op. destruct (counter_deltas db !! (f, op)); [done|]. by case_decide.
Qed.

Lemma last_entry_snoc ws w f k :
  last_entry (ws ++ [w]) f k =
  match entry_of f k w with Some v => Some v | None => last_entry ws f k end.
Proof.
  unfold last_entry. rewrite omap_app. simpl. destruct (entry_of f k w); simpl.
  - by rewrite last_snoc.
  - by rewrite app_nil_r.
Qed.
Lemma head_omap_snoc {A} (g : Write → option A) ws w :
  head (omap g (ws ++ [w])) = match head (omap g ws) with Some v => Some v | None => g w end.
Proof. rewrite omap_app. simpl. by destruct (omap g ws), (g w). Qed.

Lemma adds_el_snoc ws w f el :
  adds_el (ws ++ [w]) f el ↔ adds_el ws f el ∨ ∃ v, w = WAdd f v ∧ enc v = Some el.
Proof.
  unfold adds_el. setoid_rewrite elem_of_app. setoid_rewrite list_elem_of_singleton. split.
  - intros (v & [Hv|<-] & He); [left|right]; eauto.
  - intros [(v & Hv & He)|(v & -> & He)]; eauto.
Qed.
Lemma removes_el_snoc ws w f el tag :
  removes_el (ws ++ [w]) f el tag ↔ removes_el ws f el tag ∨ ∃ v, w = WRemove f v tag ∧ enc v = Some el.
Proof.
  unfold removes_el. setoid_rewrite elem_of_app. setoid_rewrite list_elem_of_singleton. split.
  - intros (v & [Hv|<-] & He); [left|right]; eauto.
  - intros [(v & Hv & He)|(v & -> & He)]; eauto.
Qed.

Lemma adds_el_other ws w f el : (∀ v, w ≠ WAdd f v) → adds_el (ws ++ [w]) f el ↔ adds_el ws f el.
Proof.
  intros Hw. rewrite adds_el_snoc. split; [|by left]. intros [?|(v & Hv & _)]; [done|by destruct (Hw v)].
Qed.
Lemma removes_el_other ws w f el tag :
  (∀ v, w ≠ WRemove f v tag) → removes_el (ws ++ [w]) f el tag ↔ removes_el ws f el tag.
Proof.
  intros Hw. rewrite removes_el_snoc. split; [|by left].
  intros [?|(v & Hv & _)]; [done|by destruct (Hw v)].
Qed.

(** A write that touches none of the four tables' parts in question. *)
Lemma fields_after_other at_ origin floor ws db db' w :
  (∀ f k, entry_of f k w = None) → (∀ f v, w ≠ WAdd f v) → (∀ f v tag, w ≠ WRemove f v tag) →
  (∀ f, inc_of f w = None) →
  fields_after at_ origin floor ws db db' → fields_after at_ origin floor (ws ++ [w]) db db'.
Proof.
  intros H1 H2 H3 H4 (HM & HA & HR & HD). split_and!.
  - intros f k. by rewrite last_entry_snoc, H1.
  - intros f el tag h. by rewrite HA, adds_el_other.
  - intros f el tag. by rewrite HR, removes_el_other.
  - intros f op. rewrite HD. unfold first_inc. rewrite head_omap_snoc, H4. by destruct (head _).
Qed.

Lemma fields_after_entry at_ origin floor ws db db' f k v b :
  fields_after at_ origin floor ws db db' → enc v = Some b →
  ∃ db2, write_map_entry db' f k v at_ origin = Some db2 ∧
    fields_after at_ origin floor (ws ++ [WEntry f k v]) db db2.
Proof.
  intros (HM & HA & HR & HD) Hb. unfold write_map_entry.
  set (refused := match map_entries db' !! (f, k) with Some held => _ | None => false end).
  assert (refused = match map_entries db !! (f, k) with
                    | Some held => negb (bool_decide (me_at held ≼ at_)) | None => false end) as Hrf.
  { subst refused. rewrite HM.
    assert (∀ held, negb (replaces at_ (me_at held)) = negb (bool_decide (me_at held ≼ at_))) as Hrep.
    { intros held. f_equal. apply eq_iff_eq_true. by rewrite replaces_iff, bool_decide_eq_true. }
    assert (replaces at_ at_ = true) as Hself by (apply replaces_iff, tle_refl).
    destruct (last_entry ws f k) as [v'|] eqn:El.
    - destruct (map_entries db !! (f, k)) as [held|];
        [destruct (decide (me_at held ≼ at_)) as [Hle|Hle]|].
      + rewrite bool_decide_true by done. destruct (enc v'); simpl; [by rewrite Hself|done].
      + by rewrite Hrep, bool_decide_false.
      + destruct (enc v'); simpl; [by rewrite Hself|done].
    - destruct (map_entries db !! (f, k)) as [held|]; [by rewrite Hrep|done]. }
  rewrite Hrf, Hb. clearbody refused.
  assert (∀ db2, (∀ f' k', map_entries db2 !! (f', k') =
      if decide (f = f' ∧ k = k') then
        match map_entries db !! (f, k) with
        | Some held => if decide (me_at held ≼ at_) then Some (mkMapEntry b at_ origin) else Some held
        | None => Some (mkMapEntry b at_ origin) end
      else map_entries db' !! (f', k')) →
    orset_adds db2 = orset_adds db' → orset_removes db2 = orset_removes db' →
    counter_deltas db2 = counter_deltas db' →
    fields_after at_ origin floor (ws ++ [WEntry f k v]) db db2) as Hdone.
  { intros db2 H1 H2 H3 H4. split_and!.
    - intros f' k'. rewrite H1, last_entry_snoc. simpl.
      destruct (decide (f = f' ∧ k = k')) as [[<- <-]|Hd].
      + by rewrite Hb.
      + apply HM.
    - intros f' el tag h. by rewrite H2, HA, adds_el_other.
    - intros f' el tag. by rewrite H3, HR, removes_el_other.
    - intros f' op. rewrite H4, HD. unfold first_inc. rewrite head_omap_snoc. simpl.
      by destruct (head _). }
  destruct (map_entries db !! (f, k)) as [held|] eqn:E; [case_bool_decide as Hle|]; simpl.
  - eexists. split; [done|]. apply Hdone; [|done..]. intros f' k'. simpl.
    destruct (decide (f = f' ∧ k = k')) as [[<- <-]|Hd].
    + rewrite lookup_insert_eq. by rewrite decide_True.
    + rewrite lookup_insert_ne; [done|]. intros [= -> ->]. by apply Hd.
  - eexists. split; [done|]. apply Hdone; [|done..]. intros f' k'.
    destruct (decide (f = f' ∧ k = k')) as [[<- <-]|Hd]; [|done].
    rewrite HM, E. destruct (last_entry ws f k); by rewrite !decide_False by done.
  - eexists. split; [done|]. apply Hdone; [|done..]. intros f' k'. simpl.
    destruct (decide (f = f' ∧ k = k')) as [[<- <-]|Hd].
    + by rewrite lookup_insert_eq.
    + rewrite lookup_insert_ne; [done|]. intros [= -> ->]. by apply Hd.
Qed.

Lemma insert_new_Some {K V} `{Countable K} (k : K) (v : V) (m : gmap K V) k' x :
  insert_new k v m !! k' = Some x ↔ m !! k' = Some x ∨ (m !! k' = None ∧ k' = k ∧ x = v).
Proof.
  unfold insert_new. destruct (m !! k) as [y|] eqn:E.
  - split; [by left|]. intros [?|(Hn & -> & _)]; [done|congruence].
  - rewrite lookup_insert_Some. split.
    + intros [[<- <-]|[_ ?]]; [by right|by left].
    + intros [Hm|(_ & -> & ->)]; [|by left]. right. split; [congruence|done].
Qed.

Lemma fields_after_add at_ origin floor ws db db' f v b :
  fields_after at_ origin floor ws db db' → enc v = Some b →
  ∃ db2, add_element db' f v at_ floor = Some db2 ∧
    fields_after at_ origin floor (ws ++ [WAdd f v]) db db2.
Proof.
  intros (HM & HA & HR & HD) Hb. unfold add_element. rewrite Hb. simpl.
  destruct (below_floor floor at_) eqn:Hfl; (eexists; split; [done|]); split_and!; simpl.
  1,5: intros f' k'; by rewrite HM, last_entry_snoc.
  2,5: intros f' el tag; by rewrite HR, removes_el_other.
  2,4: intros f' op; rewrite HD; unfold first_inc; rewrite head_omap_snoc; simpl; by destruct (head _).
  - intros f' el tag h. rewrite HA.
    split; (intros [?|(_ & _ & _ & Hf & _)]; [by left|congruence]).
  - intros f' el tag h. rewrite insert_new_Some, adds_el_snoc.
    split.
    + intros [[Hx|(? & ? & ? & ? & ?)]%HA|(Hno & Hk & ->)]; [by left|right; split_and!; auto|].
      injection Hk as -> -> ->. right. split_and!; try done; [|right; eauto].
      destruct (orset_adds db !! (f, b, op_ref at_)) as [x|] eqn:E; [|done].
      assert (orset_adds db' !! (f, b, op_ref at_) = Some x) by (apply HA; by left). congruence.
    + intros [?|(Hno & -> & -> & _ & [Hel|(v' & [= -> ->] & He)])].
      * left. apply HA. by left.
      * left. apply HA. right. by split_and!.
      * assert (el = b) as -> by congruence.
        destruct (orset_adds db' !! (f', b, op_ref at_)) as [x|] eqn:E; [left|by right].
        apply HA in E as [E|(_ & _ & -> & _)]; [congruence|done].
Qed.

Lemma fields_after_remove at_ origin floor ws db db' f v tag b :
  fields_after at_ origin floor ws db db' → enc v = Some b →
  ∃ db2, remove_element db' f v tag = Some db2 ∧
    fields_after at_ origin floor (ws ++ [WRemove f v tag]) db db2.
Proof.
  intros (HM & HA & HR & HD) Hb. unfold remove_element. rewrite Hb. simpl.
  eexists. split; [done|]. split_and!; simpl.
  - intros f' k'. by rewrite HM, last_entry_snoc.
  - intros f' el tag' h. by rewrite HA, adds_el_other.
  - intros f' el tag'. rewrite elem_of_union, elem_of_singleton, HR, removes_el_snoc. split.
    + intros [[= -> -> ->]|[?|?]]; [right; right; eauto|by left|by right; left].
    + intros [?|[?|(v' & [= -> -> ->] & He)]]; [by right; left|by right; right|].
      left. congruence.
  - intros f' op. rewrite HD. unfold first_inc. rewrite head_omap_snoc. simpl. by destruct (head _).
Qed.

Lemma lookup_insert_new {K V} `{Countable K} (k : K) (v : V) (m : gmap K V) k' :
  insert_new k v m !! k' =
  match m !! k' with Some x => Some x | None => if decide (k' = k) then Some v else None end.
Proof.
  unfold insert_new. destruct (m !! k) as [y|] eqn:E.
  - destruct (m !! k') eqn:E'; [done|]. rewrite decide_False; [done|]. by intros ->; congruence.
  - destruct (decide (k' = k)) as [->|]; [by rewrite lookup_insert_eq, E|].
    rewrite lookup_insert_ne by done. by destruct (m !! k').
Qed.

Lemma fields_after_inc at_ origin floor ws db db' f n :
  fields_after at_ origin floor ws db db' →
  fields_after at_ origin floor (ws ++ [WInc f n]) db (add_delta db' f n at_ floor).
Proof.
  intros (HM & HA & HR & HD). unfold add_delta.
  assert (∀ db2, map_entries db2 = map_entries db' → orset_adds db2 = orset_adds db' →
    orset_removes db2 = orset_removes db' →
    (∀ (f' : string) (op : OpRef), counter_deltas db2 !! (f', op) =
      match counter_deltas db !! (f', op) with
      | Some x => Some x
      | None => if decide (op = op_ref at_ ∧ at_or_below_floor floor at_ = false)
                then (λ m, (s_hlc at_, m)) <$> first_inc (ws ++ [WInc f n]) f' else None
      end) → fields_after at_ origin floor (ws ++ [WInc f n]) db db2) as Hdone.
  { intros db2 H1 H2 H3 H4. split_and!; [..|done].
    - intros f' k'. by rewrite H1, HM, last_entry_snoc.
    - intros f' el tag h. by rewrite H2, HA, adds_el_other.
    - intros f' el tag. by rewrite H3, HR, removes_el_other. }
  destruct (at_or_below_floor floor at_) eqn:Hfl; apply Hdone; try done; intros f' op; simpl.
  - rewrite HD. destruct (counter_deltas db !! _); [done|]. by rewrite !decide_False by (intros [_ ?]; congruence).
  - rewrite lookup_insert_new, HD. unfold first_inc. rewrite head_omap_snoc. simpl.
    destruct (counter_deltas db !! (f', op)) as [x|]; [done|].
    destruct (decide (op = op_ref at_ ∧ false = false)) as [[-> _]|Hno].
    + destruct (head (omap (inc_of f') ws)); simpl; [done|].
      destruct (decide (f = f')) as [<-|Hne]; [by rewrite decide_True|].
      rewrite decide_False; [done|]. congruence.
    + rewrite decide_False; [done|]. intros [= -> ->]. by apply Hno.
Qed.
End one_op.

(** ** One op's writes, end to end *)

Section fold_writes.
Context `{Ciborium} (t : VTables) (at_ : Stamp) (origin : string) (W : string → list Member).
Hypothesis Hok : versions_ok t.

(** The register write an op makes to [f]: the first it lists. *)
Definition written (ws : list Write) (f : string) : option Member :=
  (λ v, mkMember at_ (v ≫= enc) origin) <$> first_reg ws f.
Definition with_op (ws : list Write) (f : string) : list Member :=
  option_list (written ws f) ++ W f.

Lemma written_snoc ws w f :
  written (ws ++ [w]) f =
  match written ws f with
  | Some m => Some m
  | None => (λ v, mkMember at_ (v ≫= enc) origin) <$> reg_of f w
  end.
Proof. unfold written, first_reg. rewrite head_omap_snoc. by destruct (head _). Qed.

Lemma with_op_mono ws w f m : m ∈ with_op ws f → m ∈ with_op (ws ++ [w]) f.
Proof.
  unfold with_op. rewrite !elem_of_app, !option_list_elem, written_snoc.
  intros [Hm|Hm]; [|by right]. left. by rewrite Hm.
Qed.

Lemma writes_ok_sub t' W1 W2 : (∀ f m, m ∈ W1 f → m ∈ W2 f) → writes_ok t' W2 → writes_ok t' W1.
Proof.
  intros Hsub HW f. destruct (HW f) as [Ha Hi]. split; [auto|]. intros m n Hm Hn. apply Hi; auto.
Qed.

Lemma reg_ok_ext W1 W2 r : (∀ f m, m ∈ W1 f ↔ m ∈ W2 f) → reg_ok t W1 r → reg_ok t W2 r.
Proof.
  intros Hext Hr f. eapply maxset_ext; [..|apply (Hr f)]; [|done].
  intros m. unfold cands. by rewrite !list_elem_of_filter, Hext.
Qed.

Definition regs_after (ws : list Write) (r r' : Registers) : Prop :=
  reg_ok t (with_op ws) r' ∧ clean r' ∧ rg_floor r' = rg_floor r ∧ rg_held r' = rg_held r.

Lemma offer_step ws r r1 f v :
  writes_ok t (with_op (ws ++ [WReg f v])) → encodable_write (WReg f v) →
  regs_after ws r r1 →
  ∃ r2, offer t r1 f v at_ origin = Some r2 ∧ regs_after (ws ++ [WReg f v]) r r2.
Proof.
  intros HW Henc (Hr & Hclean & Hfl & Hheld).
  destruct (written ws f) as [m|] eqn:Em.
  - destruct (offer_again t r1 (with_op ws) f v at_ origin m) as (r2 & Ho & Hr2 & Hc2 & Hf2 & Hh2);
      [done| |done|done| | |].
    + eapply writes_ok_sub; [|exact HW]. intros g x. apply with_op_mono.
    + unfold with_op. apply elem_of_app. left. by apply option_list_elem.
    + unfold written in Em. apply fmap_Some in Em as (x & _ & ->). done.
    + exists r2. split; [done|]. split_and!; [|done|congruence|congruence].
      eapply reg_ok_ext; [|exact Hr2]. intros g x. unfold with_op. rewrite written_snoc. simpl.
      destruct (written ws g) eqn:Eg; [done|]. rewrite decide_False by congruence. done.
  - assert (∀ g, with_op (ws ++ [WReg f v]) g =
              add_write (with_op ws) f (mkMember at_ (v ≫= enc) origin) g) as Hadd.
    { intros g. unfold with_op, add_write. rewrite written_snoc. simpl.
      destruct (decide (g = f)) as [->|Hne].
      - rewrite Em, decide_True by done. done.
      - rewrite (decide_False (P := f = g)) by congruence. by destruct (written ws g). }
    destruct (offer_ok t r1 (with_op ws) f v at_ origin (v ≫= enc)) as (r2 & Ho & Hr2 & Hc2 & Hf2 & Hh2);
      [done| | |done|done|].
    + eapply writes_ok_sub; [|exact HW]. intros g x. by rewrite Hadd.
    + destruct v as [v|]; [|done]. simpl in *. by destruct Henc as [b ->].
    + exists r2. split; [done|]. split_and!; [|done|congruence|congruence].
      eapply reg_ok_ext; [|exact Hr2]. intros g x. by rewrite Hadd.
Qed.

Lemma fold_writes_ok ws st :
  writes_ok t (with_op ws) → Forall encodable_write ws →
  mt_legacy (fs_meta st) = rg_floor (fs_regs st) → reg_ok t W (fs_regs st) → clean (fs_regs st) →
  ∃ st', foldm (apply_write t at_ origin) st ws = Some st' ∧ fs_meta st' = fs_meta st ∧
    fields_after at_ origin (mt_legacy (fs_meta st)) ws (fs_fields st) (fs_fields st') ∧
    regs_after ws (fs_regs st) (fs_regs st').
Proof.
  intros HW Henc Hfl Hr Hclean. revert HW Henc. induction ws as [|w ws IH] using rev_ind; intros HW Henc.
  { exists st. split_and!; try done. apply fields_after_nil. }
  apply Forall_app in Henc as [Henc Hw]. rewrite Forall_singleton in Hw.
  destruct IH as (st1 & Hst1 & Hm1 & Hf1 & Hr1); [|done|].
  { eapply writes_ok_sub; [|exact HW]. intros g x. apply with_op_mono. }
  rewrite foldm_app, Hst1. simpl.
  assert (∀ g : Write → Prop, (∀ f, reg_of f w = None) → regs_after (ws ++ [w]) (fs_regs st) (fs_regs st1)) as Hsame.
  { intros _ Hno. destruct Hr1 as (R1 & R2 & R3 & R4). split_and!; [|done..].
    eapply reg_ok_ext; [|exact R1]. intros f m. unfold with_op. rewrite written_snoc, Hno.
    by destruct (written ws f). }
  specialize (Hsame (λ _, True)).
  assert (∀ db, fields_after at_ origin (mt_legacy (fs_meta st)) (ws ++ [w]) (fs_fields st) db →
    (∀ f, reg_of f w = None) →
    ∃ st', (b' ← Some (mkFold (fs_meta st) db (fs_regs st1)); Some b') = Some st' ∧
      fs_meta st' = fs_meta st ∧
      fields_after at_ origin (mt_legacy (fs_meta st)) (ws ++ [w]) (fs_fields st) (fs_fields st') ∧
      regs_after (ws ++ [w]) (fs_regs st) (fs_regs st')) as Hdb.
  { intros db Hdb Hno. eexists. split; [done|]. simpl. split_and!; [done|done|]. by apply Hsame. }
  destruct w as [f v|f v|f v tag|f k v|f n]; simpl in *.
  - destruct (offer_step ws (fs_regs st) (fs_regs st1) f v HW Hw Hr1) as (r2 & Ho & Hr2).
    unfold offer_field. rewrite Ho. simpl. eexists. split; [done|]. simpl. split_and!; [done| |done].
    apply fields_after_other; [done..|]. exact Hf1.
  - destruct Hw as [b Hb]. destruct (fields_after_add _ _ _ _ _ _ f v b Hf1 Hb) as (db & Hdb1 & Hdb2).
    unfold add_to, with_fields. rewrite !Hm1, Hdb1. by apply Hdb.
  - destruct Hw as [b Hb]. destruct (fields_after_remove _ _ _ _ _ _ f v tag b Hf1 Hb) as (db & Hdb1 & Hdb2).
    unfold remove_from, with_fields. rewrite !Hm1, Hdb1. by apply Hdb.
  - destruct Hw as [b Hb]. destruct (fields_after_entry _ _ _ _ _ _ f k v b Hf1 Hb) as (db & Hdb1 & Hdb2).
    unfold set_entry, with_fields. rewrite !Hm1, Hdb1. by apply Hdb.
  - unfold inc_field, with_fields. rewrite Hm1. apply Hdb; [|done].
    by apply (fields_after_inc at_ origin).
Qed.
End fold_writes.

(** ** What the tables hold, as a function of the ops *)

(** The least of a list of stamps. *)
Definition least (l : list Stamp) : option Stamp :=
  foldr (λ s acc, Some (match acc with None => s | Some m => cmin m s end)) None l.
Definition max_ms (l : list Z) : option Z :=
  foldr (λ x acc, Some (match acc with None => x | Some m => Z.max m x end)) None l.

Section spec.
Context `{Ciborium} (e : EntitySpec).
Implicit Types (L : list Eff) (a b : Eff).

(** The legacy floor: the greatest stamp of a full-state op. *)
Definition floor_of L : option Stamp := greatest (at_of <$> filter (λ a, ef_legacy a = true) L).

(** A full-state op always brings its entity into being. *)
Definition creates a : bool := ef_legacy a || ef_creates a.

Definition meta_of L : option Meta :=
  match greatest (at_of <$> L) with
  | None => None
  | Some h =>
      let creating := at_of <$> filter (λ a, creates a = true) L in
      Some (mkMeta (match least creating with Some _ => true | None => false end) (least creating) (floor_of L)
              (max_ms ((λ a, physical_ms (s_hlc (at_of a))) <$> filter (λ a, ef_legacy a = false) L)) h)
  end.

Definition write_of a (f : string) : option Member := written (at_of a) (origin_of a) (ef_writes a) f.

(** Every write to register [f]. *)
Definition all_writes L (f : string) : list Member := omap (λ a, write_of a f) L.

Definition map_spec L (f k : string) (o : option MapEntry) : Prop :=
  match o with
  | None => ∀ a, a ∈ L → last_entry (ef_writes a) f k = None
  | Some en => ∃ a v, a ∈ L ∧ last_entry (ef_writes a) f k = Some v ∧ enc v = Some (me_value en) ∧
      me_at en = at_of a ∧ me_origin en = origin_of a ∧
      ∀ b, b ∈ L → is_Some (last_entry (ef_writes b) f k) → at_of b ≼ at_of a
  end.

Definition add_spec L (floor : option Stamp) (f : string) (el : bytes) (tag : OpRef) (h : Hlc) : Prop :=
  ∃ a, a ∈ L ∧ adds_el (ef_writes a) f el ∧ tag = op_ref (at_of a) ∧ h = s_hlc (at_of a) ∧
       below_floor floor (at_of a) = false.

Definition remove_spec L (f : string) (el : bytes) (tag : OpRef) : Prop :=
  ∃ a, a ∈ L ∧ removes_el (ef_writes a) f el tag.

Definition delta_spec L (floor : option Stamp) (f : string) (op : OpRef) (x : Hlc * Z) : Prop :=
  ∃ a n, a ∈ L ∧ first_inc (ef_writes a) f = Some n ∧ op = op_ref (at_of a) ∧
         x = (s_hlc (at_of a), n) ∧ at_or_below_floor floor (at_of a) = false.

Definition fields_ok L (floor : option Stamp) (db : FieldTables) : Prop :=
  (∀ f k, map_spec L f k (map_entries db !! (f, k))) ∧
  (∀ f el tag h, orset_adds db !! (f, el, tag) = Some h ↔ add_spec L floor f el tag h) ∧
  (∀ f el tag, (f, el, tag) ∈ orset_removes db ↔ remove_spec L f el tag) ∧
  (∀ f op x, counter_deltas db !! (f, op) = Some x ↔ delta_spec L floor f op x).

Definition entity_ok L (en : Entity) : Prop :=
  en_meta en = meta_of L ∧
  versions_ok (en_versions en) ∧ versions_of (en_versions en) = history (ef_version <$> L) ∧
  stored e (en_versions en) (all_writes L) (floor_of L) (en_registers en) ∧
  fields_ok L (floor_of L) (en_fields en).

(** The ops folded come from one universe, in which an op-ref names one op,
    and every value they carry encodes. *)
Definition universe L : Prop :=
  (∀ a b, a ∈ L → b ∈ L → op_ref (at_of a) = op_ref (at_of b) → a = b) ∧
  (∀ a, a ∈ L → Forall encodable_write (ef_writes a)).

(** *** Facts about the universe *)

Lemma universe_sub L L' : (∀ a, a ∈ L' → a ∈ L) → universe L → universe L'.
Proof. intros Hsub [Hu He]. split; [intros a b Ha Hb; apply Hu; auto|intros a Ha; apply He; auto]. Qed.

Lemma universe_one L : universe L → one_universe (ef_version <$> L).
Proof.
  intros [Hu _] v w (a & -> & Ha)%list_elem_of_fmap (b & -> & Hb)%list_elem_of_fmap Heq.
  by rewrite (Hu a b Ha Hb Heq).
Qed.

Lemma applied_ops L s : universe L → applied (history (ef_version <$> L)) s ↔ ∃ a, a ∈ L ∧ at_of a = s.
Proof.
  intros Hu. rewrite applied_history by by apply universe_one. split.
  - intros (v & (a & -> & Ha)%list_elem_of_fmap & <-). by exists a.
  - intros (a & Ha & <-). exists (ef_version a). split; [by apply list_elem_of_fmap_2|done].
Qed.

Lemma elem_of_all_writes L f m : m ∈ all_writes L f ↔ ∃ a, a ∈ L ∧ write_of a f = Some m.
Proof. unfold all_writes. rewrite list_elem_of_omap. done. Qed.

Lemma write_of_at a f m : write_of a f = Some m → m_at m = at_of a.
Proof. unfold write_of, written. intros (v & _ & ->)%fmap_Some. done. Qed.

Lemma all_writes_ok t L :
  universe L → versions_of t = history (ef_version <$> L) → writes_ok t (all_writes L).
Proof.
  intros Hu Ht f. split.
  - intros m (a & Ha & Hm)%elem_of_all_writes. rewrite Ht. apply applied_ops; [done|].
    exists a. split; [done|]. symmetry. by eapply write_of_at.
  - intros m n (a & Ha & Hm)%elem_of_all_writes (b & Hb & Hn)%elem_of_all_writes Heq.
    assert (a = b) as ->; [|congruence]. apply Hu; [done..|].
    by rewrite <-(write_of_at _ _ _ Hm), <-(write_of_at _ _ _ Hn), Heq.
Qed.

(** *** The bookkeeping *)

Lemma filter_true_cons (g : Eff → bool) a L :
  filter (λ x, g x = true) (a :: L) =
  if g a then a :: filter (λ x, g x = true) L else filter (λ x, g x = true) L.
Proof. rewrite filter_cons. destruct (g a); [by rewrite decide_True|by rewrite decide_False]. Qed.
Lemma filter_false_cons (g : Eff → bool) a L :
  filter (λ x, g x = false) (a :: L) =
  if g a then filter (λ x, g x = false) L else a :: filter (λ x, g x = false) L.
Proof. rewrite filter_cons. destruct (g a); [by rewrite decide_False|by rewrite decide_True]. Qed.

Lemma floor_of_cons a L :
  floor_of (a :: L) =
  if ef_legacy a then Some (match floor_of L with None => at_of a | Some l => cmax (at_of a) l end)
  else floor_of L.
Proof. unfold floor_of. rewrite filter_true_cons. by destruct (ef_legacy a). Qed.

Lemma mt_legacy_meta a L : mt_legacy (default (fresh (at_of a)) (meta_of L)) = floor_of L.
Proof.
  unfold meta_of. destruct (greatest _) eqn:E; [done|]. apply greatest_None in E.
  by destruct L.
Qed.

Lemma meta_step a L st :
  fs_meta st = default (fresh (at_of a)) (meta_of L) →
  meta_of (a :: L) = Some (fs_meta (start a st)).
Proof.
  intros Hm. unfold meta_of at 1. rewrite floor_of_cons. cbn [fmap list_fmap greatest foldr].
  fold (greatest (at_of <$> L)). rewrite filter_true_cons, filter_false_cons.
  unfold start, legacy_start.
  assert (head_eq : (match greatest (at_of <$> L) with None => at_of a | Some m => cmax (at_of a) m end)
    = cmax (mt_head (default (fresh (at_of a)) (meta_of L))) (at_of a)).
  { unfold meta_of. destruct (greatest (at_of <$> L)); simpl; [apply cmax_comm|].
    unfold cmax. by case_decide. }
  assert (mt_patch_ms (default (fresh (at_of a)) (meta_of L)) =
    max_ms ((λ a, physical_ms (s_hlc (at_of a))) <$> filter (λ a, ef_legacy a = false) L)) as Hms.
  { unfold meta_of. destruct (greatest _) eqn:E; [done|]. apply greatest_None in E. by destruct L. }
  assert (mt_create (default (fresh (at_of a)) (meta_of L)) =
    least (at_of <$> filter (λ a, creates a = true) L)) as Hcr.
  { unfold meta_of. destruct (greatest _) eqn:E; [done|]. apply greatest_None in E. by destruct L. }
  assert (mt_created (default (fresh (at_of a)) (meta_of L)) =
    match least (at_of <$> filter (λ a, creates a = true) L) with Some _ => true | None => false end) as Hcd.
  { unfold meta_of. destruct (greatest _) eqn:E; [done|]. apply greatest_None in E. by destruct L. }
  pose proof (mt_legacy_meta a L) as Hleg. rewrite Hm.
  set (m := default (fresh (at_of a)) (meta_of L)) in *. assert (creates a = ef_legacy a || ef_creates a) as Hca by done.
  rewrite head_eq. f_equal. destruct (ef_legacy a) eqn:El; rewrite Hca.
  - cbn [orb].
    cbn [note_create note mt_legacy mt_create mt_created mt_patch_ms mt_head].
    cbn [fmap list_fmap least foldr]. fold (least (at_of <$> filter (λ a, creates a = true) L)).
    rewrite <-Hms, <-Hcr, Hleg.
    destruct (floor_of L) as [l|] eqn:Efl; [|done]. case_bool_decide as Hlt; simpl.
    + by rewrite (cmax_comm (at_of a) l), (cmax_right l) by by apply tlt_tle.
    + by rewrite (cmax_right (at_of a) l), <-Hleg.
  - cbn [orb].
    cbn [fmap list_fmap max_ms foldr].
    fold (max_ms ((λ a, physical_ms (s_hlc (at_of a))) <$> filter (λ a, ef_legacy a = false) L)).
    rewrite <-Hms.
    destruct (ef_creates a).
    + cbn [fmap list_fmap least foldr].
      fold (least (at_of <$> filter (λ a, creates a = true) L)).
      rewrite <-Hcr, <-Hleg. unfold note_patch, note_create, note; simpl. done.
    + rewrite <-Hcd, <-Hcr, <-Hleg. done.
Qed.

(** *** The field tables *)

Lemma row_stamp_at s : row_stamp (s_hlc s) (op_ref s) = s.
Proof. by destruct s. Qed.

(** Raising the floor to [s]. *)
Lemma prune_ok L floor s db :
  match floor with Some l => l ≺ s | None => True end →
  fields_ok L floor db → fields_ok L (Some s) (prune_tables db s).
Proof.
  intros Hlt (HM & HA & HR & HD).
  assert (∀ x, ¬ x ≺ s → below_floor floor x = false) as Hb.
  { intros x Hx. destruct floor as [l|]; simpl; [|done]. apply bool_decide_eq_false.
    intros ?. apply Hx. by apply (tlt_trans _ l). }
  assert (∀ x, ¬ x ≼ s → at_or_below_floor floor x = false) as Hb'.
  { intros x Hx. destruct floor as [l|]; simpl; [|done]. apply bool_decide_eq_false.
    intros ?. apply Hx. tord. }
  split_and!; simpl.
  - done.
  - intros f el tag h. rewrite map_lookup_filter_Some, HA. simpl. split.
    + intros [(a & Ha & Hel & -> & -> & _) Hs]. rewrite row_stamp_at in Hs.
      exists a. split_and!; try done. simpl. by apply bool_decide_eq_false.
    + intros (a & Ha & Hel & -> & -> & Hs). simpl in Hs. apply bool_decide_eq_false in Hs.
      rewrite row_stamp_at. split; [|done]. exists a. split_and!; auto.
  - done.
  - intros f op [h n]. rewrite map_lookup_filter_Some, HD. simpl. split.
    + intros [(a & m & Ha & Hn & -> & [= -> ->] & _) Hs]. rewrite row_stamp_at in Hs.
      exists a, m. split_and!; try done. simpl. by apply bool_decide_eq_false.
    + intros (a & m & Ha & Hn & -> & [= -> ->] & Hs). simpl in Hs. apply bool_decide_eq_false in Hs.
      rewrite row_stamp_at. split; [|done]. exists a, m. split_and!; auto.
Qed.

Lemma last_entry_encodes ws f k v :
  last_entry ws f k = Some v → Forall encodable_write ws → is_Some (enc v).
Proof.
  unfold last_entry. intros Hl Henc.
  assert (v ∈ omap (entry_of f k) ws) as Hv by by apply last_Some_elem_of.
  apply list_elem_of_omap in Hv as (w & Hw & He). rewrite Forall_forall in Henc.
  specialize (Henc w Hw). destruct w; simpl in He; try done. case_decide; [|done].
  by injection He as <-.
Qed.

Lemma fields_step a L floor db db' :
  universe (a :: L) → fields_ok L floor db →
  fields_after (at_of a) (origin_of a) floor (ef_writes a) db db' → fields_ok (a :: L) floor db'.
Proof.
  intros [Hu He] (HM & HA & HR & HD) (HM' & HA' & HR' & HD'). split_and!.
  - intros f k. rewrite HM'. specialize (HM f k). unfold map_spec in *.
    destruct (last_entry (ef_writes a) f k) as [v|] eqn:El.
    + destruct (last_entry_encodes _ _ _ _ El (He a ltac:(by left))) as [b Hb]. rewrite Hb. simpl.
      destruct (map_entries db !! (f, k)) as [held|] eqn:Ek in HM |- *;
        [destruct (decide (me_at held ≼ at_of a)) as [Hle|Hle]|].
      * destruct HM as (a0 & v0 & Ha0 & Hl0 & He0 & Hat & Hor & Hmax).
        exists a, v. split_and!; try done; [by left|]. intros c [->|Hc]%elem_of_cons Hs; [apply tle_refl|].
        specialize (Hmax c Hc Hs). rewrite Hat in Hle. by eapply tle_trans.
      * destruct HM as (a0 & v0 & Ha0 & Hl0 & He0 & Hat & Hor & Hmax).
        exists a0, v0. split_and!; try done; [by right|]. intros c [->|Hc]%elem_of_cons Hs; [|by apply Hmax].
        rewrite Hat in Hle. tord.
      * exists a, v. split_and!; try done; [by left|]. intros c [->|Hc]%elem_of_cons Hs; [apply tle_refl|].
        rewrite HM in Hs by done. by destruct Hs.
    + destruct (map_entries db !! (f, k)) as [held|] eqn:Ek in HM |- *.
      * destruct HM as (a0 & v0 & Ha0 & Hl0 & He0 & Hat & Hor & Hmax).
        exists a0, v0. split_and!; try done; [by right|]. intros c [->|Hc]%elem_of_cons Hs; [|by apply Hmax].
        rewrite El in Hs. by destruct Hs.
      * intros c [->|Hc]%elem_of_cons; [done|]. by apply HM.
  - intros f el tag h. rewrite HA'. split.
    + intros [(c & Hc & Hrest)%HA|(_ & -> & -> & Hfl & Hel)].
      * exists c. split; [by right|done].
      * exists a. split_and!; try done. by left.
    + intros (c & Hc & Hel & -> & -> & Hfl).
      destruct (orset_adds db !! (f, el, op_ref (at_of c))) as [x|] eqn:E.
      * left. apply HA in E as (c' & Hc' & _ & Hr & -> & _).
        assert (c' = c) as -> by (apply Hu; [by right|done|done]). done.
      * right. apply elem_of_cons in Hc as [->|Hc]; [by split_and!|].
        assert (orset_adds db !! (f, el, op_ref (at_of c)) = Some (s_hlc (at_of c))) as Hx; [|congruence].
        apply HA. by exists c.
  - intros f el tag. rewrite HR'. split.
    + intros [(c & Hc & Hrest)%HR|Hel]; [exists c; split; [by right|done]|exists a; split; [by left|done]].
    + intros (c & [->|Hc]%elem_of_cons & Hel); [by right|]. left. apply HR. by exists c.
  - intros f op x. rewrite HD'. destruct (counter_deltas db !! (f, op)) as [y|] eqn:E.
    + apply HD in E as (c & n & Hc & Hn & -> & -> & Hfl). split.
      * intros [= <-]. exists c, n. split_and!; try done. by right.
      * intros (c' & n' & Hc' & Hn' & Hr & -> & Hfl').
        assert (c = c') as -> by (apply Hu; [by right|done|done]). congruence.
    + destruct (decide (op = op_ref (at_of a) ∧ at_or_below_floor floor (at_of a) = false))
        as [[-> Hfl]|Hcond].
      * split.
        -- intros (n & Hn & ->)%fmap_Some. exists a, n. split_and!; try done. by left.
        -- intros (c & n & Hc & Hn & Hr & -> & Hfl').
           assert (a = c) as <- by (apply Hu; [by left|done|done]). by rewrite Hn.
      * split; [done|]. intros (c & n & [->|Hc]%elem_of_cons & Hn & -> & -> & Hfl'); [by destruct Hcond|].
        assert (counter_deltas db !! (f, op_ref (at_of c)) = Some (s_hlc (at_of c), n)) as Hx; [|congruence].
        apply HD. by exists c, n.
Qed.

(** *** The registers, and the whole step *)

Lemma all_writes_cons a L f :
  all_writes (a :: L) f = with_op (at_of a) (origin_of a) (all_writes L) (ef_writes a) f.
Proof. unfold all_writes, with_op, write_of. simpl. by destruct (written _ _ _ f). Qed.

Lemma start_ok t a L st :
  versions_ok t → writes_ok t (all_writes L) →
  mt_legacy (fs_meta st) = floor_of L → rg_floor (fs_regs st) = floor_of L →
  reg_ok t (all_writes L) (fs_regs st) → clean (fs_regs st) → fields_ok L (floor_of L) (fs_fields st) →
  let st1 := start a st in
  mt_legacy (fs_meta st1) = floor_of (a :: L) ∧ rg_floor (fs_regs st1) = floor_of (a :: L) ∧
  reg_ok t (all_writes L) (fs_regs st1) ∧ clean (fs_regs st1) ∧
  rg_held (fs_regs st1) = rg_held (fs_regs st) ∧ fields_ok L (floor_of (a :: L)) (fs_fields st1).
Proof.
  intros Hok HW Hleg Hfl Hr Hc Hf. rewrite floor_of_cons. unfold start.
  destruct (ef_legacy a).
  - unfold legacy_start. cbn [note_create note mt_legacy]. rewrite Hleg.
    assert (match floor_of L with Some l => l ≺ at_of a | None => True end →
      reg_ok t (all_writes L) (raise_floor (fs_regs st) (at_of a)) ∧
      clean (raise_floor (fs_regs st) (at_of a)) ∧
      rg_floor (raise_floor (fs_regs st) (at_of a)) = Some (at_of a) ∧
      rg_held (raise_floor (fs_regs st) (at_of a)) = rg_held (fs_regs st)) as Hraise.
    { intros Hlt. apply raise_floor_ok; try done. by rewrite Hfl. }
    destruct (floor_of L) as [l|] eqn:El; [destruct (decide (l ≺ at_of a)) as [Hlt|Hlt]|].
    + rewrite bool_decide_true by done. destruct (Hraise Hlt) as (? & ? & ? & ?).
      cbn [fs_meta fs_regs fs_fields set_legacy mt_legacy].
      rewrite (cmax_comm (at_of a)), (cmax_right l) by by apply tlt_tle.
      split_and!; try done. by eapply (prune_ok _ (Some l)).
    + rewrite bool_decide_false by done. cbn [fs_meta fs_regs fs_fields].
      rewrite (cmax_right (at_of a)) by by tord. split_and!; try done.
    + destruct (Hraise I) as (? & ? & ? & ?). cbn [fs_meta fs_regs fs_fields set_legacy mt_legacy].
      split_and!; try done. by eapply (prune_ok _ None).
  - destruct (ef_creates a); cbn [fs_meta fs_regs fs_fields]; split_and!; try done.
Qed.

(** The floor only rises as ops are added. *)
Lemma floor_of_mono L L' l :
  (∀ a, a ∈ L → a ∈ L') → floor_of L = Some l → ∃ l', floor_of L' = Some l' ∧ l ≼ l'.
Proof.
  intros Hsub (Hl & _)%greatest_spec. unfold floor_of in *.
  apply list_elem_of_fmap in Hl as (a & -> & [Ha HaL]%list_elem_of_filter).
  destruct (greatest (at_of <$> filter (λ x, ef_legacy x = true) L')) as [g|] eqn:Eg.
  - exists g. split; [done|]. apply greatest_spec in Eg as [_ Hub]. apply Hub, list_elem_of_fmap.
    exists a. split; [done|]. apply list_elem_of_filter. auto.
  - apply greatest_None in Eg. apply fmap_nil_inv in Eg. exfalso. apply (not_elem_of_nil a).
    rewrite <-Eg. apply list_elem_of_filter. auto.
Qed.

(** A stored loser still a member keeps the flag its row was written with. *)
Lemma flag_kept L L' t db r :
  universe L' → (∀ a, a ∈ L → a ∈ L') → stored e t (all_writes L) (floor_of L) db →
  (∀ f m, m ∈ members_of r f → below_floor (floor_of L') (m_at m) = false) →
  ∀ f op lo, register_losers db !! (f, op) = Some lo → lo_member lo ∈ members_of r f →
  lo_legacy lo = bool_decide (floor_of L' = Some (m_at (lo_member lo))).
Proof.
  intros [Hu _] Hsub Hst Hbelow f op lo Hlo Hm. destruct (Hst f) as (A & HA & _ & Hrow).
  apply Hrow in Hlo as (m & HmA & _ & _ & ->). cbn [lo_legacy lo_member] in *.
  apply bool_decide_ext. specialize (Hbelow f m Hm).
  apply HA in HmA as [(b & Hb & Hw)%cands_sub%elem_of_all_writes _].
  pose proof (write_of_at _ _ _ Hw) as Hmb. split.
  - intros Hfl. destruct (floor_of_mono _ _ _ Hsub Hfl) as (l' & Hl' & Hle). rewrite Hl' in Hbelow |- *.
    simpl in Hbelow. apply bool_decide_eq_false in Hbelow. f_equal. apply tle_antisymm; [by tord|done].
  - intros Hfl'. pose proof Hfl' as (Hc & _)%greatest_spec.
    apply list_elem_of_fmap in Hc as (c & Hmc & [Hlc Hc]%list_elem_of_filter).
    assert (b = c) as <- by (apply Hu; [by apply Hsub|done|congruence]).
    destruct (floor_of L) as [g|] eqn:Eg.
    + destruct (floor_of_mono _ _ _ Hsub Eg) as (l' & Hl' & Hle). f_equal. apply tle_antisymm; [congruence|].
      apply greatest_spec in Eg as [_ Hub]. rewrite Hmb. apply Hub, list_elem_of_fmap. exists b.
      split; [done|]. by apply list_elem_of_filter.
    + apply greatest_None, fmap_nil_inv in Eg. exfalso. apply (not_elem_of_nil b). rewrite <-Eg.
      by apply list_elem_of_filter.
Qed.

Lemma history_consistent L a :
  universe (a :: L) → consistent (history (ef_version <$> L)) (ef_version a).
Proof.
  intros [Hu _] w Hw. unfold history in Hw. apply elem_of_list_to_map_2 in Hw.
  apply list_elem_of_fmap in Hw as (v & Heq & Hv). apply pair_equal_spec in Heq as [Hr ->].
  apply list_elem_of_fmap in Hv as (c & -> & Hc).
  f_equal. apply Hu; [by right|by left|done].
Qed.

(** Admission, and the registers as the fold loads them. *)
Lemma admission_ok a L en :
  universe (a :: L) → entity_ok L en →
  let t := (admit_version (en_versions en) (ef_version a)).1 in
  let adm := (admit_version (en_versions en) (ef_version a)).2 in
  let m := default (fresh (at_of a)) (en_meta en) in
  let r := registers_after t (en_registers en) m adm in
  versions_ok t ∧ versions_of t = history (ef_version <$> (a :: L)) ∧
  reg_ok t (all_writes L) r ∧ clean r ∧ rg_floor r = floor_of L ∧
  rg_held r = rg_held (load (en_registers en) (floor_of L)).
Proof.
  intros Hu (Hmeta & Hvok & Hvs & Hst & Hf) t adm m r.
  assert (universe L) as HuL by (eapply universe_sub; [|exact Hu]; intros x ?; by right).
  assert (mt_legacy m = floor_of L) as Hleg by (unfold m; rewrite Hmeta; apply mt_legacy_meta).
  assert (consistent (versions_of (en_versions en)) (ef_version a)) as Hcons
    by (rewrite Hvs; by apply history_consistent).
  destruct (admit_ok (en_versions en) (ef_version a) Hvok Hcons) as (Hvok' & Hvs' & _).
  destruct (admit_order (en_versions en) (ef_version a) Hvok Hcons) as [Hmono Hsame].
  fold t in Hvok', Hvs', Hmono, Hsame. fold adm in Hsame.
  assert (versions_of t = history (ef_version <$> (a :: L))) as Hvst by (rewrite Hvs', Hvs; done).
  pose proof (all_writes_ok _ L HuL Hvs) as HW.
  assert (writes_ok t (all_writes L)) as HWt.
  { eapply writes_ok_sub; [|exact (all_writes_ok _ _ Hu Hvst)]. intros f x Hx. rewrite all_writes_cons.
    apply elem_of_app. by right. }
  destruct (load_ok e _ _ _ _ HW Hst) as (Hr0 & Hc0 & _).
  unfold r, registers_after. rewrite Hleg. split; [done|]. split; [done|].
  destruct (refined adm) eqn:Eref.
  - destruct (refilter_ok (en_versions en) t (all_writes L) (load (en_registers en) (floor_of L)))
      as (? & ? & ? & ?); try done.
  - split_and!; try done. apply (reg_ok_same (en_versions en)); try done.
    intros x y Hx Hy. split; [apply Hmono|]. by apply Hsame.
Qed.

Lemma entity_step a L en :
  universe (a :: L) → entity_ok L en →
  ∃ en', fold_eff e en a = Some en' ∧ entity_ok (a :: L) en'.
Proof.
  intros Hu Hen. destruct (admission_ok a L en Hu Hen) as (Hvok & Hvst & Hr & Hc & Hfl & Hheld).
  destruct Hen as (Hmeta & Hvok0 & Hvs & Hst & Hf).
  assert (universe L) as HuL by (eapply universe_sub; [|exact Hu]; intros x ?; by right).
  unfold fold_eff, fold_version. change (v_at (ef_version a)) with (at_of a).
  destruct (admit_version (en_versions en) (ef_version a)) as [t adm]. cbn [fst snd] in *.
  set (m := default (fresh (at_of a)) (en_meta en)) in *.
  set (st := mkFold m (en_fields en) (registers_after t (en_registers en) m adm)).
  assert (mt_legacy m = floor_of L) as Hleg by (unfold m; rewrite Hmeta; apply mt_legacy_meta).
  pose proof (all_writes_ok _ L HuL Hvs) as HW.
  pose proof (all_writes_ok _ _ Hu Hvst) as HWa.
  assert (writes_ok t (all_writes L)) as HWt.
  { eapply writes_ok_sub; [|exact HWa]. intros f x Hx. rewrite all_writes_cons.
    apply elem_of_app. by right. }
  destruct (start_ok t a L st) as (Sleg & Sfl & Sr & Sc & Sheld & Sf); try done.
  destruct (fold_writes_ok t (at_of a) (origin_of a) (all_writes L) Hvok (ef_writes a) (start a st))
    as (st' & Hst' & Hmeta' & Hfields & Hregs); try done.
  { eapply writes_ok_sub; [|exact HWa]. intros f x. by rewrite all_writes_cons. }
  { apply (proj2 Hu). by left. }
  { by rewrite Sleg, Sfl. }
  exists (mkEntity (Some (fs_meta st')) t (flush e (fs_regs st') (en_registers en)) (fs_fields st')).
  rewrite Hst'. split; [done|]. destruct Hregs as (Rr & Rc & Rf & Rh).
  assert (rg_floor (fs_regs st') = floor_of (a :: L)) as Hfloor by by rewrite Rf, Sfl.
  assert (rg_held (fs_regs st') = rg_held (load (en_registers en) (floor_of L))) as Hh
    by (by rewrite Rh, Sheld).
  assert (reg_ok t (all_writes (a :: L)) (fs_regs st')) as Hrr.
  { eapply reg_ok_ext; [|exact Rr]. intros f x. by rewrite all_writes_cons. }
  split_and!; cbn [en_meta en_versions en_registers en_fields]; try done.
  - rewrite Hmeta'. symmetry. apply meta_step. unfold st, m. simpl. by rewrite Hmeta.
  - rewrite <-Hfloor. apply flush_ok; try done.
    + intros f. rewrite Hh. by apply (load_ok e _ _ _ _ HW Hst).
    + intros f. rewrite Hh. by apply (load_held_facts e _ _ _ _ f HW Hst).
    + intros f. rewrite Hh. by apply (load_held_facts e _ _ _ _ f HW Hst).
    + intros f x. rewrite Hh. intros Hx. rewrite all_writes_cons. apply elem_of_app. right.
      by apply (load_held_facts e _ _ _ _ f HW Hst).
    + rewrite Hfloor. eapply flag_kept; [exact Hu|by right|exact Hst|]. intros f x Hx.
      apply Hrr in Hx as [Hx _]. apply list_elem_of_filter in Hx as [Hx _]. by rewrite Hfloor in Hx.
  - rewrite Sleg in Hfields. by eapply fields_step.
Qed.

(** *** The empty entity, and a whole delivery *)

Lemma entity_ok_nil : entity_ok [] no_entity.
Proof.
  split_and!; [done|apply no_versions_ok| |apply stored_empty|].
  - apply map_eq. intros op. unfold versions_of. simpl. by rewrite lookup_fmap, !lookup_empty.
  - split_and!; simpl.
    + intros f k. rewrite lookup_empty. intros a ?%not_elem_of_nil. done.
    + intros f el tag h. rewrite lookup_empty. split; [done|]. by intros (a & ?%not_elem_of_nil & _).
    + intros f el tag. split; [by intros ?%not_elem_of_empty|]. by intros (a & ?%not_elem_of_nil & _).
    + intros f op x. rewrite lookup_empty. split; [done|]. by intros (a & n & ?%not_elem_of_nil & _).
Qed.

Lemma fold_all_ok L :
  universe L → ∃ en, foldm (fold_eff e) no_entity L = Some en ∧ entity_ok (reverse L) en.
Proof.
  induction L as [|a L IH] using rev_ind; intros Hu.
  { exists no_entity. split; [done|apply entity_ok_nil]. }
  destruct IH as (en & Hen & Hok).
  { eapply universe_sub; [|exact Hu]. intros x Hx. apply elem_of_app. by left. }
  rewrite foldm_app, Hen, reverse_snoc. simpl.
  destruct (entity_step a (reverse L) en) as (en' & -> & Hen'); [|done|by exists en'].
  eapply universe_sub; [|exact Hu]. intros x. rewrite elem_of_cons, elem_of_app, elem_of_reverse.
  rewrite list_elem_of_singleton. tauto.
Qed.

(** *** The specification depends on the set of ops alone *)

Lemma least_spec l m : least l = Some m ↔ m ∈ l ∧ ∀ s, s ∈ l → m ≼ s.
Proof.
  assert (∀ l, (∃ m, least l = Some m ∧ m ∈ l ∧ ∀ s, s ∈ l → m ≼ s) ∨ l = []) as Hex.
  { clear. induction l as [|x l IH]; [by right|]. left. cbn [least foldr]. fold (least l).
    destruct IH as [(m & -> & Hm & Hmin)| ->].
    - exists (cmin m x). split; [done|]. split.
      + destruct (cmin_case m x) as [-> | ->]; [by right|by left].
      + intros s [->|Hs]%elem_of_cons; [apply cmin_r|].
        pose proof (cmin_l m x). pose proof (Hmin s Hs). tord.
    - exists x. split; [done|]. split; [by left|]. intros s [->|?%not_elem_of_nil]%elem_of_cons; [apply tle_refl|done]. }
  destruct (Hex l) as [(g & Hg & Hin & Hmin)| ->].
  - rewrite Hg. split; [by intros [= <-]|].
    intros [Hm Hmin']. f_equal. apply tle_antisymm; auto.
  - split; [done|]. by intros [?%not_elem_of_nil _].
Qed.

Lemma max_ms_spec l m : max_ms l = Some m ↔ m ∈ l ∧ ∀ x, x ∈ l → x <= m.
Proof.
  revert m. induction l as [|y l IH]; intros m; cbn [max_ms foldr].
  { split; [done|]. by intros [?%not_elem_of_nil _]. }
  fold (max_ms l). setoid_rewrite elem_of_cons. destruct (max_ms l) as [g|] eqn:E.
  - destruct (proj1 (IH g) eq_refl) as [Hg Hub]. split.
    + intros [= <-]. split.
      * destruct (Z.max_spec g y) as [[_ ->]|[_ ->]]; [by left|by right].
      * intros x [->|Hx]; [lia|]. specialize (Hub x Hx). lia.
    + intros [Hm Hall]. f_equal. pose proof (Hall g (or_intror Hg)). pose proof (Hall y (or_introl eq_refl)).
      destruct Hm as [->|Hm]; [lia|]. specialize (Hub m Hm). lia.
  - assert (l = []) as -> by (destruct l; [done|]; cbn [max_ms foldr] in E; by case_match).
    split; [intros [= <-]; split; [by left|intros x [->|?%not_elem_of_nil]; [lia|done]]|].
    by intros [[->|?%not_elem_of_nil] _].
Qed.

Lemma option_spec_ext {A} (P : A → Prop) (o1 o2 : option A) :
  (∀ x, o1 = Some x ↔ P x) → (∀ x, o2 = Some x ↔ P x) → o1 = o2.
Proof. intros H1 H2. apply option_eq. intros x. by rewrite H1, H2. Qed.

Lemma greatest_ext l1 l2 : (∀ x, x ∈ l1 ↔ x ∈ l2) → greatest l1 = greatest l2.
Proof.
  intros Hx. eapply option_spec_ext; [apply greatest_spec|]. intros m. rewrite greatest_spec, Hx.
  by setoid_rewrite Hx.
Qed.
Lemma least_ext l1 l2 : (∀ x, x ∈ l1 ↔ x ∈ l2) → least l1 = least l2.
Proof.
  intros Hx. eapply option_spec_ext; [apply least_spec|]. intros m. rewrite least_spec, Hx.
  by setoid_rewrite Hx.
Qed.
Lemma max_ms_ext l1 l2 : (∀ x, x ∈ l1 ↔ x ∈ l2) → max_ms l1 = max_ms l2.
Proof.
  intros Hx. eapply option_spec_ext; [apply max_ms_spec|]. intros m. rewrite max_ms_spec, Hx.
  by setoid_rewrite Hx.
Qed.

Section ext.
Context (L L' : list Eff) (Hext : ∀ a, a ∈ L ↔ a ∈ L').

Lemma elem_of_fmap_ext {A} (g : Eff → A) x : x ∈ g <$> L ↔ x ∈ g <$> L'.
Proof. rewrite !list_elem_of_fmap. by setoid_rewrite Hext. Qed.
Lemma elem_of_fmap_filter_ext {A} (g : Eff → A) (P : Eff → Prop) `{∀ a, Decision (P a)} x :
  x ∈ g <$> filter P L ↔ x ∈ g <$> filter P L'.
Proof. rewrite !list_elem_of_fmap. setoid_rewrite list_elem_of_filter. by setoid_rewrite Hext. Qed.

Lemma floor_of_ext : floor_of L = floor_of L'.
Proof. apply greatest_ext. intros x. apply elem_of_fmap_filter_ext. Qed.

Lemma meta_of_ext : meta_of L = meta_of L'.
Proof.
  unfold meta_of. rewrite (greatest_ext (at_of <$> L) (at_of <$> L')) by (intros; apply elem_of_fmap_ext).
  destruct (greatest _); [|done]. rewrite floor_of_ext. cbn zeta.
  by erewrite least_ext, max_ms_ext; [reflexivity|intros; apply elem_of_fmap_filter_ext..].
Qed.

Lemma all_writes_ext f m : m ∈ all_writes L f ↔ m ∈ all_writes L' f.
Proof. rewrite !elem_of_all_writes. by setoid_rewrite Hext. Qed.

Lemma stored_writes_ext t floor db : stored e t (all_writes L) floor db → stored e t (all_writes L') floor db.
Proof.
  intros Hst f. destruct (Hst f) as (A & HA & Hrest). exists A. split; [|done].
  eapply maxset_ext; [..|exact HA]; [|done]. intros m. unfold cands.
  by rewrite !list_elem_of_filter, all_writes_ext.
Qed.

Lemma history_ext : universe L → history (ef_version <$> L) = history (ef_version <$> L').
Proof.
  intros Hu. pose proof (universe_one _ Hu) as H1.
  assert (universe L') as Hu' by (eapply universe_sub; [|exact Hu]; intros a; apply Hext).
  pose proof (universe_one _ Hu') as H2. rewrite <-!versions_of_delivered by done. f_equal.
  apply admit_all_converges; [done|]. intros v. apply elem_of_fmap_ext.
Qed.

Lemma fields_ok_ext floor db : fields_ok L floor db → fields_ok L' floor db.
Proof.
  intros (HM & HA & HR & HD). split_and!.
  - intros f k. specialize (HM f k). unfold map_spec in *. destruct (map_entries db !! (f, k)).
    + destruct HM as (a & v & Ha & Hr). exists a, v. split; [by apply Hext|].
      destruct Hr as (? & ? & ? & ? & Hm). split_and!; try done. intros b Hb. by apply Hm, Hext.
    + intros a Ha. by apply HM, Hext.
  - intros f el tag h. rewrite HA. unfold add_spec. by setoid_rewrite Hext.
  - intros f el tag. rewrite HR. unfold remove_spec. by setoid_rewrite Hext.
  - intros f op x. rewrite HD. unfold delta_spec. by setoid_rewrite Hext.
Qed.
End ext.

Lemma map_spec_unique L f k o1 o2 : universe L → map_spec L f k o1 → map_spec L f k o2 → o1 = o2.
Proof.
  intros [Hu _] H1 H2. destruct o1 as [e1|], o2 as [e2|]; simpl in *; try done.
  - destruct H1 as (a & v & Ha & Hl & He & Hat & Hor & Hmax).
    destruct H2 as (b & w & Hb & Hl' & He' & Hat' & Hor' & Hmax').
    assert (at_of a = at_of b) as Heq by (apply tle_antisymm; eauto).
    assert (a = b) as <- by (apply Hu; congruence).
    destruct e1, e2; simpl in *. congruence.
  - destruct H1 as (a & v & Ha & Hl & _). rewrite (H2 a Ha) in Hl. done.
  - destruct H2 as (a & v & Ha & Hl & _). rewrite (H1 a Ha) in Hl. done.
Qed.

Lemma fields_ok_unique L floor db1 db2 :
  universe L → fields_ok L floor db1 → fields_ok L floor db2 → db1 = db2.
Proof.
  intros Hu (M1 & A1 & R1 & D1) (M2 & A2 & R2 & D2).
  assert (map_entries db1 = map_entries db2) as E1.
  { apply map_eq. intros [f k]. by eapply map_spec_unique. }
  assert (orset_adds db1 = orset_adds db2) as E2.
  { apply map_eq. intros [[f el] tag]. apply option_eq. intros h. by rewrite A1, A2. }
  assert (orset_removes db1 = orset_removes db2) as E3.
  { apply set_eq. intros [[f el] tag]. by rewrite R1, R2. }
  assert (counter_deltas db1 = counter_deltas db2) as E4.
  { apply map_eq. intros [f op]. apply option_eq. intros x. by rewrite D1, D2. }
  destruct db1, db2; simpl in *. congruence.
Qed.

Lemma entity_ok_unique L L' en en' :
  universe L → (∀ a, a ∈ L ↔ a ∈ L') → entity_ok L en → entity_ok L' en' → en = en'.
Proof.
  intros Hu Hext (M1 & V1 & H1 & S1 & F1) (M2 & V2 & H2 & S2 & F2).
  assert (en_versions en = en_versions en') as Hv.
  { apply versions_ok_unique; [done..|]. rewrite H1, H2. by apply history_ext. }
  rewrite <-(floor_of_ext L L' Hext) in S2, F2.
  assert (en_fields en = en_fields en') as Hf.
  { eapply fields_ok_unique; [exact Hu|exact F1|]. eapply fields_ok_ext; [|exact F2].
    intros a. symmetry. apply Hext. }
  assert (en_registers en = en_registers en') as Hr.
  { eapply stored_unique; [|exact S1|].
    - apply all_writes_ok; [exact Hu|exact H1].
    - rewrite Hv. eapply stored_writes_ext; [|exact S2]. intros a. symmetry. apply Hext. }
  assert (en_meta en = en_meta en') as Hm by (rewrite M1, M2; by apply meta_of_ext).
  destruct en, en'; simpl in *. congruence.
Qed.

Lemma entity_ok_ext L L' en :
  universe L → (∀ a, a ∈ L ↔ a ∈ L') → entity_ok L en → entity_ok L' en.
Proof.
  intros Hu Hext (M & V & Hh & S & F). split_and!.
  - rewrite M. by apply meta_of_ext.
  - done.
  - rewrite Hh. by apply history_ext.
  - rewrite <-(floor_of_ext L L') by done. by apply (stored_writes_ext L).
  - rewrite <-(floor_of_ext L L') by done. by apply (fields_ok_ext L).
Qed.
End spec.

(** ** Deliveries *)

Section deliveries.
Context `{Ciborium} (value_fits : EntityKind.t → string → Value → bool) (e : EntitySpec).

(** What folds of a delivery: an op-ref names one op (a device numbers its
    ops in a stream once), and every value to store encodes. *)
Definition one_op_per_ref (l : list DOp) : Prop :=
  ∀ c d, c ∈ l → d ∈ l → op_ref (d_at c) = op_ref (d_at d) → c = d.
Definition encodes (l : list DOp) : Prop :=
  ∀ d a, d ∈ l → eff value_fits e d = Some a → Forall encodable_write (ef_writes a).
Definition deliverable (l : list DOp) : Prop := one_op_per_ref l ∧ encodes l.

Definition effs (l : list DOp) : list Eff := omap (eff value_fits e) l.

Lemma eff_at d a : eff value_fits e d = Some a → at_of a = d_at d.
Proof.
  unfold eff. destruct (d_inner d) as [p|]; [destruct (check_patch _ _); [|done]|]; by intros [= <-].
Qed.

Lemma deliverable_universe l : deliverable l → universe (effs l).
Proof.
  intros [Hone Henc]. split.
  - intros a b (c & Hc & Ha)%list_elem_of_omap (d & Hd & Hb)%list_elem_of_omap Heq.
    rewrite (eff_at _ _ Ha), (eff_at _ _ Hb) in Heq. rewrite (Hone c d Hc Hd Heq) in Ha. congruence.
  - intros a (d & Hd & Ha)%list_elem_of_omap. by eapply Henc.
Qed.

Lemma merge_all_ok l :
  deliverable l → ∃ en, merge_all value_fits e no_entity l = Some en ∧ entity_ok e (effs l) en.
Proof.
  intros Hd. pose proof (deliverable_universe l Hd) as Hu. rewrite merge_all_eff.
  destruct (fold_all_ok e _ Hu) as (en & Hen & Hok). exists en. split; [exact Hen|].
  eapply entity_ok_ext; [|..|exact Hok].
  - eapply universe_sub; [|exact Hu]. intros a. by rewrite elem_of_reverse.
  - intros a. by rewrite elem_of_reverse.
Qed.

Lemma merge_all_entity_ok l en :
  deliverable l → merge_all value_fits e no_entity l = Some en → entity_ok e (effs l) en.
Proof. intros Hd Hen. destruct (merge_all_ok l Hd) as (en' & Hen' & Hok). congruence. Qed.

Lemma deliverable_ext l l' : (∀ d, d ∈ l ↔ d ∈ l') → deliverable l → deliverable l'.
Proof.
  intros Hext [H1 H2]. split.
  - intros c d Hc%Hext Hd%Hext. by apply H1.
  - intros d a Hd%Hext. by apply H2.
Qed.

Lemma effs_ext l l' a : (∀ d, d ∈ l ↔ d ∈ l') → a ∈ effs l ↔ a ∈ effs l'.
Proof. intros Hext. unfold effs. rewrite !list_elem_of_omap. by setoid_rewrite Hext. Qed.

(** C3: strong eventual consistency: two replicas that have been delivered the
    same set of an entity's ops, patches and full-state ops alike, in any two
    orders and with any repetitions, both fold every one of them and hold the
    same bookkeeping, versions with their frontiers and heads, register
    winners and losers, map entries, OR-set rows and counter rows. *)
Theorem merge_converges l1 l2 :
  deliverable l1 → (∀ d, d ∈ l1 ↔ d ∈ l2) →
  ∃ en, merge_all value_fits e no_entity l1 = Some en ∧ merge_all value_fits e no_entity l2 = Some en.
Proof.
  intros Hd Hext. pose proof (deliverable_ext _ _ Hext Hd) as Hd2.
  destruct (merge_all_ok l1 Hd) as (en1 & He1 & Hok1), (merge_all_ok l2 Hd2) as (en2 & He2 & Hok2).
  assert (en1 = en2) as <-; [|by exists en1]. eapply entity_ok_unique; [| |exact Hok1|exact Hok2].
  - by apply deliverable_universe.
  - intros a. by apply effs_ext.
Qed.

(** C4: the incremental fold implements its specification: after any delivery
    the bookkeeping is the extrema of the ops' stamps, the version tables are
    the history with its exact frontiers and heads, each register holds the
    maximal writes at or above the legacy floor with the winner apart, a map
    entry holds the greatest stamped write to its key, an OR-set's rows are
    the adds at or above the floor and every remove, and a counter's rows are
    the deltas above the floor, one per op. *)
Theorem merge_tables_exact l :
  deliverable l →
  ∃ en, merge_all value_fits e no_entity l = Some en ∧
    en_meta en = meta_of (effs l) ∧
    (versions_ok (en_versions en) ∧ versions_of (en_versions en) = history (ef_version <$> effs l)) ∧
    stored e (en_versions en) (all_writes (effs l)) (floor_of (effs l)) (en_registers en) ∧
    fields_ok (effs l) (floor_of (effs l)) (en_fields en).
Proof. intros Hd. destruct (merge_all_ok l Hd) as (en & Hen & M & V1 & V2 & S & F). by exists en. Qed.

(** *** What a register holds *)

Definition hist (l : list DOp) : gmap OpRef Version := history (ef_version <$> effs l).
Definition candidate (l : list DOp) (f : string) (m : Member) : Prop :=
  m ∈ all_writes (effs l) f ∧ below_floor (floor_of (effs l)) (m_at m) = false.
(** No candidate was written having seen [m]. *)
Definition maximal (l : list DOp) (f : string) (m : Member) : Prop :=
  candidate l f m ∧ ∀ n, candidate l f n → ¬ before (hist l) (m_at m) (m_at n).

Lemma maximal_maxset l en f A :
  deliverable l → entity_ok e (effs l) en →
  maxset (prec (en_versions en)) (cands (all_writes (effs l)) (floor_of (effs l)) f) A →
  one_per_stamp A ∧ ∀ m, m ∈ A ↔ maximal l f m.
Proof.
  intros Hd (_ & Hvok & Hvs & _ & _) HA. pose proof (deliverable_universe l Hd) as Hu.
  pose proof (all_writes_ok _ _ Hu Hvs) as HW.
  destruct (cands_cands_ok _ _ (floor_of (effs l)) f HW) as [Hap Hi].
  assert (∀ m, m ∈ cands (all_writes (effs l)) (floor_of (effs l)) f ↔ candidate l f m) as Hc.
  { intros m. unfold cands, candidate. rewrite list_elem_of_filter. tauto. }
  split.
  - intros m n [Hm _]%HA [Hn _]%HA. by apply Hi.
  - intros m. rewrite (HA m). unfold maximal, hist. rewrite <-Hvs, <-Hc. split.
    + intros [Hm Hmax]. split; [done|]. intros n Hn%Hc Hb.
      apply (precedes_at_before (en_versions en)) in Hb; [|auto..].
      specialize (Hmax n Hn). unfold prec in Hmax. congruence.
    + intros [Hm Hmax]. split; [done|]. intros n Hn. apply not_true_iff_false. intros Hp.
      apply (Hmax n (proj1 (Hc n) Hn)). apply (precedes_at_before (en_versions en)); auto.
Qed.

Lemma register_rows l en f :
  deliverable l → merge_all value_fits e no_entity l = Some en →
  (∀ w, merge_registers (en_registers en) !! f = Some w ↔
     maximal l f w ∧ ∀ n, maximal l f n → rank (class_of e f) n ≼ rank (class_of e f) w) ∧
  (merge_registers (en_registers en) !! f = None ↔ ∀ m, ¬ candidate l f m) ∧
  (∀ op lo, register_losers (en_registers en) !! (f, op) = Some lo ↔
     ∃ m, maximal l f m ∧ merge_registers (en_registers en) !! f ≠ Some m ∧ op = op_ref (m_at m) ∧
          lo = mkLoser m (bool_decide (floor_of (effs l) = Some (m_at m)))).
Proof.
  intros Hd Hen. pose proof (merge_all_entity_ok l en Hd Hen) as Hok.
  pose proof Hok as (_ & Hvok & Hvs & Hst & _). destruct (Hst f) as (A & HA & Hwin & Hlo).
  destruct (maximal_maxset l en f A Hd Hok HA) as [Hone Hmem]. split_and!.
  - intros w. rewrite Hwin, winner_Some by done. rewrite Hmem. by setoid_rewrite Hmem.
  - rewrite Hwin, winner_None. split.
    + intros -> m [Hm Hb].
      pose proof (all_writes_ok _ _ (deliverable_universe l Hd) Hvs) as HW.
      pose proof (prec_strict _ _ Hvok (cands_cands_ok _ _ (floor_of (effs l)) f HW)) as Hs.
      destruct (maximal_above (prec (en_versions en)) _ m Hs) as (x & Hx & _ & Hmax).
      { apply list_elem_of_filter. done. }
      apply (not_elem_of_nil x), (proj2 (HA x)). split; [exact Hx|exact Hmax].
    + intros Hno. destruct A as [|x A]; [done|]. exfalso. apply (Hno x).
      apply Hmem. by left.
  - intros op lo. rewrite Hlo, Hwin.
    split; intros (m & Hm & Hne & -> & ->); exists m; (split; [by apply Hmem|]); (split; [|done]);
      intros Heq; by apply Hne.
Qed.

(** C6: a register shows the write of greatest rank among those no other write
    descends from, counting only writes at or above the legacy floor; it is
    empty exactly when there is no such write, and the table of losers holds
    exactly the other concurrent survivors, flagged when they are the floor's
    own. *)
Theorem register_winner_rule l en f :
  deliverable l → merge_all value_fits e no_entity l = Some en →
  (∀ w, merge_registers (en_registers en) !! f = Some w ↔
     maximal l f w ∧ ∀ n, maximal l f n → rank (class_of e f) n ≼ rank (class_of e f) w) ∧
  (merge_registers (en_registers en) !! f = None ↔ ∀ m, ¬ candidate l f m) ∧
  (∀ op lo, register_losers (en_registers en) !! (f, op) = Some lo ↔
     ∃ m, maximal l f m ∧ merge_registers (en_registers en) !! f ≠ Some m ∧ op = op_ref (m_at m) ∧
          lo = mkLoser m (bool_decide (floor_of (effs l) = Some (m_at m)))).
Proof. apply register_rows. Qed.

(** What makes a write preferred in its class's rule: deleting, or ending a
    task. *)
Definition preferred (class : Conflict) (m : Member) : Prop :=
  match class with
  | State => ∃ s, decoded m = Some (Text s) ∧ s ∈ TERMINAL_STATES
  | Tombstone => decoded m = Some (Bool true)
  | _ => False
  end.

Lemma rank_key class m : (rank class m).2.1 = true ↔ preferred class m.
Proof.
  unfold rank, preferred. destruct class; simpl; try done.
  - destruct (decoded m) as [[]|]; try (split; [done|by intros (? & ? & _)]).
    rewrite bool_decide_eq_true. split; [eauto|]. by intros (? & [= <-] & ?).
  - by rewrite bool_decide_eq_true.
Qed.

Lemma rank_user class m : (rank class m).1 = true ↔ m_origin m ≠ GENERATED.
Proof. unfold rank. simpl. rewrite negb_true_iff, bool_decide_eq_false. done. Qed.

Lemma pair_le_fst {A B} `{CmpLaws A, CmpLaws B} (x y : A * B) : x ≼ y → x.1 ≼ y.1.
Proof.
  intros Hn Hlt. apply Hn. unfold cmp, prod_cmp. destruct (cmp y.1 x.1) eqn:E; [|done|]; unfold tlt in Hlt; congruence.
Qed.
Lemma pair_le_snd {A B} `{CmpLaws A, CmpLaws B} (x y : A * B) : x ≼ y → x.1 = y.1 → x.2 ≼ y.2.
Proof.
  intros Hn Heq Hlt. apply Hn. unfold cmp, prod_cmp. by rewrite (proj2 (cmp_eq_iff y.1 x.1) (eq_sym Heq)).
Qed.
Lemma bool_le (x y : bool) : x ≼ y → x = true → y = true.
Proof. by destruct x, y. Qed.

(** What a person did is never lost to a machine or to a concurrent edit:
    a register with a user's write among its survivors never shows a
    generated one, and among survivors of one origin a delete beats a
    concurrent restore and a terminal task state beats a concurrent
    non-terminal one, whatever their clocks; otherwise the greatest stamp
    shows. *)
Theorem survivors_ranked l en f w n :
  deliverable l → merge_all value_fits e no_entity l = Some en →
  merge_registers (en_registers en) !! f = Some w → maximal l f n →
  (m_origin n ≠ GENERATED → m_origin w ≠ GENERATED) ∧
  ((m_origin n = GENERATED ↔ m_origin w = GENERATED) →
   (preferred (class_of e f) n → preferred (class_of e f) w) ∧
   ((preferred (class_of e f) n ↔ preferred (class_of e f) w) → m_at n ≼ m_at w)).
Proof.
  intros Hd Hen Hw Hn. apply (register_rows l en f Hd Hen) in Hw as [_ Hub]. specialize (Hub n Hn).
  rewrite <-!rank_key. set (class := class_of e f) in *.
  pose proof (pair_le_fst _ _ Hub) as H1. pose proof (pair_le_snd _ _ Hub) as H2.
  split; [rewrite <-!(rank_user class); by apply bool_le|]. intros Ho.
  assert ((rank class n).1 = (rank class w).1) as Heq.
  { apply eq_iff_eq_true. rewrite !rank_user. tauto. }
  specialize (H2 Heq). split; [by apply bool_le, pair_le_fst|].
  intros Hk%eq_iff_eq_true. exact (pair_le_snd _ _ H2 Hk).
Qed.

(** A history of full-state ops. *)
Definition full_state (d : DOp) : Prop := match d_inner d with OpLegacy _ _ => True | OpPatch _ => False end.

Lemma effs_legacy l a :
  Forall full_state l → a ∈ effs l → ef_legacy a = true.
Proof.
  intros HF (c & Hc & Ha)%list_elem_of_omap. rewrite Forall_forall in HF. specialize (HF c Hc).
  unfold eff, full_state in *. by destruct (d_inner c); [|injection Ha as <-].
Qed.

(** A full-state op only sets registers and entries and adds elements. *)
Lemma legacy_writes_kinds state w :
  w ∈ legacy_writes e state →
  match w with WRemove _ _ _ | WInc _ _ => False | _ => True end.
Proof.
  unfold legacy_writes. destruct (head (e_records e)) as [r|]; [|by intros ?%not_elem_of_nil].
  intros [(fd & Hw & _)%list_elem_of_bind|Hw]%elem_of_app.
  - unfold legacy_field_writes in Hw. destruct (f_crdt fd).
    1,4,6: by apply list_elem_of_singleton in Hw as ->.
    + apply list_elem_of_omap in Hw as (kv & _ & Hw). by apply fmap_Some in Hw as (? & _ & ->).
    + by apply list_elem_of_fmap in Hw as (? & -> & _).
    + apply elem_of_app in Hw as [Hw|Hw].
      * by apply list_elem_of_fmap in Hw as (? & -> & _).
      * apply list_elem_of_omap in Hw as (kv & _ & Hw). apply bind_Some in Hw as (k & _ & Hw).
        destruct (match record _ _ with Some s => has_field s k | None => false end); [done|].
        by injection Hw as <-.
  - apply list_elem_of_omap in Hw as (kv & _ & Hw). apply bind_Some in Hw as (k & _ & Hw).
    destruct (bool_decide (k = FULL_STATE_GROUP_KEY) || has_field r k); [done|]. by injection Hw as <-.
Qed.

Lemma floor_all_legacy l d :
  Forall full_state l → d ∈ l → (∀ c, c ∈ l → d_at c ≼ d_at d) → floor_of (effs l) = Some (d_at d).
Proof.
  intros HF Hd Hmax. pose proof HF as HF'. rewrite Forall_forall in HF'.
  apply greatest_spec. split.
  - apply list_elem_of_fmap. destruct (eff value_fits e d) as [a|] eqn:Ea.
    + exists a. split; [symmetry; by apply eff_at|]. apply list_elem_of_filter.
      assert (a ∈ effs l) by (apply list_elem_of_omap; eauto). split; [by eapply effs_legacy|done].
    + specialize (HF' d Hd). unfold eff, full_state in *. by destruct (d_inner d).
  - intros s (a & -> & [_ (c & Hc & Ha)%list_elem_of_omap]%list_elem_of_filter)%list_elem_of_fmap.
    rewrite (eff_at _ _ Ha). by apply Hmax.
Qed.

(** A history of full-state ops alone reads as entity-level last writer
    wins: whatever order they arrive in, every register holds exactly what the
    op of greatest stamp wrote to it and nothing else does, there are no
    losers and no counter rows, no element is removed, and an OR-set's rows
    are the elements that one op listed. *)
Theorem full_state_history_is_lww l en d kd state :
  deliverable l → Forall full_state l → merge_all value_fits e no_entity l = Some en →
  d ∈ l → (∀ c, c ∈ l → d_at c ≼ d_at d) → d_inner d = OpLegacy kd state →
  (∀ f, merge_registers (en_registers en) !! f =
     (λ v, mkMember (d_at d) (v ≫= enc) (legacy_origin kd state)) <$>
       first_reg (legacy_writes e state) f) ∧
  (∀ f op, register_losers (en_registers en) !! (f, op) = None) ∧
  (∀ f op, counter_deltas (en_fields en) !! (f, op) = None) ∧
  orset_removes (en_fields en) = ∅ ∧
  (∀ f el tag h, orset_adds (en_fields en) !! (f, el, tag) = Some h ↔
     tag = op_ref (d_at d) ∧ h = s_hlc (d_at d) ∧ adds_el (legacy_writes e state) f el).
Proof.
  intros Hdel HF Hen Hd Hmax Hin.
  pose proof (floor_all_legacy l d HF Hd Hmax) as Hfl. pose proof (deliverable_universe l Hdel) as Hu.
  set (a := mkEff (legacy_version e d kd state) true true (legacy_writes e state)).
  assert (eff value_fits e d = Some a) as Ha by (unfold eff; by rewrite Hin).
  assert (a ∈ effs l) as Hal by (apply list_elem_of_omap; eauto).
  assert (∀ b, b ∈ effs l → ¬ at_of b ≺ d_at d → b = a) as Honly.
  { intros b Hb Hnlt. pose proof Hb as (c & Hc & Hcb)%list_elem_of_omap.
    pose proof (eff_at _ _ Hcb) as Hbc. specialize (Hmax c Hc). rewrite <-Hbc in Hmax.
    assert (at_of b = at_of a) as Heq by (change (at_of a) with (d_at d); tord).
    apply (proj1 Hu); [done..|by rewrite Heq]. }
  destruct (merge_all_entity_ok l en Hdel Hen) as (_ & Hvok & Hvs & _ & HM & HA & HR & HD).
  assert (∀ b f el tag, b ∈ effs l → ¬ removes_el (ef_writes b) f el tag) as Hnorem.
  { intros b f el tag (c & Hc & Hcb)%list_elem_of_omap (v & Hv & _).
    rewrite Forall_forall in HF. specialize (HF c Hc). unfold eff, full_state in *.
    destruct (d_inner c); [done|]. injection Hcb as <-. by apply legacy_writes_kinds in Hv. }
  assert (∀ f m, candidate l f m ↔ write_of a f = Some m) as Hcand.
  { intros f m. unfold candidate. rewrite Hfl, elem_of_all_writes. simpl. split.
    - intros [(b & Hb & Hw) Hnlt%bool_decide_eq_false]. rewrite (write_of_at _ _ _ Hw) in Hnlt.
      by rewrite <-(Honly b Hb Hnlt).
    - intros Hw. split; [by exists a|]. rewrite (write_of_at _ _ _ Hw).
      apply bool_decide_eq_false. apply tlt_irrefl. }
  assert (∀ f m, maximal l f m ↔ write_of a f = Some m) as Hmaxi.
  { intros f m. unfold maximal. setoid_rewrite Hcand. split; [by intros [? _]|].
    intros Hw. split; [done|]. intros n Hn. rewrite Hw in Hn. injection Hn as <-.
    unfold hist. rewrite <-Hvs. apply before_irrefl. }
  assert (∀ f, merge_registers (en_registers en) !! f = write_of a f) as Hregs.
  { intros f. destruct (register_rows l en f Hdel Hen) as (Hw & Hno & _).
    destruct (write_of a f) as [m|] eqn:E.
    - apply Hw. split; [by apply Hmaxi|]. intros n Hn%Hmaxi. rewrite E in Hn. injection Hn as <-. apply tle_refl.
    - apply Hno. intros m Hm%Hcand. congruence. }
  split_and!.
  - intros f. rewrite Hregs. done.
  - intros f op. destruct (register_losers _ !! _) as [lo|] eqn:E; [|done].
    apply (register_rows l en f Hdel Hen) in E as (m & Hm%Hmaxi & Hne & _). by rewrite Hregs in Hne.
  - intros f op. destruct (counter_deltas _ !! _) as [x|] eqn:E; [|done].
    apply HD in E as (b & n & Hb & Hn & _). apply list_elem_of_omap in Hb as (c & Hc & Hcb).
    rewrite Forall_forall in HF. specialize (HF c Hc). unfold eff, full_state in *.
    destruct (d_inner c); [done|]. injection Hcb as <-. simpl in Hn. unfold first_inc in Hn.
    apply head_Some_elem_of, list_elem_of_omap in Hn as (w & Hw & Hw').
    apply legacy_writes_kinds in Hw. by destruct w.
  - apply set_eq. intros [[f el] tag]. split; [|by intros ?%not_elem_of_empty].
    intros (b & Hb & Hr)%HR. by destruct (Hnorem b f el tag Hb).
  - intros f el tag h. rewrite HA, Hfl. split.
    + intros (b & Hb & Hel & -> & -> & Hnlt%bool_decide_eq_false). by rewrite (Honly b Hb Hnlt) in *.
    + intros (-> & -> & Hel). exists a. split_and!; try done.
      apply bool_decide_eq_false. apply tlt_irrefl.
Qed.
End deliveries.

(** ** Worked deliveries *)

(** A codec for the examples: one tag byte, then the text's codes or the
    integer. *)
Definition example_writer (v : Value) : bytes * bool :=
  match v with
  | Integer n => ([0; n], true)
  | Bool b => ([1; if b then 1 else 0], true)
  | Null => ([2], true)
  | Text s => (3 :: ((λ c, Z.of_nat (Ascii.nat_of_ascii c)) <$> list_ascii_of_string s), true)
  | _ => ([], false)
  end.
Definition example_reader (_ : nat) (b : bytes) : result ValueDecodeError (Value * bytes) :=
  match b with
  | 0 :: n :: rest => Ok (Integer n, rest)
  | 1 :: x :: rest => Ok (Bool (bool_decide (x = 1)), rest)
  | 2 :: rest => Ok (Null, rest)
  | 3 :: codes => Ok (Text (string_of_list_ascii ((λ z, Ascii.ascii_of_nat (Z.to_nat z)) <$> codes)), [])
  | _ => Err Malformed
  end.
Definition example_codec : Ciborium := {| into_writer := example_writer; from_reader := example_reader |}.
Definition any_fits (k : EntityKind.t) (field : string) (v : Value) : bool := true.

#[export] Instance encodable_write_dec `{Ciborium} w : Decision (encodable_write w).
Proof. destruct w as [? [?|]|?|?|?|?]; simpl; apply _. Defined.

Lemma deliverable_by `{Ciborium} (fits : EntityKind.t → string → Value → bool) (e : EntitySpec) (l : list DOp) :
  NoDup ((λ d, op_ref (d_at d)) <$> l) → Forall encodable_write (effs fits e l ≫= ef_writes) →
  deliverable fits e l.
Proof.
  intros Hnd Henc. split.
  - intros c d (i & Hi)%list_elem_of_lookup (j & Hj)%list_elem_of_lookup Heq.
    assert (i = j) as ->; [|congruence]. eapply (NoDup_lookup _ _ _ (op_ref (d_at c)) Hnd).
    + by rewrite list_lookup_fmap, Hi.
    + by rewrite list_lookup_fmap, Hj, Heq.
  - intros d a Hd Ha. rewrite Forall_forall in Henc |- *. intros w Hw. apply Henc.
    apply list_elem_of_bind. exists a. split; [done|]. apply list_elem_of_omap. eauto.
Qed.

(** Three devices: one creates a task, a second marks it done, and a third,
    whose clock is ahead, marks it in progress without having seen that; the
    task also has a context, and a routine's retitling. *)
Definition example_stamp (ms device seq : Z) : LwwStamp := mkLww (mkHlc ms 0) device seq.
Definition set_to (name : string) (v : Value) : string * Value :=
  (name, VMap [(Text "set", v)]).
Definition patch_op (ms device seq : Z) (origin : option string) (parents : list OpRef)
    (fields : list (string * Value)) : DOp :=
  mkDOp (OpPatch (mkPatch EntityKind.Task 5 (bool_decide (parents = [])) origin (Some parents) None fields))
    (example_stamp ms device seq) 1 None.
Definition d_new : DOp :=
  patch_op 100 1 1 None [] [("contexts"%string, VMap [(Text "add", Array [Integer 7])]);
                            set_to "state" (Text "todo"); set_to "title" (Text "call")].
Definition d_done : DOp := patch_op 200 2 1 None [op_ref (d_at d_new)] [set_to "state" (Text "done")].
Definition d_doing : DOp :=
  patch_op 300 3 1 None [op_ref (d_at d_new)] [set_to "state" (Text "in_progress")].
Definition d_routine : DOp :=
  patch_op 400 4 1 (Some "generated"%string) [op_ref (d_at d_new)] [set_to "state" (Text "todo")].
Definition example_ops : list DOp := [d_new; d_done; d_doing; d_routine].
Definition example_other : list DOp := [d_routine; d_done; d_routine; d_doing; d_new; d_done].

Definition old_op (ms device seq : Z) (title : string) (contexts : list Value) : DOp :=
  mkDOp (OpLegacy "task.update" [(Text "contexts", Array contexts); (Text "title", Text title)])
    (example_stamp ms device seq) 1 None.
Definition d_old : DOp := old_op 100 1 1 "call" [Integer 7].
Definition d_newer : DOp := old_op 200 2 1 "call back" [Integer 8].
Definition example_legacy : list DOp := [d_newer; d_old].

#[local] Existing Instance example_codec.

Lemma example_deliverable : deliverable any_fits task_spec example_ops.
Proof.
  apply deliverable_by.
  - apply (bool_decide_unpack _). vm_compute. exact I.
  - apply (bool_decide_unpack _). vm_compute. exact I.
Qed.
Lemma example_legacy_deliverable : deliverable any_fits task_spec example_legacy.
Proof.
  apply deliverable_by.
  - apply (bool_decide_unpack _). vm_compute. exact I.
  - apply (bool_decide_unpack _). vm_compute. exact I.
Qed.

Definition example_entity : Entity :=
  default no_entity (merge_all any_fits task_spec no_entity example_ops).
Lemma example_merged : merge_all any_fits task_spec no_entity example_ops = Some example_entity.
Proof.
  destruct (merge_all_ok any_fits task_spec _ example_deliverable) as (en & Hen & _).
  unfold example_entity. by rewrite Hen.
Qed.

Lemma merge_converges_witness :
  deliverable any_fits task_spec example_ops ∧ (∀ d, d ∈ example_ops ↔ d ∈ example_other) ∧
  ∃ en, merge_all any_fits task_spec no_entity example_ops = Some en ∧
        merge_all any_fits task_spec no_entity example_other = Some en.
Proof.
  assert (∀ d, d ∈ example_ops ↔ d ∈ example_other) as Hext.
  { intros d. unfold example_ops, example_other. rewrite !elem_of_cons. tauto. }
  split; [exact example_deliverable|]. split; [exact Hext|].
  exact (merge_converges any_fits task_spec _ _ example_deliverable Hext).
Defined.

Lemma merge_tables_exact_witness :
  deliverable any_fits task_spec example_ops ∧
  ∃ en, merge_all any_fits task_spec no_entity example_ops = Some en ∧
        en_meta en = meta_of (effs any_fits task_spec example_ops).
Proof.
  split; [exact example_deliverable|].
  destruct (merge_tables_exact any_fits task_spec example_ops example_deliverable)
    as (en & Hen & Hm & _).
  exists en. split; [exact Hen|exact Hm].
Defined.

Definition m_done : Member :=
  mkMember (d_at d_done) (Some [3; 100; 111; 110; 101]) "user".
Definition m_doing : Member :=
  mkMember (d_at d_doing) (Some [3; 105; 110; 95; 112; 114; 111; 103; 114; 101; 115; 115]) "user".

Lemma register_winner_rule_witness :
  deliverable any_fits task_spec example_ops ∧
  merge_all any_fits task_spec no_entity example_ops = Some example_entity ∧
  merge_registers (en_registers example_entity) !! "state"%string = Some m_done ∧
  maximal any_fits task_spec example_ops "state" m_done ∧
  maximal any_fits task_spec example_ops "state" m_doing.
Proof.
  destruct (register_winner_rule any_fits task_spec _ _ "state" example_deliverable example_merged)
    as (Hw & _ & Hlo).
  assert (merge_registers (en_registers example_entity) !! "state"%string = Some m_done) as Hs
    by (vm_compute; reflexivity).
  assert (register_losers (en_registers example_entity) !! ("state"%string, op_ref (d_at d_doing)) =
    Some (mkLoser m_doing false)) as Hl by (vm_compute; reflexivity).
  split; [exact example_deliverable|]. split; [exact example_merged|]. split; [exact Hs|].
  split; [exact (proj1 (proj1 (Hw _) Hs))|].
  apply Hlo in Hl as (m & Hm & _ & _ & Heq). assert (m_doing = m) as -> by (by injection Heq). exact Hm.
Defined.

Lemma example_doing_maximal : maximal any_fits task_spec example_ops "state" m_doing.
Proof.
  assert (register_losers (en_registers example_entity) !! ("state"%string, op_ref (d_at d_doing)) =
    Some (mkLoser m_doing false)) as Hl by (vm_compute; reflexivity).
  apply (register_rows any_fits task_spec _ _ _ example_deliverable example_merged) in Hl
    as (m & Hm & _ & _ & Heq). assert (m_doing = m) as -> by (by injection Heq). exact Hm.
Qed.

(** The terminal state stands against a later clock. *)
Lemma survivors_ranked_witness :
  deliverable any_fits task_spec example_ops ∧
  merge_registers (en_registers example_entity) !! "state"%string = Some m_done ∧
  maximal any_fits task_spec example_ops "state" m_doing ∧ m_at m_done ≺ m_at m_doing ∧
  (m_origin m_doing ≠ GENERATED → m_origin m_done ≠ GENERATED).
Proof.
  assert (merge_registers (en_registers example_entity) !! "state"%string = Some m_done) as Hs
    by (vm_compute; reflexivity).
  split; [exact example_deliverable|]. split; [exact Hs|]. split; [exact example_doing_maximal|].
  split; [vm_compute; reflexivity|].
  exact (proj1 (survivors_ranked any_fits task_spec _ _ _ _ _ example_deliverable example_merged Hs
                  example_doing_maximal)).
Defined.

Lemma example_legacy_greatest c : c ∈ example_legacy → d_at c ≼ d_at d_newer.
Proof.
  assert (Forall (λ c, d_at c ≼ d_at d_newer) example_legacy) as HF
    by (apply (bool_decide_unpack _); vm_compute; exact I).
  rewrite Forall_forall in HF. apply HF.
Qed.

Lemma full_state_history_is_lww_witness :
  deliverable any_fits task_spec example_legacy ∧ Forall full_state example_legacy ∧
  ∃ en, merge_all any_fits task_spec no_entity example_legacy = Some en ∧
    (∀ f op, counter_deltas (en_fields en) !! (f, op) = None) ∧
    m_value <$> merge_registers (en_registers en) !! "title"%string =
      Some (enc (Text "call back")).
Proof.
  assert (Forall full_state example_legacy) as HF by (repeat constructor).
  destruct (merge_all_ok any_fits task_spec _ example_legacy_deliverable) as (en & Hen & _).
  split; [exact example_legacy_deliverable|]. split; [exact HF|]. exists en. split; [exact Hen|].
  destruct (full_state_history_is_lww any_fits task_spec example_legacy en d_newer _ _
    example_legacy_deliverable HF Hen ltac:(by left) example_legacy_greatest eq_refl)
    as (Hr & _ & Hc & _).
  split; [exact Hc|]. rewrite Hr. vm_compute. reflexivity.
Defined.
