(* ===== verification/Project.v ===== *)
(** * Reading the merge state back as an entity (engine/merge/project.rs)

    [project] is the entity's CBOR map as a function of its tables.  What it
    takes from other libraries is the interface [ProjectionLib]: the JSON of a
    registered default, jiff's timestamps, and the routine's derived streak,
    which goes through serde's reading of a [Routine].  Writing the map to its
    SQL row ([write_projection]) is not modelled. *)

From Stdlib Require Import ZArith Lia Ascii String.
From stdpp Require Import base tactics decidable countable option list strings gmap relations.
From S2P Require Import Prelude Bytes Cbor Hlc Registry Stamp Versions Patch Registers FieldState Fold Convergence.
Open Scope Z_scope.

Class ProjectionLib := {
  (** [serde_json::from_str], then [Value::serialized] *)
  json_value : string → option Value;
  (** [Timestamp::from_millisecond], as the instant's nanoseconds *)
  from_millisecond : Z → option Z;
  (** a [Timestamp] written as a value, and read from one *)
  ts_value : Z → Value;
  value_ts : Value → option Z;
  (** [derive_streak] on the fields of a routine *)
  derived_streak : gmap string Value → gmap string Value;
}.

(** A [BTreeMap] in its iteration order. *)
Definition key_le {A} (x y : string * A) : Prop := string_le x.1 y.1.
#[export] Instance key_le_dec {A} : RelDecision (@key_le A).
Proof. intros x y. unfold key_le. apply _. Defined.
Definition btree {A} (m : gmap string A) : list (string * A) := isort key_le (map_to_list m).

Definition text_map (m : gmap string Value) : Value :=
  VMap ((λ kv, (Text kv.1, kv.2)) <$> btree m).

(** Below the legacy floor. *)
Definition superseded (at_ : Stamp) (legacy : option Stamp) : bool :=
  match legacy with Some l => bool_decide (at_ ≺ l) | None => false end.

(** A map field from its entries and from the write of the whole field. *)
Definition map_over_whole (whole : option (Value * Stamp)) (entries : list (string * Value * Stamp)) :
    option Value :=
  match whole with
  | None => Some (VMap ((λ kv, (Text kv.1.1, kv.1.2)) <$> filter (λ kv, is_null kv.1.2 = false) entries))
  | Some (value, at_) =>
      let newer := (λ kv, kv.1) <$> filter (λ kv, at_ ≺ kv.2) entries in
      let step base kv :=
        let base := filter (λ x, as_text x.1 ≠ Some kv.1) base in
        if is_null kv.2 then base else base ++ [(Text kv.1, kv.2)] in
      match value, newer with
      | VMap base, _ => Some (VMap (foldl step base newer))
      | _, [] => None
      | _, _ => Some (VMap (foldl step [] newer))
      end
  end.

Section project.
Context `{Ciborium, ProjectionLib} (e : EntitySpec) (legacy : option Stamp).

Definition crdt_of (name : string) : option Crdt :=
  r ← head (e_records e); f_crdt <$> field_named r name.

Definition own_fields : list FieldSpec :=
  match head (e_records e) with Some r => r_fields r | None => [] end.
Definition fields_of_crdt (c : Crdt) : gset string :=
  list_to_set (f_name <$> filter (λ f, f_crdt f = c) own_fields).

(** ** Registers *)

Definition register_rows (db : RegTables) : gmap string (option Value * Stamp) :=
  (λ m, (decoded m, m_at m)) <$> merge_registers db.

(** The value a register row puts at its path. *)
Definition shown (field : string) (row : option Value * Stamp) : option Value :=
  if superseded row.2 legacy || bool_decide (crdt_of field = Some Counter) then None else row.1.

Definition nested_path (field : string) : option (string * string) :=
  '(parent, child) ← split_once "." field;
  _ ← nested_record e parent;
  Some (parent, child).

Definition top_registers (regs : gmap string (option Value * Stamp)) : gmap string Value :=
  map_imap (λ field row, match nested_path field with Some _ => None | None => shown field row end) regs.

Definition nested_registers (regs : gmap string (option Value * Stamp)) : gmap string Value :=
  let children := omap (λ row : string * (option Value * Stamp),
    '(parent, child) ← nested_path row.1; v ← shown row.1 row.2; Some (parent, (child, v))) (map_to_list regs) in
  let under parent : gmap string Value :=
    list_to_map (snd <$> filter (λ c : string * (string * Value), c.1 = parent) children) in
  list_to_map ((λ parent, (parent, text_map (under parent))) <$> children.*1).

(** ** OR-sets *)

(** Text by its string, then anything else by its bytes. *)
Definition element_order (el : bytes) : Z * bytes :=
  match dec el with Text s => (0, text_bytes s) | _ => (1, el) end.
Definition element_le (a b : bytes) : Prop := element_order a ≼ element_order b.
#[export] Instance element_le_dec : RelDecision element_le.
Proof. intros a b. unfold element_le. apply _. Defined.
Definition bytes_le (a b : bytes) : Prop := a ≼ b.
#[export] Instance bytes_le_dec : RelDecision bytes_le.
Proof. intros a b. unfold bytes_le. apply _. Defined.

(** The adds that count: not below the floor, and no remove names their tag. *)
Definition live_adds (db : FieldTables) : gmap (string * bytes * OpRef) Hlc :=
  filter (λ row : (string * bytes * OpRef) * Hlc,
    superseded (row_stamp row.2 row.1.2) legacy = false ∧ row.1 ∉ orset_removes db) (orset_adds db).

Definition live_elements (db : FieldTables) (field : string) : gset bytes :=
  list_to_set ((λ row, row.1.1.2) <$> filter (λ row, row.1.1.1 = field) (map_to_list (live_adds db))).

Definition set_value (db : FieldTables) (field : string) : Value :=
  Array (dec <$> isort element_le (isort bytes_le (elements (live_elements db field)))).

Definition set_fields (db : FieldTables) : gset string :=
  fields_of_crdt OrSet ∪ set_map (λ k, k.1.1) (dom (orset_adds db)).

(** ** Counters *)

Definition counter_base (regs : gmap string (option Value * Stamp)) (field : string) : Z :=
  match regs !! field with
  | Some (Some (Integer n), at_) =>
      if superseded at_ legacy then 0
      else if decide (i64_min ≤ n ≤ i64_max) then n else 0
  | _ => 0
  end.

(** A counter's rows, in the order of the table's primary key. *)
Definition delta_le (a b : (string * OpRef) * (Hlc * Z)) : Prop := a.1.2 ≼ b.1.2.
#[export] Instance delta_le_dec : RelDecision delta_le.
Proof. intros a b. unfold delta_le. apply _. Defined.
Definition delta_rows (db : FieldTables) (field : string) : list ((string * OpRef) * (Hlc * Z)) :=
  isort delta_le (filter (λ row, row.1.1 = field) (map_to_list (counter_deltas db))).

Definition counter_value (regs : gmap string (option Value * Stamp)) (db : FieldTables) (field : string) : Z :=
  foldl (λ n row,
    if match legacy with None => true | Some l => bool_decide (l ≺ row_stamp row.2.1 row.1.2) end
    then sat_add_i64 n row.2.2 else n) (counter_base regs field) (delta_rows db field).

Definition counter_fields (db : FieldTables) : gset string :=
  fields_of_crdt Counter ∪ set_map (λ k, k.1) (dom (counter_deltas db)).

(** ** Maps *)

Definition entry_le (a b : string * Value * Stamp) : Prop := string_le a.1.1 b.1.1.
#[export] Instance entry_le_dec : RelDecision entry_le.
Proof. intros a b. unfold entry_le. apply _. Defined.

Definition map_rows (db : FieldTables) (field : string) : list (string * Value * Stamp) :=
  isort entry_le (omap (λ row : (string * string) * MapEntry,
    if decide (row.1.1 = field ∧ superseded (me_at row.2) legacy = false)
    then Some (row.1.2, dec (me_value row.2), me_at row.2) else None) (map_to_list (map_entries db))).

Definition whole_write (regs : gmap string (option Value * Stamp)) (field : string) : option (Value * Stamp) :=
  match regs !! field, crdt_of field with
  | Some (Some v, at_), None => if superseded at_ legacy then None else Some (v, at_)
  | _, _ => None
  end.

Definition map_fields (db : FieldTables) : gset string :=
  fields_of_crdt Map ∪ set_map (λ k, k.1) (dom (map_entries db)).

(** ** The whole entity *)

(** [m.insert] for every key of [ks] that [f] gives a value. *)
Definition insert_all (ks : gset string) (f : string → option Value) (m : gmap string Value) : gmap string Value :=
  foldl (λ m k, match f k with Some v => <[k := v]> m | None => m end) m (elements ks).

Definition ms_to_ts (ms : Z) : Z := default 0 (from_millisecond ms).
Definition ms_value (ms : Z) : Z := ms_to_ts (if decide (ms ≤ i64_max) then ms else i64_max).

(** Identity and the two derived timestamps. *)
Definition with_timestamps (meta : Meta) (top : gmap string Value) : gmap string Value :=
  let top :=
    match top !! "created_at"%string with
    | Some _ => top
    | None =>
        let ms := match mt_create meta with Some c => physical_ms (s_hlc c) | None => 0 end in
        <["created_at"%string := ts_value (ms_value ms)]> top
    end in
  let written := top !! "updated_at"%string ≫= value_ts in
  let patched := ms_value <$> mt_patch_ms meta in
  match written, patched with
  | Some w, Some p => <["updated_at"%string := ts_value (Z.max w p)]> top
  | Some t, None | None, Some t => <["updated_at"%string := ts_value t]> top
  | None, None =>
      match top !! "created_at"%string with
      | Some created => <["updated_at"%string := created]> top
      | None => top
      end
  end.

Definition field_default (field : string) : option Value :=
  r ← head (e_records e);
  f ← field_named r field;
  f_default f ≫= json_value.
Definition defaulted : gset string :=
  list_to_set (f_name <$> filter (λ f, is_Some (f_default f)) own_fields).

Definition with_defaults (top : gmap string Value) : gmap string Value :=
  insert_all defaulted (λ f, match top !! f with Some _ => None | None => field_default f end) top.

Definition keys_written_by_a_patch (t : VTables) : bool :=
  existsb (λ r, wrote_keys (row_version r) &&
                negb (match legacy with Some l => bool_decide (row_at r ≼ l) | None => false end)) (rows t).

(** The fields the tables give, before identity and the derived ones. *)
Definition merged_fields (regs : RegTables) (db : FieldTables) : gmap string Value :=
  let rows := register_rows regs in
  let top := nested_registers rows ∪ top_registers rows in
  let top := insert_all (set_fields db) (λ f, Some (set_value db f)) top in
  let top := insert_all (counter_fields db) (λ f, Some (Integer (counter_value rows db f))) top in
  insert_all (map_fields db) (λ f, map_over_whole (whole_write rows f) (map_rows db f)) top.
End project.

Definition project `{Ciborium, ProjectionLib} (e : EntitySpec) (id_value : Value) (meta : Meta) (en : Entity) :
    option Value :=
  if mt_created meta then
    let legacy := mt_legacy meta in
    let top := <["id"%string := id_value]> (merged_fields e legacy (en_registers en) (en_fields en)) in
    let top := with_defaults e (with_timestamps meta top) in
    let top := if bool_decide (e_kind e = EntityKind.Routine) && keys_written_by_a_patch legacy (en_versions en)
               then derived_streak top else top in
    Some (text_map top)
  else None.

(** ** Lemmas *)

Lemma lookup_insert_all ks f m k :
  insert_all ks f m !! k =
  if decide (k ∈ ks) then match f k with Some v => Some v | None => m !! k end else m !! k.
Proof.
  assert (∀ (l : list string) (m : gmap string Value), NoDup l →
    foldl (λ m k, match f k with Some v => <[k := v]> m | None => m end) m l !! k =
    if decide (k ∈ l) then match f k with Some v => Some v | None => m !! k end else m !! k) as Hl.
  { clear ks m. intros l. induction l as [|x l IH]; intros m Hnd; cbn [foldl].
    { by rewrite decide_False by apply not_elem_of_nil. }
    apply NoDup_cons in Hnd as [Hx Hnd]. rewrite IH by done.
    destruct (decide (k = x)) as [->|Hne].
    - rewrite decide_False by done. rewrite decide_True by by left.
      destruct (f x); [apply lookup_insert_eq|done].
    - assert (match f x with Some v => <[x:=v]> m | None => m end !! k = m !! k) as Hm.
      { destruct (f x); [by rewrite lookup_insert_ne|done]. }
      rewrite Hm. destruct (decide (k ∈ l)) as [Hl|Hl].
      + by rewrite decide_True by by right.
      + rewrite decide_False; [done|]. by intros [?|?]%elem_of_cons. }
  unfold insert_all. rewrite Hl by apply NoDup_elements.
  destruct (decide (k ∈ ks)) as [Hk|Hk].
  - by rewrite decide_True by by apply elem_of_elements.
  - by rewrite decide_False by by rewrite elem_of_elements.
Qed.

Lemma superseded_below floor at_ : superseded at_ floor = below_floor floor at_.
Proof. done. Qed.

Section reads.
Context `{Ciborium} (value_fits : EntityKind.t → string → Value → bool) (e : EntitySpec).
Implicit Types (l : list DOp) (en : Entity).

Abbreviation floor l := (floor_of (effs value_fits e l)).

Lemma elem_of_live legacy db f el :
  el ∈ live_elements legacy db f ↔
  ∃ tag h, orset_adds db !! (f, el, tag) = Some h ∧ superseded (row_stamp h tag) legacy = false ∧
           (f, el, tag) ∉ orset_removes db.
Proof.
  unfold live_elements, live_adds. rewrite elem_of_list_to_set, list_elem_of_fmap. split.
  - intros ([[[f' el'] tag] h] & -> & [Hf Hrow]%list_elem_of_filter). simpl in *. subst f'.
    apply elem_of_map_to_list, map_lookup_filter_Some in Hrow as [Ha [Hs Hr]]. eauto.
  - intros (tag & h & Ha & Hs & Hr). exists (f, el, tag, h). split; [done|].
    apply list_elem_of_filter. split; [done|]. apply elem_of_map_to_list, map_lookup_filter_Some. done.
Qed.

Lemma merged_set (legacy : option Stamp) regs db f :
  f ∈ set_fields e db → f ∉ counter_fields e db → f ∉ map_fields e db →
  merged_fields e legacy regs db !! f = Some (set_value legacy db f).
Proof.
  intros Hs Hc Hm. unfold merged_fields. rewrite lookup_insert_all, decide_False by done.
  rewrite lookup_insert_all, decide_False by done. by rewrite lookup_insert_all, decide_True.
Qed.

(** C19: an OR-set reads as exactly the elements added and not removed by an op
    that had seen the add: an element is there when some op at or above the
    legacy floor added it and no op, in any order of arrival, removed it by
    that op's own tag; so a concurrent add survives a remove.  A set field the
    entity's tables hold nothing else under is projected as the array of its
    elements, each once. *)
Theorem orset_add_wins l en f :
  deliverable value_fits e l → merge_all value_fits e no_entity l = Some en →
  (∀ el, el ∈ live_elements (floor l) (en_fields en) f ↔
     ∃ a, a ∈ effs value_fits e l ∧ adds_el (ef_writes a) f el ∧ below_floor (floor l) (at_of a) = false ∧
          ∀ b, b ∈ effs value_fits e l → ¬ removes_el (ef_writes b) f el (op_ref (at_of a))) ∧
  (f ∈ set_fields e (en_fields en) → f ∉ counter_fields e (en_fields en) → f ∉ map_fields e (en_fields en) →
   ∃ els, merged_fields e (floor l) (en_registers en) (en_fields en) !! f = Some (Array (dec <$> els)) ∧
     NoDup els ∧ ∀ el, el ∈ els ↔ el ∈ live_elements (floor l) (en_fields en) f).
Proof.
  intros Hd Hen. destruct (merge_all_entity_ok _ _ l en Hd Hen) as (_ & _ & _ & _ & _ & HA & HR & _).
  split.
  - intros el. rewrite elem_of_live. split.
    + intros (tag & h & (a & Ha & Hel & -> & -> & Hfl)%HA & _ & Hno). exists a. split_and!; try done.
      intros b Hb Hrem. apply Hno, HR. by exists b.
    + intros (a & Ha & Hel & Hfl & Hno). exists (op_ref (at_of a)), (s_hlc (at_of a)). split_and!.
      * apply HA. by exists a.
      * by rewrite row_stamp_at.
      * intros (b & Hb & Hrem)%HR. by apply (Hno b).
  - intros Hs Hc Hm. rewrite merged_set by done. unfold set_value.
    exists (isort element_le (isort bytes_le (elements (live_elements (floor l) (en_fields en) f)))).
    split; [done|]. split.
    + rewrite !isort_Permutation. apply NoDup_elements.
    + intros el. by rewrite !elem_of_isort, elem_of_elements.
Qed.

(** *** Counters *)

Definition sum (l : list Z) : Z := foldr Z.add 0 l.

Lemma sat_fold (ds : list Z) n :
  i64_min ≤ n ≤ i64_max → Z.abs n + sum (Z.abs <$> ds) ≤ i64_max →
  foldl sat_add_i64 n ds = n + sum ds.
Proof.
  revert n. induction ds as [|d ds IH]; intros n Hn Hb; cbn [foldl]; [unfold sum; simpl; lia|].
  assert (0 ≤ sum (Z.abs <$> ds)) as Hpos.
  { clear. induction ds as [|d ds IH]; [done|].
    change (sum (Z.abs <$> d :: ds)) with (Z.abs d + sum (Z.abs <$> ds)). lia. }
  change (sum (Z.abs <$> d :: ds)) with (Z.abs d + sum (Z.abs <$> ds)) in Hb.
  change (sum (d :: ds)) with (d + sum ds).
  assert (sat_add_i64 n d = n + d) as -> by (widths; lia).
  rewrite IH; widths; lia.
Qed.

Lemma sat_fold_bounds (ds : list Z) n :
  (i64_min ≤ n ≤ i64_max) → i64_min ≤ foldl sat_add_i64 n ds ≤ i64_max.
Proof.
  revert n. induction ds as [|d ds IH]; intros n Hn; simpl; [done|]. apply IH. widths. lia.
Qed.

Lemma counter_base_bounds legacy rows f : i64_min ≤ counter_base legacy rows f ≤ i64_max.
Proof.
  unfold counter_base. destruct (rows !! f) as [[[[n| | | | | | | |]|] at_]|]; try (widths; lia).
  destruct (superseded at_ legacy); [widths; lia|]. case_decide; [done|widths; lia].
Qed.

(** The deltas of a delivery to one counter, one per op, above the floor. *)
Definition delta_of (floor : option Stamp) (f : string) (a : Eff) : option Z :=
  if at_or_below_floor floor (at_of a) then None else first_inc (ef_writes a) f.

Lemma effs_NoDup l : one_op_per_ref l → NoDup l → NoDup ((λ a, op_ref (at_of a)) <$> effs value_fits e l).
Proof.
  intros Hone Hnd. induction l as [|d l IH]; [constructor|]. apply NoDup_cons in Hnd as [Hd Hnd].
  assert (one_op_per_ref l) as Hl by (intros x y Hx Hy; apply Hone; by right).
  unfold effs in *. simpl. destruct (eff value_fits e d) as [a|] eqn:Ea; [|by apply IH].
  simpl. apply NoDup_cons. split; [|by apply IH].
  intros (b & Hr & (c & Hc & Hb)%list_elem_of_omap)%list_elem_of_fmap.
  rewrite (eff_at _ _ _ _ Ea), (eff_at _ _ _ _ Hb) in Hr.
  rewrite (Hone d c ltac:(by left) ltac:(by right) Hr) in Hd. done.
Qed.

Lemma sum_Permutation (l1 l2 : list Z) : l1 ≡ₚ l2 → sum l1 = sum l2.
Proof. unfold sum. induction 1; simpl; lia. Qed.

Lemma delta_rows_deltas l en f :
  deliverable value_fits e l → merge_all value_fits e no_entity l = Some en →
  (λ row, row.2.2) <$> delta_rows (en_fields en) f ≡ₚ
    omap (delta_of (floor l) f) (effs value_fits e (remove_dups l)).
Proof.
  intros Hd Hen. destruct (merge_all_entity_ok _ _ l en Hd Hen) as (_ & _ & _ & _ & _ & _ & _ & HD).
  assert (one_op_per_ref (remove_dups l)) as Hone.
  { intros x y. rewrite !elem_of_remove_dups. apply Hd. }
  pose proof (effs_NoDup _ Hone (NoDup_remove_dups l)) as Hops.
  assert (∀ a, a ∈ effs value_fits e (remove_dups l) ↔ a ∈ effs value_fits e l) as HM
    by (intros a; apply effs_ext; intros d; apply elem_of_remove_dups).
  set (M := effs value_fits e (remove_dups l)) in *. set (L := effs value_fits e l) in *.
  set (row_of a := (λ n, ((f, op_ref (at_of a)), (s_hlc (at_of a), n))) <$> delta_of (floor_of L) f a).
  assert (∀ (L' : list Eff) x, x ∈ omap row_of L' ↔ ∃ a n, a ∈ L' ∧ delta_of (floor_of L) f a = Some n ∧
            x = ((f, op_ref (at_of a)), (s_hlc (at_of a), n))) as Hrow.
  { intros L' x. rewrite list_elem_of_omap. unfold row_of. setoid_rewrite fmap_Some.
    split; [intros (a & Ha & n & Hn & ->)|intros (a & n & Ha & Hn & ->)]; eauto 10. }
  assert (delta_rows (en_fields en) f ≡ₚ omap row_of M) as ->.
  { unfold delta_rows. rewrite isort_Permutation. apply NoDup_Permutation.
    - apply NoDup_filter, NoDup_map_to_list.
    - clear HD HM. clearbody M. revert Hops. generalize M as L'. intros L'.
      induction L' as [|a L' IH]; intros Hops; [constructor|]. simpl in *.
      apply NoDup_cons in Hops as [Ha Hops]. destruct (row_of a) as [x|] eqn:E; [|by apply IH].
      apply NoDup_cons. split; [|by apply IH]. intros (b & n & Hb & _ & Heq)%Hrow. apply Ha.
      unfold row_of in E. apply fmap_Some in E as (n' & _ & ->).
      apply list_elem_of_fmap. exists b. split; [congruence|done].
    - intros [[f' op] x]. rewrite list_elem_of_filter, elem_of_map_to_list, HD, Hrow. simpl. split.
      + intros [-> (a & n & Ha & Hn & -> & -> & Hfl)]. exists a, n. split_and!; try done; [by apply HM|].
        unfold delta_of. by rewrite Hfl.
      + intros (a & n & Ha & Hn & [= -> -> ->]). split; [done|]. unfold delta_of in Hn.
        destruct (at_or_below_floor _ _) eqn:Hfl; [done|]. apply HM in Ha. exists a, n. by split_and!. }
  rewrite list_fmap_omap. erewrite (list_omap_ext _ (delta_of (floor_of L) f) M M); [done|].
  apply Forall_Forall2_diag, Forall_true. intros a. unfold row_of. by destruct (delta_of _ f a).
Qed.

Lemma counter_value_rows l en f :
  deliverable value_fits e l → merge_all value_fits e no_entity l = Some en →
  counter_value (floor l) (register_rows (en_registers en)) (en_fields en) f =
  foldl sat_add_i64 (counter_base (floor l) (register_rows (en_registers en)) f)
    ((λ row, row.2.2) <$> delta_rows (en_fields en) f).
Proof.
  intros Hd Hen. destruct (merge_all_entity_ok _ _ l en Hd Hen) as (_ & _ & _ & _ & _ & _ & _ & HD).
  assert (Forall (λ row, match floor l with None => True | Some fl => fl ≺ row_stamp row.2.1 row.1.2 end)
            (delta_rows (en_fields en) f)) as HF.
  { apply Forall_forall. intros [[f' op] x]. unfold delta_rows. rewrite elem_of_isort.
    intros [Hf Hrow]%list_elem_of_filter. apply elem_of_map_to_list, HD in Hrow.
    destruct Hrow as (a & n & _ & _ & -> & -> & Hfl). simpl. rewrite row_stamp_at.
    destruct (floor l) as [fl|]; [|done]. simpl in Hfl. apply bool_decide_eq_false in Hfl. tord. }
  unfold counter_value. revert HF. generalize (counter_base (floor l) (register_rows (en_registers en)) f).
  induction (delta_rows (en_fields en) f) as [|row rows IH]; intros n HF; [done|].
  apply Forall_cons_iff in HF as [Hrow HF]. cbn [foldl fmap list_fmap]. rewrite IH by done. do 2 f_equal.
  destruct (floor l); [|done]. by rewrite bool_decide_true.
Qed.

(** C20: a counter counts every op's delta exactly once: whatever the delivery,
    in any order and however often it repeats an op, the value stays an [i64],
    and while the running total can not overflow it is the base a full-state op
    left (0 without one) plus the sum over the distinct ops delivered of the
    first delta each makes above the legacy floor.  (A position has one op, and
    what the ops write encodes.) *)
Theorem counter_counts_each_op_once l en f :
  deliverable value_fits e l → merge_all value_fits e no_entity l = Some en →
  let base := counter_base (floor l) (register_rows (en_registers en)) f in
  let deltas := omap (delta_of (floor l) f) (effs value_fits e (remove_dups l)) in
  let value := counter_value (floor l) (register_rows (en_registers en)) (en_fields en) f in
  i64_min ≤ value ≤ i64_max ∧
  (Z.abs base + sum (Z.abs <$> deltas) ≤ i64_max → value = base + sum deltas).
Proof.
  intros Hd Hen base deltas value. unfold value. rewrite counter_value_rows by done.
  pose proof (counter_base_bounds (floor l) (register_rows (en_registers en)) f) as Hb.
  pose proof (delta_rows_deltas l en f Hd Hen) as Hp. split; [by apply sat_fold_bounds|].
  intros Hsum. rewrite sat_fold; [|done|].
  - f_equal. by apply sum_Permutation.
  - by rewrite (sum_Permutation _ _ (fmap_Permutation Z.abs _ _ Hp)).
Qed.
End reads.

(** *** Map fields *)

Lemma entry_app name l1 l2 :
  entry name (l1 ++ l2) = match entry name l1 with Some v => Some v | None => entry name l2 end.
Proof.
  unfold entry. induction l1 as [|[k v] l1 IH]; [done|]. simpl.
  destruct (bool_decide (as_text k = Some name)); [done|]. apply IH.
Qed.

Lemma entry_filter name k (l : list (Value * Value)) :
  entry name (filter (λ x, as_text x.1 ≠ Some k) l) = if decide (name = k) then None else entry name l.
Proof.
  unfold entry. induction l as [|[x v] l IH]; [by case_decide|]. rewrite filter_cons. simpl.
  destruct (decide (as_text x ≠ Some k)) as [Hx|Hx]; simpl.
  - destruct (bool_decide (as_text x = Some name)) eqn:E; [|exact IH].
    apply bool_decide_eq_true in E. rewrite decide_False; [done|congruence].
  - rewrite IH. destruct (decide (name = k)) as [->|Hne]; [done|].
    rewrite bool_decide_false; [done|]. destruct (decide (as_text x = Some k)); [congruence|by destruct Hx].
Qed.

(** What the entries [es], in key order with one per key, say of [name]. *)
Definition entry_for (name : string) (es : list (string * Value)) : option Value :=
  snd <$> List.find (λ kv, bool_decide (kv.1 = name)) es.

Lemma entry_for_None name es : name ∉ es.*1 → entry_for name es = None.
Proof.
  unfold entry_for. induction es as [|[k v] es IH]; [done|]. intros Hn. simpl in *.
  apply not_elem_of_cons in Hn as [Hk Hn]. rewrite bool_decide_false by congruence. by apply IH.
Qed.

Lemma entry_text name (es : list (string * Value)) :
  entry name ((λ kv, (Text kv.1, kv.2)) <$> es) = entry_for name es.
Proof.
  unfold entry, entry_for. induction es as [|[k v] es IH]; [done|]. simpl.
  rewrite (bool_decide_ext (Some k = Some name) (k = name)) by (split; [by intros [=]|by intros ->]).
  by case_bool_decide.
Qed.

Section over_whole.
Definition over_step (base : list (Value * Value)) (kv : string * Value) : list (Value * Value) :=
  let base := filter (λ x, as_text x.1 ≠ Some kv.1) base in
  if is_null kv.2 then base else base ++ [(Text kv.1, kv.2)].

Lemma entry_over_step name base kv :
  entry name (over_step base kv) =
  if decide (name = kv.1) then (if is_null kv.2 then None else Some kv.2) else entry name base.
Proof.
  unfold over_step. destruct kv as [k v]; simpl. destruct (is_null v).
  - by rewrite entry_filter.
  - rewrite entry_app, entry_filter. destruct (decide (name = k)) as [->|Hne].
    + unfold entry. simpl. by rewrite bool_decide_true.
    + destruct (entry name base); [done|]. unfold entry. simpl. rewrite bool_decide_false; [done|congruence].
Qed.

Lemma entry_fold_over name base es :
  NoDup es.*1 →
  entry name (foldl over_step base es) =
  match entry_for name es with
  | Some v => if is_null v then None else Some v
  | None => entry name base
  end.
Proof.
  revert base. induction es as [|[k v] es IH]; intros base Hnd; [done|].
  apply NoDup_cons in Hnd as [Hk Hnd]. simpl. rewrite IH by done.
  unfold entry_for at 2. simpl. destruct (decide (k = name)) as [->|Hne].
  - rewrite bool_decide_true by done. rewrite (entry_for_None name es) by done.
    rewrite entry_over_step. simpl. by rewrite decide_True.
  - rewrite bool_decide_false by done. fold (entry_for name es). destruct (entry_for name es); [done|].
    rewrite entry_over_step. simpl. by rewrite decide_False by congruence.
Qed.
End over_whole.

Definition newer_than (at_ : Stamp) (es : list (string * Value * Stamp)) : list (string * Value) :=
  (λ kv, kv.1) <$> filter (λ kv, at_ ≺ kv.2) es.

(** A write of a whole map field is the field's value as of its stamp and
    later entry writes edit it key by key: each key reads as the newest of the
    two, a null entry removes its key, an older entry is superseded even where
    the whole write has no such key, and a whole write that is no map stands
    until an entry is written after it. *)
Theorem map_over_whole_exact whole es :
  NoDup (es.*1).*1 →
  match whole with
  | None => ∃ m, map_over_whole whole es = Some (VMap m) ∧
      ∀ name, entry name m = match entry_for name es.*1 with
                             | Some v => if is_null v then None else Some v
                             | None => None
                             end
  | Some (v, at_) =>
      (newer_than at_ es = [] ∧ as_map v = None ∧ map_over_whole whole es = None) ∨
      ∃ m, map_over_whole whole es = Some (VMap m) ∧
        ∀ name, entry name m = match entry_for name (newer_than at_ es) with
                               | Some x => if is_null x then None else Some x
                               | None => entry name (default [] (as_map v))
                               end
  end.
Proof.
  intros Hnd. destruct whole as [[v at_]|].
  - assert (NoDup (newer_than at_ es).*1) as Hnd'.
    { unfold newer_than. revert Hnd. clear. induction es as [|[[k v] s] es IH]; [done|].
      intros [Hk Hnd]%NoDup_cons. rewrite filter_cons. case_decide; simpl; [|by apply IH].
      apply NoDup_cons. split; [|by apply IH]. intros Hin. apply Hk.
      apply list_elem_of_fmap in Hin as ([k' v'] & -> & Hin). apply list_elem_of_fmap in Hin as (x & -> & Hx).
      apply list_elem_of_filter in Hx as [_ Hx]. apply list_elem_of_fmap. exists x.1. split; [done|].
      by apply list_elem_of_fmap_2. }
    unfold map_over_whole. fold (newer_than at_ es). fold over_step.
    destruct v; try (destruct (newer_than at_ es) as [|x es'] eqn:En;
      [by left|right; eexists; split; [done|]; intros name; rewrite (entry_fold_over name [] (x :: es')); done]).
    right. eexists. split; [done|]. intros name. by rewrite entry_fold_over.
  - eexists. split; [done|]. intros name.
    revert Hnd. induction es as [|[[k v] s] es IH]; [done|]. intros [Hk Hnd]%NoDup_cons.
    specialize (IH Hnd). rewrite filter_cons. unfold entry_for. cbn [fmap list_fmap List.find fst snd].
    destruct (decide (k = name)) as [->|Hne].
    + rewrite (bool_decide_true (name = name)) by done. cbn [fmap option_fmap option_map snd].
      destruct (is_null v) eqn:En; [rewrite decide_False by done|rewrite decide_True by done].
      * by rewrite IH, entry_for_None.
      * unfold entry. simpl. by rewrite bool_decide_true.
    + rewrite bool_decide_false by done. fold (entry_for name es.*1). rewrite <-IH.
      destruct (is_null v); [by rewrite decide_False|rewrite decide_True by done].
      unfold entry. simpl. rewrite bool_decide_false; [done|congruence].
Qed.

(** ** A worked delivery: one device removes a context it saw added, another
    adds the same context without having seen the removal, and two defer the
    task. *)

#[local] Existing Instance example_codec.

Definition add_context : string * Value := ("contexts"%string, VMap [(Text "add", Array [Integer 7])]).
Definition defer_by (n : Z) : string * Value := ("deferred_count"%string, VMap [(Text "inc", Integer n)]).
Definition d_drop : DOp :=
  patch_op 200 2 1 None [op_ref (d_at d_new)]
    [("contexts"%string, VMap [(Text "remove", Array [Array [Integer 7; Array [to_value (op_ref (d_at d_new))]]])])].
Definition d_readd : DOp := patch_op 210 3 1 None [op_ref (d_at d_new)] [add_context; defer_by 2].
Definition d_defer : DOp := patch_op 220 4 1 None [op_ref (d_at d_new)] [defer_by 3].
Definition set_ops : list DOp := [d_new; d_drop; d_readd; d_defer].

Lemma set_ops_deliverable : deliverable any_fits task_spec set_ops.
Proof.
  apply deliverable_by.
  - apply (bool_decide_unpack _). vm_compute. exact I.
  - apply (bool_decide_unpack _). vm_compute. exact I.
Qed.

Definition set_entity : Entity := default no_entity (merge_all any_fits task_spec no_entity set_ops).
Lemma set_merged : merge_all any_fits task_spec no_entity set_ops = Some set_entity.
Proof.
  destruct (merge_all_ok any_fits task_spec _ set_ops_deliverable) as (en & Hen & _).
  unfold set_entity. by rewrite Hen.
Qed.

Lemma orset_add_wins_witness :
  deliverable any_fits task_spec set_ops ∧
  merge_all any_fits task_spec no_entity set_ops = Some set_entity ∧
  ef_writes <$> eff any_fits task_spec d_drop = Some [WRemove "contexts" (Integer 7) (op_ref (d_at d_new))] ∧
  ∃ a, a ∈ effs any_fits task_spec set_ops ∧ adds_el (ef_writes a) "contexts" [0; 7] ∧
    ∀ b, b ∈ effs any_fits task_spec set_ops → ¬ removes_el (ef_writes b) "contexts" [0; 7] (op_ref (at_of a)).
Proof.
  split; [exact set_ops_deliverable|]. split; [exact set_merged|]. split.
  { vm_compute. reflexivity. }
  destruct (orset_add_wins any_fits task_spec set_ops set_entity "contexts" set_ops_deliverable set_merged)
    as [Hlive _].
  assert ([0; 7] ∈ live_elements (floor_of (effs any_fits task_spec set_ops)) (en_fields set_entity) "contexts")
    as Hin by (apply (bool_decide_unpack _); vm_compute; exact I).
  apply Hlive in Hin as (a & Ha & Hel & _ & Hno). exists a. split; [exact Ha|]. split; [exact Hel|exact Hno].
Defined.

(** The same ops, the deferrals delivered twice. *)
Definition twice_ops : list DOp := set_ops ++ [d_defer; d_readd].
Lemma twice_ops_deliverable : deliverable any_fits task_spec twice_ops.
Proof.
  assert (∀ d, d ∈ twice_ops → d ∈ set_ops) as Hsub
    by (apply Forall_forall, (bool_decide_unpack _); vm_compute; exact I).
  destruct set_ops_deliverable as [Hone Henc]. split.
  - intros c d Hc Hd. by apply Hone; apply Hsub.
  - intros d a Hd. by apply Henc, Hsub.
Qed.

Lemma counter_counts_each_op_once_witness :
  deliverable any_fits task_spec twice_ops ∧
  ∃ en, merge_all any_fits task_spec no_entity twice_ops = Some en ∧
    counter_value (floor_of (effs any_fits task_spec twice_ops)) (register_rows (en_registers en))
      (en_fields en) "deferred_count" = 5.
Proof.
  split; [exact twice_ops_deliverable|].
  destruct (merge_all any_fits task_spec no_entity twice_ops) as [en|] eqn:E; [|vm_compute in E; discriminate].
  exists en. split; [reflexivity|].
  destruct (counter_counts_each_op_once any_fits task_spec twice_ops en "deferred_count" twice_ops_deliverable E)
    as [_ Hv].
  vm_compute in E. injection E as <-. rewrite Hv; vm_compute; congruence.
Defined.

Lemma map_over_whole_exact_witness :
  NoDup ([("a"%string, Integer 1, d_at d_new); ("b"%string, Null, d_at d_drop)].*1).*1 ∧
  ∃ m, map_over_whole (Some (VMap [(Text "b", Integer 5); (Text "c", Integer 6)], d_at d_new))
         [("a"%string, Integer 1, d_at d_new); ("b"%string, Null, d_at d_drop)] = Some (VMap m) ∧
    entry "a" m = None ∧ entry "b" m = None ∧ entry "c" m = Some (Integer 6).
Proof.
  assert (NoDup ([("a"%string, Integer 1, d_at d_new); ("b"%string, Null, d_at d_drop)].*1).*1) as Hnd
    by (apply (bool_decide_unpack _); vm_compute; exact I).
  split; [exact Hnd|].
  destruct (map_over_whole_exact (Some (VMap [(Text "b", Integer 5); (Text "c", Integer 6)], d_at d_new)) _ Hnd)
    as [(_ & Hno & _)|(m & Hm & He)]; [discriminate Hno|].
  exists m. split; [exact Hm|]. split; [|split]; rewrite He; vm_compute; reflexivity.
Defined.
