(* ===== verification/Prune.v ===== *)
(** * Pruning the version DAG (engine/merge/prune.rs)

    [passed] is the rule that says which of an entity's versions every device
    has moved past, and [prune_versions] deletes their rows.  The theorems show
    what a version that passes is, and that deleting the passed rows is
    invisible: to the heads, to the order of the versions kept, and to the
    admission of every later version. *)

From Stdlib Require Import ZArith Lia String.
From stdpp Require Import base tactics decidable countable option list strings gmap sorting relations.
From S2P Require Import Prelude Bytes Cbor Hlc Registry Stamp Versions Registers FieldState.
Open Scope Z_scope.

(** What a replica knows of the log and of the other devices. *)
Record Passage := mkPassage {
  pa_floors : gmap (Id * Id) Z;
  pa_cursors : gmap (Id * Id) Z;
  pa_acks : gmap (Id * Id * Id) Z;
  pa_writers : gset Id;
  pa_stuck : gset Id;
}.

Definition covered (p : Passage) (op : OpRef) : bool :=
  match pa_floors p !! (o_stream op, o_device op) with
  | Some f => bool_decide (o_seq op ≤ f)
  | None => false
  end.

Definition acknowledged (p : Passage) (device : Id) (q : OpRef) : bool :=
  if decide (device ∈ pa_stuck p) then false
  else
    let held := default 0 (pa_cursors p !! (o_stream q, device)) in
    if decide (o_device q = device) then bool_decide (o_seq q ≤ held)
    else
      let reaches := match pa_acks p !! (o_stream q, device, o_device q) with
                     | Some seq => bool_decide (o_seq q ≤ seq)
                     | None => false
                     end in
      let own := default 0 (pa_acks p !! (o_stream q, device, device)) in
      reaches && bool_decide (own ≤ held).

(** How far a set of versions reaches on each device, and whether a version
    stamped exactly that is reached. *)
Abbreviation Reach := (gmap Id (Stamp * bool)).

Definition widen (reach : Reach) (device : Id) (at_ : Stamp) (inclusive : bool) : Reach :=
  match reach !! device with
  | Some (held, incl) =>
      if decide (at_ ≺ held) then reach
      else if decide (held = at_) then <[device := (held, incl || inclusive)]> reach
      else <[device := (at_, inclusive)]> reach
  | None => <[device := (at_, inclusive)]> reach
  end.

Definition below (reach : Reach) (p : Stamp) : bool :=
  match reach !! s_device p with
  | Some (at_, inclusive) => bool_decide (p ≺ at_) || (bool_decide (p = at_) && inclusive)
  | None => false
  end.

(** Each version's readers, and each device's newest version so far, after a
    prefix of the nodes. *)
Record Readers := mkReaders { rd_readers : gmap OpRef (list OpRef); rd_previous : gmap Id OpRef }.

Definition add_reader (readers : gmap OpRef (list OpRef)) (p me : OpRef) : gmap OpRef (list OpRef) :=
  <[p := default [] (readers !! p) ++ [me]]> readers.

Definition read_node (r : Readers) (n : Node) : Readers :=
  let me := op_ref (n_at n) in
  let readers := foldl (λ rs p, add_reader rs p me) (rd_readers r) (n_parents n) in
  mkReaders
    (match rd_previous r !! s_device (n_at n) with
     | Some prev => add_reader readers prev me
     | None => readers
     end)
    (<[s_device (n_at n) := me]> (rd_previous r)).

Definition reach_of (p : Passage) (ns : list Node) (device : Id) : Reach :=
  foldl (λ reach q,
    let reach := foldl (λ reach da, widen reach da.1 da.2 (bool_decide (da.1 ≠ s_device (n_at q))))
                   reach (map_to_list (n_frontier q)) in
    widen reach (s_device (n_at q)) (n_at q) false)
    ∅ (filter (λ q, acknowledged p device (op_ref (n_at q)) = true) ns).

Definition passed (ns : list Node) (members compacted : gset OpRef) (p : Passage) : gset OpRef :=
  let held : gset OpRef := list_to_set ((λ n, op_ref (n_at n)) <$> ns) in
  if existsb (λ parent, bool_decide (parent ∉ held) && negb (covered p parent)) (ns ≫= n_parents) then ∅
  else
    let r := foldl read_node (mkReaders ∅ ∅) ns in
    let newest : gset OpRef := list_to_set ((map_to_list (rd_previous r)).*2) in
    let witness := (λ n, op_ref (n_at n)) <$> last (filter (λ n, n_keys n = true) ns) in
    let reach := reach_of p ns <$> elements (pa_writers p) in
    list_to_set ((λ n, op_ref (n_at n)) <$> filter (λ n : Node,
      let me := op_ref (n_at n) in
      n_head n = false ∧ (me ∉ newest) ∧ (me ∉ members) ∧ witness ≠ Some me ∧ me ∈ compacted ∧
      Forall (λ r, o_stream r = o_stream me ∧ r ∈ compacted) (default [] (rd_readers r !! me)) ∧
      Forall (λ r, below r (n_at n) = true) reach) ns).

(** The op-refs of every register winner and loser. *)
Definition members (regs : RegTables) : gset OpRef :=
  list_to_set ((λ fm, op_ref (m_at fm.2)) <$> map_to_list (merge_registers regs)) ∪
  list_to_set ((λ row, row.1.2) <$> map_to_list (register_losers regs)).

(** One entity: [logged] is the set of ops still in the log. *)
Definition compacted_of (p : Passage) (logged : gset OpRef) (ns : list Node) : gset OpRef :=
  list_to_set (filter (λ op, covered p op = true ∧ op ∉ logged) ((λ n, op_ref (n_at n)) <$> ns)).

Definition prune_entity (p : Passage) (logged : gset OpRef) (en : Entity) : Entity * nat :=
  let ns := nodes (en_versions en) in
  let pass := passed ns (members (en_registers en)) (compacted_of p logged ns) p in
  if decide (pass = ∅) then (en, 0%nat)
  else
    let '(t, n) := forget (en_versions en) pass in
    (mkEntity (en_meta en) t (en_registers en) (en_fields en), n).

(** The entities with a version below a floor that is not a head. *)
Definition may_prune (p : Passage) (en : Entity) : bool :=
  existsb (λ r, negb (row_head r) && covered p (op_ref (row_at r))) (rows (en_versions en)).

Definition prune_versions (p : Passage) (logged : gset OpRef) (db : gmap Id Entity) : gmap Id Entity * nat :=
  let pruned := (λ en, if may_prune p en then prune_entity p logged en else (en, 0%nat)) <$> db in
  (fst <$> pruned, foldr Nat.add 0%nat (((map_to_list pruned).*2).*2)).

(** ** Reach *)

Lemma below_widen reach d at_ incl p :
  below (widen reach d at_ incl) p = true ↔
  below reach p = true ∨ (d = s_device p ∧ (p ≺ at_ ∨ p = at_ ∧ incl = true)).
Proof.
  unfold below, widen. destruct (decide (d = s_device p)) as [->|Hne].
  2:{ assert (∀ x, <[d := x]> reach !! s_device p = reach !! s_device p) as Hl
        by (intros x; by rewrite lookup_insert_ne).
      transitivity (below reach p = true); [|unfold below; tauto].
      unfold below. destruct (reach !! d) as [[held i]|]; [|by rewrite Hl].
      destruct (decide (at_ ≺ held)); [done|]. destruct (decide (held = at_)); by rewrite Hl. }
  destruct (reach !! s_device p) as [[held i]|] eqn:E.
  - destruct (decide (at_ ≺ held)) as [Hlt|Hlt]; [|destruct (decide (held = at_)) as [->|Hh]];
      rewrite ?E, ?lookup_insert_eq, !orb_true_iff, !andb_true_iff, !bool_decide_eq_true.
    + split; [by left|]. intros [?|[_ [?|[-> _]]]]; [done|left; tord|by left].
    + rewrite orb_true_iff. naive_solver.
    + assert (held ≺ at_) as Hlt' by tord. split; [by right|].
      intros [[?|[-> _]]|[_ ?]]; [left; tord|by left|done].
  - rewrite lookup_insert_eq, !orb_true_iff, !andb_true_iff, !bool_decide_eq_true.
    split; [intros ?; by right|]. by intros [?|[_ ?]].
Qed.

Definition contributions (q : Node) : list (Id * Stamp * bool) :=
  ((λ da, (da.1, da.2, bool_decide (da.1 ≠ s_device (n_at q)))) <$> map_to_list (n_frontier q)) ++
  [(s_device (n_at q), n_at q, false)].

Lemma below_foldl (cs : list (Id * Stamp * bool)) reach p :
  below (foldl (λ r c, widen r c.1.1 c.1.2 c.2) reach cs) p = true ↔
  below reach p = true ∨
  ∃ c, c ∈ cs ∧ c.1.1 = s_device p ∧ (p ≺ c.1.2 ∨ p = c.1.2 ∧ c.2 = true).
Proof.
  revert reach. induction cs as [|c cs IH]; intros reach; cbn [foldl].
  { split; [by left|]. by intros [?|(c & ?%not_elem_of_nil & _)]. }
  rewrite IH, below_widen. setoid_rewrite elem_of_cons. split.
  - intros [[?|?]|(x & ? & ?)]; [by left|right; by exists c; auto|right; by exists x; auto].
  - intros [?|(x & [->|?] & ?)]; [by left; left|by left; right|right; by exists x].
Qed.

Lemma below_reach_of p ns device s :
  below (reach_of p ns device) s = true ↔
  ∃ q c, q ∈ ns ∧ acknowledged p device (op_ref (n_at q)) = true ∧ c ∈ contributions q ∧
         c.1.1 = s_device s ∧ (s ≺ c.1.2 ∨ s = c.1.2 ∧ c.2 = true).
Proof.
  unfold reach_of. set (acked := filter _ ns).
  assert (∀ l reach, foldl (λ reach q,
    let reach := foldl (λ reach da, widen reach da.1 da.2 (bool_decide (da.1 ≠ s_device (n_at q))))
                   reach (map_to_list (n_frontier q)) in
    widen reach (s_device (n_at q)) (n_at q) false) reach l =
    foldl (λ r (c : Id * Stamp * bool), widen r c.1.1 c.1.2 c.2) reach (l ≫= contributions)) as ->.
  { induction l as [|q l IH]; intros reach; [done|]. cbn [foldl mbind list_bind].
    rewrite foldl_app, IH. f_equal. unfold contributions. rewrite foldl_app. cbn [foldl]. f_equal.
    by rewrite foldl_fmap. }
  rewrite below_foldl. split.
  - intros [Hb|(c & Hc & Hd & Hs)]; [by unfold below in Hb; rewrite lookup_empty in Hb|].
    apply list_elem_of_bind in Hc as (q & Hc & Hq). apply list_elem_of_filter in Hq as [Ha Hq]. eauto 10.
  - intros (q & c & Hq & Ha & Hc & Hd & Hs). right. exists c. split; [|done].
    apply list_elem_of_bind. exists q. split; [done|]. by apply list_elem_of_filter.
Qed.

(** ** Nodes *)

Lemma elem_of_nodes t n :
  n ∈ nodes t ↔ ∃ r, r ∈ rows t ∧
    n = mkNode (row_at r) (parents_list (row_version r)) (frontier_of t (op_ref (row_at r)))
          (row_head r) (wrote_keys (row_version r)).
Proof.
  unfold nodes. rewrite list_elem_of_fmap. setoid_rewrite merge_sort_Permutation. naive_solver.
Qed.

Lemma node_row t n :
  versions_ok t → n ∈ nodes t →
  ∃ v, versions_of t !! op_ref (n_at n) = Some v ∧ v_at v = n_at n ∧ n_parents n = parents_list v ∧
       n_frontier n = frontier_of t (op_ref (n_at n)) ∧
       (n_head n = true ↔ is_head (versions_of t) (n_at n)).
Proof.
  intros (Hwf & _ & Hhd & _) (r & [op Hr]%elem_of_rows & ->)%elem_of_nodes. simpl.
  assert (versions_of t !! op = Some (row_version r)) as Hv by (by rewrite lookup_versions_of, Hr).
  pose proof (Hwf _ _ Hv) as <-. exists (row_version r). split_and!; try done. by eapply Hhd.
Qed.

Lemma applied_node t s :
  versions_ok t → applied (versions_of t) s → ∃ n, n ∈ nodes t ∧ n_at n = s.
Proof.
  intros (Hwf & _) Hs. apply rows_applied in Hs as (r & Hr & <-); [|done].
  eexists. split; [by apply elem_of_nodes; exists r|done].
Qed.

(** Every device in [reach] has acknowledged a descendant. *)
Lemma reach_before t p device s :
  versions_ok t → applied (versions_of t) s → below (reach_of p (nodes t) device) s = true →
  ∃ q, applied (versions_of t) q ∧ acknowledged p device (op_ref q) = true ∧ before (versions_of t) s q.
Proof.
  intros Hok Hs Hb. apply below_reach_of in Hb as (n & [[d at_] incl] & Hn & Hack & Hc & Hd & Hcmp).
  destruct (node_row t n Hok Hn) as (v & Hv & Hvat & _ & Hfr & _). simpl in *. subst d.
  assert (applied (versions_of t) (n_at n)) as Hq by by exists v.
  exists (n_at n). split_and!; [done|done|]. unfold before.
  apply elem_of_app in Hc as [Hc|Hc].
  - apply list_elem_of_fmap in Hc as ([d s'] & [= Hd -> ->] & Hin). simpl in *. subst d.
    apply elem_of_map_to_list in Hin. rewrite Hfr in Hin.
    pose proof (frontier_of_exact t Hok (n_at n) Hq) as [Hsound _].
    destruct (Hsound _ _ Hin) as [Hdev Hreach].
    destruct Hcmp as [Hlt|[-> Hne%bool_decide_eq_true]].
    + eapply tc_rtc_l; [exact Hreach|]. apply tc_once, edge_same_device; try done.
      by eapply reaches_applied.
    + apply rtc_tc in Hreach as [Heq|]; [|done]. by rewrite Heq in Hne.
  - apply list_elem_of_singleton in Hc as [= Hdev -> ->]. destruct Hcmp as [Hlt|[_ ?]]; [|done].
    by apply tc_once, edge_same_device.
Qed.

(** ** Readers *)

Lemma add_reader_mono rs q y x p :
  x ∈ default [] (rs !! p) → x ∈ default [] (add_reader rs q y !! p).
Proof.
  unfold add_reader. destruct (decide (p = q)) as [->|Hne].
  - rewrite lookup_insert_eq. simpl. intros ?. apply elem_of_app. by left.
  - by rewrite lookup_insert_ne.
Qed.
Lemma add_reader_new rs p x : x ∈ default [] (add_reader rs p x !! p).
Proof. unfold add_reader. rewrite lookup_insert_eq. simpl. apply elem_of_app. right. by left. Qed.

Lemma add_readers_mono rs ps y x p :
  x ∈ default [] (rs !! p) → x ∈ default [] (foldl (λ rs p, add_reader rs p y) rs ps !! p).
Proof. revert rs. induction ps as [|q ps IH]; intros rs Hx; [done|]. simpl. by apply IH, add_reader_mono. Qed.
Lemma add_readers_new rs ps x p : p ∈ ps → x ∈ default [] (foldl (λ rs p, add_reader rs p x) rs ps !! p).
Proof.
  revert rs. induction ps as [|q ps IH]; intros rs Hp; [by apply not_elem_of_nil in Hp|].
  simpl. apply elem_of_cons in Hp as [->|Hp]; [apply add_readers_mono, add_reader_new|by apply IH].
Qed.

Lemma read_node_mono r n x p :
  x ∈ default [] (rd_readers r !! p) → x ∈ default [] (rd_readers (read_node r n) !! p).
Proof.
  intros Hx. unfold read_node. simpl. destruct (rd_previous r !! _).
  - by apply add_reader_mono, add_readers_mono.
  - by apply add_readers_mono.
Qed.

(** [m] is the last node of its device in [ns]. *)
Definition last_of (ns : list Node) (d : Id) (m : Node) : Prop :=
  ∃ l1 l2, ns = l1 ++ m :: l2 ∧ s_device (n_at m) = d ∧ ∀ x, x ∈ l2 → s_device (n_at x) ≠ d.

Lemma last_of_unique ns d m m' : last_of ns d m → last_of ns d m' → m = m'.
Proof.
  intros (l1 & l2 & -> & Hd & Hl2) (k1 & k2 & Heq & Hd' & Hk2).
  destruct (app_eq_inv _ _ _ _ Heq) as [(k & -> & Hk)|(k & -> & Hk)]; destruct k as [|z k];
    injection Hk as Hz Hk; try done.
  - subst z. exfalso. apply (Hk2 m); [|done]. rewrite Hk. apply elem_of_app. right. by left.
  - subst z. exfalso. apply (Hl2 m'); [|done]. rewrite Hk. apply elem_of_app. right. by left.
Qed.

Lemma read_nodes ns :
  let r := foldl read_node (mkReaders ∅ ∅) ns in
  (∀ n p, n ∈ ns → p ∈ n_parents n → op_ref (n_at n) ∈ default [] (rd_readers r !! p)) ∧
  (∀ l1 n l2 m, ns = l1 ++ n :: l2 → last_of l1 (s_device (n_at n)) m →
     op_ref (n_at n) ∈ default [] (rd_readers r !! op_ref (n_at m))) ∧
  (∀ d, match rd_previous r !! d with
        | Some op => ∃ m, last_of ns d m ∧ op = op_ref (n_at m)
        | None => ∀ x, x ∈ ns → s_device (n_at x) ≠ d
        end).
Proof.
  induction ns as [|n ns IH] using rev_ind.
  { simpl. split_and!; [by intros ?? ?%not_elem_of_nil| |].
    - intros l1 n l2 m Hno. by destruct l1.
    - intros d. rewrite lookup_empty. by intros ? ?%not_elem_of_nil. }
  rewrite foldl_app. cbn [foldl]. set (r := foldl read_node _ ns) in *.
  destruct IH as (I1 & I2 & I3). cbn zeta. split_and!.
  - intros x p [Hx| ->%list_elem_of_singleton]%elem_of_app Hp; [by apply read_node_mono, I1|].
    unfold read_node. simpl. destruct (rd_previous r !! _); [apply add_reader_mono|]; by apply add_readers_new.
  - intros l1 x l2 m Heq Hlast. destruct l2 as [|y l2 _] using rev_ind.
    + apply app_inj_tail in Heq as [-> ->]. specialize (I3 (s_device (n_at x))).
      unfold read_node. simpl. destruct (rd_previous r !! _) as [op|].
      * destruct I3 as (m' & Hm' & ->). rewrite (last_of_unique _ _ _ _ Hlast Hm'). apply add_reader_new.
      * exfalso. destruct Hlast as (k1 & k2 & -> & Hd & Hk2). apply (I3 m); [|done].
        apply elem_of_app. right. by left.
    + rewrite app_comm_cons, app_assoc in Heq. apply app_inj_tail in Heq as [-> ->].
      apply read_node_mono. by eapply I2.
  - intros d. unfold read_node. cbn [rd_previous]. destruct (decide (d = s_device (n_at n))) as [->|Hne].
    + rewrite lookup_insert_eq. exists n. split; [|done]. exists ns, []. split_and!; try done.
      by intros ? ?%not_elem_of_nil.
    + rewrite lookup_insert_ne by done. specialize (I3 d). destruct (rd_previous r !! d).
      * destruct I3 as (m & (l1 & l2 & -> & Hd & Hl2) & ->). exists m. split; [|done].
        exists l1, (l2 ++ [n]). rewrite <-app_assoc. split_and!; try done.
        intros x [Hx| ->%list_elem_of_singleton]%elem_of_app; [by apply Hl2|congruence].
      * intros x [Hx| ->%list_elem_of_singleton]%elem_of_app; [by apply I3|congruence].
Qed.

(** The nodes come in strictly increasing stamp order. *)
Lemma nodes_lt t l1 m l2 x :
  versions_ok t → nodes t = l1 ++ m :: l2 → (x ∈ l1 → n_at x ≺ n_at m) ∧ (x ∈ l2 → n_at m ≺ n_at x).
Proof.
  intros (Hwf & _) Heq. unfold nodes in Heq.
  apply fmap_app_inv in Heq as (k1 & k2 & -> & Heq2 & Hs).
  symmetry in Heq2. apply fmap_cons_inv in Heq2 as (r & k3 & -> & -> & ->). split.
  - intros (r' & -> & Hr')%list_elem_of_fmap. simpl. by eapply (sorted_prefix_lt t Hwf k1 r k3).
  - intros (r' & -> & Hr')%list_elem_of_fmap. simpl.
    apply list_elem_of_split in Hr' as (j1 & j2 & ->).
    apply (sorted_prefix_lt t Hwf (k1 ++ r :: j1) r' j2).
    + rewrite Hs. by rewrite <-app_assoc.
    + apply elem_of_app. right. by left.
Qed.

Lemma node_op_ref_inj t m n :
  versions_ok t → m ∈ nodes t → n ∈ nodes t → op_ref (n_at m) = op_ref (n_at n) → n_at m = n_at n.
Proof.
  intros Hok Hm Hn Heq. destruct (node_row t m Hok Hm) as (v & Hv & <- & _), (node_row t n Hok Hn) as (w & Hw & <- & _).
  congruence.
Qed.

(** What the rule finds of a version that passes, as it tests it. *)
Lemma passed_tests ns mem comp p op :
  op ∈ passed ns mem comp p →
  (∀ n q, n ∈ ns → q ∈ n_parents n → (∃ m, m ∈ ns ∧ op_ref (n_at m) = q) ∨ covered p q = true) ∧
  ∃ n, n ∈ ns ∧ op = op_ref (n_at n) ∧ n_head n = false ∧ (op ∉ mem) ∧ op ∈ comp ∧
    let r := foldl read_node (mkReaders ∅ ∅) ns in
    (∀ d m, rd_previous r !! d = Some m → m ≠ op) ∧
    (∀ x, x ∈ default [] (rd_readers r !! op) → o_stream x = o_stream op ∧ x ∈ comp) ∧
    (∀ d, d ∈ pa_writers p → below (reach_of p ns d) (n_at n) = true).
Proof.
  unfold passed. destruct (existsb _ _) eqn:Ex; [by intros ?%not_elem_of_empty|]. intros Hop. split.
  - intros n q Hn Hq.
    destruct (decide (q ∈ (λ n, op_ref (n_at n)) <$> ns)) as [(m & -> & Hm)%list_elem_of_fmap|Hno]; [eauto|right].
    apply not_false_iff_true. intros Hcov. apply not_true_iff_false in Ex. apply Ex, existsb_exists.
    exists q. split; [apply list_elem_of_In, list_elem_of_bind; by exists n|].
    rewrite Hcov, andb_true_r. apply bool_decide_eq_true. by rewrite elem_of_list_to_set.
  - apply elem_of_list_to_set, list_elem_of_fmap in Hop as (n & -> & Hn).
    apply list_elem_of_filter in Hn as [(Hh & Hnew & Hmem & _ & Hcomp & Hrd & Hbel) Hn].
    exists n. split_and!; try done.
    + intros d m Hm ->. apply Hnew, elem_of_list_to_set, list_elem_of_fmap. exists (d, op_ref (n_at n)).
      split; [done|]. by apply elem_of_map_to_list.
    + by apply Forall_forall.
    + intros d Hd. rewrite Forall_forall in Hbel. apply Hbel, list_elem_of_fmap.
      exists d. split; [done|]. by apply elem_of_elements.
Qed.

(** A version that passes is applied and its device wrote a later one, the
    next of which is compacted in its own stream. *)
Lemma passed_next t mem comp p op :
  versions_ok t → op ∈ passed (nodes t) mem comp p →
  ∃ s n, op = op_ref s ∧ applied (versions_of t) s ∧ applied (versions_of t) n ∧ s_device n = s_device s ∧
    s ≺ n ∧ (∀ x, applied (versions_of t) x → s_device x = s_device s → s ≺ x → n ≼ x) ∧
    s_stream n = s_stream s ∧ op_ref n ∈ comp.
Proof.
  intros Hok Hop. destruct (passed_tests _ _ _ _ _ Hop) as (_ & n & Hn & -> & _ & _ & _ & Hprev & Hrd & _).
  destruct (read_nodes (nodes t)) as (_ & I2 & I3). set (r := foldl read_node _ (nodes t)) in *.
  destruct (node_row t n Hok Hn) as (v & Hv & Hvat & _).
  apply list_elem_of_split in Hn as (l1 & l2 & Heq). specialize (I3 (s_device (n_at n))).
  set (same x := bool_decide (s_device (n_at x) = s_device (n_at n))).
  destruct (List.find same l2) as [m|] eqn:Ef.
  - (* the first later one of the device *)
    assert (∃ k1 k2, l2 = k1 ++ m :: k2 ∧ same m = true ∧ ∀ x, x ∈ k1 → same x = false) as (k1 & k2 & -> & Hm & Hk1).
    { clear -Ef. induction l2 as [|y l2 IH]; [done|]. simpl in Ef. destruct (same y) eqn:E.
      - injection Ef as ->. exists [], l2. split_and!; try done. by intros ? ?%not_elem_of_nil.
      - destruct (IH Ef) as (k1 & k2 & -> & Hm & Hk). exists (y :: k1), k2. split_and!; try done.
        by intros x [->|?]%elem_of_cons; [|apply Hk]. }
    assert (op_ref (n_at m) ∈ default [] (rd_readers r !! op_ref (n_at n))) as Hreader.
    { apply (I2 (l1 ++ n :: k1) m k2 n); [by rewrite Heq, <-app_assoc|].
      apply bool_decide_eq_true in Hm. exists l1, k1. split_and!; [done|done|].
      intros x Hx Hd. specialize (Hk1 x Hx). apply bool_decide_eq_false in Hk1. congruence. }
    destruct (Hrd _ Hreader) as [Hstream Hcomp].
    assert (m ∈ nodes t) as Hmn by (rewrite Heq; set_solver).
    destruct (node_row t m Hok Hmn) as (w & Hw & Hwat & _). apply bool_decide_eq_true in Hm.
    exists (n_at n), (n_at m). split_and!; try done; [by exists v|by exists w| |].
    + eapply (nodes_lt t l1 n (k1 ++ m :: k2)); [done|done|set_solver].
    + intros x Hx Hd Hlt. destruct (applied_node t x Hok Hx) as (y & Hy & <-).
      rewrite Heq in Hy. apply elem_of_app in Hy as [Hy|[->|Hy]%elem_of_cons].
      * pose proof (proj1 (nodes_lt t l1 n _ y Hok Heq) Hy). tord.
      * by apply tlt_irrefl in Hlt.
      * apply elem_of_app in Hy as [Hy|[->|Hy]%elem_of_cons]; [|apply tle_refl|].
        -- specialize (Hk1 y Hy). apply bool_decide_eq_false in Hk1. congruence.
        -- apply tlt_tle. eapply (nodes_lt t (l1 ++ n :: k1) m k2); [done| |done].
           by rewrite Heq, <-app_assoc.
  - exfalso. assert (last_of (nodes t) (s_device (n_at n)) n) as Hlast.
    { exists l1, l2. split_and!; [done|done|]. intros x Hx Hd.
      pose proof (find_none _ _ Ef x (proj1 (list_elem_of_In _ _) Hx)) as Hf.
      unfold same in Hf. by apply bool_decide_eq_false in Hf. }
    destruct (rd_previous r !! s_device (n_at n)) as [op|] eqn:Er.
    + destruct I3 as (m & Hm & ->). apply (Hprev _ _ Er). by rewrite (last_of_unique _ _ _ _ Hm Hlast).
    + apply (I3 n); [|done]. rewrite Heq. set_solver.
Qed.

(** ** What passes *)

(** A version the rule passes is one nothing will read again: it is applied
    and not a head, no register holds it, its op is compacted, its device has
    written a later version, the next of those and every version that names it
    as a parent are compacted in its own stream, every parent the entity's
    versions name is here or below its floor, and every device that can still
    write has acknowledged a version it happened before. *)
Theorem passed_versions_are_behind_everyone t mem comp p op :
  versions_ok t → op ∈ passed (nodes t) mem comp p →
  ∃ s, op = op_ref s ∧ applied (versions_of t) s ∧ ¬ is_head (versions_of t) s ∧ (op ∉ mem) ∧ op ∈ comp ∧
    (∃ n, applied (versions_of t) n ∧ s_device n = s_device s ∧ s ≺ n ∧
       (∀ x, applied (versions_of t) x → s_device x = s_device s → s ≺ x → n ≼ x) ∧
       s_stream n = s_stream s ∧ op_ref n ∈ comp) ∧
    (∀ v, applied (versions_of t) (v_at v) → versions_of t !! op_ref (v_at v) = Some v →
       op ∈ parents_list v → s_stream (v_at v) = s_stream s ∧ op_ref (v_at v) ∈ comp) ∧
    (∀ v q, versions_of t !! op_ref (v_at v) = Some v → q ∈ parents_list v →
       (∃ a, applied (versions_of t) a ∧ op_ref a = q) ∨ covered p q = true) ∧
    (∀ d, d ∈ pa_writers p → ∃ q, applied (versions_of t) q ∧ acknowledged p d (op_ref q) = true ∧
       before (versions_of t) s q).
Proof.
  intros Hok Hop. destruct (passed_next t mem comp p op Hok Hop) as (s & nx & -> & Hs & Hnx & Hdev & Hlt & Hmin & Hst & Hcn).
  destruct (passed_tests _ _ _ _ _ Hop) as (Hclosed & n & Hn & Heq & Hh & Hmem & Hcomp & _ & Hrd & Hbel).
  destruct (applied_node t s Hok Hs) as (m & Hm & <-).
  assert (n_at n = n_at m) as Hnm by (by apply (node_op_ref_inj t)).
  assert (∀ v, versions_of t !! op_ref (v_at v) = Some v →
            ∃ x, x ∈ nodes t ∧ n_at x = v_at v ∧ n_parents x = parents_list v) as Hnode.
  { intros v Hv. destruct (applied_node t (v_at v) Hok) as (x & Hx & Hxat); [by exists v|].
    exists x. destruct (node_row t x Hok Hx) as (w & Hw & Hwat & Hp & _). split_and!; try done.
    rewrite Hp. rewrite Hxat in Hw. congruence. }
  exists (n_at m). split_and!; try done.
  - destruct (node_row t n Hok Hn) as (_ & _ & _ & _ & _ & Hhd). rewrite Hnm in Hhd.
    intros Hhead%Hhd. congruence.
  - by exists nx.
  - intros v _ Hv Hp. destruct (Hnode v Hv) as (x & Hx & Hxat & Hxp).
    destruct (read_nodes (nodes t)) as (I1 & _ & _).
    assert (op_ref (n_at m) ∈ n_parents x) as Hpx by by rewrite Hxp.
    specialize (Hrd _ (I1 x _ Hx Hpx)). rewrite Hxat in Hrd. exact Hrd.
  - intros v q Hv Hq. destruct (Hnode v Hv) as (x & Hx & _ & Hxp).
    destruct (Hclosed x q Hx) as [(y & Hy & <-)|?]; [by rewrite Hxp| |by right]. left.
    destruct (node_row t y Hok Hy) as (w & Hw & Hwat & _). exists (n_at y). split; [by exists w|done].
  - intros d Hd. apply (reach_before t p d (n_at m)); [done|done|]. rewrite <-Hnm. by apply Hbel.
Qed.

(** ** Pruning is invisible *)

Section invisible.
Context (t : VTables) (gone : gset OpRef).
Hypothesis Hok : versions_ok t.
(** What is deleted is no head, and not its device's newest. *)
Hypothesis Hgone : ∀ op, op ∈ gone → ∃ s n, op = op_ref s ∧ applied (versions_of t) s ∧
  ¬ is_head (versions_of t) s ∧ applied (versions_of t) n ∧ s_device n = s_device s ∧ s ≺ n.
Let t' := (forget t gone).1.

Lemma forget_row op : op ∉ gone → entity_versions t' !! op = entity_versions t !! op.
Proof.
  intros Hop. apply option_eq. intros r. unfold t', forget. simpl.
  rewrite map_lookup_filter_Some. simpl. tauto.
Qed.
Lemma forget_gone op : op ∈ gone → entity_versions t' !! op = None.
Proof.
  intros Hop. unfold t', forget. simpl. apply map_lookup_filter_None. right. intros r _ Hn. by apply Hn.
Qed.
Lemma forget_frontier op : op ∉ gone → frontier_of t' op = frontier_of t op.
Proof.
  intros Hop. unfold frontier_of. f_equal. apply option_eq. intros f. unfold t', forget. simpl.
  rewrite map_lookup_filter_Some. simpl. tauto.
Qed.

Lemma forget_rows r : r ∈ rows t' ↔ r ∈ rows t ∧ op_ref (row_at r) ∉ gone.
Proof.
  rewrite !elem_of_rows. split.
  - intros [op Hr]. destruct (decide (op ∈ gone)) as [Hg|Hg]; [by rewrite forget_gone in Hr|].
    rewrite forget_row in Hr by done. split; [eauto|]. by rewrite (row_op_ref t (proj1 Hok) r op Hr).
  - intros [[op Hr] Hg]. exists op. rewrite (row_op_ref t (proj1 Hok) r op Hr) in Hg. by rewrite forget_row.
Qed.

Lemma forget_head_stamps h : h ∈ head_stamps t' ↔ h ∈ head_stamps t.
Proof.
  unfold head_stamps. rewrite !list_elem_of_fmap. setoid_rewrite list_elem_of_filter.
  setoid_rewrite forget_rows. split; intros (r & -> & Hh & Hr); exists r; [tauto|].
  split_and!; try done. intros Hg. destruct (Hgone _ Hg) as (s & _ & Heq & Hs & Hnh & _).
  pose proof Hok as (Hwf & _ & Hhd & _). pose proof (row_applied t Hwf r Hr) as Hra.
  apply (applied_op_ref_inj (versions_of t)) in Heq; [|done..]. subst s.
  apply elem_of_rows in Hr as [op Hr]. by apply Hnh, (Hhd op r).
Qed.

Lemma forget_stamp_of op : op ∉ gone → stamp_of t' op = stamp_of t op.
Proof. intros Hop. unfold stamp_of. by rewrite forget_row. Qed.

Lemma forget_precedes a b : a ∉ gone → b ∉ gone → precedes t' a b = precedes t a b.
Proof.
  intros Ha Hb. unfold precedes, frontier_at. by rewrite !forget_stamp_of, forget_frontier.
Qed.

Lemma head_stamps_NoDup u : wf_versions (versions_of u) → NoDup (head_stamps u).
Proof.
  intros Hwf. unfold head_stamps. assert (∀ r, r ∈ filter (λ r, row_head r = true) (rows u) → r ∈ rows u) as Hin
    by (intros r [_ ?]%list_elem_of_filter; done).
  assert (NoDup (filter (λ r, row_head r = true) (rows u))) as Hnd by apply NoDup_filter, rows_NoDup, Hwf.
  revert Hin Hnd. induction (filter _ (rows u)) as [|r rs IH]; intros Hin Hnd; [constructor|].
  apply NoDup_cons in Hnd as [Hr Hnd]. apply NoDup_cons. split.
  - intros (x & Heq & Hx)%list_elem_of_fmap. apply Hr.
    rewrite (rows_inj u Hwf r x); [done|apply Hin; by left|apply Hin; by right|done].
  - apply IH; [|done]. intros x Hx. apply Hin. by right.
Qed.

Lemma forget_wf : wf_versions (versions_of t').
Proof.
  intros op v Hv. rewrite lookup_versions_of in Hv. apply fmap_Some in Hv as (r & Hr & ->).
  destruct (decide (op ∈ gone)) as [Hg|Hg]; [by rewrite forget_gone in Hr|].
  rewrite forget_row in Hr by done. by apply (row_op_ref t (proj1 Hok)).
Qed.

Lemma forget_heads : heads t' = heads t.
Proof.
  assert (AntiSymm (=) opref_le) as Hanti by (intros a b; apply tle_antisymm).
  assert (Transitive opref_le) as Htrans by (intros a b c; apply tle_trans).
  assert (Total opref_le) as Htot by (intros a b; apply tle_total).
  apply (Sorted_unique opref_le); [apply Sorted_merge_sort, _|apply Sorted_merge_sort, _|].
  unfold heads. rewrite !merge_sort_Permutation. apply fmap_Permutation, NoDup_Permutation.
  - apply head_stamps_NoDup, forget_wf.
  - apply head_stamps_NoDup, Hok.
  - intros h. apply forget_head_stamps.
Qed.

Lemma forget_previous at_ :
  (∀ r, r ∈ rows t → s_device (row_at r) = s_device at_ → row_at r ≼ at_) →
  (∀ r, r ∈ rows t → row_at r ≠ at_) →
  previous_of_device t' at_ = previous_of_device t at_.
Proof.
  intros Hbelow Hne. unfold previous_of_device. f_equal.
  set (l := filter _ (row_at <$> rows t)). set (l' := filter _ (row_at <$> rows t')).
  assert (∀ s, s ∈ l' → s ∈ l) as Hsub.
  { intros s. unfold l, l'. rewrite !list_elem_of_filter, !list_elem_of_fmap.
    intros [Hs (r & -> & [Hr _]%forget_rows)]. eauto. }
  destruct (greatest l) as [m|] eqn:E.
  - apply greatest_spec in E as [Hm Hub]. apply greatest_spec. split; [|auto].
    unfold l' in *. pose proof Hm as Hm'. unfold l in Hm'.
    apply list_elem_of_filter in Hm' as [[Hd Hlt] (r & -> & Hr)%list_elem_of_fmap].
    apply list_elem_of_filter. split; [done|]. apply list_elem_of_fmap. exists r. split; [done|].
    apply forget_rows. split; [done|]. intros Hg.
    destruct (Hgone _ Hg) as (s & n & Heq & Hs & _ & Hn & Hdn & Hsn).
    pose proof Hok as (Hwf & _). pose proof (row_applied t Hwf r Hr) as Hra.
    apply (applied_op_ref_inj (versions_of t)) in Heq; [|done..]. subst s.
    apply rows_applied in Hn as (rn & Hrn & <-); [|done].
    assert (row_at rn ∈ l) as Hin.
    { apply list_elem_of_filter. split; [|by apply list_elem_of_fmap_2].
      split; [congruence|]. apply tle_ne_tlt; [apply Hbelow; [done|congruence]|by apply Hne]. }
    specialize (Hub _ Hin). tord.
  - apply greatest_None in E. apply greatest_None. destruct l' as [|x l']; [done|].
    exfalso. apply (not_elem_of_nil x). rewrite <-E. apply Hsub. by left.
Qed.

Lemma forget_late at_ : arrived_late t at_ = false → arrived_late t' at_ = false.
Proof.
  intros Hl. apply not_true_iff_false in Hl. apply not_true_iff_false.
  intros (r & [Hr _]%forget_rows & Hc)%arrived_late_spec. apply Hl, arrived_late_spec. eauto.
Qed.

Lemma forget_new_frontier v :
  versions_of t !! op_ref (v_at v) = None → arrived_late t (v_at v) = false →
  (∀ p, p ∈ parents_list v → p ∉ gone) → new_frontier t' v = new_frontier t v.
Proof.
  intros Hfresh Hlate Hpar. unfold new_frontier.
  assert (∀ f, foldl (join_parent t' (v_at v) (frontier_of t')) f (parents_list v) =
               foldl (join_parent t (v_at v) (frontier_of t)) f (parents_list v)) as ->.
  { revert Hpar. induction (parents_list v) as [|p ps IH]; intros Hpar f; [done|]. cbn [foldl].
    rewrite IH by (intros q Hq; apply Hpar; by right). f_equal. unfold join_parent.
    rewrite forget_stamp_of, forget_frontier by (apply Hpar; by left). done. }
  pose proof Hok as (Hwf & _).
  rewrite forget_previous.
  - destruct (previous_of_device t (v_at v)) as [op|] eqn:Ep; [|done]. f_equal. apply forget_frontier.
    intros Hg. destruct (Hgone _ Hg) as (s & n & -> & Hs & _ & Hn & Hdn & Hsn).
    pose proof (previous_of_device_spec t (v_at v) Hwf) as Hprev. rewrite Ep in Hprev.
    destruct Hprev as (m & Heq & Hm & Hmd & Hmlt & Hmax).
    apply (applied_op_ref_inj (versions_of t)) in Heq; [|done..]. subst m.
    apply rows_applied in Hn as (rn & Hrn & <-); [|done].
    assert (row_at rn ≼ s) as Hle; [|tord]. apply Hmax; [by apply row_applied|congruence|].
    apply tle_ne_tlt.
    + apply not_tlt. intros Hgt. apply not_true_iff_false in Hlate. apply Hlate, arrived_late_spec.
      exists rn. split_and!; [done|done|]. left. congruence.
    + intros Heq. pose proof (row_version_lookup t Hwf rn Hrn) as Hl. rewrite Heq in Hl. congruence.
  - intros r Hr Hd. apply not_tlt. intros Hgt. apply not_true_iff_false in Hlate.
    apply Hlate, arrived_late_spec. exists r. auto.
  - intros r Hr Heq. pose proof (row_version_lookup t Hwf r Hr) as Hl. rewrite Heq in Hl. congruence.
Qed.

Lemma forget_admit v :
  versions_of t !! op_ref (v_at v) = None → arrived_late t (v_at v) = false →
  (∀ p, p ∈ parents_list v → p ∉ gone) →
  admit_version t' v = ((forget (admit_version t v).1 gone).1, (admit_version t v).2).
Proof.
  intros Hfresh Hlate Hpar.
  assert (op_ref (v_at v) ∉ gone) as Hme.
  { intros Hg. destruct (Hgone _ Hg) as (s & _ & Heq & (w & Hw & _) & _). congruence. }
  assert (stamp_of t (op_ref (v_at v)) = None) as Hst by (rewrite stamp_of_versions; by rewrite Hfresh).
  unfold admit_version. rewrite forget_stamp_of, Hst, Hlate, (forget_late _ Hlate) by done.
  cbn [fst snd]. f_equal.
  pose proof (forget_new_frontier v Hfresh Hlate Hpar) as Hnf.
  fold (new_frontier t' v). fold (new_frontier t v).
  assert (∀ op, op ∈ op_ref <$> filter (λ h, reached_by h (new_frontier t' v) = true) (head_stamps t') ↔
                op ∈ op_ref <$> filter (λ h, reached_by h (new_frontier t v) = true) (head_stamps t)) as Hhs.
  { intros op. rewrite Hnf, !list_elem_of_fmap. setoid_rewrite list_elem_of_filter.
    by setoid_rewrite forget_head_stamps. }
  match goal with |- ?a = ?b => assert (entity_versions a = entity_versions b ∧ entity_frontier a = entity_frontier b)
    as [He Hfr]; [|destruct a, b; simpl in He, Hfr; congruence] end. split.
  - apply map_eq. intros op. rewrite (admit_step_lookup t' v op). unfold forget. cbn [fst entity_versions].
    destruct (decide (op ∈ gone)) as [Hg|Hg].
    + rewrite decide_False by (intros ->; done). rewrite forget_gone by done.
      symmetry. apply map_lookup_filter_None. right. intros r _ Hn. by apply Hn.
    + symmetry. apply option_eq. intros r. rewrite map_lookup_filter_Some. cbn [fst].
      rewrite (admit_step_lookup t v op), forget_row by done.
      transitivity ((if decide (op = op_ref (v_at v)) then Some (mkVRow v true)
        else (λ r, mkVRow (row_version r) (row_head r && bool_decide
          (op ∉ op_ref <$> filter (λ h, reached_by h (new_frontier t v) = true) (head_stamps t))))
          <$> entity_versions t !! op) = Some r); [tauto|].
      destruct (decide (op = op_ref (v_at v))); [done|].
      destruct (entity_versions t !! op) as [x|]; [|done]. cbn [fmap option_fmap option_map].
      erewrite bool_decide_ext; [reflexivity|]. by rewrite Hhs.
  - unfold forget. cbn [fst entity_frontier set_head]. rewrite !clear_heads_frontier.
    cbn [insert_frontier insert_version entity_frontier]. rewrite Hnf. unfold t', forget. cbn [fst entity_frontier].
    by rewrite map_filter_insert_True.
Qed.
End invisible.

(** C21: pruning is invisible: deleting the versions the rule passes leaves the
    heads and the order of the versions kept exactly as they were, and a
    version that arrives afterwards, in order and naming no pruned parent,
    is admitted with the same frontier, clears the same heads and gives the
    same answer as it would have on a replica that kept every row. *)
Theorem pruning_is_invisible t mem comp p v :
  versions_ok t →
  let gone := passed (nodes t) mem comp p in
  let t' := (forget t gone).1 in
  heads t' = heads t ∧
  (∀ a b, a ∉ gone → b ∉ gone → precedes t' a b = precedes t a b) ∧
  (versions_of t !! op_ref (v_at v) = None → arrived_late t (v_at v) = false →
   (∀ q, q ∈ parents_list v → q ∉ gone) →
   admit_version t' v = ((forget (admit_version t v).1 gone).1, (admit_version t v).2)).
Proof.
  intros Hok gone t'.
  assert (∀ op, op ∈ gone → ∃ s n, op = op_ref s ∧ applied (versions_of t) s ∧ ¬ is_head (versions_of t) s ∧
            applied (versions_of t) n ∧ s_device n = s_device s ∧ s ≺ n) as Hgone.
  { intros op Hop. destruct (passed_next t mem comp p op Hok Hop) as (s & n & -> & Hs & Hn & Hd & Hlt & _).
    exists s, n. split_and!; try done. intros Hh. apply (Hh n). by apply edge_same_device. }
  split; [by apply forget_heads|]. split.
  - intros a b. by apply forget_precedes.
  - by apply forget_admit.
Qed.

(** An entity the candidate query leaves out has nothing to prune. *)
Lemma prefilter_complete p logged en :
  versions_ok (en_versions en) → may_prune p en = false → prune_entity p logged en = (en, 0%nat).
Proof.
  intros Hok Hno. unfold prune_entity. case_decide as Hp; [done|]. exfalso. apply Hp.
  apply set_eq. intros op. split; [|by intros ?%not_elem_of_empty]. intros Hop. exfalso.
  destruct (passed_tests _ _ _ _ _ Hop) as (_ & n & Hn & -> & Hh & _ & Hc & _).
  apply not_true_iff_false in Hno. apply Hno, existsb_exists.
  apply elem_of_nodes in Hn as (r & Hr & ->). exists r. split; [by apply list_elem_of_In|].
  simpl in *. rewrite Hh. simpl. apply elem_of_list_to_set, list_elem_of_filter in Hc as [[Hc _] _]. exact Hc.
Qed.

(** A worked prune: device 1 created an entity and edited it, device 2 edited
    it having seen both, and both of device 1's ops are compacted. *)
Definition w_create : Version := example_version 100 1 1 [] {["title"%string]}.
Definition w_edit : Version := example_version 200 1 2 [op_ref (v_at w_create)] {["title"%string]}.
Definition w_peer : Version := example_version 300 2 1 [op_ref (v_at w_edit)] {["title"%string]}.
Definition w_later : Version := example_version 400 3 1 [op_ref (v_at w_peer)] {["title"%string]}.
Definition w_tables : VTables := admit_all no_versions [w_create; w_edit; w_peer].
Definition w_passage : Passage := mkPassage {[(1, 1) := 2]} {[(1, 2) := 1]} ∅ {[2]} ∅.
Definition w_compacted : gset OpRef := {[op_ref (v_at w_create); op_ref (v_at w_edit)]}.

Lemma w_tables_ok : versions_ok w_tables.
Proof.
  apply (delivered_ok [w_create; w_edit; w_peer]), one_universe_NoDup.
  apply (bool_decide_unpack _). vm_compute. exact I.
Qed.

Lemma passed_versions_are_behind_everyone_witness :
  versions_ok w_tables ∧
  op_ref (v_at w_create) ∈ passed (nodes w_tables) ∅ w_compacted w_passage ∧
  ∃ s q, op_ref (v_at w_create) = op_ref s ∧ applied (versions_of w_tables) q ∧
    acknowledged w_passage 2 (op_ref q) = true ∧ before (versions_of w_tables) s q.
Proof.
  assert (op_ref (v_at w_create) ∈ passed (nodes w_tables) ∅ w_compacted w_passage) as Hp
    by (apply (bool_decide_unpack _); vm_compute; exact I).
  split; [exact w_tables_ok|]. split; [exact Hp|].
  destruct (passed_versions_are_behind_everyone _ _ _ _ _ w_tables_ok Hp)
    as (s & Hs & _ & _ & _ & _ & _ & _ & _ & Hq).
  destruct (Hq 2) as (q & Hq1 & Hq2 & Hq3); [apply (bool_decide_unpack _); vm_compute; exact I|].
  exists s, q. split; [exact Hs|]. split; [exact Hq1|]. split; [exact Hq2|exact Hq3].
Defined.

Lemma pruning_is_invisible_witness :
  versions_ok w_tables ∧
  passed (nodes w_tables) ∅ w_compacted w_passage = {[op_ref (v_at w_create)]} ∧
  admit_version (forget w_tables (passed (nodes w_tables) ∅ w_compacted w_passage)).1 w_later =
  ((forget (admit_version w_tables w_later).1 (passed (nodes w_tables) ∅ w_compacted w_passage)).1,
   mkAdmission true false).
Proof.
  split; [exact w_tables_ok|]. split; [vm_compute; reflexivity|].
  destruct (pruning_is_invisible w_tables ∅ w_compacted w_passage w_later w_tables_ok) as (_ & _ & Ha).
  rewrite Ha; [vm_compute; reflexivity|vm_compute; reflexivity|vm_compute; reflexivity|].
  intros q Hq. assert (q = op_ref (v_at w_peer)) as ->; [|apply (bool_decide_unpack _); vm_compute; exact I].
  apply list_elem_of_singleton. exact Hq.
Defined.
