(* ===== verification/Wire.v ===== *)
(** * Bytes on the wire (sunrise-cbor magic.rs, version.rs, envelope_header.rs;
    sunrise-wire-protocol messages.rs, frame.rs, capability.rs, negotiation.rs)

    The 5-byte magic prefix, the cleartext routing header a relay reads off an
    op envelope, the frame codec, and the Hello negotiation.  zstd and
    ciborium's reader are parameters. *)

From Stdlib Require Import ZArith Lia.
From stdpp Require Import base tactics decidable countable option list strings numbers.
From S2P Require Import Prelude Bytes Cbor.
Open Scope Z_scope.

(** ** The magic prefix (magic.rs) *)

Definition MAGIC_LEN : nat := 5.
(** "SR" in ASCII. *)
Definition MAGIC_FIRST_TWO : bytes := [83; 82].

Inductive MagicKind :=
  | Frame | OpEnvelope | RecoveryBlob | Snapshot | VaultMeta | DiagBundle | PairingPayload
  | KeyBundle | IdentityChain.

#[export] Instance MagicKind_eq_dec : EqDecision MagicKind. Proof. solve_decision. Defined.

Definition magic_as_byte (k : MagicKind) : Z :=
  match k with
  | Frame => 1 | OpEnvelope => 2 | RecoveryBlob => 3 | Snapshot => 4 | VaultMeta => 5
  | DiagBundle => 6 | PairingPayload => 7 | KeyBundle => 8 | IdentityChain => 9
  end.

Definition magic_from_byte (b : Z) : option MagicKind :=
  match b with
  | 1 => Some Frame
  | 2 => Some OpEnvelope
  | 3 => Some RecoveryBlob
  | 4 => Some Snapshot
  | 5 => Some VaultMeta
  | 6 => Some DiagBundle
  | 7 => Some PairingPayload
  | 8 => Some KeyBundle
  | 9 => Some IdentityChain
  | _ => None
  end.

Record MagicPrefix := mkMagicPrefix { mp_kind : MagicKind; mp_version : Z }.

Inductive MagicError := BadLength (n : nat) | BadAscii | UnknownKind (b : Z).

(** [write_prefix] writes into the front of a caller's buffer and returns how
    many bytes it wrote; [None] is its panic on a short buffer. *)
Definition write_prefix (out : bytes) (kind : MagicKind) (version : Z) : option (bytes * nat) :=
  if decide (length out < MAGIC_LEN)%nat then None
  else Some (MAGIC_FIRST_TWO ++ [magic_as_byte kind] ++ be_encode 2 version ++ drop MAGIC_LEN out,
             MAGIC_LEN).

Definition decode_prefix (buf : bytes) : result MagicError MagicPrefix :=
  if decide (length buf < MAGIC_LEN)%nat then Err (BadLength (length buf))
  else if decide (take 2 buf ≠ MAGIC_FIRST_TWO) then Err BadAscii
  else
    let b := nth 2 buf 0 in
    try kind <- ok_or (magic_from_byte b) (UnknownKind b);
    Ok (mkMagicPrefix kind (be_decode [nth 3 buf 0; nth 4 buf 0])).

(** ** Versions (version.rs) *)

Definition WIRE_PROTO_V : Z := 1.
Definition ENVELOPE_FORMAT_V : Z := 3.
Definition ENVELOPE_FORMAT_FLOOR : Z := 3.

(** ** The routing header of an op envelope (envelope_header.rs) *)

Definition envelope_floor_readable (prefix_version : Z) : bool :=
  bool_decide (ENVELOPE_FORMAT_FLOOR ≤ prefix_version) &&
  bool_decide (prefix_version ≤ ENVELOPE_FORMAT_V).

Definition envelope_format_readable (prefix_version v : Z) : bool :=
  envelope_floor_readable prefix_version && bool_decide (prefix_version ≤ v).

Definition FIELD_V : Z := 1.
Definition FIELD_STREAM_ID : Z := 2.
Definition FIELD_DEVICE_ID : Z := 3.
Definition FIELD_SEQ : Z := 4.

Record EnvelopeHeader := mkEnvelopeHeader {
  eh_stream_id : bytes;
  eh_device_id : bytes;
  eh_seq : Z;
}.

Inductive EnvelopeHeaderError := BadMagic | CborMalformed | BadField (field : string).

Definition bytes16 (v : Value) (field : string) : result EnvelopeHeaderError bytes :=
  match v with
  | Bytes b => if decide (length b = 16%nat) then Ok b else Err (BadField field)
  | _ => Err (BadField field)
  end.

Definition u64_of (v : Value) (field : string) : result EnvelopeHeaderError Z :=
  match v with
  | Integer i => if decide (0 ≤ i ≤ u64_max) then Ok i else Err (BadField field)
  | _ => Err (BadField field)
  end.

(** The four options the scan fills. *)
Record HeaderScan := mkScan {
  hs_v : option Z;
  hs_stream : option bytes;
  hs_device : option bytes;
  hs_seq : option Z;
}.

Definition scan_entry (h : HeaderScan) (kv : Value * Value) : result EnvelopeHeaderError HeaderScan :=
  match kv.1 with
  | Integer i =>
      if decide (i = FIELD_V) then
        try n <- u64_of kv.2 "v"; Ok (mkScan (Some n) (hs_stream h) (hs_device h) (hs_seq h))
      else if decide (i = FIELD_STREAM_ID) then
        try b <- bytes16 kv.2 "stream_id"; Ok (mkScan (hs_v h) (Some b) (hs_device h) (hs_seq h))
      else if decide (i = FIELD_DEVICE_ID) then
        try b <- bytes16 kv.2 "device_id"; Ok (mkScan (hs_v h) (hs_stream h) (Some b) (hs_seq h))
      else if decide (i = FIELD_SEQ) then
        try n <- u64_of kv.2 "seq"; Ok (mkScan (hs_v h) (hs_stream h) (hs_device h) (Some n))
      else Ok h
  | _ => Err CborMalformed
  end.

Fixpoint scan_entries (h : HeaderScan) (l : list (Value * Value)) :
    result EnvelopeHeaderError HeaderScan :=
  match l with
  | [] => Ok h
  | kv :: l' => try h' <- scan_entry h kv; scan_entries h' l'
  end.

Definition header_of_scan (prefix_version : Z) (h : HeaderScan) :
    result EnvelopeHeaderError EnvelopeHeader :=
  try format_v <- ok_or (hs_v h) (BadField "v");
  if negb (envelope_format_readable prefix_version format_v) then Err (BadField "v")
  else
    try stream_id <- ok_or (hs_stream h) (BadField "stream_id");
    try device_id <- ok_or (hs_device h) (BadField "device_id");
    try seq <- ok_or (hs_seq h) (BadField "seq");
    Ok (mkEnvelopeHeader stream_id device_id seq).

Section envelope.
(** ciborium's bounded reader of a [Value]. *)
Context (from_reader : nat → bytes → result ValueDecodeError (Value * bytes)).

Definition decode_envelope_header (buf : bytes) : result EnvelopeHeaderError EnvelopeHeader :=
  if decide (length buf < MAGIC_LEN)%nat then Err BadMagic
  else match decode_prefix (take MAGIC_LEN buf) with
  | Err _ => Err BadMagic
  | Ok prefix =>
      if negb (bool_decide (mp_kind prefix = OpEnvelope)) ||
         negb (envelope_floor_readable (mp_version prefix))
      then Err BadMagic
      else match from_reader MAX_VALUE_DEPTH (drop MAGIC_LEN buf) with
      | Err _ => Err CborMalformed
      | Ok (VMap entries, _) =>
          try h <- scan_entries (mkScan None None None None) entries;
          header_of_scan (mp_version prefix) h
      | Ok _ => Err CborMalformed
      end
  end.
End envelope.

(** ** Message kinds (messages.rs) *)

Inductive MsgKind :=
  | Hello_ | HelloAck_ | OpBatch | Ack | Nack | Subscribe | StreamUpdate | SnapshotReq
  | SnapshotResp | PresenceBeacon | PresenceUpdate | Ping | Pong | Error | Close
  | RefreshToken | RefreshTokenAck.

#[export] Instance MsgKind_eq_dec : EqDecision MsgKind. Proof. solve_decision. Defined.

Definition msg_as_byte (k : MsgKind) : Z :=
  match k with
  | Hello_ => 1 | HelloAck_ => 2 | OpBatch => 3 | Ack => 4 | Nack => 5 | Subscribe => 6
  | StreamUpdate => 7 | SnapshotReq => 8 | SnapshotResp => 9 | PresenceBeacon => 10
  | PresenceUpdate => 11 | Ping => 12 | Pong => 13 | Error => 14 | Close => 15
  | RefreshToken => 18 | RefreshTokenAck => 19
  end.

Definition msg_from_byte (b : Z) : result Z MsgKind :=
  match b with
  | 1 => Ok Hello_
  | 2 => Ok HelloAck_
  | 3 => Ok OpBatch
  | 4 => Ok Ack
  | 5 => Ok Nack
  | 6 => Ok Subscribe
  | 7 => Ok StreamUpdate
  | 8 => Ok SnapshotReq
  | 9 => Ok SnapshotResp
  | 10 => Ok PresenceBeacon
  | 11 => Ok PresenceUpdate
  | 12 => Ok Ping
  | 13 => Ok Pong
  | 14 => Ok Error
  | 15 => Ok Close
  | 18 => Ok RefreshToken
  | 19 => Ok RefreshTokenAck
  | other => Err other
  end.

(** ** Frames (frame.rs) *)

Definition FRAME_HEADER_LEN : nat := 11.
Definition MAX_FRAME_BYTES : Z := 4 * 1024 * 1024.
Definition MAX_DECOMPRESSED_BYTES : Z := 16 * 1024 * 1024.

(** [FrameFlags]: the byte itself. *)
Definition FrameFlags := Z.
Definition FLAGS_EMPTY : FrameFlags := 0.
Definition FLAGS_ZSTD : FrameFlags := 1.
Definition flags_zstd (f : FrameFlags) : bool := negb (Z.land f FLAGS_ZSTD =? 0).
Definition flags_from_byte (b : Z) : FrameFlags := Z.land b FLAGS_ZSTD.

Record FrameHeader := mkFrameHeader {
  fh_version : Z;
  fh_msg_kind : MsgKind;
  fh_flags : FrameFlags;
  fh_decompressed_len : Z;
}.

Inductive FrameError :=
  | HeaderTruncated (n : Z)
  | FrameBadMagic
  | BadVersion (wanted got : Z)
  | UnknownMsgKind (b : Z)
  | ReservedFlags (b : Z)
  | FrameTooLarge (n : Z)
  | DecompressBomb (n : Z)
  | DecompressError
  | PayloadTruncated.

Definition len (b : bytes) : Z := Z.of_nat (length b).

Section frame.
(** [zstd::encode_all] at level 0, and [zstd::decode_all]. *)
Context (zstd_encode_all zstd_decode_all : bytes → option bytes).

Definition encode_frame (msg_kind : MsgKind) (flags : FrameFlags) (payload : bytes) :
    result FrameError bytes :=
  if decide (MAX_DECOMPRESSED_BYTES < len payload) then Err (DecompressBomb (len payload))
  else
    try body <- (if flags_zstd flags then ok_or (zstd_encode_all payload) DecompressError
                 else Ok payload);
    let total_len := Z.of_nat FRAME_HEADER_LEN + len body in
    if decide (MAX_FRAME_BYTES < total_len) then Err (FrameTooLarge total_len)
    else if decide (u32_max < len payload) then Err (DecompressBomb (len payload))
    else Ok (MAGIC_FIRST_TWO ++ [magic_as_byte Frame] ++ be_encode 2 WIRE_PROTO_V ++
             [msg_as_byte msg_kind] ++ [flags] ++ be_encode 4 (len payload) ++ body).

Definition decode_frame (buf : bytes) : result FrameError (FrameHeader * bytes) :=
  if decide (len buf < Z.of_nat FRAME_HEADER_LEN) then Err (HeaderTruncated (len buf))
  else if decide (MAX_FRAME_BYTES < len buf) then Err (FrameTooLarge (len buf))
  else if decide (take 2 buf ≠ MAGIC_FIRST_TWO) then Err FrameBadMagic
  else if decide (nth 2 buf 0 ≠ magic_as_byte Frame) then Err FrameBadMagic
  else
    let version := be_decode [nth 3 buf 0; nth 4 buf 0] in
    if decide (version ≠ WIRE_PROTO_V) then Err (BadVersion WIRE_PROTO_V version)
    else match msg_from_byte (nth 5 buf 0) with
    | Err b => Err (UnknownMsgKind b)
    | Ok msg_kind =>
        let flags := flags_from_byte (nth 6 buf 0) in
        let decompressed_len := be_decode [nth 7 buf 0; nth 8 buf 0; nth 9 buf 0; nth 10 buf 0] in
        if decide (MAX_DECOMPRESSED_BYTES < decompressed_len)
        then Err (DecompressBomb decompressed_len)
        else
          let body := drop FRAME_HEADER_LEN buf in
          try payload <-
            (if flags_zstd flags then
               try dec <- ok_or (zstd_decode_all body) DecompressError;
               if decide (len dec ≠ decompressed_len) then Err PayloadTruncated
               else if decide (MAX_DECOMPRESSED_BYTES < len dec) then Err (DecompressBomb (len dec))
               else Ok dec
             else if decide (len body ≠ decompressed_len) then Err PayloadTruncated
             else Ok body);
          Ok (mkFrameHeader version msg_kind flags decompressed_len, payload)
    end.
End frame.

(** ** Capabilities and the Hello negotiation (capability.rs, negotiation.rs) *)

Inductive Capability :=
  | SrvPushApns | SrvPushFcm | SrvPushWeb | SrvBlobPresign | SrvRelayPair | SrvIntegrationGcal
  | SrvDiagnosticUpload | SrvTokenRefresh | SrvEnvelopeFloor
  | CliEntityLww | CliHlcTimestamps | CliForwardCompat | CliFts5PorterEn | CliPresenceBeacons
  | CliDiagnosticMode.

Definition cap_bit (c : Capability) : Z :=
  match c with
  | SrvPushApns => 0 | SrvPushFcm => 1 | SrvPushWeb => 2 | SrvBlobPresign => 3
  | SrvRelayPair => 4 | SrvIntegrationGcal => 5 | SrvDiagnosticUpload => 7
  | SrvTokenRefresh => 8 | SrvEnvelopeFloor => 9
  | CliEntityLww => 32 | CliHlcTimestamps => 33 | CliForwardCompat => 34
  | CliFts5PorterEn => 35 | CliPresenceBeacons => 36 | CliDiagnosticMode => 37
  end.

(** [CapabilityBits]: the u64 itself. *)
Definition cap_with (bits : Z) (c : Capability) : Z := Z.lor bits (Z.shiftl 1 (cap_bit c)).
Definition cap_has (bits : Z) (c : Capability) : bool :=
  negb (Z.land bits (Z.shiftl 1 (cap_bit c)) =? 0).
Definition cap_intersection (a b : Z) : Z := Z.land a b.

Definition REQUIRED_CLIENT_BITS : Z :=
  cap_with (cap_with (cap_with (cap_with 0 CliEntityLww) CliHlcTimestamps) CliForwardCompat)
    CliFts5PorterEn.
Definition REQUIRED_SERVER_BITS : Z := cap_with 0 SrvBlobPresign.

Record Hello := mkHello {
  client_app_v : string;
  client_platform : string;
  wire_proto_supported : list Z;
  doc_schema_min : Z;
  doc_schema_max : Z;
  crypto_suite_supported : list Z;
  h_capabilities : Z;
  h_trace : string;
}.

Record HelloAck := mkHelloAck {
  server_app_v : string;
  wire_proto : Z;
  crypto_suite : Z;
  doc_schema_floor : Z;
  a_capabilities : Z;
  server_time_ms : Z;
}.

Inductive NegotiationError :=
  WireMismatch | CryptoMismatch | DocSchemaTooOld | CapabilityRequiredMissing.

(** The greatest version both lists hold. *)
Definition max_intersection (client server : list Z) : option Z :=
  foldr (λ c acc, Some (match acc with None => c | Some m => Z.max c m end)) None
    (filter (λ c, c ∈ server) client).

Definition negotiate (h : Hello) (app_v : string) (server_wire server_crypto : list Z)
    (server_doc_floor server_capabilities time_ms : Z) : result NegotiationError HelloAck :=
  try wire <- ok_or (max_intersection (wire_proto_supported h) server_wire) WireMismatch;
  try crypto <- ok_or (max_intersection (crypto_suite_supported h) server_crypto) CryptoMismatch;
  if decide (doc_schema_max h < server_doc_floor) then Err DocSchemaTooOld
  else if decide (Z.land (h_capabilities h) REQUIRED_CLIENT_BITS ≠ REQUIRED_CLIENT_BITS)
  then Err CapabilityRequiredMissing
  else if decide (Z.land server_capabilities REQUIRED_SERVER_BITS ≠ REQUIRED_SERVER_BITS)
  then Err CapabilityRequiredMissing
  else Ok (mkHelloAck app_v wire crypto server_doc_floor
             (cap_intersection (h_capabilities h) server_capabilities) time_ms).

(** ** Lemmas *)

Lemma magic_byte_roundtrip k b : magic_from_byte b = Some k ↔ b = magic_as_byte k.
Proof.
  split; [|by intros ->; destruct k].
  unfold magic_from_byte. intros Hb. repeat case_match; by simplify_eq.
Qed.

Lemma msg_byte_roundtrip k b : msg_from_byte b = Ok k ↔ b = msg_as_byte k.
Proof.
  split; [|by intros ->; destruct k].
  unfold msg_from_byte. intros Hb. repeat case_match; by simplify_eq.
Qed.

(** A list of at least [n] elements, taken apart into its first [n]. *)
Ltac split_bytes buf n :=
  lazymatch n with
  | O => idtac
  | S ?n' => destruct buf as [|? buf]; [simpl in *; lia|split_bytes buf n']
  end.

Lemma be2 v : be_encode 2 v = [v / 256 mod 256; v mod 256].
Proof. done. Qed.
Lemma be_decode_u16 v : 0 ≤ v ≤ u16_max → be_decode [v / 256 mod 256; v mod 256] = v.
Proof. intros Hv. change u16_max with 65535 in Hv. rewrite <-be2. apply be_decode_encode. lia. Qed.

Lemma be4 v :
  be_encode 4 v = [v / 256 / 256 / 256 mod 256; v / 256 / 256 mod 256; v / 256 mod 256; v mod 256].
Proof. done. Qed.

Lemma flags_zstd_masked f : flags_zstd (flags_from_byte f) = flags_zstd f.
Proof.
  unfold flags_zstd, flags_from_byte. by rewrite <-Z.land_assoc, Z.land_diag.
Qed.

(** the magic prefix round-trips: what [write_prefix] puts at the front of
    a buffer long enough for it reads back as the kind and version written,
    leaves every later byte alone and panics on no such buffer; and any buffer
    [decode_prefix] accepts holds exactly the bytes [write_prefix] writes. *)
Theorem magic_prefix_roundtrip :
  (∀ out kind version, (MAGIC_LEN ≤ length out)%nat → 0 ≤ version ≤ u16_max →
     ∃ buf, write_prefix out kind version = Some (buf, MAGIC_LEN) ∧
       length buf = length out ∧ drop MAGIC_LEN buf = drop MAGIC_LEN out ∧
       decode_prefix buf = Ok (mkMagicPrefix kind version)) ∧
  (∀ buf p, are_bytes buf → decode_prefix buf = Ok p →
     write_prefix buf (mp_kind p) (mp_version p) = Some (buf, MAGIC_LEN)).
Proof.
  split.
  - intros out kind version Hlen Hv. unfold MAGIC_LEN in *.
    split_bytes out 5%nat. unfold write_prefix, decode_prefix.
    rewrite decide_False by (simpl; unfold MAGIC_LEN; lia). eexists. split; [done|].
    split_and!; [done|done|]. simpl app. rewrite decide_False by (simpl; unfold MAGIC_LEN; lia).
    rewrite decide_False by by intros []. cbn [nth].
    rewrite (proj2 (magic_byte_roundtrip kind _) eq_refl). cbn [ok_or result_bind].
    by rewrite be_decode_u16.
  - intros buf [k v] Hb. unfold decode_prefix. case_decide as Hlen; [done|].
    unfold MAGIC_LEN in Hlen. split_bytes buf 5%nat.
    case_decide as Hm; [done|]. cbn [take] in Hm.
    injection Hm as -> ->. cbn [nth]. destruct (magic_from_byte _) as [k'|] eqn:Ek; [|done].
    apply magic_byte_roundtrip in Ek as ->. intros [= -> <-].
    unfold write_prefix. rewrite decide_False by (simpl; unfold MAGIC_LEN; lia).
    cbn [mp_kind mp_version]. unfold are_bytes in Hb. rewrite !Forall_cons_iff in Hb.
    destruct Hb as (_ & _ & _ & H3 & H4 & _).
    pose proof (be_encode_decode [z2; z3]) as Hr. cbn [length] in Hr. rewrite Hr; [done|].
    by forall_list.
Qed.

Lemma magic_prefix_roundtrip_witness :
  (MAGIC_LEN ≤ length [0; 0; 0; 0; 0; 9])%nat ∧
  ∃ buf, write_prefix [0; 0; 0; 0; 0; 9] OpEnvelope 770 = Some (buf, MAGIC_LEN) ∧
    decode_prefix buf = Ok (mkMagicPrefix OpEnvelope 770).
Proof.
  split; [unfold MAGIC_LEN; simpl; lia|].
  destruct (proj1 magic_prefix_roundtrip [0; 0; 0; 0; 0; 9] OpEnvelope 770) as (buf & H1 & _ & _ & H4).
  - unfold MAGIC_LEN; simpl; lia.
  - unfold u16_max; lia.
  - exists buf. split; [exact H1|exact H4].
Defined.

(** *** The envelope header *)

Lemma scan_entries_app h l1 l2 :
  scan_entries h (l1 ++ l2) = (try h' <- scan_entries h l1; scan_entries h' l2).
Proof.
  revert h. induction l1 as [|kv l1 IH]; intros h; simpl; [done|].
  destruct (scan_entry h kv); simpl; [apply IH|done].
Qed.

(** The integer keys of fields the header does not read. *)
Definition unknown_field (kv : Value * Value) : Prop :=
  ∃ i, kv.1 = Integer i ∧ i ∉ [FIELD_V; FIELD_STREAM_ID; FIELD_DEVICE_ID; FIELD_SEQ].

Lemma scan_unknown h kv : unknown_field kv → scan_entry h kv = Ok h.
Proof.
  intros (i & Hk & Hi). unfold scan_entry. rewrite Hk.
  rewrite !not_elem_of_cons in Hi. destruct Hi as (?&?&?&?&_).
  by rewrite !decide_False.
Qed.

Lemma scan_all_unknown h l : Forall unknown_field l → scan_entries h l = Ok h.
Proof.
  intros Hl. induction Hl as [|kv l Hkv _ IH]; simpl; [done|]. by rewrite scan_unknown.
Qed.

Definition scan_ok (h : HeaderScan) : Prop :=
  (∀ b, hs_stream h = Some b → length b = 16%nat) ∧
  (∀ b, hs_device h = Some b → length b = 16%nat) ∧
  (∀ n, hs_seq h = Some n → in_u64 n).

Lemma u64_of_Ok v f n : u64_of v f = Ok n ↔ v = Integer n ∧ in_u64 n.
Proof.
  unfold u64_of, in_u64. destruct v; try (split; [done|by intros [? _]]).
  case_decide; split; [by intros [= ->]|by intros [[= ->] _]|done|by intros [[= ->] ?]].
Qed.
Lemma bytes16_Ok v f b : bytes16 v f = Ok b ↔ v = Bytes b ∧ length b = 16%nat.
Proof.
  unfold bytes16. destruct v; try (split; [done|by intros [? _]]).
  case_decide; split; [by intros [= ->]|by intros [[= ->] _]|done|by intros [[= ->] ?]].
Qed.

Lemma scan_entry_ok h kv h' : scan_ok h → scan_entry h kv = Ok h' → scan_ok h'.
Proof.
  intros (Hs & Hd & Hq). unfold scan_entry. destruct kv as [k v]; simpl. destruct k; try done.
  repeat case_decide; rewrite ?result_bind_Ok.
  - intros (? & _ & [= <-]). by split_and!.
  - intros (b & Hb & [= <-]). apply bytes16_Ok in Hb as [_ ?]. split_and!; [|done..].
    simpl. by intros ? [= <-].
  - intros (b & Hb & [= <-]). apply bytes16_Ok in Hb as [_ ?]. split_and!; [done| |done].
    simpl. by intros ? [= <-].
  - intros (m & Hm & [= <-]). apply u64_of_Ok in Hm as [_ ?]. split_and!; [done..|].
    simpl. by intros ? [= <-].
  - by intros [= <-].
Qed.

Lemma scan_entries_ok l h h' : scan_ok h → scan_entries h l = Ok h' → scan_ok h'.
Proof.
  revert h. induction l as [|kv l IH]; intros h Hh; simpl; [by intros [= <-]|].
  rewrite result_bind_Ok. intros (h1 & H1 & H2). eapply IH; [|exact H2]. by eapply scan_entry_ok.
Qed.

Lemma envelope_floor_readable_iff p :
  envelope_floor_readable p = true ↔ ENVELOPE_FORMAT_FLOOR ≤ p ≤ ENVELOPE_FORMAT_V.
Proof. unfold envelope_floor_readable. by rewrite andb_true_iff, !bool_decide_eq_true. Qed.

(** A relay routes an envelope exactly when it can locate the routing ids:
    an accepted buffer starts with the op-envelope prefix at a container floor
    this build implements, and the ids it yields are two 16-byte ids and a
    64-bit [seq]; and fields the header does not read, the ciphertext and any
    field a newer container adds among them, change nothing wherever they
    stand in the map. *)
Theorem envelope_header_routes (from_reader : nat → bytes → result ValueDecodeError (Value * bytes)) :
  (∀ buf h, decode_envelope_header from_reader buf = Ok h →
     (∃ p, decode_prefix (take MAGIC_LEN buf) = Ok p ∧ mp_kind p = OpEnvelope ∧
           ENVELOPE_FORMAT_FLOOR ≤ mp_version p ≤ ENVELOPE_FORMAT_V) ∧
     length (eh_stream_id h) = 16%nat ∧ length (eh_device_id h) = 16%nat ∧ in_u64 (eh_seq h)) ∧
  (∀ buf buf' l1 new l2 rest rest',
     take MAGIC_LEN buf = take MAGIC_LEN buf' → (MAGIC_LEN ≤ length buf)%nat →
     (MAGIC_LEN ≤ length buf')%nat →
     from_reader MAX_VALUE_DEPTH (drop MAGIC_LEN buf) = Ok (VMap (l1 ++ l2), rest) →
     from_reader MAX_VALUE_DEPTH (drop MAGIC_LEN buf') = Ok (VMap (l1 ++ new ++ l2), rest') →
     Forall unknown_field new →
     decode_envelope_header from_reader buf' = decode_envelope_header from_reader buf).
Proof.
  split.
  - intros buf h. unfold decode_envelope_header. case_decide; [done|].
    destruct (decode_prefix _) as [p|] eqn:Ep; [|done]. case_match eqn:Hb; [done|].
    apply orb_false_iff in Hb as [Hk Hf]. rewrite negb_false_iff in Hk, Hf.
    apply bool_decide_eq_true in Hk. apply envelope_floor_readable_iff in Hf.
    destruct (from_reader _ _) as [[[] rest]|]; try done.
    rewrite result_bind_Ok. intros (s & Hs & Hh). split; [eauto|].
    apply scan_entries_ok in Hs as (H1 & H2 & H3); [|by split_and!].
    unfold header_of_scan in Hh. destruct (hs_v s); [|done]. simpl in Hh.
    case_match; [done|]. destruct (hs_stream s), (hs_device s), (hs_seq s); try done.
    injection Hh as <-. split_and!; auto.
  - intros buf buf' l1 new l2 rest rest' Htake Hl Hl' Hr Hr' Hnew.
    unfold decode_envelope_header. rewrite !decide_False by lia. rewrite <-Htake, Hr, Hr'.
    destruct (decode_prefix _) as [p|]; [|done]. case_match; [done|]. f_equal.
    rewrite !scan_entries_app. destruct (scan_entries _ l1) as [h1|]; [|done]. cbn [result_bind].
    by rewrite scan_entries_app, scan_all_unknown.
Qed.

(** A reader for the example: an envelope whose first byte after the prefix is
    zero has the routing fields alone, any other one a ciphertext as well. *)
Definition routing_fields : list (Value * Value) :=
  [(Integer 1, Integer 3); (Integer 2, Bytes (replicate 16 7)); (Integer 3, Bytes (replicate 16 8));
   (Integer 4, Integer 42)].
Definition example_reader (_ : nat) (b : bytes) : result ValueDecodeError (Value * bytes) :=
  match b with
  | 0 :: rest => Ok (VMap routing_fields, rest)
  | _ :: rest => Ok (VMap ([] ++ [(Integer 10, Bytes [1; 2; 3])] ++ routing_fields), rest)
  | [] => Err Malformed
  end.

Lemma envelope_header_routes_witness :
  decode_envelope_header example_reader [83; 82; 2; 0; 3; 0] =
    Ok (mkEnvelopeHeader (replicate 16 7) (replicate 16 8) 42) ∧
  in_u64 42 ∧
  decode_envelope_header example_reader [83; 82; 2; 0; 3; 1] =
    decode_envelope_header example_reader [83; 82; 2; 0; 3; 0].
Proof.
  destruct (envelope_header_routes example_reader) as [H1 H2].
  assert (decode_envelope_header example_reader [83; 82; 2; 0; 3; 0] =
    Ok (mkEnvelopeHeader (replicate 16 7) (replicate 16 8) 42)) as Hd by (vm_compute; reflexivity).
  split; [exact Hd|]. split; [exact (proj2 (proj2 (proj2 (H1 _ _ Hd))))|].
  apply (H2 [83; 82; 2; 0; 3; 0] [83; 82; 2; 0; 3; 1] [] [(Integer 10, Bytes [1; 2; 3])] routing_fields [] []).
  - reflexivity.
  - unfold MAGIC_LEN; simpl; lia.
  - unfold MAGIC_LEN; simpl; lia.
  - reflexivity.
  - reflexivity.
  - constructor; [|constructor]. exists 10. split; [reflexivity|].
    apply (bool_decide_unpack _). vm_compute. exact I.
Defined.

(** *** Frames *)

Lemma len_nonneg b : 0 ≤ len b.
Proof. unfold len. lia. Qed.

Section frame_facts.
Context (enc dec : bytes → option bytes).
Hypothesis zstd_roundtrip : ∀ p c, enc p = Some c → dec c = Some p.

Lemma encode_frame_Ok k f p out :
  encode_frame enc k f p = Ok out ↔
  ∃ body, (if flags_zstd f then enc p = Some body else body = p) ∧
    len p ≤ MAX_DECOMPRESSED_BYTES ∧ 11 + len body ≤ MAX_FRAME_BYTES ∧
    out = [83; 82; 1; 0; 1; msg_as_byte k; f] ++ be_encode 4 (len p) ++ body.
Proof.
  unfold encode_frame, MAX_DECOMPRESSED_BYTES, MAX_FRAME_BYTES, u32_max.
  change (Z.of_nat FRAME_HEADER_LEN) with 11. case_decide as Hp.
  { split; [done|]. intros (b & _ & ? & _). lia. }
  rewrite result_bind_Ok. split.
  - intros (body & Hbody & Hout). exists body. case_decide; [done|]. case_decide; [done|].
    injection Hout as <-. split_and!; [|lia|lia|done].
    destruct (flags_zstd f); [|congruence]. by destruct (enc p); simplify_eq/=.
  - intros (body & Hbody & H1 & H2 & ->). exists body. split.
    + destruct (flags_zstd f); [by rewrite Hbody|by rewrite Hbody].
    + by rewrite !decide_False by lia.
Qed.

Lemma decode_encoded k f p body :
  (if flags_zstd f then dec body = Some p else body = p) →
  len p ≤ MAX_DECOMPRESSED_BYTES → 11 + len body ≤ MAX_FRAME_BYTES →
  decode_frame dec ([83; 82; 1; 0; 1; msg_as_byte k; f] ++ be_encode 4 (len p) ++ body) =
    Ok (mkFrameHeader WIRE_PROTO_V k (flags_from_byte f) (len p), p).
Proof.
  intros Hbody Hp Htot. rewrite be4. unfold decode_frame.
  set (buf := _ ++ _). assert (len buf = 11 + len body) as Hlen by (unfold len; subst buf; cbn; lia).
  pose proof (len_nonneg body). pose proof (len_nonneg p).
  rewrite Hlen. change (Z.of_nat FRAME_HEADER_LEN) with 11. rewrite !decide_False by lia.
  subst buf. cbn [app take nth]. rewrite decide_False by by intros [].
  rewrite decide_False by by intros []. rewrite decide_False by by intros [].
  rewrite (proj2 (msg_byte_roundtrip k _) eq_refl). rewrite <-be4.
  rewrite be_decode_encode by (change (256 ^ Z.of_nat 4) with 4294967296;
    unfold MAX_DECOMPRESSED_BYTES in Hp; lia).
  rewrite decide_False by lia. rewrite flags_zstd_masked. unfold FRAME_HEADER_LEN. cbn [drop]. rewrite ?drop_0.
  destruct (flags_zstd f) in Hbody |- *.
  - rewrite Hbody. cbn [ok_or result_bind]. rewrite decide_False by tauto.
    by rewrite decide_False by lia.
  - subst body. by rewrite decide_False by tauto.
Qed.

Lemma decode_frame_Ok buf h p :
  decode_frame dec buf = Ok (h, p) → are_bytes buf →
  ∃ f body, (if flags_zstd f then dec body = Some p else body = p) ∧
    len p ≤ MAX_DECOMPRESSED_BYTES ∧ 11 + len body ≤ MAX_FRAME_BYTES ∧
    h = mkFrameHeader WIRE_PROTO_V (fh_msg_kind h) (flags_from_byte f) (len p) ∧
    buf = [83; 82; 1; 0; 1; msg_as_byte (fh_msg_kind h); f] ++ be_encode 4 (len p) ++ body.
Proof.
  unfold decode_frame. change (Z.of_nat FRAME_HEADER_LEN) with 11.
  case_decide as Hlen; [done|]. case_decide as Hmax; [done|]. intros Hd Hb.
  unfold len in Hlen. split_bytes buf 11%nat.
  case_decide as Hm; [done|]. cbn [take] in Hm. injection Hm as -> ->.
  cbn [nth] in Hd. case_decide as Hk; [done|]. case_decide as Hv; [done|].
  destruct (msg_from_byte _) as [k|] eqn:Ek; [|done]. apply msg_byte_roundtrip in Ek as ->.
  case_decide as Hdl; [done|]. rewrite flags_zstd_masked in Hd.
  unfold FRAME_HEADER_LEN in Hd. cbn [drop] in Hd. rewrite ?drop_0 in Hd.
  apply result_bind_Ok in Hd as (p' & Hp' & [= <- <-]).
  unfold are_bytes in Hb. rewrite !Forall_cons_iff in Hb. destruct_and! Hb.
  assert (z2 = 0 ∧ z3 = 1) as [-> ->].
  { pose proof (be_encode_decode [z2; z3]) as Hr. cbn [length] in Hr.
    rewrite Hv in Hr. specialize (Hr ltac:(by forall_list)). change (be_encode 2 WIRE_PROTO_V) with [0; 1] in Hr. by injection Hr as <- <-. }
  set (l4 := [z6; z7; z8; z9]) in *.
  assert (be_encode 4 (be_decode l4) = l4) as Hl4
    by (apply (be_encode_decode l4); by forall_list).
  exists z5, buf. cbn [fh_msg_kind].
  assert (len p' = be_decode l4 ∧ if flags_zstd z5 then dec buf = Some p' else buf = p') as [Hlp Hbody].
  { destruct (flags_zstd z5).
    - apply result_bind_Ok in Hp' as (d & Hd & Hp'). destruct (dec buf) as [d'|]; [|done].
      injection Hd as ->. case_decide; [done|]. case_decide; [done|]. by injection Hp' as ->.
    - case_decide; [done|]. by injection Hp' as ->. }
  split_and!; [done|lia|unfold len in *; cbn [length] in Hmax; lia|by rewrite Hlp|].
  rewrite Hlp, Hl4, Hk. done.
Qed.
End frame_facts.

(** C32: a frame survives the wire: whatever [encode_frame] writes is at most
    4 MiB and [decode_frame] reads back the same message kind and payload,
    with the flag bits this version defines; and without compression every
    payload that leaves room for the 11-byte header is accepted. *)
Theorem frame_roundtrip (enc dec : bytes → option bytes)
    (zstd_roundtrip : ∀ p c, enc p = Some c → dec c = Some p) k f p :
  (∀ out, encode_frame enc k f p = Ok out →
     len out ≤ MAX_FRAME_BYTES ∧
     decode_frame dec out = Ok (mkFrameHeader WIRE_PROTO_V k (flags_from_byte f) (len p), p)) ∧
  (flags_zstd f = false →
     ((∃ out, encode_frame enc k f p = Ok out) ↔ len p ≤ MAX_FRAME_BYTES - 11)).
Proof.
  split.
  - intros out (body & Hbody & Hp & Htot & ->)%encode_frame_Ok. split.
    + rewrite be4. unfold len in *. cbn. lia.
    + apply decode_encoded; [|done..]. destruct (flags_zstd f); [by apply zstd_roundtrip|done].
  - intros Hf. split.
    + intros (out & (body & Hbody & Hp & Htot & _)%encode_frame_Ok). rewrite Hf in Hbody.
      subst body. lia.
    + intros Hp. eexists. apply encode_frame_Ok. exists p. rewrite Hf.
      unfold MAX_FRAME_BYTES, MAX_DECOMPRESSED_BYTES in *. split_and!; [done|lia|lia|done].
Qed.

(** A compressor for the example: it prefixes the payload with a byte. *)
Definition example_enc (p : bytes) : option bytes := Some (99 :: p).
Definition example_dec (c : bytes) : option bytes := match c with 99 :: p => Some p | _ => None end.

Lemma frame_roundtrip_witness :
  (∀ p c, example_enc p = Some c → example_dec c = Some p) ∧
  encode_frame example_enc Ping FLAGS_ZSTD [1; 2; 3] =
    Ok [83; 82; 1; 0; 1; 12; 1; 0; 0; 0; 3; 99; 1; 2; 3] ∧
  decode_frame example_dec [83; 82; 1; 0; 1; 12; 1; 0; 0; 0; 3; 99; 1; 2; 3] =
    Ok (mkFrameHeader 1 Ping FLAGS_ZSTD 3, [1; 2; 3]) ∧
  ∃ out, encode_frame example_enc Ping FLAGS_EMPTY [1; 2; 3] = Ok out.
Proof.
  assert (∀ p c, example_enc p = Some c → example_dec c = Some p) as Hz
    by (intros p c [= <-]; reflexivity).
  assert (encode_frame example_enc Ping FLAGS_ZSTD [1; 2; 3] =
    Ok [83; 82; 1; 0; 1; 12; 1; 0; 0; 0; 3; 99; 1; 2; 3]) as He by (vm_compute; reflexivity).
  split; [exact Hz|]. split; [exact He|]. split.
  - exact (proj2 (proj1 (frame_roundtrip _ _ Hz _ _ _) _ He)).
  - apply (proj2 (frame_roundtrip example_enc example_dec Hz Ping FLAGS_EMPTY [1; 2; 3])).
    + reflexivity.
    + vm_compute. discriminate.
Defined.

(** A reader refuses whatever it cannot hold: every frame [decode_frame]
    accepts is within the 4 MiB frame cap, is this protocol version's, carries
    a payload within the 16 MiB cap whose length is the one its header claims,
    a decompressed one included, and reports only flag bits this version
    defines; and an accepted uncompressed frame is byte for byte what
    [encode_frame] writes for its kind, flag byte and payload. *)
Theorem frame_decode_strict (enc dec : bytes → option bytes) buf h p :
  are_bytes buf → decode_frame dec buf = Ok (h, p) →
  len buf ≤ MAX_FRAME_BYTES ∧ fh_version h = WIRE_PROTO_V ∧
  len p = fh_decompressed_len h ∧ len p ≤ MAX_DECOMPRESSED_BYTES ∧
  (fh_flags h = FLAGS_EMPTY ∨ fh_flags h = FLAGS_ZSTD) ∧
  ∃ f, fh_flags h = flags_from_byte f ∧
    (flags_zstd f = false → encode_frame enc (fh_msg_kind h) f p = Ok buf).
Proof.
  intros Hb (f & body & Hbody & Hp & Htot & Hh & Hbuf)%decode_frame_Ok; [|done].
  assert (fh_flags h = flags_from_byte f) as Hflags by by rewrite Hh.
  split_and!; [|by rewrite Hh|by rewrite Hh|done| |].
  - rewrite Hbuf, be4. unfold len in *. cbn. lia.
  - rewrite Hflags. unfold flags_from_byte, FLAGS_EMPTY, FLAGS_ZSTD.
    change 1 with (Z.ones 1). rewrite Z.land_ones by lia.
    change (Z.ones 1) with 1. change (2 ^ 1) with 2. pose proof (Z.mod_pos_bound f 2). lia.
  - exists f. split; [done|]. intros Hf. apply encode_frame_Ok. exists body. rewrite Hf in *.
    by split_and!.
Qed.

Lemma frame_decode_strict_witness :
  are_bytes [83; 82; 1; 0; 1; 13; 128; 0; 0; 0; 1; 5] ∧
  decode_frame example_dec [83; 82; 1; 0; 1; 13; 128; 0; 0; 0; 1; 5] =
    Ok (mkFrameHeader 1 Pong FLAGS_EMPTY 1, [5]) ∧
  len [5] ≤ MAX_DECOMPRESSED_BYTES.
Proof.
  assert (are_bytes [83; 82; 1; 0; 1; 13; 128; 0; 0; 0; 1; 5]) as Hb
    by (apply (bool_decide_unpack _); vm_compute; exact I).
  assert (decode_frame example_dec [83; 82; 1; 0; 1; 13; 128; 0; 0; 0; 1; 5] =
    Ok (mkFrameHeader 1 Pong FLAGS_EMPTY 1, [5])) as Hd by (vm_compute; reflexivity).
  split; [exact Hb|]. split; [exact Hd|].
  exact (proj1 (proj2 (proj2 (proj2 (frame_decode_strict example_enc _ _ _ _ Hb Hd))))).
Defined.

(** *** Negotiation *)

Lemma max_intersection_Some client server m :
  max_intersection client server = Some m ↔
  m ∈ client ∧ m ∈ server ∧ ∀ x, x ∈ client → x ∈ server → x ≤ m.
Proof.
  unfold max_intersection.
  assert (∀ l m, foldr (λ c acc, Some (match acc with None => c | Some m => Z.max c m end)) None l
            = Some m ↔ m ∈ l ∧ ∀ x, x ∈ l → x ≤ m) as Hmax.
  { clear. induction l as [|c l IH]; intros m; simpl.
    { split; [done|]. by intros [?%not_elem_of_nil _]. }
    destruct (foldr _ None l) as [g|] eqn:E.
    - destruct (proj1 (IH g) eq_refl) as [Hg Hub]. setoid_rewrite elem_of_cons. split.
      + intros [= <-]. split; [destruct (Z.max_spec c g) as [[_ ->]|[_ ->]]; auto|].
        intros x [-> | Hx]; [lia|]. specialize (Hub x Hx). lia.
      + intros [Hm Hx]. f_equal. pose proof (Hx c (or_introl eq_refl)).
        pose proof (Hx g (or_intror Hg)). destruct Hm as [-> | Hm]; [lia|].
        specialize (Hub m Hm). lia.
    - assert (l = []) as -> by (destruct l; [done|]; simpl in E; by destruct (foldr _ None l)).
      setoid_rewrite list_elem_of_singleton. split; [by intros [= <-]; split; [|intros ? ->]|].
      by intros [-> _]. }
  rewrite Hmax. setoid_rewrite list_elem_of_filter. naive_solver.
Qed.

Lemma max_intersection_None client server :
  max_intersection client server = None ↔ ∀ x, x ∈ client → x ∉ server.
Proof.
  destruct (max_intersection client server) as [m|] eqn:E.
  - apply max_intersection_Some in E as (? & ? & _). split; [done|]. intros Hx. by destruct (Hx m).
  - split; [|done]. intros _ x Hx Hs. unfold max_intersection in E.
    assert (x ∈ filter (λ c, c ∈ server) client) as Hin by by apply list_elem_of_filter.
    destruct (filter _ client) as [|y l]; [by apply not_elem_of_nil in Hin|done].
Qed.

Lemma cap_has_testbit bits c : cap_has bits c = Z.testbit bits (cap_bit c).
Proof.
  assert (0 ≤ cap_bit c) as Hc by (destruct c; simpl; lia).
  unfold cap_has. rewrite Z.shiftl_1_l. destruct (Z.testbit bits (cap_bit c)) eqn:E.
  - apply negb_true_iff, Z.eqb_neq. intros Hz.
    assert (Z.testbit (Z.land bits (2 ^ cap_bit c)) (cap_bit c) = true) as Ht
      by by rewrite Z.land_spec, E, Z.pow2_bits_true.
    by rewrite Hz, Z.bits_0 in Ht.
  - apply negb_false_iff, Z.eqb_eq, Z.bits_inj'. intros n Hn.
    rewrite Z.land_spec, Z.bits_0. destruct (decide (n = cap_bit c)) as [-> |].
    + by rewrite E.
    + by rewrite Z.pow2_bits_false, andb_false_r by done.
Qed.

(** Every required bit is one of the capabilities listed. *)
Lemma required_client bits :
  Z.land bits REQUIRED_CLIENT_BITS = REQUIRED_CLIENT_BITS ↔
  Forall (λ c, cap_has bits c = true) [CliEntityLww; CliHlcTimestamps; CliForwardCompat; CliFts5PorterEn].
Proof.
  setoid_rewrite cap_has_testbit. rewrite !Forall_cons_iff. split.
  - intros Heq. assert (∀ i, Z.testbit REQUIRED_CLIENT_BITS i = true → Z.testbit bits i = true) as Hb.
    { intros i Hi. rewrite <-Heq, Z.land_spec in Hi. by apply andb_true_iff in Hi as [? _]. }
    split_and!; try (by apply Hb); done.
  - intros (H1 & H2 & H3 & H4 & _). apply Z.bits_inj'. intros n Hn.
    rewrite Z.land_spec. destruct (Z.testbit REQUIRED_CLIENT_BITS n) eqn:E; [|by rewrite andb_false_r].
    rewrite andb_true_r.
    change REQUIRED_CLIENT_BITS with (Z.shiftl 15 32) in E.
    rewrite Z.shiftl_spec in E by done.
    assert (n = 32 ∨ n = 33 ∨ n = 34 ∨ n = 35) as [-> |[-> |[-> | ->]]]; try done.
    assert (0 ≤ n - 32) by (destruct (decide (0 ≤ n - 32)); [done|];
      by rewrite Z.testbit_neg_r in E by lia).
    assert (n - 32 < 4); [|lia]. apply Z.nle_gt. intros Hge.
    rewrite Z.bits_above_log2 in E; [done|lia|]. change (Z.log2 15) with 3. lia.
Qed.

Lemma required_server bits :
  Z.land bits REQUIRED_SERVER_BITS = REQUIRED_SERVER_BITS ↔ cap_has bits SrvBlobPresign = true.
Proof.
  rewrite cap_has_testbit. change REQUIRED_SERVER_BITS with (2 ^ 3). change (cap_bit SrvBlobPresign) with 3.
  split.
  - intros Heq. assert (Z.testbit (2 ^ 3) 3 = true) as Hi by done.
    rewrite <-Heq, Z.land_spec in Hi. by apply andb_true_iff in Hi as [? _].
  - intros Hb. apply Z.bits_inj'. intros n Hn. rewrite Z.land_spec.
    destruct (decide (n = 3)) as [-> |]; [by rewrite Hb|].
    by rewrite Z.pow2_bits_false, andb_false_r by done.
Qed.

(** the Hello negotiation settles on what both sides speak or names the one
    reason it cannot, in a fixed order: it agrees exactly when the wire
    protocols intersect, the crypto suites intersect, the relay's document
    floor is one the client reads, and both sides have the capabilities
    required of them; it then picks the greatest common version of each, and a
    capability is agreed exactly when both sides announced it. *)
Theorem negotiate_exact h app_v wires cryptos floor caps time :
  match negotiate h app_v wires cryptos floor caps time with
  | Ok ack =>
      (wire_proto ack ∈ wire_proto_supported h ∧ wire_proto ack ∈ wires ∧
       ∀ x, x ∈ wire_proto_supported h → x ∈ wires → x ≤ wire_proto ack) ∧
      (crypto_suite ack ∈ crypto_suite_supported h ∧ crypto_suite ack ∈ cryptos ∧
       ∀ x, x ∈ crypto_suite_supported h → x ∈ cryptos → x ≤ crypto_suite ack) ∧
      doc_schema_floor ack = floor ∧ floor ≤ doc_schema_max h ∧
      (∀ c, cap_has (a_capabilities ack) c = cap_has (h_capabilities h) c && cap_has caps c) ∧
      Forall (λ c, cap_has (h_capabilities h) c = true)
        [CliEntityLww; CliHlcTimestamps; CliForwardCompat; CliFts5PorterEn] ∧
      cap_has caps SrvBlobPresign = true
  | Err WireMismatch => ∀ x, x ∈ wire_proto_supported h → x ∉ wires
  | Err CryptoMismatch => ∀ x, x ∈ crypto_suite_supported h → x ∉ cryptos
  | Err DocSchemaTooOld => doc_schema_max h < floor
  | Err CapabilityRequiredMissing =>
      ¬ Forall (λ c, cap_has (h_capabilities h) c = true)
          [CliEntityLww; CliHlcTimestamps; CliForwardCompat; CliFts5PorterEn] ∨
      cap_has caps SrvBlobPresign = false
  end.
Proof.
  unfold negotiate. destruct (max_intersection (wire_proto_supported h) wires) as [w|] eqn:Ew;
    cbn [ok_or result_bind]; [|by apply max_intersection_None].
  destruct (max_intersection (crypto_suite_supported h) cryptos) as [c|] eqn:Ec;
    cbn [ok_or result_bind]; [|by apply max_intersection_None].
  apply max_intersection_Some in Ew, Ec. case_decide as Hf; [done|].
  case_decide as H1; [left; by rewrite <-required_client|].
  case_decide as H2; [right; by rewrite <-not_true_iff_false, <-required_server|].
  split_and!; simpl; try tauto; [lia|..].
  - intros cap. rewrite !cap_has_testbit. apply Z.land_spec.
  - by apply required_client.
  - by apply required_server.
Qed.
