(* ===== verification/Envelope.v ===== *)
(** * Op envelopes (sunrise-crypto/src/op_envelope/, suite.rs; version.rs)

    The signed container every op travels in: its 15 known fields and the
    unknown ones a newer build added, the canonical encoding of it, what is
    hashed, signed and authenticated, sealing, decoding and opening.  BLAKE3,
    Ed25519 and XChaCha20-Poly1305 are parameters. *)

From Stdlib Require Import ZArith Lia.
From stdpp Require Import base tactics decidable countable option list gmap sorting strings numbers.
From S2P Require Import Prelude Bytes Hlc Cbor Wire.
Open Scope Z_scope.

(** ** The primitives the repository calls *)

Class Crypto := {
  (** [blake3::hash], and BLAKE3's [derive_key] mode: so many bytes of output
      for a context and the key material. *)
  blake3 : bytes → bytes;
  derive_key : string → bytes → nat → bytes;
  (** Ed25519: a secret key's public key, signing and verifying. *)
  public_key : bytes → bytes;
  sign : bytes → bytes → bytes;
  verify_ed25519 : bytes → bytes → bytes → bool;
  (** XChaCha20-Poly1305 by key, nonce, text and associated data. *)
  aead_seal_xchacha : bytes → bytes → bytes → bytes → option bytes;
  aead_open_xchacha : bytes → bytes → bytes → bytes → option bytes;
}.

(** What the primitives promise of a text they sealed or signed themselves. *)
Class CryptoLaws `{Crypto} : Prop := {
  length_sign sk m : length (sign sk m) = 64%nat;
  verify_sign sk m : verify_ed25519 (public_key sk) m (sign sk m) = true;
  aead_open_seal k n m aad c :
    aead_seal_xchacha k n m aad = Some c → aead_open_xchacha k n c aad = Some m;
}.

(** [derive_key_32] (blake3_kdf.rs). *)
Definition derive_key_32 `{Crypto} (context : string) (key_material : bytes) : bytes :=
  derive_key context key_material 32.

(** ** Algorithm ids (suite.rs) *)

Module AeadAlgId.
Inductive t := None | XChaCha20Poly1305.
#[global] Instance eq_dec : EqDecision t. Proof. solve_decision. Defined.
Definition as_u32 (a : t) : Z := match a with None => 0 | XChaCha20Poly1305 => 1 end.
End AeadAlgId.

Module SigAlgId.
Inductive t := Ed25519.
#[global] Instance eq_dec : EqDecision t. Proof. solve_decision. Defined.
Definition as_u32 (a : t) : Z := match a with Ed25519 => 1 end.
End SigAlgId.

Definition aead_alg_id (v : Z) : option AeadAlgId.t :=
  match v with
  | 0 => Some AeadAlgId.None
  | 1 => Some AeadAlgId.XChaCha20Poly1305
  | _ => None
  end.

Definition sig_alg_id (v : Z) : option SigAlgId.t :=
  match v with
  | 1 => Some SigAlgId.Ed25519
  | _ => None
  end.

Definition AEAD_NONCE_LEN : nat := 24.

(** ** Document schema versions (version.rs) *)

Definition DOC_SCHEMA_V : Z := 22.
Definition DOC_SCHEMA_FP_PREFIX_LEN : nat := 8.
Definition DOC_SCHEMA_FLOOR : Z := 1.

Definition nibble (c : Z) : Z := if decide (48 ≤ c ≤ 57) then c - 48 else c - 97 + 10.
Fixpoint hex_pairs (b : bytes) : bytes :=
  match b with
  | hi :: lo :: b' => nibble hi * 16 + nibble lo :: hex_pairs b'
  | _ => []
  end.
Definition hex32 (s : string) : bytes := hex_pairs (text_bytes s).

Definition DOC_SCHEMA_FINGERPRINTS : list (Z * bytes) :=
  [(7, hex32 "fb893b62bb2f9bf7d9adf7ba95d5bee20498a63aa0e03c4f14a7a28a7d0d6fcb");
   (8, hex32 "69a555bc13a1b05143608bf16370bb6fcdb0268e514efdbc30df070049dbf58d");
   (9, hex32 "875fc9a8b8d426ff9c52dd6fa5ce2da8685903353fc58f98446c4825c2d7de01");
   (10, hex32 "e9a6d82f484ef86b75291f8d58f28e1a04bc6ee5f877de89da5afe0af03ff12c");
   (11, hex32 "3c75fc18c3369d0481d746a3534a34028ad1068a02ee6816e3062b830e6debd4");
   (12, hex32 "1be56767d868335916e893ff50e7a6097d942957f1687109b8cc17fb4e2176f1");
   (13, hex32 "09ede17ec2962b1bc05b1214681c7fc1f4af325955535c27119d709c35a2cf05");
   (14, hex32 "300fb530ec0d3b3c3e5e24ed878fb9cc866cb4f2a3496bd37388369887f3749b");
   (15, hex32 "953c59ed8729b185b79ca821da37d40facc115054b8c11150d19d8e0b6999de4");
   (16, hex32 "ac96923d0675fabe2162d286f5ba5af7cb15cc4c32a4311bcc36e2fa6ad6c9ef");
   (17, hex32 "2fc9c2a11793f1e1940133d9d5949ddff676fa2cb73fbfd65f2175c0215a2531");
   (18, hex32 "4093cc32794e193cf86235c9d79e31437b4e46f694f9b419e7f9414845617015");
   (19, hex32 "46ee3fe735d8a27674e96e7ea8962031c544c790aba22921c260dca4afee084e");
   (20, hex32 "7f0c318d6bb81e2f7d2c755d5271f3c229854133bbe21c1dbcf0a0da24979fc9");
   (21, hex32 "35b2c6020668ba962d8f799f533beebf2c3ee14d0237a05734b6cad8bb50cebe");
   (22, hex32 "878b79742cd6b1884edbbdc4977f89c29391aebff25cb005d9e1cfcaae9a9454")].

Definition doc_schema_fingerprint (v : Z) : option bytes :=
  snd <$> find (λ e, bool_decide (e.1 = v)) DOC_SCHEMA_FINGERPRINTS.

Definition doc_schema_fp_prefix (v : Z) : option bytes :=
  take DOC_SCHEMA_FP_PREFIX_LEN <$> doc_schema_fingerprint v.

(** ** The envelope (op_envelope/mod.rs) *)

Inductive OpEnvelopeError :=
  | BadMagic | Cbor | BadField (field : string) | UnknownAlg (what : string)
  | InconsistentAead | SigVerify | AeadAuth | DocSchemaTooOld (got floor : Z).

Definition SIG_DOMAIN : bytes := text_bytes "sunrise.op_envelope.v1".
Definition MAX_CHAIN_HEADS : nat := 256.

Record ChainHead := mkChainHead { ch_device_id : bytes; ch_seq : Z; ch_op_hash : bytes }.
#[export] Instance ChainHead_eq_dec : EqDecision ChainHead. Proof. solve_decision. Defined.

Record ChainLinks := mkChainLinks { cl_prev_hash : option bytes; cl_heads : list ChainHead }.
Definition no_links : ChainLinks := mkChainLinks None [].

Record OpEnvelope := mkOpEnvelope {
  e_v : Z;
  e_stream_id : bytes;
  e_device_id : bytes;
  e_seq : Z;
  e_hlc : Hlc;
  e_aead_alg : AeadAlgId.t;
  e_sig_alg : SigAlgId.t;
  e_epoch : Z;
  e_nonce : bytes;
  e_payload : bytes;
  e_sig : bytes;
  e_doc_schema_v : Z;
  e_schema_fp : option bytes;
  e_prev_hash : option bytes;
  e_heads : list ChainHead;
  e_unknown : gmap Z Value;
}.

Definition set_v (x : Z) (e : OpEnvelope) : OpEnvelope :=
  mkOpEnvelope x (e_stream_id e) (e_device_id e) (e_seq e) (e_hlc e) (e_aead_alg e) (e_sig_alg e)
    (e_epoch e) (e_nonce e) (e_payload e) (e_sig e) (e_doc_schema_v e) (e_schema_fp e)
    (e_prev_hash e) (e_heads e) (e_unknown e).
Definition set_stream_id (x : bytes) (e : OpEnvelope) : OpEnvelope :=
  mkOpEnvelope (e_v e) x (e_device_id e) (e_seq e) (e_hlc e) (e_aead_alg e) (e_sig_alg e)
    (e_epoch e) (e_nonce e) (e_payload e) (e_sig e) (e_doc_schema_v e) (e_schema_fp e)
    (e_prev_hash e) (e_heads e) (e_unknown e).
Definition set_device_id (x : bytes) (e : OpEnvelope) : OpEnvelope :=
  mkOpEnvelope (e_v e) (e_stream_id e) x (e_seq e) (e_hlc e) (e_aead_alg e) (e_sig_alg e)
    (e_epoch e) (e_nonce e) (e_payload e) (e_sig e) (e_doc_schema_v e) (e_schema_fp e)
    (e_prev_hash e) (e_heads e) (e_unknown e).
Definition set_seq (x : Z) (e : OpEnvelope) : OpEnvelope :=
  mkOpEnvelope (e_v e) (e_stream_id e) (e_device_id e) x (e_hlc e) (e_aead_alg e) (e_sig_alg e)
    (e_epoch e) (e_nonce e) (e_payload e) (e_sig e) (e_doc_schema_v e) (e_schema_fp e)
    (e_prev_hash e) (e_heads e) (e_unknown e).
Definition set_hlc (x : Hlc) (e : OpEnvelope) : OpEnvelope :=
  mkOpEnvelope (e_v e) (e_stream_id e) (e_device_id e) (e_seq e) x (e_aead_alg e) (e_sig_alg e)
    (e_epoch e) (e_nonce e) (e_payload e) (e_sig e) (e_doc_schema_v e) (e_schema_fp e)
    (e_prev_hash e) (e_heads e) (e_unknown e).
Definition set_aead_alg (x : AeadAlgId.t) (e : OpEnvelope) : OpEnvelope :=
  mkOpEnvelope (e_v e) (e_stream_id e) (e_device_id e) (e_seq e) (e_hlc e) x (e_sig_alg e)
    (e_epoch e) (e_nonce e) (e_payload e) (e_sig e) (e_doc_schema_v e) (e_schema_fp e)
    (e_prev_hash e) (e_heads e) (e_unknown e).
Definition set_sig_alg (x : SigAlgId.t) (e : OpEnvelope) : OpEnvelope :=
  mkOpEnvelope (e_v e) (e_stream_id e) (e_device_id e) (e_seq e) (e_hlc e) (e_aead_alg e) x
    (e_epoch e) (e_nonce e) (e_payload e) (e_sig e) (e_doc_schema_v e) (e_schema_fp e)
    (e_prev_hash e) (e_heads e) (e_unknown e).
Definition set_epoch (x : Z) (e : OpEnvelope) : OpEnvelope :=
  mkOpEnvelope (e_v e) (e_stream_id e) (e_device_id e) (e_seq e) (e_hlc e) (e_aead_alg e)
    (e_sig_alg e) x (e_nonce e) (e_payload e) (e_sig e) (e_doc_schema_v e) (e_schema_fp e)
    (e_prev_hash e) (e_heads e) (e_unknown e).
Definition set_nonce (x : bytes) (e : OpEnvelope) : OpEnvelope :=
  mkOpEnvelope (e_v e) (e_stream_id e) (e_device_id e) (e_seq e) (e_hlc e) (e_aead_alg e)
    (e_sig_alg e) (e_epoch e) x (e_payload e) (e_sig e) (e_doc_schema_v e) (e_schema_fp e)
    (e_prev_hash e) (e_heads e) (e_unknown e).
Definition set_payload (x : bytes) (e : OpEnvelope) : OpEnvelope :=
  mkOpEnvelope (e_v e) (e_stream_id e) (e_device_id e) (e_seq e) (e_hlc e) (e_aead_alg e)
    (e_sig_alg e) (e_epoch e) (e_nonce e) x (e_sig e) (e_doc_schema_v e) (e_schema_fp e)
    (e_prev_hash e) (e_heads e) (e_unknown e).
Definition set_sig (x : bytes) (e : OpEnvelope) : OpEnvelope :=
  mkOpEnvelope (e_v e) (e_stream_id e) (e_device_id e) (e_seq e) (e_hlc e) (e_aead_alg e)
    (e_sig_alg e) (e_epoch e) (e_nonce e) (e_payload e) x (e_doc_schema_v e) (e_schema_fp e)
    (e_prev_hash e) (e_heads e) (e_unknown e).
Definition set_doc_schema_v (x : Z) (e : OpEnvelope) : OpEnvelope :=
  mkOpEnvelope (e_v e) (e_stream_id e) (e_device_id e) (e_seq e) (e_hlc e) (e_aead_alg e)
    (e_sig_alg e) (e_epoch e) (e_nonce e) (e_payload e) (e_sig e) x (e_schema_fp e) (e_prev_hash e)
    (e_heads e) (e_unknown e).
Definition set_schema_fp (x : option bytes) (e : OpEnvelope) : OpEnvelope :=
  mkOpEnvelope (e_v e) (e_stream_id e) (e_device_id e) (e_seq e) (e_hlc e) (e_aead_alg e)
    (e_sig_alg e) (e_epoch e) (e_nonce e) (e_payload e) (e_sig e) (e_doc_schema_v e) x
    (e_prev_hash e) (e_heads e) (e_unknown e).
Definition set_prev_hash (x : option bytes) (e : OpEnvelope) : OpEnvelope :=
  mkOpEnvelope (e_v e) (e_stream_id e) (e_device_id e) (e_seq e) (e_hlc e) (e_aead_alg e)
    (e_sig_alg e) (e_epoch e) (e_nonce e) (e_payload e) (e_sig e) (e_doc_schema_v e)
    (e_schema_fp e) x (e_heads e) (e_unknown e).
Definition set_heads (x : list ChainHead) (e : OpEnvelope) : OpEnvelope :=
  mkOpEnvelope (e_v e) (e_stream_id e) (e_device_id e) (e_seq e) (e_hlc e) (e_aead_alg e)
    (e_sig_alg e) (e_epoch e) (e_nonce e) (e_payload e) (e_sig e) (e_doc_schema_v e)
    (e_schema_fp e) (e_prev_hash e) x (e_unknown e).
Definition set_unknown (x : gmap Z Value) (e : OpEnvelope) : OpEnvelope :=
  mkOpEnvelope (e_v e) (e_stream_id e) (e_device_id e) (e_seq e) (e_hlc e) (e_aead_alg e)
    (e_sig_alg e) (e_epoch e) (e_nonce e) (e_payload e) (e_sig e) (e_doc_schema_v e)
    (e_schema_fp e) (e_prev_hash e) (e_heads e) x.

#[export] Instance OpEnvelope_eq_dec : EqDecision OpEnvelope. Proof. solve_decision. Defined.

(** ** The encoding (op_envelope/codec.rs) *)

Inductive Omit := Nothing | Sig | PayloadAndSig.

Definition omits (o : Omit) (field_id : Z) : bool :=
  match o with
  | Nothing => false
  | Sig => bool_decide (field_id = 11)
  | PayloadAndSig => bool_decide (field_id = 10) || bool_decide (field_id = 11)
  end.

(** A [BTreeMap]'s entries, in key order. *)
Definition id_le (a b : Z * Value) : Prop := a.1 ≤ b.1.
#[export] Instance id_le_dec : RelDecision id_le. Proof. intros a b. unfold id_le. apply _. Defined.
Definition btree_entries (m : gmap Z Value) : list (Z * Value) := isort id_le (map_to_list m).

Definition head_value (h : ChainHead) : Value :=
  Array [Bytes (ch_device_id h); Integer (ch_seq h); Bytes (ch_op_hash h)].

(** What the [put] calls leave in [map] when nothing is omitted. *)
Definition known_fields (e : OpEnvelope) : list (Z * Value) :=
  [(1, Integer (e_v e)); (2, Bytes (e_stream_id e)); (3, Bytes (e_device_id e));
   (4, Integer (e_seq e));
   (5, Array [Integer (physical_ms (e_hlc e)); Integer (logical (e_hlc e))]);
   (6, Integer (AeadAlgId.as_u32 (e_aead_alg e))); (7, Integer (SigAlgId.as_u32 (e_sig_alg e)));
   (8, Integer (e_epoch e)); (9, Bytes (e_nonce e)); (10, Bytes (e_payload e));
   (11, Bytes (e_sig e)); (12, Integer (e_doc_schema_v e))] ++
  match e_schema_fp e with Some fp => [(13, Bytes fp)] | None => [] end ++
  match e_prev_hash e with Some prev => [(14, Bytes prev)] | None => [] end ++
  match e_heads e with [] => [] | hs => [(15, Array (head_value <$> hs))] end.

Definition envelope_map (e : OpEnvelope) (omit : Omit) : list (Z * Value) :=
  isort id_le (filter (λ kv, omits omit kv.1 = false) (known_fields e) ++ btree_entries (e_unknown e)).

Definition entry_of (kv : Z * Value) : Value * Value := (Integer kv.1, kv.2).

Definition u32_from (v : Value) (field : string) : result OpEnvelopeError Z :=
  match v with
  | Integer raw => if decide (0 ≤ raw ≤ u32_max) then Ok raw else Err (BadField field)
  | _ => Err (BadField field)
  end.

Definition u64_from (v : Value) (field : string) : result OpEnvelopeError Z :=
  match v with
  | Integer raw => if decide (0 ≤ raw ≤ u64_max) then Ok raw else Err (BadField field)
  | _ => Err (BadField field)
  end.

Definition bytes_n_from (n : nat) (v : Value) (field : string) : result OpEnvelopeError bytes :=
  match v with
  | Bytes b => if decide (length b = n) then Ok b else Err (BadField field)
  | _ => Err (BadField field)
  end.

Definition bytes16_from (v : Value) (field : string) : result OpEnvelopeError bytes :=
  bytes_n_from 16 v field.

Definition hlc_from (v : Value) : result OpEnvelopeError Hlc :=
  match v with
  | Array [p; l] =>
      try ms <- u64_from p "hlc.physical_ms";
      try n <- u32_from l "hlc.logical";
      Ok (mkHlc ms n)
  | _ => Err (BadField "hlc")
  end.

Definition head_from (item : Value) : result OpEnvelopeError ChainHead :=
  match item with
  | Array [d; n; h] =>
      try device_id <- bytes16_from d "heads";
      try seq <- u64_from n "heads";
      try op_hash <- bytes_n_from 32 h "heads";
      Ok (mkChainHead device_id seq op_hash)
  | _ => Err (BadField "heads")
  end.

Fixpoint collect {A B} (f : A → result OpEnvelopeError B) (l : list A) : result OpEnvelopeError (list B) :=
  match l with
  | [] => Ok []
  | x :: l' => try y <- f x; try ys <- collect f l'; Ok (y :: ys)
  end.

Definition heads_from (v : Value) : result OpEnvelopeError (list ChainHead) :=
  match v with
  | Array items =>
      if decide (items = [] ∨ (MAX_CHAIN_HEADS < length items)%nat) then Err (BadField "heads")
      else collect head_from items
  | _ => Err (BadField "heads")
  end.

(** [windows(2).any(|w| w[0].device_id >= w[1].device_id)]. *)
Fixpoint out_of_order (heads : list ChainHead) : bool :=
  match heads with
  | a :: (b :: _) as rest => negb (bool_decide (ch_device_id a ≺ ch_device_id b)) || out_of_order rest
  | _ => false
  end.

Definition check_heads (heads : list ChainHead) : result OpEnvelopeError unit :=
  if bool_decide (MAX_CHAIN_HEADS < length heads)%nat || out_of_order heads then Err (BadField "heads")
  else Ok tt.

Definition contains_float_value (v : Value) : bool := contains_float v.

(** ** Sealing, decoding, opening (op_envelope/mod.rs) *)

Section envelope.
Context `{Ciborium, Crypto}.

Definition encode_cbor (e : OpEnvelope) (omit : Omit) : result OpEnvelopeError bytes :=
  match into_writer (VMap (entry_of <$> envelope_map e omit)) with
  | (out, true) => Ok out
  | (_, false) => Err Cbor
  end.

Definition encode_aad (e : OpEnvelope) : result OpEnvelopeError bytes := encode_cbor e PayloadAndSig.

Definition sig_input_bytes (e : OpEnvelope) : result OpEnvelopeError bytes :=
  try cbor_no_sig <- encode_cbor e Sig;
  Ok (SIG_DOMAIN ++ blake3 cbor_no_sig).

Definition op_hash (e : OpEnvelope) : result OpEnvelopeError bytes :=
  try cbor <- encode_cbor e Nothing;
  Ok (blake3 cbor).

Definition sign_envelope (e : OpEnvelope) (device_signing : bytes) : result OpEnvelopeError OpEnvelope :=
  try input <- sig_input_bytes e;
  Ok (set_sig (sign device_signing input) e).

Definition seal_envelope (e : OpEnvelope) (stream_key : option bytes) (device_signing : bytes) :
    result OpEnvelopeError bytes :=
  if decide (e_aead_alg e = AeadAlgId.None ∧ e_epoch e ≠ 0) then Err InconsistentAead
  else if decide (e_aead_alg e = AeadAlgId.XChaCha20Poly1305 ∧ stream_key = None) then Err InconsistentAead
  else
    try _ <- check_heads (e_heads e);
    try e <- match e_aead_alg e, stream_key with
             | AeadAlgId.XChaCha20Poly1305, Some key =>
                 try aad <- encode_aad (set_payload [] e);
                 match aead_seal_xchacha key (e_nonce e) (e_payload e) aad with
                 | Some c => Ok (set_payload c e)
                 | None => Err AeadAuth
                 end
             | _, _ => Ok e
             end;
    try e <- sign_envelope e device_signing;
    try cbor <- encode_cbor e Nothing;
    match write_prefix (replicate MAGIC_LEN 0) Wire.OpEnvelope ENVELOPE_FORMAT_FLOOR with
    | Some (prefix, _) => Ok (prefix ++ cbor)
    | None => Err BadMagic
    end.

Definition encode_chained_envelope (inner stream_id device_id : bytes) (seq : Z) (hlc : Hlc)
    (aead_alg : AeadAlgId.t) (epoch : Z) (nonce : bytes) (chain : ChainLinks)
    (stream_key : option bytes) (device_signing : bytes) : result OpEnvelopeError bytes :=
  seal_envelope
    (mkOpEnvelope ENVELOPE_FORMAT_V stream_id device_id seq hlc aead_alg SigAlgId.Ed25519 epoch nonce
       inner (replicate 64 0) DOC_SCHEMA_V (doc_schema_fp_prefix DOC_SCHEMA_V) (cl_prev_hash chain)
       (cl_heads chain) ∅)
    stream_key device_signing.

Definition encode_envelope (inner stream_id device_id : bytes) (seq : Z) (hlc : Hlc)
    (aead_alg : AeadAlgId.t) (epoch : Z) (nonce : bytes) (stream_key : option bytes)
    (device_signing : bytes) : result OpEnvelopeError bytes :=
  encode_chained_envelope inner stream_id device_id seq hlc aead_alg epoch nonce no_links
    stream_key device_signing.

(** The envelope the decoder starts from. *)
Definition blank : OpEnvelope :=
  mkOpEnvelope 0 (replicate 16 0) (replicate 16 0) 0 (mkHlc 0 0) AeadAlgId.None SigAlgId.Ed25519 0
    (replicate AEAD_NONCE_LEN 0) [] (replicate 64 0) 0 None None [] ∅.

Definition put_unknown (id : Z) (v : Value) (e : OpEnvelope) : result OpEnvelopeError OpEnvelope :=
  if decide (0 ≤ id ≤ u64_max) then
    if contains_float_value v then Err (BadField "float in envelope")
    else Ok (set_unknown (<[id := v]> (e_unknown e)) e)
  else Err (BadField "negative field id").

(** One map entry, by its field id. *)
Definition decode_field (e : OpEnvelope) (id : Z) (v : Value) : result OpEnvelopeError OpEnvelope :=
  match id with
  | 1 => try x <- u32_from v "v"; Ok (set_v x e)
  | 2 => try x <- bytes16_from v "stream_id"; Ok (set_stream_id x e)
  | 3 => try x <- bytes16_from v "device_id"; Ok (set_device_id x e)
  | 4 => try x <- u64_from v "seq"; Ok (set_seq x e)
  | 5 => try x <- hlc_from v; Ok (set_hlc x e)
  | 6 => try raw <- u32_from v "aead_alg";
         try x <- ok_or (aead_alg_id raw) (UnknownAlg "aead_alg"); Ok (set_aead_alg x e)
  | 7 => try raw <- u32_from v "sig_alg";
         try x <- ok_or (sig_alg_id raw) (UnknownAlg "sig_alg"); Ok (set_sig_alg x e)
  | 8 => try x <- u32_from v "epoch"; Ok (set_epoch x e)
  | 9 => try x <- bytes_n_from AEAD_NONCE_LEN v "nonce"; Ok (set_nonce x e)
  | 10 => match v with Bytes b => Ok (set_payload b e) | _ => Err (BadField "payload") end
  | 11 => try x <- bytes_n_from 64 v "sig"; Ok (set_sig x e)
  | 12 => try x <- u32_from v "doc_schema_v"; Ok (set_doc_schema_v x e)
  | 13 => try x <- bytes_n_from DOC_SCHEMA_FP_PREFIX_LEN v "schema_fp"; Ok (set_schema_fp (Some x) e)
  | 14 => try x <- bytes_n_from 32 v "prev_hash"; Ok (set_prev_hash (Some x) e)
  | 15 => try x <- heads_from v; try _ <- check_heads x; Ok (set_heads x e)
  | other => put_unknown other v e
  end.

Fixpoint decode_fields (e : OpEnvelope) (seen : list Z) (map : list (Value * Value)) :
    result OpEnvelopeError (OpEnvelope * list Z) :=
  match map with
  | [] => Ok (e, seen)
  | (Integer id, v) :: map' => try e' <- decode_field e id v; decode_fields e' (seen ++ [id]) map'
  | _ :: _ => Err Cbor
  end.

Definition REQUIRED : list (Z * string) :=
  [(1, "v"); (2, "stream_id"); (3, "device_id"); (4, "seq"); (5, "hlc"); (6, "aead_alg");
   (7, "sig_alg"); (8, "epoch"); (9, "nonce"); (10, "payload"); (11, "sig"); (12, "doc_schema_v")]%string.

Definition first_missing (seen : list Z) : option string :=
  snd <$> find (λ r, negb (bool_decide (r.1 ∈ seen))) REQUIRED.

Definition decode_envelope (buf : bytes) : result OpEnvelopeError OpEnvelope :=
  if decide (length buf < MAGIC_LEN)%nat then Err BadMagic
  else match decode_prefix (take MAGIC_LEN buf) with
  | Err _ => Err BadMagic
  | Ok prefix =>
      if negb (bool_decide (mp_kind prefix = Wire.OpEnvelope)) ||
         negb (envelope_floor_readable (mp_version prefix))
      then Err BadMagic
      else match from_reader MAX_VALUE_DEPTH (drop MAGIC_LEN buf) with
      | Err _ => Err Cbor
      | Ok (VMap entries, _) =>
          try (e, seen) <- decode_fields blank [] entries;
          match first_missing seen with
          | Some what => Err (BadField what)
          | None =>
              if negb (envelope_format_readable (mp_version prefix) (e_v e)) then Err (BadField "v")
              else if decide (e_doc_schema_v e < DOC_SCHEMA_FLOOR) then
                Err (DocSchemaTooOld (e_doc_schema_v e) DOC_SCHEMA_FLOOR)
              else if decide (e_aead_alg e = AeadAlgId.None ∧ e_epoch e ≠ 0) then Err InconsistentAead
              else Ok e
          end
      | Ok _ => Err Cbor
      end
  end.

Definition verify_envelope (e : OpEnvelope) (d_s_pub : bytes) : result OpEnvelopeError unit :=
  try input <- sig_input_bytes e;
  if verify_ed25519 d_s_pub input (e_sig e) then Ok tt else Err SigVerify.

Definition open_envelope (e : OpEnvelope) (d_s_pub : bytes) (stream_key : option bytes) :
    result OpEnvelopeError bytes :=
  try _ <- verify_envelope e d_s_pub;
  match e_aead_alg e with
  | AeadAlgId.None => Ok (e_payload e)
  | AeadAlgId.XChaCha20Poly1305 =>
      try aad <- encode_aad e;
      try key <- ok_or stream_key InconsistentAead;
      ok_or (aead_open_xchacha key (e_nonce e) (e_payload e) aad) AeadAuth
  end.

Definition open_envelope_unverified (e : OpEnvelope) (stream_key : bytes) : result OpEnvelopeError bytes :=
  match e_aead_alg e with
  | AeadAlgId.None => Err InconsistentAead
  | AeadAlgId.XChaCha20Poly1305 =>
      try aad <- encode_aad e;
      ok_or (aead_open_xchacha stream_key (e_nonce e) (e_payload e) aad) AeadAuth
  end.
End envelope.
