(* ===== verification/Groups.v ===== *)
(** * Groups: commits of several ops, applied whole or not at all
    (engine/groups.rs, engine/lww.rs)

    A replica's merge state, its op log and its pending members.  A member of
    a group is held out of the fold until the group's members are all present,
    and then they are folded together.  Ops of append-only records and of
    control families, which never merge, are not modelled; opening a logged
    envelope is reading the log. *)

From Stdlib Require Import ZArith Lia String.
From stdpp Require Import base tactics decidable countable option list strings gmap.
From S2P Require Import Prelude Bytes Cbor Hlc Registry Stamp Versions Patch Registers FieldState Fold Convergence Envelope.
Open Scope Z_scope.

(** A group: the commit's id and how many members it has. *)
Definition Group : Type := Id * Z.

(** A received entity op: its target, its content, the sender's stamp, and
    the stream it was sealed under. *)
Record ROp := mkROp {
  ro_kind : EntityKind.t;
  ro_id : Id;
  ro_inner : InnerOp;
  ro_lww : LwwStamp;
  ro_stream : Id;
}.
#[export] Instance ROp_eq_dec : EqDecision ROp.
Proof. solve_decision. Defined.
Definition ro_at (o : ROp) : OpRef := mkOpRef (ro_stream o) (l_device (ro_lww o)) (l_seq (ro_lww o)).
Definition ro_stamp (o : ROp) : Stamp := stamp_of_lww (ro_lww o) (ro_stream o).

(** The group an op at [at_] is a member of: a patch's own, or a full-state
    op's mark. *)
Definition group_of (inner : InnerOp) (at_ : OpRef) : option Group :=
  match inner with
  | OpPatch p =>
      match p_group p with
      | Some (id, size) => if decide (2 ≤ size) then Some (id, size) else None
      | None => None
      end
  | OpLegacy _ state => m ← entry FULL_STATE_GROUP_KEY state; read_mark m at_
  end.

(** [effect] of an op: how a client is told of it.  A full-state op's is the
    class its kind is registered with. *)
Definition class_effect (c : OpClass) : OpEffect :=
  match c with Create => ECreate | Update => EUpdate | Delete => EDelete end.
Definition inner_effect (k : EntityKind.t) (inner : InnerOp) : OpEffect :=
  match inner with
  | OpPatch p => effect p
  | OpLegacy inner_kind _ =>
      match List.find (λ o, bool_decide (op_inner_kind o = inner_kind)) (e_ops (spec k)) with
      | Some o => class_effect (op_class o)
      | None => EUpdate
      end
  end.

(** One row of [pending_groups], less its key. *)
Record PendingRow := mkPending { pr_at : Stamp; pr_applied : bool; pr_received_at : Z }.

Record Replica := mkReplica {
  rp_entities : gmap Id Entity;
  rp_pending : gmap (Group * Id) PendingRow;
  rp_ops : gmap OpRef ROp;
}.
Definition no_replica : Replica := mkReplica ∅ ∅ ∅.

Definition Folded : Type := Id * OpEffect.

(** [remote_op_id] (oplog.rs): the deterministic op id, a hash of the op's
    position cut to sixteen bytes. *)
Definition remote_op_id `{Crypto} (op : OpRef) : Id :=
  be_decode (derive_key "sunrise.remote_op_id.v1"
    (be_encode 16 (o_stream op) ++ be_encode 16 (o_device op) ++ be_encode 8 (o_seq op)) 16).

(** Why a received op is turned away: [EngineError::RemoteOpInvalid], or a
    failure of the fold, which rolls the transaction back. *)
Inductive RemoteError := RemoteOpInvalid | FoldFailed.

Section groups.
Context `{Ciborium, Crypto} (value_fits : EntityKind.t → string → Value → bool).

Definition dop_of (o : ROp) (group : option Group) : DOp :=
  mkDOp (ro_inner o) (ro_lww o) (ro_stream o) group.

(** Fold one member into its entity; an entity that does not merge by fields
    is left alone. *)
Definition materialize_member (r : Replica) (o : ROp) (group : option Group) : option Replica :=
  let e := spec (ro_kind o) in
  match storage e, e_merge e with
  | Some _, Lww =>
      en ← merge_op_inner value_fits e (default no_entity (rp_entities r !! ro_id o)) (dop_of o group);
      Some (mkReplica (<[ro_id o := en]> (rp_entities r)) (rp_pending r) (rp_ops r))
  | _, _ => Some r
  end.
Definition materialize_remote (r : Replica) (o : ROp) : option Replica := materialize_member r o None.

Definition record (r : Replica) (g : Group) (at_ : Stamp) (applied : bool) (received_at : Z) : Replica :=
  mkReplica (rp_entities r)
    (insert_new (g, remote_op_id (op_ref at_)) (mkPending at_ applied received_at) (rp_pending r))
    (rp_ops r).

Definition record_local (r : Replica) (g : Group) (at_ : Stamp) (now_ms : Z) : Replica :=
  record r g at_ true now_ms.

(** [received]: when the log says the op was received, if it logged it. *)
Definition record_joined (r : Replica) (g : Group) (at_ : Stamp) (received : option Z) : Replica :=
  record r g at_ true (default (physical_ms (s_hlc at_)) received).

Definition group_rows (r : Replica) (g : Group) : list ((Group * Id) * PendingRow) :=
  filter (λ row, row.1.1 = g) (map_to_list (rp_pending r)).

Definition row_at_le (a b : (Group * Id) * PendingRow) : Prop := pr_at a.2 ≼ pr_at b.2.
#[export] Instance row_at_le_dec : RelDecision row_at_le.
Proof. intros a b. unfold row_at_le. apply _. Defined.

(** The members still held, in stamp order. *)
Definition held_members (r : Replica) (g : Group) : list Stamp :=
  (λ row, pr_at row.2) <$> isort row_at_le (filter (λ row, pr_applied row.2 = false) (group_rows r g)).

Definition mark_applied (r : Replica) (g : Group) (at_ : OpRef) : Replica :=
  mkReplica (rp_entities r)
    (alter (λ row, mkPending (pr_at row) true (pr_received_at row)) (g, remote_op_id at_) (rp_pending r))
    (rp_ops r).

(** Fold one held member, read back from the log, and mark it. *)
Definition fold_held (g : Group) (acc : Replica * list Folded) (at_ : Stamp) : option (Replica * list Folded) :=
  o ← rp_ops acc.1 !! op_ref at_;
  r ← materialize_member acc.1 o (Some g);
  Some (mark_applied r g (op_ref at_), acc.2 ++ [(ro_id o, inner_effect (ro_kind o) (ro_inner o))]).

Definition try_complete (r : Replica) (g : Group) : option (Replica * list Folded) :=
  if decide (Z.of_nat (length (group_rows r g)) < g.2) then Some (r, [])
  else foldm (fold_held g) (r, []) (held_members r g).

Definition fold_received (r : Replica) (o : ROp) (received_at : Z) : option (Replica * list Folded) :=
  match group_of (ro_inner o) (ro_at o) with
  | None =>
      r' ← materialize_remote r o;
      Some (r', [(ro_id o, inner_effect (ro_kind o) (ro_inner o))])
  | Some g => try_complete (record r g (ro_stamp o) false received_at) g
  end.

(** The gate before the transaction: a patch is checked against the registry. *)
Definition gate (o : ROp) : result PatchProblem () :=
  match ro_inner o with
  | OpPatch p => try _ <- check_patch value_fits p; Ok ()
  | OpLegacy _ _ => Ok ()
  end.

(** The log has a row under this id: [INSERT OR IGNORE] then adds none. *)
Definition logged (r : Replica) (id : Id) : Prop :=
  Exists (λ row, remote_op_id row.1 = id) (map_to_list (rp_ops r)).
#[export] Instance logged_dec r id : Decision (logged r id).
Proof. unfold logged. apply _. Defined.

(** The receive path of an opened entity op: the gate (a patch this build
    cannot merge is parked, which leaves the fold as it is and is modelled in
    [Chain]; a malformed one is refused), then the idempotence gate: an op
    whose id the log holds changes nothing.  The clock gate between the two is
    [Hlc.receive], and what the transaction does about chain links, covered
    positions and parked rows is [Chain]'s. *)
Definition apply_remote (r : Replica) (o : ROp) (received_at : Z) : result RemoteError (Replica * list Folded) :=
  match gate o with
  | Err (Park _) => Ok (r, [])
  | Err Invalid => Err RemoteOpInvalid
  | Ok _ =>
      if decide (logged r (remote_op_id (ro_at o))) then Ok (r, [])
      else ok_or (fold_received (mkReplica (rp_entities r) (rp_pending r) (<[ro_at o := o]> (rp_ops r))) o received_at)
             FoldFailed
  end.

(** The groups whose members are all present and some still held, in order. *)
Definition group_le (a b : Group) : Prop := a ≼ b.
#[export] Instance group_le_dec : RelDecision group_le.
Proof. intros a b. unfold group_le. apply _. Defined.
Definition ready_groups (r : Replica) : list Group :=
  isort group_le (filter (λ g,
    g.2 ≤ Z.of_nat (length (group_rows r g)) ∧ Exists (λ row, pr_applied row.2 = false) (group_rows r g))
    (remove_dups ((λ row, row.1.1) <$> map_to_list (rp_pending r)))).

Definition complete_ready_groups (r : Replica) : option (Replica * list Folded) :=
  foldm (λ acc g,
    '(r', folded) ← try_complete acc.1 g;
    Some (r', acc.2 ++ folded)) (r, []) (ready_groups r).

(** A delivery, op by op: a refused op leaves the replica as it was, and a
    fold that fails fails the delivery. *)
Definition apply_next (r : Replica) (ot : ROp * Z) : option Replica :=
  match apply_remote r ot.1 ot.2 with
  | Ok (r', _) => Some r'
  | Err RemoteOpInvalid => Some r
  | Err FoldFailed => None
  end.
Definition apply_all (l : list (ROp * Z)) : option Replica := foldm apply_next no_replica l.
End groups.

(** ** What a delivery folds *)

Section delivery.
Context `{Ciborium, Crypto} (value_fits : EntityKind.t → string → Value → bool).
Implicit Types (D F : list ROp) (r : Replica) (o : ROp) (g : Group).

Definition group_at o : option Group := group_of (ro_inner o) (ro_at o).
Definition merges (k : EntityKind.t) : bool :=
  match storage (spec k), e_merge (spec k) with Some _, Lww => true | _, _ => false end.

(** The ops of [D] in group [g], and whether the group is all there. *)
Definition present D g : list ROp := filter (λ o, group_at o = Some g) D.
Definition complete D g : Prop := g.2 ≤ Z.of_nat (length (present D g)).
(** The ops a replica that holds [D] has folded: those of no group, and every
    member present of each complete one. *)
Definition visible D o : Prop :=
  match group_at o with None => True | Some g => complete D g end.
#[export] Instance visible_dec D o : Decision (visible D o).
Proof. unfold visible, complete. destruct (group_at o); apply _. Defined.
Definition folded D : list ROp := filter (visible D) D.

(** The ops of [F] that merge into entity [id]. *)
Definition dops F (id : Id) : list DOp :=
  (λ o, dop_of o (group_at o)) <$> filter (λ o, ro_id o = id ∧ merges (ro_kind o) = true) F.

(** One op per position, one kind per entity, and values that encode. *)
Definition consistent_delivery D : Prop :=
  (∀ o o', o ∈ D → o' ∈ D → ro_at o = ro_at o' → o = o') ∧
  (∀ o o', o ∈ D → o' ∈ D → ro_id o = ro_id o' → ro_kind o = ro_kind o') ∧
  (∀ o a, o ∈ D → eff value_fits (spec (ro_kind o)) (dop_of o (group_at o)) = Some a →
     Forall encodable_write (ef_writes a)).

(** Two of the ops have one id though their positions differ: their
    sixteen-byte hashes collide. *)
Definition id_collision D : Prop :=
  ∃ o o', o ∈ D ∧ o' ∈ D ∧ ro_at o ≠ ro_at o' ∧ remote_op_id (ro_at o) = remote_op_id (ro_at o').

(** The ops that pass the gate. *)
Definition passes o : Prop := gate value_fits o = Ok ().
#[export] Instance passes_dec o : Decision (passes o).
Proof. unfold passes. destruct (gate value_fits o) as [[]|]; [by left|by right]. Defined.
Definition accepted D : list ROp := filter passes D.

(** What the lemmas assume of a delivery: consistent, and an id to each op. *)
Definition sound_delivery D : Prop :=
  consistent_delivery D ∧
  (∀ o o', o ∈ D → o' ∈ D → remote_op_id (ro_at o) = remote_op_id (ro_at o') → o = o').

Lemma sound_or_collision D : consistent_delivery D → id_collision D ∨ sound_delivery D.
Proof.
  intros HD.
  destruct (decide (Exists (λ o, Exists (λ o', ro_at o ≠ ro_at o' ∧ remote_op_id (ro_at o) = remote_op_id (ro_at o')) D) D))
    as [Hc|Hc].
  - left. apply Exists_exists in Hc as (o & Ho & (o' & Ho' & ?)%Exists_exists). by exists o, o'.
  - right. split; [done|]. intros o o' Ho Ho' Heq. apply HD; [done..|].
    destruct (decide (ro_at o = ro_at o')) as [|Hne]; [done|]. exfalso. apply Hc.
    apply Exists_exists. exists o. split; [done|]. apply Exists_exists. by exists o'.
Qed.

Lemma ro_at_stamp o : op_ref (ro_stamp o) = ro_at o.
Proof. done. Qed.
Lemma dop_at o (m : option Group) : d_at (dop_of o m) = ro_stamp o.
Proof. done. Qed.

Lemma consistent_sub D D' : (∀ o, o ∈ D' → o ∈ D) → consistent_delivery D → consistent_delivery D'.
Proof. intros Hs (H1 & H2 & H3). split_and!; eauto. Qed.
Lemma sound_sub D D' : (∀ o, o ∈ D' → o ∈ D) → sound_delivery D → sound_delivery D'.
Proof. intros Hs [H1 H2]. split; [by eapply consistent_sub|eauto]. Qed.

Lemma dops_deliverable D F id k :
  sound_delivery D → (∀ o, o ∈ F → o ∈ D) → (∀ o, o ∈ D → ro_id o = id → ro_kind o = k) →
  deliverable value_fits (spec k) (dops F id).
Proof.
  intros ((H1 & H2 & H3) & _) Hsub Hk. split.
  - intros c d (o & -> & [_ Ho]%list_elem_of_filter)%list_elem_of_fmap
      (o' & -> & [_ Ho']%list_elem_of_filter)%list_elem_of_fmap Heq.
    rewrite !dop_at, !ro_at_stamp in Heq. by rewrite (H1 o o') by auto.
  - intros d a (o & -> & [[Hid _] Ho]%list_elem_of_filter)%list_elem_of_fmap Ha.
    apply (H3 o a); [auto|]. by rewrite (Hk o) by auto.
Qed.

(** Every entity holds what its folded ops make it. *)
Definition entities_ok D F (ents : gmap Id Entity) : Prop :=
  ∀ id k, (∀ o, o ∈ D → ro_id o = id → ro_kind o = k) →
    entity_ok (spec k) (effs value_fits (spec k) (dops F id)) (default no_entity (ents !! id)).

Lemma entities_ok_ext D F F' ents :
  sound_delivery D → (∀ o, o ∈ F → o ∈ D) → (∀ o, o ∈ F ↔ o ∈ F') →
  entities_ok D F ents → entities_ok D F' ents.
Proof.
  intros HD Hsub Hext Hents id k Hk. eapply entity_ok_ext; [| |by apply Hents].
  - apply deliverable_universe. by eapply dops_deliverable.
  - intros a. apply effs_ext. intros d. unfold dops. rewrite !list_elem_of_fmap.
    setoid_rewrite list_elem_of_filter. by setoid_rewrite Hext.
Qed.

(** One op folded into its entity. *)
Lemma merge_one e l d en :
  deliverable value_fits e (d :: l) → entity_ok e (effs value_fits e l) en →
  ∃ en', merge_op_inner value_fits e en d = Some en' ∧ entity_ok e (effs value_fits e (d :: l)) en'.
Proof.
  intros Hd Hen. pose proof (deliverable_universe _ _ _ Hd) as Hu. rewrite merge_op_eff.
  unfold effs in *. simpl in *. destruct (eff value_fits e d) as [a|] eqn:Ea; [|by exists en].
  by apply entity_step.
Qed.

Lemma materialize_ok D F r o :
  sound_delivery D → (∀ o, o ∈ F → o ∈ D) → o ∈ D → entities_ok D F (rp_entities r) →
  ∃ r', materialize_member value_fits r o (group_at o) = Some r' ∧
    entities_ok D (o :: F) (rp_entities r') ∧ rp_pending r' = rp_pending r ∧ rp_ops r' = rp_ops r.
Proof.
  intros HD Hsub Ho Hents. unfold materialize_member. set (e := spec (ro_kind o)).
  assert (merges (ro_kind o) = false → entities_ok D (o :: F) (rp_entities r)) as Hno.
  { intros Hm id k Hk. unfold dops. rewrite filter_cons, decide_False; [by apply Hents|].
    intros [_ ?]. congruence. }
  unfold merges in Hno. fold e in Hno.
  destruct (storage e) as [st|] eqn:Es; [destruct (e_merge e) eqn:Em|];
    try (exists r; split_and!; try done; by apply Hno).
  assert (merges (ro_kind o) = true) as Hm by (unfold merges; fold e; by rewrite Es, Em).
  assert (∀ o', o' ∈ D → ro_id o' = ro_id o → ro_kind o' = ro_kind o) as Hk by (intros; by apply HD).
  assert (dops (o :: F) (ro_id o) = dop_of o (group_at o) :: dops F (ro_id o)) as Hcons.
  { unfold dops. rewrite filter_cons, decide_True by done. done. }
  destruct (merge_one e (dops F (ro_id o)) (dop_of o (group_at o)) (default no_entity (rp_entities r !! ro_id o)))
    as (en' & -> & Hen').
  { rewrite <-Hcons. apply (dops_deliverable D); [done| |done].
    intros x [-> |Hx]%elem_of_cons; auto. }
  { by apply Hents. }
  eexists. split; [done|]. simpl. split; [|done]. intros id k Hkid.
  destruct (decide (id = ro_id o)) as [->|Hne].
  - rewrite lookup_insert_eq. simpl. rewrite Hcons. by rewrite <-(Hkid o Ho eq_refl).
  - rewrite lookup_insert_ne by done. unfold dops. rewrite filter_cons, decide_False; [by apply Hents|].
    intros [? _]. congruence.
Qed.

(** *** The pending members *)

Definition pending_key o g : Group * Id := (g, remote_op_id (ro_at o)).

(** A row per member of [D], marked applied when [P] says its group was. *)
Definition pending_ok D (P : ROp → Prop) (m : gmap (Group * Id) PendingRow) : Prop :=
  (∀ g i row, m !! (g, i) = Some row →
     ∃ o, o ∈ D ∧ group_at o = Some g ∧ i = remote_op_id (ro_at o) ∧ pr_at row = ro_stamp o ∧
          (pr_applied row = true ↔ P o)) ∧
  (∀ o g, o ∈ D → group_at o = Some g → is_Some (m !! pending_key o g)).

Lemma pending_ok_ext D P Q m : (∀ o, o ∈ D → P o ↔ Q o) → pending_ok D P m → pending_ok D Q m.
Proof.
  intros Hext [H1 H2]. split; [|done]. intros g i row Hrow.
  destruct (H1 g i row Hrow) as (o & Ho & ? & ? & ? & ?). exists o. split_and!; try done.
  by rewrite <-Hext.
Qed.

(** Recording a new member. *)
Lemma record_ok D P r o g t :
  sound_delivery (o :: D) → o ∉ D → group_at o = Some g → pending_ok D P (rp_pending r) →
  (∀ x, x ∈ D → x ≠ o) → ¬ P o →
  pending_ok (o :: D) P (rp_pending (record r g (ro_stamp o) false t)).
Proof.
  intros HD Hnew Hg [H1 H2] Hne HP. unfold record. simpl.
  assert (rp_pending r !! (g, remote_op_id (ro_at o)) = None) as Hnone.
  { destruct (rp_pending r !! _) as [row|] eqn:E; [|done].
    destruct (H1 _ _ _ E) as (o' & Ho' & _ & Heq & _).
    exfalso. apply (Hne o' Ho'). symmetry. apply HD; [by left|by right|done]. }
  unfold insert_new. change (op_ref (ro_stamp o)) with (ro_at o). rewrite Hnone. split.
  - intros g' i row [[Heq <-]|[_ Hrow]]%lookup_insert_Some.
    + injection Heq as <- <-. exists o. split_and!; try done. by left.
    + destruct (H1 _ _ _ Hrow) as (o' & Ho' & ?). exists o'. split; [by right|done].
  - intros o' g' [->|Ho']%elem_of_cons Hg'.
    + assert (g' = g) as -> by congruence. unfold pending_key. rewrite lookup_insert_eq. eauto.
    + unfold pending_key. destruct (decide ((g', remote_op_id (ro_at o')) = (g, remote_op_id (ro_at o)))) as [->|Hk].
      * rewrite lookup_insert_eq. eauto.
      * rewrite lookup_insert_ne by done. by apply H2.
Qed.

Lemma elem_of_group_rows r g k row :
  (k, row) ∈ group_rows r g ↔ k.1 = g ∧ rp_pending r !! k = Some row.
Proof. unfold group_rows. rewrite list_elem_of_filter, elem_of_map_to_list. done. Qed.

Lemma group_rows_present D P r g :
  sound_delivery D → NoDup D → pending_ok D P (rp_pending r) →
  length (group_rows r g) = length (present D g).
Proof.
  intros HD Hnd [H1 H2].
  assert ((λ row : (Group * Id) * PendingRow, row.1.2) <$> group_rows r g ≡ₚ
          (λ o, remote_op_id (ro_at o)) <$> present D g) as Hp.
  { apply NoDup_Permutation.
    - assert (NoDup (group_rows r g).*1) as Hk.
      { unfold group_rows. eapply sublist_NoDup; [|apply fmap_sublist, sublist_filter].
        apply NoDup_fst_map_to_list. }
      assert (∀ x, x ∈ group_rows r g → x.1.1 = g) as Hg by (intros [k row] [? _]%elem_of_group_rows; done).
      revert Hk Hg. induction (group_rows r g) as [|x l IH]; intros Hk Hg; [constructor|].
      apply NoDup_cons in Hk as [Hx Hk]. apply NoDup_cons. split.
      + intros (y & Heq & Hy)%list_elem_of_fmap. apply Hx, list_elem_of_fmap. exists y. split; [|done].
        rewrite (surjective_pairing x.1), (surjective_pairing y.1), Heq.
        by rewrite (Hg x) by (by left); rewrite (Hg y) by (by right).
      + apply IH; [done|]. intros y Hy. apply Hg. by right.
    - apply NoDup_fmap_2_strong; [|by apply NoDup_filter].
      intros x y [_ Hx]%list_elem_of_filter [_ Hy]%list_elem_of_filter Heq.
      by apply HD.
    - intros i. rewrite !list_elem_of_fmap. split.
      + intros ([k row] & -> & [Hk Hrow]%elem_of_group_rows). destruct k as [g' i]. simpl in *. subst g'.
        destruct (H1 _ _ _ Hrow) as (o & Ho & Hg & -> & _). exists o. split; [done|].
        by apply list_elem_of_filter.
      + intros (o & -> & [Hg Ho]%list_elem_of_filter). destruct (H2 o g Ho Hg) as [row Hrow].
        exists (pending_key o g, row). split; [done|]. by apply elem_of_group_rows. }
  apply Permutation_length in Hp. by rewrite !length_fmap in Hp.
Qed.

(** Folding the held members [os] of one group. *)
Lemma fold_held_ok D P F g os r acc :
  sound_delivery D → (∀ o, o ∈ F → o ∈ D) → (∀ o, o ∈ os → o ∈ D ∧ group_at o = Some g) →
  (∀ o, o ∈ D → rp_ops r !! ro_at o = Some o) →
  entities_ok D F (rp_entities r) → pending_ok D P (rp_pending r) →
  ∃ r' acc', foldm (fold_held value_fits g) (r, acc) (ro_stamp <$> os) = Some (r', acc') ∧
    entities_ok D (reverse os ++ F) (rp_entities r') ∧
    pending_ok D (λ o, P o ∨ o ∈ os) (rp_pending r') ∧ rp_ops r' = rp_ops r.
Proof.
  intros HD. revert P F r acc. induction os as [|o os IH]; intros P F r acc Hsub Hos Hops Hents Hpend.
  { exists r, acc. split_and!; try done. eapply pending_ok_ext; [|exact Hpend]. intros o _.
    split; [by left|]. by intros [?|?%not_elem_of_nil]. }
  destruct (Hos o) as [Ho Hg]; [by left|]. cbn [fmap list_fmap foldm].
  destruct (materialize_ok D F r o HD Hsub Ho Hents) as (r1 & Hr1 & Hents1 & Hp1 & Ho1).
  set (r2 := mark_applied r1 g (ro_at o)).
  assert (fold_held value_fits g (r, acc) (ro_stamp o) =
          Some (r2, acc ++ [(ro_id o, inner_effect (ro_kind o) (ro_inner o))])) as ->.
  { unfold fold_held. cbn [fst snd]. change (op_ref (ro_stamp o)) with (ro_at o).
    rewrite (Hops o Ho). cbn [mbind option_bind]. by rewrite <-Hg, Hr1. }
  cbn [mbind option_bind].
  destruct (IH (λ x, P x ∨ x = o) (o :: F) r2 (acc ++ [(ro_id o, inner_effect (ro_kind o) (ro_inner o))]))
    as (r' & acc' & Hf & He & Hp & Hop).
  - intros x [-> |Hx]%elem_of_cons; auto.
  - intros x Hx. apply Hos. by right.
  - intros x Hx. unfold r2. simpl. rewrite Ho1. by apply Hops.
  - done.
  - unfold r2. simpl. rewrite Hp1. destruct Hpend as [H1 H2]. split.
    + intros g' i row. rewrite lookup_alter. case_decide as Hk.
      * injection Hk as <- <-. intros (row0 & Hrow & ->)%fmap_Some.
        destruct (H1 _ _ _ Hrow) as (x & Hx & Hxg & Heq & Hat & Happ).
        assert (x = o) as -> by (by apply HD). exists o. split_and!; try done. simpl.
        split; [by right|done].
      * intros Hrow. destruct (H1 _ _ _ Hrow) as (x & Hx & Hxg & Heq & Hat & Happ). exists x.
        split_and!; try done. rewrite Happ. split; [by left|]. intros [?| ->]; [done|].
        exfalso. apply Hk. rewrite Heq. congruence.
    + intros x g' Hx Hxg. rewrite lookup_alter_is_Some. by apply H2.
  - exists r', acc'. split_and!; [done| | |].
    + by rewrite reverse_cons, <-app_assoc.
    + eapply pending_ok_ext; [|exact Hp]. intros x _. rewrite elem_of_cons. tauto.
    + rewrite Hop. unfold r2. simpl. done.
Qed.

(** The members [try_complete] reads are those the rows say are held. *)
Lemma held_members_ok D P r g :
  sound_delivery D → pending_ok D P (rp_pending r) →
  ∃ os, held_members r g = ro_stamp <$> os ∧
    ∀ x, x ∈ os ↔ x ∈ D ∧ group_at x = Some g ∧ ¬ P x.
Proof.
  intros HD [H1 H2]. unfold held_members.
  set (l := isort row_at_le (filter (λ row, pr_applied row.2 = false) (group_rows r g))).
  assert (∀ k row, (k, row) ∈ l ↔ k.1 = g ∧ rp_pending r !! k = Some row ∧ pr_applied row = false) as Hl.
  { intros k row. unfold l. rewrite elem_of_isort, list_elem_of_filter, elem_of_group_rows. simpl. tauto. }
  assert (Forall (λ row, ∃ o, o ∈ D ∧ group_at o = Some g ∧ row.1 = pending_key o g ∧
            pr_at row.2 = ro_stamp o ∧ ¬ P o) l) as HF.
  { apply Forall_forall. intros [[g' i] row] (Hg & Hrow & Happ)%Hl. simpl in *. subst g'.
    destruct (H1 _ _ _ Hrow) as (o & Ho & Hog & -> & Hat & HP). exists o. split_and!; try done.
    rewrite <-HP, Happ. done. }
  assert (∃ os, (λ row, pr_at row.2) <$> l = ro_stamp <$> os ∧
    Forall2 (λ row o, o ∈ D ∧ group_at o = Some g ∧ row.1 = pending_key o g ∧ ¬ P o) l os) as (os & Hos & HF2).
  { clear -HF. induction l as [|x l IH]; [by exists []|].
    apply Forall_cons_iff in HF as [(o & Ho & Hg & Hk & Hat & HP) HF].
    destruct (IH HF) as (os & Heq & H2). exists (o :: os). cbn [fmap list_fmap]. split; [|by constructor].
    by rewrite Heq, Hat. }
  exists os. split; [done|]. intros x. split.
  - intros Hx. apply list_elem_of_lookup in Hx as [i Hi].
    destruct (Forall2_lookup_r _ _ _ _ _ HF2 Hi) as (row & _ & Ho & Hg & _ & HP). done.
  - intros (Hx & Hg & HP). destruct (H2 x g Hx Hg) as [row Hrow].
    destruct (H1 _ _ _ Hrow) as (o & Ho & _ & Heq & _ & HPo).
    assert (o = x) as -> by (by apply HD).
    assert ((pending_key x g, row) ∈ l) as Hin.
    { apply Hl. split_and!; [done|done|]. apply not_true_iff_false. intros Ht. by apply HP, HPo. }
    apply list_elem_of_lookup in Hin as [i Hi].
    destruct (Forall2_lookup_l _ _ _ _ _ HF2 Hi) as (y & Hy & HyD & _ & Hk & _). simpl in Hk.
    assert (y = x) as ->; [|by eapply list_elem_of_lookup_2].
    apply HD; [done..|]. unfold pending_key in Hk. congruence.
Qed.

(** *** The invariant of a replica that has received [D] *)

Record replica_ok D r : Prop := {
  ok_ops : ∀ at_ o, rp_ops r !! at_ = Some o ↔ o ∈ D ∧ ro_at o = at_;
  ok_entities : entities_ok D (folded D) (rp_entities r);
  ok_pending : pending_ok D (visible D) (rp_pending r);
}.

Lemma elem_of_folded D o : o ∈ folded D ↔ o ∈ D ∧ visible D o.
Proof. unfold folded. rewrite list_elem_of_filter. tauto. Qed.

Lemma present_cons D o g :
  present (o :: D) g = if decide (group_at o = Some g) then o :: present D g else present D g.
Proof. unfold present. rewrite filter_cons. done. Qed.

Lemma complete_cons D o g : complete D g → complete (o :: D) g.
Proof. unfold complete. rewrite present_cons. case_decide; simpl; lia. Qed.
Lemma complete_other D o g : group_at o ≠ Some g → complete (o :: D) g ↔ complete D g.
Proof. intros Hne. unfold complete. by rewrite present_cons, decide_False. Qed.

Lemma entities_ok_more D o F ents : entities_ok D F ents → entities_ok (o :: D) F ents.
Proof. intros Hents id k Hk. apply Hents. intros x Hx. apply Hk. by right. Qed.

(** A new op. *)
Lemma fold_received_ok D r o t :
  sound_delivery (o :: D) → NoDup (o :: D) →
  replica_ok D r →
  ∃ r' acc, fold_received value_fits
              (mkReplica (rp_entities r) (rp_pending r) (<[ro_at o := o]> (rp_ops r))) o t = Some (r', acc) ∧
    replica_ok (o :: D) r'.
Proof.
  intros HD Hnd [Hops Hents Hpend]. apply NoDup_cons in Hnd as [Hnew Hnd].
  assert (sound_delivery D) as HD0 by (eapply sound_sub; [|exact HD]; by right).
  assert (∀ x, x ∈ folded D → x ∈ o :: D) as Hsub by (intros x [Hx _]%elem_of_folded; by right).
  assert (∀ x, x ∈ D → ro_at x ≠ ro_at o) as Hat.
  { intros x Hx Heq. apply Hnew. rewrite <-(proj1 (proj1 HD) x o); [done|by right|by left|done]. }
  set (r0 := mkReplica _ _ _).
  assert (∀ at_ x, rp_ops r0 !! at_ = Some x ↔ x ∈ o :: D ∧ ro_at x = at_) as Hops0.
  { intros at_ x. unfold r0. simpl. rewrite lookup_insert_Some, Hops, elem_of_cons. split.
    - intros [[<- <-]|[Hne [Hx <-]]]; auto.
    - intros [[-> |Hx] <-]; [by left|right]. split; [|done]. intros Heq. by apply (Hat x Hx). }
  pose proof (entities_ok_more D o _ _ Hents) as Hents0.
  unfold fold_received. change (group_of (ro_inner o) (ro_at o)) with (group_at o).
  destruct (group_at o) as [g|] eqn:Hg.
  2:{ (* no group *)
      destruct (materialize_ok (o :: D) (folded D) r0 o HD Hsub) as (r1 & Hr1 & He1 & Hp1 & Ho1); [by left|done|].
      rewrite Hg in Hr1. unfold materialize_remote. rewrite Hr1. cbn [mbind option_bind]. do 2 eexists.
      split; [done|]. assert (∀ x, x ∈ D → visible (o :: D) x ↔ visible D x) as Hv.
      { intros x Hx. unfold visible. destruct (group_at x) as [g|]; [|done]. apply complete_other. congruence. }
      split.
      - intros at_ x. by rewrite Ho1.
      - eapply entities_ok_ext; [done| | |exact He1].
        + intros x [-> |?]%elem_of_cons; [by left|auto].
        + intros x. rewrite elem_of_cons, !elem_of_folded, elem_of_cons. split.
          * intros [->|[Hx Hvx]]; [split; [by left|unfold visible; by rewrite Hg]|].
            split; [by right|by apply Hv].
          * intros [[-> |Hx] Hvx]; [by left|right]. split; [done|by apply Hv].
      - rewrite Hp1. unfold r0. simpl. destruct Hpend as [P1 P2]. split.
        + intros g i row Hrow. destruct (P1 _ _ _ Hrow) as (x & Hx & ? & ? & ? & HP). exists x.
          split_and!; [by right|done..|]. by rewrite HP, Hv.
        + intros x g [-> |Hx]%elem_of_cons Hxg; [congruence|by apply P2]. }
  (* a member of [g] *)
  set (P x := x ∈ D ∧ visible D x).
  assert (pending_ok (o :: D) P (rp_pending (record r0 g (ro_stamp o) false t))) as Hp0.
  { apply (record_ok D P r0 o g t); try done.
    - eapply pending_ok_ext; [|exact Hpend]. intros x Hx. unfold P. tauto.
    - intros x Hx ->. done.
    - by intros [? _]. }
  set (r1 := record r0 g (ro_stamp o) false t) in *.
  assert (∀ x, x ∈ D → group_at x ≠ Some g → visible (o :: D) x ↔ visible D x) as Hvo.
  { intros x Hx Hne. unfold visible. destruct (group_at x) as [g'|]; [|done]. apply complete_other. congruence. }
  assert (∀ x, x ∈ o :: D → group_at x = Some g → visible (o :: D) x ↔ complete (o :: D) g) as Hvg.
  { intros x Hx Hxg. unfold visible. by rewrite Hxg. }
  unfold try_complete.
  rewrite (group_rows_present (o :: D) P r1 g HD) by (try apply NoDup_cons; done).
  destruct (decide (Z.of_nat (length (present (o :: D) g)) < g.2)) as [Hlt|Hge].
  - (* still waiting *)
    assert (¬ complete (o :: D) g) as Hnc by (unfold complete; lia).
    assert (∀ x, x ∈ o :: D → visible (o :: D) x ↔ P x) as Hv.
    { intros x Hx. unfold P. destruct (decide (group_at x = Some g)) as [Hxg|Hxg].
      - rewrite Hvg by done. split; [done|]. intros [_ Hvx]. unfold visible in Hvx. rewrite Hxg in Hvx.
        by apply complete_cons.
      - apply elem_of_cons in Hx as [-> |Hx]; [done|]. rewrite Hvo by done. tauto. }
    do 2 eexists. split; [done|]. split.
    + done.
    + eapply entities_ok_ext; [done|exact Hsub| |exact Hents0]. intros x. rewrite !elem_of_folded. split.
      * intros [Hx Hvx]. split; [by right|]. apply Hv; [by right|done].
      * intros [Hx Hvx]. by apply Hv in Hvx.
    + eapply pending_ok_ext; [|exact Hp0]. intros x Hx. by rewrite Hv.
  - (* complete: fold what is held *)
    assert (complete (o :: D) g) as Hc by (unfold complete; lia).
    destruct (held_members_ok (o :: D) P r1 g HD Hp0) as (os & -> & Hos).
    destruct (fold_held_ok (o :: D) P (folded D) g os r1 [] HD Hsub) as (r' & acc & -> & He' & Hp' & Ho').
    { intros x Hx. by apply Hos in Hx as (? & ? & _). }
    { intros x Hx. by apply Hops0. }
    { done. }
    { done. }
    assert (∀ x, x ∈ o :: D → visible (o :: D) x ↔ P x ∨ x ∈ os) as Hv.
    { intros x Hx. destruct (decide (group_at x = Some g)) as [Hxg|Hxg].
      - rewrite Hvg by done. split; [|done]. intros _. rewrite Hos.
        destruct (decide (x ∈ folded D)) as [Hf|Hf]; [left; by apply elem_of_folded|right].
        split_and!; [done|done|]. intros HP. by apply Hf, elem_of_folded.
      - apply elem_of_cons in Hx as [-> |Hx]; [done|]. rewrite Hvo by done. rewrite Hos. unfold P. tauto. }
    do 2 eexists. split; [done|]. split.
    + intros at_ x. rewrite Ho'. apply Hops0.
    + eapply entities_ok_ext; [done| | |exact He'].
      * intros x [Hx|Hx]%elem_of_app; [|auto]. rewrite elem_of_reverse in Hx. by apply Hos in Hx as [? _].
      * intros x. rewrite elem_of_app, elem_of_reverse, !elem_of_folded. split.
        -- intros [Hx|[Hx Hvx]].
           ++ pose proof Hx as (Hin & _)%Hos. split; [done|]. apply Hv; [done|by right].
           ++ split; [by right|]. apply Hv; [by right|by left].
        -- intros [Hx Hvx]. apply Hv in Hvx as [[? ?]|?]; auto.
    + eapply pending_ok_ext; [|exact Hp']. intros x Hx. by rewrite Hv.
Qed.

Lemma replica_ok_nil : replica_ok [] no_replica.
Proof.
  split.
  - intros at_ o. simpl. rewrite lookup_empty. split; [done|]. by intros [?%not_elem_of_nil _].
  - intros id k _. simpl. rewrite lookup_empty. apply entity_ok_nil.
  - split.
    + intros g i row. simpl. by rewrite lookup_empty.
    + by intros o g ?%not_elem_of_nil.
Qed.

Lemma complete_ext D D' g : NoDup D → NoDup D' → (∀ o, o ∈ D ↔ o ∈ D') → complete D g ↔ complete D' g.
Proof.
  intros H1 H2 Hext. unfold complete, present.
  rewrite (Permutation_length (NoDup_Permutation (filter (λ o, group_at o = Some g) D)
    (filter (λ o, group_at o = Some g) D') ltac:(by apply NoDup_filter) ltac:(by apply NoDup_filter)
    ltac:(intros x; rewrite !list_elem_of_filter; by rewrite Hext))). done.
Qed.

Lemma folded_ext D D' o : NoDup D → NoDup D' → (∀ o, o ∈ D ↔ o ∈ D') → o ∈ folded D ↔ o ∈ folded D'.
Proof.
  intros H1 H2 Hext. rewrite !elem_of_folded, Hext. unfold visible.
  destruct (group_at o) as [g|]; [|done]. by rewrite (complete_ext D D').
Qed.

Lemma replica_ok_ext D D' r :
  sound_delivery D → NoDup D → NoDup D' → (∀ o, o ∈ D ↔ o ∈ D') → replica_ok D r → replica_ok D' r.
Proof.
  intros HD H1 H2 Hext [Hops Hents Hpend]. split.
  - intros at_ o. by rewrite Hops, Hext.
  - intros id k Hk. eapply (entities_ok_ext D (folded D)); [done| | |done|].
    + intros o Ho. by apply elem_of_folded in Ho as [? _].
    + intros o. by apply folded_ext.
    + intros o Ho. by apply Hk, Hext.
  - destruct Hpend as [P1 P2]. split.
    + intros g i row Hrow. destruct (P1 _ _ _ Hrow) as (o & Ho & Hg & ? & ? & HP). exists o.
      split_and!; [by apply Hext|done..|]. rewrite HP. unfold visible. rewrite Hg. by apply complete_ext.
    + intros o g Ho. by apply P2, Hext.
Qed.

Lemma gate_refuses o : ¬ passes o →
  ∀ r t, apply_next value_fits r (o, t) = Some r.
Proof.
  intros Hg r t. unfold passes in Hg. unfold apply_next, apply_remote. simpl.
  destruct (gate value_fits o) as [[]|[]]; done.
Qed.

(** The idempotence gate: a sound delivery's log holds an id exactly when it
    holds the op. *)
Lemma logged_iff D r o :
  sound_delivery (o :: D) → replica_ok D r → logged r (remote_op_id (ro_at o)) ↔ o ∈ D.
Proof.
  intros HD Hok. unfold logged. rewrite Exists_exists. split.
  - intros ([op x] & Hrow%elem_of_map_to_list & Heq). apply (ok_ops _ _ Hok) in Hrow as [Hx <-].
    simpl in Heq. assert (x = o) as -> by (apply HD; [by right|by left|done]). done.
  - intros Ho. exists (ro_at o, o). split; [|done]. apply elem_of_map_to_list. by apply (ok_ops _ _ Hok).
Qed.

(** One more op of a delivery. *)
Lemma apply_next_ok D r o t :
  sound_delivery (o :: D) → NoDup D → (∀ x, x ∈ D → passes x) → replica_ok D r →
  ∃ r', apply_next value_fits r (o, t) = Some r' ∧
    replica_ok (if decide (passes o ∧ o ∉ D) then o :: D else D) r'.
Proof.
  intros HD Hnd Hp Hok. destruct (decide (passes o)) as [Hg|Hg].
  2:{ exists r. split; [by apply gate_refuses|]. rewrite decide_False by tauto. done. }
  unfold apply_next, apply_remote. simpl. unfold passes in Hg. rewrite Hg.
  destruct (decide (o ∈ D)) as [Ho|Ho].
  - rewrite decide_True by (by eapply logged_iff). exists r. split; [done|]. by rewrite decide_False by tauto.
  - rewrite decide_False by (by rewrite (logged_iff D) by done).
    destruct (fold_received_ok D r o t HD) as (r' & acc & -> & Hok'); [by apply NoDup_cons|done|].
    exists r'. split; [done|]. by rewrite decide_True.
Qed.

Lemma apply_all_ok l :
  sound_delivery l.*1 →
  ∃ r, apply_all value_fits l = Some r ∧ replica_ok (remove_dups (accepted l.*1)) r.
Proof.
  unfold apply_all. induction l as [|[o t] l IH] using rev_ind; intros HD.
  { exists no_replica. split; [done|apply replica_ok_nil]. }
  rewrite fmap_app in *. cbn [fmap list_fmap fst] in *.
  assert (sound_delivery l.*1) as HD0.
  { eapply sound_sub; [|exact HD]. intros x Hx. apply elem_of_app. by left. }
  destruct (IH HD0) as (r & Hr & Hok). rewrite foldm_app, Hr. simpl.
  set (D := remove_dups (accepted l.*1)) in *.
  assert (∀ x, x ∈ D ↔ passes x ∧ x ∈ l.*1) as HinD.
  { intros x. unfold D, accepted. by rewrite elem_of_remove_dups, list_elem_of_filter. }
  assert (sound_delivery (o :: D)) as HDo.
  { eapply sound_sub; [|exact HD]. intros x. rewrite elem_of_cons, elem_of_app, HinD, list_elem_of_singleton. tauto. }
  destruct (apply_next_ok D r o t HDo) as (r' & -> & Hok');
    [apply NoDup_remove_dups|intros x ?; by apply HinD|done|].
  exists r'. split; [done|]. eapply replica_ok_ext; [| |apply NoDup_remove_dups| |exact Hok'].
  - eapply sound_sub; [|exact HDo]. intros x. case_decide; [done|by right].
  - case_decide; [|apply NoDup_remove_dups]. apply NoDup_cons. split; [tauto|apply NoDup_remove_dups].
  - intros x. unfold accepted. rewrite elem_of_remove_dups, list_elem_of_filter, elem_of_app, list_elem_of_singleton.
    case_decide as Hd; rewrite ?elem_of_cons, HinD.
    + split; [intros [->|?]; tauto|]. intros [? [?| ->]]; tauto.
    + split; [tauto|]. intros [? [?| ->]]; [done|]. rewrite <-HinD. by destruct (decide (o ∈ D)) as [?|?]; [|tauto].
Qed.

(** A consistent delivery gives an entity one kind. *)
Lemma one_kind D id : consistent_delivery D → ∃ k, ∀ o, o ∈ D → ro_id o = id → ro_kind o = k.
Proof.
  intros HD. destruct (List.find (λ o, bool_decide (ro_id o = id)) D) as [o|] eqn:Ef.
  - apply find_some in Ef as [Ho%list_elem_of_In Hid%bool_decide_eq_true]. exists (ro_kind o).
    intros x Hx Hxid. apply HD; [done|done|congruence].
  - exists EntityKind.Task. intros x Hx Hid.
    pose proof (find_none _ _ Ef x (proj1 (list_elem_of_In _ _) Hx)) as Hf.
    by apply bool_decide_eq_false in Hf.
Qed.

(** C2: a commit lands whole or not at all: after any delivery, in any order
    and with repetitions and refused ops, no fold fails, every op that passes
    the gate is accounted for, a group's members are marked applied exactly
    when at least as many as its size are present, and every entity holds
    precisely the fold of its ungrouped ops and of all the present members of
    complete groups, none of an incomplete one; unless two of the ops
    delivered, at different positions, have one sixteen-byte id.  As for the
    merge itself, a position has one op, an entity's ops name one kind, and what
    they write encodes. *)
Theorem groups_land_whole l :
  consistent_delivery l.*1 →
  id_collision l.*1 ∨
  let D := remove_dups (accepted l.*1) in
  ∃ r, apply_all value_fits l = Some r ∧
    (∀ o g, o ∈ D → group_at o = Some g →
       ∃ row, rp_pending r !! (g, remote_op_id (ro_at o)) = Some row ∧ (pr_applied row = true ↔ complete D g)) ∧
    (∀ id k, (∀ o, o ∈ D → ro_id o = id → ro_kind o = k) →
       entity_ok (spec k) (effs value_fits (spec k) (dops (folded D) id)) (default no_entity (rp_entities r !! id))) ∧
    (∀ o, o ∈ folded D ↔ (o ∈ l.*1 ∧ passes o) ∧ ∀ g, group_at o = Some g → complete D g).
Proof.
  intros [?|HD]%sound_or_collision; [by left|right]. intros D.
  destruct (apply_all_ok l HD) as (r & Hr & [Hops Hents [P1 P2]]). exists r.
  split; [done|]. split_and!.
  - intros o g Ho Hg. destruct (P2 o g Ho Hg) as [row Hrow]. exists row. split; [done|].
    destruct (P1 _ _ _ Hrow) as (o' & Ho' & Hg' & _ & _ & HP). rewrite HP. unfold visible. by rewrite Hg'.
  - exact Hents.
  - intros o. rewrite elem_of_folded. unfold D at 1, accepted, visible.
    rewrite elem_of_remove_dups, list_elem_of_filter.
    destruct (group_at o) as [g|]; [|naive_solver]. split; [|naive_solver].
    intros [? Hc]. split; [tauto|]. intros g' [= <-]. exact Hc.
Qed.

(** C1: replicas converge: two replicas that received the same ops, of however
    many entities and groups, in different orders, at different times and with
    different repetitions, hold the same state for every entity; unless two of
    the ops, at different positions, have one sixteen-byte id.  As for the merge
    itself, a position has one op, an entity's ops name one kind, and what they
    write encodes. *)
Theorem replicas_converge l1 l2 :
  consistent_delivery l1.*1 → (∀ o, o ∈ l1.*1 ↔ o ∈ l2.*1) →
  id_collision l1.*1 ∨
  ∃ r1 r2, apply_all value_fits l1 = Some r1 ∧ apply_all value_fits l2 = Some r2 ∧
    ∀ id, default no_entity (rp_entities r1 !! id) = default no_entity (rp_entities r2 !! id).
Proof.
  intros [?|HD]%sound_or_collision Hext; [by left|right].
  assert (sound_delivery l2.*1) as HD2 by (eapply sound_sub; [|exact HD]; intros o; apply Hext).
  destruct (apply_all_ok l1 HD) as (r1 & Hr1 & Hok1), (apply_all_ok l2 HD2) as (r2 & Hr2 & Hok2).
  exists r1, r2. split; [done|]. split; [done|]. intros id.
  set (D := remove_dups (accepted l1.*1)) in *.
  assert (∀ l : list ROp, ∀ o, o ∈ remove_dups (accepted l) ↔ passes o ∧ o ∈ l) as Hin.
  { intros l o. unfold accepted. by rewrite elem_of_remove_dups, list_elem_of_filter. }
  assert (sound_delivery D) as HD' by (eapply sound_sub; [|exact HD]; intros o; by intros [_ ?]%Hin).
  assert (replica_ok D r2) as Hok2'.
  { eapply replica_ok_ext; [|apply NoDup_remove_dups|apply NoDup_remove_dups| |exact Hok2].
    - eapply sound_sub; [|exact HD2]. intros o. by intros [_ ?]%Hin.
    - intros o. unfold D. by rewrite !Hin, Hext. }
  destruct (one_kind D id) as [k Hk]; [apply HD'|].
  eapply (entity_ok_unique (spec k)); [| |by apply (ok_entities _ _ Hok1)|by apply (ok_entities _ _ Hok2')].
  - apply deliverable_universe. eapply (dops_deliverable D); [done| |done].
    intros o Ho. by apply elem_of_folded in Ho as [? _].
  - done.
Qed.
End delivery.

(** ** A worked commit: two tasks edited together, and one edited alone *)

#[local] Existing Instance example_codec.

(** Primitives that hide nothing; a derived key is the end of its material. *)
Definition plain_crypto : Crypto := {|
  blake3 b := b;
  derive_key _ m n := drop (length m - n) m;
  public_key sk := sk;
  sign sk m := sk ++ m;
  verify_ed25519 pk m s := bool_decide (s = pk ++ m);
  aead_seal_xchacha _ _ m _ := Some m;
  aead_open_xchacha _ _ c _ := Some c;
|}.
#[local] Existing Instance plain_crypto.

Definition grouped (id : Id) (ms seq : Z) (group : option Group) (state : string) : ROp :=
  mkROp EntityKind.Task id
    (OpPatch (mkPatch EntityKind.Task id true None (Some []) group [set_to "state" (Text state)]))
    (example_stamp ms 1 seq) 1.
Definition o_first : ROp := grouped 5 100 1 (Some (77, 2)) "todo".
Definition o_second : ROp := grouped 6 100 2 (Some (77, 2)) "done".
Definition o_alone : ROp := grouped 7 110 3 None "todo".
Definition commit_ops : list (ROp * Z) := [(o_first, 1); (o_alone, 2); (o_first, 3)].
Definition commit_whole : list (ROp * Z) := [(o_second, 1); (o_first, 2); (o_alone, 3)].
Definition commit_other : list (ROp * Z) := [(o_alone, 5); (o_first, 6); (o_alone, 7); (o_second, 8)].

Lemma consistent_by `{Ciborium} (fits : EntityKind.t → string → Value → bool) (D : list ROp) :
  Forall (λ o, Forall (λ o', (ro_at o = ro_at o' → o = o') ∧ (ro_id o = ro_id o' → ro_kind o = ro_kind o')) D) D →
  Forall (λ o, Forall encodable_write
    (match eff fits (spec (ro_kind o)) (dop_of o (group_at o)) with Some a => ef_writes a | None => [] end)) D →
  consistent_delivery fits D.
Proof.
  intros H1 H2. rewrite Forall_forall in H1, H2. split_and!.
  - intros o o' Ho Ho'. specialize (H1 o Ho). rewrite Forall_forall in H1. by apply H1.
  - intros o o' Ho Ho'. specialize (H1 o Ho). rewrite Forall_forall in H1. by apply H1.
  - intros o a Ho Ha. specialize (H2 o Ho). by rewrite Ha in H2.
Qed.

Lemma commit_ops_consistent : consistent_delivery any_fits commit_ops.*1.
Proof. apply consistent_by; apply (bool_decide_unpack _); vm_compute; exact I. Qed.
Lemma commit_whole_consistent : consistent_delivery any_fits commit_whole.*1.
Proof. apply consistent_by; apply (bool_decide_unpack _); vm_compute; exact I. Qed.

(** A patch that writes an unwritable field is refused. *)
Definition o_refused : ROp :=
  mkROp EntityKind.Task 8
    (OpPatch (mkPatch EntityKind.Task 8 true None (Some []) None [set_to "id" (Text "x")])) (example_stamp 120 1 4) 1.
Example refused_op : gate any_fits o_refused = Err Invalid.
Proof. reflexivity. Qed.

Lemma no_id_collision `{Crypto} D :
  Forall (λ o, Forall (λ o', remote_op_id (ro_at o) = remote_op_id (ro_at o') → ro_at o = ro_at o') D) D →
  ¬ id_collision D.
Proof. intros HD (o & o' & Ho & Ho' & Hne & Heq). rewrite Forall_forall in HD. specialize (HD o Ho).
  rewrite Forall_forall in HD. by apply Hne, HD. Qed.
Lemma commit_ops_ids : ¬ id_collision commit_ops.*1.
Proof. apply no_id_collision, (bool_decide_unpack _). vm_compute. exact I. Qed.
Lemma commit_whole_ids : ¬ id_collision commit_whole.*1.
Proof. apply no_id_collision, (bool_decide_unpack _). vm_compute. exact I. Qed.

(** One member of the pair alone is held. *)
Lemma groups_land_whole_witness :
  consistent_delivery any_fits commit_ops.*1 ∧
  ∃ r, apply_all any_fits commit_ops = Some r ∧
    (o_first ∉ folded (remove_dups (accepted any_fits commit_ops.*1))) ∧
    o_alone ∈ folded (remove_dups (accepted any_fits commit_ops.*1)) ∧
    ∃ row, rp_pending r !! ((77, 2), remote_op_id (ro_at o_first)) = Some row ∧ pr_applied row ≠ true.
Proof.
  split; [exact commit_ops_consistent|].
  destruct (groups_land_whole any_fits commit_ops commit_ops_consistent) as [Hc|(r & Hr & Hp & _ & Hf)];
    [destruct (commit_ops_ids Hc)|].
  exists r. split; [exact Hr|].
  assert (¬ complete (remove_dups (accepted any_fits commit_ops.*1)) (77, 2)) as Hnc
    by (unfold complete; apply (bool_decide_unpack _); vm_compute; exact I).
  assert (o_first ∈ remove_dups (accepted any_fits commit_ops.*1)) as H1
    by (apply (bool_decide_unpack _); vm_compute; exact I).
  assert (o_alone ∈ commit_ops.*1 ∧ passes any_fits o_alone) as H2 by (apply (bool_decide_unpack _); vm_compute; exact I).
  split; [|split].
  - intros Hin. apply Hf in Hin as [_ Hc]. apply Hnc, Hc. reflexivity.
  - apply Hf. split; [exact H2|]. intros g Hg. discriminate Hg.
  - destruct (Hp o_first (77, 2) H1 eq_refl) as (row & Hrow & Happ). exists row. split; [exact Hrow|].
    rewrite Happ. exact Hnc.
Defined.

Lemma replicas_converge_witness :
  consistent_delivery any_fits commit_whole.*1 ∧
  (∀ o, o ∈ commit_whole.*1 ↔ o ∈ commit_other.*1) ∧
  ∃ r1 r2, apply_all any_fits commit_whole = Some r1 ∧
    apply_all any_fits commit_other = Some r2 ∧
    ∀ id, default no_entity (rp_entities r1 !! id) = default no_entity (rp_entities r2 !! id).
Proof.
  assert (∀ o, o ∈ commit_whole.*1 ↔ o ∈ commit_other.*1) as Hext.
  { intros o. cbn [commit_whole commit_other fmap list_fmap fst]. rewrite !elem_of_cons. tauto. }
  split; [exact commit_whole_consistent|]. split; [exact Hext|].
  destruct (replicas_converge any_fits _ _ commit_whole_consistent Hext) as [Hc|Hr];
    [destruct (commit_whole_ids Hc)|exact Hr].
Defined.
