(* ===== verification/Snapshot.v ===== *)
(** * Snapshots of the merge state (engine/merge/snapshot.rs)

    [dump] writes the merge tables of one stream (or of the compacted prefix)
    as one CBOR document; [join_stream_state] reads such a document and folds
    it into another replica's tables.  A table row holds its parents and field
    names decoded, so the document's blobs are encoded here and decoded again
    when they are joined; the rows are the same.

    [None] is a document the code refuses, or an encoder's error; both roll
    the transaction back.  In [dump] it is also the panic of an index that is
    missing, which [SnapshotJoin] shows never happens.  Rewriting the SQL row
    of each entity joined ([project_and_write]) is not modelled: [project] is
    a function of the tables joined. *)

From Stdlib Require Import ZArith Lia String.
From stdpp Require Import base tactics decidable countable option list strings gmap sorting.
From S2P Require Import Prelude Bytes Cbor Hlc Registry Stamp Versions Patch Registers FieldState Fold Convergence Envelope Groups.
Open Scope Z_scope.

Definition DOC_STATE_V : Z := 2.

(** ** Kinds *)

Definition kind_of_tag (tag : string) : option EntityKind.t :=
  e_kind <$> List.find (λ e, bool_decide (e_tag e = tag)) ENTITIES.

(** The registry entry of a kind whose ops merge field by field into a row. *)
Definition merged_spec (kind : EntityKind.t) : option EntitySpec :=
  let e := spec kind in
  if bool_decide (e_merge e = Lww) && bool_decide (is_Some (storage e)) then Some e else None.

(** ** CBOR shapes *)

Definition int (n : Z) : Value := Integer n.
Definition bytes16 (x : Id) : Value := Bytes (be_encode 16 x).

Definition stamp_value (s : Stamp) : Value :=
  Array [int (physical_ms (s_hlc s)); int (logical (s_hlc s)); bytes16 (s_device s);
         int (s_seq s); bytes16 (s_stream s)].

Definition as_u64 (v : Value) : option Z :=
  n ← as_integer v; if decide (in_u64 n) then Some n else None.
Definition as_u32 (v : Value) : option Z :=
  n ← as_u64 v; if decide (n ≤ u32_max) then Some n else None.
Definition as_bool (v : Value) : option bool := match v with Bool b => Some b | _ => None end.
Definition as_16 : Value → option Id := id_bytes.

Definition read_stamp (v : Value) : option Stamp :=
  items ← as_array v;
  match items with
  | [ms; logical; device; seq; stream] =>
      ms ← as_u64 ms; logical ← as_u32 logical; device ← as_16 device;
      seq ← as_u64 seq; stream ← as_16 stream;
      Some (mkStamp (mkHlc ms logical) device seq stream)
  | _ => None
  end.

(** The stamp an index names, in an entity's [stamps]. *)
Definition stamp_at (stamps : list Stamp) (v : option Value) : option Stamp :=
  i ← v ≫= as_u64; stamps !! Z.to_nat i.

Definition opt_stamp_at (stamps : list Stamp) (v : Value) : option (option Stamp) :=
  if is_null v then Some None else Some <$> stamp_at stamps (Some v).

(** The items of a row, none for a value that is not an array. *)
Definition items_of (v : Value) : list Value := default [] (as_array v).

(** ** Writing the state out *)

(** Which rows a dump carries. *)
Inductive Scope :=
  | ScopeStream (stream : Id)
  | ScopeCompacted (floors : gmap (Id * Id) Z).

Definition written_by (sc : Scope) (op : OpRef) : bool :=
  match sc with
  | ScopeStream stream => bool_decide (o_stream op = stream)
  | ScopeCompacted floors =>
      match floors !! (o_stream op, o_device op) with
      | Some f => bool_decide (o_seq op ≤ f)
      | None => false
      end
  end.

Definition removes_in (sc : Scope) (tag : OpRef) : bool :=
  match sc with
  | ScopeStream stream => bool_decide (o_stream tag = stream)
  | ScopeCompacted _ => true
  end.

(** The entities whose bookkeeping the scope carries even when none of their
    rows is. *)
Definition bookkeeping (sc : Scope) (m : Meta) : bool :=
  existsb (λ s, written_by sc (op_ref s))
    (option_list (mt_create m) ++ option_list (mt_legacy m) ++ [mt_head m]).

(** One row: its items, and the stamp that goes last as an index. *)
Abbreviation Item := (list Value * option Stamp)%type.

(** [ORDER BY] a key. *)
Definition by_key {A K} `{Cmp K} (key : A → K) (a b : A) : Prop := key a ≼ key b.
#[export] Instance by_key_dec {A K} `{Cmp K} (key : A → K) : RelDecision (by_key key).
Proof. intros a b. unfold by_key. apply _. Defined.
Definition order_by {A K} `{Cmp K} (key : A → K) (l : list A) : list A := merge_sort (by_key key) l.

(** SQLite's binary collation. *)
#[export] Instance string_cmp : Cmp string := String.compare.

Definition version_kind (k : VersionKind) : string := match k with Legacy => "legacy" | Patch => "patch" end.

Section dump.
Context `{Ciborium} (sc : Scope).

(** The blobs [entity_versions] stores. *)
Definition parents_value (ps : list OpRef) : Value := Array (to_value <$> ps).
Definition fields_value (fs : gset string) : Value := Array (Text <$> isort string_le (elements fs)).
Definition encode_parents (ps : option (list OpRef)) : option Value :=
  match ps with
  | None => Some Null
  | Some ps => Bytes <$> enc (parents_value ps)
  end.

Definition register_item (fm : string * Member) : Item :=
  ([Text fm.1; match m_value fm.2 with Some b => Bytes b | None => Null end; Text (m_origin fm.2)],
   Some (m_at fm.2)).

Definition register_rows (db : RegTables) : list (string * Member) :=
  filter (λ fm, written_by sc (op_ref (m_at fm.2)) = true) (order_by fst (map_to_list (merge_registers db))).
Definition register_items (db : RegTables) : list Item := register_item <$> register_rows db.

Definition loser_rows (db : RegTables) : list (string * Member) :=
  filter (λ fm, written_by sc (op_ref (m_at fm.2)) = true)
    (order_by (λ fm, (fm.1, m_at fm.2))
       ((λ row : (string * OpRef) * Loser, (row.1.1, lo_member row.2)) <$> map_to_list (register_losers db))).
Definition loser_items (db : RegTables) : list Item := register_item <$> loser_rows db.

Definition version_rows (t : VTables) : list VRow :=
  filter (λ r, written_by sc (op_ref (row_at r)) = true) (merge_sort row_le (rows t)).

(** What follows the stamp's index in a version. *)
Definition version_items (r : VRow) : option (list Value) :=
  let v := row_version r in
  ps ← encode_parents (v_parents v);
  fs ← enc (fields_value (v_fields v));
  Some [Text (version_kind (v_kind v)); Text (v_origin v); Bool (v_create v); ps;
        match v_group v with Some (id, size) => Array [bytes16 id; int size] | None => Null end;
        Bytes fs; Bool (row_head r)].

(** Each frontier row: the version, and a stamp its frontier reaches. *)
Definition frontier_rows (t : VTables) : list (OpRef * Stamp) :=
  filter (λ vs, written_by sc vs.1 = true)
    (order_by (λ vs, (vs.1, s_device vs.2))
       (map_to_list (entity_frontier t) ≫= λ vf, (λ ds, (vf.1, ds.2)) <$> map_to_list vf.2)).

Definition map_rows (db : FieldTables) : list ((string * string) * MapEntry) :=
  filter (λ row, written_by sc (op_ref (me_at row.2)) = true) (order_by fst (map_to_list (map_entries db))).
Definition map_item (row : (string * string) * MapEntry) : Item :=
  ([Text row.1.1; Text row.1.2; Bytes (me_value row.2); Text (me_origin row.2)], Some (me_at row.2)).
Definition map_items (db : FieldTables) : list Item := map_item <$> map_rows db.

Definition add_rows (db : FieldTables) : list ((string * bytes * OpRef) * Hlc) :=
  filter (λ row, written_by sc row.1.2 = true) (order_by fst (map_to_list (orset_adds db))).
Definition add_item (row : (string * bytes * OpRef) * Hlc) : Item :=
  ([Text row.1.1.1; Bytes row.1.1.2], Some (row_stamp row.2 row.1.2)).
Definition add_items (db : FieldTables) : list Item := add_item <$> add_rows db.

Definition remove_rows (db : FieldTables) : list (string * bytes * OpRef) :=
  filter (λ row, removes_in sc row.2 = true) (order_by id (elements (orset_removes db))).
Definition remove_item (row : string * bytes * OpRef) : Item :=
  ([Text row.1.1; Bytes row.1.2; bytes16 (o_stream row.2); bytes16 (o_device row.2); int (o_seq row.2)], None).
Definition remove_items (db : FieldTables) : list Item := remove_item <$> remove_rows db.

Definition delta_rows (db : FieldTables) : list ((string * OpRef) * (Hlc * Z)) :=
  filter (λ row, written_by sc row.1.2 = true) (order_by fst (map_to_list (counter_deltas db))).
Definition delta_item (row : (string * OpRef) * (Hlc * Z)) : Item :=
  ([Text row.1.1; Integer row.2.2], Some (row_stamp row.2.1 row.1.2)).
Definition delta_items (db : FieldTables) : list Item := delta_item <$> delta_rows db.

(** [BTreeSet]'s iteration. *)
Definition distinct (l : list Stamp) : list Stamp := isort tle (elements (list_to_set l : gset Stamp)).

Definition index_of {A} `{EqDecision A} (l : list A) (x : A) : option Z :=
  (λ ix, Z.of_nat ix.1) <$> list_find (x =.) l.

(** [items] as one array, with the stamp's index appended. *)
Definition indexed_row (stamps : list Stamp) (row : Item) : option Value :=
  match row.2 with
  | None => Some (Array row.1)
  | Some s => i ← index_of stamps s; Some (Array (row.1 ++ [int i]))
  end.
Definition indexed (stamps : list Stamp) (rows : list Item) : option Value :=
  Array <$> mapM (indexed_row stamps) rows.

Definition dump_version (stamps : list Stamp) (r : VRow) : option Value :=
  i ← index_of stamps (row_at r);
  items ← version_items r;
  Some (Array (int i :: items)).

(** A row naming a version the scope does not select is left out. *)
Definition dump_frontier (stamps : list Stamp) (versions : list OpRef) (vs : OpRef * Stamp) :
    option (list Value) :=
  match index_of versions vs.1 with
  | None => Some []
  | Some v => i ← index_of stamps vs.2; Some [Array [int v; int i]]
  end.

(** Whether any row of the entity is in scope. *)
Definition entity_in_scope (en : Entity) : bool :=
  negb (bool_decide (register_items (en_registers en) = [])) ||
  negb (bool_decide (loser_items (en_registers en) = [])) ||
  negb (bool_decide (version_rows (en_versions en) = [])) ||
  negb (bool_decide (frontier_rows (en_versions en) = [])) ||
  negb (bool_decide (map_items (en_fields en) = [])) ||
  negb (bool_decide (add_items (en_fields en) = [])) ||
  negb (bool_decide (remove_items (en_fields en) = [])) ||
  negb (bool_decide (delta_items (en_fields en) = [])) ||
  match en_meta en with Some m => bookkeeping sc m | None => false end.

Definition item_stamps (rows : list Item) : list Stamp := omap snd rows.

Definition entity_stamps (m : Meta) (en : Entity) : list Stamp :=
  distinct (item_stamps (register_items (en_registers en)) ++ item_stamps (loser_items (en_registers en)) ++
            item_stamps (map_items (en_fields en)) ++ item_stamps (add_items (en_fields en)) ++
            item_stamps (remove_items (en_fields en)) ++ item_stamps (delta_items (en_fields en)) ++
            (row_at <$> version_rows (en_versions en)) ++ (frontier_rows (en_versions en)).*2 ++
            option_list (mt_create m) ++ option_list (mt_legacy m) ++ [mt_head m]).

Definition dump_entity (id : Id) (kind : string) (m : Meta) (en : Entity) : option Value :=
  let stamps := entity_stamps m en in
  let at_ := λ s : option Stamp, match s with None => Some Null | Some s => int <$> index_of stamps s end in
  let vrows := version_rows (en_versions en) in
  versions ← mapM (dump_version stamps) vrows;
  frontier ← mapM (dump_frontier stamps ((λ r, op_ref (row_at r)) <$> vrows)) (frontier_rows (en_versions en));
  create ← at_ (mt_create m);
  legacy ← at_ (mt_legacy m);
  head ← at_ (Some (mt_head m));
  registers ← indexed stamps (register_items (en_registers en));
  losers ← indexed stamps (loser_items (en_registers en));
  maps ← indexed stamps (map_items (en_fields en));
  adds ← indexed stamps (add_items (en_fields en));
  removes ← indexed stamps (remove_items (en_fields en));
  deltas ← indexed stamps (delta_items (en_fields en));
  Some (VMap [
    (Text "id", bytes16 id); (Text "kind", Text kind);
    (Text "stamps", Array (stamp_value <$> stamps));
    (Text "created", Bool (mt_created m)); (Text "create", create); (Text "legacy", legacy);
    (Text "patch_ms", match mt_patch_ms m with Some ms => int ms | None => Null end);
    (Text "head", head);
    (Text "registers", registers); (Text "losers", losers); (Text "maps", maps);
    (Text "adds", adds); (Text "removes", removes); (Text "deltas", deltas);
    (Text "versions", Array versions); (Text "frontier", Array (concat frontier))]).
End dump.

(** A replica with the kind column of [merge_entities]. *)
Record Vault := mkVault { va_replica : Replica; va_kinds : gmap Id string }.

Section vault_dump.
Context `{Ciborium} (sc : Scope).

(** The group members in [stream] whose versions were pruned (prune.rs):
    applied rows of [pending_groups] that no version row has. *)
Definition pruned_members (r : Replica) (stream : Id) : list (Group * Stamp) :=
  order_by (λ m : Group * Stamp, (m.2, m.1))
    (omap (λ row : (Group * Id) * PendingRow,
       let at_ := pr_at row.2 in
       if bool_decide (s_stream at_ = stream) && pr_applied row.2 &&
          negb (existsb (λ ie : Id * Entity, bool_decide (is_Some (entity_versions (en_versions ie.2) !! op_ref at_)))
                  (map_to_list (rp_entities r)))
       then Some (row.1.1, at_) else None)
     (map_to_list (rp_pending r))).

Definition dump_row (va : Vault) (ie : Id * Entity) : option (list Value) :=
  if entity_in_scope sc ie.2 then
    match va_kinds va !! ie.1, en_meta ie.2 with
    | Some kind, Some m => d ← dump_entity sc ie.1 kind m ie.2; Some [d]
    | _, _ => Some []
    end
  else Some [].

Definition dump (va : Vault) : option Value :=
  entities ← mapM (dump_row va) (order_by fst (map_to_list (rp_entities (va_replica va))));
  let members := match sc with
                 | ScopeStream stream => pruned_members (va_replica va) stream
                 | ScopeCompacted _ => []
                 end in
  let tail := match members with
              | [] => []
              | _ => [(Text "members",
                       Array ((λ m : Group * Stamp, Array [bytes16 m.1.1; int m.1.2; stamp_value m.2]) <$> members))]
              end in
  Some (VMap ((Text "v", int DOC_STATE_V) :: (Text "entities", Array (concat entities)) :: tail)).
End vault_dump.

Definition dump_stream_state `{Ciborium} (va : Vault) (stream : Id) : option Value :=
  dump (ScopeStream stream) va.
Definition dump_compacted_base `{Ciborium} (va : Vault) (floors : gmap (Id * Id) Z) : option Value :=
  dump (ScopeCompacted floors) va.

(** ** Joining it *)

(** One entity read back out of the document. *)
Record DocEntity := mkDocEntity {
  de_kind : EntityKind.t;
  de_id : Id;
  de_spec : EntitySpec;
  de_meta : Meta;
  de_stamps : list Stamp;
  de_entries : list (Value * Value);
}.

Definition list_in (name : string) (entries : list (Value * Value)) : option (list Value) :=
  entry name entries ≫= as_array.

Definition read_entity (v : Value) : option DocEntity :=
  entries ← as_map v;
  id ← entry "id" entries ≫= as_16;
  tag ← entry "kind" entries ≫= as_text;
  kind ← kind_of_tag tag;
  e ← merged_spec kind;
  stamps ← list_in "stamps" entries ≫= mapM read_stamp;
  created ← entry "created" entries ≫= as_bool;
  create ← entry "create" entries ≫= opt_stamp_at stamps;
  legacy ← entry "legacy" entries ≫= opt_stamp_at stamps;
  patch_ms ← entry "patch_ms" entries ≫= λ v, if is_null v then Some None else Some <$> as_u64 v;
  head ← stamp_at stamps (entry "head" entries);
  Some (mkDocEntity kind id e (mkMeta created create legacy patch_ms head) stamps entries).

Definition read_kind (kind : string) : option VersionKind :=
  if bool_decide (kind = "legacy"%string) then Some Legacy
  else if bool_decide (kind = "patch"%string) then Some Patch else None.

Definition read_group (v : option Value) : option (option Group) :=
  match v with
  | Some Null => Some None
  | Some (Array [gid; size]) => id ← as_16 gid; size ← as_u64 size; Some (Some (id, size))
  | _ => None
  end.

(** [local] joined with [snap]: the bookkeeping of the union of the ops each
    covers. *)
Definition omax {A} `{Cmp A} (a b : option A) : option A :=
  match a, b with Some x, Some y => Some (cmax x y) | Some x, None => Some x | None, o => o end.
Definition omin {A} `{Cmp A} (a b : option A) : option A :=
  match a, b with Some x, Some y => Some (cmin x y) | Some x, None => Some x | None, o => o end.

Definition join_meta (local : option Meta) (snap : Meta) : Meta :=
  match local with
  | None => snap
  | Some m =>
      mkMeta (mt_created m || mt_created snap) (omin (mt_create m) (mt_create snap))
        (omax (mt_legacy m) (mt_legacy snap)) (omax (mt_patch_ms m) (mt_patch_ms snap))
        (cmax (mt_head m) (mt_head snap))
  end.

(** The conflict rule of [entity_frontier]'s insert: the greater of the held
    and the joined stamp of a device. *)
Definition raise_frontier (f : Frontier) (reached : Stamp) : Frontier :=
  match f !! s_device reached with
  | Some held =>
      if decide ((s_hlc held, (s_seq held, s_stream held)) ≺ (s_hlc reached, (s_seq reached, s_stream reached)))
      then <[s_device reached := reached]> f else f
  | None => <[s_device reached := reached]> f
  end.

Section join.
Context `{Ciborium, Crypto} (received_at : OpRef → option Z).

Definition decode_parents (b : bytes) : list OpRef := omap from_value (default [] (as_array (dec b))).
Definition decode_fields (b : bytes) : gset string := list_to_set (omap as_text (default [] (as_array (dec b)))).

Definition read_parents (v : option Value) : option (option (list OpRef)) :=
  match v with
  | Some Null => Some None
  | v => b ← v ≫= as_bytes; Some (Some (decode_parents b))
  end.

Definition read_version (stamps : list Stamp) (v : Value) : option VRow :=
  let items := items_of v in
  at_ ← stamp_at stamps (items !! 0%nat);
  kind ← items !! 1%nat ≫= as_text;
  kind ← read_kind kind;
  origin ← items !! 2%nat ≫= as_text;
  create ← items !! 3%nat ≫= as_bool;
  parents ← read_parents (items !! 4%nat);
  group ← read_group (items !! 5%nat);
  fields ← items !! 6%nat ≫= as_bytes;
  head ← items !! 7%nat ≫= as_bool;
  Some (mkVRow (mkVersion at_ kind origin create parents group (decode_fields fields)) head).

(** What joining an entity's versions threads: the pending members, the
    entity's tables, and the versions joined. *)
Definition join_version (stamps : list Stamp) (st : Replica * VTables * list OpRef) (v : Value) :
    option (Replica * VTables * list OpRef) :=
  row ← read_version stamps v;
  let '(r, t, joined) := st in
  let at_ := row_at row in
  let t := mkVTables (insert_new (op_ref at_) row (entity_versions t)) (entity_frontier t) in
  let r := match v_group (row_version row) with
           | Some g => record_joined r g at_ (received_at (op_ref at_))
           | None => r
           end in
  Some (r, t, joined ++ [op_ref at_]).

Definition join_frontier (stamps : list Stamp) (joined : list OpRef) (t : VTables) (f : Value) : option VTables :=
  let items := items_of f in
  i ← items !! 0%nat ≫= as_u64;
  v ← joined !! Z.to_nat i;
  reached ← stamp_at stamps (items !! 1%nat);
  Some (insert_frontier t v (raise_frontier (frontier_of t v) reached)).

Definition join_versions (r : Replica) (t : VTables) (stamps : list Stamp) (versions frontier : list Value) :
    option (Replica * VTables * bool) :=
  '(r, t, joined) ← foldm (join_version stamps) (r, t, []) versions;
  t ← foldm (join_frontier stamps joined) t frontier;
  Some (match joined with [] => (r, t, false) | _ => (r, recompute t, true) end).

Definition join_register (t : VTables) (stamps : list Stamp) (regs : Registers) (v : Value) : option Registers :=
  let items := items_of v in
  value ← match items !! 1%nat with
          | Some Null => Some None
          | v => b ← v ≫= as_bytes; Some (Some (dec b))
          end;
  field ← items !! 0%nat ≫= as_text;
  at_ ← stamp_at stamps (items !! 3%nat);
  origin ← items !! 2%nat ≫= as_text;
  offer t regs field value at_ origin.

Definition join_map (stamps : list Stamp) (db : FieldTables) (v : Value) : option FieldTables :=
  let items := items_of v in
  field ← items !! 0%nat ≫= as_text;
  k ← items !! 1%nat ≫= as_text;
  value ← items !! 2%nat ≫= as_bytes;
  at_ ← stamp_at stamps (items !! 4%nat);
  origin ← items !! 3%nat ≫= as_text;
  write_map_entry db field k (dec value) at_ origin.

Definition join_add (stamps : list Stamp) (floor : option Stamp) (db : FieldTables) (v : Value) :
    option FieldTables :=
  let items := items_of v in
  field ← items !! 0%nat ≫= as_text;
  el ← items !! 1%nat ≫= as_bytes;
  at_ ← stamp_at stamps (items !! 2%nat);
  add_element db field (dec el) at_ floor.

Definition join_remove (db : FieldTables) (v : Value) : option FieldTables :=
  let items := items_of v in
  stream ← items !! 2%nat ≫= as_16;
  device ← items !! 3%nat ≫= as_16;
  seq ← items !! 4%nat ≫= as_u64;
  field ← items !! 0%nat ≫= as_text;
  el ← items !! 1%nat ≫= as_bytes;
  remove_element db field (dec el) (mkOpRef stream device seq).

Definition as_i64 (v : Value) : option Z :=
  n ← as_integer v; if decide (i64_min ≤ n ≤ i64_max) then Some n else None.

Definition join_delta (stamps : list Stamp) (floor : option Stamp) (db : FieldTables) (v : Value) :
    option FieldTables :=
  let items := items_of v in
  delta ← items !! 1%nat ≫= as_i64;
  field ← items !! 0%nat ≫= as_text;
  at_ ← stamp_at stamps (items !! 2%nat);
  Some (add_delta db field delta at_ floor).

(** One entity's rows, folded into the tables held.  [v2] is whether the
    document has the keys of version 2. *)
Definition join_entity (v2 : bool) (r : Replica) (d : DocEntity) : option Replica :=
  let en := default no_entity (rp_entities r !! de_id d) in
  let since := λ name, if v2 then list_in name (de_entries d) else Some [] in
  versions ← since "versions"%string;
  frontier ← since "frontier"%string;
  '(r, t, joined) ← join_versions r (en_versions en) (de_stamps d) versions frontier;
  let before := en_meta en ≫= mt_legacy in
  let meta := join_meta (en_meta en) (de_meta d) in
  let regs := load (en_registers en) before in
  let regs := if joined : bool then refilter t regs else regs in
  let '(db, regs) :=
    match mt_legacy meta with
    | Some floor =>
        if match before with None => true | Some b => bool_decide (b ≺ floor) end
        then prune_below_floor (en_fields en) floor regs else (en_fields en, regs)
    | None => (en_fields en, regs)
    end in
  registers ← list_in "registers" (de_entries d);
  losers ← since "losers"%string;
  regs ← foldm (join_register t (de_stamps d)) regs (registers ++ losers);
  maps ← list_in "maps" (de_entries d);
  db ← foldm (join_map (de_stamps d)) db maps;
  adds ← list_in "adds" (de_entries d);
  db ← foldm (join_add (de_stamps d) (mt_legacy meta)) db adds;
  removes ← list_in "removes" (de_entries d);
  db ← foldm join_remove db removes;
  deltas ← list_in "deltas" (de_entries d);
  db ← foldm (join_delta (de_stamps d) (mt_legacy meta)) db deltas;
  let en := mkEntity (Some meta) t (flush (de_spec d) regs (en_registers en)) db in
  Some (mkReplica (<[de_id d := en]> (rp_entities r)) (rp_pending r) (rp_ops r)).

Definition read_member (v : Value) : option (Group * Stamp) :=
  items ← as_array v;
  match items with
  | [id; size; at_] => id ← as_16 id; size ← as_u64 size; at_ ← read_stamp at_; Some ((id, size), at_)
  | _ => None
  end.

Definition projection_rank (kind : EntityKind.t) : Z :=
  match kind with
  | EntityKind.Stream => 0
  | EntityKind.Context => 1
  | EntityKind.Routine => 2
  | EntityKind.Task => 3
  | EntityKind.Block => 4
  | _ => 5
  end.

(** The entity's tables and its kind column. *)
Definition join_into (v2 : bool) (va : Vault) (d : DocEntity) : option Vault :=
  r ← join_entity v2 (va_replica va) d;
  Some (mkVault r (insert_new (de_id d) (e_tag (de_spec d)) (va_kinds va))).

(** The vault after the join, and the entities joined in the order they are
    projected in. *)
Definition join_stream_state (va : Vault) (doc : Value) : option (Vault * list (EntityKind.t * Id)) :=
  top ← as_map doc;
  version ← entry "v" top ≫= as_u64;
  if negb (bool_decide (version = 1) || bool_decide (version = DOC_STATE_V)) then None
  else
    let v2 := bool_decide (version = DOC_STATE_V) in
    entities ← list_in "entities" top ≫= mapM read_entity;
    members ← match entry "members" top with
              | None => Some []
              | Some v => as_array v ≫= mapM read_member
              end;
    let r := foldl (λ r m, record_joined r m.1 m.2 (received_at (op_ref m.2))) (va_replica va) members in
    va ← foldm (join_into v2) (mkVault r (va_kinds va)) entities;
    Some (va, (λ d, (de_kind d, de_id d)) <$>
                order_by (λ d, (projection_rank (de_kind d), de_id d)) entities).
End join.
