(* ===== verification/SnapshotJoin.v ===== *)
(** * Joining tables row by row

    Folding the rows of one entity's tables into another replica's leaves the
    tables of the union of the ops the two folded: the version DAG, the
    registers, the field tables and the bookkeeping, each against the
    specification of Convergence.v. *)

From Stdlib Require Import ZArith Lia String.
From stdpp Require Import base tactics decidable countable option list strings gmap sorting.
From S2P Require Import Prelude Bytes Cbor Hlc Registry Stamp Versions Patch Registers FieldState Fold Convergence Envelope Groups Snapshot.
Open Scope Z_scope.

(** ** A larger history only adds to the order *)

Lemma applied_mono vs vs' s : vs ⊆ vs' → applied vs s → applied vs' s.
Proof. intros Hsub (v & Hv & <-). exists v. split; [|done]. by eapply lookup_weaken. Qed.

Lemma edge_mono vs vs' a b : vs ⊆ vs' → edge vs a b → edge vs' a b.
Proof.
  intros Hsub (v & Hv & Ha & Hb & Hlt & Hor). exists v. split_and!; try done.
  - by eapply lookup_weaken.
  - by eapply applied_mono.
Qed.

Lemma reaches_mono vs vs' a b : vs ⊆ vs' → reaches vs a b → reaches vs' a b.
Proof. intros Hsub H. induction H; [done|]. eapply rtc_l; [by eapply edge_mono|done]. Qed.

Lemma before_mono vs vs' a b : vs ⊆ vs' → before vs a b → before vs' a b.
Proof.
  intros Hsub H. induction H as [x y He|x y z He _ IH]; [apply tc_once; by eapply edge_mono|].
  eapply tc_l; [by eapply edge_mono|done].
Qed.

Lemma sound_mono vs vs' a f : vs ⊆ vs' → sound vs a f → sound vs' a f.
Proof. intros Hsub Hs d s Hd. destruct (Hs d s Hd). split; [done|]. by eapply reaches_mono. Qed.

(** ** Joining version rows *)

Definition join_row (m : gmap OpRef VRow) (r : VRow) : gmap OpRef VRow := insert_new (op_ref (row_at r)) r m.

Lemma join_rows_lookup rows m op :
  foldl join_row m rows !! op =
  match m !! op with Some r => Some r | None => List.find (λ r, bool_decide (op_ref (row_at r) = op)) rows end.
Proof.
  revert m. induction rows as [|r rows IH]; intros m; cbn [foldl List.find]; [by destruct (m !! op)|].
  rewrite IH. unfold join_row. rewrite lookup_insert_new. destruct (m !! op); [done|].
  case_decide as Hd.
  - by rewrite bool_decide_true by done.
  - by rewrite bool_decide_false by (intros Heq; by apply Hd).
Qed.

(** Rows of a table, keyed by their op-refs and listed in any order. *)
Lemma find_row t rs op :
  wf_versions (versions_of t) → (∀ r, r ∈ rs ↔ r ∈ rows t) →
  List.find (λ r, bool_decide (op_ref (row_at r) = op)) rs = entity_versions t !! op.
Proof.
  intros Hwf Hrs. destruct (List.find _ rs) as [r|] eqn:E.
  - apply List.find_some in E as [Hin Hop%bool_decide_eq_true]. apply list_elem_of_In, Hrs in Hin.
    apply elem_of_rows in Hin as [op' Hr]. by rewrite <-Hop, (row_op_ref t Hwf r op' Hr).
  - destruct (entity_versions t !! op) as [r|] eqn:Er; [|done]. exfalso.
    assert (r ∈ rs) as Hin by (apply Hrs, elem_of_rows; eauto).
    apply list_elem_of_In in Hin. apply (List.find_none _ _ E) in Hin.
    rewrite (row_op_ref t Hwf r op Er), bool_decide_true in Hin; done.
Qed.

Definition join_reached (t : VTables) (vs : OpRef * Stamp) : VTables :=
  insert_frontier t vs.1 (raise_frontier (frontier_of t vs.1) vs.2).

Lemma join_reached_versions l t : entity_versions (foldl join_reached t l) = entity_versions t.
Proof. revert t. induction l as [|x l IH]; intros t; cbn [foldl]; [done|]. by rewrite IH. Qed.

Lemma frontier_of_insert t v f op : frontier_of (insert_frontier t v f) op = if decide (op = v) then f else frontier_of t op.
Proof.
  unfold frontier_of, insert_frontier; simpl. case_decide as Hd.
  - subst. by rewrite lookup_insert_eq.
  - by rewrite lookup_insert_ne.
Qed.

Lemma sound_raise vs a f s : sound vs a f → reaches vs a s → sound vs a (raise_frontier f s).
Proof.
  intros Hf Hs d x. unfold raise_frontier.
  assert (<[s_device s := s]> f !! d = Some x → s_device x = d ∧ reaches vs a x) as Hins.
  { intros [[<- <-]|[_ Hx]]%lookup_insert_Some; [done|by apply Hf]. }
  destruct (f !! s_device s); [case_decide|]; [exact Hins|apply Hf|exact Hins].
Qed.

Lemma join_reached_sound vs l t :
  (∀ op v, vs !! op = Some v → sound vs (v_at v) (frontier_of t op)) →
  (∀ op s, (op, s) ∈ l → ∀ v, vs !! op = Some v → reaches vs (v_at v) s) →
  ∀ op v, vs !! op = Some v → sound vs (v_at v) (frontier_of (foldl join_reached t l) op).
Proof.
  revert t. induction l as [|[op0 s0] l IH]; intros t Ht Hl; cbn [foldl]; [done|].
  apply IH; [|intros; eapply Hl; [by right|done]].
  intros op v Hv. unfold join_reached at 1. rewrite frontier_of_insert. cbn [fst snd].
  case_decide as Hd; [|by apply Ht]. subst op0.
  apply sound_raise; [by apply Ht|]. eapply Hl; [by left|done].
Qed.

Section join_tables.
Context (tA tB : VTables) (rs : list VRow) (fs : list (OpRef * Stamp)).
Hypothesis HA : versions_ok tA.
Hypothesis HB : versions_ok tB.
Hypothesis Hagree : ∀ op v w, versions_of tA !! op = Some v → versions_of tB !! op = Some w → v = w.
Hypothesis Hrs : ∀ r, r ∈ rs ↔ r ∈ rows tB.
Hypothesis Hfs : ∀ op s, (op, s) ∈ fs → ∃ f d, entity_frontier tB !! op = Some f ∧ f !! d = Some s.

Let vs := versions_of tA ∪ versions_of tB.
Let t0 := mkVTables (foldl join_row (entity_versions tA) rs) (entity_frontier tA).
Let t1 := foldl join_reached t0 fs.

Lemma union_sub_r : versions_of tB ⊆ vs.
Proof.
  apply map_subseteq_spec. intros op w Hw. unfold vs. apply lookup_union_Some_raw.
  destruct (versions_of tA !! op) as [v|] eqn:E; [left|by right]. by rewrite (Hagree op v w E Hw).
Qed.
Lemma union_sub_l : versions_of tA ⊆ vs.
Proof. apply map_union_subseteq_l. Qed.

Lemma joined_versions : versions_of t1 = vs.
Proof.
  apply map_eq. intros op. unfold t1. unfold versions_of at 1. rewrite join_reached_versions.
  rewrite lookup_fmap. unfold t0; cbn [entity_versions]. rewrite join_rows_lookup, (find_row tB) by (done || apply HB).
  unfold vs. rewrite lookup_union, !lookup_versions_of.
  by destruct (entity_versions tA !! op), (entity_versions tB !! op).
Qed.

Lemma union_wf : wf_versions vs.
Proof. intros op v [Hv|[_ Hv]]%lookup_union_Some_raw; [by apply HA|by apply HB]. Qed.

Lemma joined_floors op v : vs !! op = Some v → sound vs (v_at v) (frontier_of t1 op).
Proof.
  apply join_reached_sound.
  - clear op v. intros op v Hv. change (frontier_of t0 op) with (frontier_of tA op).
    destruct (versions_of tA !! op) as [w|] eqn:E.
    + pose proof (lookup_weaken _ _ _ _ E union_sub_l) as E'. assert (v = w) as -> by congruence.
      eapply sound_mono; [apply union_sub_l|]. by apply HA.
    + unfold frontier_of. destruct (entity_frontier tA !! op) as [f|] eqn:Ef; [|apply sound_empty].
      exfalso. destruct HA as (_ & _ & _ & Hdom).
      assert (op ∈ dom (entity_versions tA)) as [r Hr]%elem_of_dom by (apply Hdom, elem_of_dom; eauto).
      by rewrite lookup_versions_of, Hr in E.
  - clear op v. intros op s Hin v Hv. destruct (Hfs op s Hin) as (f & d & Hf & Hd).
    destruct HB as (_ & Hex & _ & Hdom).
    assert (op ∈ dom (entity_versions tB)) as [r Hr]%elem_of_dom by (apply Hdom, elem_of_dom; eauto).
    assert (versions_of tB !! op = Some (row_version r)) as Hw by by rewrite lookup_versions_of, Hr.
    destruct (Hex op _ Hw) as [Hsound _]. unfold frontier_of in Hsound. rewrite Hf in Hsound.
    destruct (Hsound d s Hd) as [_ Hreach].
    pose proof (lookup_weaken _ _ _ _ Hw union_sub_r) as Hw'. assert (v = row_version r) as -> by congruence.
    eapply reaches_mono; [apply union_sub_r|done].
Qed.

Lemma join_tables_ok : versions_ok (recompute t1) ∧ versions_of (recompute t1) = vs.
Proof.
  assert (wf_versions (versions_of t1)) as Hwf by (rewrite joined_versions; apply union_wf).
  rewrite recompute_versions by done. split; [|apply joined_versions].
  apply recompute_ok; [done|]. rewrite joined_versions. apply joined_floors.
Qed.
End join_tables.

(** ** Joining registers *)

(** Candidates below another candidate may be left out. *)
Lemma maxset_without_dominated {A} (p : A → A → bool) (C C' l : list A) :
  strict_on p C' → (∀ x, x ∈ C → x ∈ C') →
  (∀ x, x ∈ C' → x ∈ C ∨ ∃ y, y ∈ C ∧ p x y = true) → maxset p C l → maxset p C' l.
Proof.
  intros [Hi Ht] Hsub Hdom Hl m. rewrite (Hl m). split.
  - intros [Hm Hmax]. split; [by apply Hsub|]. intros n Hn.
    destruct (Hdom n Hn) as [HnC|(y & Hy & Hny)]; [by apply Hmax|].
    apply not_true_iff_false. intros Hmn. assert (p m y = true) as Hmy by (apply (Ht m n y); auto).
    by rewrite Hmax in Hmy.
  - intros [Hm Hmax]. split; [|by intros n Hn; apply Hmax, Hsub].
    destruct (Hdom m Hm) as [?|(y & Hy & Hmy)]; [done|]. by rewrite Hmax in Hmy by by apply Hsub.
Qed.

Section offers.
Context `{Ciborium} (t : VTables).
Hypothesis Hok : versions_ok t.

(** The bytes a row holds survive being read and written again. *)
Definition member_back (m : Member) : Prop :=
  match m_value m with Some b => enc (dec b) = Some b | None => True end.

Definition offer_row (regs : Registers) (fm : string * Member) : option Registers :=
  offer t regs fm.1 (decoded fm.2) (m_at fm.2) (m_origin fm.2).

Definition with_rows (W : string → list Member) (l : list (string * Member)) (f : string) : list Member :=
  omap (λ fm, if decide (fm.1 = f) then Some fm.2 else None) l ++ W f.

Lemma elem_of_with_rows W l f m : m ∈ with_rows W l f ↔ (f, m) ∈ l ∨ m ∈ W f.
Proof.
  unfold with_rows. rewrite elem_of_app, list_elem_of_omap. apply or_iff_compat_r. split.
  - intros ([g x] & Hin & Hx). simpl in Hx. case_decide; [|done]. simplify_eq/=. done.
  - intros Hin. exists (f, m). split; [done|]. by rewrite decide_True.
Qed.

Lemma offers_ok l W r :
  writes_ok t (with_rows W l) → (∀ f m, (f, m) ∈ l → member_back m) → reg_ok t W r → clean r →
  ∃ r', foldm offer_row r l = Some r' ∧ reg_ok t (with_rows W l) r' ∧ clean r' ∧
    rg_floor r' = rg_floor r ∧ rg_held r' = rg_held r.
Proof.
  revert W r. induction l as [|[f m] l IH]; intros W r HW Hback Hr Hc; cbn [foldm]; [by exists r|].
  assert (∀ g x, x ∈ with_rows (add_write W f m) l g ↔ x ∈ with_rows W ((f, m) :: l) g) as Hsame.
  { intros g x. rewrite !elem_of_with_rows, elem_of_cons. unfold add_write. case_decide as Hg.
    - subst g. rewrite elem_of_cons. split; [intros [?|[->|?]]|intros [[[= ->]|?]|?]]; tauto.
    - split; [tauto|]. intros [[[= -> ->]|?]|?]; [done|tauto..]. }
  destruct (offer_ok t r W f (decoded m) (m_at m) (m_origin m) (m_value m)) as (r1 & Hr1 & Ok1 & C1 & F1 & H1); try done.
  - eapply writes_ok_sub; [|exact HW]. intros g x Hx. apply Hsame, elem_of_with_rows.
    destruct m as [a v o]. by right.
  - unfold decoded. specialize (Hback f m ltac:(by left)). unfold member_back in Hback.
    destruct (m_value m); simpl; [by rewrite Hback|done].
  - destruct m as [a v o]. cbn [m_at m_origin m_value] in *.
    rewrite (Hr1 : offer_row r (f, mkMember a v o) = Some r1). cbn [mbind option_bind].
    destruct (IH (add_write W f (mkMember a v o)) r1) as (r2 & Hr2 & Ok2 & C2 & F2 & H2); try done.
    + eapply writes_ok_sub; [|exact HW]. intros g x. apply Hsame.
    + intros g x Hx. apply (Hback g). by right.
    + exists r2. split; [done|]. split_and!; [|done|congruence..].
      intros g. eapply maxset_ext; [..|exact (Ok2 g)]; [|done]. intros x. unfold cands.
      by rewrite !list_elem_of_filter, Hsame.
Qed.
End offers.

Lemma history_app l1 l2 : history (l1 ++ l2) = history l1 ∪ history l2.
Proof. unfold history. by rewrite fmap_app, list_to_map_app. Qed.

(** ** Extrema of a union *)

Lemma greatest_app l1 l2 : greatest (l1 ++ l2) = omax (greatest l1) (greatest l2).
Proof.
  apply (option_spec_ext _ _ _ (greatest_spec _)). intros m.
  destruct (greatest l1) as [a|] eqn:E1; [apply greatest_spec in E1 as [Ha Ua]|apply greatest_None in E1 as ->];
    (destruct (greatest l2) as [b|] eqn:E2; [apply greatest_spec in E2 as [Hb Ub]|apply greatest_None in E2 as ->]);
    cbn [omax]; rewrite ?app_nil_r, ?app_nil_l.
  - split.
    + intros [= <-]. split.
      * apply elem_of_app. destruct (cmax_case a b) as [-> | ->]; [by left|by right].
      * intros s [Hs|Hs]%elem_of_app; [eapply tle_trans; [by apply Ua|apply cmax_l]|
                                       eapply tle_trans; [by apply Ub|apply cmax_r]].
    + intros [Hm Um]. f_equal. apply tle_antisymm.
      * apply cmax_lub; apply Um, elem_of_app; [by left|by right].
      * apply elem_of_app in Hm as [Hm|Hm]; [eapply tle_trans; [by apply Ua|apply cmax_l]|
                                             eapply tle_trans; [by apply Ub|apply cmax_r]].
  - split; [intros [= <-]; done|]. intros [Hm Um]. f_equal. apply tle_antisymm; auto.
  - split; [intros [= <-]; done|]. intros [Hm Um]. f_equal. apply tle_antisymm; auto.
  - split; [done|]. by intros [?%not_elem_of_nil _].
Qed.

Lemma least_app l1 l2 : least (l1 ++ l2) = omin (least l1) (least l2).
Proof.
  apply (option_spec_ext _ _ _ (least_spec _)). intros m.
  assert (∀ l, least l = None → l = []) as Hnil by (intros [|x l]; [done|]; cbn [least foldr]; by destruct (foldr _ _ l)).
  destruct (least l1) as [a|] eqn:E1; [apply least_spec in E1 as [Ha Ua]|apply Hnil in E1 as ->];
    (destruct (least l2) as [b|] eqn:E2; [apply least_spec in E2 as [Hb Ub]|apply Hnil in E2 as ->]);
    cbn [omin]; rewrite ?app_nil_r, ?app_nil_l.
  - split.
    + intros [= <-]. split.
      * apply elem_of_app. destruct (cmin_case a b) as [-> | ->]; [by left|by right].
      * intros s [Hs|Hs]%elem_of_app; [eapply tle_trans; [apply cmin_l|by apply Ua]|
                                       eapply tle_trans; [apply cmin_r|by apply Ub]].
    + intros [Hm Um]. f_equal. apply tle_antisymm.
      * apply elem_of_app in Hm as [Hm|Hm]; [eapply tle_trans; [apply cmin_l|by apply Ua]|
                                             eapply tle_trans; [apply cmin_r|by apply Ub]].
      * apply cmin_glb; apply Um, elem_of_app; [by left|by right].
  - split; [intros [= <-]; done|]. intros [Hm Um]. f_equal. apply tle_antisymm; auto.
  - split; [intros [= <-]; done|]. intros [Hm Um]. f_equal. apply tle_antisymm; auto.
  - split; [done|]. by intros [?%not_elem_of_nil _].
Qed.

Lemma Z_cmax (x y : Z) : cmax x y = Z.max x y.
Proof. unfold cmax. case_decide as Hd; rewrite Z_tlt_lt in Hd; lia. Qed.

Lemma max_ms_app l1 l2 : max_ms (l1 ++ l2) = omax (max_ms l1) (max_ms l2).
Proof.
  induction l1 as [|x l1 IH]; [done|]. cbn [app max_ms foldr].
  fold (max_ms (l1 ++ l2)) (max_ms l1). rewrite IH.
  destruct (max_ms l1), (max_ms l2); cbn [omax]; rewrite ?Z_cmax; f_equal; lia.
Qed.

Lemma floor_of_app L1 L2 : floor_of (L1 ++ L2) = omax (floor_of L1) (floor_of L2).
Proof. unfold floor_of. by rewrite filter_app, fmap_app, greatest_app. Qed.

(** Whether the join raises the floor held. *)
Definition raises (before floor : option Stamp) : bool :=
  match floor with
  | Some l => match before with None => true | Some b => bool_decide (b ≺ l) end
  | None => false
  end.

Section union.
Context `{Ciborium} (e : EntitySpec) (LA LB : list Eff).
Hypothesis Hu : universe (LA ++ LB).

Lemma union_l a : a ∈ LA → a ∈ LA ++ LB.
Proof. intros. apply elem_of_app. by left. Qed.
Lemma union_r a : a ∈ LB → a ∈ LA ++ LB.
Proof. intros. apply elem_of_app. by right. Qed.
Lemma universe_l : universe LA.
Proof. eapply universe_sub; [apply union_l|exact Hu]. Qed.
Lemma universe_r : universe LB.
Proof. eapply universe_sub; [apply union_r|exact Hu]. Qed.
Let F := floor_of (LA ++ LB).

Lemma floor_l : match floor_of LA with Some l => ∃ l', F = Some l' ∧ l ≼ l' | None => True end.
Proof. destruct (floor_of LA) eqn:E; [|done]. by apply (floor_of_mono LA); [apply union_l|]. Qed.
Lemma floor_r : match floor_of LB with Some l => ∃ l', F = Some l' ∧ l ≼ l' | None => True end.
Proof. destruct (floor_of LB) eqn:E; [|done]. by apply (floor_of_mono LB); [apply union_r|]. Qed.

Lemma raises_false : raises (floor_of LA) F = false → F = floor_of LA.
Proof.
  pose proof floor_l as Hl. unfold raises. destruct F as [f|].
  - destruct (floor_of LA) as [l|]; [|done]. intros Hn%bool_decide_eq_false.
    destruct Hl as (l' & [= <-] & Hle). f_equal. apply tle_antisymm; [by tord|done].
  - destruct (floor_of LA); [by destruct Hl as (? & ? & _)|done].
Qed.

Lemma raises_true : raises (floor_of LA) F = true →
  ∃ l, F = Some l ∧ match floor_of LA with Some b => b ≺ l | None => True end.
Proof.
  unfold raises. destruct F as [f|]; [|done]. intros Hr. exists f. split; [done|].
  destruct (floor_of LA); [by apply bool_decide_eq_true in Hr|done].
Qed.

Lemma not_below_r s : below_floor F s = false → below_floor (floor_of LB) s = false.
Proof.
  intros Hb. pose proof floor_r as Hr. destruct (floor_of LB) as [l|]; [|done].
  destruct Hr as (l' & Hl' & Hle). rewrite Hl' in Hb. simpl in *. apply bool_decide_eq_false in Hb.
  apply bool_decide_eq_false. by tord.
Qed.
Lemma not_at_or_below_r s : at_or_below_floor F s = false → at_or_below_floor (floor_of LB) s = false.
Proof.
  intros Hb. pose proof floor_r as Hr. destruct (floor_of LB) as [l|]; [|done].
  destruct Hr as (l' & Hl' & Hle). rewrite Hl' in Hb. simpl in *. apply bool_decide_eq_false in Hb.
  apply bool_decide_eq_false. by tord.
Qed.

Lemma all_writes_app f m : m ∈ all_writes (LA ++ LB) f ↔ m ∈ all_writes LA f ∨ m ∈ all_writes LB f.
Proof. rewrite !elem_of_all_writes. setoid_rewrite elem_of_app. naive_solver. Qed.

Section registers.
Context (enA enB : Entity) (t : VTables) (rowsB : list (string * Member)).
Hypothesis HA : entity_ok e LA enA.
Hypothesis HB : entity_ok e LB enB.
Hypothesis Hok : versions_ok t.
Hypothesis Hvs : versions_of t = history (ef_version <$> (LA ++ LB)).

(** What [enB] stores of a register. *)
Definition held_in (db : RegTables) (f : string) (m : Member) : Prop :=
  merge_registers db !! f = Some m ∨
  ∃ op lo, register_losers db !! (f, op) = Some lo ∧ lo_member lo = m.

Lemma held_in_load db floor f m : held_in db f m ↔ m ∈ members_of (load db floor) f.
Proof.
  unfold held_in. rewrite load_members. unfold Registers.held_members.
  rewrite elem_of_app, option_list_elem, load_losers, load_held. done.
Qed.

Hypothesis Hrows : ∀ f m, (f, m) ∈ rowsB ↔ held_in (en_registers enB) f m.
Hypothesis Hback : ∀ f m, (f, m) ∈ rowsB → member_back m.

Lemma writes_union : writes_ok t (all_writes (LA ++ LB)).
Proof. by apply all_writes_ok. Qed.
Lemma versions_sub_l : versions_of (en_versions enA) ⊆ versions_of t.
Proof.
  destruct HA as (_ & _ & -> & _). rewrite Hvs, fmap_app, history_app. apply map_union_subseteq_l.
Qed.
Lemma versions_sub_r : versions_of (en_versions enB) ⊆ versions_of t.
Proof.
  destruct HB as (_ & _ & -> & _). rewrite Hvs. apply map_subseteq_spec. intros op v Hv.
  rewrite (history_ext (LA ++ LB) (LB ++ LA)), fmap_app, history_app by (done || set_solver).
  eapply lookup_weaken; [exact Hv|apply map_union_subseteq_l].
Qed.

(** [enB]'s members cover every write of [LB] at or above the joined floor. *)
Lemma covered_by_rows f x :
  x ∈ cands (all_writes LB) F f →
  ∃ n, (f, n) ∈ rowsB ∧ below_floor F (m_at n) = false ∧ (n = x ∨ prec t x n = true).
Proof.
  intros [Hfl Hx]%list_elem_of_filter. destruct HB as (_ & HokB & HvsB & HstB & _).
  pose proof (all_writes_ok _ _ universe_r HvsB) as HWB.
  destruct (load_ok e _ _ _ _ HWB HstB) as (HrB & _ & _).
  assert (cands_ok (en_versions enB) (cands (all_writes LB) (floor_of LB) f)) as Hco by by apply cands_cands_ok.
  destruct (maximal_above (prec (en_versions enB)) (cands (all_writes LB) (floor_of LB) f) x)
    as (n & Hn & Hxn & Hmax).
  { by apply prec_strict. }
  { apply list_elem_of_filter. split; [by apply not_below_r|done]. }
  exists n. split; [apply Hrows, (held_in_load _ (floor_of LB)), (HrB f); done|].
  destruct Hxn as [->|Hp]; [by auto|].
  assert (before (versions_of (en_versions enB)) (m_at x) (m_at n)) as Hbef.
  { unfold prec in Hp. rewrite precedes_at_before in Hp; [done|done|by apply (HWB f)|].
    apply (proj1 Hco). done. }
  split.
  - unfold below_floor in *. destruct F as [l|]; [|done]. apply bool_decide_eq_false in Hfl.
    apply bool_decide_eq_false. apply before_lt in Hbef. intros Hlt. apply Hfl. by eapply tlt_trans.
  - right. unfold prec. apply before_mono with (vs' := versions_of t) in Hbef; [|apply versions_sub_r].
    destruct (before_applied _ _ _ Hbef). by apply precedes_at_before.
Qed.
Definition raised (r : Registers) : Registers :=
  match F with
  | Some l => if raises (floor_of LA) F then raise_floor r l else r
  | None => r
  end.

Lemma raised_ok r :
  reg_ok t (all_writes LA) r → clean r → rg_floor r = floor_of LA →
  reg_ok t (all_writes LA) (raised r) ∧ clean (raised r) ∧ rg_floor (raised r) = F ∧
  rg_held (raised r) = rg_held r.
Proof.
  intros Hr Hc Hfl. unfold raised. destruct (raises (floor_of LA) F) eqn:E.
  - destruct (raises_true E) as (l & HF & Hlt). rewrite HF. apply raise_floor_ok; [done| |done..|by rewrite Hfl].
    eapply writes_ok_sub; [|exact writes_union]. intros f m Hm. apply all_writes_app. by left.
  - apply raises_false in E. split_and!; [by destruct F|by destruct F|by destruct F; rewrite Hfl, E|by destruct F].
Qed.

Lemma rows_are_writes f x : x ∈ with_rows (all_writes LA) rowsB f → x ∈ all_writes (LA ++ LB) f.
Proof.
  intros [Hx|Hx]%elem_of_with_rows; apply all_writes_app; [right|by left].
  destruct HB as (_ & _ & HvsB & HstB & _). apply Hrows, (held_in_load _ (floor_of LB)) in Hx.
  apply (load_ok e _ _ _ _ (all_writes_ok _ _ universe_r HvsB) HstB) in Hx as [Hx _]. by eapply cands_sub.
Qed.

(** The rows offered and the writes held by the other side cover the union's
    writes. *)
Lemma cover_union f l :
  maxset (prec t) (cands (with_rows (all_writes LA) rowsB) F f) l →
  maxset (prec t) (cands (all_writes (LA ++ LB)) F f) l.
Proof.
  pose proof (rows_are_writes f) as Hsub.
  apply maxset_without_dominated.
  - apply prec_strict; [done|]. apply cands_cands_ok, writes_union.
  - intros x [Hfl Hx]%list_elem_of_filter. apply list_elem_of_filter. split; [done|by apply Hsub].
  - intros x [Hfl Hx]%list_elem_of_filter. apply all_writes_app in Hx as [Hx|Hx].
    + left. apply list_elem_of_filter. split; [done|]. apply elem_of_with_rows. by right.
    + destruct (covered_by_rows f x) as (n & Hn & Hnf & Hor); [by apply list_elem_of_filter|].
      assert (n ∈ cands (with_rows (all_writes LA) rowsB) F f) as Hc.
      { apply list_elem_of_filter. split; [done|]. apply elem_of_with_rows. by left. }
      destruct Hor as [->|Hp]; [by left|right; eauto].
Qed.

Lemma join_registers_ok :
  let regs := raised (refilter t (load (en_registers enA) (floor_of LA))) in
  ∃ r, foldm (offer_row t) regs rowsB = Some r ∧
    stored e t (all_writes (LA ++ LB)) F (flush e r (en_registers enA)).
Proof.
  intros regs. destruct HA as (_ & HokA & HvsA & HstA & _).
  pose proof (all_writes_ok _ _ universe_l HvsA) as HWA.
  pose proof writes_union as HWu.
  assert (writes_ok t (all_writes LA)) as HWAt.
  { eapply writes_ok_sub; [|exact HWu]. intros f m Hm. apply all_writes_app. by left. }
  destruct (load_ok e _ _ _ _ HWA HstA) as (Hr0 & Hc0 & Hh0).
  destruct (refilter_ok (en_versions enA) t (all_writes LA) (load (en_registers enA) (floor_of LA)))
    as (Hr1 & Hc1 & Hf1 & Hh1); try done.
  { intros a b. apply before_mono, versions_sub_l. }
  destruct (raised_ok _ Hr1 Hc1 Hf1) as (Hr2 & Hc2 & Hf2 & Hh2). fold regs in Hr2, Hc2, Hf2, Hh2.
  destruct (offers_ok t Hok rowsB (all_writes LA) regs) as (r & Hr & Ok & C & Fl & Hl); try done.
  { eapply writes_ok_sub; [exact rows_are_writes|done]. }
  exists r. split; [done|]. rewrite Hf2 in Fl.
  assert (reg_ok t (all_writes (LA ++ LB)) r) as Hok'.
  { intros f. rewrite Fl. apply cover_union. rewrite <-Fl. apply Ok. }
  assert (rg_held r = rg_held (load (en_registers enA) (floor_of LA))) as Hheld by by rewrite Hl, Hh2, Hh1.
  rewrite <-Fl. apply flush_ok; try done.
  - intros f. rewrite Hheld. by apply (load_ok e _ _ _ _ HWA HstA).
  - intros f. rewrite Hheld. by apply (load_held_facts e _ _ _ _ f HWA HstA).
  - intros f. rewrite Hheld. by apply (load_held_facts e _ _ _ _ f HWA HstA).
  - intros f x. rewrite Hheld. intros Hx. apply all_writes_app. left.
    by apply (load_held_facts e _ _ _ _ f HWA HstA).
  - rewrite Fl. eapply flag_kept; [exact Hu|apply union_l|exact HstA|]. intros f x Hx.
    apply Hok' in Hx as [Hx _]. apply list_elem_of_filter in Hx as [Hx _]. by rewrite Fl in Hx.
Qed.
End registers.

(** *** The field tables *)

(** The rows of the other side, as they are joined. *)
Definition map_row (db : FieldTables) (kv : (string * string) * MapEntry) : option FieldTables :=
  write_map_entry db kv.1.1 kv.1.2 (dec (me_value kv.2)) (me_at kv.2) (me_origin kv.2).
Definition add_row (floor : option Stamp) (db : FieldTables) (kv : (string * bytes * OpRef) * Hlc) :
    option FieldTables :=
  add_element db kv.1.1.1 (dec kv.1.1.2) (row_stamp kv.2 kv.1.2) floor.
Definition remove_row (db : FieldTables) (k : string * bytes * OpRef) : option FieldTables :=
  remove_element db k.1.1 (dec k.1.2) k.2.
Definition delta_row (floor : option Stamp) (db : FieldTables) (kv : (string * OpRef) * (Hlc * Z)) :
    option FieldTables :=
  Some (add_delta db kv.1.1 kv.2.2 (row_stamp kv.2.1 kv.1.2) floor).

Definition back (b : bytes) : Prop := enc (dec b) = Some b.

Definition with_entry (m : gmap (string * string) MapEntry) (kv : (string * string) * MapEntry) :
    gmap (string * string) MapEntry :=
  match m !! kv.1 with
  | Some held => if decide (me_at kv.2 ≺ me_at held) then m else <[kv.1 := kv.2]> m
  | None => <[kv.1 := kv.2]> m
  end.

Lemma map_rows_join l db :
  (∀ kv, kv ∈ l → back (me_value kv.2)) →
  foldm map_row db l = Some (mkFieldTables (foldl with_entry (map_entries db) l) (orset_adds db)
                               (orset_removes db) (counter_deltas db)).
Proof.
  revert db. induction l as [|[[f k] me] l IH]; intros db Hb; cbn [foldm foldl]; [by destruct db|].
  assert (map_row db ((f, k), me) = Some (mkFieldTables (with_entry (map_entries db) ((f, k), me))
            (orset_adds db) (orset_removes db) (counter_deltas db))) as ->.
  { unfold map_row, write_map_entry, with_entry. cbn [fst snd].
    rewrite (Hb ((f, k), me) ltac:(by left) : enc (dec (me_value me)) = Some (me_value me)). cbn [mbind option_bind].
    destruct me as [v a o]. cbn [me_value me_at me_origin].
    destruct (map_entries db !! (f, k)) as [held|]; [|done].
    case_decide as Hd.
    - destruct (replaces a (me_at held)) eqn:E; [|by destruct db]. apply replaces_iff in E. exfalso. by tord.
    - rewrite (proj2 (replaces_iff a (me_at held))) by by apply not_tlt. done. }
  cbn [mbind option_bind]. rewrite IH; [done|]. intros kv Hkv. apply Hb. by right.
Qed.

Lemma with_entries_lookup l m fk :
  NoDup l.*1 →
  foldl with_entry m l !! fk =
  match (list_to_map l : gmap _ _) !! fk with
  | Some new => match m !! fk with
                | Some held => if decide (me_at new ≺ me_at held) then Some held else Some new
                | None => Some new
                end
  | None => m !! fk
  end.
Proof.
  revert m. induction l as [|[k me] l IH]; intros m; cbn [foldl fmap list_fmap fst]; [done|].
  intros [Hk Hnd]%NoDup_cons. rewrite IH by done. cbn [list_to_map foldr uncurry].
  assert (with_entry m (k, me) !! fk =
    if decide (fk = k) then match m !! k with
      | Some held => if decide (me_at me ≺ me_at held) then Some held else Some me
      | None => Some me end else m !! fk) as ->.
  { unfold with_entry. cbn [fst snd]. destruct (m !! k) as [held|] eqn:E; repeat case_decide; subst;
      rewrite ?lookup_insert_eq, ?lookup_insert_ne by done; done. }
  case_decide as Hd.
  - subst fk. rewrite lookup_insert_eq. fold (list_to_map l : gmap (string * string) MapEntry).
    by rewrite (not_elem_of_list_to_map_1 l k Hk).
  - rewrite lookup_insert_ne by done. done.
Qed.

Lemma op_ref_row h op : op_ref (row_stamp h op) = op.
Proof. by destruct op. Qed.

Lemma add_rows_join floor l db :
  NoDup l.*1 → (∀ kv, kv ∈ l → back kv.1.1.2) →
  ∃ db', foldm (add_row floor) db l = Some db' ∧ map_entries db' = map_entries db ∧
    orset_removes db' = orset_removes db ∧ counter_deltas db' = counter_deltas db ∧
    ∀ k h, orset_adds db' !! k = Some h ↔
      orset_adds db !! k = Some h ∨
      (orset_adds db !! k = None ∧ (k, h) ∈ l ∧ below_floor floor (row_stamp h k.2) = false).
Proof.
  revert db. induction l as [|[[[f el] tag] h] l IH]; intros db; cbn [foldm fmap list_fmap fst].
  { intros _ _. exists db. split_and!; try done. intros k h. rewrite elem_of_nil. tauto. }
  intros [Hk Hnd]%NoDup_cons Hb.
  set (adds1 := if below_floor floor (row_stamp h tag) then orset_adds db
                else insert_new (f, el, tag) h (orset_adds db)).
  assert (add_row floor db ((f, el, tag), h) =
    Some (mkFieldTables (map_entries db) adds1 (orset_removes db) (counter_deltas db))) as ->.
  { unfold add_row, add_element, adds1. cbn [fst snd]. destruct (below_floor _ _); [by destruct db|].
    rewrite (Hb ((f, el, tag), h) ltac:(by left) : enc (dec el) = Some el). cbn [mbind option_bind].
    by rewrite op_ref_row. }
  cbn [mbind option_bind].
  destruct (IH (mkFieldTables (map_entries db) adds1 (orset_removes db) (counter_deltas db)) Hnd)
    as (db' & -> & H1 & H2 & H3 & H4); [intros kv Hkv; apply Hb; by right|].
  exists db'. split_and!; [done..|]. intros k x. rewrite H4. cbn [orset_adds].
  assert (∀ y, ((f, el, tag), y) ∉ l) as Hnot.
  { intros y Hy. apply Hk. by apply (list_elem_of_fmap_2 fst) in Hy. }
  unfold adds1. destruct (below_floor floor (row_stamp h tag)) eqn:E.
  - rewrite elem_of_cons. split; [tauto|]. intros [?|(? & [[= -> ->]|?] & ?)]; [tauto| |tauto].
    cbn [snd] in *. congruence.
  - rewrite insert_new_Some, elem_of_cons. destruct (decide (k = (f, el, tag))) as [->|Hne].
    + cbn [snd] in *. rewrite lookup_insert_new, decide_True by done.
      destruct (orset_adds db !! (f, el, tag)); naive_solver.
    + rewrite lookup_insert_new, decide_False by done. destruct (orset_adds db !! k); naive_solver.
Qed.

Lemma remove_rows_join l db :
  (∀ k, k ∈ l → back k.1.2) →
  ∃ db', foldm remove_row db l = Some db' ∧ map_entries db' = map_entries db ∧
    orset_adds db' = orset_adds db ∧ counter_deltas db' = counter_deltas db ∧
    ∀ k, k ∈ orset_removes db' ↔ k ∈ l ∨ k ∈ orset_removes db.
Proof.
  revert db. induction l as [|[[f el] tag] l IH]; intros db Hb; cbn [foldm].
  { exists db. split_and!; try done. intros k. rewrite elem_of_nil. tauto. }
  assert (remove_row db (f, el, tag) = Some (mkFieldTables (map_entries db) (orset_adds db)
    ({[(f, el, tag)]} ∪ orset_removes db) (counter_deltas db))) as ->.
  { unfold remove_row, remove_element. cbn [fst snd].
    by rewrite (Hb (f, el, tag) ltac:(by left) : enc (dec el) = Some el). }
  cbn [mbind option_bind]. edestruct IH as (db' & -> & H1 & H2 & H3 & H4); [intros k Hk; apply Hb; by right|].
  exists db'. split_and!; [done..|]. intros k. rewrite H4, elem_of_cons. cbn [orset_removes]. set_solver.
Qed.

Lemma delta_rows_join floor l db :
  NoDup l.*1 →
  ∃ db', foldm (delta_row floor) db l = Some db' ∧ map_entries db' = map_entries db ∧
    orset_adds db' = orset_adds db ∧ orset_removes db' = orset_removes db ∧
    ∀ k x, counter_deltas db' !! k = Some x ↔
      counter_deltas db !! k = Some x ∨
      (counter_deltas db !! k = None ∧ (k, x) ∈ l ∧ at_or_below_floor floor (row_stamp x.1 k.2) = false).
Proof.
  revert db. induction l as [|[[f op] [h n]] l IH]; intros db; cbn [foldm fmap list_fmap fst].
  { intros _. exists db. split_and!; try done. intros k h. rewrite elem_of_nil. tauto. }
  intros [Hk Hnd]%NoDup_cons.
  rewrite (eq_refl : delta_row floor db ((f, op), (h, n)) = Some (add_delta db f n (row_stamp h op) floor)).
  cbn [mbind option_bind].
  destruct (IH (add_delta db f n (row_stamp h op) floor) Hnd) as (db' & -> & H1 & H2 & H3 & H4).
  exists db'. split_and!; [done|rewrite H1|rewrite H2|rewrite H3|];
    try (unfold add_delta; by destruct (at_or_below_floor _ _)).
  intros k x. rewrite H4.
  assert (∀ y, ((f, op), y) ∉ l) as Hnot.
  { intros y Hy. apply Hk. by apply (list_elem_of_fmap_2 fst) in Hy. }
  unfold add_delta. rewrite op_ref_row. destruct (at_or_below_floor floor (row_stamp h op)) eqn:E.
  - rewrite elem_of_cons. split; [tauto|]. intros [?|(? & [[= -> ->]|?] & ?)]; [tauto| |tauto].
    cbn [fst snd] in *. congruence.
  - cbn [counter_deltas]. rewrite insert_new_Some, elem_of_cons. change (s_hlc (row_stamp h op)) with h.
    destruct (decide (k = (f, op))) as [->|Hne].
    + rewrite lookup_insert_new, decide_True by done. destruct (counter_deltas db !! (f, op)); naive_solver.
    + rewrite lookup_insert_new, decide_False by done. destruct (counter_deltas db !! k); naive_solver.
Qed.
(** The tables of the other side, listed row by row. *)
Definition lists {K V} `{Countable K} (l : list (K * V)) (m : gmap K V) : Prop :=
  NoDup l.*1 ∧ ∀ k v, (k, v) ∈ l ↔ m !! k = Some v.

Lemma lists_map {K V} `{Countable K} (l : list (K * V)) m : lists l m → (list_to_map l : gmap K V) = m.
Proof.
  intros [Hnd Hl]. apply map_eq. intros k. apply option_eq. intros v.
  by rewrite <-elem_of_list_to_map.
Qed.

Lemma map_spec_union f k o1 o2 :
  map_spec LA f k o1 → map_spec LB f k o2 →
  map_spec (LA ++ LB) f k
    match o2 with
    | Some new => match o1 with
                  | Some held => if decide (me_at new ≺ me_at held) then Some held else Some new
                  | None => Some new
                  end
    | None => o1
    end.
Proof.
  intros H1 H2. destruct o1 as [e1|], o2 as [e2|]; simpl in H1, H2 |- *.
  - destruct H1 as (a & v & Ha & Hl & He & Hat & Hor & Hmax), H2 as (b & w & Hb & Hl' & He' & Hat' & Hor' & Hmax').
    case_decide as Hd.
    + exists a, v. split_and!; try done; [by apply union_l|]. intros c [Hc|Hc]%elem_of_app Hs; [by apply Hmax|].
      specialize (Hmax' c Hc Hs). rewrite Hat, Hat' in Hd. by tord.
    + exists b, w. split_and!; try done; [by apply union_r|]. intros c [Hc|Hc]%elem_of_app Hs; [|by apply Hmax'].
      specialize (Hmax c Hc Hs). rewrite Hat, Hat' in Hd. by tord.
  - destruct H1 as (a & v & Ha & Hl & He & Hat & Hor & Hmax). exists a, v. split_and!; try done; [by apply union_l|].
    intros c [Hc|Hc]%elem_of_app Hs; [by apply Hmax|]. rewrite (H2 c Hc) in Hs. by destruct Hs.
  - destruct H2 as (b & w & Hb & Hl' & He' & Hat' & Hor' & Hmax'). exists b, w. split_and!; try done; [by apply union_r|].
    intros c [Hc|Hc]%elem_of_app Hs; [|by apply Hmax']. rewrite (H1 c Hc) in Hs. by destruct Hs.
  - intros c [Hc|Hc]%elem_of_app; auto.
Qed.

(** An op both sides folded wrote the same row on both. *)
Lemma add_spec_functional f el tag h h' : add_spec LA F f el tag h → add_spec LB F f el tag h' → h = h'.
Proof.
  intros (a & Ha & _ & Hr & -> & _) (b & Hb & _ & Hr' & -> & _). f_equal. f_equal.
  apply (proj1 Hu); [by apply union_l|by apply union_r|congruence].
Qed.

Lemma delta_spec_functional f op x x' : delta_spec LA F f op x → delta_spec LB F f op x' → x = x'.
Proof.
  intros (a & n & Ha & Hn & Hr & -> & _) (b & m & Hb & Hm & Hr' & -> & _).
  assert (a = b) as <-; [|congruence]. apply (proj1 Hu); [by apply union_l|by apply union_r|congruence].
Qed.

Lemma lookup_or_new {V} (P Q : V → Prop) (o : option V) x :
  (∀ y, o = Some y ↔ P y) → (∀ y z, P y → Q z → y = z) →
  (o = Some x ∨ (o = None ∧ Q x)) ↔ P x ∨ Q x.
Proof.
  intros HP Hf. rewrite HP. split; [tauto|]. intros [?|HQ]; [by left|].
  destruct o as [y|] eqn:E; [|by right]. left. assert (P y) as Hy by by apply HP. by rewrite <-(Hf y x Hy HQ).
Qed.

Lemma fields_union dbA dbB maps adds removes deltas :
  fields_ok LA F dbA → fields_ok LB (floor_of LB) dbB →
  lists maps (map_entries dbB) → lists adds (orset_adds dbB) →
  (∀ k, k ∈ removes ↔ k ∈ orset_removes dbB) → lists deltas (counter_deltas dbB) →
  (∀ kv, kv ∈ maps → back (me_value kv.2)) → (∀ kv, kv ∈ adds → back kv.1.1.2) →
  (∀ k, k ∈ removes → back k.1.2) →
  ∃ db1 db2 db3 db4,
    foldm map_row dbA maps = Some db1 ∧ foldm (add_row F) db1 adds = Some db2 ∧
    foldm remove_row db2 removes = Some db3 ∧ foldm (delta_row F) db3 deltas = Some db4 ∧
    fields_ok (LA ++ LB) F db4.
Proof.
  intros (MA & AA & RA & DA) (MB & AB & RB & DB) Hm Ha Hr Hd Bm Ba Br.
  rewrite map_rows_join by done. set (db1 := mkFieldTables _ _ _ _).
  destruct (add_rows_join F adds db1 (proj1 Ha) Ba) as (db2 & E2 & M2 & R2 & D2 & A2).
  destruct (remove_rows_join removes db2 Br) as (db3 & E3 & M3 & A3 & D3 & R3).
  destruct (delta_rows_join F deltas db3 (proj1 Hd)) as (db4 & E4 & M4 & A4 & R4 & D4).
  exists db1, db2, db3, db4. split_and!; try done. split_and!.
  - intros f k. rewrite M4, M3, M2. unfold db1; cbn [map_entries].
    rewrite with_entries_lookup by apply Hm. rewrite (lists_map maps _ Hm).
    apply map_spec_union; [apply MA|apply MB].
  - intros f el tag h. rewrite A4, A3, A2. unfold db1; cbn [orset_adds].
    rewrite (lookup_or_new (add_spec LA F f el tag) (λ h, ((f, el, tag), h) ∈ adds ∧ below_floor F (row_stamp h tag) = false)).
    + unfold add_spec at 2. setoid_rewrite elem_of_app. rewrite (proj2 Ha), AB. unfold add_spec. split.
      * intros [(a & ? & ?)|[(a & ? & ? & -> & -> & ?) Hf]]; [naive_solver|].
        exists a. rewrite row_stamp_at in Hf. naive_solver.
      * intros (a & [HaA|HaB] & Hel & -> & -> & Hf); [left; by exists a|right]. rewrite row_stamp_at.
        split; [|done]. exists a. split_and!; try done. by apply not_below_r.
    + apply AA.
    + intros y z Hy [Hz Hf]. apply (add_spec_functional f el tag); [done|].
      apply Ha, AB in Hz as (a & ? & ? & -> & -> & _). rewrite row_stamp_at in Hf. by exists a.
  - intros f el tag. rewrite R4, R3, R2. unfold db1; cbn [orset_removes]. rewrite Hr, RB, RA.
    unfold remove_spec. setoid_rewrite elem_of_app. naive_solver.
  - intros f op x. rewrite D4, D3, D2. unfold db1; cbn [counter_deltas].
    rewrite (lookup_or_new (delta_spec LA F f op) (λ x, ((f, op), x) ∈ deltas ∧ at_or_below_floor F (row_stamp x.1 op) = false)).
    + unfold delta_spec at 2. setoid_rewrite elem_of_app. rewrite (proj2 Hd), DB. unfold delta_spec. split.
      * intros [(a & n & ? & ?)|[(a & n & ? & ? & -> & -> & ?) Hf]]; [naive_solver|].
        exists a, n. cbn [fst] in Hf. rewrite row_stamp_at in Hf. naive_solver.
      * intros (a & n & [HaA|HaB] & Hn & -> & -> & Hf); [left; by exists a, n|right]. cbn [fst]. rewrite row_stamp_at.
        split; [|done]. exists a, n. split_and!; try done. by apply not_at_or_below_r.
    + apply DA.
    + intros y z Hy [Hz Hf]. apply (delta_spec_functional f op); [done|].
      apply Hd, DB in Hz as (a & n & ? & ? & -> & -> & _). cbn [fst] in Hf. rewrite row_stamp_at in Hf. by exists a, n.
Qed.
(** *** The bookkeeping *)

Lemma join_meta_union m : meta_of LB = Some m → join_meta (meta_of LA) m = default m (meta_of (LA ++ LB)) ∧ is_Some (meta_of (LA ++ LB)).
Proof.
  unfold meta_of. rewrite floor_of_app, fmap_app, greatest_app, !filter_app, !fmap_app, least_app, max_ms_app.
  destruct (greatest (at_of <$> LB)) as [hb|] eqn:EB; [|done]. intros [= <-].
  destruct (greatest (at_of <$> LA)) as [ha|] eqn:EA; cbn [omax].
  - split; [|done]. cbn [default join_meta mt_created mt_create mt_legacy mt_patch_ms mt_head]. f_equal.
    destruct (least (at_of <$> filter _ LA)), (least (at_of <$> filter _ LB)); done.
  - apply greatest_None, fmap_nil_inv in EA. subst LA. done.
Qed.
End union.
