(* ===== verification/SnapshotDoc.v ===== *)
(** * A snapshot document, written and joined

    The shapes of the document read back as the rows they were written from,
    and joining the entities of a dump leaves the tables of both sides' ops. *)

From Stdlib Require Import ZArith Lia String.
From stdpp Require Import base tactics decidable countable option list strings gmap sorting.
From S2P Require Import Prelude Bytes Cbor Hlc Registry Stamp Versions Patch Registers FieldState Fold Convergence Envelope Groups Snapshot SnapshotJoin.
Open Scope Z_scope.

(** Ids stay folded. *)
#[local] Opaque be_encode id_bytes as_16 bytes16.

(** ** The document's shapes read back *)

Definition opref_fits (op : OpRef) : Prop := in_u128 (o_stream op) ∧ in_u128 (o_device op) ∧ in_u64 (o_seq op).
Definition stamp_fits (s : Stamp) : Prop :=
  in_u64 (physical_ms (s_hlc s)) ∧ in_u32 (logical (s_hlc s)) ∧ opref_fits (op_ref s).
#[export] Instance opref_fits_dec op : Decision (opref_fits op).
Proof. unfold opref_fits, in_u128, in_u64. apply _. Defined.
#[export] Instance stamp_fits_dec s : Decision (stamp_fits s).
Proof. unfold stamp_fits, in_u64, in_u32. apply _. Defined.

Lemma as_u64_int n : in_u64 n → as_u64 (int n) = Some n.
Proof. intros Hn. unfold as_u64, int. simpl. by rewrite decide_True. Qed.

Lemma as_16_bytes x : in_u128 x → as_16 (bytes16 x) = Some x.
Proof. apply id_bytes_encode. Qed.

Lemma read_stamp_value s : stamp_fits s → read_stamp (stamp_value s) = Some s.
Proof.
  destruct s as [[ms lg] dev seq str]. intros (Hms & Hlg & Hst & Hdev & Hseq).
  cbn [s_hlc s_device s_seq s_stream physical_ms logical op_ref o_stream o_device o_seq] in *.
  unfold read_stamp, stamp_value, as_u32.
  cbn [as_array mbind option_bind s_hlc s_device s_seq s_stream physical_ms logical].
  rewrite !as_u64_int, !as_16_bytes by (done || (unfold in_u32, in_u64, u32_max, u64_max in *; lia)).
  cbn [mbind option_bind]. by rewrite decide_True by (unfold in_u32 in Hlg; lia).
Qed.

Lemma index_of_elem {A} `{EqDecision A} (l : list A) x : x ∈ l → ∃ i, index_of l x = Some i.
Proof.
  intros Hx. unfold index_of. destruct (list_find (x =.) l) as [[i y]|] eqn:E; [by eexists|].
  apply list_find_None in E. rewrite Forall_forall in E. by destruct (E x Hx).
Qed.

Lemma index_of_lookup {A} `{EqDecision A} (l : list A) x i :
  index_of l x = Some i → l !! Z.to_nat i = Some x ∧ 0 ≤ i < Z.of_nat (length l).
Proof.
  unfold index_of. intros ([j y] & Hf & ->)%fmap_Some. apply list_find_Some in Hf as (Hj & <- & _). simpl.
  rewrite Nat2Z.id. split; [done|]. apply lookup_lt_Some in Hj. lia.
Qed.

(** Reading a list of values that stand for a list of rows. *)
Lemma foldm_read {A B V} (f : B → V → option B) (g : B → A → option B) l vs b :
  Forall2 (λ a v, ∀ b, f b v = g b a) l vs → foldm f b vs = foldm g b l.
Proof.
  intros H. revert b. induction H as [|a v l vs Hav _ IH]; intros b; cbn [foldm]; [done|].
  rewrite Hav. destruct (g b a); [apply IH|done].
Qed.

Section shapes.
Context `{Ciborium} (stamps : list Stamp).
Hypothesis Hlen : Z.of_nat (length stamps) ≤ u64_max.

Lemma stamp_at_index s i : index_of stamps s = Some i → stamp_at stamps (Some (int i)) = Some s.
Proof.
  intros [Hi Hb]%index_of_lookup. unfold stamp_at. cbn [mbind option_bind].
  rewrite as_u64_int by (unfold in_u64; lia). done.
Qed.

Lemma opt_stamp_index o v :
  match o with None => Some Null | Some s => int <$> index_of stamps s end = Some v →
  opt_stamp_at stamps v = Some o.
Proof.
  destruct o as [s|]; [|by intros [= <-]]. intros (i & Hi & ->)%fmap_Some.
  unfold opt_stamp_at. simpl. by rewrite (stamp_at_index s i Hi).
Qed.

Lemma indexed_ok rows :
  (∀ s, s ∈ item_stamps rows → s ∈ stamps) →
  ∃ vs, indexed stamps rows = Some (Array vs) ∧ Forall2 (λ row v, indexed_row stamps row = Some v) rows vs.
Proof.
  intros Hin. unfold indexed. destruct (mapM (indexed_row stamps) rows) as [vs|] eqn:E.
  - exists vs. split; [done|]. by apply mapM_Some.
  - exfalso. apply mapM_None, Exists_exists in E as ([items [s|]] & Hrow & Hno); [|done].
    unfold indexed_row in Hno. cbn [snd] in Hno. destruct (index_of_elem stamps s) as [i Hi]; [|by rewrite Hi in Hno].
    apply Hin. unfold item_stamps. apply list_elem_of_omap. by exists (items, Some s).
Qed.

(** Each kind of row, read back and joined. *)
Lemma indexed_inv items s v :
  indexed_row stamps (items, Some s) = Some v →
  ∃ i, v = Array (items ++ [int i]) ∧ stamp_at stamps (Some (int i)) = Some s.
Proof.
  unfold indexed_row. cbn [snd fst]. intros (i & Hi & [= <-])%bind_Some. exists i. split; [done|]. by apply stamp_at_index.
Qed.

Lemma join_register_row t fm v regs :
  indexed_row stamps (register_item fm) = Some v → join_register t stamps regs v = offer_row t regs fm.
Proof.
  destruct fm as [f [at_ value origin]]. intros (i & -> & Hi)%indexed_inv.
  unfold join_register, items_of, offer_row, decoded. cbn [fst snd m_value m_at m_origin as_array default app lookup list_lookup].
  by destruct value; simpl; rewrite Hi.
Qed.

Lemma join_map_row kv v db :
  indexed_row stamps (map_item kv) = Some v →
  join_map stamps db v = map_row db kv.
Proof.
  intros (i & -> & Hi)%indexed_inv. unfold join_map, items_of, map_row.
  cbn [as_array default from_option id app lookup list_lookup as_text as_bytes mbind option_bind]. by rewrite Hi.
Qed.

Lemma join_add_row floor (kv : (string * bytes * OpRef) * Hlc) v db :
  indexed_row stamps (add_item kv) = Some v →
  join_add stamps floor db v = add_row floor db kv.
Proof.
  intros (i & -> & Hi)%indexed_inv. unfold join_add, items_of, add_row.
  cbn [as_array default from_option id app lookup list_lookup as_text as_bytes mbind option_bind]. by rewrite Hi.
Qed.

Lemma join_remove_row (k : string * bytes * OpRef) v db :
  opref_fits k.2 →
  indexed_row stamps (remove_item k) = Some v →
  join_remove db v = remove_row db k.
Proof.
  intros (Hs & Hd & Hq) [= <-]. unfold join_remove, items_of, remove_row.
  cbn [as_array default from_option id lookup list_lookup as_text as_bytes mbind option_bind].
  rewrite !as_16_bytes, as_u64_int by done. cbn [mbind option_bind]. by destruct k as [[f el] []].
Qed.

Lemma join_delta_row floor (kv : (string * OpRef) * (Hlc * Z)) v db :
  i64_min ≤ kv.2.2 ≤ i64_max →
  indexed_row stamps (delta_item kv) = Some v →
  join_delta stamps floor db v = delta_row floor db kv.
Proof.
  intros Hn (i & -> & Hi)%indexed_inv. unfold join_delta, items_of, delta_row, as_i64.
  cbn [as_array default from_option id app lookup list_lookup as_text as_integer mbind option_bind].
  rewrite decide_True by done. cbn [mbind option_bind]. by rewrite Hi.
Qed.

(** A value the codec reads back as its canonical form. *)
Definition reads_back (v : Value) : bool :=
  match enc v with Some b => bool_decide (dec b = canonicalize into_writer v) | None => false end.

Lemma reads_back_enc v b : reads_back v = true → enc v = Some b → back b ∧ dec b = canonicalize into_writer v.
Proof.
  unfold reads_back. intros Hr He. rewrite He in Hr. apply bool_decide_eq_true in Hr. split; [|done].
  unfold back. rewrite Hr. rewrite <-He. unfold enc, encode_canonical. cbn [ok_or result_bind].
  by rewrite (canonicalize_id _ _ (canonicalize_is_canonical _ v)).
Qed.

Definition version_fits (v : Version) : Prop :=
  Forall opref_fits (parents_list v) ∧
  match v_parents v with Some ps => reads_back (parents_value ps) = true | None => True end ∧
  reads_back (fields_value (v_fields v)) = true ∧
  match v_group v with Some (id, size) => in_u128 id ∧ in_u64 size | None => True end.

Lemma decode_parents_enc ps b :
  Forall opref_fits ps → reads_back (parents_value ps) = true → enc (parents_value ps) = Some b →
  decode_parents b = ps.
Proof.
  intros Hf Hr He. destruct (reads_back_enc _ _ Hr He) as [_ Hd]. unfold decode_parents. rewrite Hd.
  unfold parents_value. cbn [canonicalize as_array default from_option id]. clear -Hf.
  induction Hf as [|op ps (Hs & Hd & Hq) _ IH]; [done|]. cbn [fmap list_fmap map omap list_omap].
  change (canonicalize into_writer (to_value op)) with (to_value op). unfold to_value at 1.
  rewrite (from_value_array _ _ _ (o_stream op) (o_device op)) by (done || by apply id_bytes_encode).
  by rewrite IH; destruct op.
Qed.

Lemma decode_fields_enc fs b :
  reads_back (fields_value fs) = true → enc (fields_value fs) = Some b → decode_fields b = fs.
Proof.
  intros Hr He. destruct (reads_back_enc _ _ Hr He) as [_ Hd]. unfold decode_fields. rewrite Hd.
  unfold fields_value. cbn [canonicalize as_array default from_option id].
  apply set_eq. intros x. rewrite elem_of_list_to_set.
  assert (∀ l : list string, omap as_text (map (canonicalize into_writer) (Text <$> l)) = l) as ->.
  { induction l as [|y l IH]; [done|]. cbn [fmap list_fmap map omap list_omap canonicalize as_text]. by rewrite IH. }
  by rewrite elem_of_isort, elem_of_elements.
Qed.

Lemma read_version_dump r v :
  version_fits (row_version r) → dump_version stamps r = Some v → read_version stamps v = Some r.
Proof.
  intros (Hps & Hpr & Hfs & Hg). unfold dump_version. intros (i & Hi & (items & Hit & [= <-])%bind_Some)%bind_Some.
  unfold version_items in Hit. apply bind_Some in Hit as (pv & Hpv & (fb & Hfb & [= <-])%bind_Some).
  unfold read_version, items_of. cbn [as_array default from_option id lookup list_lookup].
  rewrite (stamp_at_index _ _ Hi). cbn [mbind option_bind as_text as_bool as_bytes].
  destruct r as [[at_ kind origin create parents group fields] head].
  cbn [row_version row_head v_kind v_origin v_create v_parents v_group v_fields row_at v_at parents_list] in *.
  assert (read_kind (version_kind kind) = Some kind) as -> by by destruct kind. cbn [mbind option_bind].
  assert (read_parents (Some pv) = Some parents) as ->.
  { destruct parents as [ps|]; cbn [encode_parents] in Hpv; [|by injection Hpv as <-].
    apply fmap_Some in Hpv as (b & Hb & ->). unfold read_parents. cbn [mbind option_bind as_bytes].
    by rewrite (decode_parents_enc ps b). }
  cbn [mbind option_bind].
  assert (read_group (Some (match group with Some (id, size) => Array [bytes16 id; int size] | None => Null end)) = Some group) as ->.
  { destruct group as [[id size]|]; [|done]. destruct Hg as [Hid Hsz]. unfold read_group.
    rewrite as_16_bytes by done. cbn [mbind option_bind]. by rewrite as_u64_int. }
  cbn [mbind option_bind]. by rewrite (decode_fields_enc fields fb).
Qed.
End shapes.

(** ** One entity, written out and joined *)

Lemma elem_of_order_by {A K} `{Cmp K} (key : A → K) (l : list A) x : x ∈ order_by key l ↔ x ∈ l.
Proof. unfold order_by. by rewrite merge_sort_Permutation. Qed.
Lemma order_by_Permutation {A K} `{Cmp K} (key : A → K) (l : list A) : order_by key l ≡ₚ l.
Proof. apply merge_sort_Permutation. Qed.

(** The rows a dump lists when its scope leaves none out. *)
Lemma whole_lists {K V} `{Countable K, Cmp K} (P : K * V → Prop) `{∀ x, Decision (P x)} (m : gmap K V) :
  (∀ k v, m !! k = Some v → P (k, v)) → lists (filter P (order_by fst (map_to_list m))) m.
Proof.
  intros Hall. rewrite filter_all.
  - split; [rewrite order_by_Permutation; apply NoDup_fst_map_to_list|].
    intros k v. by rewrite elem_of_order_by, elem_of_map_to_list.
  - intros [k v] Hin%elem_of_order_by%elem_of_map_to_list. by apply Hall.
Qed.

Section codec.
Context `{Ciborium, Crypto} (sc : Scope).

Definition record_row (received_at : OpRef → option Z) (r : Replica) (row : VRow) : Replica :=
  match v_group (row_version row) with
  | Some g => record_joined r g (row_at row) (received_at (op_ref (row_at row)))
  | None => r
  end.

Lemma join_version_rows received_at stamps rs vs r t joined :
  Z.of_nat (length stamps) ≤ u64_max → (∀ row, row ∈ rs → version_fits (row_version row)) →
  Forall2 (λ row v, dump_version stamps row = Some v) rs vs →
  foldm (join_version received_at stamps) (r, t, joined) vs =
  Some (foldl (record_row received_at) r rs,
        mkVTables (foldl join_row (entity_versions t) rs) (entity_frontier t),
        joined ++ ((λ row, op_ref (row_at row)) <$> rs)).
Proof.
  intros Hlen Hfit H2. revert r t joined. induction H2 as [|row v rs vs Hrow _ IH]; intros r t joined; cbn [foldm foldl].
  { by rewrite app_nil_r; destruct t. }
  assert (join_version received_at stamps (r, t, joined) v =
    Some (record_row received_at r row,
          mkVTables (join_row (entity_versions t) row) (entity_frontier t), joined ++ [op_ref (row_at row)])) as ->.
  { unfold join_version. by rewrite (read_version_dump _ Hlen row v) by (done || (apply Hfit; by left)). }
  cbn [mbind option_bind]. rewrite IH by (intros; apply Hfit; by right).
  cbn [entity_versions entity_frontier fmap list_fmap]. by rewrite <-app_assoc.
Qed.

Lemma join_frontier_rows stamps versions rows :
  Z.of_nat (length stamps) ≤ u64_max → Z.of_nat (length versions) ≤ u64_max →
  (∀ vs, vs ∈ rows → vs.1 ∈ versions ∧ vs.2 ∈ stamps) →
  ∃ ll, mapM (dump_frontier stamps versions) rows = Some ll ∧
    ∀ t, foldm (join_frontier stamps versions) t (concat ll) = Some (foldl join_reached t rows).
Proof.
  intros Hlen Hlv. induction rows as [|[op s] rows IH]; intros Hin; [by exists []|].
  destruct IH as (ll & Hll & Hf); [intros; apply Hin; by right|].
  destruct (Hin (op, s) ltac:(by left)) as [Hop Hs]. cbn [fst snd] in Hop, Hs.
  destruct (index_of_elem versions op Hop) as [v Hv], (index_of_elem stamps s Hs) as [i Hi].
  exists ([Array [int v; int i]] :: ll). split.
  - change (mapM (dump_frontier stamps versions) ((op, s) :: rows)) with
      (y ← dump_frontier stamps versions (op, s); k ← mapM (dump_frontier stamps versions) rows; mret (y :: k)).
    assert (dump_frontier stamps versions (op, s) = Some [Array [int v; int i]]) as ->
      by (unfold dump_frontier; cbn [fst snd]; by rewrite Hv, Hi).
    cbn [mbind option_bind]. by rewrite Hll.
  - intros t. cbn [concat app foldm foldl].
    destruct (index_of_lookup _ _ _ Hv) as [Hvl Hvb].
    assert (join_frontier stamps versions t (Array [int v; int i]) = Some (join_reached t (op, s))) as ->; [|apply Hf].
    unfold join_frontier, items_of. cbn [as_array default from_option id lookup list_lookup mbind option_bind].
    rewrite as_u64_int by (unfold in_u64; lia). cbn [mbind option_bind]. rewrite Hvl. cbn [mbind option_bind].
    by rewrite (stamp_at_index _ Hlen _ _ Hi).
Qed.
(** What a dump may leave out: nothing, when every row of the entity is in its
    scope. *)
Record whole (en : Entity) : Prop := {
  wh_registers f m : held_in (en_registers en) f m → written_by sc (op_ref (m_at m)) = true;
  wh_versions r : r ∈ rows (en_versions en) → written_by sc (op_ref (row_at r)) = true;
  wh_frontier op : op ∈ dom (entity_frontier (en_versions en)) → written_by sc op = true;
  wh_maps k me : map_entries (en_fields en) !! k = Some me → written_by sc (op_ref (me_at me)) = true;
  wh_adds k h : orset_adds (en_fields en) !! k = Some h → written_by sc k.2 = true;
  wh_removes k : k ∈ orset_removes (en_fields en) → removes_in sc k.2 = true;
  wh_deltas k x : counter_deltas (en_fields en) !! k = Some x → written_by sc k.2 = true;
}.

(** What a row's values must be to fit the document. *)
Record fits (m : Meta) (en : Entity) : Prop := {
  ft_stamps s : s ∈ entity_stamps sc m en → stamp_fits s;
  ft_length : Z.of_nat (length (entity_stamps sc m en)) ≤ u64_max;
  ft_patch_ms ms : mt_patch_ms m = Some ms → in_u64 ms;
  ft_versions r : r ∈ rows (en_versions en) → version_fits (row_version r);
  ft_registers f x : held_in (en_registers en) f x → member_back x;
  ft_maps k me : map_entries (en_fields en) !! k = Some me → back (me_value me);
  ft_adds k h : orset_adds (en_fields en) !! k = Some h → back k.1.2;
  ft_removes k : k ∈ orset_removes (en_fields en) → back k.1.2 ∧ opref_fits k.2;
  ft_deltas k x : counter_deltas (en_fields en) !! k = Some x → i64_min ≤ x.2 ≤ i64_max;
}.

(** The stamps of every list of rows are among the entity's. *)
Ltac in_stamps :=
  intros ? ?; unfold entity_stamps, distinct;
  rewrite elem_of_isort, elem_of_elements, elem_of_list_to_set, !elem_of_app; tauto.

(** A document's map holds each key once. *)
Lemma entry_distinct (es : list (Value * Value)) name v :
  NoDup (omap (λ kv, as_text kv.1) es) → (Text name, v) ∈ es → entry name es = Some v.
Proof.
  unfold entry. induction es as [|[k x] es IH]; intros Hnd Hin; [by apply not_elem_of_nil in Hin|].
  cbn [List.find fst]. case_bool_decide as Hk.
  - apply elem_of_cons in Hin as [[= <- <-]|Hin]; [done|]. exfalso. cbn [omap list_omap fst] in Hnd. rewrite Hk in Hnd.
    apply NoDup_cons in Hnd as [Hno _]. apply Hno, list_elem_of_omap. by exists (Text name, v).
  - apply elem_of_cons in Hin as [[= <- <-]|Hin]; [done|]. apply IH; [|done].
    cbn [omap list_omap fst] in Hnd. destruct (as_text k); [by apply NoDup_cons in Hnd as [_ ?]|done].
Qed.
Ltac find_item := rewrite !elem_of_cons; repeat first [left; reflexivity | right].

Section one_entity.
Context (m : Meta) (en : Entity).
Hypothesis Hwhole : whole en.
Hypothesis Hok : versions_ok (en_versions en).
Let stamps := entity_stamps sc m en.

Lemma version_rows_all r : r ∈ version_rows sc (en_versions en) ↔ r ∈ rows (en_versions en).
Proof.
  unfold version_rows. rewrite list_elem_of_filter, merge_sort_Permutation. split; [tauto|].
  intros Hr. split; [by apply Hwhole|done].
Qed.

Lemma frontier_rows_all op s :
  (op, s) ∈ frontier_rows sc (en_versions en) →
  ∃ f d, entity_frontier (en_versions en) !! op = Some f ∧ f !! d = Some s.
Proof.
  unfold frontier_rows. rewrite list_elem_of_filter, elem_of_order_by, list_elem_of_bind.
  intros [_ ([op' f] & Hs & Hf)]. apply elem_of_map_to_list in Hf.
  apply list_elem_of_fmap in Hs as ([d s'] & [= -> ->] & Hd). apply elem_of_map_to_list in Hd. eauto.
Qed.

Lemma length_versions : (length (version_rows sc (en_versions en)) ≤ length stamps)%nat.
Proof.
  rewrite <-(length_fmap row_at). apply submseteq_length, NoDup_submseteq; [|unfold stamps; in_stamps].
  assert (NoDup (version_rows sc (en_versions en))) as Hnd.
  { unfold version_rows. apply NoDup_filter. rewrite merge_sort_Permutation. apply rows_NoDup, Hok. }
  apply NoDup_fmap_2_strong; [|done]. intros r r' Hr%version_rows_all Hr'%version_rows_all Heq.
  by eapply rows_inj; [apply Hok|..].
Qed.

Context (k : EntityKind.t) (id : Id) (e : EntitySpec).
Hypothesis Hk : merged_spec k = Some e.
Hypothesis Hid : in_u128 id.
Hypothesis Hfits : fits m en.

(** The lists of rows of a document's entity. *)
Record reads_as (d : DocEntity) : Prop := {
  rd_kind : de_kind d = k;
  rd_id : de_id d = id;
  rd_spec : de_spec d = e;
  rd_meta : de_meta d = m;
  rd_stamps : de_stamps d = stamps;
  rd_versions : ∃ vs, list_in "versions" (de_entries d) = Some vs ∧
    Forall2 (λ row v, dump_version stamps row = Some v) (version_rows sc (en_versions en)) vs;
  rd_frontier : ∃ ll, list_in "frontier" (de_entries d) = Some (concat ll) ∧
    mapM (dump_frontier stamps ((λ r, op_ref (row_at r)) <$> version_rows sc (en_versions en)))
      (frontier_rows sc (en_versions en)) = Some ll;
  rd_lists name items :
    (name, items) ∈ [("registers"%string, register_items sc (en_registers en));
                     ("losers"%string, loser_items sc (en_registers en));
                     ("maps"%string, map_items sc (en_fields en));
                     ("adds"%string, add_items sc (en_fields en));
                     ("removes"%string, remove_items sc (en_fields en));
                     ("deltas"%string, delta_items sc (en_fields en))] →
    ∃ vs, list_in name (de_entries d) = Some vs ∧ Forall2 (λ row v, indexed_row stamps row = Some v) items vs;
}.

Lemma merged_spec_inv : e = spec k ∧ kind_of_tag (e_tag e) = Some k.
Proof.
  unfold merged_spec in Hk. destruct (bool_decide (e_merge (spec k) = Lww) && bool_decide (is_Some (storage (spec k)))) eqn:E; [|done].
  injection Hk as <-. split; [done|]. clear. by destruct k.
Qed.

Lemma dump_version_all : ∃ vs, mapM (dump_version stamps) (version_rows sc (en_versions en)) = Some vs.
Proof.
  destruct (mapM _ _) as [vs|] eqn:E; [by exists vs|]. exfalso.
  apply mapM_None, Exists_exists in E as (r & Hr & Hno).
  assert (row_at r ∈ stamps) as Hs.
  { assert (row_at r ∈ row_at <$> version_rows sc (en_versions en)) as H1 by by apply list_elem_of_fmap_2.
    revert H1. generalize (row_at r). unfold stamps. in_stamps. }
  destruct (index_of_elem _ _ Hs) as [i Hi]. unfold dump_version in Hno. rewrite Hi in Hno. cbn [mbind option_bind] in Hno.
  apply version_rows_all, (ft_versions _ _ Hfits) in Hr as (_ & Hp & Hf & _).
  unfold version_items, encode_parents, reads_back in *.
  destruct (enc (fields_value _)); [|done].
  destruct (v_parents (row_version r)); [|done]. by destruct (enc (parents_value _)).
Qed.

Lemma dump_frontier_all :
  ∃ ll, mapM (dump_frontier stamps ((λ r, op_ref (row_at r)) <$> version_rows sc (en_versions en)))
          (frontier_rows sc (en_versions en)) = Some ll ∧
    ∀ t, foldm (join_frontier stamps ((λ r, op_ref (row_at r)) <$> version_rows sc (en_versions en))) t (concat ll) =
         Some (foldl join_reached t (frontier_rows sc (en_versions en))).
Proof.
  apply join_frontier_rows; [apply Hfits| |].
  - rewrite length_fmap. pose proof length_versions as H1. pose proof (ft_length _ _ Hfits) as H2. fold stamps in H2. lia.
  - intros [op s] Hin. cbn [fst snd]. split.
    + apply frontier_rows_all in Hin as (f & d & Hf & _). destruct Hok as (Hwf & _ & _ & Hdom).
      assert (op ∈ dom (entity_versions (en_versions en))) as [r Hr]%elem_of_dom by (apply Hdom, elem_of_dom; eauto).
      apply list_elem_of_fmap. exists r. rewrite (row_op_ref _ Hwf r op Hr). split; [done|].
      apply version_rows_all, elem_of_rows. eauto.
    + apply (list_elem_of_fmap_2 snd) in Hin. cbn [snd] in Hin. revert Hin. generalize s. unfold stamps. in_stamps.
Qed.

Lemma index_meta (o : option Stamp) :
  (∀ s, s ∈ option_list o → s ∈ stamps) →
  ∃ v, match o with None => Some Null | Some s => int <$> index_of stamps s end = Some v ∧ opt_stamp_at stamps v = Some o.
Proof.
  intros Hin. destruct o as [s|].
  - destruct (index_of_elem stamps s) as [i Hi]; [apply Hin; by left|]. exists (int i). rewrite Hi. split; [done|].
    apply opt_stamp_index; [apply Hfits|]. by rewrite Hi.
  - by exists Null.
Qed.

Lemma read_entity_entries E vc vl ih :
  entry "id" E = Some (bytes16 id) → entry "kind" E = Some (Text (e_tag e)) →
  entry "stamps" E = Some (Array (stamp_value <$> stamps)) → entry "created" E = Some (Bool (mt_created m)) →
  entry "create" E = Some vc → opt_stamp_at stamps vc = Some (mt_create m) →
  entry "legacy" E = Some vl → opt_stamp_at stamps vl = Some (mt_legacy m) →
  entry "patch_ms" E = Some (match mt_patch_ms m with Some ms => int ms | None => Null end) →
  entry "head" E = Some (int ih) → index_of stamps (mt_head m) = Some ih →
  read_entity (VMap E) = Some (mkDocEntity k id e m stamps E).
Proof.
  intros Eid Ekind Estamps Ecr Ec Hrc El Hrl Ep Eh Hih. destruct merged_spec_inv as [_ Htag].
  pose proof (ft_length _ _ Hfits) as Hlen. fold stamps in Hlen.
  unfold read_entity, list_in. cbn [as_map mbind option_bind].
  rewrite Eid, Ekind, Estamps, Ecr, Ec, El, Ep, Eh.
  cbn [mbind option_bind as_text as_array as_bool]. rewrite as_16_bytes by done.
  cbn [mbind option_bind]. rewrite Htag. cbn [mbind option_bind]. rewrite Hk. cbn [mbind option_bind].
  assert (mapM read_stamp (stamp_value <$> stamps) = Some stamps) as ->.
  { apply mapM_Some. rewrite Forall2_fmap_l. apply Forall2_same_length_lookup_2; [done|].
    intros i x y Hx Hy. simplify_eq. apply read_stamp_value, (ft_stamps _ _ Hfits).
    by eapply list_elem_of_lookup_2. }
  cbn [mbind option_bind]. rewrite Hrc, Hrl. cbn [mbind option_bind].
  rewrite (stamp_at_index _ Hlen _ _ Hih).
  pose proof (ft_patch_ms _ _ Hfits) as Hpm. clear -Hpm. clearbody stamps.
  destruct m as [cr c l [ms|] h]; cbn [mt_patch_ms mt_created mt_create mt_legacy mt_head is_null int mbind option_bind fmap option_fmap option_map] in *; [|done].
  rewrite as_u64_int by by apply Hpm. done.
Qed.

Lemma dump_entity_reads :
  ∃ v d, dump_entity sc id (e_tag e) m en = Some v ∧ read_entity v = Some d ∧ reads_as d.
Proof.
  destruct merged_spec_inv as [He Htag].
  destruct dump_version_all as [vs Hvs], dump_frontier_all as (ll & Hll & _).
  destruct (index_meta (mt_create m)) as (vc & Hvc & Hrc); [unfold stamps; in_stamps|].
  destruct (index_meta (mt_legacy m)) as (vl & Hvl & Hrl); [unfold stamps; in_stamps|].
  destruct (index_of_elem stamps (mt_head m)) as [ih Hih].
  { assert (mt_head m ∈ [mt_head m]) as H1 by by left. revert H1. generalize (mt_head m) at 1 3. unfold stamps. in_stamps. }
  pose proof (ft_length _ _ Hfits) as Hlen. fold stamps in Hlen.
  destruct (indexed_ok stamps (register_items sc (en_registers en))) as (v1 & E1 & F1); [unfold stamps; in_stamps|].
  destruct (indexed_ok stamps (loser_items sc (en_registers en))) as (v2 & E2 & F2); [unfold stamps; in_stamps|].
  destruct (indexed_ok stamps (map_items sc (en_fields en))) as (v3 & E3 & F3); [unfold stamps; in_stamps|].
  destruct (indexed_ok stamps (add_items sc (en_fields en))) as (v4 & E4 & F4); [unfold stamps; in_stamps|].
  destruct (indexed_ok stamps (remove_items sc (en_fields en))) as (v5 & E5 & F5); [unfold stamps; in_stamps|].
  destruct (indexed_ok stamps (delta_items sc (en_fields en))) as (v6 & E6 & F6); [unfold stamps; in_stamps|].
  unfold dump_entity. fold stamps. rewrite Hvs, Hll, Hvc, Hvl, Hih, E1, E2, E3, E4, E5, E6. cbn [mbind option_bind fmap option_fmap option_map].
  set (E := [(Text "id", _); _; _; _; _; _; _; _; _; _; _; _; _; _; _; _]).
  assert (∀ name v, (Text name, v) ∈ E → entry name E = Some v) as Hent
    by (intros; apply entry_distinct; [apply (bool_decide_unpack _); vm_compute; exact I|done]).
  exists (VMap E), (mkDocEntity k id e m stamps E). split; [done|]. split.
  - apply (read_entity_entries E vc vl ih); try done; unfold E; apply Hent; unfold E; find_item.
  - split; cbn [de_kind de_id de_spec de_meta de_stamps de_entries]; try done.
    + exists vs. split; [|by apply mapM_Some]. unfold list_in. by rewrite (Hent "versions" (Array vs)) by (unfold E; find_item).
    + exists ll. split; [|done]. unfold list_in. by rewrite (Hent "frontier" (Array (concat ll))) by (unfold E; find_item).
    + intros name items. rewrite !elem_of_cons, elem_of_nil.
      intros [[= -> ->]|[[= -> ->]|[[= -> ->]|[[= -> ->]|[[= -> ->]|[[= -> ->]|[]]]]]]]; eexists;
        (split; [unfold list_in; erewrite Hent by (unfold E; find_item); reflexivity|done]).
Qed.
End one_entity.

(** Reading the lists of a document's entity. *)
Lemma read_rows {A B} (item : A → Item) stamps (rows : list A) vs (f : B → Value → option B) (g : B → A → option B) b :
  (∀ a v b, a ∈ rows → indexed_row stamps (item a) = Some v → f b v = g b a) →
  Forall2 (λ row v, indexed_row stamps row = Some v) (item <$> rows) vs → foldm f b vs = foldm g b rows.
Proof.
  intros Hfg H2. apply foldm_read. rewrite Forall2_fmap_l in H2.
  induction H2 as [|a v rows vs Hav _ IH]; constructor.
  - intros b'. apply Hfg; [by left|done].
  - apply IH. intros a' v' b' Ha'. apply Hfg. by right.
Qed.

Lemma record_rows_entities rat rs r :
  rp_entities (foldl (record_row rat) r rs) = rp_entities r ∧ rp_ops (foldl (record_row rat) r rs) = rp_ops r.
Proof.
  revert r. induction rs as [|row rs IH]; intros r; cbn [foldl]; [done|]. destruct (IH (record_row rat r row)) as [-> ->].
  unfold record_row. by destruct (v_group (row_version row)).
Qed.

Section union_entity.
Context (received_at : OpRef → option Z).
Context (LA LB : list Eff) (m : Meta) (enB : Entity) (k : EntityKind.t) (id : Id) (e : EntitySpec) (r : Replica) (d : DocEntity).
Let enA := default no_entity (rp_entities r !! id).
Hypothesis Hu : universe (LA ++ LB).
Hypothesis HA : entity_ok e LA enA.
Hypothesis HB : entity_ok e LB enB.
Hypothesis Hm : en_meta enB = Some m.
Hypothesis Hwhole : whole enB.
Hypothesis Hfits : fits m enB.
Hypothesis Hread : reads_as m enB k id e d.
Let stamps := entity_stamps sc m enB.
Let rs := version_rows sc (en_versions enB).
Let F := floor_of (LA ++ LB).

Lemma okB : versions_ok (en_versions enB).
Proof. apply HB. Qed.

Lemma version_rows_nonempty : rs ≠ [].
Proof.
  destruct HB as (HmB & Hok & Hvs & _). rewrite Hm in HmB. symmetry in HmB. unfold meta_of in HmB.
  destruct (greatest (at_of <$> LB)) as [h|] eqn:Eh; [|done].
  apply greatest_spec in Eh as [Hh _]. apply list_elem_of_fmap in Hh as (a & -> & Ha).
  assert (applied (versions_of (en_versions enB)) (at_of a)) as Happ.
  { rewrite Hvs. apply applied_ops; [by eapply universe_r|eauto]. }
  apply rows_applied in Happ as (row & Hrow & _); [|apply Hok]. intros Hnil.
  apply (version_rows_all enB Hwhole) in Hrow. fold rs in Hrow. rewrite Hnil in Hrow. by apply not_elem_of_nil in Hrow.
Qed.

Definition joined_tables : VTables :=
  recompute (foldl join_reached (mkVTables (foldl join_row (entity_versions (en_versions enA)) rs)
                                   (entity_frontier (en_versions enA))) (frontier_rows sc (en_versions enB))).

Lemma joined_tables_ok : versions_ok joined_tables ∧ versions_of joined_tables = history (ef_version <$> (LA ++ LB)).
Proof.
  destruct HA as (_ & HokA & HvsA & _), HB as (_ & HokB & HvsB & _).
  rewrite fmap_app, history_app, <-HvsA, <-HvsB. apply join_tables_ok; try done.
  - intros op v w Hv Hw. rewrite HvsA in Hv. rewrite HvsB in Hw. unfold history in Hv, Hw.
    apply elem_of_list_to_map_2, list_elem_of_fmap in Hv as (v' & [-> <-]%pair_equal_spec & Hv).
    apply elem_of_list_to_map_2, list_elem_of_fmap in Hw as (w' & [Hop <-]%pair_equal_spec & Hw).
    apply (universe_one _ Hu); [..|done]; rewrite fmap_app, elem_of_app; [by left|by right].
  - apply version_rows_all; done.
  - apply frontier_rows_all.
Qed.

Lemma join_versions_rows :
  ∃ vs fs, list_in "versions" (de_entries d) = Some vs ∧ list_in "frontier" (de_entries d) = Some fs ∧
    join_versions received_at r (en_versions enA) (de_stamps d) vs fs =
    Some (foldl (record_row received_at) r rs, joined_tables, true).
Proof.
  destruct (rd_versions _ _ _ _ _ _ Hread) as (vs & Hvs & H2).
  destruct (rd_frontier _ _ _ _ _ _ Hread) as (ll & Hll & Hmap).
  exists vs, (concat ll). split; [done|]. split; [done|].
  rewrite (rd_stamps _ _ _ _ _ _ Hread). unfold join_versions.
  rewrite (join_version_rows _ _ rs); [|apply Hfits| |done].
  2: { intros row Hrow. apply (ft_versions _ _ Hfits), (version_rows_all enB Hwhole), Hrow. }
  cbn [mbind option_bind app].
  destruct (dump_frontier_all m enB Hwhole okB Hfits) as (ll' & Hll' & Hf).
  assert (ll' = ll) as -> by congruence. fold rs stamps in Hf. rewrite Hf. cbn [mbind option_bind].
  pose proof version_rows_nonempty as Hne. unfold joined_tables. by destruct rs.
Qed.

Lemma join_registers_rows :
  ∃ v1 v2 regs, list_in "registers" (de_entries d) = Some v1 ∧ list_in "losers" (de_entries d) = Some v2 ∧
    foldm (join_register joined_tables (de_stamps d))
      (raised LA LB (refilter joined_tables (load (en_registers enA) (floor_of LA)))) (v1 ++ v2) = Some regs ∧
    stored e joined_tables (all_writes (LA ++ LB)) F (flush e regs (en_registers enA)).
Proof.
  destruct (rd_lists _ _ _ _ _ _ Hread "registers" (register_items sc (en_registers enB)) ltac:(find_item)) as (v1 & H1 & F1).
  destruct (rd_lists _ _ _ _ _ _ Hread "losers" (loser_items sc (en_registers enB)) ltac:(find_item)) as (v2 & H2 & F2).
  destruct joined_tables_ok as [Hok Hvs].
  assert (∀ f x, (f, x) ∈ register_rows sc (en_registers enB) ++ loser_rows sc (en_registers enB) ↔
                 held_in (en_registers enB) f x) as Hrows.
  { intros f x. unfold register_rows, loser_rows. rewrite elem_of_app, !list_elem_of_filter, !elem_of_order_by.
    rewrite elem_of_map_to_list, list_elem_of_fmap.
    assert ((∃ y : (string * OpRef) * Loser, (f, x) = (y.1.1, lo_member y.2) ∧ y ∈ map_to_list (register_losers (en_registers enB))) ↔
      ∃ op lo, register_losers (en_registers enB) !! (f, op) = Some lo ∧ lo_member lo = x) as ->.
    { split.
      - intros ([[f' op] lo] & [= -> ->] & Hin%elem_of_map_to_list). eauto.
      - intros (op & lo & Hlo & <-). exists ((f, op), lo). split; [done|]. by apply elem_of_map_to_list. }
    pose proof (wh_registers enB Hwhole f x) as Hw. unfold held_in in *. cbn [snd]. tauto. }
  destruct (join_registers_ok e LA LB Hu enA enB joined_tables _ HA HB Hok Hvs Hrows) as (regs & Hregs & Hst).
  { intros f x Hx%Hrows. by apply (ft_registers _ _ Hfits f). }
  exists v1, v2, regs. split; [done|]. split; [done|]. split; [|done]. rewrite <-Hregs.
  rewrite (rd_stamps _ _ _ _ _ _ Hread). fold stamps.
  apply (read_rows register_item stamps).
  - intros fm v b _ Hv. apply join_register_row; [apply Hfits|done].
  - rewrite fmap_app. by apply Forall2_app.
Qed.

Lemma meta_legacy : mt_legacy m = floor_of LB ∧ en_meta enA ≫= mt_legacy = floor_of LA.
Proof.
  destruct HA as (HmA & _), HB as (HmB & _). rewrite HmA. rewrite Hm in HmB. unfold meta_of in *. split.
  - by destruct (greatest (at_of <$> LB)); [injection HmB as ->|].
  - destruct (greatest (at_of <$> LA)) eqn:E; [done|]. apply greatest_None, fmap_nil_inv in E. by subst.
Qed.

Lemma joined_legacy : mt_legacy (join_meta (en_meta enA) m) = F.
Proof.
  destruct HA as (HmA & _), HB as (HmB & _). rewrite Hm in HmB. symmetry in HmB.
  destruct (join_meta_union LA LB Hu m HmB) as [Hj [mu Hmu]]. rewrite HmA, Hj, Hmu. change (default m (Some mu)) with mu.
  unfold meta_of in Hmu. destruct (greatest _); [|done]. by injection Hmu as <-.
Qed.

Definition pruned (db : FieldTables) : FieldTables :=
  match F with Some l => if raises (floor_of LA) F then prune_tables db l else db | None => db end.

Lemma pruned_ok : fields_ok LA F (pruned (en_fields enA)).
Proof.
  destruct HA as (_ & _ & _ & _ & Hf). unfold pruned. destruct (raises (floor_of LA) F) eqn:E.
  - destruct (raises_true LA LB E) as (l & HF & Hlt). fold F in HF. rewrite HF. by eapply (prune_ok _ (floor_of LA)).
  - apply raises_false in E. fold F in E. rewrite E. by destruct (floor_of LA).
Qed.

Lemma join_fields_rows :
  ∃ v3 v4 v5 v6 db1 db2 db3 db4,
    list_in "maps" (de_entries d) = Some v3 ∧ list_in "adds" (de_entries d) = Some v4 ∧
    list_in "removes" (de_entries d) = Some v5 ∧ list_in "deltas" (de_entries d) = Some v6 ∧
    foldm (join_map (de_stamps d)) (pruned (en_fields enA)) v3 = Some db1 ∧
    foldm (join_add (de_stamps d) F) db1 v4 = Some db2 ∧ foldm join_remove db2 v5 = Some db3 ∧
    foldm (join_delta (de_stamps d) F) db3 v6 = Some db4 ∧ fields_ok (LA ++ LB) F db4.
Proof.
  destruct (rd_lists _ _ _ _ _ _ Hread "maps" (map_items sc (en_fields enB)) ltac:(find_item)) as (v3 & H3 & F3).
  destruct (rd_lists _ _ _ _ _ _ Hread "adds" (add_items sc (en_fields enB)) ltac:(find_item)) as (v4 & H4 & F4).
  destruct (rd_lists _ _ _ _ _ _ Hread "removes" (remove_items sc (en_fields enB)) ltac:(find_item)) as (v5 & H5 & F5).
  destruct (rd_lists _ _ _ _ _ _ Hread "deltas" (delta_items sc (en_fields enB)) ltac:(find_item)) as (v6 & H6 & F6).
  assert (lists (map_rows sc (en_fields enB)) (map_entries (en_fields enB))) as L3
    by (apply whole_lists; intros key v Hv; by apply Hwhole in Hv).
  assert (lists (add_rows sc (en_fields enB)) (orset_adds (en_fields enB))) as L4
    by (apply whole_lists; intros key v Hv; by apply Hwhole in Hv).
  assert (lists (delta_rows sc (en_fields enB)) (counter_deltas (en_fields enB))) as L6
    by (apply whole_lists; intros key v Hv; by apply Hwhole in Hv).
  assert (∀ key, key ∈ remove_rows sc (en_fields enB) ↔ key ∈ orset_removes (en_fields enB)) as L5.
  { intros key. unfold remove_rows. rewrite list_elem_of_filter, elem_of_order_by, elem_of_elements. split; [tauto|].
    intros Hin. split; [by apply Hwhole|done]. }
  destruct HB as (_ & _ & _ & _ & HfB).
  destruct (fields_union LA LB Hu (pruned (en_fields enA)) (en_fields enB) (map_rows sc (en_fields enB))
    (add_rows sc (en_fields enB)) (remove_rows sc (en_fields enB)) (delta_rows sc (en_fields enB)))
    as (db1 & db2 & db3 & db4 & J1 & J2 & J3 & J4 & Hok); try done.
  { apply pruned_ok. }
  { intros [key me] Hin. by apply L3, (ft_maps _ _ Hfits) in Hin. }
  { intros [key h] Hin. by apply L4, (ft_adds _ _ Hfits) in Hin. }
  { intros key Hin. by apply L5, (ft_removes _ _ Hfits) in Hin as [? _]. }
  exists v3, v4, v5, v6, db1, db2, db3, db4. rewrite (rd_stamps _ _ _ _ _ _ Hread). fold stamps.
  pose proof (ft_length _ _ Hfits) as Hlen. fold stamps in Hlen. split_and!; try done.
  - rewrite <-J1. apply (read_rows map_item stamps); [|done]. intros a v b _. by apply join_map_row.
  - rewrite <-J2. apply (read_rows add_item stamps); [|done]. intros a v b _. by apply join_add_row.
  - rewrite <-J3. apply (read_rows remove_item stamps); [|done]. intros a v b Ha.
    apply join_remove_row. by apply L5, (ft_removes _ _ Hfits) in Ha as [_ ?].
  - rewrite <-J4. apply (read_rows delta_item stamps); [|done]. intros [key x] v b Ha.
    apply join_delta_row; [done|]. by apply L6, (ft_deltas _ _ Hfits) in Ha.
Qed.

Lemma join_entity_union :
  ∃ en, join_entity received_at true r d =
    Some (mkReplica (<[id := en]> (rp_entities r)) (rp_pending (foldl (record_row received_at) r rs)) (rp_ops r)) ∧
    entity_ok e (LA ++ LB) en.
Proof.
  destruct join_versions_rows as (vs & fs & Hvs & Hfs & Hjoin).
  destruct join_registers_rows as (v1 & v2 & regs & H1 & H2 & Hregs & Hst).
  destruct join_fields_rows as (v3 & v4 & v5 & v6 & db1 & db2 & db3 & db4 & H3 & H4 & H5 & H6 & J1 & J2 & J3 & J4 & Hf).
  destruct meta_legacy as [_ HlA]. pose proof joined_legacy as HF. destruct joined_tables_ok as [Hok Hhist].
  exists (mkEntity (Some (join_meta (en_meta enA) m)) joined_tables (flush e regs (en_registers enA)) db4). split.
  - unfold join_entity. rewrite (rd_id _ _ _ _ _ _ Hread). fold enA.
    rewrite Hvs, Hfs. cbn [mbind option_bind]. rewrite Hjoin. cbn [mbind option_bind].
    rewrite (rd_meta _ _ _ _ _ _ Hread), HlA, HF, H1, H2.
    assert ((match F with
             | Some floor =>
                 if match floor_of LA with None => true | Some b => bool_decide (b ≺ floor) end
                 then prune_below_floor (en_fields enA) floor
                        (refilter joined_tables (load (en_registers enA) (floor_of LA)))
                 else (en_fields enA, refilter joined_tables (load (en_registers enA) (floor_of LA)))
             | None => (en_fields enA, refilter joined_tables (load (en_registers enA) (floor_of LA)))
             end) = (pruned (en_fields enA), raised LA LB (refilter joined_tables (load (en_registers enA) (floor_of LA)))))
      as ->.
    { unfold pruned, raised, raises. fold F. by destruct F; [case_match|]. }
    cbn [mbind option_bind]. rewrite Hregs. cbn [mbind option_bind].
    rewrite H3, H4, H5, H6. cbn [mbind option_bind]. rewrite J1. cbn [mbind option_bind]. rewrite J2. cbn [mbind option_bind].
    rewrite J3. cbn [mbind option_bind]. rewrite J4. cbn [mbind option_bind].
    rewrite (rd_spec _ _ _ _ _ _ Hread).
    by destruct (record_rows_entities received_at rs r) as [-> ->].
  - destruct HB as (HmB & _). rewrite Hm in HmB. symmetry in HmB.
    destruct (join_meta_union LA LB Hu m HmB) as [Hj [mu Hmu]]. destruct HA as (HmA & _).
    split_and!; cbn [en_meta en_versions en_registers en_fields]; try done.
    by rewrite HmA, Hj, Hmu.
Qed.
End union_entity.
End codec.

(** ** What the ops must be for their rows to fit *)

Section ops_fit.
Context `{Ciborium} (e : EntitySpec).

Definition write_in_stream (s : Id) (w : Write) : Prop :=
  match w with WRemove _ _ tag => o_stream tag = s | _ => True end.
Definition eff_in_stream (s : Id) (a : Eff) : Prop :=
  s_stream (at_of a) = s ∧ Forall (write_in_stream s) (ef_writes a).

Definition write_fits (w : Write) : Prop :=
  match w with
  | WReg _ None => True
  | WReg _ (Some v) | WAdd _ v | WEntry _ _ v => reads_back v = true
  | WRemove _ v tag => reads_back v = true ∧ opref_fits tag
  | WInc _ n => i64_min ≤ n ≤ i64_max
  end.
Definition eff_fits (a : Eff) : Prop :=
  stamp_fits (at_of a) ∧ version_fits (ef_version a) ∧ Forall write_fits (ef_writes a).

Section tables.
Context (L : list Eff) (en : Entity) (m : Meta).
Hypothesis Hu : universe L.
Hypothesis Hen : entity_ok e L en.

Lemma held_is_write f x : held_in (en_registers en) f x → ∃ a, a ∈ L ∧ write_of a f = Some x.
Proof.
  intros Hx. destruct Hen as (_ & _ & Hvs & Hst & _). apply (held_in_load _ (floor_of L)) in Hx.
  apply (load_ok e _ _ _ _ (all_writes_ok _ _ Hu Hvs) Hst) in Hx as [Hx%cands_sub _]. by apply elem_of_all_writes.
Qed.

Lemma row_is_op r : r ∈ rows (en_versions en) → ∃ a, a ∈ L ∧ row_version r = ef_version a.
Proof.
  intros [op Hr]%elem_of_rows. destruct Hen as (_ & _ & Hvs & _).
  assert (versions_of (en_versions en) !! op = Some (row_version r)) as Hv by by rewrite lookup_versions_of, Hr.
  rewrite Hvs in Hv. unfold history in Hv.
  apply elem_of_list_to_map_2, list_elem_of_fmap in Hv as (v & [_ ->]%pair_equal_spec & Hv).
  apply list_elem_of_fmap in Hv as (a & -> & Ha). eauto.
Qed.

Lemma frontier_row op f d s :
  entity_frontier (en_versions en) !! op = Some f → f !! d = Some s →
  (∃ a, a ∈ L ∧ op = op_ref (at_of a)) ∧ ∃ a, a ∈ L ∧ s = at_of a.
Proof.
  intros Hf Hd. destruct Hen as (_ & (Hwf & Hex & _ & Hdom) & Hvs & _).
  assert (op ∈ dom (entity_versions (en_versions en))) as [r Hr]%elem_of_dom by (apply Hdom, elem_of_dom; eauto).
  assert (r ∈ rows (en_versions en)) as Hrow by (apply elem_of_rows; eauto).
  assert (versions_of (en_versions en) !! op = Some (row_version r)) as Hv by by rewrite lookup_versions_of, Hr.
  destruct (row_is_op r Hrow) as (a & Ha & Hva). split.
  - exists a. split; [done|]. rewrite <-(row_op_ref _ Hwf r op Hr). unfold row_at, at_of. by rewrite Hva.
  - destruct (Hex op _ Hv) as [Hsound _]. unfold frontier_of in Hsound. rewrite Hf in Hsound.
    destruct (Hsound d s Hd) as [_ Hreach].
    apply reaches_applied in Hreach; [|by eapply row_applied]. rewrite Hvs in Hreach.
    apply applied_ops in Hreach as (b & Hb & <-); [|done]. eauto.
Qed.

Lemma map_row_is_op f k me :
  map_entries (en_fields en) !! (f, k) = Some me →
  ∃ a v, a ∈ L ∧ WEntry f k v ∈ ef_writes a ∧ enc v = Some (me_value me) ∧ me_at me = at_of a.
Proof.
  intros Hk. destruct Hen as (_ & _ & _ & _ & (HM & _)). specialize (HM f k). rewrite Hk in HM.
  destruct HM as (a & v & Ha & Hl & He & Hat & _). exists a, v. split_and!; try done.
  unfold last_entry in Hl. apply last_Some_elem_of, list_elem_of_omap in Hl as (w & Hw & Hew).
  destruct w; simpl in Hew; try done. case_decide as Hfk; [|done]. destruct Hfk as [-> ->]. by injection Hew as ->.
Qed.

Lemma entity_whole s : (∀ a, a ∈ L → eff_in_stream s a) → whole (ScopeStream s) en.
Proof.
  intros Hs. pose proof Hen as (_ & _ & _ & _ & (_ & HA & HR & HD)).
  split; intros; cbn [written_by removes_in]; apply bool_decide_eq_true.
  - destruct (held_is_write f m0 H0) as (a & Ha & Hw). rewrite (write_of_at _ _ _ Hw). by apply Hs.
  - destruct (row_is_op r H0) as (a & Ha & Hv). unfold row_at. rewrite Hv. by apply (Hs a).
  - apply elem_of_dom in H0 as [f Hf]. destruct Hen as (_ & (Hwf & Hex & _ & Hdom) & _).
    assert (op ∈ dom (entity_versions (en_versions en))) as [r Hr]%elem_of_dom by (apply Hdom, elem_of_dom; eauto).
    rewrite <-(row_op_ref _ Hwf r op Hr). destruct (row_is_op r) as (a & Ha & Hv); [apply elem_of_rows; eauto|].
    unfold row_at. rewrite Hv. by apply (Hs a).
  - destruct k as [f k]. apply map_row_is_op in H0 as (a & v & Ha & _ & _ & ->). by apply (Hs a).
  - destruct k as [[f el] tag]. apply HA in H0 as (a & Ha & _ & -> & _). by apply (Hs a).
  - destruct k as [[f el] tag]. apply HR in H0 as (a & Ha & v & Hw & _).
    destruct (Hs a Ha) as [_ Hws]. rewrite Forall_forall in Hws. apply (Hws _ Hw).
  - destruct k as [f op]. apply HD in H0 as (a & n & Ha & _ & -> & _). by apply (Hs a).
Qed.

Hypothesis Hm : en_meta en = Some m.

Lemma meta_stamps s :
  s ∈ option_list (mt_create m) ++ option_list (mt_legacy m) ++ [mt_head m] → ∃ a, a ∈ L ∧ s = at_of a.
Proof.
  destruct Hen as (HmL & _). rewrite Hm in HmL. symmetry in HmL. unfold meta_of in HmL.
  destruct (greatest (at_of <$> L)) as [h|] eqn:Eh; [|done]. injection HmL as <-. cbn [mt_create mt_legacy mt_head].
  rewrite !elem_of_app, !option_list_elem, list_elem_of_singleton.
  assert (∀ (P : Eff → Prop) `{∀ a, Decision (P a)}, s ∈ at_of <$> filter P L → ∃ a, a ∈ L ∧ s = at_of a) as Hof.
  { intros P ? (a & -> & [_ Ha]%list_elem_of_filter)%list_elem_of_fmap. eauto. }
  intros [Hs|[Hs|Hs]].
  - apply least_spec in Hs as [Hs _]. by eapply Hof.
  - apply greatest_spec in Hs as [Hs _]. by eapply Hof.
  - subst. apply greatest_spec in Eh as [Hs _]. apply list_elem_of_fmap in Hs as (a & ? & ?). eauto.
Qed.

Lemma stamps_are_ops sc s : s ∈ entity_stamps sc m en → ∃ a, a ∈ L ∧ s = at_of a.
Proof.
  unfold entity_stamps, distinct. rewrite elem_of_isort, elem_of_elements, elem_of_list_to_set, !elem_of_app.
  assert (∀ A (f : A → Item) (rows : list A), s ∈ item_stamps (f <$> rows) → ∃ x, x ∈ rows ∧ (f x).2 = Some s) as Hit.
  { intros A f rows (it & Hin & Hs)%list_elem_of_omap. apply list_elem_of_fmap in Hin as (x & -> & Hx). eauto. }
  pose proof Hen as (_ & _ & _ & _ & (_ & HA & _ & HD)).
  intros [Hs|[Hs|[Hs|[Hs|[Hs|[Hs|[Hs|[Hs|Hs]]]]]]]].
  - apply Hit in Hs as ([f x] & Hx & [= <-]). apply list_elem_of_filter in Hx as [_ Hx%elem_of_order_by%elem_of_map_to_list].
    destruct (held_is_write f x) as (a & Ha & Hw); [by left|]. exists a. split; [done|]. by apply write_of_at in Hw.
  - apply Hit in Hs as ([f x] & Hx & [= <-]). apply list_elem_of_filter in Hx as [_ Hx%elem_of_order_by].
    apply list_elem_of_fmap in Hx as ([[g op] lo] & [= -> ->] & Hlo%elem_of_map_to_list).
    destruct (held_is_write g (lo_member lo)) as (a & Ha & Hw); [right; eauto|]. exists a. split; [done|]. by apply write_of_at in Hw.
  - apply Hit in Hs as ([[f k] me] & Hx & [= <-]). apply list_elem_of_filter in Hx as [_ Hx%elem_of_order_by%elem_of_map_to_list].
    apply map_row_is_op in Hx as (a & v & Ha & _ & _ & Hat). eauto.
  - apply Hit in Hs as ([[[f el] tag] h] & Hx & [= <-]). apply list_elem_of_filter in Hx as [_ Hx%elem_of_order_by%elem_of_map_to_list].
    apply HA in Hx as (a & Ha & _ & -> & -> & _). exists a. split; [done|]. cbn [fst snd]. apply row_stamp_at.
  - by apply Hit in Hs as (x & _ & Hs).
  - apply Hit in Hs as ([[f op] x] & Hx & [= <-]). apply list_elem_of_filter in Hx as [_ Hx%elem_of_order_by%elem_of_map_to_list].
    apply HD in Hx as (a & n & Ha & _ & -> & -> & _). exists a. split; [done|]. cbn [fst snd]. apply row_stamp_at.
  - apply list_elem_of_fmap in Hs as (r & -> & [_ Hr]%list_elem_of_filter). rewrite merge_sort_Permutation in Hr.
    apply row_is_op in Hr as (a & Ha & Hv). exists a. split; [done|]. unfold row_at. by rewrite Hv.
  - apply list_elem_of_fmap in Hs as ([op x] & -> & Hx). apply frontier_rows_all in Hx as (f & d & Hf & Hd).
    by destruct (frontier_row op f d x Hf Hd) as [_ ?].
  - apply meta_stamps. by rewrite !elem_of_app.
Qed.

Lemma entity_fits sc :
  (∀ a, a ∈ L → eff_fits a) → Z.of_nat (length L) ≤ u64_max → fits sc m en.
Proof.
  intros Hfit Hlen. pose proof Hen as (HmL & _ & _ & _ & (_ & HA & HR & HD)).
  assert (∀ a w, a ∈ L → w ∈ ef_writes a → write_fits w) as Hw.
  { intros a w Ha. destruct (Hfit a Ha) as (_ & _ & Hws). rewrite Forall_forall in Hws. apply Hws. }
  split.
  - intros s (a & Ha & ->)%stamps_are_ops. by apply Hfit.
  - transitivity (Z.of_nat (length L)); [|done]. apply inj_le. rewrite <-(length_fmap at_of L).
    apply submseteq_length, NoDup_submseteq.
    + unfold entity_stamps, distinct. rewrite isort_Permutation. apply NoDup_elements.
    + intros s (a & Ha & ->)%stamps_are_ops. by apply list_elem_of_fmap_2.
  - intros ms Hms. rewrite Hm in HmL. symmetry in HmL. unfold meta_of in HmL.
    destruct (greatest (at_of <$> L)); [|done]. injection HmL as <-. cbn [mt_patch_ms] in Hms.
    apply max_ms_spec in Hms as [Hms _]. apply list_elem_of_fmap in Hms as (a & -> & [_ Ha]%list_elem_of_filter).
    by destruct (Hfit a Ha) as [[? _] _].
  - intros r (a & Ha & ->)%row_is_op. by apply Hfit.
  - intros f x (a & Ha & Hx)%held_is_write. unfold write_of, written in Hx.
    apply fmap_Some in Hx as (o & Ho & ->). unfold member_back. cbn [m_value].
    destruct o as [v|]; cbn [mbind option_bind]; [|done]. destruct (enc v) as [b|] eqn:Eb; [|done].
    unfold first_reg in Ho. apply head_Some_elem_of, list_elem_of_omap in Ho as (w & Hin & Hr).
    destruct w; simpl in Hr; try done. case_decide; [|done]. injection Hr as ->.
    by destruct (reads_back_enc v b (Hw a _ Ha Hin) Eb).
  - intros [f k] me (a & v & Ha & Hin & He & _)%map_row_is_op. by destruct (reads_back_enc v _ (Hw a _ Ha Hin) He).
  - intros [[f el] tag] h (a & Ha & (v & Hin & He) & _)%HA. by destruct (reads_back_enc v _ (Hw a _ Ha Hin) He).
  - intros [[f el] tag] (a & Ha & v & Hin & He)%HR. destruct (Hw a _ Ha Hin) as [Hb Ht].
    split; [by destruct (reads_back_enc v _ Hb He)|done].
  - intros [f op] x (a & n & Ha & Hn & _ & -> & _)%HD. unfold first_inc in Hn.
    apply head_Some_elem_of, list_elem_of_omap in Hn as (w & Hin & Hi).
    destruct w; simpl in Hi; try done. case_decide; [|done]. injection Hi as ->. apply (Hw a _ Ha Hin).
Qed.
End tables.
End ops_fit.

(** ** A whole vault *)

Lemma merged_spec_spec k e : merged_spec k = Some e → e = spec k ∧ kind_of_tag (e_tag e) = Some k.
Proof. intros Hk. by apply merged_spec_inv. Qed.

Section vault.
Context `{Ciborium} (value_fits : EntityKind.t → string → Value → bool).
Context `{Crypto} (received_at : OpRef → option Z).
(** The kind of an entity is part of its reference. *)
Context (kd : Id → EntityKind.t).

Definition entity_of (va : Vault) (id : Id) : Entity := default no_entity (rp_entities (va_replica va) !! id).

(** [va] holds what folding the ops [l] of each entity leaves. *)
Definition vault_holds (l : Id → list DOp) (va : Vault) : Prop :=
  ∀ id, merge_all value_fits (spec (kd id)) no_entity (l id) = Some (entity_of va id) ∧
        va_kinds va !! id = (λ _, e_tag (spec (kd id))) <$> en_meta (entity_of va id).

Definition member_fits (m : Group * Stamp) : Prop := in_u128 m.1.1 ∧ in_u64 m.1.2 ∧ stamp_fits m.2.

(** The pending rows fit the document. *)
Definition pending_fits (va : Vault) : Prop :=
  ∀ g op row, rp_pending (va_replica va) !! (g, op) = Some row → member_fits (g, pr_at row).

Lemma read_member_of a b c g size at_ :
  as_16 a = Some g → as_u64 b = Some size → read_stamp c = Some at_ → read_member (Array [a; b; c]) = Some ((g, size), at_).
Proof. intros Ha Hb Hc. unfold read_member. cbn [as_array mbind option_bind]. by rewrite Ha, Hb, Hc. Qed.

Lemma read_member_dump m : member_fits m → read_member (Array [bytes16 m.1.1; int m.1.2; stamp_value m.2]) = Some m.
Proof.
  destruct m as [[g size] at_]. intros (Hg & Hsz & Hat). cbn [fst snd] in *.
  apply read_member_of; [by apply as_16_bytes|by apply as_u64_int|by apply read_stamp_value].
Qed.

Lemma pruned_members_fit va s m : pending_fits va → m ∈ pruned_members (va_replica va) s → member_fits m.
Proof.
  intros Hp. unfold pruned_members. rewrite elem_of_order_by, list_elem_of_omap.
  intros ([[g op] row] & Hin%elem_of_map_to_list & Hm). cbn [fst snd] in Hm.
  destruct (_ && _); [|done]. injection Hm as <-. by eapply Hp.
Qed.

Lemma record_members_entities (ms : list (Group * Stamp)) r :
  rp_entities (foldl (λ r m, record_joined r m.1 m.2 (received_at (op_ref m.2))) r ms) = rp_entities r.
Proof. revert r. induction ms as [|m ms IH]; intros r; cbn [foldl]; [done|]. by rewrite IH. Qed.

Section two_vaults.
Context (s : Id) (la lb : Id → list DOp) (vb : Vault).
Let ef (id : Id) : list DOp → list Eff := effs value_fits (spec (kd id)).
Hypothesis Hb : vault_holds lb vb.
Hypothesis Hdel : ∀ id, deliverable value_fits (spec (kd id)) (la id ++ lb id).
Hypothesis Hfit : ∀ id a, a ∈ ef id (lb id) → eff_in_stream s a ∧ eff_fits a.
Hypothesis Hids : ∀ id, lb id ≠ [] → in_u128 id ∧ is_Some (merged_spec (kd id)) ∧ Z.of_nat (length (lb id)) ≤ u64_max.

Lemma effs_app id l1 l2 : ef id (l1 ++ l2) = ef id l1 ++ ef id l2.
Proof. apply omap_app. Qed.

Lemma deliverable_part id l : (∀ d, d ∈ l → d ∈ la id ++ lb id) → deliverable value_fits (spec (kd id)) l.
Proof. intros Hsub. destruct (Hdel id) as [H1 H2]. split; [intros c d Hc Hd; apply H1; auto|intros d a Hd; apply H2; auto]. Qed.

Lemma union_universe id : universe (ef id (la id) ++ ef id (lb id)).
Proof. rewrite <-effs_app. by apply deliverable_universe. Qed.

Lemma b_ok id : entity_ok (spec (kd id)) (ef id (lb id)) (entity_of vb id).
Proof.
  apply merge_all_entity_ok; [|apply Hb]. apply deliverable_part. intros d Hd. apply elem_of_app. by right.
Qed.

Lemma b_meta id : is_Some (en_meta (entity_of vb id)) ↔ ef id (lb id) ≠ [].
Proof.
  destruct (b_ok id) as (-> & _). unfold meta_of. destruct (greatest _) eqn:E.
  - split; [|by eauto]. intros _ Hnil. unfold ef in *. rewrite Hnil in E. done.
  - apply greatest_None, fmap_nil_inv in E. fold ef in E. rewrite E. split; [by intros []|done].
Qed.

(** An entity with bookkeeping is written out, and read back as its rows. *)
Lemma b_dump id m :
  en_meta (entity_of vb id) = Some m →
  ∃ v d e, dump_row (ScopeStream s) vb (id, entity_of vb id) = Some [v] ∧ read_entity v = Some d ∧
    e = spec (kd id) ∧ reads_as (ScopeStream s) m (entity_of vb id) (kd id) id e d ∧
    whole (ScopeStream s) (entity_of vb id) ∧ fits (ScopeStream s) m (entity_of vb id).
Proof.
  intros Hm. assert (ef id (lb id) ≠ []) as Hne by (apply b_meta; by eexists).
  assert (lb id ≠ []) as Hlb by (intros Hnil; apply Hne; unfold ef; by rewrite Hnil).
  destruct (Hids id Hlb) as (Hid & [e He] & Hlen). destruct (merged_spec_spec _ _ He) as [-> _].
  assert (universe (ef id (lb id))) as Hu by (eapply universe_r, union_universe).
  pose proof (b_ok id) as Hok.
  assert (whole (ScopeStream s) (entity_of vb id)) as Hwh
    by (eapply entity_whole; [exact Hu|exact Hok|intros a Ha; by destruct (Hfit id a Ha)]).
  assert (fits (ScopeStream s) m (entity_of vb id)) as Hft.
  { eapply entity_fits; [exact Hu|exact Hok|done|intros a Ha; by destruct (Hfit id a Ha)|].
    transitivity (Z.of_nat (length (lb id))); [|done]. apply inj_le. unfold ef, effs. generalize (lb id) as l. clear.
    induction l as [|d l IH]; [done|]. cbn [omap list_omap]. destruct (eff _ _ d); cbn [length] in *; lia. }
  destruct (dump_entity_reads (ScopeStream s) m (entity_of vb id) Hwh ltac:(apply Hok) (kd id) id _ He Hid Hft)
    as (v & d & Hv & Hd & Hr).
  exists v, d, (spec (kd id)). split; [|done]. unfold dump_row. cbn [fst snd].
  assert (entity_in_scope (ScopeStream s) (entity_of vb id) = true) as ->.
  { unfold entity_in_scope. rewrite Hm. apply orb_true_iff. right. unfold bookkeeping. apply existsb_exists.
    exists (mt_head m). split; [apply list_elem_of_In; rewrite !elem_of_app; right; right; by left|].
    cbn [written_by]. apply bool_decide_eq_true.
    destruct (meta_stamps (spec (kd id)) (ef id (lb id)) (entity_of vb id) m Hok Hm (mt_head m)) as (a & Ha & ->).
    { rewrite !elem_of_app. right. right. by left. }
    by destruct (Hfit id a Ha) as [[? _] _]. }
  destruct (Hb id) as [_ ->]. rewrite Hm. cbn [fmap option_fmap option_map]. by rewrite Hv.
Qed.

(** What a document's entity stands for. *)
Definition stands_for (id : Id) (d : DocEntity) : Prop :=
  ∃ m, en_meta (entity_of vb id) = Some m ∧
     reads_as (ScopeStream s) m (entity_of vb id) (kd id) id (spec (kd id)) d ∧
     whole (ScopeStream s) (entity_of vb id) ∧ fits (ScopeStream s) m (entity_of vb id).

Definition kind_ok (va : Vault) (id : Id) : Prop :=
  va_kinds va !! id = (λ _, e_tag (spec (kd id))) <$> en_meta (entity_of va id).

(** Joining the documents of some entities, one after another. *)
Lemma join_all ids ds va :
  NoDup ids → Forall2 stands_for ids ds →
  (∀ id, id ∈ ids → entity_ok (spec (kd id)) (ef id (la id)) (entity_of va id)) →
  (∀ id, id ∈ ids → kind_ok va id) →
  ∃ va', foldm (join_into received_at true) va ds = Some va' ∧
    (∀ id, id ∈ ids → entity_ok (spec (kd id)) (ef id (la id) ++ ef id (lb id)) (entity_of va' id) ∧ kind_ok va' id) ∧
    (∀ id, id ∉ ids → entity_of va' id = entity_of va id ∧ va_kinds va' !! id = va_kinds va !! id).
Proof.
  intros Hnd H2. revert va. induction H2 as [|id d ids ds (m & Hm & Hr & Hwh & Hft) _ IH]; intros va HA HK; cbn [foldm].
  { exists va. split_and!; [done|by intros id ?%not_elem_of_nil|done]. }
  apply NoDup_cons in Hnd as [Hid Hnd].
  destruct (join_entity_union (ScopeStream s) received_at (ef id (la id)) (ef id (lb id)) m (entity_of vb id)
    (kd id) id (spec (kd id)) (va_replica va) d (union_universe id) (HA id ltac:(by left)) (b_ok id) Hm Hwh Hft Hr) as (en & Hj & Hen).
  set (va1 := mkVault (mkReplica (<[id := en]> (rp_entities (va_replica va)))
    (rp_pending (foldl (record_row received_at) (va_replica va) (version_rows (ScopeStream s) (en_versions (entity_of vb id)))))
    (rp_ops (va_replica va))) (insert_new id (e_tag (spec (kd id))) (va_kinds va))).
  assert (join_into received_at true va d = Some va1) as ->.
  { unfold join_into. rewrite Hj. cbn [mbind option_bind].
    by rewrite (rd_id _ _ _ _ _ _ _ Hr), (rd_spec _ _ _ _ _ _ _ Hr). }
  cbn [mbind option_bind].
  assert (∀ id', id' ≠ id → entity_of va1 id' = entity_of va id' ∧ va_kinds va1 !! id' = va_kinds va !! id') as Hother.
  { intros id' Hne. unfold entity_of, va1; cbn [va_replica va_kinds rp_entities].
    rewrite lookup_insert_ne, lookup_insert_new by done. split; [done|].
    destruct (va_kinds va !! id'); [done|]. by rewrite decide_False. }
  assert (entity_of va1 id = en) as Hen1 by (unfold entity_of, va1; cbn [va_replica rp_entities]; by rewrite lookup_insert_eq).
  assert (kind_ok va1 id) as Hk1.
  { unfold kind_ok. rewrite Hen1. unfold va1 at 1; cbn [va_kinds]. rewrite lookup_insert_new.
    rewrite (HK id ltac:(by left)), decide_True by done.
    destruct Hen as (-> & _). destruct (b_ok id) as (HmB & _). rewrite Hm in HmB. symmetry in HmB.
    destruct (join_meta_union _ _ (union_universe id) m HmB) as [_ [mu ->]].
    by destruct (en_meta (entity_of va id)). }
  destruct (IH Hnd va1) as (va' & Hva' & Hin & Hout).
  - intros id' Hid'. destruct (Hother id') as [-> _]; [by intros ->|]. apply HA. by right.
  - intros id' Hid'. unfold kind_ok. destruct (Hother id') as [-> ->]; [by intros ->|]. apply HK. by right.
  - exists va'. split; [done|]. split.
    + intros id' [->|Hid']%elem_of_cons; [|by apply Hin]. destruct (Hout id Hid) as [E1 E2].
      rewrite E1, Hen1. split; [done|]. unfold kind_ok. by rewrite E1, E2.
    + intros id' [Hne Hno]%not_elem_of_cons. destruct (Hout id' Hno) as [-> ->]. by apply Hother.
Qed.

(** The document's entities are those of [vb] with bookkeeping. *)
Lemma dump_all (ents : list (Id * Entity)) :
  (∀ ie, ie ∈ ents → ie.2 = entity_of vb ie.1) →
  ∃ ll ds, mapM (dump_row (ScopeStream s) vb) ents = Some ll ∧ mapM read_entity (concat ll) = Some ds ∧
    Forall2 stands_for (filter (λ ie, is_Some (en_meta ie.2)) ents).*1 ds.
Proof.
  induction ents as [|[id en] ents IH]; intros Hin; [by exists [], []|].
  destruct IH as (ll & ds & Hll & Hds & H2); [intros; apply Hin; by right|].
  pose proof (Hin (id, en) ltac:(by left)) as Hen. cbn [fst snd] in Hen. subst en.
  assert (∀ o, dump_row (ScopeStream s) vb (id, entity_of vb id) = Some o →
    mapM (dump_row (ScopeStream s) vb) ((id, entity_of vb id) :: ents) = Some (o :: ll)) as Hcons.
  { intros o Ho. apply mapM_Some. constructor; [done|]. by apply mapM_Some. }
  rewrite filter_cons. cbn [snd]. destruct (en_meta (entity_of vb id)) as [m|] eqn:Hm.
  - destruct (b_dump id m Hm) as (v & d & e & Hv & Hd & -> & Hr & Hwh & Hft).
    exists ([v] :: ll), (d :: ds). split; [by apply Hcons|]. split.
    + apply mapM_Some. constructor; [done|]. by apply mapM_Some.
    + rewrite decide_True by done. constructor; [|done]. by exists m.
  - exists ([] :: ll), ds. rewrite decide_False by by intros []. split; [|done]. apply Hcons.
    unfold dump_row. cbn [fst snd]. rewrite Hm. destruct (entity_in_scope _ _); [|done]. by destruct (va_kinds vb !! id).
Qed.

Lemma join_dump va :
  vault_holds la va → pending_fits vb →
  ∃ doc va' targets,
    dump_stream_state vb s = Some doc ∧ join_stream_state received_at va doc = Some (va', targets) ∧
    vault_holds (λ id, la id ++ lb id) va'.
Proof.
  intros Ha Hp. set (ents := order_by fst (map_to_list (rp_entities (va_replica vb)))).
  assert (∀ ie, ie ∈ ents → ie.2 = entity_of vb ie.1) as Hents.
  { intros [id en]. unfold ents. rewrite elem_of_order_by, elem_of_map_to_list. intros Hin.
    unfold entity_of. cbn [fst snd]. by rewrite Hin. }
  destruct (dump_all ents Hents) as (ll & ds & Hll & Hds & H2).
  set (ids := (filter (λ ie, is_Some (en_meta ie.2)) ents).*1) in *.
  set (ms := pruned_members (va_replica vb) s).
  set (r0 := foldl (λ r m, record_joined r m.1 m.2 (received_at (op_ref m.2))) (va_replica va) ms).
  assert (∀ id, entity_of (mkVault r0 (va_kinds va)) id = entity_of va id) as Hr0.
  { intros id. unfold entity_of, r0. cbn [va_replica]. by rewrite record_members_entities. }
  assert (∀ id, entity_ok (spec (kd id)) (ef id (la id)) (entity_of va id)) as HA.
  { intros id. apply merge_all_entity_ok; [|apply Ha]. apply deliverable_part. intros d Hd. apply elem_of_app. by left. }
  destruct (join_all ids ds (mkVault r0 (va_kinds va))) as (va' & Hva' & Hin & Hout); [|done|..].
  { unfold ids. assert (NoDup ents.*1) as Hnd by (unfold ents; rewrite order_by_Permutation; apply NoDup_fst_map_to_list).
    eapply sublist_NoDup; [exact Hnd|]. apply fmap_sublist, sublist_filter. }
  { intros id _. by rewrite Hr0. }
  { intros id _. unfold kind_ok. rewrite Hr0. apply Ha. }
  set (tail := match ms with [] => [] | _ => [(Text "members",
    Array ((λ m : Group * Stamp, Array [bytes16 m.1.1; int m.1.2; stamp_value m.2]) <$> ms))] end).
  assert (match entry "members" ((Text "v", int DOC_STATE_V) :: (Text "entities", Array (concat ll)) :: tail) with
          | None => Some [] | Some v => as_array v ≫= mapM read_member end = Some ms) as Hms.
  { assert (mapM read_member ((λ m : Group * Stamp, Array [bytes16 m.1.1; int m.1.2; stamp_value m.2]) <$> ms) = Some ms) as Hmm.
    { apply mapM_Some. rewrite Forall2_fmap_l. apply Forall_Forall2_diag, Forall_forall. intros m Hm.
      apply read_member_dump. by eapply pruned_members_fit. }
    unfold tail. destruct ms; [done|]. exact Hmm. }
  eexists (VMap ((Text "v", int DOC_STATE_V) :: (Text "entities", Array (concat ll)) :: tail)), va', _. split; [|split].
  - unfold dump_stream_state, dump. fold ents. by rewrite Hll.
  - unfold join_stream_state. cbn [as_map mbind option_bind].
    rewrite (eq_refl : entry "v" ((Text "v", int DOC_STATE_V) :: (Text "entities", Array (concat ll)) :: tail) = Some (int DOC_STATE_V)).
    cbn [mbind option_bind]. rewrite as_u64_int by (unfold in_u64, DOC_STATE_V, u64_max; lia). cbn [mbind option_bind].
    unfold list_in at 1.
    rewrite (eq_refl : entry "entities" ((Text "v", int DOC_STATE_V) :: (Text "entities", Array (concat ll)) :: tail) = Some (Array (concat ll))).
    cbn [mbind option_bind as_array]. rewrite Hds, Hms. cbn [mbind option_bind]. fold r0.
    change (bool_decide (DOC_STATE_V = DOC_STATE_V)) with true. change (bool_decide (DOC_STATE_V = 1)) with false.
    cbn [negb orb]. rewrite Hva'. reflexivity.
  - intros id. destruct (merge_all_ok value_fits (spec (kd id)) (la id ++ lb id) (Hdel id)) as (en & -> & Hen).
    change (effs value_fits (spec (kd id)) (la id ++ lb id)) with (ef id (la id ++ lb id)) in Hen. rewrite effs_app in Hen.
    destruct (decide (id ∈ ids)) as [Hid|Hid].
    + destruct (Hin id Hid) as [Hok Hk]. split; [|exact Hk]. f_equal.
      by eapply entity_ok_unique; [apply union_universe| |exact Hen|exact Hok].
    + destruct (Hout id Hid) as [He Hk]. cbn [va_kinds] in Hk. rewrite He, Hk, Hr0.
      assert (ef id (lb id) = []) as Hnil.
      { destruct (decide (ef id (lb id) = [])) as [|Hne]; [done|]. exfalso. apply Hid.
        apply b_meta in Hne. apply list_elem_of_fmap. exists (id, entity_of vb id). split; [done|].
        apply list_elem_of_filter. split; [done|]. unfold ents. rewrite elem_of_order_by, elem_of_map_to_list.
        unfold entity_of in *. destruct (rp_entities (va_replica vb) !! id); [done|]. by destruct Hne. }
      rewrite Hnil, app_nil_r in Hen. split; [|apply Ha]. f_equal.
      eapply entity_ok_unique; [|done|exact Hen|apply HA]. eapply universe_l, union_universe.
Qed.
End two_vaults.
End vault.

Section theorem.
Context `{Ciborium} (value_fits : EntityKind.t → string → Value → bool).
Context `{Crypto} (received_at : OpRef → option Z) (kd : Id → EntityKind.t).

(** Every op was sealed in the stream [s], names only ops of that stream in its
    OR-set removes, and carries nothing a CBOR document can not hold. *)
Definition sealed_in (s : Id) (l : Id → list DOp) : Prop :=
  (∀ id a, a ∈ effs value_fits (spec (kd id)) (l id) → eff_in_stream s a ∧ eff_fits a) ∧
  (∀ id, l id ≠ [] → in_u128 id ∧ is_Some (merged_spec (kd id)) ∧ Z.of_nat (length (l id)) ≤ u64_max).

(** C5: joining a snapshot is replaying its ops: when one replica writes out a
    stream whose ops are all of its entities' and another joins the document,
    the document is written and read without loss, and every table the other
    holds afterwards (versions, frontiers, heads, registers with their losers,
    map entries, OR-set rows, deltas, bookkeeping) is the one folding both
    replicas' ops leaves, whatever ops the two shared; so folding any later
    ops on top gives what a full replay gives. *)
Theorem snapshot_join_is_union s la lb va vb :
  vault_holds value_fits kd la va → vault_holds value_fits kd lb vb →
  (∀ id, deliverable value_fits (spec (kd id)) (la id ++ lb id)) →
  sealed_in s lb → pending_fits vb →
  ∃ doc va' targets,
    dump_stream_state vb s = Some doc ∧
    join_stream_state received_at va doc = Some (va', targets) ∧
    vault_holds value_fits kd (λ id, la id ++ lb id) va' ∧
    ∀ id l, merge_all value_fits (spec (kd id)) (entity_of va' id) l =
            merge_all value_fits (spec (kd id)) no_entity (la id ++ lb id ++ l).
Proof.
  intros Ha Hb Hdel [Hfit Hids] Hp.
  destruct (join_dump value_fits received_at kd s la lb vb Hb Hdel Hfit Hids va Ha Hp)
    as (doc & va' & targets & Hd & Hj & Hv).
  exists doc, va', targets. split_and!; [done..|]. intros id l. destruct (Hv id) as [Hid _].
  rewrite app_assoc. unfold merge_all in *. by rewrite foldm_app, Hid.
Qed.
End theorem.

(** ** A codec, and two replicas of a task *)

Fixpoint tree_writer (v : Value) : bytes :=
  match v with
  | Integer n => [0; n]
  | Bytes b => 1 :: Z.of_nat (length b) :: b
  | Text s => 2 :: Z.of_nat (String.length s) :: ((λ c, Z.of_nat (Ascii.nat_of_ascii c)) <$> list_ascii_of_string s)
  | Bool b => [3; if b then 1 else 0]
  | Null => [4]
  | Array l => 5 :: Z.of_nat (length l) :: concat (map tree_writer l)
  | VMap l => 6 :: Z.of_nat (length l) :: concat (map (λ '(k, v), tree_writer k ++ tree_writer v) l)
  | Tag t v => 7 :: t :: tree_writer v
  | Float bits => [8; bits]
  end.

Fixpoint read_n {A} (read : bytes → option (A * bytes)) (n : nat) (b : bytes) : option (list A * bytes) :=
  match n with
  | O => Some ([], b)
  | S n => '(x, b) ← read b; '(l, b) ← read_n read n b; Some (x :: l, b)
  end.

Fixpoint tree_reader (fuel : nat) (b : bytes) : option (Value * bytes) :=
  match fuel with
  | O => None
  | S fuel =>
      match b with
      | 0 :: n :: b => Some (Integer n, b)
      | 1 :: n :: b => Some (Bytes (take (Z.to_nat n) b), drop (Z.to_nat n) b)
      | 2 :: n :: b => Some (Text (string_of_list_ascii ((λ z, Ascii.ascii_of_nat (Z.to_nat z)) <$> take (Z.to_nat n) b)),
                             drop (Z.to_nat n) b)
      | 3 :: x :: b => Some (Bool (bool_decide (x = 1)), b)
      | 4 :: b => Some (Null, b)
      | 5 :: n :: b => '(l, b) ← read_n (tree_reader fuel) (Z.to_nat n) b; Some (Array l, b)
      | 6 :: n :: b =>
          '(l, b) ← read_n (λ b, '(k, b) ← tree_reader fuel b; '(v, b) ← tree_reader fuel b; Some ((k, v), b)) (Z.to_nat n) b;
          Some (VMap l, b)
      | 7 :: t :: b => '(v, b) ← tree_reader fuel b; Some (Tag t v, b)
      | 8 :: bits :: b => Some (Float bits, b)
      | _ => None
      end
  end.

Definition tree_codec : Ciborium := {|
  into_writer v := (tree_writer v, true);
  from_reader _ b := match tree_reader (length b) b with Some x => Ok x | None => Err Malformed end |}.
#[local] Existing Instance tree_codec.
#[local] Existing Instance plain_crypto.

#[export] Instance write_in_stream_dec s w : Decision (write_in_stream s w).
Proof. destruct w; simpl; apply _. Defined.
#[export] Instance eff_in_stream_dec s a : Decision (eff_in_stream s a).
Proof. unfold eff_in_stream. apply _. Defined.
#[export] Instance write_fits_dec `{Ciborium} w : Decision (write_fits w).
Proof. destruct w as [? [?|]| | | |]; simpl; apply _. Defined.
#[export] Instance version_fits_dec `{Ciborium} v : Decision (version_fits v).
Proof.
  unfold version_fits, in_u128, in_u64. destruct (v_parents v) as [ps|], (v_group v) as [[g n]|]; apply _.
Defined.
#[export] Instance eff_fits_dec `{Ciborium} a : Decision (eff_fits a).
Proof. unfold eff_fits. apply _. Defined.

Definition d_untag : DOp :=
  patch_op 350 3 2 None [op_ref (d_at d_doing)]
    [("contexts"%string, VMap [(Text "remove", Array [Array [Integer 7; Array [to_value (op_ref (d_at d_new))]]])])].
Definition at_five {A} (l : list A) (id : Id) : list A := if decide (id = 5) then l else [].
Definition laptop_ops : list DOp := [d_new; d_done].
Definition phone_ops : list DOp := [d_new; d_doing; d_untag; d_routine].
Definition vault_of (l : list DOp) : Vault :=
  mkVault (mkReplica {[5 := default no_entity (merge_all any_fits task_spec no_entity l)]} ∅ ∅) {[5 := "task"%string]}.
Definition all_tasks (_ : Id) : EntityKind.t := EntityKind.Task.

Lemma vault_of_holds l :
  merge_all any_fits task_spec no_entity l = Some (default no_entity (merge_all any_fits task_spec no_entity l)) →
  is_Some (en_meta (default no_entity (merge_all any_fits task_spec no_entity l))) →
  vault_holds any_fits all_tasks (at_five l) (vault_of l).
Proof.
  intros Hm [m Hs] id. unfold at_five, entity_of, vault_of, all_tasks; cbn [va_replica va_kinds rp_entities].
  change (spec EntityKind.Task) with task_spec. case_decide as Hid.
  - subst id. rewrite !lookup_singleton_eq. cbn [default from_option id]. rewrite Hs. split; [exact Hm|done].
  - by rewrite !lookup_singleton_ne by done.
Qed.

Lemma phone_sealed : sealed_in any_fits all_tasks 1 (at_five phone_ops).
Proof.
  split.
  - intros id a. unfold at_five. case_decide; [|by intros ?%not_elem_of_nil].
    revert a. apply Forall_forall. apply (bool_decide_unpack _). vm_compute. exact I.
  - intros id. unfold at_five. case_decide as Hid; [|done]. subst. intros _.
    split_and!; [by vm_compute|by eexists|by vm_compute].
Qed.
Definition example_shared : list DOp := laptop_ops ++ [d_doing; d_untag; d_routine].

Lemma shared_deliverable id : deliverable any_fits (spec (all_tasks id)) (at_five laptop_ops id ++ at_five phone_ops id).
Proof.
  assert (deliverable any_fits task_spec example_shared) as Hd.
  { apply deliverable_by; apply (bool_decide_unpack _); vm_compute; exact I. }
  destruct Hd as [H1 H2]. unfold at_five. change (spec (all_tasks id)) with task_spec.
  assert (∀ d, d ∈ laptop_ops ++ phone_ops → d ∈ example_shared) as Hsub.
  { unfold example_shared, laptop_ops, phone_ops. intros d. rewrite !elem_of_app, !elem_of_cons. tauto. }
  case_decide; [|split; [intros c d ?%not_elem_of_nil; done|intros d a ?%not_elem_of_nil; done]].
  split; [intros c d Hc Hd; apply H1; auto|intros d a Hd; apply H2; auto].
Qed.

Lemma snapshot_join_is_union_witness :
  ∃ doc va' targets,
    dump_stream_state (vault_of phone_ops) 1 = Some doc ∧
    join_stream_state (λ _, None) (vault_of laptop_ops) doc = Some (va', targets) ∧
    vault_holds any_fits all_tasks (λ id, at_five laptop_ops id ++ at_five phone_ops id) va' ∧
    ∀ id l, merge_all any_fits (spec (all_tasks id)) (entity_of va' id) l =
            merge_all any_fits (spec (all_tasks id)) no_entity (at_five laptop_ops id ++ at_five phone_ops id ++ l).
Proof.
  apply (snapshot_join_is_union any_fits (λ _, None) all_tasks 1).
  - apply vault_of_holds; [by vm_compute|eexists; by vm_compute].
  - apply vault_of_holds; [by vm_compute|eexists; by vm_compute].
  - exact shared_deliverable.
  - exact phone_sealed.
  - intros g op row Hrow. cbn [vault_of va_replica rp_pending] in Hrow. by rewrite lookup_empty in Hrow.
Defined.
