(* ===== verification/SortOrder.v ===== *)
(** * Fractional sort keys (sunrise-domain: sort_order.rs)

    A key is a string over [A]..[Z], read as the digits of a base-26 fraction.
    [between] makes a key strictly between two others and [spread] a run of
    them.  The walks over the digits carry fuel; a bound's length plus one
    always suffices. *)

From Stdlib Require Import ZArith Lia.
From stdpp Require Import base tactics decidable countable option list sorting.
From S2P Require Import Prelude Bytes.
Open Scope Z_scope.

Definition BASE : Z := 26.
Definition ZERO : Z := 65.
Definition LAST : Z := BASE - 1.

Definition is_digit (b : Z) : Prop := ZERO ≤ b < ZERO + BASE.
#[export] Instance is_digit_dec b : Decision (is_digit b).
Proof. unfold is_digit. apply _. Defined.

Definition is_valid (key : bytes) : bool :=
  bool_decide (key ≠ []) && bool_decide (Forall is_digit key) && negb (bool_decide (last key = Some ZERO)).

Inductive SortOrderError := MalformedBound | NotIncreasing.

(** The digit at [i], zero past the end. *)
Definition digit (key : bytes) (i : nat) : Z :=
  match key !! i with Some b => b - ZERO | None => 0 end.

Definition well_formed (key : bytes) : bool := bool_decide (Forall is_digit key).

(** [String::from_utf8] of digits is those bytes. *)
Definition finish (out : bytes) : bytes := out.

Fixpoint above_tail_fuel (fuel : nat) (out lo : bytes) (i : nat) : bytes :=
  match fuel with
  | O => out
  | S fuel' =>
      let a := digit lo i in
      if decide (a < LAST) then out ++ [ZERO + a + (BASE - a) / 2]
      else above_tail_fuel fuel' (out ++ [ZERO + a]) lo (S i)
  end.
Definition above_tail (out lo : bytes) (i : nat) : bytes := above_tail_fuel (S (length lo)) out lo i.

Definition after_key (lo : bytes) : bytes := finish (above_tail [] lo 0).

Fixpoint between_fuel (fuel : nat) (out lo hi : bytes) (i : nat) : bytes :=
  match fuel with
  | O => out
  | S fuel' =>
      let a := digit lo i in
      let b := digit hi i in
      if decide (a ≠ b) then
        if decide (2 ≤ b - a) then finish (out ++ [ZERO + a + (b - a) / 2])
        else finish (above_tail (out ++ [ZERO + a]) lo (S i))
      else between_fuel fuel' (out ++ [ZERO + a]) lo hi (S i)
  end.

Definition between (after before : option bytes) : result SortOrderError bytes :=
  let lo := default [] after in
  if negb (well_formed lo) then Err MalformedBound
  else match before with
  | None => Ok (after_key lo)
  | Some hi =>
      if negb (well_formed hi) then Err MalformedBound
      else
        let width := Nat.max (length lo) (length hi) in
        if forallb (λ i, bool_decide (digit lo i = digit hi i)) (seq 0 width) || bool_decide (hi ≺ lo)
        then Err NotIncreasing
        else Ok (between_fuel (S width) [] lo hi 0)
  end.

Fixpoint bisect_fuel (fuel : nat) (after before : option bytes) (n : nat) (out : list bytes) :
    result SortOrderError (list bytes) :=
  match fuel with
  | O => Ok out
  | S fuel' =>
      match n with
      | O => Ok out
      | S _ =>
          try mid <- between after before;
          let left := Nat.div n 2 in
          try out <- bisect_fuel fuel' after (Some mid) left out;
          bisect_fuel fuel' (Some mid) before (n - left - 1)%nat (out ++ [mid])
      end
  end.
Definition bisect (after before : option bytes) (n : nat) (out : list bytes) :
    result SortOrderError (list bytes) := bisect_fuel (S n) after before n out.

Definition spread (after before : option bytes) (n : nat) : result SortOrderError (list bytes) :=
  match n with
  | O => try _ <- between after before; Ok []
  | _ => bisect after before n []
  end.

Definition append_after (last : option bytes) : bytes :=
  match last with
  | Some k => if well_formed k then after_key k else after_key []
  | None => after_key []
  end.

(** ** Keys as fractions *)

(** [x] is a smaller number than [y]: they agree before some digit and [x]
    is smaller there. *)
Definition num_lt (x y : bytes) : Prop :=
  ∃ i, (∀ j, (j < i)%nat → digit x j = digit y j) ∧ digit x i < digit y i.

(** The first [i] digits of [x], padded. *)
Definition pre (x : bytes) (i : nat) : bytes := (λ j, ZERO + digit x j) <$> seq 0 i.

Lemma lt_diff (p x y : bytes) a b : a < b → (p ++ a :: x : bytes) ≺ (p ++ b :: y : bytes).
Proof.
  intros Hab. unfold tlt, cmp, bytes_cmp. induction p as [|c p IH]; simpl.
  - by rewrite (proj2 (Z.compare_lt_iff a b)).
  - by rewrite Z.compare_refl.
Qed.
Lemma lt_prefix (p y : bytes) : y ≠ [] → p ≺ (p ++ y : bytes).
Proof.
  intros Hy. unfold tlt, cmp, bytes_cmp. induction p as [|c p IH]; simpl; [by destruct y|].
  by rewrite Z.compare_refl.
Qed.

Lemma digit_bounds x i : Forall is_digit x → 0 ≤ digit x i ≤ LAST.
Proof.
  intros HF. unfold digit. destruct (x !! i) as [b|] eqn:E.
  - rewrite Forall_lookup in HF. specialize (HF i b E). unfold is_digit, LAST, BASE in *. lia.
  - unfold LAST, BASE. lia.
Qed.

Lemma length_pre x i : length (pre x i) = i.
Proof. unfold pre. by rewrite length_fmap, length_seq. Qed.
Lemma pre_S x i : pre x (S i) = pre x i ++ [ZERO + digit x i].
Proof. unfold pre. rewrite seq_S, fmap_app. done. Qed.
Lemma pre_add x i k : pre x (i + k) = pre x i ++ ((λ j, ZERO + digit x j) <$> seq i k).
Proof. unfold pre. rewrite seq_app, fmap_app. done. Qed.
Lemma pre_ext x y i : (∀ j, (j < i)%nat → digit x j = digit y j) → pre x i = pre y i.
Proof.
  intros Hd. unfold pre. apply list_fmap_ext. intros k j Hk.
  apply lookup_seq in Hk as [-> Hlt]. by rewrite Hd by lia.
Qed.
Lemma pre_digits x i : Forall is_digit x → Forall is_digit (pre x i).
Proof.
  intros HF. apply Forall_fmap, Forall_true. intros j. simpl.
  pose proof (digit_bounds x j HF). unfold is_digit, LAST, BASE, ZERO in *. lia.
Qed.

Lemma pre_take x i : (i ≤ length x)%nat → pre x i = take i x.
Proof.
  intros Hi. apply list_eq. intros j. unfold pre. rewrite list_lookup_fmap.
  destruct (decide (j < i)%nat) as [Hj|Hj].
  - rewrite lookup_seq_lt by done. rewrite lookup_take_lt by done. simpl. unfold digit.
    destruct (x !! j) as [b|] eqn:E; [f_equal; lia|]. apply lookup_ge_None in E. lia.
  - rewrite lookup_seq_ge by lia. by rewrite lookup_take_ge by lia.
Qed.
Lemma pre_beyond x i : (length x ≤ i)%nat → ∃ z, pre x i = x ++ z.
Proof.
  intros Hi. replace i with (length x + (i - length x))%nat by lia. rewrite pre_add, pre_take by lia.
  rewrite take_ge by lia. eauto.
Qed.
Lemma digit_split x i : digit x i ≠ 0 → x = pre x i ++ (ZERO + digit x i) :: drop (S i) x.
Proof.
  intros Hd. unfold digit in *. destruct (x !! i) as [b|] eqn:E; [|done].
  rewrite pre_take by (apply lookup_lt_Some in E; lia).
  replace (ZERO + (b - ZERO)) with b by lia. symmetry. by apply take_drop_middle.
Qed.

(** A key that agrees with [x] up to [m] and is greater there is above it. *)
Lemma above_at x m c rest : ZERO + digit x m < c → x ≺ (pre x m ++ c :: rest : bytes).
Proof.
  intros Hc. destruct (decide (m < length x)%nat) as [Hm|Hm].
  - destruct (lookup_lt_is_Some_2 x m Hm) as [b Hb]. rewrite pre_take by lia.
    rewrite <-(take_drop_middle x m b Hb) at 1. apply lt_diff. unfold digit in Hc. rewrite Hb in Hc. lia.
  - destruct (pre_beyond x m) as [z ->]; [lia|]. rewrite <-app_assoc. apply lt_prefix. by destruct z.
Qed.

Lemma num_lt_lt x y : num_lt x y → Forall is_digit x → x ≺ y.
Proof.
  intros (i & Heq & Hlt) Hx. pose proof (digit_bounds x i Hx) as Hb.
  rewrite (digit_split y i) by lia. rewrite <-(pre_ext x y i Heq). apply above_at. lia.
Qed.

Lemma num_cases x y : num_lt x y ∨ num_lt y x ∨ ∀ i, digit x i = digit y i.
Proof.
  assert (∀ n, num_lt x y ∨ num_lt y x ∨ ∀ i, (i < n)%nat → digit x i = digit y i) as Hn.
  { induction n as [|n IH]; [right; right; intros; lia|]. destruct IH as [?|[?|Heq]]; [by left|by right; left|].
    destruct (Z.lt_trichotomy (digit x n) (digit y n)) as [Hlt|[Hd|Hlt]].
    - left. by exists n.
    - right; right. intros i Hi. destruct (decide (i = n)) as [->|]; [done|]. apply Heq. lia.
    - right; left. exists n. split; [|done]. intros j Hj. symmetry. by apply Heq. }
  destruct (Hn (Nat.max (length x) (length y))) as [?|[?|Heq]]; [by left|by right; left|].
  right; right. intros i. destruct (decide (i < Nat.max (length x) (length y))%nat) as [Hi|Hi]; [by apply Heq|].
  unfold digit. by rewrite !lookup_ge_None_2 by lia.
Qed.

Lemma num_lt_irrefl_eq x y : (∀ i, digit x i = digit y i) → ¬ num_lt x y.
Proof. intros Heq (i & _ & Hlt). rewrite Heq in Hlt. lia. Qed.
Lemma num_lt_sym_absurd x y : num_lt x y → num_lt y x → False.
Proof.
  intros (i & Hi & Hil) (j & Hj & Hjl). destruct (Nat.lt_trichotomy i j) as [Hij|[->|Hij]].
  - rewrite (Hj i Hij) in Hil. lia.
  - lia.
  - rewrite (Hi j Hij) in Hjl. lia.
Qed.
Lemma num_lt_ext_l x x' y : (∀ i, digit x i = digit x' i) → num_lt x y → num_lt x' y.
Proof. intros He (i & Heq & Hlt). exists i. split; [intros j Hj; rewrite <-He; by apply Heq|by rewrite <-He]. Qed.

(** The digits of a key built as a prefix of [x] and one more digit. *)
Lemma digit_snoc_lt x m c j : (j < m)%nat → digit (pre x m ++ [c]) j = digit x j.
Proof.
  intros Hj. unfold digit at 1. rewrite lookup_app_l by (rewrite length_pre; lia).
  unfold pre. rewrite list_lookup_fmap, lookup_seq_lt by done. simpl. lia.
Qed.
Lemma digit_snoc_eq x m c : digit (pre x m ++ [c]) m = c - ZERO.
Proof. unfold digit. by rewrite list_lookup_middle by (by rewrite length_pre). Qed.

Lemma snoc_valid x m c : Forall is_digit x → ZERO < c < ZERO + BASE → is_valid (pre x m ++ [c]) = true.
Proof.
  intros HF Hc. unfold is_valid. rewrite last_snoc, !andb_true_iff, negb_true_iff.
  rewrite !bool_decide_eq_true, bool_decide_eq_false. split; [split|].
  - by destruct (pre x m).
  - apply Forall_app. split; [by apply pre_digits|]. apply Forall_singleton. unfold is_digit. lia.
  - intros [= ->]. lia.
Qed.
Lemma is_valid_digits k : is_valid k = true → Forall is_digit k.
Proof. unfold is_valid. rewrite !andb_true_iff, !bool_decide_eq_true. tauto. Qed.
Lemma well_formed_true k : well_formed k = true ↔ Forall is_digit k.
Proof. apply bool_decide_eq_true. Qed.

(** ** What the walks compute *)

Lemma above_tail_spec fuel lo i :
  Forall is_digit lo → (length lo - i < fuel)%nat →
  ∃ m c, above_tail_fuel fuel (pre lo i) lo i = pre lo m ++ [c] ∧ (i ≤ m)%nat ∧
         ZERO + digit lo m < c < ZERO + BASE.
Proof.
  intros HF. revert i. induction fuel as [|fuel IH]; intros i Hf; simpl.
  { lia. }
  pose proof (digit_bounds lo i HF) as Hb. destruct (decide (digit lo i < LAST)) as [Hlt|Hge].
  - exists i, (ZERO + digit lo i + (BASE - digit lo i) / 2). split; [done|]. split; [lia|].
    unfold LAST, BASE, ZERO in *. pose proof (Z.div_lt (26 - digit lo i) 2).
    pose proof (Z.div_le_lower_bound (26 - digit lo i) 2 1). lia.
  - assert (i < length lo)%nat as Hi.
    { destruct (decide (i < length lo)%nat) as [|Hn]; [done|]. exfalso. apply Hge. unfold digit.
      rewrite lookup_ge_None_2 by lia. unfold LAST, BASE. lia. }
    rewrite <-pre_S. destruct (IH (S i)) as (m & c & -> & Hm & Hc); [lia|]. exists m, c. split; [done|]. lia.
Qed.

(** The key at position [m] with last digit [c] is above [lo], and below [hi]
    as soon as [d] is where the two first differ. *)
Lemma snoc_above lo m c : ZERO + digit lo m < c → num_lt lo (pre lo m ++ [c]).
Proof.
  intros Hc. exists m. split; [intros j Hj; by rewrite digit_snoc_lt|]. rewrite digit_snoc_eq. lia.
Qed.
Lemma snoc_below lo hi d m c :
  (∀ j, (j < d)%nat → digit lo j = digit hi j) → digit lo d < digit hi d → (d ≤ m)%nat →
  (m = d → c - ZERO < digit hi d) → num_lt (pre lo m ++ [c]) hi.
Proof.
  intros Heq Hlt Hm Hc. exists d. split.
  - intros j Hj. rewrite digit_snoc_lt by lia. by apply Heq.
  - destruct (decide (m = d)) as [->|Hne]; [rewrite digit_snoc_eq; by apply Hc|].
    by rewrite digit_snoc_lt by lia.
Qed.

Lemma between_fuel_spec fuel lo hi d i :
  Forall is_digit lo → Forall is_digit hi →
  (∀ j, (j < d)%nat → digit lo j = digit hi j) → digit lo d < digit hi d → (i ≤ d)%nat → (d - i < fuel)%nat →
  ∃ m c, between_fuel fuel (pre lo i) lo hi i = pre lo m ++ [c] ∧ (d ≤ m)%nat ∧
         ZERO + digit lo m < c < ZERO + BASE ∧ (m = d → c - ZERO < digit hi d).
Proof.
  intros Hlo Hhi Heq Hlt. revert i. induction fuel as [|fuel IH]; intros i Hi Hf; simpl; [lia|].
  destruct (decide (digit lo i ≠ digit hi i)) as [Hne|He].
  - assert (i = d) as -> by (destruct (decide (i = d)); [done|]; destruct Hne; apply Heq; lia).
    pose proof (digit_bounds lo d Hlo). pose proof (digit_bounds hi d Hhi).
    destruct (decide (2 ≤ digit hi d - digit lo d)) as [H2|H2].
    + exists d, (ZERO + digit lo d + (digit hi d - digit lo d) / 2).
      pose proof (Z.div_lt (digit hi d - digit lo d) 2).
      pose proof (Z.div_le_lower_bound (digit hi d - digit lo d) 2 1).
      unfold finish, LAST, BASE, ZERO in *. split; [done|]. lia.
    + unfold finish, above_tail. rewrite <-pre_S.
      destruct (above_tail_spec (S (length lo)) lo (S d) Hlo) as (m & c & -> & Hm & Hc); [lia|].
      exists m, c. split; [done|]. split; [lia|]. split; [done|]. lia.
  - assert (i ≠ d) by (intros ->; apply He; lia). rewrite <-pre_S. apply IH; lia.
Qed.

(** The two bounds of [between] are increasing numbers exactly when its check
    lets them through. *)
Lemma increasing_check lo hi :
  Forall is_digit lo → Forall is_digit hi →
  forallb (λ i, bool_decide (digit lo i = digit hi i)) (seq 0 (Nat.max (length lo) (length hi)))
    || bool_decide (hi ≺ lo) = false ↔ num_lt lo hi.
Proof.
  intros Hlo Hhi. rewrite orb_false_iff, bool_decide_eq_false. split.
  - intros [Hall Hnlt]. destruct (num_cases lo hi) as [|[Hgt|Heq]]; [done| |].
    + destruct Hnlt. by apply num_lt_lt.
    + assert (forallb (λ i, bool_decide (digit lo i = digit hi i)) (seq 0 (Nat.max (length lo) (length hi))) = true) as Ht; [|congruence].
      apply forallb_forall. intros i _. by apply bool_decide_eq_true.
  - intros Hlt. split.
    + apply not_true_is_false. intros Ht. rewrite forallb_forall in Ht.
      apply (num_lt_irrefl_eq lo hi); [|done]. intros i.
      destruct (decide (i < Nat.max (length lo) (length hi))%nat) as [Hi|Hi].
      * apply (bool_decide_eq_true_1 _), Ht, in_seq. lia.
      * unfold digit. by rewrite !lookup_ge_None_2 by lia.
    + intros Hgt. pose proof (num_lt_lt _ _ Hlt Hlo). tord.
Qed.

(** ** [between] *)

(** [room lo before]: both bounds are made of digits and there is a number
    between them; [None] is the open end of the list. *)
Definition room (lo : bytes) (before : option bytes) : Prop :=
  Forall is_digit lo ∧ match before with Some hi => Forall is_digit hi ∧ num_lt lo hi | None => True end.
Definition num_below (k : bytes) (before : option bytes) : Prop :=
  match before with Some hi => num_lt k hi | None => True end.

Lemma between_room after before :
  room (default [] after) before →
  ∃ k, between after before = Ok k ∧ is_valid k = true ∧ num_lt (default [] after) k ∧ num_below k before.
Proof.
  intros [Hlo Hhi]. unfold between. rewrite (proj2 (well_formed_true _) Hlo). cbn [negb].
  set (lo := default [] after) in *. destruct before as [hi|]; simpl in Hhi |- *.
  - destruct Hhi as [Hhi Hlt]. rewrite (proj2 (well_formed_true _) Hhi). cbn [negb].
    rewrite (proj2 (increasing_check lo hi Hlo Hhi) Hlt). destruct Hlt as (d & Heq & Hd).
    assert (d < length hi)%nat as Hdw.
    { pose proof (digit_bounds lo d Hlo). destruct (decide (d < length hi)%nat) as [|Hn]; [done|].
      unfold digit at 2 in Hd. rewrite (lookup_ge_None_2 hi) in Hd by lia. lia. }
    destruct (between_fuel_spec (S (Nat.max (length lo) (length hi))) lo hi d 0 Hlo Hhi Heq Hd) as (m & c & Hk & Hm & Hc & Hcd);
      [lia|lia|]. change (pre lo 0) with (@nil Z) in Hk. exists (pre lo m ++ [c]). split; [by rewrite <-Hk|].
    split; [apply snoc_valid; [done|]; pose proof (digit_bounds lo m Hlo); lia|].
    split; [apply snoc_above; lia|]. by eapply snoc_below.
  - destruct (above_tail_spec (S (length lo)) lo 0 Hlo) as (m & c & Hk & Hm & Hc); [lia|].
    exists (pre lo m ++ [c]). split; [unfold after_key, finish, above_tail; change (pre lo 0) with (@nil Z) in Hk; by rewrite Hk|].
    split; [apply snoc_valid; [done|]; pose proof (digit_bounds lo m Hlo); lia|].
    split; [apply snoc_above; lia|done].
Qed.

Lemma between_Ok_room after before k : between after before = Ok k → room (default [] after) before.
Proof.
  unfold between, room. set (lo := default [] after).
  destruct (well_formed lo) eqn:Hlo; [|done]. apply well_formed_true in Hlo. cbn [negb].
  destruct before as [hi|]; [|done]. destruct (well_formed hi) eqn:Hhi; [|done].
  apply well_formed_true in Hhi. cbn [negb].
  match goal with |- context [if ?c then _ else _] => destruct c eqn:Hc end; [done|].
  intros _. split; [done|]. split; [done|]. by apply increasing_check.
Qed.

(** Two valid spellings of one number are one string; any other spelling of
    it has zeros after the valid one. *)
Lemma valid_spelling k y : is_valid k = true → (∀ i, digit k i = digit y i) → k ≼ y.
Proof.
  intros Hv He. pose proof (is_valid_digits k Hv) as HF.
  unfold is_valid in Hv. rewrite !andb_true_iff, negb_true_iff, !bool_decide_eq_true, bool_decide_eq_false in Hv.
  destruct Hv as [[Hne _] Hlast]. destruct (last k) as [b|] eqn:Hb; [|by apply last_None in Hb].
  rewrite last_lookup in Hb. assert (digit k (pred (length k)) ≠ 0) as Hd.
  { unfold digit. rewrite Hb. intros Hz. apply Hlast. f_equal. lia. }
  assert (length k ≤ length y)%nat as Hl.
  { rewrite He in Hd. unfold digit in Hd. destruct (y !! pred (length k)) eqn:Hy; [|done].
    apply lookup_lt_Some in Hy. lia. }
  assert (pre k (length k) = k) as Hk by by rewrite pre_take, take_ge by lia.
  assert (pre y (length k) = k) as Hy by (rewrite <-(pre_ext k y) by (intros; apply He); done).
  rewrite pre_take in Hy by done. rewrite <-(take_drop (length k) y), Hy.
  destruct (drop (length k) y) as [|z l] eqn:Ed; [rewrite app_nil_r; apply tle_refl|].
  apply tlt_tle, lt_prefix. done.
Qed.

(** C31: [between] on every pair of bounds.  It blames a bound exactly when one
    is not made of digits; of bounds that are, it says they are not increasing
    exactly when no acceptable key at all lies between them, and otherwise
    returns a key the domain accepts that sorts strictly between them, as
    strings. *)
Theorem between_is_exact after before :
  (between after before = Err MalformedBound ↔
     well_formed (default [] after) = false ∨ ∃ hi, before = Some hi ∧ well_formed hi = false) ∧
  match between after before with
  | Ok k => is_valid k = true ∧ default [] after ≺ k ∧ (∀ hi, before = Some hi → k ≺ hi)
  | Err MalformedBound => True
  | Err NotIncreasing => ∃ hi, before = Some hi ∧
      ∀ k, is_valid k = true → default [] after ≺ k → k ≺ hi → False
  end.
Proof.
  split.
  { unfold between. destruct (well_formed (default [] after)) eqn:Hlo; simpl; [|by split; [left|]].
    destruct before as [hi|]; [|split; [done|intros [?|(? & ? & _)]; done]].
    destruct (well_formed hi) eqn:Hhi; simpl; [|split; [intros _; right; by exists hi|done]].
    split; [by case_match|]. intros [?|(? & [= <-] & ?)]; congruence. }
  destruct (between after before) as [k|e] eqn:E.
  - pose proof (between_Ok_room _ _ _ E) as Hr. pose proof Hr as [Hlo _].
    destruct (between_room after before Hr) as (k' & E' & Hv & Habove & Hbelow). rewrite E in E'. injection E' as <-.
    split; [done|]. split; [by apply num_lt_lt|]. intros hi ->. apply num_lt_lt; [done|by apply is_valid_digits].
  - destruct e; [done|]. unfold between in E. set (lo := default [] after) in *.
    destruct (well_formed lo) eqn:Hlo; simpl in E; [|done].
    destruct before as [hi|]; [|done]. destruct (well_formed hi) eqn:Hhi; simpl in E; [|done].
    match type of E with (if ?c then _ else _) = _ => destruct c eqn:Hc end; [|done].
    exists hi. split; [done|]. intros k Hv Hl Hh. rewrite well_formed_true in Hlo, Hhi.
    pose proof (is_valid_digits k Hv) as Hk.
    assert (¬ num_lt lo hi) as Hno by (intros Hn; apply increasing_check in Hn; [congruence|done..]).
    destruct (num_cases lo hi) as [|[Hgt|Heq]]; [done|pose proof (num_lt_lt _ _ Hgt Hhi); tord|].
    destruct (num_cases lo k) as [Hlt|[Hgt|Heq']].
    + pose proof (num_lt_lt _ _ (num_lt_ext_l _ _ _ Heq Hlt) Hhi). tord.
    + pose proof (num_lt_lt _ _ Hgt Hk). tord.
    + pose proof (valid_spelling k lo Hv (λ i, eq_sym (Heq' i))). tord.
Qed.

(** ** [spread] *)

Lemma num_lt_trans x y z : num_lt x y → num_lt y z → num_lt x z.
Proof.
  intros (i & Hi & Hil) (j & Hj & Hjl). exists (Nat.min i j). split.
  - intros m Hm. rewrite Hi, Hj by lia. done.
  - destruct (Nat.lt_trichotomy i j) as [Hij|[->|Hij]].
    + rewrite Nat.min_l, <-Hj by lia. lia.
    + rewrite Nat.min_id. lia.
    + rewrite Nat.min_r, Hi by lia. lia.
Qed.
Lemma num_below_trans x y before : num_lt x y → num_below y before → num_below x before.
Proof. destruct before; simpl; [apply num_lt_trans|done]. Qed.

(** What [spread] promises of one key. *)
Definition strictly_inside (lo : bytes) (before : option bytes) (k : bytes) : Prop :=
  is_valid k = true ∧ num_lt lo k ∧ num_below k before.
Lemma strictly_inside_weaken lo lo' before before' k :
  strictly_inside lo before k → (∀ x, num_lt lo x → num_lt lo' x) → (∀ x, num_below x before → num_below x before') →
  strictly_inside lo' before' k.
Proof. intros (? & ? & ?) Hl Hb. split; [done|]. split; auto. Qed.

Lemma StronglySorted_middle (l1 l2 : list bytes) m :
  StronglySorted tlt l1 → StronglySorted tlt l2 → Forall (λ k, k ≺ m) l1 → Forall (λ k, m ≺ k) l2 →
  StronglySorted tlt (l1 ++ m :: l2).
Proof.
  intros H1 H2 Hb Ha. induction H1 as [|x l1 Hs IH Hx]; simpl; [by constructor|].
  apply Forall_cons in Hb as [Hxm Hb]. constructor; [by apply IH|].
  apply Forall_app. split; [done|]. constructor; [done|].
  eapply Forall_impl; [exact Ha|]. simpl. intros k Hk. by eapply tlt_trans.
Qed.

Lemma bisect_spec fuel after before n out :
  (n < fuel)%nat → (n ≠ 0%nat → room (default [] after) before) →
  ∃ ks, bisect_fuel fuel after before n out = Ok (out ++ ks) ∧ length ks = n ∧
        Forall (strictly_inside (default [] after) before) ks ∧ StronglySorted tlt ks.
Proof.
  revert after before n out. induction fuel as [|fuel IH]; intros after before n out Hn Hr; [lia|].
  destruct n as [|n]; cbn [bisect_fuel].
  { exists []. rewrite app_nil_r. repeat split; constructor. }
  destruct (between_room after before) as (mid & -> & Hv & Hl & Hb); [by apply Hr|]. cbn [result_bind].
  destruct Hr as [Hlo Hhi]; [done|]. pose proof (is_valid_digits mid Hv) as Hmid.
  pose proof (Nat.div_lt (S n) 2) as Hdiv. set (left := Nat.div (S n) 2) in *.
  destruct (IH after (Some mid) left out) as (ks1 & -> & Hlen1 & Hin1 & Hs1); [lia|by split|]. cbn [result_bind].
  destruct (IH (Some mid) before (S n - left - 1)%nat ((out ++ ks1) ++ [mid])) as (ks2 & -> & Hlen2 & Hin2 & Hs2); [lia| |].
  { intros _. split; [done|]. destruct before as [hi|]; [|done]. by destruct Hhi as [? _]. }
  exists (ks1 ++ mid :: ks2). rewrite <-!app_assoc. split; [done|]. simpl in Hin2. split_and!.
  - rewrite length_app. simpl. lia.
  - apply Forall_app. split.
    + eapply Forall_impl; [exact Hin1|]. intros k Hk. eapply strictly_inside_weaken; [exact Hk|done|].
      intros x Hx. by eapply num_below_trans.
    + constructor; [done|]. eapply Forall_impl; [exact Hin2|]. intros k Hk.
      eapply strictly_inside_weaken; [exact Hk| |done]. intros x. by apply num_lt_trans.
  - apply StronglySorted_middle; [done|done| |].
    + eapply Forall_impl; [exact Hin1|]. intros k (Hvk & _ & Hk). apply num_lt_lt; [done|by apply is_valid_digits].
    + eapply Forall_impl; [exact Hin2|]. intros k (_ & Hk & _). by apply num_lt_lt.
Qed.

(** [spread] gives a run of rows their keys: as many keys as asked, each
    acceptable and strictly between the bounds, in strictly increasing string
    order.  The bisection never fails below the top: [spread] refuses a pair of
    bounds exactly when [between] does, with the same error. *)
Theorem spread_is_sorted after before n :
  match spread after before n with
  | Ok ks => length ks = n ∧ StronglySorted tlt ks ∧
      (∀ k, k ∈ ks → is_valid k = true ∧ default [] after ≺ k ∧ ∀ hi, before = Some hi → k ≺ hi) ∧
      (∃ k, between after before = Ok k)
  | Err e => between after before = Err e
  end.
Proof.
  unfold spread. destruct (between after before) as [mid|e] eqn:E.
  - assert (match n with O => Ok [] | _ => bisect after before n [] end = bisect after before n []) as Hn by by destruct n.
    cbn [result_bind]. rewrite Hn. pose proof (between_Ok_room _ _ _ E) as Hr.
    destruct (bisect_spec (S n) after before n []) as (ks & Hks & Hlen & Hin & Hs); [lia|done|].
    unfold bisect. rewrite Hks. simpl. split_and!; [done|done| |by eexists].
    intros k Hk. rewrite Forall_forall in Hin. destruct (Hin k Hk) as (Hv & Hl & Hb).
    split; [done|]. split; [apply num_lt_lt; [done|apply Hr]|].
    intros hi ->. apply num_lt_lt; [done|by apply is_valid_digits].
  - destruct n; [done|]. unfold bisect. cbn [bisect_fuel]. by rewrite E.
Qed.

(** [append_after] always has an acceptable key, above the well-formed last
    one. *)
Lemma append_after_valid last :
  is_valid (append_after last) = true ∧
  ∀ k, last = Some k → well_formed k = true → k ≺ append_after last.
Proof.
  assert (∀ k, Forall is_digit k → is_valid (after_key k) = true ∧ k ≺ after_key k) as Hk.
  { intros k Hk. destruct (between_room (Some k) None) as (k' & Hb & Hv & Hl & _); [done|].
    unfold between in Hb. simpl in Hb. rewrite (proj2 (well_formed_true k) Hk) in Hb. simpl in Hb.
    injection Hb as <-. split; [done|by apply num_lt_lt]. }
  unfold append_after. destruct last as [k|]; [destruct (well_formed k) eqn:Hw|].
  - apply well_formed_true in Hw. split; [by apply Hk|]. intros ? [= <-] _. by apply Hk.
  - split; [by apply Hk|]. intros ? [= <-]. congruence.
  - split; [by apply Hk|done].
Qed.
