(* ===== verification/Ids.v ===== *)
(** * Identifiers (sunrise-id: crockford.rs, ulid.rs, entity_ref.rs)

    A ULID is sixteen bytes, written as twenty-six characters of Crockford's
    base 32; an [EntityRef] adds the kind of the entity and writes it as a
    four-character prefix.  Both writings are canonical: what the decoders
    accept is exactly what the encoders write. *)

From Stdlib Require Import ZArith Lia Ascii String.
From stdpp Require Import base tactics decidable countable option list strings.
From S2P Require Import Prelude Bytes Registry.
Open Scope Z_scope.
Open Scope list_scope.

(** ** Crockford base 32 *)

Definition ALPHABET : bytes := text_bytes "0123456789ABCDEFGHJKMNPQRSTVWXYZ".
Definition ENCODED_LEN : nat := 26.

Inductive CrockfordError :=
  | BadLength (len : nat)
  | BadChar (ch : Z) (at_ : nat)
  | BadPadding.

(** [<<] on a [u128] drops the bits it pushes out. *)
Definition shl_u128 (x s : Z) : Z := Z.land (Z.shiftl x s) u128_max.
Definition char_shift (i : nat) : Z := 125 - 5 * Z.of_nat i.

Definition payload_of (b : bytes) : Z := foldl (λ payload x, Z.lor (shl_u128 payload 8) x) 0 b.

Definition encode_bytes (b : bytes) : bytes :=
  let payload := payload_of b in
  (λ i, nth (Z.to_nat (Z.land (Z.shiftr payload (char_shift i)) 31)) ALPHABET 0) <$> seq 0 ENCODED_LEN.

Definition char_value (ch : Z) : option Z :=
  if decide (48 ≤ ch ≤ 57) then Some (ch - 48)
  else if decide (65 ≤ ch ≤ 72) then Some (ch - 65 + 10)
  else if decide (74 ≤ ch ≤ 75) then Some (ch - 74 + 18)
  else if decide (77 ≤ ch ≤ 78) then Some (ch - 77 + 20)
  else if decide (80 ≤ ch ≤ 84) then Some (ch - 80 + 22)
  else if decide (86 ≤ ch ≤ 90) then Some (ch - 86 + 27)
  else None.

(** The loop over the characters, from position [i] on. *)
Fixpoint read_chars (i : nat) (payload : Z) (s : bytes) : result CrockfordError Z :=
  match s with
  | [] => Ok payload
  | ch :: s' =>
      match char_value ch with
      | None => Err (BadChar ch i)
      | Some val =>
          if decide (i = 0%nat ∧ val > 7) then Err BadPadding
          else read_chars (S i) (Z.lor payload (shl_u128 val (char_shift i))) s'
      end
  end.

(** The loop that fills [n] bytes from the last one to the first. *)
Fixpoint write_back (n : nat) (payload : Z) (out : bytes) : bytes :=
  match n with
  | O => out
  | S n' => write_back n' (Z.shiftr payload 8) (Z.land payload 255 :: out)
  end.

Definition decode_str (s : bytes) : result CrockfordError bytes :=
  if decide (length s ≠ ENCODED_LEN) then Err (BadLength (length s))
  else try payload <- read_chars 0 0 s; Ok (write_back 16 payload []).

(** ** ULIDs *)

Definition is_ulid (b : bytes) : Prop := are_bytes b ∧ length b = 16%nat.

Definition ulid_from_timestamp_and_random (timestamp_ms : Z) (random : bytes) : bytes :=
  let ts := Z.land timestamp_ms (Z.ones 48) in
  take 6 (drop 2 (be_encode 8 ts)) ++ random.

Definition ulid_timestamp_ms (u : bytes) : Z :=
  let at_ i := nth i u 0 in
  Z.lor (Z.lor (Z.lor (Z.lor (Z.lor
    (Z.shiftl (at_ 0%nat) 40) (Z.shiftl (at_ 1%nat) 32)) (Z.shiftl (at_ 2%nat) 24))
    (Z.shiftl (at_ 3%nat) 16)) (Z.shiftl (at_ 4%nat) 8)) (at_ 5%nat).

(** ** Entity references *)

Record EntityRef := mkRef { ref_kind : EntityKind.t; ref_bytes : bytes }.

#[export] Instance EntityRef_eq_dec : EqDecision EntityRef.
Proof. solve_decision. Defined.

Inductive EntityRefError :=
  | RefBadLength (len : nat)
  | UnknownPrefix (p : string)
  | KindMismatch (expected got : EntityKind.t)
  | BadBody (e : CrockfordError).

Definition to_str (r : EntityRef) : string :=
  String.append (prefix (ref_kind r)) (text_of (encode_bytes (ref_bytes r))).

(** A byte that begins a UTF-8 character: [str::is_char_boundary]. *)
Definition begins_char (b : Z) : bool := negb (bool_decide (128 ≤ b < 192)).
Definition is_char_boundary (s : bytes) (at_ : nat) : bool :=
  match s !! at_ with
  | Some b => begins_char b
  | None => bool_decide (at_ = length s)
  end.

(** The characters of [s] that begin before byte [at_]: up to the first
    boundary from there on. *)
Fixpoint rest_of_char (s : bytes) : bytes :=
  match s with
  | b :: s' => if begins_char b then [] else b :: rest_of_char s'
  | [] => []
  end.
Definition chars_before (s : bytes) (at_ : nat) : bytes := take at_ s ++ rest_of_char (drop at_ s).

Definition body_error {A} (r : result CrockfordError A) : result EntityRefError A :=
  match r with Ok a => Ok a | Err e => Err (BadBody e) end.

Definition parse_any (str : string) : result EntityRefError EntityRef :=
  let s := text_bytes str in
  if decide (length s ≠ 4 + ENCODED_LEN)%nat then Err (RefBadLength (length s))
  else if negb (is_char_boundary s 4) then Err (UnknownPrefix (text_of (chars_before s 4)))
  else
    let p := text_of (take 4 s) in
    try kind <- ok_or (from_prefix p) (UnknownPrefix p);
    try b <- body_error (decode_str (drop 4 s));
    Ok (mkRef kind b).

Definition parse (s : string) (expected : EntityKind.t) : result EntityRefError EntityRef :=
  try r <- parse_any s;
  if decide (ref_kind r ≠ expected) then Err (KindMismatch expected (ref_kind r)) else Ok r.

(** The derived order: the kind's place in the registry, then the bytes. *)
Definition kind_index (k : EntityKind.t) : nat :=
  match list_find (λ x, x = k) all with Some (i, _) => i | None => 0%nat end.
Lemma kind_index_all k : all !! kind_index k = Some k.
Proof. by destruct k. Qed.
#[export] Instance kind_index_inj : Inj (=) (=) kind_index.
Proof. intros k k' E. apply (inj Some). by rewrite <-!kind_index_all, E. Qed.
#[export] Instance EntityKind_countable : Countable EntityKind.t.
Proof. apply (inj_countable kind_index (λ i, all !! i)), kind_index_all. Defined.

Definition ref_key (r : EntityRef) : Z * bytes := (Z.of_nat (kind_index (ref_kind r)), ref_bytes r).
#[export] Instance ref_key_inj : Inj (=) (=) ref_key.
Proof. intros [k b] [k' b'] [= E ->]. simpl in E. apply Nat2Z.inj in E. apply (inj kind_index) in E. by subst. Qed.
#[export] Instance EntityRef_cmp : Cmp EntityRef := cmp_on ref_key.
#[export] Instance EntityRef_cmp_laws : CmpLaws EntityRef := cmp_on_laws ref_key _.
#[export] Instance EntityRef_countable : Countable EntityRef.
Proof.
  apply (inj_countable' (λ r, (ref_kind r, ref_bytes r)) (λ '(k, b), mkRef k b)). by intros [].
Defined.

(** ** Bits as digits *)

Lemma shl_u128_spec x s : 0 ≤ x → 0 ≤ s → x * 2 ^ s < 2 ^ 128 → shl_u128 x s = x * 2 ^ s.
Proof.
  intros Hx Hs Hlt. unfold shl_u128. change u128_max with (Z.ones 128).
  rewrite Z.land_ones, Z.shiftl_mul_pow2 by lia. apply Z.mod_small. lia.
Qed.

(** The value of base-32 digits, most significant first. *)
Definition val32 (vs : list Z) : Z := foldl (λ acc v, acc * 32 + v) 0 vs.
Lemma val32_snoc vs v : val32 (vs ++ [v]) = val32 vs * 32 + v.
Proof. unfold val32. by rewrite foldl_app. Qed.
Lemma val32_app l1 l2 : val32 (l1 ++ l2) = val32 l1 * 32 ^ Z.of_nat (length l2) + val32 l2.
Proof.
  induction l2 as [|v l2 IH] using rev_ind.
  - rewrite app_nil_r. change (val32 []) with 0. simpl. lia.
  - rewrite app_assoc, !val32_snoc, IH, length_app. cbn [length].
    replace (Z.of_nat (length l2 + 1)) with (Z.succ (Z.of_nat (length l2))) by lia.
    rewrite Z.pow_succ_r by lia. lia.
Qed.
Lemma val32_cons v vs : val32 (v :: vs) = v * 32 ^ Z.of_nat (length vs) + val32 vs.
Proof. exact (val32_app [v] vs). Qed.
Definition is_digit32 (v : Z) : Prop := 0 ≤ v < 32.
Lemma val32_bounds vs : Forall is_digit32 vs → 0 ≤ val32 vs < 32 ^ Z.of_nat (length vs).
Proof.
  induction vs as [|v vs IH] using rev_ind; intros Hv; [by vm_compute|].
  apply Forall_app in Hv as [Hv Hl]. apply Forall_cons_1 in Hl as [Hl _]. unfold is_digit32 in Hl.
  specialize (IH Hv). rewrite val32_snoc, length_app. cbn [length].
  replace (Z.of_nat (length vs + 1)) with (Z.succ (Z.of_nat (length vs))) by lia. rewrite Z.pow_succ_r by lia. lia.
Qed.

(** Reading digit [i] of a number back. *)
Lemma val32_digit vs i v :
  Forall is_digit32 vs → vs !! i = Some v → (val32 vs / 32 ^ Z.of_nat (length vs - S i)) mod 32 = v.
Proof.
  intros Hvs Hi. pose proof (lookup_lt_Some _ _ _ Hi) as Hlt.
  rewrite <-(take_drop_middle vs i v Hi) in Hvs |- * at 1. apply Forall_app in Hvs as [Hl Hr].
  apply Forall_cons in Hr as [Hv Hr]. rewrite cons_middle, app_assoc, val32_app, val32_snoc.
  pose proof (val32_bounds _ Hr) as Hb. rewrite length_drop in Hb |- *.
  rewrite Z.div_add_l, (Z.div_small (val32 (drop (S i) vs))), Z.add_0_r by lia.
  rewrite Z.add_comm, Z.mod_add, Z.mod_small by (unfold is_digit32 in Hv; lia). done.
Qed.

(** The twenty-six digits of a number spell it. *)
Definition digits32 (x : Z) : list Z := (λ i, (x / 32 ^ (25 - Z.of_nat i)) mod 32) <$> seq 0 ENCODED_LEN.
Lemma digits32_digits x : Forall is_digit32 (digits32 x).
Proof. apply Forall_fmap, Forall_true. intros i. apply Z.mod_pos_bound. lia. Qed.
Lemma val32_digits32 x : 0 ≤ x < 2 ^ 128 → val32 (digits32 x) = x.
Proof.
  intros Hx. assert (∀ k, (k ≤ 26)%nat →
    val32 ((λ i, (x / 32 ^ (25 - Z.of_nat i)) mod 32) <$> seq 0 k) = x / 32 ^ (26 - Z.of_nat k)) as Hk.
  { induction k as [|k IH]; intros Hk.
    - rewrite Z.div_small by (change (32 ^ (26 - Z.of_nat 0)) with (2 ^ 130); lia). done.
    - rewrite seq_S, fmap_app. cbn [fmap list_fmap]. rewrite val32_snoc, IH by lia. rewrite Nat.add_0_l.
      replace (26 - Z.of_nat k) with (Z.succ (25 - Z.of_nat k)) by lia.
      rewrite Z.pow_succ_r by lia. rewrite (Z.mul_comm 32), <-Z.div_div by lia.
      replace (26 - Z.of_nat (S k)) with (25 - Z.of_nat k) by lia.
      pose proof (Z.div_mod (x / 32 ^ (25 - Z.of_nat k)) 32). lia. }
  unfold digits32, ENCODED_LEN. rewrite Hk by lia. change (26 - Z.of_nat 26) with 0. apply Z.div_1_r.
Qed.
Lemma digits32_val32 vs : Forall is_digit32 vs → length vs = ENCODED_LEN → digits32 (val32 vs) = vs.
Proof.
  intros Hvs Hl. apply list_eq. intros i. unfold digits32. rewrite list_lookup_fmap.
  destruct (decide (i < ENCODED_LEN)%nat) as [Hi|Hi].
  - rewrite lookup_seq_lt by done. cbn [fmap option_fmap option_map]. rewrite Nat.add_0_l.
    destruct (lookup_lt_is_Some_2 vs i) as [v Hv]; [lia|]. rewrite Hv. f_equal.
    rewrite <-(val32_digit vs i v Hvs Hv). rewrite Hl. unfold ENCODED_LEN in *.
    by replace (Z.of_nat (26 - S i)) with (25 - Z.of_nat i) by lia.
  - rewrite lookup_seq_ge by lia. symmetry. apply lookup_ge_None_2. lia.
Qed.

(** ** What the two codecs compute *)

Definition char (v : Z) : Z := nth (Z.to_nat v) ALPHABET 0.

Lemma Z_range_elem n (x : Z) : 0 ≤ x < Z.of_nat n → x ∈ Z.of_nat <$> seq 0 n.
Proof.
  intros Hx. apply list_elem_of_fmap. exists (Z.to_nat x). split; [lia|]. apply elem_of_seq. lia.
Qed.
Lemma char_value_char v : is_digit32 v → char_value (char v) = Some v.
Proof.
  intros Hv. apply (Z_range_elem 32) in Hv. revert v Hv. apply Forall_forall.
  apply (bool_decide_unpack _). vm_compute. exact I.
Qed.
Lemma char_value_inv ch v : char_value ch = Some v → is_digit32 v ∧ char v = ch.
Proof.
  intros Hv. assert (ch ∈ Z.of_nat <$> seq 0 91) as Hin.
  { apply Z_range_elem. unfold char_value in Hv. repeat case_decide; try lia; done. }
  revert ch Hin v Hv. apply (proj1 (Forall_forall (λ ch, ∀ v, char_value ch = Some v → is_digit32 v ∧ char v = ch) _)).
  assert (Forall (λ ch, match char_value ch with Some v => 0 ≤ v ∧ v < 32 ∧ char v = ch | None => True end)
    (Z.of_nat <$> seq 0 91)) as HF.
  { repeat constructor; vm_compute; try done; repeat split; congruence. }
  eapply Forall_impl; [exact HF|]. simpl. intros ch Hch v Hv. rewrite Hv in Hch. unfold is_digit32. lia.
Qed.

Lemma payload_of_be b : is_ulid b → payload_of b = be_decode b.
Proof.
  intros [Hb Hl]. assert (∀ n, (n ≤ 16)%nat → payload_of (take n b) = be_decode (take n b)) as Hn.
  { induction n as [|n IH]; intros Hn; [done|].
    destruct (lookup_lt_is_Some_2 b n) as [x Hx]; [lia|]. rewrite (take_S_r b n x Hx).
    assert (is_byte x) as Hxb by (by eapply (proj1 (Forall_lookup _ _) Hb n)).
    pose proof (be_decode_bounds (take n b) (Forall_take _ _ _ Hb)) as Hbd. rewrite length_take in Hbd.
    replace (Nat.min n (length b)) with n in Hbd by lia.
    pose proof (Z.pow_le_mono_r 256 (Z.of_nat n) 15 ltac:(lia) ltac:(lia)) as Hpow.
    rewrite be_decode_snoc. unfold payload_of in *. rewrite foldl_app. cbn [foldl]. rewrite IH by lia.
    rewrite shl_u128_spec by lia. rewrite lor_is_add by (unfold is_byte in Hxb; lia). lia. }
  rewrite <-(take_ge b 16) by lia. by apply Hn.
Qed.
Lemma ulid_payload_bounds b : is_ulid b → 0 ≤ be_decode b < 2 ^ 128.
Proof. intros [Hb Hl]. pose proof (be_decode_bounds b Hb) as Hd. by rewrite Hl in Hd. Qed.

Lemma encode_bytes_digits b : is_ulid b → encode_bytes b = char <$> digits32 (be_decode b).
Proof.
  intros Hb. unfold encode_bytes, digits32. rewrite payload_of_be by done. rewrite <-list_fmap_compose.
  apply list_fmap_ext. intros j i Hi. apply lookup_seq in Hi as [-> Hi]. rewrite Nat.add_0_l.
  unfold compose, char. do 2 f_equal. change 31 with (Z.ones 5). rewrite Z.land_ones by lia.
  unfold char_shift, ENCODED_LEN in *. rewrite Z.shiftr_div_pow2 by lia. change (2 ^ 5) with 32. do 2 f_equal.
  change 32 with (2 ^ 5). rewrite <-Z.pow_mul_r by lia. f_equal. lia.
Qed.
Lemma length_encode_bytes b : length (encode_bytes b) = ENCODED_LEN.
Proof. unfold encode_bytes. by rewrite length_fmap, length_seq. Qed.

Lemma write_back_be n x out : write_back n x out = be_encode n x ++ out.
Proof.
  revert x out. induction n as [|n IH]; intros x out; [done|]. cbn [write_back be_encode].
  rewrite IH, <-app_assoc. change 255 with (Z.ones 8). rewrite Z.land_ones, Z.shiftr_div_pow2 by lia. done.
Qed.

(** The padding check: only the first character is held to three bits. *)
Definition unpadded (i : nat) (vs : list Z) : Prop := i = 0%nat → match vs with v :: _ => v ≤ 7 | [] => True end.

Lemma read_chars_step i V v :
  (i < 26)%nat → is_digit32 v → (i = 0%nat → v ≤ 7) →
  Z.lor (V * 2 ^ (130 - 5 * Z.of_nat i)) (shl_u128 v (char_shift i)) = (V * 32 + v) * 2 ^ (130 - 5 * Z.of_nat (S i)).
Proof.
  intros Hi Hv Hpad. unfold is_digit32 in Hv. unfold char_shift.
  replace (130 - 5 * Z.of_nat (S i)) with (125 - 5 * Z.of_nat i) by lia.
  assert (2 ^ (130 - 5 * Z.of_nat i) = 32 * 2 ^ (125 - 5 * Z.of_nat i)) as Hp.
  { change 32 with (2 ^ 5). rewrite <-Z.pow_add_r by lia. f_equal. lia. }
  rewrite shl_u128_spec; [|lia|lia|].
  - rewrite lor_is_add; [rewrite Hp; lia|lia|rewrite Hp; nia].
  - destruct (decide (i = 0%nat)) as [->|Hne].
    + specialize (Hpad eq_refl). change (125 - 5 * Z.of_nat 0) with 125. lia.
    + pose proof (Z.pow_le_mono_r 2 (125 - 5 * Z.of_nat i) 120 ltac:(lia) ltac:(lia)).
      pose proof (Z.pow_nonneg 2 (125 - 5 * Z.of_nat i) ltac:(lia)).
      apply Z.le_lt_trans with (31 * 2 ^ 120); [apply Z.mul_le_mono_nonneg; lia|done].
Qed.

Lemma read_chars_exact i V s R :
  (i + length s ≤ 26)%nat →
  read_chars i (V * 2 ^ (130 - 5 * Z.of_nat i)) s = Ok R ↔
  ∃ vs, s = char <$> vs ∧ Forall is_digit32 vs ∧ unpadded i vs ∧
        R = (V * 32 ^ Z.of_nat (length vs) + val32 vs) * 2 ^ (130 - 5 * Z.of_nat (i + length vs)).
Proof.
  revert i V. induction s as [|ch s IH]; intros i V Hl.
  { simpl. split.
    - intros [= <-]. exists []. split; [done|]. split; [constructor|]. split; [done|].
      change (val32 []) with 0. cbn [length]. rewrite Nat.add_0_r. change (32 ^ Z.of_nat 0) with 1. lia.
    - intros (vs & Hs & _ & _ & ->). symmetry in Hs. apply fmap_nil_inv in Hs as ->. simpl.
      change (val32 []) with 0. rewrite Nat.add_0_r. f_equal. lia. }
  cbn [read_chars]. simpl in Hl. split.
  - intros Hr. destruct (char_value ch) as [v|] eqn:Hv; [|done]. apply char_value_inv in Hv as [Hv <-].
    destruct (decide (i = 0%nat ∧ v > 7)) as [|Hpad]; [done|].
    rewrite read_chars_step in Hr by (first [done|lia]). apply IH in Hr as (vs & -> & Hvs & _ & ->); [|lia].
    exists (v :: vs). split; [done|]. split; [by constructor|]. split; [intros ->; lia|].
    rewrite val32_cons. cbn [length].
    replace (i + S (length vs))%nat with (S i + length vs)%nat by lia. f_equal.
    replace (Z.of_nat (S (length vs))) with (Z.succ (Z.of_nat (length vs))) by lia. rewrite Z.pow_succ_r by lia. lia.
  - intros (vs & Hs & Hvs & Hpad & ->). destruct vs as [|v vs]; [done|]. cbn [fmap list_fmap] in Hs.
    injection Hs as -> ->. apply Forall_cons in Hvs as [Hv Hvs]. rewrite char_value_char by done.
    destruct (decide (i = 0%nat ∧ v > 7)) as [[-> Hgt]|_]; [specialize (Hpad eq_refl); simpl in Hpad; lia|].
    rewrite read_chars_step by (first [done|lia|intros ->; by apply Hpad]).
    apply IH; [lia|]. exists vs. split; [done|]. split; [done|]. split; [by intros ?|].
    rewrite val32_cons. cbn [length].
    replace (i + S (length vs))%nat with (S i + length vs)%nat by lia. f_equal.
    replace (Z.of_nat (S (length vs))) with (Z.succ (Z.of_nat (length vs))) by lia. rewrite Z.pow_succ_r by lia. lia.
Qed.

(** ** The codecs are canonical *)

Lemma decode_str_exact s b : decode_str s = Ok b ↔ is_ulid b ∧ encode_bytes b = s.
Proof.
  unfold decode_str. destruct (decide (length s ≠ ENCODED_LEN)) as [Hl|Hl].
  { split; [done|]. intros [_ <-]. by rewrite length_encode_bytes in Hl. }
  assert (length s = 26%nat) as Hlen by (destruct (decide (length s = ENCODED_LEN)); done).
  assert (∀ R, read_chars 0 0 s = Ok R ↔ 0 ≤ R < 2 ^ 128 ∧ s = char <$> digits32 R) as Hread.
  { intros R. pose proof (read_chars_exact 0 0 s R) as Hr. change (0 * 2 ^ (130 - 5 * Z.of_nat 0)) with 0 in Hr.
    rewrite Hr by lia. split.
    - intros (vs & -> & Hvs & Hpad & ->). rewrite length_fmap in Hlen.
      assert ((0 * 32 ^ Z.of_nat (length vs) + val32 vs) * 2 ^ (130 - 5 * Z.of_nat (0 + length vs)) = val32 vs) as ->
        by (rewrite Hlen; change (2 ^ (130 - 5 * Z.of_nat (0 + 26))) with 1; lia).
      rewrite digits32_val32 by done. split; [|done]. pose proof (val32_bounds vs Hvs) as Hb. split; [lia|].
      destruct vs as [|v vs]; [done|]. specialize (Hpad eq_refl). simpl in Hpad, Hlen.
      apply Forall_cons in Hvs as [Hv Hvs]. pose proof (val32_bounds vs Hvs) as Hb'. rewrite val32_cons.
      assert (length vs = 25%nat) as Hl25 by lia. rewrite Hl25 in Hb' |- *.
      change (32 ^ Z.of_nat 25) with (2 ^ 125) in *. lia.
    - intros [HR ->]. exists (digits32 R). split; [done|]. split; [apply digits32_digits|]. split.
      + intros _. change (digits32 R) with ((R / 32 ^ 25) mod 32 :: drop 1 (digits32 R)). simpl.
        change (32 ^ 25) with (2 ^ 125). pose proof (Z.mod_le (R / 2 ^ 125) 32).
        pose proof (Z.div_pos R (2 ^ 125)). pose proof (Z.div_lt_upper_bound R (2 ^ 125) 8).
        change (2 ^ 125 * 8) with (2 ^ 128) in *. lia.
      + rewrite val32_digits32 by done. unfold digits32. rewrite length_fmap, length_seq.
        unfold ENCODED_LEN. change (2 ^ (130 - 5 * Z.of_nat (0 + 26))) with 1. lia. }
  rewrite result_bind_Ok. split.
  - intros (R & HR & Hb). apply Hread in HR as [HR ->]. rewrite write_back_be, app_nil_r in Hb.
    assert (b = be_encode 16 R) as -> by congruence. clear Hb.
    assert (is_ulid (be_encode 16 R)) as Hu by (split; [apply be_encode_bytes|apply length_be_encode]).
    split; [done|]. rewrite encode_bytes_digits by done. by rewrite be_decode_encode.
  - intros [Hb <-]. exists (be_decode b). split.
    + apply Hread. split; [by apply ulid_payload_bounds|by apply encode_bytes_digits].
    + rewrite write_back_be, app_nil_r. f_equal. destruct Hb as [Hb Hlb]. rewrite <-Hlb. by apply be_encode_decode.
Qed.

Lemma prefix_length k : String.length (prefix k) = 4%nat.
Proof. by destruct k. Qed.
Lemma prefix_bytes_length k : length (text_bytes (prefix k)) = 4%nat.
Proof. by destruct k. Qed.

Lemma ALPHABET_ascii v : is_digit32 v → 48 ≤ char v ≤ 90.
Proof.
  intros Hv. apply (Z_range_elem 32) in Hv. revert v Hv. apply Forall_forall.
  apply (bool_decide_unpack _). vm_compute. exact I.
Qed.
Lemma encode_bytes_ascii b : is_ulid b → Forall (λ c, 48 ≤ c ≤ 90) (encode_bytes b).
Proof.
  intros Hb. rewrite encode_bytes_digits by done. apply Forall_fmap. eapply Forall_impl; [apply digits32_digits|].
  apply ALPHABET_ascii.
Qed.
Lemma encode_bytes_are_bytes b : is_ulid b → are_bytes (encode_bytes b).
Proof.
  intros Hb. eapply Forall_impl; [by apply encode_bytes_ascii|]. intros c Hc. simpl in Hc. unfold is_byte. lia.
Qed.

Lemma to_str_bytes r :
  is_ulid (ref_bytes r) → text_bytes (to_str r) = text_bytes (prefix (ref_kind r)) ++ encode_bytes (ref_bytes r).
Proof.
  intros Hr. unfold to_str. rewrite text_bytes_app. f_equal. apply text_bytes_of. by apply encode_bytes_are_bytes.
Qed.

Lemma rest_of_char_prefix s : ∃ t, s = rest_of_char s ++ t.
Proof.
  induction s as [|b s [t IH]]; simpl; [by exists []|]. destruct (begins_char b); [by eexists|].
  exists t. simpl. by f_equal.
Qed.
Lemma chars_before_prefix s n : ∃ t, s = chars_before s n ++ t.
Proof.
  destruct (rest_of_char_prefix (drop n s)) as [t Ht]. exists t. unfold chars_before.
  rewrite <-app_assoc, <-Ht. by rewrite take_drop.
Qed.
(** A prefix cut inside a character is no entity's prefix: it is too long. *)
Lemma split_char_no_prefix s :
  length s = 30%nat → is_char_boundary s 4 = false → from_prefix (text_of (chars_before s 4)) = None.
Proof.
  intros Hl Hb. destruct (from_prefix _) as [k|] eqn:E; [|done]. exfalso. apply from_prefix_spec in E.
  apply (f_equal String.length) in E. rewrite prefix_length, length_text_of in E. revert E.
  unfold chars_before. rewrite length_app, length_take. unfold is_char_boundary in Hb.
  destruct (lookup_lt_is_Some_2 s 4) as [b Hs]; [lia|]. rewrite Hs in Hb. rewrite (drop_S s b 4 Hs).
  cbn [rest_of_char]. rewrite Hb. cbn [length]. lia.
Qed.

Lemma parse_any_sound s r : parse_any s = Ok r → is_ulid (ref_bytes r) ∧ to_str r = s.
Proof.
  unfold parse_any. destruct (decide (length (text_bytes s) ≠ 4 + ENCODED_LEN)%nat); [done|].
  destruct (is_char_boundary (text_bytes s) 4); [|done]. cbn [negb]. intros Hp.
  apply result_bind_Ok in Hp as (k & Hk & Hp). apply result_bind_Ok in Hp as (b & Hb & Hp). simplify_eq.
  destruct (decode_str (drop 4 (text_bytes s))) as [b'|] eqn:Hd; [|done]. injection Hb as ->.
  apply decode_str_exact in Hd as [Hu Hd]. split; [done|]. apply text_bytes_inj. rewrite to_str_bytes by done.
  cbn [ref_kind ref_bytes]. rewrite Hd. destruct (from_prefix _) as [k'|] eqn:E; [|done]. injection Hk as ->.
  apply from_prefix_spec in E. rewrite <-E, text_bytes_of by (apply Forall_take, text_bytes_are_bytes).
  apply take_drop.
Qed.

Lemma parse_any_to_str r : is_ulid (ref_bytes r) → parse_any (to_str r) = Ok r.
Proof.
  intros Hu. unfold parse_any. rewrite to_str_bytes by done.
  pose proof (prefix_bytes_length (ref_kind r)) as Hp. pose proof (length_encode_bytes (ref_bytes r)) as He.
  rewrite length_app, Hp, He. destruct (decide _) as [Hne|_]; [done|].
  assert (is_char_boundary (text_bytes (prefix (ref_kind r)) ++ encode_bytes (ref_bytes r)) 4 = true) as ->.
  { unfold is_char_boundary. rewrite lookup_app_r by lia. rewrite Hp, Nat.sub_diag.
    destruct (lookup_lt_is_Some_2 (encode_bytes (ref_bytes r)) 0) as [c Hc]; [rewrite He; unfold ENCODED_LEN; lia|].
    rewrite Hc. pose proof (proj1 (Forall_lookup _ _) (encode_bytes_ascii _ Hu) 0%nat c Hc) as Hr. simpl in Hr.
    unfold begins_char. rewrite bool_decide_eq_false_2 by lia. done. }
  cbn [negb]. rewrite take_app_length' by done. rewrite drop_app_length' by done.
  rewrite text_of_bytes, (proj2 (from_prefix_spec _ _) eq_refl). cbn [ok_or result_bind].
  rewrite (proj2 (decode_str_exact _ _) (conj Hu eq_refl)). cbn [body_error result_bind]. by destruct r.
Qed.

(** The written form of a reference is canonical: [parse_any] accepts a
    string exactly when it is what [to_str] writes for the reference it
    returns, and [parse] further exactly when the kind is the expected one.
    Each error of [parse_any] is blamed truthfully: the length, a start that is
    no entity's prefix, or, behind a known prefix, a body the base-32 decoder
    refuses. *)
Theorem entity_ref_canonical s :
  (∀ r, parse_any s = Ok r ↔ is_ulid (ref_bytes r) ∧ to_str r = s) ∧
  (∀ k r, parse s k = Ok r ↔ is_ulid (ref_bytes r) ∧ to_str r = s ∧ ref_kind r = k) ∧
  match parse_any s with
  | Ok _ => True
  | Err (RefBadLength n) => n = String.length s ∧ n ≠ 30%nat
  | Err (UnknownPrefix p) => String.length s = 30%nat ∧ from_prefix p = None ∧ ∃ rest, s = String.append p rest
  | Err (KindMismatch _ _) => False
  | Err (BadBody e) => ∃ k body, s = String.append (prefix k) body ∧ decode_str (text_bytes body) = Err e
  end.
Proof.
  assert (∀ r, parse_any s = Ok r ↔ is_ulid (ref_bytes r) ∧ to_str r = s) as Hany.
  { intros r. split; [apply parse_any_sound|]. intros [Hu <-]. by apply parse_any_to_str. }
  split; [done|]. split.
  { intros k r. unfold parse. rewrite result_bind_Ok. split.
    - intros (r' & Hr & Hk). destruct (decide (ref_kind r' ≠ k)) as [|Hne]; [done|]. simplify_eq.
      apply Hany in Hr as [? ?]. split; [done|]. split; [done|]. by apply dec_stable.
    - intros (Hu & Hs & <-). exists r. split; [by apply Hany|]. by destruct (decide _). }
  clear Hany. unfold parse_any. rewrite !length_text_bytes.
  destruct (decide (String.length s ≠ 4 + ENCODED_LEN)%nat) as [|Hl]; [done|].
  assert (length (text_bytes s) = 30%nat) as Hlen
    by (rewrite length_text_bytes; unfold ENCODED_LEN in Hl; lia).
  destruct (is_char_boundary (text_bytes s) 4) eqn:Hb; cbn [negb].
  - assert (s = String.append (text_of (take 4 (text_bytes s))) (text_of (drop 4 (text_bytes s)))) as Hs
      by (by rewrite <-text_of_app, take_drop, text_of_bytes).
    destruct (from_prefix _) as [k|] eqn:E; cbn [ok_or result_bind].
    + destruct (decode_str (drop 4 (text_bytes s))) as [b|e] eqn:Hd; cbn [body_error result_bind]; [done|].
      exists k, (text_of (drop 4 (text_bytes s))). apply from_prefix_spec in E. rewrite <-E. split; [done|].
      by rewrite text_bytes_of by (apply Forall_drop, text_bytes_are_bytes).
    + split; [by rewrite <-length_text_bytes|]. split; [done|]. by eexists.
  - split; [by rewrite <-length_text_bytes|]. split; [by apply split_char_no_prefix|].
    destruct (chars_before_prefix (text_bytes s) 4) as [t Ht]. exists (text_of t).
    by rewrite <-text_of_app, <-Ht, text_of_bytes.
Qed.
