(* ===== verification/Deps.v ===== *)
(** * Task dependencies (sunrise-domain: deps.rs)

    The derived [blocked] state, the dependency graph in both directions, the
    submit-time cycle check, the rule that breaks the cycles concurrent edits
    leave ([resolve_cycles]) and Kahn's test for whether there is one.  The
    three searches are loops over a work list; their fuel is a bound on the
    number of turns, and each is proved exact with it. *)

From Stdlib Require Import ZArith Lia.
From stdpp Require Import base tactics decidable countable option list gmap sets relations fin_sets sorting.
From S2P Require Import Prelude Bytes Registry Ids.
Open Scope nat_scope.

(** A [BTreeSet] in its iteration order. *)
#[export] Instance tle_reldec {A} `{Cmp A} : RelDecision (tle (A:=A)) := tle_dec.
Definition ascending {A} `{Cmp A, Countable A} (X : gset A) : list A := isort tle (elements X).

(** ** The derived state of a task *)

Inductive TaskState := Todo | InProgress | Done | Cancelled | Unknown (name : String.string).

Module EffectiveTaskState.
Inductive t := Todo | InProgress | Blocked | Done | Cancelled.
End EffectiveTaskState.

Definition blocker_is_open (state : TaskState) (deleted : bool) : bool :=
  negb deleted && negb (match state with Done | Cancelled => true | _ => false end).

Definition effective_state (state : TaskState) (open_blockers : Z) : EffectiveTaskState.t :=
  match state with
  | Done => EffectiveTaskState.Done
  | Cancelled => EffectiveTaskState.Cancelled
  | Todo | Unknown _ => if decide (open_blockers = 0%Z) then EffectiveTaskState.Todo else EffectiveTaskState.Blocked
  | InProgress => if decide (open_blockers = 0%Z) then EffectiveTaskState.InProgress else EffectiveTaskState.Blocked
  end.

Definition is_actionable (state : TaskState) (open_blockers : Z) : bool :=
  match effective_state state open_blockers with
  | EffectiveTaskState.Todo | EffectiveTaskState.InProgress => true
  | _ => false
  end.

(** ** The graph *)

Record DependencyGraph := mkGraph {
  forward : gmap EntityRef (gset EntityRef);
  reverse : gmap EntityRef (gset EntityRef);
}.

Definition no_edges : DependencyGraph := mkGraph ∅ ∅.

(** [entry(k).or_default().insert(x)] *)
Definition insert_at (m : gmap EntityRef (gset EntityRef)) (k x : EntityRef) : gmap EntityRef (gset EntityRef) :=
  <[k := {[x]} ∪ default ∅ (m !! k)]> m.

Definition add_edge (g : DependencyGraph) (task blocker : EntityRef) : DependencyGraph :=
  mkGraph (insert_at (forward g) task blocker) (insert_at (reverse g) blocker task).

Definition from_edges (edges : list (EntityRef * EntityRef)) : DependencyGraph :=
  foldl (λ g e, add_edge g e.1 e.2) no_edges edges.

Definition blockers_of (g : DependencyGraph) (task : EntityRef) : gset EntityRef := default ∅ (forward g !! task).
Definition blocks_others (g : DependencyGraph) (task : EntityRef) : gset EntityRef := default ∅ (reverse g !! task).
Definition edge_count (g : DependencyGraph) : nat :=
  sum_list ((λ kv : EntityRef * gset EntityRef, size kv.2) <$> map_to_list (forward g)).

(** *** [would_cycle]: a depth-first walk; the stack's top is the list's head *)

Definition push_unseen (g : DependencyGraph) (seen : gset EntityRef) (stack : list EntityRef) (node : EntityRef) :
    list EntityRef :=
  foldl (λ stack next, if decide (next ∈ seen) then stack else next :: stack) stack (ascending (blockers_of g node)).

Fixpoint would_cycle_loop (fuel : nat) (g : DependencyGraph) (task : EntityRef) (stack : list EntityRef)
    (seen : gset EntityRef) : bool :=
  match fuel with
  | O => false
  | S fuel' =>
      match stack with
      | [] => false
      | node :: stack' =>
          if decide (node = task) then true
          else if decide (node ∈ seen) then would_cycle_loop fuel' g task stack' seen
          else would_cycle_loop fuel' g task (push_unseen g ({[node]} ∪ seen) stack' node) ({[node]} ∪ seen)
      end
  end.

Definition would_cycle (g : DependencyGraph) (task : EntityRef) (new_blockers : gset EntityRef) : bool :=
  if decide (task ∈ new_blockers) then true
  else would_cycle_loop (S (size new_blockers + edge_count g)) g task (rev (ascending new_blockers)) ∅.

(** *** [path]: a breadth-first walk; the queue's front is the list's head *)

Record Search := mkSearch {
  came_from : gmap EntityRef EntityRef;
  queue : list EntityRef;
  seen_ : gset EntityRef;
}.

Definition visit (node : EntityRef) (s : Search) (next : EntityRef) : Search :=
  if decide (next ∈ seen_ s) then s
  else mkSearch (<[next := node]> (came_from s)) (queue s ++ [next]) ({[next]} ∪ seen_ s).

(** The steps back to the start, nearest first. *)
Fixpoint walk_back (fuel : nat) (cf : gmap EntityRef EntityRef) (at_ : EntityRef) : list EntityRef :=
  match fuel with
  | O => []
  | S fuel' =>
      match cf !! at_ with
      | Some prev => prev :: walk_back fuel' cf prev
      | None => []
      end
  end.

Fixpoint path_loop (fuel : nat) (g : DependencyGraph) (to : EntityRef) (s : Search) : option (list EntityRef) :=
  match fuel with
  | O => None
  | S fuel' =>
      match queue s with
      | [] => None
      | node :: queue' =>
          if decide (node = to) then Some (rev (to :: walk_back (S (size (came_from s))) (came_from s) to))
          else path_loop fuel' g to
                 (foldl (visit node) (mkSearch (came_from s) queue' (seen_ s)) (ascending (blockers_of g node)))
      end
  end.

Definition path (g : DependencyGraph) (from to : EntityRef) : option (list EntityRef) :=
  path_loop (S (S (size (dom (reverse g))))) g to (mkSearch ∅ [from] {[from]}).

(** *** [has_cycle]: Kahn's algorithm.  [None] is the panic of a count
    decremented below zero, which never happens. *)

Fixpoint release (deps : list EntityRef) (waiting : gmap EntityRef nat) (ready : list EntityRef) :
    option (gmap EntityRef nat * list EntityRef) :=
  match deps with
  | [] => Some (waiting, ready)
  | dependent :: deps' =>
      match waiting !! dependent with
      | None => release deps' waiting ready
      | Some O => None
      | Some (S n) => release deps' (<[dependent := n]> waiting) (if decide (n = 0) then dependent :: ready else ready)
      end
  end.

Fixpoint kahn (fuel : nat) (g : DependencyGraph) (waiting : gmap EntityRef nat) (ready : list EntityRef)
    (removed : nat) : option nat :=
  match fuel with
  | O => Some removed
  | S fuel' =>
      match ready with
      | [] => Some removed
      | node :: ready' =>
          '(waiting', ready'') ← release (ascending (blocks_others g node)) waiting ready';
          kahn fuel' g waiting' ready'' (S removed)
      end
  end.

Definition graph_nodes (g : DependencyGraph) : gset EntityRef := dom (forward g) ∪ dom (reverse g).

Definition has_cycle (g : DependencyGraph) : option bool :=
  let nodes := graph_nodes g in
  let waiting : gmap EntityRef nat := set_to_map (λ n, (n, size (blockers_of g n))) nodes in
  let ready := rev (filter (λ n, waiting !! n = Some 0) (ascending nodes)) in
  removed ← kahn (S (size nodes)) g waiting ready 0;
  Some (negb (bool_decide (removed = size nodes))).

(** *** [resolve_cycles] *)

Record SuppressedEdge (St : Type) := mkSuppressed {
  se_task : EntityRef;
  se_blocker : EntityRef;
  se_stamp : St;
  se_cycle : list EntityRef;
}.
Arguments mkSuppressed {St}.
Arguments se_task {St}.
Arguments se_blocker {St}.
Arguments se_stamp {St}.
Arguments se_cycle {St}.

(** [retain(|(_, t, b)| seen.insert((t, b)))] *)
Fixpoint retain_first {St : Type} (seen : gset (EntityRef * EntityRef)) (l : list (St * EntityRef * EntityRef)) :
    list (St * EntityRef * EntityRef) :=
  match l with
  | [] => []
  | (s, t, b) :: l' =>
      if decide ((t, b) ∈ seen) then retain_first seen l'
      else (s, t, b) :: retain_first ({[(t, b)]} ∪ seen) l'
  end.

Definition judge {St : Type} (acc : DependencyGraph * list (SuppressedEdge St)) (e : St * EntityRef * EntityRef) :
    DependencyGraph * list (SuppressedEdge St) :=
  let '(kept, suppressed) := acc in
  let '(stamp, task, blocker) := e in
  match path kept blocker task with
  | Some back => (kept, suppressed ++ [mkSuppressed task blocker stamp (task :: back)])
  | None => (add_edge kept task blocker, suppressed)
  end.

Definition ordered_edges {St : Type} `{Cmp St} (edges : list (EntityRef * EntityRef * St)) : list (St * EntityRef * EntityRef) :=
  retain_first ∅ (isort tle ((λ e : EntityRef * EntityRef * St, (e.2, e.1.1, e.1.2)) <$> edges)).

Definition resolve_cycles {St : Type} `{Cmp St} (edges : list (EntityRef * EntityRef * St)) :
    DependencyGraph * list (SuppressedEdge St) :=
  foldl judge (no_edges, []) (ordered_edges edges).

(** ** The graph as a relation *)

Lemma elem_of_ascending {A} `{Cmp A, Countable A} (X : gset A) x : x ∈ ascending X ↔ x ∈ X.
Proof. unfold ascending. by rewrite elem_of_isort, elem_of_elements. Qed.
Lemma length_ascending {A} `{Cmp A, Countable A} (X : gset A) : length (ascending X) = size X.
Proof. unfold ascending. by rewrite length_isort. Qed.
Lemma NoDup_ascending {A} `{Cmp A, Countable A} (X : gset A) : NoDup (ascending X).
Proof. unfold ascending. rewrite isort_Permutation. apply NoDup_elements. Qed.

Lemma elem_of_rev {A} (l : list A) x : x ∈ rev l ↔ x ∈ l.
Proof. by rewrite !list_elem_of_In, <-in_rev. Qed.

Definition waits_on (g : DependencyGraph) (x y : EntityRef) : Prop := y ∈ blockers_of g x.
Definition acyclic (g : DependencyGraph) : Prop := ∀ x, ¬ tc (waits_on g) x x.

(** The two directions mirror each other, and no set in the maps is empty. *)
Record graph_wf (g : DependencyGraph) : Prop := {
  mirrored : ∀ x y, y ∈ blockers_of g x ↔ x ∈ blocks_others g y;
  forward_nonempty : ∀ x X, forward g !! x = Some X → X ≠ ∅;
  reverse_nonempty : ∀ x X, reverse g !! x = Some X → X ≠ ∅;
}.

Lemma insert_at_lookup m k x k' :
  default ∅ (insert_at m k x !! k') = if decide (k' = k) then {[x]} ∪ default ∅ (m !! k') else default ∅ (m !! k').
Proof. unfold insert_at. destruct (decide (k' = k)) as [->|Hne]; [by rewrite lookup_insert_eq|by rewrite lookup_insert_ne]. Qed.
Lemma insert_at_nonempty m k x :
  (∀ k' X, m !! k' = Some X → X ≠ ∅) → ∀ k' X, insert_at m k x !! k' = Some X → X ≠ ∅.
Proof. intros Hm k' X. unfold insert_at. rewrite lookup_insert_Some. intros [[<- <-]|[_ ?]]; [set_solver|by eapply Hm]. Qed.

Lemma blockers_add_edge g t b x y :
  y ∈ blockers_of (add_edge g t b) x ↔ (x = t ∧ y = b) ∨ y ∈ blockers_of g x.
Proof. unfold blockers_of, add_edge; simpl. rewrite insert_at_lookup. case_decide; set_solver. Qed.
Lemma blocks_add_edge g t b x y :
  x ∈ blocks_others (add_edge g t b) y ↔ (x = t ∧ y = b) ∨ x ∈ blocks_others g y.
Proof. unfold blocks_others, add_edge; simpl. rewrite insert_at_lookup. case_decide; set_solver. Qed.

Lemma graph_wf_empty : graph_wf no_edges.
Proof. split; unfold blockers_of, blocks_others, no_edges; simpl; intros *; rewrite !lookup_empty; set_solver. Qed.
Lemma graph_wf_add_edge g t b : graph_wf g → graph_wf (add_edge g t b).
Proof.
  intros [Hm Hf Hr]. split.
  - intros x y. rewrite blockers_add_edge, blocks_add_edge. by rewrite Hm.
  - by apply insert_at_nonempty.
  - by apply insert_at_nonempty.
Qed.
Lemma foldl_add_edge_wf (g : DependencyGraph) (edges : list (EntityRef * EntityRef)) :
  graph_wf g → graph_wf (foldl (λ g e, add_edge g e.1 e.2) g edges).
Proof. revert g. induction edges as [|e l IH]; intros g Hg; simpl; [done|]. by apply IH, graph_wf_add_edge. Qed.
Lemma from_edges_wf edges : graph_wf (from_edges edges).
Proof. apply foldl_add_edge_wf, graph_wf_empty. Qed.

Lemma foldl_add_edge_blockers (edges : list (EntityRef * EntityRef)) g x y :
  y ∈ blockers_of (foldl (λ g e, add_edge g e.1 e.2) g edges) x ↔ (x, y) ∈ edges ∨ y ∈ blockers_of g x.
Proof.
  revert g. induction edges as [|[t b] l IH]; intros g; simpl; [set_solver|].
  rewrite IH, blockers_add_edge, elem_of_cons. simpl. split.
  - intros [?|[[-> ->]|?]]; auto.
  - intros [[[= -> ->]|?]|?]; auto.
Qed.
Lemma from_edges_blockers edges x y : y ∈ blockers_of (from_edges edges) x ↔ (x, y) ∈ edges.
Proof.
  unfold from_edges. rewrite foldl_add_edge_blockers. unfold blockers_of, no_edges; simpl.
  rewrite lookup_empty. set_solver.
Qed.

(** A well-formed graph is its edges. *)
Lemma graph_ext g g' : graph_wf g → graph_wf g' → (∀ x, blockers_of g x = blockers_of g' x) → g = g'.
Proof.
  intros [Hm Hf Hr] [Hm' Hf' Hr'] He.
  assert (∀ m m' : gmap EntityRef (gset EntityRef),
    (∀ k X, m !! k = Some X → X ≠ ∅) → (∀ k X, m' !! k = Some X → X ≠ ∅) →
    (∀ k, default ∅ (m !! k) = default ∅ (m' !! k)) → m = m') as Hmap.
  { intros m m' H1 H2 Hd. apply map_eq. intros k. specialize (Hd k).
    destruct (m !! k) as [X|] eqn:E1, (m' !! k) as [X'|] eqn:E2; simpl in Hd; subst; [done| | |done].
    - by destruct (H1 k ∅ E1).
    - by destruct (H2 k ∅ E2). }
  assert (∀ y, blocks_others g y = blocks_others g' y) as He'.
  { intros y. apply set_eq. intros x. by rewrite <-Hm, <-Hm', He. }
  destruct g as [f r], g' as [f' r']. f_equal; by apply Hmap.
Qed.

Lemma step_dom g x y : graph_wf g → waits_on g x y → x ∈ dom (forward g) ∧ y ∈ dom (reverse g).
Proof.
  intros [Hm _ _] Hs. split.
  - apply elem_of_dom. unfold waits_on, blockers_of in Hs. destruct (forward g !! x); [by eexists|set_solver].
  - unfold waits_on in Hs. apply Hm in Hs. apply elem_of_dom. unfold blocks_others in Hs.
    destruct (reverse g !! y); [by eexists|set_solver].
Qed.

(** A step out of [x], first one to a chosen target. *)
Lemma rtc_replaced (R R' : relation EntityRef) (t x : EntityRef) :
  (∀ y z, y ≠ t → R y z → R' y z) → rtc R x t → rtc R' x t.
Proof.
  intros Hsub Hr. induction Hr as [|x y z Hs Hr IH]; [by apply rtc_refl|].
  destruct (decide (x = z)) as [->|Hne]; [apply rtc_refl|]. eapply rtc_l; [by apply Hsub|by apply IH].
Qed.

(** Marking an element of [X] leaves one fewer of [X] unmarked. *)
Lemma size_visited {A} `{Countable A} (X seen : gset A) x :
  x ∈ X → x ∉ seen → size (X ∖ ({[x]} ∪ seen)) + 1 = size (X ∖ seen).
Proof.
  intros Hx Hs. pose proof (size_union {[x]} (X ∖ ({[x]} ∪ seen))) as Hu.
  rewrite size_singleton in Hu. replace (X ∖ seen) with ({[x]} ∪ X ∖ ({[x]} ∪ seen)); [rewrite Hu by set_solver; lia|].
  apply set_eq. intros y. destruct (decide (y = x)); set_solver.
Qed.

(** ** The depth-first walk *)

(** The edges out of the nodes not seen yet. *)
Definition pending_of (seen : gset EntityRef) (l : list (EntityRef * gset EntityRef)) : nat :=
  sum_list ((λ kv : EntityRef * gset EntityRef, if decide (kv.1 ∈ seen) then 0 else size kv.2) <$> l).
Definition pending (g : DependencyGraph) (seen : gset EntityRef) : nat := pending_of seen (map_to_list (forward g)).

Lemma pending_of_absent seen x l : x ∉ l.*1 → pending_of ({[x]} ∪ seen) l = pending_of seen l.
Proof.
  intros Hx. unfold pending_of. f_equal. apply list_fmap_ext. intros i [k X] Hi. simpl.
  apply list_elem_of_lookup_2 in Hi. assert (k ≠ x) as Hk.
  { intros ->. apply Hx. apply list_elem_of_fmap. by exists (x, X). }
  destruct (decide (k ∈ {[x]} ∪ seen)), (decide (k ∈ seen)); set_solver.
Qed.
Lemma pending_of_seen seen x X l :
  NoDup l.*1 → (x, X) ∈ l → x ∉ seen → pending_of ({[x]} ∪ seen) l + size X = pending_of seen l.
Proof.
  intros Hnd Hin Hx. induction l as [|[k Y] l IH]; [by apply not_elem_of_nil in Hin|].
  rewrite fmap_cons in Hnd. apply NoDup_cons in Hnd as [Hk Hnd]. unfold pending_of in *. cbn [fmap list_fmap sum_list].
  simpl. apply elem_of_cons in Hin as [[= -> ->]|Hin].
  - rewrite decide_True by set_solver. rewrite (decide_False _ _ Hx).
    pose proof (pending_of_absent seen k l Hk) as Hp. unfold pending_of in Hp. rewrite Hp. lia.
  - assert (k ≠ x) as Hkx by (intros ->; apply Hk, list_elem_of_fmap; by exists (x, X)).
    specialize (IH Hnd Hin). destruct (decide (k ∈ {[x]} ∪ seen)), (decide (k ∈ seen)); [lia|set_solver|set_solver|lia].
Qed.
Lemma pending_step g seen x : x ∉ seen → pending g ({[x]} ∪ seen) + size (blockers_of g x) = pending g seen.
Proof.
  intros Hx. unfold pending, blockers_of. destruct (forward g !! x) as [X|] eqn:E; simpl.
  - apply pending_of_seen; [apply NoDup_fst_map_to_list| |done]. by apply elem_of_map_to_list.
  - rewrite Nat.add_0_r. apply pending_of_absent. intros Hin.
    apply list_elem_of_fmap in Hin as ([k X] & -> & Hin). apply elem_of_map_to_list in Hin. simpl in E. congruence.
Qed.
Lemma pending_start g : pending g ∅ = edge_count g.
Proof.
  unfold pending, pending_of, edge_count. f_equal.
Qed.

Lemma elem_of_push g seen stack node z :
  z ∈ push_unseen g seen stack node ↔ z ∈ stack ∨ (waits_on g node z ∧ z ∉ seen).
Proof.
  unfold push_unseen, waits_on. rewrite <-(elem_of_ascending (blockers_of g node)).
  generalize (ascending (blockers_of g node)). intros l. revert stack.
  induction l as [|x l IH]; intros stack; simpl; [set_solver|]. rewrite IH. case_decide; set_solver.
Qed.
Lemma length_push g seen stack node :
  length (push_unseen g seen stack node) ≤ length stack + size (blockers_of g node).
Proof.
  unfold push_unseen. rewrite <-length_ascending. generalize (ascending (blockers_of g node)). intros l. revert stack.
  induction l as [|x l IH]; intros stack; simpl; [lia|]. case_decide; [specialize (IH stack)|specialize (IH (x :: stack))]; simpl in *; lia.
Qed.

(** From a seen node the walk leaves the seen part through the stack. *)
Definition seen_closed (g : DependencyGraph) (stack : list EntityRef) (seen : gset EntityRef) : Prop :=
  ∀ x y, x ∈ seen → waits_on g x y → y ∈ seen ∨ y ∈ stack.
Lemma walk_leaves g stack seen x task :
  seen_closed g stack seen → task ∉ seen → x ∈ seen → rtc (waits_on g) x task →
  ∃ b, b ∈ stack ∧ rtc (waits_on g) b task.
Proof.
  intros Hc Ht Hx Hr. induction Hr as [x|x y z Hxy Hr IH]; [done|].
  destruct (Hc x y Hx Hxy) as [Hy|Hy]; [by apply IH|by exists y].
Qed.

(** The walk answers whether [task] is reachable from the stack. *)
Lemma would_cycle_loop_exact fuel g task stack seen :
  length stack + pending g seen < fuel → task ∉ seen → seen_closed g stack seen →
  would_cycle_loop fuel g task stack seen = true ↔ ∃ b, b ∈ stack ∧ rtc (waits_on g) b task.
Proof.
  revert stack seen. induction fuel as [|fuel IH]; intros stack seen Hf Ht Hc; [lia|]. cbn [would_cycle_loop].
  destruct stack as [|node stack]; [set_solver|]. simpl in Hf.
  destruct (decide (node = task)) as [->|Hne]; [split; [|done]; intros _; exists task; set_solver|].
  destruct (decide (node ∈ seen)) as [Hs|Hs].
  - assert (seen_closed g stack seen) as Hc'.
    { intros x y Hx Hxy. destruct (Hc x y Hx Hxy) as [|Hy]; [by left|].
      apply elem_of_cons in Hy as [->|Hy]; [by left|by right]. }
    rewrite IH by (done || lia). split; [set_solver|]. intros (b & Hb & Hr).
    apply elem_of_cons in Hb as [->|Hb]; [|by exists b]. by eapply walk_leaves.
  - pose proof (pending_step g seen node Hs) as Hp.
    pose proof (length_push g ({[node]} ∪ seen) stack node) as Hl.
    assert (seen_closed g (push_unseen g ({[node]} ∪ seen) stack node) ({[node]} ∪ seen)) as Hc'.
    { intros x y Hx Hy. rewrite elem_of_push. destruct (decide (y ∈ {[node]} ∪ seen)); [by left|right].
      apply elem_of_union in Hx as [Hx|Hx]; [set_solver|]. destruct (Hc x y Hx Hy); set_solver. }
    rewrite IH; [|lia|set_solver|done]. split.
    + intros (b & Hb & Hr). apply elem_of_push in Hb as [Hb|[Hb _]]; [exists b; set_solver|].
      exists node. split; [by left|]. by eapply rtc_l.
    + intros (b & Hb & Hr). apply elem_of_cons in Hb as [->|Hb]; [|exists b; rewrite elem_of_push; auto].
      eapply walk_leaves; [done| | |done]; set_solver.
Qed.

Lemma would_cycle_reaches g task new_blockers :
  would_cycle g task new_blockers = true ↔ ∃ b, b ∈ new_blockers ∧ rtc (waits_on g) b task.
Proof.
  unfold would_cycle. destruct (decide (task ∈ new_blockers)) as [Hin|Hin].
  { split; [|done]. intros _. exists task. split; [done|apply rtc_refl]. }
  rewrite would_cycle_loop_exact.
  - split; intros (b & Hb & Hr); exists b; (split; [|done]); revert Hb; by rewrite elem_of_rev, elem_of_ascending.
  - rewrite length_rev, length_ascending, pending_start. lia.
  - set_solver.
  - intros x y Hx. set_solver.
Qed.

(** The graph in which [task]'s blockers are replaced. *)
Definition replaced (g : DependencyGraph) (task : EntityRef) (new_blockers : gset EntityRef) : relation EntityRef :=
  λ x y, if decide (x = task) then y ∈ new_blockers else waits_on g x y.

Lemma tc_split {A} (R : relation A) x : tc R x x ↔ ∃ y, R x y ∧ rtc R y x.
Proof.
  split.
  - intros Ht. inversion Ht as [? ? Hs|? y ? Hs Ht']; subst; [exists x; split; [done|apply rtc_refl]|].
    exists y. split; [done|by apply tc_rtc].
  - intros (y & Hs & Hr). by eapply tc_rtc_r; [apply tc_once|].
Qed.

(** Every step of a cycle lies on the cycle. *)
Lemma tc_on_cycle {A} (R R' : relation A) x :
  (∀ y z, rtc R x y → R y z → rtc R z x → R' y z) → tc R x x → tc R' x x.
Proof.
  intros Hstep Ht.
  assert (∀ y z, rtc R y z → rtc R x y → rtc R z x → rtc R' y z) as Hgo.
  { intros y z Hr. induction Hr as [|y w z Hs Hr IH]; intros Hxy Hzx; [apply rtc_refl|].
    eapply rtc_l; [apply Hstep; [done|done|by etrans]|]. apply IH; [by eapply rtc_r|done]. }
  apply tc_split in Ht as (y & Hs & Hr). apply tc_split. exists y.
  split; [by apply Hstep|]. apply Hgo; [done|by apply rtc_once|apply rtc_refl].
Qed.

(** The submit-time check of a task's new blockers is exact: it
    reports a cycle precisely when the graph with the task's blockers replaced
    has one through that task, self-blocks included.  So in a graph without
    cycles it reports exactly the edits that make one. *)
Theorem would_cycle_exact g task new_blockers :
  (would_cycle g task new_blockers = true ↔ tc (replaced g task new_blockers) task task) ∧
  (acyclic g → would_cycle g task new_blockers = false ↔ ∀ x, ¬ tc (replaced g task new_blockers) x x).
Proof.
  assert (would_cycle g task new_blockers = true ↔ tc (replaced g task new_blockers) task task) as Hmain.
  { rewrite would_cycle_reaches, tc_split. unfold replaced at 1. split.
    - intros (b & Hb & Hr). exists b. rewrite decide_True by done. split; [done|].
      eapply rtc_replaced; [|exact Hr]. intros y z Hy Hs. unfold replaced. by rewrite decide_False.
    - intros (b & Hb & Hr). rewrite decide_True in Hb by done. exists b. split; [done|].
      eapply rtc_replaced; [|exact Hr]. intros y z Hy Hs. unfold replaced in Hs. by rewrite decide_False in Hs. }
  split; [done|]. intros Hac. rewrite <-not_true_iff_false, Hmain. split.
  - intros Hn x Ht. apply (Hac x).
    assert (∀ y z, rtc (replaced g task new_blockers) x y → replaced g task new_blockers y z →
      rtc (replaced g task new_blockers) z x → waits_on g y z) as Hstep.
    { intros y z Hxy Hyz Hzx. unfold replaced in Hyz. destruct (decide (y = task)) as [->|]; [|done].
      destruct Hn. apply tc_split. exists z. split; [unfold replaced; by rewrite decide_True|]. by etrans. }
    by eapply tc_on_cycle.
  - intros Hn. apply Hn.
Qed.

(** ** The breadth-first walk *)

(** [trail R x z l]: [l] lists the nodes of a path of [R]-steps from [x] to
    [z], both included. *)
Inductive trail (R : relation EntityRef) : EntityRef → EntityRef → list EntityRef → Prop :=
  | trail_here x : trail R x x [x]
  | trail_step x y z l : R x y → trail R y z l → trail R x z (x :: l).

Lemma trail_snoc R x y z l : trail R x y l → R y z → trail R x z (l ++ [z]).
Proof. induction 1; intros Hs; simpl; econstructor; eauto using trail_here. Qed.
Lemma trail_rtc R x z l : trail R x z l → rtc R x z.
Proof. induction 1; [apply rtc_refl|]. by eapply rtc_l. Qed.
Lemma trail_mono (R R' : relation EntityRef) x z l :
  (∀ x y, R x y → R' x y) → trail R x z l → trail R' x z l.
Proof. intros Hm. induction 1; econstructor; eauto. Qed.

(** The way back to the start through [came_from], nearest first. *)
Inductive chain (g : DependencyGraph) (cf : gmap EntityRef EntityRef) (from : EntityRef) :
    EntityRef → list EntityRef → Prop :=
  | chain_start : chain g cf from from [from]
  | chain_next x p l : cf !! x = Some p → waits_on g p x → chain g cf from p l → chain g cf from x (x :: l).

Lemma chain_trail g cf from x l : chain g cf from x l → trail (waits_on g) from x (rev l).
Proof. induction 1; simpl; [apply trail_here|]. by eapply trail_snoc. Qed.
Lemma chain_walk_back g cf from x l fuel :
  cf !! from = None → chain g cf from x l → length l ≤ S fuel → x :: walk_back fuel cf x = l.
Proof.
  intros Hfrom Hc. revert fuel. induction Hc as [|x p l Hx _ Hc IH]; intros fuel Hf.
  - destruct fuel; simpl; [done|]. by rewrite Hfrom.
  - destruct fuel as [|fuel]; simpl in Hf |- *; [inversion Hc; simplify_eq; simpl in *; lia|].
    rewrite Hx. f_equal. apply IH. lia.
Qed.
Lemma chain_extend g cf from x y p l :
  x ∉ l → chain g cf from y l → chain g (<[x := p]> cf) from y l.
Proof.
  intros Hx Hc. induction Hc as [|y q l Hy Hs Hc IH]; [constructor|].
  apply not_elem_of_cons in Hx as [Hxy Hx]. econstructor; [by rewrite lookup_insert_ne|done|by apply IH].
Qed.

Record search_inv (g : DependencyGraph) (from : EntityRef) (s : Search) : Prop := {
  si_start : from ∈ seen_ s ∧ came_from s !! from = None;
  si_dom : seen_ s = {[from]} ∪ dom (came_from s);
  si_chain : ∀ x, x ∈ seen_ s → ∃ l, chain g (came_from s) from x l ∧ NoDup l ∧ ∀ y, y ∈ l → y ∈ seen_ s;
}.

Lemma visit_inv g from node s next :
  search_inv g from s → node ∈ seen_ s → waits_on g node next → search_inv g from (visit node s next).
Proof.
  intros [[Hf Hnone] Hdom Hch] Hnode Hstep. unfold visit. destruct (decide (next ∈ seen_ s)) as [|Hnew]; [by split|].
  assert (next ≠ from) as Hne by (intros ->; done). split; simpl.
  - split; [set_solver|]. by rewrite lookup_insert_ne.
  - rewrite dom_insert_L, Hdom. set_solver.
  - intros x Hx. apply elem_of_union in Hx as [->%elem_of_singleton|Hx].
    + destruct (Hch node Hnode) as (l & Hl & Hnd & Hin). exists (next :: l). split_and!.
      * econstructor; [apply lookup_insert_eq|done|]. apply chain_extend; [|done]. intros Hn. by apply Hnew, Hin.
      * constructor; [|done]. intros Hn. by apply Hnew, Hin.
      * intros y Hy. apply elem_of_cons in Hy as [->|Hy]; [set_solver|]. specialize (Hin y Hy). set_solver.
    + destruct (Hch x Hx) as (l & Hl & Hnd & Hin). exists l. split_and!; [|done|set_solver].
      apply chain_extend; [|done]. intros Hn. by apply Hnew, Hin.
Qed.

(** What visiting a list of successors does to the queue and the seen set. *)
Lemma visit_all g from node l s :
  search_inv g from s → node ∈ seen_ s → (∀ x, x ∈ l → waits_on g node x) →
  let s' := foldl (visit node) s l in
  search_inv g from s' ∧
  (∀ x, x ∈ seen_ s' ↔ x ∈ seen_ s ∨ x ∈ l) ∧
  (∀ x, x ∈ queue s' ↔ x ∈ queue s ∨ (x ∈ l ∧ x ∉ seen_ s)) ∧
  (graph_wf g → length (queue s') + size (dom (reverse g) ∖ seen_ s') ≤
                length (queue s) + size (dom (reverse g) ∖ seen_ s)).
Proof.
  revert s. induction l as [|x l IH]; intros s Hs Hnode Hl; [simpl; set_solver|].
  assert (waits_on g node x) as Hx by (apply Hl; by left).
  pose proof (visit_inv g from node s x Hs Hnode Hx) as Hs'.
  assert (node ∈ seen_ (visit node s x)) as Hnode' by (unfold visit; case_decide; set_solver).
  destruct (IH (visit node s x) Hs' Hnode') as (Hi & Hseen & Hq & Hm); [intros y Hy; apply Hl; by right|].
  cbn [foldl]. split; [done|]. split; [|split].
  - intros y. rewrite Hseen, elem_of_cons. unfold visit. case_decide; set_solver.
  - intros y. rewrite Hq, elem_of_cons. unfold visit. destruct (decide (x ∈ seen_ s)); simpl; [set_solver|].
    rewrite elem_of_app, list_elem_of_singleton, elem_of_union, elem_of_singleton.
    destruct (decide (y = x)) as [->|]; [|tauto]. tauto.
  - intros Hwf. specialize (Hm Hwf). etrans; [exact Hm|]. unfold visit. destruct (decide (x ∈ seen_ s)) as [|Hnew]; [done|].
    simpl. rewrite length_app. simpl. destruct (step_dom g node x Hwf Hx) as [_ Hd].
    rewrite <-Nat.add_assoc. apply Nat.add_le_mono_l.
    pose proof (size_visited (dom (reverse g)) (seen_ s) x Hd Hnew). lia.
Qed.

(** The state between two turns of the loop. *)
Record between_turns (g : DependencyGraph) (from to : EntityRef) (s : Search) : Prop := {
  bt_inv : search_inv g from s;
  bt_queued : ∀ x, x ∈ queue s → x ∈ seen_ s;
  bt_closed : ∀ x y, x ∈ seen_ s → x ∉ queue s → waits_on g x y → y ∈ seen_ s;
  bt_target : to ∈ seen_ s → to ∈ queue s;
}.

Lemma closed_reach g (X : gset EntityRef) x y :
  (∀ x y, x ∈ X → waits_on g x y → y ∈ X) → x ∈ X → rtc (waits_on g) x y → y ∈ X.
Proof. intros Hc Hx Hr. induction Hr; eauto. Qed.

Lemma found_path g from s x :
  search_inv g from s → x ∈ seen_ s →
  ∃ l, rev (x :: walk_back (S (size (came_from s))) (came_from s) x) = l ∧ trail (waits_on g) from x l ∧ NoDup l.
Proof.
  intros [[Hf Hnone] Hdom Hch] Hx. destruct (Hch x Hx) as (l & Hl & Hnd & Hin). exists (rev l).
  rewrite (chain_walk_back g (came_from s) from x l).
  - split; [done|]. split; [by eapply chain_trail|]. by rewrite <-Permutation_rev.
  - done.
  - done.
  - assert (length l ≤ size (seen_ s)) as Hlen.
    { rewrite <-(size_list_to_set (C:=gset EntityRef) l Hnd). apply subseteq_size. intros y Hy.
      apply elem_of_list_to_set in Hy. by apply Hin. }
    rewrite Hdom, size_union, size_singleton, size_dom in Hlen; [lia|]. apply disjoint_singleton_l. by apply not_elem_of_dom.
Qed.

Lemma path_loop_exact fuel g from to s :
  graph_wf g → between_turns g from to s →
  length (queue s) + size (dom (reverse g) ∖ seen_ s) < fuel →
  match path_loop fuel g to s with
  | Some l => trail (waits_on g) from to l ∧ NoDup l
  | None => ¬ rtc (waits_on g) from to
  end.
Proof.
  intros Hwf. revert s. induction fuel as [|fuel IH]; intros s [Hinv Hq Hc Ht] Hf; [lia|]. cbn [path_loop].
  destruct (queue s) as [|node q] eqn:Eq.
  { intros Hr. assert (to ∈ seen_ s) as Hto.
    { eapply closed_reach; [|apply Hinv|exact Hr]. intros x y Hx. apply Hc; [done|set_solver]. }
    specialize (Ht Hto). set_solver. }
  destruct (decide (node = to)) as [->|Hne].
  - destruct (found_path g from s to) as (l & -> & ? & ?); [done|apply Hq; by left|done].
  - assert (search_inv g from (mkSearch (came_from s) q (seen_ s))) as Hinv' by (by destruct Hinv).
    destruct (visit_all g from node (ascending (blockers_of g node)) _ Hinv') as (Hi & Hseen & Hqueue & Hm);
      [apply Hq; by left|intros x; by rewrite elem_of_ascending|].
    specialize (Hm Hwf). cbn [queue seen_] in *. set (s' := foldl _ _ _) in *. apply IH; [|simpl in Hf; lia].
    split; [done|..].
    + intros x. rewrite Hqueue, Hseen. intros [Hx|[Hx _]]; [left; apply Hq; by right|by right].
    + intros x y. rewrite !Hseen, Hqueue, !elem_of_ascending. intros Hx Hnq Hs.
      destruct (decide (x = node)) as [->|Hxn]; [by right|]. left.
      apply (Hc x y); [|rewrite elem_of_cons; tauto|done]. destruct (decide (x ∈ seen_ s)); [done|]. set_solver.
    + rewrite Hseen, Hqueue. intros [Hto|Hto].
      * specialize (Ht Hto). apply elem_of_cons in Ht as [->|]; [done|by left].
      * destruct (decide (to ∈ seen_ s)) as [Hts|]; [|by right]. specialize (Ht Hts).
        apply elem_of_cons in Ht as [->|]; [done|by left].
Qed.

(** [path] finds a path, simple, exactly when there is one. *)
Lemma path_exact g from to :
  graph_wf g →
  match path g from to with
  | Some l => trail (waits_on g) from to l ∧ NoDup l
  | None => ¬ rtc (waits_on g) from to
  end.
Proof.
  intros Hwf. unfold path. apply path_loop_exact; [done| |].
  - split; simpl; [split; simpl| | |].
    + split; [set_solver|apply lookup_empty].
    + rewrite dom_empty_L. set_solver.
    + intros x ->%elem_of_singleton. exists [from]. split; [constructor|]. split; [apply NoDup_singleton|set_solver].
    + set_solver.
    + set_solver.
    + set_solver.
  - simpl. pose proof (subseteq_size (dom (reverse g) ∖ {[from]}) (dom (reverse g))) as Hs.
    specialize (Hs ltac:(set_solver)). lia.
Qed.

(** ** Oldest edge first *)

Lemma acyclic_add_edge g t b : acyclic g → ¬ rtc (waits_on g) b t → acyclic (add_edge g t b).
Proof.
  intros Hac Hn x Ht. apply (Hac x). eapply tc_on_cycle; [|exact Ht]. intros y z Hxy Hyz Hzx.
  pose proof Hyz as Hs. unfold waits_on in Hs. apply blockers_add_edge in Hs as [[-> ->]|Hs]; [|done]. destruct Hn.
  assert (rtc (waits_on (add_edge g t b)) b t) as Hbt by by etrans.
  eapply rtc_replaced; [|exact Hbt]. intros y z Hy Hs. unfold waits_on in Hs.
  apply blockers_add_edge in Hs as [[-> _]|Hs]; [done|exact Hs].
Qed.

Section resolve.
Context {St : Type} `{EqDecision St} `{CmpLaws St}.
Abbreviation key e := (e.1.2, e.2) (only parsing).
Implicit Types (l : list (St * EntityRef * EntityRef)) (edges : list (EntityRef * EntityRef * St)).

(** The edge's least stamp: the one the rule orders it by. *)
Definition oldest edges (t b : EntityRef) (s : St) : Prop :=
  (t, b, s) ∈ edges ∧ ∀ s', (t, b, s') ∈ edges → s ≼ s'.

Lemma stamp_tle (s s' : St) (t b : EntityRef) : (s, t, b) ≼ (s', t, b) ↔ s ≼ s'.
Proof.
  rewrite !tle_not_tlt, !prod_tlt. simpl. pose proof (tlt_irrefl t). pose proof (tlt_irrefl b). tauto.
Qed.

Lemma elem_of_retain_first seen l s t b :
  StronglySorted tle l →
  (s, t, b) ∈ retain_first seen l ↔ ((t, b) ∉ seen) ∧ (s, t, b) ∈ l ∧ ∀ s', (s', t, b) ∈ l → s ≼ s'.
Proof.
  intros Hl. revert seen. induction Hl as [|[[s1 t1] b1] l Hl IH Hhd]; intros seen; simpl; [set_solver|].
  rewrite Forall_forall in Hhd. destruct (decide ((t1, b1) ∈ seen)) as [Hin|Hin].
  - rewrite IH. split; intros (Hs & Hm & Hmin); (split; [done|]).
    + split; [by right|]. intros s' [[= -> -> ->]|Hs']%elem_of_cons; [done|by apply Hmin].
    + apply elem_of_cons in Hm as [[= -> -> ->]|Hm]; [done|]. split; [done|]. intros s' Hs'. apply Hmin. by right.
  - rewrite elem_of_cons, IH. split.
    + intros [[= -> -> ->]|(Hs & Hm & Hmin)].
      * split; [done|]. split; [by left|]. intros s' [[= ->]|Hs']%elem_of_cons; [apply tle_refl|].
        apply (stamp_tle _ _ t1 b1). by apply Hhd.
      * split; [set_solver|]. split; [by right|].
        intros s' [[= -> -> ->]|Hs']%elem_of_cons; [set_solver|by apply Hmin].
    + intros (Hs & Hm & Hmin). destruct (decide ((t, b) = (t1, b1))) as [[= -> ->]|Hne].
      * left. apply elem_of_cons in Hm as [|Hm]; [done|]. do 2 f_equal. apply tle_antisymm.
        -- apply Hmin. by left.
        -- apply (stamp_tle _ _ t1 b1). by apply Hhd.
      * right. apply elem_of_cons in Hm as [[= -> -> ->]|Hm]; [done|]. split; [set_solver|]. split; [done|].
        intros s' Hs'. apply Hmin. by right.
Qed.

Lemma retain_first_sublist seen l : retain_first seen l `sublist_of` l.
Proof.
  revert seen. induction l as [|[[s t] b] l IH]; intros seen; simpl; [done|].
  destruct (decide _); [by apply sublist_cons|by apply sublist_skip].
Qed.
Lemma retain_first_keys seen l :
  NoDup ((λ e, key e) <$> retain_first seen l) ∧ ∀ k, k ∈ (λ e, key e) <$> retain_first seen l → k ∉ seen.
Proof.
  revert seen. induction l as [|[[s t] b] l IH]; intros seen; simpl; [split; [constructor|set_solver]|].
  destruct (decide ((t, b) ∈ seen)) as [|Hn]; [apply IH|]. destruct (IH ({[(t, b)]} ∪ seen)) as [Hnd Hk].
  cbn [fmap list_fmap]. simpl. split.
  - constructor; [|done]. intros Hin. specialize (Hk _ Hin). set_solver.
  - intros k [->|Hin]%elem_of_cons; [done|]. specialize (Hk _ Hin). set_solver.
Qed.

Lemma elem_of_ordered edges s t b : (s, t, b) ∈ ordered_edges edges ↔ oldest edges t b s.
Proof.
  unfold ordered_edges, oldest.
  rewrite elem_of_retain_first by (apply isort_StronglySorted; [intros ??; apply tle_total|intros ???; apply tle_trans]).
  assert (∀ s', (s', t, b) ∈ isort tle ((λ e : EntityRef * EntityRef * St, (e.2, e.1.1, e.1.2)) <$> edges) ↔ (t, b, s') ∈ edges) as He.
  { intros s'. rewrite elem_of_isort, list_elem_of_fmap. split.
    - intros ([[t' b'] s''] & [= -> -> ->] & Hin). done.
    - intros Hin. by exists (t, b, s'). }
  rewrite He. setoid_rewrite He. set_solver.
Qed.

Lemma ordered_sorted edges : StronglySorted tlt (ordered_edges edges).
Proof.
  assert (StronglySorted tle (ordered_edges edges)) as Hs.
  { eapply StronglySorted_sublist; [apply retain_first_sublist|].
    apply isort_StronglySorted; [intros ??; apply tle_total|intros ???; apply tle_trans]. }
  pose proof (proj1 (retain_first_keys ∅ (isort tle ((λ e : EntityRef * EntityRef * St, (e.2, e.1.1, e.1.2)) <$> edges)))) as Hnd.
  change (retain_first _ _) with (ordered_edges edges) in Hnd. revert Hnd.
  induction Hs as [|x l Hs IH Hx]; intros Hnd; [constructor|].
  rewrite fmap_cons in Hnd. apply NoDup_cons in Hnd as [Hk Hnd]. constructor; [by apply IH|].
  rewrite Forall_forall in Hx |- *. intros y Hy. apply tle_ne_tlt; [by apply Hx|]. intros ->.
  apply Hk, list_elem_of_fmap. by exists y.
Qed.

(** Some stamp of an edge is its least. *)
Lemma least_stamp edges t b s : (t, b, s) ∈ edges → ∃ s', oldest edges t b s'.
Proof.
  intros Hin. unfold oldest.
  assert (∀ l : list (EntityRef * EntityRef * St), (∃ s0, (t, b, s0) ∈ l) →
    ∃ s', (t, b, s') ∈ l ∧ ∀ s0, (t, b, s0) ∈ l → s' ≼ s0) as Hl; [|apply Hl; by exists s].
  clear Hin. induction l as [|[[t1 b1] s1] l IH]; intros [s0 Hs0]; [by apply not_elem_of_nil in Hs0|].
  assert ((t, b) ∈ l.*1 ↔ ∃ s2, (t, b, s2) ∈ l) as Hfst.
  { rewrite list_elem_of_fmap. split; [intros ([[]] & [= <- <-] & ?); by eexists|intros [s2 ?]; by exists (t, b, s2)]. }
  destruct (decide ((t, b) ∈ l.*1)) as [Hex|Hex]; rewrite Hfst in Hex.
  - destruct (IH Hex) as (s' & Hs' & Hmin).
    destruct (decide ((t, b) = (t1, b1))) as [[= <- <-]|Hne]; [destruct (decide (s1 ≺ s')) as [Hlt|Hge]|].
    + exists s1. split; [by left|]. intros s2 [[= ->]|Hs2]%elem_of_cons; [apply tle_refl|].
      apply tlt_tle. eapply tlt_tle_trans; [exact Hlt|by apply Hmin].
    + exists s'. split; [by right|]. intros s2 [[= ->]|Hs2]%elem_of_cons; [by apply not_tlt|by apply Hmin].
    + exists s'. split; [by right|]. intros s2 [[= -> -> ->]|Hs2]%elem_of_cons; [done|by apply Hmin].
  - apply elem_of_cons in Hs0 as [[= -> -> ->]|Hs0]; [|destruct Hex; by exists s0].
    exists s1. split; [by left|]. intros s2 [[= ->]|Hs2]%elem_of_cons; [apply tle_refl|destruct Hex; by exists s2].
Qed.

(** Strictly sorted lists with the same elements are equal. *)
Lemma sorted_ext l1 l2 : StronglySorted tlt l1 → StronglySorted tlt l2 → (∀ e, e ∈ l1 ↔ e ∈ l2) → l1 = l2.
Proof.
  intros H1. revert l2. induction H1 as [|x l1 H1 IH Hx]; intros l2 H2 He.
  - destruct l2 as [|y l2]; [done|]. exfalso. eapply not_elem_of_nil, He. by left.
  - destruct H2 as [|y l2 H2 Hy]; [exfalso; eapply not_elem_of_nil, He; by left|].
    rewrite Forall_forall in Hx, Hy.
    assert (x = y) as <-.
    { destruct (proj1 (elem_of_cons l2 x y) (proj1 (He x) (list_elem_of_here _ _))) as [|Hin]; [done|].
      destruct (proj1 (elem_of_cons l1 y x) (proj2 (He y) (list_elem_of_here _ _))) as [|Hin']; [done|].
      pose proof (Hx y Hin'). pose proof (Hy x Hin). tord. }
    f_equal. apply IH; [done|]. intros e. specialize (He e). rewrite !elem_of_cons in He. split; intros Hin.
    + destruct (proj1 He (or_intror Hin)) as [->|]; [|done]. destruct (tlt_irrefl _ (Hx _ Hin)).
    + destruct (proj2 He (or_intror Hin)) as [->|]; [|done]. destruct (tlt_irrefl _ (Hy _ Hin)).
Qed.

(** A kept edge that the rule took before [e]. *)
Definition kept_before edges (kept : DependencyGraph) (e : St * EntityRef * EntityRef) : relation EntityRef :=
  λ x y, waits_on kept x y ∧ ∃ s, oldest edges x y s ∧ (s, x, y) ≺ e.

(** The state of the rule after the edges [l] of the order. *)
Record judged l (kept : DependencyGraph) (suppressed : list (SuppressedEdge St)) : Prop := {
  jd_wf : graph_wf kept;
  jd_acyclic : acyclic kept;
  jd_kept : ∀ t b, waits_on kept t b → ∃ s, (s, t, b) ∈ l;
  jd_all : ∀ s t b, (s, t, b) ∈ l → waits_on kept t b ∨ ∃ e, e ∈ suppressed ∧ se_task e = t ∧ se_blocker e = b;
  jd_suppressed : ∀ e, e ∈ suppressed →
    (se_stamp e, se_task e, se_blocker e) ∈ l ∧ ¬ waits_on kept (se_task e) (se_blocker e) ∧
    ∃ back, se_cycle e = se_task e :: back ∧ NoDup back ∧
      trail (λ x y, waits_on kept x y ∧ ∃ s, (s, x, y) ∈ l ∧ (s, x, y) ≺ (se_stamp e, se_task e, se_blocker e))
            (se_blocker e) (se_task e) back;
}.

Lemma judged_start : judged [] no_edges [].
Proof.
  assert (∀ t b, ¬ waits_on no_edges t b) as Hno.
  { intros t b. unfold waits_on, blockers_of, no_edges; simpl. rewrite lookup_empty. set_solver. }
  split; [apply graph_wf_empty| | | |]; try set_solver.
  - intros x Ht. apply tc_split in Ht as (y & Hs & _). by apply (Hno x y).
Qed.

Lemma judged_step l kept suppressed s t b :
  judged l kept suppressed → Forall (λ x, x ≺ (s, t, b)) l → (∀ s', (s', t, b) ∉ l) →
  let acc := judge (kept, suppressed) (s, t, b) in judged (l ++ [(s, t, b)]) acc.1 acc.2.
Proof.
  intros [Hwf Hac Hk Hall Hsup] Hlt Hfresh. rewrite Forall_forall in Hlt. simpl.
  pose proof (path_exact kept b t Hwf) as Hp. destruct (path kept b t) as [back|]; simpl.
  - destruct Hp as [Htr Hnd]. split; [done|done| | |].
    + intros t' b' Hs. destruct (Hk t' b' Hs) as [s' ?]. exists s'. set_solver.
    + intros s' t' b' [Hin|HX%list_elem_of_singleton]%elem_of_app; [|injection HX as -> -> ->].
      * destruct (Hall _ _ _ Hin) as [? | (e & ? & ?)]; [by left|right; exists e; set_solver].
      * right. exists (mkSuppressed t b s (t :: back)). set_solver.
    + intros e [He| ->%list_elem_of_singleton]%elem_of_app.
      * destruct (Hsup e He) as (Hin & Hn & bk & ? & ? & Ht). split; [set_solver|]. split; [done|]. exists bk.
        split; [done|]. split; [done|]. eapply trail_mono; [|exact Ht]. simpl. intros x y (? & s' & ? & ?).
        split; [done|]. exists s'. set_solver.
      * simpl. split; [set_solver|]. split; [intros Hs; destruct (Hk _ _ Hs) as [s' Hin]; by apply (Hfresh s')|].
        exists back. split; [done|]. split; [done|]. eapply trail_mono; [|exact Htr]. intros x y Hs. split; [done|].
        destruct (Hk x y Hs) as [s' Hin]. exists s'. split; [set_solver|by apply Hlt].
  - split; [by apply graph_wf_add_edge|by apply acyclic_add_edge| | |].
    + intros t' b' Hs. unfold waits_on in Hs. apply blockers_add_edge in Hs as [[-> ->]|Hs]; [exists s; set_solver|].
      destruct (Hk t' b' Hs) as [s' ?]. exists s'. set_solver.
    + intros s' t' b' Hin. unfold waits_on. rewrite blockers_add_edge.
      apply elem_of_app in Hin as [Hin|[= -> -> ->]%list_elem_of_singleton]; [|by left; left].
      destruct (Hall _ _ _ Hin) as [? | ?]; [left; by right|by right].
    + intros e He. destruct (Hsup e He) as (Hin & Hn & bk & ? & ? & Ht). split; [set_solver|]. split.
      * unfold waits_on. rewrite blockers_add_edge. intros [[<- <-]|Hs]; [|by apply Hn].
        by apply (Hfresh (se_stamp e)).
      * exists bk. split; [done|]. split; [done|]. eapply trail_mono; [|exact Ht]. simpl. intros x y (? & s' & ? & ?).
        split; [unfold waits_on; rewrite blockers_add_edge; by right|]. exists s'. set_solver.
Qed.

Lemma judged_all edges :
  let r := resolve_cycles edges in judged (ordered_edges edges) r.1 r.2.
Proof.
  unfold resolve_cycles. pose proof (ordered_sorted edges) as Hs.
  pose proof (proj1 (retain_first_keys ∅ (isort tle ((λ e : EntityRef * EntityRef * St, (e.2, e.1.1, e.1.2)) <$> edges)))) as Hnd.
  change (retain_first _ _) with (ordered_edges edges) in Hnd. revert Hs Hnd.
  induction (ordered_edges edges) as [|[[s t] b] l IH] using rev_ind; intros Hs Hnd; [apply judged_start|].
  rewrite foldl_snoc. apply StronglySorted_app in Hs as (Hlt & Hl & _).
  rewrite fmap_app in Hnd. apply NoDup_app in Hnd as (Hnd & Hdisj & _).
  destruct (foldl judge (no_edges, []) l) as [kept suppressed]. apply judged_step.
  - by apply IH.
  - apply Forall_forall. intros x Hx. apply Hlt; [done|by apply list_elem_of_singleton].
  - intros s' Hin. apply (Hdisj (t, b)); [|by left]. apply list_elem_of_fmap. by exists (s', t, b).
Qed.

(** C26: [resolve_cycles] breaks every cycle, oldest edge first.  The
    kept graph is acyclic; every edge given is either kept or suppressed, never
    both; and each suppressed edge carries its least stamp and a genuine simple
    cycle it would close, made of kept edges that the order (stamp, then task,
    then blocker) puts before it. *)
Theorem resolve_cycles_breaks_every_cycle edges :
  let '(kept, suppressed) := resolve_cycles edges in
  acyclic kept ∧
  (∀ t b, (∃ s, (t, b, s) ∈ edges) ↔
          waits_on kept t b ∨ ∃ e, e ∈ suppressed ∧ se_task e = t ∧ se_blocker e = b) ∧
  (∀ e, e ∈ suppressed →
     ¬ waits_on kept (se_task e) (se_blocker e) ∧ oldest edges (se_task e) (se_blocker e) (se_stamp e) ∧
     ∃ back, se_cycle e = se_task e :: back ∧ NoDup back ∧
       trail (kept_before edges kept (se_stamp e, se_task e, se_blocker e)) (se_blocker e) (se_task e) back).
Proof.
  pose proof (judged_all edges) as [Hwf Hac Hk Hall Hsup]. destruct (resolve_cycles edges) as [kept suppressed]. simpl in *.
  split; [done|]. split.
  - intros t b. split.
    + intros [s Hin]. destruct (least_stamp edges t b s Hin) as [s' Hs']. by eapply Hall, elem_of_ordered.
    + intros [Hs|(e & He & <- & <-)].
      * destruct (Hk t b Hs) as [s Hin]. apply elem_of_ordered in Hin as [? _]. by exists s.
      * destruct (Hsup e He) as [Hin _]. apply elem_of_ordered in Hin as [? _]. by eexists.
  - intros e He. destruct (Hsup e He) as (Hin & Hn & back & Hc & Hnd & Ht). split; [done|].
    split; [by apply elem_of_ordered|]. exists back. split; [done|]. split; [done|].
    eapply trail_mono; [|exact Ht]. simpl. intros x y (Hs & s & Hin' & Hlt). split; [done|].
    exists s. split; [by apply elem_of_ordered|done].
Qed.

(** The rule is a function of the set of edges: neither the order
    they are given in nor repetitions matter, so replicas holding the same
    edges read the same graph and set the same edges aside. *)
Theorem resolve_cycles_of_the_set edges1 edges2 :
  (∀ e, e ∈ edges1 ↔ e ∈ edges2) → resolve_cycles edges1 = resolve_cycles edges2.
Proof.
  intros He. unfold resolve_cycles. f_equal. apply sorted_ext; [apply ordered_sorted..|].
  intros [[s t] b]. rewrite !elem_of_ordered. unfold oldest. rewrite He. by setoid_rewrite He.
Qed.
End resolve.

(** ** Kahn's algorithm *)

(** In a finite set where every element has a step to another of the set, some
    element is on a cycle. *)
Lemma finite_no_exit {A} `{Countable A} (R : relation A) (X : gset A) x :
  x ∈ X → (∀ x, x ∈ X → ∃ y, y ∈ X ∧ R x y) → ¬ ∀ x, ¬ tc R x x.
Proof.
  intros Hx Hstep Hac.
  assert (∀ n, ∃ y l, length l = n ∧ NoDup (y :: l) ∧ (∀ z, z ∈ y :: l → z ∈ X) ∧ ∀ z, z ∈ l → tc R z y) as Hn.
  { induction n as [|n (y & l & Hl & Hnd & HX & Hr)].
    - exists x, []. split; [done|]. split; [apply NoDup_singleton|]. set_solver.
    - destruct (Hstep y) as (z & Hz & Hyz); [apply HX; by left|].
      assert (∀ w, w ∈ y :: l → tc R w z) as Hr'.
      { intros w [->|Hw]%elem_of_cons; [by apply tc_once|]. eapply tc_r; [by apply Hr|done]. }
      exists z, (y :: l). split; [simpl; lia|]. split; [|split; [set_solver|done]].
      constructor; [|done]. intros Hin. by apply (Hac z), Hr'. }
  destruct (Hn (size X)) as (y & l & Hl & Hnd & HX & _).
  assert (size (list_to_set (y :: l) : gset A) ≤ size X) as Hs.
  { apply subseteq_size. intros z Hz. apply elem_of_list_to_set in Hz. by apply HX. }
  rewrite size_list_to_set in Hs by done. simpl in Hs. lia.
Qed.

Lemma release_spec ds w rdy :
  NoDup ds → NoDup rdy → (∀ d, d ∈ ds → w !! d ≠ Some 0 ∧ d ∉ rdy) →
  ∃ w' rdy', release ds w rdy = Some (w', rdy') ∧ NoDup rdy' ∧
    (∀ n, w' !! n = if decide (n ∈ ds) then pred <$> w !! n else w !! n) ∧
    (∀ n, n ∈ rdy' ↔ n ∈ rdy ∨ (n ∈ ds ∧ w !! n = Some 1)).
Proof.
  revert w rdy. induction ds as [|d ds IH]; intros w rdy Hnd Hrdy Hw.
  { exists w, rdy. split; [done|]. split; [done|]. split; [done|set_solver]. }
  apply NoDup_cons in Hnd as [Hd Hnd]. destruct (Hw d) as [Hwd Hrd]; [by left|]. cbn [release].
  destruct (w !! d) as [[|n]|] eqn:E; [done| |].
  - destruct (IH (<[d := n]> w) (if decide (n = 0) then d :: rdy else rdy)) as (w' & rdy' & -> & Hnd' & Hlook & Hin).
    + done.
    + destruct (decide (n = 0)); [by constructor|done].
    + intros x Hx. assert (x ≠ d) as Hne by (intros ->; done). rewrite lookup_insert_ne by done.
      destruct (Hw x) as [? ?]; [by right|]. split; [done|]. destruct (decide (n = 0)); set_solver.
    + exists w', rdy'. split; [done|]. split; [done|]. split.
      * intros x. rewrite Hlook. destruct (decide (x = d)) as [->|Hne].
        -- rewrite decide_False, decide_True, lookup_insert_eq, E by set_solver. done.
        -- rewrite lookup_insert_ne by done. destruct (decide (x ∈ ds)), (decide (x ∈ d :: ds)); set_solver.
      * intros x. rewrite Hin, elem_of_cons. destruct (decide (x = d)) as [->|Hne].
        -- rewrite lookup_insert_eq, E. destruct (decide (n = 0)) as [->|Hn0]; [set_solver|].
           split; [intros [?|[? _]]; done|]. intros [?|[_ [= ->]]]; done.
        -- rewrite lookup_insert_ne by done. destruct (decide (n = 0)); set_solver.
  - destruct (IH w rdy) as (w' & rdy' & -> & Hnd' & Hlook & Hin); [done|done|intros; apply Hw; by right|].
    exists w', rdy'. split; [done|]. split; [done|]. split.
    + intros x. rewrite Hlook. destruct (decide (x = d)) as [->|Hne].
      * rewrite decide_False, decide_True, E by set_solver. done.
      * destruct (decide (x ∈ ds)), (decide (x ∈ d :: ds)); set_solver.
    + intros x. rewrite Hin, elem_of_cons. destruct (decide (x = d)) as [->|Hne]; [|set_solver]. rewrite E. set_solver.
Qed.

Record kahn_inv (g : DependencyGraph) (w : gmap EntityRef nat) (rdy : list EntityRef) (R : gset EntityRef) : Prop := {
  ki_waiting : ∀ n, w !! n = if decide (n ∈ graph_nodes g) then Some (size (blockers_of g n ∖ R)) else None;
  ki_nodup : NoDup rdy;
  ki_ready : ∀ n, n ∈ rdy ↔ n ∈ graph_nodes g ∧ (n ∉ R) ∧ blockers_of g n ⊆ R;
  ki_removed : R ⊆ graph_nodes g;
  ki_before : ∀ n, n ∈ R → blockers_of g n ⊆ R ∧ Acc (λ y x, waits_on g x y) n;
}.

Lemma edge_nodes g x y : graph_wf g → waits_on g x y → x ∈ graph_nodes g ∧ y ∈ graph_nodes g.
Proof. intros Hwf Hs. destruct (step_dom g x y Hwf Hs). unfold graph_nodes. set_solver. Qed.

Lemma kahn_turn g w node rdy R :
  graph_wf g → kahn_inv g w (node :: rdy) R →
  ∃ w' rdy', release (ascending (blocks_others g node)) w rdy = Some (w', rdy') ∧ (node ∉ R) ∧
             kahn_inv g w' rdy' ({[node]} ∪ R).
Proof.
  intros Hwf [Hw Hnd Hr HR Hb]. apply NoDup_cons in Hnd as [Hnr Hnd].
  destruct (proj1 (Hr node) (list_elem_of_here _ _)) as (HnN & HnR & Hnb).
  assert (∀ d, d ∈ ascending (blocks_others g node) ↔ node ∈ blockers_of g d) as Hds
    by (intros d; by rewrite elem_of_ascending, (mirrored g Hwf)).
  assert (∀ d, node ∈ blockers_of g d → d ∈ graph_nodes g ∧ size (blockers_of g d ∖ ({[node]} ∪ R)) + 1 = size (blockers_of g d ∖ R)) as Hsize.
  { intros d Hd. split; [by apply (edge_nodes g d node)|by apply size_visited]. }
  destruct (release_spec (ascending (blocks_others g node)) w rdy) as (w' & rdy' & Hrel & Hnd' & Hlook & Hin);
    [apply NoDup_ascending|done| |].
  { intros d Hd. apply Hds in Hd. destruct (Hsize d Hd) as [HdN Hs]. rewrite Hw, decide_True by done. split.
    - intros [= Hz]. lia.
    - intros Hdr. assert (d ∈ node :: rdy) as Hdr' by (by right). apply Hr in Hdr' as (_ & _ & Hsub). set_solver. }
  exists w', rdy'. split; [done|]. split; [done|]. split.
  - intros n. rewrite Hlook, Hw. destruct (decide (n ∈ ascending _)) as [Hd|Hd]; rewrite Hds in Hd.
    + destruct (Hsize n Hd) as [HnN' Hs]. rewrite !decide_True by done. simpl. f_equal. lia.
    + destruct (decide (n ∈ graph_nodes g)); [|done]. do 2 f_equal. set_solver.
  - done.
  - intros n. rewrite Hin, Hds. split.
    + intros [Hn|[Hn H1]].
      * assert (n ∈ node :: rdy) as Hn' by (by right). apply Hr in Hn' as (? & ? & ?). set_solver.
      * destruct (Hsize n Hn) as [HnN' Hs]. rewrite Hw, decide_True in H1 by done. injection H1 as H1.
        assert (blockers_of g n ∖ ({[node]} ∪ R) ≡ ∅) as Hemp by (apply size_empty_inv; lia).
        assert (n ∉ R) by (intros HnR'; destruct (Hb n HnR') as [Hsub _]; set_solver).
        split; [done|]. split; [set_solver|]. intros y Hy. destruct (decide (y ∈ {[node]} ∪ R)); [done|set_solver].
    + intros (HnN' & HnR' & Hsub). destruct (decide (node ∈ blockers_of g n)) as [Hd|Hd].
      * right. split; [done|]. destruct (Hsize n Hd) as [_ Hs]. rewrite Hw, decide_True by done. f_equal.
        replace (blockers_of g n ∖ ({[node]} ∪ R)) with (∅ : gset EntityRef) in Hs by set_solver.
        change (size (∅ : gset EntityRef)) with 0 in Hs. lia.
      * left. assert (n ∈ node :: rdy) as Hn by (apply Hr; set_solver). set_solver.
  - set_solver.
  - intros n [->%elem_of_singleton|Hn]%elem_of_union.
    + split; [set_solver|]. constructor. intros y Hy. apply Hb. by apply Hnb.
    + destruct (Hb n Hn) as [? ?]. split; [set_solver|done].
Qed.

Lemma kahn_exact fuel g w rdy R :
  graph_wf g → kahn_inv g w rdy R → size (graph_nodes g) < fuel + size R →
  ∃ R' w', kahn fuel g w rdy (size R) = Some (size R') ∧ kahn_inv g w' [] R'.
Proof.
  intros Hwf. revert w rdy R. induction fuel as [|fuel IH]; intros w rdy R Hi Hf.
  { exfalso. pose proof (subseteq_size _ _ (ki_removed _ _ _ _ Hi)). lia. }
  cbn [kahn]. destruct rdy as [|node rdy]; [by exists R, w|].
  destruct (kahn_turn g w node rdy R Hwf Hi) as (w' & rdy' & -> & HnR & Hi'). cbn.
  assert (S (size R) = size ({[node]} ∪ R)) as Hs by (rewrite size_union, size_singleton by set_solver; done).
  rewrite Hs. apply (IH w' rdy'); [done|lia].
Qed.

Lemma has_cycle_wf g : graph_wf g → ∃ b, has_cycle g = Some b ∧ (b = false ↔ acyclic g).
Proof.
  intros Hwf.
  unfold has_cycle. set (w := set_to_map _ _). set (rdy := rev _).
  assert (kahn_inv g w rdy ∅) as Hi.
  { assert (∀ n, w !! n = if decide (n ∈ graph_nodes g) then Some (size (blockers_of g n ∖ ∅)) else None) as Hw.
    { intros n. rewrite difference_empty_L. destruct (decide _) as [Hn|Hn].
      - apply lookup_set_to_map; [by intros|]. by exists n.
      - apply eq_None_not_Some. intros [v Hv]. apply lookup_set_to_map in Hv as (n' & ? & [= -> _]); [done|by intros]. }
    split; [done| | |set_solver|set_solver].
    - unfold rdy. rewrite <-Permutation_rev. apply NoDup_filter, NoDup_ascending.
    - intros n. unfold rdy. rewrite elem_of_rev, list_elem_of_filter, elem_of_ascending, Hw, difference_empty_L.
      split.
      + intros [H0 Hn]. rewrite decide_True in H0 by done. injection H0 as H0. apply size_empty_inv in H0. set_solver.
      + intros (Hn & _ & Hsub). rewrite decide_True by done. split; [|done]. f_equal.
        replace (blockers_of g n) with (∅ : gset EntityRef) by set_solver. done. }
  destruct (kahn_exact (S (size (graph_nodes g))) g w rdy ∅ Hwf Hi) as (R & w' & Hk & [_ _ Hr HR Hb]).
  { change (size (∅ : gset EntityRef)) with 0. lia. }
  change (size (∅ : gset EntityRef)) with 0 in Hk. rewrite Hk. cbn. eexists. split; [done|].
  rewrite negb_false_iff, bool_decide_eq_true. split.
  - intros Heq x Ht. assert (R = graph_nodes g) as -> by (apply set_subseteq_size_eq; [done|lia]).
    assert (x ∈ graph_nodes g) as Hx by (apply tc_split in Ht as (y & Hs & _); by apply (edge_nodes g x y)).
    destruct (Hb x Hx) as [_ Hacc]. clear Hx. induction Hacc as [x _ IH].
    apply tc_split in Ht as (y & Hs & Hr'). apply (IH y Hs). by eapply tc_rtc_l, tc_once.
  - intros Hac. destruct (decide (graph_nodes g ∖ R = ∅)) as [He|He].
    { f_equal. apply set_eq. intros y. split; [apply HR|]. intros Hy. destruct (decide (y ∈ R)) as [|Hn]; [done|].
      assert (y ∈ graph_nodes g ∖ R) as Hd by (by apply elem_of_difference). rewrite He in Hd. by apply not_elem_of_empty in Hd. }
    apply set_choose_L in He as [x Hx]. exfalso.
    apply (finite_no_exit (waits_on g) (graph_nodes g ∖ R) x Hx); [|exact Hac].
    intros y Hy. destruct (set_choose_or_empty (blockers_of g y ∖ R)) as [[z Hz]|Hz].
    + apply elem_of_difference in Hz as [Hz HzR]. exists z. split; [|done].
      apply elem_of_difference. split; [|done]. by apply (edge_nodes g y z).
    + exfalso. apply (not_elem_of_nil y), Hr. apply elem_of_difference in Hy as [HyN HyR]. split; [done|]. split; [done|].
      intros z Hz'. destruct (decide (z ∈ R)) as [|Hn]; [done|]. destruct (not_elem_of_empty (C:=gset EntityRef) z).
      rewrite <-Hz. by apply elem_of_difference.
Qed.

(** Kahn's test is exact on every graph built from edges: no count
    is ever decremented below zero, and it reports no cycle precisely when no
    chain of edges leads back to where it started. *)
Theorem has_cycle_exact edges :
  ∃ b, has_cycle (from_edges edges) = Some b ∧ (b = false ↔ acyclic (from_edges edges)).
Proof.
  apply has_cycle_wf, from_edges_wf.
Qed.

(** ** Worked graphs *)

Definition task_a : EntityRef := mkRef EntityKind.Task (replicate 16 1%Z).
Definition task_b : EntityRef := mkRef EntityKind.Task (replicate 16 2%Z).

Lemma from_edges_acyclic_by edges : has_cycle (from_edges edges) = Some false → acyclic (from_edges edges).
Proof.
  intros Hc. destruct (has_cycle_wf _ (from_edges_wf edges)) as (b & Hb & Hac). apply Hac. congruence.
Qed.

Lemma would_cycle_exact_witness :
  let g := from_edges [(task_a, task_b)] in
  acyclic g ∧ would_cycle g task_b {[task_a]} = true ∧ would_cycle g task_a {[task_b]} = false ∧
  (would_cycle g task_a {[task_b]} = false ↔ ∀ x, ¬ tc (replaced g task_a {[task_b]}) x x).
Proof.
  assert (acyclic (from_edges [(task_a, task_b)])) as Hac
    by (apply from_edges_acyclic_by; vm_compute; reflexivity).
  split; [exact Hac|]. split; [vm_compute; reflexivity|]. split; [vm_compute; reflexivity|].
  exact (proj2 (would_cycle_exact (from_edges [(task_a, task_b)]) task_a {[task_b]}) Hac).
Defined.

(** Each of two tasks was made to wait for the other: the newer edge goes. *)
Definition cross_edges : list (EntityRef * EntityRef * Z) := [(task_a, task_b, 7%Z); (task_b, task_a, 9%Z)].

Lemma resolve_cycles_breaks_every_cycle_witness :
  (resolve_cycles cross_edges).2 = [mkSuppressed task_b task_a 9%Z [task_b; task_a; task_b]] ∧
  acyclic (resolve_cycles cross_edges).1.
Proof.
  split; [vm_compute; reflexivity|].
  pose proof (resolve_cycles_breaks_every_cycle cross_edges) as Hr.
  destruct (resolve_cycles cross_edges) as [kept suppressed]. exact (proj1 Hr).
Defined.

Lemma resolve_cycles_of_the_set_witness :
  resolve_cycles (rev cross_edges ++ cross_edges) = resolve_cycles cross_edges.
Proof.
  apply (resolve_cycles_of_the_set (rev cross_edges ++ cross_edges) cross_edges).
  intros e. rewrite elem_of_app, elem_of_rev. tauto.
Defined.
