(* ===== verification/TaskGraph.v ===== *)
(** * The dependency graph every read sees (engine/task.rs, engine/merge/mod.rs)

    [resolved_dependencies] puts the parts together: the edges of the
    projection ([task_blockers]), the stamps of their oldest live adds, the
    cycle test and the cycle rule.  The SQL tables are a list of rows and a map
    from an entity's id to its field tables. *)

From Stdlib Require Import ZArith Lia.
From stdpp Require Import base tactics decidable countable option list gmap sets relations sorting strings.
From S2P Require Import Prelude Bytes Cbor Hlc Registry Stamp FieldState Convergence Ids Deps.
Open Scope nat_scope.

(** ** The oldest surviving add of every element *)

Abbreviation Store := (gmap bytes FieldTables).
Abbreviation OldestAdds := (gmap (bytes * bytes) Stamp).

(** The query's rows: the adds of [field] whose tag no remove names.  The
    tables hold stamps, so no row is skipped for columns that do not read as
    one. *)
Definition live_add_rows (store : Store) (field : string) : list ((bytes * bytes) * Stamp) :=
  map_to_list store ≫= λ entity : bytes * FieldTables,
    omap (λ row : (string * bytes * OpRef) * Hlc,
      let '(f, el, tag) := row.1 in
      if decide (f = field ∧ row.1 ∉ orset_removes entity.2)
      then Some ((entity.1, el), row_stamp row.2 tag) else None)
    (map_to_list (orset_adds entity.2)).

Definition keep_oldest (out : OldestAdds) (row : (bytes * bytes) * Stamp) : OldestAdds :=
  match out !! row.1 with
  | Some held => <[row.1 := cmin held row.2]> out
  | None => <[row.1 := row.2]> out
  end.

Definition oldest_live_adds (store : Store) (field : string) : OldestAdds :=
  foldl keep_oldest ∅ (live_add_rows store field).

(** ** The resolved graph *)

(** The first sixteen bytes, zero-padded. *)
Definition task_ref (raw : bytes) : EntityRef :=
  mkRef EntityKind.Task (take 16 raw ++ replicate (16 - length raw) 0%Z).

Abbreviation EdgeStamp := (option Stamp).

Section resolved.
Context `{Ciborium}.

Definition edge_stamp (adds : OldestAdds) (task blocker : EntityRef) : EdgeStamp :=
  element ← enc (Text (to_str blocker)); adds !! (ref_bytes task, element).

Definition blocker_edges (rows : list (bytes * bytes)) : list (EntityRef * EntityRef) :=
  (λ row : bytes * bytes, (task_ref row.1, task_ref row.2)) <$> rows.
Definition stamped_edges (rows : list (bytes * bytes)) (store : Store) : list (EntityRef * EntityRef * EdgeStamp) :=
  let adds := oldest_live_adds store "blocked_by" in
  (λ e : EntityRef * EntityRef, (e, edge_stamp adds e.1 e.2)) <$> blocker_edges rows.

(** [None] is [has_cycle]'s panic. *)
Definition resolved_dependencies (rows : list (bytes * bytes)) (store : Store) :
    option (DependencyGraph * list (SuppressedEdge EdgeStamp)) :=
  let graph := from_edges (blocker_edges rows) in
  cyclic ← has_cycle graph;
  if negb cyclic then Some (graph, []) else Some (resolve_cycles (stamped_edges rows store)).
End resolved.

(** ** What they compute *)

Lemma least_row (rows : list ((bytes * bytes) * Stamp)) k s :
  (k, s) ∈ rows → ∃ s', (k, s') ∈ rows ∧ ∀ s2, (k, s2) ∈ rows → s' ≼ s2.
Proof.
  intros Hin. destruct k as [id el].
  destruct (least_stamp ((λ r : (bytes * bytes) * Stamp, ((mkRef EntityKind.Task r.1.1, mkRef EntityKind.Task r.1.2), r.2)) <$> rows)
    (mkRef EntityKind.Task id) (mkRef EntityKind.Task el) s) as (s' & Hs' & Hmin).
  { apply list_elem_of_fmap. by exists ((id, el), s). }
  apply list_elem_of_fmap in Hs' as ([[id' el'] s''] & [= -> -> ->] & Hs'). exists s''. split; [done|].
  intros s2 Hs2. apply Hmin, list_elem_of_fmap. by exists ((id', el'), s2).
Qed.

(** [keep_oldest] keeps the least stamp of every key. *)
Lemma keep_oldest_least rows k s :
  foldl keep_oldest ∅ rows !! k = Some s ↔ (k, s) ∈ rows ∧ ∀ s', (k, s') ∈ rows → s ≼ s'.
Proof.
  revert s. induction rows as [|[k1 s1] rows IH] using rev_ind; intros s.
  { simpl. rewrite lookup_empty. split; [done|]. intros [Hin _]. by apply not_elem_of_nil in Hin. }
  rewrite foldl_snoc. set (out := foldl keep_oldest ∅ rows) in *. unfold keep_oldest. cbn [fst snd].
  destruct (decide (k = k1)) as [<-|Hne].
  - assert (∀ s', (k, s') ∈ rows ++ [(k, s1)] ↔ (k, s') ∈ rows ∨ s' = s1) as Hin by set_solver.
    setoid_rewrite Hin. destruct (out !! k) as [held|] eqn:E; rewrite lookup_insert_eq.
    + destruct (proj1 (IH held) eq_refl) as [Hh Hmin]. pose proof (cmin_case held s1) as Hcase.
      pose proof (cmin_l held s1) as Hl. pose proof (cmin_r held s1) as Hr. split.
      * intros [= <-]. split; [destruct Hcase as [->| ->]; auto|]. intros s' [Hs'| ->]; [|done].
        specialize (Hmin s' Hs'). tord.
      * intros [Hs Hmins]. f_equal. apply tle_antisymm; [|apply cmin_glb; auto].
        destruct Hs as [Hs| ->]; [specialize (Hmin s Hs); tord|done].
    + assert (∀ s', (k, s') ∉ rows) as Hno.
      { intros s' Hs'. destruct (least_row rows k s' Hs') as (s2 & Hs2). apply IH in Hs2. congruence. }
      split; [intros [= <-]; split; [by right|]; intros s' [?| ->]; [by destruct (Hno s')|apply tle_refl]|].
      intros [[?| ->] _]; [by destruct (Hno s)|done].
  - assert (∀ s', (k, s') ∈ rows ++ [(k1, s1)] ↔ (k, s') ∈ rows) as Hin by set_solver.
    setoid_rewrite Hin. destruct (out !! k1); rewrite lookup_insert_ne by done; apply IH.
Qed.

(** The stamp of an add of [el] to OR-set [field] of entity [id] that no
    remove names. *)
Definition live_add (store : Store) (field : string) (id el : bytes) (s : Stamp) : Prop :=
  ∃ db h tag, store !! id = Some db ∧ orset_adds db !! (field, el, tag) = Some h ∧
              ((field, el, tag) ∉ orset_removes db) ∧ s = row_stamp h tag.

Lemma elem_of_live_rows store field id el s :
  ((id, el), s) ∈ live_add_rows store field ↔ live_add store field id el s.
Proof.
  unfold live_add_rows, live_add. rewrite list_elem_of_bind. split.
  - intros ([id' db] & Hrow & Hdb). apply elem_of_map_to_list in Hdb.
    apply list_elem_of_omap in Hrow as ([[[f el'] tag] h] & Hadd & Hif). apply elem_of_map_to_list in Hadd.
    simpl in Hif. destruct (decide _) as [[-> Hrm]|]; [|done]. simplify_eq. by exists db, h, tag.
  - intros (db & h & tag & Hdb & Hadd & Hrm & ->). exists (id, db). split; [|by apply elem_of_map_to_list].
    apply list_elem_of_omap. exists ((field, el, tag), h). split; [by apply elem_of_map_to_list|].
    simpl. by rewrite decide_True.
Qed.

Lemma oldest_live_adds_exact store field id el s :
  oldest_live_adds store field !! (id, el) = Some s ↔
  live_add store field id el s ∧ ∀ s', live_add store field id el s' → s ≼ s'.
Proof.
  unfold oldest_live_adds. rewrite keep_oldest_least. setoid_rewrite elem_of_live_rows. done.
Qed.

(** With no cycle the rule suppresses nothing and keeps the graph itself. *)
Lemma resolve_acyclic {St} `{EqDecision St, CmpLaws St} (edges : list (EntityRef * EntityRef * St)) :
  acyclic (from_edges edges.*1) → resolve_cycles edges = (from_edges edges.*1, []).
Proof.
  intros Hac. pose proof (judged_all edges) as [Hwf _ Hk Hall Hsup].
  assert (∀ t b s, (s, t, b) ∈ ordered_edges edges → waits_on (from_edges edges.*1) t b) as Hin.
  { intros t b s Hs. apply elem_of_ordered in Hs as [Hs _]. apply from_edges_blockers.
    apply list_elem_of_fmap. by exists (t, b, s). }
  destruct (resolve_cycles edges) as [kept suppressed]. simpl in *.
  assert (suppressed = []) as ->.
  { destruct suppressed as [|e l]; [done|]. exfalso.
    destruct (Hsup e) as (He & _ & back & _ & _ & Ht); [by left|]. apply (Hac (se_task e)).
    apply tc_split. exists (se_blocker e). split; [by eapply Hin|]. eapply trail_rtc, trail_mono; [|exact Ht].
    simpl. intros x y (_ & s & Hs & _). by eapply Hin. }
  f_equal. apply graph_ext; [done|apply from_edges_wf|]. intros t. apply set_eq. intros b. split; intros Hb.
  - destruct (Hk t b Hb) as [s Hs]. by eapply Hin.
  - apply from_edges_blockers, list_elem_of_fmap in Hb as ([[t' b'] s] & [= <- <-] & Hb).
    destruct (least_stamp edges t b s Hb) as [s' Hs']. apply elem_of_ordered in Hs'.
    destruct (Hall s' t b Hs') as [?|(e & He & _)]; [done|]. by apply not_elem_of_nil in He.
Qed.

(** An element some live add names has an oldest one. *)
Lemma live_add_stamped store field id el s :
  live_add store field id el s → is_Some (oldest_live_adds store field !! (id, el)).
Proof.
  intros Hs%elem_of_live_rows. destruct (least_row _ _ _ Hs) as (s' & Hs' & Hmin). exists s'.
  unfold oldest_live_adds. by apply keep_oldest_least.
Qed.

(** C30: the graph every read sees is the cycle rule's, whichever way it is
    computed: [resolved_dependencies] never panics, and skipping the stamp lookup
    when Kahn's test finds no cycle gives the graph and the suppressed edges the
    rule itself gives, over the projection's own edges, each stamped by the
    least of its element's live adds, and by nothing exactly when its element
    has none (or does not encode).  The result has no cycle. *)
Theorem resolved_dependencies_is_the_rule `{Ciborium} rows store :
  resolved_dependencies rows store = Some (resolve_cycles (stamped_edges rows store)) ∧
  acyclic (resolve_cycles (stamped_edges rows store)).1 ∧
  (stamped_edges rows store).*1 = blocker_edges rows ∧
  (∀ task blocker st, (task, blocker, st) ∈ stamped_edges rows store →
     match enc (Text (to_str blocker)) with
     | None => st = None
     | Some element =>
         (∀ at_, st = Some at_ ↔ live_add store "blocked_by" (ref_bytes task) element at_ ∧
                   ∀ s, live_add store "blocked_by" (ref_bytes task) element s → at_ ≼ s) ∧
         (st = None ↔ ∀ s, ¬ live_add store "blocked_by" (ref_bytes task) element s)
     end).
Proof.
  assert ((stamped_edges rows store).*1 = blocker_edges rows) as Hfst.
  { unfold stamped_edges. rewrite <-list_fmap_compose. apply list_fmap_id. }
  unfold resolved_dependencies.
  destruct (has_cycle_wf (from_edges (blocker_edges rows)) (from_edges_wf _)) as (b & -> & Hb). cbn [mbind option_bind].
  pose proof (judged_all (stamped_edges rows store)) as [_ Hac _ _ _]. split_and!; [|done|done|].
  - destruct b; cbn [negb]; [done|]. rewrite resolve_acyclic; [by rewrite Hfst|]. rewrite Hfst. by apply Hb.
  - intros task blocker st Hin. unfold stamped_edges in Hin.
    apply list_elem_of_fmap in Hin as ([t b'] & [= -> -> ->] & _). unfold edge_stamp.
    destruct (enc (Text (to_str b'))) as [element|]; [|done]. cbn. split.
    + intros at_. apply oldest_live_adds_exact.
    + split.
      * intros Hn s Hs%live_add_stamped. rewrite Hn in Hs. by destruct Hs.
      * intros Hno. apply eq_None_not_Some. intros [s [Hs _]%oldest_live_adds_exact]. by apply (Hno s).
Qed.

(** Two devices each made the other's task wait; the second device's clock was
    ahead, so its edge is the one set aside. *)
Definition blocked_by_row (blocker : EntityRef) (ms device : Z) : FieldTables :=
  mkFieldTables ∅
    {[("blocked_by"%string, 3%Z :: text_bytes (to_str blocker), mkOpRef 1 device 1) := mkHlc ms 0]} ∅ ∅.
Definition cross_rows : list (bytes * bytes) :=
  [(replicate 16 1%Z, replicate 16 2%Z); (replicate 16 2%Z, replicate 16 1%Z)].
Definition cross_store : Store :=
  <[replicate 16 1%Z := blocked_by_row task_b 100 1]> {[replicate 16 2%Z := blocked_by_row task_a 250 2]}.

Lemma resolved_dependencies_is_the_rule_witness :
  (resolve_cycles (@stamped_edges example_codec cross_rows cross_store)).2
    = [mkSuppressed task_b task_a (Some (mkStamp (mkHlc 250 0) 2 1 1)) [task_b; task_a; task_b]] ∧
  @resolved_dependencies example_codec cross_rows cross_store
    = Some (resolve_cycles (@stamped_edges example_codec cross_rows cross_store)).
Proof.
  split; [vm_compute; reflexivity|].
  exact (proj1 (@resolved_dependencies_is_the_rule example_codec cross_rows cross_store)).
Defined.
