(* ===== verification/RateLimit.v ===== *)
(** * The relay's rate limits (sunrise-server: api/ratelimit/bucket.rs, store.rs)

    [bucket_decide] is the generic cell rate algorithm over one key;
    [MemoryStore] keeps a cell per key and forgets idle ones; [Gate] and
    [UploadLedger] cap what one key holds at once.  Arithmetic is checked at the
    [u128] the source computes in: [None] is an overflow, which the bounds on
    the quota exclude. *)

From Stdlib Require Import ZArith Lia.
From stdpp Require Import base tactics decidable countable option list strings gmap fin_maps.
From S2P Require Import Prelude Bytes.
Open Scope Z_scope.

(** ** The bucket *)

Record Quota := mkQuota { q_limit : Z; q_period_ms : Z }.

Definition per_minute (limit : Z) : Quota := mkQuota limit 60000.
Definition per_second (limit : Z) : Quota := mkQuota limit 1000.
Definition per_secs (limit secs : Z) : Quota := mkQuota limit (secs * 1000).

Definition limit1 (q : Quota) : Z := Z.max (q_limit q) 1.
Definition ticks (q : Quota) (ms : Z) : Z := ms * limit1 q.
Definition interval (q : Quota) : Z := Z.max (q_period_ms q) 1.
Definition burst (q : Quota) : Z := limit1 q * interval q.

(** [u128::div_ceil]. *)
Definition div_ceil (a b : Z) : Z := (a + b - 1) / b.
(** [u64::try_from(x).unwrap_or(u64::MAX)]. *)
Definition to_u64 (x : Z) : Z := if decide (x ≤ u64_max) then x else u64_max.
Definition ms_ceil (q : Quota) (t : Z) : Z := to_u64 (div_ceil t (limit1 q)).

Record Cell := mkCell { tat : Z; idle_at_ms : Z; refusing : bool }.
Definition default_cell : Cell := mkCell 0 0 false.
Definition is_idle (c : Cell) (now_ms : Z) : bool := bool_decide (idle_at_ms c ≤ now_ms).

Record Outcome := mkOutcome {
  allowed : bool;
  retry_after_ms : Z;
  remaining : Z;
  first_refusal : bool;
}.
Definition untracked (limit : Z) : Outcome := mkOutcome true 0 limit false.
Definition retry_after_secs (o : Outcome) : Z := Z.max (div_ceil (retry_after_ms o) 1000) 1.

(** A sum in [u128]. *)
Definition add_u128 (a b : Z) : option Z := if decide (a + b ≤ u128_max) then Some (a + b) else None.

(** [u64::clamp]. *)
Definition clamp (x lo hi : Z) : Z := if decide (x < lo) then lo else if decide (hi < x) then hi else x.

Definition bucket_decide (q : Quota) (cell : option Cell) (now_ms cost : Z) : option (Outcome * Cell) :=
  let cell := default default_cell cell in
  let now := ticks q now_ms in
  let base := Z.max (tat cell) now in
  let need := clamp cost 1 (limit1 q) * interval q in
  let charge := cost * interval q in
  sum ← add_u128 base need;
  if decide (sum - now ≤ burst q) then
    tat ← add_u128 base charge;
    let ahead := tat - now in
    let remaining := sat_sub (burst q) ahead / interval q in
    Some (mkOutcome true 0 (to_u64 remaining) false, mkCell tat (ms_ceil q tat) false)
  else
    let wait := sum - now - burst q in
    Some (mkOutcome false (ms_ceil q wait) 0 (negb (refusing cell)),
          mkCell (tat cell) (idle_at_ms cell) true).

(** ** The store *)

Definition MAX_KEYS : nat := Z.to_nat 65536.

(** [MemoryStore::apply], on the map behind the lock. *)
Definition store_apply (cells : gmap string Cell) (key : string) (q : Quota) (cost now_ms : Z) :
    option (Outcome * gmap string Cell) :=
  let current := cells !! key in
  if decide (cost = 0 ∧ current = None) then Some (untracked (q_limit q), cells)
  else
    let crowded := bool_decide (current = None) && bool_decide (MAX_KEYS ≤ size cells)%nat in
    let cells := if crowded then filter (λ kc, is_idle kc.2 now_ms = false) cells else cells in
    if crowded && bool_decide (MAX_KEYS ≤ size cells)%nat then Some (untracked (q_limit q), cells)
    else
      '(outcome, next) ← bucket_decide q current now_ms cost;
      Some (outcome, <[key := next]> cells).

Definition store_take (cells : gmap string Cell) (key : string) (q : Quota) (cost now_ms : Z) :=
  store_apply cells key q (Z.max cost 1) now_ms.
Definition store_peek (cells : gmap string Cell) (key : string) (q : Quota) (now_ms : Z) :=
  store_apply cells key q 0 now_ms.

(** ** Gates *)

(** [true] is a permit. *)
Definition gate_acquire (held : gmap string Z) (key : string) (cap : Z) : gmap string Z * bool :=
  let count := default 0 (held !! key) in
  if decide (cap ≤ count) then (<[key := count]> held, false)
  else (<[key := count + 1]> held, true).

(** A permit dropped. *)
Definition gate_release (held : gmap string Z) (key : string) : gmap string Z :=
  match held !! key with
  | Some count =>
      let count := sat_sub count 1 in
      if decide (count = 0) then delete key held else <[key := count]> held
  | None => held
  end.

Definition gate_held (held : gmap string Z) (key : string) : Z := default 0 (held !! key).

(** ** Open uploads *)

Definition UPLOAD_IDLE_MS : Z := 60 * 60 * 1000.
Abbreviation OpenUploads := (gmap bytes Z).

(** The least recent touch, or [d] of none. *)
Definition oldest_touch (uploads : OpenUploads) (d : Z) : Z :=
  match (map_to_list uploads).*2 with
  | [] => d
  | t :: ts => foldl Z.min t ts
  end.

Definition uploads_open (ledger : gmap string OpenUploads) (account : string) (upload : bytes) (cap now_ms : Z) :
    gmap string OpenUploads * result Z () :=
  let uploads := default ∅ (ledger !! account) in
  let uploads := filter (λ ut : bytes * Z, sat_sub now_ms ut.2 < UPLOAD_IDLE_MS) uploads in
  if decide (cap ≤ Z.of_nat (size uploads)) then
    (<[account := uploads]> ledger, Err (sat_sub (oldest_touch uploads now_ms + UPLOAD_IDLE_MS) now_ms))
  else (<[account := <[upload := now_ms]> uploads]> ledger, Ok ()).

Definition uploads_touch (ledger : gmap string OpenUploads) (account : string) (upload : bytes) (now_ms : Z) :
    gmap string OpenUploads :=
  match ledger !! account with
  | Some uploads =>
      match uploads !! upload with
      | Some _ => <[account := <[upload := now_ms]> uploads]> ledger
      | None => ledger
      end
  | None => ledger
  end.

Definition uploads_close (ledger : gmap string OpenUploads) (account : string) (upload : bytes) :
    gmap string OpenUploads :=
  match ledger !! account with
  | Some uploads =>
      let uploads := delete upload uploads in
      if decide (uploads = ∅) then delete account ledger else <[account := uploads]> ledger
  | None => ledger
  end.

(** ** The bucket's arithmetic *)

Definition quota_ok (q : Quota) : Prop := 0 ≤ q_limit q < 2 ^ 62 ∧ 0 ≤ q_period_ms q < 2 ^ 62.

Lemma quota_bounds q : quota_ok q → 1 ≤ limit1 q < 2 ^ 62 ∧ 1 ≤ interval q < 2 ^ 62.
Proof. unfold quota_ok, limit1, interval. lia. Qed.

(** What a cell can hold while the clock and the costs stay in range. *)
Definition cell_ok (c : Cell) : Prop := 0 ≤ tat c ≤ 2 ^ 126 + 2 ^ 124.
Lemma default_cell_ok : cell_ok default_cell.
Proof. unfold cell_ok; simpl; lia. Qed.
Definition cost_ok (cost : Z) : Prop := 0 ≤ cost < 2 ^ 62.

Lemma mul_bounds a b A B : 0 ≤ a ≤ A → 0 ≤ b ≤ B → 0 ≤ a * b ≤ A * B.
Proof. nia. Qed.
Lemma clamp_bounds x lo hi : lo ≤ hi → lo ≤ clamp x lo hi ≤ hi.
Proof. unfold clamp. repeat case_decide; lia. Qed.
Lemma clamp_id x lo hi : lo ≤ x ≤ hi → clamp x lo hi = x.
Proof. unfold clamp. intros. by rewrite !decide_False by lia. Qed.
Lemma div_ceil_le a b n : 0 < b → div_ceil a b ≤ n ↔ a ≤ n * b.
Proof.
  intros Hb. unfold div_ceil. pose proof (Z.div_mod (a + b - 1) b). pose proof (Z.mod_pos_bound (a + b - 1) b).
  split; intros; nia.
Qed.

(** The three amounts of a decision. *)
Definition the_base (q : Quota) (c : Cell) (now_ms : Z) : Z := Z.max (tat c) (ticks q now_ms).
Definition the_need (q : Quota) (cost : Z) : Z := clamp cost 1 (limit1 q) * interval q.

Lemma need_bounds q cost : quota_ok q → interval q ≤ the_need q cost ≤ burst q.
Proof.
  intros Hq. destruct (quota_bounds q Hq) as [HL HP]. unfold the_need, burst.
  pose proof (clamp_bounds cost 1 (limit1 q)). nia.
Qed.
Lemma burst_bounds q : quota_ok q → 0 ≤ burst q < 2 ^ 124.
Proof. intros Hq. destruct (quota_bounds q Hq). unfold burst. change (2 ^ 124) with (2 ^ 62 * 2 ^ 62). nia. Qed.
Lemma ticks_bounds q ms : quota_ok q → in_u64 ms → 0 ≤ ticks q ms < 2 ^ 126.
Proof.
  intros Hq Hms. destruct (quota_bounds q Hq). unfold ticks. widths.
  change (2 ^ 126) with (2 ^ 64 * 2 ^ 62). nia.
Qed.

(** No decision overflows, and which way it goes. *)
Lemma bucket_decide_spec q cell now_ms cost :
  quota_ok q → cell_ok (default default_cell cell) → in_u64 now_ms → cost_ok cost →
  let c := default default_cell cell in
  let base := the_base q c now_ms in
  bucket_decide q cell now_ms cost = Some (
    if decide (base + the_need q cost - ticks q now_ms ≤ burst q) then
      (mkOutcome true 0 (to_u64 (sat_sub (burst q) (base + cost * interval q - ticks q now_ms) / interval q)) false,
       mkCell (base + cost * interval q) (ms_ceil q (base + cost * interval q)) false)
    else
      (mkOutcome false (ms_ceil q (base + the_need q cost - ticks q now_ms - burst q)) 0 (negb (refusing c)),
       mkCell (tat c) (idle_at_ms c) true)).
Proof.
  intros Hq Hc Hnow Hcost. destruct (quota_bounds q Hq) as [HL HP]. pose proof (ticks_bounds q now_ms Hq Hnow).
  pose proof (burst_bounds q Hq). pose proof (need_bounds q cost Hq).
  unfold bucket_decide. set (c := default default_cell cell) in *. cbv zeta. change (Z.max (tat c) (ticks q now_ms)) with (the_base q c now_ms).
  change (clamp cost 1 (limit1 q) * interval q) with (the_need q cost).
  assert (0 ≤ the_base q c now_ms ≤ 2 ^ 126 + 2 ^ 124) as Hb by (unfold the_base; unfold cell_ok in Hc; lia).
  assert (u128_max = 2 ^ 128 - 1) as Hmax by done.
  unfold add_u128. rewrite (decide_True _ _ (P := the_base q c now_ms + the_need q cost ≤ u128_max)) by lia. cbn [mbind option_bind].
  destruct (decide (the_base q c now_ms + the_need q cost - ticks q now_ms ≤ burst q)); [|done].
  assert (0 ≤ cost * interval q < 2 ^ 124) as Hch by (unfold cost_ok in Hcost; change (2 ^ 124) with (2 ^ 62 * 2 ^ 62); nia).
  by rewrite decide_True by lia.
Qed.

(** An admission leaves the key at most a full bucket, or its own cost, ahead
    of now. *)
Lemma admitted_ahead q cost base now :
  quota_ok q → 0 ≤ cost → now ≤ base → base + the_need q cost - now ≤ burst q →
  base + cost * interval q ≤ now + Z.max (burst q) (cost * interval q).
Proof.
  intros Hq Hcost Hb Hle. destruct (quota_bounds q Hq) as [HL HP]. unfold the_need, burst in *.
  destruct (decide (cost ≤ limit1 q)).
  - assert (cost ≤ clamp cost 1 (limit1 q)) by (unfold clamp; repeat case_decide; lia). nia.
  - assert (clamp cost 1 (limit1 q) = limit1 q) as Hc by (unfold clamp; repeat case_decide; lia).
    rewrite Hc in Hle. lia.
Qed.

Lemma bucket_decide_cell_ok q cell now_ms cost o c :
  quota_ok q → cell_ok (default default_cell cell) → in_u64 now_ms → cost_ok cost →
  bucket_decide q cell now_ms cost = Some (o, c) → cell_ok c.
Proof.
  intros Hq Hc Hnow Hcost. rewrite bucket_decide_spec by done. destruct (decide _) as [Hle|]; intros [= <- <-]; [|done].
  unfold cell_ok; simpl. destruct (quota_bounds q Hq) as [HL HP]. pose proof (ticks_bounds q now_ms Hq Hnow).
  pose proof (burst_bounds q Hq). unfold cost_ok in Hcost.
  assert (ticks q now_ms ≤ the_base q (default default_cell cell) now_ms) as Hb by (unfold the_base; lia).
  pose proof (admitted_ahead q cost _ _ Hq (proj1 Hcost) Hb Hle) as Ha.
  assert (0 ≤ cost * interval q < 2 ^ 124) by (change (2 ^ 124) with (2 ^ 62 * 2 ^ 62); nia). lia.
Qed.

(** ** The rate holds *)

(** The cost admitted over a run of requests on one key, and the key's cell
    after it. *)
Fixpoint admitted_cost (q : Quota) (cell : option Cell) (reqs : list (Z * Z)) : option (Z * option Cell) :=
  match reqs with
  | [] => Some (0, cell)
  | (now_ms, cost) :: reqs' =>
      '(o, c) ← bucket_decide q cell now_ms cost;
      '(n, c') ← admitted_cost q (Some c) reqs';
      Some ((if allowed o then cost else 0) + n, c')
  end.

(** Requests in time order from [from] to [to], of cost at most [most]. *)
Fixpoint timed (from to most : Z) (reqs : list (Z * Z)) : Prop :=
  match reqs with
  | [] => True
  | (now_ms, cost) :: reqs' => from ≤ now_ms ≤ to ∧ 0 ≤ cost ≤ most ∧ timed now_ms to most reqs'
  end.

Lemma ticks_le q a b : quota_ok q → a ≤ b → ticks q a ≤ ticks q b.
Proof. intros Hq. destruct (quota_bounds q Hq). unfold ticks. nia. Qed.

Lemma admitted_cost_bound q cell from to most reqs :
  quota_ok q → cell_ok (default default_cell cell) → 0 ≤ from → to ≤ u64_max →
  limit1 q ≤ most < 2 ^ 62 → timed from to most reqs →
  ∃ n c, admitted_cost q cell reqs = Some (n, c) ∧ 0 ≤ n ∧
    let start := the_base q (default default_cell cell) from in
    n * interval q + start ≤ Z.max start (ticks q to + most * interval q).
Proof.
  intros Hq. destruct (quota_bounds q Hq) as [HL HP]. revert cell from.
  induction reqs as [|[now cost] reqs IH]; intros cell from Hc Hfrom Hto Hmost Ht.
  { exists 0, cell. split; [done|]. simpl. lia. }
  destruct Ht as (Hnow & Hcost & Ht). cbn [admitted_cost].
  assert (in_u64 now) as Hu by (widths; lia). assert (cost_ok cost) as Hco by (unfold cost_ok; lia).
  destruct (bucket_decide q cell now cost) as [[o c]|] eqn:E;
    [|by rewrite bucket_decide_spec in E].
  pose proof (bucket_decide_cell_ok q cell now cost o c Hq Hc Hu Hco E) as Hc'.
  rewrite bucket_decide_spec in E by done. cbn [mbind option_bind].
  destruct (IH (Some c) now) as (n & c' & -> & Hn & Hbound); [done|lia|lia|lia|done|]. cbn [mbind option_bind].
  eexists _, _. split; [done|]. cbv zeta in Hbound |- *. cbn [default from_option id] in Hbound.
  pose proof (ticks_le q from now Hq (proj1 Hnow)) as Hft. pose proof (ticks_le q now to Hq (proj2 Hnow)) as Htt.
  unfold the_base in *. set (c0 := default default_cell cell) in *. assert (0 ≤ most * interval q) by nia.
  destruct (decide _) as [Hle|Hgt] in E; injection E as <- <-; cbn [allowed tat] in *; [|lia].
  assert (burst q ≤ most * interval q ∧ cost * interval q ≤ most * interval q) as [Hbm Hcm] by (unfold burst; nia).
  assert (ticks q now ≤ Z.max (tat c0) (ticks q now)) as Hnb by lia.
  pose proof (admitted_ahead q cost _ _ Hq (proj1 Hcost) Hnb Hle). nia.
Qed.

(** The rate holds whatever the requests: over any run of requests in
    time order on one key, from any instant [from] to [to], the cost admitted is
    at most the burst plus what the quota refills in that time, where a request
    dearer than the whole bucket counts as its own burst; and no arithmetic
    overflows. *)
Theorem admitted_rate_is_bounded q from to most reqs :
  quota_ok q → 0 ≤ from → to ≤ u64_max → from ≤ to →
  limit1 q ≤ most < 2 ^ 62 → timed from to most reqs →
  ∃ n c, admitted_cost q None reqs = Some (n, c) ∧
    n * interval q ≤ most * interval q + (to - from) * limit1 q.
Proof.
  intros Hq Hfrom Hto Hft Hmost Ht.
  destruct (admitted_cost_bound q None from to most reqs) as (n & c & -> & Hn & Hb);
    [done|unfold cell_ok; simpl; lia|done|done|done|done|].
  exists n, c. split; [done|]. destruct (quota_bounds q Hq) as [HL HP]. cbv zeta in Hb.
  unfold the_base in Hb. cbn [default from_option tat default_cell] in Hb.
  assert (0 ≤ ticks q from) by (unfold ticks; nia). pose proof (ticks_le q from to Hq Hft).
  assert (0 ≤ most * interval q) by nia. unfold ticks in *. nia.
Qed.

Lemma admitted_rate_is_bounded_witness :
  let q := per_second 3 in
  admitted_cost q None [(10, 1); (10, 1); (10, 1); (10, 1); (300, 1); (400, 1); (1010, 2)]
    = Some (6, Some (mkCell 6030 2010 false)) ∧
  ∃ n c, admitted_cost q None [(10, 1); (10, 1); (10, 1); (10, 1); (300, 1); (400, 1); (1010, 2)] = Some (n, c) ∧
    n * interval q ≤ 3 * interval q + (1010 - 10) * limit1 q.
Proof.
  split; [vm_compute; reflexivity|].
  apply (admitted_rate_is_bounded (per_second 3) 10 1010 3); [|lia|by vm_compute|lia| |].
  - unfold quota_ok; simpl; lia.
  - vm_compute. split; [discriminate|reflexivity].
  - simpl. lia.
Defined.

(** ** A refusal says when to come back *)

Lemma to_u64_small x : to_u64 x < u64_max → to_u64 x = x.
Proof. unfold to_u64. case_decide; lia. Qed.

(** C29: a refusal's [Retry-After] is exact: if nothing else happens on the
    key, the same request made at any later time is admitted precisely from
    [retry_after_ms] on, so waiting that long always succeeds and nothing
    shorter does.  The wait is at least one millisecond, and a refusal charges
    nothing. *)
Theorem retry_after_is_exact q cell now_ms cost o c :
  quota_ok q → cell_ok (default default_cell cell) → in_u64 now_ms → cost_ok cost →
  bucket_decide q cell now_ms cost = Some (o, c) → allowed o = false → retry_after_ms o < u64_max →
  1 ≤ retry_after_ms o ∧ tat c = tat (default default_cell cell) ∧
  ∀ later, now_ms ≤ later ≤ u64_max →
    ∃ o' c', bucket_decide q (Some c) later cost = Some (o', c') ∧
             (allowed o' = true ↔ now_ms + retry_after_ms o ≤ later).
Proof.
  intros Hq Hc Hnow Hcost E Ho Hr. pose proof (bucket_decide_cell_ok q cell now_ms cost o c Hq Hc Hnow Hcost E) as Hc'.
  rewrite bucket_decide_spec in E by done. set (c0 := default default_cell cell) in *.
  destruct (decide _) as [|Hgt] in E; injection E as <- <-; [done|]. cbn [retry_after_ms allowed tat] in *.
  destruct (quota_bounds q Hq) as [HL HP]. pose proof (need_bounds q cost Hq) as Hn.
  unfold ms_ceil in Hr |- *. pose proof (to_u64_small _ Hr) as He. rewrite He in *. clear Hr.
  set (wait := the_base q c0 now_ms + the_need q cost - ticks q now_ms - burst q) in *.
  assert (the_base q c0 now_ms = tat c0) as Hb.
  { unfold the_base in *. destruct (decide (tat c0 ≤ ticks q now_ms)); [|lia]. exfalso. apply Hgt. lia. }
  assert (∀ n, div_ceil wait (limit1 q) ≤ n ↔ wait ≤ n * limit1 q) as Hceil by (intros; apply div_ceil_le; lia).
  split; [|split; [done|]].
  { destruct (decide (div_ceil wait (limit1 q) ≤ 0)) as [Hz|]; [apply Hceil in Hz; lia|lia]. }
  intros later Hlater. assert (in_u64 later) as Hl by (widths; lia).
  pose proof (bucket_decide_spec q (Some (mkCell (tat c0) (idle_at_ms c0) true)) later cost Hq Hc' Hl Hcost) as Hd.
  cbv zeta in Hd. cbn [default from_option id] in Hd.
  assert (div_ceil wait (limit1 q) ≤ later - now_ms ↔
    the_base q (mkCell (tat c0) (idle_at_ms c0) true) later + the_need q cost - ticks q later ≤ burst q) as Hiff.
  { rewrite Hceil. unfold the_base; cbn [tat]. subst wait. rewrite Hb. unfold ticks in *. lia. }
  destruct (decide _) as [Hle|Hgt'] in Hd; eexists _, _; (split; [exact Hd|]); cbn [allowed].
  - split; [intros _; apply Hiff in Hle; lia|done].
  - split; [done|]. intros Hle. exfalso. apply Hgt', Hiff. lia.
Qed.

Lemma retry_after_is_exact_witness :
  let c := mkCell 3030 1010 false in
  bucket_decide (per_second 3) (Some c) 10 1 = Some (mkOutcome false 334 0 true, mkCell 3030 1010 true) ∧
  ∃ o' c', bucket_decide (per_second 3) (Some (mkCell 3030 1010 true)) 344 1 = Some (o', c') ∧
           (allowed o' = true ↔ 10 + 334 ≤ 344).
Proof.
  split; [vm_compute; reflexivity|].
  refine (proj2 (proj2 (retry_after_is_exact (per_second 3) (Some (mkCell 3030 1010 false)) 10 1
    (mkOutcome false 334 0 true) (mkCell 3030 1010 true) _ _ _ _ _ _ _)) 344 _).
  - unfold quota_ok; simpl; lia.
  - unfold cell_ok; simpl; lia.
  - unfold in_u64; vm_compute; split; discriminate.
  - unfold cost_ok; lia.
  - vm_compute; reflexivity.
  - reflexivity.
  - vm_compute; reflexivity.
  - vm_compute; split; discriminate.
Defined.

(** ** The store forgets nothing that matters *)

(** The store without a bound: a cell per key, for ever. *)
Definition unbounded_apply (cells : gmap string Cell) (key : string) (q : Quota) (cost now_ms : Z) :
    option (Outcome * gmap string Cell) :=
  '(outcome, next) ← bucket_decide q (cells !! key) now_ms cost;
  Some (outcome, <[key := next]> cells).

Section store.
(** A key is charged under one quota: the budget is part of the key. *)
Context (quota_of : string → Quota) (Hquota : ∀ key, quota_ok (quota_of key) ∧ 1 ≤ q_limit (quota_of key)).

(** A cell's idle time is when its bucket is full. *)
Definition cells_ok (cells : gmap string Cell) : Prop :=
  ∀ key c, cells !! key = Some c → cell_ok c ∧ idle_at_ms c = ms_ceil (quota_of key) (tat c).

(** What the store has dropped of the unbounded one is idle. *)
Definition forgets (cells all : gmap string Cell) (now_ms : Z) : Prop :=
  ∀ key, cells !! key = all !! key ∨
         (cells !! key = None ∧ ∃ c, all !! key = Some c ∧ is_idle c now_ms = true).

Lemma forgets_later cells all now later : now ≤ later → forgets cells all now → forgets cells all later.
Proof.
  intros Hle Hf key. destruct (Hf key) as [?|(? & c & ? & Hi)]; [by left|right]. split; [done|]. exists c.
  split; [done|]. unfold is_idle in *. rewrite bool_decide_eq_true in *. lia.
Qed.

(** An idle cell decides as no cell does. *)
Lemma idle_decides q c now_ms cost :
  quota_ok q → cell_ok c → in_u64 now_ms → now_ms < u64_max → cost_ok cost →
  idle_at_ms c = ms_ceil q (tat c) → is_idle c now_ms = true →
  bucket_decide q (Some c) now_ms cost = bucket_decide q None now_ms cost.
Proof.
  intros Hq Hc Hnow Hmax Hcost Hidle Hi. unfold is_idle in Hi. rewrite bool_decide_eq_true in Hi.
  destruct (quota_bounds q Hq) as [HL HP]. pose proof (need_bounds q cost Hq).
  assert (tat c ≤ ticks q now_ms) as Ht.
  { rewrite Hidle in Hi. unfold ms_ceil in Hi. rewrite to_u64_small in Hi by lia. apply div_ceil_le in Hi; [done|lia]. }
  assert (0 ≤ ticks q now_ms) by (unfold ticks; widths; nia).
  assert (the_base q c now_ms = the_base q default_cell now_ms) as Hb by (unfold the_base; cbn [tat default_cell]; lia).
  rewrite (bucket_decide_spec q (Some c)) by done. rewrite (bucket_decide_spec q None) by done. cbn [default from_option id].
  rewrite Hb.
  assert (the_base q default_cell now_ms = ticks q now_ms) as Hn by (unfold the_base; cbn [tat default_cell]; lia).
  rewrite Hn. by rewrite !decide_True by lia.
Qed.

Lemma decide_cell_idle q cell now_ms cost o c :
  quota_ok q → cell_ok (default default_cell cell) → in_u64 now_ms → cost_ok cost →
  (∀ c', cell = Some c' → idle_at_ms c' = ms_ceil q (tat c')) →
  bucket_decide q cell now_ms cost = Some (o, c) → idle_at_ms c = ms_ceil q (tat c).
Proof.
  intros Hq Hc Hnow Hcost Hidle. rewrite bucket_decide_spec by done.
  destruct (decide _) as [|Hgt]; intros [= <- <-]; [done|]. simpl. destruct cell as [c'|]; simpl in *; [by apply Hidle|].
  destruct (quota_bounds q Hq) as [HL _]. unfold ms_ceil, div_ceil. by rewrite Z.div_small by lia.
Qed.

Lemma forgets_filter cells all now_ms :
  forgets cells all now_ms → forgets (filter (λ kc, is_idle kc.2 now_ms = false) cells) all now_ms.
Proof.
  intros Hf key. destruct (cells !! key) as [c|] eqn:E.
  - destruct (Hf key) as [Heq|[? _]]; [|congruence]. destruct (is_idle c now_ms) eqn:Hi.
    + right. split; [|exists c; split; [congruence|done]]. apply map_lookup_filter_None_2. right.
      intros c' Hc'. simpl. congruence.
    + left. rewrite <-Heq, E. by apply map_lookup_filter_Some_2.
  - assert (filter (λ kc, is_idle kc.2 now_ms = false) cells !! key = None) as Hn
      by (apply map_lookup_filter_None_2; by left).
    rewrite Hn. destruct (Hf key) as [Heq|[_ Hc]]; [left; congruence|by right].
Qed.
Lemma forgets_insert cells all now_ms key c :
  forgets cells all now_ms → forgets (<[key := c]> cells) (<[key := c]> all) now_ms.
Proof.
  intros Hf k. destruct (decide (k = key)) as [->|Hne]; [left; by rewrite !lookup_insert_eq|].
  rewrite !lookup_insert_ne by done. apply Hf.
Qed.
Lemma cells_ok_insert cells key c :
  cells_ok cells → cell_ok c → idle_at_ms c = ms_ceil (quota_of key) (tat c) → cells_ok (<[key := c]> cells).
Proof.
  intros Hok Hc Hi k c' Hk. destruct (decide (k = key)) as [->|Hne].
  - rewrite lookup_insert_eq in Hk. injection Hk as <-. done.
  - rewrite lookup_insert_ne in Hk by done. by apply Hok.
Qed.

Lemma ms_ceil_ticks q now_ms : quota_ok q → in_u64 now_ms → ms_ceil q (ticks q now_ms) = now_ms.
Proof.
  intros Hq Hnow. destruct (quota_bounds q Hq) as [HL _]. unfold ms_ceil, ticks.
  assert (div_ceil (now_ms * limit1 q) (limit1 q) = now_ms) as ->.
  { unfold div_ceil. replace (now_ms * limit1 q + limit1 q - 1) with (now_ms * limit1 q + (limit1 q - 1)) by lia.
    rewrite Z.div_add_l, Z.div_small by lia. lia. }
  unfold to_u64. apply decide_True. apply Hnow.
Qed.

(** Peeking at a key with no state is a full bucket. *)
Lemma peek_untracked key now_ms :
  in_u64 now_ms →
  ∃ c, bucket_decide (quota_of key) None now_ms 0 = Some (untracked (q_limit (quota_of key)), c) ∧
       cell_ok c ∧ idle_at_ms c = ms_ceil (quota_of key) (tat c) ∧ is_idle c now_ms = true.
Proof.
  intros Hnow. destruct (Hquota key) as [Hq Hl]. set (q := quota_of key) in *.
  pose proof (need_bounds q 0 Hq) as Hn. destruct (quota_bounds q Hq) as [HL HP].
  pose proof (bucket_decide_spec q None now_ms 0 Hq default_cell_ok Hnow ltac:(unfold cost_ok; lia)) as Hd.
  pose proof (ticks_bounds q now_ms Hq Hnow) as Ht.
  assert (the_base q default_cell now_ms = ticks q now_ms) as Hb by (unfold the_base; cbn [tat default_cell]; lia).
  cbv zeta in Hd. cbn [default from_option] in Hd. rewrite Hb, decide_True in Hd by lia.
  eexists. split; [rewrite Hd; do 3 f_equal|split; [|split; [done|]]].
  - replace (ticks q now_ms + 0 * interval q - ticks q now_ms) with 0 by lia. unfold sat_sub, burst.
    rewrite Z.sub_0_r, Z.max_l by nia. rewrite Z.div_mul by lia.
    unfold to_u64, limit1. rewrite Z.max_l by lia. rewrite decide_True; [done|]. destruct Hq. widths. lia.
  - unfold cell_ok; simpl. lia.
  - unfold is_idle; simpl. rewrite Z.mul_0_l, Z.add_0_r, ms_ceil_ticks by done. by apply bool_decide_eq_true.
Qed.

(** The cell a decision reads is as good as the unbounded store's. *)
Lemma forgets_decides cells all key now_ms cost :
  cells_ok all → forgets cells all now_ms → in_u64 now_ms → now_ms < u64_max → cost_ok cost →
  bucket_decide (quota_of key) (all !! key) now_ms cost = bucket_decide (quota_of key) (cells !! key) now_ms cost.
Proof.
  intros Hok Hf Hnow Hmax Hcost. destruct (Hf key) as [->|(-> & c & Hc & Hi)]; [done|]. rewrite Hc.
  destruct (Hok key c Hc). apply idle_decides; [apply Hquota|done..].
Qed.

Lemma cells_ok_lookup all key : cells_ok all → cell_ok (default default_cell (all !! key)).
Proof.
  intros Hok. destruct (all !! key) as [c|] eqn:E; simpl; [by destruct (Hok key c E)|exact default_cell_ok].
Qed.

Lemma unbounded_step all key now_ms cost :
  cells_ok all → in_u64 now_ms → cost_ok cost →
  ∃ o c, bucket_decide (quota_of key) (all !! key) now_ms cost = Some (o, c) ∧ cells_ok (<[key := c]> all).
Proof.
  intros Hok Hnow Hcost. destruct (Hquota key) as [Hq _]. pose proof (cells_ok_lookup all key Hok) as Hc.
  destruct (bucket_decide _ _ _ _) as [[o c]|] eqn:E; [|by rewrite bucket_decide_spec in E].
  exists o, c. split; [done|]. apply cells_ok_insert; [done|by eapply bucket_decide_cell_ok|].
  eapply decide_cell_idle; [exact Hq|exact Hc|exact Hnow|exact Hcost| |exact E].
  intros c' Hc'. by destruct (Hok key c' Hc').
Qed.

Lemma size_insert_le (m : gmap string Cell) key c n : (size m < n)%nat → (size (<[key := c]> m) ≤ n)%nat.
Proof. intros. rewrite map_size_insert. destruct (m !! key); unfold id; lia. Qed.

(** Bounding the store costs nothing but its stated exception: while
    what it has forgotten of an unbounded store is idle, every take and peek
    answers exactly as the unbounded store would, and what it then holds is
    again all but idle cells, unless [MAX_KEYS] other keys are all busy, when a
    new key is let through untracked.  The store never grows past
    [MAX_KEYS]. *)
Theorem store_forgets_only_idle cells all key now_ms cost :
  cells_ok all → forgets cells all now_ms → (size cells ≤ MAX_KEYS)%nat →
  in_u64 now_ms → now_ms < u64_max → cost_ok cost →
  ∃ o cells', store_apply cells key (quota_of key) cost now_ms = Some (o, cells') ∧ (size cells' ≤ MAX_KEYS)%nat ∧
    ((o = untracked (q_limit (quota_of key)) ∧ cells !! key = None ∧
      (MAX_KEYS ≤ size (filter (λ kc, is_idle kc.2 now_ms = false) cells))%nat) ∨
     ∃ all', unbounded_apply all key (quota_of key) cost now_ms = Some (o, all') ∧
             cells_ok all' ∧ forgets cells' all' now_ms).
Proof.
  intros Hok Hf Hsize Hnow Hmax Hcost. unfold store_apply, unbounded_apply.
  destruct (unbounded_step all key now_ms cost Hok Hnow Hcost) as (o & c & Hd & Hok').
  pose proof (forgets_decides cells all key now_ms cost Hok Hf Hnow Hmax Hcost) as Heq. rewrite Hd in Heq |- *.
  cbn [mbind option_bind]. destruct (decide (cost = 0 ∧ cells !! key = None)) as [[-> Hn]|Hpeek].
  { exists (untracked (q_limit (quota_of key))), cells. split; [done|]. split; [done|]. right.
    rewrite Hn in Heq. destruct (peek_untracked key now_ms Hnow) as (c' & Hc' & _ & _ & Hi).
    rewrite Hc' in Heq. injection Heq as -> ->. eexists. split; [done|]. split; [done|].
    intros k. destruct (decide (k = key)) as [->|Hne]; [right; split; [done|exists c'; by rewrite lookup_insert_eq]|].
    rewrite lookup_insert_ne by done. apply Hf. }
  set (busy := filter (λ kc, is_idle kc.2 now_ms = false) cells).
  destruct (cells !! key) as [c0|] eqn:E; [rewrite bool_decide_eq_false_2 by done|rewrite bool_decide_eq_true_2 by done]; cbn [andb].
  - rewrite <-Heq. cbn [mbind option_bind]. eexists _, _. split; [done|]. split.
    + rewrite map_size_insert_Some; [done|by eexists].
    + right. eexists. split; [done|]. split; [done|by apply forgets_insert].
  - destruct (bool_decide (MAX_KEYS ≤ size cells)%nat) eqn:Hfull; cbn [andb].
    + assert (size busy ≤ size cells)%nat as Hle by (apply map_subseteq_size, map_filter_subseteq).
      destruct (bool_decide (MAX_KEYS ≤ size busy)%nat) eqn:Hbusy.
      * eexists _, _. split; [done|]. split; [lia|]. left. split; [done|]. split; [done|]. by apply bool_decide_eq_true in Hbusy.
      * apply bool_decide_eq_false in Hbusy. rewrite <-Heq. cbn [mbind option_bind]. eexists _, _. split; [done|].
        split; [apply size_insert_le; lia|]. right. eexists. split; [done|]. split; [done|].
        by apply forgets_insert, forgets_filter.
    + apply bool_decide_eq_false in Hfull. rewrite <-Heq. cbn [mbind option_bind]. eexists _, _. split; [done|].
      split; [apply size_insert_le; lia|]. right. eexists. split; [done|]. split; [done|by apply forgets_insert].
Qed.
End store.

(** A key's cell has gone idle and was forgotten; the next take answers as if
    it had not been. *)
Lemma store_forgets_only_idle_witness :
  let all : gmap string Cell := {["k"%string := mkCell 3030 1010 true]} in
  ∃ o cells', store_apply ∅ "k" (per_second 3) 2 1500 = Some (o, cells') ∧
    ∃ all', unbounded_apply all "k" (per_second 3) 2 1500 = Some (o, all').
Proof.
  set (all := {["k"%string := mkCell 3030 1010 true]} : gmap string Cell).
  assert (∀ key : string, quota_ok (per_second 3) ∧ 1 ≤ q_limit (per_second 3)) as Hq by (unfold quota_ok; simpl; lia).
  destruct (store_forgets_only_idle (λ _, per_second 3) Hq ∅ all "k" 1500 2) as (o & cells' & Ha & _ & Hr).
  - intros k c Hk. apply lookup_singleton_Some in Hk as [_ <-]. split; [unfold cell_ok; simpl; lia|by vm_compute].
  - intros k. destruct (decide (k = "k"%string)) as [->|Hne].
    + right. split; [apply lookup_empty|]. exists (mkCell 3030 1010 true). split; [apply lookup_singleton_eq|reflexivity].
    + left. unfold all. by rewrite lookup_empty, lookup_singleton_ne.
  - rewrite map_size_empty. unfold MAX_KEYS. lia.
  - unfold in_u64. vm_compute. split; discriminate.
  - reflexivity.
  - unfold cost_ok. lia.
  - exists o, cells'. split; [exact Ha|].
    destruct Hr as [(_ & _ & Hb)|(all' & Hall & _)]; [|by exists all'].
    exfalso. rewrite map_filter_empty, map_size_empty in Hb. unfold MAX_KEYS in Hb. lia.
Defined.

(** ** Gates count their permits *)

(** The runs of a gate under one cap, with the permits outstanding. *)
Inductive gate_run (cap : Z) : gmap string Z → list string → Prop :=
  | gate_new : gate_run cap ∅ []
  | gate_acquired held permits key held' ok :
      gate_run cap held permits → gate_acquire held key cap = (held', ok) →
      gate_run cap held' (if ok then key :: permits else permits)
  | gate_dropped held permits key permits' :
      gate_run cap held permits → permits ≡ₚ key :: permits' →
      gate_run cap (gate_release held key) permits'.

Definition held_by (permits : list string) (key : string) : Z :=
  Z.of_nat (length (filter (λ k, k = key) permits)).

Lemma held_by_cons permits key k :
  held_by (key :: permits) k = held_by permits k + (if decide (k = key) then 1 else 0).
Proof.
  unfold held_by. rewrite filter_cons. destruct (decide (key = k)) as [->|Hne].
  - rewrite decide_True by done. cbn [length]. lia.
  - rewrite decide_False by congruence. lia.
Qed.
Lemma held_by_Permutation permits permits' k : permits ≡ₚ permits' → held_by permits k = held_by permits' k.
Proof. intros Hp. unfold held_by. by rewrite Hp. Qed.

Lemma gate_held_insert held key n k :
  gate_held (<[key := n]> held) k = if decide (k = key) then n else gate_held held k.
Proof.
  unfold gate_held. destruct (decide (k = key)) as [->|Hne]; [by rewrite lookup_insert_eq|by rewrite lookup_insert_ne].
Qed.

(** A gate counts exactly the permits outstanding, and no key ever
    holds more than the cap: whatever the acquires and drops, the count of each
    key is the number of its permits not yet dropped, and a permit is refused
    exactly when the key already holds the cap. *)
Theorem gate_holds_its_cap cap held permits :
  0 ≤ cap → gate_run cap held permits →
  ∀ key, gate_held held key = held_by permits key ∧ gate_held held key ≤ cap ∧
         ((gate_acquire held key cap).2 = true ↔ held_by permits key < cap).
Proof.
  intros Hcap Hrun.
  assert (∀ key, gate_held held key = held_by permits key ∧ gate_held held key ≤ cap) as Hall.
  { induction Hrun as [|held permits key held' ok Hrun IH Ha|held permits key permits' Hrun IH Hp]; intros k.
    - unfold gate_held. by rewrite lookup_empty.
    - unfold gate_acquire in Ha. change (default 0 (held !! key)) with (gate_held held key) in Ha.
      destruct (decide (cap ≤ gate_held held key)) in Ha; injection Ha as <- <-; rewrite gate_held_insert.
      + destruct (decide (k = key)) as [->|]; apply IH.
      + rewrite held_by_cons. destruct (IH k) as [-> ?]. destruct (decide (k = key)) as [->|]; [|lia].
        destruct (IH key). lia.
    - destruct (IH k) as [Hk Hle]. rewrite (held_by_Permutation _ _ k Hp), held_by_cons in Hk.
      destruct (IH key) as [Hkey Hlek]. rewrite (held_by_Permutation _ _ key Hp), held_by_cons, decide_True in Hkey by done.
      assert (0 ≤ held_by permits' key) by (unfold held_by; lia). unfold gate_release.
      assert (held !! key = Some (gate_held held key)) as Hl.
      { unfold gate_held in *. destruct (held !! key); simpl in *; [done|lia]. }
      rewrite Hl. unfold sat_sub. destruct (decide (Z.max (gate_held held key - 1) 0 = 0)).
      + unfold gate_held at 1 2. destruct (decide (k = key)) as [->|Hne]; [rewrite lookup_delete_eq; simpl; lia|].
        rewrite lookup_delete_ne by done. change (default 0 (held !! k)) with (gate_held held k). lia.
      + rewrite gate_held_insert. destruct (decide (k = key)) as [->|Hne]; lia. }
  intros key. destruct (Hall key) as [Hk Hle]. split; [done|]. split; [done|].
  unfold gate_acquire. change (default 0 (held !! key)) with (gate_held held key). rewrite <-Hk.
  destruct (decide (cap ≤ gate_held held key)); simpl; split; intros; try done; lia.
Qed.

Lemma gate_holds_its_cap_witness :
  ∃ held, gate_run 1 held ["a"%string] ∧ gate_held held "a" = 1 ∧
    ¬ ((gate_acquire held "a" 1).2 = true).
Proof.
  assert (gate_run 1 {["a"%string := 1]} ["a"%string]) as Hr
    by (apply (gate_acquired 1 ∅ [] "a" _ true); [constructor|reflexivity]).
  exists {["a"%string := 1]}. split; [exact Hr|].
  destruct (gate_holds_its_cap 1 _ _ ltac:(lia) Hr "a") as (Hh & _ & Ha).
  split; [rewrite Hh; reflexivity|]. intros Hb. apply Ha in Hb. vm_compute in Hb. discriminate.
Defined.

(** ** Upload slots *)

Definition unexpired (uploads : OpenUploads) (now_ms : Z) : OpenUploads :=
  filter (λ ut : bytes * Z, sat_sub now_ms ut.2 < UPLOAD_IDLE_MS) uploads.

Lemma foldl_min_spec (ts : list Z) t :
  foldl Z.min t ts ∈ t :: ts ∧ ∀ x, x ∈ t :: ts → foldl Z.min t ts ≤ x.
Proof.
  revert t. induction ts as [|u ts IH]; intros t; simpl; [set_solver by lia|].
  destruct (IH (Z.min t u)) as [Hin Hmin]. split.
  - apply elem_of_cons in Hin as [->|Hin]; [|set_solver]. destruct (Z.min_spec t u) as [[_ ->]|[_ ->]]; set_solver.
  - intros x Hx. destruct (decide (x = t ∨ x = u)) as [[->| ->]|Hne].
    + etrans; [apply Hmin; by left|]. lia.
    + etrans; [apply Hmin; by left|]. lia.
    + apply Hmin. set_solver.
Qed.

Lemma oldest_touch_spec uploads d :
  uploads ≠ ∅ →
  (∃ u, uploads !! u = Some (oldest_touch uploads d)) ∧ ∀ u t, uploads !! u = Some t → oldest_touch uploads d ≤ t.
Proof.
  intros Hne. unfold oldest_touch. destruct (map_to_list uploads).*2 as [|t ts] eqn:E.
  { apply fmap_nil_inv, map_to_list_empty_iff in E. done. }
  assert (∀ x, x ∈ t :: ts ↔ ∃ u, uploads !! u = Some x) as Hx.
  { intros x. rewrite <-E, list_elem_of_fmap. setoid_rewrite <-elem_of_map_to_list.
    split; [intros ([u y] & -> & ?); by exists u|intros [u ?]; by exists (u, x)]. }
  destruct (foldl_min_spec ts t) as [Hin Hmin]. split; [by apply Hx|]. intros u x Hu. apply Hmin, Hx. by exists u.
Qed.

(** Every slot opened under one cap stays within it, and a refusal's wait is
    exact: the next open succeeds precisely from then on, if nothing is touched
    or closed meanwhile. *)
Lemma uploads_wait_is_exact ledger account upload cap now_ms ledger' w :
  1 ≤ cap → Z.of_nat (size (default ∅ (ledger !! account))) ≤ cap →
  uploads_open ledger account upload cap now_ms = (ledger', Err w) →
  0 < w ∧ ∀ later other, now_ms ≤ later →
    ((uploads_open ledger' account other cap later).2 = Ok () ↔ now_ms + w ≤ later).
Proof.
  intros Hcap Hsize. unfold uploads_open.
  change (filter _ (default ∅ (ledger !! account))) with (unexpired (default ∅ (ledger !! account)) now_ms).
  set (ups := unexpired (default ∅ (ledger !! account)) now_ms).
  destruct (decide (cap ≤ Z.of_nat (size ups))) as [Hfull|]; [|done]. intros [= <- <-].
  assert (size ups ≤ size (default ∅ (ledger !! account)))%nat as Hsub by (apply map_subseteq_size, map_filter_subseteq).
  assert (Z.of_nat (size ups) = cap) as Heq by lia.
  assert (ups ≠ ∅) as Hne by (intros Hz; rewrite Hz, map_size_empty in Heq; lia).
  destruct (oldest_touch_spec ups now_ms Hne) as [[u Hu] Hmin]. set (old := oldest_touch ups now_ms) in *.
  pose proof (proj1 (map_lookup_filter_Some _ _ _ _) Hu) as [_ Hlive]. simpl in Hlive. unfold sat_sub in Hlive |- *.
  assert (0 < old + UPLOAD_IDLE_MS - now_ms) as Hw by (unfold UPLOAD_IDLE_MS in *; lia).
  rewrite Z.max_l by lia. split; [done|]. intros later other Hlater. rewrite lookup_insert_eq.
  cbn [default from_option id]. change (filter _ ups) with (unexpired ups later).
  destruct (decide (old + UPLOAD_IDLE_MS ≤ later)) as [Hexp|Hlive'].
  - assert (size (unexpired ups later) < size ups)%nat as Hlt.
    { apply map_subset_size, map_subset_alt. split; [apply map_filter_subseteq|]. exists u. split; [|by eexists].
      apply map_lookup_filter_None_2. right. intros t Ht. simpl. rewrite Hu in Ht. injection Ht as <-.
      unfold sat_sub, UPLOAD_IDLE_MS in *. lia. }
    rewrite decide_False by lia. simpl. split; [lia|done].
  - assert (unexpired ups later = ups) as ->.
    { apply map_filter_id. intros k t Hk. simpl. specialize (Hmin k t Hk). unfold sat_sub, UPLOAD_IDLE_MS in *. lia. }
    rewrite decide_True by lia. simpl. split; [done|lia].
Qed.
