(* ===== verification/RelayLog.v ===== *)
(** * The relay's log (sunrise-server: relay_log/append.rs, replay.rs, relay.rs)

    The durable log of ciphertext frames the relay keeps per channel, its
    deduplication and retention, the cursor-filtered replay with the gaps it
    reports, and the in-memory ring behind live fan-out.  The SQL tables are
    finite maps; deleting a frame takes its heads and its batch row with it, as
    the schema's cascades do.  Broadcasting to live sessions is not modelled. *)

From Stdlib Require Import ZArith Lia.
From stdpp Require Import base tactics decidable countable option list gmap fin_maps sorting strings.
From S2P Require Import Prelude Bytes Cbor Wire.
Open Scope Z_scope.

(** A device id, and a channel: the account's namespace and the stream. *)
Abbreviation DeviceId := bytes (only parsing).
Abbreviation StreamKey := (bytes * bytes)%type.

(** [i64::try_from(x).unwrap_or(i64::MAX)] of an unsigned value, and the
    [u64::try_from(x).unwrap_or(0)] that reads a column back. *)
Definition to_i64 (x : Z) : Z := if decide (x ≤ i64_max) then x else i64_max.
Definition of_i64 (x : Z) : Z := if decide (0 ≤ x) then x else 0.

(** ** The tables *)

Definition DEFAULT_MAX_AGE_MS : Z := 30 * 24 * 60 * 60 * 1000.
Definition DEFAULT_MAX_BYTES : Z := 256 * 1024 * 1024.
Record DurableCaps := mkCaps { max_bytes : Z; max_age_ms : Z }.
Definition default_caps : DurableCaps := mkCaps DEFAULT_MAX_BYTES DEFAULT_MAX_AGE_MS.

Record FrameHead := mkHead { device_id : DeviceId; max_seq : Z }.

(** A [relay_frames] row with its [relay_frame_heads]. *)
Record Frame := mkFrame {
  fr_key : StreamKey;
  fr_bytes : bytes;
  fr_n_bytes : Z;
  fr_created_ms : Z;
  fr_n_ops : Z;
  fr_heads : gmap DeviceId Z;
}.

(** A [relay_batches] row. *)
Record Batch := mkBatch { ba_frame : Z; ba_batch_id : Z; ba_first_seen_ms : Z }.

(** [last_id] is the table's AUTOINCREMENT counter. *)
Record Log := mkLog {
  relay_frames : gmap Z Frame;
  last_id : Z;
  relay_evicted : gmap (StreamKey * DeviceId) Z;
  relay_batches : gmap (StreamKey * bytes) Batch;
}.
Definition empty_log : Log := mkLog ∅ 0 ∅ ∅.

(** A channel's frames, oldest first. *)
Definition row_le (a b : Z * Frame) : Prop := a.1 ≤ b.1.
#[export] Instance row_le_dec : RelDecision row_le.
Proof. intros a b. unfold row_le. apply _. Defined.
Definition channel_rows (log : Log) (key : StreamKey) : list (Z * Frame) :=
  isort row_le (filter (λ row, fr_key row.2 = key) (map_to_list (relay_frames log))).

(** ** Appending *)

(** [INSERT .. ON CONFLICT DO UPDATE SET evicted_through = MAX(..)] *)
Definition raise_evicted (key : StreamKey) (ev : gmap (StreamKey * DeviceId) Z) (head : DeviceId * Z) :
    gmap (StreamKey * DeviceId) Z :=
  let '(dev, seq) := head in
  <[(key, dev) := match ev !! (key, dev) with Some held => Z.max held seq | None => seq end]> ev.

(** One turn of the eviction's last loop. *)
Definition evict_frame (key : StreamKey) (log : Log) (id : Z) : Log :=
  let heads := match relay_frames log !! id with Some f => map_to_list (fr_heads f) | None => [] end in
  mkLog (delete id (relay_frames log)) (last_id log)
    (foldl (raise_evicted key) (relay_evicted log) heads)
    (filter (λ kb, ba_frame kb.2 ≠ id) (relay_batches log)).

(** The size bound: oldest first until under budget, the newest always kept. *)
Fixpoint over_budget (rows : list (Z * Z)) (total remaining max_bytes : Z) (doomed : list Z) : list Z :=
  match rows with
  | [] => doomed
  | (id, n) :: rows' =>
      if decide (total ≤ max_bytes ∨ remaining ≤ 1) then doomed
      else over_budget rows' (sat_sub total (of_i64 n)) (remaining - 1) max_bytes
             (if decide (id ∈ doomed) then doomed else doomed ++ [id])
  end.

Definition cutoff (now_ms : Z) (caps : DurableCaps) : Z :=
  let age := sat_sub now_ms (max_age_ms caps) in if decide (age ≤ i64_max) then age else 0.
Definition doomed_ids (log : Log) (key : StreamKey) (now_ms : Z) (caps : DurableCaps) : list Z :=
  let rows := channel_rows log key in
  let too_old := (filter (λ row : Z * Frame, fr_created_ms row.2 < cutoff now_ms caps) rows).*1 in
  let sizes := (λ row : Z * Frame, (row.1, fr_n_bytes row.2)) <$> rows in
  over_budget sizes (foldr Z.add 0 (of_i64 <$> sizes.*2)) (Z.of_nat (length sizes)) (max_bytes caps) too_old.

Definition evict (log : Log) (key : StreamKey) (now_ms : Z) (caps : DurableCaps) : Log * Z :=
  let doomed := doomed_ids log key now_ms caps in
  (foldl (evict_frame key) log doomed, Z.of_nat (length doomed)).

Inductive Appended := Fresh (first_seen_ms evicted : Z) | Duplicate (first_seen_ms : Z).

(** [INSERT OR REPLACE] into [relay_frame_heads]. *)
Definition stored_heads (heads : list FrameHead) : gmap DeviceId Z :=
  foldl (λ m h, <[device_id h := to_i64 (max_seq h)]> m) ∅ heads.

Definition relay_append (log : Log) (key : StreamKey) (b : bytes) (heads : list FrameHead) (n_ops : Z)
    (ops_h : option bytes) (batch_id now_ms : Z) (caps : DurableCaps) : Log * Appended :=
  match (h ← ops_h; relay_batches log !! (key, h)) with
  | Some seen => (log, Duplicate (of_i64 (ba_first_seen_ms seen)))
  | None =>
      let frame_id := last_id log + 1 in
      let frame := mkFrame key b (to_i64 (Z.of_nat (length b))) (to_i64 now_ms) (to_i64 n_ops) (stored_heads heads) in
      let log := mkLog (<[frame_id := frame]> (relay_frames log)) frame_id (relay_evicted log)
        (match ops_h with
         | Some h => <[(key, h) := mkBatch frame_id (to_i64 batch_id) (to_i64 now_ms)]> (relay_batches log)
         | None => relay_batches log
         end) in
      let '(log, evicted) := evict log key now_ms caps in
      (log, Fresh now_ms evicted)
  end.

(** ** Replay *)

Record ReplayFrame := mkReplayFrame { rf_id : Z; rf_bytes : bytes; rf_n_ops : Z }.
Record CursorGap := mkGap { g_device : DeviceId; g_cursor : Z; g_evicted_through : Z }.

Definition head_covered (cursors : gmap DeviceId Z) (h : DeviceId * Z) : bool :=
  match cursors !! h.1 with
  | Some c => bool_decide ((if decide (0 ≤ h.2) then h.2 else u64_max) ≤ c)
  | None => false
  end.
Definition covered (heads : list (DeviceId * Z)) (cursors : gmap DeviceId Z) : bool :=
  match heads with
  | [] => false
  | _ => forallb (head_covered cursors) heads
  end.

Definition gap_le (a b : DeviceId * Z) : Prop := a.1 ≼ b.1.
#[export] Instance gap_le_dec : RelDecision gap_le.
Proof. intros a b. unfold gap_le. apply _. Defined.

(** A channel's watermarks, by device. *)
Definition evicted_rows (log : Log) (key : StreamKey) : list (DeviceId * Z) :=
  isort gap_le (omap (λ row : (StreamKey * DeviceId) * Z, if decide (row.1.1 = key) then Some (row.1.2, row.2) else None)
    (map_to_list (relay_evicted log))).

Definition replayed (after_id : Z) (cursors : gmap DeviceId Z) (row : Z * Frame) : option ReplayFrame :=
  let frame := mkReplayFrame (of_i64 row.1) (fr_bytes row.2) (of_i64 (fr_n_ops row.2)) in
  if decide (0 < after_id) then
    if decide (after_id < rf_id frame) then Some frame else None
  else if covered (map_to_list (fr_heads row.2)) cursors then None
  else Some frame.

Definition gap_of (cursors : gmap DeviceId Z) (row : DeviceId * Z) : option CursorGap :=
  let through := of_i64 row.2 in
  let cursor := default 0 (cursors !! row.1) in
  if decide (cursor < through) then Some (mkGap row.1 cursor through) else None.

Definition relay_replay_after (log : Log) (key : StreamKey) (after_id : Z) (cursors : gmap DeviceId Z) :
    list ReplayFrame * list CursorGap :=
  (omap (replayed after_id cursors) (channel_rows log key), omap (gap_of cursors) (evicted_rows log key)).

(** The highest sequence the channel ever held of each device. *)
Definition relay_device_heads (log : Log) (key : StreamKey) : gmap DeviceId Z :=
  let retained := channel_rows log key ≫= λ row, map_to_list (fr_heads row.2) in
  foldl (λ out row, <[row.1 := Z.max (default 0 (out !! row.1)) (of_i64 row.2)]> out) ∅
    (retained ++ evicted_rows log key).

(** [erase_account]: the rows of one account, and the frames removed. *)
Definition erase_account (log : Log) (account : bytes) : Log * Z :=
  let gone := filter (λ row, (fr_key row.2).1 = account) (relay_frames log) in
  (mkLog (filter (λ row, (fr_key row.2).1 ≠ account) (relay_frames log)) (last_id log)
     (filter (λ row, row.1.1.1 ≠ account) (relay_evicted log))
     (filter (λ row, row.1.1.1 ≠ account) (relay_batches log)),
   Z.of_nat (size gone)).

(** ** Publishing a batch (api/sync/publish.rs) *)

(** [to_le_bytes]. *)
Definition le_bytes (n : nat) (x : Z) : bytes := rev (be_encode n x).

(** What [batch_ops_hash] feeds the hasher. *)
Definition batch_material (ops : list bytes) : bytes :=
  text_bytes "sunrise.relay.batch.v1" ++ le_bytes 8 (Z.of_nat (length ops)) ++
  (ops ≫= λ op, le_bytes 8 (Z.of_nat (length op)) ++ op).

Section publish.
(** ciborium's reader, and BLAKE3. *)
Context (from_reader : nat → bytes → result ValueDecodeError (Value * bytes)) (blake3 : bytes → bytes).

Definition batch_ops_hash (ops : list bytes) : option bytes :=
  match ops with
  | [] => None
  | _ => Some (blake3 (batch_material ops))
  end.

Definition highest_head (m : gmap DeviceId Z) (op : bytes) : gmap DeviceId Z :=
  match decode_envelope_header from_reader op with
  | Ok head => <[eh_device_id head := Z.max (default 0 (m !! eh_device_id head)) (eh_seq head)]> m
  | Err _ => m
  end.
Definition head_le (a b : FrameHead) : Prop := device_id a ≼ device_id b.
#[local] Instance head_le_dec : RelDecision head_le.
Proof. intros a b. unfold head_le. apply _. Defined.
Definition frame_heads (ops : list bytes) : list FrameHead :=
  isort head_le ((λ kv : DeviceId * Z, mkHead kv.1 kv.2) <$> map_to_list (foldl highest_head ∅ ops)).

Definition lowest_head (m : gmap DeviceId Z) (op : bytes) : gmap DeviceId Z :=
  match decode_envelope_header from_reader op with
  | Ok head => <[eh_device_id head := Z.min (default u64_max (m !! eh_device_id head)) (eh_seq head)]> m
  | Err _ => m
  end.
Definition frame_floors (ops : list bytes) : gmap DeviceId Z := foldl lowest_head ∅ ops.
Definition overlaps_stored (ops : list bytes) (stored : gmap DeviceId Z) : bool :=
  existsb (λ kv : DeviceId * Z, match stored !! kv.1 with Some head => bool_decide (kv.2 ≤ head) | None => false end)
    (map_to_list (frame_floors ops)).

(** A batch as it reaches the log: its frame is the encoding of the batch. *)
Record Publish := mkPublish {
  pu_key : StreamKey;
  pu_ops : list bytes;
  pu_batch_id : Z;
  pu_frame : bytes;
  pu_now_ms : Z;
}.

Definition publish (caps : DurableCaps) (log : Log) (p : Publish) : Log * Appended :=
  relay_append log (pu_key p) (pu_frame p) (frame_heads (pu_ops p)) (Z.of_nat (length (pu_ops p)))
    (batch_ops_hash (pu_ops p)) (pu_batch_id p) (pu_now_ms p) caps.

(** The log after a run of publishes, every one of them acked. *)
Definition publish_all (caps : DurableCaps) (ps : list Publish) : Log :=
  foldl (λ log p, (publish caps log p).1) empty_log ps.
End publish.

(** ** Watermarks *)

Lemma isort_perm_elem {A} (R : A → A → Prop) `{!RelDecision R} (l : list A) x : x ∈ isort R l ↔ x ∈ l.
Proof. apply elem_of_isort. Qed.

Lemma elem_of_channel_rows log key id f :
  (id, f) ∈ channel_rows log key ↔ relay_frames log !! id = Some f ∧ fr_key f = key.
Proof.
  unfold channel_rows. rewrite elem_of_isort, list_elem_of_filter, elem_of_map_to_list. simpl. tauto.
Qed.

Lemma elem_of_evicted_rows log key d w :
  (d, w) ∈ evicted_rows log key ↔ relay_evicted log !! (key, d) = Some w.
Proof.
  unfold evicted_rows. rewrite elem_of_isort, list_elem_of_omap. split.
  - intros ([[k d'] w'] & Hin & Hif). apply elem_of_map_to_list in Hin. simpl in Hif.
    destruct (decide (k = key)) as [->|]; [|done]. by simplify_eq.
  - intros Hin. exists ((key, d), w). split; [by apply elem_of_map_to_list|]. simpl. by rewrite decide_True.
Qed.

(** [k]'s watermark is at least [s]. *)
Definition at_least (ev : gmap (StreamKey * DeviceId) Z) (k : StreamKey * DeviceId) (s : Z) : Prop :=
  ∃ w, ev !! k = Some w ∧ s ≤ w.

Lemma raise_evicted_at_least key heads ev k s :
  at_least ev k s ∨ (∃ d, k = (key, d) ∧ (d, s) ∈ heads) → at_least (foldl (raise_evicted key) ev heads) k s.
Proof.
  revert ev. induction heads as [|[d1 s1] heads IH]; intros ev Hor; simpl.
  { destruct Hor as [?|(d & _ & Hin)]; [done|]. by apply not_elem_of_nil in Hin. }
  apply IH. unfold at_least. destruct Hor as [(w & Hw & Hle)|(d & -> & Hin)].
  - left. destruct (decide (k = (key, d1))) as [->|Hne]; [|rewrite lookup_insert_ne by done; by exists w].
    rewrite lookup_insert_eq, Hw. eexists. split; [done|]. lia.
  - apply elem_of_cons in Hin as [[= -> ->]|Hin]; [left|right; by exists d].
    rewrite lookup_insert_eq. destruct (ev !! (key, d1)); eexists; (split; [done|]); lia.
Qed.

(** Deleting frames keeps the rest, and accounts for the deleted ones. *)
Lemma evict_frames_spec key ids log :
  (∀ id f, id ∈ ids → relay_frames log !! id = Some f → fr_key f = key) →
  let log' := foldl (evict_frame key) log ids in
  (∀ id, relay_frames log' !! id = if decide (id ∈ ids) then None else relay_frames log !! id) ∧
  last_id log' = last_id log ∧
  (∀ k s, at_least (relay_evicted log) k s → at_least (relay_evicted log') k s) ∧
  (∀ id f d s, id ∈ ids → relay_frames log !! id = Some f → fr_heads f !! d = Some s →
     at_least (relay_evicted log') (key, d) s) ∧
  (∀ kh b, relay_batches log' !! kh = Some b ↔ relay_batches log !! kh = Some b ∧ ba_frame b ∉ ids).
Proof.
  revert log. induction ids as [|id ids IH]; intros log Hk; [simpl; set_solver|].
  cbn [foldl]. destruct (IH (evict_frame key log id)) as (Hf & Hl & Hmono & Hacc & Hb).
  { intros id' f Hin. simpl. rewrite lookup_delete_Some. intros [_ ?]. apply (Hk id'); [by right|done]. }
  split_and!.
  - intros id'. rewrite Hf. simpl. destruct (decide (id' = id)) as [->|Hne].
    + rewrite (decide_True _ _ (P := id ∈ id :: ids)) by by left. rewrite lookup_delete_eq. by destruct (decide _).
    + rewrite lookup_delete_ne by done. destruct (decide (id' ∈ ids)), (decide (id' ∈ id :: ids)); set_solver.
  - by rewrite Hl.
  - intros k s Hs. apply Hmono. simpl. apply raise_evicted_at_least. by left.
  - intros id' f d s Hin Hfr Hd. destruct (decide (id' = id)) as [->|Hne].
    + apply Hmono. simpl. rewrite Hfr. apply raise_evicted_at_least. right. exists d.
      split; [done|by apply elem_of_map_to_list].
    + apply (Hacc id' f d s); [set_solver| |done]. simpl. by rewrite lookup_delete_ne.
  - intros kh b. rewrite Hb. simpl. rewrite map_lookup_filter_Some, not_elem_of_cons. simpl. tauto.
Qed.

(** Every doomed frame is the channel's. *)
Lemma elem_of_over_budget rows total remaining mb doomed id :
  id ∈ over_budget rows total remaining mb doomed → id ∈ doomed ∨ id ∈ rows.*1.
Proof.
  revert total remaining doomed. induction rows as [|[i n] rows IH]; intros total remaining doomed; simpl; [by left|].
  destruct (decide _); [by left|]. intros Hin. apply IH in Hin as [Hin|Hin]; [|set_solver].
  destruct (decide (i ∈ doomed)); set_solver.
Qed.
Lemma doomed_in_channel log key now_ms caps id f :
  id ∈ doomed_ids log key now_ms caps → relay_frames log !! id = Some f → fr_key f = key.
Proof.
  intros Hd Hf. assert (∃ f', (id, f') ∈ channel_rows log key) as [f' Hf'].
  { unfold doomed_ids in Hd. apply elem_of_over_budget in Hd as [Hd|Hd].
    - apply list_elem_of_fmap in Hd as ([i g] & -> & Hd). apply list_elem_of_filter in Hd as [_ Hd]. by exists g.
    - rewrite <-list_fmap_compose in Hd. apply list_elem_of_fmap in Hd as ([i g] & -> & Hd). by exists g. }
  apply elem_of_channel_rows in Hf' as [Hf' Hk]. congruence.
Qed.

(** ** The heads a frame is filed under *)

Lemma to_i64_mono x y : x ≤ y → to_i64 x ≤ to_i64 y.
Proof. unfold to_i64. repeat case_decide; lia. Qed.

Lemma stored_heads_lookup heads h :
  NoDup (device_id <$> heads) → h ∈ heads → stored_heads heads !! device_id h = Some (to_i64 (max_seq h)).
Proof.
  unfold stored_heads. induction heads as [|h1 heads IH] using rev_ind; intros Hnd Hin; [by apply not_elem_of_nil in Hin|].
  rewrite foldl_snoc. rewrite fmap_app in Hnd. apply NoDup_app in Hnd as (Hnd & Hdisj & _).
  apply elem_of_app in Hin as [Hin|Hin%list_elem_of_singleton].
  - rewrite lookup_insert_ne; [by apply IH|]. intros He. apply (Hdisj (device_id h)); [by apply list_elem_of_fmap_2|].
    rewrite <-He. by left.
  - rewrite <-Hin. apply lookup_insert_eq.
Qed.

Section heads.
Context (from_reader : nat → bytes → result ValueDecodeError (Value * bytes)).

Lemma highest_head_spec ops op head :
  op ∈ ops → decode_envelope_header from_reader op = Ok head →
  ∃ m, foldl (highest_head from_reader) ∅ ops !! eh_device_id head = Some m ∧ eh_seq head ≤ m.
Proof.
  intros Hin Hd. induction ops as [|op1 ops IH] using rev_ind; [by apply not_elem_of_nil in Hin|].
  rewrite foldl_snoc. set (m := foldl (highest_head from_reader) ∅ ops) in *. unfold highest_head.
  apply elem_of_app in Hin as [Hin|Hin%list_elem_of_singleton].
  - destruct (IH Hin) as (x & Hx & Hle). destruct (decode_envelope_header from_reader op1) as [h1|]; [|by exists x].
    destruct (decide (eh_device_id head = eh_device_id h1)) as [He|Hne].
    + rewrite <-He, lookup_insert_eq, Hx. eexists. split; [done|]. simpl. lia.
    + rewrite lookup_insert_ne by done. by exists x.
  - subst op1. rewrite Hd, lookup_insert_eq. eexists. split; [done|]. lia.
Qed.

Lemma frame_heads_devices ops : NoDup (device_id <$> frame_heads from_reader ops).
Proof.
  unfold frame_heads. rewrite isort_Permutation, <-list_fmap_compose.
  apply (NoDup_fst_map_to_list (foldl (highest_head from_reader) ∅ ops)).
Qed.

(** Every op with a readable header is within its frame's head for its
    device. *)
Lemma stored_heads_bound ops op head :
  op ∈ ops → decode_envelope_header from_reader op = Ok head →
  ∃ s, stored_heads (frame_heads from_reader ops) !! eh_device_id head = Some s ∧ to_i64 (eh_seq head) ≤ s.
Proof.
  intros Hin Hd. destruct (highest_head_spec ops op head Hin Hd) as (m & Hm & Hle).
  exists (to_i64 m). split; [|by apply to_i64_mono].
  apply (stored_heads_lookup _ (mkHead (eh_device_id head) m)); [apply frame_heads_devices|].
  unfold frame_heads. apply elem_of_isort, list_elem_of_fmap. exists (eh_device_id head, m).
  split; [done|by apply elem_of_map_to_list].
Qed.
End heads.

(** ** Nothing acked is lost silently *)

Section lossless.
Context (from_reader : nat → bytes → result ValueDecodeError (Value * bytes)) (blake3 : bytes → bytes).

(** The frame at [id] is [p]'s. *)
Definition filed (log : Log) (id : Z) (p : Publish) : Prop :=
  ∃ f, relay_frames log !! id = Some f ∧ fr_key f = pu_key p ∧ fr_bytes f = pu_frame p ∧
       fr_heads f = stored_heads (frame_heads from_reader (pu_ops p)).

(** An acked batch is still filed, or its heads are below the watermarks. *)
Definition accounted (log : Log) (ps : list Publish) (p : Publish) : Prop :=
  (∃ id p', p' ∈ ps ∧ pu_key p' = pu_key p ∧ pu_ops p' = pu_ops p ∧ filed log id p') ∨
  ∀ d s, stored_heads (frame_heads from_reader (pu_ops p)) !! d = Some s →
         at_least (relay_evicted log) (pu_key p, d) s.

Record log_ok (log : Log) (ps : list Publish) : Prop := {
  lo_ids : ∀ id f, relay_frames log !! id = Some f → 0 < id ≤ last_id log;
  lo_batches : ∀ key h b, relay_batches log !! (key, h) = Some b →
    ∃ p, p ∈ ps ∧ pu_key p = key ∧ batch_ops_hash blake3 (pu_ops p) = Some h ∧ filed log (ba_frame b) p;
  lo_accounted : ∀ p, p ∈ ps → accounted log ps p;
  lo_last : 0 ≤ last_id log;
}.

(** The hash does not collide on the batches published. *)
Definition no_collisions (ps : list Publish) : Prop :=
  ∀ p p', p ∈ ps → p' ∈ ps → batch_ops_hash blake3 (pu_ops p) = batch_ops_hash blake3 (pu_ops p') →
    pu_ops p ≠ [] → pu_ops p = pu_ops p'.

Lemma filed_evict log key ids id p :
  (∀ id f, id ∈ ids → relay_frames log !! id = Some f → fr_key f = key) →
  filed log id p → id ∉ ids → filed (foldl (evict_frame key) log ids) id p.
Proof.
  intros Hk (f & Hf & Hrest) Hn. destruct (evict_frames_spec key ids log Hk) as (Hfr & _).
  exists f. rewrite Hfr, decide_False by done. done.
Qed.

Lemma accounted_evict log key ids ps p :
  (∀ id f, id ∈ ids → relay_frames log !! id = Some f → fr_key f = key) →
  accounted log ps p → accounted (foldl (evict_frame key) log ids) ps p.
Proof.
  intros Hk Hacc. destruct (evict_frames_spec key ids log Hk) as (Hfr & _ & Hmono & Hgone & _).
  destruct Hacc as [(id & p' & Hp' & Hkey & Hops & Hfiled)|Hev].
  - destruct (decide (id ∈ ids)) as [Hin|Hout]; [right|left; exists id, p'; by eauto using filed_evict].
    destruct Hfiled as (f & Hf & Hfk & _ & Hheads). intros d s Hd.
    rewrite <-Hkey, <-Hfk, (Hk id f Hin Hf). apply (Hgone id f d s); [done|done|]. by rewrite Hheads, Hops.
  - right. intros d s Hd. by apply Hmono, Hev.
Qed.

Lemma accounted_more log ps ps' p : (∀ x, x ∈ ps → x ∈ ps') → accounted log ps p → accounted log ps' p.
Proof. intros Hsub [(id & p' & ? & ?)|?]; [left; exists id, p'; by eauto|by right]. Qed.

Lemma log_ok_evict log ps key now_ms caps :
  log_ok log ps → log_ok (evict log key now_ms caps).1 ps.
Proof.
  intros [Hids Hb Hacc Hlast]. unfold evict. simpl. set (ids := doomed_ids log key now_ms caps).
  assert (∀ id f, id ∈ ids → relay_frames log !! id = Some f → fr_key f = key) as Hk
    by (intros; by eapply doomed_in_channel).
  destruct (evict_frames_spec key ids log Hk) as (Hfr & Hl & _ & _ & Hba). split.
  - intros id f. rewrite Hfr, Hl. destruct (decide _); [done|apply Hids].
  - intros k h b Hkb. apply Hba in Hkb as [Hkb Hn]. destruct (Hb k h b Hkb) as (p & ? & ? & ? & Hf).
    exists p. eauto using filed_evict.
  - intros p Hp. by apply accounted_evict, Hacc.
  - by rewrite Hl.
Qed.

(** The row just inserted, before retention. *)
Lemma log_ok_insert log ps p :
  log_ok log ps → no_collisions (ps ++ [p]) →
  let id := last_id log + 1 in
  let frame := mkFrame (pu_key p) (pu_frame p) (to_i64 (Z.of_nat (length (pu_frame p)))) (to_i64 (pu_now_ms p))
    (to_i64 (Z.of_nat (length (pu_ops p)))) (stored_heads (frame_heads from_reader (pu_ops p))) in
  log_ok (mkLog (<[id := frame]> (relay_frames log)) id (relay_evicted log)
    (match batch_ops_hash blake3 (pu_ops p) with
     | Some h => <[(pu_key p, h) := mkBatch id (to_i64 (pu_batch_id p)) (to_i64 (pu_now_ms p))]> (relay_batches log)
     | None => relay_batches log
     end)) (ps ++ [p]).
Proof.
  intros [Hids Hb Hacc Hlast] Hnc id frame.
  assert (∀ id' p', filed log id' p' → ∀ ev ba, filed (mkLog (<[id := frame]> (relay_frames log)) id ev ba) id' p') as Hkeep.
  { intros id' p' (f & Hf & Hrest) ev ba. exists f. simpl. rewrite lookup_insert_ne; [done|].
    intros He. apply Hids in Hf. subst id. lia. }
  assert (∀ ev ba, filed (mkLog (<[id := frame]> (relay_frames log)) id ev ba) id p) as Hnew
    by (intros; exists frame; simpl; by rewrite lookup_insert_eq).
  split; simpl.
  - intros id' f. rewrite lookup_insert_Some. intros [[<- _]|[_ Hf]]; [unfold id; lia|].
    apply Hids in Hf. unfold id. lia.
  - intros key h b Hkb. destruct (batch_ops_hash blake3 (pu_ops p)) as [h'|] eqn:Eh.
    + apply lookup_insert_Some in Hkb as [[[= <- <-] <-]|[_ Hkb]].
      * exists p. split; [set_solver|]. split; [done|]. split; [done|]. apply Hnew.
      * destruct (Hb key h b Hkb) as (p' & ? & ? & ? & ?). exists p'. split; [set_solver|]. eauto.
    + destruct (Hb key h b Hkb) as (p' & ? & ? & ? & ?). exists p'. split; [set_solver|]. eauto.
  - intros p' [Hp'| ->%list_elem_of_singleton]%elem_of_app.
    + destruct (Hacc p' Hp') as [(id' & p2 & Hp2 & Hk & Ho & Hf)|Hev]; [left|by right].
      exists id', p2. split; [set_solver|]. eauto.
    + left. exists id, p. split; [set_solver|]. eauto.
  - unfold id. lia.
Qed.

Lemma log_ok_publish caps log ps p :
  log_ok log ps → no_collisions (ps ++ [p]) → log_ok (publish from_reader blake3 caps log p).1 (ps ++ [p]).
Proof.
  intros Hok Hnc. unfold publish, relay_append.
  destruct (batch_ops_hash blake3 (pu_ops p)) as [h|] eqn:Eh; cbn [mbind option_bind].
  - destruct (relay_batches log !! (pu_key p, h)) as [seen|] eqn:Es.
    + destruct Hok as [Hids Hb Hacc Hlast]. split; simpl; [done| | |done].
      * intros key h' b Hkb. destruct (Hb key h' b Hkb) as (p' & ? & ?). exists p'. split; [set_solver|done].
      * intros p' [Hp'| ->%list_elem_of_singleton]%elem_of_app.
        -- eapply accounted_more; [|by apply Hacc]. set_solver.
        -- destruct (Hb _ _ _ Es) as (p' & Hp' & Hk & Hh & Hf). left. exists (ba_frame seen), p'.
           split; [set_solver|]. split; [done|]. split; [|done].
           assert (pu_ops p ≠ []) as Hne by (intros He; rewrite He in Eh; done).
           symmetry. apply (Hnc p p'); [set_solver|set_solver|congruence|done].
    + pose proof (log_ok_insert log ps p Hok Hnc) as Hins. rewrite Eh in Hins.
      pose proof (log_ok_evict _ _ (pu_key p) (pu_now_ms p) caps Hins) as Hev. cbv zeta in Hev.
      by destruct (evict _ _ _ _).
  - pose proof (log_ok_insert log ps p Hok Hnc) as Hins. rewrite Eh in Hins.
    pose proof (log_ok_evict _ _ (pu_key p) (pu_now_ms p) caps Hins) as Hev. cbv zeta in Hev.
    by destruct (evict _ _ _ _).
Qed.

Lemma publish_all_ok caps ps : no_collisions ps → log_ok (publish_all from_reader blake3 caps ps) ps.
Proof.
  unfold publish_all. induction ps as [|p ps IH] using rev_ind; intros Hnc.
  { split; simpl; try done; intros *; rewrite ?lookup_empty; try done. by intros ?%not_elem_of_nil. }
  rewrite foldl_snoc. apply log_ok_publish; [|done]. apply IH.
  intros p1 p2 H1 H2. apply Hnc; set_solver.
Qed.

(** A covered frame's heads are at or below the cursors. *)
Lemma covered_heads heads cursors d s :
  covered heads cursors = true → (d, s) ∈ heads → ∃ c, cursors !! d = Some c ∧ s ≤ c.
Proof.
  intros Hc Hin. assert (forallb (head_covered cursors) heads = true) as Hall by (destruct heads; done).
  rewrite forallb_forall in Hall. apply list_elem_of_In in Hin. specialize (Hall _ Hin). unfold head_covered in Hall.
  simpl in Hall. destruct (cursors !! d) as [c|]; [|done]. exists c. split; [done|].
  apply bool_decide_eq_true in Hall. unfold u64_max in Hall. case_decide; lia.
Qed.

(** C27: the relay loses nothing it acked without saying so.  After any run
    of publishes, duplicates and retention included, take any acked batch and
    any op in it whose routing header reads: a device subscribing with any
    cursors is already at or past the op, or is sent a frame carrying exactly
    that batch's ops, or is told of a gap for that op's device reaching at
    least as far.  (A reconnect instead gets the frames after the one it
    names.)  Two things are set aside: batches of different ops whose hashes, by
    which the relay knows a duplicate, collide; and seqs past the [i64] the
    store keeps, which read as its greatest. *)
Theorem acked_ops_are_never_lost_silently caps ps p op head after_id cursors :
  no_collisions ps → p ∈ ps → op ∈ pu_ops p → decode_envelope_header from_reader op = Ok head →
  let '(frames, gaps) := relay_replay_after (publish_all from_reader blake3 caps ps) (pu_key p) after_id cursors in
  to_i64 (eh_seq head) ≤ default 0 (cursors !! eh_device_id head) ∨
  (∃ p' f, p' ∈ ps ∧ pu_key p' = pu_key p ∧ pu_ops p' = pu_ops p ∧ rf_bytes f = pu_frame p' ∧
     (f ∈ frames ∨ 0 < after_id ∧ rf_id f ≤ after_id)) ∨
  (∃ g, g ∈ gaps ∧ g_device g = eh_device_id head ∧ to_i64 (eh_seq head) ≤ g_evicted_through g).
Proof.
  intros Hnc Hp Hop Hd. destruct (publish_all_ok caps ps Hnc) as [Hids _ Hacc _].
  destruct (stored_heads_bound from_reader (pu_ops p) op head Hop Hd) as (s & Hs & Hle).
  unfold relay_replay_after. set (log := publish_all from_reader blake3 caps ps) in *.
  destruct (Hacc p Hp) as [(id & p' & Hp' & Hk & Ho & f & Hf & Hfk & Hfb & Hfh)|Hev].
  - assert (of_i64 id = id) as Hid by (apply Hids in Hf; unfold of_i64; rewrite decide_True by lia; done).
    assert ((id, f) ∈ channel_rows log (pu_key p)) as Hrow by (apply elem_of_channel_rows; split; [done|congruence]).
    set (rf := mkReplayFrame (of_i64 id) (fr_bytes f) (of_i64 (fr_n_ops f))).
    assert (∀ x, replayed after_id cursors (id, f) = Some x → x ∈ omap (replayed after_id cursors) (channel_rows log (pu_key p))) as Hout
      by (intros x Hx; apply list_elem_of_omap; by exists (id, f)).
    unfold replayed in Hout at 1. cbn [fst snd] in Hout. fold rf in Hout.
    destruct (decide (0 < after_id)) as [Hpos|Hzero].
    + right; left. exists p', rf. split; [done|]. split; [done|]. split; [done|]. split; [done|].
      destruct (decide (after_id < rf_id rf)); [left; by apply Hout|right; split; [done|lia]].
    + destruct (covered (map_to_list (fr_heads f)) cursors) eqn:Hc.
      * left. destruct (covered_heads _ _ (eh_device_id head) s Hc) as (c & -> & Hsc);
          [apply elem_of_map_to_list; by rewrite Hfh, Ho|]. simpl. lia.
      * right; left. exists p', rf. split; [done|]. split; [done|]. split; [done|]. split; [done|]. left. by apply Hout.
  - destruct (Hev (eh_device_id head) s Hs) as (w & Hw & Hsw).
    destruct (decide (default 0 (cursors !! eh_device_id head) < of_i64 w)) as [Hgap|Hno].
    + right; right. exists (mkGap (eh_device_id head) (default 0 (cursors !! eh_device_id head)) (of_i64 w)).
      split; [|split; [done|]].
      * apply list_elem_of_omap. exists (eh_device_id head, w). split; [by apply elem_of_evicted_rows|].
        unfold gap_of. simpl. by rewrite decide_True.
      * simpl. unfold of_i64. case_decide; lia.
    + left. unfold of_i64 in Hno. case_decide; lia.
Qed.
End lossless.

(** ** Retention *)

(** Ids come from the counter, and sizes are not negative. *)
Definition log_wf (log : Log) : Prop :=
  ∀ id f, relay_frames log !! id = Some f → id ≤ last_id log ∧ 0 ≤ fr_n_bytes f.

Definition rows_bytes (rows : list (Z * Frame)) : Z := foldr (λ row n, fr_n_bytes row.2 + n) 0 rows.

Lemma sizes_sum (rows : list (Z * Frame)) :
  Forall (λ row : Z * Frame, 0 ≤ fr_n_bytes row.2) rows →
  foldr Z.add 0 (of_i64 <$> ((λ row : Z * Frame, (row.1, fr_n_bytes row.2)) <$> rows).*2) = rows_bytes rows.
Proof.
  induction 1 as [|row rows Hr Hall IH]; [done|]. 
  change (rows_bytes (row :: rows)) with (fr_n_bytes row.2 + rows_bytes rows). rewrite <-IH. simpl.
  unfold of_i64 at 1. by rewrite decide_True.
Qed.

Lemma rows_bytes_nonneg rows : Forall (λ row : Z * Frame, 0 ≤ fr_n_bytes row.2) rows → 0 ≤ rows_bytes rows.
Proof. unfold rows_bytes. induction 1; simpl in *; lia. Qed.

Lemma rows_bytes_sublist rows rows' :
  rows `sublist_of` rows' → Forall (λ row : Z * Frame, 0 ≤ fr_n_bytes row.2) rows' → rows_bytes rows ≤ rows_bytes rows'.
Proof.
  unfold rows_bytes. induction 1; intros Hall; [simpl; lia|..]; apply Forall_cons in Hall as [? Hall];
    apply IHsublist in Hall; simpl in *; lia.
Qed.

Lemma rows_bytes_perm rows rows' : rows ≡ₚ rows' → rows_bytes rows = rows_bytes rows'.
Proof. unfold rows_bytes. induction 1; simpl in *; lia. Qed.

(** The size bound dooms a prefix of the rows, and stops under budget or at
    the last row. *)
Lemma over_budget_spec rows mb doomed :
  Forall (λ row : Z * Frame, 0 ≤ fr_n_bytes row.2) rows →
  ∃ gone kept, rows = gone ++ kept ∧ (rows_bytes kept ≤ mb ∨ (length kept ≤ 1)%nat) ∧ (rows ≠ [] → kept ≠ []) ∧
    ∀ id, id ∈ over_budget ((λ row : Z * Frame, (row.1, fr_n_bytes row.2)) <$> rows) (rows_bytes rows)
                 (Z.of_nat (length rows)) mb doomed ↔ id ∈ doomed ∨ id ∈ gone.*1.
Proof.
  intros Hall. revert doomed. induction Hall as [|[i f] rows Hr Hall IH]; intros doomed.
  { exists [], []. simpl. split_and!; try done; [right; lia|]. intros id. rewrite elem_of_nil. tauto. }
  cbn [fmap list_fmap over_budget fst snd]. destruct (decide _) as [Hstop|Hgo].
  { exists [], ((i, f) :: rows). split_and!; try done; [destruct Hstop as [?|Hlen]; [by left|right; simpl in *; lia]|].
    intros id. simpl. rewrite elem_of_nil. tauto. }
  apply Decidable.not_or in Hgo as [_ Hlen]. simpl in Hr.
  replace (sat_sub _ _) with (rows_bytes rows).
  2:{ pose proof (rows_bytes_nonneg rows Hall). unfold sat_sub, of_i64, rows_bytes in *. simpl. rewrite decide_True by done.
      lia. }
  replace (_ - 1) with (Z.of_nat (length rows)) by (simpl; lia).
  destruct (IH (if decide (i ∈ doomed) then doomed else doomed ++ [i])) as (gone & kept & -> & Hb & Hne & Hin).
  exists ((i, f) :: gone), kept. split_and!; [done|done|intros _; apply Hne; intros Hnil; rewrite Hnil in Hlen; simpl in Hlen; lia|].
  intros id. rewrite Hin. simpl. rewrite elem_of_cons. destruct (decide (i ∈ doomed)); set_solver.
Qed.

Lemma channel_rows_nonneg log key :
  log_wf log → Forall (λ row : Z * Frame, 0 ≤ fr_n_bytes row.2) (channel_rows log key).
Proof.
  intros Hwf. apply Forall_forall. intros [id f] Hin. apply elem_of_channel_rows in Hin as [Hin _]. exact (proj2 (Hwf id f Hin)).
Qed.

Lemma channel_rows_NoDup log key : NoDup (channel_rows log key).*1.
Proof.
  unfold channel_rows. rewrite isort_Permutation. apply sublist_NoDup with (map_to_list (relay_frames log)).*1;
    [apply NoDup_fst_map_to_list|].
  apply fmap_sublist, sublist_filter.
Qed.

Lemma channel_rows_sorted log key : StronglySorted row_le (channel_rows log key).
Proof.
  assert (Total row_le) as Htot by (intros [a ?] [b ?]; unfold row_le; simpl; lia).
  assert (Transitive row_le) as Htr by (intros [a ?] [b ?] [c ?]; unfold row_le; simpl; lia).
  unfold channel_rows. by apply isort_StronglySorted.
Qed.

(** The rows of a channel after some of them are deleted. *)
Lemma channel_rows_evict key ids log :
  (∀ id f, id ∈ ids → relay_frames log !! id = Some f → fr_key f = key) →
  channel_rows (foldl (evict_frame key) log ids) key ≡ₚ
    filter (λ row : Z * Frame, row.1 ∉ ids) (channel_rows log key).
Proof.
  intros Hk. destruct (evict_frames_spec key ids log Hk) as (Hfr & _).
  apply NoDup_Permutation.
  - eapply NoDup_fmap_1, channel_rows_NoDup.
  - apply NoDup_filter. eapply NoDup_fmap_1, channel_rows_NoDup.
  - intros [id f]. rewrite list_elem_of_filter, !elem_of_channel_rows, Hfr. simpl.
    destruct (decide (id ∈ ids)); naive_solver.
Qed.

(** The channel's newest row is the last one. *)
Lemma newest_row_kept (rows gone kept : list (Z * Frame)) id f :
  rows = gone ++ kept → StronglySorted row_le rows → NoDup rows.*1 → kept ≠ [] →
  (id, f) ∈ rows → (∀ row, row ∈ rows → row.1 ≤ id) → (id, f) ∈ kept.
Proof.
  intros -> Hs Hnd Hne Hin Hmax. apply elem_of_app in Hin as [Hg|]; [|done].
  destruct kept as [|row kept]; [done|]. exfalso.
  assert (row.1 ≤ id) as Hle by (apply Hmax, elem_of_app; right; left).
  assert (id ≤ row.1) as Hge.
  { clear -Hs Hg. induction gone as [|g gone IH]; [by apply not_elem_of_nil in Hg|].
    simpl in Hs. apply StronglySorted_inv in Hs as [Hs Hall]. apply elem_of_cons in Hg as [<-|Hg]; [|by apply IH].
    rewrite Forall_forall in Hall. apply (Hall row). apply elem_of_app. right. left. }
  rewrite fmap_app in Hnd. apply NoDup_app in Hnd as (_ & Hdisj & _).
  apply (Hdisj id); [by apply (list_elem_of_fmap_2 fst gone (id, f))|]. simpl. replace (row.1) with id by lia. left.
Qed.

(** Which frames of the channel go. *)
Lemma doomed_spec log key now_ms caps :
  log_wf log →
  ∃ gone kept, channel_rows log key = gone ++ kept ∧
    (rows_bytes kept ≤ max_bytes caps ∨ (length kept ≤ 1)%nat) ∧ (channel_rows log key ≠ [] → kept ≠ []) ∧
    ∀ id, id ∈ doomed_ids log key now_ms caps ↔
      (∃ f, (id, f) ∈ channel_rows log key ∧
            fr_created_ms f < cutoff now_ms caps) ∨
      id ∈ gone.*1.
Proof.
  intros Hwf. pose proof (channel_rows_nonneg log key Hwf) as Hnn. unfold doomed_ids.
  rewrite sizes_sum, length_fmap by done.
  edestruct (over_budget_spec (channel_rows log key)) as (gone & kept & Heq & Hb & Hne & Hin); [done|].
  exists gone, kept. split; [done|]. split; [done|]. split; [done|]. intros id. rewrite Hin, list_elem_of_fmap.
  apply or_iff_compat_r. split.
  - intros ([i f] & -> & Hf). apply list_elem_of_filter in Hf as [? ?]. by exists f.
  - intros (f & ? & ?). exists (id, f). split; [done|]. by apply list_elem_of_filter.
Qed.

(** What deleting them leaves of the channel. *)
Section evicted.
Context (log : Log) (key : StreamKey) (caps : DurableCaps) (bound : Z) (ids : list Z) (gone kept : list (Z * Frame)).
Hypotheses (Hwf : log_wf log) (Hk : ∀ id f, id ∈ ids → relay_frames log !! id = Some f → fr_key f = key)
  (Heq : channel_rows log key = gone ++ kept) (Hb : rows_bytes kept ≤ max_bytes caps ∨ (length kept ≤ 1)%nat)
  (Hdoom : ∀ id, id ∈ ids ↔ (∃ f, (id, f) ∈ channel_rows log key ∧ fr_created_ms f < bound) ∨ id ∈ gone.*1).

Lemma newest_not_evicted f :
  (last_id log, f) ∈ channel_rows log key → kept ≠ [] → bound ≤ fr_created_ms f →
  (last_id log, f) ∈ kept ∧ last_id log ∉ ids.
Proof using All.
  intros Hrow Hne Hold. assert ((last_id log, f) ∈ kept) as Hkept.
  { apply (newest_row_kept _ gone kept _ _ Heq); [apply channel_rows_sorted|apply channel_rows_NoDup|done|done|].
    intros [i g] Hi. apply elem_of_channel_rows in Hi as [Hi _]. by apply (Hwf i g). }
  split; [done|]. rewrite Hdoom. intros [(f' & Hf' & Hlt)|Hg].
  - apply elem_of_channel_rows in Hf' as [Hf' _], Hrow as [Hrow _]. simplify_eq. lia.
  - pose proof (channel_rows_NoDup log key) as Hnd. rewrite Heq, fmap_app in Hnd.
    apply NoDup_app in Hnd as (_ & Hdisj & _). apply (Hdisj (last_id log) Hg).
    by apply (list_elem_of_fmap_2 fst kept (last_id log, f)).
Qed.

Lemma evicted_bytes f :
  (last_id log, f) ∈ kept → last_id log ∉ ids →
  rows_bytes (channel_rows (foldl (evict_frame key) log ids) key) ≤ max_bytes caps ∨
  (channel_rows (foldl (evict_frame key) log ids) key).*1 = [last_id log].
Proof using All.
  intros Hkept Hnew. pose proof (channel_rows_evict key ids log Hk) as Hperm.
  rewrite Heq, filter_app, (filter_none _ gone) in Hperm
    by (intros row Hrow' Hout; apply Hout, Hdoom; right; by apply list_elem_of_fmap_2).
  simpl in Hperm. destruct Hb as [Hb'|Hone]; [left|right].
  - etrans; [|exact Hb']. rewrite (rows_bytes_perm _ _ Hperm). apply rows_bytes_sublist; [apply sublist_filter|].
    pose proof (channel_rows_nonneg log key Hwf) as Hnn. rewrite Heq in Hnn. by apply Forall_app in Hnn as [_ ?].
  - destruct kept as [|row [|? ?]]; [by apply not_elem_of_nil in Hkept| |simpl in Hone; lia].
    apply list_elem_of_singleton in Hkept as <-. rewrite filter_cons_True in Hperm by done.
    rewrite filter_nil in Hperm. symmetry in Hperm. apply Permutation_singleton_l in Hperm. by rewrite <-Hperm.
Qed.
End evicted.

Lemma cutoff_le_now now_ms caps : in_u64 now_ms → 0 ≤ max_age_ms caps → cutoff now_ms caps ≤ to_i64 now_ms.
Proof. unfold cutoff, sat_sub, to_i64, in_u64, i64_max. intros. repeat case_decide; lia. Qed.

Lemma evict_spec log key now_ms caps f :
  log_wf log → in_u64 now_ms → 0 ≤ max_age_ms caps →
  relay_frames log !! last_id log = Some f → fr_key f = key → fr_created_ms f = to_i64 now_ms →
  let log' := (evict log key now_ms caps).1 in
  relay_frames log' !! last_id log = Some f ∧
  (∀ id' f, relay_frames log' !! id' = Some f → fr_key f = key → cutoff now_ms caps ≤ fr_created_ms f) ∧
  (rows_bytes (channel_rows log' key) ≤ max_bytes caps ∨ (channel_rows log' key).*1 = [last_id log]) ∧
  (∀ id' f, fr_key f ≠ key → relay_frames log' !! id' = Some f ↔ relay_frames log !! id' = Some f) ∧
  log_wf log'.
Proof.
  intros Hwf Hnow Hage Hf Hfk Hfc. unfold evict. cbn [fst].
  destruct (doomed_spec log key now_ms caps Hwf) as (gone & kept & Heq & Hb & Hne & Hdoom).
  assert (∀ id f, id ∈ doomed_ids log key now_ms caps → relay_frames log !! id = Some f → fr_key f = key) as Hk
    by (intros; by eapply doomed_in_channel).
  revert Hdoom Hk. generalize (doomed_ids log key now_ms caps). intros ids Hdoom Hk.
  destruct (evict_frames_spec key ids log Hk) as (Hfr & Hl & _).
  assert ((last_id log, f) ∈ channel_rows log key) as Hrow by (by apply elem_of_channel_rows).
  destruct (newest_not_evicted log key caps (cutoff now_ms caps) ids gone kept Hwf Hk Heq Hb Hdoom f Hrow) as [Hkept Hnew].
  { apply Hne. intros Hnil. rewrite Hnil in Hrow. by apply not_elem_of_nil in Hrow. }
  { rewrite Hfc. by apply cutoff_le_now. }
  split_and!.
  - by rewrite Hfr, decide_False.
  - intros id' g. rewrite Hfr. destruct (decide (id' ∈ ids)) as [|Hd]; [done|]. intros Hg Hgk. apply Z.nlt_ge. intros Hold.
    apply Hd, Hdoom. left. exists g. split; [by apply elem_of_channel_rows|done].
  - by apply (evicted_bytes log key caps (cutoff now_ms caps) ids gone kept Hwf Hk Heq Hb Hdoom f).
  - intros id' g Hg. rewrite Hfr. destruct (decide (id' ∈ ids)); [|done]. split; [done|].
    intros Hg'. destruct Hg. by apply (Hk id' g).
  - intros id' g. rewrite Hfr, Hl. destruct (decide _); [done|]. apply Hwf.
Qed.

(** After a fresh append, retention holds for its channel and touches no
    other: the appended frame is kept, every other frame kept is as young as
    the age bound asks, and either the channel is within its byte budget or
    it holds the appended frame alone. *)
Theorem retention_holds log key b heads n_ops ops_h batch_id now_ms caps log' first_seen evicted :
  log_wf log → in_u64 now_ms → 0 ≤ max_age_ms caps →
  relay_append log key b heads n_ops ops_h batch_id now_ms caps = (log', Fresh first_seen evicted) →
  let id := last_id log + 1 in
  (∃ f, relay_frames log' !! id = Some f ∧ fr_key f = key ∧ fr_bytes f = b) ∧
  (∀ id' f, relay_frames log' !! id' = Some f → fr_key f = key → cutoff now_ms caps ≤ fr_created_ms f) ∧
  (rows_bytes (channel_rows log' key) ≤ max_bytes caps ∨ (channel_rows log' key).*1 = [id]) ∧
  (∀ id' f, fr_key f ≠ key → relay_frames log' !! id' = Some f ↔ relay_frames log !! id' = Some f) ∧
  log_wf log'.
Proof.
  intros Hwf Hnow Hage Happ. cbv zeta. unfold relay_append in Happ. destruct (h ← ops_h; _) as [seen|]; [discriminate|].
  set (frame := mkFrame key b _ _ _ _) in Happ. set (log1 := mkLog _ _ _ _) in Happ.
  assert (relay_frames log1 !! last_id log1 = Some frame) as Hnew by apply lookup_insert_eq.
  assert (log_wf log1) as Hwf1.
  { intros id' f. unfold log1. cbn [relay_frames last_id]. rewrite lookup_insert_Some.
    intros [[<- <-]|[_ Hf]]; [simpl; unfold to_i64, i64_max; case_decide; lia|]. apply Hwf in Hf. lia. }
  pose proof (evict_spec log1 key now_ms caps frame Hwf1 Hnow Hage Hnew eq_refl eq_refl) as Hev. cbv zeta in Hev.
  destruct (evict log1 key now_ms caps) as [log2 n]. injection Happ as <- <- <-. cbn [fst last_id log1] in Hev.
  destruct Hev as (H1 & H2 & H3 & H4 & H5). split; [by exists frame|]. split; [done|]. split; [done|]. split; [|done].
  intros id' f Hfk. rewrite H4 by done. unfold log1. cbn [relay_frames]. rewrite lookup_insert_Some. split.
  - intros [[_ <-]|[_ ?]]; done.
  - intros Hf. right. split; [|done]. apply Hwf in Hf. lia.
Qed.

(** Two devices of one channel: a batch of the device [replicate 16 8]'s op
    42, evicted by the next batch under a small budget. *)
Definition demo_caps : DurableCaps := mkCaps 4 1000.
Definition demo_op : bytes := [83; 82; 2; 0; 3; 0].
Definition demo_head : EnvelopeHeader := mkEnvelopeHeader (replicate 16 7) (replicate 16 8) 42.
Definition demo_batch : Publish := mkPublish ([1], [2]) [demo_op] 1 [1; 2; 3] 5000.
Definition demo_run : list Publish :=
  [demo_batch; mkPublish ([1], [2]) [demo_op] 1 [1; 2; 3] 5100;
   mkPublish ([1], [2]) [[83; 82; 2; 0; 3; 1]] 2 [4; 5; 6] 5200].

Lemma acked_ops_are_never_lost_silently_witness :
  (relay_replay_after (publish_all example_reader (λ b, b) demo_caps demo_run) ([1], [2]) 0 ∅).2 =
    [mkGap (replicate 16 8) 0 42] ∧
  let '(frames, gaps) := relay_replay_after (publish_all example_reader (λ b, b) demo_caps demo_run) ([1], [2]) 0 ∅ in
  to_i64 (eh_seq demo_head) ≤ default 0 ((∅ : gmap DeviceId Z) !! eh_device_id demo_head) ∨
  (∃ p' f, p' ∈ demo_run ∧ pu_key p' = ([1], [2]) ∧ pu_ops p' = [demo_op] ∧ rf_bytes f = pu_frame p' ∧
     (f ∈ frames ∨ 0 < 0 ∧ rf_id f ≤ 0)) ∨
  (∃ g, g ∈ gaps ∧ g_device g = eh_device_id demo_head ∧ to_i64 (eh_seq demo_head) ≤ g_evicted_through g).
Proof.
  split; [vm_compute; reflexivity|].
  apply (acked_ops_are_never_lost_silently example_reader (λ b, b) demo_caps demo_run demo_batch demo_op demo_head 0 ∅).
  - intros p p' Hp Hp' Hh _. unfold demo_run in Hp, Hp'.
    repeat (apply elem_of_cons in Hp as [->|Hp]); [..|by apply not_elem_of_nil in Hp];
      repeat (apply elem_of_cons in Hp' as [->|Hp']); try (by apply not_elem_of_nil in Hp'); try done;
      vm_compute in Hh; discriminate.
  - left.
  - left.
  - vm_compute. reflexivity.
Defined.

Definition demo_log : Log := publish_all example_reader (λ b, b) demo_caps [demo_batch].

Lemma retention_holds_witness :
  let appended := relay_append demo_log ([1], [2]) [4; 5; 6] [] 1 None 2 5200 demo_caps in
  appended.2 = Fresh 5200 1 ∧
  (∃ f, relay_frames appended.1 !! 2 = Some f ∧ fr_key f = ([1], [2]) ∧ fr_bytes f = [4; 5; 6]) ∧
  (rows_bytes (channel_rows appended.1 ([1], [2])) ≤ 4 ∨ (channel_rows appended.1 ([1], [2])).*1 = [2]).
Proof.
  cbv zeta. destruct (relay_append demo_log ([1], [2]) [4; 5; 6] [] 1 None 2 5200 demo_caps) as [log' out] eqn:E.
  assert (out = Fresh 5200 1) as Hout by (change out with (log', out).2; rewrite <-E; vm_compute; reflexivity).
  split; [exact Hout|]. rewrite Hout in E.
  destruct (retention_holds demo_log ([1], [2]) [4; 5; 6] [] 1 None 2 5200 demo_caps log' 5200 1) as (H1 & _ & H3 & _).
  - unfold log_wf. apply (map_Forall_lookup (λ id f, id ≤ last_id demo_log ∧ 0 ≤ fr_n_bytes f)).
    apply (bool_decide_unpack _). vm_compute. exact I.
  - unfold in_u64; vm_compute; split; discriminate.
  - vm_compute. discriminate.
  - exact E.
  - split; [exact H1|exact H3].
Defined.
