(* ===== verification/RelayRing.v ===== *)
(** * The relay's ring (sunrise-server: relay.rs)

    The bounded in-memory backlog of a channel, its eviction watermarks, the
    filter and gaps of a subscription, and the hub's map of channels.  The
    broadcast to live receivers is tokio's and is not modelled. *)

From Stdlib Require Import ZArith Lia.
From stdpp Require Import base tactics decidable countable option list gmap fin_maps sorting.
From S2P Require Import Prelude Bytes Cbor Wire RelayLog.
Open Scope Z_scope.

Definition DEFAULT_MAX_RETAINED_FRAMES : Z := 4096.
Definition DEFAULT_MAX_RETAINED_BYTES : Z := 16 * 1024 * 1024.
Record RingCaps := mkRingCaps { max_frames : Z; ring_max_bytes : Z }.
Definition default_ring_caps : RingCaps := mkRingCaps DEFAULT_MAX_RETAINED_FRAMES DEFAULT_MAX_RETAINED_BYTES.

(** A published frame; its fan-out clock is not kept in the ring. *)
Record RelayFrame := mkRelayFrame {
  rl_from : Z;
  rl_bytes : bytes;
  rl_n_ops : Z;
  rl_heads : list FrameHead;
}.
Definition opaque (from : Z) (b : bytes) : RelayFrame := mkRelayFrame from b 0 [].

Definition head_covered_by (cursors : gmap DeviceId Z) (h : FrameHead) : bool :=
  bool_decide (max_seq h ≤ default 0 (cursors !! device_id h)).
Definition covered_by (f : RelayFrame) (cursors : gmap DeviceId Z) : bool :=
  negb (bool_decide (rl_heads f = [])) && forallb (head_covered_by cursors) (rl_heads f).

Record Channel := mkChannel {
  retained : list RelayFrame;
  retained_bytes : Z;
  evicted_through : gmap DeviceId Z;
}.
Definition new_channel : Channel := mkChannel [] 0 ∅.

Definition raise (ev : gmap DeviceId Z) (h : FrameHead) : gmap DeviceId Z :=
  <[device_id h := Z.max (default 0 (ev !! device_id h)) (max_seq h)]> ev.

Definition over_caps (caps : RingCaps) (kept : list RelayFrame) (n_bytes : Z) : bool :=
  bool_decide (max_frames caps < Z.of_nat (length kept)) ||
  (bool_decide (ring_max_bytes caps < n_bytes) && bool_decide (1 < Z.of_nat (length kept))).

(** The eviction loop, by recursion on the frames retained. *)
Fixpoint trim (caps : RingCaps) (kept : list RelayFrame) (n_bytes : Z) (ev : gmap DeviceId Z) : Channel :=
  if over_caps caps kept n_bytes then
    match kept with
    | [] => mkChannel kept n_bytes ev
    | evicted :: kept' => trim caps kept' (n_bytes - len (rl_bytes evicted)) (foldl raise ev (rl_heads evicted))
    end
  else mkChannel kept n_bytes ev.

Definition push_retained (ch : Channel) (f : RelayFrame) (caps : RingCaps) : Channel :=
  trim caps (retained ch ++ [f]) (retained_bytes ch + len (rl_bytes f)) (evicted_through ch).

Definition gap_dev_le (a b : CursorGap) : Prop := g_device a ≼ g_device b.
#[export] Instance gap_dev_le_dec : RelDecision gap_dev_le.
Proof. intros a b. unfold gap_dev_le. apply _. Defined.
Definition gap_row (cursors : gmap DeviceId Z) (row : DeviceId * Z) : option CursorGap :=
  let cursor := default 0 (cursors !! row.1) in
  if decide (cursor < row.2) then Some (mkGap row.1 cursor row.2) else None.
Definition gaps_for (ch : Channel) (cursors : gmap DeviceId Z) : list CursorGap :=
  isort gap_dev_le (omap (gap_row cursors) (map_to_list (evicted_through ch))).

(** ** The hub *)

Record Hub := mkHub { channels : gmap StreamKey Channel; next_conn : Z }.
Definition new_hub : Hub := mkHub ∅ 0.

(** [next_conn]: the id handed out, and the counter wrapping. *)
Definition take_conn (hub : Hub) : Hub * Z := (mkHub (channels hub) ((next_conn hub + 1) mod 2 ^ 64), next_conn hub).

Definition channel_of (hub : Hub) (key : StreamKey) : Channel := default new_channel (channels hub !! key).

Definition subscribe (hub : Hub) (key : StreamKey) (cursors : gmap DeviceId Z) :
    Hub * (list RelayFrame * list CursorGap) :=
  let ch := channel_of hub key in
  (mkHub (<[key := ch]> (channels hub)) (next_conn hub),
   (filter (λ f, covered_by f cursors = false) (retained ch), gaps_for ch cursors)).

Definition hub_publish (caps : RingCaps) (hub : Hub) (key : StreamKey) (f : RelayFrame) : Hub :=
  mkHub (<[key := push_retained (channel_of hub key) f caps]> (channels hub)) (next_conn hub).

(** [forget_account]: the channels dropped. *)
Definition forget_account (hub : Hub) (account : bytes) : Hub * Z :=
  let kept := filter (λ kc, kc.1.1 ≠ account) (channels hub) in
  (mkHub kept (next_conn hub), Z.of_nat (size (channels hub)) - Z.of_nat (size kept)).

Definition retained_len (hub : Hub) (key : StreamKey) : Z :=
  match channels hub !! key with Some c => Z.of_nat (length (retained c)) | None => 0 end.

(** ** What the loop leaves *)

Definition frames_bytes (fs : list RelayFrame) : Z := foldr (λ f n, len (rl_bytes f) + n) 0 fs.
Definition heads_of (fs : list RelayFrame) : list FrameHead := fs ≫= rl_heads.

(** [through] of [d] among the heads [hs]: the highest sequence, if any. *)
Definition through_of (hs : list FrameHead) (d : DeviceId) : option Z :=
  foldl (λ acc h, if decide (device_id h = d) then Some (match acc with Some s => Z.max s (max_seq h) | None => max_seq h end) else acc) None hs.

Lemma frames_bytes_app a b : frames_bytes (a ++ b) = frames_bytes a + frames_bytes b.
Proof. induction a as [|f a IH]; simpl; [done|]. rewrite IH. lia. Qed.
Lemma frames_bytes_nonneg fs : 0 ≤ frames_bytes fs.
Proof. induction fs as [|f fs IH]; simpl; [done|]. unfold len. lia. Qed.

(** The loop drops a prefix, counts it out of the bytes, raises the watermarks
    by its heads, and stops within the caps. *)
Lemma trim_spec caps kept n_bytes ev :
  0 ≤ max_frames caps → n_bytes = frames_bytes kept →
  ∃ gone rest, kept = gone ++ rest ∧
    trim caps kept n_bytes ev = mkChannel rest (frames_bytes rest) (foldl raise ev (heads_of gone)) ∧
    over_caps caps rest (frames_bytes rest) = false ∧ (gone ≠ [] → 1 ≤ max_frames caps → rest ≠ []).
Proof.
  intros Hcaps. revert n_bytes ev. induction kept as [|f kept IH]; intros n_bytes ev ->; simpl trim.
  - assert (over_caps caps [] (frames_bytes []) = false) as Hno; [|exists [], []; simpl in *; rewrite Hno; split_and!; [done..|by intros []]].
    unfold over_caps. apply orb_false_iff. rewrite andb_false_iff, !bool_decide_eq_false. simpl. lia.
  - destruct (over_caps caps (f :: kept) _) eqn:Hover.
    + destruct (IH (frames_bytes (f :: kept) - len (rl_bytes f)) (foldl raise ev (rl_heads f)))
        as (gone & rest & -> & Htrim & Hok & Hne); [simpl; lia|].
      exists (f :: gone), rest. split_and!; [done| |done|].
      * change (heads_of (f :: gone)) with (rl_heads f ++ heads_of gone). by rewrite foldl_app, <-Htrim.
      * intros _ Hone. destruct gone as [|g gone]; [|by apply Hne]. intros ->. simpl app in *.
        unfold over_caps in Hover. apply orb_true_iff in Hover.
        rewrite andb_true_iff, !bool_decide_eq_true in Hover. simpl in Hover. lia.
    + exists [], (f :: kept). split_and!; [done..|by intros []].
Qed.

Lemma raise_lookup ev hs d :
  foldl raise ev hs !! d =
    match through_of hs d with
    | Some s => Some (Z.max (default 0 (ev !! d)) s)
    | None => ev !! d
    end.
Proof.
  unfold through_of. induction hs as [|h hs IH] using rev_ind; [done|]. rewrite !foldl_snoc. unfold raise at 1.
  destruct (decide (device_id h = d)) as [<-|Hne].
  - rewrite lookup_insert_eq, IH. destruct (foldl _ None hs); simpl; [|done].
    f_equal. lia.
  - by rewrite lookup_insert_ne.
Qed.

(** ** A channel after any run of publishes *)

Definition publish_run (caps : RingCaps) (run : list (StreamKey * RelayFrame)) : Hub :=
  foldl (λ hub kf, hub_publish caps hub kf.1 kf.2) new_hub run.
(** What a run published to one channel. *)
Definition sent_to (key : StreamKey) (run : list (StreamKey * RelayFrame)) : list RelayFrame :=
  omap (λ kf, if decide (kf.1 = key) then Some kf.2 else None) run.

Lemma channel_of_publish caps hub k f key :
  channel_of (hub_publish caps hub k f) key =
    if decide (k = key) then push_retained (channel_of hub key) f caps else channel_of hub key.
Proof.
  unfold hub_publish, channel_of. simpl. destruct (decide (k = key)) as [->|Hne].
  - by rewrite lookup_insert_eq.
  - by rewrite lookup_insert_ne.
Qed.

Lemma channel_run caps run key :
  1 ≤ max_frames caps →
  let ch := channel_of (publish_run caps run) key in
  ∃ gone, sent_to key run = gone ++ retained ch ∧ retained_bytes ch = frames_bytes (retained ch) ∧
    over_caps caps (retained ch) (retained_bytes ch) = false ∧
    evicted_through ch = foldl raise ∅ (heads_of gone) ∧ (sent_to key run ≠ [] → retained ch ≠ []).
Proof.
  intros Hcaps. unfold publish_run. induction run as [|[k f] run IH] using rev_ind.
  { exists []. unfold channel_of. simpl. rewrite lookup_empty. simpl. split_and!; try done.
    unfold over_caps. apply orb_false_iff. rewrite andb_false_iff, !bool_decide_eq_false. simpl. lia. }
  rewrite foldl_snoc. destruct IH as (gone & Hsent & Hb & Hok & Hev & Hne).
  set (hub := foldl _ new_hub run) in *. unfold sent_to in *. rewrite omap_app.
  cbn [fst snd]. rewrite channel_of_publish. cbn [omap list_omap fst snd]. destruct (decide (k = key)) as [->|Hk].
  - unfold push_retained. rewrite Hb.
    destruct (trim_spec caps (retained (channel_of hub key) ++ [f])
      (frames_bytes (retained (channel_of hub key)) + len (rl_bytes f)) (evicted_through (channel_of hub key)))
      as (gone' & rest & Heq & -> & Hok' & Hne'); [lia|rewrite frames_bytes_app; simpl; lia|].
    cbn [retained retained_bytes evicted_through]. exists (gone ++ gone'). rewrite Hsent, <-!(assoc_L app), Heq.
    simpl. split; [done|]. split; [done|]. split; [exact Hok'|]. split.
    + rewrite Hev. unfold heads_of. by rewrite bind_app, foldl_app.
    + intros _. destruct gone' as [|g gone']; [|by apply Hne']. simpl in Heq. intros ->. by destruct (retained _).
  - exists gone. rewrite app_nil_r. done.
Qed.

Lemma through_of_ge hs h : h ∈ hs → ∃ s, through_of hs (device_id h) = Some s ∧ max_seq h ≤ s.
Proof.
  unfold through_of. induction hs as [|h' hs IH] using rev_ind; intros Hin; [by apply not_elem_of_nil in Hin|].
  rewrite foldl_snoc. apply elem_of_app in Hin as [Hin|Hin%list_elem_of_singleton].
  - destruct (IH Hin) as (s & -> & Hle). case_decide; eexists; (split; [done|]); lia.
  - subst h'. rewrite decide_True by done. destruct (foldl _ None hs); eexists; (split; [done|]); lia.
Qed.

Lemma through_of_in hs d s : through_of hs d = Some s → ∃ h, h ∈ hs ∧ device_id h = d ∧ max_seq h = s.
Proof.
  unfold through_of. revert s. induction hs as [|h' hs IH] using rev_ind; intros s; [done|]. rewrite foldl_snoc.
  case_decide as Hd; intros Hs.
  - destruct (foldl _ None hs) as [s'|] eqn:E; injection Hs as <-.
    + destruct (decide (s' ≤ max_seq h')).
      * exists h'. split; [set_solver|]. split; [done|lia].
      * destruct (IH s' eq_refl) as (h & ? & ? & ?). exists h. split; [set_solver|]. split; [done|lia].
    + exists h'. split; [set_solver|done].
  - destruct (IH s Hs) as (h & ? & ? & ?). exists h. split; [set_solver|done].
Qed.

(** C28: the ring stays within its caps and hides nothing it evicts.  After any
    run of publishes a subscription finds at most [max_frames] frames, within
    the byte cap unless there is one alone; every frame it is sent was
    published; for each routing head the hub read in each frame ever published
    (an op whose header does not read has none, and its frame leaves the ring
    without a gap), the subscriber's cursor is already there, or the frame is sent, or a gap for
    the device reaches at least as far; and a gap only ever reaches up to an op
    that was published, above the cursor. *)
Theorem ring_backlog_or_gap caps run key cursors :
  1 ≤ max_frames caps →
  (∀ f h, f ∈ sent_to key run → h ∈ rl_heads f → 0 ≤ max_seq h) →
  let hub := publish_run caps run in
  let ch := channel_of hub key in
  let '(frames, gaps) := (subscribe hub key cursors).2 in
  Z.of_nat (length (retained ch)) ≤ max_frames caps ∧
  (frames_bytes (retained ch) ≤ ring_max_bytes caps ∨ (length (retained ch) ≤ 1)%nat) ∧
  (∀ f, f ∈ frames → f ∈ sent_to key run) ∧
  (∀ f h, f ∈ sent_to key run → h ∈ rl_heads f →
     max_seq h ≤ default 0 (cursors !! device_id h) ∨ f ∈ frames ∨
     ∃ g, g ∈ gaps ∧ g_device g = device_id h ∧ max_seq h ≤ g_evicted_through g) ∧
  (∀ g, g ∈ gaps → g_cursor g = default 0 (cursors !! g_device g) ∧ g_cursor g < g_evicted_through g ∧
     ∃ f h, f ∈ sent_to key run ∧ h ∈ rl_heads f ∧ device_id h = g_device g ∧ max_seq h = g_evicted_through g).
Proof.
  intros Hcaps Hpos hub ch. destruct (channel_run caps run key Hcaps) as (gone & Hsent & Hb & Hok & Hev & _).
  cbv zeta in Hsent, Hb, Hok, Hev. fold hub ch in Hsent, Hb, Hok, Hev. unfold subscribe. fold ch. cbn [snd].
  unfold over_caps in Hok. apply orb_false_iff in Hok as [Hn Hbytes]. apply bool_decide_eq_false in Hn.
  rewrite andb_false_iff, !bool_decide_eq_false in Hbytes. rewrite Hsent in *.
  assert (∀ d s, evicted_through ch !! d = Some s ↔ ∃ m, through_of (heads_of gone) d = Some m ∧ s = Z.max 0 m) as Hthrough.
  { intros d s. rewrite Hev, raise_lookup, lookup_empty. simpl. destruct (through_of _ d); naive_solver. }
  assert (∀ g, g ∈ gaps_for ch cursors ↔ ∃ s, evicted_through ch !! g_device g = Some s ∧ gap_row cursors (g_device g, s) = Some g)
    as Hgaps.
  { intros g. unfold gaps_for. rewrite elem_of_isort, list_elem_of_omap. split.
    - intros ([d s] & Hds%elem_of_map_to_list & Hg). exists s. assert (g_device g = d) as -> by
        (unfold gap_row in Hg; case_decide; by simplify_eq/=). done.
    - intros (s & Hs & Hg). exists (g_device g, s). split; [by apply elem_of_map_to_list|done]. }
  split_and!.
  - lia.
  - destruct Hbytes; [left; lia|right; lia].
  - intros f. rewrite list_elem_of_filter. set_solver.
  - intros f h Hf Hh. apply elem_of_app in Hf as [Hf|Hf].
    + destruct (decide (max_seq h ≤ default 0 (cursors !! device_id h))) as [|Hbelow]; [by left|right; right].
      destruct (through_of_ge (heads_of gone) h) as (m & Hm & Hle); [unfold heads_of; apply list_elem_of_bind; eauto|].
      exists (mkGap (device_id h) (default 0 (cursors !! device_id h)) (Z.max 0 m)). split; [|simpl; split; [done|lia]].
      apply Hgaps. exists (Z.max 0 m). split; [apply Hthrough; eauto|]. unfold gap_row. cbn [g_device fst snd].
      rewrite decide_True by lia. done.
    + destruct (covered_by f cursors) eqn:Hc; [left|right; left].
      * unfold covered_by in Hc. apply andb_true_iff in Hc as [_ Hc]. rewrite forallb_forall in Hc.
        by apply list_elem_of_In, Hc, bool_decide_eq_true in Hh.
      * by apply list_elem_of_filter.
  - intros g Hg. apply Hgaps in Hg as (s & Hs & Hg). apply Hthrough in Hs as (m & Hm & ->). unfold gap_row in Hg.
    cbn [fst snd] in Hg. case_decide as Hlt; [|done]. injection Hg as <-. cbn [g_device g_cursor g_evicted_through] in *.
    split; [done|]. split; [done|]. apply through_of_in in Hm as (h & Hh & Hd & Hm).
    apply list_elem_of_bind in Hh as (f & Hh & Hf). exists f, h.
    assert (f ∈ gone ++ retained ch) as Hfs by set_solver. specialize (Hpos f h Hfs Hh).
    split; [done|]. split; [done|]. split; [done|]. lia.
Qed.

Definition demo_ring_caps : RingCaps := mkRingCaps 2 100.
Definition demo_ring_run : list (StreamKey * RelayFrame) :=
  [(([1], [2]), mkRelayFrame 0 [1; 1] 1 [mkHead [7] 4]);
   (([1], [3]), mkRelayFrame 0 [9] 1 [mkHead [7] 5]);
   (([1], [2]), mkRelayFrame 0 [2; 2] 1 [mkHead [8] 1]);
   (([1], [2]), mkRelayFrame 1 [3; 3] 1 [mkHead [7] 6])].

Lemma ring_backlog_or_gap_witness :
  (subscribe (publish_run demo_ring_caps demo_ring_run) ([1], [2]) {[ [8] := 1 ]}).2 =
    ([mkRelayFrame 1 [3; 3] 1 [mkHead [7] 6]], [mkGap [7] 0 4]) ∧
  ∀ f h, f ∈ sent_to ([1], [2]) demo_ring_run → h ∈ rl_heads f →
     max_seq h ≤ default 0 (({[ [8] := 1 ]} : gmap DeviceId Z) !! device_id h) ∨
     f ∈ [mkRelayFrame 1 [3; 3] 1 [mkHead [7] 6]] ∨
     ∃ g, g ∈ [mkGap [7] 0 4] ∧ g_device g = device_id h ∧ max_seq h ≤ g_evicted_through g.
Proof.
  assert ((subscribe (publish_run demo_ring_caps demo_ring_run) ([1], [2]) {[ [8] := 1 ]}).2 =
    ([mkRelayFrame 1 [3; 3] 1 [mkHead [7] 6]], [mkGap [7] 0 4])) as Hsub by (vm_compute; reflexivity).
  split; [exact Hsub|].
  pose proof (ring_backlog_or_gap demo_ring_caps demo_ring_run ([1], [2]) {[ [8] := 1 ]}) as H. cbv zeta in H.
  rewrite Hsub in H. destruct H as (_ & _ & _ & H & _); [vm_compute; discriminate| |exact H].
  assert (sent_to ([1], [2]) demo_ring_run =
    [mkRelayFrame 0 [1; 1] 1 [mkHead [7] 4]; mkRelayFrame 0 [2; 2] 1 [mkHead [8] 1];
     mkRelayFrame 1 [3; 3] 1 [mkHead [7] 6]]) as -> by (vm_compute; reflexivity).
  intros f h Hf Hh. repeat (apply elem_of_cons in Hf as [->|Hf]); [..|by apply not_elem_of_nil in Hf];
    apply list_elem_of_singleton in Hh as ->; simpl; lia.
Defined.

(** ** The ring and the log *)

(** On stored heads with sequences from 1 the two filters are one. *)
Lemma ring_and_log_filters_agree f cursors :
  (∀ h, h ∈ rl_heads f → 0 < max_seq h) →
  covered_by f cursors = covered ((λ h, (device_id h, max_seq h)) <$> rl_heads f) cursors.
Proof.
  intros Hpos. unfold covered_by, covered. destruct (rl_heads f) as [|h0 hs]; [done|].
  rewrite bool_decide_false by done.
  change (negb false && forallb (head_covered_by cursors) (h0 :: hs) =
    forallb (head_covered cursors) ((λ h, (device_id h, max_seq h)) <$> h0 :: hs)).
  rewrite andb_true_l. induction (h0 :: hs) as [|h hs' IH]; [done|]. cbn [fmap list_fmap forallb].
  rewrite <-IH by (intros; apply Hpos; by right). f_equal.
  assert (0 < max_seq h) by (apply Hpos; left). unfold head_covered_by, head_covered. cbn [fst snd].
  rewrite decide_True by lia. destruct (cursors !! device_id h) as [c|]; simpl; [done|].
  apply bool_decide_eq_false. lia.
Qed.

(** At sequence 0 they differ for a device the cursors do not name: the ring
    skips the frame, the log sends it. *)
Lemma filters_differ_at_zero :
  covered_by (mkRelayFrame 0 [1] 1 [mkHead [7] 0]) ∅ = true ∧ covered [([7], 0)] ∅ = false.
Proof. by vm_compute. Qed.

(** A frame whose heads could not be read leaves no trace when it is
    evicted: it is neither sent nor inside any reported gap. *)
Lemma unreadable_frames_vanish :
  let run := [(([1], [2]), opaque 0 [1; 1]); (([1], [2]), mkRelayFrame 1 [3; 3] 1 [mkHead [7] 6])] in
  opaque 0 [1; 1] ∈ sent_to ([1], [2]) run ∧
  (subscribe (publish_run (mkRingCaps 1 100) run) ([1], [2]) ∅).2 =
    ([mkRelayFrame 1 [3; 3] 1 [mkHead [7] 6]], []).
Proof. split; [by left|by vm_compute]. Qed.
