(* ===== verification/Calendar.v ===== *)
(** * Civil dates and zones

    What the recurrence code uses of the calendar library: civil dates and
    times as plain records, and the library's functions over them as the
    operations of the class [Jiff].  [JiffLaws] states the documented
    behaviour the proofs rely on: dates are numbered by days, weekdays and
    checked additions follow that numbering, and placing a wall-clock time on
    the timeline is off by at most the day a zone can jump.  Gregorian.v has an
    instance, with the proleptic Gregorian calendar and fixed-offset zones. *)

From Stdlib Require Import ZArith Lia String.
From stdpp Require Import base tactics decidable option list.
From S2P Require Import Prelude.
Open Scope Z_scope.

Record Date := mkDate { year : Z; month : Z; day : Z }.
Record Time := mkTime { hour : Z; minute : Z; second : Z; nanosecond : Z }.
Record DateTime := mkDateTime { date : Date; time : Time }.

#[export] Instance Date_eq_dec : EqDecision Date.
Proof. solve_decision. Defined.
#[export] Instance Time_eq_dec : EqDecision Time.
Proof. solve_decision. Defined.
#[export] Instance DateTime_eq_dec : EqDecision DateTime.
Proof. solve_decision. Defined.

Definition date_tuple (d : Date) : Z * (Z * Z) := (year d, (month d, day d)).
Definition time_tuple (t : Time) : Z * (Z * (Z * Z)) := (hour t, (minute t, (second t, nanosecond t))).
#[export] Instance Date_cmp : Cmp Date := cmp_on date_tuple.
#[export] Instance Date_cmp_laws : CmpLaws Date.
Proof. apply cmp_on_laws. intros [???] [???] [= -> -> ->]. done. Qed.
#[export] Instance Time_cmp : Cmp Time := cmp_on time_tuple.
#[export] Instance Time_cmp_laws : CmpLaws Time.
Proof. apply cmp_on_laws. intros [????] [????] [= -> -> -> ->]. done. Qed.
#[export] Instance DateTime_cmp : Cmp DateTime := cmp_on (λ dt, (date dt, time dt)).
#[export] Instance DateTime_cmp_laws : CmpLaws DateTime.
Proof. apply cmp_on_laws. intros [??] [??] [= -> ->]. done. Qed.

Lemma Date_lt a b : a ≺ b ↔ year a < year b ∨ (year a = year b ∧ (month a < month b ∨ (month a = month b ∧ day a < day b))).
Proof.
  change (a ≺ b) with (date_tuple a ≺ date_tuple b). unfold date_tuple. rewrite !prod_tlt. cbn [fst snd]. rewrite !Z_tlt_lt. done.
Qed.

Definition midnight : Time := mkTime 0 0 0 0.

(** The units of a one-unit span. *)
Inductive SpanUnit := SpanDays | SpanWeeks | SpanMonths.

(** A [Timestamp] is its number of nanoseconds since the epoch. *)
Class Jiff := {
  TimeZone : Type;
  (** [Weekday::to_monday_zero_offset] of [Date::weekday]. *)
  weekday : Date → Z;
  days_in_month : Date → Z;
  (** [Date::new], [Time::new]. *)
  date_new : Z → Z → Z → option Date;
  time_new : Z → Z → Z → Z → option Time;
  first_of_month : Date → Date;
  tomorrow : Date → option Date;
  yesterday : Date → option Date;
  date_max : Date;
  (** [Span::try_days], [try_weeks], [try_months] of [n] succeed. *)
  span_fits : SpanUnit → Z → bool;
  (** [Date::checked_add] of such a span. *)
  checked_add : Date → SpanUnit → Z → option Date;
  (** [to_ambiguous_zoned(dt).compatible()], as a timestamp. *)
  to_timestamp : TimeZone → DateTime → option Z;
  (** [at.to_zoned(tz).datetime()]. *)
  to_civil : TimeZone → Z → DateTime;
  (** [TimeZone::get], and [TimeZone::UTC]. *)
  tz_get : string → option TimeZone;
  utc : TimeZone;
  (** Equality of zones, [to_offset], and the transitions (instant, new
      offset) that [following] gives after one instant up to another. *)
  tz_eqb : TimeZone → TimeZone → bool;
  to_offset : TimeZone → Z → Z;
  following : TimeZone → Z → Z → list (Z * Z);
  (** [at.to_zoned(tz).checked_add(n days)], as a timestamp. *)
  zoned_add_days : TimeZone → Z → Z → option Z;
  as_millisecond : Z → Z;
  from_millisecond : Z → option Z;
  as_second : Z → Z;
  from_second : Z → option Z;
  timestamp_min : Z;
  timestamp_max : Z;
  (** [parse] and [to_string] of a timestamp, a civil date-time and a date. *)
  parse_timestamp : string → option Z;
  show_timestamp : Z → string;
  parse_civil : string → option DateTime;
  show_civil : DateTime → string;
  parse_date : string → option Date;
  show_date : Date → string;
}.

(** The dates the library makes. *)
Definition valid `{Jiff} (d : Date) : Prop :=
  -9999 ≤ year d ≤ 9999 ∧ 1 ≤ month d ≤ 12 ∧ 1 ≤ day d ≤ days_in_month d.

Class JiffLaws `{Jiff} := {
  day_number : Date → Z;
  day_number_lt a b : valid a → valid b → a ≺ b ↔ day_number a < day_number b;
  day_number_between a b n : valid a → valid b → day_number a ≤ n ≤ day_number b → ∃ d, valid d ∧ day_number d = n;
  weekday_number d : valid d → weekday d = day_number d mod 7;
  days_in_month_ext a b : year a = year b → month a = month b → days_in_month a = days_in_month b;
  days_in_month_pos d : 1 ≤ month d ≤ 12 → 1 ≤ days_in_month d ≤ 31;
  date_new_spec y m n d : date_new y m n = Some d ↔ d = mkDate y m n ∧ valid d;
  time_new_spec h m s n t : time_new h m s n = Some t ↔
    t = mkTime h m s n ∧ 0 ≤ h < 24 ∧ 0 ≤ m < 60 ∧ 0 ≤ s < 60 ∧ 0 ≤ n < 1000000000;
  first_of_month_eq d : first_of_month d = mkDate (year d) (month d) 1;
  tomorrow_spec d d' : valid d → tomorrow d = Some d' ↔ valid d' ∧ day_number d' = day_number d + 1;
  yesterday_spec d d' : valid d → yesterday d = Some d' ↔ valid d' ∧ day_number d' = day_number d - 1;
  date_max_valid : valid date_max;
  date_max_greatest d : valid d → d ≼ date_max;
  add_days_spec d n d' : valid d → span_fits SpanDays n = true →
    checked_add d SpanDays n = Some d' ↔ valid d' ∧ day_number d' = day_number d + n;
  add_weeks_spec d n d' : valid d → span_fits SpanWeeks n = true →
    checked_add d SpanWeeks n = Some d' ↔ valid d' ∧ day_number d' = day_number d + 7 * n;
  add_months_spec d n d' : valid d → day d = 1 → span_fits SpanMonths n = true →
    checked_add d SpanMonths n = Some d' ↔
      valid d' ∧ day d' = 1 ∧ 12 * year d' + month d' = 12 * year d + month d + n;
  span_fits_less u n k : span_fits u n = true → 0 ≤ k ≤ n → span_fits u k = true;
  span_fits_reach u d d' n : valid d → (u = SpanMonths → 0 ≤ year d) → valid d' → 0 ≤ n →
    match u with
    | SpanDays => day_number d' = day_number d + n
    | SpanWeeks => day_number d' = day_number d + 7 * n
    | SpanMonths => 12 * year d' + month d' = 12 * year d + month d + n
    end → span_fits u n = true;
  utc_in_order d d' t x y : valid d → valid d' →
    to_timestamp utc (mkDateTime d t) = Some x → to_timestamp utc (mkDateTime d' t) = Some y → x < y ↔ d ≺ d';
  span_fits_week n : -7 ≤ n ≤ 7 → span_fits SpanDays n = true;
  span_fits_month n : -1 ≤ n ≤ 1 → span_fits SpanMonths n = true;
  from_second_spec s t : from_second s = Some t → as_second t = s;
  tz_eqb_refl tz : tz_eqb tz tz = true;
  to_civil_valid tz t : valid (date (to_civil tz t));
  placed_within_a_day tz dt t u :
    to_timestamp tz dt = Some t → t < u → valid (date dt) →
    day_number (date dt) ≤ day_number (date (to_civil tz u)) + 1;
}.

Section dates.
Context `{JiffLaws}.
Implicit Types a b d : Date.

Lemma day_number_le a b : valid a → valid b → a ≼ b ↔ day_number a ≤ day_number b.
Proof. intros Ha Hb. rewrite tle_not_tlt, day_number_lt by done. lia. Qed.
Lemma day_number_inj a b : valid a → valid b → day_number a = day_number b → a = b.
Proof. intros Ha Hb E. apply tle_antisymm; apply day_number_le; try done; lia. Qed.

Lemma valid_in_month d n : valid d → 1 ≤ n ≤ days_in_month d → valid (mkDate (year d) (month d) n).
Proof.
  intros (Hy & Hm & _) Hn. split; [done|]. split; [done|]. by rewrite (days_in_month_ext _ d).
Qed.
Lemma valid_first y m : -9999 ≤ y ≤ 9999 → 1 ≤ m ≤ 12 → valid (mkDate y m 1).
Proof. intros Hy Hm. split; [done|]. split; [done|]. pose proof (days_in_month_pos (mkDate y m 1) Hm). cbn [day]. lia. Qed.
Lemma first_of_month_valid d : valid d → valid (first_of_month d).
Proof. intros (Hy & Hm & _). rewrite first_of_month_eq. by apply valid_first. Qed.
End dates.
