(* ===== verification/SunriseTime.v ===== *)
(** * Times with a kind (sunrise-domain: time.rs, time/resolve.rs, shift.rs, week.rs)

    A task's time is an instant, a wall-clock time in a named zone, a floating
    wall-clock time, a whole day, or a kind of a later build kept verbatim.
    The readings of such a value, its two orders, its storage columns and its
    shifts.  The serde codec is not modelled. *)

From Stdlib Require Import ZArith Lia String Ascii.
From stdpp Require Import base tactics decidable option list gmap strings.
From S2P Require Import Prelude Bytes Cbor Calendar.
Open Scope Z_scope.

Inductive SunriseTime :=
  | Instant (at_ : Z)
  | Zoned (civil : DateTime) (tz : string)
  | Floating (civil : DateTime)
  | AllDay (d : Date)
  | Unknown (kind : string) (raw : gmap string Value).

#[export] Instance SunriseTime_eq_dec : EqDecision SunriseTime.
Proof. solve_decision. Defined.

Definition INSTANT : string := "instant".
Definition ZONED : string := "zoned".
Definition FLOATING : string := "floating".
Definition ALL_DAY : string := "all_day".
Definition KNOWN : list string := [INSTANT; ZONED; FLOATING; ALL_DAY].

Definition kind_str (t : SunriseTime) : string :=
  match t with
  | Instant _ => INSTANT
  | Zoned _ _ => ZONED
  | Floating _ => FLOATING
  | AllDay _ => ALL_DAY
  | Unknown kind _ => kind
  end.
Definition is_unknown (t : SunriseTime) : bool := match t with Unknown _ _ => true | _ => false end.
Definition is_all_day (t : SunriseTime) : bool := match t with AllDay _ => true | _ => false end.

Definition UNANCHORED_MS : Z := 253370764800000.
Definition PREFILTER_SLACK_MS : Z := 48 * 60 * 60 * 1000.

Inductive Unresolvable := UnknownKind (kind : string) | OutOfRange (value : string).

(** ** The sidecar of an unknown kind *)

Definition RAW_SIDECAR_PREFIX : string := "cbor:".

(** The digit a nibble is written as, and read from. *)
Definition hex_digit (n : Z) : ascii := ascii_of_nat (Z.to_nat (if decide (n < 10) then n + 48 else n + 87)).
Definition hex (b : bytes) : string := string_of_list_ascii (b ≫= λ x, [hex_digit (x / 16); hex_digit (x mod 16)]).
Definition nibble (c : ascii) : option Z :=
  let n := Z.of_nat (nat_of_ascii c) in
  if decide (48 ≤ n ≤ 57) then Some (n - 48) else if decide (97 ≤ n ≤ 102) then Some (n - 97 + 10) else None.

(** [str::strip_prefix]. *)
Fixpoint strip_prefix (p s : string) : option string :=
  match p, s with
  | EmptyString, _ => Some s
  | String c p', String d s' => if ascii_dec c d then strip_prefix p' s' else None
  | String _ _, EmptyString => None
  end.

Fixpoint hex_pairs (cs : list ascii) : option bytes :=
  match cs with
  | c1 :: c2 :: cs' =>
      hi ← nibble c1; lo ← nibble c2; rest ← hex_pairs cs';
      Some (Z.lor (Z.shiftl hi 4) lo :: rest)
  | _ => Some []
  end.

Section time.
(** The calendar library, and the canonical encoder and lenient decoder of
    the unknown fields (modelled in [Cbor]; [encode_raw] is the encoder with
    the failure read as no bytes). *)
Context `{Jiff} (encode_raw : gmap string Value → bytes) (decode_lenient : bytes → option (gmap string Value)).

Definition encode_raw_sidecar (raw : gmap string Value) : string :=
  String.append RAW_SIDECAR_PREFIX (hex (encode_raw raw)).

Definition decode_raw_sidecar (s : string) : option (gmap string Value) :=
  rest ← strip_prefix RAW_SIDECAR_PREFIX s;
  let hex := list_ascii_of_string rest in
  if Nat.even (length hex) then
    bytes ← hex_pairs hex;
    match bytes with
    | [] => Some ∅
    | _ => decode_lenient bytes
    end
  else None.

Definition unknown_anchor (t : SunriseTime) : option Z :=
  match t with
  | Unknown _ raw =>
      match raw !! "at"%string with
      | Some (Text s) => parse_timestamp s
      | _ => None
      end
  | _ => None
  end.

(** [Display]. *)
Definition to_text (t : SunriseTime) : string :=
  match t with
  | Instant at_ => show_timestamp at_
  | Zoned civil tz => String.append (show_civil civil) (String.append "[" (String.append tz "]"))
  | Floating civil => show_civil civil
  | AllDay d => show_date d
  | Unknown kind _ =>
      match unknown_anchor t with
      | Some at_ => String.append (show_timestamp at_) (String.append "[unknown kind " (String.append kind "]"))
      | None => String.append "[unknown kind " (String.append kind "]")
      end
  end.

(** ** Readings *)

Definition to_instant (t : SunriseTime) (tz : TimeZone) : result Unresolvable Z :=
  let civil_in zone dt := ok_or (to_timestamp zone dt) (OutOfRange (to_text t)) in
  match t with
  | Unknown kind _ => ok_or (unknown_anchor t) (UnknownKind kind)
  | Instant at_ => Ok at_
  | Zoned civil name => civil_in (default tz (tz_get name)) civil
  | Floating civil => civil_in tz civil
  | AllDay d => civil_in tz (mkDateTime d midnight)
  end.

Definition resolve_in (t : SunriseTime) (tz : TimeZone) : option Z :=
  match to_instant t tz with Ok at_ => Some at_ | Err _ => None end.

Definition due_in (t : SunriseTime) (tz : TimeZone) : option Z :=
  match t with
  | AllDay d => next ← tomorrow d; to_timestamp tz (mkDateTime next midnight)
  | _ => resolve_in t tz
  end.

Definition day_in (t : SunriseTime) (tz : TimeZone) : option Date :=
  match t with
  | AllDay d => Some d
  | _ => (λ at_, date (to_civil tz at_)) <$> resolve_in t tz
  end.

Definition zone_unknown (t : SunriseTime) : bool :=
  match t with Zoned _ tz => match tz_get tz with None => true | Some _ => false end | _ => false end.

Definition last_instant : Z := default timestamp_max (from_millisecond UNANCHORED_MS).
Definition instant_or_last (t : SunriseTime) (tz : TimeZone) : Z :=
  match to_instant t tz with Ok at_ => at_ | Err _ => last_instant end.

(** ** The storage key *)

Definition edge_index_ms (t : SunriseTime) : Z :=
  let at_edge y := if decide (0 < y) then as_millisecond timestamp_max else as_millisecond timestamp_min in
  match t with
  | Zoned civil _ | Floating civil => at_edge (year (date civil))
  | AllDay d => at_edge (year d)
  | Instant at_ => as_millisecond at_
  | Unknown _ _ => UNANCHORED_MS
  end.

Definition index_ms (t : SunriseTime) : Z :=
  match t with
  | Instant at_ => as_millisecond at_
  | Unknown _ _ => match unknown_anchor t with Some at_ => as_millisecond at_ | None => UNANCHORED_MS end
  | _ => match to_instant t utc with Ok at_ => as_millisecond at_ | Err _ => edge_index_ms t end
  end.

Definition index_key (t : SunriseTime) : option Z :=
  match t with
  | Unknown _ _ => as_millisecond <$> unknown_anchor t
  | _ => Some (index_ms t)
  end.

(** ** The two orders *)

(** [Ordering::then_with]. *)
Definition then_with (c d : comparison) : comparison := match c with Eq => d | _ => c end.

(** [Ord]: storage's order. *)
Definition storage_cmp (a b : SunriseTime) : comparison :=
  then_with (cmp (index_ms a) (index_ms b))
    (then_with (cmp (text_bytes (kind_str a)) (text_bytes (kind_str b)))
       (match a, b with
        | Zoned _ x, Zoned _ y => cmp (text_bytes x) (text_bytes y)
        | Unknown _ x, Unknown _ y =>
            if decide (x = y) then Eq
            else cmp (text_bytes (encode_raw_sidecar x)) (text_bytes (encode_raw_sidecar y))
        | _, _ => Eq
        end)).

Definition cmp_in (a b : SunriseTime) (tz : TimeZone) : comparison :=
  then_with
    (match resolve_in a tz, resolve_in b tz with
     | Some x, Some y => cmp x y
     | Some _, None => Lt
     | None, Some _ => Gt
     | None, None => Eq
     end)
    (then_with (cmp (is_all_day b) (is_all_day a)) (storage_cmp a b)).

(** ** Storage columns *)

Definition to_parts (t : SunriseTime) : Z * string * option string :=
  let tz := match t with
    | Zoned _ tz => Some tz
    | Unknown _ raw => Some (encode_raw_sidecar raw)
    | _ => None
    end in
  (index_ms t, kind_str t, tz).

Definition civil_part (t : SunriseTime) : option string :=
  match t with
  | Zoned civil _ | Floating civil => Some (show_civil civil)
  | AllDay d => Some (show_date d)
  | Instant _ | Unknown _ _ => None
  end.

Definition from_parts (index_ms : Z) (kind : string) (tz civil : option string) : SunriseTime :=
  let at_ := default 0 (from_millisecond index_ms) in
  let utc_civil := to_civil utc at_ in
  let stored_civil := civil ≫= parse_civil in
  if decide (kind = ZONED) then
    let name := default "UTC"%string tz in
    Zoned (default (to_civil (default utc (tz_get name)) at_) stored_civil) name
  else if decide (kind = FLOATING) then Floating (default utc_civil stored_civil)
  else if decide (kind = ALL_DAY) then
    AllDay (match civil ≫= parse_date with
            | Some d => d
            | None => match stored_civil with Some dt => date dt | None => date utc_civil end
            end)
  else if decide (kind = INSTANT) then Instant at_
  else match tz ≫= decode_raw_sidecar with
       | Some raw => Unknown kind raw
       | None => Instant at_
       end.

(** ** Shifts *)

Definition add_civil_days (dt : DateTime) (n : Z) : option DateTime :=
  (λ d, mkDateTime d (time dt)) <$> checked_add (date dt) SpanDays n.

Definition shift_civil_days (t : SunriseTime) (days : Z) (reader : TimeZone) : result Unresolvable SunriseTime :=
  let out_of_range := OutOfRange (to_text t) in
  if span_fits SpanDays days then
    match t with
    | Floating civil => ok_or (Floating <$> add_civil_days civil days) out_of_range
    | Zoned civil tz => ok_or ((λ c, Zoned c tz) <$> add_civil_days civil days) out_of_range
    | AllDay d => ok_or (AllDay <$> checked_add d SpanDays days) out_of_range
    | Instant at_ => ok_or (Instant <$> zoned_add_days reader at_ days) out_of_range
    | Unknown kind _ => Err (UnknownKind kind)
    end
  else Err out_of_range.
End time.

(** ** The sidecar reads back *)

Lemma nibble_hex_digit n : 0 ≤ n < 16 → nibble (hex_digit n) = Some n.
Proof.
  intros Hn. assert (∃ k, (k < 16)%nat ∧ n = Z.of_nat k) as (k & Hk & ->) by (exists (Z.to_nat n); lia).
  do 16 (destruct k as [|k]; [by vm_compute|]). lia.
Qed.

Lemma hex_pairs_hex b : are_bytes b → hex_pairs (b ≫= λ x, [hex_digit (x / 16); hex_digit (x mod 16)]) = Some b.
Proof.
  induction 1 as [|x b Hx _ IH]; [done|]. unfold is_byte in Hx. cbn [mbind list_bind app].
  cbn [hex_pairs]. rewrite !nibble_hex_digit by (split; [apply Z.div_pos || apply Z.mod_pos_bound; lia|
    apply Z.div_lt_upper_bound || apply Z.mod_pos_bound; lia]).
  cbn [mbind option_bind]. change (list_bind _ _ _) with (b ≫= λ x, [hex_digit (x / 16); hex_digit (x mod 16)]).
  rewrite IH. cbn [mbind option_bind]. do 2 f_equal. rewrite Z.shiftl_mul_pow2 by lia.
  pose proof (Z.mod_pos_bound x 16) as Hm. pose proof (Z.div_mod x 16) as Hd.
  rewrite lor_is_add by (change (2 ^ 4) with 16; lia). change (2 ^ 4) with 16. lia.
Qed.

Lemma even_hex b : Nat.even (length (b ≫= λ x, [hex_digit (x / 16); hex_digit (x mod 16)])) = true.
Proof. induction b as [|x b IH]; [done|]. exact IH. Qed.

Lemma strip_prefix_append p s : strip_prefix p (String.append p s) = Some s.
Proof.
  induction p as [|c p IH]; [by destruct s|]. change (String.append (String c p) s) with (String c (String.append p s)).
  cbn [strip_prefix]. by destruct (ascii_dec c c).
Qed.

Section facts.
Context `{Jiff} (encode_raw : gmap string Value → bytes) (decode_lenient : bytes → option (gmap string Value)).

(** The unknown fields decode from what they encode to. *)
Definition raw_codec_ok (raw : gmap string Value) : Prop :=
  are_bytes (encode_raw raw) ∧ match encode_raw raw with [] => raw = ∅ | b => decode_lenient b = Some raw end.

Lemma sidecar_roundtrip raw :
  raw_codec_ok raw → decode_raw_sidecar decode_lenient (encode_raw_sidecar encode_raw raw) = Some raw.
Proof.
  intros [Hb Hr]. unfold decode_raw_sidecar, encode_raw_sidecar. rewrite strip_prefix_append. cbn [mbind option_bind].
  unfold hex. rewrite list_ascii_of_string_of_list_ascii, even_hex, hex_pairs_hex by done. cbn [mbind option_bind].
  destruct (encode_raw raw); [by rewrite Hr|done].
Qed.

(** A value storage can hold: an instant is a whole number of milliseconds,
    a civil value's text reads back, and an unknown kind is not one of the
    known ones and its fields survive the codec. *)
Definition storable (t : SunriseTime) : Prop :=
  match t with
  | Instant at_ => from_millisecond (as_millisecond at_) = Some at_
  | Zoned c _ | Floating c => parse_civil (show_civil c) = Some c
  | AllDay d => parse_date (show_date d) = Some d
  | Unknown kind raw => (kind ∉ KNOWN) ∧ raw_codec_ok raw
  end.

(** A time survives storage.  Writing a value to its index, kind, zone and
    civil columns and reading the row back gives the value, whatever the zone
    database says and whether or not it knows the zone. *)
Theorem parts_roundtrip t :
  storable t →
  let '(ms, kind, tz) := to_parts encode_raw t in
  from_parts decode_lenient ms kind tz (civil_part t) = t.
Proof.
  intros Hok. unfold to_parts, from_parts. destruct t as [at_|civil tz|civil|d|kind raw]; cbn [storable] in Hok;
    cbn [kind_str civil_part mbind option_bind].
  - cbn [index_ms]. rewrite !decide_False by done. rewrite decide_True by done. by rewrite Hok.
  - rewrite decide_True, Hok by done. done.
  - rewrite decide_False, decide_True, Hok by done. done.
  - rewrite !decide_False, decide_True, Hok by done. done.
  - destruct Hok as [Hk Hraw]. unfold KNOWN in Hk. rewrite !not_elem_of_cons in Hk. destruct Hk as (? & ? & ? & ? & _).
    rewrite !decide_False by done. by rewrite sidecar_roundtrip.
Qed.
End facts.

(** ** The orders *)

Section orders.
Context `{Jiff} (encode_raw : gmap string Value → bytes).

Definition tiebreak (t : SunriseTime) : bytes :=
  match t with
  | Zoned _ tz => text_bytes tz
  | Unknown _ raw => text_bytes (encode_raw_sidecar encode_raw raw)
  | _ => []
  end.
Definition order_key (t : SunriseTime) : Z * (bytes * bytes) := (index_ms t, (text_bytes (kind_str t), tiebreak t)).

(** A value of a later build's kind is not one of this build's. *)
Definition kind_ok (t : SunriseTime) : Prop := match t with Unknown kind _ => kind ∉ KNOWN | _ => True end.

Lemma cmp_refl {A} `{CmpLaws A} (x : A) : cmp x x = Eq.
Proof. by apply cmp_eq_iff. Qed.

Lemma cmp_pair {A B} `{Cmp A, Cmp B} (a a' : A) (b b' : B) : cmp (a, b) (a', b') = then_with (cmp a a') (cmp b b').
Proof. unfold cmp at 1, prod_cmp. simpl. by destruct (cmp a a'). Qed.

(** Storage's order is the order of that key. *)
Lemma storage_cmp_key a b :
  kind_ok a → kind_ok b → storage_cmp encode_raw a b = cmp (order_key a) (order_key b).
Proof.
  intros Ha Hb. unfold storage_cmp, order_key. rewrite !cmp_pair. f_equal.
  destruct (cmp (text_bytes (kind_str a)) _) eqn:Ek; cbn [then_with]; try done.
  apply cmp_eq_iff, text_bytes_inj in Ek. unfold kind_ok, KNOWN in Ha, Hb.
  destruct a, b; cbn [kind_str tiebreak] in *; try done; try (subst; set_solver).
  case_decide as E; [subst; by rewrite cmp_refl|done].
Qed.

(** Both orders put different values level: two instants of one
    millisecond in storage's, and two wall-clock times of one zone that a
    clock change sends to the same instant in either. *)
Lemma storage_order_ties a b :
  as_millisecond a = as_millisecond b → storage_cmp encode_raw (Instant a) (Instant b) = Eq.
Proof. intros E. unfold storage_cmp. cbn [index_ms kind_str]. by rewrite E, !cmp_refl. Qed.

Lemma reader_order_ties c1 c2 name zone tz t :
  tz_get name = Some zone → to_timestamp zone c1 = Some t → to_timestamp zone c2 = Some t →
  cmp_in encode_raw (Zoned c1 name) (Zoned c2 name) tz = Eq.
Proof.
  intros Hz H1 H2. unfold cmp_in, storage_cmp, resolve_in. cbn [index_ms kind_str to_instant is_all_day].
  rewrite Hz. cbn [default from_option id]. rewrite H1, H2. cbn [ok_or]. by rewrite !cmp_refl.
Qed.

(** The reader's order is the order of this key. *)
Definition reader_key (tz : TimeZone) (t : SunriseTime) : (bool * Z) * (bool * (Z * (bytes * bytes))) :=
  (match resolve_in t tz with Some x => (false, x) | None => (true, 0) end, (negb (is_all_day t), order_key t)).

Lemma cmp_in_key tz a b :
  kind_ok a → kind_ok b → cmp_in encode_raw a b tz = cmp (reader_key tz a) (reader_key tz b).
Proof.
  intros Ha Hb. unfold cmp_in, reader_key. rewrite storage_cmp_key by done.
  rewrite !cmp_pair. f_equal; [|by destruct (is_all_day a), (is_all_day b)].
  destruct (resolve_in a tz) as [x|], (resolve_in b tz) as [y|]; by rewrite ?cmp_pair.
Qed.
End orders.

(** ** Shifting by days *)

Section shifts.
Context `{JiffLaws}.

Lemma checked_add_days_add d a b d1 :
  valid d → span_fits SpanDays a = true → span_fits SpanDays b = true → span_fits SpanDays (a + b) = true →
  checked_add d SpanDays a = Some d1 → checked_add d1 SpanDays b = checked_add d SpanDays (a + b).
Proof.
  intros Hd Ha Hb Hab H1. apply add_days_spec in H1 as [Hd1 Hn]; [|done..].
  apply option_eq. intros d2. rewrite !add_days_spec by done. rewrite Hn. split; intros [? ?]; (split; [done|lia]).
Qed.

Definition civil_date (t : SunriseTime) : option Date :=
  match t with Zoned c _ | Floating c => Some (date c) | AllDay d => Some d | _ => None end.

(** A civil value keeps its kind, zone and time of day, and two shifts are
    one by the sum. *)
Lemma shift_civil_days_add t a b reader t1 d :
  civil_date t = Some d → valid d →
  span_fits SpanDays a = true → span_fits SpanDays b = true → span_fits SpanDays (a + b) = true →
  shift_civil_days t a reader = Ok t1 →
  kind_str t1 = kind_str t ∧
  match shift_civil_days t1 b reader, shift_civil_days t (a + b) reader with
  | Ok x, Ok y => x = y
  | Err _, Err _ => True
  | _, _ => False
  end.
Proof.
  intros Hc Hd Ha Hb Hab. unfold shift_civil_days, add_civil_days. rewrite Ha, Hb, Hab.
  destruct t as [?|c tz|c|d0|? ?]; cbn [civil_date] in Hc; try done; injection Hc as ->.
  - destruct (checked_add d SpanDays a) as [d1|] eqn:E; [|done]. intros [= <-]. split; [done|]. cbn [date time].
    rewrite (checked_add_days_add d a b d1) by done. by destruct (checked_add d SpanDays (a + b)).
  - destruct (checked_add d SpanDays a) as [d1|] eqn:E; [|done]. intros [= <-]. split; [done|]. cbn [date time].
    rewrite (checked_add_days_add d a b d1) by done. by destruct (checked_add d SpanDays (a + b)).
  - destruct (checked_add d SpanDays a) as [d1|] eqn:E; [|done]. intros [= <-]. split; [done|].
    rewrite (checked_add_days_add d a b d1) by done. by destruct (checked_add d SpanDays (a + b)).
Qed.
End shifts.
