(* ===== verification/Rrule.v ===== *)
(** * Recurrence rules (sunrise-domain: rrule.rs, unknown.rs)

    The RFC 5545 rule a routine follows, its parser and its printer.  Every
    value of a part the build does not know is kept verbatim. *)

From Stdlib Require Import ZArith Lia String Ascii.
From stdpp Require Import base tactics decidable option list gmap strings.
From S2P Require Import Prelude Cbor Calendar SunriseTime.
Open Scope Z_scope.

(** ** Text *)

(** [str::split] at a character: always at least one piece. *)
Fixpoint split_on (c : ascii) (s : string) : list string :=
  match s with
  | EmptyString => [EmptyString]
  | String d s' =>
      if ascii_dec d c then EmptyString :: split_on c s'
      else match split_on c s' with
           | [] => [String d EmptyString]
           | p :: ps => String d p :: ps
           end
  end.

(** [str::split_once]. *)
Fixpoint split_once (c : ascii) (s : string) : option (string * string) :=
  match s with
  | EmptyString => None
  | String d s' => if ascii_dec d c then Some (EmptyString, s') else (λ kv, (String d kv.1, kv.2)) <$> split_once c s'
  end.

Fixpoint has_char (c : ascii) (s : string) : bool :=
  match s with
  | EmptyString => false
  | String d s' => if ascii_dec d c then true else has_char c s'
  end.

(** [[T]::join_with]. *)
Fixpoint join_with (sep : string) (l : list string) : string :=
  match l with
  | [] => EmptyString
  | [s] => s
  | s :: l' => String.append s (String.append sep (join_with sep l'))
  end.

(** [str::strip_suffix] of one character. *)
Fixpoint strip_last (c : ascii) (s : string) : option string :=
  match s with
  | EmptyString => None
  | String d EmptyString => if ascii_dec d c then Some EmptyString else None
  | String d s' => String d <$> strip_last c s'
  end.

(** Decimal integers: [to_string], and [parse] of a [u32] and an [i32]. *)
Definition dec_digit (n : Z) : ascii := ascii_of_nat (Z.to_nat (n + 48)).
Definition digit_value (c : ascii) : option Z :=
  let n := Z.of_nat (nat_of_ascii c) in if decide (48 ≤ n ≤ 57) then Some (n - 48) else None.

Fixpoint show_digits (fuel : nat) (n : Z) (acc : string) : string :=
  match fuel with
  | O => acc
  | S fuel' =>
      let acc := String (dec_digit (n mod 10)) acc in
      if decide (n < 10) then acc else show_digits fuel' (n / 10) acc
  end.
Definition show_int (n : Z) : string :=
  let digits m := show_digits (S (Z.to_nat (Z.log2 m))) m EmptyString in
  if decide (n < 0) then String "-" (digits (- n)) else digits n.

Fixpoint parse_digits (acc : Z) (s : string) : option Z :=
  match s with
  | EmptyString => Some acc
  | String c s' => d ← digit_value c; parse_digits (acc * 10 + d) s'
  end.
Definition parse_magnitude (s : string) : option Z :=
  match s with EmptyString => None | _ => parse_digits 0 s end.

Definition i32_max : Z := 2147483647.
Definition i32_min : Z := -2147483648.
Definition strip_sign (c : ascii) (s : string) : option string :=
  match s with String d s' => if ascii_dec d c then Some s' else None | EmptyString => None end.
Definition parse_u32 (s : string) : option Z :=
  n ← parse_magnitude (default s (strip_sign "+" s));
  if decide (n ≤ u32_max) then Some n else None.
Definition parse_i32 (s : string) : option Z :=
  n ← (match strip_sign "-" s with
       | Some s' => Z.opp <$> parse_magnitude s'
       | None => parse_magnitude (default s (strip_sign "+" s))
       end);
  if decide (i32_min ≤ n ≤ i32_max) then Some n else None.

(** [{:0w}] of an integer: zeros after the sign, to width [w]. *)
Fixpoint zeros (n : nat) : string := match n with O => EmptyString | S n' => String "0" (zeros n') end.
Definition pad (w : nat) (n : Z) : string :=
  if decide (n < 0) then String "-" (String.append (zeros (w - 1 - String.length (show_int (- n)))) (show_int (- n)))
  else String.append (zeros (w - String.length (show_int n))) (show_int n).

(** ** The rule *)

Inductive Frequency := Daily | Weekly | Monthly | Yearly | FreqUnknown (raw : string).
Inductive Weekday := Su | Mo | Tu | We | Th | Fr | Sa | DayUnknown (raw : string).
#[export] Instance Frequency_eq_dec : EqDecision Frequency.
Proof. solve_decision. Defined.
#[export] Instance Weekday_eq_dec : EqDecision Weekday.
Proof. solve_decision. Defined.

(** [lossy_enum!]'s [as_str] and [from_raw]. *)
Definition freq_str (f : Frequency) : string :=
  match f with
  | Daily => "DAILY" | Weekly => "WEEKLY" | Monthly => "MONTHLY" | Yearly => "YEARLY" | FreqUnknown raw => raw
  end.
Definition freq_from_raw (s : string) : Frequency :=
  if decide (s = "DAILY"%string) then Daily
  else if decide (s = "WEEKLY"%string) then Weekly
  else if decide (s = "MONTHLY"%string) then Monthly
  else if decide (s = "YEARLY"%string) then Yearly
  else FreqUnknown s.
Definition freq_is_unknown (f : Frequency) : bool := match f with FreqUnknown _ => true | _ => false end.
Definition freq_parse (s : string) : option Frequency :=
  let f := freq_from_raw s in if freq_is_unknown f then None else Some f.

Definition day_str (w : Weekday) : string :=
  match w with
  | Su => "SU" | Mo => "MO" | Tu => "TU" | We => "WE" | Th => "TH" | Fr => "FR" | Sa => "SA" | DayUnknown raw => raw
  end.
Definition day_from_raw (s : string) : Weekday :=
  if decide (s = "SU"%string) then Su
  else if decide (s = "MO"%string) then Mo
  else if decide (s = "TU"%string) then Tu
  else if decide (s = "WE"%string) then We
  else if decide (s = "TH"%string) then Th
  else if decide (s = "FR"%string) then Fr
  else if decide (s = "SA"%string) then Sa
  else DayUnknown s.
Definition day_is_unknown (w : Weekday) : bool := match w with DayUnknown _ => true | _ => false end.
Definition day_parse (s : string) : option Weekday :=
  let w := day_from_raw s in if day_is_unknown w then None else Some w.

(** [to_jiff]: the weekday's offset from Monday. *)
Definition to_jiff (w : Weekday) : option Z :=
  match w with
  | Su => Some 6 | Mo => Some 0 | Tu => Some 1 | We => Some 2 | Th => Some 3 | Fr => Some 4 | Sa => Some 5
  | DayUnknown _ => None
  end.

(** The first day of the week that holds [d] (time/week.rs). *)
Definition first_day_of_week `{Jiff} (d : Date) (week_start : Weekday) : Date :=
  let first := default 6 (to_jiff week_start) in
  let back := (weekday d - first) mod 7 in
  default d (checked_add d SpanDays (- back)).

Record RRule := mkRRule {
  freq : Frequency;
  interval : Z;
  by_day : list Weekday;
  by_month_day : list Z;
  by_month : list Z;
  by_set_pos : list Z;
  count : option Z;
  until : option SunriseTime;
  wkst : option Weekday;
  rule_unknown : gmap string Value;
}.

Inductive RRuleParseError := MissingFreq | UnknownPart (part : string) | BadValue (part value : string).

Definition blank : RRule := mkRRule Daily 1 [] [] [] [] None None None ∅.

(** One field replaced. *)
Definition set_freq (r : RRule) f := mkRRule f (interval r) (by_day r) (by_month_day r) (by_month r) (by_set_pos r) (count r) (until r) (wkst r) (rule_unknown r).
Definition set_interval (r : RRule) i := mkRRule (freq r) i (by_day r) (by_month_day r) (by_month r) (by_set_pos r) (count r) (until r) (wkst r) (rule_unknown r).
Definition set_by_day (r : RRule) l := mkRRule (freq r) (interval r) l (by_month_day r) (by_month r) (by_set_pos r) (count r) (until r) (wkst r) (rule_unknown r).
Definition set_by_month_day (r : RRule) l := mkRRule (freq r) (interval r) (by_day r) l (by_month r) (by_set_pos r) (count r) (until r) (wkst r) (rule_unknown r).
Definition set_by_month (r : RRule) l := mkRRule (freq r) (interval r) (by_day r) (by_month_day r) l (by_set_pos r) (count r) (until r) (wkst r) (rule_unknown r).
Definition set_by_set_pos (r : RRule) l := mkRRule (freq r) (interval r) (by_day r) (by_month_day r) (by_month r) l (count r) (until r) (wkst r) (rule_unknown r).
Definition set_count (r : RRule) c := mkRRule (freq r) (interval r) (by_day r) (by_month_day r) (by_month r) (by_set_pos r) c (until r) (wkst r) (rule_unknown r).
Definition set_until (r : RRule) u := mkRRule (freq r) (interval r) (by_day r) (by_month_day r) (by_month r) (by_set_pos r) (count r) u (wkst r) (rule_unknown r).
Definition set_wkst (r : RRule) w := mkRRule (freq r) (interval r) (by_day r) (by_month_day r) (by_month r) (by_set_pos r) (count r) (until r) w (rule_unknown r).

Definition first_unknown (r : RRule) : option (string * string) :=
  match freq r with
  | FreqUnknown raw => Some ("FREQ"%string, raw)
  | _ =>
      match List.find day_is_unknown (by_day r) with
      | Some (DayUnknown raw) => Some ("BYDAY"%string, raw)
      | _ => match wkst r with
             | Some (DayUnknown raw) => Some ("WKST"%string, raw)
             | _ => None
             end
      end
  end.
Definition is_understood (r : RRule) : bool := bool_decide (first_unknown r = None).

(** The tokens of a comma list, read one by one. *)
Fixpoint parse_list (name : string) (parse_int : string → option Z) (l : list Z) (tokens : list string) :
    result RRuleParseError (list Z) :=
  match tokens with
  | [] => Ok l
  | tok :: tokens' => try n <- ok_or (parse_int tok) (BadValue name tok); parse_list name parse_int (l ++ [n]) tokens'
  end.

Section rrule.
Context `{Jiff}.

Definition parse_until (v : string) : option SunriseTime :=
  match parse_timestamp v with
  | Some at_ => Some (Instant at_)
  | None =>
      match split_once "[" v with
      | Some (civil, rest) => tz ← strip_last "]" rest; c ← parse_civil civil; Some (Zoned c tz)
      | None => if has_char "T" v then Floating <$> parse_civil v else AllDay <$> parse_date v
      end
  end.

Definition until_text (u : SunriseTime) : option string :=
  match u with
  | Unknown _ _ => None
  | _ => Some (to_text u)
  end.

Definition parse_part (st : option Frequency * RRule) (part : string) :
    result RRuleParseError (option Frequency * RRule) :=
  let '(f, out) := st in
  try kv <- ok_or (split_once "=" part) (UnknownPart part);
  let '(k, v) := kv in
  if decide (k = "FREQ"%string) then Ok (Some (freq_from_raw v), out)
  else if decide (k = "INTERVAL"%string) then
    try n <- ok_or (parse_u32 v) (BadValue "INTERVAL" v);
    if decide (n = 0) then Err (BadValue "INTERVAL" v) else Ok (f, set_interval out n)
  else if decide (k = "BYDAY"%string) then
    Ok (f, set_by_day out (by_day out ++ (day_from_raw <$> split_on "," v)))
  else if decide (k = "BYMONTHDAY"%string) then
    try l <- parse_list "BYMONTHDAY" parse_i32 (by_month_day out) (split_on "," v); Ok (f, set_by_month_day out l)
  else if decide (k = "BYMONTH"%string) then
    try l <- parse_list "BYMONTH" parse_u32 (by_month out) (split_on "," v); Ok (f, set_by_month out l)
  else if decide (k = "BYSETPOS"%string) then
    try l <- parse_list "BYSETPOS" parse_i32 (by_set_pos out) (split_on "," v); Ok (f, set_by_set_pos out l)
  else if decide (k = "COUNT"%string) then
    try n <- ok_or (parse_u32 v) (BadValue "COUNT" v); Ok (f, set_count out (Some n))
  else if decide (k = "UNTIL"%string) then
    try u <- ok_or (parse_until v) (BadValue "UNTIL" v); Ok (f, set_until out (Some u))
  else if decide (k = "WKST"%string) then Ok (f, set_wkst out (Some (day_from_raw v)))
  else if decide (k = "BYYEARDAY"%string ∨ k = "BYWEEKNO"%string) then
    Err (UnknownPart (String.append k " not in the supported subset"))
  else Err (UnknownPart k).

Fixpoint parse_parts (st : option Frequency * RRule) (parts : list string) :
    result RRuleParseError (option Frequency * RRule) :=
  match parts with
  | [] => Ok st
  | part :: parts' => try st' <- parse_part st part; parse_parts st' parts'
  end.

Definition rrule_parse (body : string) : result RRuleParseError RRule :=
  try st <- parse_parts (None, blank) (filter (λ p, p ≠ EmptyString) (split_on ";" body));
  try f <- ok_or st.1 MissingFreq;
  Ok (set_freq st.2 f).

(** [KEY=VALUE], and the parts of a rule in the order they are printed. *)
Definition kv (k v : string) : string := String.append k (String "=" v).
Definition rule_parts (r : RRule) : list string :=
  [kv "FREQ" (freq_str (freq r))] ++
  (if decide (interval r = 1) then [] else [kv "INTERVAL" (show_int (interval r))]) ++
  (if decide (by_day r = []) then [] else [kv "BYDAY" (join_with "," (day_str <$> by_day r))]) ++
  (if decide (by_month_day r = []) then [] else [kv "BYMONTHDAY" (join_with "," (show_int <$> by_month_day r))]) ++
  (if decide (by_month r = []) then [] else [kv "BYMONTH" (join_with "," (show_int <$> by_month r))]) ++
  (if decide (by_set_pos r = []) then [] else [kv "BYSETPOS" (join_with "," (show_int <$> by_set_pos r))]) ++
  (match count r with Some c => [kv "COUNT" (show_int c)] | None => [] end) ++
  (match until r ≫= until_text with Some u => [kv "UNTIL" u] | None => [] end) ++
  (match wkst r with Some w => [kv "WKST" (day_str w)] | None => [] end).
Definition to_rfc5545 (r : RRule) : string := join_with ";" (rule_parts r).
End rrule.

(** ** Text lemmas *)

Lemma has_char_append c s t : has_char c (String.append s t) = has_char c s || has_char c t.
Proof.
  induction s as [|d s IH]; [done|]. change (String.append (String d s) t) with (String d (String.append s t)).
  cbn [has_char]. by destruct (ascii_dec d c).
Qed.

Lemma split_on_none c s : has_char c s = false → split_on c s = [s].
Proof.
  induction s as [|d s IH]; [done|]. cbn [has_char split_on]. destruct (ascii_dec d c); [done|]. intros Hs. by rewrite IH.
Qed.

Lemma split_on_append c s t :
  has_char c s = false → split_on c (String.append s (String c t)) = s :: split_on c t.
Proof.
  induction s as [|d s IH]; intros Hs; [change (String.append EmptyString ?x) with x; cbn [split_on]; by destruct (ascii_dec c c)|].
  cbn [has_char] in Hs. change (String.append (String d s) ?x) with (String d (String.append s x)). cbn [split_on].
  destruct (ascii_dec d c); [done|]. by rewrite IH.
Qed.

Lemma split_join c l :
  l ≠ [] → Forall (λ s, has_char c s = false) l → split_on c (join_with (String c EmptyString) l) = l.
Proof.
  intros Hne Hall. induction Hall as [|s l Hs Hall IH]; [done|]. destruct l as [|s' l].
  { by apply split_on_none. }
  cbn [join_with]. change (String.append (String c EmptyString) ?x) with (String c x). rewrite split_on_append by done.
  f_equal. by apply IH.
Qed.

Lemma split_on_pieces c s p : p ∈ split_on c s → has_char c p = false ∧ ∀ d, has_char d s = false → has_char d p = false.
Proof.
  revert p. induction s as [|d s IH]; intros p; cbn [split_on].
  { intros ->%list_elem_of_singleton. done. }
  destruct (ascii_dec d c) as [->|Hne].
  - intros [->|Hp]%elem_of_cons; [done|]. destruct (IH p Hp) as [? Hd]. split; [done|]. intros e He. cbn [has_char] in He.
    apply Hd. by destruct (ascii_dec c e).
  - destruct (split_on c s) as [|q qs].
    + intros ->%list_elem_of_singleton. cbn [has_char]. destruct (ascii_dec d c); [done|]. split; [done|]. intros e.
      by destruct (ascii_dec d e).
    + intros [->|Hp]%elem_of_cons.
      * destruct (IH q) as [Hq Hd]; [left|]. cbn [has_char]. destruct (ascii_dec d c); [done|]. split; [done|]. intros e.
        destruct (ascii_dec d e); [done|apply Hd].
      * destruct (IH p) as [Hq Hd]; [by right|]. split; [done|]. intros e He. cbn [has_char] in He. apply Hd.
        by destruct (ascii_dec d e).
Qed.

Lemma split_once_kv k v : has_char "=" k = false → split_once "=" (kv k v) = Some (k, v).
Proof.
  unfold kv. induction k as [|d k IH]; [done|]. intros Hk. cbn [has_char] in Hk.
  change (String.append (String d k) ?x) with (String d (String.append k x)). cbn [split_once].
  destruct (ascii_dec d "="); [done|]. by rewrite IH.
Qed.

Lemma split_once_value c s k v d : split_once c s = Some (k, v) → has_char d s = false → has_char d v = false ∧ has_char d k = false.
Proof.
  revert k v. induction s as [|e s IH]; intros k v; [done|]. cbn [split_once has_char].
  destruct (ascii_dec e d), (ascii_dec e c); try done; [intros [= <- <-]; done|].
  destruct (split_once c s) as [[k' v']|]; [|done]. intros [= <- <-] Hs. destruct (IH k' v' eq_refl Hs). split; [done|].
  cbn [has_char]. by destruct (ascii_dec e d).
Qed.

Lemma split_once_none c s t : has_char c s = false → split_once c (String.append s (String c t)) = Some (s, t).
Proof.
  induction s as [|d s IH]; intros Hs; [change (String.append EmptyString ?x) with x; cbn [split_once]; by destruct (ascii_dec c c)|].
  cbn [has_char] in Hs. change (String.append (String d s) ?x) with (String d (String.append s x)). cbn [split_once].
  destruct (ascii_dec d c); [done|]. by rewrite IH.
Qed.
Lemma split_once_absent c s : has_char c s = false → split_once c s = None.
Proof. induction s as [|d s IH]; [done|]. cbn [has_char split_once]. destruct (ascii_dec d c); [done|]. intros Hs. by rewrite IH. Qed.

Lemma strip_last_snoc c s : strip_last c (String.append s (String c EmptyString)) = Some s.
Proof.
  induction s as [|d s IH].
  - change (String.append EmptyString ?x) with x. cbn [strip_last]. by destruct (ascii_dec c c).
  - change (String.append (String d s) ?x) with (String d (String.append s x)). cbn [strip_last].
    destruct (String.append s (String c EmptyString)) eqn:E; [by destruct s|]. by rewrite IH.
Qed.
Lemma strip_last_char c s t d : strip_last c s = Some t → has_char d s = false → has_char d t = false.
Proof.
  revert t. induction s as [|e s IH]; intros t; [done|]. cbn [has_char]. destruct (ascii_dec e d) as [|Hne]; [done|].
  intros Ht Hs. cbn [strip_last] in Ht. destruct s as [|e' s]; [destruct (ascii_dec e c); [|done]; by injection Ht as <-|].
  destruct (strip_last c (String e' s)) as [t'|]; [|done]. injection Ht as <-. cbn [has_char].
  destruct (ascii_dec e d); [done|]. by apply IH.
Qed.

(** *** Integers *)

Lemma digit_value_dec n : 0 ≤ n < 10 → digit_value (dec_digit n) = Some n.
Proof.
  intros Hn. assert (∃ k, (k < 10)%nat ∧ n = Z.of_nat k) as (k & Hk & ->) by (exists (Z.to_nat n); lia).
  do 10 (destruct k as [|k]; [by vm_compute|]). lia.
Qed.

Lemma parse_show_digits fuel n acc :
  0 ≤ n < 10 ^ Z.of_nat fuel → parse_digits 0 (show_digits fuel n acc) = parse_digits n acc.
Proof.
  revert n acc. induction fuel as [|fuel IH]; intros n acc Hn.
  { change (10 ^ Z.of_nat 0) with 1 in Hn. by replace n with 0 by lia. }
  rewrite Nat2Z.inj_succ, Z.pow_succ_r in Hn by lia. cbn [show_digits].
  pose proof (Z.mod_pos_bound n 10) as Hm. pose proof (Z.div_mod n 10) as Hd. case_decide as Hs.
  - cbn [parse_digits]. rewrite digit_value_dec by lia. cbn [mbind option_bind]. f_equal. rewrite Z.mod_small by lia. lia.
  - rewrite IH by (split; [apply Z.div_pos|apply Z.div_lt_upper_bound]; lia). cbn [parse_digits].
    rewrite digit_value_dec by lia. cbn [mbind option_bind]. f_equal. lia.
Qed.

Lemma show_digits_head fuel n acc : 0 ≤ n →
  ∃ d rest, show_digits (S fuel) n acc = String (dec_digit d) rest ∧ 0 ≤ d < 10.
Proof.
  revert n acc. induction fuel as [|fuel IH]; intros n acc Hn; cbn [show_digits].
  - exists (n mod 10), acc. split; [by case_decide|apply Z.mod_pos_bound; lia].
  - case_decide; [exists (n mod 10), acc; split; [done|apply Z.mod_pos_bound; lia]|]. apply IH, Z.div_pos; lia.
Qed.

Lemma show_digits_char c fuel n acc :
  (∀ d, 0 ≤ d < 10 → dec_digit d ≠ c) → has_char c acc = false → has_char c (show_digits fuel n acc) = false.
Proof.
  intros Hc. revert n acc. induction fuel as [|fuel IH]; intros n acc Ha; [done|]. cbn [show_digits].
  assert (has_char c (String (dec_digit (n mod 10)) acc) = false) as Ha'.
  { cbn [has_char]. destruct (ascii_dec _ c) as [E|]; [|done]. apply Hc in E; [done|]. apply Z.mod_pos_bound. lia. }
  case_decide; [done|by apply IH].
Qed.

Lemma log2_fuel n : 0 ≤ n → n < 10 ^ Z.of_nat (S (Z.to_nat (Z.log2 n))).
Proof.
  intros Hn. destruct (decide (n = 0)) as [->|]; [vm_compute; done|].
  rewrite Nat2Z.inj_succ, Z2Nat.id by apply Z.log2_nonneg. destruct (Z.log2_spec n) as [_ Hlt]; [lia|].
  pose proof (Z.pow_le_mono_l 2 10 (Z.succ (Z.log2 n))). lia.
Qed.

Lemma parse_magnitude_show m : 0 ≤ m →
  parse_magnitude (show_digits (S (Z.to_nat (Z.log2 m))) m EmptyString) = Some m.
Proof.
  intros Hm. destruct (show_digits_head (Z.to_nat (Z.log2 m)) m EmptyString Hm) as (d & rest & E & _).
  unfold parse_magnitude. rewrite E, <-E, parse_show_digits; [done|]. split; [done|by apply log2_fuel].
Qed.

Lemma dec_digit_not_sign d : 0 ≤ d < 10 → dec_digit d ≠ "+"%char ∧ dec_digit d ≠ "-"%char ∧ dec_digit d ≠ ";"%char ∧ dec_digit d ≠ ","%char.
Proof.
  intros Hn. assert (∃ k, (k < 10)%nat ∧ d = Z.of_nat k) as (k & Hk & ->) by (exists (Z.to_nat d); lia).
  do 10 (destruct k as [|k]; [by vm_compute|]). lia.
Qed.

Lemma strip_sign_digit c d rest : dec_digit d ≠ c → strip_sign c (String (dec_digit d) rest) = None.
Proof. intros Hne. cbn [strip_sign]. by destruct (ascii_dec _ c). Qed.

Lemma parse_u32_show n : in_u32 n → parse_u32 (show_int n) = Some n.
Proof.
  intros Hn. unfold in_u32 in Hn. unfold parse_u32, show_int. rewrite decide_False by lia.
  destruct (show_digits_head (Z.to_nat (Z.log2 n)) n EmptyString) as (d & rest & E & Hd); [lia|].
  apply dec_digit_not_sign in Hd as (Hp & _). pose proof (parse_magnitude_show n) as Hm. rewrite E in *.
  rewrite strip_sign_digit by done. cbn [default from_option]. unfold id. rewrite Hm by lia. cbn [mbind option_bind].
  by rewrite decide_True by lia.
Qed.

Lemma parse_i32_show n : i32_min ≤ n ≤ i32_max → parse_i32 (show_int n) = Some n.
Proof.
  intros Hn. unfold parse_i32, show_int. destruct (decide (n < 0)) as [Hneg|Hpos].
  - cbn [strip_sign]. destruct (ascii_dec "-" "-") as [_|]; [|done]. rewrite parse_magnitude_show by lia.
    cbn [fmap option_fmap option_map mbind option_bind]. replace (- - n) with n by lia. by rewrite decide_True.
  - destruct (show_digits_head (Z.to_nat (Z.log2 n)) n EmptyString) as (d & rest & E & Hd); [lia|].
    apply dec_digit_not_sign in Hd as (Hp & Hm' & _). pose proof (parse_magnitude_show n) as Hm. rewrite E in *.
    rewrite !strip_sign_digit by done. cbn [default from_option]. unfold id. rewrite Hm by lia. cbn [mbind option_bind].
    by rewrite decide_True.
Qed.

Lemma show_int_char c n : c = ";"%char ∨ c = ","%char → has_char c (show_int n) = false.
Proof.
  intros Hc. assert (∀ d, 0 ≤ d < 10 → dec_digit d ≠ c) as Hd.
  { intros d Hd. apply dec_digit_not_sign in Hd. destruct Hc as [->| ->]; tauto. }
  unfold show_int. case_decide; [|by apply show_digits_char].
  cbn [has_char]. destruct (ascii_dec "-" c) as [<-|_]; [by destruct Hc|]. by apply show_digits_char.
Qed.

Lemma parse_u32_bounds s n : parse_u32 s = Some n → n ≤ u32_max.
Proof. unfold parse_u32. destruct (parse_magnitude _); cbn [mbind option_bind]; [|done]. case_decide; [|done]. by intros [= <-]. Qed.
Lemma parse_i32_bounds s n : parse_i32 s = Some n → i32_min ≤ n ≤ i32_max.
Proof.
  unfold parse_i32. destruct (match strip_sign "-" s with Some _ => _ | None => _ end); cbn [mbind option_bind]; [|done].
  case_decide; [|done]. by intros [= <-].
Qed.
Lemma digit_value_nonneg c d : digit_value c = Some d → 0 ≤ d.
Proof. unfold digit_value. case_decide; [|done]. intros [= <-]. lia. Qed.
Lemma parse_digits_nonneg s acc n : 0 ≤ acc → parse_digits acc s = Some n → 0 ≤ n.
Proof.
  revert acc. induction s as [|c s IH]; intros acc Ha; cbn [parse_digits]; [by intros [= <-]|].
  destruct (digit_value c) as [d|] eqn:E; [|done]. apply digit_value_nonneg in E. cbn [mbind option_bind]. apply IH. lia.
Qed.
Lemma parse_u32_in s n : parse_u32 s = Some n → in_u32 n.
Proof.
  intros Hn. split; [|by eapply parse_u32_bounds]. unfold parse_u32 in Hn.
  destruct (parse_magnitude _) as [m|] eqn:E; cbn [mbind option_bind] in Hn; [|done]. case_decide; [|done]. injection Hn as <-.
  unfold parse_magnitude in E. destruct (default s _); [done|].
  eapply parse_digits_nonneg; [|exact E]. lia.
Qed.

(** ** Printing and parsing back *)

(** What the library's texts of instants and civil values promise: they read
    back, a civil value's text has no offset to make it an instant, only a
    date-time's has a [T], and no text holds the rule's own separators. *)
Class JiffTexts `{Jiff} : Prop := {
  timestamp_text v t : parse_timestamp v = Some t →
    parse_timestamp (show_timestamp t) = Some t ∧ has_char ";" (show_timestamp t) = false;
  civil_text v c : parse_civil v = Some c → parse_civil (show_civil c) = Some c;
  date_text v d : parse_date v = Some d → parse_date (show_date d) = Some d;
  civil_is_no_instant c : parse_timestamp (show_civil c) = None;
  zoned_is_no_instant c s : parse_timestamp (String.append (show_civil c) (String "[" s)) = None;
  date_is_no_instant d : parse_timestamp (show_date d) = None;
  civil_chars c : has_char "T" (show_civil c) = true ∧ has_char "[" (show_civil c) = false ∧ has_char ";" (show_civil c) = false;
  date_chars d : has_char "T" (show_date d) = false ∧ has_char "[" (show_date d) = false ∧ has_char ";" (show_date d) = false;
}.

Lemma freq_from_raw_str s : freq_str (freq_from_raw s) = s.
Proof. unfold freq_from_raw. repeat case_decide; by subst. Qed.
Lemma day_from_raw_str s : day_str (day_from_raw s) = s.
Proof. unfold day_from_raw. repeat case_decide; by subst. Qed.

Section roundtrip.
Context `{JiffTexts}.

Lemma until_roundtrip v u :
  parse_until v = Some u → has_char ";" v = false →
  ∃ text, until_text u = Some text ∧ parse_until text = Some u ∧ has_char ";" text = false.
Proof.
  unfold parse_until at 1. intros Hu Hv. destruct (parse_timestamp v) as [t|] eqn:Et.
  { injection Hu as <-. apply timestamp_text in Et as [Et Hc]. exists (show_timestamp t). split; [done|].
    unfold parse_until. by rewrite Et. }
  destruct (split_once "[" v) as [[civil rest]|] eqn:Es.
  { destruct (strip_last "]" rest) as [tz|] eqn:Etz; cbn [mbind option_bind] in Hu; [|done].
    destruct (parse_civil civil) as [c|] eqn:Ec; cbn [mbind option_bind] in Hu; [|done]. injection Hu as <-.
    apply civil_text in Ec. destruct (civil_chars c) as (_ & Hb & Hs).
    apply (split_once_value _ _ _ _ ";") in Es as [Hr _]; [|done]. apply (strip_last_char _ _ _ ";") in Etz; [|done].
    exists (to_text (Zoned c tz)). split; [done|]. cbn [to_text].
    change (String.append "[" ?x) with (String "[" x). split.
    - unfold parse_until. rewrite zoned_is_no_instant, split_once_none by done. rewrite strip_last_snoc. cbn [mbind option_bind]. by rewrite Ec.
    - rewrite has_char_append, Hs. cbn [has_char orb]. destruct (ascii_dec "[" ";"); [done|]. by rewrite has_char_append, Etz. }
  destruct (has_char "T" v).
  - destruct (parse_civil v) as [c|] eqn:Ec; [|done]. injection Hu as <-. apply civil_text in Ec.
    destruct (civil_chars c) as (Ht & Hb & Hs). exists (show_civil c). split; [done|]. split; [|done].
    unfold parse_until. by rewrite civil_is_no_instant, split_once_absent, Ht, Ec.
  - destruct (parse_date v) as [d|] eqn:Ed; [|done]. injection Hu as <-. apply date_text in Ed.
    destruct (date_chars d) as (Ht & Hb & Hs). exists (show_date d). split; [done|]. split; [|done].
    unfold parse_until. by rewrite date_is_no_instant, split_once_absent, Ht, Ed.
Qed.

(** What every parsed rule is, its frequency apart. *)
Record rule_ok (r : RRule) : Prop := {
  ok_interval : in_u32 (interval r);
  ok_by_day : Forall (λ w, has_char ";" (day_str w) = false ∧ has_char "," (day_str w) = false ∧ day_from_raw (day_str w) = w) (by_day r);
  ok_by_month_day : Forall (λ n, i32_min ≤ n ≤ i32_max) (by_month_day r);
  ok_by_month : Forall in_u32 (by_month r);
  ok_by_set_pos : Forall (λ n, i32_min ≤ n ≤ i32_max) (by_set_pos r);
  ok_count : from_option in_u32 True (count r);
  ok_until : from_option (λ u, ∃ v, parse_until v = Some u ∧ has_char ";" v = false) True (until r);
  ok_wkst : from_option (λ w, has_char ";" (day_str w) = false ∧ day_from_raw (day_str w) = w) True (wkst r);
  ok_unknown : rule_unknown r = ∅;
  ok_nonzero : interval r ≠ 0;
}.
Definition freq_ok (f : Frequency) : Prop := has_char ";" (freq_str f) = false ∧ freq_from_raw (freq_str f) = f.

Lemma parse_list_spec name p (P : Z → Prop) tokens l l' :
  (∀ s n, p s = Some n → P n) → parse_list name p l tokens = Ok l' → Forall P l → Forall P l'.
Proof.
  intros HP. revert l. induction tokens as [|tok tokens IH]; intros l; cbn [parse_list]; [by intros [= <-]|].
  destruct (p tok) as [n|] eqn:E; cbn [ok_or result_bind]; [|done]. intros Hl Hall. apply (IH _ Hl).
  apply Forall_app. split; [done|]. by apply Forall_singleton, (HP tok).
Qed.

Lemma parse_part_ok f out part f' out' :
  has_char ";" part = false → parse_part (f, out) part = Ok (f', out') →
  rule_ok out → from_option freq_ok True f → rule_ok out' ∧ from_option freq_ok True f'.
Proof.
  intros Hpart. unfold parse_part. destruct (split_once "=" part) as [[k v]|] eqn:Es; cbn [ok_or result_bind]; [|done].
  apply (split_once_value _ _ _ _ ";") in Es as [Hv _]; [|done]. intros Hp [Hi Hd Hmd Hm Hsp Hc Hu Hw Hun Hnz] Hf.
  assert (freq_ok (freq_from_raw v)) as Hfv by (unfold freq_ok; by rewrite freq_from_raw_str).
  repeat case_decide.
  - injection Hp as <- <-. split; [by split|done].
  - destruct (parse_u32 v) as [n|] eqn:E; cbn [ok_or result_bind] in Hp; [|done]. case_decide; [done|].
    injection Hp as <- <-. apply parse_u32_in in E. split; [by split|done].
  - injection Hp as <- <-. split; [|done]. split; try done. cbn [by_day set_by_day]. apply Forall_app. split; [done|].
    apply Forall_fmap, Forall_forall. intros p Hin. cbn. rewrite day_from_raw_str. apply split_on_pieces in Hin as [? Hin].
    split; [by apply Hin|done].
  - destruct (parse_list _ _ _ _) as [l|] eqn:E; cbn [result_bind] in Hp; [|done]. injection Hp as <- <-. split; [|done].
    split; try done. cbn. by eapply (parse_list_spec _ _ _ _ _ _ parse_i32_bounds).
  - destruct (parse_list _ _ _ _) as [l|] eqn:E; cbn [result_bind] in Hp; [|done]. injection Hp as <- <-. split; [|done].
    split; try done. cbn. by eapply (parse_list_spec _ _ _ _ _ _ parse_u32_in).
  - destruct (parse_list _ _ _ _) as [l|] eqn:E; cbn [result_bind] in Hp; [|done]. injection Hp as <- <-. split; [|done].
    split; try done. cbn. by eapply (parse_list_spec _ _ _ _ _ _ parse_i32_bounds).
  - destruct (parse_u32 v) as [n|] eqn:E; cbn [ok_or result_bind] in Hp; [|done]. injection Hp as <- <-.
    apply parse_u32_in in E. split; [by split|done].
  - destruct (parse_until v) as [u|] eqn:E; cbn [ok_or result_bind] in Hp; [|done]. injection Hp as <- <-. split; [|done].
    split; try done. cbn. by exists v.
  - injection Hp as <- <-. split; [|done]. split; try done. cbn. by rewrite day_from_raw_str.
  - done.
  - done.
Qed.

Lemma parse_parts_ok parts f out f' out' :
  Forall (λ p, has_char ";" p = false) parts → parse_parts (f, out) parts = Ok (f', out') →
  rule_ok out → from_option freq_ok True f → rule_ok out' ∧ from_option freq_ok True f'.
Proof.
  intros Hall. revert f out. induction Hall as [|part parts Hpart _ IH]; intros f out; cbn [parse_parts].
  { by intros [= <- <-]. }
  destruct (parse_part (f, out) part) as [[f1 out1]|] eqn:E; cbn [result_bind]; [|done]. intros Hp Ho Hf.
  destruct (parse_part_ok _ _ _ _ _ Hpart E Ho Hf). by apply (IH f1 out1).
Qed.

(** A parsed rule is the state's rule with its frequency. *)
Lemma parsed_ok body r : rrule_parse body = Ok r → ∃ out, rule_ok out ∧ freq_ok (freq r) ∧ r = set_freq out (freq r).
Proof.
  unfold rrule_parse. set (parts := filter _ _).
  destruct (parse_parts (None, blank) parts) as [[f out]|] eqn:E; cbn [result_bind]; [|done]. cbn [fst snd].
  destruct f as [f|]; cbn [ok_or result_bind]; [|done]. intros [= <-].
  assert (rule_ok blank) as Hblank by (split; try done; cbn; unfold in_u32, u32_max; lia).
  destruct (parse_parts_ok parts None blank (Some f) out) as [Ho Hf]; [|done|done|done|by exists out].
  apply Forall_forall. intros p Hp. apply list_elem_of_filter in Hp as [_ Hp]. by apply split_on_pieces in Hp as [? _].
Qed.

Lemma parse_parts_app st l1 l2 :
  parse_parts st (l1 ++ l2) = result_bind (parse_parts st l1) (λ st', parse_parts st' l2).
Proof.
  revert st. induction l1 as [|p l1 IH]; intros st; [done|]. cbn [app parse_parts].
  destruct (parse_part st p); [apply IH|done].
Qed.

Lemma parse_list_show name (p : string → option Z) (P : Z → Prop) l xs :
  (∀ n, P n → p (show_int n) = Some n) → Forall P xs → parse_list name p l (show_int <$> xs) = Ok (l ++ xs).
Proof.
  intros Hp Hall. revert l. induction Hall as [|x xs Hx _ IH]; intros l; cbn [fmap list_fmap parse_list].
  - by rewrite app_nil_r.
  - rewrite Hp by done. cbn [ok_or result_bind]. rewrite IH, <-(assoc_L app). done.
Qed.

Lemma split_ints xs : xs ≠ [] → split_on "," (join_with "," (show_int <$> xs)) = show_int <$> xs.
Proof.
  intros Hne. apply split_join; [by destruct xs|]. apply Forall_fmap, Forall_true. intros n. apply show_int_char. by right.
Qed.

(** Each part of a printed rule is read back into its field. *)
Ltac read_part :=
  cbn [parse_parts]; unfold parse_part; rewrite split_once_kv by done; cbn [ok_or result_bind];
  repeat rewrite (decide_False (P := (_ : string) = _)) by done; rewrite (decide_True (P := (_ : string) = _)) by done.

Lemma read_interval f out n :
  in_u32 n → n ≠ 0 → interval out = 1 →
  parse_parts (f, out) (if decide (n = 1) then [] else [kv "INTERVAL" (show_int n)]) = Ok (f, set_interval out n).
Proof.
  intros Hn Hnz Hone. case_decide as E.
  - subst n. cbn [parse_parts]. do 2 f_equal. destruct out. cbn in Hone. by subst.
  - read_part. rewrite parse_u32_show by done. cbn [ok_or result_bind]. by rewrite decide_False.
Qed.

Lemma read_days f out l :
  Forall (λ w, has_char ";" (day_str w) = false ∧ has_char "," (day_str w) = false ∧ day_from_raw (day_str w) = w) l →
  by_day out = [] →
  parse_parts (f, out) (if decide (l = []) then [] else [kv "BYDAY" (join_with "," (day_str <$> l))]) = Ok (f, set_by_day out l).
Proof.
  intros Hl Hout. case_decide as E.
  - subst l. cbn [parse_parts]. do 2 f_equal. destruct out. cbn in Hout. by subst.
  - read_part. rewrite split_join; [|by destruct l|].
    + rewrite Hout, <-list_fmap_compose. cbn [app result_bind].
      replace (day_from_raw ∘ day_str <$> l) with l; [done|]. rewrite <-(list_fmap_id l) at 1. apply Forall_fmap_ext_1.
      eapply Forall_impl; [exact Hl|]. by intros w (_ & _ & ?).
    + apply Forall_fmap. eapply Forall_impl; [exact Hl|]. by intros w (_ & ? & _).
Qed.

Lemma read_month_days f out l :
  Forall (λ n, i32_min ≤ n ≤ i32_max) l → by_month_day out = [] →
  parse_parts (f, out) (if decide (l = []) then [] else [kv "BYMONTHDAY" (join_with "," (show_int <$> l))]) =
    Ok (f, set_by_month_day out l).
Proof.
  intros Hl Hout. case_decide as E.
  - subst l. cbn [parse_parts]. do 2 f_equal. destruct out. cbn in Hout. by subst.
  - read_part. rewrite split_ints by done. rewrite (parse_list_show _ _ _ _ _ parse_i32_show Hl), Hout. done.
Qed.

Lemma read_months f out l :
  Forall in_u32 l → by_month out = [] →
  parse_parts (f, out) (if decide (l = []) then [] else [kv "BYMONTH" (join_with "," (show_int <$> l))]) =
    Ok (f, set_by_month out l).
Proof.
  intros Hl Hout. case_decide as E.
  - subst l. cbn [parse_parts]. do 2 f_equal. destruct out. cbn in Hout. by subst.
  - read_part. rewrite split_ints by done. rewrite (parse_list_show _ _ _ _ _ parse_u32_show Hl), Hout. done.
Qed.

Lemma read_set_pos f out l :
  Forall (λ n, i32_min ≤ n ≤ i32_max) l → by_set_pos out = [] →
  parse_parts (f, out) (if decide (l = []) then [] else [kv "BYSETPOS" (join_with "," (show_int <$> l))]) =
    Ok (f, set_by_set_pos out l).
Proof.
  intros Hl Hout. case_decide as E.
  - subst l. cbn [parse_parts]. do 2 f_equal. destruct out. cbn in Hout. by subst.
  - read_part. rewrite split_ints by done. rewrite (parse_list_show _ _ _ _ _ parse_i32_show Hl), Hout. done.
Qed.

Lemma read_count f out c :
  from_option in_u32 True c → count out = None →
  parse_parts (f, out) (match c with Some n => [kv "COUNT" (show_int n)] | None => [] end) = Ok (f, set_count out c).
Proof.
  intros Hc Hout. destruct c as [n|].
  - read_part. cbn in Hc. rewrite parse_u32_show by done. done.
  - cbn [parse_parts]. do 2 f_equal. destruct out. cbn in Hout. by subst.
Qed.

Lemma read_until f out u :
  from_option (λ u, ∃ v, parse_until v = Some u ∧ has_char ";" v = false) True u → until out = None →
  parse_parts (f, out) (match u ≫= until_text with Some t => [kv "UNTIL" t] | None => [] end) = Ok (f, set_until out u).
Proof.
  intros Hu Hout. destruct u as [u|]; cbn in Hu |- *.
  - destruct Hu as (v & Hv & Hc). destruct (until_roundtrip v u Hv Hc) as (t & -> & Ht & _). read_part. by rewrite Ht.
  - do 2 f_equal. destruct out. cbn in Hout. by subst.
Qed.

Lemma read_wkst f out w :
  from_option (λ w, has_char ";" (day_str w) = false ∧ day_from_raw (day_str w) = w) True w → wkst out = None →
  parse_parts (f, out) (match w with Some w => [kv "WKST" (day_str w)] | None => [] end) = Ok (f, set_wkst out w).
Proof.
  intros Hw Hout. destruct w as [w|]; cbn in Hw.
  - read_part. destruct Hw as [_ Hw]. by rewrite Hw.
  - cbn [parse_parts]. do 2 f_equal. destruct out. cbn in Hout. by subst.
Qed.

Lemma kv_char k v : has_char ";" k = false → has_char ";" v = false → has_char ";" (kv k v) = false.
Proof. intros Hk Hv. unfold kv. rewrite has_char_append, Hk. cbn [orb has_char]. by destruct (ascii_dec "=" ";"). Qed.
Lemma join_char l : Forall (λ s, has_char ";" s = false) l → has_char ";" (join_with "," l) = false.
Proof.
  induction 1 as [|s l Hs _ IH]; [done|]. destruct l as [|s' l]; [done|]. cbn [join_with]. rewrite has_char_append, Hs.
  change (String.append "," ?x) with (String "," x). cbn [orb has_char]. by destruct (ascii_dec "," ";").
Qed.
Lemma int_list_char l : has_char ";" (join_with "," (show_int <$> l)) = false.
Proof. apply join_char, Forall_fmap, Forall_true. intros n. apply show_int_char. by left. Qed.

(** The parts of an acceptable rule hold no separator and are not empty. *)
Lemma rule_parts_sound r :
  rule_ok r → has_char ";" (freq_str (freq r)) = false →
  Forall (λ p, has_char ";" p = false ∧ p ≠ EmptyString) (rule_parts r).
Proof.
  intros [_ Hd _ _ _ _ Hu Hw _ _] Hf.
  assert (∀ k v, has_char ";" k = false → has_char ";" v = false → k ≠ EmptyString →
    Forall (λ p, has_char ";" p = false ∧ p ≠ EmptyString) [kv k v]) as Hone.
  { intros k v Hk Hv Hne. apply Forall_singleton. split; [by apply kv_char|]. by destruct k. }
  assert (∀ (b : bool) l, Forall (λ p, has_char ";" p = false ∧ p ≠ EmptyString) l →
    Forall (λ p, has_char ";" p = false ∧ p ≠ EmptyString) (if b then [] else l)) as Hif by (intros [] l; [constructor|done]).
  unfold rule_parts. repeat apply Forall_app_2; try (case_decide; [constructor|]); try (apply Hone; try done).
  - apply show_int_char. by left.
  - apply join_char, Forall_fmap. eapply Forall_impl; [exact Hd|]. by intros w (? & _).
  - apply int_list_char.
  - apply int_list_char.
  - apply int_list_char.
  - destruct (count r); [|constructor]. apply Hone; try done. apply show_int_char. by left.
  - destruct (until r) as [u|]; [|constructor]. destruct Hu as (v & Hv & Hc).
    destruct (until_roundtrip v u Hv Hc) as (t & Ht & _ & Hs). cbn [mbind option_bind]. rewrite Ht. by apply Hone.
  - destruct (wkst r); [|constructor]. destruct Hw. by apply Hone.
Qed.

Lemma print_parse r : rule_ok r → freq_ok (freq r) → rrule_parse (to_rfc5545 r) = Ok r.
Proof.
  intros Hr [Hc Hf]. pose proof (rule_parts_sound r Hr Hc) as Hparts. unfold rrule_parse, to_rfc5545.
  rewrite split_join; [|by unfold rule_parts|by eapply Forall_impl; [exact Hparts|intros ? [??]]].
  rewrite filter_all by (intros p Hp; rewrite Forall_forall in Hparts; by apply Hparts).
  destruct Hr as [Hi Hd Hmd Hm Hsp Hco Hu Hw Hun Hnz]. unfold rule_parts. rewrite parse_parts_app.
  assert (parse_parts (None, blank) [kv "FREQ" (freq_str (freq r))] = Ok (Some (freq r), blank)) as ->
    by (read_part; by rewrite Hf).
  cbn [result_bind]. rewrite parse_parts_app, read_interval by done.
  cbn [result_bind]. rewrite parse_parts_app, read_days by done.
  cbn [result_bind]. rewrite parse_parts_app, read_month_days by done.
  cbn [result_bind]. rewrite parse_parts_app, read_months by done.
  cbn [result_bind]. rewrite parse_parts_app, read_set_pos by done.
  cbn [result_bind]. rewrite parse_parts_app, read_count by done.
  cbn [result_bind]. rewrite parse_parts_app, read_until by done.
  cbn [result_bind]. rewrite read_wkst by done. cbn [result_bind ok_or fst snd].
  f_equal. destruct r. cbn in *. by subst.
Qed.

(** C40: a parsed rule is stored without loss.  Whatever body the parser
    accepts — parts repeated or out of order, values no build knows, signs and
    leading zeros — printing the rule it gives and parsing the text again
    gives the same rule. *)
Theorem rrule_text_roundtrip body r : rrule_parse body = Ok r → rrule_parse (to_rfc5545 r) = Ok r.
Proof.
  intros Hp. destruct (parsed_ok body r Hp) as (out & Ho & Hf & ->). apply print_parse; [|done].
  destruct Ho. by split.
Qed.
End roundtrip.
