(* ===== verification/Constraint.v ===== *)
(** * Scheduling constraints (sunrise-domain: constraint/)

    Windows a task may be scheduled in: sets of weekdays that keep tokens of
    later builds, times of day that may wrap past midnight, date ranges, and
    the violations of a list of them — alternatives within a kind, all kinds
    together. *)

From Stdlib Require Import ZArith Lia String.
From stdpp Require Import base tactics decidable option list gmap strings.
From S2P Require Import Prelude Bytes Cbor Calendar Rrule.
Open Scope Z_scope.

(** ** Sets of weekdays (weekday_set.rs) *)

Definition WEEKDAY_ORDER : list Weekday := [Mo; Tu; We; Th; Fr; Sa; Su].

Definition weekday_bit (w : Weekday) : option Z :=
  match w with
  | Mo => Some 0 | Tu => Some 1 | We => Some 2 | Th => Some 3 | Fr => Some 4 | Sa => Some 5 | Su => Some 6
  | DayUnknown _ => None
  end.

Record WeekdaySet := mkWeekdaySet { ws_mask : Z; ws_unknown : list string; ws_index : gset string }.
#[export] Instance WeekdaySet_eq_dec : EqDecision WeekdaySet.
Proof. solve_decision. Defined.

Definition empty_days : WeekdaySet := mkWeekdaySet 0 [] ∅.

Definition insert_day (s : WeekdaySet) (w : Weekday) : WeekdaySet :=
  match weekday_bit w, w with
  | Some bit, _ => mkWeekdaySet (Z.lor (ws_mask s) (Z.shiftl 1 bit)) (ws_unknown s) (ws_index s)
  | None, DayUnknown raw =>
      if decide (raw ∈ ws_index s) then s
      else mkWeekdaySet (ws_mask s) (ws_unknown s ++ [raw]) ({[raw]} ∪ ws_index s)
  | None, _ => s
  end.
Definition from_days (days : list Weekday) : WeekdaySet := foldl insert_day empty_days days.

Definition contains_day (s : WeekdaySet) (w : Weekday) : bool :=
  match weekday_bit w, w with
  | Some bit, _ => negb (bool_decide (Z.land (ws_mask s) (Z.shiftl 1 bit) = 0))
  | None, DayUnknown raw => bool_decide (raw ∈ ws_index s)
  | None, _ => false
  end.
Definition days_empty (s : WeekdaySet) : bool := bool_decide (ws_mask s = 0) && bool_decide (ws_unknown s = []).
Definition restricts (s : WeekdaySet) : bool := negb (bool_decide (ws_mask s = 0)) && bool_decide (ws_unknown s = []).
Definition admits (s : WeekdaySet) (w : Weekday) : bool := negb (restricts s) || contains_day s w.
Definition iter_days (s : WeekdaySet) : list Weekday :=
  filter (λ w, contains_day s w = true) WEEKDAY_ORDER ++ (DayUnknown <$> ws_unknown s).

(** ** Constraints (mod.rs) *)

Definition MAX_CONSTRAINTS : Z := 16.

Inductive ConstraintSeverity := Hard | Soft | SeverityUnknown (raw : string).
Record TimeOfDayRange := mkTimeOfDayRange { tod_start : Time; tod_end : Time; tod_unknown : gmap string Value }.
Record DateRange := mkDateRange { dr_start : Date; dr_end : option Date; dr_unknown : gmap string Value }.
Record ScheduleConstraint := mkConstraint {
  time_of_day : option TimeOfDayRange;
  days_of_week : WeekdaySet;
  date_range : option DateRange;
  severity : ConstraintSeverity;
  sc_unknown : gmap string Value;
}.
#[export] Instance ConstraintSeverity_eq_dec : EqDecision ConstraintSeverity.
Proof. solve_decision. Defined.
#[export] Instance TimeOfDayRange_eq_dec : EqDecision TimeOfDayRange.
Proof. solve_decision. Defined.
#[export] Instance DateRange_eq_dec : EqDecision DateRange.
Proof. solve_decision. Defined.
#[export] Instance ScheduleConstraint_eq_dec : EqDecision ScheduleConstraint.
Proof. solve_decision. Defined.

Inductive ConstraintError := EmptyConstraint | TimeRangeError | DateRangeError | TooMany.

Definition wraps (r : TimeOfDayRange) : bool := bool_decide (tod_end r ≺ tod_start r).
(** Where [t] lies in the window: [Some true] in the part past midnight. *)
Definition tod_place (r : TimeOfDayRange) (t : Time) : option bool :=
  if wraps r then
    if decide (tod_start r ≼ t) then Some false
    else if decide (t ≺ tod_end r) then Some true else None
  else if decide (tod_start r ≼ t ∧ t ≺ tod_end r) then Some false else None.

Definition is_some {A} (o : option A) : bool := match o with Some _ => true | None => false end.

Definition kind_key (c : ScheduleConstraint) : Z :=
  let k := if is_some (time_of_day c) then Z.lor 0 1 else 0 in
  let k := if days_empty (days_of_week c) then k else Z.lor k 2 in
  if is_some (date_range c) then Z.lor k 4 else k.

Definition validate_constraint (c : ScheduleConstraint) : result ConstraintError unit :=
  if decide (kind_key c = 0 ∧ sc_unknown c = ∅) then Err EmptyConstraint
  else if from_option (λ t, bool_decide (tod_start t = tod_end t)) false (time_of_day c) then Err TimeRangeError
  else if from_option (λ d, from_option (λ e, bool_decide (e ≺ dr_start d)) false (dr_end d)) false (date_range c)
  then Err DateRangeError
  else Ok tt.

Fixpoint validate_each (l : list ScheduleConstraint) : result ConstraintError unit :=
  match l with
  | [] => Ok tt
  | c :: l' => try _ <- validate_constraint c; validate_each l'
  end.
Definition validate_list (l : list ScheduleConstraint) : result ConstraintError unit :=
  if decide (MAX_CONSTRAINTS < Z.of_nat (length l)) then Err TooMany else validate_each l.

Section satisfied.
Context `{Jiff}.

Definition weekday_of_date (d : Date) : Weekday :=
  let n := weekday d + 1 in
  if decide (n = 1) then Mo else if decide (n = 2) then Tu else if decide (n = 3) then We
  else if decide (n = 4) then Th else if decide (n = 5) then Fr else if decide (n = 6) then Sa else Su.

(** The weekday and date tests, on the day the window starts. *)
Definition day_admitted (c : ScheduleConstraint) (day : Date) : bool :=
  admits (days_of_week c) (weekday_of_date day) &&
  match date_range c with
  | Some d =>
      if decide (day ≺ dr_start d) then false
      else match dr_end d with Some e => negb (bool_decide (e ≺ day)) | None => true end
  | None => true
  end.

Definition is_satisfied_at (c : ScheduleConstraint) (zdt : DateTime) : bool :=
  match time_of_day c with
  | Some t =>
      match tod_place t (time zdt) with
      | None => false
      | Some true => day_admitted c (default (date zdt) (yesterday (date zdt)))
      | Some false => day_admitted c (date zdt)
      end
  | None => day_admitted c (date zdt)
  end.

(** One bit for each kind of constraint that some constraint satisfies. *)
Definition satisfied_kinds (l : list ScheduleConstraint) (zdt : DateTime) : Z :=
  foldl (λ k c, if is_satisfied_at c zdt then Z.lor k (Z.shiftl 1 (kind_key c)) else k) 0 l.
Definition list_violations (l : list ScheduleConstraint) (zdt : DateTime) : list nat :=
  fst <$> filter (λ p, Z.land (satisfied_kinds l zdt) (Z.shiftl 1 (kind_key (snd p))) = 0) (imap pair l).

Definition is_hard (c : ScheduleConstraint) : bool := match severity c with Hard => true | _ => false end.
Definition violations_by_severity (l : list ScheduleConstraint) (zdt : DateTime) :
    list ScheduleConstraint * list ScheduleConstraint :=
  foldl (λ acc i,
    match l !! i with
    | Some c => if is_hard c then (acc.1 ++ [c], acc.2) else (acc.1, acc.2 ++ [c])
    | None => acc
    end) ([], []) (list_violations l zdt).
End satisfied.

(** ** A set of weekdays is a set *)

(** The sets [insert_day] builds. *)
Definition days_ok (s : WeekdaySet) : Prop :=
  0 ≤ ws_mask s < 128 ∧ NoDup (ws_unknown s) ∧ ws_index s = list_to_set (ws_unknown s).

Lemma one_bit_zero m k : 0 ≤ k → Z.land m (Z.shiftl 1 k) = 0 ↔ Z.testbit m k = false.
Proof.
  intros Hk. split.
  - intros E. apply (f_equal (λ z, Z.testbit z k)) in E. rewrite Z.land_spec, Z.shiftl_spec, Z.sub_diag, Z.testbit_0_l in E by done.
    by rewrite andb_true_r in E.
  - intros E. apply Z.bits_inj'. intros n Hn. rewrite Z.land_spec, Z.shiftl_spec, Z.testbit_0_l by done.
    destruct (decide (n = k)) as [->|Hne]; [by rewrite E|].
    destruct (Z.testbit 1 (n - k)) eqn:E1; [|by rewrite andb_false_r].
    destruct (decide (n < k)); [by rewrite Z.testbit_neg_r in E1 by lia|].
    rewrite Z.bits_above_log2 in E1 by (simpl; lia). done.
Qed.

Lemma testbit_set_bit m j k : 0 ≤ j → 0 ≤ k → Z.testbit (Z.lor m (Z.shiftl 1 j)) k = Z.testbit m k || bool_decide (k = j).
Proof.
  intros Hj Hk. rewrite Z.lor_spec, Z.shiftl_spec by done. f_equal. case_bool_decide as E; [by subst; rewrite Z.sub_diag|].
  destruct (decide (k < j)); [by rewrite Z.testbit_neg_r by lia|]. rewrite Z.bits_above_log2; [done..|simpl; lia].
Qed.

Lemma weekday_bit_bounds w b : weekday_bit w = Some b → 0 ≤ b < 7.
Proof. destruct w; intros [= <-]; lia. Qed.
Lemma weekday_bit_inj v w b : weekday_bit v = Some b → weekday_bit w = Some b → v = w.
Proof. destruct v, w; intros [= <-]; done. Qed.

Lemma contains_bit s w b : weekday_bit w = Some b → contains_day s w = Z.testbit (ws_mask s) b.
Proof.
  intros E. unfold contains_day. rewrite E. pose proof (weekday_bit_bounds w b E) as Hb. case_bool_decide as Hz.
  - apply one_bit_zero in Hz; [done|lia].
  - rewrite one_bit_zero in Hz by lia. by destruct (Z.testbit _ _).
Qed.

Lemma insert_day_ok s w : days_ok s → days_ok (insert_day s w).
Proof.
  intros (Hm & Hu & Hi). unfold insert_day. destruct (weekday_bit w) as [b|] eqn:E.
  - split; [|done]. cbn [ws_mask]. apply weekday_bit_bounds in E. split; [apply Z.lor_nonneg; split; [lia|apply Z.shiftl_nonneg; lia]|].
    assert (b = 0 ∨ b = 1 ∨ b = 2 ∨ b = 3 ∨ b = 4 ∨ b = 5 ∨ b = 6) as Hb by lia.
    apply Z.log2_lt_cancel. rewrite Z.log2_lor by (lia || (apply Z.shiftl_nonneg; lia)). change (Z.log2 128) with 7.
    apply Z.max_lub_lt.
    + destruct (decide (ws_mask s = 0)) as [->|]; [done|]. apply Z.log2_lt_pow2; lia.
    + destruct Hb as [->|[->|[->|[->|[->|[->| ->]]]]]]; done.
  - destruct w; try done. case_decide as Hin; [done|]. split; [done|]. cbn [ws_unknown ws_index]. rewrite Hi in Hin |- *.
    rewrite elem_of_list_to_set in Hin. split; [|set_solver].
    apply NoDup_app. split; [done|]. split; [intros x Hx ->%list_elem_of_singleton; done|apply NoDup_singleton].
Qed.

Lemma contains_insert s w v : contains_day (insert_day s w) v = contains_day s v || bool_decide (v = w).
Proof.
  destruct (weekday_bit w) as [b|] eqn:Ew.
  - assert (insert_day s w = mkWeekdaySet (Z.lor (ws_mask s) (Z.shiftl 1 b)) (ws_unknown s) (ws_index s)) as ->
      by (unfold insert_day; by rewrite Ew).
    destruct (weekday_bit v) as [c|] eqn:Ev.
    + rewrite !(contains_bit _ v c Ev). cbn [ws_mask]. pose proof (weekday_bit_bounds _ _ Ev). pose proof (weekday_bit_bounds _ _ Ew).
      rewrite testbit_set_bit by lia. f_equal. apply bool_decide_ext. split; [intros ->; by apply (weekday_bit_inj v w b)|].
      intros ->. congruence.
    + destruct v; try done. rewrite (bool_decide_false (DayUnknown raw = w)) by (intros <-; done). by rewrite orb_false_r.
  - destruct w as [| | | | | | |raw]; try done. unfold insert_day, weekday_bit. case_decide as Hin.
    + case_bool_decide as E; [subst|by rewrite orb_false_r]. rewrite orb_true_r. unfold contains_day. cbn. by apply bool_decide_eq_true.
    + destruct v as [| | | | | | |r]; try (unfold contains_day; cbn; by rewrite orb_false_r). unfold contains_day. cbn.
      apply eq_true_iff_eq. rewrite orb_true_iff, !bool_decide_eq_true, elem_of_union, elem_of_singleton. naive_solver.
Qed.

Lemma from_days_spec days : days_ok (from_days days) ∧ ∀ w, contains_day (from_days days) w = true ↔ w ∈ days.
Proof.
  unfold from_days. rewrite <-(rev_involutive days). induction (rev days) as [|w l [Hok Hc]]; cbn [rev].
  - cbn. split; [|intros []; cbn; rewrite elem_of_nil; split; done]. split; [cbn; lia|]. split; [constructor|done].
  - rewrite foldl_app. cbn [foldl]. split; [by apply insert_day_ok|]. intros v.
    rewrite contains_insert, orb_true_iff, bool_decide_eq_true, Hc, elem_of_app, list_elem_of_singleton. done.
Qed.

Lemma elem_of_iter_days s w : days_ok s → w ∈ iter_days s ↔ contains_day s w = true.
Proof.
  intros (_ & _ & Hi). unfold iter_days. rewrite elem_of_app, list_elem_of_filter, list_elem_of_fmap. split.
  - intros [[? _]|(raw & -> & Hr)]; [done|]. unfold contains_day. cbn. apply bool_decide_eq_true. rewrite Hi. by apply elem_of_list_to_set.
  - intros Hc. destruct w as [| | | | | | |raw]; try (left; split; [done|unfold WEEKDAY_ORDER; set_solver]). right. exists raw.
    unfold contains_day in Hc. cbn in Hc. apply bool_decide_eq_true in Hc. rewrite Hi in Hc. split; [done|].
    by apply elem_of_list_to_set in Hc.
Qed.

(** Seven weekdays in a mask, all 128 of them. *)
Lemma known_days_rebuild m u x :
  0 ≤ m < 128 → foldl insert_day (mkWeekdaySet 0 u x) (filter (λ w, contains_day (mkWeekdaySet m u x) w = true) WEEKDAY_ORDER) =
    mkWeekdaySet m u x.
Proof.
  intros Hm. assert (∃ k, (k < 128)%nat ∧ m = Z.of_nat k) as (k & Hk & ->) by (exists (Z.to_nat m); lia).
  clear Hm. revert k Hk.
  assert (Forall (λ k, ∀ u x, foldl insert_day (mkWeekdaySet 0 u x)
    (filter (λ w, contains_day (mkWeekdaySet (Z.of_nat k) u x) w = true) WEEKDAY_ORDER) = mkWeekdaySet (Z.of_nat k) u x) (seq 0 128)) as Hall.
  { cbv [seq]. repeat (constructor; [intros; reflexivity|]). constructor. }
  rewrite Forall_forall in Hall. intros k Hk. apply Hall. apply elem_of_seq. lia.
Qed.

Lemma push_unknowns m u rest :
  NoDup (u ++ rest) →
  foldl insert_day (mkWeekdaySet m u (list_to_set u)) (DayUnknown <$> rest) = mkWeekdaySet m (u ++ rest) (list_to_set (u ++ rest)).
Proof.
  revert u. induction rest as [|raw rest IH]; intros u Hnd; cbn [fmap list_fmap foldl]; [by rewrite app_nil_r|].
  assert (raw ∉ u) as Hraw by (apply NoDup_app in Hnd as (_ & Hd & _); intros Hin; apply (Hd raw Hin); by left).
  change (insert_day (mkWeekdaySet m u (list_to_set u)) (DayUnknown raw)) with (if decide (raw ∈ (list_to_set u : gset string)) then mkWeekdaySet m u (list_to_set u) else mkWeekdaySet m (u ++ [raw]) ({[raw]} ∪ list_to_set u)). rewrite decide_False by (by rewrite elem_of_list_to_set).
  assert ({[raw]} ∪ list_to_set u = (list_to_set (u ++ [raw]) : gset string)) as -> by set_solver.
  rewrite IH; by rewrite <-(assoc_L app).
Qed.

(** Known weekdays leave the unknown tokens alone. *)
Lemma known_days_keep_unknown l m u x :
  Forall (λ w, is_Some (weekday_bit w)) l →
  ∃ m', foldl insert_day (mkWeekdaySet m u x) l = mkWeekdaySet m' u x ∧
    ∀ u' x', foldl insert_day (mkWeekdaySet m u' x') l = mkWeekdaySet m' u' x'.
Proof.
  intros Hl. revert m. induction Hl as [|w l [b Hb] _ IH]; intros m; [by exists m|]. cbn [foldl].
  destruct (IH (Z.lor m (Z.shiftl 1 b))) as (m' & H1 & H2). exists m'. unfold insert_day. rewrite Hb.
  cbn [ws_mask ws_unknown ws_index]. split; [done|]. intros u' x'. by rewrite <-(H2 u' x').
Qed.

(** A set of weekdays is what its list says and survives its wire form.
    It contains exactly the tokens inserted, known or not, and listing it —
    Monday first, then the unknown tokens in the order they first came — and
    reading the list back gives the same set. *)
Theorem weekday_set_roundtrip days :
  from_days (iter_days (from_days days)) = from_days days ∧
  ∀ w, (contains_day (from_days days) w = true ↔ w ∈ days) ∧ (w ∈ iter_days (from_days days) ↔ w ∈ days).
Proof.
  destruct (from_days_spec days) as [Hok Hc]. split; [|intros w; by rewrite elem_of_iter_days, Hc].
  clear Hc. destruct (from_days days) as [m u x]. destruct Hok as (Hm & Hu & Hx). cbn in Hm, Hu, Hx. subst x.
  unfold from_days, iter_days, empty_days. rewrite foldl_app. cbn [ws_unknown].
  pose proof (known_days_rebuild m u (list_to_set u) Hm) as Hk.
  edestruct (known_days_keep_unknown (filter (λ w, contains_day (mkWeekdaySet m u (list_to_set u)) w = true) WEEKDAY_ORDER) 0 u (list_to_set u))
    as (m' & E1 & E2).
  { apply Forall_forall. intros w [_ Hw]%list_elem_of_filter. unfold WEEKDAY_ORDER in Hw.
    repeat (apply elem_of_cons in Hw as [-> | Hw]; [by eexists|]). by apply not_elem_of_nil in Hw. }
  rewrite E1 in Hk. injection Hk as ->. rewrite E2. by apply (push_unknowns m [] u).
Qed.

(** ** Alternatives within a kind, all kinds together *)

Lemma kind_key_bounds c : 0 ≤ kind_key c < 8.
Proof. unfold kind_key. destruct (days_empty _), (time_of_day c), (date_range c); split; done. Qed.

(** Which dimensions a constraint populates. *)
Definition populates (c : ScheduleConstraint) : bool * bool * bool :=
  (is_some (time_of_day c), negb (days_empty (days_of_week c)), is_some (date_range c)).

Lemma kind_key_populates c c' : kind_key c = kind_key c' ↔ populates c = populates c'.
Proof.
  unfold kind_key, populates.
  destruct (days_empty (days_of_week c)), (days_empty (days_of_week c')), (time_of_day c), (time_of_day c'), (date_range c), (date_range c');
    vm_compute; split; congruence.
Qed.

Section violations.
Context `{Jiff}.

Lemma satisfied_kinds_spec l zdt k :
  0 ≤ k → Z.testbit (satisfied_kinds l zdt) k = existsb (λ c, bool_decide (kind_key c = k) && is_satisfied_at c zdt) l.
Proof.
  intros Hk. unfold satisfied_kinds. rewrite <-(rev_involutive l). induction (rev l) as [|c l' IH]; [by cbn; apply Z.testbit_0_l|].
  cbn [rev]. rewrite foldl_app, existsb_app, <-IH. cbn [foldl existsb]. rewrite orb_false_r.
  destruct (is_satisfied_at c zdt); [|by rewrite andb_false_r, orb_false_r]. pose proof (kind_key_bounds c).
  rewrite testbit_set_bit, andb_true_r by lia. f_equal. apply bool_decide_ext. done.
Qed.

(** A constraint is reported broken exactly when no constraint of its kind
    — populating the same dimensions — holds at the moment: constraints of a
    kind are alternatives, and each kind must be met.  The hard list and the
    soft list partition the broken ones, a severity of a later build counting
    as soft. *)
Theorem violations_exact l zdt :
  (∀ i, i ∈ list_violations l zdt ↔
    ∃ c, l !! i = Some c ∧ ∀ c', c' ∈ l → populates c' = populates c → is_satisfied_at c' zdt = false) ∧
  violations_by_severity l zdt =
    (filter (λ c, is_hard c = true) (omap (l !!.) (list_violations l zdt)),
     filter (λ c, is_hard c = false) (omap (l !!.) (list_violations l zdt))).
Proof.
  split.
  - intros i. unfold list_violations. rewrite list_elem_of_fmap. split.
    + intros ([j c] & -> & [Hz Hin]%list_elem_of_filter). cbn [fst snd] in *. apply elem_of_lookup_imap in Hin as (j' & c' & [= <- <-] & Hl).
      exists c. split; [done|]. pose proof (kind_key_bounds c) as Hb. apply one_bit_zero in Hz; [|lia]. rewrite satisfied_kinds_spec in Hz by lia.
      intros c' Hc' Hp. destruct (is_satisfied_at c' zdt) eqn:E; [|done]. exfalso.
      assert (existsb (λ d, bool_decide (kind_key d = kind_key c) && is_satisfied_at d zdt) l = true) as Hex; [|congruence].
      apply existsb_exists. exists c'. split; [by apply list_elem_of_In|]. rewrite E, andb_true_r. apply bool_decide_eq_true.
      by apply kind_key_populates.
    + intros (c & Hl & Hall). exists (i, c). split; [done|]. apply list_elem_of_filter. cbn [fst snd]. pose proof (kind_key_bounds c) as Hb. split.
      * apply one_bit_zero; [lia|]. rewrite satisfied_kinds_spec by lia. apply not_true_iff_false. intros (c' & Hc' & E)%existsb_exists.
        apply andb_true_iff in E as [Hk E]. apply bool_decide_eq_true in Hk. apply kind_key_populates in Hk.
        rewrite Hall in E; [done|by apply list_elem_of_In|done].
      * apply elem_of_lookup_imap. by exists i, c.
  - unfold violations_by_severity.
    assert (∀ ks h s, foldl (λ acc i, match l !! i with
        | Some c => if is_hard c then (acc.1 ++ [c], acc.2) else (acc.1, acc.2 ++ [c]) | None => acc end) (h, s) ks =
      (h ++ filter (λ c, is_hard c = true) (omap (l !!.) ks), s ++ filter (λ c, is_hard c = false) (omap (l !!.) ks))) as Hfold; [|apply (Hfold _ [] [])].
    induction ks as [|i ks IH]; intros h s; cbn [foldl omap list_omap]; [by rewrite !app_nil_r|].
    destruct (l !! i) as [c|]; [|apply IH]. rewrite !filter_cons. destruct (is_hard c) eqn:E; cbn [fst snd]; rewrite IH.
    + rewrite decide_True, decide_False by done. by rewrite <-(assoc_L app).
    + rewrite decide_False, decide_True by done. by rewrite <-(assoc_L app).
Qed.
End violations.

(** ** A night window belongs to the day it starts on *)

Section nights.
Context `{JiffLaws}.

(** The moment lies in the window that starts on [day]; without a time of day
    the window is the day. *)
Definition in_window_of (c : ScheduleConstraint) (day : Date) (zdt : DateTime) : Prop :=
  match time_of_day c with
  | Some t =>
      if wraps t
      then (date zdt = day ∧ tod_start t ≼ time zdt) ∨ (day_number (date zdt) = day_number day + 1 ∧ time zdt ≺ tod_end t)
      else date zdt = day ∧ tod_start t ≼ time zdt ∧ time zdt ≺ tod_end t
  | None => date zdt = day
  end.

(** The constraint's days: its weekdays, and its dates, both ends included. *)
Definition on_day (c : ScheduleConstraint) (day : Date) : Prop :=
  admits (days_of_week c) (weekday_of_date day) = true ∧
  from_option (λ r, dr_start r ≼ day ∧ from_option (λ e, day ≼ e) True (dr_end r)) True (date_range c).

(** A constraint holds at a moment exactly when the moment lies in the
    window some admitted day starts: a window that wraps past midnight belongs
    wholly to the day it begins, so Friday night reaches into Saturday and
    Saturday's small hours are Friday's. *)
Theorem satisfied_iff_in_a_window c zdt :
  valid (date zdt) → is_Some (yesterday (date zdt)) →
  is_satisfied_at c zdt = true ↔ ∃ day, valid day ∧ in_window_of c day zdt ∧ on_day c day.
Proof.
  intros Hv [yd Hyd]. pose proof Hyd as Hy. apply yesterday_spec in Hy as [Hyv Hyn]; [|done].
  unfold is_satisfied_at, in_window_of.
  assert (∀ day, day_admitted c day = true ↔ on_day c day) as Hon.
  { intros day. unfold day_admitted, on_day. rewrite andb_true_iff. destruct (date_range c) as [d|]; cbn; [|split; intros [? _]; done].
    rewrite tle_not_tlt. case_decide as Hd; [split; [by intros [_ ?]|tauto]|].
    destruct (dr_end d) as [e|]; cbn; [|tauto]. rewrite negb_true_iff, bool_decide_eq_false, tle_not_tlt. tauto. }
  assert (∀ P : Date → Prop, (∀ day, P day → day = date zdt) → P (date zdt) →
    day_admitted c (date zdt) = true ↔ ∃ day, valid day ∧ P day ∧ on_day c day) as Htoday.
  { intros P HP Hnow. rewrite Hon. split; [by eauto|]. intros (day & _ & HPd & Hd). by rewrite <-(HP day HPd). }
  destruct (time_of_day c) as [t|]; [|by apply (Htoday (λ day, date zdt = day))].
  unfold tod_place. destruct (wraps t) eqn:Hw.
  - assert (tod_end t ≺ tod_start t) as Hlt by (unfold wraps in Hw; by apply bool_decide_eq_true in Hw).
    case_decide as Hs.
    + assert (¬ time zdt ≺ tod_end t) as Hne.
      { apply tle_not_tlt. apply tlt_tle. eapply tlt_tle_trans; done. }
      apply (Htoday (λ day, (date zdt = day ∧ tod_start t ≼ time zdt) ∨ (day_number (date zdt) = day_number day + 1 ∧ time zdt ≺ tod_end t)));
        [intros day [[<- _]|[_ ?]]; done|by left].
    + case_decide as He.
      * rewrite Hyd. change (default (date zdt) (Some yd)) with yd. rewrite Hon. split.
        -- intros Hd. exists yd. split; [done|]. split; [|done]. right. split; [lia|done].
        -- intros (day & Hdv & [[_ ?]|[Hdn _]] & Hd); [done|]. by rewrite (day_number_inj yd day Hyv Hdv) by lia.
      * split; [done|]. intros (day & _ & [[_ ?]|[_ ?]] & _); done.
  - case_decide as Hin.
    + by apply (Htoday (λ day, date zdt = day ∧ tod_start t ≼ time zdt ∧ time zdt ≺ tod_end t)); [intros day [-> _]|].
    + split; [done|]. intros (day & _ & (_ & ?) & _). tauto.
Qed.
End nights.
