(* ===== verification/Gregorian.v ===== *)
(** * A concrete calendar

    An instance of [Jiff] for the witnesses: the proleptic Gregorian calendar
    of the years -9999 to 9999, fixed-offset zones, and plain texts; with the
    proofs of the laws. *)

From Stdlib Require Import ZArith Lia String Ascii.
From stdpp Require Import base tactics decidable option list gmap strings.
From S2P Require Import Prelude Bytes Cbor Calendar SunriseTime Rrule.
Open Scope Z_scope.

(** ** Days of years and months *)

Definition leap (y : Z) : Z :=
  if decide (y mod 4 = 0 ∧ (y mod 100 ≠ 0 ∨ y mod 400 = 0)) then 1 else 0.
Definition month_length (y m : Z) : Z :=
  if decide (m = 2) then 28 + leap y else if decide (m = 4 ∨ m = 6 ∨ m = 9 ∨ m = 11) then 30 else 31.
(** Days before year [y], and before month [m] of year [y]. *)
Definition before_year (y : Z) : Z := 365 * y + (y - 1) / 4 - (y - 1) / 100 + (y - 1) / 400.
Definition before_month (y m : Z) : Z :=
  if decide (m ≤ 1) then 0 else if decide (m = 2) then 31 else if decide (m = 3) then 59 + leap y
  else if decide (m = 4) then 90 + leap y else if decide (m = 5) then 120 + leap y
  else if decide (m = 6) then 151 + leap y else if decide (m = 7) then 181 + leap y
  else if decide (m = 8) then 212 + leap y else if decide (m = 9) then 243 + leap y
  else if decide (m = 10) then 273 + leap y else if decide (m = 11) then 304 + leap y
  else if decide (m = 12) then 334 + leap y else 365 + leap y.

(** Days are numbered so that Mondays are multiples of seven. *)
Definition number (d : Date) : Z := before_year (year d) + before_month (year d) (month d) + day d - 1 + 6.

Definition year_of (k : Z) : Z :=
  let y := k * 400 / 146097 in
  if decide (k < before_year y) then y - 1 else if decide (k < before_year (y + 1)) then y else y + 1.
Definition month_of (y k : Z) : Z :=
  if decide (k < before_month y 2) then 1 else if decide (k < before_month y 3) then 2
  else if decide (k < before_month y 4) then 3 else if decide (k < before_month y 5) then 4
  else if decide (k < before_month y 6) then 5 else if decide (k < before_month y 7) then 6
  else if decide (k < before_month y 8) then 7 else if decide (k < before_month y 9) then 8
  else if decide (k < before_month y 10) then 9 else if decide (k < before_month y 11) then 10
  else if decide (k < before_month y 12) then 11 else 12.
Definition of_number (n : Z) : Date :=
  let k := n - 6 in
  let y := year_of k in
  let m := month_of y (k - before_year y) in
  mkDate y m (k - before_year y - before_month y m + 1).

Definition proper (d : Date) : Prop := 1 ≤ month d ≤ 12 ∧ 1 ≤ day d ≤ month_length (year d) (month d).
Definition in_range (d : Date) : Prop := -9999 ≤ year d ≤ 9999 ∧ proper d.
#[export] Instance proper_dec d : Decision (proper d).
Proof. unfold proper. apply _. Defined.
#[export] Instance in_range_dec d : Decision (in_range d).
Proof. unfold in_range. apply _. Defined.

Lemma leap_cases y : leap y = 0 ∨ leap y = 1.
Proof. unfold leap. case_decide; auto. Qed.

Lemma before_year_succ y : before_year (y + 1) = before_year y + 365 + leap y.
Proof.
  unfold before_year, leap. replace (y + 1 - 1) with y by lia.
  case_decide as Hl; [destruct Hl as [H4 [H100|H400]]|apply Decidable.not_and in Hl; [|unfold Decidable.decidable; lia]];
    Z.to_euclidean_division_equations; lia.
Qed.

Lemma before_year_mono y y' : y ≤ y' → before_year y ≤ before_year y'.
Proof. unfold before_year. intros. Z.to_euclidean_division_equations. lia. Qed.

Lemma year_of_spec k : before_year (year_of k) ≤ k < before_year (year_of k + 1).
Proof.
  unfold year_of. set (y := k * 400 / 146097).
  assert (before_year (y - 1) ≤ k < before_year (y + 2)) as Hk.
  { unfold y, before_year. Z.to_euclidean_division_equations. lia. }
  case_decide; [|case_decide]; [|lia|].
  - replace (y - 1 + 1) with y by lia. lia.
  - replace (y + 1 + 1) with (y + 2) by lia. lia.
Qed.

Lemma before_month_succ y m : 1 ≤ m ≤ 12 → before_month y (m + 1) = before_month y m + month_length y m.
Proof.
  intros Hm. assert (m = 1 ∨ m = 2 ∨ m = 3 ∨ m = 4 ∨ m = 5 ∨ m = 6 ∨ m = 7 ∨ m = 8 ∨ m = 9 ∨ m = 10 ∨ m = 11 ∨ m = 12)
    as Hc by lia. unfold before_month, month_length.
  destruct Hc as [->|[->|[->|[->|[->|[->|[->|[->|[->|[->|[->| ->]]]]]]]]]]]; simpl; try lia.
Qed.

Lemma month_of_spec y k : 0 ≤ k < 365 + leap y →
  1 ≤ month_of y k ≤ 12 ∧ before_month y (month_of y k) ≤ k < before_month y (month_of y k + 1).
Proof.
  intros Hk. unfold month_of. pose proof (leap_cases y) as Hl.
  repeat match goal with |- context [decide (k < before_month y ?m)] => destruct (decide (k < before_month y m)) end;
    (split; [lia|]); (split; [|done || (unfold before_month; simpl; lia)]); try lia; unfold before_month; simpl; lia.
Qed.

Lemma of_number_spec n : proper (of_number n) ∧ number (of_number n) = n.
Proof.
  unfold of_number. set (k := n - 6). set (y := year_of k). pose proof (year_of_spec k) as Hy. fold y in Hy.
  rewrite before_year_succ in Hy. destruct (month_of_spec y (k - before_year y)) as [Hm Hk]; [lia|].
  set (m := month_of y (k - before_year y)) in *. rewrite before_month_succ in Hk by done.
  unfold proper, number. cbn [year month day]. unfold k in *. lia.
Qed.

Lemma before_month_mono y m m' : 1 ≤ m → m ≤ m' → m' ≤ 13 → before_month y m ≤ before_month y m'.
Proof.
  intros H1 H2 H3. pose proof (leap_cases y). unfold before_month. repeat case_decide; lia.
Qed.

Lemma proper_day_of_year d : proper d → 0 ≤ before_month (year d) (month d) + day d - 1 < 365 + leap (year d).
Proof.
  intros [Hm Hd]. pose proof (before_month_succ (year d) (month d) Hm) as Hs.
  pose proof (before_month_mono (year d) (month d + 1) 13) as H13. pose proof (before_month_mono (year d) 1 (month d)) as H1.
  change (before_month (year d) 13) with (365 + leap (year d)) in H13. change (before_month (year d) 1) with 0 in H1. lia.
Qed.

Lemma number_lt a b : proper a → proper b → a ≺ b → number a < number b.
Proof.
  intros Ha Hb. rewrite Date_lt. pose proof (proper_day_of_year a Ha). pose proof (proper_day_of_year b Hb). unfold number.
  intros [Hy|[Hy [Hm|[Hm Hd]]]].
  - pose proof (before_year_succ (year a)). pose proof (before_year_mono (year a + 1) (year b)). lia.
  - rewrite Hy in *. destruct Ha as [Ham Had], Hb as [Hbm Hbd]. rewrite Hy in *.
    pose proof (before_month_succ (year b) (month a) Ham). pose proof (before_month_mono (year b) (month a + 1) (month b)). lia.
  - rewrite Hy, Hm. lia.
Qed.

Lemma number_lt_iff a b : proper a → proper b → a ≺ b ↔ number a < number b.
Proof.
  intros Ha Hb. split; [by apply number_lt|]. intros Hn. destruct (tlt_total a b) as [?|[->|Hgt]]; [done|lia|].
  apply number_lt in Hgt; [lia|done..].
Qed.
Lemma number_inj a b : proper a → proper b → number a = number b → a = b.
Proof.
  intros Ha Hb Hn. destruct (tlt_total a b) as [Hlt|[?|Hlt]]; [|done|]; apply number_lt in Hlt; try done; lia.
Qed.
Lemma of_number_number d : proper d → of_number (number d) = d.
Proof. intros Hd. destruct (of_number_spec (number d)) as [Hp Hn]. by apply number_inj. Qed.

(** ** The instance *)

Definition DAY : Z := 86400000000000.
Definition epoch : Z := number (mkDate 1970 1 1).
Definition max_date : Date := mkDate 9999 12 31.
Definition min_date : Date := mkDate (-9999) 1 1.
Definition checked (d : Date) : option Date := if decide (in_range d) then Some d else None.
Definition nanos (t : Time) : Z :=
  ((((hour t * 60 + minute t) * 60 + second t) * 1000000000) + nanosecond t) mod DAY.
Definition time_of (ns : Z) : Time :=
  mkTime (ns / 3600000000000) (ns / 60000000000 mod 60) (ns / 1000000000 mod 60) (ns mod 1000000000).
Definition clamp_number (n : Z) : Z := Z.max (number min_date) (Z.min n (number max_date)).

Definition ints (sep : string) (l : list Z) : string := join_with sep (show_int <$> l).
Definition read_ints (sep : ascii) (s : string) : option (list Z) := mapM parse_i32 (split_on sep s).
Definition date_text (d : Date) : string := ints "/" [year d; month d; day d].
Definition read_date_by (sep : ascii) (s : string) : option Date :=
  l ← read_ints sep s; match l with [y; m; d] => Some (mkDate y m d) | _ => None end.
Definition read_date (s : string) : option Date := read_date_by "/" s.
(** Dates are also read with dashes, as keys write them. *)
Definition read_any_date (s : string) : option Date :=
  match read_date s with Some d => Some d | None => read_date_by "-" s end.
Definition civil_text (c : DateTime) : string :=
  String.append (date_text (date c))
    (String "T" (ints ":" [hour (time c); minute (time c); second (time c); nanosecond (time c)])).
(** A date is printed as YYYY-MM-DD where that has room for it. *)
Definition iso_fits (d : Date) : Prop := 0 ≤ year d < 10000 ∧ 0 ≤ month d < 100 ∧ 0 ≤ day d < 100.
#[export] Instance iso_fits_dec d : Decision (iso_fits d).
Proof. unfold iso_fits. apply _. Defined.
Definition iso_text (d : Date) : string := join_with "-" [pad 4 (year d); pad 2 (month d); pad 2 (day d)].
Definition any_date_text (d : Date) : string := if decide (iso_fits d) then iso_text d else date_text d.
Definition read_civil (s : string) : option DateTime :=
  dt ← split_once "T" s; d ← read_date dt.1; l ← read_ints ":" dt.2;
  match l with [h; m; s; n] => Some (mkDateTime d (mkTime h m s n)) | _ => None end.

#[export] Instance gregorian : Jiff := {|
  TimeZone := Z;
  weekday d := number d mod 7;
  days_in_month d := month_length (year d) (month d);
  date_new y m d := checked (mkDate y m d);
  time_new h m s n :=
    if decide (0 ≤ h < 24 ∧ 0 ≤ m < 60 ∧ 0 ≤ s < 60 ∧ 0 ≤ n < 1000000000) then Some (mkTime h m s n) else None;
  first_of_month d := mkDate (year d) (month d) 1;
  tomorrow d := checked (of_number (number d + 1));
  yesterday d := checked (of_number (number d - 1));
  date_max := max_date;
  span_fits u n := bool_decide (Z.abs n ≤ match u with SpanDays => 7304484 | SpanWeeks => 1043497 | SpanMonths => 120000 end);
  checked_add d u n :=
    match u with
    | SpanDays => checked (of_number (number d + n))
    | SpanWeeks => checked (of_number (number d + 7 * n))
    | SpanMonths =>
        let k := 12 * year d + (month d - 1) + n in
        let y := k / 12 in let m := k mod 12 + 1 in
        checked (mkDate y m (Z.min (day d) (month_length y m)))
    end;
  to_timestamp tz dt := Some ((number (date dt) - epoch) * DAY + nanos (time dt) - tz);
  to_civil tz t := mkDateTime (of_number (clamp_number ((t + tz) / DAY + epoch))) (time_of ((t + tz) mod DAY));
  tz_get s :=
    if decide (s = "UTC"%string) then Some 0
    else if decide (s = "Asia/Tokyo"%string) then Some (9 * 60 * 60 * 1000000000) else None;
  utc := 0;
  tz_eqb a b := bool_decide (a = b);
  to_offset tz _ := tz / 1000000000;
  following _ _ _ := [];
  zoned_add_days tz t n := Some (t + n * DAY);
  as_millisecond t := t / 1000000;
  from_millisecond ms := Some (ms * 1000000);
  as_second t := Z.quot t 1000000000;
  from_second s := Some (s * 1000000000);
  timestamp_min := - (2 ^ 63 * 1000000);
  timestamp_max := 2 ^ 63 * 1000000;
  parse_timestamp s := s' ← strip_sign "Z" s; parse_i32 s';
  show_timestamp t := String "Z" (show_int t);
  parse_civil := read_civil;
  show_civil := civil_text;
  parse_date := read_any_date;
  show_date := any_date_text;
|}.

Lemma checked_Some d d' : checked d = Some d' ↔ d' = d ∧ in_range d.
Proof. unfold checked. case_decide; naive_solver. Qed.

Lemma checked_of_number n d' : checked (of_number n) = Some d' ↔ in_range d' ∧ number d' = n.
Proof.
  rewrite checked_Some. destruct (of_number_spec n) as [Hp Hn]. split; [by intros [-> ?]|].
  intros [[Hy Hd'] <-]. by rewrite of_number_number.
Qed.

Lemma in_range_bounds d : in_range d → number min_date ≤ number d ≤ number max_date.
Proof.
  intros [Hy Hp]. pose proof (proper_day_of_year d Hp). pose proof (before_year_mono (-9999) (year d)).
  pose proof (before_year_mono (year d + 1) 10000). pose proof (before_year_succ (year d)).
  change (number min_date) with (before_year (-9999) + 6). change (number max_date) with (before_year 10000 - 1 + 6).
  unfold number. lia.
Qed.

Lemma first_of_month_law d d' n : in_range d → day d = 1 →
  checked_add d SpanMonths n = Some d' ↔ in_range d' ∧ day d' = 1 ∧ 12 * year d' + month d' = 12 * year d + month d + n.
Proof.
  intros Hd Hone. cbn [checked_add gregorian]. rewrite checked_Some, Hone.
  set (k := 12 * year d + (month d - 1) + n). pose proof (Z.mod_pos_bound k 12) as Hm. pose proof (Z.div_mod k 12) as Hk.
  assert (28 ≤ month_length (k / 12) (k mod 12 + 1)) as Hl.
  { unfold month_length. pose proof (leap_cases (k / 12)). repeat case_decide; lia. }
  replace (Z.min 1 _) with 1 by lia. split.
  - intros [-> Hr]. split; [done|]. cbn [year month day]. split; [done|]. lia.
  - intros (Hr & Hday & Heq). assert (d' = mkDate (k / 12) (k mod 12 + 1) 1) as Hd'; [|by subst].
    destruct d' as [y m dd]. cbn [year month day] in *. subst dd. destruct Hr as [_ [Hr _]]. cbn [month] in Hr.
    assert (y = k / 12) as -> by (apply Z.div_unique with (m - 1); lia). f_equal. lia.
Qed.

Lemma between_law n : number min_date ≤ n ≤ number max_date → in_range (of_number n).
Proof.
  destruct (of_number_spec n) as [Hp Hn]. intros Hb. split; [|done]. rewrite <-Hn in Hb.
  pose proof (proper_day_of_year _ Hp) as Hd. revert Hb Hd. generalize (of_number n). intros d Hb Hd.
  change (number min_date) with (before_year (-9999) + 6) in Hb. change (number max_date) with (before_year 10000 - 1 + 6) in Hb.
  unfold number in Hb. pose proof (before_year_succ (year d)). destruct (decide (year d < -9999)).
  { pose proof (before_year_mono (year d + 1) (-9999)). lia. }
  destruct (decide (9999 < year d)); [|lia]. pose proof (before_year_mono 10000 (year d)). lia.
Qed.

Lemma civil_day_law tz t : in_range (date (to_civil tz t)).
Proof.
  apply between_law. unfold clamp_number. assert (number min_date ≤ number max_date) by (vm_compute; done). lia.
Qed.

Lemma placed_law (tz : Z) dt t u :
  to_timestamp (Jiff := gregorian) tz dt = Some t → t < u → in_range (date dt) →
  number (date dt) ≤ number (date (to_civil (Jiff := gregorian) tz u)) + 1.
Proof.
  intros [= <-] Hlt Hr. cbn [to_civil gregorian date]. destruct (of_number_spec (clamp_number ((u + tz) / DAY + epoch))) as [_ ->].
  pose proof (in_range_bounds _ Hr) as Hb.
  assert (0 ≤ nanos (time dt) < DAY) as Hn by (apply Z.mod_pos_bound; done).
  assert (number (date dt) - epoch ≤ (u + tz) / DAY) as Hd.
  { apply Z.div_le_lower_bound; [done|]. rewrite Z.mul_comm. lia. }
  unfold clamp_number. lia.
Qed.

#[export] Instance gregorian_laws : @JiffLaws gregorian.
Proof.
  refine {| day_number := number |}; change valid with in_range.
  - intros a b Ha Hb. by apply number_lt_iff; [apply Ha|apply Hb].
  - intros a b n Ha Hb Hn. apply in_range_bounds in Ha, Hb. exists (of_number n).
    split; [apply between_law; lia|apply of_number_spec].
  - done.
  - intros a b Hy Hm. cbn. by rewrite Hy, Hm.
  - intros d Hm. cbn. unfold month_length. pose proof (leap_cases (year d)). repeat case_decide; lia.
  - intros y m n d. cbn [date_new gregorian]. rewrite checked_Some. split; intros [-> ?]; done.
  - intros h m s n t. cbn. case_decide; naive_solver.
  - done.
  - intros d d' Hd. apply checked_of_number.
  - intros d d' Hd. apply checked_of_number.
  - vm_compute. intuition congruence.
  - intros d Hd. apply not_tlt. intros Hlt. apply number_lt in Hlt; [|vm_compute; intuition congruence|apply Hd].
    apply in_range_bounds in Hd. cbn [date_max gregorian] in Hlt. lia.
  - intros d n d' _ _. apply checked_of_number.
  - intros d n d' _ _. apply checked_of_number.
  - intros d n d' Hd Hone _. by apply first_of_month_law.
  - intros u n k. cbn. rewrite !bool_decide_eq_true. destruct u; lia.
  - intros u d d' n Hd Hy Hd' Hn Hu. cbn. apply bool_decide_eq_true. pose proof (in_range_bounds _ Hd). pose proof (in_range_bounds _ Hd').
    change (number min_date) with (-3652054) in *. change (number max_date) with 3652429 in *.
    destruct Hd as (? & ? & ?), Hd' as (? & ? & ?). destruct u; [lia..|]. specialize (Hy eq_refl). lia.
  - intros d d' t x y [_ Hd] [_ Hd'] [= <-] [= <-]. rewrite number_lt_iff by done. cbn. unfold DAY. lia.
  - intros n Hn. cbn. apply bool_decide_eq_true. lia.
  - intros n Hn. cbn. apply bool_decide_eq_true. lia.
  - intros s t [= <-]. cbn. by rewrite Z.quot_mul.
  - intros tz. cbn. by apply bool_decide_eq_true.
  - intros tz t. apply civil_day_law.
  - intros tz dt t u Ht Hlt Hv. by apply (placed_law tz dt t u).
Defined.

(** ** Texts *)

Lemma show_int_chars c n : digit_value c = None → c ≠ "-"%char → has_char c (show_int n) = false.
Proof.
  intros Hc Hm. assert (∀ d, 0 ≤ d < 10 → dec_digit d ≠ c) as Hd by (intros d Hd <-; by rewrite digit_value_dec in Hc).
  unfold show_int. case_decide; [|by apply show_digits_char]. cbn [has_char].
  destruct (ascii_dec "-" c) as [E|_]; [by destruct Hm|]. by apply show_digits_char.
Qed.
Lemma show_int_head n : ∃ c s, show_int n = String c s ∧ c ≠ "Z"%char.
Proof.
  unfold show_int. case_decide; [by eexists "-"%char, _|].
  destruct (show_digits_head (Z.to_nat (Z.log2 n)) n EmptyString) as (d & rest & -> & Hd); [lia|].
  exists (dec_digit d), rest. split; [done|]. intros E. pose proof (digit_value_dec d Hd) as Hv. by rewrite E in Hv.
Qed.
Lemma ints_char c sep l : digit_value c = None → c ≠ "-"%char → has_char c sep = false → has_char c (ints sep l) = false.
Proof.
  intros Hc Hm Hs. unfold ints. induction l as [|n l IH]; [done|]. destruct l as [|n' l]; [by apply show_int_chars|].
  cbn [fmap list_fmap join_with] in *. by rewrite !has_char_append, show_int_chars, Hs, IH.
Qed.

Lemma read_ints_small sep s l : read_ints sep s = Some l → Forall (λ n, i32_min ≤ n ≤ i32_max) l.
Proof.
  unfold read_ints. generalize (split_on sep s). intros ps. revert l. induction ps as [|p ps IH]; intros l; cbn [mapM].
  { intros [= <-]. constructor. }
  destruct (parse_i32 p) as [n|] eqn:E; [|done]. cbn [mbind option_bind].
  destruct (mapM parse_i32 ps) as [l'|]; [|done]. intros [= <-]. constructor; [by eapply parse_i32_bounds|by apply IH].
Qed.
Lemma read_show_ints sep l :
  digit_value sep = None → sep ≠ "-"%char → l ≠ [] → Forall (λ n, i32_min ≤ n ≤ i32_max) l →
  read_ints sep (ints (String sep EmptyString) l) = Some l.
Proof.
  intros Hd Hm Hne Hall. unfold read_ints, ints. rewrite split_join; [|by destruct l|].
  - clear Hne. induction Hall as [|n l Hn _ IH]; [done|]. cbn [fmap list_fmap mapM]. rewrite parse_i32_show by done.
    cbn [mbind option_bind]. by rewrite IH.
  - apply Forall_fmap, Forall_true. intros n. by apply show_int_chars.
Qed.

Lemma read_date_by_text sep s d : read_date_by sep s = Some d → read_date (date_text d) = Some d.
Proof.
  unfold read_date_by at 1. destruct (read_ints sep s) as [l|] eqn:E; cbn [mbind option_bind]; [|done].
  apply read_ints_small in E. destruct l as [|y [|m [|n [|? ?]]]]; try done. intros [= <-]. unfold read_date, read_date_by, date_text.
  cbn [year month day]. by rewrite read_show_ints.
Qed.
Lemma read_date_text s d : read_date s = Some d → read_date (date_text d) = Some d.
Proof. apply read_date_by_text. Qed.
Lemma read_any_date_text s d : read_any_date s = Some d → read_any_date (date_text d) = Some d.
Proof.
  unfold read_any_date at 1. intros Hd. assert (read_date (date_text d) = Some d) as E; [|by unfold read_any_date; rewrite E].
  destruct (read_date s) eqn:Es; [injection Hd as ->; by eapply read_date_by_text|by eapply read_date_by_text].
Qed.

Lemma append_cons x s t : String.append (String x s) t = String x (String.append s t).
Proof. done. Qed.
Lemma date_text_head d : ∃ x s, date_text d = String x s ∧ x ≠ "Z"%char.
Proof.
  destruct (show_int_head (year d)) as (x & s & E & Hx). unfold date_text, ints. cbn [fmap list_fmap join_with]. rewrite E, append_cons.
  by eexists _, _.
Qed.
Lemma not_instant x s : x ≠ "Z"%char → strip_sign "Z" (String x s) ≫= parse_i32 = None.
Proof. intros Hx. cbn [strip_sign]. by destruct (ascii_dec x "Z"). Qed.

(** Padded numbers: digits, and read back. *)
Fixpoint all_digits (s : string) : bool :=
  match s with EmptyString => true | String c s' => bool_decide (is_Some (digit_value c)) && all_digits s' end.
Definition pad_ok (w : nat) (n : Z) : bool :=
  all_digits (pad w n) && bool_decide (parse_i32 (pad w n) = Some n) && bool_decide (pad w n ≠ EmptyString).
Lemma pad_checked w n k : forallb (pad_ok w) (seqZ 0 k) = true → 0 ≤ n < k →
  all_digits (pad w n) = true ∧ parse_i32 (pad w n) = Some n ∧ pad w n ≠ EmptyString.
Proof.
  intros Hp Hn. rewrite forallb_forall in Hp. assert (pad_ok w n = true) as E by (apply Hp, list_elem_of_In, elem_of_seqZ; lia).
  unfold pad_ok in E. rewrite !andb_true_iff, !bool_decide_eq_true in E. tauto.
Qed.
Lemma pad_four n : 0 ≤ n < 10000 → all_digits (pad 4 n) = true ∧ parse_i32 (pad 4 n) = Some n ∧ pad 4 n ≠ EmptyString.
Proof. apply pad_checked. vm_compute. reflexivity. Qed.
Lemma pad_two n : 0 ≤ n < 100 → all_digits (pad 2 n) = true ∧ parse_i32 (pad 2 n) = Some n ∧ pad 2 n ≠ EmptyString.
Proof. apply pad_checked. vm_compute. reflexivity. Qed.
Lemma digits_char c s : all_digits s = true → digit_value c = None → has_char c s = false.
Proof.
  intros Hs Hc. induction s as [|d s IH]; [done|]. cbn [all_digits] in Hs. apply andb_true_iff in Hs as [Hd%bool_decide_eq_true Hs].
  cbn [has_char]. destruct (ascii_dec d c) as [->|_]; [rewrite Hc in Hd; by destruct Hd|]. by apply IH.
Qed.

Lemma iso_char c d : iso_fits d → digit_value c = None → c ≠ "-"%char → has_char c (iso_text d) = false.
Proof.
  intros (Hy & Hm & Hd) Hc Hdash. destruct (pad_four _ Hy) as (Dy & _), (pad_two _ Hm) as (Dm & _), (pad_two _ Hd) as (Dd & _).
  assert (has_char c "-" = false) as Hs by (cbn [has_char]; destruct (ascii_dec "-" c) as [E|_]; [by destruct Hdash|done]).
  unfold iso_text. cbn [join_with]. by rewrite !has_char_append, Hs, !digits_char.
Qed.
Lemma iso_read d : iso_fits d → read_any_date (iso_text d) = Some d.
Proof.
  intros Hf. pose proof Hf as (Hy & Hm & Hd). destruct (pad_four _ Hy) as (Dy & Py & _), (pad_two _ Hm) as (Dm & Pm & _), (pad_two _ Hd) as (Dd & Pd & _).
  assert (read_date (iso_text d) = None) as E.
  { unfold read_date, read_date_by, read_ints. rewrite split_on_none by (by apply iso_char). cbn [mapM].
    destruct (parse_i32 (iso_text d)); done. }
  unfold read_any_date. rewrite E. unfold read_date_by, read_ints, iso_text.
  rewrite split_join; [|done|forall_list; by apply digits_char]. cbn [mapM]. rewrite Py, Pm, Pd. cbn. by destruct d.
Qed.
Lemma iso_head d : iso_fits d → ∃ x s, iso_text d = String x s ∧ x ≠ "Z"%char.
Proof.
  intros (Hy & _). destruct (pad_four _ Hy) as (Dy & _ & Hne). unfold iso_text. cbn [join_with].
  destruct (pad 4 (year d)) as [|x s]; [done|]. cbn [all_digits] in Dy. apply andb_true_iff in Dy as [Dx%bool_decide_eq_true _].
  rewrite append_cons. eexists _, _. split; [done|]. intros ->. by destruct Dx.
Qed.

#[export] Instance gregorian_texts : @JiffTexts gregorian.
Proof.
  split.
  - cbn. intros v t. destruct (strip_sign "Z" v) as [s|]; cbn [mbind option_bind]; [|done]. intros Hp.
    apply parse_i32_bounds in Hp. split; [by apply parse_i32_show|]. cbn [has_char]. by apply show_int_chars.
  - cbn. intros v c. unfold read_civil at 1. destruct (split_once "T" v) as [[a b]|]; cbn [mbind option_bind fst snd]; [|done].
    destruct (read_date a) as [d|] eqn:Ed; cbn [mbind option_bind]; [|done].
    destruct (read_ints ":" b) as [l|] eqn:El; cbn [mbind option_bind]; [|done]. apply read_ints_small in El.
    destruct l as [|h [|m [|x [|n [|? ?]]]]]; try done. intros [= <-]. unfold read_civil, civil_text.
    rewrite split_once_none by (by apply ints_char). cbn [mbind option_bind fst snd date].
    rewrite (read_date_text _ _ Ed). cbn [mbind option_bind time hour minute second nanosecond]. by rewrite read_show_ints.
  - intros v d. cbn [parse_date show_date gregorian]. unfold any_date_text. case_decide; [by intros _; apply iso_read|apply read_any_date_text].
  - intros c. cbn [parse_timestamp show_civil gregorian]. unfold civil_text.
    destruct (date_text_head (date c)) as (x & s & -> & Hx). rewrite append_cons. by apply not_instant.
  - intros c t. cbn [parse_timestamp show_civil gregorian]. unfold civil_text.
    destruct (date_text_head (date c)) as (x & s & -> & Hx). rewrite !append_cons. by apply not_instant.
  - intros d. cbn [parse_timestamp show_date gregorian]. unfold any_date_text. case_decide.
    + destruct (iso_head d) as (x & s & -> & Hx); [done|]. by apply not_instant.
    + destruct (date_text_head d) as (x & s & -> & Hx). by apply not_instant.
  - intros c. cbn. unfold civil_text. rewrite !has_char_append. unfold date_text.
    split; [apply orb_true_iff; by right|]. split; rewrite ints_char by done; cbn [orb has_char]; by apply ints_char.
  - intros d. cbn [show_date gregorian]. unfold any_date_text. case_decide; [split_and!; by apply iso_char|].
    unfold date_text. split_and!; by apply ints_char.
Qed.

(** ** Rules and times on it *)

Lemma rrule_text_roundtrip_witness :
  let body := "INTERVAL=02;FREQ=WEEKLY;BYDAY=MO,XX;;BYDAY=FR;COUNT=+10;UNTIL=2026/3/8T2:30:0:0[Mars/Base]"%string in
  let r := mkRRule Weekly 2 [Mo; DayUnknown "XX"; Fr] [] [] [] (Some 10)
    (Some (Zoned (mkDateTime (mkDate 2026 3 8) (mkTime 2 30 0 0)) "Mars/Base")) None ∅ in
  rrule_parse body = Ok r ∧
  to_rfc5545 r = "FREQ=WEEKLY;INTERVAL=2;BYDAY=MO,XX,FR;COUNT=10;UNTIL=2026/3/8T2:30:0:0[Mars/Base]"%string ∧
  rrule_parse (to_rfc5545 r) = Ok r.
Proof.
  cbv zeta. split; [reflexivity|]. split; [reflexivity|].
  apply (rrule_text_roundtrip "INTERVAL=02;FREQ=WEEKLY;BYDAY=MO,XX;;BYDAY=FR;COUNT=+10;UNTIL=2026/3/8T2:30:0:0[Mars/Base]").
  reflexivity.
Defined.

(** A kind of a later build, with one field, beside a zoned time. *)
Definition demo_fields : gmap string Value := {[ "span"%string := Text "PT1H" ]}.
Definition demo_encode (raw : gmap string Value) : list Z := if decide (raw = demo_fields) then [161; 7] else [].
Definition demo_decode (b : list Z) : option (gmap string Value) := if decide (b = [161; 7]) then Some demo_fields else None.

Lemma parts_roundtrip_witness :
  encode_raw_sidecar demo_encode demo_fields = "cbor:a107"%string ∧
  (let '(ms, kind, tz) := to_parts demo_encode (Unknown "window" demo_fields) in
   from_parts demo_decode ms kind tz (civil_part (Unknown "window" demo_fields)) = Unknown "window" demo_fields) ∧
  let t := Zoned (mkDateTime (mkDate 2026 3 8) (mkTime 2 30 0 0)) "Mars/Base" in
  let '(ms, kind, tz) := to_parts demo_encode t in
  from_parts demo_decode ms kind tz (civil_part t) = t.
Proof.
  split; [vm_compute; reflexivity|]. split.
  - apply (parts_roundtrip demo_encode demo_decode (Unknown "window" demo_fields)). split.
    + apply (bool_decide_unpack _). vm_compute. exact I.
    + split; [apply (bool_decide_unpack _); vm_compute; exact I|]. unfold demo_encode, demo_decode.
      rewrite decide_True by reflexivity. rewrite decide_True by reflexivity. reflexivity.
  - apply (parts_roundtrip demo_encode demo_decode (Zoned (mkDateTime (mkDate 2026 3 8) (mkTime 2 30 0 0)) "Mars/Base")).
    reflexivity.
Defined.

(** Two instants a nanosecond apart are different and tie in storage's order. *)
Lemma storage_order_ties_distinct_values :
  Instant 1 ≠ Instant 2 ∧ storage_cmp demo_encode (Instant 1) (Instant 2) = Eq.
Proof. split; [done|]. by vm_compute. Qed.
