(* ===== verification/RoutineGen.v ===== *)
(** * Expanding a recurrence rule (sunrise-domain: routine_gen.rs)

    The periods of a rule, the dates each one proposes, BYSETPOS, the bound of
    UNTIL, the scan of [expand] over a window, and the keys and ids of
    occurrences. *)

From Stdlib Require Import ZArith Lia String Ascii.
From stdpp Require Import base tactics decidable option list sorting strings.
From S2P Require Import Prelude Bytes Calendar SunriseTime Rrule.
Open Scope Z_scope.

Definition MAX_PERIODS : nat := Z.to_nat 100000.

Record Occurrence := mkOccurrence { occ_key : string; occ_civil : DateTime; occ_at : Z }.
Inductive ExpandError := WindowTooLarge | InvalidTimeZone (tz : string).

Definition format_key (d : Date) (tod : Time) : string :=
  String.append (pad 4 (year d)) (String "-" (String.append (pad 2 (month d)) (String "-" (String.append (pad 2 (day d))
    (String "T" (String.append (pad 2 (hour tod)) (String ":" (pad 2 (minute tod))))))))).

(** [slice::dedup], of neighbours. *)
Fixpoint dedup (l : list Date) : list Date :=
  match l with
  | [] => []
  | d :: l' =>
      match dedup l' with
      | [] => [d]
      | e :: l'' => if decide (d = e) then e :: l'' else d :: e :: l''
      end
  end.

Definition date_le (a b : Date) : Prop := a ≼ b.
#[export] Instance date_le_dec : RelDecision date_le.
Proof. intros a b. unfold date_le. apply _. Defined.
Definition sorted_dates (l : list Date) : list Date := dedup (isort date_le l).

(** [dates[u]] for the positions asked for, in their order. *)
Definition set_pos_index (n pos : Z) : option Z :=
  let idx := if decide (0 < pos) then Some (pos - 1) else if decide (pos < 0) then Some (n + pos) else None in
  i ← idx; if decide (0 ≤ i < n) then Some i else None.
Definition apply_setpos (dates : list Date) (setpos : list Z) : list Date :=
  match setpos with
  | [] => dates
  | _ =>
      let n := Z.min (Z.of_nat (length dates)) i32_max in
      sorted_dates (omap (λ pos, i ← set_pos_index n pos; dates !! Z.to_nat i) setpos)
  end.

Section expand.
Context `{Jiff}.

(** Rust's [%] keeps the sign of its left operand. *)
Definition week_start (d : Date) (wkst : Z) : Date :=
  let back := Z.rem (Z.rem (weekday d - wkst) 7 + 7) 7 in
  default d (checked_add d SpanDays (- back)).

Definition matches_bymonth (d : Date) (r : RRule) : bool :=
  bool_decide (by_month r = []) || bool_decide (month d ∈ by_month r).
Definition matches_byday (d : Date) (r : RRule) : bool :=
  match by_day r with
  | [] => true
  | l => existsb (λ w, bool_decide (to_jiff w = Some (weekday d))) l
  end.
Definition matches_bymonthday (d : Date) (r : RRule) : bool :=
  match by_month_day r with
  | [] => true
  | l => existsb (λ v, if decide (0 < v) then bool_decide (day d = v)
                       else if decide (v < 0) then bool_decide (day d = days_in_month d + 1 + v) else false) l
  end.

Definition span_add (d : Date) (u : SpanUnit) (n : Z) : option Date :=
  if span_fits u n then checked_add d u n else None.

Definition in_i16 (y : Z) : bool := bool_decide (-32768 ≤ y ≤ 32767).

Definition period_start_date (r : RRule) (anchor_date : Date) (wkst : Z) (p interval : Z) : option Date :=
  match freq r with
  | Daily => span_add anchor_date SpanDays (p * interval)
  | Weekly => span_add (week_start anchor_date wkst) SpanWeeks (p * interval)
  | Monthly => span_add (first_of_month anchor_date) SpanMonths (p * interval)
  | Yearly => let y := year anchor_date + p * interval in if in_i16 y then date_new y 1 1 else None
  | FreqUnknown _ => None
  end.

Definition month_day_ok (r : RRule) (d : Date) : bool :=
  match by_month_day r, by_day r with
  | _ :: _, _ :: _ => matches_bymonthday d r && matches_byday d r
  | _ :: _, [] => matches_bymonthday d r
  | [], _ :: _ => matches_byday d r
  | [], [] => true
  end.

Definition month_candidates (r : RRule) (anchor_date first : Date) : list Date :=
  let dim := days_in_month first in
  match by_month_day r, by_day r with
  | [], [] =>
      if decide (day anchor_date ≤ dim) then
        match date_new (year first) (month first) (day anchor_date) with
        | Some d => if matches_bymonth d r then [d] else []
        | None => []
        end
      else []
  | _, _ =>
      omap (λ i, d ← date_new (year first) (month first) i; if month_day_ok r d && matches_bymonth d r then Some d else None)
        (seqZ 1 dim)
  end.

Definition weekday_ok (r : RRule) (anchor_date d : Date) : bool :=
  match by_day r with
  | [] => bool_decide (weekday d = weekday anchor_date)
  | _ => matches_byday d r
  end.

Definition period_candidates (r : RRule) (anchor_date : Date) (wkst p interval : Z) : list Date :=
  match freq r with
  | Daily =>
      match span_add anchor_date SpanDays (p * interval) with
      | Some d => if matches_bymonth d r && matches_byday d r && matches_bymonthday d r then [d] else []
      | None => []
      end
  | Weekly =>
      match span_add (week_start anchor_date wkst) SpanWeeks (p * interval) with
      | Some ws =>
          omap (λ i, d ← checked_add ws SpanDays i;
                     if weekday_ok r anchor_date d && matches_bymonth d r && matches_bymonthday d r then Some d else None)
            (seqZ 0 7)
      | None => []
      end
  | Monthly =>
      match span_add (first_of_month anchor_date) SpanMonths (p * interval) with
      | Some first => month_candidates r anchor_date first
      | None => []
      end
  | Yearly =>
      let y := year anchor_date + p * interval in
      if in_i16 y then
        let months := match by_month r with
          | [] => [month anchor_date]
          | l => filter (λ m, m ≤ 127) l
          end in
        months ≫= λ m, match date_new y m 1 with Some first => month_candidates r anchor_date first | None => [] end
      else []
  | FreqUnknown _ => []
  end.

(** ** UNTIL and [ends_at] *)

Definition same_zone (a b : TimeZone) (around : Z) : bool :=
  if tz_eqb a b then true
  else
    let span := 20 * 366 * 24 * 60 * 60 * 1000000000 in
    let from := Z.max timestamp_min (around - span) in
    let until := Z.min timestamp_max (around + span) in
    bool_decide (to_offset a from = to_offset b from) && bool_decide (following a from until = following b from until).

Definition within_bound (bound : SunriseTime) (civil : DateTime) (at_ : Z) (tz : TimeZone) : option bool :=
  let by_instant := end_ ← resolve_in bound tz; Some (bool_decide (at_ ≤ end_)) in
  match bound with
  | Floating c => Some (bool_decide (civil ≼ c))
  | AllDay d => Some (bool_decide (date civil ≼ d))
  | Zoned c name =>
      match tz_get name with
      | Some z => if same_zone z tz at_ then Some (bool_decide (civil ≼ c)) else by_instant
      | None => by_instant
      end
  | _ => by_instant
  end.

(** ** The scan *)

Section scan.
Context (r : RRule) (anchor : DateTime) (tz : TimeZone) (window : Z * Z).

Definition past_until (dt : DateTime) (inst : Z) : bool :=
  match until r with
  | Some u => negb (default false (within_bound u dt inst tz))
  | None => false
  end.
Definition count_reached (count_seen : Z) : bool :=
  match count r with Some c => bool_decide (c ≤ count_seen) | None => false end.
Definition in_window (inst : Z) : bool := bool_decide (window.1 ≤ inst < window.2).

(** The dates of one period: the count seen, whether the scan is over, and
    the occurrences kept. *)
Fixpoint scan_dates (dates : list Date) (count_seen : Z) (out : list Occurrence) : Z * bool * list Occurrence :=
  match dates with
  | [] => (count_seen, false, out)
  | d :: dates' =>
      if decide (d ≺ date anchor) then scan_dates dates' count_seen out
      else
        let dt := mkDateTime d (time anchor) in
        match to_timestamp tz dt with
        | None => scan_dates dates' count_seen out
        | Some inst =>
            if past_until dt inst then (count_seen, true, out)
            else if count_reached count_seen then (count_seen, true, out)
            else scan_dates dates' (count_seen + 1)
                   (if in_window inst then out ++ [mkOccurrence (format_key d (time anchor)) dt inst] else out)
        end
  end.

Definition rule_wkst : Z := default 0 (wkst r ≫= to_jiff).
Definition rule_interval : Z := Z.max (interval r) 1.
Definition period_dates (p : Z) : list Date :=
  apply_setpos (sorted_dates (period_candidates r (date anchor) rule_wkst p rule_interval)) (by_set_pos r).
Definition win_end_date : Date := default date_max (tomorrow (date (to_civil tz window.2))).

Fixpoint scan_periods (fuel : nat) (p : Z) (count_seen : Z) (out : list Occurrence) :
    result ExpandError (list Occurrence) :=
  match fuel with
  | O => Err WindowTooLarge
  | S fuel' =>
      match period_start_date r (date anchor) rule_wkst p rule_interval with
      | None => Ok out
      | Some ps =>
          if decide (win_end_date ≺ ps) then Ok out
          else
            let '(count_seen, finished, out) := scan_dates (period_dates p) count_seen out in
            if finished : bool then Ok out else scan_periods fuel' (p + 1) count_seen out
      end
  end.

Definition expand : result ExpandError (list Occurrence) :=
  if negb (is_understood r) || from_option is_unknown false (until r) then Ok []
  else scan_periods MAX_PERIODS 0 0 [].
End scan.
End expand.

(** ** Sorted dates *)

Lemma elem_of_dedup d l : d ∈ dedup l ↔ d ∈ l.
Proof.
  induction l as [|e l IH]; [done|]. cbn [dedup]. rewrite elem_of_cons, <-IH. destruct (dedup l) as [|f l'].
  - by rewrite elem_of_cons.
  - case_decide as E; rewrite !elem_of_cons; [subst|]; tauto.
Qed.

Lemma dedup_strict l : StronglySorted date_le l → StronglySorted tlt (dedup l).
Proof.
  induction 1 as [|d l Hs IH Hall]; [constructor|]. cbn [dedup].
  assert (∀ e, e ∈ dedup l → d ≼ e) as Hle by (intros e He; rewrite elem_of_dedup in He; rewrite Forall_forall in Hall; by apply Hall).
  destruct (dedup l) as [|e l'] eqn:E; [repeat constructor|]. case_decide as Hde; [done|].
  constructor; [done|]. apply StronglySorted_inv in IH as [_ He]. assert (d ≺ e) as Hlt by (apply tle_ne_tlt; [apply Hle; left|done]).
  constructor; [done|]. eapply Forall_impl; [exact He|]. intros f Hf. by eapply tlt_trans.
Qed.

Lemma elem_of_sorted_dates d l : d ∈ sorted_dates l ↔ d ∈ l.
Proof. unfold sorted_dates. by rewrite elem_of_dedup, elem_of_isort. Qed.

#[export] Instance date_le_total : Total date_le.
Proof. intros a b. apply tle_total. Qed.
#[export] Instance date_le_trans : Transitive date_le.
Proof. intros a b c. apply tle_trans. Qed.

Lemma sorted_dates_strict l : StronglySorted tlt (sorted_dates l).
Proof. apply dedup_strict. apply isort_StronglySorted; apply _. Qed.

Lemma elem_of_apply_setpos d dates sp : d ∈ apply_setpos dates sp → d ∈ dates.
Proof.
  unfold apply_setpos. destruct sp as [|pos sp]; [done|]. rewrite elem_of_sorted_dates, list_elem_of_omap.
  intros (x & _ & Hx). destruct (set_pos_index _ x) as [i|]; [|done]. by eapply list_elem_of_lookup_2.
Qed.
Lemma apply_setpos_strict dates sp : StronglySorted tlt dates → StronglySorted tlt (apply_setpos dates sp).
Proof. intros Hs. destruct sp; [done|]. apply sorted_dates_strict. Qed.

(** ** Where a period's dates lie *)

Section periods.
Context `{JiffLaws}.

Lemma week_start_back d w : 0 ≤ w < 7 → valid d →
  Z.rem (Z.rem (weekday d - w) 7 + 7) 7 = (weekday d - w) mod 7.
Proof.
  intros Hw Hd. rewrite weekday_number by done. pose proof (Z.mod_pos_bound (day_number d) 7).
  generalize dependent (day_number d mod 7). intros x Hx. Z.to_euclidean_division_equations. lia.
Qed.

Lemma week_start_valid d w : valid d → 0 ≤ w < 7 → valid (week_start d w).
Proof.
  intros Hd Hw. unfold week_start. rewrite week_start_back by done.
  destruct (checked_add d SpanDays _) as [s|] eqn:E; [|done]. cbn.
  apply add_days_spec in E as [? _]; [done|done|]. apply span_fits_week. pose proof (Z.mod_pos_bound (weekday d - w) 7). lia.
Qed.

(** The dates a period can hold, by the rule's frequency. *)
Definition in_period (r : RRule) (a : Date) (w p i : Z) (d : Date) : Prop :=
  match freq r with
  | Daily => day_number d = day_number a + p * i
  | Weekly => day_number (week_start a w) + 7 * (p * i) ≤ day_number d < day_number (week_start a w) + 7 * (p * i) + 7
  | Monthly => 12 * year d + month d = 12 * year a + month a + p * i
  | Yearly => year d = year a + p * i
  | FreqUnknown _ => False
  end.

Lemma span_add_Some d u n s : span_add d u n = Some s ↔ span_fits u n = true ∧ checked_add d u n = Some s.
Proof. unfold span_add. destruct (span_fits u n); naive_solver. Qed.

Lemma period_start_spec r a w p i s :
  valid a → 0 ≤ w < 7 → period_start_date r a w p i = Some s →
  valid s ∧ in_period r a w p i s ∧ ∀ d, valid d → in_period r a w p i d → s ≼ d.
Proof.
  intros Ha Hw. unfold period_start_date, in_period. destruct (freq r).
  - rewrite span_add_Some. intros [Hf Hs]. apply add_days_spec in Hs as [Hv Hn]; [|done..]. split; [done|]. split; [done|].
    intros d Hd Hdn. apply day_number_le; [done..|lia].
  - rewrite span_add_Some. intros [Hf Hs]. apply add_weeks_spec in Hs as [Hv Hn]; [|by apply week_start_valid|done].
    split; [done|]. split; [lia|]. intros d Hd Hdn. apply day_number_le; [done..|lia].
  - rewrite span_add_Some, first_of_month_eq. intros [Hf Hs]. destruct Ha as (Hy & Hm & _).
    apply add_months_spec in Hs as (Hv & Hday & Hi); [|by apply valid_first|done|done]. cbn [year month] in Hi.
    split; [done|]. split; [done|]. intros d Hd Hdi. apply tle_not_tlt. rewrite Date_lt. destruct Hd as (? & ? & ?), Hv as (? & ? & ?). lia.
  - destruct (in_i16 _); [|done]. intros Hs. apply date_new_spec in Hs as [-> Hv]. split; [done|]. split; [done|].
    intros d Hd Hdi. apply tle_not_tlt. rewrite Date_lt. cbn [year month day]. destruct Hd as (? & ? & ?). lia.
  - done.
Qed.

Lemma month_candidates_spec r a first d :
  valid first → d ∈ month_candidates r a first → valid d ∧ year d = year first ∧ month d = month first.
Proof.
  intros Hf. unfold month_candidates.
  assert (∀ l : list Z, d ∈ (omap (λ i, d ← date_new (year first) (month first) i;
      if month_day_ok r d && matches_bymonth d r then Some d else None) l : list Date) → valid d ∧ year d = year first ∧ month d = month first) as Homap.
  { intros l (i & _ & Hi)%list_elem_of_omap. destruct (date_new _ _ i) as [e|] eqn:E; [|done]. cbn [mbind option_bind] in Hi.
    destruct (_ && _); [|done]. injection Hi as ->. apply date_new_spec in E as [-> ?]. done. }
  destruct (by_month_day r), (by_day r); try apply Homap. case_decide; [|by intros ?%not_elem_of_nil].
  destruct (date_new _ _ _) as [e|] eqn:E; [|by intros ?%not_elem_of_nil].
  destruct (matches_bymonth e r); [|by intros ?%not_elem_of_nil]. intros ->%list_elem_of_singleton.
  apply date_new_spec in E as [-> ?]. done.
Qed.

Lemma period_candidates_spec r a w p i d :
  valid a → 0 ≤ w < 7 → d ∈ period_candidates r a w p i →
  valid d ∧ in_period r a w p i d ∧ is_Some (period_start_date r a w p i).
Proof.
  intros Ha Hw. unfold period_candidates, in_period, period_start_date. destruct (freq r).
  - destruct (span_add a SpanDays (p * i)) as [s|] eqn:E; [|by intros ?%not_elem_of_nil].
    destruct (_ && _); [|by intros ?%not_elem_of_nil]. intros ->%list_elem_of_singleton.
    apply span_add_Some in E as [Hf E]. apply add_days_spec in E as [? ?]; [|done..]. eauto.
  - destruct (span_add _ SpanWeeks (p * i)) as [s|] eqn:E; [|by intros ?%not_elem_of_nil].
    intros (k & Hk & Hd)%list_elem_of_omap. apply elem_of_seqZ in Hk.
    destruct (checked_add s SpanDays k) as [e|] eqn:Ek; [|done]. cbn [mbind option_bind] in Hd. destruct (_ && _); [|done].
    injection Hd as ->. apply span_add_Some in E as [Hf E]. apply add_weeks_spec in E as [Hv Hn]; [|by apply week_start_valid|done].
    apply add_days_spec in Ek as [Hv' Hn']; [|done|apply span_fits_week; lia]. split; [done|]. split; [lia|eauto].
  - destruct (span_add _ SpanMonths (p * i)) as [s|] eqn:E; [|by intros ?%not_elem_of_nil].
    apply span_add_Some in E as [Hf E]. rewrite first_of_month_eq in E. destruct Ha as (Hy & Hm & _).
    apply add_months_spec in E as (Hv & Hday & Hi); [|by apply valid_first|done|done]. cbn [year month] in Hi. intros Hd.
    apply month_candidates_spec in Hd as (Hdv & -> & ->); [|done]. split; [done|]. split; [done|eauto].
  - destruct (in_i16 _); [|by intros ?%not_elem_of_nil]. intros (m & Hd & _)%list_elem_of_bind.
    destruct (date_new _ m 1) as [first|] eqn:E; [|by apply not_elem_of_nil in Hd]. apply date_new_spec in E as [-> Hv].
    apply month_candidates_spec in Hd as (Hdv & Hy & _); [|done]. cbn [year] in Hy. split; [done|]. split; [done|].
    exists (mkDate (year a + p * i) 1 1). apply date_new_spec. split; [done|]. apply valid_first; [apply Hv|lia].
  - by intros ?%not_elem_of_nil.
Qed.

Lemma in_period_lt r a w p q i d e :
  valid d → valid e → p < q → 1 ≤ i → in_period r a w p i d → in_period r a w q i e → d ≺ e.
Proof.
  intros Hd He Hpq Hi. assert (p * i + 1 ≤ q * i) by nia. unfold in_period. destruct (freq r).
  - intros. apply day_number_lt; [done..|lia].
  - intros. apply day_number_lt; [done..|lia].
  - intros. apply Date_lt. destruct Hd as (? & ? & ?), He as (? & ? & ?). lia.
  - intros. apply Date_lt. lia.
  - done.
Qed.
End periods.

(** ** The series: every occurrence of a rule, without a window *)

Fixpoint take_while {A} (P : A → bool) (l : list A) : list A :=
  match l with
  | [] => []
  | x :: l' => if P x then x :: take_while P l' else []
  end.

Section series.
Context `{Jiff} (r : RRule) (anchor : DateTime) (tz : TimeZone).

(** The dates the first [n] periods from [p] propose, until a period has no
    start. *)
Fixpoint series_dates (n : nat) (p : Z) : list Date :=
  match n with
  | O => []
  | S n' =>
      match period_start_date r (date anchor) (rule_wkst r) p (rule_interval r) with
      | None => []
      | Some _ => period_dates r anchor p ++ series_dates n' (p + 1)
      end
  end.

(** The occurrence of a date, from the anchor on. *)
Definition place (d : Date) : option Occurrence :=
  if decide (d ≺ date anchor) then None
  else (λ inst, mkOccurrence (format_key d (time anchor)) (mkDateTime d (time anchor)) inst) <$>
         to_timestamp tz (mkDateTime d (time anchor)).

Definition before_until (o : Occurrence) : bool := negb (past_until r tz (occ_civil o) (occ_at o)).
Definition counted (n : Z) (l : list Occurrence) : list Occurrence :=
  match count r with Some c => take (Z.to_nat (c - n)) l | None => l end.

(** COUNT from the anchor, then UNTIL. *)
Definition the_series (n : nat) : list Occurrence :=
  take_while before_until (counted 0 (omap place (series_dates n 0))).
End series.

Lemma take_while_app {A} (P : A → bool) l1 l2 :
  take_while P (l1 ++ l2) = if forallb P l1 then l1 ++ take_while P l2 else take_while P l1.
Proof.
  induction l1 as [|x l1 IH]; [done|]. cbn [app take_while forallb]. destruct (P x); [|done]. cbn [andb]. rewrite IH.
  by destruct (forallb P l1).
Qed.
Lemma elem_of_take_while {A} (P : A → bool) l x : x ∈ take_while P l → x ∈ l ∧ P x = true.
Proof.
  induction l as [|y l IH]; [by intros ?%not_elem_of_nil|]. cbn [take_while]. destruct (P y) eqn:E; [|by intros ?%not_elem_of_nil].
  rewrite !elem_of_cons. intros [->|Hx]; [tauto|]. destruct (IH Hx). tauto.
Qed.

Section scan_facts.
Context `{JiffLaws} (r : RRule) (anchor : DateTime) (tz : TimeZone) (window : Z * Z).
Hypothesis anchor_valid : valid (date anchor).

Definition kept (o : Occurrence) : Prop := in_window window (occ_at o) = true.
#[export] Instance kept_dec o : Decision (kept o).
Proof. unfold kept. apply _. Defined.

(** What is left of the series when [n] occurrences have been counted. *)
Definition rest_of (n : Z) (l : list Occurrence) : list Occurrence := take_while (before_until r tz) (counted r n l).

Lemma counted_cons n o l :
  counted r n (o :: l) = if count_reached r n then [] else o :: counted r (n + 1) l.
Proof.
  unfold counted, count_reached. destruct (count r) as [c|]; [|done]. case_bool_decide as E.
  - by replace (Z.to_nat (c - n)) with 0%nat by lia.
  - replace (Z.to_nat (c - n)) with (S (Z.to_nat (c - (n + 1)))) by lia. done.
Qed.

(** One period: the scan adds what the series has in the window, and when it
    ends there the series ends there too. *)
Lemma scan_dates_spec dates n out more :
  let '(n', finished, out') := scan_dates r anchor tz window dates n out in
  out ++ filter kept (rest_of n (omap (place anchor tz) dates ++ more)) =
    out' ++ (if finished : bool then [] else filter kept (rest_of n' more)).
Proof.
  revert n out. induction dates as [|d dates IH]; intros n out; cbn [scan_dates].
  { cbn [omap list_omap app]. done. }
  cbn [omap list_omap]. unfold place at 1. case_decide; [apply IH|].
  destruct (to_timestamp tz (mkDateTime d (time anchor))) as [inst|]; cbn [fmap option_fmap option_map]; [|apply IH].
  unfold rest_of at 1. cbn [app]. rewrite counted_cons.
  destruct (past_until r tz (mkDateTime d (time anchor)) inst) eqn:Hu.
  { destruct (count_reached r n); cbn [take_while]; [by rewrite filter_nil|]. unfold before_until at 1. cbn [occ_civil occ_at].
    rewrite Hu. cbn [negb]. by rewrite filter_nil. }
  destruct (count_reached r n); [cbn [take_while]; by rewrite filter_nil|]. cbn [take_while].
  unfold before_until at 1. cbn [occ_civil occ_at]. rewrite Hu. cbn [negb].
  specialize (IH (n + 1) (if in_window window inst then out ++ [mkOccurrence (format_key d (time anchor)) (mkDateTime d (time anchor)) inst] else out)).
  destruct (scan_dates r anchor tz window dates (n + 1) _) as [[n' finished] out'].
  rewrite <-IH, filter_cons. set (o := mkOccurrence _ _ _) in *. destruct (decide (kept o)) as [Hk|Hk]; unfold kept in Hk; cbn in Hk.
  - rewrite Hk. by rewrite <-(assoc_L app).
  - apply not_true_is_false in Hk. by rewrite Hk.
Qed.

Lemma rule_wkst_bounds : 0 ≤ rule_wkst r < 7.
Proof. unfold rule_wkst. destruct (wkst r) as [[| | | | | | |]|]; cbn; lia. Qed.
Lemma rule_interval_pos : 1 ≤ rule_interval r.
Proof. unfold rule_interval. lia. Qed.

Lemma period_dates_spec p d :
  d ∈ period_dates r anchor p →
  valid d ∧ in_period r (date anchor) (rule_wkst r) p (rule_interval r) d ∧
  is_Some (period_start_date r (date anchor) (rule_wkst r) p (rule_interval r)).
Proof.
  unfold period_dates. intros Hd%elem_of_apply_setpos. rewrite elem_of_sorted_dates in Hd.
  pose proof rule_wkst_bounds. by apply period_candidates_spec.
Qed.

Lemma series_dates_spec n p d : d ∈ series_dates r anchor n p → ∃ q, p ≤ q < p + Z.of_nat n ∧ d ∈ period_dates r anchor q.
Proof.
  revert p. induction n as [|n IH]; intros p; cbn [series_dates]; [by intros ?%not_elem_of_nil|].
  destruct (period_start_date _ _ _ _ _); [|by intros ?%not_elem_of_nil]. intros [Hd|Hd]%elem_of_app.
  - exists p. split; [lia|done].
  - apply IH in Hd as (q & Hq & Hd). exists q. split; [lia|done].
Qed.

Lemma place_Some d o : place anchor tz d = Some o → ¬ d ≺ date anchor ∧
  o = mkOccurrence (format_key d (time anchor)) (mkDateTime d (time anchor)) (occ_at o) ∧
  to_timestamp tz (mkDateTime d (time anchor)) = Some (occ_at o).
Proof. unfold place. case_decide; [done|]. intros (t & Ht & ->)%fmap_Some. done. Qed.

(** A period starting past the window's end holds nothing inside it, and
    neither does any later one. *)
Lemma late_not_kept n p s o :
  period_start_date r (date anchor) (rule_wkst r) p (rule_interval r) = Some s → win_end_date tz window ≺ s →
  o ∈ omap (place anchor tz) (series_dates r anchor n p) → ¬ kept o.
Proof.
  intros Hs Hlate Ho Hk. apply list_elem_of_omap in Ho as (d & Hd & Ho). apply series_dates_spec in Hd as (q & Hq & Hd).
  apply period_dates_spec in Hd as (Hv & Hin & _). apply place_Some in Ho as (_ & _ & Ht).
  destruct (period_start_spec r (date anchor) (rule_wkst r) p (rule_interval r) s anchor_valid rule_wkst_bounds Hs) as (Hsv & Hsin & Hfirst).
  assert (s ≼ d) as Hsd.
  { destruct (decide (q = p)) as [->|Hne]; [by apply Hfirst|]. apply tlt_tle.
    apply (in_period_lt r (date anchor) (rule_wkst r) p q (rule_interval r)); try done; [lia|apply rule_interval_pos]. }
  unfold kept, in_window in Hk. apply bool_decide_eq_true in Hk as [_ Hk].
  apply (placed_within_a_day tz _ _ window.2) in Ht; [|done|done]. cbn [date] in Ht.
  pose proof (to_civil_valid tz window.2) as Hcv. set (c := date (to_civil tz window.2)) in *.
  unfold win_end_date in Hlate. fold c in Hlate. destruct (tomorrow c) as [t|] eqn:Et; cbn in Hlate.
  - apply tomorrow_spec in Et as [Htv Htn]; [|done]. apply day_number_lt in Hlate; [|done..].
    apply day_number_le in Hsd; [|done..]. lia.
  - pose proof (date_max_greatest s Hsv) as Hmax. exact (Hmax Hlate).
Qed.

Lemma elem_of_rest_of n o l : o ∈ rest_of n l → o ∈ l.
Proof.
  unfold rest_of, counted. intros [Ho _]%elem_of_take_while. destruct (count r); [|done].
  apply elem_of_take in Ho as (i & Hi & _). by eapply list_elem_of_lookup_2.
Qed.

Lemma scan_periods_spec fuel p n out out' k :
  scan_periods r anchor tz window fuel p n out = Ok out' → (fuel ≤ k)%nat →
  out' = out ++ filter kept (rest_of n (omap (place anchor tz) (series_dates r anchor k p))).
Proof.
  revert p n out k. induction fuel as [|fuel IH]; intros p n out k; [done|]. cbn [scan_periods].
  destruct k as [|k]; [lia|]. intros Hscan Hk. cbn [series_dates].
  destruct (period_start_date r (date anchor) (rule_wkst r) p (rule_interval r)) as [s|] eqn:Hs.
  2:{ injection Hscan as <-. cbn [omap list_omap]. unfold rest_of, counted. destruct (count r); [rewrite take_nil|];
      cbn [take_while]; by rewrite filter_nil, app_nil_r. }
  case_decide as Hlate.
  { injection Hscan as <-. rewrite filter_none; [by rewrite app_nil_r|]. intros o Ho. apply elem_of_rest_of in Ho.
    apply (late_not_kept (S k) p s o Hs Hlate). cbn [series_dates]. by rewrite Hs. }
  rewrite omap_app. pose proof (scan_dates_spec (period_dates r anchor p) n out
    (omap (place anchor tz) (series_dates r anchor k (p + 1)))) as Hspec.
  destruct (scan_dates r anchor tz window (period_dates r anchor p) n out) as [[n' finished] out1].
  rewrite Hspec. destruct finished.
  - injection Hscan as <-. by rewrite app_nil_r.
  - apply (IH (p + 1)); [done|lia].
Qed.

Lemma expand_spec out n :
  expand r anchor tz window = Ok out → (MAX_PERIODS ≤ n)%nat →
  out = if is_understood r && negb (from_option is_unknown false (until r))
        then filter kept (the_series r anchor tz n) else [].
Proof.
  unfold expand. destruct (is_understood r); cbn [negb orb andb]; [|by intros [= <-]].
  destruct (from_option is_unknown false (until r)); cbn [negb]; [by intros [= <-]|].
  intros Hscan Hn. rewrite (scan_periods_spec _ _ _ _ _ n Hscan Hn). done.
Qed.

(** *** The series ascends *)

Lemma series_dates_strict n p : StronglySorted tlt (series_dates r anchor n p).
Proof.
  revert p. induction n as [|n IH]; intros p; cbn [series_dates]; [constructor|].
  destruct (period_start_date _ _ _ _ _) as [s|]; [|constructor]. apply StronglySorted_app_2; [| |apply IH].
  - intros d e Hd (q & Hq & He)%series_dates_spec.
    apply period_dates_spec in Hd as (Hdv & Hd & _), He as (Hev & He & _).
    apply (in_period_lt r (date anchor) (rule_wkst r) p q (rule_interval r)); try done; [lia|apply rule_interval_pos].
  - apply apply_setpos_strict, sorted_dates_strict.
Qed.

Definition occ_before (o o' : Occurrence) : Prop := occ_civil o ≺ occ_civil o'.

Lemma place_strict l : StronglySorted tlt l → StronglySorted occ_before (omap (place anchor tz) l).
Proof.
  induction 1 as [|d l _ IH Hall]; [constructor|]. cbn [omap list_omap]. destruct (place anchor tz d) as [o|] eqn:E; [|done].
  constructor; [done|]. apply Forall_forall. intros o' (e & He & Ho')%list_elem_of_omap. rewrite Forall_forall in Hall.
  apply place_Some in E as (_ & -> & _), Ho' as (_ & -> & _). unfold occ_before. cbn [occ_civil]. specialize (Hall e He).
  change (mkDateTime d (time anchor) ≺ mkDateTime e (time anchor)) with ((d, time anchor) ≺ (e, time anchor)).
  apply prod_tlt. by left.
Qed.

Lemma take_while_sublist {A} (P : A → bool) l : take_while P l `sublist_of` l.
Proof. induction l as [|x l IH]; cbn [take_while]; [done|]. destruct (P x); [by constructor|apply sublist_nil_l]. Qed.
Lemma the_series_strict n : StronglySorted occ_before (the_series r anchor tz n).
Proof.
  eapply StronglySorted_sublist; [apply take_while_sublist|]. unfold counted.
  destruct (count r); [eapply StronglySorted_sublist; [apply sublist_take|]|]; apply place_strict, series_dates_strict.
Qed.

Lemma the_series_sound n o :
  o ∈ the_series r anchor tz n →
  time (occ_civil o) = time anchor ∧ date anchor ≼ date (occ_civil o) ∧ valid (date (occ_civil o)) ∧
  occ_key o = format_key (date (occ_civil o)) (time anchor) ∧ to_timestamp tz (occ_civil o) = Some (occ_at o) ∧
  from_option (λ u, within_bound u (occ_civil o) (occ_at o) tz = Some true) True (until r).
Proof.
  unfold the_series. intros [Ho Hu]%elem_of_take_while.
  assert (o ∈ omap (place anchor tz) (series_dates r anchor n 0)) as Hin.
  { unfold counted in Ho. destruct (count r); [|done]. apply elem_of_take in Ho as (k & Hk & _). by eapply list_elem_of_lookup_2. }
  apply list_elem_of_omap in Hin as (d & Hd & Hp). apply series_dates_spec in Hd as (q & _ & Hd).
  apply period_dates_spec in Hd as (Hv & _). apply place_Some in Hp as (Ha & Heq & Ht). rewrite Heq. cbn [occ_civil occ_key occ_at date time].
  rewrite Heq in Hu. unfold before_until, past_until in Hu. cbn [occ_civil occ_at] in Hu. split_and!; try done.
  destruct (until r) as [u|]; [|done]. cbn. destruct (within_bound u _ _ tz) as [[]|]; done.
Qed.

(** The occurrences of a window come in strictly ascending wall-clock
    order, each on a calendar date on or after the anchor's, at the anchor's
    time of day, within UNTIL, keyed by its wall clock and placed by the
    zone's rule inside the window; and with COUNT there are at most that
    many. *)
Theorem expand_ascends out :
  expand r anchor tz window = Ok out →
  StronglySorted occ_before out ∧
  (from_option (λ c, Z.of_nat (length out) ≤ Z.max 0 c) True (count r)) ∧
  ∀ o, o ∈ out →
    time (occ_civil o) = time anchor ∧ date anchor ≼ date (occ_civil o) ∧ valid (date (occ_civil o)) ∧
    occ_key o = format_key (date (occ_civil o)) (time anchor) ∧ to_timestamp tz (occ_civil o) = Some (occ_at o) ∧
    from_option (λ u, within_bound u (occ_civil o) (occ_at o) tz = Some true) True (until r) ∧
    window.1 ≤ occ_at o < window.2.
Proof.
  intros Hex. rewrite (expand_spec out MAX_PERIODS Hex) by lia. destruct (_ && _).
  2:{ split; [constructor|]. split; [by destruct (count r); cbn; [lia|]|]. by intros o ?%not_elem_of_nil. }
  split; [eapply StronglySorted_sublist; [apply sublist_filter|apply the_series_strict]|]. split.
  - unfold the_series. pose proof (length_filter kept (take_while (before_until r tz)
      (counted r 0 (omap (place anchor tz) (series_dates r anchor MAX_PERIODS 0))))) as H1.
    pose proof (sublist_length _ _ (take_while_sublist (before_until r tz)
      (counted r 0 (omap (place anchor tz) (series_dates r anchor MAX_PERIODS 0))))) as H2.
    unfold counted in H1, H2 |- *. destruct (count r) as [c|]; [|done]. cbn. rewrite length_take in H2. lia.
  - intros o [Hk Ho]%list_elem_of_filter. unfold kept, in_window in Hk. apply bool_decide_eq_true in Hk.
    destruct (the_series_sound _ _ Ho) as (? & ? & ? & ? & ? & ?). done.
Qed.

(** *** The scan ends *)

Lemma period_start_advances p s s' :
  period_start_date r (date anchor) (rule_wkst r) p (rule_interval r) = Some s →
  period_start_date r (date anchor) (rule_wkst r) (p + 1) (rule_interval r) = Some s' →
  day_number s < day_number s'.
Proof.
  intros Hs Hs'. pose proof rule_wkst_bounds as Hw. apply period_start_spec in Hs as (Hv & Hin & _), Hs' as (Hv' & Hin' & _); try done.
  apply day_number_lt; [done..|].
  apply (in_period_lt r (date anchor) (rule_wkst r) p (p + 1) (rule_interval r)); try done; [lia|apply rule_interval_pos].
Qed.

Lemma win_end_valid : valid (win_end_date tz window).
Proof.
  unfold win_end_date. pose proof (to_civil_valid tz window.2) as Hc. destruct (tomorrow _) as [t|] eqn:Et; [|apply date_max_valid].
  by apply tomorrow_spec in Et as [? _].
Qed.

Lemma scan_periods_answers fuel p n out s :
  period_start_date r (date anchor) (rule_wkst r) p (rule_interval r) = Some s →
  day_number (win_end_date tz window) < day_number s + Z.of_nat fuel →
  ∃ out', scan_periods r anchor tz window (S fuel) p n out = Ok out'.
Proof.
  revert p n out s. induction fuel as [|fuel IH]; intros p n out s Hs Hn.
  all: destruct (period_start_spec _ _ _ _ _ _ anchor_valid rule_wkst_bounds Hs) as (Hsv & _).
  all: pose proof win_end_valid as Hwv; cbn [scan_periods]; rewrite Hs; case_decide as Hlate; [by eexists|].
  { rewrite day_number_lt in Hlate by done. lia. }
  destruct (scan_dates r anchor tz window _ n out) as [[n' finished] out']. destruct finished; [by eexists|].
  destruct (period_start_date r (date anchor) (rule_wkst r) (p + 1) (rule_interval r)) as [s'|] eqn:Hs'; [|by eexists].
  pose proof (period_start_advances p s s' Hs Hs') as Hadv.
  destruct (IH (p + 1) n' out' s' Hs') as (out2 & Hout); [lia|]. exists out2. revert Hout. cbn [scan_periods]. by rewrite Hs'.
Qed.

(** Where the scan of occurrences [l], [n] counted already, is over. *)
Fixpoint stops (n : Z) (l : list Occurrence) : bool :=
  match l with
  | [] => false
  | o :: l' => negb (before_until r tz o) || count_reached r n || stops (n + 1) l'
  end.
(** A period past the calendar's end, or past the window's. *)
Definition period_past (p : Z) : Prop :=
  match period_start_date r (date anchor) (rule_wkst r) p (rule_interval r) with
  | None => True
  | Some s => win_end_date tz window ≺ s
  end.

Lemma stops_app n l1 l2 : stops n (l1 ++ l2) = stops n l1 || stops (n + Z.of_nat (length l1)) l2.
Proof.
  revert n. induction l1 as [|o l1 IH]; intros n; [by rewrite Z.add_0_r|]. cbn [app stops]. rewrite IH.
  replace (n + Z.of_nat (length (o :: l1))) with (n + 1 + Z.of_nat (length l1)) by (cbn [length]; lia). by rewrite !orb_assoc.
Qed.

Lemma scan_dates_stops dates n out :
  let '(n', finished, _) := scan_dates r anchor tz window dates n out in
  finished = stops n (omap (place anchor tz) dates) ∧
  (finished = false → n' = n + Z.of_nat (length (omap (place anchor tz) dates))).
Proof.
  revert n out. induction dates as [|d dates IH]; intros n out; cbn [scan_dates omap list_omap]; [cbn; lia|].
  assert (place anchor tz d = if decide (d ≺ date anchor) then None else
    (λ t, mkOccurrence (format_key d (time anchor)) (mkDateTime d (time anchor)) t) <$> to_timestamp tz (mkDateTime d (time anchor))) as -> by done.
  case_decide; [apply IH|].
  destruct (to_timestamp tz (mkDateTime d (time anchor))) as [inst|]; cbn [fmap option_fmap option_map]; [|apply IH].
  cbn [stops length]. unfold before_until at 1. cbn [occ_civil occ_at]. rewrite negb_involutive.
  destruct (past_until r tz _ inst); [done|]. destruct (count_reached r n); [done|]. cbn [orb].
  specialize (IH (n + 1) (if in_window window inst then out ++ [mkOccurrence (format_key d (time anchor)) (mkDateTime d (time anchor)) inst] else out)).
  destruct (scan_dates r anchor tz window dates (n + 1) _) as [[n' finished] out']. destruct IH as [-> Hn]. split; [done|].
  intros Hf. rewrite (Hn Hf). unfold omap. lia.
Qed.

(** The scan answers exactly when within its fuel it meets a period past the
    window or an occurrence it stops at. *)
Lemma scan_periods_ends fuel p n out :
  (∃ out', scan_periods r anchor tz window fuel p n out = Ok out') ↔
  ∃ q, (q < fuel)%nat ∧
    (period_past (p + Z.of_nat q) ∨ stops n (omap (place anchor tz) (series_dates r anchor (S q) p)) = true).
Proof.
  revert p n out. induction fuel as [|fuel IH]; intros p n out; [split; [by intros []|intros (? & ? & _); lia]|].
  cbn [scan_periods]. destruct (period_start_date r (date anchor) (rule_wkst r) p (rule_interval r)) as [s|] eqn:Hs.
  2:{ split; [|by eexists]. intros _. exists 0%nat. split; [lia|]. left. unfold period_past. by rewrite Z.add_0_r, Hs. }
  case_decide as Hlate.
  { split; [|by eexists]. intros _. exists 0%nat. split; [lia|]. left. unfold period_past. by rewrite Z.add_0_r, Hs. }
  pose proof (scan_dates_stops (period_dates r anchor p) n out) as Hst.
  destruct (scan_dates r anchor tz window (period_dates r anchor p) n out) as [[n' finished] out1]. destruct Hst as [Hf Hn'].
  assert (∀ k, stops n (omap (place anchor tz) (series_dates r anchor (S k) p)) =
    finished || stops (n + Z.of_nat (length (omap (place anchor tz) (period_dates r anchor p)))) (omap (place anchor tz) (series_dates r anchor k (p + 1)))) as Hser.
  { intros k. cbn [series_dates]. by rewrite Hs, omap_app, stops_app, Hf. }
  destruct finished.
  { split; [|by eexists]. intros _. exists 0%nat. split; [lia|]. right. by rewrite Hser. }
  rewrite (IH (p + 1) n' out1), Hn' by done. split.
  - intros (q & Hq & Hor). exists (S q). split; [lia|]. rewrite Hser. replace (p + Z.of_nat (S q)) with (p + 1 + Z.of_nat q) by lia. done.
  - intros ([|q] & Hq & Hor).
    + destruct Hor as [Hp|Hp]; [unfold period_past in Hp; by rewrite Z.add_0_r, Hs in Hp|]. by rewrite Hser in Hp.
    + exists q. split; [lia|]. rewrite Hser in Hor. replace (p + 1 + Z.of_nat q) with (p + Z.of_nat (S q)) by lia. done.
Qed.

Lemma expand_ends :
  is_understood r && negb (from_option is_unknown false (until r)) = true →
  (∃ out, expand r anchor tz window = Ok out) ↔
  ∃ q, (q < MAX_PERIODS)%nat ∧
    (period_past (Z.of_nat q) ∨ stops 0 (omap (place anchor tz) (series_dates r anchor (S q) 0)) = true).
Proof.
  intros [Hu Hun%negb_true_iff]%andb_true_iff. unfold expand. rewrite Hu, Hun. cbn [negb orb]. apply (scan_periods_ends MAX_PERIODS 0).
Qed.

(** A scan runs on through occurrences within UNTIL and COUNT. *)
Lemma stops_not n l :
  Forall (λ o, before_until r tz o = true) l → from_option (λ c, n + Z.of_nat (length l) ≤ c) True (count r) → stops n l = false.
Proof.
  intros Hl. revert n. induction Hl as [|o l Ho _ IH]; intros n Hc; [done|]. cbn [stops length] in *. rewrite Ho. cbn [negb orb].
  rewrite IH by (destruct (count r); [cbn in *; lia|done]). unfold count_reached. destruct (count r); [|done]. cbn in Hc.
  by rewrite bool_decide_false by lia.
Qed.

(** The scan always answers in time: unless the window ends
    [MAX_PERIODS] - 1 or more days past the first period's start, the
    backstop is never reached and the caller is given the occurrences, never
    [WindowTooLarge].  (A rule whose first period has no start shows none.) *)
Theorem expand_answers :
  (∀ s, period_start_date r (date anchor) (rule_wkst r) 0 (rule_interval r) = Some s →
    day_number (win_end_date tz window) < day_number s + Z.of_nat MAX_PERIODS - 1) →
  ∃ out, expand r anchor tz window = Ok out.
Proof.
  intros Hw. unfold expand. destruct (_ || _); [by eexists|]. destruct MAX_PERIODS as [|f] eqn:E; [done|].
  destruct (period_start_date r (date anchor) (rule_wkst r) 0 (rule_interval r)) as [s|] eqn:Hs.
  - apply (scan_periods_answers f 0 0 [] s Hs). specialize (Hw s eq_refl). lia.
  - cbn [scan_periods]. rewrite Hs. by eexists.
Qed.

(** C33: what a window shows is the series seen through it.  When [expand]
    answers, the occurrences are exactly those of the rule's series — the
    dates its periods propose from the anchor on, cut by COUNT and UNTIL —
    whose instants fall in the window, in the series' order; scanning more
    periods than [MAX_PERIODS] would add nothing.  A rule the build does not
    understand shows none.  So moving or widening a window never changes which
    occurrences exist. *)
Theorem expand_is_the_series out n :
  expand r anchor tz window = Ok out → (MAX_PERIODS ≤ n)%nat →
  out = if is_understood r && negb (from_option is_unknown false (until r))
        then filter kept (the_series r anchor tz n) else [].
Proof. apply expand_spec. Qed.
End scan_facts.

(** ** Keys in order *)

(** [n] in [w] decimal digits. *)
Fixpoint dec_text (w : nat) (n : Z) : bytes :=
  match w with
  | O => []
  | S w' => dec_text w' (n / 10) ++ [48 + n mod 10]
  end.

Lemma length_dec w n : length (dec_text w n) = w.
Proof. revert n. induction w as [|w IH]; intros n; [done|]. cbn [dec_text]. rewrite length_app, IH. simpl. lia. Qed.

Lemma dec_zeros j k n : 0 ≤ n < 10 ^ Z.of_nat k → dec_text (j + k) n = replicate j 48 ++ dec_text k n.
Proof.
  revert n. induction k as [|k IH]; intros n Hn.
  - change (10 ^ Z.of_nat 0) with 1 in Hn. replace n with 0 by lia. rewrite Nat.add_0_r, app_nil_r.
    induction j as [|j IHj]; [done|]. cbn [dec_text]. change (0 / 10) with 0. by rewrite IHj, replicate_S_end.
  - rewrite Nat2Z.inj_succ, Z.pow_succ_r in Hn by lia. rewrite Nat.add_succ_r. cbn [dec_text].
    rewrite IH by (split; [apply Z.div_pos|apply Z.div_lt_upper_bound]; lia). by rewrite <-(assoc_L app).
Qed.

(** How many digits a number is written with. *)
Definition digits_of (k : nat) (n : Z) : Prop :=
  (1 ≤ k)%nat ∧ (k = 1%nat ∨ 10 ^ Z.of_nat (k - 1) ≤ n) ∧ 0 ≤ n < 10 ^ Z.of_nat k.

Lemma digits_exist w n : (1 ≤ w)%nat → 0 ≤ n < 10 ^ Z.of_nat w → ∃ k, digits_of k n ∧ (k ≤ w)%nat.
Proof.
  intros Hw. induction Hw as [|w Hw IH]; intros Hn; [by exists 1%nat; split; [repeat split; auto; lia|]|].
  destruct (decide (n < 10 ^ Z.of_nat w)) as [Hlt|Hge]; [destruct IH as (k & ? & ?); [lia|]; exists k; split; [done|lia]|].
  exists (S w). split; [|done]. split; [lia|]. split; [|done]. right. replace (S w - 1)%nat with w by lia. lia.
Qed.

Lemma text_bytes_String c s : text_bytes (String c s) = Z.of_nat (nat_of_ascii c) :: text_bytes s.
Proof. done. Qed.
Lemma dec_digit_byte d : 0 ≤ d < 10 → Z.of_nat (nat_of_ascii (dec_digit d)) = 48 + d.
Proof. intros Hd. unfold dec_digit. rewrite nat_ascii_embedding by lia. lia. Qed.

Lemma show_digits_dec fuel n acc k :
  n < 10 ^ Z.of_nat (S fuel) → digits_of k n → text_bytes (show_digits (S fuel) n acc) = dec_text k n ++ text_bytes acc.
Proof.
  revert n acc k. induction fuel as [|fuel IH]; intros n acc k Hn (Hk & Hlow & H0 & Hhigh).
  all: rewrite Nat2Z.inj_succ, Z.pow_succ_r in Hn by lia; destruct k as [|k]; [lia|].
  all: cbn [show_digits]; pose proof (Z.mod_pos_bound n 10) as Hm; case_decide as Hs.
  all: try (assert (k = 0%nat) as -> by
    (destruct Hlow as [?|Hlow]; [lia|]; destruct k; [done|]; replace (S (S k) - 1)%nat with (S k) in Hlow by lia;
     rewrite Nat2Z.inj_succ, Z.pow_succ_r in Hlow by lia; assert (0 < 10 ^ Z.of_nat k) by (apply Z.pow_pos_nonneg; lia); lia);
    rewrite text_bytes_String, dec_digit_byte by lia; done).
  destruct k as [|k]; [change (10 ^ Z.of_nat 1) with 10 in Hhigh; lia|].
  assert (digits_of (S k) (n / 10)) as Hdig.
  { rewrite (Nat2Z.inj_succ (S k)), Z.pow_succ_r in Hhigh by lia. split; [lia|]. split.
    - destruct k as [|k]; [by left|right]. destruct Hlow as [?|Hlow]; [lia|].
      replace (S (S (S k)) - 1)%nat with (S (S k)) in Hlow by lia. replace (S (S k) - 1)%nat with (S k) by lia.
      rewrite (Nat2Z.inj_succ (S k)), Z.pow_succ_r in Hlow by lia. apply Z.div_le_lower_bound; lia.
    - split; [apply Z.div_pos; lia|apply Z.div_lt_upper_bound; lia]. }
  pose proof (IH (n / 10) (String (dec_digit (n mod 10)) acc) (S k)) as IH'. cbn [show_digits] in IH'. rewrite IH'; [|apply Z.div_lt_upper_bound; lia|done].
  rewrite text_bytes_String, dec_digit_byte by lia. change (dec_text (S (S k)) n) with (dec_text (S k) (n / 10) ++ [48 + n mod 10]).
  by rewrite <-(assoc_L app).
Qed.

Lemma zeros_bytes j : text_bytes (zeros j) = replicate j 48.
Proof. induction j as [|j IH]; [done|]. cbn [zeros replicate]. by rewrite text_bytes_String, IH. Qed.

Lemma pad_dec w n : (1 ≤ w)%nat → 0 ≤ n < 10 ^ Z.of_nat w → text_bytes (pad w n) = dec_text w n.
Proof.
  intros Hw Hn. destruct (digits_exist w n Hw Hn) as (k & Hk & Hkw).
  assert (text_bytes (show_int n) = dec_text k n) as Hshow.
  { unfold show_int. rewrite decide_False by lia. rewrite (show_digits_dec _ _ _ k); [apply app_nil_r|apply log2_fuel; lia|done]. }
  unfold pad. rewrite decide_False, text_bytes_app, zeros_bytes, Hshow by lia.
  rewrite <-length_text_bytes, Hshow, length_dec. destruct Hk as (_ & _ & Hk). rewrite <-dec_zeros by done. f_equal. lia.
Qed.

Lemma bytes_compare_same (l x y : bytes) : bytes_compare (l ++ x) (l ++ y) = bytes_compare x y.
Proof. induction l as [|b l IH]; [done|]. cbn [app bytes_compare]. by rewrite Z.compare_refl. Qed.

(** Equal widths compare as the numbers do, before what follows. *)
Lemma dec_compare w a b x y :
  0 ≤ a < 10 ^ Z.of_nat w → 0 ≤ b < 10 ^ Z.of_nat w →
  bytes_compare (dec_text w a ++ x) (dec_text w b ++ y) = then_with (Z.compare a b) (bytes_compare x y).
Proof.
  revert a b x y. induction w as [|w IH]; intros a b x y Ha Hb.
  { change (10 ^ Z.of_nat 0) with 1 in *. replace a with 0 by lia. replace b with 0 by lia. done. }
  rewrite Nat2Z.inj_succ, Z.pow_succ_r in Ha, Hb by lia. cbn [dec_text]. rewrite <-!(assoc_L app).
  rewrite IH by (split; [apply Z.div_pos|apply Z.div_lt_upper_bound]; lia). cbn [app bytes_compare].
  pose proof (Z.div_mod a 10). pose proof (Z.div_mod b 10). pose proof (Z.mod_pos_bound a 10). pose proof (Z.mod_pos_bound b 10).
  destruct (Z.compare_spec (a / 10) (b / 10)) as [E|E|E]; cbn [then_with].
  - destruct (Z.compare_spec (48 + a mod 10) (48 + b mod 10)), (Z.compare_spec a b); try done; lia.
  - destruct (Z.compare_spec a b); try done; lia.
  - destruct (Z.compare_spec a b); try done; lia.
Qed.

Lemma format_key_bytes d t :
  0 ≤ year d < 10000 → 0 ≤ month d < 100 → 0 ≤ day d < 100 → 0 ≤ hour t < 100 → 0 ≤ minute t < 100 →
  text_bytes (format_key d t) =
    dec_text 4 (year d) ++ 45 :: dec_text 2 (month d) ++ 45 :: dec_text 2 (day d) ++ 84 :: dec_text 2 (hour t) ++ 58 :: dec_text 2 (minute t).
Proof.
  intros Hy Hm Hd Hh Hmi. unfold format_key. rewrite !text_bytes_app, !text_bytes_String, !text_bytes_app, !text_bytes_String,
    !text_bytes_app, !text_bytes_String, !text_bytes_app, !text_bytes_String, !pad_dec by (lia || done). done.
Qed.

(** A wall-clock time to the minute. *)
Definition minute_of (c : DateTime) : Z * (Z * (Z * (Z * Z))) :=
  (year (date c), (month (date c), (day (date c), (hour (time c), minute (time c))))).
Definition clock_ok (c : DateTime) : Prop :=
  0 ≤ year (date c) < 10000 ∧ 0 ≤ month (date c) < 100 ∧ 0 ≤ day (date c) < 100 ∧
  0 ≤ hour (time c) < 100 ∧ 0 ≤ minute (time c) < 100.

Lemma format_key_compare c c' :
  clock_ok c → clock_ok c' →
  bytes_compare (text_bytes (format_key (date c) (time c))) (text_bytes (format_key (date c') (time c'))) =
    cmp (minute_of c) (minute_of c').
Proof.
  intros (? & ? & ? & ? & ?) (? & ? & ? & ? & ?). rewrite !format_key_bytes by done.
  rewrite dec_compare by done. unfold minute_of. rewrite cmp_pair. f_equal. cbn [bytes_compare Z.compare Pos.compare Pos.compare_cont].
  rewrite dec_compare by done. rewrite cmp_pair. f_equal. cbn [bytes_compare Z.compare Pos.compare Pos.compare_cont].
  rewrite dec_compare by done. rewrite cmp_pair. f_equal. cbn [bytes_compare Z.compare Pos.compare Pos.compare_cont].
  rewrite dec_compare by done. rewrite cmp_pair. f_equal. cbn [bytes_compare Z.compare Pos.compare Pos.compare_cont].
  rewrite <-(app_nil_r (dec_text 2 (minute (time c)))), <-(app_nil_r (dec_text 2 (minute (time c')))). rewrite dec_compare by done.
  unfold cmp, Z_cmp. by destruct (_ ?= _).
Qed.

(** Occurrence keys compare, as text, as the wall-clock minutes they
    name.  So a key names one minute, skipping, splitting and counting by key
    order are by time, and the keys of a series are distinct. *)
Theorem keys_order_minutes c c' :
  clock_ok c → clock_ok c' →
  bytes_compare (text_bytes (format_key (date c) (time c))) (text_bytes (format_key (date c') (time c'))) =
    cmp (minute_of c) (minute_of c').
Proof. apply format_key_compare. Qed.

(** ** The start of a week *)

Section week.
Context `{JiffLaws}.

(** A year before a date there are days enough for a week. *)
Lemma room_before d : valid d → 0 ≤ year d → ∃ e, valid e ∧ day_number e ≤ day_number d - 7.
Proof.
  intros Hd Hy. pose proof Hd as (Hyb & Hm & Hdd). exists (mkDate (year d - 1) 1 1). split; [apply valid_first; lia|].
  assert (∀ m, 1 ≤ m ≤ 8 → day_number (mkDate (year d - 1) 1 1) + (m - 1) ≤ day_number (mkDate (year d - 1) m 1)) as Hchain.
  { intros m Hm8. assert (∃ k, (k < 8)%nat ∧ m = Z.of_nat k + 1) as (k & Hk & ->) by (exists (Z.to_nat (m - 1)); lia). clear Hm8.
    induction k as [|k IH]; [change (Z.of_nat 0 + 1) with 1; lia|].
    assert (day_number (mkDate (year d - 1) (Z.of_nat k + 1) 1) < day_number (mkDate (year d - 1) (Z.of_nat (S k) + 1) 1)) as Hlt.
    { apply day_number_lt; [apply valid_first; lia..|]. apply Date_lt. cbn [year month day]. lia. }
    specialize (IH ltac:(lia)). lia. }
  assert (day_number (mkDate (year d - 1) 8 1) < day_number d) as Hlast.
  { apply day_number_lt; [apply valid_first; lia|done|]. apply Date_lt. cbn [year month day]. lia. }
  specialize (Hchain 8 ltac:(lia)). lia.
Qed.

Lemma week_start_number d v : valid d → 0 ≤ year d → 0 ≤ v < 7 →
  day_number (week_start d v) = day_number d - (weekday d - v) mod 7.
Proof.
  intros Hd Hy Hv. unfold week_start. rewrite week_start_back by done. pose proof (Z.mod_pos_bound (weekday d - v) 7).
  destruct (room_before d Hd Hy) as (e & He & Hle).
  destruct (day_number_between e d (day_number d - (weekday d - v) mod 7)) as (s & Hs & Hn); [done|done|lia|].
  assert (checked_add d SpanDays (- ((weekday d - v) mod 7)) = Some s) as ->; [|cbn; lia].
  apply add_days_spec; [done|apply span_fits_week; lia|]. split; [done|lia].
Qed.

End week.

(** ** The dates of a rule, by a reference definition *)

Section reference.
Context `{JiffLaws} (r : RRule) (anchor : DateTime).
Hypothesis anchor_valid : valid (date anchor).
Let a := date anchor.
Let w := rule_wkst r.
Let i := rule_interval r.

(** The library can hold the step to period [p]. *)
Definition reaches (p : Z) : Prop :=
  match freq r with
  | Daily => span_fits SpanDays (p * i) = true
  | Weekly => span_fits SpanWeeks (p * i) = true
  | Monthly => span_fits SpanMonths (p * i) = true
  | Yearly | FreqUnknown _ => True
  end.

(** The day-level parts of the rule, the anchor standing in for the missing
    ones. *)
Definition falls_on (d : Date) : bool :=
  matches_bymonth d r &&
  match freq r with
  | Daily => matches_byday d r && matches_bymonthday d r
  | Weekly => weekday_ok r a d && matches_bymonthday d r
  | Monthly =>
      match by_month_day r, by_day r with [], [] => bool_decide (day d = day a) | _, _ => month_day_ok r d end
  | Yearly =>
      match by_month_day r, by_day r with [], [] => bool_decide (day d = day a) | _, _ => month_day_ok r d end &&
      match by_month r with [] => bool_decide (month d = month a) | _ => true end
  | FreqUnknown _ => false
  end.

Lemma elem_of_month_candidates first d :
  valid first → day first = 1 → valid d → year d = year first → month d = month first →
  d ∈ month_candidates r a first ↔
    matches_bymonth d r && match by_month_day r, by_day r with [], [] => bool_decide (day d = day a) | _, _ => month_day_ok r d end = true.
Proof.
  intros Hf Hday Hd Hy Hm. assert (days_in_month first = days_in_month d) as Hdim by (by apply days_in_month_ext).
  assert (∀ n, date_new (year first) (month first) n = Some d ↔ n = day d) as Hnew.
  { intros n. rewrite date_new_spec, <-Hy, <-Hm. split; [|by intros ->; destruct d]. intros [-> _]. done. }
  assert (∀ P : Date → bool, d ∈ (omap (λ i, d ← date_new (year first) (month first) i; if P d then Some d else None)
      (seqZ 1 (days_in_month first)) : list Date) ↔ P d = true) as Homap.
  { intros P. rewrite list_elem_of_omap. split.
    - intros (n & _ & Hn). destruct (date_new _ _ n) as [e|] eqn:E; cbn [mbind option_bind] in Hn; [|done].
      destruct (P e) eqn:HP; [|done]. by injection Hn as ->.
    - intros HP. exists (day d). rewrite elem_of_seqZ, Hdim, (proj2 (Hnew (day d)) eq_refl). cbn [mbind option_bind].
      rewrite HP. split; [|done]. destruct Hd as (_ & _ & ?). lia. }
  unfold month_candidates. destruct (by_month_day r), (by_day r);
    try (rewrite Homap, andb_comm; done).
  rewrite andb_true_iff, bool_decide_eq_true. split.
  - case_decide; [|by intros ?%not_elem_of_nil]. destruct (date_new _ _ _) as [e|] eqn:E; [|by intros ?%not_elem_of_nil].
    destruct (matches_bymonth e r) eqn:Hbm; [|by intros ?%not_elem_of_nil]. intros ->%list_elem_of_singleton.
    apply Hnew in E. done.
  - intros [Hbm Hdd]. rewrite Hdim, <-Hdd, decide_True by (destruct Hd as (_ & _ & ?); lia).
    rewrite (proj2 (Hnew (day d)) eq_refl), Hbm. by left.
Qed.

(** The start of the period a date lies in. *)
Lemma start_exists p d :
  valid d → 0 ≤ p → reaches p → in_period r a w p i d →
  is_Some (period_start_date r a w p i).
Proof.
  intros Hd Hp Hfit Hin. pose proof (rule_wkst_bounds r) as Hw. pose proof (rule_interval_pos r) as Hi. fold w in Hw. fold i in Hi.
  assert (0 ≤ p * i) as Hpi by nia. unfold reaches in Hfit. unfold in_period in Hin. unfold period_start_date.
  destruct (freq r).
  - exists d. apply span_add_Some. split; [done|]. by apply add_days_spec.
  - assert (valid (week_start a w)) as Hws by by apply week_start_valid.
    destruct (day_number_between (week_start a w) d (day_number (week_start a w) + 7 * (p * i))) as (s & Hs & Hn); [done|done|lia|].
    exists s. apply span_add_Some. split; [done|]. by apply add_weeks_spec.
  - exists (mkDate (year d) (month d) 1). apply span_add_Some. split; [done|]. rewrite first_of_month_eq.
    destruct Hd as (Hy & Hm & _), anchor_valid as (Hya & Hma & _). apply add_months_spec; [by apply valid_first|done|done|].
    split; [by apply valid_first|]. split; [done|]. cbn [year month]. exact Hin.
  - exists (mkDate (year d) 1 1). destruct Hd as (Hy & _ & _). rewrite <-Hin. unfold in_i16.
    rewrite bool_decide_true by lia. apply date_new_spec. split; [done|]. apply valid_first; lia.
  - done.
Qed.

Lemma candidates_exact p d :
  valid d → is_Some (period_start_date r a w p i) → in_period r a w p i d →
  d ∈ period_candidates r a w p i ↔ falls_on d = true.
Proof.
  intros Hd [s Hstart] Hin.
  pose proof (rule_wkst_bounds r) as Hw. fold w in Hw.
  destruct (period_start_spec r a w p i s anchor_valid Hw Hstart) as (Hs & Hsin & _).
  unfold period_start_date in Hstart. unfold in_period in Hin, Hsin. unfold period_candidates, falls_on. destruct (freq r).
  - rewrite Hstart. assert (s = d) as -> by (apply day_number_inj; [done|done|lia]). rewrite andb_assoc.
    destruct (_ && _); [rewrite list_elem_of_singleton|rewrite elem_of_nil]; done.
  - rewrite Hstart, list_elem_of_omap. split.
    + intros (k & _ & Hk). destruct (checked_add s SpanDays k) as [e|]; cbn [mbind option_bind] in Hk; [|done].
      destruct (_ && _) eqn:E; [|done]. injection Hk as ->. revert E. rewrite !andb_true_iff. tauto.
    + apply span_add_Some in Hstart as [Hsf Hstart]. apply add_weeks_spec in Hstart as [_ Hsn]; [|by apply week_start_valid|done].
      intros Hf. exists (day_number d - day_number s). split; [apply elem_of_seqZ; lia|].
      assert (checked_add s SpanDays (day_number d - day_number s) = Some d) as ->
        by (apply add_days_spec; [done|apply span_fits_week; lia|split; [done|lia]]).
      cbn [mbind option_bind]. rewrite !andb_true_iff in Hf. destruct Hf as (-> & -> & ->). done.
  - rewrite Hstart. apply span_add_Some in Hstart as [Hsf Hadd]. rewrite first_of_month_eq in Hadd.
    destruct anchor_valid as (Hya & Hma & _). apply add_months_spec in Hadd as (_ & Hday & _); [|by apply valid_first|done|done].
    destruct Hd as (Hy & Hm & Hdd), Hs as (? & ? & ?). apply elem_of_month_candidates; [done|done|done|lia|lia].
  - destruct (in_i16 _); [|done]. rewrite <-Hin. rewrite list_elem_of_bind.
    assert (∀ m, d ∈ (match date_new (year d) m 1 with Some first => month_candidates r a first | None => [] end) ↔
      m = month d ∧ matches_bymonth d r && match by_month_day r, by_day r with [], [] => bool_decide (day d = day a) | _, _ => month_day_ok r d end = true) as Hm.
    { intros m. destruct (date_new (year d) m 1) as [first|] eqn:E.
      - apply date_new_spec in E as [-> Hv]. split.
        + intros Hc. pose proof (month_candidates_spec r a _ d Hv Hc) as (_ & _ & Hmm). cbn [month] in Hmm.
          split; [done|]. by eapply elem_of_month_candidates in Hc.
        + intros [-> Hc]. by apply elem_of_month_candidates.
      - split; [by intros ?%not_elem_of_nil|]. intros [-> _]. destruct Hd as (Hy & Hmo & _).
        assert (date_new (year d) (month d) 1 = Some (mkDate (year d) (month d) 1)) as E' by
          (apply date_new_spec; split; [done|by apply valid_first]). congruence. }
    unfold matches_bymonth in *. destruct Hd as (Hy & Hmo & _). split.
    + intros (m & Hc & Hin'). apply Hm in Hc as [-> Hc]. revert Hc. rewrite !andb_true_iff. intros [Hb Hc]. split; [done|]. split; [done|].
      destruct (by_month r); [|done]. apply list_elem_of_singleton in Hin'. by apply bool_decide_eq_true.
    + rewrite !andb_true_iff. intros (Hb & Hc & Hmm). exists (month d). rewrite Hm, andb_true_iff. split; [done|].
      destruct (by_month r) as [|m0 ms]; [apply bool_decide_eq_true in Hmm; rewrite Hmm; by left|].
      apply list_elem_of_filter. split; [lia|]. apply orb_true_iff in Hb as [Hb|Hb]; [by apply bool_decide_eq_true in Hb|].
      by apply bool_decide_eq_true in Hb.
  - done.
Qed.

Lemma elem_of_series_dates n p d :
  (∀ q, p ≤ q < p + Z.of_nat n → d ∈ period_dates r anchor q → ∀ q', p ≤ q' ≤ q → is_Some (period_start_date r a w q' i)) →
  d ∈ series_dates r anchor n p ↔ ∃ q, p ≤ q < p + Z.of_nat n ∧ d ∈ period_dates r anchor q.
Proof.
  intros Hstart. split; [apply series_dates_spec|]. intros (q & Hq & Hd). revert p Hstart Hq. induction n as [|n IH]; intros p Hstart Hq; [lia|].
  cbn [series_dates]. fold a w i. destruct (Hstart q Hq Hd p) as [s ->]; [lia|]. apply elem_of_app.
  destruct (decide (q = p)) as [->|Hne]; [by left|right]. apply IH; [|lia]. intros q1 Hq1 Hd1 q' Hq'. apply (Hstart q1); [lia|done|lia].
Qed.

Lemma start_exists_below q q' d :
  valid d → 0 ≤ q' ≤ q → reaches q' → in_period r a w q i d →
  is_Some (period_start_date r a w q' i).
Proof.
  intros Hd Hq Hfit Hin. pose proof (rule_wkst_bounds r) as Hw. pose proof (rule_interval_pos r) as Hi. fold w in Hw. fold i in Hi.
  assert (0 ≤ q' * i ≤ q * i) as Hqi by nia. unfold reaches in Hfit. unfold in_period in Hin. unfold period_start_date.
  destruct Hd as (Hy & Hm & Hdd) eqn:Ed. clear Ed. assert (valid d) as Hd' by done.
  destruct anchor_valid as (Hya & Hma & _). fold a in Hya, Hma. destruct (freq r).
  - destruct (day_number_between a d (day_number a + q' * i)) as (s & Hs & Hn); [done|done|lia|].
    exists s. apply span_add_Some. split; [done|]. by apply add_days_spec.
  - assert (valid (week_start a w)) as Hws by by apply week_start_valid.
    destruct (day_number_between (week_start a w) d (day_number (week_start a w) + 7 * (q' * i))) as (s & Hs & Hn); [done|done|lia|].
    exists s. apply span_add_Some. split; [done|]. by apply add_weeks_spec.
  - set (k := 12 * year a + (month a - 1) + q' * i).
    pose proof (Z.mod_pos_bound k 12) as Hkm. pose proof (Z.div_mod k 12) as Hk.
    assert (-9999 ≤ k / 12 ≤ 9999) as Hky by lia.
    exists (mkDate (k / 12) (k mod 12 + 1) 1). apply span_add_Some. split; [done|]. rewrite first_of_month_eq.
    apply add_months_spec; [by apply valid_first|done|done|]. split; [apply valid_first; lia|]. split; [done|]. cbn [year month]. lia.
  - exists (mkDate (year a + q' * i) 1 1). unfold in_i16. rewrite bool_decide_true by lia. apply date_new_spec.
    split; [done|]. apply valid_first; lia.
  - done.
Qed.

(** A date in a period is within the library's reach. *)
Lemma in_period_reaches p d : 0 ≤ year a → valid d → 0 ≤ p → in_period r a w p i d → reaches p.
Proof.
  intros Hya Hd Hp Hin. pose proof (rule_wkst_bounds r) as Hw. pose proof (rule_interval_pos r) as Hi. fold w in Hw. fold i in Hi.
  assert (0 ≤ p * i) as Hpi by nia. unfold reaches. unfold in_period in Hin. destruct (freq r); try done.
  - by apply (span_fits_reach SpanDays a d).
  - assert (valid (week_start a w)) as Hws by by apply week_start_valid.
    destruct (day_number_between (week_start a w) d (day_number (week_start a w) + 7 * (p * i))) as (s & Hs & Hn); [done|done|lia|].
    by apply (span_fits_reach SpanWeeks (week_start a w) s).
  - assert (valid a) as (? & ? & _) by exact anchor_valid.
    apply (span_fits_reach SpanMonths (mkDate (year a) (month a) 1) d); [by apply valid_first|done|done|done|cbn [year month]; lia].
Qed.

Lemma reaches_below q q' : 0 ≤ q' ≤ q → reaches q → reaches q'.
Proof.
  intros Hq. pose proof (rule_interval_pos r) as Hi. fold i in Hi. assert (0 ≤ q' * i ≤ q * i) as Hqi by nia.
  unfold reaches. destruct (freq r); try done; intros Hf; by apply (span_fits_less _ _ _ Hf).
Qed.

Lemma elem_of_period_dates p d :
  by_set_pos r = [] → 0 ≤ year a → valid d → 0 ≤ p →
  d ∈ period_dates r anchor p ↔ in_period r a w p i d ∧ falls_on d = true.
Proof.
  intros Hsp Hya Hd Hp. unfold period_dates. rewrite Hsp. cbn [apply_setpos]. rewrite elem_of_sorted_dates. fold a w i. split.
  - intros Hc. pose proof (rule_wkst_bounds r) as Hw. fold w in Hw.
    destruct (period_candidates_spec r a w p i d anchor_valid Hw Hc) as (_ & Hin & Hst). split; [done|].
    by apply (candidates_exact p d Hd Hst Hin).
  - intros [Hin Hf]. apply candidates_exact; [done| |done..]. apply (start_exists p d); [done|done| |done].
    by apply (in_period_reaches p d).
Qed.

(** *** The rule, read off the calendar *)

Definition WEEK : list Weekday := [Mo; Tu; We; Th; Fr; Sa; Su].
Definition on_weekday (l : list Weekday) (d : Date) : Prop :=
  ∃ x, x ∈ l ∧ WEEK !! Z.to_nat (day_number d mod 7) = Some x.
(** A day of the month is named by its number or, from -1, by its place from
    the month's end. *)
Definition on_month_day (l : list Z) (d : Date) : Prop :=
  ∃ v, v ∈ l ∧ (v = day d ∨ v = day d - days_in_month d - 1).

(** A date carries every part the rule gives; the anchor's weekday, day or
    month stands in for parts left out. *)
Definition recurs_on (d : Date) : Prop :=
  (by_month r ≠ [] → month d ∈ by_month r) ∧
  (by_month_day r ≠ [] → on_month_day (by_month_day r) d) ∧
  (by_day r ≠ [] → on_weekday (by_day r) d) ∧
  match freq r with
  | Daily => True
  | Weekly => by_day r = [] → day_number d mod 7 = day_number a mod 7
  | Monthly => by_month_day r = [] → by_day r = [] → day d = day a
  | Yearly => (by_month_day r = [] → by_day r = [] → day d = day a) ∧ (by_month r = [] → month d = month a)
  | FreqUnknown _ => False
  end.

(** The day a rule's weeks begin on, counted from Monday, and the number of
    the period a date lies in. *)
Definition week_begins : Z :=
  match wkst r with
  | Some Su => 6 | Some Tu => 1 | Some We => 2 | Some Th => 3 | Some Fr => 4 | Some Sa => 5
  | _ => 0
  end.
Definition period_of (d : Date) : Z :=
  match freq r with
  | Daily => day_number d
  | Weekly => (day_number d - week_begins) / 7
  | Monthly => 12 * year d + month d
  | Yearly => year d
  | FreqUnknown _ => 0
  end.

Lemma matches_bymonth_iff d : matches_bymonth d r = true ↔ (by_month r ≠ [] → month d ∈ by_month r).
Proof.
  unfold matches_bymonth. rewrite orb_true_iff, !bool_decide_eq_true. destruct (by_month r); [tauto|]. split; [|auto].
  intros [?|?]; done.
Qed.

Lemma weekday_name d x : valid d → to_jiff x = Some (weekday d) ↔ WEEK !! Z.to_nat (day_number d mod 7) = Some x.
Proof.
  intros Hd. rewrite weekday_number by done. pose proof (Z.mod_pos_bound (day_number d) 7 ltac:(lia)) as Hm.
  generalize dependent (day_number d mod 7). intros n Hn.
  assert (n = 0 ∨ n = 1 ∨ n = 2 ∨ n = 3 ∨ n = 4 ∨ n = 5 ∨ n = 6) as Hc by lia.
  destruct Hc as [->|[->|[->|[->|[->|[->| ->]]]]]]; destruct x; vm_compute; split; congruence.
Qed.

Lemma matches_byday_iff d : valid d → matches_byday d r = true ↔ (by_day r ≠ [] → on_weekday (by_day r) d).
Proof.
  intros Hd. unfold matches_byday, on_weekday. destruct (by_day r) as [|x0 l]; [tauto|].
  rewrite existsb_exists. setoid_rewrite bool_decide_eq_true. setoid_rewrite (weekday_name d _ Hd).
  split; [intros (x & Hx%list_elem_of_In & ?) _; by exists x|].
  intros Hx. destruct Hx as (x & Hx & ?); [done|]. exists x. split; [by apply list_elem_of_In|done].
Qed.

Lemma matches_bymonthday_iff d :
  valid d → matches_bymonthday d r = true ↔ (by_month_day r ≠ [] → on_month_day (by_month_day r) d).
Proof.
  intros (_ & _ & Hday). unfold matches_bymonthday, on_month_day. destruct (by_month_day r) as [|v0 l]; [tauto|].
  rewrite existsb_exists.
  assert (∀ v, (if decide (0 < v) then bool_decide (day d = v)
                else if decide (v < 0) then bool_decide (day d = days_in_month d + 1 + v) else false) = true ↔
               v = day d ∨ v = day d - days_in_month d - 1) as Hv.
  { intros v. repeat case_decide; rewrite ?bool_decide_eq_true; split; try done; lia. }
  setoid_rewrite Hv. split; [intros (x & Hx%list_elem_of_In & ?) _; by exists x|].
  intros Hx. destruct Hx as (x & Hx & ?); [done|]. exists x. split; [by apply list_elem_of_In|done].
Qed.

Lemma falls_on_iff d : valid d → falls_on d = true ↔ recurs_on d.
Proof.
  intros Hd. pose proof (matches_bymonth_iff d) as Hm. pose proof (matches_byday_iff d Hd) as Hw.
  pose proof (matches_bymonthday_iff d Hd) as Hmd.
  assert (∀ b : bool, match by_month_day r, by_day r with [], [] => bool_decide (day d = day a) | _, _ => month_day_ok r d end = true ↔
    (by_month_day r ≠ [] → on_month_day (by_month_day r) d) ∧ (by_day r ≠ [] → on_weekday (by_day r) d) ∧
    (by_month_day r = [] → by_day r = [] → day d = day a)) as Hday.
  { intros _. rewrite <-Hmd, <-Hw. unfold month_day_ok, matches_byday, matches_bymonthday.
    destruct (by_month_day r), (by_day r); rewrite ?andb_true_iff, ?bool_decide_eq_true; naive_solver. }
  specialize (Hday true). unfold falls_on, recurs_on. destruct (freq r); rewrite ?andb_true_iff, Hm.
  - rewrite Hw, Hmd. tauto.
  - rewrite Hmd. assert (weekday_ok r a d = true ↔ (by_day r ≠ [] → on_weekday (by_day r) d) ∧
      (by_day r = [] → day_number d mod 7 = day_number a mod 7)) as ->; [|tauto].
    rewrite <-Hw. unfold weekday_ok, matches_byday. destruct (by_day r); [|naive_solver].
    rewrite bool_decide_eq_true, !weekday_number by done. naive_solver.
  - rewrite Hday. tauto.
  - rewrite Hday. assert (match by_month r with [] => bool_decide (month d = month a) | _ => true end = true ↔
      (by_month r = [] → month d = month a)) as ->; [|tauto].
    destruct (by_month r); rewrite ?bool_decide_eq_true; naive_solver.
  - naive_solver.
Qed.

Lemma in_period_iff p d :
  0 ≤ year a → (∀ s, freq r ≠ FreqUnknown s) → in_period r a w p i d ↔ period_of d = period_of a + p * i.
Proof.
  intros Hya Hf. unfold in_period, period_of. pose proof (week_start_number a w anchor_valid Hya (rule_wkst_bounds r)) as Hws.
  rewrite weekday_number, Zminus_mod_idemp_l in Hws by exact anchor_valid.
  assert (week_begins = w) as -> by (unfold week_begins, w, rule_wkst; destruct (wkst r) as [[]|]; done).
  destruct (freq r) as [| | | |s] eqn:E; [done| |lia|done|by destruct (Hf s)].
  rewrite Hws. pose proof (Z.div_mod (day_number a - w) 7 ltac:(lia)). pose proof (Z.div_mod (day_number d - w) 7 ltac:(lia)).
  pose proof (Z.mod_pos_bound (day_number a - w) 7 ltac:(lia)). pose proof (Z.mod_pos_bound (day_number d - w) 7 ltac:(lia)).
  generalize dependent (p * i). intros pi. lia.
Qed.

(** C34: a rule without BYSETPOS, anchored in year 0 or later, recurs on exactly
    the dates its reference definition names, whatever its INTERVAL and however
    many periods [n] are scanned: the dates of the calendar that lie in a period
    (day, week from WKST, month or year) a whole number of INTERVALs past the
    anchor's, fewer than [n], and that carry every BY part given — a month named,
    a weekday named, a day of the month named from its start or its end — the
    anchor's own weekday, day or month standing in for the parts left out. *)
Theorem rule_dates_exact n d :
  by_set_pos r = [] → 0 ≤ year (date anchor) → valid d →
  d ∈ series_dates r anchor n 0 ↔
    recurs_on d ∧ ∃ p, 0 ≤ p < Z.of_nat n ∧ period_of d = period_of (date anchor) + p * Z.max 1 (interval r).
Proof.
  intros Hsp Hya Hd. replace (Z.max 1 (interval r)) with i by (unfold i, rule_interval; lia).
  assert (∀ q, 0 ≤ q → d ∈ period_dates r anchor q ↔ in_period r a w q i d ∧ falls_on d = true) as Hper
    by (intros; by apply elem_of_period_dates).
  rewrite elem_of_series_dates.
  - rewrite <-falls_on_iff by done. destruct (falls_on d) eqn:Hf.
    + assert (∀ s, freq r ≠ FreqUnknown s) as Hfr.
      { intros s Hs. unfold falls_on in Hf. rewrite Hs, andb_false_r in Hf. done. }
      split; [intros (q & Hq & Hin)|intros (_ & q & Hq & Hin)].
      * apply Hper in Hin as [Hin _]; [|lia]. split; [done|]. exists q. split; [lia|]. by apply in_period_iff.
      * exists q. split; [lia|]. apply Hper; [lia|]. split; [by apply in_period_iff|done].
    + split; [intros (q & Hq & Hin)|by intros [? _]]. apply Hper in Hin as [_ ?]; [done|lia].
  - intros q Hq Hdq q' Hq'. apply Hper in Hdq as [Hin _]; [|lia].
    apply (start_exists_below q q' d); [done|lia| |done]. apply (reaches_below q); [lia|].
    apply (in_period_reaches q d); [done|done|lia|done].
Qed.
End reference.
