(* ===== verification/Routine.v ===== *)
(** * Routines (sunrise-domain: routine.rs, routine_gen/series.rs)

    A recurring entity: its rule, its anchor and end as times with a kind, its
    pause, skips and streak keys; the legacy instants a routine is read
    through; the zone its occurrences fall in; and the occurrences it has in a
    window. *)

From Stdlib Require Import ZArith Lia String Ascii.
From stdpp Require Import base tactics decidable option list gmap strings.
From S2P Require Import Prelude Bytes Registry Cbor Ids Calendar SunriseTime Rrule Constraint RoutineGen.
Open Scope Z_scope.

Inductive RoutineCatchupPolicy := CatchSkip | CatchMerge | CatchQueue | CatchUnknown (raw : string).
Inductive Energy := EnergyLow | EnergyMed | EnergyHigh | EnergyUnknown (raw : string).

Record TaskTemplate := mkTemplate {
  tt_title : string;
  tt_stream_id : option EntityRef;
  tt_contexts : list EntityRef;
  tt_energy : option Energy;
  tt_priority : option Z;
  tt_estimated_duration_s : option Z;
  tt_body : option bytes;
  tt_unknown : gmap string Value;
}.
#[export] Instance RoutineCatchupPolicy_eq_dec : EqDecision RoutineCatchupPolicy.
Proof. solve_decision. Defined.
#[export] Instance Energy_eq_dec : EqDecision Energy.
Proof. solve_decision. Defined.
#[export] Instance TaskTemplate_eq_dec : EqDecision TaskTemplate.
Proof. solve_decision. Defined.
#[export] Instance RRule_eq_dec : EqDecision RRule.
Proof. solve_decision. Defined.

Record Routine := mkRoutine {
  routine_id : EntityRef;
  created_at : Z;
  updated_at : Z;
  template : TaskTemplate;
  rrule : RRule;
  timezone : string;
  starts_at : SunriseTime;
  ends_at : option SunriseTime;
  scheduling_constraints : list ScheduleConstraint;
  skip_dates : list Z;
  skipped_keys : list string;
  catchup_policy : RoutineCatchupPolicy;
  streak_counter : Z;
  last_completed_at : option SunriseTime;
  grace_window_s : option Z;
  forgiveness_enabled : bool;
  streak_started_at : option Z;
  forgivenesses_in_window : Z;
  streak_keys : list string;
  paused : bool;
  paused_until : option SunriseTime;
  archived : bool;
  deleted : bool;
  split_from : option EntityRef;
  routine_unknown : gmap string Value;
}.

(** One field assigned. *)
Definition set_routine_id (v : EntityRef) (r : Routine) : Routine :=
  mkRoutine
    v (created_at r) (updated_at r) (template r) (rrule r) (timezone r) (starts_at r) (ends_at r)
    (scheduling_constraints r) (skip_dates r) (skipped_keys r) (catchup_policy r) (streak_counter r)
    (last_completed_at r) (grace_window_s r) (forgiveness_enabled r) (streak_started_at r)
    (forgivenesses_in_window r) (streak_keys r) (paused r) (paused_until r) (archived r) (deleted r)
    (split_from r) (routine_unknown r).
Definition set_created_at (v : Z) (r : Routine) : Routine :=
  mkRoutine
    (routine_id r) v (updated_at r) (template r) (rrule r) (timezone r) (starts_at r) (ends_at r)
    (scheduling_constraints r) (skip_dates r) (skipped_keys r) (catchup_policy r) (streak_counter r)
    (last_completed_at r) (grace_window_s r) (forgiveness_enabled r) (streak_started_at r)
    (forgivenesses_in_window r) (streak_keys r) (paused r) (paused_until r) (archived r) (deleted r)
    (split_from r) (routine_unknown r).
Definition set_updated_at (v : Z) (r : Routine) : Routine :=
  mkRoutine
    (routine_id r) (created_at r) v (template r) (rrule r) (timezone r) (starts_at r) (ends_at r)
    (scheduling_constraints r) (skip_dates r) (skipped_keys r) (catchup_policy r) (streak_counter r)
    (last_completed_at r) (grace_window_s r) (forgiveness_enabled r) (streak_started_at r)
    (forgivenesses_in_window r) (streak_keys r) (paused r) (paused_until r) (archived r) (deleted r)
    (split_from r) (routine_unknown r).
Definition set_template (v : TaskTemplate) (r : Routine) : Routine :=
  mkRoutine
    (routine_id r) (created_at r) (updated_at r) v (rrule r) (timezone r) (starts_at r) (ends_at r)
    (scheduling_constraints r) (skip_dates r) (skipped_keys r) (catchup_policy r) (streak_counter r)
    (last_completed_at r) (grace_window_s r) (forgiveness_enabled r) (streak_started_at r)
    (forgivenesses_in_window r) (streak_keys r) (paused r) (paused_until r) (archived r) (deleted r)
    (split_from r) (routine_unknown r).
Definition set_rrule (v : RRule) (r : Routine) : Routine :=
  mkRoutine
    (routine_id r) (created_at r) (updated_at r) (template r) v (timezone r) (starts_at r) (ends_at r)
    (scheduling_constraints r) (skip_dates r) (skipped_keys r) (catchup_policy r) (streak_counter r)
    (last_completed_at r) (grace_window_s r) (forgiveness_enabled r) (streak_started_at r)
    (forgivenesses_in_window r) (streak_keys r) (paused r) (paused_until r) (archived r) (deleted r)
    (split_from r) (routine_unknown r).
Definition set_timezone (v : string) (r : Routine) : Routine :=
  mkRoutine
    (routine_id r) (created_at r) (updated_at r) (template r) (rrule r) v (starts_at r) (ends_at r)
    (scheduling_constraints r) (skip_dates r) (skipped_keys r) (catchup_policy r) (streak_counter r)
    (last_completed_at r) (grace_window_s r) (forgiveness_enabled r) (streak_started_at r)
    (forgivenesses_in_window r) (streak_keys r) (paused r) (paused_until r) (archived r) (deleted r)
    (split_from r) (routine_unknown r).
Definition set_starts_at (v : SunriseTime) (r : Routine) : Routine :=
  mkRoutine
    (routine_id r) (created_at r) (updated_at r) (template r) (rrule r) (timezone r) v (ends_at r)
    (scheduling_constraints r) (skip_dates r) (skipped_keys r) (catchup_policy r) (streak_counter r)
    (last_completed_at r) (grace_window_s r) (forgiveness_enabled r) (streak_started_at r)
    (forgivenesses_in_window r) (streak_keys r) (paused r) (paused_until r) (archived r) (deleted r)
    (split_from r) (routine_unknown r).
Definition set_ends_at (v : option SunriseTime) (r : Routine) : Routine :=
  mkRoutine
    (routine_id r) (created_at r) (updated_at r) (template r) (rrule r) (timezone r) (starts_at r) v
    (scheduling_constraints r) (skip_dates r) (skipped_keys r) (catchup_policy r) (streak_counter r)
    (last_completed_at r) (grace_window_s r) (forgiveness_enabled r) (streak_started_at r)
    (forgivenesses_in_window r) (streak_keys r) (paused r) (paused_until r) (archived r) (deleted r)
    (split_from r) (routine_unknown r).
Definition set_scheduling_constraints (v : list ScheduleConstraint) (r : Routine) : Routine :=
  mkRoutine
    (routine_id r) (created_at r) (updated_at r) (template r) (rrule r) (timezone r) (starts_at r) (ends_at r)
    v (skip_dates r) (skipped_keys r) (catchup_policy r) (streak_counter r) (last_completed_at r)
    (grace_window_s r) (forgiveness_enabled r) (streak_started_at r) (forgivenesses_in_window r) (streak_keys
    r) (paused r) (paused_until r) (archived r) (deleted r) (split_from r) (routine_unknown r).
Definition set_skipped_keys (v : list string) (r : Routine) : Routine :=
  mkRoutine
    (routine_id r) (created_at r) (updated_at r) (template r) (rrule r) (timezone r) (starts_at r) (ends_at r)
    (scheduling_constraints r) (skip_dates r) v (catchup_policy r) (streak_counter r) (last_completed_at r)
    (grace_window_s r) (forgiveness_enabled r) (streak_started_at r) (forgivenesses_in_window r) (streak_keys
    r) (paused r) (paused_until r) (archived r) (deleted r) (split_from r) (routine_unknown r).
Definition set_catchup_policy (v : RoutineCatchupPolicy) (r : Routine) : Routine :=
  mkRoutine
    (routine_id r) (created_at r) (updated_at r) (template r) (rrule r) (timezone r) (starts_at r) (ends_at r)
    (scheduling_constraints r) (skip_dates r) (skipped_keys r) v (streak_counter r) (last_completed_at r)
    (grace_window_s r) (forgiveness_enabled r) (streak_started_at r) (forgivenesses_in_window r) (streak_keys
    r) (paused r) (paused_until r) (archived r) (deleted r) (split_from r) (routine_unknown r).
Definition set_streak_counter (v : Z) (r : Routine) : Routine :=
  mkRoutine
    (routine_id r) (created_at r) (updated_at r) (template r) (rrule r) (timezone r) (starts_at r) (ends_at r)
    (scheduling_constraints r) (skip_dates r) (skipped_keys r) (catchup_policy r) v (last_completed_at r)
    (grace_window_s r) (forgiveness_enabled r) (streak_started_at r) (forgivenesses_in_window r) (streak_keys
    r) (paused r) (paused_until r) (archived r) (deleted r) (split_from r) (routine_unknown r).
Definition set_last_completed_at (v : option SunriseTime) (r : Routine) : Routine :=
  mkRoutine
    (routine_id r) (created_at r) (updated_at r) (template r) (rrule r) (timezone r) (starts_at r) (ends_at r)
    (scheduling_constraints r) (skip_dates r) (skipped_keys r) (catchup_policy r) (streak_counter r) v
    (grace_window_s r) (forgiveness_enabled r) (streak_started_at r) (forgivenesses_in_window r) (streak_keys
    r) (paused r) (paused_until r) (archived r) (deleted r) (split_from r) (routine_unknown r).
Definition set_grace_window_s (v : option Z) (r : Routine) : Routine :=
  mkRoutine
    (routine_id r) (created_at r) (updated_at r) (template r) (rrule r) (timezone r) (starts_at r) (ends_at r)
    (scheduling_constraints r) (skip_dates r) (skipped_keys r) (catchup_policy r) (streak_counter r)
    (last_completed_at r) v (forgiveness_enabled r) (streak_started_at r) (forgivenesses_in_window r)
    (streak_keys r) (paused r) (paused_until r) (archived r) (deleted r) (split_from r) (routine_unknown r).
Definition set_forgiveness_enabled (v : bool) (r : Routine) : Routine :=
  mkRoutine
    (routine_id r) (created_at r) (updated_at r) (template r) (rrule r) (timezone r) (starts_at r) (ends_at r)
    (scheduling_constraints r) (skip_dates r) (skipped_keys r) (catchup_policy r) (streak_counter r)
    (last_completed_at r) (grace_window_s r) v (streak_started_at r) (forgivenesses_in_window r) (streak_keys
    r) (paused r) (paused_until r) (archived r) (deleted r) (split_from r) (routine_unknown r).
Definition set_streak_started_at (v : option Z) (r : Routine) : Routine :=
  mkRoutine
    (routine_id r) (created_at r) (updated_at r) (template r) (rrule r) (timezone r) (starts_at r) (ends_at r)
    (scheduling_constraints r) (skip_dates r) (skipped_keys r) (catchup_policy r) (streak_counter r)
    (last_completed_at r) (grace_window_s r) (forgiveness_enabled r) v (forgivenesses_in_window r)
    (streak_keys r) (paused r) (paused_until r) (archived r) (deleted r) (split_from r) (routine_unknown r).
Definition set_forgivenesses_in_window (v : Z) (r : Routine) : Routine :=
  mkRoutine
    (routine_id r) (created_at r) (updated_at r) (template r) (rrule r) (timezone r) (starts_at r) (ends_at r)
    (scheduling_constraints r) (skip_dates r) (skipped_keys r) (catchup_policy r) (streak_counter r)
    (last_completed_at r) (grace_window_s r) (forgiveness_enabled r) (streak_started_at r) v (streak_keys r)
    (paused r) (paused_until r) (archived r) (deleted r) (split_from r) (routine_unknown r).
Definition set_streak_keys (v : list string) (r : Routine) : Routine :=
  mkRoutine
    (routine_id r) (created_at r) (updated_at r) (template r) (rrule r) (timezone r) (starts_at r) (ends_at r)
    (scheduling_constraints r) (skip_dates r) (skipped_keys r) (catchup_policy r) (streak_counter r)
    (last_completed_at r) (grace_window_s r) (forgiveness_enabled r) (streak_started_at r)
    (forgivenesses_in_window r) v (paused r) (paused_until r) (archived r) (deleted r) (split_from r)
    (routine_unknown r).
Definition set_paused (v : bool) (r : Routine) : Routine :=
  mkRoutine
    (routine_id r) (created_at r) (updated_at r) (template r) (rrule r) (timezone r) (starts_at r) (ends_at r)
    (scheduling_constraints r) (skip_dates r) (skipped_keys r) (catchup_policy r) (streak_counter r)
    (last_completed_at r) (grace_window_s r) (forgiveness_enabled r) (streak_started_at r)
    (forgivenesses_in_window r) (streak_keys r) v (paused_until r) (archived r) (deleted r) (split_from r)
    (routine_unknown r).
Definition set_paused_until (v : option SunriseTime) (r : Routine) : Routine :=
  mkRoutine
    (routine_id r) (created_at r) (updated_at r) (template r) (rrule r) (timezone r) (starts_at r) (ends_at r)
    (scheduling_constraints r) (skip_dates r) (skipped_keys r) (catchup_policy r) (streak_counter r)
    (last_completed_at r) (grace_window_s r) (forgiveness_enabled r) (streak_started_at r)
    (forgivenesses_in_window r) (streak_keys r) (paused r) v (archived r) (deleted r) (split_from r)
    (routine_unknown r).
Definition set_archived (v : bool) (r : Routine) : Routine :=
  mkRoutine
    (routine_id r) (created_at r) (updated_at r) (template r) (rrule r) (timezone r) (starts_at r) (ends_at r)
    (scheduling_constraints r) (skip_dates r) (skipped_keys r) (catchup_policy r) (streak_counter r)
    (last_completed_at r) (grace_window_s r) (forgiveness_enabled r) (streak_started_at r)
    (forgivenesses_in_window r) (streak_keys r) (paused r) (paused_until r) v (deleted r) (split_from r)
    (routine_unknown r).
Definition set_deleted (v : bool) (r : Routine) : Routine :=
  mkRoutine
    (routine_id r) (created_at r) (updated_at r) (template r) (rrule r) (timezone r) (starts_at r) (ends_at r)
    (scheduling_constraints r) (skip_dates r) (skipped_keys r) (catchup_policy r) (streak_counter r)
    (last_completed_at r) (grace_window_s r) (forgiveness_enabled r) (streak_started_at r)
    (forgivenesses_in_window r) (streak_keys r) (paused r) (paused_until r) (archived r) v (split_from r)
    (routine_unknown r).
Definition set_split_from (v : option EntityRef) (r : Routine) : Routine :=
  mkRoutine
    (routine_id r) (created_at r) (updated_at r) (template r) (rrule r) (timezone r) (starts_at r) (ends_at r)
    (scheduling_constraints r) (skip_dates r) (skipped_keys r) (catchup_policy r) (streak_counter r)
    (last_completed_at r) (grace_window_s r) (forgiveness_enabled r) (streak_started_at r)
    (forgivenesses_in_window r) (streak_keys r) (paused r) (paused_until r) (archived r) (deleted r) v
    (routine_unknown r).

Inductive ValidationError :=
  | InvalidTitle | DueBeforeScheduled | PayloadTooLarge | BlockedByCycle | InvalidStreamParent
  | HardScheduleConstraint | PreferenceScope | Field (field constraint : string).

Section routine.
Context `{Jiff}.

(** ** Times a routine holds *)

(** [civil_of]: the wall clock a value names, a legacy instant's in the zone. *)
Definition civil_of (t : SunriseTime) (tzname : string) : option DateTime :=
  match t with
  | Zoned civil _ | Floating civil => Some civil
  | AllDay d => Some (mkDateTime d midnight)
  | Instant at_ => Some (to_civil (default utc (tz_get tzname)) at_)
  | Unknown _ _ => None
  end.

Definition validate_anchor (anchor : SunriseTime) (tzname : string) : result ValidationError unit :=
  match anchor with
  | Floating _ | Instant _ => Ok tt
  | Zoned _ tz => if decide (tz = tzname) then Ok tt else Err (Field "routine.starts_at" "zone_is_timezone")
  | _ => Err (Field "routine.starts_at" "floating_or_zoned")
  end.

Definition validate_end (end_ : option SunriseTime) (anchor : SunriseTime) (tzname : string) : result ValidationError unit :=
  match end_, civil_of anchor tzname with
  | Some end_, Some start =>
      let before := match end_ with
        | AllDay d => bool_decide (d ≺ date start)
        | Unknown _ _ => false
        | _ => from_option (λ e, bool_decide (e ≺ start)) false (civil_of end_ tzname)
        end in
      if before : bool then Err (Field "routine.ends_at" "after_starts_at") else Ok tt
  | _, _ => Ok tt
  end.

Definition read_legacy_instant (t : SunriseTime) (tzname : string) : SunriseTime :=
  match t with
  | Instant at_ =>
      match tz_get tzname with
      | Some zone => Zoned (to_civil zone at_) tzname
      | None => Floating (to_civil utc at_)
      end
  | _ => t
  end.

Definition legacy_instant_of (t : SunriseTime) (tzname : string) : option SunriseTime :=
  match t with
  | Instant _ => Some t
  | Zoned civil tz =>
      if decide (tz = tzname) then
        zone ← tz_get tz; at_ ← to_timestamp zone civil;
        if decide (to_civil zone at_ = civil) then Some (Instant at_) else None
      else None
  | _ => None
  end.

Definition set_rule_until (u : option SunriseTime) (r : Routine) : Routine := set_rrule (set_until (rrule r) u) r.

Definition normalize_legacy_times (r : Routine) : Routine :=
  let tz := timezone r in
  let r := set_starts_at (read_legacy_instant (starts_at r) tz) r in
  let r := set_ends_at ((λ t, read_legacy_instant t tz) <$> ends_at r) r in
  set_rule_until ((λ t, read_legacy_instant t tz) <$> until (rrule r)) r.
Definition normalized (r : Routine) : Routine := normalize_legacy_times r.

Definition is_floating (r : Routine) : bool := match starts_at r with Floating _ => true | _ => false end.
Definition anchor_civil (r : Routine) : option DateTime := civil_of (starts_at r) (timezone r).

Definition occurrence_zone (r : Routine) (reader : TimeZone) : TimeZone :=
  match starts_at r with
  | Zoned _ tz => default reader (tz_get tz)
  | Instant _ => default reader (tz_get (timezone r))
  | _ => reader
  end.

Definition occurrence_time (r : Routine) (civil : DateTime) : SunriseTime :=
  match starts_at r with
  | Zoned _ tz => Zoned civil tz
  | Instant _ => Zoned civil (timezone r)
  | _ => Floating civil
  end.

(** Zoned values in the old zone are pinned to the new one. *)
Definition repin (old new : string) (t : SunriseTime) : SunriseTime :=
  match t with
  | Zoned civil z => if decide (z = old) then Zoned civil new else t
  | _ => t
  end.
Definition rezone (tz : string) (r : Routine) : Routine :=
  let r := normalize_legacy_times r in
  let old := timezone r in
  let r := set_timezone tz r in
  let r := set_starts_at (repin old tz (starts_at r)) r in
  let r := set_ends_at (repin old tz <$> ends_at r) r in
  set_rule_until (repin old tz <$> until (rrule r)) r.
Definition rezone_pinned (r : Routine) : Routine :=
  match starts_at r with
  | Floating civil => set_starts_at (Zoned civil (timezone r)) r
  | _ => r
  end.

Definition validate_times (r : Routine) : result ValidationError unit :=
  let r := normalized r in
  try _ <- validate_anchor (starts_at r) (timezone r);
  validate_end (ends_at r) (starts_at r) (timezone r).

(** An absent value stays absent; a present one must convert. *)
Definition convert (f : SunriseTime → option SunriseTime) (t : option SunriseTime) : option (option SunriseTime) :=
  match t with Some t => Some <$> f t | None => Some None end.
Definition instant_only (t : SunriseTime) : option SunriseTime := match t with Instant _ => Some t | _ => None end.
Definition legacy_wire_form (r : Routine) : option Routine :=
  let tz := timezone r in
  s ← legacy_instant_of (starts_at r) tz;
  e ← convert (λ t, legacy_instant_of t tz) (ends_at r);
  u ← convert (λ t, legacy_instant_of t tz) (until (rrule r));
  p ← convert instant_only (paused_until r);
  l ← convert instant_only (last_completed_at r);
  Some (set_last_completed_at l (set_paused_until p (set_rule_until u (set_ends_at e (set_starts_at s r))))).

Definition materialization_horizon_days (f : Frequency) : Z :=
  match f with Daily | FreqUnknown _ => 14 | Weekly => 60 | Monthly => 180 | Yearly => 540 end.
End routine.

(** ** The occurrences a routine has (series.rs) *)

Section series.
(** [hash16]: the first 16 bytes of BLAKE3 of a byte string. *)
Context `{Jiff} (hash16 : bytes → bytes).

Definition routine_task_domain : bytes := text_bytes "sunrise.routine_task.v1".
Definition occurrence_task_id (routine : EntityRef) (key : string) : EntityRef :=
  mkRef EntityKind.Task (hash16 (routine_task_domain ++ ref_bytes routine ++ text_bytes key)).

Definition occurrence_key_at (tzname : string) (at_ : Z) : result ExpandError string :=
  match tz_get tzname with
  | Some zone => let dt := to_civil zone at_ in Ok (format_key (date dt) (time dt))
  | None => Err (InvalidTimeZone tzname)
  end.

Definition parse_i8 (s : string) : option Z := n ← parse_i32 s; if decide (-128 ≤ n ≤ 127) then Some n else None.
Definition parse_occurrence_key (key : string) : option DateTime :=
  p ← split_once "T" key;
  d ← parse_date p.1;
  q ← split_once ":" p.2;
  h ← parse_i8 q.1; m ← parse_i8 q.2;
  t ← time_new h m 0 0;
  Some (mkDateTime d t).

Definition series_in (r : Routine) (window : Z * Z) (reader : TimeZone) : result ExpandError (list Occurrence) :=
  let r := normalized r in
  match anchor_civil r with
  | None => Ok []
  | Some anchor =>
      let tz := occurrence_zone r reader in
      try occ <- expand (rrule r) anchor tz window;
      Ok (match ends_at r with
          | Some e => filter (λ o, default false (within_bound e (occ_civil o) (occ_at o) tz) = true) occ
          | None => occ
          end)
  end.

Definition is_paused_at (r : Routine) (occ : Occurrence) (reader : TimeZone) : bool :=
  if paused r then
    match paused_until r with
    | None => true
    | Some (Floating civil) => bool_decide (occ_civil occ ≺ civil)
    | Some u => from_option (λ e, bool_decide (occ_at occ < e)) true (resolve_in u reader)
    end
  else false.

Definition is_skipped (r : Routine) (occ : Occurrence) (tz : TimeZone) : bool :=
  bool_decide (occ_key occ ∈ skipped_keys r) ||
  existsb (λ ts, let dt := to_civil tz ts in bool_decide (format_key (date dt) (time dt) = occ_key occ)) (skip_dates r).

Definition occurrences_in (r : Routine) (window : Z * Z) (reader : TimeZone) : result ExpandError (list Occurrence) :=
  if archived r || deleted r || (paused r && bool_decide (paused_until r = None)) then Ok []
  else
    try occ <- series_in r window reader;
    let tz := occurrence_zone r reader in
    Ok (filter (λ o, negb (is_paused_at r o reader) && negb (is_skipped r o tz) = true) occ).

Definition occurrence_instant (r : Routine) (civil : DateTime) (reader : TimeZone) : option Z :=
  resolve_in (occurrence_time (normalized r) civil) reader.

(** Checked arithmetic on timestamps. *)
Definition ts_add (t d : Z) : option Z :=
  if decide (timestamp_min ≤ t + d ≤ timestamp_max) then Some (t + d) else None.
Definition HOUR_NS : Z := 3600000000000.
Definition MINUTE_NS : Z := 60000000000.

Definition series_root (r : Routine) : EntityRef := default (routine_id r) (split_from r).

Definition occurrence_key_of (r : Routine) (task : EntityRef) (near : Z) : option string :=
  let span := 72 * HOUR_NS in
  let window := (default timestamp_min (ts_add near (- span)), default timestamp_max (ts_add near span)) in
  let root := series_root r in
  let r := normalized r in
  anchor ← anchor_civil r;
  match expand (rrule r) anchor utc window with
  | Ok occ => occ_key <$> List.find (λ o, bool_decide (occurrence_task_id root (occ_key o) = task)) occ
  | Err _ => None
  end.
End series.

(** ** Legacy instants read back *)

Section legacy.
Context `{Jiff}.

Lemma legacy_instant_reads_back t tz t' : legacy_instant_of t tz = Some t' → read_legacy_instant t' tz = read_legacy_instant t tz.
Proof.
  unfold legacy_instant_of. destruct t as [at_|civil z| | |]; try done; [by intros [= <-]|]. case_decide as Hz; [subst z|done].
  destruct (tz_get tz) as [zone|] eqn:Ez; cbn [mbind option_bind]; [|done]. destruct (to_timestamp zone civil) as [at_|]; cbn [mbind option_bind]; [|done].
  case_decide as Hc; [|done]. intros [= <-]. cbn [read_legacy_instant]. by rewrite Ez, Hc.
Qed.

Lemma convert_reads_back f g (t t' : option SunriseTime) :
  (∀ x y, f x = Some y → g y = g x) → convert f t = Some t' → (g : SunriseTime → SunriseTime) <$> t' = g <$> t.
Proof.
  intros Hf. destruct t as [x|]; cbn; [|by intros [= <-]]. destruct (f x) as [y|] eqn:E; cbn; [|done]. intros [= <-]. cbn. f_equal. by apply Hf.
Qed.

Lemma convert_instant_only t t' : convert instant_only t = Some t' → t' = t.
Proof. destruct t as [[| | | |]|]; cbn; try done; by intros [= <-]. Qed.

(** A routine written for builds that know only instants is read back as it
    was: whenever the legacy form exists, normalizing it gives what normalizing
    the routine itself gives — a zoned time is written as an instant only when
    its wall clock survives the zone's transitions. *)
Theorem legacy_wire_roundtrip r w : legacy_wire_form r = Some w → normalized w = normalized r.
Proof.
  unfold legacy_wire_form. intros Hw.
  destruct (legacy_instant_of (starts_at r) (timezone r)) as [s|] eqn:Es; cbn [mbind option_bind] in Hw; [|done].
  destruct (convert _ (ends_at r)) as [e|] eqn:Ee; cbn [mbind option_bind] in Hw; [|done].
  destruct (convert _ (until (rrule r))) as [u|] eqn:Eu; cbn [mbind option_bind] in Hw; [|done].
  destruct (convert _ (paused_until r)) as [p|] eqn:Ep; cbn [mbind option_bind] in Hw; [|done].
  destruct (convert _ (last_completed_at r)) as [l|] eqn:El; cbn [mbind option_bind] in Hw; [|done].
  injection Hw as <-. apply convert_instant_only in Ep as ->, El as ->. apply legacy_instant_reads_back in Es.
  apply (convert_reads_back _ (λ t, read_legacy_instant t (timezone r))) in Ee; [|intros x y; apply legacy_instant_reads_back].
  apply (convert_reads_back _ (λ t, read_legacy_instant t (timezone r))) in Eu; [|intros x y; apply legacy_instant_reads_back].
  set (w := set_last_completed_at _ _).
  assert (normalized w = set_rule_until ((λ t, read_legacy_instant t (timezone r)) <$> u)
    (set_ends_at ((λ t, read_legacy_instant t (timezone r)) <$> e) (set_starts_at (read_legacy_instant s (timezone r)) r))) as ->.
  { unfold w. clear. destruct r. vm_compute. reflexivity. }
  rewrite Es, Ee, Eu. clear. by destruct r.
Qed.

(** A zone change keeps every wall clock: the anchor's, and the rule's. *)
Lemma rezone_keeps_wall_clocks r tz :
  anchor_civil (rezone tz r) =
    match starts_at (normalized r) with
    | Instant at_ => Some (to_civil (default utc (tz_get tz)) at_)
    | _ => anchor_civil (normalized r)
    end ∧
  freq (rrule (rezone tz r)) = freq (rrule r) ∧ count (rrule (rezone tz r)) = count (rrule r).
Proof.
  split; [|done]. unfold rezone, anchor_civil. cbn. destruct (read_legacy_instant (starts_at r) (timezone r)) as [|c z| | |]; try done.
  cbn. by case_decide.
Qed.
End legacy.
