(* ===== verification/RoutineEdit.v ===== *)
(** * Edits of a series (sunrise-domain: routine_gen/edit.rs)

    How far an edit reaches, patches, splitting a series at an occurrence,
    which routine of a split chain owns a key, and the catch-up view. *)

From Stdlib Require Import ZArith Lia String Ascii.
From stdpp Require Import base tactics decidable option list sorting gmap strings.
From S2P Require Import Prelude Bytes Registry Cbor Ids Calendar SunriseTime Rrule Constraint RoutineGen Routine.
Open Scope Z_scope.

Inductive EditScope := This (key : string) | ThisAndFuture (key : string) | All.
Definition scope_key (s : EditScope) : option string :=
  match s with This key | ThisAndFuture key => Some key | All => None end.

(** ** Patches *)

Record RoutinePatch := mkPatch {
  p_template : option TaskTemplate;
  p_rrule : option RRule;
  p_timezone : option string;
  p_starts_at : option SunriseTime;
  p_ends_at : option (option SunriseTime);
  p_scheduling_constraints : option (list ScheduleConstraint);
  p_catchup_policy : option RoutineCatchupPolicy;
  p_grace_window_s : option (option Z);
  p_forgiveness_enabled : option bool;
  p_paused : option bool;
  p_paused_until : option (option SunriseTime);
  p_archived : option bool;
}.
Record PatchEffect := mkEffect { structural : bool; eff_template : bool; rezoned_from : option string }.
Definition no_effect : PatchEffect := mkEffect false false None.

Definition is_occurrence_edit (p : RoutinePatch) : bool :=
  bool_decide (p_rrule p = None) && bool_decide (p_timezone p = None) && bool_decide (p_ends_at p = None) &&
  bool_decide (p_catchup_policy p = None) && bool_decide (p_grace_window_s p = None) &&
  bool_decide (p_forgiveness_enabled p = None) && bool_decide (p_paused p = None) &&
  bool_decide (p_paused_until p = None) && bool_decide (p_archived p = None).

(** [if let Some(x) = p { .. }]. *)
Definition when {A B} (o : option A) (f : A → B → B) (b : B) : B := match o with Some x => f x b | None => b end.

(** ** Splits and ownership *)

Inductive SplitError := BadKey (key : string) | NotAnOccurrence (key : string) | SplitExpand (e : ExpandError).
Record SeriesSplit := mkSplit { ended : Routine; continuation : Routine }.

(** Keys compare as text. *)
Definition key_le (a b : string) : bool := match bytes_compare (text_bytes a) (text_bytes b) with Gt => false | _ => true end.

Section edit.
Context `{Jiff} (hash16 : bytes → bytes).

(** The routine as far as the patch got, and what it moved. *)
Definition apply_to (p : RoutinePatch) (r : Routine) (now : Z) : Routine * result ValidationError PatchEffect :=
  let st := (r, no_effect) in
  let st := when (p_template p) (λ t '(r, e),
    (set_template t r, mkEffect (structural e) (eff_template e || bool_decide (template r ≠ t)) (rezoned_from e))) st in
  let st := when (p_rrule p) (λ q '(r, e),
    (set_rrule q r, mkEffect (structural e || bool_decide (rrule r ≠ q)) (eff_template e) (rezoned_from e))) st in
  let st := when (p_timezone p) (λ tz '(r, e),
    if decide (timezone r = tz) then (r, e)
    else (rezone tz r, mkEffect (structural e) (eff_template e) (Some (timezone r)))) st in
  let st := when (p_starts_at p) (λ s '(r, e),
    (set_starts_at s r, mkEffect (structural e || bool_decide (starts_at r ≠ s)) (eff_template e) (rezoned_from e))) st in
  let st := when (p_ends_at p) (λ x '(r, e),
    (set_ends_at x r, mkEffect (structural e || bool_decide (ends_at r ≠ x)) (eff_template e) (rezoned_from e))) st in
  let '(r, e) := st in
  let r := normalize_legacy_times r in
  match validate_times r with
  | Err x => (r, Err x)
  | Ok _ =>
      let '(r, e) := when (p_scheduling_constraints p) (λ l '(r, e),
        (set_scheduling_constraints l r,
         mkEffect (structural e) (eff_template e || bool_decide (scheduling_constraints r ≠ l)) (rezoned_from e))) (r, e) in
      let r := when (p_catchup_policy p) set_catchup_policy r in
      let r := when (p_grace_window_s p) set_grace_window_s r in
      let r := when (p_forgiveness_enabled p) set_forgiveness_enabled r in
      let r := when (p_paused p) set_paused r in
      let r := when (p_paused_until p) set_paused_until r in
      let r := when (p_archived p) set_archived r in
      (set_updated_at now r, Ok e)
  end.

Definition routine_split_domain : bytes := text_bytes "sunrise.routine_split.v1".
Definition split_routine_id (root : EntityRef) (key : string) : EntityRef :=
  mkRef EntityKind.Routine (hash16 (routine_split_domain ++ ref_bytes root ++ text_bytes key)).

Definition civil_utc (civil : DateTime) : option Z := to_timestamp utc civil.

Definition occurrence_civil (r : Routine) (key : string) : option DateTime :=
  let r := normalized r in
  anchor ← anchor_civil r;
  c ← parse_occurrence_key key; at_ ← civil_utc c;
  let end_ := default at_ (ts_add at_ MINUTE_NS) in
  match expand (rrule r) anchor utc (at_, end_) with
  | Ok occ => occ_civil <$> List.find (λ o, bool_decide (occ_key o = key)) occ
  | Err _ => None
  end.

Definition produces_key (r : Routine) (key : string) : bool := is_some (occurrence_civil r key).

Definition has_occurrence (self : Routine) (key : string) : bool :=
  if negb (produces_key self key) || bool_decide (key ∈ skipped_keys self) then false
  else
    let r := normalized self in
    match ends_at r, occurrence_civil r key with
    | Some end_, Some civil =>
        let tz := default utc (tz_get (timezone r)) in
        match occurrence_instant r civil tz with
        | Some at_ => default false (within_bound end_ civil at_ (occurrence_zone r tz))
        | None => false
        end
    | _, _ => true
    end.

Definition split_at (self : Routine) (key : string) (now : Z) : result SplitError SeriesSplit :=
  try _ <- ok_or (parse_occurrence_key key) (BadKey key);
  try civil <- ok_or (occurrence_civil self key) (NotAnOccurrence key);
  let r := normalized self in
  try anchor <- ok_or (anchor_civil r) (NotAnOccurrence key);
  match civil_utc anchor, civil_utc civil with
  | Some from, Some to =>
      match expand (rrule r) anchor utc (from, to) with
      | Err e => Err (SplitExpand e)
      | Ok before =>
          let ended := match last before with
            | Some l => set_rule_until (Some (occurrence_time r (occ_civil l))) r
            | None => set_archived true r
            end in
          let root := series_root r in
          let next := set_routine_id (split_routine_id root key) r in
          let next := set_split_from (Some root) next in
          let next := set_updated_at now (set_created_at now next) in
          let next := set_starts_at (occurrence_time r civil) next in
          let next := set_rrule (set_count (rrule r)
            ((λ c, Z.max 0 (c - Z.min (Z.of_nat (length before)) u32_max)) <$> count (rrule r))) next in
          let next := set_skipped_keys (filter (λ k, key_le key k = true) (skipped_keys r)) next in
          let next := set_streak_keys (filter (λ k, key_le key k = true) (streak_keys r)) next in
          let next := set_streak_started_at None (set_last_completed_at None (set_streak_counter 0 next)) in
          let next := set_deleted false (set_archived false (set_forgivenesses_in_window 0 next)) in
          Ok (mkSplit (set_updated_at now ended) next)
      end
  | _, _ => Err (NotAnOccurrence key)
  end.

Definition anchor_key (r : Routine) : option string :=
  (λ a, format_key (date a) (time a)) <$> anchor_civil (normalized r).

Definition owns_key (self : Routine) (key : string) (chain : list Routine) : bool :=
  match parse_occurrence_key key, anchor_key self with
  | Some _, Some mine =>
      if key_le mine key then
        negb (existsb (λ other,
          bool_decide (routine_id other ≠ routine_id self) && negb (deleted other) &&
          bool_decide (series_root other = series_root self) &&
          from_option (λ a, key_le a key &&
            bool_decide ((text_bytes mine, routine_id self) ≺ (text_bytes a, routine_id other))) false (anchor_key other)) chain)
      else false
  | _, _ => false
  end.
End edit.

(** ** Catch-up *)

Record CatchupView := mkCatchup { lapsed : gset EntityRef; merged : gmap EntityRef nat }.
Definition catchup_view (policy : RoutineCatchupPolicy) (past_open : list EntityRef) : CatchupView :=
  match policy with
  | CatchSkip => mkCatchup (list_to_set past_open) ∅
  | CatchMerge =>
      match last past_open with
      | Some latest =>
          let older := removelast past_open in
          if decide (older = []) then mkCatchup ∅ ∅
          else mkCatchup (list_to_set older) {[ latest := length past_open ]}
      | None => mkCatchup ∅ ∅
      end
  | CatchQueue | CatchUnknown _ => mkCatchup ∅ ∅
  end.
Definition extend_view (v o : CatchupView) : CatchupView := mkCatchup (lapsed v ∪ lapsed o) (merged o ∪ merged v).
Definition catchup_title (title : string) (n : nat) : string :=
  String.append title (String.append " (x" (String.append (show_int (Z.of_nat n)) " catch-up)")).
