(* ===== verification/SplitSeries.v ===== *)
(** * A split partitions its series

    Anchoring a rule at one of its own occurrences shifts its periods and
    nothing else, so the two routines a split leaves generate, between them,
    exactly what the one generated; and in a chain of split routines each key
    has one owner. *)

From Stdlib Require Import ZArith Lia String Ascii.
From stdpp Require Import base tactics decidable option list sorting gmap strings.
From S2P Require Import Prelude Bytes Registry Cbor Ids Calendar SunriseTime Rrule Constraint RoutineGen Routine RoutineEdit.
Open Scope Z_scope.

(** ** A rule anchored at one of its dates *)

Section shift.
Context `{JiffLaws} (r : RRule) (anchor : DateTime).
Hypothesis anchor_valid : valid (date anchor).
Hypothesis anchor_year : 0 ≤ year (date anchor).
Let a := date anchor.
Let w := rule_wkst r.
Let i := rule_interval r.

Lemma span_days_iff x n s : valid x → 0 ≤ n → span_add x SpanDays n = Some s ↔ valid s ∧ day_number s = day_number x + n.
Proof.
  intros Hx Hn. rewrite span_add_Some. split.
  - intros [Hf Hs]. by apply add_days_spec in Hs.
  - intros [Hs Hd]. assert (span_fits SpanDays n = true) as Hf by (apply (span_fits_reach SpanDays x s); done).
    split; [done|]. by apply add_days_spec.
Qed.
Lemma span_weeks_iff x n s : valid x → 0 ≤ n → span_add x SpanWeeks n = Some s ↔ valid s ∧ day_number s = day_number x + 7 * n.
Proof.
  intros Hx Hn. rewrite span_add_Some. split.
  - intros [Hf Hs]. by apply add_weeks_spec in Hs.
  - intros [Hs Hd]. assert (span_fits SpanWeeks n = true) as Hf by (apply (span_fits_reach SpanWeeks x s); done).
    split; [done|]. by apply add_weeks_spec.
Qed.
Lemma span_months_iff x n s : valid x → 0 ≤ year x → day x = 1 → 0 ≤ n →
  span_add x SpanMonths n = Some s ↔ valid s ∧ day s = 1 ∧ 12 * year s + month s = 12 * year x + month x + n.
Proof.
  intros Hx Hy Hone Hn. rewrite span_add_Some. split.
  - intros [Hf Hs]. by apply add_months_spec in Hs.
  - intros (Hs & Hd & Hm). assert (span_fits SpanMonths n = true) as Hf by (apply (span_fits_reach SpanMonths x s); done).
    split; [done|]. by apply add_months_spec.
Qed.

(** Two dates of one week have one start. *)
Lemma week_start_in d e v k :
  valid d → 0 ≤ year d → valid e → 0 ≤ year e → 0 ≤ v < 7 →
  day_number (week_start d v) + 7 * k ≤ day_number e < day_number (week_start d v) + 7 * k + 7 →
  day_number (week_start e v) = day_number (week_start d v) + 7 * k.
Proof.
  intros Hd Hy He Hye Hv. rewrite !week_start_number by done. rewrite !weekday_number by done.
  generalize (day_number d) (day_number e). intros x y Hin. Z.to_euclidean_division_equations. lia.
Qed.

Context (p0 : Z) (d : Date).
Hypothesis p0_pos : 0 ≤ p0.
Hypothesis pivot : d ∈ period_dates r anchor p0.
Hypothesis pivot_from : ¬ d ≺ a.

Lemma pivot_facts : valid d ∧ in_period r a w p0 i d ∧ is_Some (period_start_date r a w p0 i) ∧ falls_on r anchor d = true ∧ 0 ≤ year d.
Proof.
  pose proof (period_dates_spec r anchor anchor_valid p0 d pivot) as (Hv & Hin & Hs).
  split; [done|]. split; [done|]. split; [done|]. split.
  - apply (candidates_exact r anchor anchor_valid p0 d Hv Hs Hin).
    unfold period_dates in pivot. apply elem_of_apply_setpos in pivot. by rewrite elem_of_sorted_dates in pivot.
  - rewrite Date_lt in pivot_from. fold a in anchor_year. lia.
Qed.

Lemma option_ext {A} (x y : option A) : (∀ s, x = Some s ↔ y = Some s) → x = y.
Proof. apply option_eq. Qed.

(** Periods from the pivot are the anchor's, [p0] later. *)
Lemma period_start_shift p : 0 ≤ p → period_start_date r d w p i = period_start_date r a w (p0 + p) i.
Proof.
  intros Hp. destruct pivot_facts as (Hv & Hin & _ & _ & Hyd).
  pose proof (rule_interval_pos r) as Hi. pose proof (rule_wkst_bounds r) as Hw. fold w in Hw. fold i in Hi.
  assert (0 ≤ p * i ∧ 0 ≤ (p0 + p) * i ∧ 0 ≤ p0 * i) as (? & ? & ?) by nia.
  unfold in_period in Hin. unfold period_start_date. destruct (freq r).
  - apply option_ext. intros s. rewrite !span_days_iff by done. rewrite Hin. by replace (day_number a + (p0 + p) * i) with (day_number a + p0 * i + p * i) by lia.
  - apply option_ext. intros s. rewrite !span_weeks_iff by (done || by apply week_start_valid).
    rewrite (week_start_in a d w (p0 * i)) by done.
    by replace (day_number (week_start a w) + 7 * ((p0 + p) * i)) with (day_number (week_start a w) + 7 * (p0 * i) + 7 * (p * i)) by lia.
  - apply option_ext. intros s. rewrite !first_of_month_eq. destruct Hv as (? & ? & ?), anchor_valid as (? & ? & ?).
    fold a in anchor_year. rewrite !span_months_iff by (done || by apply valid_first). cbn [year month].
    by replace (12 * year a + month a + (p0 + p) * i) with (12 * year d + month d + p * i) by lia.
  - rewrite Hin. by replace (year a + p0 * i + p * i) with (year a + (p0 + p) * i) by lia.
  - done.
Qed.

Lemma month_candidates_shift first :
  match by_month_day r, by_day r with [], [] => day d = day a | _, _ => True end →
  month_candidates r d first = month_candidates r a first.
Proof. unfold month_candidates. destruct (by_month_day r), (by_day r); try done. by intros ->. Qed.

Lemma period_candidates_shift p : 0 ≤ p → period_candidates r d w p i = period_candidates r a w (p0 + p) i.
Proof.
  intros Hp. pose proof (period_start_shift p Hp) as Hstart. destruct pivot_facts as (Hv & Hin & _ & Hf & _).
  unfold period_start_date in Hstart. unfold period_candidates. unfold falls_on in Hf. unfold in_period in Hin. destruct (freq r).
  - by rewrite Hstart.
  - rewrite Hstart. clear Hstart. destruct (span_add _ _ _) as [ws|]; [|done]. apply list_omap_ext. apply Forall_Forall2_diag, Forall_forall. intros k _.
    destruct (checked_add ws SpanDays k) as [e|]; [|done]. cbn [mbind option_bind].
    assert (weekday_ok r d e = weekday_ok r a e) as ->; [|done]. unfold weekday_ok in *. destruct (by_day r); [|done].
    apply andb_true_iff in Hf as [_ Hf]. apply andb_true_iff in Hf as [Hf _]. apply bool_decide_eq_true in Hf. by rewrite Hf.
  - rewrite Hstart. clear Hstart. destruct (span_add _ _ _) as [first|]; [|done]. apply month_candidates_shift.
    apply andb_true_iff in Hf as [_ Hf]. destruct (by_month_day r), (by_day r); try done. by apply bool_decide_eq_true in Hf.
  - clear Hstart. rewrite Hin. replace (year a + p0 * i + p * i) with (year a + (p0 + p) * i) by lia. destruct (in_i16 _); [|done].
    apply andb_true_iff in Hf as [_ Hf]. apply andb_true_iff in Hf as [Hf Hm].
    assert (match by_month r with [] => [month d] | l => filter (λ m, m ≤ 127) l end = match by_month r with [] => [month a] | l => filter (λ m, m ≤ 127) l end) as ->.
    { destruct (by_month r); [|done]. apply bool_decide_eq_true in Hm. by rewrite Hm. }
    apply list_bind_ext; [|done]. intros m. destruct (date_new _ m 1); [|done]. apply month_candidates_shift.
    destruct (by_month_day r), (by_day r); try done. by apply bool_decide_eq_true in Hf.
  - done.
Qed.

Let pivot_anchor := mkDateTime d (time anchor).
Lemma series_dates_shift n p : 0 ≤ p → series_dates r pivot_anchor n p = series_dates r anchor n (p0 + p).
Proof.
  revert p. induction n as [|n IH]; intros p Hp; cbn [series_dates date pivot_anchor]; [done|]. fold a w i.
  rewrite period_start_shift by done. destruct (period_start_date _ _ _ _ _); [|done].
  unfold period_dates at 1. cbn [date pivot_anchor]. fold w i. rewrite period_candidates_shift by done. f_equal.
  rewrite IH by lia. f_equal. lia.
Qed.

(** Every period before the pivot's starts. *)
Lemma start_below q : 0 ≤ q ≤ p0 → is_Some (period_start_date r a w q i).
Proof.
  intros Hq. destruct pivot_facts as (Hv & Hin & [s Hs] & _ & _).
  pose proof (rule_interval_pos r) as Hi. fold i in Hi. assert (0 ≤ q * i ≤ p0 * i) by nia.
  apply (start_exists_below r anchor anchor_valid p0 q d); [done|done| |done].
  unfold reaches. unfold period_start_date in Hs. destruct (freq r); try done.
  all: apply span_add_Some in Hs as [Hf _]; by eapply span_fits_less.
Qed.

Lemma series_dates_app k n p :
  (∀ q, p ≤ q < p + Z.of_nat k → is_Some (period_start_date r a w q i)) →
  series_dates r anchor (k + n) p = series_dates r anchor k p ++ series_dates r anchor n (p + Z.of_nat k).
Proof.
  revert p. induction k as [|k IH]; intros p Hs; [by rewrite Z.add_0_r|]. cbn [Nat.add series_dates]. fold a w i.
  destruct (Hs p) as [s ->]; [lia|]. rewrite IH by (intros q Hq; apply Hs; lia). rewrite <-(assoc_L app). f_equal. f_equal. f_equal. lia.
Qed.

(** The dates from the pivot's period on are the continuation's. *)
Lemma series_dates_pivot m :
  series_dates r anchor (Z.to_nat p0 + m) 0 = series_dates r anchor (Z.to_nat p0) 0 ++ series_dates r pivot_anchor m 0.
Proof.
  rewrite series_dates_app by (intros q Hq; apply start_below; lia). f_equal. rewrite series_dates_shift by lia. f_equal. lia.
Qed.

Lemma dates_before_pivot x : x ∈ series_dates r anchor (Z.to_nat p0) 0 → x ≺ d.
Proof.
  intros (q & Hq & Hx)%(series_dates_spec r anchor). apply (period_dates_spec r anchor anchor_valid) in Hx as (Hxv & Hx & _).
  destruct pivot_facts as (Hv & Hin & _). apply (in_period_lt r a w q p0 i); try done; [lia|apply rule_interval_pos].
Qed.
End shift.

(** ** Lists around a pivot *)

Lemma dates_split (d : Date) l :
  StronglySorted tlt l → l = filter (λ x, x ≺ d) l ++ filter (λ x, ¬ x ≺ d) l.
Proof. exact (sorted_split (λ x, x) d l). Qed.

Lemma omap_filter_None {A B} (f : A → option B) (P : A → Prop) `{∀ x, Decision (P x)} (l : list A) :
  (∀ x, ¬ P x → f x = None) → omap f (filter P l) = omap f l.
Proof.
  intros Hf. induction l as [|x l IH]; [done|]. rewrite filter_cons. cbn [omap list_omap]. case_decide as HP; cbn [omap list_omap].
  - destruct (f x); by rewrite <-IH.
  - by rewrite (Hf x HP).
Qed.

Lemma omap_same {A B} (f g : A → option B) (l : list A) : (∀ x, x ∈ l → f x = g x) → omap f l = omap g l.
Proof. intros Hfg. apply list_omap_ext, Forall_Forall2_diag, Forall_forall. done. Qed.

Lemma filter_same {A} (P Q : A → Prop) `{∀ x, Decision (P x)} `{∀ x, Decision (Q x)} (l : list A) :
  (∀ x, x ∈ l → P x ↔ Q x) → filter P l = filter Q l.
Proof.
  induction l as [|x l IH]; intros Hl; [done|]. rewrite !filter_cons, IH by (intros y Hy; apply Hl; by right).
  destruct (decide (P x)) as [HP|HP], (decide (Q x)) as [HQ|HQ]; try done; exfalso; [apply HQ|apply HP]; apply (Hl x); by first [left|done].
Qed.

Lemma take_while_pivot {A} (P : A → bool) m l1 x l2 :
  x ∈ take_while P (take m (l1 ++ x :: l2)) → x ∉ l1 →
  (length l1 < m)%nat ∧ Forall (λ y, P y = true) l1 ∧ P x = true.
Proof.
  revert m. induction l1 as [|y l1 IH]; intros m Hx Hn.
  - destruct m as [|m]; [by apply not_elem_of_nil in Hx|]. cbn [app take take_while] in Hx.
    destruct (P x) eqn:E; [|by apply not_elem_of_nil in Hx]. split; [simpl; lia|done].
  - destruct m as [|m]; [by apply not_elem_of_nil in Hx|]. cbn [app take take_while] in Hx.
    destruct (P y) eqn:E; [|by apply not_elem_of_nil in Hx]. apply elem_of_cons in Hx as [->|Hx]; [by destruct Hn; left|].
    destruct (IH m Hx) as (? & ? & ?); [intros ?; by destruct Hn; right|]. split; [simpl; lia|]. by split; [constructor|].
Qed.

Lemma take_while_all {A} (P : A → bool) l1 l2 :
  Forall (λ y, P y = true) l1 → take_while P (l1 ++ l2) = l1 ++ take_while P l2.
Proof. intros Hall. rewrite take_while_app. assert (forallb P l1 = true) as ->; [|done]. apply forallb_forall. intros y Hy. rewrite Forall_forall in Hall. apply Hall. by apply list_elem_of_In. Qed.

Lemma series_dates_extend `{Jiff} r A k j p : ∃ l, series_dates r A (k + j) p = series_dates r A k p ++ l.
Proof.
  revert p. induction k as [|k IH]; intros p; [by eexists|]. cbn [series_dates Nat.add].
  destruct (period_start_date _ _ _ _ _) as [s|]; [|by exists []]. destruct (IH (p + 1)) as [l ->]. exists l. by rewrite (assoc_L app).
Qed.

Lemma stops_sooner `{Jiff} r r' tz n l :
  count r' = count r → (∀ o, o ∈ l → before_until r' tz o = true → before_until r tz o = true) →
  stops r tz n l = true → stops r' tz n l = true.
Proof.
  intros Hc. revert n. induction l as [|o l IH]; intros n Hb; [done|]. cbn [stops]. unfold count_reached. rewrite Hc, !orb_true_iff, !negb_true_iff.
  intros [[Hn|Hn]|Hn]; [left; left|by left; right|right].
  - apply not_true_is_false. intros Ht. rewrite (Hb o) in Hn; [done|left|done].
  - apply IH; [|done]. intros x Hx. apply Hb. by right.
Qed.

(** ** UNTIL that compares civil times *)

Definition civil_until (u : option SunriseTime) : Prop :=
  match u with None | Some (Floating _) | Some (AllDay _) => True | _ => False end.

Section pivot.
Context `{JiffLaws} (r : RRule) (anchor : DateTime).
Hypothesis anchor_valid : valid (date anchor).
Hypothesis anchor_year : 0 ≤ year (date anchor).
Context (p0 : Z) (d : Date).
Hypothesis p0_pos : 0 ≤ p0.
Hypothesis pivot : d ∈ period_dates r anchor p0.
Hypothesis pivot_from : ¬ d ≺ date anchor.
Let pivot_anchor := mkDateTime d (time anchor).
Context (m : nat).
Hypothesis m_pos : (0 < m)%nat.
Let L := series_dates r anchor (Z.to_nat p0 + m) 0.

(** What comes before the pivot, and what is left from it on. *)
Definition before_pivot (tz : TimeZone) : list Occurrence := omap (place anchor tz) (filter (λ x, x ≺ d) L).
Definition from_pivot (tz : TimeZone) : list Occurrence := omap (place pivot_anchor tz) (series_dates r pivot_anchor m 0).

Lemma filtered_dates : filter (λ x, ¬ x ≺ d) L = filter (λ x, ¬ x ≺ d) (series_dates r pivot_anchor m 0).
Proof.
  unfold L. rewrite (series_dates_pivot r anchor anchor_valid anchor_year p0 d p0_pos pivot pivot_from m).
  rewrite filter_app, filter_none; [done|]. intros x Hx Hn. apply Hn.
  by eapply dates_before_pivot.
Qed.

Lemma placed_at_pivot tz : omap (place anchor tz) L = before_pivot tz ++ from_pivot tz.
Proof.
  unfold L at 1. fold L. rewrite (dates_split d L) at 1 by (apply series_dates_strict; done). rewrite omap_app. f_equal.
  rewrite filtered_dates. unfold from_pivot. rewrite <-(omap_filter_None (place pivot_anchor tz) (λ x, ¬ x ≺ d)).
  - apply omap_same. intros x [Hx _]%list_elem_of_filter. unfold place. cbn [date time pivot_anchor].
    rewrite (decide_False (P := x ≺ d)) by done. rewrite decide_False; [done|]. intros Hxa. apply Hx.
    apply tle_not_tlt in pivot_from. by eapply tlt_tle_trans.
  - intros x Hx. unfold place. cbn [date pivot_anchor]. rewrite decide_True; [done|]. by destruct (decide (x ≺ d)).
Qed.

(** The pivot comes first from there on. *)
Lemma pivot_first : ∃ l, filter (λ x, ¬ x ≺ d) L = d :: l ∧ Forall (λ x, d ≺ x) l.
Proof.
  assert (d ∈ L) as Hd.
  { unfold L. rewrite (series_dates_pivot r anchor anchor_valid anchor_year p0 d p0_pos pivot pivot_from m). apply elem_of_app. right.
    destruct m as [|m']; [lia|]. cbn [series_dates date pivot_anchor].
    pose proof (period_start_shift r anchor anchor_valid anchor_year p0 d p0_pos pivot pivot_from 0 ltac:(lia)) as Hs. rewrite Hs.
    destruct (start_below r anchor anchor_valid anchor_year p0 d pivot pivot_from p0 ltac:(lia)) as [s Hs']. rewrite Z.add_0_r, Hs'.
    apply elem_of_app. left. unfold period_dates. cbn [date pivot_anchor].
    rewrite (period_candidates_shift r anchor anchor_valid anchor_year p0 d p0_pos pivot pivot_from 0 ltac:(lia)), Z.add_0_r. exact pivot. }
  assert (StronglySorted tlt (filter (λ x, ¬ x ≺ d) L)) as Hs by (eapply StronglySorted_sublist; [apply sublist_filter|by apply series_dates_strict]).
  assert (d ∈ filter (λ x, ¬ x ≺ d) L) as Hin by (apply list_elem_of_filter; split; [apply tlt_irrefl|done]).
  assert (∀ x, x ∈ filter (λ x, ¬ x ≺ d) L → ¬ x ≺ d) as Hge by (by intros x [? _]%list_elem_of_filter).
  destruct (filter (λ x, ¬ x ≺ d) L) as [|x l]; [by apply not_elem_of_nil in Hin|]. exists l.
  apply StronglySorted_inv in Hs as [_ Hall]. rewrite Forall_forall in Hall. apply elem_of_cons in Hin as [<-|Hin]; [split; [done|by apply Forall_forall]|].
  exfalso. apply (Hge x); [by left|]. by apply Hall.
Qed.

Lemma from_pivot_head tz o :
  place anchor tz d = Some o →
  ∃ rest, from_pivot tz = o :: rest ∧ Forall (λ o', d ≺ date (occ_civil o')) rest.
Proof.
  intros Ho. pose proof (placed_at_pivot tz) as Hp. rewrite (dates_split d L) in Hp at 1 by (by apply series_dates_strict).
  rewrite omap_app in Hp. apply app_inv_head in Hp. rewrite <-Hp. destruct pivot_first as (l & -> & Hl).
  exists (omap (place anchor tz) l). cbn [omap list_omap]. rewrite Ho. split; [done|].
  apply Forall_forall. intros o' (x & Hx & Hp')%list_elem_of_omap. apply place_Some in Hp' as (_ & -> & _).
  rewrite Forall_forall in Hl. by apply Hl.
Qed.

Lemma before_pivot_dates tz : Forall (λ o, date (occ_civil o) ≺ d) (before_pivot tz).
Proof.
  apply Forall_forall. intros o (x & [Hx _]%list_elem_of_filter & Hp)%list_elem_of_omap. by apply place_Some in Hp as (_ & -> & _).
Qed.

(** Zones that place the same dates before the pivot show the same wall
    clocks there. *)
Definition places_alike (tz tz' : TimeZone) : Prop :=
  ∀ x, valid x → date anchor ≼ x → x ≺ d →
    is_Some (to_timestamp tz (mkDateTime x (time anchor))) ↔ is_Some (to_timestamp tz' (mkDateTime x (time anchor))).

Lemma place_civil tz x : occ_civil <$> place anchor tz x =
  if decide (x ≺ date anchor) then None else (λ _, mkDateTime x (time anchor)) <$> to_timestamp tz (mkDateTime x (time anchor)).
Proof. unfold place. case_decide; [done|]. by destruct (to_timestamp _ _). Qed.

Lemma place_alike tz tz' x :
  places_alike tz tz' → x ∈ L → x ≺ d → occ_civil <$> place anchor tz x = occ_civil <$> place anchor tz' x.
Proof.
  intros Hal Hx Hxd. apply series_dates_spec in Hx as (q & _ & Hx). apply (period_dates_spec r anchor anchor_valid) in Hx as (Hxv & _).
  rewrite !place_civil. case_decide as Hge; [done|]. specialize (Hal x Hxv (proj2 (tle_not_tlt _ _) Hge) Hxd).
  destruct (to_timestamp tz _), (to_timestamp tz' _); try done.
  - destruct Hal as [Hal _]. by destruct Hal.
  - destruct Hal as [_ Hal]. by destruct Hal.
Qed.

Lemma fmap_omap {A B C} (f : A → option B) (g : B → C) (l : list A) : g <$> omap f l = omap (λ x, g <$> f x) l.
Proof. induction l as [|x l IH]; [done|]. cbn [omap list_omap]. destruct (f x); cbn; by rewrite <-IH. Qed.

Lemma before_pivot_alike tz tz' : places_alike tz tz' → occ_civil <$> before_pivot tz = occ_civil <$> before_pivot tz'.
Proof.
  intros Hal. unfold before_pivot. rewrite !fmap_omap. apply omap_same. intros x [Hxd Hx]%list_elem_of_filter. by apply place_alike.
Qed.

(** *** The pivot is an occurrence of the series *)

Hypothesis by_civil : civil_until (until r).

Definition within_civil (c : DateTime) : bool :=
  match until r with
  | Some (Floating b) => bool_decide (c ≼ b)
  | Some (AllDay b) => bool_decide (date c ≼ b)
  | _ => true
  end.
Lemma before_until_civil tz o : before_until r tz o = within_civil (occ_civil o).
Proof.
  unfold before_until, past_until, within_civil. destruct (until r) as [[| | | |]|]; try done; cbn; by rewrite negb_involutive.
Qed.

Context (pivot_occ : Occurrence).
Let n := (Z.to_nat p0 + m)%nat.
Hypothesis pivot_in : pivot_occ ∈ the_series r anchor utc n.
Hypothesis pivot_date : date (occ_civil pivot_occ) = d.

Lemma pivot_placed : place anchor utc d = Some pivot_occ.
Proof.
  pose proof pivot_in as Hin. unfold the_series in Hin. apply elem_of_take_while in Hin as [Hin _].
  assert (pivot_occ ∈ omap (place anchor utc) (series_dates r anchor n 0)) as Ho.
  { unfold counted in Hin. destruct (count r); [|done]. apply elem_of_take in Hin as (j & Hj & _). by eapply list_elem_of_lookup_2. }
  apply list_elem_of_omap in Ho as (x & _ & Hx). pose proof (place_Some _ _ _ _ Hx) as (_ & Heq & _).
  rewrite Heq in pivot_date. cbn in pivot_date. by rewrite <-pivot_date.
Qed.

(** How many come before, and that all of them do. *)
Definition kept_before : Z := Z.of_nat (length (before_pivot utc)).

Lemma pivot_facts_utc :
  from_option (λ c, kept_before < c) True (count r) ∧
  Forall (λ o, within_civil (occ_civil o) = true) (before_pivot utc) ∧ within_civil (occ_civil pivot_occ) = true.
Proof.
  destruct (from_pivot_head utc pivot_occ pivot_placed) as (rest & Hfrom & _).
  pose proof pivot_in as Hin. unfold the_series in Hin. fold L in Hin. unfold n in Hin. fold L in Hin.
  rewrite placed_at_pivot, Hfrom in Hin.
  assert (pivot_occ ∉ before_pivot utc) as Hnot.
  { intros Hb. pose proof (before_pivot_dates utc) as Hd. rewrite Forall_forall in Hd. specialize (Hd _ Hb).
    rewrite pivot_date in Hd. by apply tlt_irrefl in Hd. }
  assert (∃ k, (length (before_pivot utc) < k)%nat ∧ (from_option (λ c, Z.of_nat k ≤ Z.max 0 c) True (count r)) ∧
    pivot_occ ∈ take_while (before_until r utc) (take k (before_pivot utc ++ pivot_occ :: rest)) ) as (k & Hk & Hc & Hin').
  { unfold counted in Hin. destruct (count r) as [c|] eqn:Ec.
    - exists (Z.to_nat (c - 0)). split; [|split; [cbn; lia|done]]. by apply take_while_pivot in Hin as (? & _).
    - exists (S (length (before_pivot utc ++ pivot_occ :: rest))). split; [rewrite length_app; lia|]. split; [done|].
      by rewrite take_ge by lia. }
  apply take_while_pivot in Hin' as (_ & Hall & Hp); [|done]. rewrite before_until_civil in Hp. split_and!; [|eapply Forall_impl; [exact Hall|]; intros o Ho; by rewrite <-(before_until_civil utc)|done].
  destruct (count r) as [c|]; [|done]. cbn in Hc |- *. unfold kept_before. lia.
Qed.

(** *** The three series *)

Section zone.
Context (tz : TimeZone).
Hypothesis alike : places_alike tz utc.

Lemma before_pivot_length : Z.of_nat (length (before_pivot tz)) = kept_before.
Proof.
  unfold kept_before. pose proof (f_equal length (before_pivot_alike tz utc alike)) as E. rewrite !length_fmap in E. by rewrite E.
Qed.

Lemma before_pivot_within : Forall (λ o, before_until r tz o = true) (before_pivot tz).
Proof.
  destruct pivot_facts_utc as (_ & Hall & _). assert (Forall (λ c, within_civil c = true) (occ_civil <$> before_pivot tz)) as Hc.
  { rewrite (before_pivot_alike tz utc alike). by apply Forall_fmap. }
  apply Forall_fmap in Hc. eapply Forall_impl; [exact Hc|]. intros o Ho. by rewrite before_until_civil.
Qed.

Lemma before_pivot_runs : stops r tz 0 (before_pivot tz) = false.
Proof.
  apply stops_not; [apply before_pivot_within|]. rewrite Z.add_0_l, before_pivot_length.
  destruct pivot_facts_utc as (Hk & _ & _). destruct (count r); [cbn in *; lia|done].
Qed.

Lemma counted_app k l1 l2 :
  from_option (λ c, k + Z.of_nat (length l1) ≤ c) True (count r) → counted r k (l1 ++ l2) = l1 ++ counted r (k + Z.of_nat (length l1)) l2.
Proof.
  unfold counted. destruct (count r) as [c|]; [|done]. cbn. intros Hc. rewrite take_app, take_ge by lia. f_equal. f_equal. lia.
Qed.

Lemma series_cut :
  the_series r anchor tz n = before_pivot tz ++ take_while (before_until r tz) (counted r kept_before (from_pivot tz)).
Proof.
  unfold the_series, n. fold L. rewrite placed_at_pivot. pose proof before_pivot_length as Hlen.
  destruct pivot_facts_utc as (Hk & _ & _). rewrite counted_app, take_while_all, Hlen; [done|apply before_pivot_within|].
  destruct (count r); [|done]. cbn in Hk |- *. lia.
Qed.

Lemma series_dates_count c q p A' : series_dates (set_count r c) A' q p = series_dates r A' q p.
Proof. revert p. induction q as [|q IH]; intros p; [done|]. cbn [series_dates]. by rewrite IH. Qed.
Lemma series_dates_until u q p A' : series_dates (set_until r u) A' q p = series_dates r A' q p.
Proof. revert p. induction q as [|q IH]; intros p; [done|]. cbn [series_dates]. by rewrite IH. Qed.

Lemma continuation_series :
  the_series (set_count r ((λ c, c - kept_before) <$> count r)) pivot_anchor tz m =
    take_while (before_until r tz) (counted r kept_before (from_pivot tz)).
Proof.
  unfold the_series. rewrite series_dates_count. fold (from_pivot tz).
  assert (before_until (set_count r ((λ c, c - kept_before) <$> count r)) tz = before_until r tz) as -> by done. f_equal.
  unfold counted. cbn [count set_count]. destruct (count r) as [c|]; [|done]. cbn [fmap option_fmap option_map]. f_equal. lia.
Qed.

Lemma continuation_stops k l :
  stops (set_count r ((λ c, c - kept_before) <$> count r)) tz k l = stops r tz (k + kept_before) l.
Proof.
  revert k. induction l as [|o l IH]; intros k; [done|]. cbn [stops]. rewrite IH.
  replace (k + kept_before + 1) with (k + 1 + kept_before) by lia. f_equal. f_equal.
  unfold count_reached. cbn [count set_count]. destruct (count r) as [c|]; [|done]. cbn [fmap option_fmap option_map].
  apply bool_decide_ext. lia.
Qed.

(** Where the scan of the series stops, the continuation's does too, [p0]
    periods earlier. *)
Lemma continuation_ends window q :
  (q < m)%nat →
  period_past r anchor tz window (Z.of_nat q) ∨ stops r tz 0 (omap (place anchor tz) (series_dates r anchor (S q) 0)) = true →
  ∃ q', (q' < m)%nat ∧
    (period_past (set_count r ((λ c, c - kept_before) <$> count r)) pivot_anchor tz window (Z.of_nat q') ∨
     stops (set_count r ((λ c, c - kept_before) <$> count r)) tz 0
       (omap (place pivot_anchor tz) (series_dates r pivot_anchor (S q') 0)) = true).
Proof.
  intros Hq [Hpast|Hst].
  - exists (q - Z.to_nat p0)%nat. split; [lia|]. left. unfold period_past in *. cbn [date pivot_anchor].
    change (rule_wkst (set_count r _)) with (rule_wkst r). change (rule_interval (set_count r _)) with (rule_interval r).
    change (period_start_date (set_count r _)) with (period_start_date r).
    rewrite (period_start_shift r anchor anchor_valid anchor_year p0 d p0_pos pivot pivot_from) by lia.
    destruct (decide (p0 ≤ Z.of_nat q)) as [Hle|Hgt].
    { by replace (p0 + Z.of_nat (q - Z.to_nat p0)) with (Z.of_nat q) by lia. }
    replace (p0 + Z.of_nat (q - Z.to_nat p0)) with p0 by lia.
    destruct (start_below r anchor anchor_valid anchor_year p0 d pivot pivot_from (Z.of_nat q)) as [s Hs]; [lia|]. rewrite Hs in Hpast.
    destruct (start_below r anchor anchor_valid anchor_year p0 d pivot pivot_from p0) as [s' Hs']; [lia|]. rewrite Hs'.
    eapply tlt_trans; [exact Hpast|]. pose proof (rule_wkst_bounds r) as Hw.
    apply period_start_spec in Hs as (Hv & Hin & _), Hs' as (Hv' & Hin' & _); try done.
    apply (in_period_lt r (date anchor) (rule_wkst r) (Z.of_nat q) p0 (rule_interval r)); try done; [lia|apply rule_interval_pos].
  - exists (m - 1)%nat. split; [lia|]. right. replace (S (m - 1)) with m by lia. rewrite continuation_stops, Z.add_0_l.
    fold (from_pivot tz). pose proof (placed_at_pivot tz) as Hp. unfold L in Hp.
    assert (∃ l, series_dates r anchor (Z.to_nat p0 + m) 0 = series_dates r anchor (S q) 0 ++ l) as [l Hl].
    { replace (Z.to_nat p0 + m)%nat with (S q + (Z.to_nat p0 + m - S q))%nat by lia. apply series_dates_extend. }
    assert (stops r tz 0 (before_pivot tz ++ from_pivot tz) = true) as Hall.
    { rewrite <-Hp, Hl, omap_app, stops_app, Hst. done. }
    rewrite stops_app, before_pivot_runs, before_pivot_length in Hall. exact Hall.
Qed.

Lemma ended_series u l :
  last (before_pivot tz) = Some l →
  (∀ o, within_bound u (occ_civil o) (occ_at o) tz = Some (bool_decide (occ_civil o ≼ occ_civil l))) →
  the_series (set_until r (Some u)) anchor tz n = before_pivot tz.
Proof.
  intros Hl Hu. unfold the_series. rewrite series_dates_until. unfold n. fold L. rewrite placed_at_pivot.
  assert (∀ k l', counted (set_until r (Some u)) k l' = counted r k l') as Hcnt by done. rewrite Hcnt.
  assert (∀ o, before_until (set_until r (Some u)) tz o = bool_decide (occ_civil o ≼ occ_civil l)) as Hb.
  { intros o. unfold before_until, past_until. cbn [until set_until]. rewrite Hu. cbn. by rewrite negb_involutive. }
  pose proof before_pivot_length as Hlen. destruct pivot_facts_utc as (Hk & _ & _).
  rewrite counted_app by (destruct (count r); [|done]; cbn in Hk |- *; lia).
  assert (StronglySorted occ_before (before_pivot tz)) as Hs.
  { apply place_strict. eapply StronglySorted_sublist; [apply sublist_filter|by apply series_dates_strict]. }
  apply last_Some in Hl as [l' Hl']. rewrite take_while_all.
  - rewrite <-app_nil_r. f_equal. destruct (counted r _ (from_pivot tz)) as [|o l2] eqn:Ec; [done|]. cbn [take_while]. rewrite Hb.
    rewrite bool_decide_false; [done|]. rewrite tle_not_tlt. intros Hle. apply Hle. clear Hle. destruct pivot_first as (rest & Hf & Hrest).
    assert (o ∈ from_pivot tz) as Ho.
    { assert (o ∈ counted r (0 + Z.of_nat (length (before_pivot tz))) (from_pivot tz)) as Ho by (rewrite Ec; left).
      unfold counted in Ho. destruct (count r); [|done]. apply elem_of_take in Ho as (j & Hj & _). by eapply list_elem_of_lookup_2. }
    assert (d ≼ date (occ_civil o) ∧ occ_civil o = mkDateTime (date (occ_civil o)) (time anchor)) as [Hod Hoc].
    { apply list_elem_of_omap in Ho as (x & Hx & Hp). apply place_Some in Hp as (Hge & -> & _). cbn [date pivot_anchor] in Hge.
      split; [by apply tle_not_tlt|done]. }
    pose proof (before_pivot_dates tz) as Hd. rewrite Hl', Forall_app in Hd. destruct Hd as [_ Hd]. apply Forall_inv in Hd.
    assert (occ_civil l = mkDateTime (date (occ_civil l)) (time anchor)) as Hlc.
    { assert (l ∈ before_pivot tz) as Hin by (rewrite Hl'; apply elem_of_app; right; left).
      apply list_elem_of_omap in Hin as (x & _ & Hp). by apply place_Some in Hp as (_ & -> & _). }
    rewrite Hlc, Hoc. apply prod_tlt. left. eapply tlt_tle_trans; done.
  - rewrite Hl' in Hs |- *. apply Forall_forall. intros o Ho. rewrite Hb. apply bool_decide_eq_true.
    apply elem_of_app in Ho as [Ho|Ho%list_elem_of_singleton]; [|subst; apply tle_refl]. apply tlt_tle.
    eapply (StronglySorted_app_1_elem_of occ_before); [exact Hs|done|by left].
Qed.
End zone.

(** The window the split counts in: from the anchor up to the pivot, in UTC. *)
Lemma before_window from to :
  to_timestamp utc anchor = Some from → to_timestamp utc (occ_civil pivot_occ) = Some to →
  filter (kept (from, to)) (the_series r anchor utc n) = before_pivot utc.
Proof.
  intros Hfrom Hto. rewrite (series_cut utc) by done.
  pose proof (place_Some _ _ _ _ pivot_placed) as (_ & Hpc & _). rewrite Hpc in Hto. cbn [occ_civil] in Hto.
  assert (anchor = mkDateTime (date anchor) (time anchor)) as Ha by by destruct anchor. rewrite Ha in Hfrom.
  pose proof (pivot_facts r anchor anchor_valid anchor_year p0 d pivot pivot_from) as (Hdv & _).
  assert (∀ o x, x ∈ L → place anchor utc x = Some o → (from ≤ occ_at o) ∧ (occ_at o < to ↔ x ≺ d)) as Hplaced.
  { intros o x Hx Hp. apply place_Some in Hp as (Hge & _ & Ht). apply series_dates_spec in Hx as (q & _ & Hx).
    apply (period_dates_spec r anchor anchor_valid) in Hx as (Hxv & _). split.
    - destruct (decide (occ_at o < from)) as [Hlt|]; [|lia].
      apply (utc_in_order x (date anchor) (time anchor) _ _ Hxv anchor_valid Ht Hfrom) in Hlt. done.
    - by apply (utc_in_order x d (time anchor)). }
  rewrite filter_app, filter_all, filter_none; [apply app_nil_r| |].
  - intros o Ho%elem_of_take_while Hk. destruct Ho as [Ho _].
    assert (o ∈ from_pivot utc) as Hof by (unfold counted in Ho; destruct (count r); [apply elem_of_take in Ho as (j & Hj & _); by eapply list_elem_of_lookup_2|done]).
    assert (o ∈ omap (place anchor utc) (filter (λ x, ¬ x ≺ d) L)) as Hof'.
    { pose proof (placed_at_pivot utc) as Hp. rewrite (dates_split d L) in Hp at 1 by (by apply series_dates_strict).
      rewrite omap_app in Hp. apply app_inv_head in Hp. by rewrite Hp. }
    apply list_elem_of_omap in Hof' as (x & [Hx Hin]%list_elem_of_filter & Hp).
    unfold kept, in_window in Hk. apply bool_decide_eq_true in Hk as [_ Hk]. by apply (Hplaced o x Hin Hp) in Hk.
  - intros o (x & [Hx Hin]%list_elem_of_filter & Hp)%list_elem_of_omap. unfold kept, in_window. apply bool_decide_eq_true.
    destruct (Hplaced o x Hin Hp) as [? Hlt]. cbn [fst snd]. split; [done|by apply Hlt].
Qed.
End pivot.

(** ** Routines in their normal form *)

Section routines.
Context `{JiffLaws}.

Definition not_instant_time (t : SunriseTime) : Prop := match t with Instant _ => False | _ => True end.
Definition normal (r : Routine) : Prop :=
  not_instant_time (starts_at r) ∧ from_option not_instant_time True (ends_at r) ∧
  from_option not_instant_time True (until (rrule r)).

Lemma read_legacy_not_instant t tz : not_instant_time (read_legacy_instant t tz).
Proof. destruct t; cbn; try done. by destruct (tz_get tz). Qed.
Lemma read_legacy_id t tz : not_instant_time t → read_legacy_instant t tz = t.
Proof. by destruct t. Qed.

Lemma normalized_normal r : normal (normalized r).
Proof.
  split; [apply read_legacy_not_instant|]. split; cbn.
  - destruct (ends_at r); cbn; [apply read_legacy_not_instant|done].
  - destruct (until (rrule r)); cbn; [apply read_legacy_not_instant|done].
Qed.

Lemma normalized_id r : normal r → normalized r = r.
Proof.
  intros (Hs & He & Hu). unfold normalized, normalize_legacy_times, set_rule_until, set_rrule, set_ends_at, set_starts_at. cbn.
  rewrite (read_legacy_id _ _ Hs).
  assert ((λ t, read_legacy_instant t (timezone r)) <$> ends_at r = ends_at r) as -> by
    (destruct (ends_at r); cbn in *; [by rewrite read_legacy_id|done]).
  assert (set_until (rrule r) ((λ t, read_legacy_instant t (timezone r)) <$> until (rrule r)) = rrule r) as ->.
  { assert ((λ t, read_legacy_instant t (timezone r)) <$> until (rrule r) = until (rrule r)) as ->
      by (destruct (until (rrule r)); cbn in *; [by rewrite read_legacy_id|done]). by destruct (rrule r). }
  by destruct r.
Qed.

Lemma normalized_idemp r : normalized (normalized r) = normalized r.
Proof. apply normalized_id, normalized_normal. Qed.

Lemma occurrence_zone_normalized r reader : occurrence_zone (normalized r) reader = occurrence_zone r reader.
Proof.
  unfold occurrence_zone. cbn. destruct (starts_at r); cbn; try done. by destruct (tz_get (timezone r)) eqn:E; cbn; rewrite ?E.
Qed.

Lemma occurrences_in_normalized r window reader :
  occurrences_in (normalized r) window reader = occurrences_in r window reader.
Proof.
  unfold occurrences_in, series_in. rewrite normalized_idemp, occurrence_zone_normalized. done.
Qed.

(** Which of the rule's occurrences a routine has. *)
Definition has (r : Routine) (reader : TimeZone) (o : Occurrence) : bool :=
  let tz := occurrence_zone r reader in
  from_option (λ e, default false (within_bound e (occ_civil o) (occ_at o) tz)) true (ends_at r) &&
  (negb (is_paused_at r o reader) && negb (is_skipped r o tz)).

Lemma occurrences_in_spec r anchor window reader out :
  normal r → anchor_civil r = Some anchor → archived r = false → deleted r = false →
  paused r && bool_decide (paused_until r = None) = false →
  occurrences_in r window reader = Ok out ↔
  ∃ occ, expand (rrule r) anchor (occurrence_zone r reader) window = Ok occ ∧ out = filter (λ o, has r reader o = true) occ.
Proof.
  intros Hn Ha Har Hde Hp. unfold occurrences_in, series_in. rewrite Har, Hde, Hp, (normalized_id r Hn), Ha. cbn [orb].
  destruct (expand (rrule r) anchor _ window) as [occ|e]; cbn; [|split; [done|by intros (? & ? & _)]].
  set (shown := filter _ _). assert (filter (λ o, has r reader o = true) occ = shown) as Hs.
  { unfold shown, has. destruct (ends_at r) as [e|]; cbn.
    - rewrite list_filter_filter. apply list_filter_iff. intros o. rewrite !andb_true_iff. tauto.
    - apply list_filter_iff. intros o. done. }
  split; [intros [= <-]; by exists occ|]. intros (occ' & [= <-] & ->). by rewrite Hs.
Qed.

(** Occurrences at a pivot or later have keys at or after its key. *)
Lemma key_le_later c c' :
  clock_ok c → clock_ok c' → time c = time c' → date c ≼ date c' →
  key_le (format_key (date c) (time c)) (format_key (date c') (time c')) = true.
Proof.
  intros Hc Hc' Ht Hd. unfold key_le. rewrite format_key_compare by done.
  destruct (cmp (minute_of c) (minute_of c')) eqn:E; try done. exfalso. rewrite cmp_opp in E.
  assert (minute_of c' ≺ minute_of c) as Hlt by (unfold tlt; by destruct (cmp (minute_of c') (minute_of c))).
  unfold minute_of in Hlt. rewrite !prod_tlt, !Z_tlt_lt in Hlt. cbn [fst snd] in Hlt. rewrite Ht in Hlt.
  apply tle_not_tlt in Hd. apply Hd, Date_lt. lia.
Qed.
End routines.

(** ** The split *)

(** The anchor names a zone the library knows, if any. *)
Definition zone_known `{Jiff} (r : Routine) : Prop :=
  match starts_at (normalized r) with Zoned _ tz => is_Some (tz_get tz) | _ => True end.
(** A wall clock of the years a key can name. *)
Definition anchor_ok `{Jiff} (c : DateTime) : Prop :=
  valid (date c) ∧ 0 ≤ year (date c) ∧ 0 ≤ hour (time c) < 24 ∧ 0 ≤ minute (time c) < 60.

Section split.
Context `{JiffLaws} (hash16 : bytes → bytes).

(** Where a split succeeds: an occurrence of the series in the UTC frame. *)
Lemma split_at_inv r key now s anchor :
  split_at hash16 r key now = Ok s → anchor_civil (normalized r) = Some anchor → anchor_ok anchor →
  ∃ p0 d o from to,
    0 ≤ p0 < Z.of_nat MAX_PERIODS ∧ d ∈ period_dates (rrule (normalized r)) anchor p0 ∧ ¬ d ≺ date anchor ∧
    o ∈ the_series (rrule (normalized r)) anchor utc (Z.to_nat p0 + MAX_PERIODS) ∧ date (occ_civil o) = d ∧ occ_key o = key ∧
    occurrence_civil r key = Some (occ_civil o) ∧
    is_understood (rrule (normalized r)) && negb (from_option is_unknown false (until (rrule (normalized r)))) = true ∧
    to_timestamp utc anchor = Some from ∧ to_timestamp utc (occ_civil o) = Some to ∧
    let rn := normalized r in
    let before := filter (kept (from, to)) (the_series (rrule rn) anchor utc (Z.to_nat p0 + MAX_PERIODS)) in
    ended s = set_updated_at now (match last before with
      | Some l => set_rule_until (Some (occurrence_time rn (occ_civil l))) rn
      | None => set_archived true rn end) ∧
    starts_at (continuation s) = occurrence_time rn (occ_civil o) ∧
    rrule (continuation s) = set_count (rrule rn) ((λ c, Z.max 0 (c - Z.min (Z.of_nat (length before)) u32_max)) <$> count (rrule rn)) ∧
    skipped_keys (continuation s) = filter (λ k, key_le key k = true) (skipped_keys rn) ∧
    archived (continuation s) = false ∧ deleted (continuation s) = false ∧
    ends_at (continuation s) = ends_at rn ∧ paused (continuation s) = paused rn ∧ paused_until (continuation s) = paused_until rn ∧
    skip_dates (continuation s) = skip_dates rn ∧ timezone (continuation s) = timezone rn.
Proof.
  intros Hsplit Ha (Hav & Hay & _). unfold split_at in Hsplit. destruct (parse_occurrence_key key) as [kc|]; cbn [ok_or result_bind] in Hsplit; [|done].
  destruct (occurrence_civil r key) as [civil|] eqn:Hoc; cbn [ok_or result_bind] in Hsplit; [|done]. pose proof Hoc as Hciv. rewrite Ha in Hsplit. cbn [ok_or result_bind] in Hsplit.
  unfold occurrence_civil in Hoc. rewrite Ha in Hoc. cbn [mbind option_bind] in Hoc.
  destruct (parse_occurrence_key key) as [kc'|]; cbn [mbind option_bind] in Hoc; [|done].
  destruct (civil_utc kc') as [at_|]; cbn [mbind option_bind] in Hoc; [|done].
  destruct (expand (rrule (normalized r)) anchor utc (at_, _)) as [occ|e] eqn:Hex; [|done].
  destruct (List.find _ occ) as [o|] eqn:Hfind; cbn [fmap option_fmap option_map] in Hoc; [|done]. injection Hoc as <-.
  apply List.find_some in Hfind as [Hin Hkey]. apply bool_decide_eq_true in Hkey. apply list_elem_of_In in Hin.
  pose proof (expand_spec _ _ _ _ Hav _ MAX_PERIODS Hex (le_n _)) as Hocc.
  destruct (is_understood (rrule (normalized r)) && _) eqn:Hund; [|rewrite Hocc in Hin; by apply not_elem_of_nil in Hin].
  assert (∃ p0, 0 ≤ p0 < Z.of_nat MAX_PERIODS ∧ date (occ_civil o) ∈ period_dates (rrule (normalized r)) anchor p0 ∧ ¬ date (occ_civil o) ≺ date anchor)
    as (p0 & Hp0 & Hdate & Hge).
  { rewrite Hocc in Hin. apply list_elem_of_filter in Hin as [_ Hin]. unfold the_series in Hin. apply elem_of_take_while in Hin as [Hin _].
    assert (o ∈ omap (place anchor utc) (series_dates (rrule (normalized r)) anchor MAX_PERIODS 0)) as Ho.
    { unfold counted in Hin. destruct (count _); [|done]. apply elem_of_take in Hin as (j & Hj & _). by eapply list_elem_of_lookup_2. }
    apply list_elem_of_omap in Ho as (x & Hx & Hp). apply series_dates_spec in Hx as (q & Hq & Hx).
    apply place_Some in Hp as (Hge & -> & _). cbn [occ_civil date]. exists q. split; [lia|done]. }
  assert (o ∈ the_series (rrule (normalized r)) anchor utc (Z.to_nat p0 + MAX_PERIODS)) as Hser.
  { pose proof (expand_spec _ _ _ _ Hav _ (Z.to_nat p0 + MAX_PERIODS)%nat Hex ltac:(lia)) as Hocc'. rewrite Hund in Hocc'.
    rewrite Hocc' in Hin. by apply list_elem_of_filter in Hin as [_ ?]. }
  unfold civil_utc in Hsplit. destruct (to_timestamp utc anchor) as [from|] eqn:Hfrom; [|done].
  destruct (to_timestamp utc (occ_civil o)) as [to|] eqn:Hto; [|done].
  destruct (expand (rrule (normalized r)) anchor utc (from, to)) as [before|e] eqn:Hbef; [|done].
  pose proof (expand_spec _ _ _ _ Hav _ (Z.to_nat p0 + MAX_PERIODS)%nat Hbef ltac:(lia)) as Hbefore. rewrite Hund in Hbefore.
  exists p0, (date (occ_civil o)), o, from, to. injection Hsplit as <-. rewrite Hbefore. done.
Qed.

Lemma max_pos : (0 < MAX_PERIODS)%nat.
Proof. by apply (Z2Nat.inj_lt 0 100000). Qed.

#[local] Opaque MAX_PERIODS.

(** *** The parts of a split, from the pivot [o] of period [p0] *)

Section parts.
Context (rn : Routine) (anchor : DateTime) (p0 : Z) (o : Occurrence) (reader : TimeZone).
Let R := rrule rn.
Let d := date (occ_civil o).
Let tz := occurrence_zone rn reader.
Let n := (Z.to_nat p0 + MAX_PERIODS)%nat.
Hypothesis rn_normal : normal rn.
Hypothesis rn_anchor : anchor_civil rn = Some anchor.
Hypothesis rn_anchor_ok : anchor_ok anchor.
Hypothesis rn_zone : match starts_at rn with Zoned _ z => is_Some (tz_get z) | _ => True end.
Hypothesis rn_until : civil_until (until R).
Hypothesis p0_bounds : 0 ≤ p0 < Z.of_nat MAX_PERIODS.
Hypothesis o_period : d ∈ period_dates R anchor p0.
Hypothesis o_from : ¬ d ≺ date anchor.
Hypothesis o_series : o ∈ the_series R anchor utc n.
Hypothesis alike : places_alike anchor d tz utc.
Hypothesis understood : is_understood R && negb (from_option is_unknown false (until R)) = true.


Lemma anchor_parts : valid (date anchor) ∧ 0 ≤ year (date anchor).
Proof. destruct rn_anchor_ok as (? & ? & _). done. Qed.

Let anchor_valid := proj1 anchor_parts.
Let anchor_year := proj2 anchor_parts.
Let before := before_pivot R anchor p0 d MAX_PERIODS.
Let rest := take_while (before_until R tz) (counted R (kept_before R anchor p0 d MAX_PERIODS) (from_pivot R anchor d MAX_PERIODS tz)).

Lemma whole_series : the_series R anchor tz n = before tz ++ rest.
Proof.
  apply (series_cut R anchor anchor_valid anchor_year p0 d (proj1 p0_bounds) o_period o_from MAX_PERIODS max_pos rn_until o o_series eq_refl tz alike).
Qed.

Lemma o_civil : occ_civil o = mkDateTime d (time anchor) ∧ to_timestamp utc (occ_civil o) = Some (occ_at o).
Proof.
  pose proof (the_series_sound R anchor utc anchor_valid _ _ o_series) as (Ht & _ & _ & _ & Hto & _). split; [|done].
  unfold d. rewrite <-Ht. by destruct (occ_civil o).
Qed.

(** The continuation's occurrences, before its skips. *)
Lemma rest_expand window occ :
  expand (set_count R ((λ c, c - kept_before R anchor p0 d MAX_PERIODS) <$> count R)) (occ_civil o) tz window = Ok occ →
  occ = filter (kept window) rest.
Proof.
  intros Hex. pose proof (pivot_facts R anchor anchor_valid anchor_year p0 d o_period o_from) as (Hdv & _).
  pose proof o_civil as [Hc _]. rewrite Hc in Hex. rewrite (expand_spec _ (mkDateTime d (time anchor)) _ _ Hdv _ MAX_PERIODS Hex (le_n _)).
  change (is_understood (set_count R _)) with (is_understood R). change (until (set_count R _)) with (until R). rewrite understood.
  rewrite continuation_series; [done|apply max_pos].
Qed.

(** Whatever window the series answers for, the parts do. *)
Lemma rest_answers window :
  (∃ occ, expand R anchor tz window = Ok occ) →
  ∃ occ, expand (set_count R ((λ c, c - kept_before R anchor p0 d MAX_PERIODS) <$> count R)) (occ_civil o) tz window = Ok occ.
Proof.
  intros (q & Hq & Hor)%expand_ends; [|done..]. pose proof (pivot_facts R anchor anchor_valid anchor_year p0 d o_period o_from) as (Hdv & _).
  pose proof o_civil as [-> _]. apply expand_ends; [done|].
  by apply (continuation_ends R anchor anchor_valid anchor_year p0 d (proj1 p0_bounds) o_period o_from MAX_PERIODS max_pos rn_until o o_series eq_refl tz alike window q).
Qed.

Lemma ended_answers window u l :
  is_unknown u = false → date l ≺ d → (∀ x, within_bound u (occ_civil x) (occ_at x) tz = Some (bool_decide (occ_civil x ≼ l))) →
  (∃ occ, expand R anchor tz window = Ok occ) → ∃ occ, expand (set_until R (Some u)) anchor tz window = Ok occ.
Proof.
  intros Hu Hl Hwb (q & Hq & Hor)%expand_ends; [|done..]. pose proof understood as [Hund _]%andb_true_iff.
  apply expand_ends; [change (is_understood (set_until R (Some u))) with (is_understood R); by cbn; rewrite Hund, Hu|].
  exists q. split; [done|]. destruct Hor as [Hp|Hst]; [by left|right]. rewrite series_dates_until. revert Hst. apply stops_sooner; [done|].
  intros x Hx. unfold before_until at 1, past_until. cbn [until set_until]. rewrite Hwb. cbn. rewrite negb_involutive, bool_decide_eq_true. intros Hle.
  assert (x ∈ before tz) as Hin.
  { apply list_elem_of_omap in Hx as (y & Hy & Hpl). apply list_elem_of_omap. exists y. split; [|done]. apply list_elem_of_filter. split.
    - apply place_Some in Hpl as (_ & Hx & _). rewrite Hx in Hle. cbn [occ_civil] in Hle. destruct (decide (y ≺ d)) as [|Hge]; [done|].
      exfalso. revert Hle. rewrite tle_not_tlt. intros Hle. apply Hle. destruct l as [ld lt]. apply prod_tlt. left. cbn [date] in *.
      eapply tlt_tle_trans; [exact Hl|]. by apply tle_not_tlt.
    - destruct (series_dates_extend R anchor (S q) (Z.to_nat p0 + MAX_PERIODS - S q) 0) as [rest' Hr].
      replace (S q + (Z.to_nat p0 + MAX_PERIODS - S q))%nat with (Z.to_nat p0 + MAX_PERIODS)%nat in Hr by lia.
      rewrite Hr. apply elem_of_app. by left. }
  pose proof (before_pivot_within R anchor anchor_valid anchor_year p0 d (proj1 p0_bounds) o_period o_from MAX_PERIODS max_pos rn_until o o_series eq_refl tz alike) as Hall.
  rewrite Forall_forall in Hall. by apply Hall.
Qed.

(** What is left lies at the key or after it. *)
Lemma rest_later x : x ∈ rest → key_le (occ_key o) (occ_key x) = true.
Proof.
  intros Hx. pose proof (whole_series) as Hw.
  assert (x ∈ the_series R anchor tz n) as Hin by (rewrite Hw; apply elem_of_app; by right).
  apply (the_series_sound R anchor tz anchor_valid) in Hin as (Htx & _ & Hvx & Hkx & _).
  pose proof (the_series_sound R anchor utc anchor_valid _ _ o_series) as (Hto & _ & Hvo & Hko & _).
  assert (d ≼ date (occ_civil x)) as Hle.
  { unfold rest in Hx. apply elem_of_take_while in Hx as [Hx _].
    assert (x ∈ from_pivot R anchor d MAX_PERIODS tz) as Hf by (unfold counted in Hx; destruct (count R); [apply elem_of_take in Hx as (j & Hj & _); by eapply list_elem_of_lookup_2|done]).
    apply list_elem_of_omap in Hf as (y & _ & Hp). apply place_Some in Hp as (Hge & -> & _). by apply tle_not_tlt. }
  rewrite Hko, Hkx. rewrite <-Hto at 1. rewrite <-Htx at 1. destruct rn_anchor_ok as (_ & Hay & Hh & Hm).
  pose proof (pivot_facts R anchor anchor_valid anchor_year p0 d o_period o_from) as (_ & _ & _ & _ & Hdy).
  assert (0 ≤ year (date (occ_civil x))) as Hxy by (rewrite tle_not_tlt, Date_lt in Hle; lia).
  assert (∀ c, valid (date c) → time c = time anchor → 0 ≤ year (date c) → clock_ok c) as Hclock.
  { intros c (Hy & Hmo & Hd) Ht Hy'. pose proof (days_in_month_pos (date c) Hmo). unfold clock_ok. rewrite Ht. lia. }
  apply key_le_later; [by apply Hclock|by apply Hclock|congruence|done].
Qed.

Lemma rest_has next x :
  x ∈ rest → ends_at next = ends_at rn → paused next = paused rn → paused_until next = paused_until rn →
  skip_dates next = skip_dates rn → occurrence_zone next reader = tz →
  skipped_keys next = filter (λ k, key_le (occ_key o) k = true) (skipped_keys rn) →
  has next reader x = has rn reader x.
Proof.
  intros Hx He Hp Hpu Hsd Hz Hsk. unfold has. rewrite Hz, He. fold tz. f_equal. f_equal.
  - unfold is_paused_at. by rewrite Hp, Hpu.
  - unfold is_skipped. rewrite Hsd, Hsk. f_equal. f_equal. apply bool_decide_ext. rewrite list_elem_of_filter.
    split; [by intros [_ ?]|]. intros Hin. split; [by apply rest_later|done].
Qed.

Hypothesis rn_live : archived rn = false ∧ deleted rn = false ∧ paused rn && bool_decide (paused_until rn = None) = false.

Lemma whole_occurrences window out :
  occurrences_in rn window reader = Ok out →
  (∃ occ, expand R anchor tz window = Ok occ) ∧ out = filter (λ x, has rn reader x = true) (filter (kept window) (before tz)) ++
        filter (λ x, has rn reader x = true) (filter (kept window) rest).
Proof.
  destruct rn_live as (Ha & Hd & Hp). intros Hout.
  apply (occurrences_in_spec rn anchor) in Hout as (occ & Hex & ->); try done. split; [by exists occ|].
  rewrite (expand_spec _ _ _ _ anchor_valid _ n Hex) by (unfold n; lia). fold R. rewrite understood.
  fold tz. by rewrite whole_series, !filter_app.
Qed.

(** A time in the anchor's kind, and a routine anchored there. *)
Lemma occurrence_time_facts c :
  not_instant_time (occurrence_time rn c) ∧ (∀ z, civil_of (occurrence_time rn c) z = Some c) ∧
  ∀ x, within_bound (occurrence_time rn c) (occ_civil x) (occ_at x) tz = Some (bool_decide (occ_civil x ≼ c)).
Proof.
  unfold tz, occurrence_zone, occurrence_time. destruct rn_normal as (Hs & _ & _). destruct (starts_at rn) as [|c' z| | |]; try done.
  destruct rn_zone as [zone Hz]. split; [done|]. split; [done|]. intros x. cbn. rewrite Hz. cbn. unfold same_zone. by rewrite tz_eqb_refl.
Qed.

Lemma anchored_zone next c : starts_at next = occurrence_time rn c → occurrence_zone next reader = tz.
Proof.
  unfold tz, occurrence_zone, occurrence_time. intros ->. destruct rn_normal as (Hs & _ & _). by destruct (starts_at rn).
Qed.

Lemma next_occurrences next window :
  starts_at next = occurrence_time rn (occ_civil o) →
  rrule next = set_count R ((λ c, c - kept_before R anchor p0 d MAX_PERIODS) <$> count R) →
  skipped_keys next = filter (λ k, key_le (occ_key o) k = true) (skipped_keys rn) →
  archived next = false → deleted next = false → ends_at next = ends_at rn → paused next = paused rn →
  paused_until next = paused_until rn → skip_dates next = skip_dates rn →
  (∃ occ, expand R anchor tz window = Ok occ) →
  occurrences_in next window reader = Ok (filter (λ x, has rn reader x = true) (filter (kept window) rest)).
Proof.
  intros Hs Hr Hsk Ha Hd He Hp Hpu Hsd [occ Hex]%rest_answers. destruct (occurrence_time_facts (occ_civil o)) as (Hni & Hciv & _).
  destruct rn_live as (_ & _ & Hpl). destruct rn_normal as (_ & Hne & Hnu).
  apply (occurrences_in_spec next (occ_civil o)).
  6:{ exists occ. rewrite (anchored_zone next (occ_civil o) Hs), Hr. split; [done|]. rewrite (rest_expand _ _ Hex). symmetry. apply filter_same. intros x [_ Hx]%list_elem_of_filter.
    by rewrite (rest_has next x) by (done || by apply (anchored_zone next (occ_civil o))). }
  - split; [by rewrite Hs|]. split; [by rewrite He|]. by rewrite Hr.
  - unfold anchor_civil. by rewrite Hs.
  - done.
  - done.
  - by rewrite Hp, Hpu.
Qed.

Lemma ended_occurrences now e window :
  e = set_updated_at now (match last (before utc) with
      | Some l => set_rule_until (Some (occurrence_time rn (occ_civil l))) rn
      | None => set_archived true rn end) →
  (∃ occ, expand R anchor tz window = Ok occ) →
  occurrences_in e window reader = Ok (filter (λ x, has rn reader x = true) (filter (kept window) (before tz))).
Proof.
  intros -> Hans. pose proof (f_equal last (before_pivot_alike R anchor anchor_valid p0 d MAX_PERIODS tz utc alike)) as Hlast.
  rewrite !fmap_last in Hlast. fold before in Hlast. destruct (last (before utc)) as [l|] eqn:El.
  2:{ unfold occurrences_in. cbn. assert (before tz = []) as ->; [|done].
      destruct (before tz) as [|x l] eqn:E; [done|]. exfalso. destruct (last (x :: l)) eqn:E'; [done|]. by apply last_None in E'. }
  destruct (last (before tz)) as [l'|] eqn:El'; [|done]. injection Hlast as Hll.
  destruct (occurrence_time_facts (occ_civil l)) as (Hni & _ & Hwb). destruct rn_live as (Ha & Hd & Hp). destruct rn_normal as (Hns & Hne & _).
  assert (is_unknown (occurrence_time rn (occ_civil l)) = false) as Hnu by (unfold occurrence_time; by destruct (starts_at rn)).
  assert (date (occ_civil l) ≺ d) as Hld.
  { assert (l ∈ before utc) as Hin by (apply last_Some in El as [l0 ->]; apply elem_of_app; right; left).
    pose proof (before_pivot_dates R anchor p0 d MAX_PERIODS utc) as Hall. rewrite Forall_forall in Hall. by apply Hall. }
  destruct (ended_answers window _ _ Hnu Hld Hwb Hans) as [occ Hex].
  apply (occurrences_in_spec _ anchor); [done..|]. exists occ.
  change (occurrence_zone _ reader) with tz. change (rrule _) with (set_until R (Some (occurrence_time rn (occ_civil l)))).
  split; [done|]. rewrite (expand_spec _ _ _ _ anchor_valid _ n Hex) by (unfold n; lia).
  change (is_understood (set_until R _)) with (is_understood R). apply andb_true_iff in understood as [Hund _]. rewrite Hund.
  cbn [until set_until from_option]. rewrite Hnu. cbn [andb negb].
  assert (the_series (set_until R (Some (occurrence_time rn (occ_civil l)))) anchor tz n = before tz) as ->; [|done].
  apply (ended_series R anchor anchor_valid anchor_year p0 d (proj1 p0_bounds) o_period o_from MAX_PERIODS max_pos rn_until o o_series eq_refl tz alike _ l'); [done|].
  intros x. by rewrite Hwb, Hll.
Qed.
End parts.

(** C35: a split changes nothing until the edit.  Splitting a live series
    (neither archived nor deleted) at one of its occurrences leaves two routines
    that answer for every window the original answers for, and whose occurrences
    there, read by any reader, are together exactly the original's, in order: the
    ended routine has those before the key, its UNTIL or its archiving cutting it
    there, and the continuation the rest, COUNT shared out, with the pause, end
    and skips of each.  The rule's UNTIL, if any, is a civil time, and COUNT fits
    its 32 bits; the anchor lies in the years a key can name, in a zone the
    library knows if it names one; and before the key the zone places a date's
    occurrence just when UTC, in whose frame the split counts, does. *)
Theorem split_partitions r key now s anchor window reader out :
  split_at hash16 r key now = Ok s →
  anchor_civil (normalized r) = Some anchor → anchor_ok anchor → zone_known r →
  civil_until (until (rrule (normalized r))) →
  from_option (λ c, 0 ≤ c ≤ u32_max) True (count (rrule r)) →
  archived r = false → deleted r = false →
  (∀ c, occurrence_civil r key = Some c → places_alike anchor (date c) (occurrence_zone r reader) utc) →
  occurrences_in r window reader = Ok out →
  ∃ out_ended out_next,
    occurrences_in (ended s) window reader = Ok out_ended ∧
    occurrences_in (continuation s) window reader = Ok out_next ∧
    out = out_ended ++ out_next.
Proof.
  intros Hsplit Ha Hok Hz Hu Hc Har Hde Hal Hout. pose proof Hok as (Hav & Hay & _).
  destruct (split_at_inv _ _ _ _ _ Hsplit Ha Hok)
    as (p0 & d & o & from & to & Hp0 & Hpd & Hge & Hser & <- & Hkey & Hciv & Hund & Hfrom & Hto & Hparts). cbv zeta in Hparts.
  destruct Hparts as (He & Hs & Hr & Hsk & Hca & Hcd & Hce & Hcp & Hcpu & Hcsd & Hctz).
  set (rn := normalized r) in *. pose proof (normalized_normal r) as Hnorm. fold rn in Hnorm.
  specialize (Hal _ Hciv). rewrite <-occurrence_zone_normalized in Hal. fold rn in Hal.
  rewrite (before_window _ _ Hav Hay p0 _ (proj1 Hp0) Hpd Hge MAX_PERIODS max_pos Hu o Hser eq_refl from to Hfrom Hto) in He, Hr.
  rewrite <-occurrences_in_normalized in Hout. fold rn in Hout.
  destruct (paused rn && bool_decide (paused_until rn = None)) eqn:Hpause.
  { exists [], []. revert Hout. unfold occurrences_in. rewrite Hcp, Hcpu, Hpause, !orb_true_r.
    assert (paused (ended s) && bool_decide (paused_until (ended s) = None) = true) as Hpe by (rewrite He; by destruct (last _)).
    rewrite Hpe, !orb_true_r. by intros [= <-]. }
  assert (Hlive : archived rn = false ∧ deleted rn = false ∧ paused rn && bool_decide (paused_until rn = None) = false) by done.
  assert (Hcount : rrule (continuation s) = set_count (rrule rn)
    ((λ c, c - kept_before (rrule rn) anchor p0 (date (occ_civil o)) MAX_PERIODS) <$> count (rrule rn))).
  { rewrite Hr. destruct (pivot_facts_utc _ _ Hav Hay p0 _ (proj1 Hp0) Hpd Hge MAX_PERIODS max_pos Hu o Hser eq_refl) as (Hk & _).
    change (count (rrule rn)) with (count (rrule r)) in *. fold (kept_before (rrule rn) anchor p0 (date (occ_civil o)) MAX_PERIODS).
    destruct (count (rrule r)) as [c|]; [|done]. cbn in Hk, Hc |- *. f_equal. f_equal.
    unfold kept_before in *. lia. }
  destruct (whole_occurrences rn anchor p0 o reader) with (window := window) (out := out) as [Hans ->]; [done..|]. eexists _, _.
  split; [by eapply (ended_occurrences rn anchor p0 o reader)|]. split; [|done].
  eapply (next_occurrences rn anchor p0 o reader); try done. by rewrite Hkey.
Qed.
End split.

(** ** Who owns a key *)

Lemma greatest_exists {A B} `{CmpLaws B} (f : A → B) (l : list A) :
  l ≠ [] → ∃ x, x ∈ l ∧ ∀ y, y ∈ l → f y ≼ f x.
Proof.
  induction l as [|x l IH]; [done|]. intros _. destruct (decide (l = [])) as [->|Hne].
  - exists x. split; [by left|]. intros y ->%list_elem_of_singleton. apply tle_refl.
  - destruct (IH Hne) as (z & Hz & Hmax). destruct (tle_total (f x) (f z)) as [Hle|Hle].
    + exists z. split; [by right|]. intros y [->|Hy]%elem_of_cons; [done|by apply Hmax].
    + exists x. split; [by left|]. intros y [->|Hy]%elem_of_cons; [apply tle_refl|]. eapply tle_trans; [by apply Hmax|done].
Qed.

Section owners.
Context `{Jiff}.

(** The anchor's key, for a routine anchored at or before [key]. *)
Definition claims (key : string) (r : Routine) : Prop :=
  from_option (λ a, key_le a key = true) False (anchor_key r).
#[export] Instance claims_dec key r : Decision (claims key r).
Proof. unfold claims. destruct (anchor_key r); cbn; apply _. Defined.
Definition claim_rank (r : Routine) : bytes * EntityRef := (text_bytes (default EmptyString (anchor_key r)), routine_id r).

Lemma owns_key_spec r key chain :
  owns_key r key chain = true ↔
    is_Some (parse_occurrence_key key) ∧ claims key r ∧
    ∀ other, other ∈ chain → routine_id other ≠ routine_id r → deleted other = false →
      series_root other = series_root r → claims key other → claim_rank other ≼ claim_rank r.
Proof.
  unfold owns_key, claims, claim_rank. destruct (parse_occurrence_key key) as [c|]; [|split; [done|by intros [[? ?] _]]].
  destruct (anchor_key r) as [mine|] eqn:Em; cbn; [|split; [done|by intros (_ & ? & _)]].
  destruct (key_le mine key) eqn:Hle; [|split; [done|by intros (_ & ? & _)]]. rewrite negb_true_iff, <-not_true_iff_false.
  split.
  - intros Hno. split; [by eexists|]. split; [done|]. intros other Hin Hid Hdel Hroot Hcl. apply tle_not_tlt. intros Hlt. apply Hno.
    apply existsb_exists. exists other. split; [by apply list_elem_of_In|]. rewrite (bool_decide_true _ Hid), Hdel, (bool_decide_true _ Hroot).
    destruct (anchor_key other) as [a|]; [|done]. cbn in Hcl, Hlt |- *. by rewrite Hcl, bool_decide_true.
  - intros (_ & _ & Hall) (other & Hin & Hex)%existsb_exists. apply list_elem_of_In in Hin.
    rewrite !andb_true_iff, !bool_decide_eq_true, negb_true_iff in Hex. destruct Hex as [[[Hid Hdel] Hroot] Hex].
    specialize (Hall other Hin Hid Hdel Hroot). destruct (anchor_key other) as [a|]; [|done]. cbn in Hall, Hex.
    apply andb_true_iff in Hex as [Hcl Hlt]. apply bool_decide_eq_true in Hlt. specialize (Hall Hcl).
    rewrite tle_not_tlt in Hall. done.
Qed.

(** In the live routines of one series, each key has exactly one owner as
    soon as any is anchored at or before it — the one with the latest anchor,
    the greater id breaking a tie — and none before every anchor.  So however
    a series was split, concurrently or not, each occurrence is generated
    once, whatever the order the chain is listed in. *)
Theorem one_owner chain root key :
  NoDup (routine_id <$> chain) →
  Forall (λ r, deleted r = false ∧ series_root r = root) chain → is_Some (parse_occurrence_key key) →
  (∀ r, owns_key r key chain = true → claims key r) ∧
  ((∃ r, r ∈ chain ∧ claims key r) →
   ∃ owner, owner ∈ chain ∧ owns_key owner key chain = true ∧
     (∀ r, r ∈ chain → owns_key r key chain = true → r = owner) ∧
     ∀ r, r ∈ chain → claims key r → claim_rank r ≼ claim_rank owner).
Proof.
  intros Hnd Hlive Hkey. split; [by intros r (_ & ? & _)%owns_key_spec|]. intros (r0 & Hr0 & Hc0). rewrite Forall_forall in Hlive.
  destruct (greatest_exists claim_rank (filter (claims key) chain)) as (w & Hw & Hmax).
  { intros E. assert (r0 ∈ filter (claims key) chain) as Hin by by apply list_elem_of_filter. rewrite E in Hin. by apply not_elem_of_nil in Hin. }
  apply list_elem_of_filter in Hw as [Hcw Hw].
  assert (∀ r, r ∈ chain → claims key r → claim_rank r ≼ claim_rank w) as Hge by (intros r Hr Hc; apply Hmax; by apply list_elem_of_filter).
  assert (∀ r, r ∈ chain → routine_id r = routine_id w → r = w) as Hinj.
  { intros r Hr Hid. apply list_elem_of_lookup in Hr as [j Hj], Hw as [k Hk].
    assert (j = k) as -> by (eapply (NoDup_lookup (routine_id <$> chain)); [done|by rewrite list_lookup_fmap, Hj|by rewrite list_lookup_fmap, Hk; cbn; rewrite Hid]).
    congruence. }
  exists w. split; [done|]. split; [|split; [|done]].
  - apply owns_key_spec. split; [done|]. split; [done|]. intros other Ho _ _ _ Hc. by apply Hge.
  - intros r Hr (_ & Hcr & Hall)%owns_key_spec. apply Hinj; [done|]. destruct (decide (routine_id r = routine_id w)) as [|Hid]; [done|].
    assert (claim_rank r = claim_rank w) as E; [|by injection E].
    apply tle_antisymm; [by apply Hge|]. destruct (Hlive w Hw) as [Hdw Hrw], (Hlive r Hr) as [_ Hrr].
    apply Hall; [done|congruence|done|congruence|done].
Qed.
End owners.
