(* ===== verification/Streak.v ===== *)
(** * Streaks (sunrise-domain: streak.rs)

    What completing an occurrence does to a routine's streak, the streak its
    keys add up to, and the streak as a reader sees it now. *)

From Stdlib Require Import ZArith Lia String Ascii.
From stdpp Require Import base tactics decidable option list sorting gmap strings.
From S2P Require Import Prelude Bytes Registry Cbor Ids Calendar SunriseTime Rrule Constraint RoutineGen Routine RoutineEdit.
Open Scope Z_scope.

Definition DEFAULT_GRACE_WINDOW_S : Z := 24 * 60 * 60.
Definition MAX_GRACE_WINDOW_S : Z := 7 * 24 * 60 * 60.
Definition FORGIVENESS_WINDOW_S : Z := 30 * 24 * 60 * 60.
Definition FORGIVENESS_ALLOWANCE : Z := 1.

Inductive StreakOutcome := Duplicate | Incremented | Forgiven | ResetStreak.

Record DerivedStreak := mkStreak {
  ds_counter : Z; ds_last_completed_at : option SunriseTime; ds_started_at : option Z; ds_forgivenesses : Z;
}.
Definition streak_of (r : Routine) : DerivedStreak :=
  mkStreak (streak_counter r) (last_completed_at r) (streak_started_at r) (forgivenesses_in_window r).
Definition apply_streak (d : DerivedStreak) (r : Routine) : Routine :=
  set_forgivenesses_in_window (ds_forgivenesses d) (set_streak_started_at (ds_started_at d)
    (set_last_completed_at (ds_last_completed_at d) (set_streak_counter (ds_counter d) r))).
Definition no_streak : DerivedStreak := mkStreak 0 None None 0.

(** Keys compare as text. *)
Definition key_lt (a b : string) : Prop := text_bytes a ≺ text_bytes b.
#[export] Instance key_lt_dec : RelDecision key_lt.
Proof. intros a b. unfold key_lt. apply _. Defined.

(** [slice::binary_search_by] on a sorted slice: whether the key is there, and
    where it is or belongs. *)
Definition binary_search (keys : list string) (k : string) : bool * nat :=
  let at_ := length (filter (λ x, key_lt x k) keys) in
  (bool_decide (keys !! at_ = Some k), at_).

Definition key_order (a b : string) : Prop := text_bytes a ≼ text_bytes b.
#[export] Instance key_order_dec : RelDecision key_order.
Proof. intros a b. unfold key_order. apply _. Defined.

Section streak.
Context `{Jiff}.

Definition grace_window_seconds (r : Routine) : Z := Z.min (default DEFAULT_GRACE_WINDOW_S (grace_window_s r)) MAX_GRACE_WINDOW_S.
Definition streak_key_seen (r : Routine) (key : string) : bool := (binary_search (streak_keys r) key).1.

(** [saturating_sub] and [saturating_mul] on [i64]. *)
Definition sat_sub_i64 (x y : Z) : Z := Z.max i64_min (Z.min (x - y) i64_max).
Definition sat_mul_i64 (x y : Z) : Z := Z.max i64_min (Z.min (x * y) i64_max).

Definition slide_forgiveness_window (now : Z) (r : Routine) : Routine :=
  match streak_started_at r with
  | None => r
  | Some anchor =>
      let elapsed := sat_sub_i64 (as_second now) (as_second anchor) in
      if decide (elapsed ≤ FORGIVENESS_WINDOW_S) then r
      else
        let windows := Z.quot elapsed FORGIVENESS_WINDOW_S in
        let advanced := sat_add_i64 (as_second anchor) (sat_mul_i64 windows FORGIVENESS_WINDOW_S) in
        let r := match from_second advanced with Some ts => set_streak_started_at (Some ts) r | None => r end in
        set_forgivenesses_in_window 0 r
  end.

Definition record_occurrence_completion (r : Routine) (occurrence_key : string) (occurrence_at now : Z) : Routine * StreakOutcome :=
  let '(found, insert_at) := binary_search (streak_keys r) occurrence_key in
  if found : bool then (r, Duplicate)
  else
    let r := set_streak_keys (take insert_at (streak_keys r) ++ occurrence_key :: drop insert_at (streak_keys r)) r in
    let r := slide_forgiveness_window now r in
    let r := set_last_completed_at (Some (Instant now)) r in
    let deadline := sat_add_i64 (as_second occurrence_at) (grace_window_seconds r) in
    if decide (as_second now ≤ deadline) then
      let r := set_streak_counter (sat_add_i64 (streak_counter r) 1) r in
      let r := match streak_started_at r with None => set_streak_started_at (Some now) r | Some _ => r end in
      (r, Incremented)
    else if forgiveness_enabled r && bool_decide (forgivenesses_in_window r < FORGIVENESS_ALLOWANCE) then
      (set_forgivenesses_in_window (forgivenesses_in_window r + 1) r, Forgiven)
    else (set_forgivenesses_in_window 0 (set_streak_started_at None (set_streak_counter 0 r)), ResetStreak).

Definition count_occurrence (at_ : Z) (r : Routine) : Routine :=
  let r := slide_forgiveness_window at_ r in
  let r := set_streak_counter (sat_add_i64 (streak_counter r) 1) r in
  let r := match streak_started_at r with None => set_streak_started_at (Some at_) r | Some _ => r end in
  set_last_completed_at (Some (Instant at_)) r.

Definition miss_occurrence (at_ : Z) (r : Routine) : Routine :=
  if decide (streak_counter r = 0) then r
  else
    let r := slide_forgiveness_window at_ r in
    if forgiveness_enabled r && bool_decide (forgivenesses_in_window r < FORGIVENESS_ALLOWANCE) then
      set_forgivenesses_in_window (forgivenesses_in_window r + 1) r
    else set_forgivenesses_in_window 0 (set_streak_started_at None (set_streak_counter 0 r)).

(** ** The streak the keys add up to *)

(** The keys that parse, with the wall clocks they name. *)
Definition keyed (r : Routine) : gmap string DateTime :=
  list_to_map (omap (λ k, (k,.) <$> parse_occurrence_key k) (streak_keys r)).
(** A [BTreeMap]'s keys, in order. *)
Definition in_key_order {A} (m : gmap string A) : list string := isort key_order (map_to_list m).*1.

Definition place_civil (r : Routine) (civil : DateTime) : option Z := to_timestamp (occurrence_zone r utc) civil.

(** The rule's occurrences up to the newest key, by key, with whether each is
    counted; a skipped one is left out. *)
Definition walk_rule (r : Routine) (newest : string) (newest_civil : DateTime) : gmap string (Z * bool) :=
  let end_ := default timestamp_max (t ← place_civil r newest_civil; ts_add t MINUTE_NS) in
  let occ := match series_in r (timestamp_min, end_) utc with Ok occ => occ | Err _ => [] end in
  foldl (λ walk o,
    let counted := bool_decide (is_Some (keyed r !! occ_key o)) in
    if decide (key_lt newest (occ_key o)) then walk
    else if negb counted && is_skipped r o (occurrence_zone r utc) then walk
    else <[occ_key o := (occ_at o, counted)]> walk) ∅ occ.
(** Every key counts, at its own place if the rule does not produce it. *)
Definition walk_keys (r : Routine) (walk : gmap string (Z * bool)) : gmap string (Z * bool) :=
  foldl (λ walk k,
    match walk !! k with
    | Some e => <[k := (e.1, true)]> walk
    | None =>
        match keyed r !! k ≫= place_civil r with
        | Some at_ => <[k := (at_, true)]> walk
        | None => walk
        end
    end) walk (in_key_order (keyed r)).

Definition streak_walk (r : Routine) : list (Z * bool) :=
  match last (in_key_order (keyed r)) with
  | None => []
  | Some newest =>
      match keyed r !! newest with
      | None => []
      | Some newest_civil =>
          let walk := walk_keys r (walk_rule r newest newest_civil) in
          omap (walk !!.) (in_key_order walk)
      end
  end.

Definition step_occurrence (r : Routine) (e : Z * bool) : Routine :=
  if e.2 then count_occurrence e.1 r else miss_occurrence e.1 r.
Definition derived_streak (r : Routine) : DerivedStreak :=
  streak_of (foldl step_occurrence (apply_streak no_streak r) (streak_walk r)).

(** ** The streak as of now *)

Definition latest_civil (keys : list string) : option DateTime :=
  foldl (λ m k, match parse_occurrence_key k with
                | Some c => Some (match m with Some m => cmax m c | None => c end)
                | None => m end) None keys.

Definition streak_as_of (r : Routine) (now : Z) (reader : TimeZone) : DerivedStreak :=
  let held := streak_of r in
  if decide (streak_counter r = 0) then held
  else
    match latest_civil (streak_keys r) ≫= to_timestamp (occurrence_zone r reader) with
    | None => held
    | Some after =>
        match ts_add now (- (grace_window_seconds r * 1000000000)) with
        | None => held
        | Some closed_before =>
            if decide (closed_before ≤ after) then held
            else
              match ts_add after 1000000000 with
              | None => held
              | Some start =>
                  let occ := match occurrences_in r (start, closed_before) reader with Ok occ => occ | Err _ => [] end in
                  streak_of (foldl (λ out o, if streak_key_seen r (occ_key o) then out else miss_occurrence (occ_at o) out) r occ)
              end
        end
    end.
End streak.

(** ** A completion counts once *)

Section keys.
Implicit Types keys : list string.

Lemma binary_search_spec keys k :
  StronglySorted key_lt keys →
  let '(found, i) := binary_search keys k in
  (found = true ↔ k ∈ keys) ∧ (k ∉ keys → StronglySorted key_lt (take i keys ++ k :: drop i keys)).
Proof.
  intros Hs. unfold binary_search. pose proof (sorted_split text_bytes (text_bytes k) keys Hs) as Hsplit.
  fold (key_lt) in Hsplit. set (lo := filter (λ x, key_lt x k) keys) in *.
  assert (keys = lo ++ filter (λ x, ¬ key_lt x k) keys) as Hk by exact Hsplit. clear Hsplit.
  assert (∀ x, x ∈ lo → key_lt x k) as Hlo by (by intros x [? _]%list_elem_of_filter).
  assert (∀ x, x ∈ filter (λ x, ¬ key_lt x k) keys → ¬ key_lt x k) as Hhi by (by intros x [? _]%list_elem_of_filter).
  set (hi := filter (λ x, ¬ key_lt x k) keys) in *. clearbody lo hi. subst keys.
  rewrite lookup_app_r, Nat.sub_diag, take_app_length, drop_app_length by done. split.
  - rewrite bool_decide_eq_true. split; [intros Hh; apply elem_of_app; right; by eapply list_elem_of_lookup_2|].
    intros [Hin|Hin]%elem_of_app; [apply Hlo in Hin; by apply (tlt_irrefl (text_bytes k)) in Hin|].
    destruct hi as [|h hi]; [by apply not_elem_of_nil in Hin|]. cbn. apply elem_of_cons in Hin as [<-|Hin]; [done|].
    exfalso. apply (Hhi h); [by left|]. apply StronglySorted_app in Hs as (_ & _ & Hs). apply StronglySorted_inv in Hs as [_ Hall].
    rewrite Forall_forall in Hall. by apply Hall.
  - intros Hn. apply StronglySorted_app in Hs as (Hcross & Hl & Hh). apply StronglySorted_app_2; [|done|].
    + intros x y Hx [->|Hy]%elem_of_cons; [by apply Hlo|by apply Hcross].
    + constructor; [done|]. apply Forall_forall. intros y Hy. apply tle_ne_tlt; [apply tle_not_tlt; by apply Hhi|].
      intros E%text_bytes_inj. subst. apply Hn, elem_of_app. by right.
Qed.
End keys.

Section completion.
Context `{Jiff}.

Lemma slide_shape now r :
  ∃ st fg, slide_forgiveness_window now r = set_forgivenesses_in_window fg (set_streak_started_at st r).
Proof.
  unfold slide_forgiveness_window. destruct (streak_started_at r) as [a|] eqn:E; [|exists None, (forgivenesses_in_window r); rewrite <-E; by destruct r].
  case_decide; [exists (Some a), (forgivenesses_in_window r); rewrite <-E; by destruct r|].
  destruct (from_second _) as [ts|]; [by exists (Some ts), 0|exists (Some a), 0; rewrite <-E; by destruct r].
Qed.

(** Completing an occurrence moves the streak once.  The key set stays
    sorted and without repeats; the first completion adds the key, and with it
    the counter goes up by one within the grace window, and past it holds or
    returns to zero — held only with forgiveness on; every later completion of
    the same occurrence, at whatever time, is a duplicate that changes nothing
    at all. *)
Theorem completion_counts_once r key at_ now :
  StronglySorted key_lt (streak_keys r) →
  let '(r', outcome) := record_occurrence_completion r key at_ now in
  StronglySorted key_lt (streak_keys r') ∧ (∀ k, k ∈ streak_keys r' ↔ k = key ∨ k ∈ streak_keys r) ∧
  (outcome = Duplicate ↔ key ∈ streak_keys r) ∧ (outcome = Duplicate → r' = r) ∧
  (outcome = Incremented → as_second now ≤ sat_add_i64 (as_second at_) (grace_window_seconds r) ∧
    streak_counter r' = sat_add_i64 (streak_counter r) 1 ∧ is_Some (streak_started_at r')) ∧
  (outcome = Forgiven → forgiveness_enabled r = true ∧ streak_counter r' = streak_counter r ∧
    sat_add_i64 (as_second at_) (grace_window_seconds r) < as_second now) ∧
  (outcome = ResetStreak → streak_of r' = mkStreak 0 (Some (Instant now)) None 0 ∧
    sat_add_i64 (as_second at_) (grace_window_seconds r) < as_second now) ∧
  ∀ at2 now2, record_occurrence_completion r' key at2 now2 = (r', Duplicate).
Proof.
  intros Hs. pose proof (binary_search_spec (streak_keys r) key Hs) as Hbs. unfold record_occurrence_completion at 1.
  destruct (binary_search (streak_keys r) key) as [found i] eqn:Eb. destruct Hbs as [Hf Hins]. destruct found.
  { assert (key ∈ streak_keys r) as Hin by by apply Hf. split_and!; try done.
    - intros k. split; [by right|by intros [-> |?]].
    - intros at2 now2. unfold record_occurrence_completion. by rewrite Eb. }
  assert (key ∉ streak_keys r) as Hn by (intros Hin; by apply Hf in Hin). specialize (Hins Hn).
  set (keys' := take i (streak_keys r) ++ key :: drop i (streak_keys r)) in *.
  assert (∀ k, k ∈ keys' ↔ k = key ∨ k ∈ streak_keys r) as Hin.
  { intros k. unfold keys'. rewrite <-(take_drop i (streak_keys r)) at 3. rewrite !elem_of_app, elem_of_cons. tauto. }
  assert (∀ q, streak_keys q = keys' → ∀ at2 now2, record_occurrence_completion q key at2 now2 = (q, Duplicate)) as Hdup.
  { intros q Hq at2 now2. unfold record_occurrence_completion. rewrite Hq. pose proof (binary_search_spec keys' key Hins) as Hbs.
    destruct (binary_search keys' key) as [[] j]; [done|]. destruct Hbs as [[_ Hbs] _]. discriminate Hbs. apply Hin. by left. }
  destruct (slide_shape now (set_streak_keys keys' r)) as (st & fg & ->).
  change (grace_window_seconds (set_last_completed_at _ _)) with (grace_window_seconds r).
  assert (∀ q out, streak_keys q = keys' → out ≠ Duplicate →
    StronglySorted key_lt (streak_keys q) ∧ (∀ k, k ∈ streak_keys q ↔ k = key ∨ k ∈ streak_keys r) ∧
    (out = Duplicate ↔ key ∈ streak_keys r) ∧ (out = Duplicate → q = r)) as Hcommon.
  { intros q out -> Hne. split; [done|]. split; [done|]. split; [by split|done]. }
  assert (∀ (P1 P2 P3 P4 P5 P6 P7 P8 : Prop), P1 ∧ P2 ∧ P3 ∧ P4 → P5 ∧ P6 ∧ P7 → P8 → P1 ∧ P2 ∧ P3 ∧ P4 ∧ P5 ∧ P6 ∧ P7 ∧ P8) as Hconj by tauto.
  case_decide as Hd; [|destruct (_ && _) eqn:Hfg]; apply Hconj; try by destruct st; apply Hcommon.
  - split; [intros _|done]. split; [done|]. by destruct st; split; [|eexists| |eexists].
  - by destruct st; apply Hdup.
  - split; [done|]. split; [intros _|done]. apply andb_true_iff in Hfg as [? _]. split; [done|]. split; [done|lia].
  - by apply Hdup.
  - split; [done|]. split; [done|]. intros _. split; [done|lia].
  - by apply Hdup.
Qed.
End completion.

(** ** The derived streak *)

Section derived.
Context `{Jiff}.

(** The steps on the four fields alone. *)
Definition slide_streak (now : Z) (d : DerivedStreak) : DerivedStreak :=
  match ds_started_at d with
  | None => d
  | Some anchor =>
      let elapsed := sat_sub_i64 (as_second now) (as_second anchor) in
      if decide (elapsed ≤ FORGIVENESS_WINDOW_S) then d
      else
        let advanced := sat_add_i64 (as_second anchor) (sat_mul_i64 (Z.quot elapsed FORGIVENESS_WINDOW_S) FORGIVENESS_WINDOW_S) in
        mkStreak (ds_counter d) (ds_last_completed_at d) (Some (default anchor (from_second advanced))) 0
  end.
Definition streak_step (forgiving : bool) (d : DerivedStreak) (e : Z * bool) : DerivedStreak :=
  if e.2 then
    let d := slide_streak e.1 d in
    mkStreak (sat_add_i64 (ds_counter d) 1) (Some (Instant e.1)) (Some (default e.1 (ds_started_at d))) (ds_forgivenesses d)
  else if decide (ds_counter d = 0) then d
  else
    let d := slide_streak e.1 d in
    if forgiving && bool_decide (ds_forgivenesses d < FORGIVENESS_ALLOWANCE) then
      mkStreak (ds_counter d) (ds_last_completed_at d) (ds_started_at d) (ds_forgivenesses d + 1)
    else mkStreak 0 (ds_last_completed_at d) None 0.

Lemma slide_streak_spec now r :
  streak_of (slide_forgiveness_window now r) = slide_streak now (streak_of r) ∧
  forgiveness_enabled (slide_forgiveness_window now r) = forgiveness_enabled r.
Proof.
  unfold slide_forgiveness_window, slide_streak. cbn [streak_of ds_started_at]. destruct (streak_started_at r) as [a|] eqn:E; [|done].
  case_decide; [done|]. destruct (from_second _); unfold streak_of; cbn; by rewrite ?E.
Qed.

Lemma step_occurrence_spec r e :
  streak_of (step_occurrence r e) = streak_step (forgiveness_enabled r) (streak_of r) e ∧
  forgiveness_enabled (step_occurrence r e) = forgiveness_enabled r.
Proof.
  destruct e as [at_ counted]. unfold step_occurrence, streak_step. cbn [fst snd].
  destruct (slide_streak_spec at_ r) as [Hs Hf]. destruct counted.
  - rewrite <-Hs, <-Hf. unfold count_occurrence. generalize (slide_forgiveness_window at_ r). intros q.
    unfold streak_of. cbn. destruct (streak_started_at q) as [z|] eqn:E; (split; [|done]); [|done].
    change (streak_started_at (set_streak_counter _ q)) with (streak_started_at q). by rewrite E.
  - unfold miss_occurrence. change (ds_counter (streak_of r)) with (streak_counter r). case_decide; [done|].
    rewrite <-Hs, <-Hf. generalize (slide_forgiveness_window at_ r). intros q.
    change (ds_forgivenesses (streak_of q)) with (forgivenesses_in_window q). by destruct (_ && _).
Qed.

Lemma derived_streak_fold r :
  derived_streak r = foldl (streak_step (forgiveness_enabled r)) no_streak (streak_walk r).
Proof.
  unfold derived_streak. generalize (streak_walk r). intros l.
  change no_streak with (streak_of (apply_streak no_streak r)) at 2.
  change (forgiveness_enabled r) with (forgiveness_enabled (apply_streak no_streak r)).
  generalize (apply_streak no_streak r). induction l as [|e l IH]; intros q; [done|]. cbn [foldl].
  destruct (step_occurrence_spec q e) as [Hs Hf]. by rewrite IH, Hs, Hf.
Qed.

Lemma keyed_lookup r k : keyed r !! k = if decide (k ∈ streak_keys r) then parse_occurrence_key k else None.
Proof.
  unfold keyed. generalize (streak_keys r). intros l. induction l as [|x l IH]; [done|]. cbn [omap list_omap].
  destruct (parse_occurrence_key x) as [c|] eqn:E; cbn [fmap option_fmap option_map list_to_map foldr].
  - cbn [list_to_map foldr uncurry]. destruct (decide (k = x)) as [->|Hne].
    + cbn. rewrite lookup_insert_eq, decide_True by (by left). done.
    + cbn. rewrite lookup_insert_ne, IH by done. destruct (decide (k ∈ l)) as [Hin|Hin].
      * by rewrite decide_True by (by right).
      * rewrite decide_False; [done|]. by intros [?|?]%elem_of_cons.
  - rewrite IH. destruct (decide (k ∈ l)) as [Hin|Hin]; [by rewrite decide_True by (by right)|].
    destruct (decide (k ∈ x :: l)) as [[->|?]%elem_of_cons|]; done.
Qed.

(** Replicas whose rule, zone, end, skips and keys agree as sets. *)
Record same_series (r q : Routine) : Prop := {
  same_rule : rrule r = rrule q;
  same_timezone : timezone r = timezone q;
  same_starts_at : starts_at r = starts_at q;
  same_ends_at : ends_at r = ends_at q;
  same_skip_dates : skip_dates r = skip_dates q;
  same_forgiveness : forgiveness_enabled r = forgiveness_enabled q;
  same_skipped k : k ∈ skipped_keys r ↔ k ∈ skipped_keys q;
  same_keys k : k ∈ streak_keys r ↔ k ∈ streak_keys q;
}.

Lemma foldl_ext_fun {A B} (f g : A → B → A) l a : (∀ x y, f x y = g x y) → foldl f a l = foldl g a l.
Proof. intros Hfg. revert a. induction l as [|y l IH]; intros a; [done|]. cbn. by rewrite Hfg, IH. Qed.

Lemma streak_walk_same r q : same_series r q → streak_walk r = streak_walk q.
Proof.
  intros [Hr Ht Hs He Hsd _ Hsk Hk].
  assert (keyed r = keyed q) as Hkeyed.
  { apply map_eq. intros k. rewrite !keyed_lookup. destruct (decide (k ∈ streak_keys r)) as [Hi|Hi]; rewrite Hk in Hi.
    - by rewrite decide_True. - by rewrite decide_False. }
  assert (∀ z, occurrence_zone r z = occurrence_zone q z) as Hz by (intros z; unfold occurrence_zone; by rewrite Hs, Ht).
  assert (∀ w z, series_in r w z = series_in q w z) as Hser.
  { intros w z. unfold series_in, anchor_civil, occurrence_zone, normalized, normalize_legacy_times. cbn. by rewrite Hs, Ht, He, Hr. }
  assert (∀ o z, is_skipped r o z = is_skipped q o z) as Hskip.
  { intros o z. unfold is_skipped. rewrite Hsd. f_equal. by apply bool_decide_ext. }
  assert (∀ c, place_civil r c = place_civil q c) as Hplace by (intros c; unfold place_civil; by rewrite Hz).
  unfold streak_walk. rewrite Hkeyed. destruct (last _) as [newest|]; [|done]. destruct (keyed q !! newest) as [nc|]; [|done].
  assert (walk_rule r newest nc = walk_rule q newest nc) as ->.
  { unfold walk_rule. rewrite Hplace, Hser, Hkeyed. apply foldl_ext_fun. intros w o. by rewrite Hskip, Hz. }
  assert (∀ w, walk_keys r w = walk_keys q w) as ->; [|done].
  intros w. unfold walk_keys. rewrite Hkeyed. apply foldl_ext_fun. intros w' k.
  assert (keyed q !! k ≫= place_civil r = keyed q !! k ≫= place_civil q) as ->; [|done]. destruct (keyed q !! k); [apply Hplace|done].
Qed.

(** The derived streak is the same on every replica.  Two replicas that
    agree on the series and hold the same completed and skipped keys — in
    whatever order they arrived, repeated or not, and whatever streak either
    had stored — derive the same four fields. *)
Theorem derived_streak_shared r q : same_series r q → derived_streak r = derived_streak q.
Proof. intros Hs. by rewrite !derived_streak_fold, (streak_walk_same r q Hs), (same_forgiveness r q Hs). Qed.

(** ** What the counter counts *)

Definition trailing_run (l : list (Z * bool)) : nat := length (take_while snd (rev l)).
Definition counted_total (l : list (Z * bool)) : nat := length (List.filter snd l).

Lemma slide_streak_counter now d : ds_counter (slide_streak now d) = ds_counter d.
Proof. unfold slide_streak. destruct (ds_started_at d); [|done]. by case_decide. Qed.

Lemma streak_fold_bounds forgiving l :
  Z.of_nat (length l) ≤ i64_max →
  let c := ds_counter (foldl (streak_step forgiving) no_streak l) in
  Z.of_nat (trailing_run l) ≤ c ≤ Z.of_nat (counted_total l) ∧ (forgiving = false → c = Z.of_nat (trailing_run l)).
Proof.
  rewrite <-(rev_involutive l). generalize (rev l). clear l. intros l. induction l as [|[at_ counted] l IH]; intros Hlen; [done|].
  cbn [rev] in Hlen |- *. rewrite length_app in Hlen. cbn [length] in Hlen. rewrite foldl_app. cbn [foldl].
  unfold trailing_run, counted_total in *. rewrite rev_app_distr, rev_involutive in *. cbn [rev app take_while snd].
  rewrite List.filter_app, length_app. cbn [List.filter snd]. specialize (IH ltac:(lia)). destruct IH as [Hb Hexact].
  assert (length (List.filter snd (rev l)) ≤ length (rev l))%nat as Hle by apply List.filter_length_le.
  set (d := foldl _ _ _) in *. unfold streak_step. cbn [fst snd]. destruct counted; cbn [length].
  - cbn [ds_counter]. rewrite slide_streak_counter. unfold sat_add_i64, i64_min in *. split; [lia|]. intros Hf. specialize (Hexact Hf). lia.
  - case_decide as H0; [split; [lia|]; lia|]. destruct (_ && _) eqn:E; cbn [ds_counter].
    + rewrite slide_streak_counter. split; [lia|]. intros ->. done.
    + split; [lia|]. done.
Qed.

(** C36: the counter is the run of completions.  Without forgiveness it is
    exactly the number of occurrences completed since the last one missed; with
    it, at least that and never more than all that were completed.  (Of a walk
    of fewer than 2^63 occurrences; how many misses the forgiveness forgives is
    not bounded here.) *)
Theorem streak_counts_the_run r :
  Z.of_nat (length (streak_walk r)) ≤ i64_max →
  Z.of_nat (trailing_run (streak_walk r)) ≤ ds_counter (derived_streak r) ≤ Z.of_nat (counted_total (streak_walk r)) ∧
  (forgiveness_enabled r = false → ds_counter (derived_streak r) = Z.of_nat (trailing_run (streak_walk r))).
Proof. intros Hl. rewrite derived_streak_fold. by apply streak_fold_bounds. Qed.

(** ** Advancing the window *)

(** One window at a time, while the moment is more than a window past. *)
Fixpoint advance (fuel : nat) (anchor now : Z) : Z :=
  match fuel with
  | O => anchor
  | S fuel' => if decide (now - anchor ≤ FORGIVENESS_WINDOW_S) then anchor else advance fuel' (anchor + FORGIVENESS_WINDOW_S) now
  end.

(** The single step lands where the steps one by one do, except when a whole
    number of windows has passed exactly: there it goes one window further. *)
Lemma slide_is_advance fuel anchor now :
  FORGIVENESS_WINDOW_S < now - anchor → now - anchor ≤ Z.of_nat fuel →
  anchor + Z.quot (now - anchor) FORGIVENESS_WINDOW_S * FORGIVENESS_WINDOW_S =
    advance fuel anchor now + (if decide ((now - anchor) mod FORGIVENESS_WINDOW_S = 0) then FORGIVENESS_WINDOW_S else 0).
Proof.
  unfold FORGIVENESS_WINDOW_S. revert anchor. induction fuel as [|fuel IH]; intros anchor Hgt Hfuel; [lia|].
  cbn [advance]. rewrite decide_False by (unfold FORGIVENESS_WINDOW_S; lia). unfold FORGIVENESS_WINDOW_S in *.
  set (w := 30 * 24 * 60 * 60) in *. assert (w = 2592000) as Hw by done. clearbody w. subst w.
  rewrite Z.quot_div_nonneg in * by lia.
  destruct (decide (now - (anchor + 2592000) ≤ 2592000)) as [Hle|Hle].
  - assert (advance fuel (anchor + 2592000) now = anchor + 2592000) as ->.
    { destruct fuel; [done|]. cbn [advance]. by rewrite decide_True by (unfold FORGIVENESS_WINDOW_S; lia). }
    case_decide; Z.to_euclidean_division_equations; lia.
  - specialize (IH (anchor + 2592000) ltac:(lia) ltac:(lia)). rewrite Z.quot_div_nonneg in IH by lia.
    assert ((now - anchor) / 2592000 = (now - (anchor + 2592000)) / 2592000 + 1) as -> by (Z.to_euclidean_division_equations; lia).
    assert ((now - anchor) mod 2592000 = (now - (anchor + 2592000)) mod 2592000) as -> by (Z.to_euclidean_division_equations; lia). lia.
Qed.
End derived.
