(* ===== verification/RecurExamples.v ===== *)
(** * Recurring rules on a concrete calendar

    The theorems on times, constraints, rules, splits and streaks at concrete
    values, on the Gregorian calendar. *)

From Stdlib Require Import ZArith Lia String Ascii.
From stdpp Require Import base tactics decidable option list sorting gmap strings.
From S2P Require Import Prelude Bytes Calendar SunriseTime Rrule Registry Cbor Ids Constraint Gregorian RoutineGen Routine RoutineEdit SplitSeries Streak.
Open Scope Z_scope.

(** Every second week on Tuesday and Friday, five times, from Tuesday the 3rd
    of March 2026 at half past nine. *)
Definition demo_rule : RRule := mkRRule Weekly 2 [Tu; Fr] [] [] [] (Some 5) None None ∅.
Definition demo_anchor : DateTime := mkDateTime (mkDate 2026 3 3) (mkTime 9 30 0 0).
Definition demo_zone : TimeZone := utc.
(** The 10th of March to the 1st of April. *)
Definition demo_window : Z * Z := ((number (mkDate 2026 3 10) - epoch) * DAY, (number (mkDate 2026 4 1) - epoch) * DAY).
Definition demo_occurrence (m d : Z) : Occurrence :=
  let c := mkDateTime (mkDate 2026 m d) (mkTime 9 30 0 0) in
  mkOccurrence (format_key (date c) (time c)) c (default 0 (to_timestamp demo_zone c)).

Lemma demo_anchor_valid : valid (date demo_anchor).
Proof. split_and!; by vm_compute. Qed.

Lemma demo_expand :
  expand demo_rule demo_anchor demo_zone demo_window = Ok (demo_occurrence 3 17 :: demo_occurrence 3 20 :: demo_occurrence 3 31 :: []).
Proof. vm_compute. reflexivity. Qed.

Lemma expand_is_the_series_witness :
  ∃ out, expand demo_rule demo_anchor demo_zone demo_window = Ok out ∧ length out = 3%nat ∧
    out = if is_understood demo_rule && negb (from_option is_unknown false (until demo_rule))
          then filter (kept demo_window) (the_series demo_rule demo_anchor demo_zone MAX_PERIODS) else [].
Proof.
  eexists. split; [exact demo_expand|]. split; [reflexivity|].
  apply (expand_is_the_series demo_rule demo_anchor demo_zone demo_window demo_anchor_valid _ MAX_PERIODS demo_expand). constructor.
Defined.

Lemma expand_ascends_witness :
  ∃ out, expand demo_rule demo_anchor demo_zone demo_window = Ok out ∧ StronglySorted occ_before out ∧ length out = 3%nat.
Proof.
  eexists. split; [exact demo_expand|]. split; [|reflexivity].
  apply (expand_ascends demo_rule demo_anchor demo_zone demo_window demo_anchor_valid _ demo_expand).
Defined.

Lemma expand_answers_witness :
  day_number (win_end_date demo_zone demo_window) - day_number (date demo_anchor) = 30 ∧
  ∃ out, expand demo_rule demo_anchor demo_zone demo_window = Ok out.
Proof.
  split; [reflexivity|]. apply (expand_answers demo_rule demo_anchor demo_zone demo_window demo_anchor_valid).
  intros s Hs. assert (s = mkDate 2026 3 2) as -> by (vm_compute in Hs; congruence).
  change (day_number (win_end_date demo_zone demo_window)) with 740078.
  change (day_number (mkDate 2026 3 2)) with 740047. unfold MAX_PERIODS. rewrite Z2Nat.id; lia.
Defined.

Lemma keys_order_minutes_witness :
  let c m d h := mkDateTime (mkDate 2026 m d) (mkTime h 30 0 0) in
  format_key (date (c 3 9 9)) (time (c 3 9 9)) = "2026-03-09T09:30"%string ∧
  bytes_compare (text_bytes (format_key (date (c 3 9 9)) (time (c 3 9 9)))) (text_bytes (format_key (date (c 3 10 8)) (time (c 3 10 8)))) =
    cmp (minute_of (c 3 9 9)) (minute_of (c 3 10 8)).
Proof.
  cbv zeta. split; [reflexivity|]. apply (keys_order_minutes (mkDateTime (mkDate 2026 3 9) (mkTime 9 30 0 0)) (mkDateTime (mkDate 2026 3 10) (mkTime 8 30 0 0)));
    unfold clock_ok; cbn; lia.
Defined.

Lemma rule_dates_exact_witness :
  let d := mkDate 2026 3 20 in
  d ∈ series_dates demo_rule demo_anchor 4 0 ∧ recurs_on demo_rule demo_anchor d ∧
  period_of demo_rule d = period_of demo_rule (date demo_anchor) + 1 * 2.
Proof.
  cbv zeta. assert (recurs_on demo_rule demo_anchor (mkDate 2026 3 20)) as Hr.
  { split; [done|]. split; [done|]. split; [|done]. intros _. exists Fr. split; [right; left|vm_compute; reflexivity]. }
  assert (period_of demo_rule (mkDate 2026 3 20) = period_of demo_rule (date demo_anchor) + 1 * 2) as Hp by (vm_compute; reflexivity).
  split; [|done]. apply (rule_dates_exact demo_rule demo_anchor demo_anchor_valid 4 (mkDate 2026 3 20)).
  - reflexivity.
  - cbn. lia.
  - split_and!; by vm_compute.
  - split; [exact Hr|]. exists 1. split; [lia|exact Hp].
Defined.

(** ** A routine in Tokyo, and its split *)

Definition demo_hash (b : bytes) : bytes := take 16 (b ++ replicate 16 0).
Definition demo_root : EntityRef := mkRef EntityKind.Routine (replicate 16 7).
Definition demo_template : TaskTemplate := mkTemplate "water the plants" None [] None None None None ∅.
Definition tokyo (c : DateTime) : SunriseTime := Zoned c "Asia/Tokyo".
Definition demo_routine : Routine :=
  mkRoutine demo_root 0 0 demo_template demo_rule "Asia/Tokyo" (tokyo demo_anchor) None [] [] ["2026-03-20T09:30"%string]
    CatchSkip 0 None None true None 0 [] false None false false None ∅.

(** Tuesday the 17th on: the 17th is the continuation's first, and the 20th is
    skipped. *)
Lemma split_partitions_witness :
  ∃ s out,
    split_at demo_hash demo_routine "2026-03-17T09:30" 5 = Ok s ∧
    occurrences_in demo_routine (0, timestamp_max) utc = Ok out ∧ length out = 4%nat ∧
    ∃ out_ended out_next,
      occurrences_in (ended s) (0, timestamp_max) utc = Ok out_ended ∧
      occurrences_in (continuation s) (0, timestamp_max) utc = Ok out_next ∧
      out = out_ended ++ out_next.
Proof.
  eexists _, _. split; [vm_compute; reflexivity|]. split; [vm_compute; reflexivity|]. split; [reflexivity|].
  eapply (split_partitions demo_hash demo_routine "2026-03-17T09:30" 5 _ demo_anchor (0, timestamp_max) utc).
  - vm_compute. reflexivity.
  - reflexivity.
  - split; [exact demo_anchor_valid|]. cbn. lia.
  - by eexists.
  - exact I.
  - cbn. unfold u32_max. lia.
  - reflexivity.
  - reflexivity.
  - intros c _ x _ _ _. split; intros _; by eexists.
  - vm_compute. reflexivity.
Defined.

(** Two continuations split off concurrently, anchored a week apart. *)
Definition demo_chain : list Routine :=
  let cont d := set_routine_id (mkRef EntityKind.Routine (replicate 16 d)) (set_split_from (Some demo_root)
    (set_starts_at (tokyo (mkDateTime (mkDate 2026 3 d) (mkTime 9 30 0 0))) demo_routine)) in
  [cont 20; demo_routine; cont 17].
Lemma one_owner_witness :
  owns_key (nth 2 demo_chain demo_routine) "2026-03-17T09:30" demo_chain = true ∧
  ∃ owner, owner ∈ demo_chain ∧ owns_key owner "2026-03-17T09:30" demo_chain = true.
Proof.
  split; [vm_compute; reflexivity|].
  destruct (one_owner demo_chain demo_root "2026-03-17T09:30") as [_ Hex].
  - apply (bool_decide_unpack _). vm_compute. exact I.
  - repeat constructor.
  - by eexists.
  - destruct Hex as (w & Hw & Ho & _); [|by exists w]. exists demo_routine. split; [right; left|]. vm_compute. reflexivity.
Defined.

(** A zoned UNTIL read in the split's UTC frame: the last occurrence of the
    ended routine — its own UNTIL — is one the routine generates and says it
    does not have. *)
Lemma last_occurrence_disowned :
  ∃ s out o, split_at demo_hash demo_routine "2026-03-17T09:30" 5 = Ok s ∧
    occurrences_in (ended s) (0, timestamp_max) utc = Ok out ∧ last out = Some o ∧
    occ_key o = "2026-03-06T09:30"%string ∧ has_occurrence (ended s) (occ_key o) = false.
Proof.
  eexists _, _, _. split; [vm_compute; reflexivity|]. split; [vm_compute; reflexivity|]. split; [vm_compute; reflexivity|].
  split; vm_compute; reflexivity.
Qed.

(** ** Streaks, legacy forms and constraints *)

Lemma legacy_wire_roundtrip_witness :
  ∃ w, legacy_wire_form demo_routine = Some w ∧ starts_at w = Instant 1772497800000000000 ∧ normalized w = normalized demo_routine.
Proof.
  eexists. split; [vm_compute; reflexivity|]. split; [reflexivity|]. apply legacy_wire_roundtrip. vm_compute. reflexivity.
Defined.

Definition day_ns (m d h : Z) : Z := (number (mkDate 2026 m d) - epoch) * DAY + h * HOUR_NS.
Definition demo_done : Routine := set_streak_keys ["2026-03-03T09:30"%string; "2026-03-20T09:30"%string] demo_routine.

Lemma completion_counts_once_witness :
  let '(r', outcome) := record_occurrence_completion demo_done "2026-03-17T09:30" (day_ns 3 17 9) (day_ns 3 17 12) in
  outcome = Incremented ∧ streak_keys r' = ["2026-03-03T09:30"; "2026-03-17T09:30"; "2026-03-20T09:30"]%string ∧
  record_occurrence_completion r' "2026-03-17T09:30" 0 0 = (r', Duplicate).
Proof.
  pose proof (completion_counts_once demo_done "2026-03-17T09:30" (day_ns 3 17 9) (day_ns 3 17 12)) as Hc.
  destruct (record_occurrence_completion _ _ _ _) as [r' outcome] eqn:E. vm_compute in E. injection E as <- <-.
  split; [reflexivity|]. split; [reflexivity|]. apply Hc. repeat constructor.
Defined.

Lemma derived_streak_shared_witness :
  let q := set_streak_counter 7 (set_streak_keys ["2026-03-20T09:30"; "2026-03-03T09:30"; "2026-03-20T09:30"]%string demo_done) in
  ds_counter (derived_streak demo_done) = 1 ∧ derived_streak q = derived_streak demo_done.
Proof.
  cbv zeta. split; [vm_compute; reflexivity|]. apply derived_streak_shared. split; try reflexivity.
  intros k. cbn. rewrite !elem_of_cons. tauto.
Defined.

Lemma streak_counts_the_run_witness :
  let r := set_forgiveness_enabled false demo_done in
  snd <$> streak_walk r = [true; false; false; true] ∧ trailing_run (streak_walk r) = 1%nat ∧
  ds_counter (derived_streak r) = Z.of_nat (trailing_run (streak_walk r)).
Proof.
  cbv zeta. split; [vm_compute; reflexivity|]. split; [vm_compute; reflexivity|].
  apply (streak_counts_the_run (set_forgiveness_enabled false demo_done)); [|reflexivity].
  assert (length (streak_walk (set_forgiveness_enabled false demo_done)) = 4%nat) as E by (vm_compute; reflexivity).
  rewrite E. unfold i64_max. lia.
Defined.

(** Exactly sixty days on, the window jumps to the moment itself; stepping a
    window at a time stops thirty days before. *)
Lemma slide_overshoots :
  let r := set_streak_started_at (Some 0) demo_routine in
  let now := 60 * DAY in
  streak_started_at (slide_forgiveness_window now r) = Some now ∧
  advance 10 0 (as_second now) = 30 * 24 * 60 * 60.
Proof. split; vm_compute; reflexivity. Qed.

(** Friday's night window, asked about on Saturday at one in the morning. *)
Definition friday_night : ScheduleConstraint :=
  mkConstraint (Some (mkTimeOfDayRange (mkTime 22 0 0 0) (mkTime 6 0 0 0) ∅)) (from_days [Fr]) None Hard ∅.
Lemma satisfied_iff_in_a_window_witness :
  let zdt := mkDateTime (mkDate 2026 3 21) (mkTime 1 0 0 0) in
  is_satisfied_at friday_night zdt = true ∧
  ∃ day, valid day ∧ in_window_of friday_night day zdt ∧ on_day friday_night day.
Proof.
  cbv zeta. assert (is_satisfied_at friday_night (mkDateTime (mkDate 2026 3 21) (mkTime 1 0 0 0)) = true) as Hs by (vm_compute; reflexivity).
  split; [exact Hs|]. apply (satisfied_iff_in_a_window friday_night (mkDateTime (mkDate 2026 3 21) (mkTime 1 0 0 0))); [| |exact Hs].
  - split_and!; by vm_compute.
  - eexists. vm_compute. reflexivity.
Defined.
