(* ===== verification/Search.v ===== *)
(** * Search queries (sunrise-domain: search/ast.rs, parse.rs, date.rs, display.rs, mod.rs)

    The query language: what a query is, the total parser with its size limits
    and notices, the canonical text, and the days a date value covers.  Text is
    the list of its Unicode scalars, which is what the parser reads; an index
    into the input is here the part of the input from that index on, and its
    number is recovered from the lengths where a notice or a limit needs it. *)

From Stdlib Require Import ZArith Lia String.
From stdpp Require Import base tactics decidable option list strings.
From S2P Require Import Prelude Bytes Calendar Rrule.
Open Scope Z_scope.

(** ** Characters *)

Abbreviation chars := (list Z).
Definition txt (s : string) : chars := text_bytes s.

(** [char::is_whitespace]: the scalars with the property White_Space. *)
Definition is_ws (c : Z) : bool :=
  bool_decide (9 ≤ c ≤ 13) || (c =? 32) || (c =? 133) || (c =? 160) || (c =? 5760) || bool_decide (8192 ≤ c ≤ 8202)
  || (c =? 8232) || (c =? 8233) || (c =? 8239) || (c =? 8287) || (c =? 12288).
Definition QUOTE : Z := 34.
Definition LPAREN : Z := 40.
Definition RPAREN : Z := 41.
Definition COMMA : Z := 44.
Definition is_paren (c : Z) : bool := (c =? LPAREN) || (c =? RPAREN).
Definition ends_bare (c : Z) : bool := is_ws c || (c =? QUOTE) || is_paren c.
Definition is_upper (c : Z) : bool := bool_decide (65 ≤ c ≤ 90).
Definition is_alphabetic (c : Z) : bool := is_upper c || bool_decide (97 ≤ c ≤ 122).
Definition is_digit (c : Z) : bool := bool_decide (48 ≤ c ≤ 57).

Definition to_ascii_lowercase (s : chars) : chars := (λ c, if is_upper c then c + 32 else c) <$> s.
Definition eq_ignore_ascii_case (a b : chars) : bool := bool_decide (to_ascii_lowercase a = to_ascii_lowercase b).

(** The longest prefix with no character of [p], and what follows it. *)
Fixpoint break (p : Z → bool) (l : chars) : chars * chars :=
  match l with
  | [] => ([], [])
  | c :: l' => if p c then ([], l) else (λ ab, (c :: ab.1, ab.2)) (break p l')
  end.
Definition trim_start (l : chars) : chars := (break (λ c, negb (is_ws c)) l).2.
Definition trim_end (l : chars) : chars := reverse (trim_start (reverse l)).
Definition trim (l : chars) : chars := trim_end (trim_start l).

(** What follows [c], when that is what the text starts with. *)
Definition strip_char (c : Z) (l : chars) : option chars :=
  match l with d :: l' => if d =? c then Some l' else None | [] => None end.

(** [str::split] at a character, and [str::split_once] at "..". *)
Fixpoint split_char (c : Z) (l : chars) : list chars :=
  match l with
  | [] => [[]]
  | d :: l' =>
      if d =? c then [] :: split_char c l'
      else match split_char c l' with [] => [[d]] | p :: ps => (d :: p) :: ps end
  end.
Fixpoint split_dots (l : chars) : option (chars * chars) :=
  match l with
  | [] => None
  | c :: l' =>
      match (if c =? 46 then strip_char 46 l' else None) with
      | Some rest => Some ([], rest)
      | None => (λ ab, (c :: ab.1, ab.2)) <$> split_dots l'
      end
  end.
Fixpoint join_chars {A} (sep : list A) (l : list (list A)) : list A :=
  match l with
  | [] => []
  | [s] => s
  | s :: l' => s ++ sep ++ join_chars sep l'
  end.

(** ** Limits *)

Definition MAX_TEXT : Z := 1024.
Definition MAX_CLAUSES : Z := 32.
Definition MAX_DEPTH : nat := 8.
Definition MAX_INPUT : Z := 16 * 1024.
Definition MAX_OFFSET : Z := 999.

(** ** The parsed form *)

Inductive Comparator := CmpEq | CmpLt | CmpLe | CmpGt | CmpGe.
Definition cmp_str (c : Comparator) : string :=
  match c with CmpEq => ":" | CmpLt => "<" | CmpLe => "<=" | CmpGt => ">" | CmpGe => ">=" end.
#[export] Instance Comparator_eq_dec : EqDecision Comparator.
Proof. solve_decision. Defined.

Inductive DateField := FPlanned | FTarget | FHard | FDue | FCreated | FDone.
Definition ALL_fields : list DateField := [FPlanned; FTarget; FHard; FDue; FCreated; FDone].
Definition field_key (f : DateField) : string :=
  match f with
  | FPlanned => "planned" | FTarget => "target" | FHard => "hard" | FDue => "due" | FCreated => "created" | FDone => "done"
  end.

Inductive StateValue := StTodo | StInProgress | StDone | StCancelled | StOpen.
Inductive IsValue := IsLate | IsLateHard | IsStale | IsBlocked | IsRecurring | IsUnplanned | IsInbox | IsFixed | IsFlexible.
Inductive HasValue := HasAttachment | HasNote | HasEstimate | HasDeadline | HasPlace | HasDependency.
Inductive SearchKind := KTask | KNote | KEvent | KBlock | KStream | KContext | KPlace | KAttachment | KView | KPerson.

(** A keyword vocabulary: each value and its spelling. *)
Class Keyword (T : Type) := { ALL : list T; keyword : T → string }.
Definition from_keyword {T} `{Keyword T} (s : chars) : option T :=
  List.find (λ v, eq_ignore_ascii_case (txt (keyword v)) s) ALL.

#[export] Instance StateValue_keyword : Keyword StateValue := {|
  ALL := [StTodo; StInProgress; StDone; StCancelled; StOpen];
  keyword v := match v with
    | StTodo => "todo" | StInProgress => "in_progress" | StDone => "done" | StCancelled => "cancelled" | StOpen => "open" end;
|}.
#[export] Instance IsValue_keyword : Keyword IsValue := {|
  ALL := [IsLate; IsLateHard; IsStale; IsBlocked; IsRecurring; IsUnplanned; IsInbox; IsFixed; IsFlexible];
  keyword v := match v with
    | IsLate => "late" | IsLateHard => "late-hard" | IsStale => "stale" | IsBlocked => "blocked" | IsRecurring => "recurring"
    | IsUnplanned => "unplanned" | IsInbox => "inbox" | IsFixed => "fixed" | IsFlexible => "flexible" end;
|}.
#[export] Instance HasValue_keyword : Keyword HasValue := {|
  ALL := [HasAttachment; HasNote; HasEstimate; HasDeadline; HasPlace; HasDependency];
  keyword v := match v with
    | HasAttachment => "attachment" | HasNote => "note" | HasEstimate => "estimate" | HasDeadline => "deadline"
    | HasPlace => "place" | HasDependency => "dependency" end;
|}.
Definition kind_str (k : SearchKind) : string :=
  match k with
  | KTask => "task" | KNote => "note" | KEvent => "event" | KBlock => "block" | KStream => "stream" | KContext => "context"
  | KPlace => "place" | KAttachment => "attachment" | KView => "view" | KPerson => "person"
  end.
#[export] Instance SearchKind_keyword : Keyword SearchKind := {|
  ALL := [KTask; KNote; KEvent; KBlock; KStream; KContext; KPlace; KAttachment; KView; KPerson];
  keyword := kind_str;
|}.

(** *** Date values *)

Inductive OffsetUnit := UDays | UWeeks | UMonths.
Inductive DayOfWeek := Mon | Tue | Wed | Thu | Fri | Sat | Sun.
Definition ALL_days : list (DayOfWeek * string * string) :=
  [(Mon, "mon", "monday"); (Tue, "tue", "tuesday"); (Wed, "wed", "wednesday"); (Thu, "thu", "thursday");
   (Fri, "fri", "friday"); (Sat, "sat", "saturday"); (Sun, "sun", "sunday")]%string.
#[export] Instance DayOfWeek_eq_dec : EqDecision DayOfWeek.
Proof. solve_decision. Defined.
(** [to_monday_zero_offset] of [DayOfWeek::jiff]. *)
Definition day_jiff (d : DayOfWeek) : Z :=
  match d with Mon => 0 | Tue => 1 | Wed => 2 | Thu => 3 | Fri => 4 | Sat => 5 | Sun => 6 end.

Inductive DateValue :=
  | Today | Tomorrow | Yesterday
  | OnWeekday (d : DayOfWeek)
  | ThisWeek | NextWeek | LastWeek
  | ThisMonth | NextMonth | LastMonth
  | Offset (n : Z) (unit : OffsetUnit)
  | OnDay (d : Date)
  | InMonth (year month : Z).
Inductive DateSpan := One (v : DateValue) | Range (a b : DateValue).

(** *** Filters and expressions *)

Inductive QFilter :=
  | FStream (names : list chars)
  | FContext (names : list chars)
  | FPlace (names : list chars)
  | FState (values : list StateValue)
  | FKind (values : list SearchKind)
  | FIs (values : list IsValue)
  | FHas (values : list HasValue)
  | FPriority (cmp : Comparator) (values : list Z)
  | FDate (field : DateField) (cmp : Comparator) (span : DateSpan).

Inductive Expr :=
  | Term (t : chars)
  | Phrase (t : chars)
  | Filtered (f : QFilter)
  | Not (e : Expr)
  | Or (items : list Expr)
  | Group (items : list Expr).

Record SearchQuery := mkQuery { clauses : list Expr }.
Definition query_is_empty (q : SearchQuery) : bool := match clauses q with [] => true | _ => false end.

Inductive NoticeKind :=
  | UnknownKey | BadValue | UnclosedQuote | UnclosedGroup | StrayParen | EmptyPhrase | LiteralOr
  | TooLong | TooManyClauses | TooDeep | UnknownName | AmbiguousName | Unsupported.
#[export] Instance NoticeKind_eq_dec : EqDecision NoticeKind.
Proof. solve_decision. Defined.
Definition notice_code (k : NoticeKind) : string :=
  match k with
  | UnknownKey => "unknown_key" | BadValue => "bad_value" | UnclosedQuote => "unclosed_quote"
  | UnclosedGroup => "unclosed_group" | StrayParen => "stray_paren" | EmptyPhrase => "empty_phrase"
  | LiteralOr => "literal_or" | TooLong => "too_long" | TooManyClauses => "too_many_clauses" | TooDeep => "too_deep"
  | UnknownName => "unknown_name" | AmbiguousName => "ambiguous_name" | Unsupported => "unsupported"
  end.
Record ParseNotice := mkNotice { kind : NoticeKind; n_start : Z; n_end : Z }.
Definition notice (k : NoticeKind) (start end_ : Z) : ParseNotice := mkNotice k (Z.min start u32_max) (Z.min end_ u32_max).

(** ** Dates *)

Section dates.
Context `{Jiff}.

(** The value of a run of digits. *)
Definition digits_value (s : chars) : Z := foldl (λ acc c, acc * 10 + (c - 48)) 0 s.

Definition parse_offset (s : chars) : option DateValue :=
  '(sign, rest) ← match strip_char 43 s, strip_char 45 s with
    | Some rest, _ => Some (1, rest)
    | None, Some rest => Some (-1, rest)
    | None, None => None
    end;
  u ← last rest;
  unit ← (if u =? 100 then Some UDays else if u =? 119 then Some UWeeks else if u =? 109 then Some UMonths else None);
  let digits := take (pred (length rest)) rest in
  if bool_decide (digits = []) || bool_decide (3 < length digits)%nat || negb (forallb is_digit digits) then None
  else Some (Offset (sign * digits_value digits) unit).

Definition num (p : chars) (len : nat) : option Z :=
  if bool_decide (length p = len) && forallb is_digit p then Some (digits_value p) else None.

Definition parse_absolute (s : chars) : option DateValue :=
  match split_char 45 s with
  | [y; m] =>
      year ← num y 4; month ← num m 2; _ ← date_new year month 1; Some (InMonth year month)
  | [y; m; d] =>
      year ← num y 4; month ← num m 2; day ← num d 2; date ← date_new year month day; Some (OnDay date)
  | _ => None
  end.

(** The fixed words of [DateValue::parse], in its order. *)
Definition fixed_values : list (string * DateValue) :=
  [("today", Today); ("tomorrow", Tomorrow); ("yesterday", Yesterday); ("this-week", ThisWeek);
   ("next-week", NextWeek); ("last-week", LastWeek); ("this-month", ThisMonth); ("next-month", NextMonth);
   ("last-month", LastMonth)]%string.

Definition date_value_parse (s : chars) : option DateValue :=
  let lower := to_ascii_lowercase s in
  match List.find (λ kv, bool_decide (lower = txt kv.1)) fixed_values with
  | Some (_, v) => Some v
  | None =>
      match List.find (λ '(_, short, long), bool_decide (lower = txt short) || bool_decide (lower = txt long)) ALL_days with
      | Some (day, _, _) => Some (OnWeekday day)
      | None => match parse_offset lower with Some v => Some v | None => parse_absolute lower end
      end
  end.

(** [{n:0w}] of a number that is not negative. *)
Definition zero_padded (w : nat) (n : Z) : chars :=
  let s := txt (show_int n) in replicate (w - length s) 48 ++ s.

Definition show_date_value (v : DateValue) : chars :=
  match v with
  | Today => txt "today" | Tomorrow => txt "tomorrow" | Yesterday => txt "yesterday"
  | OnWeekday d =>
      txt (match List.find (λ '(x, _, _), bool_decide (x = d)) ALL_days with Some (_, short, _) => short | None => "mon" end)
  | ThisWeek => txt "this-week" | NextWeek => txt "next-week" | LastWeek => txt "last-week"
  | ThisMonth => txt "this-month" | NextMonth => txt "next-month" | LastMonth => txt "last-month"
  | Offset n unit =>
      [if n <? 0 then 45 else 43] ++ txt (show_int (Z.abs n)) ++ [match unit with UDays => 100 | UWeeks => 119 | UMonths => 109 end]
  | OnDay d => txt (show_date d)
  | InMonth year month => zero_padded 4 year ++ [45] ++ zero_padded 2 month
  end.
Definition show_date_span (s : DateSpan) : chars :=
  match s with
  | One v => show_date_value v
  | Range a b => show_date_value a ++ txt ".." ++ show_date_value b
  end.

(** The civil days a value covers: the start included, the end excluded. *)
Record Days := mkDays { d_start : Date; d_end : Date }.

Definition one_day (d : Date) : option Days := (λ e, mkDays d e) <$> tomorrow d.
Definition week_from (d : Date) : option Days := (λ e, mkDays d e) <$> checked_add d SpanDays 7.
Definition month_from (d : Date) : option Days := (λ e, mkDays d e) <$> checked_add d SpanMonths 1.

Definition days (v : DateValue) (today : Date) (week_start : Weekday) : option Days :=
  match v with
  | Today => one_day today
  | Tomorrow => tomorrow today ≫= one_day
  | Yesterday => yesterday today ≫= one_day
  | OnWeekday d =>
      let ahead := (day_jiff d - weekday today) mod 7 in checked_add today SpanDays ahead ≫= one_day
  | ThisWeek => week_from (first_day_of_week today week_start)
  | NextWeek => checked_add (first_day_of_week today week_start) SpanDays 7 ≫= week_from
  | LastWeek => checked_add (first_day_of_week today week_start) SpanDays (-7) ≫= week_from
  | ThisMonth => month_from (first_of_month today)
  | NextMonth => checked_add (first_of_month today) SpanMonths 1 ≫= month_from
  | LastMonth => checked_add (first_of_month today) SpanMonths (-1) ≫= month_from
  | Offset n unit =>
      let span := match unit with UDays => SpanDays | UWeeks => SpanWeeks | UMonths => SpanMonths end in
      checked_add today span n ≫= one_day
  | OnDay d => one_day d
  | InMonth year m => date_new year m 1 ≫= month_from
  end.

Definition span_days (s : DateSpan) (today : Date) (week_start : Weekday) : option Days :=
  match s with
  | One v => days v today week_start
  | Range a b =>
      da ← days a today week_start; db ← days b today week_start;
      if decide (d_start da ≺ d_end db) then Some (mkDays (d_start da) (d_end db)) else None
  end.

(** ** The canonical text *)

(** A name as one item of a comma list, and after [#] or [@]. *)
Definition quote_name (s : chars) : chars := [QUOTE] ++ s ++ [QUOTE].
Definition list_name (name : chars) : chars :=
  if existsb (λ c, is_ws c || is_paren c || (c =? COMMA)) name then quote_name name else name.
Definition shorthand_name (name : chars) : chars :=
  if existsb (λ c, is_ws c || is_paren c) name then quote_name name else name.
Definition show_names (names : list chars) : chars := join_chars [COMMA] (list_name <$> names).
Definition show_words {T} `{Keyword T} (values : list T) : chars := join_chars [COMMA] ((λ v, txt (keyword v)) <$> values).

Definition show_filter (f : QFilter) : chars :=
  match f with
  | FStream [n] => txt "#" ++ shorthand_name n
  | FStream n => txt "stream:" ++ show_names n
  | FContext [n] => txt "@" ++ shorthand_name n
  | FContext n => txt "context:" ++ show_names n
  | FPlace n => txt "place:" ++ show_names n
  | FState v => txt "state:" ++ show_words v
  | FKind v => txt "kind:" ++ show_words v
  | FIs v => txt "is:" ++ show_words v
  | FHas v => txt "has:" ++ show_words v
  | FPriority CmpEq [p] => txt "!" ++ txt (show_int p)
  | FPriority cmp v => txt "priority" ++ txt (cmp_str cmp) ++ join_chars [COMMA] ((λ p, txt (show_int p)) <$> v)
  | FDate field cmp span => txt (field_key field) ++ txt (cmp_str cmp) ++ show_date_span span
  end.

Fixpoint show_expr (e : Expr) : chars :=
  match e with
  | Term t => t
  | Phrase p => quote_name p
  | Filtered f => show_filter f
  | Not e => txt "-" ++ show_expr e
  | Or items => join_chars (txt " OR ") (show_expr <$> items)
  | Group items => [LPAREN] ++ join_chars (txt " ") (show_expr <$> items) ++ [RPAREN]
  end.
Definition show_query (q : SearchQuery) : chars := join_chars (txt " ") (show_expr <$> clauses q).

(** ** The tokens *)

Inductive Tok := TLParen | TRParen | TOr | TMinus | TLeaf (e : Expr).
Record Token := mkToken { tok : Tok; t_start : nat }.

(** [quoted], on what follows the opening quote: the text inside, the rest
    past the closing quote, and whether there was one. *)
Definition quoted (r : chars) : chars * chars * bool :=
  let '(t, r') := break (λ c, c =? QUOTE) r in
  match r' with [] => (t, [], false) | _ :: r'' => (t, r'', true) end.
(** The bare run at the front, and the rest. *)
Definition bare (comma : bool) (r : chars) : chars * chars := break (λ c, ends_bare c || (comma && (c =? COMMA))) r.

Inductive Key := KeyStream | KeyContext | KeyPlace | KeyState | KeyKind | KeyIs | KeyHas | KeyPriority | KeyDate (f : DateField).
Definition fixed_keys : list (string * Key) :=
  [("stream", KeyStream); ("context", KeyContext); ("place", KeyPlace); ("state", KeyState); ("kind", KeyKind);
   ("is", KeyIs); ("has", KeyHas); ("priority", KeyPriority)]%string.
Definition key_of (word : chars) : option Key :=
  let lower := to_ascii_lowercase word in
  match List.find (λ kv, bool_decide (lower = txt kv.1)) fixed_keys with
  | Some (_, k) => Some k
  | None => KeyDate <$> List.find (λ f, bool_decide (txt (field_key f) = lower)) ALL_fields
  end.

(** The comparator at the front, and what follows it. *)
Definition cmp_at (r : chars) : option (Comparator * chars) :=
  match strip_char 58 r, strip_char 60 r, strip_char 62 r with
  | Some r', _, _ => Some (CmpEq, r')
  | _, Some r', _ => Some (match strip_char 61 r' with Some r'' => (CmpLe, r'') | None => (CmpLt, r') end)
  | _, _, Some r' => Some (match strip_char 61 r' with Some r'' => (CmpGe, r'') | None => (CmpGt, r') end)
  | None, None, None => None
  end.

(** A filter's value items, comma-separated, each bare or quoted; what
    follows; whether a quote was left open.  Every comma is a step, so the
    length of the input is fuel enough. *)
Fixpoint value_items_loop (fuel : nat) (r : chars) : list chars * chars * bool :=
  match fuel with
  | O => ([], r, false)
  | S fuel' =>
      let '(item, next, open) :=
        match r with
        | c :: r1 => if c =? QUOTE then let '(t, n, closed) := quoted r1 in (t, n, negb closed)
                     else let '(t, n) := bare true r in (t, n, false)
        | [] => ([], [], false)
        end in
      if open then ([item], next, true)
      else match strip_char COMMA next with
           | Some r' => let '(items, n, o) := value_items_loop fuel' r' in (item :: items, n, o)
           | None => ([item], next, false)
           end
  end.
Definition value_items (r : chars) : list chars * chars * bool := value_items_loop (S (length r)) r.

Definition keywords {T} `{Keyword T} (items : list chars) : option (list T) := mapM from_keyword items.
Definition names (items : list chars) : option (list chars) :=
  if forallb (λ s, negb (bool_decide (s = []))) items then Some items else None.
Definition priority_value (s : chars) : option Z :=
  match s with [d] => if bool_decide (49 ≤ d ≤ 53) then Some (d - 48) else None | _ => None end.

Definition filter_of (key : Key) (cmp : Comparator) (items : list chars) : option QFilter :=
  let only_eq (f : QFilter) := if decide (cmp = CmpEq) then Some f else None in
  match key with
  | KeyStream => names items ≫= λ n, only_eq (FStream n)
  | KeyContext => names items ≫= λ n, only_eq (FContext n)
  | KeyPlace => names items ≫= λ n, only_eq (FPlace n)
  | KeyState => keywords items ≫= λ v, only_eq (FState v)
  | KeyKind => keywords items ≫= λ v, only_eq (FKind v)
  | KeyIs => keywords items ≫= λ v, only_eq (FIs v)
  | KeyHas => keywords items ≫= λ v, only_eq (FHas v)
  | KeyPriority =>
      if negb (bool_decide (cmp = CmpEq)) && negb (bool_decide (length items = 1%nat)) then None
      else FPriority cmp <$> mapM priority_value items
  | KeyDate field =>
      match items with
      | [item] =>
          span ← match split_dots item with
            | Some (a, b) =>
                if decide (cmp = CmpEq) then a' ← date_value_parse a; b' ← date_value_parse b; Some (Range a' b') else None
            | None => One <$> date_value_parse item
            end;
          Some (FDate field cmp span)
      | _ => None
      end
  end.

(** The text of a token that is no operator, an open quote closed: [r] is the
    input from the token on, [next] from past it. *)
Definition raw_term (r next : chars) (open_quote : bool) : Expr :=
  Term (take (length r - length next) r ++ (if open_quote then [QUOTE] else [])).

(** The last arm of [lex]: an operator, or a word. *)
Definition lex_word (len : nat) (r : chars) : option Tok * list ParseNotice * chars :=
  let at_ (x : chars) := Z.of_nat (len - length x) in
  let start := at_ r in
  let '(word, past) := break (λ c, negb (is_alphabetic c)) r in
  let operator :=
    if bool_decide (word = []) then None
    else key ← key_of word; '(cmp, value) ← cmp_at past; Some (key, cmp, value) in
  match operator with
  | Some (key, cmp, value) =>
      let '(items, next, open) := value_items value in
      match filter_of key cmp items with
      | Some f => (Some (TLeaf (Filtered f)), (if (open : bool) then [notice UnclosedQuote start (at_ next)] else []), next)
      | None => (Some (TLeaf (raw_term r next open)), [notice BadValue start (at_ next)], next)
      end
  | None =>
      let '(text, next) := bare false r in
      let unknown :=
        match strip_char 58 past with
        | Some _ => if bool_decide (word = []) then [] else [notice UnknownKey start (at_ next)]
        | None => []
        end in
      (Some (if bool_decide (text = txt "OR") then TOr else TLeaf (Term text)), unknown, next)
  end.

(** One turn of [lex]'s loop, on the input from index [i] on: the token pushed,
    if any, the notices pushed, and the input left.  [len] is the length of
    the whole input, so that [at_ r] is the index [r] starts at. *)
Definition lex_one (len : nat) (r : chars) : option Tok * list ParseNotice * chars :=
  let at_ (x : chars) := Z.of_nat (len - length x) in
  let start := at_ r in
  match r with
  | [] => (None, [], [])
  | c :: r1 =>
      if is_ws c then (None, [], r1)
      else if c =? LPAREN then (Some TLParen, [], r1)
      else if c =? RPAREN then (Some TRParen, [], r1)
      else if c =? QUOTE then
        let '(text, next, closed) := quoted r1 in
        let unclosed := if closed then [] else [notice UnclosedQuote start (at_ next)] in
        let text := trim text in
        if bool_decide (text = []) then (None, unclosed ++ [notice EmptyPhrase start (at_ next)], next)
        else (Some (TLeaf (Phrase text)), unclosed, next)
      else if (c =? 45) && match r1 with n :: _ => negb (is_ws n) && negb (n =? RPAREN) | [] => false end then
        (Some TMinus, [], r1)
      else if ((c =? 35) || (c =? 64)) && match r1 with n :: _ => negb (ends_bare n) || (n =? QUOTE) | [] => false end then
        let '(name, next, open) :=
          match r1 with
          | n :: r2 => if n =? QUOTE then let '(t, x, closed) := quoted r2 in (t, x, negb closed)
                       else let '(t, x) := bare false r1 in (t, x, false)
          | [] => ([], [], false)
          end in
        if bool_decide (name = []) then
          (Some (TLeaf (raw_term r next open)), [notice BadValue start (at_ next)], next)
        else
          (Some (TLeaf (Filtered (if c =? 35 then FStream [name] else FContext [name]))),
           (if (open : bool) then [notice UnclosedQuote start (at_ next)] else []), next)
      else
        match r1 with
        | d :: r2 =>
            if (c =? 33) && bool_decide (49 ≤ d ≤ 53) && match r2 with n :: _ => ends_bare n | [] => true end
            then (Some (TLeaf (Filtered (FPriority CmpEq [d - 48]))), [], r2)
            else lex_word len r
        | [] => lex_word len r
        end
  end.

(** Every turn reads a character, so the length of the input is fuel enough. *)
Fixpoint lex_loop (fuel : nat) (len : nat) (r : chars) : list Token * list ParseNotice :=
  match fuel, r with
  | S fuel', _ :: _ =>
      let '(t, ns, next) := lex_one len r in
      let '(ts, ns') := lex_loop fuel' len next in
      (match t with Some t => mkToken t (len - length r) :: ts | None => ts end, ns ++ ns')
  | _, _ => ([], [])
  end.
Definition lex (cs : chars) : list Token * list ParseNotice := lex_loop (length cs) (length cs) cs.

(** ** The parser

    [Parser::pos] is here the tokens from it on.  [and_expr], [or_expr],
    [unary] and [atom] call each other on fuel; [None] is running out, which
    no query does ([parse_is_total]). *)

Record Stop := mkStop { why : NoticeKind; stop_at : nat }.
Record Parser := mkParser {
  toks : list Token;
  leaves : Z;
  spent : Z;
  stop : option Stop;
  p_notices : list ParseNotice;
}.

Definition leaf_cost (e : Expr) : Z :=
  match e with
  | Term t | Phrase t => Z.of_nat (length t)
  | other => Z.of_nat (length (show_expr other))
  end.

Section parser.
Context (len : nat).

Definition peek (p : Parser) : option Tok := tok <$> head (toks p).
Definition start_of (p : Parser) : nat := match toks p with t :: _ => t_start t | [] => len end.
Definition advance (p : Parser) : Parser := mkParser (tail (toks p)) (leaves p) (spent p) (stop p) (p_notices p).
Definition push_notice (n : ParseNotice) (p : Parser) : Parser :=
  mkParser (toks p) (leaves p) (spent p) (stop p) (p_notices p ++ [n]).
Definition stop_for (k : NoticeKind) (p : Parser) : Parser :=
  mkParser (toks p) (leaves p) (spent p) (Some (mkStop k (start_of p))) (p_notices p).

Definition leaf (e : Expr) (p : Parser) : option Expr * Parser :=
  if MAX_CLAUSES <=? leaves p then (None, stop_for TooManyClauses p)
  else
    let cost := leaf_cost e in
    if MAX_TEXT <? spent p + cost then (None, stop_for TooLong p)
    else (Some e, mkParser (tail (toks p)) (leaves p + 1) (spent p + cost) (stop p) (p_notices p)).

(** The loop of [unary]: every minus flips. *)
Fixpoint minuses (ts : list Token) (negated : bool) : bool * list Token :=
  match ts with
  | {| tok := TMinus |} :: ts' => minuses ts' (negb negated)
  | _ => (negated, ts)
  end.

Fixpoint and_expr (fuel : nat) (depth : nat) (p : Parser) {struct fuel} : option (list Expr * Parser) :=
  match fuel with
  | O => None
  | S fuel =>
      match stop p, peek p with
      | Some _, _ | None, None => Some ([], p)
      | None, Some TRParen =>
          if decide (0 < depth)%nat then Some ([], p)
          else let at_ := Z.of_nat (start_of p) in
               and_expr fuel depth (advance (push_notice (notice StrayParen at_ (at_ + 1)) p))
      | None, Some _ =>
          '(e, p1) ← or_expr fuel depth p;
          '(es, p2) ← and_expr fuel depth p1;
          Some (option_list e ++ es, p2)
      end
  end
with or_expr (fuel : nat) (depth : nat) (p : Parser) {struct fuel} : option (option Expr * Parser) :=
  match fuel with
  | O => None
  | S fuel =>
      '(e, p1) ← unary fuel depth p;
      '(items, p2) ← or_rest fuel depth (option_list e) p1;
      Some (match items with [] => None | [e] => Some e | _ => Some (Or items) end, p2)
  end
with or_rest (fuel : nat) (depth : nat) (items : list Expr) (p : Parser) {struct fuel} : option (list Expr * Parser) :=
  match fuel with
  | O => None
  | S fuel =>
      match stop p, peek p with
      | None, Some TOr =>
          match peek (advance p), items with
          | None, _ | Some TRParen, _ | _, [] => Some (items, p)
          | _, _ =>
              '(e, p1) ← unary fuel depth (advance p);
              or_rest fuel depth (items ++ option_list e) p1
          end
      | _, _ => Some (items, p)
      end
  end
with unary (fuel : nat) (depth : nat) (p : Parser) {struct fuel} : option (option Expr * Parser) :=
  match fuel with
  | O => None
  | S fuel =>
      let '(negated, ts) := minuses (toks p) false in
      '(a, p1) ← atom fuel depth (mkParser ts (leaves p) (spent p) (stop p) (p_notices p));
      Some (match a with Some a => Some (if (negated : bool) then Not a else a) | None => None end, p1)
  end
with atom (fuel : nat) (depth : nat) (p : Parser) {struct fuel} : option (option Expr * Parser) :=
  match fuel with
  | O => None
  | S fuel =>
      match peek p with
      | None => Some (None, p)
      | Some (TLeaf e) => Some (leaf e p)
      | Some TOr =>
          let at_ := Z.of_nat (start_of p) in
          Some (leaf (Phrase (txt "OR")) (push_notice (notice LiteralOr at_ (at_ + 2)) p))
      | Some TLParen =>
          let open := start_of p in
          if decide (MAX_DEPTH <= depth)%nat then Some (None, stop_for TooDeep p)
          else
            '(items, p1) ← and_expr fuel (S depth) (advance p);
            let p2 := match stop p1 with
              | Some _ => p1
              | None => match peek p1 with
                        | Some TRParen => advance p1
                        | _ => push_notice (notice UnclosedGroup (Z.of_nat open) (Z.of_nat len)) p1
                        end
              end in
            Some (match items with [] => None | _ => Some (Group items) end, p2)
      | Some TMinus | Some TRParen => Some (None, p)
      end
  end.
End parser.

(** The input past a limit, as one phrase's text. *)
Fixpoint split_whitespace (l : chars) : list chars :=
  match l with
  | [] => []
  | c :: l' =>
      if is_ws c then split_whitespace l'
      else match l' with
           | d :: _ => if is_ws d then [c] :: split_whitespace l'
                       else match split_whitespace l' with [] => [[c]] | w :: ws => (c :: w) :: ws end
           | [] => [[c]]
           end
  end.
Definition rest_text (cs : chars) (budget : Z) : chars :=
  let joined := join_chars [32] (split_whitespace ((λ c, if c =? QUOTE then 32 else c) <$> cs)) in
  trim_end (take (Z.to_nat budget) joined).

Record Parsed := mkParsed { query : SearchQuery; notices : list ParseNotice }.

Definition enough_fuel (ts : list Token) : nat := 4 * length ts + 5.
Definition by_position (a b : ParseNotice) : Prop := (n_start a, n_end a) ≼ (n_start b, n_end b).
#[local] Instance by_position_dec : RelDecision by_position.
Proof. intros a b. unfold by_position. apply _. Defined.

Definition parse_with_notices (input : chars) : option Parsed :=
  let n := Z.of_nat (length input) in
  let '(cs, cut) :=
    if MAX_INPUT <? n then (take (Z.to_nat MAX_INPUT) input, [notice TooLong MAX_INPUT n]) else (input, []) in
  let '(ts, lexed) := lex cs in
  let before := cut ++ lexed in
  '(items, p) ← and_expr (length cs) (enough_fuel ts) 0 (mkParser ts 0 0 None []);
  let '(items, ns) :=
    match stop p with
    | None => (items, before)
    | Some s =>
        let ns := filter (λ n, n_start n < Z.of_nat (stop_at s)) before
                  ++ [notice (why s) (Z.of_nat (stop_at s)) (Z.of_nat (length cs))] in
        if decide (why s = TooLong) then (items, ns)
        else let rest := rest_text (drop (stop_at s) cs) (MAX_TEXT - spent p) in
             (if bool_decide (rest = []) then items else items ++ [Phrase rest], ns)
    end in
  Some (mkParsed (mkQuery items) (isort by_position (ns ++ p_notices p))).

Definition parse (input : chars) : option SearchQuery := query <$> parse_with_notices input.
End dates.

(** ** What a result highlights *)

Fixpoint positive_of (e : Expr) (negated : bool) : list chars :=
  match e with
  | Term t | Phrase t => if negated then [] else [t]
  | Filtered _ => []
  | Not inner => positive_of inner (negb negated)
  | Or items | Group items => concat ((λ i, positive_of i negated) <$> items)
  end.
Definition positive_text (q : SearchQuery) : list chars := concat ((λ c, positive_of c false) <$> clauses q).

Fixpoint last_leaf (e : Expr) : option Expr :=
  match e with
  | Not _ => None
  | Or items | Group items => default None (last (last_leaf <$> items))
  | leaf => Some leaf
  end.
Definition last_term (q : SearchQuery) : option chars :=
  match last (clauses q) ≫= last_leaf with Some (Term t) => Some t | _ => None end.
