(* ===== verification/SearchLex.v ===== *)
(** * The tokens of a query's canonical text

    What the lexer reads out of any input is printed so that the lexer reads
    the same token back, whatever follows it in canonical text: a space, a
    closing parenthesis, or the end. *)

From Stdlib Require Import ZArith Lia String.
From stdpp Require Import base tactics decidable option list strings.
From S2P Require Import Prelude Bytes Calendar Rrule Search.
Open Scope Z_scope.

(** ** Runs of characters *)

Definition stops (p : Z → bool) (k : chars) : Prop := match k with [] => True | c :: _ => p c = true end.

Lemma break_spec p l a b :
  break p l = (a, b) → l = a ++ b ∧ Forall (λ c, p c = false) a ∧ stops p b.
Proof.
  revert a b. induction l as [|c l IH]; intros a b; cbn [break]; [by intros [= <- <-]|].
  destruct (p c) eqn:Hc; [by intros [= <- <-]|]. destruct (break p l) as [a' b'] eqn:E. intros [= <- <-]. cbn [fst snd].
  destruct (IH a' b') as (-> & Ha & Hb); [done|]. split; [done|]. split; [by constructor|done].
Qed.
Lemma break_app p a k : Forall (λ c, p c = false) a → stops p k → break p (a ++ k) = (a, k).
Proof.
  intros Ha Hk. induction Ha as [|c a Hc _ IH]; cbn [app break].
  - destruct k as [|c k]; [done|]. cbn [break]. cbn in Hk. by rewrite Hk.
  - by rewrite Hc, IH.
Qed.

Lemma strip_char_spec c l l' : strip_char c l = Some l' → l = c :: l'.
Proof. destruct l as [|d l]; [done|]. cbn. destruct (Z.eqb_spec d c) as [->|]; [by intros [= ->]|done]. Qed.

Lemma strip_none_app c d t k : strip_char c (d :: t) = None → strip_char c ((d :: t) ++ k) = None.
Proof. cbn [strip_char app]. by destruct (d =? c). Qed.
Lemma strip_none_cut c d t k : strip_char c ((d :: t) ++ k) = None → strip_char c (d :: t) = None.
Proof. cbn [strip_char app]. by destruct (d =? c). Qed.
Lemma join_chars_cons {A} (sep s : list A) l : l ≠ [] → join_chars sep (s :: l) = s ++ sep ++ join_chars sep l.
Proof. by destruct l. Qed.

(** What follows a token of canonical text. *)
Definition boundary (k : chars) : Prop := match k with [] => True | c :: _ => c = 32 ∨ c = RPAREN end.

Lemma boundary_bare comma k : boundary k → stops (λ c, ends_bare c || (comma && (c =? COMMA))) k.
Proof. destruct k as [|c k]; [done|]. by intros [-> | ->]; cbn; rewrite ?orb_true_r. Qed.
Lemma boundary_not_alphabetic k : boundary k → stops (λ c, negb (is_alphabetic c)) k.
Proof. destruct k as [|c k]; [done|]. by intros [-> | ->]. Qed.

(** *** Classes of characters *)

Lemma alphabetic_plain c : is_alphabetic c = true → ends_bare c = false ∧ c ≠ 45 ∧ c ≠ 35 ∧ c ≠ 64 ∧ c ≠ 33 ∧ c ≠ COMMA.
Proof.
  unfold is_alphabetic, is_upper, ends_bare, is_ws, is_paren, QUOTE, LPAREN, RPAREN, COMMA.
  rewrite orb_true_iff, !bool_decide_eq_true. intros Hc.
  repeat first [rewrite bool_decide_eq_false_2 by lia | rewrite (proj2 (Z.eqb_neq _ _)) by lia]. split; [done|lia].
Qed.

(** A word of canonical text: nothing in it ends a bare item. *)
Definition plain (c : Z) : bool := negb (ends_bare c || (c =? COMMA)).
Definition plain_text (s : chars) : Prop := Forall (λ c, plain c = true) s.
#[export] Instance plain_text_dec s : Decision (plain_text s).
Proof. unfold plain_text. apply _. Defined.

Lemma plain_bare comma c : plain c = true → ends_bare c || (comma && (c =? COMMA)) = false.
Proof. unfold plain. rewrite negb_true_iff, orb_false_iff. intros [-> ->]. by rewrite andb_false_r. Qed.
Lemma bare_plain comma s k :
  plain_text s → stops (λ c, ends_bare c || (comma && (c =? COMMA))) k → bare comma (s ++ k) = (s, k).
Proof. intros Hs. apply break_app. eapply Forall_impl; [exact Hs|]. intros c. apply plain_bare. Qed.
Lemma plain_not_quote c : plain c = true → (c =? QUOTE) = false.
Proof. unfold plain, ends_bare. rewrite negb_true_iff, !orb_false_iff. naive_solver. Qed.

Definition unquoted (s : chars) : Prop := Forall (λ c, (c =? QUOTE) = false) s.
Lemma plain_unquoted s : plain_text s → unquoted s.
Proof. intros Hs. eapply Forall_impl; [exact Hs|]. apply plain_not_quote. Qed.

Lemma quoted_spec r t next closed :
  quoted r = (t, next, closed) →
  unquoted t ∧ if closed then r = t ++ QUOTE :: next else r = t ∧ next = [].
Proof.
  unfold quoted. destruct (break _ r) as [a b] eqn:E. apply break_spec in E as (-> & Ha & Hb).
  destruct b as [|c b]; intros [= <- <- <-].
  - split; [done|]. by rewrite app_nil_r.
  - split; [done|]. cbn in Hb. apply Z.eqb_eq in Hb as ->. done.
Qed.
Lemma quoted_app t k : unquoted t → quoted (t ++ QUOTE :: k) = (t, k, true).
Proof. intros Ht. unfold quoted. by rewrite break_app. Qed.

(** ** A value's items *)

(** An item as it is printed: bare, or quoted. *)
Definition shown_as (s n : chars) : Prop := (s = n ∧ plain_text n) ∨ (s = quote_name n ∧ unquoted n).

(** What one turn of the loop reads. *)
Definition item_at (r : chars) : chars * chars * bool :=
  match r with
  | c :: r1 => if c =? QUOTE then let '(t, n, closed) := quoted r1 in (t, n, negb closed)
               else let '(t, n) := bare true r in (t, n, false)
  | [] => ([], [], false)
  end.
Definition closing (open : bool) : chars := if open then [QUOTE] else [].
Definition ends_item (k : chars) : Prop := match k with [] => True | c :: _ => c = 32 ∨ c = RPAREN ∨ c = COMMA end.

Lemma ends_item_stops k : ends_item k → stops (λ c, ends_bare c || (true && (c =? COMMA))) k.
Proof. destruct k as [|c k]; [done|]. by intros [->|[->| ->]]. Qed.
Lemma item_at_bare t k : plain_text t → ends_item k → item_at (t ++ k) = (t, k, false).
Proof.
  intros Ht Hk. assert (bare true (t ++ k) = (t, k)) as Hb by (apply bare_plain; [done|by apply ends_item_stops]).
  unfold item_at. rewrite Hb. destruct (t ++ k) as [|c r] eqn:E.
  - by destruct t, k.
  - replace (c =? QUOTE) with false; [done|]. symmetry. destruct t as [|d t].
    + destruct k as [|d k]; [done|]. injection E as -> _. by destruct Hk as [->|[->| ->]].
    + injection E as -> _. apply plain_not_quote. by apply Forall_cons in Ht as [? _].
Qed.
Lemma item_at_quoted t k : unquoted t → item_at (quote_name t ++ k) = (t, k, false).
Proof. intros Ht. unfold quote_name. rewrite <-!app_assoc. cbn [app item_at]. by rewrite Z.eqb_refl, quoted_app. Qed.

Lemma item_at_spec r item next open :
  item_at r = (item, next, open) →
  ∃ v, r = v ++ next ∧ unquoted item ∧ (open = true → next = [] ∧ v ≠ []) ∧
    ∀ k, ends_item k → item_at (v ++ closing open ++ k) = (item, k, false).
Proof.
  unfold item_at at 1. destruct r as [|c r1].
  { intros [= <- <- <-]. exists []. split_and!; [done|constructor|done|]. intros k Hk. apply (item_at_bare []); [constructor|done]. }
  destruct (c =? QUOTE) eqn:Hc.
  - apply Z.eqb_eq in Hc as ->. destruct (quoted r1) as [[t n] closed] eqn:Eq. intros [= <- <- <-].
    apply quoted_spec in Eq as [Ht Eq]. exists (QUOTE :: t ++ if closed then [QUOTE] else []). split_and!; [|done| |].
    + destruct closed; [subst r1; by rewrite <-app_comm_cons, <-app_assoc|]. destruct Eq as [-> ->]. by rewrite !app_nil_r.
    + destruct closed; [done|]. by destruct Eq as [_ ->].
    + intros k _. rewrite <-(item_at_quoted t k Ht). unfold quote_name. f_equal. destruct closed; cbn [negb closing app]; by rewrite ?app_nil_r, <-?app_assoc.
  - destruct (bare true (c :: r1)) as [t n] eqn:Eq. intros [= <- <- <-]. apply break_spec in Eq as (E & Ht & _).
    assert (plain_text t) as Hp.
    { eapply Forall_impl; [exact Ht|]. intros d Hd. unfold plain. apply negb_true_iff. exact Hd. }
    exists t. split_and!; [done|by apply plain_unquoted|done|]. intros k Hk. by apply item_at_bare.
Qed.

Lemma value_items_loop_mono f f' r : (length r < f)%nat → (length r < f')%nat → value_items_loop f r = value_items_loop f' r.
Proof.
  revert f' r. induction f as [|f IH]; intros [|f'] r Hf Hf'; [lia..|]. cbn [value_items_loop]. fold (item_at r).
  destruct (item_at r) as [[item next] open] eqn:E. destruct open; [done|].
  assert (length next <= length r)%nat as Hn by (apply item_at_spec in E as (v & -> & _); rewrite length_app; lia).
  destruct (strip_char COMMA next) as [r'|] eqn:Es; [|done]. apply strip_char_spec in Es as ->.
  rewrite (IH f' r'); [done|simpl in *; lia..].
Qed.

Lemma value_items_eq r :
  value_items r =
  let '(item, next, open) := item_at r in
  if open then ([item], next, true)
  else match strip_char COMMA next with
       | Some r' => let '(items, n, o) := value_items r' in (item :: items, n, o)
       | None => ([item], next, false)
       end.
Proof.
  unfold value_items at 1. cbn [value_items_loop]. fold (item_at r).
  destruct (item_at r) as [[item next] open] eqn:E. destruct open; [done|].
  destruct (strip_char COMMA next) as [r'|] eqn:Es; [|done]. apply strip_char_spec in Es as ->.
  unfold value_items. rewrite (value_items_loop_mono (length r) (S (length r')) r'); [done| |lia].
  apply item_at_spec in E as (v & -> & _). rewrite length_app. simpl. lia.
Qed.

Lemma boundary_ends_item k : boundary k → ends_item k.
Proof. destruct k as [|c k]; [done|]. unfold boundary, ends_item. tauto. Qed.
Lemma boundary_no_comma k : boundary k → strip_char COMMA k = None.
Proof. destruct k as [|c k]; [done|]. by intros [-> | ->]. Qed.

(** A value read once is read again from its own text, an open quote closed. *)
Lemma value_items_spec r items next open :
  value_items r = (items, next, open) →
  ∃ v, r = v ++ next ∧ items ≠ [] ∧ Forall unquoted items ∧ (open = true → next = [] ∧ v ≠ []) ∧
    ∀ k, boundary k → value_items (v ++ closing open ++ k) = (items, k, false).
Proof.
  revert items next open. induction r as [r IH] using (induction_ltof1 _ (@length Z)). intros items next open.
  rewrite value_items_eq. destruct (item_at r) as [[item n] o] eqn:E. apply item_at_spec in E as (v & -> & Hi & Ho & Hv).
  destruct o; [intros [= <- <- <-]|destruct (strip_char COMMA n) as [r'|] eqn:Es; [|intros [= <- <- <-]]].
  - exists v. split_and!; [done|done|by apply Forall_singleton|done|]. intros k Hk.
    rewrite value_items_eq, Hv by (by apply boundary_ends_item). by rewrite boundary_no_comma.
  - apply strip_char_spec in Es as ->. destruct (value_items r') as [[items' n'] o'] eqn:E. intros [= <- <- <-].
    apply IH in E as (v' & -> & _ & Hi' & Ho' & Hv'); [|unfold ltof; rewrite length_app; simpl; lia].
    exists (v ++ COMMA :: v'). split_and!; [by rewrite <-app_assoc|done|by constructor|..].
    + intros ?. split; [by apply Ho'|]. by destruct v.
    + intros k Hk. rewrite <-app_assoc. cbn [app]. rewrite value_items_eq.
      pose proof (Hv (COMMA :: v' ++ closing o' ++ k)) as Hv1. cbn [closing app] in Hv1. rewrite Hv1 by (cbn; tauto). cbn [strip_char]. rewrite Z.eqb_refl. by rewrite Hv'.
  - exists v. split_and!; [done|done|by apply Forall_singleton|done|]. intros k Hk.
    rewrite value_items_eq, Hv by (by apply boundary_ends_item). by rewrite boundary_no_comma.
Qed.

(** A printed list of items reads back as its items. *)
Lemma item_shown s n k : shown_as s n → ends_item k → item_at (s ++ k) = (n, k, false).
Proof. intros [[-> Hn]|[-> Hn]] Hk; [by apply item_at_bare|by apply item_at_quoted]. Qed.
Lemma value_items_shown ss ns k :
  ss ≠ [] → Forall2 shown_as ss ns → boundary k → value_items (join_chars [COMMA] ss ++ k) = (ns, k, false).
Proof.
  intros Hne Hall Hk. induction Hall as [|s n ss ns Hs Hall IH]; [done|]. destruct (decide (ss = [])) as [->|Hss].
  - apply Forall2_nil_inv_l in Hall as ->. cbn [join_chars].
    rewrite value_items_eq, (item_shown s n) by (done || by apply boundary_ends_item). by rewrite boundary_no_comma.
  - rewrite join_chars_cons, <-!app_assoc, value_items_eq, (item_shown s n) by (done || (cbn; tauto)). cbn [app strip_char].
    rewrite Z.eqb_refl. by rewrite IH.
Qed.

(** ** Operators *)

Section lexer.
Context `{Jiff}.

(** The value of a strict comparison does not start with [=]. *)
Definition strict_value (cmp : Comparator) (v : chars) : Prop :=
  (cmp = CmpLt ∨ cmp = CmpGt) → strip_char 61 v = None.

Lemma cmp_at_str cmp v : strict_value cmp v → cmp_at (txt (cmp_str cmp) ++ v) = Some (cmp, v).
Proof.
  unfold strict_value. intros Hv. destruct cmp; [reflexivity| |reflexivity| |reflexivity]; specialize (Hv ltac:(tauto)).
  - change (Some (match strip_char 61 v with Some r => (CmpLe, r) | None => (CmpLt, v) end) = Some (CmpLt, v)). by rewrite Hv.
  - change (Some (match strip_char 61 v with Some r => (CmpGe, r) | None => (CmpGt, v) end) = Some (CmpGt, v)). by rewrite Hv.
Qed.
Lemma cmp_at_spec r cmp v : cmp_at r = Some (cmp, v) → r = txt (cmp_str cmp) ++ v ∧ strict_value cmp v.
Proof.
  unfold cmp_at, strict_value. destruct (strip_char 58 r) as [r1|] eqn:E1.
  { intros [= <- <-]. apply strip_char_spec in E1 as ->. split; [done|]. by intros []. }
  destruct (strip_char 60 r) as [r1|] eqn:E2.
  { apply strip_char_spec in E2 as ->. destruct (strip_char 61 r1) as [r2|] eqn:E; intros [= <- <-].
    - apply strip_char_spec in E as ->. split; [done|]. by intros [].
    - done. }
  destruct (strip_char 62 r) as [r1|] eqn:E3; [|done].
  apply strip_char_spec in E3 as ->. destruct (strip_char 61 r1) as [r2|] eqn:E; intros [= <- <-].
  - apply strip_char_spec in E as ->. split; [done|]. by intros [].
  - done.
Qed.

Definition alphabetic_text (w : chars) : Prop := w ≠ [] ∧ Forall (λ c, negb (is_alphabetic c) = false) w.

Lemma break_word w cmp r :
  Forall (λ c, negb (is_alphabetic c) = false) w →
  break (λ c, negb (is_alphabetic c)) (w ++ txt (cmp_str cmp) ++ r) = (w, txt (cmp_str cmp) ++ r).
Proof. intros Hw. apply break_app; [done|]. by destruct cmp. Qed.

(** On a key, a comparator and a value, the last arm of [lex] reads them. *)
Lemma lex_word_operator len w key cmp v items next open :
  alphabetic_text w → key_of w = Some key → strict_value cmp v → value_items v = (items, next, open) →
  lex_word len (w ++ txt (cmp_str cmp) ++ v) =
    let at_ (x : chars) := Z.of_nat (len - length x) in
    match filter_of key cmp items with
    | Some f => (Some (TLeaf (Filtered f)),
                 if open then [notice UnclosedQuote (at_ (w ++ txt (cmp_str cmp) ++ v)) (at_ next)] else [], next)
    | None => (Some (TLeaf (raw_term (w ++ txt (cmp_str cmp) ++ v) next open)),
               [notice BadValue (at_ (w ++ txt (cmp_str cmp) ++ v)) (at_ next)], next)
    end.
Proof.
  intros [Hne Hw] Hk Hs Hv. unfold lex_word. rewrite break_word by done. rewrite bool_decide_eq_false_2 by done.
  cbn [mbind option_bind]. rewrite Hk. cbn [mbind option_bind]. rewrite cmp_at_str by done. cbn [mbind option_bind].
  by rewrite Hv.
Qed.

Lemma lex_one_word len c r : is_alphabetic c = true → lex_one len (c :: r) = lex_word len (c :: r).
Proof.
  intros Hc. destruct (alphabetic_plain c Hc) as (Hb & H45 & H35 & H64 & H33 & _).
  unfold ends_bare, is_paren in Hb. rewrite !orb_false_iff in Hb. destruct Hb as ([Hw Hq] & Hl & Hr).
  unfold lex_one. rewrite Hw, Hl, Hr, Hq, (proj2 (Z.eqb_neq c 45)), (proj2 (Z.eqb_neq c 35)), (proj2 (Z.eqb_neq c 64)) by done.
  cbn [andb orb]. rewrite (proj2 (Z.eqb_neq c 33)) by done. cbn [andb]. by destruct r.
Qed.

Lemma lex_one_operator len w cmp v :
  alphabetic_text w → lex_one len (w ++ txt (cmp_str cmp) ++ v) = lex_word len (w ++ txt (cmp_str cmp) ++ v).
Proof.
  intros [Hne Hw]. destruct w as [|c w]; [done|]. apply lex_one_word. apply Forall_cons in Hw as [Hc _].
  by apply negb_false_iff.
Qed.

(** ** Leaves *)

Definition is_leaf (e : Expr) : bool := match e with Term _ | Phrase _ | Filtered _ => true | _ => false end.
Definition starts_token (t : chars) : Prop := match t with [] => False | c :: _ => is_ws c = false ∧ c ≠ RPAREN end.
Definition reads_back (e : Expr) : Prop :=
  ∀ len k, boundary k → ∃ ns, lex_one len (show_expr e ++ k) = (Some (TLeaf e), ns, k).
Definition leaf_ok (e : Expr) : Prop := is_leaf e = true ∧ starts_token (show_expr e) ∧ reads_back e.

Lemma alphabetic_starts w t : alphabetic_text w → starts_token (w ++ t).
Proof.
  intros [Hne Hw]. destruct w as [|c w]; [done|]. apply Forall_cons in Hw as [Hc _]. apply negb_false_iff in Hc.
  apply alphabetic_plain in Hc as [Hc _]. unfold ends_bare, is_paren in Hc. rewrite !orb_false_iff in Hc.
  destruct Hc as ([? _] & _ & Hr). split; [done|]. by apply Z.eqb_neq.
Qed.

(** A filter printed as key, comparator and items. *)
Lemma keyed_leaf w key cmp ss items f :
  show_filter f = w ++ txt (cmp_str cmp) ++ join_chars [COMMA] ss →
  alphabetic_text w → key_of w = Some key → strict_value cmp (join_chars [COMMA] ss) →
  ss ≠ [] → Forall2 shown_as ss items → filter_of key cmp items = Some f → leaf_ok (Filtered f).
Proof.
  intros Hshow Hw Hk Hs Hne Hall Hf. split; [done|]. cbn [show_expr]. rewrite Hshow. split; [by apply alphabetic_starts|].
  intros len k Hb. cbn [show_expr]. rewrite Hshow, <-!app_assoc, lex_one_operator by done. eexists.
  rewrite (lex_word_operator len w key cmp _ items k false); [by rewrite Hf|done..| |by apply value_items_shown].
  intros Hc. specialize (Hs Hc). destruct (join_chars [COMMA] ss) as [|c t]; [|by apply strip_none_app].
  destruct k as [|d k]; [done|]. by destruct Hb as [-> | ->].
Qed.

(** An operator the lexer could not read is kept whole. *)
Lemma raw_take (t next : chars) : take (length (t ++ next) - length next) (t ++ next) = t.
Proof. rewrite length_app, Nat.add_sub. apply take_app_length. Qed.

Lemma raw_leaf w key cmp r items next open :
  alphabetic_text w → key_of w = Some key → strict_value cmp r → value_items r = (items, next, open) →
  filter_of key cmp items = None → leaf_ok (raw_term (w ++ txt (cmp_str cmp) ++ r) next open).
Proof.
  intros Hw Hk Hs Hv Hf. apply value_items_spec in Hv as (v & -> & _ & _ & Ho & Hv).
  unfold raw_term. rewrite !app_assoc, raw_take, <-!app_assoc. fold (closing open). set (t := v ++ closing open).
  split; [done|]. cbn [show_expr]. split; [by apply alphabetic_starts|]. intros len k Hb. cbn [show_expr].
  rewrite <-!app_assoc, lex_one_operator by done. eexists.
  assert (value_items (t ++ k) = (items, k, false)) as Ht by (unfold t; rewrite <-app_assoc; by apply Hv).
  rewrite (lex_word_operator len w key cmp _ items k false); [|done..| |done].
  - rewrite Hf. unfold raw_term. by rewrite (app_assoc (txt _)), (app_assoc w), raw_take, <-app_assoc, app_nil_r.
  - intros Hc. specialize (Hs Hc). unfold t. destruct v as [|c v]; [|by rewrite <-app_assoc; apply strip_none_app, (strip_none_cut _ _ _ next)]. destruct open; [by destruct (Ho eq_refl)|].
    destruct k as [|d k]; [done|]. by destruct Hb as [-> | ->].
Qed.
End lexer.
