(* ===== verification/SearchLeaf.v ===== *)
(** * The leaves of a query, printed and read back

    Date values, filters, phrases, shorthands and words: what the lexer makes
    of any input, its canonical text gives again. *)

From Stdlib Require Import ZArith Lia String.
From stdpp Require Import base tactics decidable option list strings.
From S2P Require Import Prelude Bytes Calendar Rrule Search SearchLex.
Open Scope Z_scope.

(** ** Numbers *)

(** A property of the numbers below a bound, checked on each. *)
Lemma below_check (p : Z → bool) n x : forallb p (seqZ 0 n) = true → 0 ≤ x < n → p x = true.
Proof. intros Hp Hx. rewrite forallb_forall in Hp. apply Hp, list_elem_of_In, elem_of_seqZ. lia. Qed.

Lemma all_digits s : forallb is_digit s = true ↔ Forall (λ c, is_digit c = true) s.
Proof. rewrite forallb_forall, Forall_forall. setoid_rewrite list_elem_of_In. done. Qed.
Definition reads_number (w : nat) (s : chars) (x : Z) : bool :=
  bool_decide (length s = w) && forallb is_digit s && (digits_value s =? x).

Lemma padded_four y : 0 ≤ y < 10000 → reads_number 4 (zero_padded 4 y) y = true.
Proof. apply (below_check (λ y, reads_number 4 (zero_padded 4 y) y)). vm_compute. reflexivity. Qed.
Lemma padded_two y : 0 ≤ y < 100 → reads_number 2 (zero_padded 2 y) y = true.
Proof. apply (below_check (λ y, reads_number 2 (zero_padded 2 y) y)). vm_compute. reflexivity. Qed.
Definition short_number (n : Z) : bool :=
  let s := txt (show_int n) in reads_number (length s) s n && (1 <=? length s)%nat && (length s <=? 3)%nat.
Lemma offset_digits n : 0 ≤ n < 1000 → short_number n = true.
Proof. apply (below_check short_number). vm_compute. reflexivity. Qed.

Lemma reads_number_spec w s x :
  reads_number w s x = true → length s = w ∧ Forall (λ c, is_digit c = true) s ∧ num s w = Some x ∧ digits_value s = x.
Proof.
  intros E. unfold reads_number in E. rewrite !andb_true_iff, bool_decide_eq_true in E. destruct E as [[<- Hd] Hx].
  split; [done|]. split; [by apply all_digits|].
  apply Z.eqb_eq in Hx. split; [|done]. unfold num. by rewrite bool_decide_eq_true_2, Hd, Hx by done.
Qed.

Lemma digits_value_bounds s acc : Forall (λ c, is_digit c = true) s → 0 ≤ acc →
  0 ≤ foldl (λ acc c, acc * 10 + (c - 48)) acc s < (acc + 1) * 10 ^ Z.of_nat (length s).
Proof.
  intros Hs. revert acc. induction Hs as [|c s Hc _ IH]; intros acc Hacc; [cbn; lia|]. cbn [foldl length].
  unfold is_digit in Hc. apply bool_decide_eq_true in Hc. rewrite Nat2Z.inj_succ, Z.pow_succ_r by lia.
  specialize (IH (acc * 10 + (c - 48)) ltac:(lia)). split; [lia|]. nia.
Qed.
Lemma num_bounds s w x : num s w = Some x → 0 ≤ x < 10 ^ Z.of_nat w.
Proof.
  unfold num. destruct (bool_decide (length s = w)) eqn:El; [|done]. apply bool_decide_eq_true in El as <-. cbn [andb].
  destruct (forallb is_digit s) eqn:Ed; [|done]. intros [= <-]. unfold digits_value.
  pose proof (digits_value_bounds s 0) as Hb. rewrite Z.add_0_l, Z.mul_1_l in Hb. apply Hb; [|done].
  by apply all_digits.
Qed.

(** ** Date values *)

Class IsoDates `{Jiff} : Prop :=
  (** A date of a year from 0 to 9999 is printed as YYYY-MM-DD. *)
  show_date_iso d : valid d → 0 ≤ year d →
    txt (show_date d) = zero_padded 4 (year d) ++ [45] ++ zero_padded 2 (month d) ++ [45] ++ zero_padded 2 (day d).

(** The characters of a printed date value. *)
Definition date_char (c : Z) : bool := is_digit c || bool_decide (97 ≤ c ≤ 122) || (c =? 45) || (c =? 43).
Definition date_text_ok (s : chars) : Prop := Forall (λ c, date_char c = true) s ∧ s ≠ [].

Lemma date_char_cases c : date_char c = true → 48 ≤ c ≤ 57 ∨ 97 ≤ c ≤ 122 ∨ c = 45 ∨ c = 43.
Proof. unfold date_char, is_digit. rewrite !orb_true_iff, !bool_decide_eq_true, !Z.eqb_eq. tauto. Qed.
Lemma date_char_plain c : date_char c = true → plain c = true.
Proof.
  intros Hc%date_char_cases. unfold plain, ends_bare, is_ws, is_paren, QUOTE, LPAREN, RPAREN, COMMA.
  repeat first [rewrite bool_decide_eq_false_2 by lia | rewrite (proj2 (Z.eqb_neq _ _)) by lia]. done.
Qed.
Lemma date_text_plain s : date_text_ok s → plain_text s.
Proof. intros [Hs _]. eapply Forall_impl; [exact Hs|]. apply date_char_plain. Qed.
Lemma date_text_lower s : Forall (λ c, date_char c = true) s → to_ascii_lowercase s = s.
Proof.
  intros Hs. unfold to_ascii_lowercase. induction Hs as [|c s Hc%date_char_cases _ IH]; [done|]. cbn [fmap list_fmap].
  unfold is_upper at 1. rewrite bool_decide_eq_false_2 by lia. by rewrite IH.
Qed.
Lemma split_dots_none s : Forall (λ c, date_char c = true) s → split_dots s = None.
Proof.
  induction 1 as [|c s Hc%date_char_cases _ IH]; [done|]. cbn [split_dots]. rewrite (proj2 (Z.eqb_neq c 46)) by lia. by rewrite IH.
Qed.
Lemma split_dots_app a b : Forall (λ c, date_char c = true) a → split_dots (a ++ txt ".." ++ b) = Some (a, b).
Proof.
  induction 1 as [|c s Hc%date_char_cases _ IH]; [done|]. cbn [app split_dots].
  rewrite (proj2 (Z.eqb_neq c 46)) by lia. by rewrite IH.
Qed.
Lemma digits_date_chars s : Forall (λ c, is_digit c = true) s → Forall (λ c, date_char c = true) s.
Proof. intros Hs. eapply Forall_impl; [exact Hs|]. intros c Hc. unfold date_char. by rewrite Hc. Qed.

Lemma split_char_none s : Forall (λ c, is_digit c = true) s → split_char 45 s = [s].
Proof.
  induction 1 as [|c s Hc _ IH]; [done|]. unfold is_digit in Hc. apply bool_decide_eq_true in Hc. cbn [split_char].
  rewrite (proj2 (Z.eqb_neq c 45)) by lia. by rewrite IH.
Qed.
Lemma split_char_dash a b : Forall (λ c, is_digit c = true) a → split_char 45 (a ++ [45] ++ b) = a :: split_char 45 b.
Proof.
  induction 1 as [|c s Hc _ IH]; [done|]. unfold is_digit in Hc. apply bool_decide_eq_true in Hc. cbn [app split_char].
  rewrite (proj2 (Z.eqb_neq c 45)) by lia. cbn [app] in IH. by rewrite IH.
Qed.

Section values.
Context `{JiffLaws, !IsoDates}.

(** What the parser makes. *)
Definition value_ok (v : DateValue) : Prop :=
  match v with
  | Offset n _ => -999 ≤ n ≤ 999
  | OnDay d => valid d ∧ 0 ≤ year d
  | InMonth y m => 0 ≤ y < 10000 ∧ 0 ≤ m < 100 ∧ is_Some (date_new y m 1)
  | _ => True
  end.
Definition span_ok (s : DateSpan) : Prop := match s with One v => value_ok v | Range a b => value_ok a ∧ value_ok b end.

Lemma offset_parsed s v : parse_offset s = Some v → value_ok v.
Proof.
  unfold parse_offset.
  destruct (match strip_char 43 s with Some _ => _ | None => _ end) as [[sign rest]|] eqn:Es; cbn [mbind option_bind]; [|done].
  assert (sign = 1 ∨ sign = -1) as Hs.
  { destruct (strip_char 43 s); [injection Es as <- _; tauto|]. destruct (strip_char 45 s); [injection Es as <- _; tauto|done]. }
  destruct (last rest) as [u|]; cbn [mbind option_bind]; [|done].
  destruct (if u =? 100 then _ else _) as [unit|]; cbn [mbind option_bind]; [|done].
  destruct (_ || _) eqn:E; [done|]. rewrite !orb_false_iff, !bool_decide_eq_false, negb_false_iff in E.
  destruct E as [[_ Hl] Hd]. intros [= <-]. cbn [value_ok]. apply all_digits in Hd.
  pose proof (digits_value_bounds _ 0 Hd ltac:(done)) as Hb. fold (digits_value (take (pred (length rest)) rest)) in Hb.
  rewrite Z.add_0_l, Z.mul_1_l in Hb.
  assert (10 ^ Z.of_nat (length (take (pred (length rest)) rest)) ≤ 10 ^ 3) by (apply Z.pow_le_mono_r; lia).
  destruct Hs as [-> | ->]; lia.
Qed.

Lemma absolute_parsed s v : parse_absolute s = Some v → value_ok v.
Proof.
  unfold parse_absolute. destruct (split_char 45 s) as [|y [|m [|d [|? ?]]]]; try done.
  - destruct (num y 4) as [y'|] eqn:Ey; cbn [mbind option_bind]; [|done]. destruct (num m 2) as [m'|] eqn:Em; cbn [mbind option_bind]; [|done].
    destruct (date_new y' m' 1) as [?|] eqn:Ed; cbn [mbind option_bind]; [|done]. intros [= <-].
    apply num_bounds in Ey, Em. cbn [value_ok]. split_and!; [lia..|]. by rewrite Ed.
  - destruct (num y 4) as [y'|] eqn:Ey; cbn [mbind option_bind]; [|done]. destruct (num m 2) as [m'|] eqn:Em; cbn [mbind option_bind]; [|done].
    destruct (num d 2) as [d'|] eqn:Ed'; cbn [mbind option_bind]; [|done].
    destruct (date_new y' m' d') as [d0|] eqn:Ed; cbn [mbind option_bind]; [|done]. intros [= <-].
    apply date_new_spec in Ed as [-> Hv]. apply num_bounds in Ey. cbn [value_ok year]. split; [done|lia].
Qed.

Lemma find_fixed s v k : List.find (λ kv, bool_decide (s = txt kv.1)) fixed_values = Some (k, v) → value_ok v.
Proof.
  intros E. apply find_some in E as [Hin _]. cbn in Hin.
  repeat (destruct Hin as [Hin|Hin]; [by injection Hin as <- <-|]). done.
Qed.
Lemma date_value_parsed s v : date_value_parse s = Some v → value_ok v.
Proof.
  unfold date_value_parse. destruct (List.find _ fixed_values) as [[k w]|] eqn:Ef; [intros [= <-]; by eapply find_fixed|].
  destruct (List.find _ ALL_days) as [[[d ?] ?]|]; [by intros [= <-]|].
  destruct (parse_offset _) eqn:E; [intros [= <-]; by eapply offset_parsed|]. apply absolute_parsed.
Qed.

(** *** Printing and reading back *)

(** A text that starts with no letter is no word. *)
Lemma not_a_word c s : is_alphabetic c = false → date_char c = true → Forall (λ c, date_char c = true) s →
  date_value_parse (c :: s) = match parse_offset (c :: s) with Some v => Some v | None => parse_absolute (c :: s) end.
Proof.
  intros Ha Hc Hs. unfold date_value_parse. rewrite date_text_lower by (by constructor).
  assert (∀ t : string, match txt t with d :: _ => is_alphabetic d = true | [] => True end → bool_decide (c :: s = txt t) = false) as Hne.
  { intros t Ht. apply bool_decide_eq_false. intros E. rewrite <-E in Ht. congruence. }
  assert (List.find (λ kv, bool_decide (c :: s = txt kv.1)) fixed_values = None) as ->.
  { cbn [List.find fixed_values fst]. by rewrite !Hne. }
  assert (List.find (λ '(_, short, long), bool_decide (c :: s = txt short) || bool_decide (c :: s = txt long)) ALL_days = None) as ->; [|done].
  cbn [List.find ALL_days]. by rewrite !Hne.
Qed.

Lemma absolute_text y rest : 0 ≤ y < 10000 →
  Forall (λ c, date_char c = true) rest →
  date_text_ok (zero_padded 4 y ++ [45] ++ rest) ∧
  date_value_parse (zero_padded 4 y ++ [45] ++ rest) = parse_absolute (zero_padded 4 y ++ [45] ++ rest).
Proof.
  intros Hy Hr. pose proof (padded_four y Hy) as (Hl & Hd & _)%reads_number_spec.
  destruct (zero_padded 4 y) as [|c s] eqn:E; [done|]. apply Forall_cons in Hd as [Hc Hd].
  assert (Forall (λ c, date_char c = true) (s ++ [45] ++ rest)) as Hs.
  { apply Forall_app. split; [by apply digits_date_chars|]. by constructor. }
  assert (date_char c = true) as Hc' by (unfold date_char; by rewrite Hc).
  split; [split; [by constructor|done]|]. cbn [app] in *. unfold is_digit in Hc. apply bool_decide_eq_true in Hc.
  rewrite not_a_word; [| |done|done].
  - unfold parse_offset. cbn [strip_char]. by rewrite (proj2 (Z.eqb_neq c 43)), (proj2 (Z.eqb_neq c 45)) by lia.
  - unfold is_alphabetic, is_upper. by rewrite !bool_decide_eq_false_2 by lia.
Qed.

Lemma month_text y m : 0 ≤ y < 10000 → 0 ≤ m < 100 → is_Some (date_new y m 1) →
  parse_absolute (zero_padded 4 y ++ [45] ++ zero_padded 2 m) = Some (InMonth y m).
Proof.
  intros Hy Hm [d Hd]. apply padded_four, reads_number_spec in Hy as (_ & Hdy & Ey & _).
  apply padded_two, reads_number_spec in Hm as (_ & Hdm & Em & _).
  unfold parse_absolute. rewrite split_char_dash, split_char_none by done. rewrite Ey. cbn [mbind option_bind].
  rewrite Em. cbn [mbind option_bind]. by rewrite Hd.
Qed.
Lemma day_text d : valid d → 0 ≤ year d →
  parse_absolute (zero_padded 4 (year d) ++ [45] ++ zero_padded 2 (month d) ++ [45] ++ zero_padded 2 (day d)) = Some (OnDay d).
Proof.
  intros Hv Hy. assert (date_new (year d) (month d) (day d) = Some d) as Hd by (apply date_new_spec; by destruct d).
  destruct Hv as (Hyr & Hm & Hdy). pose proof (days_in_month_pos d Hm).
  assert (0 ≤ year d < 10000) as (_ & Hc1 & Ey & _)%padded_four%reads_number_spec by lia.
  assert (0 ≤ month d < 100) as (_ & Hc2 & Em & _)%padded_two%reads_number_spec by lia.
  assert (0 ≤ day d < 100) as (_ & Hc3 & Ed & _)%padded_two%reads_number_spec by lia.
  unfold parse_absolute. rewrite !split_char_dash, split_char_none by done. rewrite Ey. cbn [mbind option_bind].
  rewrite Em. cbn [mbind option_bind]. rewrite Ed. cbn [mbind option_bind]. by rewrite Hd.
Qed.

Lemma offset_text n unit : -999 ≤ n ≤ 999 →
  date_text_ok (show_date_value (Offset n unit)) ∧
  date_value_parse (show_date_value (Offset n unit)) = Some (Offset n unit).
Proof.
  intros Hn. assert (0 ≤ Z.abs n < 1000) as Hs%offset_digits by lia. unfold short_number in Hs.
  rewrite !andb_true_iff, Nat.leb_le, Nat.leb_le in Hs. destruct Hs as ((Hr & Hpos) & Hlen).
  apply reads_number_spec in Hr as (_ & Hd & _ & Hx). cbn [show_date_value]. set (s := txt (show_int (Z.abs n))) in *.
  set (u := match unit with UDays => 100 | UWeeks => 119 | UMonths => 109 end).
  assert (date_char u = true) as Hu by (by destruct unit).
  assert (Forall (λ c, date_char c = true) (s ++ [u])) as Hall.
  { apply Forall_app. split; [by apply digits_date_chars|by apply Forall_singleton]. }
  assert (date_char (if n <? 0 then 45 else 43) = true) as Hsign by (by destruct (n <? 0)).
  split; [split; [by constructor|done]|]. cbn [app]. rewrite not_a_word; [|by destruct (n <? 0)|done|done].
  assert (parse_offset ((if n <? 0 then 45 else 43) :: s ++ [u]) = Some (Offset n unit)) as ->; [|done].
  assert (last (s ++ [u]) = Some u) as Hlast by apply last_snoc.
  assert (take (pred (length (s ++ [u]))) (s ++ [u]) = s) as Htake.
  { rewrite length_app. cbn [length]. rewrite Nat.add_1_r. apply take_app_length. }
  assert ((if u =? 100 then Some UDays else if u =? 119 then Some UWeeks else if u =? 109 then Some UMonths else None) = Some unit) as Hunit
    by (by destruct unit).
  apply all_digits in Hd.
  unfold parse_offset. destruct (Z.ltb_spec n 0); cbn [strip_char Z.eqb Pos.eqb mbind option_bind];
    rewrite Hlast; cbn [mbind option_bind]; rewrite Hunit; cbn [mbind option_bind]; rewrite Htake, Hd;
    rewrite !bool_decide_eq_false_2 by (lia || (intros E; rewrite E in Hpos; cbn in Hpos; lia)); cbn [orb negb];
    rewrite Hx; do 2 f_equal; lia.
Qed.

Lemma value_text v : value_ok v → date_text_ok (show_date_value v) ∧ date_value_parse (show_date_value v) = Some v.
Proof.
  destruct v as [| | |d| | | | | | |n u|d|y m]; cbn [value_ok]; intros Hv;
    try (split; [split; [repeat constructor|done]|reflexivity]).
  - destruct d; (split; [split; [repeat constructor|done]|reflexivity]).
  - by apply offset_text.
  - destruct Hv as [Hv Hy]. cbn [show_date_value]. rewrite show_date_iso by done.
    destruct (Hv) as (Hyr & Hm & Hd). pose proof (days_in_month_pos d Hm).
    assert (0 ≤ month d < 100) as (_ & Hc2 & _)%padded_two%reads_number_spec by lia.
    assert (0 ≤ day d < 100) as (_ & Hc3 & _)%padded_two%reads_number_spec by lia.
    destruct (absolute_text (year d) (zero_padded 2 (month d) ++ [45] ++ zero_padded 2 (day d))) as [Ht ->]; [lia| |].
    + apply Forall_app. split; [by apply digits_date_chars|]. constructor; [done|]. by apply digits_date_chars.
    + split; [done|]. by apply day_text.
  - destruct Hv as (Hy & Hm & Hd). cbn [show_date_value].
    pose proof (padded_two m Hm) as (_ & Hc2 & _)%reads_number_spec.
    destruct (absolute_text y (zero_padded 2 m)) as [Ht ->]; [done|by apply digits_date_chars|].
    split; [done|]. by apply month_text.
Qed.

(** ** Filters *)

Definition names_ok (n : list chars) : Prop := n ≠ [] ∧ Forall (λ s, s ≠ [] ∧ unquoted s) n.
Definition filter_ok (f : QFilter) : Prop :=
  match f with
  | FStream n | FContext n | FPlace n => names_ok n
  | FState v => v ≠ []
  | FKind v => v ≠ []
  | FIs v => v ≠ []
  | FHas v => v ≠ []
  | FPriority cmp v => v ≠ [] ∧ Forall (λ p, 1 ≤ p ≤ 5) v ∧ (cmp = CmpEq ∨ length v = 1%nat)
  | FDate _ cmp span => span_ok span ∧ (cmp = CmpEq ∨ ∃ v, span = One v)
  end.

Lemma names_parsed items n : items ≠ [] → Forall unquoted items → names items = Some n → names_ok n ∧ n = items.
Proof.
  unfold names. intros Hne Hu. destruct (forallb _ items) eqn:E; [|done]. intros [= <-]. split; [|done]. split; [done|].
  rewrite forallb_forall in E. apply Forall_forall. intros s Hs. rewrite Forall_forall in Hu. split; [|by apply Hu].
  apply list_elem_of_In, E in Hs. apply negb_true_iff, bool_decide_eq_false in Hs. done.
Qed.
Lemma mapM_nonempty {A B} (f : A → option B) l k : l ≠ [] → mapM f l = Some k → k ≠ [].
Proof. intros Hne E ->. apply length_mapM in E. by destruct l. Qed.
Lemma priority_parsed s p : priority_value s = Some p → 1 ≤ p ≤ 5.
Proof.
  unfold priority_value. destruct s as [|d [|? ?]]; [done| |done]. case_bool_decide; [|done]. intros [= <-]. lia.
Qed.

Lemma filter_parsed key cmp items f :
  items ≠ [] → Forall unquoted items → filter_of key cmp items = Some f → filter_ok f.
Proof.
  intros Hne Hu. destruct key; cbn [filter_of].
  1-3: destruct (names items) eqn:E; cbn [mbind option_bind]; [|done]; case_decide; [|done]; intros [= <-]; by eapply names_parsed.
  1-4: unfold keywords; destruct (mapM _ items) eqn:E; cbn [mbind option_bind]; [|done]; case_decide; [|done];
    intros [= <-]; by eapply mapM_nonempty.
  - destruct (_ && _) eqn:E; [done|]. destruct (mapM priority_value items) as [v|] eqn:Ev; [|done]. intros [= <-].
    split_and!; [by eapply mapM_nonempty| |].
    + apply mapM_Some in Ev. eapply Forall2_Forall_r; [exact Ev|]. apply Forall_forall. intros s _ p. apply priority_parsed.
    + apply length_mapM in Ev as <-. rewrite andb_false_iff, !negb_false_iff, !bool_decide_eq_true in E. done.
  - destruct items as [|item [|? ?]]; [done| |done]. destruct (split_dots item) as [[a b]|].
    + case_decide; cbn [mbind option_bind]; [|done].
      destruct (date_value_parse a) as [va|] eqn:Ea; cbn [mbind option_bind]; [|done].
      destruct (date_value_parse b) as [vb|] eqn:Eb; cbn [mbind option_bind]; [|done]. intros [= <-].
      apply date_value_parsed in Ea, Eb. cbn. tauto.
    + destruct (date_value_parse item) as [v|] eqn:Ev; cbn [fmap option_fmap option_map mbind option_bind]; [|done]. intros [= <-].
      apply date_value_parsed in Ev. cbn. eauto.
Qed.

(** *** Their items, printed *)

Lemma list_name_shown n : unquoted n → shown_as (list_name n) n.
Proof.
  intros Hn. unfold list_name. destruct (existsb _ n) eqn:E; [by right|]. left. split; [done|].
  apply Forall_forall. intros c Hc. unfold unquoted in Hn. rewrite Forall_forall in Hn. specialize (Hn c Hc).
  unfold plain, ends_bare. rewrite Hn. apply negb_true_iff.
  destruct (_ || _) eqn:Ec; [|done]. assert (existsb (λ c, is_ws c || is_paren c || (c =? COMMA)) n = true); [|congruence].
  apply existsb_exists. exists c. split; [by apply list_elem_of_In|]. rewrite orb_false_r in Ec. done.
Qed.
Lemma names_shown n : names_ok n → Forall2 shown_as (list_name <$> n) n ∧ list_name <$> n ≠ [] ∧ names n = Some n.
Proof.
  intros [Hne Hall]. split; [|split; [by destruct n|]].
  - apply Forall2_fmap_l. apply Forall_Forall2_diag. eapply Forall_impl; [exact Hall|]. intros s [_ Hs]. by apply list_name_shown.
  - unfold names. replace (forallb _ n) with true; [done|]. symmetry. apply forallb_forall. intros s Hs%list_elem_of_In.
    rewrite Forall_forall in Hall. destruct (Hall s Hs) as [? _]. by rewrite bool_decide_eq_false_2.
Qed.
Lemma words_shown {T} `{Keyword T} (v : list T) :
  v ≠ [] → (∀ x : T, from_keyword (txt (keyword x)) = Some x ∧ plain_text (txt (keyword x))) →
  Forall2 shown_as ((λ x, txt (keyword x)) <$> v) ((λ x, txt (keyword x)) <$> v) ∧ (λ x, txt (keyword x)) <$> v ≠ [] ∧
  keywords ((λ x, txt (keyword x)) <$> v) = Some v.
Proof.
  intros Hne Hk. split; [|split; [by destruct v|]].
  - apply Forall_Forall2_diag, Forall_fmap, Forall_true. intros x. left. split; [done|apply Hk].
  - unfold keywords. apply mapM_Some, Forall2_fmap_l, Forall_Forall2_diag, Forall_true. intros x. apply Hk.
Qed.
Lemma priority_shown v : v ≠ [] → Forall (λ p, 1 ≤ p ≤ 5) v →
  Forall2 shown_as ((λ p, txt (show_int p)) <$> v) ((λ p, txt (show_int p)) <$> v) ∧ (λ p, txt (show_int p)) <$> v ≠ [] ∧
  mapM priority_value ((λ p, txt (show_int p)) <$> v) = Some v.
Proof.
  intros Hne Hall. assert (∀ p, 1 ≤ p ≤ 5 → txt (show_int p) = [p + 48]) as Hs.
  { intros p Hp. assert (p = 1 ∨ p = 2 ∨ p = 3 ∨ p = 4 ∨ p = 5) as [->|[->|[->|[->| ->]]]] by lia; reflexivity. }
  split; [|split; [by destruct v|]].
  - apply Forall_Forall2_diag, Forall_fmap. eapply Forall_impl; [exact Hall|]. cbv beta. intros p Hp. left. split; [done|].
    cbn. rewrite Hs by done. apply Forall_singleton, date_char_plain. unfold date_char, is_digit.
    by rewrite bool_decide_eq_true_2 by lia.
  - apply mapM_Some, Forall2_fmap_l, Forall_Forall2_diag. eapply Forall_impl; [exact Hall|]. cbv beta. intros p Hp. cbn.
    rewrite Hs by done. cbn. rewrite bool_decide_eq_true_2 by lia. f_equal. lia.
Qed.
Lemma span_shown field cmp s : span_ok s → cmp = CmpEq ∨ (∃ v, s = One v) →
  plain_text (show_date_span s) ∧ (∃ c t, show_date_span s = c :: t ∧ date_char c = true) ∧
  filter_of (KeyDate field) cmp [show_date_span s] = Some (FDate field cmp s).
Proof.
  destruct s as [v|a b]; cbn [span_ok show_date_span].
  - intros Hv _. apply value_text in Hv as [Ht Hp]. split; [by apply date_text_plain|]. split.
    + destruct Ht as [Ht Hne]. destruct (show_date_value v) as [|c t]; [done|]. apply Forall_cons in Ht as [? _]. by eexists _, _.
    + cbn [filter_of]. rewrite split_dots_none by apply Ht. by rewrite Hp.
  - intros [Ha Hb] [->|[? ?]]; [|done]. apply value_text in Ha as [Hta Hpa]. apply value_text in Hb as [Htb Hpb]. split_and!.
    + apply Forall_app. split; [by apply date_text_plain|]. apply Forall_app. split; [by repeat constructor|by apply date_text_plain].
    + destruct Hta as [Hta Hne]. destruct (show_date_value a) as [|c t]; [done|]. apply Forall_cons in Hta as [? _]. by eexists _, _.
    + cbn [filter_of]. rewrite split_dots_app by apply Hta. rewrite decide_True by done. rewrite Hpa. cbn [mbind option_bind]. by rewrite Hpb.
Qed.

(** ** Every leaf the lexer makes reads back *)

Lemma shorthand_leaf c n f :
  c = 35 ∨ c = 64 → f = (if c =? 35 then FStream [n] else FContext [n]) → n ≠ [] → unquoted n → leaf_ok (Filtered f).
Proof.
  intros Hc Hf Hne Hn.
  assert (show_filter f = c :: shorthand_name n) as Hshow by (destruct Hc as [-> | ->]; by subst f).
  split; [done|]. cbn [show_expr]. unfold reads_back. cbn [show_expr]. rewrite Hshow. split; [by destruct Hc as [-> | ->]|].
  intros len k Hk. eexists. unfold shorthand_name. destruct (existsb _ n) eqn:E.
  - unfold quote_name. cbn [app]. rewrite <-app_assoc. cbn [app].
    destruct Hc as [-> | ->]; cbn - [quoted QUOTE ends_bare Z.eqb bool_decide]; rewrite !Z.eqb_refl, orb_true_r, quoted_app by done; cbn [negb]; rewrite bool_decide_eq_false_2 by done; by rewrite Hf.
  - assert (Forall (λ c, ends_bare c || (false && (c =? COMMA)) = false) n) as Hb.
    { apply Forall_forall. intros d Hd. unfold unquoted in Hn. rewrite Forall_forall in Hn. unfold ends_bare. rewrite (Hn d Hd), !orb_false_r.
      destruct (is_ws d || is_paren d) eqn:Ed; [|done].
      assert (existsb (λ c, is_ws c || is_paren c) n = true); [|congruence].
      apply existsb_exists. exists d. split; [by apply list_elem_of_In|done]. }
    assert (bare false (n ++ k) = (n, k)) as Hbare by (apply break_app; [done|by apply boundary_bare]).
    destruct n as [|d n]; [done|]. cbn [app] in *. apply Forall_cons in Hb as [Hd _]. cbn [andb] in Hd. rewrite orb_false_r in Hd.
    apply Forall_cons in Hn as [Hq _].
    destruct Hc as [-> | ->]; cbn - [bare ends_bare QUOTE bool_decide]; rewrite Hd, Hq; cbn [negb orb]; rewrite Hbare; by rewrite Hf.
Qed.

Lemma priority_leaf d : 49 ≤ d ≤ 53 → leaf_ok (Filtered (FPriority CmpEq [d - 48])).
Proof.
  intros Hd. assert (show_filter (FPriority CmpEq [d - 48]) = [33; d]) as Hshow.
  { assert (d = 49 ∨ d = 50 ∨ d = 51 ∨ d = 52 ∨ d = 53) as [->|[->|[->|[->| ->]]]] by lia; reflexivity. }
  split; [done|]. unfold reads_back. cbn [show_expr]. rewrite Hshow. split; [done|]. intros len k Hk. eexists.
  cbn - [ends_bare bool_decide]. rewrite bool_decide_eq_true_2 by done. destruct k as [|c k]; [done|]. by destruct Hk as [-> | ->].
Qed.

Lemma trim_cut t : ∃ a b, t = a ++ trim t ++ b.
Proof.
  unfold trim, trim_end, trim_start. destruct (break _ t) as [a t'] eqn:Ea. apply break_spec in Ea as (-> & _ & _). cbn [snd].
  destruct (break _ (reverse t')) as [b t''] eqn:Eb. apply break_spec in Eb as (Eb & _ & _). cbn [snd].
  exists a, (reverse b). f_equal. by rewrite <-reverse_app, <-Eb, reverse_involutive.
Qed.
Lemma trim_start_stops t : stops (λ c, negb (is_ws c)) (trim_start t).
Proof. unfold trim_start. destruct (break _ t) as [a t'] eqn:Ea. by apply break_spec in Ea as (_ & _ & ?). Qed.
Lemma trim_start_id t : stops (λ c, negb (is_ws c)) t → trim_start t = t.
Proof. destruct t as [|c t]; [done|]. intros Hc. unfold trim_start. cbn [break]. cbn in Hc. by rewrite Hc. Qed.

(** Cutting spaces at the end leaves the front as it is. *)
Lemma trim_end_front t : ∃ b, t = trim_end t ++ b ∧ Forall (λ c, negb (is_ws c) = false) b.
Proof.
  unfold trim_end, trim_start. destruct (break _ (reverse t)) as [b t'] eqn:Eb. apply break_spec in Eb as (Eb & Hb & _). cbn [snd].
  exists (reverse b). rewrite <-reverse_app, <-Eb, reverse_involutive. split; [done|]. by apply Forall_reverse.
Qed.
Lemma trim_end_idemp t : trim_end (trim_end t) = trim_end t.
Proof. unfold trim_end. rewrite reverse_involutive. f_equal. apply trim_start_id, trim_start_stops. Qed.
Lemma trim_end_stops t : stops (λ c, negb (is_ws c)) t → stops (λ c, negb (is_ws c)) (trim_end t).
Proof.
  intros Ht. destruct (trim_end_front t) as (b & E & _). destruct (trim_end t) as [|c r]; [done|]. rewrite E in Ht. exact Ht.
Qed.
Lemma trim_idemp t : trim (trim t) = trim t.
Proof.
  unfold trim at 1. rewrite trim_start_id by (apply trim_end_stops, trim_start_stops). apply trim_end_idemp.
Qed.

Lemma phrase_leaf t : t ≠ [] → unquoted t → trim t = t → leaf_ok (Phrase t).
Proof.
  intros Hne Ht Htrim. split; [done|]. split; [done|]. intros len k _. eexists. cbn [show_expr]. unfold quote_name.
  rewrite <-!app_assoc. cbn [app]. cbn - [quoted trim QUOTE bool_decide]. rewrite quoted_app by done. rewrite Htrim, bool_decide_eq_false_2 by done. done.
Qed.

Lemma filter_leaf f : filter_ok f → leaf_ok (Filtered f).
Proof.
  assert (∀ w, w ≠ [] → forallb is_alphabetic w = true → alphabetic_text w) as Hw.
  { intros w Hne Hall. split; [done|]. rewrite forallb_forall in Hall. apply Forall_forall. intros c Hc%list_elem_of_In.
    by rewrite Hall. }
  assert (∀ s : chars, strict_value CmpEq s) as Hs by (intros s []; done).
  destruct f as [n|n|n|v|v|v|v|cmp v|field cmp s]; cbn [filter_ok]; intros Hok.
  - destruct n as [|n [|n2 ns]]; [by destruct Hok| |].
    + destruct Hok as [_ Hok]. apply Forall_cons in Hok as [[Hne Hu] _]. by apply (shorthand_leaf 35 n); [left| | |].
    + pose proof (names_shown _ Hok) as (Hall & Hne & Hn).
      apply (keyed_leaf (txt "stream") KeyStream CmpEq (list_name <$> n :: n2 :: ns) (n :: n2 :: ns)); [reflexivity|by apply Hw|reflexivity|apply Hs|done|done|].
      cbn [filter_of]. by rewrite Hn.
  - destruct n as [|n [|n2 ns]]; [by destruct Hok| |].
    + destruct Hok as [_ Hok]. apply Forall_cons in Hok as [[Hne Hu] _]. by apply (shorthand_leaf 64 n); [right| | |].
    + pose proof (names_shown _ Hok) as (Hall & Hne & Hn).
      apply (keyed_leaf (txt "context") KeyContext CmpEq (list_name <$> n :: n2 :: ns) (n :: n2 :: ns)); [reflexivity|by apply Hw|reflexivity|apply Hs|done|done|].
      cbn [filter_of]. by rewrite Hn.
  - pose proof (names_shown _ Hok) as (Hall & Hne & Hn).
    apply (keyed_leaf (txt "place") KeyPlace CmpEq (list_name <$> n) n); [reflexivity|by apply Hw|reflexivity|apply Hs|done|done|].
    cbn [filter_of]. by rewrite Hn.
  - destruct (words_shown v Hok) as (Hall & Hne & Hk); [by intros []; (split; [reflexivity|by repeat constructor])|].
    apply (keyed_leaf (txt "state") KeyState CmpEq ((λ x, txt (keyword x)) <$> v) ((λ x, txt (keyword x)) <$> v)); [reflexivity|by apply Hw|reflexivity|apply Hs|done|done|].
    cbn [filter_of]. by rewrite Hk.
  - destruct (words_shown v Hok) as (Hall & Hne & Hk); [by intros []; (split; [reflexivity|by repeat constructor])|].
    apply (keyed_leaf (txt "kind") KeyKind CmpEq ((λ x, txt (keyword x)) <$> v) ((λ x, txt (keyword x)) <$> v)); [reflexivity|by apply Hw|reflexivity|apply Hs|done|done|].
    cbn [filter_of]. by rewrite Hk.
  - destruct (words_shown v Hok) as (Hall & Hne & Hk); [by intros []; (split; [reflexivity|by repeat constructor])|].
    apply (keyed_leaf (txt "is") KeyIs CmpEq ((λ x, txt (keyword x)) <$> v) ((λ x, txt (keyword x)) <$> v)); [reflexivity|by apply Hw|reflexivity|apply Hs|done|done|].
    cbn [filter_of]. by rewrite Hk.
  - destruct (words_shown v Hok) as (Hall & Hne & Hk); [by intros []; (split; [reflexivity|by repeat constructor])|].
    apply (keyed_leaf (txt "has") KeyHas CmpEq ((λ x, txt (keyword x)) <$> v) ((λ x, txt (keyword x)) <$> v)); [reflexivity|by apply Hw|reflexivity|apply Hs|done|done|].
    cbn [filter_of]. by rewrite Hk.
  - destruct Hok as (Hne & Hall & Hc).
    destruct (decide (cmp = CmpEq ∧ length v = 1%nat)) as [[-> Hl]|Hkey].
    + destruct v as [|p [|? ?]]; try done. apply Forall_cons in Hall as [Hp _].
      replace p with ((p + 48) - 48) by lia. apply priority_leaf. lia.
    + destruct (priority_shown v Hne Hall) as (Hsh & Hne' & Hp).
      apply (keyed_leaf (txt "priority") KeyPriority cmp ((λ p, txt (show_int p)) <$> v) ((λ p, txt (show_int p)) <$> v));
        [|by apply Hw|reflexivity| |done|done|].
      * cbn [show_filter]. destruct cmp; try reflexivity. destruct v as [|p [|? ?]]; [done|by destruct Hkey|reflexivity].
      * intros _. destruct v as [|p v]; [done|]. apply Forall_cons in Hall as [Hp1 _].
        assert (p = 1 ∨ p = 2 ∨ p = 3 ∨ p = 4 ∨ p = 5) as [->|[->|[->|[->| ->]]]] by lia; by destruct v.
      * cbn [filter_of]. rewrite Hp, length_fmap. replace (_ && _) with false; [done|]. symmetry.
        rewrite andb_false_iff, !negb_false_iff, !bool_decide_eq_true. tauto.
  - destruct Hok as [Hs1 Hc]. destruct (span_shown field cmp s Hs1 Hc) as (Hpl & (c & t & Et & Hct) & Hf).
    apply (keyed_leaf (txt (field_key field)) (KeyDate field) cmp [show_date_span s] [show_date_span s]); [reflexivity|
      by destruct field; apply Hw|by destruct field| |done|constructor; [by left|constructor]|done].
    intros _. cbn [join_chars]. rewrite Et. cbn [strip_char]. apply date_char_cases in Hct. by rewrite (proj2 (Z.eqb_neq c 61)) by lia.
Qed.
End values.
