(* ===== verification/SearchRound.v ===== *)
(** * The canonical text is read back as the same query

    The lexer's leaves are the ones that read back (SearchLeaf.v), the text of
    an expression is cut into the tokens of the expression, and the parser
    builds the expression from them. *)

From Stdlib Require Import ZArith Lia String.
From stdpp Require Import base tactics decidable option list strings.
From S2P Require Import Prelude Bytes Calendar Rrule Search SearchLex SearchLeaf.
Open Scope Z_scope.

Section round.
Context `{JiffLaws, !IsoDates}.

(** ** Words *)

Definition operator_at (r : chars) : option (Key * Comparator * chars) :=
  let '(word, past) := break (λ c, negb (is_alphabetic c)) r in
  if bool_decide (word = []) then None
  else key ← key_of word; '(cmp, value) ← cmp_at past; Some (key, cmp, value).

Lemma lex_word_bare len r t next :
  operator_at r = None → bare false r = (t, next) →
  ∃ ns, lex_word len r = (Some (if bool_decide (t = txt "OR") then TOr else TLeaf (Term t)), ns, next).
Proof.
  unfold operator_at, lex_word. destruct (break _ r) as [word past]. intros -> Hb. rewrite Hb. by eexists.
Qed.

Lemma cmp_at_head c r r' : is_Some (cmp_at (c :: r)) ↔ is_Some (cmp_at (c :: r')).
Proof.
  unfold cmp_at. cbn [strip_char]. destruct (c =? 58); [by split; eauto|]. destruct (c =? 60); [by split; eauto|].
  destruct (c =? 62); [by split; eauto|]. done.
Qed.

Lemma not_bare_not_alphabetic c : ends_bare c = true → is_alphabetic c = false.
Proof. intros Hc. destruct (is_alphabetic c) eqn:E; [|done]. apply alphabetic_plain in E as [E _]. congruence. Qed.

(** Whether a bare word is an operator does not depend on what follows it. *)
Lemma operator_ext t k1 k2 :
  Forall (λ c, ends_bare c = false) t → stops ends_bare k1 → boundary k2 →
  operator_at (t ++ k1) = None → operator_at (t ++ k2) = None.
Proof.
  intros Ht Hk1 Hk2. destruct (break (λ c, negb (is_alphabetic c)) t) as [w p] eqn:E. apply break_spec in E as (-> & Hw & Hp).
  apply Forall_app in Ht as [_ Ht].
  assert (∀ k, stops ends_bare k → break (λ c, negb (is_alphabetic c)) ((w ++ p) ++ k) = (w, p ++ k)) as Hbr.
  { intros k Hk. rewrite <-app_assoc. apply break_app; [done|]. destruct p as [|c p]; [|done].
    destruct k as [|c k]; [done|]. cbn in Hk |- *. by rewrite not_bare_not_alphabetic. }
  assert (stops ends_bare k2) as Hk2' by (by destruct k2 as [|c k2]; [|destruct Hk2 as [-> | ->]]).
  unfold operator_at. rewrite !Hbr by done. case_bool_decide; [done|].
  assert (cmp_at (p ++ k1) = None ↔ cmp_at (p ++ k2) = None) as Hc.
  { destruct p as [|c p].
    - assert (∀ k, stops ends_bare k → cmp_at k = None) as Hnone; [|by rewrite !Hnone by done].
      intros [|c k]; [done|]. cbn [stops]. unfold cmp_at. cbn [strip_char]. intros Hc.
      destruct (Z.eqb_spec c 58) as [->|]; [done|]. destruct (Z.eqb_spec c 60) as [->|]; [done|].
      by destruct (Z.eqb_spec c 62) as [->|].
    - cbn [app]. rewrite !eq_None_not_Some. by rewrite (cmp_at_head c (p ++ k1) (p ++ k2)). }
  destruct (key_of w); [|done]. cbn [mbind option_bind]. destruct (cmp_at (p ++ k1)) as [[]|]; [done|].
  intros _. by rewrite (proj1 Hc eq_refl).
Qed.

Lemma bare_spec r t next : bare false r = (t, next) → r = t ++ next ∧ Forall (λ c, ends_bare c = false) t ∧ stops ends_bare next.
Proof.
  intros (-> & Ht & Hn)%break_spec. split; [done|]. split.
  - eapply Forall_impl; [exact Ht|]. intros c. cbn [andb]. by rewrite orb_false_r.
  - destruct next as [|c next]; [done|]. cbn in Hn |- *. by rewrite orb_false_r in Hn.
Qed.
Lemma bare_app t k : Forall (λ c, ends_bare c = false) t → boundary k → bare false (t ++ k) = (t, k).
Proof.
  intros Ht Hk. apply break_app; [|by apply boundary_bare]. eapply Forall_impl; [exact Ht|]. intros c. cbn [andb]. by rewrite orb_false_r.
Qed.

Lemma ends_bare_false c : ends_bare c = false → is_ws c = false ∧ c ≠ QUOTE ∧ c ≠ LPAREN ∧ c ≠ RPAREN.
Proof. unfold ends_bare, is_paren. rewrite !orb_false_iff, !Z.eqb_neq. tauto. Qed.

(** The arms of [lex] before the last, none of which a word takes. *)
Definition not_sigil (c : Z) (r1 : chars) : Prop :=
  (c =? 45) && match r1 with n :: _ => negb (is_ws n) && negb (n =? RPAREN) | [] => false end = false ∧
  ((c =? 35) || (c =? 64)) && match r1 with n :: _ => negb (ends_bare n) || (n =? QUOTE) | [] => false end = false ∧
  match r1 with
  | d :: r2 => (c =? 33) && bool_decide (49 ≤ d ≤ 53) && match r2 with n :: _ => ends_bare n | [] => true end = false
  | [] => True
  end.

Lemma lex_one_not_sigil len c r1 : ends_bare c = false → not_sigil c r1 → lex_one len (c :: r1) = lex_word len (c :: r1).
Proof.
  intros (Hw & Hq & Hl & Hr)%ends_bare_false (H1' & H2' & H3'). unfold lex_one. rewrite Hw.
  rewrite (proj2 (Z.eqb_neq c LPAREN)), (proj2 (Z.eqb_neq c RPAREN)), (proj2 (Z.eqb_neq c QUOTE)) by done.
  rewrite H1', H2'. destruct r1 as [|d r2]; [done|]. by rewrite H3'.
Qed.

Lemma not_sigil_ext c t k1 k2 :
  Forall (λ c, ends_bare c = false) t → stops ends_bare k1 → boundary k2 → not_sigil c (t ++ k1) → not_sigil c (t ++ k2).
Proof.
  intros Ht Hk1 Hk2 (Hm & Hs & Hp). unfold not_sigil. destruct t as [|n t]; cbn [app] in *.
  - destruct k2 as [|d k2]; [by rewrite !andb_false_r|]. by destruct Hk2 as [-> | ->]; rewrite !andb_false_r.
  - split; [done|]. split; [done|]. destruct t as [|n2 t]; cbn [app] in *; [|done].
    destruct k1 as [|d1 k1]; [|cbn in Hk1; rewrite Hk1 in Hp]; rewrite andb_true_r in Hp; rewrite Hp; done.
Qed.

Lemma word_leaf c r1 t next :
  ends_bare c = false → not_sigil c r1 → operator_at (c :: r1) = None → bare false (c :: r1) = (t, next) → t ≠ txt "OR" →
  leaf_ok (Term t).
Proof.
  intros Hc Hsig Hop (E & Ht & Hn)%bare_spec Hor.
  destruct t as [|c' t]; [destruct next as [|d next]; [done|]; injection E as -> ->; cbn in Hn; congruence|].
  injection E as <- ->. split; [done|]. split.
  { cbn. apply ends_bare_false in Hc. tauto. }
  intros len k Hk. cbn [show_expr app]. apply Forall_cons in Ht as [_ Ht].
  rewrite lex_one_not_sigil; [|done|by eapply not_sigil_ext].
  destruct (lex_word_bare len (c :: t ++ k) (c :: t) k) as [ns Hw].
  - apply (operator_ext (c :: t) next k); [by constructor|done|done|done].
  - apply (bare_app (c :: t)); [by constructor|done].
  - exists ns. by rewrite Hw, bool_decide_eq_false_2.
Qed.

(** ** One turn of the lexer *)

Definition tok_ok (t : Tok) : Prop := match t with TLeaf e => leaf_ok e | _ => True end.

Lemma lex_word_spec len c r1 t ns next :
  ends_bare c = false → not_sigil c r1 → lex_word len (c :: r1) = (t, ns, next) →
  (∃ v, v ≠ [] ∧ c :: r1 = v ++ next) ∧ ∃ t', t = Some t' ∧ tok_ok t'.
Proof.
  intros Hc Hsig. destruct (operator_at (c :: r1)) as [[[key cmp] v]|] eqn:Hop.
  - unfold operator_at in Hop. destruct (break _ (c :: r1)) as [w past] eqn:Eb. apply break_spec in Eb as (Er & Hw & _).
    case_bool_decide as Hne; [done|]. destruct (key_of w) as [key'|] eqn:Ek; cbn [mbind option_bind] in Hop; [|done].
    destruct (cmp_at past) as [[cmp' v']|] eqn:Ec; cbn [mbind option_bind] in Hop; [|done]. injection Hop as -> -> ->.
    apply cmp_at_spec in Ec as [-> Hs]. destruct (value_items v) as [[items n] o] eqn:Ev.
    rewrite Er, (lex_word_operator len w key cmp v items n o) by done. cbn zeta.
    destruct (value_items_spec _ _ _ _ Ev) as (v0 & -> & Hne' & Hu & _).
    destruct (filter_of key cmp items) as [f|] eqn:Ef; intros [= <- <- <-]; (split; [exists (w ++ txt (cmp_str cmp) ++ v0); by rewrite <-!app_assoc; destruct w|]).
    + eexists. split; [done|]. cbn. by eapply filter_leaf, filter_parsed.
    + eexists. split; [done|]. by eapply raw_leaf.
  - destruct (bare false (c :: r1)) as [t0 next0] eqn:Eb. destruct (lex_word_bare len _ _ _ Hop Eb) as [ns0 ->].
    intros [= <- <- <-]. pose proof (bare_spec _ _ _ Eb) as (E & Ht & Hn). split.
    + exists t0. split; [|done]. intros ->. destruct next0 as [|d next0]; [done|]. injection E as -> ->. cbn in Hn. congruence.
    + eexists. split; [done|]. case_bool_decide; [done|]. by eapply word_leaf.
Qed.

Lemma empty_name_leaf c : c = 35 ∨ c = 64 → leaf_ok (Term [c; QUOTE; QUOTE]).
Proof.
  intros Hc. split; [done|]. split; [by destruct Hc as [-> | ->]|]. intros len k _. cbn [show_expr].
  assert (raw_term ([c; QUOTE; QUOTE] ++ k) k false = Term [c; QUOTE; QUOTE]) as <- by (unfold raw_term; by rewrite raw_take, app_nil_r).
  exists [notice BadValue (Z.of_nat (len - length ([c; QUOTE; QUOTE] ++ k))) (Z.of_nat (len - length k))].
  by destruct Hc as [-> | ->].
Qed.

Lemma lex_sigil_spec c r1 :
  c = 35 ∨ c = 64 → match r1 with n :: _ => negb (ends_bare n) || (n =? QUOTE) | [] => false end = true →
  ∃ name next (open : bool),
    match r1 with
    | n :: r2 => if n =? QUOTE then let '(t, x, closed) := quoted r2 in (t, x, negb closed)
                 else let '(t, x) := bare false r1 in (t, x, false)
    | [] => ([], [], false)
    end = (name, next, open) ∧ (∃ v, r1 = v ++ next) ∧ unquoted name ∧
    (name = [] → raw_term (c :: r1) next open = Term [c; QUOTE; QUOTE]).
Proof.
  intros Hc Hn. destruct r1 as [|n r2]; [done|]. destruct (Z.eqb_spec n QUOTE) as [->|Hq].
  - destruct (quoted r2) as [[t x] closed] eqn:Eq. apply quoted_spec in Eq as [Ht Eq]. exists t, x, (negb closed). split; [done|].
    destruct closed; [subst r2|destruct Eq as [-> ->]].
    + split; [exists (QUOTE :: t ++ [QUOTE]); cbn [app]; by rewrite <-app_assoc|]. split; [done|]. intros ->. cbn [app].
      unfold raw_term. pose proof (raw_take [c; QUOTE; QUOTE] x) as E. cbn [app] in E. by rewrite E, app_nil_r.
    + split; [exists (QUOTE :: t); by rewrite app_nil_r|]. split; [done|]. by intros ->.
  - rewrite orb_false_r in Hn. apply negb_true_iff in Hn. destruct (bare false (n :: r2)) as [t x] eqn:Eb.
    apply bare_spec in Eb as (E & Ht & Hx). exists t, x, false. split; [done|]. split; [by exists t|]. split.
    + eapply Forall_impl; [exact Ht|]. intros d Hd. apply ends_bare_false in Hd as (_ & Hd & _). by apply Z.eqb_neq.
    + intros ->. destruct x as [|d x]; [done|]. injection E as <- <-. cbn in Hx. congruence.
Qed.

Lemma lex_one_spec len c r1 t ns next :
  lex_one len (c :: r1) = (t, ns, next) →
  (∃ v, v ≠ [] ∧ c :: r1 = v ++ next) ∧ match t with Some t' => tok_ok t' | None => True end.
Proof.
  assert (∀ v : chars, r1 = v ++ next → ∃ v, v ≠ [] ∧ c :: r1 = v ++ next) as Hone by (intros v ->; by exists (c :: v)).
  unfold lex_one. destruct (is_ws c) eqn:Hw; [intros [= <- <- <-]; split; [by apply (Hone [])|done]|].
  destruct (c =? LPAREN) eqn:Hl; [intros [= <- <- <-]; split; [by apply (Hone [])|done]|].
  destruct (c =? RPAREN) eqn:Hr; [intros [= <- <- <-]; split; [by apply (Hone [])|done]|].
  destruct (c =? QUOTE) eqn:Hq.
  { destruct (quoted r1) as [[t0 x] closed] eqn:Eq. apply quoted_spec in Eq as [Ht Eq]. cbn zeta.
    assert (∃ v, r1 = v ++ x) as [v Hv].
    { destruct closed; [exists (t0 ++ [QUOTE]); by rewrite <-app_assoc|]. destruct Eq as [-> ->]. exists t0. by rewrite app_nil_r. }
    case_bool_decide as Ht0; intros [= <- <- <-]; (split; [by apply (Hone v)|]); [done|].
    cbn. apply phrase_leaf; [done| |apply trim_idemp]. destruct (trim_cut t0) as (a & b & E). unfold unquoted in Ht.
    rewrite E, !Forall_app in Ht. apply Ht. }
  assert (ends_bare c = false) as Hc by (unfold ends_bare, is_paren; by rewrite Hw, Hq, Hl, Hr).
  destruct ((c =? 45) && _) eqn:Hminus; [intros [= <- <- <-]; split; [by apply (Hone [])|done]|].
  destruct (((c =? 35) || (c =? 64)) && _) eqn:Hsig.
  { apply andb_true_iff in Hsig as [Hcs Hn]. rewrite orb_true_iff, !Z.eqb_eq in Hcs.
    destruct (lex_sigil_spec c r1 Hcs Hn) as (name & x & open & -> & [v Hv] & Hu & Hraw).
    case_bool_decide as Hname; intros [= <- <- <-]; (split; [by apply (Hone v)|]); cbn.
    - rewrite Hraw by done. by apply empty_name_leaf.
    - by eapply (shorthand_leaf c name). }
  destruct r1 as [|d r2]; [by intros [? (t' & -> & ?)]%lex_word_spec|].
  destruct ((c =? 33) && bool_decide (49 ≤ d ≤ 53) && _) eqn:Hp; [|by intros [? (t' & -> & ?)]%lex_word_spec].
  intros [= <- <- <-]. rewrite !andb_true_iff, bool_decide_eq_true in Hp. split; [by apply (Hone [d])|]. cbn. apply priority_leaf. tauto.
Qed.

(** ** The whole input *)

Lemma lex_loop_fuel f f' len r : (length r ≤ f)%nat → (length r ≤ f')%nat → lex_loop f len r = lex_loop f' len r.
Proof.
  revert f' r. induction f as [|f IH]; intros f' [|c r] Hf Hf'; [by destruct f'|simpl in Hf; lia|by destruct f'|].
  destruct f' as [|f']; [simpl in Hf'; lia|]. cbn [lex_loop]. destruct (lex_one len (c :: r)) as [[t ns] next] eqn:E.
  apply lex_one_spec in E as [(v & Hv & E) _]. assert (length next < length (c :: r))%nat.
  { rewrite E, length_app. destruct v; [done|]. simpl. lia. }
  simpl in *. by rewrite (IH f') by lia.
Qed.

(** The tokens of the input from one index on. *)
Definition tokens (len : nat) (r : chars) : list Token := (lex_loop (length r) len r).1.
Definition option_token (t : option Tok) (start : nat) : list Token := match t with Some t => [mkToken t start] | None => [] end.

Lemma tokens_eq len c r t ns next :
  lex_one len (c :: r) = (t, ns, next) → tokens len (c :: r) = option_token t (len - length (c :: r)) ++ tokens len next.
Proof.
  intros E. unfold tokens. cbn [length lex_loop]. rewrite E. apply lex_one_spec in E as [(v & Hv & E) _].
  rewrite (lex_loop_fuel (length r) (length next)).
  - destruct (lex_loop _ len next) as [ts ns']. by destruct t.
  - assert (length (c :: r) = length (v ++ next)) as El by (by rewrite E). rewrite length_app in El. destruct v; [done|]. simpl in El. lia.
  - done.
Qed.

Lemma tokens_ok len r : Forall (λ t, tok_ok (tok t)) (tokens len r).
Proof.
  induction r as [[|c r] IH] using (induction_ltof1 _ (@length Z)); [constructor|].
  destruct (lex_one len (c :: r)) as [[t ns] next] eqn:E. rewrite (tokens_eq _ _ _ _ _ _ E).
  apply lex_one_spec in E as [(v & Hv & E) Ht]. apply Forall_app. split; [destruct t; by repeat constructor|].
  apply IH. unfold ltof. rewrite E, length_app. destruct v; [done|]. simpl. lia.
Qed.
End round.
