(* ===== verification/SearchParse.v ===== *)
(** * Parsing the canonical text

    The shape of the queries the parser makes, the tokens of their canonical
    text, and the parser's run on those tokens; how much fuel a run takes; and
    the properties of the whole. *)

From Stdlib Require Import ZArith Lia String.
From stdpp Require Import base tactics decidable option list strings.
From S2P Require Import Prelude Bytes Calendar Rrule Search SearchLex SearchLeaf SearchRound.
Open Scope Z_scope.

Section parse.
Context `{JiffLaws, !IsoDates}.

(** ** Expressions *)

Lemma Expr_rect' (P : Expr → Prop) :
  (∀ e, is_leaf e = true → P e) → (∀ e, P e → P (Not e)) →
  (∀ es, Forall P es → P (Or es)) → (∀ es, Forall P es → P (Group es)) → ∀ e, P e.
Proof.
  intros Hleaf Hnot Hor Hgroup. fix IH 1. intros [t|t|f|e|es|es].
  1-3: by apply Hleaf.
  - apply Hnot, IH.
  - apply Hor. induction es; constructor; auto.
  - apply Hgroup. induction es; constructor; auto.
Qed.

(** Where the grammar wants an expression: a clause, an alternative, an atom. *)
Inductive Level := LItem | LUnary | LAtom.
#[export] Instance Level_eq_dec : EqDecision Level.
Proof using. solve_decision. Defined.

Fixpoint shape (l : Level) (d : nat) (e : Expr) : Prop :=
  match e with
  | Term _ | Phrase _ | Filtered _ => leaf_ok e
  | Not a => l ≠ LAtom ∧ shape LAtom d a
  | Or es => l = LItem ∧ (2 <= length es)%nat ∧ foldr (λ e P, shape LUnary d e ∧ P) True es
  | Group es => (d < MAX_DEPTH)%nat ∧ es ≠ [] ∧ foldr (λ e P, shape LItem (S d) e ∧ P) True es
  end.
Lemma foldr_Forall {A} (P : A → Prop) l : foldr (λ e Q, P e ∧ Q) True l ↔ Forall P l.
Proof. induction l as [|x l IH]; cbn; [split; [constructor|done]|]. by rewrite IH, Forall_cons. Qed.

(** The leaves of an expression, and what they spend. *)
Fixpoint count_leaves (e : Expr) : Z :=
  match e with
  | Not a => count_leaves a
  | Or es | Group es => foldr (λ e n, count_leaves e + n) 0 es
  | _ => 1
  end.
Fixpoint text_spent (e : Expr) : Z :=
  match e with
  | Not a => text_spent a
  | Or es | Group es => foldr (λ e n, text_spent e + n) 0 es
  | leaf => leaf_cost leaf
  end.
Definition leaves_of (es : list Expr) : Z := foldr (λ e n, count_leaves e + n) 0 es.
Definition spent_of (es : list Expr) : Z := foldr (λ e n, text_spent e + n) 0 es.

Fixpoint toks_of (e : Expr) : list Tok :=
  match e with
  | Not a => TMinus :: toks_of a
  | Or es => join_chars [TOr] (toks_of <$> es)
  | Group es => TLParen :: concat (toks_of <$> es) ++ [TRParen]
  | leaf => [TLeaf leaf]
  end.

(** ** Cutting the canonical text *)

Definition lexes (e : Expr) : Prop :=
  starts_token (show_expr e) ∧
  ∀ len k, boundary k → ∃ ts, tokens len (show_expr e ++ k) = ts ++ tokens len k ∧ tok <$> ts = toks_of e.

Lemma leaf_lexes e : leaf_ok e → lexes e.
Proof.
  intros (Hl & Hs & Hb). split; [done|]. intros len k Hk. destruct (Hb len k Hk) as [ns E].
  destruct (show_expr e) as [|c t]; [done|]. cbn [app] in *. rewrite (tokens_eq _ _ _ _ _ _ E). eexists. split; [done|].
  by destruct e.
Qed.

Lemma tokens_space len x : tokens len (32 :: x) = tokens len x.
Proof. by rewrite (tokens_eq len 32 x None [] x). Qed.
Lemma tokens_or len x : ∃ ts, tokens len (txt " OR " ++ x) = ts ++ tokens len x ∧ tok <$> ts = [TOr].
Proof.
  change (txt " OR " ++ x) with (32 :: txt "OR" ++ 32 :: x). rewrite tokens_space. change (txt "OR" ++ 32 :: x) with (79 :: 82 :: 32 :: x).
  rewrite (tokens_eq len 79 (82 :: 32 :: x) (Some TOr) [] (32 :: x)) by reflexivity. rewrite tokens_space. by eexists.
Qed.

Lemma lex_join sep septoks es len k :
  (∀ x, ∃ ts, tokens len (sep ++ x) = ts ++ tokens len x ∧ tok <$> ts = septoks) →
  (∀ x, boundary (sep ++ x)) → Forall lexes es → es ≠ [] → boundary k →
  ∃ ts, tokens len (join_chars sep (show_expr <$> es) ++ k) = ts ++ tokens len k ∧ tok <$> ts = join_chars septoks (toks_of <$> es).
Proof.
  intros Hsep Hb Hall Hne Hk. induction Hall as [|e es He Hall IH]; [done|]. destruct (decide (es = [])) as [->|Hes].
  - by apply He.
  - cbn [fmap list_fmap]. rewrite !join_chars_cons by (by destruct es). rewrite <-!app_assoc.
    destruct IH as (ts & E & Ht); [done|]. destruct (Hsep (join_chars sep (show_expr <$> es) ++ k)) as (ts1 & E1 & Ht1).
    destruct (proj2 He len (sep ++ join_chars sep (show_expr <$> es) ++ k) (Hb _)) as (ts0 & E0 & Ht0).
    exists (ts0 ++ ts1 ++ ts). rewrite E0, E1, E, <-!app_assoc. split; [done|]. rewrite !fmap_app. congruence.
Qed.
Lemma join_nil {A} (l : list (list A)) : join_chars [] l = concat l.
Proof.
  induction l as [|x l IH]; [done|]. cbn [concat]. destruct (decide (l = [])) as [->|Hl]; [cbn; by rewrite app_nil_r|].
  rewrite join_chars_cons by done. cbn [app]. by rewrite IH.
Qed.

Lemma starts_join sep es : Forall lexes es → es ≠ [] → starts_token (join_chars sep (show_expr <$> es)).
Proof.
  intros Hall Hne. destruct Hall as [|e es [He _] _]; [done|]. cbn [fmap list_fmap]. destruct (decide (es = [])) as [->|Hes]; [done|].
  rewrite join_chars_cons by (by destruct es). by destruct (show_expr e).
Qed.

Lemma lex_items es len k : Forall lexes es → es ≠ [] → boundary k →
  ∃ ts, tokens len (join_chars (txt " ") (show_expr <$> es) ++ k) = ts ++ tokens len k ∧ tok <$> ts = concat (toks_of <$> es).
Proof.
  intros Hall Hne Hk. rewrite <-join_nil. apply lex_join; [|by left|done..].
  intros x. exists []. split; [apply (tokens_space len x)|done].
Qed.

Lemma lex_expr e l d : shape l d e → lexes e.
Proof.
  revert l d. induction e as [e He|e IH|es IH|es IH] using Expr_rect'; intros l d Hs.
  - apply leaf_lexes. by destruct e.
  - destruct Hs as [_ Hs]. apply IH in Hs as [Hst Hlex]. split; [done|]. intros len k Hk. cbn [show_expr].
    destruct (Hlex len k Hk) as (ts & E & Ht). destruct (show_expr e) as [|c t]; [done|]. destruct Hst as [Hw Hr].
    change ((txt "-" ++ c :: t) ++ k) with (45 :: c :: t ++ k).
    rewrite (tokens_eq len 45 (c :: t ++ k) (Some TMinus) [] (c :: t ++ k)).
    + cbn [app] in E. rewrite E. eexists (_ :: ts). split; [done|]. cbn. by rewrite Ht.
    + unfold lex_one. cbn - [Z.eqb is_ws RPAREN]. rewrite Hw, (proj2 (Z.eqb_neq c RPAREN) Hr). reflexivity.
  - destruct Hs as (_ & Hlen & Hs). rewrite foldr_Forall in Hs.
    assert (Forall lexes es) as Hall by (rewrite !Forall_forall in *; eauto).
    assert (es ≠ []) as Hne by (by destruct es; [simpl in Hlen; lia|]).
    split; [by apply starts_join|]. intros len k Hk. cbn [show_expr toks_of].
    apply lex_join; [apply tokens_or|by left|done..].
  - destruct Hs as (_ & Hne & Hs). rewrite foldr_Forall in Hs.
    assert (Forall lexes es) as Hall by (rewrite !Forall_forall in *; eauto).
    split; [done|]. intros len k Hk. cbn [show_expr toks_of app]. rewrite <-app_assoc. cbn [app].
    rewrite (tokens_eq len LPAREN _ (Some TLParen) [] (join_chars (txt " ") (show_expr <$> es) ++ RPAREN :: k)) by reflexivity.
    destruct (lex_items es len (RPAREN :: k) Hall Hne) as (ts & E & Ht); [by right|].
    rewrite E, (tokens_eq len RPAREN k (Some TRParen) [] k) by reflexivity.
    generalize (len - length (LPAREN :: join_chars (txt " ") (show_expr <$> es) ++ RPAREN :: k))%nat, (len - length (RPAREN :: k))%nat.
    intros a b. exists (mkToken TLParen a :: ts ++ [mkToken TRParen b]). cbn [option_token app fmap list_fmap tok].
    rewrite <-app_assoc. split; [done|]. by rewrite fmap_app, Ht.
Qed.
End parse.
