(* ===== verification/SearchGrammar.v ===== *)
(** * The parser's runs

    More fuel changes nothing, and [enough_fuel] is enough; the parser's run
    over the tokens of an expression builds that expression; and whatever it
    builds has the grammar's shape, within the limits. *)

From Stdlib Require Import ZArith Lia String.
From stdpp Require Import base tactics decidable option list strings.
From S2P Require Import Prelude Bytes Calendar Rrule Search SearchLex SearchLeaf SearchRound SearchParse.
Open Scope Z_scope.

Section grammar.
Context `{JiffLaws, !IsoDates} (len : nat).

(** One step of each of the parser's functions. *)
Lemma and_expr_S f d p :
  and_expr len (S f) d p =
      match stop p, peek p with
      | Some _, _ | None, None => Some ([], p)
      | None, Some TRParen =>
          if decide (0 < d)%nat then Some ([], p)
          else let at_ := Z.of_nat (start_of len p) in
               and_expr len f d (advance (push_notice (notice StrayParen at_ (at_ + 1)) p))
      | None, Some _ =>
          '(e, p1) ← or_expr len f d p;
          '(es, p2) ← and_expr len f d p1;
          Some (option_list e ++ es, p2)
      end.
Proof. done. Qed.
Lemma or_expr_S f d p :
  or_expr len (S f) d p =
      '(e, p1) ← unary len f d p;
      '(items, p2) ← or_rest len f d (option_list e) p1;
      Some (match items with [] => None | [e] => Some e | _ => Some (Or items) end, p2).
Proof. done. Qed.
Lemma or_rest_S f d items p :
  or_rest len (S f) d items p =
      match stop p, peek p with
      | None, Some TOr =>
          match peek (advance p), items with
          | None, _ | Some TRParen, _ | _, [] => Some (items, p)
          | _, _ =>
              '(e, p1) ← unary len f d (advance p);
              or_rest len f d (items ++ option_list e) p1
          end
      | _, _ => Some (items, p)
      end.
Proof. done. Qed.
Lemma unary_S f d p :
  unary len (S f) d p =
      let '(negated, ts) := minuses (toks p) false in
      '(a, p1) ← atom len f d (mkParser ts (leaves p) (spent p) (stop p) (p_notices p));
      Some (match a with Some a => Some (if (negated : bool) then Not a else a) | None => None end, p1).
Proof. done. Qed.
Lemma atom_S f d p :
  atom len (S f) d p =
      match peek p with
      | None => Some (None, p)
      | Some (TLeaf e) => Some (leaf len e p)
      | Some TOr =>
          let at_ := Z.of_nat (start_of len p) in
          Some (leaf len (Phrase (txt "OR")) (push_notice (notice LiteralOr at_ (at_ + 2)) p))
      | Some TLParen =>
          let open := start_of len p in
          if decide (MAX_DEPTH <= d)%nat then Some (None, stop_for len TooDeep p)
          else
            '(items, p1) ← and_expr len f (S d) (advance p);
            let p2 := match stop p1 with
              | Some _ => p1
              | None => match peek p1 with
                        | Some TRParen => advance p1
                        | _ => push_notice (notice UnclosedGroup (Z.of_nat open) (Z.of_nat len)) p1
                        end
              end in
            Some (match items with [] => None | _ => Some (Group items) end, p2)
      | Some TMinus | Some TRParen => Some (None, p)
      end.
Proof. done. Qed.

(** Takes apart a successful bind, and replays it with more fuel. *)
Ltac replay :=
  match goal with
  | Hf : ?m ≫= _ = Some _ |- _ =>
      let q := fresh "q" in let E := fresh "E" in
      destruct m as [q|] eqn:E; [destruct q as [? ?]|]; cbn [mbind option_bind] in Hf; [|discriminate Hf]
  end.

Definition more_fuel (f f' : nat) : Prop :=
  (∀ d p r, and_expr len f d p = Some r → and_expr len f' d p = Some r) ∧
  (∀ d p r, or_expr len f d p = Some r → or_expr len f' d p = Some r) ∧
  (∀ d es p r, or_rest len f d es p = Some r → or_rest len f' d es p = Some r) ∧
  (∀ d p r, unary len f d p = Some r → unary len f' d p = Some r) ∧
  (∀ d p r, atom len f d p = Some r → atom len f' d p = Some r).

Lemma parser_mono f f' : (f ≤ f')%nat → more_fuel f f'.
Proof.
  revert f'. induction f as [|f IH]; intros [|f'] Hle; [by split_and!|by split_and!|lia|].
  destruct (IH f') as (IHa & IHo & IHr & IHu & IHt); [lia|]. split_and!.
  - intros d p r. rewrite !and_expr_S. destruct (stop p); [done|]. destruct (peek p) as [[]|]; try done.
    all: try (case_decide; [done|]; apply IHa).
    all: intros Hf; do 2 replay; by rewrite (IHo _ _ _ E); cbn [mbind option_bind]; rewrite (IHa _ _ _ E0).
  - intros d p r. rewrite !or_expr_S. intros Hf. do 2 replay. rewrite (IHu _ _ _ E). cbn [mbind option_bind]. by rewrite (IHr _ _ _ _ E0).
  - intros d es p r. rewrite !or_rest_S. destruct (stop p); [done|]. destruct (peek p) as [[]|]; try done.
    destruct (peek (advance p)) as [[]|]; try done; destruct es; try done;
      intros Hf; replay; rewrite (IHu _ _ _ E); cbn [mbind option_bind]; by apply IHr.
  - intros d p r. rewrite !unary_S. destruct (minuses _ _) as [neg ts]. intros Hf. replay. by rewrite (IHt _ _ _ E).
  - intros d p r. rewrite !atom_S. cbn zeta. destruct (peek p) as [[]|]; try done. case_decide; [done|]. intros Hf. replay.
    by rewrite (IHa _ _ _ E).
Qed.

(** ** Enough fuel *)

Definition size (p : Parser) : nat := length (toks p).

(** What each function needs, and what it leaves. *)
Definition runs (f : nat) : Prop :=
  (∀ d p, (4 * size p + 4 <= f)%nat → ∃ r q, and_expr len f d p = Some (r, q) ∧ (size q <= size p)%nat) ∧
  (∀ d p, (4 * size p + 3 <= f)%nat → ∃ r q, or_expr len f d p = Some (r, q) ∧ (size q <= size p)%nat ∧
     (stop q = None → match peek p with None | Some TRParen => True | _ => (size q < size p)%nat end)) ∧
  (∀ d es p, (4 * size p + 1 <= f)%nat → ∃ r q, or_rest len f d es p = Some (r, q) ∧ (size q <= size p)%nat) ∧
  (∀ d p, (4 * size p + 2 <= f)%nat → ∃ r q, unary len f d p = Some (r, q) ∧ (size q <= size p)%nat ∧
     (stop q = None → match peek p with None | Some TRParen => True | _ => (size q < size p)%nat end)) ∧
  (∀ d p, (4 * size p + 1 <= f)%nat → ∃ r q, atom len f d p = Some (r, q) ∧ (size q <= size p)%nat ∧
     (stop q = None → match peek p with None | Some TRParen | Some TMinus => True | _ => (size q < size p)%nat end)).

Lemma size_advance p t : peek p = Some t → (size (advance p) < size p)%nat.
Proof. unfold peek, size, advance. cbn [toks]. destruct (toks p); [done|]. simpl. lia. Qed.
Lemma leaf_size e p t r q : peek p = Some t → leaf len e p = (r, q) →
  (size q <= size p)%nat ∧ (stop q = None → (size q < size p)%nat).
Proof.
  intros Hp. apply size_advance in Hp. unfold leaf. destruct (MAX_CLAUSES <=? leaves p); [intros [= <- <-]; cbn; split; [done|done]|].
  destruct (MAX_TEXT <? _); intros [= <- <-]; [by split|]. unfold size, advance in *. cbn [toks] in *. split; [lia|done].
Qed.
#[local] Instance is_minus_dec (t : option Tok) : Decision (t = Some TMinus).
Proof. destruct t as [[]|]; by (left + right). Defined.
Lemma minuses_spec ts neg : ∃ b ts', minuses ts neg = (b, ts') ∧ (length ts' <= length ts)%nat ∧
  (tok <$> head ts' ≠ Some TMinus) ∧ (tok <$> head ts = Some TMinus → (length ts' < length ts)%nat) ∧
  (tok <$> head ts ≠ Some TMinus → ts' = ts).
Proof.
  revert neg. induction ts as [|[t st] ts IH]; intros neg; [by eexists _, _|]. destruct t; try by (eexists _, _; split_and!; [reflexivity|done..]).
  destruct (IH (negb neg)) as (b & ts' & E & Hl & Hh & _). exists b, ts'. split_and!; [done|simpl; lia|done| |done].
  intros _. simpl. lia.
Qed.

Lemma or_rest_runs f d es p : runs f → (4 * size p + 1 <= S f)%nat →
  ∃ r q, or_rest len (S f) d es p = Some (r, q) ∧ (size q <= size p)%nat.
Proof.
  intros (_ & _ & IHr & IHu & _) Hf. rewrite or_rest_S. destruct (stop p); [by eexists _, _|].
  destruct (peek p) as [[]|] eqn:Hp; try by eexists _, _. apply size_advance in Hp.
  assert (∀ es, ∃ r q, ('(e, p1) ← unary len f d (advance p); or_rest len f d (es ++ option_list e) p1) = Some (r, q) ∧ (size q <= size p)%nat)
    as Hgo; [|destruct (peek (advance p)) as [[]|]; try (by eexists _, _); (destruct es; [by eexists _, _|apply Hgo])].
  intros es'. destruct (IHu d (advance p)) as (e & p1 & -> & H1' & _); [lia|]. cbn [mbind option_bind].
  destruct (IHr d (es' ++ option_list e) p1) as (r & q & -> & H2'); [lia|]. eexists _, _. split; [done|]. lia.
Qed.

Lemma parser_runs f : runs f.
Proof.
  induction f as [|f IH]; [by split_and!; intros; lia|]. pose proof IH as (IHa & IHo & IHr & IHu & IHt). split_and!.
  - intros d p Hf. rewrite and_expr_S. destruct (stop p); [by eexists _, _|].
    assert (∀ t, peek p = Some t → t ≠ TRParen →
      ∃ r q, ('(e, p1) ← or_expr len f d p; '(es, p2) ← and_expr len f d p1; Some (option_list e ++ es, p2)) = Some (r, q) ∧ (size q <= size p)%nat)
      as Hgo.
    { intros t Hp Ht. destruct (IHo d p) as (e & p1 & -> & H1' & H2'); [lia|]. cbn [mbind option_bind].
      destruct (stop p1) as [st|] eqn:Hst.
      - exists (option_list e ++ []), p1. split; [|done]. destruct f as [|f]; [lia|]. by rewrite and_expr_S, Hst.
      - assert (size p1 < size p)%nat by (specialize (H2' eq_refl); rewrite Hp in H2'; by destruct t).
        destruct (IHa d p1) as (r & q & -> & H3'); [lia|]. eexists _, _. split; [done|]. lia. }
    destruct (peek p) as [[]|] eqn:Hp; [by eapply Hgo| |by eapply Hgo..|by eexists _, _].
    case_decide; [by eexists _, _|]. cbn zeta. apply size_advance in Hp.
    destruct (IHa d (advance (push_notice (notice StrayParen (Z.of_nat (start_of len p)) (Z.of_nat (start_of len p) + 1)) p))) as (r & q & -> & Hq).
    { change (4 * size (advance p) + 4 <= f)%nat. lia. }
    eexists _, _. split; [done|]. change (size q <= size (advance p))%nat in Hq. lia.
  - intros d p Hf. rewrite or_expr_S. destruct (IHu d p) as (e & p1 & -> & H1' & H2'); [lia|]. cbn [mbind option_bind].
    destruct (IHr d (option_list e) p1) as (r & q & E & H3'); [lia|]. rewrite E. cbn [mbind option_bind].
    eexists _, _. split; [done|]. split; [lia|]. intros Hq.
    assert (stop p1 = None) as Hs.
    { destruct f as [|f]; [done|]. rewrite or_rest_S in E. destruct (stop p1) eqn:Hs; [injection E as <- <-; congruence|done]. }
    specialize (H2' Hs). destruct (peek p) as [[]|]; lia || done.
  - intros d es p Hf. by apply or_rest_runs.
  - intros d p Hf. rewrite unary_S. destruct (minuses_spec (toks p) false) as (neg & ts & -> & Hl & Hh & Hlt & Heq).
    set (p0 := mkParser ts (leaves p) (spent p) (stop p) (p_notices p)). change (length ts) with (size p0) in *.
    change (length (toks p)) with (size p) in *. destruct (IHt d p0) as (a & q & -> & H1' & H2'); [lia|]. cbn [mbind option_bind].
    eexists _, _. split; [done|]. split; [lia|]. intros Hq. specialize (H2' Hq).
    destruct (decide (peek p = Some TMinus)) as [Hm|Hm]; [rewrite Hm; specialize (Hlt Hm); lia|].
    specialize (Heq Hm). assert (peek p0 = peek p) as E by (unfold peek, p0; cbn [toks]; by rewrite Heq).
    rewrite E in H2'. destruct (peek p) as [[]|]; lia || done.
  - intros d p Hf. rewrite atom_S. cbn zeta. destruct (peek p) as [[| | | |e]|] eqn:Hp; try by (eexists _, _; split_and!).
    + pose proof (size_advance _ _ Hp) as Ha. case_decide; [by eexists _, _; split_and!|].
      destruct (IHa (S d) (advance p)) as (es & p1 & -> & H1'); [lia|]. cbn [mbind option_bind]. eexists _, _. split; [done|].
      destruct (stop p1) as [st|] eqn:Hst.
      * split; [lia|]. by rewrite Hst.
      * assert (size (match peek p1 with Some TRParen => advance p1
          | _ => push_notice (notice UnclosedGroup (Z.of_nat (start_of len p)) (Z.of_nat len)) p1 end) <= size p1)%nat.
        { destruct (peek p1) as [[]|] eqn:Hp1; try done. apply size_advance in Hp1. lia. }
        split; lia.
    + pose proof (leaf_size (Phrase (txt "OR")) (push_notice (notice LiteralOr (Z.of_nat (start_of len p)) (Z.of_nat (start_of len p) + 2)) p) TOr) as Hl.
      destruct (leaf len (Phrase (txt "OR")) _) as [r q]. eexists _, _. split; [done|]. by apply (Hl r q).
    + pose proof (leaf_size e p (TLeaf e)) as Hl. destruct (leaf len e p) as [r q]. eexists _, _. split; [done|]. by apply (Hl r q).
Qed.

Lemma enough_fuel_runs ts p d : size p = length ts → ∃ r q, and_expr len (enough_fuel ts) d p = Some (r, q).
Proof.
  intros Hs. destruct (parser_runs (enough_fuel ts)) as [Ha _]. destruct (Ha d p) as (r & q & E & _); [|by eexists _, _].
  unfold enough_fuel. lia.
Qed.

(** ** The run over the tokens of an expression *)

(** [p'] is [p] past some tokens, having read [n] leaves of [t] characters. *)
Record past (p : Parser) (rest : list Token) (n t : Z) (p' : Parser) : Prop := {
  past_stop : stop p' = None;
  past_toks : toks p' = rest;
  past_leaves : leaves p' = leaves p + n;
  past_spent : spent p' = spent p + t;
}.
(** [p] is about to read the tokens [k], and has room for them. *)
Record ahead (p : Parser) (ts : list Token) (rest : list Token) (k : list Tok) (n t : Z) : Prop := {
  ahead_stop : stop p = None;
  ahead_toks : toks p = ts ++ rest;
  ahead_kinds : tok <$> ts = k;
  ahead_leaves : leaves p + n ≤ MAX_CLAUSES;
  ahead_spent : spent p + t ≤ MAX_TEXT;
}.

Definition next_tok (rest : list Token) : option Tok := tok <$> head rest.

Definition atom_parses (d : nat) (e : Expr) : Prop :=
  ∀ p ts rest, ahead p ts rest (toks_of e) (count_leaves e) (text_spent e) →
  ∃ f p', atom len f d p = Some (Some e, p') ∧ past p rest (count_leaves e) (text_spent e) p'.
Definition unary_parses (d : nat) (e : Expr) : Prop :=
  ∀ p ts rest, ahead p ts rest (toks_of e) (count_leaves e) (text_spent e) →
  ∃ f p', unary len f d p = Some (Some e, p') ∧ past p rest (count_leaves e) (text_spent e) p'.
Definition item_parses (d : nat) (e : Expr) : Prop :=
  ∀ p ts rest, ahead p ts rest (toks_of e) (count_leaves e) (text_spent e) → next_tok rest ≠ Some TOr →
  ∃ f p', or_expr len f d p = Some (Some e, p') ∧ past p rest (count_leaves e) (text_spent e) p'.

Lemma unary_mono f f' d p r : (f <= f')%nat → unary len f d p = Some r → unary len f' d p = Some r.
Proof. intros Hf. apply (parser_mono f f' Hf). Qed.
Lemma or_rest_mono f f' d es p r : (f <= f')%nat → or_rest len f d es p = Some r → or_rest len f' d es p = Some r.
Proof. intros Hf. apply (parser_mono f f' Hf). Qed.
Lemma or_expr_mono f f' d p r : (f <= f')%nat → or_expr len f d p = Some r → or_expr len f' d p = Some r.
Proof. intros Hf. apply (parser_mono f f' Hf). Qed.
Lemma and_expr_mono f f' d p r : (f <= f')%nat → and_expr len f d p = Some r → and_expr len f' d p = Some r.
Proof. intros Hf. apply (parser_mono f f' Hf). Qed.

(** What an expression's tokens start with. *)
Definition opens (t : Tok) : Prop := match t with TRParen | TOr => False | _ => True end.
Lemma toks_head e l d : shape l d e → ∃ t k, toks_of e = t :: k ∧ opens t ∧ (l = LAtom → t ≠ TMinus).
Proof.
  revert l d. induction e as [e He|e IH|es IH|es IH] using Expr_rect'; intros l d Hs.
  - destruct e; try done; by eexists _, _.
  - destruct Hs as [Hl _]. by eexists TMinus, _.
  - destruct Hs as (-> & Hlen & Hs). apply foldr_Forall in Hs. destruct es as [|e es]; [simpl in Hlen; lia|].
    apply Forall_cons in Hs as [He _]. apply Forall_cons in IH as [IH _]. destruct (IH _ _ He) as (t & k & E & Ht & _).
    cbn [toks_of fmap list_fmap]. destruct es as [|e2 es]; cbn [fmap list_fmap join_chars]; rewrite E; by eexists _, _.
  - by eexists TLParen, _.
Qed.

Lemma peek_ahead p ts rest t k n x : ahead p ts rest (t :: k) n x → peek p = Some t.
Proof.
  intros [_ Ht Hk _ _]. unfold peek. rewrite Ht. destruct ts as [|a ts]; [done|]. cbn in Hk |- *. by injection Hk as ->.
Qed.

Lemma leaf_parses d e : is_leaf e = true → atom_parses d e.
Proof.
  intros He p ts rest Ha. assert (toks_of e = [TLeaf e]) as Ek by (by destruct e). rewrite Ek in Ha.
  assert (count_leaves e = 1 ∧ text_spent e = leaf_cost e) as [El Et] by (by destruct e). rewrite El, Et in *.
  pose proof (peek_ahead _ _ _ _ _ _ _ Ha) as Hp. destruct Ha as [Hs Ht Hk Hl Hx]. exists 1%nat. rewrite atom_S, Hp.
  unfold leaf. rewrite (proj2 (Z.leb_gt _ _)), (proj2 (Z.ltb_ge _ _)) by lia. eexists. split; [done|]. split; cbn; [done| |done|done].
  rewrite Ht. destruct ts as [|a [|? ?]]; by try discriminate Hk.
Qed.

Lemma unary_of_atom d e : atom_parses d e → (∃ t k, toks_of e = t :: k ∧ t ≠ TMinus) → unary_parses d e.
Proof.
  intros He (t & k & Ek & Hm) p ts rest Ha. destruct (He p ts rest Ha) as (f & p' & E & Hp). exists (S f), p'. split; [|done].
  rewrite Ek in Ha. apply peek_ahead in Ha. rewrite unary_S.
  destruct (minuses_spec (toks p) false) as (b & ts' & Em & _ & _ & _ & Heq).
  assert (minuses (toks p) false = (false, toks p)) as ->.
  { unfold peek in Ha. destruct (toks p) as [|[t' st] l]; [done|]. cbn in Ha. injection Ha as ->. by destruct t. }
  assert (mkParser (toks p) (leaves p) (spent p) (stop p) (p_notices p) = p) as -> by (by destruct p). by rewrite E.
Qed.

Lemma not_parses d a : atom_parses d a → (∃ t k, toks_of a = t :: k ∧ t ≠ TMinus) → unary_parses d (Not a).
Proof.
  intros He (t & k & Ek & Hm) p ts rest [Hs Ht Hk Hl Hx]. cbn [toks_of count_leaves text_spent] in *.
  destruct ts as [|[tm st] ts]; [done|]. cbn in Hk. injection Hk as -> Hk.
  set (p0 := mkParser (ts ++ rest) (leaves p) (spent p) (stop p) (p_notices p)).
  destruct (He p0 ts rest) as (f & p' & E & [Hps Hpt Hpl Hpx]); [by split|]. exists (S f), p'. split; [|by split].
  rewrite unary_S, Ht. cbn [app minuses].
  assert (minuses (ts ++ rest) (negb false) = (true, ts ++ rest)) as ->.
  { rewrite Ek in Hk. destruct ts as [|[t' st'] l]; [done|]. cbn in Hk. injection Hk as -> _. by destruct t. }
  fold p0. by rewrite E.
Qed.

Lemma item_of_unary d e : unary_parses d e → item_parses d e.
Proof.
  intros He p ts rest Ha Hn. destruct (He p ts rest Ha) as (f & p' & E & Hp). exists (S (S f)), p'. split; [|done].
  rewrite or_expr_S, (unary_mono f (S f) _ _ _ ltac:(lia) E). cbn [mbind option_bind]. change (option_list (Some e)) with [e].
  assert (or_rest len (S f) d [e] p' = Some ([e], p')) as ->; [|done].
  rewrite or_rest_S. destruct Hp as [-> Hpt _ _]. unfold peek. rewrite Hpt. fold (next_tok rest).
  destruct (next_tok rest) as [[]|]; by try congruence.
Qed.

Lemma counts_nonneg e : 0 ≤ count_leaves e ∧ 0 ≤ text_spent e.
Proof.
  assert (∀ es, Forall (λ e, 0 ≤ count_leaves e ∧ 0 ≤ text_spent e) es → 0 ≤ leaves_of es ∧ 0 ≤ spent_of es) as Hsum.
  { induction 1 as [|x es He _ IH]; cbn; [done|]. fold (leaves_of es). fold (spent_of es). lia. }
  induction e as [e He|e IH|es IH|es IH] using Expr_rect'; [|done|by apply Hsum..].
  destruct e; try done; cbn; lia.
Qed.
Lemma sums_nonneg es : 0 ≤ leaves_of es ∧ 0 ≤ spent_of es.
Proof.
  induction es as [|e es IH]; cbn; [done|]. fold (leaves_of es). fold (spent_of es). pose proof (counts_nonneg e). lia.
Qed.

(** The alternatives after the first. *)
Definition alternatives (es : list Expr) : list Tok := concat ((λ e, TOr :: toks_of e) <$> es).
Lemma join_or e es : join_chars [TOr] (toks_of <$> e :: es) = toks_of e ++ alternatives es.
Proof.
  revert e. induction es as [|e2 es IH]; intros e; cbn [fmap list_fmap].
  - unfold alternatives. cbn. by rewrite app_nil_r.
  - rewrite join_chars_cons by done. unfold alternatives. cbn [fmap list_fmap concat app]. f_equal. f_equal. apply (IH e2).
Qed.

Lemma or_rest_parses d es acc p ts rest :
  Forall (λ e, unary_parses d e ∧ ∃ t k, toks_of e = t :: k ∧ opens t) es → acc ≠ [] →
  ahead p ts rest (alternatives es) (leaves_of es) (spent_of es) → next_tok rest ≠ Some TOr →
  ∃ f p', or_rest len f d acc p = Some (acc ++ es, p') ∧ past p rest (leaves_of es) (spent_of es) p'.
Proof.
  intros Hall. revert acc p ts. induction Hall as [|e es [He (t & k & Ek & Ht)] _ IH]; intros acc p ts Hacc [Hs Hto Hk Hl Hx] Hn.
  - exists 1%nat, p. rewrite or_rest_S, Hs, app_nil_r. destruct ts; [|done]. cbn in Hto. unfold peek. rewrite Hto. fold (next_tok rest).
    split; [by destruct (next_tok rest) as [[]|]; try congruence|]. by split; cbn; try lia.
  - unfold alternatives in Hk. cbn [fmap list_fmap concat] in Hk. fold (alternatives es) in Hk.
    destruct ts as [|[tor st] ts]; [done|]. cbn in Hk. injection Hk as -> Hk.
    assert (∃ ts1 ts2, ts = ts1 ++ ts2 ∧ tok <$> ts1 = toks_of e ∧ tok <$> ts2 = alternatives es) as (ts1 & ts2 & -> & Hk1 & Hk2).
    { apply fmap_app_inv in Hk as (ts1 & ts2 & E1 & E2 & ->). by exists ts1, ts2. }
    cbn [leaves_of spent_of foldr] in Hl, Hx. fold (leaves_of es) in Hl. fold (spent_of es) in Hx.
    assert (0 ≤ leaves_of es ∧ 0 ≤ spent_of es) as [Hle Hxe] by (apply sums_nonneg).
    destruct (He (advance p) ts1 (ts2 ++ rest)) as (f1 & p1 & E1 & [Hp1s Hp1t Hp1l Hp1x]).
    { split; cbn; [done|by rewrite Hto; cbn; rewrite <-app_assoc|done|lia|lia]. }
    destruct (IH (acc ++ [e]) p1 ts2) as (f2 & p2 & E2 & [Hp2s Hp2t Hp2l Hp2x]); [by destruct acc| |done|].
    { cbn in Hp1l, Hp1x. split; [done|done|done|lia|lia]. }
    exists (S (f1 + f2)), p2. rewrite <-app_assoc in E2. split.
    + rewrite or_rest_S, Hs. assert (peek p = Some TOr) as -> by (unfold peek; by rewrite Hto).
      assert (peek (advance p) = Some t) as ->.
      { unfold peek, advance. cbn [toks]. rewrite Hto. cbn [tail app]. rewrite Ek in Hk1. destruct ts1 as [|a ts1]; [done|]. cbn in Hk1 |- *.
        by injection Hk1 as ->. }
      destruct acc as [|a acc]; [done|].
      rewrite (unary_mono f1 (f1 + f2) _ _ _ ltac:(lia) E1). cbn [mbind option_bind]. change (option_list (Some e)) with [e].
      rewrite (or_rest_mono f2 (f1 + f2) _ _ _ _ ltac:(lia) E2). by destruct t.
    + cbn [leaves_of spent_of foldr]. fold (leaves_of es). fold (spent_of es). cbn in Hp1l, Hp1x. split; [done|done|lia|lia].
Qed.

Lemma or_parses d es :
  Forall (λ e, unary_parses d e ∧ ∃ t k, toks_of e = t :: k ∧ opens t) es → (2 <= length es)%nat → item_parses d (Or es).
Proof.
  intros Hall Hlen p ts rest [Hs Hto Hk Hl Hx] Hn. destruct Hall as [|e es [He _] Hall]; [simpl in Hlen; lia|].
  cbn [toks_of] in Hk. rewrite join_or in Hk. apply fmap_app_inv in Hk as (ts1 & ts2 & Hk1 & Hk2 & ->).
  cbn [count_leaves text_spent foldr] in *. fold (leaves_of es) in *. fold (spent_of es) in *.
  assert (0 ≤ leaves_of es ∧ 0 ≤ spent_of es) as [Hle Hxe] by (apply sums_nonneg).
  destruct (He p ts1 (ts2 ++ rest)) as (f1 & p1 & E1 & [Hp1s Hp1t Hp1l Hp1x]).
  { split; [done|by rewrite app_assoc|done|lia|lia]. }
  destruct (or_rest_parses d es [e] p1 ts2 rest Hall) as (f2 & p2 & E2 & [Hp2s Hp2t Hp2l Hp2x]); [done| |done|].
  { split; [done|done|done|lia|lia]. }
  exists (S (f1 + f2)), p2. rewrite or_expr_S, (unary_mono f1 (f1 + f2) _ _ _ ltac:(lia) E1). cbn [mbind option_bind].
  change (option_list (Some e)) with [e]. rewrite (or_rest_mono f2 (f1 + f2) _ _ _ _ ltac:(lia) E2). cbn [mbind option_bind app].
  split; [by destruct es; [simpl in Hlen; lia|]|]. split; [done|done|lia|lia].
Qed.

(** The clauses of a query or a group: the run goes through them, and on. *)
Lemma items_parse d es p ts rest :
  Forall (λ e, item_parses d e ∧ ∃ t k, toks_of e = t :: k ∧ opens t) es →
  ahead p ts rest (concat (toks_of <$> es)) (leaves_of es) (spent_of es) → next_tok rest ≠ Some TOr →
  ∃ p', past p rest (leaves_of es) (spent_of es) p' ∧
    ∀ f r q, and_expr len f d p' = Some (r, q) → ∃ f', and_expr len f' d p = Some (es ++ r, q).
Proof.
  intros Hall. revert p ts. induction Hall as [|e es [He (t & k & Ek & Ht)] Hall IH]; intros p ts [Hs Hto Hk Hl Hx] Hn.
  - exists p. destruct ts; [|done]. split; [by split; cbn; try lia|]. intros f r q E. by exists f.
  - cbn [fmap list_fmap concat] in Hk. apply fmap_app_inv in Hk as (ts1 & ts2 & Hk1 & Hk2 & ->).
    cbn [leaves_of spent_of foldr] in Hl, Hx |- *. fold (leaves_of es) in *. fold (spent_of es) in *.
    assert (0 ≤ leaves_of es ∧ 0 ≤ spent_of es) as [Hle Hxe] by (apply sums_nonneg).
    destruct (He p ts1 (ts2 ++ rest)) as (f1 & p1 & E1 & [Hp1s Hp1t Hp1l Hp1x]).
    { split; [done|by rewrite app_assoc|done|lia|lia]. }
    { destruct ts2 as [|t2 ts2]; [done|]. cbn in Hk2 |- *. destruct Hall as [|e2 es [_ (t' & k' & Ek' & Ht')] _]; [done|].
      cbn [fmap list_fmap concat] in Hk2. rewrite Ek' in Hk2. cbn in Hk2. injection Hk2 as Et _. unfold next_tok. cbn.
      rewrite <-Et. by intros [= ->]. }
    destruct (IH p1 ts2) as (p2 & [Hp2s Hp2t Hp2l Hp2x] & Hgo); [by split; try done; lia|done|].
    exists p2. split; [split; [done|done|lia|lia]|]. intros f r q E. destruct (Hgo f r q E) as [f2 E2]. exists (S (f1 + f2)).
    rewrite and_expr_S, Hs.
    assert (peek p = Some t) as ->.
    { unfold peek. rewrite Hto. rewrite Ek in Hk1. destruct ts1 as [|a ts1]; [done|]. cbn in Hk1 |- *. by injection Hk1 as ->. }
    destruct t; try done; rewrite (or_expr_mono f1 (f1 + f2) _ _ _ ltac:(lia) E1); cbn [mbind option_bind];
      by rewrite (and_expr_mono f2 (f1 + f2) _ _ _ ltac:(lia) E2).
Qed.

Lemma group_parses d es :
  (d < MAX_DEPTH)%nat → es ≠ [] → Forall (λ e, item_parses (S d) e ∧ ∃ t k, toks_of e = t :: k ∧ opens t) es →
  atom_parses d (Group es).
Proof.
  intros Hd Hne Hall p ts rest [Hs Hto Hk Hl Hx]. cbn [toks_of count_leaves text_spent] in *. fold (leaves_of es) in *. fold (spent_of es) in *.
  destruct ts as [|[tl st] ts]; [done|]. cbn in Hk. injection Hk as -> Hk.
  apply fmap_app_inv in Hk as (ts1 & ts2 & Hk1 & Hk2 & ->). destruct ts2 as [|[tr st2] [|? ?]]; try discriminate Hk2.
  cbn in Hk2. injection Hk2 as <-.
  destruct (items_parse (S d) es (advance p) ts1 (mkToken TRParen st2 :: rest) Hall) as (p1 & [Hp1s Hp1t Hp1l Hp1x] & Hgo).
  { split; cbn; [done|by rewrite Hto; cbn; rewrite <-app_assoc|done|lia|lia]. }
  { done. }
  destruct (Hgo 1%nat [] p1) as [f E].
  { rewrite and_expr_S, Hp1s. unfold peek. rewrite Hp1t. cbn. done. }
  rewrite app_nil_r in E. exists (S f), (advance p1). rewrite atom_S. cbn zeta.
  assert (peek p = Some TLParen) as -> by (unfold peek; by rewrite Hto).
  rewrite decide_False by lia. rewrite E. cbn [mbind option_bind]. rewrite Hp1s.
  assert (peek p1 = Some TRParen) as -> by (unfold peek; by rewrite Hp1t).
  split; [by destruct es|]. cbn in Hp1l, Hp1x. split; cbn; [done|by rewrite Hp1t|lia|lia].
Qed.

(** Every expression of the grammar's shape is built back from its tokens. *)
Lemma expr_parses e d :
  (shape LAtom d e → atom_parses d e) ∧ (shape LUnary d e → unary_parses d e) ∧ (shape LItem d e → item_parses d e).
Proof.
  revert d. induction e as [e He|e IH|es IH|es IH] using Expr_rect'; intros d.
  - assert (shape LAtom d e → unary_parses d e) as Hu.
    { intros Hs. apply unary_of_atom; [by apply leaf_parses|]. destruct (toks_head e LAtom d Hs) as (t & k & ? & _ & Ht). eauto. }
    assert (∀ l, shape l d e → shape LAtom d e) as Hl by (intros l; by destruct e).
    split; [by intros _; apply leaf_parses|]. split; [by intros ?%Hl; apply Hu|]. intros Hs%Hl. by apply item_of_unary, Hu.
  - assert (shape LAtom d e → unary_parses d (Not e)) as Hu.
    { intros Hs. apply not_parses; [by apply IH|]. destruct (toks_head e LAtom d Hs) as (t & k & ? & _ & Ht). eauto. }
    split; [by intros []|]. split; [by intros [_ ?]; apply Hu|]. intros [_ Hs]. by apply item_of_unary, Hu.
  - split; [by intros []|]. split; [by intros []|]. intros (_ & Hlen & Hs). apply or_parses; [|done].
    apply foldr_Forall in Hs. rewrite Forall_forall in *. intros e He. split; [by apply IH, Hs|].
    destruct (toks_head e _ _ (Hs e He)) as (t & k & ? & ? & _). eauto.
  - assert (∀ l, shape l d (Group es) → atom_parses d (Group es)) as Ha.
    { intros l (Hd & Hne & Hs). apply group_parses; [done..|]. apply foldr_Forall in Hs. rewrite Forall_forall in *.
      intros e He. split; [by apply IH, Hs|]. destruct (toks_head e _ _ (Hs e He)) as (t & k & ? & ? & _). eauto. }
    assert (∀ l, shape l d (Group es) → unary_parses d (Group es)) as Hu.
    { intros l Hs. apply unary_of_atom; [by eapply Ha|]. by eexists _, _. }
    split; [apply Ha|]. split; [apply Hu|]. intros Hs. by eapply item_of_unary, Hu.
Qed.

Lemma clauses_parse d es p ts rest :
  Forall (shape LItem d) es → ahead p ts rest (concat (toks_of <$> es)) (leaves_of es) (spent_of es) → next_tok rest ≠ Some TOr →
  ∃ p', past p rest (leaves_of es) (spent_of es) p' ∧
    ∀ f r q, and_expr len f d p' = Some (r, q) → ∃ f', and_expr len f' d p = Some (es ++ r, q).
Proof.
  intros Hall. apply items_parse. eapply Forall_impl; [exact Hall|]. intros e He. split; [by apply expr_parses|].
  destruct (toks_head e _ _ He) as (t & k & ? & ? & _). eauto.
Qed.

(** ** What the parser builds *)

Lemma minuses_suffix ts neg : ∃ b ts', minuses ts neg = (b, ts') ∧ ∃ pre, ts = pre ++ ts'.
Proof.
  revert neg. induction ts as [|[t st] ts IH]; intros neg; [by eexists _, _; split; [|by exists []]|].
  destruct t; try (by eexists _, _; split; [reflexivity|by exists []]).
  destruct (IH (negb neg)) as (b & ts' & E & pre & ->). exists b, ts'. split; [done|]. by exists (mkToken TMinus st :: pre).
Qed.


Record sound (p : Parser) : Prop := {
  sound_toks : Forall (λ t, tok_ok (tok t)) (toks p);
  sound_leaves : 0 ≤ leaves p ≤ MAX_CLAUSES;
  sound_spent : 0 ≤ spent p ≤ MAX_TEXT;
}.
(** From [p] to [q], having built [es]. *)
Record built (p q : Parser) (es : list Expr) : Prop := {
  built_sound : sound q;
  built_leaves : leaves q = leaves p + leaves_of es;
  built_spent : spent q = spent p + spent_of es;
}.

Lemma built_nil p q : sound q → leaves q = leaves p → spent q = spent p → built p q [].
Proof. intros Hs Hl Hx. split; [done|..]; cbn; lia. Qed.
Lemma sums_app es1 es2 : leaves_of (es1 ++ es2) = leaves_of es1 + leaves_of es2 ∧ spent_of (es1 ++ es2) = spent_of es1 + spent_of es2.
Proof.
  unfold leaves_of, spent_of. induction es1 as [|e es IH]; [done|]. cbn [app foldr]. lia.
Qed.
Lemma built_app p q r es1 es2 : built p q es1 → built q r es2 → built p r (es1 ++ es2).
Proof. intros [_ Hl Hx] [Hs Hl' Hx']. destruct (sums_app es1 es2) as [El Ex]. split; [done|rewrite El; lia|rewrite Ex; lia]. Qed.
Lemma built_one p q e e' : count_leaves e = count_leaves e' → text_spent e = text_spent e' → built p q [e] → built p q [e'].
Proof. intros Hl Hx [? ? ?]. split; [done|cbn in *; lia|cbn in *; lia]. Qed.
Lemma built_group p q es e : count_leaves e = leaves_of es → text_spent e = spent_of es → built p q es → built p q [e].
Proof. intros Hl Hx [? ? ?]. split; [done|cbn in *; lia|cbn in *; lia]. Qed.
Lemma sound_advance p : sound p → sound (advance p).
Proof. intros [Ht Hl Hx]. split; cbn; [|done..]. destruct (toks p); [done|]. by apply Forall_cons in Ht as [_ ?]. Qed.
Lemma sound_ext p q : toks q = toks p → leaves q = leaves p → spent q = spent p → sound p → sound q.
Proof. intros Et El Ex [Ht Hl Hx]. split; congruence. Qed.

Lemma leaf_built e p r q : sound p → leaf_ok e → leaf len e p = (r, q) →
  built p q (option_list r) ∧ (∀ e', r = Some e' → e' = e).
Proof.
  intros Hs [He _]. pose proof Hs as [Ht Hl Hx]. unfold leaf. destruct (Z.leb_spec MAX_CLAUSES (leaves p)) as [|Hlt].
  { intros [= <- <-]. split; [|done]. apply built_nil; [|done..]. by eapply sound_ext. }
  destruct (Z.ltb_spec MAX_TEXT (spent p + leaf_cost e)) as [|Hle].
  { intros [= <- <-]. split; [|done]. apply built_nil; [|done..]. by eapply sound_ext. }
  intros [= <- <-]. split; [|by intros ? [= ->]]. change (option_list (Some e)) with [e].
  assert (count_leaves e = 1 ∧ text_spent e = leaf_cost e) as [El Et] by (by destruct e).
  assert (0 ≤ leaf_cost e) by (destruct e; try done; cbn; lia).
  split; cbn [leaves spent leaves_of spent_of foldr]; [|lia|lia]. split; cbn [toks leaves spent]; [by apply (sound_advance p Hs)|lia|lia].
Qed.

Lemma shape_weaken l d e : shape LAtom d e → shape l d e.
Proof. destruct e; cbn; try tauto; by intros []. Qed.
Lemma shape_item d e : shape LUnary d e → shape LItem d e.
Proof. destruct e; cbn; try tauto; first [by intros [_ ?] | by intros []]. Qed.
Lemma or_leaf : leaf_ok (Phrase (txt "OR")).
Proof. apply phrase_leaf; [done|by repeat constructor|done]. Qed.

Definition builds (f : nat) : Prop :=
  (∀ d p r q, and_expr len f d p = Some (r, q) → sound p → built p q r ∧ Forall (shape LItem d) r) ∧
  (∀ d p r q, or_expr len f d p = Some (r, q) → sound p → built p q (option_list r) ∧ Forall (shape LItem d) (option_list r)) ∧
  (∀ d es p r q, or_rest len f d es p = Some (r, q) → sound p → Forall (shape LUnary d) es →
     ∃ es', r = es ++ es' ∧ built p q es' ∧ Forall (shape LUnary d) es') ∧
  (∀ d p r q, unary len f d p = Some (r, q) → sound p → built p q (option_list r) ∧ Forall (shape LUnary d) (option_list r)) ∧
  (∀ d p r q, atom len f d p = Some (r, q) → sound p → built p q (option_list r) ∧ Forall (shape LAtom d) (option_list r)).

Lemma option_Forall {A} (P : A → Prop) (o : option A) : Forall P (option_list o) ↔ ∀ x, o = Some x → P x.
Proof.
  destruct o as [x|].
  - change (option_list (Some x)) with [x]. rewrite Forall_singleton. naive_solver.
  - split; [done|]. intros _. constructor.
Qed.

Lemma or_rest_builds f d es p r q : builds f → or_rest len (S f) d es p = Some (r, q) → sound p → Forall (shape LUnary d) es →
  ∃ es', r = es ++ es' ∧ built p q es' ∧ Forall (shape LUnary d) es'.
Proof.
  intros (_ & _ & IHr & IHu & _) E Hs Hes.
  assert (∃ es', es = es ++ es' ∧ built p p es' ∧ Forall (shape LUnary d) es') as Hstop
    by (exists []; rewrite app_nil_r; split_and!; [done|by apply built_nil|constructor]).
  rewrite or_rest_S in E. destruct (stop p); [by injection E as <- <-|].
  destruct (peek p) as [[]|]; try by injection E as <- <-.
  assert (Some (es, p) = Some (r, q) ∨ ('(e, p1) ← unary len f d (advance p); or_rest len f d (es ++ option_list e) p1) = Some (r, q))
    as [E'|E'] by (destruct (peek (advance p)) as [[]|]; try tauto; destruct es; tauto); clear E; [by injection E' as <- <-|].
  replay. pose proof (sound_advance p Hs) as Ha. destruct (IHu _ _ _ _ E Ha) as [Hb Hu].
  destruct (IHr _ _ _ _ _ E' (built_sound _ _ _ Hb)) as (es' & -> & Hb' & Hes'); [by apply Forall_app|].
  exists (option_list o ++ es'). split_and!; [by rewrite app_assoc| |by apply Forall_app].
  apply (built_app p p0 q); [|done]. destruct Hb as [? ? ?]. by split.
Qed.

Lemma parser_builds f : builds f.
Proof.
  induction f as [|f IH]; [by split_and!|]. pose proof IH as (IHa & IHo & IHr & IHu & IHt). split_and!.
  - intros d p r q E Hs. rewrite and_expr_S in E. cbn zeta in E.
    destruct (stop p); [injection E as <- <-; split; [by apply built_nil|constructor]|].
    assert (('(e, p1) ← or_expr len f d p; '(es, p2) ← and_expr len f d p1; Some (option_list e ++ es, p2)) = Some (r, q) →
            built p q r ∧ Forall (shape LItem d) r) as Hgo.
    { intros E'. replay. destruct (IHo _ _ _ _ E0 Hs) as [Hb Ho]. replay.
      destruct (IHa _ _ _ _ E1 (built_sound _ _ _ Hb)) as [Hb' Ha]. injection E' as <- <-.
      split; [by eapply built_app|by apply Forall_app]. }
    destruct (peek p) as [[]|]; try by apply Hgo.
    + case_decide; [injection E as <- <-; split; [by apply built_nil|constructor]|].
      apply IHa in E as [[? ? ?] Ha]; [split; [by split|done]|]. apply sound_advance. by apply (sound_ext p).
    + injection E as <- <-. split; [by apply built_nil|constructor].
  - intros d p r q E Hs. rewrite or_expr_S in E. replay. destruct (IHu _ _ _ _ E0 Hs) as [Hb Hu]. replay.
    destruct (IHr _ _ _ _ _ E1 (built_sound _ _ _ Hb) Hu) as (es' & -> & Hb' & Hes'). injection E as <- <-.
    pose proof (built_app _ _ _ _ _ Hb Hb') as Hbb. assert (Forall (shape LUnary d) (option_list o ++ es')) as Hall by (by apply Forall_app).
    destruct (option_list o ++ es') as [|e1 [|e2 es]] eqn:Ees; [by split|..].
    + split; [done|]. apply Forall_cons in Hall as [Hall _]. change (option_list (Some e1)) with [e1]. by apply Forall_singleton, shape_item.
    + split; [by apply (built_group _ _ (e1 :: e2 :: es))|]. change (option_list (Some (Or (e1 :: e2 :: es)))) with [Or (e1 :: e2 :: es)].
      apply Forall_singleton. cbn [shape]. split; [done|]. split; [simpl; lia|]. by apply foldr_Forall.
  - intros d es p r q. by apply or_rest_builds.
  - intros d p r q E Hs. rewrite unary_S in E.
    destruct (minuses_suffix (toks p) false) as (b & ts & Em & pre & Ets). rewrite Em in E. replay. injection E as <- <-.
    assert (sound (mkParser ts (leaves p) (spent p) (stop p) (p_notices p))) as Hs'.
    { destruct Hs as [Ht Hl Hx]. rewrite Ets in Ht. apply Forall_app in Ht as [_ Ht]. by split. }
    destruct (IHt _ _ _ _ E0 Hs') as [Hb Ht]. assert (built p p0 (option_list o)) as Hb' by (destruct Hb; by split).
    destruct o as [a|]; [|done]. rewrite option_Forall in *. specialize (Ht a eq_refl).
    destruct b; (split; [by apply (built_one p p0 a)|]); intros e [= <-]; [by split|by apply shape_weaken].
  - intros d p r q E Hs. rewrite atom_S in E. cbn zeta in E. destruct (peek p) as [[| | | |e]|] eqn:Hp.
    + case_decide.
      { injection E as <- <-. split; [|constructor]. apply built_nil; [|done..]. by apply (sound_ext p). }
      replay. destruct (IHa _ _ _ _ E0 (sound_advance p Hs)) as [Hb Ha]. injection E as <- <-.
      assert (∀ p2, toks p2 = toks p0 ∨ toks p2 = tail (toks p0) → leaves p2 = leaves p0 → spent p2 = spent p0 → built p p2 l) as Hb2.
      { intros p2 Ht El Ex. destruct Hb as [Hsd ? ?]. split; [|by rewrite El|by rewrite Ex].
        destruct Ht as [Ht|Ht]; [by apply (sound_ext p0)|]. by apply (sound_ext (advance p0)), sound_advance. }
      assert (built p (match stop p0 with Some _ => p0 | None => match peek p0 with Some TRParen => advance p0
        | _ => push_notice (notice UnclosedGroup (Z.of_nat (start_of len p)) (Z.of_nat len)) p0 end end) l) as Hb3.
      { apply Hb2; destruct (stop p0); try done; try (by left); destruct (peek p0) as [[]|]; done || (by left) || (by right). }
      destruct l as [|e l]; [by split|]. split; [by apply (built_group _ _ (e :: l))|]. apply option_Forall. intros g [= <-]. cbn [shape].
      split; [lia|]. split; [done|]. by apply foldr_Forall.
    + injection E as <- <-. split; [by apply built_nil|constructor].
    + injection E as E. eapply leaf_built in E as [Hb He]; [|by apply (sound_ext p)|apply or_leaf].
      split; [destruct Hb; by split|]. apply option_Forall. intros e' ->. rewrite (He e' eq_refl). apply or_leaf.
    + injection E as <- <-. split; [by apply built_nil|constructor].
    + injection E as E. assert (leaf_ok e) as He.
      { destruct Hs as [Ht _ _]. unfold peek in Hp. destruct (toks p) as [|t ts]; [done|]. apply Forall_cons in Ht as [Ht _].
        cbn in Hp. injection Hp as Hp. by rewrite Hp in Ht. }
      destruct (leaf_built e p r q Hs He E) as [Hb Heq]. split; [done|]. apply option_Forall. intros e' ->. rewrite (Heq e' eq_refl).
      destruct He as [Hl ?]. by destruct e.
    + injection E as <- <-. split; [by apply built_nil|constructor].
Qed.
End grammar.
