(* ===== verification/SearchCanon.v ===== *)
(** * The canonical text of a query

    Every input parses, within the limits; and the canonical text of what it
    parses to parses to the same query. *)

From Stdlib Require Import ZArith Lia String.
From stdpp Require Import base tactics decidable option list strings.
From S2P Require Import Prelude Bytes Calendar Rrule Search SearchLex SearchLeaf SearchRound SearchParse SearchGrammar.
Open Scope Z_scope.

(** ** The text past a limit *)

Definition word (w : chars) : Prop := w ≠ [] ∧ Forall (λ c, is_ws c = false) w.

Lemma split_whitespace_words l : Forall word (split_whitespace l).
Proof.
  induction l as [|c l IH]; [constructor|]. cbn [split_whitespace]. destruct (is_ws c) eqn:Hc; [done|].
  destruct l as [|d l]; [by repeat constructor|]. destruct (is_ws d) eqn:Hd; [constructor; [by repeat constructor|done]|].
  destruct (split_whitespace (d :: l)) as [|w ws]; [by repeat constructor|]. apply Forall_cons in IH as [[_ Hw] Hws].
  constructor; [|done]. split; [done|]. by constructor.
Qed.
Lemma split_whitespace_forall (P : Z → Prop) l : Forall P l → Forall (Forall P) (split_whitespace l).
Proof.
  induction 1 as [|c l Hc _ IH]; [constructor|]. cbn [split_whitespace]. destruct (is_ws c); [done|].
  destruct l as [|d l]; [by repeat constructor|]. destruct (is_ws d); [by repeat constructor|].
  destruct (split_whitespace (d :: l)) as [|w ws]; [by repeat constructor|]. apply Forall_cons in IH as [Hw Hws].
  by repeat constructor.
Qed.

Lemma split_word w k : word w → stops is_ws k → split_whitespace (w ++ k) = w :: split_whitespace k.
Proof.
  intros [Hne Hw] Hk. induction Hw as [|c w Hc Hw IH]; [done|]. cbn [app split_whitespace]. rewrite Hc. destruct w as [|d w].
  - destruct k as [|d k]; [done|]. cbn in Hk. cbn [app]. by rewrite Hk.
  - cbn [app] in *. apply Forall_cons in Hw as [Hd _]. rewrite Hd. by rewrite IH.
Qed.
Lemma split_joined ws k : Forall word ws → stops is_ws k →
  split_whitespace (join_chars [32] ws ++ k) = ws ++ split_whitespace k.
Proof.
  intros Hws Hk. induction Hws as [|w ws Hw Hws IH]; [done|]. destruct (decide (ws = [])) as [->|Hne]; [by apply split_word|].
  rewrite join_chars_cons, <-!app_assoc, split_word by done. cbn [app]. f_equal. exact IH.
Qed.

Lemma trim_start_app a b :
  trim_start (a ++ b) = if decide (trim_start a = []) then trim_start b else trim_start a ++ b.
Proof.
  unfold trim_start. induction a as [|c a IH]; [done|]. cbn [app break]. destruct (negb (is_ws c)) eqn:Hc; [done|]. exact IH.
Qed.
Lemma trim_end_app a b :
  trim_end (a ++ b) = if decide (trim_end b = []) then trim_end a else a ++ trim_end b.
Proof.
  unfold trim_end. rewrite reverse_app, trim_start_app.
  destruct (decide (trim_start (reverse b) = [])) as [E|E]; [rewrite decide_True by (by rewrite E); done|].
  rewrite decide_False by (intros E'; apply E; by rewrite <-(reverse_involutive (trim_start _)), E').
  by rewrite reverse_app, reverse_involutive.
Qed.
Lemma trim_end_word w : Forall (λ c, is_ws c = false) w → trim_end w = w.
Proof.
  intros Hw. unfold trim_end. rewrite trim_start_id; [apply reverse_involutive|].
  apply Forall_reverse in Hw. destruct (reverse w) as [|c r]; [done|]. apply Forall_cons in Hw as [Hc _]. cbn. by rewrite Hc.
Qed.

(** Cut anywhere, joined words are joined words again. *)
Lemma cut_words ws n : Forall word ws →
  ∃ ws', Forall word ws' ∧ trim_end (take n (join_chars [32] ws)) = join_chars [32] ws'.
Proof.
  intros Hws. revert n. induction Hws as [|w ws [Hne Hw] Hws IH]; intros n; [exists []; by destruct n|].
  assert (∀ m, ∃ ws', Forall word ws' ∧ trim_end (take m w) = join_chars [32] ws') as Hshort.
  { intros m. assert (Forall (λ c, is_ws c = false) (take m w)) as Ht by (by apply Forall_take).
    rewrite trim_end_word by done. destruct (decide (take m w = [])) as [->|Hm]; [by exists []|].
    exists [take m w]. split; [|done]. by repeat constructor. }
  destruct (decide (ws = [])) as [->|Hws']; [apply Hshort|]. rewrite join_chars_cons by done.
  destruct (decide (n <= length w)%nat) as [Hle|Hgt]; [rewrite take_app_le by done; apply Hshort|].
  rewrite take_app_ge by lia. destruct (n - length w)%nat as [|m] eqn:Em; [lia|]. cbn [app take].
  destruct (IH m) as (ws' & Hw' & E). change (32 :: ?x) with ([32] ++ x). rewrite !trim_end_app, E.
  destruct (decide (join_chars [32] ws' = [])) as [Ej|Ej].
  - rewrite decide_True by done. exists [w]. split; [by repeat constructor|]. by apply trim_end_word.
  - rewrite decide_False by (by destruct ws'). exists (w :: ws'). split; [by constructor|].
    rewrite join_chars_cons; [done|]. by intros ->.
Qed.

(** What [rest_text] makes, and makes again of its own canonical text. *)
Definition tidy (r : chars) : Prop := ∃ ws, r = join_chars [32] ws ∧ Forall word ws ∧ Forall unquoted ws.

Lemma join_forall (P : Z → Prop) ws : P 32 → Forall (Forall P) ws → Forall P (join_chars [32] ws).
Proof.
  intros H32. induction 1 as [|w ws Hw _ IH]; [constructor|]. destruct (decide (ws = [])) as [->|Hne]; [done|].
  rewrite join_chars_cons by done. apply Forall_app. split; [done|]. by constructor.
Qed.
Lemma tidy_unquoted r : tidy r → unquoted r.
Proof. intros (ws & -> & _ & Hu). by apply join_forall. Qed.
Lemma tidy_ends r : tidy r → trim_end r = r ∧ trim_start r = r.
Proof.
  intros (ws & -> & Hws & _). split.
  - induction Hws as [|w ws [Hne Hw] Hws IH]; [done|]. destruct (decide (ws = [])) as [->|Hws']; [by apply trim_end_word|].
    rewrite join_chars_cons by done. rewrite !trim_end_app, IH. destruct (decide (join_chars [32] ws = [])) as [E|E]; [|by rewrite decide_False].
    exfalso. destruct Hws as [|w2 ws2 [Hw2 _] _]; [done|]. destruct w2; [done|]. by destruct ws2.
  - apply trim_start_id. destruct Hws as [|w ws [Hne Hw] Hws]; [done|]. destruct w as [|c w]; [done|].
    apply Forall_cons in Hw as [Hc _]. destruct ws; cbn; by rewrite Hc.
Qed.

Lemma rest_text_tidy cs b : tidy (rest_text cs b) ∧ Z.of_nat (length (rest_text cs b)) ≤ Z.max b 0.
Proof.
  unfold rest_text. set (l := (λ c, if c =? QUOTE then 32 else c) <$> cs).
  assert (unquoted l) as Hl.
  { apply Forall_fmap, Forall_true. intros c. cbn. destruct (c =? QUOTE) eqn:E; [done|exact E]. }
  pose proof (split_whitespace_words l) as Hw. apply split_whitespace_forall in Hl. fold unquoted in Hl.
  destruct (cut_words (split_whitespace l) (Z.to_nat b) Hw) as (ws' & Hw' & E). split.
  - rewrite E. exists ws'. split; [done|]. split; [done|].
    assert (unquoted (trim_end (take (Z.to_nat b) (join_chars [32] (split_whitespace l))))) as Hu.
    { destruct (trim_end_front (take (Z.to_nat b) (join_chars [32] (split_whitespace l)))) as (x & Ex & _).
      assert (unquoted (take (Z.to_nat b) (join_chars [32] (split_whitespace l)))) as Ht by (by apply Forall_take, join_forall).
      rewrite Ex in Ht. by apply Forall_app in Ht as [? _]. }
    rewrite E in Hu. clear -Hu. induction ws' as [|w ws IH]; [constructor|]. destruct (decide (ws = [])) as [->|Hne]; [by repeat constructor|].
    rewrite join_chars_cons in Hu by done. apply Forall_app in Hu as [Hw Hu]. apply Forall_cons in Hu as [_ Hu]. constructor; [done|by apply IH].
  - destruct (trim_end_front (take (Z.to_nat b) (join_chars [32] (split_whitespace l)))) as (x & Ex & _).
    apply (f_equal length) in Ex. rewrite length_app, length_take in Ex. lia.
Qed.

Lemma rest_text_again r b : tidy r → Z.of_nat (length r) ≤ b → rest_text (quote_name r) b = r.
Proof.
  intros Hr Hb. pose proof (tidy_unquoted r Hr) as Hu. destruct (tidy_ends r Hr) as [He _]. unfold rest_text, quote_name.
  rewrite !fmap_app. cbn [fmap list_fmap]. rewrite !Z.eqb_refl.
  assert ((λ c, if c =? QUOTE then 32 else c) <$> r = r) as ->.
  { clear -Hu. induction Hu as [|c r Hc _ IH]; [done|]. cbn [fmap list_fmap]. by rewrite Hc, IH. }
  cbn [app]. change (split_whitespace (32 :: ?x)) with (split_whitespace x).
  destruct Hr as (ws & Er & Hw & _). rewrite Er at 1. rewrite split_joined, app_nil_r, <-Er by done.
  rewrite firstn_all2 by lia. done.
Qed.

(** ** How long the canonical text is *)

Section canon.
Context `{JiffLaws, !IsoDates}.

(** What a leaf costs at most around its own text, [d] groups deep. *)
Definition overhead (d : nat) : Z := 7 + 3 * (8 - Z.of_nat d).

Lemma join_length {A} (sep : list A) l :
  Z.of_nat (length (join_chars sep l)) + (if decide (l = []) then 0 else Z.of_nat (length sep))
  = foldr (λ x n, Z.of_nat (length x) + Z.of_nat (length sep) + n) 0 l.
Proof.
  induction l as [|x l IH]; [done|]. destruct (decide (x :: l = [])) as [|_]; [done|]. destruct (decide (l = [])) as [->|Hl].
  - cbn [join_chars foldr]. lia.
  - rewrite join_chars_cons, !length_app by done. cbn [foldr]. lia.
Qed.
Lemma sum_le (f : Expr → Z) (k : Z) es :
  Forall (λ e, f e ≤ text_spent e + count_leaves e * k) es →
  foldr (λ e n, f e + n) 0 es ≤ spent_of es + leaves_of es * k.
Proof. unfold spent_of, leaves_of. induction 1 as [|e es He _ IH]; cbn [foldr]; lia. Qed.
Lemma foldr_shown (sep : chars) es :
  foldr (λ x n, Z.of_nat (length x) + Z.of_nat (length sep) + n) 0 (show_expr <$> es)
  = foldr (λ e n, Z.of_nat (length (show_expr e)) + Z.of_nat (length sep) + n) 0 es.
Proof. induction es as [|e es IH]; [done|]. cbn [fmap list_fmap foldr]. by rewrite <-IH. Qed.

Lemma shape_leaves l d e : shape l d e → 1 ≤ count_leaves e.
Proof.
  revert l d. induction e as [e He|e IH|es IH|es IH] using Expr_rect'; intros l d Hs.
  - by destruct e.
  - destruct Hs as [_ Hs]. by apply IH in Hs.
  - destruct Hs as (_ & Hlen & Hs). apply foldr_Forall in Hs. destruct es as [|e es]; [simpl in Hlen; lia|].
    apply Forall_cons in Hs as [Hs _]. apply Forall_cons in IH as [IH _]. apply IH in Hs. cbn. fold (leaves_of es).
    pose proof (sums_nonneg es). lia.
  - destruct Hs as (_ & Hne & Hs). apply foldr_Forall in Hs. destruct es as [|e es]; [done|].
    apply Forall_cons in Hs as [Hs _]. apply Forall_cons in IH as [IH _]. apply IH in Hs. cbn. fold (leaves_of es).
    pose proof (sums_nonneg es). lia.
Qed.

Lemma show_bound l d e : shape l d e → (d <= MAX_DEPTH)%nat →
  Z.of_nat (length (show_expr e)) + 4 ≤
    text_spent e + count_leaves e * (if decide (l = LAtom) then overhead d - 1 else overhead d).
Proof.
  revert l d. induction e as [e He|e IH|es IH|es IH] using Expr_rect'; intros l d Hs Hd;
    assert (7 ≤ overhead d) as Ho by (unfold overhead, MAX_DEPTH in *; lia).
  - assert (Z.of_nat (length (show_expr e)) ≤ leaf_cost e + 2) as Hl.
    { destruct e; try done; cbn [show_expr leaf_cost]; [lia|unfold quote_name; rewrite !length_app; simpl; lia|lia]. }
    assert (text_spent e = leaf_cost e ∧ count_leaves e = 1) as [-> ->] by (by destruct e). case_decide; lia.
  - destruct Hs as [Hl Hs]. rewrite decide_False by done. specialize (IH _ _ Hs Hd). rewrite decide_True in IH by done.
    pose proof (shape_leaves _ _ _ Hs). cbn [show_expr text_spent count_leaves]. rewrite length_app. change (length (txt "-")) with 1%nat. lia.
  - destruct Hs as (-> & Hlen & Hs). apply foldr_Forall in Hs. rewrite decide_False by done.
    cbn [show_expr text_spent count_leaves]. fold (spent_of es). fold (leaves_of es).
    pose proof (join_length (txt " OR ") (show_expr <$> es)) as Hj. rewrite foldr_shown in Hj.
    rewrite decide_False in Hj by (by destruct es; [simpl in Hlen; lia|]). change (Z.of_nat (length (txt " OR "))) with 4 in Hj.
    pose proof (sum_le (λ e, Z.of_nat (length (show_expr e)) + 4) (overhead d) es) as Hsum. cbn beta in Hsum.
    assert (Forall (λ e, Z.of_nat (length (show_expr e)) + 4 ≤ text_spent e + count_leaves e * overhead d) es) as Hall; [|specialize (Hsum Hall); lia].
    rewrite Forall_forall in *. intros e He. specialize (IH e He _ _ (Hs e He) Hd). by rewrite decide_False in IH.
  - destruct Hs as (Hdm & Hne & Hs). apply foldr_Forall in Hs.
    cbn [show_expr text_spent count_leaves]. fold (spent_of es). fold (leaves_of es).
    pose proof (join_length (txt " ") (show_expr <$> es)) as Hj. rewrite foldr_shown in Hj.
    rewrite decide_False in Hj by (by destruct es). change (Z.of_nat (length (txt " "))) with 1 in Hj.
    assert (overhead (S d) = overhead d - 3) as Ho' by (unfold overhead; lia).
    pose proof (sum_le (λ e, Z.of_nat (length (show_expr e)) + 4) (overhead (S d)) es) as Hsum. cbn beta in Hsum.
    assert (Forall (λ e, Z.of_nat (length (show_expr e)) + 4 ≤ text_spent e + count_leaves e * overhead (S d)) es) as Hall.
    { rewrite Forall_forall in *. intros e He. specialize (IH e He _ _ (Hs e He) ltac:(lia)). by rewrite decide_False in IH. }
    specialize (Hsum Hall).
    assert (1 ≤ leaves_of es ∧ foldr (λ e n, Z.of_nat (length (show_expr e)) + 1 + n) 0 es
      ≤ foldr (λ e n, Z.of_nat (length (show_expr e)) + 4 + n) 0 es - 3) as [Hl1 Hf].
    { destruct es as [|e es]; [done|]. apply Forall_cons in Hs as [He _]. apply shape_leaves in He. pose proof (sums_nonneg es).
      cbn. fold (leaves_of es). split; [lia|]. clear. induction es as [|e' es IH]; cbn [foldr]; [lia|]. lia. }
    cbn [app length]. rewrite length_app. cbn [length]. rewrite Ho' in Hsum. case_decide; nia.
Qed.

Lemma clauses_bound es : Forall (shape LItem 0) es →
  Z.of_nat (length (join_chars (txt " ") (show_expr <$> es))) ≤ spent_of es + 31 * leaves_of es.
Proof.
  intros Hs. pose proof (join_length (txt " ") (show_expr <$> es)) as Hj. rewrite foldr_shown in Hj.
  change (Z.of_nat (length (txt " "))) with 1 in Hj.
  pose proof (sum_le (λ e, Z.of_nat (length (show_expr e)) + 1) 31 es) as Hsum. cbn beta in Hsum.
  assert (Forall (λ e, Z.of_nat (length (show_expr e)) + 1 ≤ text_spent e + count_leaves e * 31) es) as Hall.
  { eapply Forall_impl; [exact Hs|]. intros e He. apply show_bound in He; [|unfold MAX_DEPTH; lia].
    rewrite decide_False in He by done. change (overhead 0) with 31 in He. lia. }
  specialize (Hsum Hall). case_decide; lia.
Qed.

(** ** Parsing *)

Definition cut_input (input : chars) : chars :=
  if MAX_INPUT <? Z.of_nat (length input) then take (Z.to_nat MAX_INPUT) input else input.
(** The clauses, with what the limits left over. *)
Definition finished (cs : chars) (items : list Expr) (p : Parser) : list Expr :=
  match stop p with
  | None => items
  | Some s =>
      if decide (why s = TooLong) then items
      else let rest := rest_text (drop (stop_at s) cs) (MAX_TEXT - spent p) in
           if bool_decide (rest = []) then items else items ++ [Phrase rest]
  end.

Definition start_state (cs : chars) : Parser := mkParser (tokens (length cs) cs) 0 0 None [].

Lemma parse_eq input :
  parse input =
    let cs := cut_input input in
    '(items, p) ← and_expr (length cs) (enough_fuel (tokens (length cs) cs)) 0 (start_state cs);
    Some (mkQuery (finished cs items p)).
Proof.
  unfold parse, parse_with_notices, cut_input, start_state, tokens, finished. cbn zeta. destruct (MAX_INPUT <? _); unfold lex;
    (destruct (lex_loop _ _ _) as [ts ns]; cbn [fst];
     destruct (and_expr _ _ _ _) as [[items p]|]; [|done]; cbn [mbind option_bind];
     destruct (stop p) as [s|]; [|done]; destruct (decide (why s = TooLong)); done).
Qed.

Lemma start_sound cs : sound (start_state cs).
Proof. split; cbn; [apply tokens_ok|by unfold MAX_CLAUSES|by unfold MAX_TEXT]. Qed.

(** A run from the start, whatever fuel it took. *)
Lemma parse_run input items p f :
  Z.of_nat (length input) ≤ MAX_INPUT →
  and_expr (length input) f 0 (start_state input) = Some (items, p) →
  parse input = Some (mkQuery (finished input items p)).
Proof.
  intros Hl Hf. rewrite parse_eq. assert (cut_input input = input) as -> by (unfold cut_input; by rewrite (proj2 (Z.ltb_ge _ _))).
  cbn zeta. destruct (enough_fuel_runs (length input) (tokens (length input) input) (start_state input) 0 eq_refl) as (r & q & E).
  rewrite E. cbn [mbind option_bind].
  apply (and_expr_mono _ _ (f + enough_fuel (tokens (length input) input))) in Hf; [|lia].
  apply (and_expr_mono _ _ (f + enough_fuel (tokens (length input) input))) in E; [|lia]. congruence.
Qed.

(** The clauses of a parsed query, and what the limits left. *)
Record canonical (es : list Expr) (rest : option chars) : Prop := {
  canonical_shape : Forall (shape LItem 0) es;
  canonical_leaves : leaves_of es ≤ MAX_CLAUSES;
  canonical_spent : spent_of es ≤ MAX_TEXT;
  canonical_rest r : rest = Some r → tidy r ∧ r ≠ [] ∧ Z.of_nat (length r) ≤ MAX_TEXT - spent_of es;
}.
Definition all_clauses (es : list Expr) (rest : option chars) : list Expr :=
  es ++ match rest with Some r => [Phrase r] | None => [] end.

Lemma parse_canonical input : ∃ es rest, parse input = Some (mkQuery (all_clauses es rest)) ∧ canonical es rest.
Proof.
  rewrite parse_eq. cbn zeta. set (cs := cut_input input).
  destruct (enough_fuel_runs (length cs) (tokens (length cs) cs) (start_state cs) 0 eq_refl) as (es & p & E).
  rewrite E. cbn [mbind option_bind]. apply parser_builds in E as [[[_ Hl Hx] El Ex] Hs]; [|apply start_sound]. cbn in El, Ex.
  assert (canonical es None) as Hnone by (split; [done|lia|lia|done]).
  unfold finished. destruct (stop p) as [s|]; [|by exists es, None; unfold all_clauses; rewrite app_nil_r].
  case_decide; [by exists es, None; unfold all_clauses; rewrite app_nil_r|]. cbn zeta. case_bool_decide as Hr.
  - by exists es, None; unfold all_clauses; rewrite app_nil_r.
  - destruct (rest_text_tidy (drop (stop_at s) cs) (MAX_TEXT - spent p)) as [Ht Hlen].
    exists es, (Some (rest_text (drop (stop_at s) cs) (MAX_TEXT - spent p))). split; [done|]. split; [done|lia|lia|].
    intros r [= <-]. split; [done|]. split; [done|]. lia.
Qed.

Lemma rest_leaf r : tidy r → r ≠ [] → leaf_ok (Phrase r).
Proof.
  intros Hr Hne. destruct (tidy_ends r Hr) as [He Hst]. apply phrase_leaf; [done|by apply tidy_unquoted|].
  unfold trim. by rewrite Hst.
Qed.

(** The clauses alone, within the limits, are built back. *)
Lemma reads_clauses es :
  Forall (shape LItem 0) es → leaves_of es ≤ MAX_CLAUSES → spent_of es ≤ MAX_TEXT →
  parse (show_query (mkQuery es)) = Some (mkQuery es).
Proof.
  intros Hs Hl Hx. unfold show_query. cbn [clauses]. set (t := join_chars (txt " ") (show_expr <$> es)).
  assert (∃ ts, tokens (length t) t = ts ∧ tok <$> ts = concat (toks_of <$> es)) as (ts & Et & Hk).
  { destruct (decide (es = [])) as [->|Hne]; [by exists []|].
    destruct (lex_items es (length t) [] (Forall_impl _ _ _ Hs (λ e, lex_expr e _ _)) Hne I) as (ts & E & Hk).
    exists ts. rewrite app_nil_r in E. fold t in E. rewrite E. split; [|done]. unfold tokens at 1. cbn. by rewrite app_nil_r. }
  destruct (clauses_parse (length t) 0 es (start_state t) ts []) as (p & Hp & Hgo); [done| |done|].
  { split; cbn; [done|by rewrite Et, app_nil_r|done|lia|lia]. }
  destruct (Hgo 1%nat [] p) as [f Hf].
  { rewrite and_expr_S. destruct Hp as [-> Hpt _ _]. unfold peek. by rewrite Hpt. }
  rewrite app_nil_r in Hf. rewrite (parse_run t es p f); [|unfold MAX_INPUT, MAX_CLAUSES, MAX_TEXT in *; pose proof (clauses_bound es Hs); unfold t; lia|done].
  unfold finished. by destruct Hp as [-> _ _ _].
Qed.

(** With as many clauses as there can be, the phrase after them is what the
    limits leave again. *)
Lemma reads_full es r :
  Forall (shape LItem 0) es → leaves_of es = MAX_CLAUSES → spent_of es ≤ MAX_TEXT →
  tidy r → r ≠ [] → Z.of_nat (length r) ≤ MAX_TEXT - spent_of es →
  parse (show_query (mkQuery (es ++ [Phrase r]))) = Some (mkQuery (es ++ [Phrase r])).
Proof.
  intros Hs Hl Hx Hr Hne Hlen. unfold show_query. cbn [clauses].
  assert (es ≠ []) as Hes by (intros ->; cbn in Hl; unfold MAX_CLAUSES in Hl; lia).
  assert (join_chars (txt " ") (show_expr <$> es ++ [Phrase r]) = join_chars (txt " ") (show_expr <$> es) ++ txt " " ++ quote_name r) as ->.
  { clear -Hes. induction es as [|e es IH]; [done|]. destruct (decide (es = [])) as [->|Hes']; [done|].
    cbn [app fmap list_fmap]. rewrite !join_chars_cons by (by destruct es). rewrite IH by done. by rewrite <-!app_assoc. }
  set (t1 := join_chars (txt " ") (show_expr <$> es)). set (t := t1 ++ txt " " ++ quote_name r).
  destruct (lex_items es (length t) (txt " " ++ quote_name r) (Forall_impl _ _ _ Hs (λ e, lex_expr e _ _)) Hes) as (ts & E & Hk); [by left|].
  change (join_chars (txt " ") (show_expr <$> es) ++ txt " " ++ quote_name r) with t in E.
  pose proof (rest_leaf r Hr Hne) as (_ & _ & Hb). destruct (Hb (length t) [] I) as [ns Eone]. rewrite app_nil_r in Eone. cbn [show_expr] in Eone.
  assert (tokens (length t) (txt " " ++ quote_name r) = [mkToken (TLeaf (Phrase r)) (length t1 + 1)]) as Elast.
  { change (txt " " ++ quote_name r) with (32 :: quote_name r). rewrite tokens_space. change (quote_name r) with (QUOTE :: r ++ [QUOTE]) in Eone |- *.
    rewrite (tokens_eq _ _ _ _ _ _ Eone). unfold tokens. cbn [option_token lex_loop length fst app]. do 2 f_equal.
    unfold t. rewrite !length_app. change (length (txt " ")) with 1%nat. change (quote_name r) with (QUOTE :: r ++ [QUOTE]). cbn [length]. rewrite length_app. cbn [length]. lia. }
  rewrite Elast in E. set (last := mkToken (TLeaf (Phrase r)) (length t1 + 1)) in *.
  destruct (clauses_parse (length t) 0 es (start_state t) ts [last]) as (p & [Hps Hpt Hpl Hpx] & Hgo); [done| |done|].
  { split; cbn; [done|done|done|lia|lia]. }
  cbn in Hpl, Hpx.
  destruct (Hgo 5%nat [] (stop_for (length t) TooManyClauses p)) as [f Hf].
  { assert (peek p = Some (TLeaf (Phrase r))) as Hpk by (unfold peek; by rewrite Hpt).
    assert (leaf (length t) (Phrase r) p = (None, stop_for (length t) TooManyClauses p)) as Hleaf.
    { unfold leaf. by rewrite (proj2 (Z.leb_le _ _)) by lia. }
    rewrite and_expr_S, Hps, Hpk. rewrite or_expr_S, unary_S. rewrite Hpt.
    change (minuses [last] false) with (false, [last]). cbn beta iota.
    replace (mkParser [last] (leaves p) (spent p) (stop p) (p_notices p)) with p by (destruct p; cbn in *; by subst).
    rewrite atom_S, Hpk, Hleaf. cbn [mbind option_bind]. rewrite or_rest_S. cbn [stop stop_for mbind option_bind].
    rewrite and_expr_S. done. }
  rewrite app_nil_r in Hf.
  assert (Z.of_nat (length t) ≤ MAX_INPUT) as Hmax.
  { pose proof (clauses_bound es Hs). unfold t, t1, quote_name. rewrite !length_app. change (length (txt " ")) with 1%nat. cbn [length].
    unfold MAX_INPUT, MAX_CLAUSES, MAX_TEXT in *. lia. }
  rewrite (parse_run t es _ f Hmax Hf). unfold finished. cbn [stop stop_for why stop_at]. rewrite decide_False by done. cbn zeta.
  assert (drop (start_of (length t) p) t = quote_name r) as ->.
  { unfold start_of. rewrite Hpt. unfold last, t. cbn [t_start]. rewrite app_assoc, drop_app_length'; [done|].
    rewrite length_app. reflexivity. }
  cbn [spent stop_for]. rewrite (rest_text_again r (MAX_TEXT - spent p)) by (done || lia). by rewrite bool_decide_eq_false_2.
Qed.

(** The nesting of groups. *)
Fixpoint group_depth (e : Expr) : nat :=
  match e with
  | Not a => group_depth a
  | Or es => foldr (λ e n, max (group_depth e) n) 0%nat es
  | Group es => S (foldr (λ e n, max (group_depth e) n) 0%nat es)
  | _ => 0%nat
  end.
Lemma shape_depth l d e : shape l d e → (d <= MAX_DEPTH)%nat → (d + group_depth e <= MAX_DEPTH)%nat.
Proof.
  assert (∀ es m, Forall (λ e, (group_depth e <= m)%nat) es → (foldr (λ e n, max (group_depth e) n) 0 es <= m)%nat) as Hmax.
  { induction 1 as [|x es Hx _ IH]; cbn; lia. }
  revert l d. induction e as [e He|e IH|es IH|es IH] using Expr_rect'; intros l d Hs Hd.
  - destruct e; try done; cbn; lia.
  - destruct Hs as [_ Hs]. by apply IH in Hs.
  - destruct Hs as (_ & _ & Hs). apply foldr_Forall in Hs. cbn.
    assert (foldr (λ e n, max (group_depth e) n) 0 es <= MAX_DEPTH - d)%nat; [|lia]. apply Hmax. rewrite Forall_forall in *.
    intros e He. specialize (IH e He _ _ (Hs e He) Hd). lia.
  - destruct Hs as (Hlt & _ & Hs). apply foldr_Forall in Hs. cbn.
    assert (foldr (λ e n, max (group_depth e) n) 0 es <= MAX_DEPTH - S d)%nat; [|lia]. apply Hmax. rewrite Forall_forall in *.
    intros e He. specialize (IH e He _ _ (Hs e He) ltac:(lia)). lia.
Qed.

(** C38: every string is a query: the lexer's loop ends on every input, since
    more fuel than a character's worth per turn reads no more, and so does the
    parser's recursion, with the query within the limits, one clause more at most
    for what the clause limit leaves over, and its canonical text within what the
    parser reads. *)
Theorem parse_is_total input :
  (∀ cs fuel, (length cs ≤ fuel)%nat → lex_loop fuel (length cs) cs = lex cs) ∧
  ∃ q, parse input = Some q ∧ leaves_of (clauses q) ≤ MAX_CLAUSES + 1 ∧ spent_of (clauses q) ≤ MAX_TEXT ∧
    Forall (λ e, (group_depth e <= MAX_DEPTH)%nat) (clauses q) ∧ Z.of_nat (length (show_query q)) ≤ MAX_INPUT.
Proof.
  split; [intros cs fuel Hf; by apply lex_loop_fuel|].
  destruct (parse_canonical input) as (es & rest & E & [Hs Hl Hx Hr]). exists (mkQuery (all_clauses es rest)). split; [done|].
  unfold show_query. cbn [clauses]. unfold all_clauses. destruct rest as [r|].
  - destruct (Hr r eq_refl) as (Ht & Hne & Hlen). destruct (sums_app es [Phrase r]) as [-> Ex].
    assert (Forall (shape LItem 0) (es ++ [Phrase r])) as Hall by (apply Forall_app; split; [done|by apply Forall_singleton, rest_leaf]).
    pose proof (clauses_bound _ Hall) as Hb. destruct (sums_app es [Phrase r]) as [El _]. rewrite El, Ex in Hb. rewrite Ex.
    assert (leaves_of [Phrase r] = 1 ∧ spent_of [Phrase r] = Z.of_nat (length r)) as [E1 E2] by (cbn; lia). rewrite E1, E2 in *.
    split; [lia|]. split; [lia|]. split; [|unfold MAX_INPUT, MAX_TEXT, MAX_CLAUSES in *; lia].
    eapply Forall_impl; [exact Hall|]. intros e He. apply shape_depth in He; [done|unfold MAX_DEPTH; lia].
  - rewrite app_nil_r. split; [lia|]. split; [done|]. pose proof (clauses_bound es Hs).
    split; [|unfold MAX_INPUT, MAX_TEXT, MAX_CLAUSES in *; lia].
    eapply Forall_impl; [exact Hs|]. intros e He. apply shape_depth in He; [done|unfold MAX_DEPTH; lia].
Qed.

(** C37: the canonical text of a query is read back as the same query: for
    whatever was typed, [parse(&q.to_string()) == q]. *)
Theorem canonical_text_reads_back input q : parse input = Some q → parse (show_query q) = Some q.
Proof.
  destruct (parse_canonical input) as (es & rest & -> & [Hs Hl Hx Hr]). intros [= <-]. unfold all_clauses. destruct rest as [r|].
  - destruct (Hr r eq_refl) as (Ht & Hne & Hlen). destruct (decide (leaves_of es = MAX_CLAUSES)) as [Hfull|Hroom]; [by apply reads_full|].
    destruct (sums_app es [Phrase r]) as [El Ex].
    assert (leaves_of [Phrase r] = 1 ∧ spent_of [Phrase r] = Z.of_nat (length r)) as [E1 E2] by (cbn; lia).
    apply reads_clauses; [|rewrite El, E1; lia|rewrite Ex, E2; lia]. apply Forall_app. split; [done|]. by apply Forall_singleton, rest_leaf.
  - rewrite app_nil_r. by apply reads_clauses.
Qed.
End canon.
