(* ===== verification/SearchExamples.v ===== *)
(** * Queries on the Gregorian calendar

    The calendar of Gregorian.v prints dates as the search grammar expects,
    and the theorems about queries at concrete inputs. *)

From Stdlib Require Import ZArith Lia String.
From stdpp Require Import base tactics decidable option list strings.
From S2P Require Import Prelude Bytes Calendar Rrule Gregorian Search SearchLex SearchLeaf SearchParse SearchCanon.
Open Scope Z_scope.

Lemma zeros_text n s : txt (String.append (zeros n) s) = replicate n 48 ++ txt s.
Proof. unfold txt. rewrite text_bytes_app. f_equal. induction n as [|n IH]; [done|]. exact (f_equal (cons 48) IH). Qed.
Lemma pad_text w n : 0 ≤ n → txt (pad w n) = zero_padded w n.
Proof. intros Hn. unfold pad, zero_padded. rewrite decide_False, zeros_text by lia. unfold txt. by rewrite length_text_bytes. Qed.

#[export] Instance gregorian_iso : @IsoDates gregorian.
Proof.
  intros d (Hy & Hm & Hd) Hy0. cbn [show_date gregorian]. unfold any_date_text.
  assert (1 ≤ days_in_month d ≤ 31) by (by apply days_in_month_pos).
  rewrite decide_True by (unfold iso_fits; lia). unfold iso_text. cbn [join_with]. unfold txt. rewrite !text_bytes_app.
  fold txt. change (text_bytes ?s) with (txt s). by rewrite !pad_text by lia.
Qed.

Definition typed : chars :=
  txt "Stream:work a OR -() OR -b (planned:-0d due<=MONDAY..x target:2026-10..2026-11-02 stream:"
  ++ quote_name (txt "Side p") ++ txt ",b (((((((c (d".
Definition typed_canonical : chars :=
  txt "#work a OR -b (planned:+0d due<=MONDAY..x target:2026-10..2026-11-02 stream:" ++ quote_name (txt "Side p")
  ++ txt ",b (((((((c)))))))) " ++ quote_name (txt "(d").
Example typed_is_canonical : show_query <$> @parse gregorian typed = Some typed_canonical.
Proof. vm_compute. reflexivity. Qed.

Lemma canonical_text_reads_back_witness :
  ∃ q, @parse gregorian typed = Some q ∧ @parse gregorian (show_query q) = Some q ∧ length (clauses q) = 4%nat.
Proof.
  destruct (@parse gregorian typed) as [q|] eqn:E; [|vm_compute in E; discriminate E].
  exists q. split; [done|]. split; [by apply (canonical_text_reads_back typed q)|]. vm_compute in E. injection E as <-. done.
Defined.

Lemma parse_is_total_witness :
  ∃ q, @parse gregorian typed = Some q ∧ leaves_of (clauses q) ≤ MAX_CLAUSES + 1 ∧ spent_of (clauses q) ≤ MAX_TEXT.
Proof. destruct (parse_is_total typed) as [_ (q & E & Hl & Hx & _)]. exists q. exact (conj E (conj Hl Hx)). Defined.
