(* ===== verification/SearchText.v ===== *)
(** * Folding, matches and snippets (sunrise-domain: search/text.rs)

    Text is folded before it is indexed or matched, and a match in the folded
    text is mapped back to a range of the original.  What the Unicode tables
    say of one character is the class [Unicode]. *)

From Stdlib Require Import ZArith Lia.
From stdpp Require Import base tactics decidable option list sorting.
From S2P Require Import Prelude.
Open Scope Z_scope.

Abbreviation chars := (list Z).
Abbreviation ranges := (list (Z * Z)).

Class Unicode := {
  to_lowercase : Z → chars;
  decompose_compatible : Z → chars;
  is_combining_mark : Z → bool;
  is_control : Z → bool;
}.

Section text.
Context `{Unicode}.

Definition fold_char (c : Z) : chars :=
  to_lowercase c ≫= λ lower, decompose_compatible lower ≫= λ d, if is_combining_mark d then [] else to_lowercase d.
Definition fold (text : chars) : chars := text ≫= fold_char.

(** The folded characters, each with the index of the character it came from;
    and whether each character folded to nothing. *)
Fixpoint fold_from (i : nat) (text : chars) : list (Z * Z) :=
  match text with
  | [] => []
  | c :: text' => ((λ d, (d, Z.min (Z.of_nat i) u32_max)) <$> fold_char c) ++ fold_from (S i) text'
  end.
Definition vanished (text : chars) : list bool := (λ c, bool_decide (fold_char c = [])) <$> text.
Definition fold_mapped (text : chars) : list (Z * Z) * list bool := (fold_from 0 text, vanished text).

(** The end of a match whose last letter is at [last]: past the marks on it. *)
Fixpoint run_of_true (l : list bool) : nat := match l with true :: l' => S (run_of_true l') | _ => O end.
Definition end_after (gone : list bool) (last : Z) : Z :=
  let after := S (Z.to_nat last) in Z.min (Z.of_nat (after + run_of_true (drop after gone))) u32_max.

(** The loop over one needle, on what is left of the folded text. *)
Fixpoint scan (fuel : nat) (gone : list bool) (n : chars) (hay : list (Z * Z)) : ranges :=
  match fuel with
  | O => []
  | S fuel' =>
      let here := take (length n) hay in
      match hay, last here with
      | (_, from) :: hay', Some (_, to) =>
          if decide (here.*1 = n) then (from, end_after gone to) :: scan fuel' gone n (drop (length n) hay)
          else scan fuel' gone n hay'
      | _, _ => []
      end
  end.
Definition needle_ranges (text : chars) (needle : chars) : ranges :=
  let n := fold needle in
  let '(hay, gone) := fold_mapped text in
  if bool_decide (n = []) || bool_decide (length hay < length n)%nat then [] else scan (S (length hay)) gone n hay.

(** [merge]: sorted, then joined where they overlap or touch. *)
Definition push_range (out : ranges) (r : Z * Z) : ranges :=
  match out with
  | (s, e) :: out' => if r.1 <=? e then (s, Z.max e r.2) :: out' else r :: out
  | [] => [r]
  end.
Definition range_le (a b : Z * Z) : Prop := a ≼ b.
#[local] Instance range_le_dec : RelDecision range_le.
Proof. intros a b. unfold range_le. apply _. Defined.
Definition merge (l : ranges) : ranges := reverse (foldl push_range [] (isort range_le l)).

Definition match_ranges (text : chars) (needles : list chars) : ranges := merge (needles ≫= needle_ranges text).

Record Highlighted := mkHighlighted { text : chars; marks : ranges }.
Definition highlight (t : chars) (needles : list chars) : Highlighted := mkHighlighted t (match_ranges t needles).

Definition SNIPPET_LEN : nat := 160.
Definition snippet (body : chars) (needles : list chars) : option Highlighted :=
  let rs := match_ranges body needles in
  first ← head rs.*1;
  let len := length body in
  let start := (Z.to_nat first - SNIPPET_LEN / 4)%nat in
  let end_ := min (start + SNIPPET_LEN) len in
  let start := if decide (end_ - start < SNIPPET_LEN)%nat then (end_ - SNIPPET_LEN)%nat else start in
  let shown := (λ c, if is_control c then 32 else c) <$> take (end_ - start) (drop start body) in
  let lo := Z.min (Z.of_nat start) u32_max in
  let hi := Z.min (Z.of_nat end_) u32_max in
  Some (mkHighlighted shown
    ((λ r, (Z.max r.1 lo - lo, Z.min r.2 hi - lo)) <$> filter (λ r, lo < r.2 ∧ r.1 < hi) rs)).

Definition is_cjk (c : Z) : bool :=
  existsb (λ r, bool_decide (r.1 ≤ c ≤ r.2))
    [(0x1100, 0x11FF); (0x2E80, 0x2FDF); (0x3040, 0x30FF); (0x3100, 0x312F); (0x3130, 0x318F); (0x31A0, 0x31FF);
     (0x3400, 0x4DBF); (0x4E00, 0x9FFF); (0xA960, 0xA97F); (0xAC00, 0xD7FF); (0xF900, 0xFAFF); (0xFF66, 0xFF9F);
     (0x20000, 0x3FFFF)].

(** ** Ranges *)

Definition covers (l : ranges) (x : Z) : Prop := ∃ r, r ∈ l ∧ r.1 ≤ x < r.2.
(** In order, none empty, with a gap between one and the next. *)
Definition separated (l : ranges) : Prop := StronglySorted (λ a b, a.2 < b.1) l ∧ Forall (λ r, r.1 < r.2) l.

Lemma covers_cons r l x : covers (r :: l) x ↔ r.1 ≤ x < r.2 ∨ covers l x.
Proof. unfold covers. setoid_rewrite elem_of_cons. naive_solver. Qed.
Lemma covers_nil x : ¬ covers [] x.
Proof. intros (r & Hr & _). by apply not_elem_of_nil in Hr. Qed.
Lemma covers_app l1 l2 x : covers (l1 ++ l2) x ↔ covers l1 x ∨ covers l2 x.
Proof. unfold covers. setoid_rewrite elem_of_app. naive_solver. Qed.
Lemma covers_same l1 l2 x : l1 ≡ₚ l2 → covers l1 x ↔ covers l2 x.
Proof. intros Hp. unfold covers. by setoid_rewrite Hp. Qed.

(** The list [merge] builds, last range first. *)
Definition stacked (out : ranges) : Prop :=
  StronglySorted (λ a b, b.2 < a.1) out ∧ Forall (λ r, r.1 < r.2) out.

Lemma push_stacked out r : stacked out → r.1 < r.2 → (∀ a, head out = Some a → a.1 ≤ r.1) →
  stacked (push_range out r) ∧ (∀ x, covers (push_range out r) x ↔ covers out x ∨ r.1 ≤ x < r.2) ∧
  (∀ a, head (push_range out r) = Some a → a.1 ≤ r.1).
Proof.
  intros [Hs Hne] Hr Hle. destruct out as [|[s e] out]; cbn [push_range].
  - split_and!; [by split; [constructor; constructor|by constructor]| |naive_solver].
    intros x. rewrite covers_cons. pose proof (covers_nil x). tauto.
  - specialize (Hle (s, e) eq_refl). cbn in Hle. apply StronglySorted_inv in Hs as [Hs Hall]. apply Forall_cons in Hne as [Hse Hne]. cbn in Hse.
    destruct (Z.leb_spec r.1 e) as [Hre|Hre].
    + split_and!; [split; [by constructor|constructor; [cbn; lia|done]]| |intros a [= <-]; done].
      intros x. rewrite !covers_cons. cbn [fst snd]. split; [|intros [[?|?]|?]; [left; lia|by right|left; lia]].
      intros [?|?]; [|tauto]. destruct (decide (x < e)); [left; left; lia|right; lia].
    + split_and!; [split; [|by repeat constructor]| |intros a [= <-]; lia].
      * constructor; [by constructor|]. constructor; [done|]. eapply Forall_impl; [exact Hall|]. cbn. lia.
      * intros x. rewrite (covers_cons r). tauto.
Qed.
Lemma fold_stacked l out :
  StronglySorted range_le l → Forall (λ r, r.1 < r.2) l → stacked out → (∀ a r, head out = Some a → r ∈ l → a.1 ≤ r.1) →
  stacked (foldl push_range out l) ∧ ∀ x, covers (foldl push_range out l) x ↔ covers out x ∨ covers l x.
Proof.
  intros Hs Hne. revert out. induction Hs as [|r l Hs IH Hall]; intros out Hout Hle; cbn [foldl].
  - split; [done|]. intros x. pose proof (covers_nil x). tauto.
  - apply Forall_cons in Hne as [Hr Hne]. destruct (push_stacked out r Hout Hr) as (H1' & H2' & H3'); [intros a Ha; eapply Hle; [done|constructor]|].
    destruct (IH Hne (push_range out r) H1') as [Hst Hc].
    + intros a r' Ha Hr'. apply H3' in Ha. rewrite Forall_forall in Hall. specialize (Hall r' Hr'). unfold range_le in Hall.
      apply tle_cases in Hall as [Hlt| ->]; [|done]. apply prod_tlt in Hlt as [Hlt|[E _]]; [rewrite Z_tlt_lt in Hlt; lia|lia].
    + split; [done|]. intros x. rewrite Hc, H2', covers_cons. tauto.
Qed.
Lemma reverse_separated l : stacked l → separated (reverse l).
Proof.
  intros [Hs Hne]. split; [|by apply Forall_reverse]. clear Hne.
  induction Hs as [|r l Hs IH Hall]; [constructor|]. rewrite reverse_cons. apply StronglySorted_app. split_and!; [|done|constructor; constructor].
  intros a b Ha ->%list_elem_of_singleton. rewrite elem_of_reverse in Ha. rewrite Forall_forall in Hall. exact (Hall a Ha).
Qed.

#[local] Instance range_le_total : Total range_le.
Proof. intros a b. apply tle_total. Qed.
#[local] Instance range_le_trans : Transitive range_le.
Proof. intros a b c. apply tle_trans. Qed.

Lemma merge_spec l : Forall (λ r, r.1 < r.2) l → separated (merge l) ∧ ∀ x, covers (merge l) x ↔ covers l x.
Proof.
  intros Hne. unfold merge. pose proof (isort_Permutation range_le l) as Hp.
  destruct (fold_stacked (isort range_le l) []) as [Hst Hc].
  - apply isort_StronglySorted; apply _.
  - by rewrite Hp.
  - split; constructor.
  - done.
  - split; [by apply reverse_separated|]. intros x. rewrite (covers_same (reverse _) _ x (reverse_Permutation _)), Hc, (covers_same _ _ x Hp).
    pose proof (covers_nil x). tauto.
Qed.

(** ** Matches *)

(** [n] stands at place [i] of the folded text. *)
Definition occurs_at (n : chars) (hay : list (Z * Z)) (i : nat) : Prop := take (length n) (drop i hay.*1) = n.
(** The leftmost reading: the places [n] stands at that no place taken before
    overlaps.  Each place is decided by the ones before it, so one [P] is. *)
Definition leftmost (n : chars) (hay : list (Z * Z)) (P : nat → Prop) : Prop :=
  ∀ i, P i ↔ occurs_at n hay i ∧ ∀ j, P j → ¬ (j < i < j + length n)%nat.

(** The places [scan] takes. *)
Fixpoint starts (fuel : nat) (n : chars) (hay : list (Z * Z)) (off : nat) : list nat :=
  match fuel, hay with
  | S fuel', _ :: hay' =>
      if decide (take (length n) hay.*1 = n) then off :: starts fuel' n (drop (length n) hay) (off + length n)
      else starts fuel' n hay' (S off)
  | _, _ => []
  end.
Definition source (hay : list (Z * Z)) (i : nat) : Z := default 0 (snd <$> hay !! i).
Definition mark_of (gone : list bool) (n : chars) (hay : list (Z * Z)) (i : nat) : Z * Z :=
  (source hay i, end_after gone (source hay (i + length n - 1))).

Lemma source_drop k hay i : source (drop k hay) i = source hay (k + i).
Proof. unfold source. by rewrite lookup_drop. Qed.

Lemma scan_starts f gone n hay : n ≠ [] → ∀ all off, drop off all = hay →
  scan f gone n hay = mark_of gone n all <$> starts f n hay off.
Proof.
  intros Hn. revert hay. induction f as [|f IH]; intros hay all off Hall; [done|]. cbn [scan starts].
  destruct hay as [|[c from] hay]; [done|].
  assert (source all off = from) as Hfrom.
  { unfold source. rewrite <-(Nat.add_0_r off), <-lookup_drop, Hall. done. }
  destruct (last (take (length n) ((c, from) :: hay))) as [[d to]|] eqn:El.
  2:{ apply last_None in El. by destruct n. }
  rewrite fmap_take. case_decide as Hd.
  - cbn [fmap list_fmap]. rewrite <-(IH _ all (off + length n)%nat).
    2:{ by rewrite <-drop_drop, Hall. }
    f_equal. unfold mark_of. rewrite Hfrom. f_equal. f_equal.
    assert (length (take (length n) ((c, from) :: hay)) = length n) as Hlen
      by (rewrite <-(length_fmap fst), fmap_take, Hd; done).
    rewrite last_lookup, Hlen, lookup_take_lt in El by (destruct n; [done|simpl; lia]).
    unfold source. replace (off + length n - 1)%nat with (off + pred (length n))%nat by (destruct n; [done|simpl; lia]).
    by rewrite <-lookup_drop, Hall, El.
  - apply IH. replace (S off) with (off + 1)%nat by lia. by rewrite <-drop_drop, Hall.
Qed.

Lemma starts_ge f n hay off k : k ∈ starts f n hay off → (off <= k)%nat.
Proof.
  revert hay off. induction f as [|f IH]; intros hay off; [by intros ?%not_elem_of_nil|]. cbn [starts].
  destruct hay as [|x hay]; [by intros ?%not_elem_of_nil|]. case_decide.
  - rewrite elem_of_cons. intros [->|Hk%IH]; lia.
  - intros Hk%IH. lia.
Qed.

Lemma starts_spec f n hay off k : n ≠ [] → (length hay < f)%nat →
  k ∈ starts f n hay off ↔
  (off <= k)%nat ∧ occurs_at n hay (k - off) ∧ ∀ j, j ∈ starts f n hay off → ¬ (j < k < j + length n)%nat.
Proof.
  intros Hn. assert (0 < length n)%nat as Hpos by (destruct n; [done|simpl; lia]).
  revert hay off k. induction f as [|f IH]; intros hay off k Hf; [lia|].
  destruct hay as [|x hay]; cbn [starts].
  { split; [by intros ?%not_elem_of_nil|]. intros (_ & Ho & _). unfold occurs_at in Ho. cbn in Ho.
    rewrite drop_nil, take_nil in Ho. by subst n. }
  case_decide as Hd.
  - set (hay1 := drop (length n) (x :: hay)). specialize (IH hay1 (off + length n)%nat).
    assert (length hay1 < f)%nat as Hf1 by (unfold hay1; rewrite length_drop; simpl in *; lia).
    assert ((off + length n <= k)%nat → occurs_at n hay1 (k - (off + length n)) ↔ occurs_at n (x :: hay) (k - off)) as Hocc.
    { intros Hk. unfold occurs_at, hay1. rewrite fmap_drop, drop_drop.
      by replace (length n + (k - (off + length n)))%nat with (k - off)%nat by lia. }
    rewrite elem_of_cons. split.
    + intros [->|Hk].
      * split_and!; [lia|unfold occurs_at; by rewrite Nat.sub_diag, drop_0|].
        intros j [->|Hj%starts_ge]%elem_of_cons; lia.
      * apply IH in Hk as (Hle & Ho & Hno); [|done]. split_and!; [lia|by apply Hocc|].
        intros j [->|Hj]%elem_of_cons; [lia|by apply Hno].
    + intros (Hle & Ho & Hno). destruct (decide (k = off)) as [->|Hne]; [by left|right].
      pose proof (Hno off (list_elem_of_here _ _)) as Hoff. apply IH; [done|]. split_and!; [lia|apply Hocc; [lia|done]|].
      intros j Hj. apply Hno. by right.
  - specialize (IH hay (S off) k). rewrite IH by (simpl in Hf; lia). split.
    + intros (Hle & Ho & Hno). split_and!; [lia| |done]. unfold occurs_at in *.
      replace (k - off)%nat with (S (k - S off)) by lia. done.
    + intros (Hle & Ho & Hno). destruct (decide (k = off)) as [->|Hne].
      { exfalso. apply Hd. unfold occurs_at in Ho. by rewrite Nat.sub_diag, drop_0 in Ho. }
      split_and!; [lia| |done]. unfold occurs_at in *. replace (k - off)%nat with (S (k - S off)) in Ho by lia. done.
Qed.

(** *** Where the folded characters came from *)

Lemma fold_from_bounds i t : Z.of_nat (i + length t) ≤ u32_max →
  Forall (λ x, Z.of_nat i ≤ x.2 < Z.of_nat (i + length t)) (fold_from i t) ∧
  StronglySorted (λ a b, a.2 ≤ b.2) (fold_from i t).
Proof.
  revert i. induction t as [|c t IH]; intros i Hi; [split; constructor|]. cbn [fold_from length] in *.
  destruct (IH (S i)) as [Hb Hs]; [lia|]. rewrite Z.min_l by lia. split.
  - apply Forall_app. split; [apply Forall_fmap, Forall_true; intros d; cbn; lia|]. eapply Forall_impl; [exact Hb|]. cbn. lia.
  - apply StronglySorted_app. split_and!; [|clear; induction (fold_char c) as [|d l IH]; constructor; [done|apply Forall_fmap, Forall_true; cbn; lia]|done].
    intros a b (d & -> & _)%list_elem_of_fmap Hb'. rewrite Forall_forall in Hb. specialize (Hb b Hb'). cbn. lia.
Qed.

(** A match whose last letter is character [to] of [t] ends at [e]: every
    character between folds to nothing, and the one at [e] does not. *)
Definition ends_at (t : chars) (to e : Z) : Prop :=
  to < e ≤ Z.of_nat (length t) ∧
  (∀ k c, to < Z.of_nat k < e → t !! k = Some c → fold_char c = []) ∧
  (∀ c, t !! Z.to_nat e = Some c → fold_char c ≠ []).

Lemma run_of_true_le l : (run_of_true l <= length l)%nat.
Proof. induction l as [|[] l IH]; cbn; lia. Qed.
Lemma run_of_true_spec l :
  (∀ k, (k < run_of_true l)%nat → l !! k = Some true) ∧ l !! run_of_true l ≠ Some true.
Proof.
  induction l as [|[] l [IH1 IH2]]; cbn; [split; [lia|done]| |split; [lia|done]].
  split; [|done]. intros [|k] Hk; [done|]. apply IH1. lia.
Qed.

Lemma vanished_lookup t k b : vanished t !! k = Some b → ∃ c, t !! k = Some c ∧ b = bool_decide (fold_char c = []).
Proof. unfold vanished. rewrite list_lookup_fmap. intros (c & ? & ->)%fmap_Some. by exists c. Qed.

Lemma end_after_ends t to : 0 ≤ to < Z.of_nat (length t) → Z.of_nat (length t) ≤ u32_max →
  ends_at t to (end_after (vanished t) to).
Proof.
  intros Ht Hl. unfold end_after. set (l := drop (S (Z.to_nat to)) (vanished t)).
  pose proof (run_of_true_le l) as Hr. destruct (run_of_true_spec l) as [Hall Hend].
  assert (length l = length t - S (Z.to_nat to))%nat as Hlen by (unfold l, vanished; by rewrite length_drop, length_fmap).
  rewrite Z.min_l by lia. split_and!; [lia|lia| |].
  - intros k c Hk Hc. specialize (Hall (k - S (Z.to_nat to))%nat ltac:(lia)). unfold l in Hall. rewrite lookup_drop in Hall.
    replace (S (Z.to_nat to) + (k - S (Z.to_nat to)))%nat with k in Hall by lia.
    apply vanished_lookup in Hall as (c' & Hc' & Hb). symmetry in Hb. apply bool_decide_eq_true in Hb. congruence.
  - intros c Hc Hn. apply Hend. rewrite Nat2Z.id in Hc. pose proof (lookup_drop (vanished t) (S (Z.to_nat to)) (run_of_true l)) as El.
    change (drop _ (vanished t)) with l in El. rewrite El. clear El Hend. unfold vanished.
    rewrite list_lookup_fmap. rewrite Hc. simpl. by rewrite bool_decide_true.
Qed.

Lemma ends_at_unique t to e1 e2 : 0 ≤ to → ends_at t to e1 → ends_at t to e2 → e1 = e2.
Proof.
  assert (∀ a b, 0 ≤ to → ends_at t to a → ends_at t to b → a < b → False) as Hlt.
  { intros a b H0 ((Ha & _) & _ & Hstop) ((_ & Hb) & Hgone & _) Hab.
    destruct (t !! Z.to_nat a) as [c|] eqn:Ec; [|apply lookup_ge_None in Ec; lia].
    apply (Hstop c eq_refl), (Hgone (Z.to_nat a) c); [lia|done]. }
  intros H0 H1 H2. destruct (Z.lt_total e1 e2) as [?|[?|?]]; [by edestruct (Hlt e1 e2)|done|by edestruct (Hlt e2 e1)].
Qed.

Lemma occurs_length n hay i : occurs_at n hay i → (length n <= length hay - i)%nat.
Proof. intros Ho. rewrite <-Ho, length_take, length_drop, length_fmap. lia. Qed.

Lemma needle_ranges_starts t needle : fold needle ≠ [] →
  needle_ranges t needle =
    mark_of (vanished t) (fold needle) (fold_from 0 t) <$>
      starts (S (length (fold_from 0 t))) (fold needle) (fold_from 0 t) 0.
Proof.
  intros Hn. change (needle_ranges t needle) with
    (if bool_decide (fold needle = []) || bool_decide (length (fold_from 0 t) < length (fold needle))%nat then []
     else scan (S (length (fold_from 0 t))) (vanished t) (fold needle) (fold_from 0 t)).
  rewrite bool_decide_false by done. case_bool_decide as Hl; cbn [orb]; [|by apply scan_starts].
  destruct (starts _ _ _ 0) as [|k l] eqn:E; [done|]. exfalso.
  assert (k ∈ starts (S (length (fold_from 0 t))) (fold needle) (fold_from 0 t) 0) as Hk by (rewrite E; by left).
  apply starts_spec in Hk as (_ & Ho%occurs_length & _); [lia|done|lia].
Qed.
Lemma needle_ranges_empty t needle : fold needle = [] → needle_ranges t needle = [].
Proof.
  intros Hn. change (needle_ranges t needle) with
    (if bool_decide (fold needle = []) || bool_decide (length (fold_from 0 t) < length (fold needle))%nat then []
     else scan (S (length (fold_from 0 t))) (vanished t) (fold needle) (fold_from 0 t)).
  by rewrite bool_decide_true.
Qed.

Lemma sorted_lookup {A} (R : A → A → Prop) l i j x y :
  StronglySorted R l → l !! i = Some x → l !! j = Some y → (i < j)%nat → R x y.
Proof.
  intros Hs. revert i j. induction Hs as [|z l Hs IH Hz]; intros [|i] [|j] Hx Hy Hij; try done; try lia.
  - injection Hx as ->. rewrite Forall_forall in Hz. by eapply Hz, list_elem_of_lookup_2.
  - eapply IH; [exact Hx|exact Hy|lia].
Qed.

(** Where an occurrence begins and ends in the text. *)
Lemma occurs_source t n i : Z.of_nat (length t) ≤ u32_max → n ≠ [] → occurs_at n (fold_from 0 t) i →
  let a := source (fold_from 0 t) i in let b := source (fold_from 0 t) (i + length n - 1) in
  0 ≤ a ≤ b ∧ b < Z.of_nat (length t).
Proof.
  intros Hl Hn Ho%occurs_length. assert (0 < length n)%nat as Hpos by (destruct n; [done|simpl; lia]).
  destruct (fold_from_bounds 0 t ltac:(lia)) as [Hb Hs]. set (hay := fold_from 0 t) in *.
  destruct (lookup_lt_is_Some_2 hay i ltac:(lia)) as [x Hx].
  destruct (lookup_lt_is_Some_2 hay (i + length n - 1) ltac:(lia)) as [y Hy].
  unfold source. rewrite Hx, Hy. cbn. pose proof (Forall_lookup_1 _ _ _ _ Hb Hx) as Hbx.
  pose proof (Forall_lookup_1 _ _ _ _ Hb Hy) as Hby. cbn in Hbx, Hby. split; [|lia]. split; [lia|].
  destruct (decide (i = i + length n - 1)%nat) as [He|He]; [rewrite <-He in Hy; by simplify_eq|].
  exact (sorted_lookup _ _ _ _ _ _ Hs Hx Hy ltac:(lia)).
Qed.

(** The occurrences marked, before they are merged. *)
Definition raw_ranges (t : chars) (needles : list chars) : ranges := needles ≫= needle_ranges t.
Lemma elem_of_raw t needles r :
  r ∈ raw_ranges t needles ↔
  ∃ needle i, needle ∈ needles ∧ fold needle ≠ [] ∧
    i ∈ starts (S (length (fold_from 0 t))) (fold needle) (fold_from 0 t) 0 ∧
    r = mark_of (vanished t) (fold needle) (fold_from 0 t) i.
Proof.
  unfold raw_ranges. rewrite list_elem_of_bind. split.
  - intros (needle & Hr & Hin). destruct (decide (fold needle = [])) as [Hn|Hn].
    { rewrite needle_ranges_empty in Hr by done. by apply not_elem_of_nil in Hr. }
    rewrite needle_ranges_starts in Hr by done. apply list_elem_of_fmap in Hr as (i & -> & Hi). by exists needle, i.
  - intros (needle & i & Hin & Hn & Hi & ->). exists needle. split; [|done]. rewrite needle_ranges_starts by done.
    by apply list_elem_of_fmap_2.
Qed.

Lemma raw_bounds t needles r : Z.of_nat (length t) ≤ u32_max → r ∈ raw_ranges t needles →
  0 ≤ r.1 < r.2 ∧ r.2 ≤ Z.of_nat (length t).
Proof.
  intros Hl (needle & i & _ & Hn & (_ & Ho & _)%starts_spec & ->)%elem_of_raw; [|done|lia]. rewrite Nat.sub_0_r in Ho.
  pose proof (occurs_source t _ i Hl Hn Ho) as Hs. cbn zeta in Hs. cbn [mark_of fst snd].
  destruct (end_after_ends t (source (fold_from 0 t) (i + length (fold needle) - 1))) as ((? & ?) & _); [lia|done|lia].
Qed.

(** The marks are in order, apart, and inside the text. *)
Lemma match_ranges_wf t needles : Z.of_nat (length t) ≤ u32_max →
  separated (match_ranges t needles) ∧ Forall (λ r, 0 ≤ r.1 ∧ r.2 ≤ Z.of_nat (length t)) (match_ranges t needles) ∧
  ∀ x, covers (match_ranges t needles) x ↔ covers (raw_ranges t needles) x.
Proof.
  intros Hl. assert (∀ r, r ∈ raw_ranges t needles → 0 ≤ r.1 < r.2 ∧ r.2 ≤ Z.of_nat (length t)) as Hraw
    by (intros r; by apply raw_bounds).
  destruct (merge_spec (raw_ranges t needles)) as [Hsep Hc].
  { apply Forall_forall. intros r ?%Hraw. lia. }
  change (merge (raw_ranges t needles)) with (match_ranges t needles) in *. split_and!; [done| |done].
  apply Forall_forall. intros r Hr. destruct Hsep as [_ Hne]. rewrite Forall_forall in Hne. specialize (Hne r Hr).
  destruct (proj1 (Hc r.1)) as (r1 & ?%Hraw & ?); [exists r; split; [done|lia]|].
  destruct (proj1 (Hc (r.2 - 1))) as (r2 & ?%Hraw & ?); [exists r; split; [done|lia]|]. lia.
Qed.

Definition taken (t n : chars) (i : nat) : Prop := i ∈ starts (S (length (fold_from 0 t))) n (fold_from 0 t) 0.
Lemma taken_leftmost t n : n ≠ [] → leftmost n (fold_from 0 t) (taken t n).
Proof.
  intros Hn i. unfold taken. rewrite starts_spec by (done || lia). rewrite Nat.sub_0_r. split; [tauto|]. split; [lia|done].
Qed.

(** The mark of a place taken, as a range of the text. *)
Lemma taken_mark t n i : Z.of_nat (length t) ≤ u32_max → n ≠ [] → taken t n i →
  ∃ a b e, snd <$> fold_from 0 t !! i = Some a ∧ snd <$> fold_from 0 t !! (i + length n - 1)%nat = Some b ∧
    0 ≤ b ∧ ends_at t b e ∧ mark_of (vanished t) n (fold_from 0 t) i = (a, e).
Proof.
  intros Hl Hn Hi. apply (taken_leftmost t n Hn) in Hi as [Ho _].
  pose proof (occurs_source t n i Hl Hn Ho) as Hs. cbn zeta in Hs. pose proof (occurs_length _ _ _ Ho) as Hol.
  assert (0 < length n)%nat as Hpos by (destruct n; [done|simpl; lia]). unfold mark_of. revert Hs Hol.
  generalize (fold_from 0 t). intros hay Hs Hol. unfold source in *.
  destruct (lookup_lt_is_Some_2 hay i ltac:(lia)) as [u Hu].
  destruct (lookup_lt_is_Some_2 hay (i + length n - 1)%nat ltac:(lia)) as [v Hv].
  rewrite Hu, Hv in *. cbn in Hs |- *. exists u.2, v.2, (end_after (vanished t) v.2).
  split; [done|]. split; [done|]. split; [lia|]. split; [apply end_after_ends; [lia|done]|done].
Qed.

Lemma raw_covers t needles x : Z.of_nat (length t) ≤ u32_max →
  covers (raw_ranges t needles) x ↔
  ∃ needle i a b e, needle ∈ needles ∧ fold needle ≠ [] ∧ taken t (fold needle) i ∧
    snd <$> fold_from 0 t !! i = Some a ∧ snd <$> fold_from 0 t !! (i + length (fold needle) - 1)%nat = Some b ∧
    ends_at t b e ∧ a ≤ x < e.
Proof.
  intros Hl. split.
  - intros (r & (needle & i & Hnd & Hn & Hi & ->)%elem_of_raw & Hx).
    destruct (taken_mark t (fold needle) i Hl Hn Hi) as (a & b & e & Ha & Hb & _ & He & Hm). rewrite Hm in Hx.
    exists needle, i, a, b, e. done.
  - intros (needle & i & a & b & e & Hnd & Hn & Hi & Ha & Hb & He & Hx).
    destruct (taken_mark t (fold needle) i Hl Hn Hi) as (a' & b' & e' & Ha' & Hb' & H0 & He' & Hm).
    rewrite Ha in Ha'. rewrite Hb in Hb'. injection Ha' as <-. injection Hb' as <-.
    rewrite (ends_at_unique t b e e' H0 He He') in Hx. exists (a, e'). split; [|exact Hx].
    apply elem_of_raw. exists needle, i. rewrite Hm. done.
Qed.

(** C39: highlighting marks exactly the leftmost matches, in a text whose length
    fits the 32 bits its ranges are in: the ranges are in
    order, apart and inside the text, and a character is marked exactly when,
    for some needle, one of the places its folded form is taken at in the folded
    text, reading from the left and past each place taken, begins at or before
    it and ends after it, where a match begins at the character its first letter
    was folded from and ends after the characters that fold to nothing behind
    its last letter's, all of them and no more. *)
Theorem match_ranges_exact t needles : Z.of_nat (length t) ≤ u32_max →
  let marks := match_ranges t needles in
  let hay := fold_from 0 t in
  separated marks ∧ Forall (λ r, 0 ≤ r.1 ∧ r.2 ≤ Z.of_nat (length t)) marks ∧
  ∃ taken : chars → nat → Prop,
    (∀ n, n ≠ [] → leftmost n hay (taken n)) ∧
    ∀ x, covers marks x ↔
      ∃ needle i a b e, needle ∈ needles ∧ fold needle ≠ [] ∧ taken (fold needle) i ∧
        snd <$> hay !! i = Some a ∧ snd <$> hay !! (i + length (fold needle) - 1)%nat = Some b ∧
        ends_at t b e ∧ a ≤ x < e.
Proof.
  intros Hl marks hay. destruct (match_ranges_wf t needles Hl) as (Hsep & Hin & Hc). split; [exact Hsep|]. split; [exact Hin|].
  exists (taken t). split; [intros n Hn; by apply taken_leftmost|]. intros x. unfold marks, hay. rewrite Hc. by apply raw_covers.
Qed.

(** ** Snippets *)

(** A window onto separated ranges: cut to it, and counted from its start. *)
Definition clip (lo hi : Z) (rs : ranges) : ranges :=
  (λ r, (Z.max r.1 lo - lo, Z.min r.2 hi - lo)) <$> filter (λ r, lo < r.2 ∧ r.1 < hi) rs.

Lemma clip_covers lo hi rs x : covers (clip lo hi rs) x ↔ 0 ≤ x < hi - lo ∧ covers rs (x + lo).
Proof.
  unfold covers, clip. split.
  - intros (r & (r0 & -> & [_ Hr]%list_elem_of_filter)%list_elem_of_fmap & Hx). cbn [fst snd] in Hx.
    split; [lia|]. exists r0. split; [done|]. lia.
  - intros (Hx & r & Hr & Hc). exists (Z.max r.1 lo - lo, Z.min r.2 hi - lo). cbn [fst snd]. split; [|lia].
    apply list_elem_of_fmap. exists r. split; [done|]. apply list_elem_of_filter. split; [lia|done].
Qed.
Lemma clip_separated lo hi rs : lo < hi → separated rs → separated (clip lo hi rs).
Proof.
  intros Hlh [Hs Hne]. unfold clip. split.
  - assert (∀ l, Forall (λ r, lo < r.2 ∧ r.1 < hi) l → StronglySorted (λ a b, a.2 < b.1) l →
      StronglySorted (λ a b, a.2 < b.1) ((λ r, (Z.max r.1 lo - lo, Z.min r.2 hi - lo)) <$> l)) as Hmap.
    { intros l Hl Hsl. induction Hsl as [|r l _ IH Hall]; [constructor|]. apply Forall_cons in Hl as [_ Hl].
      constructor; [by apply IH|]. apply Forall_fmap. rewrite Forall_forall in *. intros b Hb. specialize (Hall b Hb). specialize (Hl b Hb). cbn in *. lia. }
    apply Hmap; [apply Forall_forall; intros r Hr; by apply list_elem_of_filter in Hr as [? _]|].
    by apply (StronglySorted_sublist _ _ rs); [apply sublist_filter|].
  - apply Forall_fmap, Forall_forall. intros r [Hr Hin]%list_elem_of_filter. cbn. rewrite Forall_forall in Hne. specialize (Hne r Hin). lia.
Qed.

Definition shown_char (c : Z) : Z := if is_control c then 32 else c.

(** A snippet is a window of at most [SNIPPET_LEN] characters onto the body,
    as long as the body allows, with control characters shown as spaces; it
    holds the start of the first match; and its marks are the body's marks, cut
    to the window.  There is none exactly when nothing matches. *)
Theorem snippet_is_a_window body needles : Z.of_nat (length body) ≤ u32_max →
  match snippet body needles with
  | None => match_ranges body needles = []
  | Some h =>
      ∃ start first rest, match_ranges body needles = first :: rest ∧
        text h = shown_char <$> take (length (text h)) (drop start body) ∧
        length (text h) = min SNIPPET_LEN (length body) ∧ (start + length (text h) <= length body)%nat ∧
        Z.of_nat start ≤ first.1 < Z.of_nat (start + length (text h)) ∧ separated (marks h) ∧
        ∀ x, covers (marks h) x ↔ 0 ≤ x < Z.of_nat (length (text h)) ∧ covers (match_ranges body needles) (x + Z.of_nat start)
  end.
Proof.
  intros Hl. destruct (match_ranges_wf body needles Hl) as (Hsep & Hin & _).
  unfold snippet. cbn zeta. destruct (match_ranges body needles) as [|first rest]; [done|]. cbn [fmap list_fmap head mbind option_bind].
  apply Forall_cons in Hin as [[Hf0 Hf2] _]. assert (first.1 < first.2) as Hf by (destruct Hsep as [_ Hne]; by apply Forall_cons in Hne as [? _]).
  set (s0 := (Z.to_nat first.1 - SNIPPET_LEN / 4)%nat). set (e := min (s0 + SNIPPET_LEN) (length body)).
  set (start := if decide (e - s0 < SNIPPET_LEN)%nat then (e - SNIPPET_LEN)%nat else s0).
  assert (SNIPPET_LEN / 4 = 40)%nat as H40 by reflexivity. assert (SNIPPET_LEN = 160%nat) as H160 by reflexivity.
  assert ((start <= e <= length body)%nat ∧ (e - start)%nat = min SNIPPET_LEN (length body) ∧
    Z.of_nat start ≤ first.1 < Z.of_nat e) as (Hse & Hlen & Hfirst).
  { unfold start, e, s0. rewrite H40, H160. case_decide; lia. }
  assert (length (shown_char <$> take (e - start) (drop start body)) = (e - start)%nat) as Htl.
  { rewrite length_fmap, length_take, length_drop. lia. }
  exists start, first, rest. cbn [text marks]. fold shown_char. rewrite Htl. rewrite !Z.min_l by lia.
  split; [done|]. split; [done|]. split; [done|]. split; [lia|]. split; [lia|].
  change (filter _ _) with (filter (λ r, Z.of_nat start < r.2 ∧ r.1 < Z.of_nat e) (first :: rest)).
  change (separated (clip (Z.of_nat start) (Z.of_nat e) (first :: rest)) ∧
    ∀ x, covers (clip (Z.of_nat start) (Z.of_nat e) (first :: rest)) x ↔ 0 ≤ x < Z.of_nat (e - start) ∧ covers (first :: rest) (x + Z.of_nat start)).
  split; [apply clip_separated; [lia|done]|]. intros x. rewrite clip_covers.
  replace (Z.of_nat (e - start)) with (Z.of_nat e - Z.of_nat start) by lia. done.
Qed.
End text.

(** ** Examples *)

(** Lower-case letters, and a mark (769) that folds away. *)
#[export] Instance ascii_fold : Unicode := {|
  to_lowercase c := [if bool_decide (65 ≤ c ≤ 90) then c + 32 else c];
  decompose_compatible c := if c =? 233 then [101; 769] else [c];
  is_combining_mark c := c =? 769;
  is_control c := bool_decide (c < 32);
|}.

Lemma match_ranges_exact_witness :
  let t := [67; 97; 102; 101; 769; 32; 111; 107] in
  match_ranges t [[99; 97; 102; 233]] = [(0, 5)] ∧ separated (match_ranges t [[99; 97; 102; 233]]).
Proof.
  cbv zeta. split; [reflexivity|].
  destruct (match_ranges_exact [67; 97; 102; 101; 769; 32; 111; 107] [[99; 97; 102; 233]]) as (Hs & _); [done|exact Hs].
Defined.

Lemma snippet_is_a_window_witness :
  let body := replicate 200 97 ++ [10; 110; 101] ++ replicate 200 98 in
  ∃ h, snippet body [[110; 69]] = Some h ∧ separated (marks h) ∧ marks h = [(40, 42)].
Proof.
  cbv zeta. pose proof (snippet_is_a_window (replicate 200 97 ++ [10; 110; 101] ++ replicate 200 98) [[110; 69]]) as Hw.
  destruct (snippet _ _) as [h|] eqn:E.
  - exists h. destruct Hw as (_ & _ & _ & _ & _ & _ & _ & _ & Hs & _); [by vm_compute|]. split; [done|]. split; [done|].
    vm_compute in E. injection E as <-. reflexivity.
  - vm_compute in E. discriminate E.
Defined.

(** An occurrence that overlaps the one before it is not looked for: of the
    two places where "aba" occurs in "ababa", the first alone is marked. *)
Lemma overlapping_match_not_marked : match_ranges [97; 98; 97; 98; 97] [[97; 98; 97]] = [(0, 3)].
Proof. reflexivity. Qed.
