(* ===== verification/SearchDays.v ===== *)
(** * The days a date value covers

    Each relative period of search/date.rs is the one it names: the current
    one holds the reader's day, and the last and the next touch it. *)

From Stdlib Require Import ZArith Lia.
From stdpp Require Import base tactics decidable option list.
From S2P Require Import Prelude Calendar Rrule Search Gregorian.
Open Scope Z_scope.

Section days.
Context `{JiffLaws}.
Implicit Types today d : Date.

Lemma add_days d n d' : valid d → -7 ≤ n ≤ 7 → checked_add d SpanDays n = Some d' → valid d' ∧ day_number d' = day_number d + n.
Proof. intros Hd Hn E. by apply add_days_spec in E; [|done|apply span_fits_week]. Qed.
Lemma add_month d n d' : valid d → day d = 1 → -1 ≤ n ≤ 1 → checked_add d SpanMonths n = Some d' →
  valid d' ∧ day d' = 1 ∧ 12 * year d' + month d' = 12 * year d + month d + n.
Proof. intros Hd H1' Hn E. by apply add_months_spec in E; [|done|done|apply span_fits_month]. Qed.

(** The days from [n] on, [k] of them. *)
Definition spans (w : Days) (n k : Z) : Prop :=
  valid (d_start w) ∧ valid (d_end w) ∧ day_number (d_start w) = n ∧ day_number (d_end w) = n + k.

Lemma mk_spans a b k : valid a → valid b → day_number b = day_number a + k → spans (mkDays a b) (day_number a) k.
Proof. intros Ha Hb E. unfold spans. cbn [d_start d_end]. tauto. Qed.
Lemma one_day_spans d w : valid d → one_day d = Some w → spans w (day_number d) 1 ∧ d_start w = d.
Proof.
  intros Hd. unfold one_day. destruct (tomorrow d) as [e|] eqn:E; [|done]. intros [= <-]. apply tomorrow_spec in E as [He Hn]; [|done].
  split; [by apply mk_spans|done].
Qed.
Lemma week_from_spans d w : valid d → week_from d = Some w → spans w (day_number d) 7.
Proof.
  intros Hd. unfold week_from. destruct (checked_add d SpanDays 7) as [e|] eqn:E; [|done]. intros [= <-].
  apply add_days in E as [He Hn]; [|done|lia]. by apply mk_spans.
Qed.

(** The first day of a week is at most six days back; it is the week's first
    weekday, unless the calendar does not go back that far. *)
Lemma first_day_spec today ws : valid today →
  let f := first_day_of_week today ws in
  valid f ∧ day_number today - 6 ≤ day_number f ≤ day_number today ∧
  (weekday f = default 6 (to_jiff ws) mod 7 ∨ f = today).
Proof.
  intros Ht. cbv zeta. unfold first_day_of_week. set (first := default 6 (to_jiff ws)).
  pose proof (Z.mod_pos_bound (weekday today - first) 7) as Hb.
  destruct (checked_add _ _ _) as [f|] eqn:E; cbn [default from_option id].
  - apply add_days in E as [Hf Hn]; [|done|lia]. split; [done|]. split; [lia|]. left.
    rewrite weekday_number in * by done. rewrite Hn.
    pose proof (Z.div_mod (day_number today mod 7 - first) 7 ltac:(lia)) as Hd1. pose proof (Z.div_mod (day_number today) 7 ltac:(lia)) as Hd2.
    replace (day_number today + - ((day_number today mod 7 - first) mod 7))
      with (first + (day_number today / 7 + (day_number today mod 7 - first) / 7) * 7) by lia.
    by rewrite Z.mod_add.
  - split; [done|]. split; [lia|by right].
Qed.

(** The current period holds the reader's day; the one before ends where it
    starts, the one after starts where it ends. *)
Definition around (today : Date) (ws : Weekday) (before this after : DateValue) : Prop :=
  ∀ w, days this today ws = Some w →
    d_start w ≼ today ∧ today ≺ d_end w ∧
    (∀ b, days before today ws = Some b → d_end b = d_start w ∧ d_start b ≺ d_end b) ∧
    (∀ a, days after today ws = Some a → d_start a = d_end w ∧ d_start a ≺ d_end a).

Lemma spans_lt w n k : spans w n k → 0 < k → d_start w ≺ d_end w.
Proof. intros (Hs & He & H1' & H2') Hk. apply day_number_lt; [done..|]. lia. Qed.

Lemma day_around today ws : valid today → around today ws Yesterday Today Tomorrow.
Proof.
  intros Ht w Hw. cbn [days] in Hw. apply one_day_spans in Hw as [Hw Es]; [|done]. pose proof (spans_lt _ _ _ Hw ltac:(lia)) as Hlt.
  split; [rewrite Es; apply tle_refl|]. split; [by rewrite <-Es|]. destruct Hw as (Hs & He & Hns & Hne). split.
  - intros b Hb. cbn [days] in Hb. destruct (yesterday today) as [y|] eqn:Ey; [|done]. apply yesterday_spec in Ey as [Hy Hyn]; [|done].
    apply one_day_spans in Hb as [Hb _]; [|done]. split; [|by eapply spans_lt].
    destruct Hb as (_ & Hbe & _ & Hbn). apply day_number_inj; [done..|]. lia.
  - intros a Ha. cbn [days] in Ha. destruct (tomorrow today) as [t|] eqn:Et; [|done]. apply tomorrow_spec in Et as [Htm Htn]; [|done].
    apply one_day_spans in Ha as [Ha Ea]; [|done]. split; [|by eapply spans_lt]. rewrite Ea. apply day_number_inj; [done..|]. lia.
Qed.

Lemma week_around today ws : valid today → around today ws LastWeek ThisWeek NextWeek.
Proof.
  intros Ht w Hw. destruct (first_day_spec today ws Ht) as (Hf & Hn & _). cbn [days] in Hw.
  apply week_from_spans in Hw; [|done]. destruct Hw as (Hs & He & Hns & Hne).
  split; [apply day_number_le; [done..|lia]|]. split; [apply day_number_lt; [done..|lia]|]. split.
  - intros b Hb. cbn [days] in Hb. destruct (checked_add _ _ _) as [l|] eqn:El; [|done]. apply add_days in El as [Hl Hln]; [|done|lia].
    apply week_from_spans in Hb; [|done]. split; [|by eapply spans_lt]. destruct Hb as (_ & Hbe & _ & Hbn). apply day_number_inj; [done..|]. lia.
  - intros a Ha. cbn [days] in Ha. destruct (checked_add _ _ _) as [l|] eqn:El; [|done]. apply add_days in El as [Hl Hln]; [|done|lia].
    apply week_from_spans in Ha; [|done]. split; [|by eapply spans_lt]. destruct Ha as (Has & _ & Han & _). apply day_number_inj; [done..|]. lia.
Qed.

(** A month's days, from its first. *)
Lemma month_from_spec d w : valid d → day d = 1 → month_from d = Some w →
  d_start w = d ∧ valid (d_end w) ∧ day (d_end w) = 1 ∧ 12 * year (d_end w) + month (d_end w) = 12 * year d + month d + 1.
Proof.
  intros Hd H1'. unfold month_from. destruct (checked_add d SpanMonths 1) as [e|] eqn:E; [|done]. intros [= <-].
  apply add_month in E as (He & Hd1 & Hn); [|done|done|lia]. cbn [d_start d_end]. tauto.
Qed.
Lemma same_month a b : valid a → valid b → day a = 1 → day b = 1 → 12 * year a + month a = 12 * year b + month b → a = b.
Proof. intros (_ & Ha & _) (_ & Hb & _) H1' H2' E. destruct a, b; cbn in *. f_equal; lia. Qed.
Lemma earlier_month a b : valid a → valid b → 12 * year a + month a < 12 * year b + month b → a ≺ b.
Proof. intros (_ & Ha & _) (_ & Hb & _) E. apply Date_lt. lia. Qed.

Lemma month_around today ws : valid today → around today ws LastMonth ThisMonth NextMonth.
Proof.
  intros Ht w Hw. pose proof (first_of_month_valid today Ht) as Hf. rewrite first_of_month_eq in Hf.
  set (f := mkDate (year today) (month today) 1) in *. cbn [days] in *. rewrite first_of_month_eq in Hw. fold f in Hw.
  apply month_from_spec in Hw as (Es & He & He1 & Hen); [|done|done]. cbn [year month f] in Hen.
  split; [rewrite Es; apply not_tlt; rewrite Date_lt; cbn; destruct Ht as (_ & _ & ?); lia|].
  split; [by apply earlier_month; [done..|lia]|]. rewrite Es. split.
  - intros b Hb. cbn [days] in Hb. rewrite first_of_month_eq in Hb. fold f in Hb.
    destruct (checked_add f SpanMonths (-1)) as [l|] eqn:El; [|done]. apply add_month in El as (Hl & Hl1 & Hln); [|done|done|lia].
    apply month_from_spec in Hb as (Ebs & Hbe & Hb1 & Hbn); [|done|done]. cbn [year month f] in Hln. split.
    + apply same_month; [done..|]. cbn [year month f]. lia.
    + rewrite Ebs. apply earlier_month; [done..|lia].
  - intros a Ha. cbn [days] in Ha. rewrite first_of_month_eq in Ha. fold f in Ha.
    destruct (checked_add f SpanMonths 1) as [l|] eqn:El; [|done]. apply add_month in El as (Hl & Hl1 & Hln); [|done|done|lia].
    apply month_from_spec in Ha as (Eas & Hae & Ha1 & Han); [|done|done]. cbn [year month f] in Hln. split.
    + rewrite Eas. apply same_month; [done..|]. lia.
    + rewrite Eas. apply earlier_month; [done..|lia].
Qed.

(** Dates resolve to the periods they name, for every reader's day and week
    start: today, this week and this month hold the day, and the one before
    and the one after touch them; a weekday is the first such day from today
    on; and a range runs from the start of its first value to the end of its
    last, or is none when that is no later. *)
Theorem named_days today ws : valid today →
  around today ws Yesterday Today Tomorrow ∧ around today ws LastWeek ThisWeek NextWeek ∧
  around today ws LastMonth ThisMonth NextMonth ∧
  (∀ (wd : DayOfWeek) w, days (OnWeekday wd) today ws = Some w →
     weekday (d_start w) = day_jiff wd ∧ spans w (day_number (d_start w)) 1 ∧
     day_number today ≤ day_number (d_start w) < day_number today + 7) ∧
  (∀ a b w, span_days (Range a b) today ws = Some w ↔
     ∃ da db, days a today ws = Some da ∧ days b today ws = Some db ∧ d_start da ≺ d_end db ∧ w = mkDays (d_start da) (d_end db)).
Proof.
  intros Ht. split; [by apply day_around|]. split; [by apply week_around|]. split; [by apply month_around|]. split.
  - intros wd w Hw. cbn [days] in Hw. pose proof (Z.mod_pos_bound (day_jiff wd - weekday today) 7) as Hb.
    destruct (checked_add _ _ _) as [x|] eqn:Ex; [|done]. apply add_days in Ex as [Hx Hn]; [|done|lia].
    apply one_day_spans in Hw as [Hw Es]; [|done]. rewrite Es. split; [|split; [done|lia]].
    rewrite weekday_number in * by done. rewrite Hn.
    pose proof (Z.div_mod (day_jiff wd - day_number today mod 7) 7 ltac:(lia)) as Hd1. pose proof (Z.div_mod (day_number today) 7 ltac:(lia)) as Hd2.
    replace (day_number today + (day_jiff wd - day_number today mod 7) mod 7)
      with (day_jiff wd + (day_number today / 7 - (day_jiff wd - day_number today mod 7) / 7) * 7) by lia.
    rewrite Z.mod_add by done. by destruct wd.
  - intros a b w. cbn [span_days]. destruct (days a today ws) as [da|]; cbn [mbind option_bind]; [|naive_solver].
    destruct (days b today ws) as [db|]; cbn [mbind option_bind]; [|naive_solver]. case_decide; naive_solver.
Qed.
End days.

Lemma named_days_witness :
  let today := mkDate 2026 10 21 in
  @days gregorian ThisWeek today Mo = Some (mkDays (mkDate 2026 10 19) (mkDate 2026 10 26)) ∧
  @around gregorian today Mo LastWeek ThisWeek NextWeek.
Proof.
  cbv zeta. split; [vm_compute; reflexivity|].
  destruct (@named_days gregorian gregorian_laws (mkDate 2026 10 21) Mo) as (_ & Hw & _); [vm_compute; intuition congruence|exact Hw].
Defined.
