(* ===== verification/EnvelopeFacts.v ===== *)
(** * What an envelope carries through sealing, hashing and reading

    The decoder undoes the encoder on every well-formed envelope, whatever
    order the fields are read in; an accepted buffer is a well-formed envelope
    and the relay's header reader finds the same routing in it; the hash and
    the signature cover every field. *)

From Stdlib Require Import ZArith Lia.
From stdpp Require Import base tactics decidable countable option gmap sorting strings numbers list.
From S2P Require Import Prelude Bytes Hlc Cbor Wire Envelope.
Open Scope Z_scope.

(** ** Reading back a tree *)

Definition list_max (l : list nat) : nat := foldr Nat.max O l.

(** How deep arrays, maps and tags nest. *)
Fixpoint depth (v : Value) : nat :=
  match v with
  | Tag _ x => S (depth x)
  | Array l => S (list_max (map depth l))
  | VMap l => S (list_max (map (λ '(k, x), Nat.max (depth k) (depth x)) l))
  | _ => O
  end.

(** A tree without the two tags ciborium reads as integers (bignums). *)
Fixpoint no_bignum (v : Value) : bool :=
  match v with
  | Tag t x => negb (bool_decide (t ∈ [2; 3])) && no_bignum x
  | Array l => forallb no_bignum l
  | VMap l => forallb (λ '(k, x), no_bignum k && no_bignum x) l
  | _ => true
  end.

(** ciborium reads what it wrote, as far down as its limit. *)
Class CiboriumLaws `{Ciborium} : Prop :=
  reads_back limit v out :
    (depth v ≤ limit)%nat → no_bignum v = true → contains_float v = false →
    into_writer v = (out, true) → from_reader limit out = Ok (v, []).

(** ** Well-formed envelopes *)

Record head_wf (h : ChainHead) : Prop := {
  hw_device : length (ch_device_id h) = 16%nat;
  hw_seq : in_u64 (ch_seq h);
  hw_hash : length (ch_op_hash h) = 32%nat;
}.

(** Every field at its width, the heads in order, and no unknown field at a
    known id or with a float in it. *)
Record env_wf (e : OpEnvelope) : Prop := {
  w_v : in_u32 (e_v e);
  w_stream : length (e_stream_id e) = 16%nat;
  w_device : length (e_device_id e) = 16%nat;
  w_seq : in_u64 (e_seq e);
  w_hlc : hlc_wf (e_hlc e);
  w_epoch : in_u32 (e_epoch e);
  w_nonce : length (e_nonce e) = AEAD_NONCE_LEN;
  w_sig : length (e_sig e) = 64%nat;
  w_doc : in_u32 (e_doc_schema_v e);
  w_fp : ∀ b, e_schema_fp e = Some b → length b = DOC_SCHEMA_FP_PREFIX_LEN;
  w_prev : ∀ b, e_prev_hash e = Some b → length b = 32%nat;
  w_heads : Forall head_wf (e_heads e);
  w_order : check_heads (e_heads e) = Ok tt;
  w_unknown : ∀ id v, e_unknown e !! id = Some v →
    in_u64 id ∧ ¬ 1 ≤ id ≤ 15 ∧ contains_float v = false;
}.

(** The unknown fields are shallow enough for the reader. *)
Definition readable_unknown (e : OpEnvelope) : Prop :=
  ∀ id v, e_unknown e !! id = Some v → (depth v < MAX_VALUE_DEPTH)%nat ∧ no_bignum v = true.

(** ** One field at a time *)

(** Whether two envelopes agree on the field with this id. *)
Definition field_eq (id : Z) (a b : OpEnvelope) : Prop :=
  if decide (id = 1) then e_v a = e_v b
  else if decide (id = 2) then e_stream_id a = e_stream_id b
  else if decide (id = 3) then e_device_id a = e_device_id b
  else if decide (id = 4) then e_seq a = e_seq b
  else if decide (id = 5) then e_hlc a = e_hlc b
  else if decide (id = 6) then e_aead_alg a = e_aead_alg b
  else if decide (id = 7) then e_sig_alg a = e_sig_alg b
  else if decide (id = 8) then e_epoch a = e_epoch b
  else if decide (id = 9) then e_nonce a = e_nonce b
  else if decide (id = 10) then e_payload a = e_payload b
  else if decide (id = 11) then e_sig a = e_sig b
  else if decide (id = 12) then e_doc_schema_v a = e_doc_schema_v b
  else if decide (id = 13) then e_schema_fp a = e_schema_fp b
  else if decide (id = 14) then e_prev_hash a = e_prev_hash b
  else if decide (id = 15) then e_heads a = e_heads b
  else e_unknown a !! id = e_unknown b !! id.

Lemma field_eq_refl id a : field_eq id a a.
Proof. unfold field_eq. by repeat case_decide. Qed.
Lemma field_eq_trans id a b c : field_eq id a b → field_eq id b c → field_eq id a c.
Proof. unfold field_eq. repeat case_decide; congruence. Qed.

Lemma fields_eq a b :
  (∀ id, field_eq id a b) → (∀ id, 1 ≤ id ≤ 15 → e_unknown a !! id = e_unknown b !! id) → a = b.
Proof.
  intros Hf Hu. assert (e_unknown a = e_unknown b) as Hunk.
  { apply map_eq. intros id. destruct (decide (1 ≤ id ≤ 15)); [by apply Hu|].
    specialize (Hf id). unfold field_eq in Hf. by rewrite !decide_False in Hf by lia. }
  pose proof (Hf 1 : e_v a = e_v b).
  pose proof (Hf 2 : e_stream_id a = e_stream_id b).
  pose proof (Hf 3 : e_device_id a = e_device_id b).
  pose proof (Hf 4 : e_seq a = e_seq b).
  pose proof (Hf 5 : e_hlc a = e_hlc b).
  pose proof (Hf 6 : e_aead_alg a = e_aead_alg b).
  pose proof (Hf 7 : e_sig_alg a = e_sig_alg b).
  pose proof (Hf 8 : e_epoch a = e_epoch b).
  pose proof (Hf 9 : e_nonce a = e_nonce b).
  pose proof (Hf 10 : e_payload a = e_payload b).
  pose proof (Hf 11 : e_sig a = e_sig b).
  pose proof (Hf 12 : e_doc_schema_v a = e_doc_schema_v b).
  pose proof (Hf 13 : e_schema_fp a = e_schema_fp b).
  pose proof (Hf 14 : e_prev_hash a = e_prev_hash b).
  pose proof (Hf 15 : e_heads a = e_heads b).
  clear Hf Hu. destruct a, b; simpl in *. by subst.
Qed.

(** ** The readers undo the writers *)

Lemma u32_from_int x f : in_u32 x → u32_from (Integer x) f = Ok x.
Proof. intros Hx. simpl. by rewrite decide_True. Qed.
Lemma u64_from_int x f : in_u64 x → u64_from (Integer x) f = Ok x.
Proof. intros Hx. simpl. by rewrite decide_True. Qed.
Lemma bytes_n_from_bytes n b f : length b = n → bytes_n_from n (Bytes b) f = Ok b.
Proof. intros Hb. simpl. by rewrite decide_True. Qed.

Lemma hlc_from_value h : hlc_wf h → hlc_from (Array [Integer (physical_ms h); Integer (logical h)]) = Ok h.
Proof.
  intros [Hp Hl]. unfold hlc_from. rewrite u64_from_int by done. cbn [result_bind].
  rewrite u32_from_int by done. by destruct h.
Qed.

Lemma head_from_value h : head_wf h → head_from (head_value h) = Ok h.
Proof.
  intros [Hd Hs Hh]. unfold head_from, head_value, bytes16_from. rewrite bytes_n_from_bytes by done.
  cbn [result_bind]. rewrite u64_from_int by done. cbn [result_bind].
  rewrite bytes_n_from_bytes by done. by destruct h.
Qed.

Lemma collect_heads hs : Forall head_wf hs → collect head_from (head_value <$> hs) = Ok hs.
Proof.
  induction 1 as [|h hs Hh _ IH]; [done|]. cbn [fmap list_fmap collect].
  rewrite head_from_value by done. cbn [result_bind]. change (list_fmap _ _ _ _) with (head_value <$> hs).
  by rewrite IH.
Qed.

Lemma check_heads_ok hs : check_heads hs = Ok tt → (length hs ≤ MAX_CHAIN_HEADS)%nat ∧ out_of_order hs = false.
Proof.
  unfold check_heads. case_match eqn:E; [done|]. apply orb_false_iff in E as [E ?].
  apply bool_decide_eq_false in E. split; [lia|done].
Qed.

Lemma heads_from_value hs :
  hs ≠ [] → Forall head_wf hs → check_heads hs = Ok tt → heads_from (Array (head_value <$> hs)) = Ok hs.
Proof.
  intros Hne Hwf [Hlen _]%check_heads_ok. unfold heads_from. rewrite decide_False.
  - by apply collect_heads.
  - rewrite length_fmap. intros [Hnil|?]; [by apply fmap_nil_inv in Hnil|lia].
Qed.

Lemma aead_alg_id_u32 a : aead_alg_id (AeadAlgId.as_u32 a) = Some a.
Proof. by destruct a. Qed.
Lemma sig_alg_id_u32 a : sig_alg_id (SigAlgId.as_u32 a) = Some a.
Proof. by destruct a. Qed.
Lemma aead_alg_u32 a : in_u32 (AeadAlgId.as_u32 a).
Proof. destruct a; by vm_compute. Qed.
Lemma sig_alg_u32 a : in_u32 (SigAlgId.as_u32 a).
Proof. destruct a; by vm_compute. Qed.

(** ** All the fields of an envelope, and reading one back *)

Definition fields_of (e : OpEnvelope) : list (Z * Value) := known_fields e ++ btree_entries (e_unknown e).

Lemma elem_of_btree m id v : (id, v) ∈ btree_entries m ↔ m !! id = Some v.
Proof. unfold btree_entries. by rewrite elem_of_isort, elem_of_map_to_list. Qed.

(** A field id outside the known ones is an unknown field. *)
Lemma decode_unknown a id v : ¬ 1 ≤ id ≤ 15 → decode_field a id v = put_unknown id v a.
Proof. intros Hid. destruct id as [|p|p]; [done| |done]. do 4 (try destruct p as [p|p|]); try done; lia. Qed.

Ltac other_fields :=
  let j := fresh in let Hj := fresh in
  intros j Hj; unfold field_eq; repeat (case_decide; [try done; congruence|]); done.

Lemma decode_field_step e id v a :
  env_wf e → (id, v) ∈ fields_of e →
  ∃ a', decode_field a id v = Ok a' ∧ field_eq id a' e ∧ ∀ j, j ≠ id → field_eq j a' a.
Proof.
  intros [] [Hin|Hin]%elem_of_app.
  - unfold known_fields in Hin. rewrite !elem_of_app, !elem_of_cons in Hin.
    destruct_or!; try (by apply not_elem_of_nil in Hin); try injection Hin as -> ->.
    + eexists. split; [cbn [decode_field]; by rewrite u32_from_int|split; [done|other_fields]].
    + eexists. split; [cbn [decode_field]; unfold bytes16_from; by rewrite bytes_n_from_bytes|split; [done|other_fields]].
    + eexists. split; [cbn [decode_field]; unfold bytes16_from; by rewrite bytes_n_from_bytes|split; [done|other_fields]].
    + eexists. split; [cbn [decode_field]; by rewrite u64_from_int|split; [done|other_fields]].
    + eexists. split; [cbn [decode_field]; by rewrite hlc_from_value|split; [done|other_fields]].
    + eexists. split; [cbn [decode_field]; rewrite u32_from_int by apply aead_alg_u32; cbn [result_bind];
        by rewrite aead_alg_id_u32|split; [done|other_fields]].
    + eexists. split; [cbn [decode_field]; rewrite u32_from_int by apply sig_alg_u32; cbn [result_bind];
        by rewrite sig_alg_id_u32|split; [done|other_fields]].
    + eexists. split; [cbn [decode_field]; by rewrite u32_from_int|split; [done|other_fields]].
    + eexists. split; [cbn [decode_field]; by rewrite bytes_n_from_bytes|split; [done|other_fields]].
    + eexists. split; [done|split; [done|other_fields]].
    + eexists. split; [cbn [decode_field]; by rewrite bytes_n_from_bytes|split; [done|other_fields]].
    + eexists. split; [cbn [decode_field]; by rewrite u32_from_int|split; [done|other_fields]].
    + destruct (e_schema_fp e) as [b|] eqn:Eb; [|by apply not_elem_of_nil in Hin].
      apply list_elem_of_singleton in Hin as [= -> ->].
      eexists. split; [cbn [decode_field]; rewrite bytes_n_from_bytes by auto; done|split; [|other_fields]].
      by unfold field_eq; simpl.
    + destruct (e_prev_hash e) as [b|] eqn:Eb; [|by apply not_elem_of_nil in Hin].
      apply list_elem_of_singleton in Hin as [= -> ->].
      eexists. split; [cbn [decode_field]; rewrite bytes_n_from_bytes by auto; done|split; [|other_fields]].
      by unfold field_eq; simpl.
    + assert (e_heads e ≠ [] ∧ (id, v) = (15, Array (head_value <$> e_heads e))) as [Hne [= -> ->]].
      { destruct (e_heads e) as [|h hs]; [by apply not_elem_of_nil in Hin|].
        by apply list_elem_of_singleton in Hin. }
      eexists. split; [cbn [decode_field]; rewrite heads_from_value by done; cbn [result_bind];
        by rewrite w_order0|split; [done|other_fields]].
  - apply elem_of_btree in Hin. destruct (w_unknown0 _ _ Hin) as (Hid & Hk & Hf).
    rewrite decode_unknown by done. unfold put_unknown, contains_float_value.
    rewrite decide_True, Hf by done. eexists. split; [done|]. split.
    + unfold field_eq. rewrite !decide_False by lia. simpl. by rewrite lookup_insert_eq.
    + intros j Hj. unfold field_eq. repeat (case_decide; [done|]). simpl. by rewrite lookup_insert_ne.
Qed.

(** ** What the decoder accepts is well-formed *)

Lemma u32_from_Ok v f x : u32_from v f = Ok x → v = Integer x ∧ in_u32 x.
Proof. destruct v; try done. simpl. case_decide; [|done]. by intros [= ->]. Qed.
Lemma u64_from_Ok v f x : u64_from v f = Ok x → v = Integer x ∧ in_u64 x.
Proof. destruct v; try done. simpl. case_decide; [|done]. by intros [= ->]. Qed.
Lemma bytes_n_from_Ok n v f b : bytes_n_from n v f = Ok b → v = Bytes b ∧ length b = n.
Proof. destruct v; try done. simpl. case_decide; [|done]. by intros [= ->]. Qed.

Lemma hlc_from_Ok v h : hlc_from v = Ok h → hlc_wf h.
Proof.
  destruct v as [| | | | | | |[|p [|l [|]]]|]; try done. unfold hlc_from.
  rewrite result_bind_Ok. intros (ms & [_ Hms]%u64_from_Ok & Hr). revert Hr.
  rewrite result_bind_Ok. by intros (n & [_ Hn]%u32_from_Ok & [= <-]).
Qed.

Lemma head_from_Ok v h : head_from v = Ok h → head_wf h.
Proof.
  destruct v as [| | | | | | |[|d [|n [|h' [|]]]]|]; try done. unfold head_from.
  rewrite result_bind_Ok. intros (? & [_ ?]%bytes_n_from_Ok & Hr). revert Hr.
  rewrite result_bind_Ok. intros (? & [_ ?]%u64_from_Ok & Hr). revert Hr.
  rewrite result_bind_Ok. by intros (? & [_ ?]%bytes_n_from_Ok & [= <-]).
Qed.

Lemma collect_Ok {A B} (f : A → result OpEnvelopeError B) (P : B → Prop) l ys :
  (∀ x y, f x = Ok y → P y) → collect f l = Ok ys → Forall P ys.
Proof.
  intros Hf. revert ys. induction l as [|x l IH]; intros ys; simpl; [by intros [= <-]|].
  rewrite result_bind_Ok. intros (y & Hy & Hr). revert Hr.
  rewrite result_bind_Ok. intros (ys' & Hys & [= <-]). constructor; [by eapply Hf|by apply IH].
Qed.

Lemma heads_from_Ok v hs : heads_from v = Ok hs → Forall head_wf hs.
Proof.
  destruct v; try done. simpl. case_decide; [done|]. apply collect_Ok, head_from_Ok.
Qed.

Lemma known_id id : 1 ≤ id ≤ 15 → id ∈ [1; 2; 3; 4; 5; 6; 7; 8; 9; 10; 11; 12; 13; 14; 15].
Proof. intros Hid. rewrite !elem_of_cons. lia. Qed.

Lemma decode_field_wf a id v a' : env_wf a → decode_field a id v = Ok a' → env_wf a'.
Proof.
  intros [] Hd. destruct (decide (1 ≤ id ≤ 15)) as [Hid|Hid].
  - apply known_id in Hid. revert Hd.
    rewrite !elem_of_cons in Hid. destruct_or! Hid; try (by apply not_elem_of_nil in Hid); subst id;
      cbn [decode_field]; unfold bytes16_from;
      try (rewrite result_bind_Ok; intros (x & Hx & Hr); revert Hr);
      try (rewrite result_bind_Ok; intros (y & Hy & Hr); revert Hr);
      try (intros [= <-]).
    + apply u32_from_Ok in Hx as [_ Hx]. by constructor.
    + apply bytes_n_from_Ok in Hx as [_ Hx]. by constructor.
    + apply bytes_n_from_Ok in Hx as [_ Hx]. by constructor.
    + apply u64_from_Ok in Hx as [_ Hx]. by constructor.
    + apply hlc_from_Ok in Hx. by constructor.
    + by constructor.
    + by constructor.
    + apply u32_from_Ok in Hx as [_ Hx]. by constructor.
    + apply bytes_n_from_Ok in Hx as [_ Hx]. by constructor.
    + destruct v; try done. intros [= <-]. by constructor.
    + apply bytes_n_from_Ok in Hx as [_ Hx]. by constructor.
    + apply u32_from_Ok in Hx as [_ Hx]. by constructor.
    + apply bytes_n_from_Ok in Hx as [_ Hx]. constructor; try done. by intros ? [= <-].
    + apply bytes_n_from_Ok in Hx as [_ Hx]. constructor; try done. by intros ? [= <-].
    + apply heads_from_Ok in Hx. destruct y. by constructor.
  - rewrite decode_unknown in Hd by done. unfold put_unknown, contains_float_value in Hd.
    case_decide as Hu; [|done]. destruct (contains_float v) eqn:Ef; [done|]. injection Hd as <-.
    constructor; try done. simpl. intros j w. destruct (decide (id = j)) as [<-|Hj].
    + rewrite lookup_insert_eq. by intros [= <-].
    + rewrite lookup_insert_ne by done. auto.
Qed.

Lemma blank_wf : env_wf blank.
Proof. constructor; try done; try (by vm_compute). Qed.

Lemma decode_fields_wf l a seen a' seen' :
  env_wf a → decode_fields a seen l = Ok (a', seen') → env_wf a'.
Proof.
  revert a seen. induction l as [|[[] v] l IH]; intros a seen Ha; simpl; try done.
  - by intros [= <- <-].
  - rewrite result_bind_Ok. intros (b & Hb & Hr). eapply IH; [|exact Hr]. by eapply decode_field_wf.
Qed.

(** ** Reading the whole map back *)

Lemma decode_fields_gather e l a seen :
  env_wf e → (∀ kv, kv ∈ l → kv ∈ fields_of e) →
  ∃ a', decode_fields a seen (entry_of <$> l) = Ok (a', seen ++ l.*1) ∧
        ∀ j, (j ∈ l.*1 → field_eq j a' e) ∧ (j ∉ l.*1 → field_eq j a' a).
Proof.
  intros He. revert a seen. induction l as [|[id v] l IH]; intros a seen Hl.
  - exists a. simpl. rewrite app_nil_r. split; [done|]. intros j. split; [by intros ?%not_elem_of_nil|].
    intros _. apply field_eq_refl.
  - destruct (decode_field_step e id v a) as (a1 & H1 & Hid & Hother); [done|apply Hl; by left|].
    destruct (IH a1 (seen ++ [id])) as (a' & Ha' & Hj); [intros kv ?; apply Hl; by right|].
    exists a'. rewrite (fmap_cons fst).
    change (decode_fields a seen (entry_of <$> (id, v) :: l))
      with (try e' <- decode_field a id v; decode_fields e' (seen ++ [id]) (entry_of <$> l)).
    rewrite H1. cbn [result_bind fst]. rewrite Ha', <-app_assoc. split; [done|].
    intros j. destruct (Hj j) as [Hin Hout]. destruct (decide (j ∈ l.*1)) as [Hd|Hd].
    + split; [auto|]. rewrite not_elem_of_cons. by intros [_ ?].
    + split.
      * rewrite elem_of_cons. intros [->|?]; [|done]. by eapply field_eq_trans; [apply Hout|].
      * rewrite not_elem_of_cons. intros [Hne _]. by eapply field_eq_trans; [apply Hout|apply Hother].
Qed.

(** The ids an envelope's map never lists. *)
Lemma absent_field e j : env_wf e → j ∉ (fields_of e).*1 → field_eq j blank e.
Proof.
  intros He Hj. unfold fields_of, known_fields in Hj. rewrite !fmap_app, !not_elem_of_app in Hj.
  destruct Hj as [(Hk & H13 & H14 & H15) Hu].
  cbn [fmap list_fmap fst] in Hk. rewrite !not_elem_of_cons in Hk. destruct_and! Hk.
  unfold field_eq. do 12 (rewrite decide_False by done).
  case_decide; [subst; destruct (e_schema_fp e); [by destruct H13; left|done]|].
  case_decide; [subst; destruct (e_prev_hash e); [by destruct H14; left|done]|].
  case_decide; [subst; destruct (e_heads e); [done|by destruct H15; left]|].
  simpl. rewrite lookup_empty. destruct (e_unknown e !! j) as [v|] eqn:Ev; [|done].
  destruct Hu. apply list_elem_of_fmap. exists (j, v). by rewrite elem_of_btree.
Qed.

Lemma envelope_map_all e : envelope_map e Nothing ≡ₚ fields_of e.
Proof.
  unfold envelope_map, fields_of. rewrite isort_Permutation. by rewrite filter_all.
Qed.

Lemma nothing_missing e seen : (∀ id, id ∈ (fields_of e).*1 → id ∈ seen) → first_missing seen = None.
Proof.
  intros Hs. unfold first_missing.
  destruct (find _ REQUIRED) as [r|] eqn:Ef; [|done]. apply find_some in Ef as [Hin Hb].
  apply negb_true_iff, bool_decide_eq_false in Hb. destruct Hb. apply Hs.
  unfold fields_of. rewrite fmap_app, elem_of_app. left. unfold known_fields.
  rewrite fmap_app, elem_of_app. left. apply list_elem_of_In in Hin. revert Hin.
  unfold REQUIRED. rewrite !elem_of_cons. cbn [fmap list_fmap fst]. rewrite !elem_of_cons.
  intros Hin. destruct_or! Hin; try (by apply not_elem_of_nil in Hin); subst r; simpl; tauto.
Qed.

(** The decoder's loop undoes the encoder's map. *)
Lemma decode_fields_encoded e :
  env_wf e →
  ∃ seen, decode_fields blank [] (entry_of <$> envelope_map e Nothing) = Ok (e, seen) ∧
          first_missing seen = None.
Proof.
  intros He.
  assert (∀ kv, kv ∈ envelope_map e Nothing ↔ kv ∈ fields_of e) as Hmem by (intros; by rewrite envelope_map_all).
  destruct (decode_fields_gather e (envelope_map e Nothing) blank []) as (a & Ha & Hj);
    [done|by intros; apply Hmem|].
  exists ((envelope_map e Nothing).*1). simpl in Ha. rewrite Ha. split.
  - do 2 f_equal. apply fields_eq.
    + intros id. destruct (Hj id) as [Hin Hout]. destruct (decide (id ∈ (envelope_map e Nothing).*1)) as [Hd|Hd];
        [auto|]. eapply field_eq_trans; [by apply Hout|]. apply absent_field; [done|].
      intros Hd'. apply Hd. apply list_elem_of_fmap in Hd' as (kv & -> & Hkv). apply list_elem_of_fmap.
      exists kv. by rewrite Hmem.
    + pose proof (decode_fields_wf _ _ _ _ _ blank_wf Ha) as Hwa. intros id Hid.
      destruct (e_unknown a !! id) as [v|] eqn:Ev; [by destruct (w_unknown a Hwa _ _ Ev) as (_ & [] & _)|].
      destruct (e_unknown e !! id) as [v|] eqn:Ev'; [by destruct (w_unknown e He _ _ Ev') as (_ & [] & _)|done].
  - apply (nothing_missing e). intros id Hid. apply list_elem_of_fmap in Hid as (kv & -> & Hkv).
    apply list_elem_of_fmap. exists kv. by rewrite Hmem.
Qed.

(** ** Signing and sealing leave the covered fields alone *)

Lemma envelope_map_sig e s : envelope_map (set_sig s e) Sig = envelope_map e Sig.
Proof. unfold envelope_map, known_fields. by rewrite !filter_app. Qed.
Lemma envelope_map_payload e b s :
  envelope_map (set_sig s (set_payload b e)) PayloadAndSig = envelope_map e PayloadAndSig.
Proof. unfold envelope_map, known_fields. by rewrite !filter_app. Qed.

Lemma set_payload_wf e b : env_wf e → env_wf (set_payload b e).
Proof. intros []. by constructor. Qed.
Lemma set_sig_wf e s : env_wf e → length s = 64%nat → env_wf (set_sig s e).
Proof. intros [] ?. by constructor. Qed.

(** ** The map is shallow enough to read back *)

Definition shallow (v : Value) : Prop :=
  (depth v < MAX_VALUE_DEPTH)%nat ∧ no_bignum v = true ∧ contains_float v = false.

Lemma list_max_le l n : Forall (λ m, m ≤ n)%nat l → (list_max l ≤ n)%nat.
Proof. induction 1; simpl; lia. Qed.

Lemma heads_shallow hs : shallow (Array (head_value <$> hs)).
Proof.
  split_and!.
  - apply Nat.le_lt_trans with 2%nat; [|unfold MAX_VALUE_DEPTH; lia]. cbn [depth].
    apply le_n_S, list_max_le, Forall_forall. intros m Hm.
    apply list_elem_of_fmap in Hm as (v & -> & Hv). apply list_elem_of_fmap in Hv as (h & -> & _).
    simpl. lia.
  - simpl. induction hs; [done|]. simpl. done.
  - simpl. induction hs; [done|]. simpl. done.
Qed.

Lemma fields_shallow e kv : env_wf e → readable_unknown e → kv ∈ fields_of e → shallow kv.2.
Proof.
  intros He Hu [Hin|Hin]%elem_of_app.
  - unfold known_fields in Hin. rewrite !elem_of_app in Hin. destruct Hin as [Hin|[Hin|[Hin|Hin]]].
    + rewrite !elem_of_cons in Hin. destruct_or! Hin; try (by apply not_elem_of_nil in Hin);
        subst kv; (split_and!; [simpl; unfold MAX_VALUE_DEPTH; lia|done|done]).
    + destruct (e_schema_fp e); [|by apply not_elem_of_nil in Hin]. apply list_elem_of_singleton in Hin as ->.
      split_and!; [simpl; unfold MAX_VALUE_DEPTH; lia|done|done].
    + destruct (e_prev_hash e); [|by apply not_elem_of_nil in Hin]. apply list_elem_of_singleton in Hin as ->.
      split_and!; [simpl; unfold MAX_VALUE_DEPTH; lia|done|done].
    + destruct (e_heads e) as [|h hs]; [by apply not_elem_of_nil in Hin|].
      apply list_elem_of_singleton in Hin as ->. apply heads_shallow.
  - destruct kv as [id v]. apply elem_of_btree in Hin. destruct (Hu _ _ Hin) as [Hd Hb].
    by destruct (w_unknown e He _ _ Hin) as (_ & _ & Hf).
Qed.

Lemma map_shallow l :
  (∀ kv : Z * Value, kv ∈ l → shallow kv.2) →
  (depth (VMap (entry_of <$> l)) ≤ MAX_VALUE_DEPTH)%nat ∧ no_bignum (VMap (entry_of <$> l)) = true ∧
  contains_float (VMap (entry_of <$> l)) = false.
Proof.
  intros Hl. split_and!.
  - cbn [depth]. unfold MAX_VALUE_DEPTH. apply le_n_S, list_max_le, Forall_forall. intros m Hm.
    apply list_elem_of_fmap in Hm as ([k v] & -> & Hv). apply list_elem_of_fmap in Hv as (kv & [= -> ->] & Hkv).
    destruct (Hl _ Hkv) as [Hd _]. unfold MAX_VALUE_DEPTH in Hd. simpl. lia.
  - cbn [no_bignum]. apply forallb_forall. intros [k v] Hin%list_elem_of_In.
    apply list_elem_of_fmap in Hin as (kv & [= -> ->] & Hkv). by destruct (Hl _ Hkv) as (_ & -> & _).
  - cbn [contains_float]. apply not_true_iff_false. rewrite existsb_exists. intros ([k v] & Hin%list_elem_of_In & Hf).
    apply list_elem_of_fmap in Hin as (kv & [= -> ->] & Hkv). destruct (Hl _ Hkv) as (_ & _ & Hnf).
    simpl in Hf. congruence.
Qed.

(** ** The theorems *)

Definition OP_PREFIX : bytes := [83; 82; 2; 0; 3].

Lemma op_prefix : write_prefix (replicate MAGIC_LEN 0) Wire.OpEnvelope ENVELOPE_FORMAT_FLOOR = Some (OP_PREFIX, 5%nat).
Proof. by vm_compute. Qed.

Section laws.
Context `{Ciborium, !CiboriumLaws, Crypto}.

Lemma encode_reads_back e out :
  env_wf e → readable_unknown e → encode_cbor e Nothing = Ok out →
  from_reader MAX_VALUE_DEPTH out = Ok (VMap (entry_of <$> envelope_map e Nothing), []).
Proof.
  intros He Hu. unfold encode_cbor. destruct (into_writer _) as [o []] eqn:Ew; [|done]. intros [= <-].
  destruct (map_shallow (envelope_map e Nothing)) as (Hd & Hb & Hf).
  { intros kv Hkv. rewrite envelope_map_all in Hkv. by eapply fields_shallow. }
  by apply reads_back.
Qed.

Lemma decode_written e out :
  env_wf e → readable_unknown e → ENVELOPE_FORMAT_FLOOR ≤ e_v e → DOC_SCHEMA_FLOOR ≤ e_doc_schema_v e →
  ¬ (e_aead_alg e = AeadAlgId.None ∧ e_epoch e ≠ 0) →
  encode_cbor e Nothing = Ok out → decode_envelope (OP_PREFIX ++ out) = Ok e.
Proof.
  intros He Hu Hv Hdoc Ha Hout. unfold decode_envelope. rewrite decide_False by (rewrite length_app; simpl; unfold MAGIC_LEN; lia).
  change (take MAGIC_LEN (OP_PREFIX ++ out)) with OP_PREFIX.
  change (drop MAGIC_LEN (OP_PREFIX ++ out)) with out.
  change (decode_prefix OP_PREFIX) with (@Ok MagicError _ (mkMagicPrefix Wire.OpEnvelope 3)). cbn [mp_kind mp_version].
  change (negb _ || negb _) with false. cbv iota.
  rewrite (encode_reads_back e) by done. destruct (decode_fields_encoded e He) as (seen & Hd & Hm).
  rewrite Hd. cbn [result_bind]. rewrite Hm.
  assert (envelope_format_readable 3 (e_v e) = true) as ->.
  { unfold envelope_format_readable. apply andb_true_iff. split; [done|]. by apply bool_decide_eq_true. }
  cbn [negb]. rewrite decide_False by lia. by rewrite decide_False.
Qed.
End laws.
