(* ===== verification/EnvelopeSeal.v ===== *)
(** * Sealing and opening an envelope, and what its hash covers

    The theorems about op envelopes, with a codec and primitives for the
    examples. *)

From Stdlib Require Import ZArith Lia.
From stdpp Require Import base tactics decidable countable option gmap sorting strings numbers list.
From S2P Require Import Prelude Bytes Hlc Cbor Wire Snapshot SnapshotDoc Envelope EnvelopeFacts.
Open Scope Z_scope.

Section theorems.
Context `{Ciborium, !CiboriumLaws, Crypto, !CryptoLaws}.

Lemma seal_inv e key sk buf :
  seal_envelope e key sk = Ok buf →
  ¬ (e_aead_alg e = AeadAlgId.None ∧ e_epoch e ≠ 0) ∧ check_heads (e_heads e) = Ok tt ∧
  ∃ c input cbor,
    sig_input_bytes (set_payload c e) = Ok input ∧
    encode_cbor (set_sig (sign sk input) (set_payload c e)) Nothing = Ok cbor ∧
    buf = OP_PREFIX ++ cbor ∧
    match e_aead_alg e with
    | AeadAlgId.None => c = e_payload e
    | AeadAlgId.XChaCha20Poly1305 => ∃ k aad, key = Some k ∧ encode_aad (set_payload [] e) = Ok aad ∧
        aead_seal_xchacha k (e_nonce e) (e_payload e) aad = Some c
    end.
Proof.
  unfold seal_envelope. case_decide as Hep; [done|]. case_decide as Hkey; [done|].
  destruct (check_heads (e_heads e)) as [[]|] eqn:Eh; [|done]. cbn [result_bind].
  rewrite result_bind_Ok. intros (e1 & He1 & Hr). split; [done|]. split; [done|].
  assert (∃ c, e1 = set_payload c e ∧
    match e_aead_alg e with
    | AeadAlgId.None => c = e_payload e
    | AeadAlgId.XChaCha20Poly1305 => ∃ k aad, key = Some k ∧ encode_aad (set_payload [] e) = Ok aad ∧
        aead_seal_xchacha k (e_nonce e) (e_payload e) aad = Some c
    end) as (c & -> & Hc).
  { destruct (e_aead_alg e) eqn:Ea.
    - injection He1 as <-. exists (e_payload e). split; [by destruct e|done].
    - destruct key as [k|]; [|by destruct Hkey]. apply result_bind_Ok in He1 as (aad & Haad & He1).
      destruct (aead_seal_xchacha _ _ _ _) as [c|] eqn:Es; [|done]. injection He1 as <-.
      exists c. split; [done|]. by exists k, aad. }
  apply result_bind_Ok in Hr as (e2 & Hs & Hr). unfold sign_envelope in Hs.
  apply result_bind_Ok in Hs as (input & Hin & [= <-]).
  apply result_bind_Ok in Hr as (cbor & Hcb & Hr). rewrite op_prefix in Hr. injection Hr as <-.
  by exists c, input, cbor.
Qed.

Lemma sig_input_set_sig e s : sig_input_bytes (set_sig s e) = sig_input_bytes e.
Proof. unfold sig_input_bytes, encode_cbor. by rewrite envelope_map_sig. Qed.

Lemma aad_of_sealed e c s : encode_aad (set_sig s (set_payload c e)) = encode_aad (set_payload [] e).
Proof.
  unfold encode_aad, encode_cbor. rewrite envelope_map_payload.
  rewrite <-(envelope_map_payload e [] (e_sig e)). by destruct e.
Qed.

(** C17: an op survives its envelope: what a writer sealed, a reader that holds
    the writer's public key and the stream key decodes to the same envelope
    but for the payload's ciphertext and the signature, finds the signature
    valid, and opens to the text that was sealed; so routing, clock, chain
    links and fields only a newer build knows all arrive as they were
    written. *)
Theorem sealed_envelope_opens e key sk buf :
  env_wf e → readable_unknown e → ENVELOPE_FORMAT_FLOOR ≤ e_v e → DOC_SCHEMA_FLOOR ≤ e_doc_schema_v e →
  seal_envelope e key sk = Ok buf →
  ∃ c s, decode_envelope buf = Ok (set_sig s (set_payload c e)) ∧
         open_envelope (set_sig s (set_payload c e)) (public_key sk) key = Ok (e_payload e).
Proof.
  intros He Hu Hv Hd (Ha & Hh & c & input & cbor & Hin & Hcb & -> & Hc)%seal_inv.
  exists c, (sign sk input). split.
  - apply decode_written; try done. apply set_sig_wf; [by apply set_payload_wf|apply length_sign].
  - unfold open_envelope, verify_envelope. rewrite sig_input_set_sig, Hin. cbn [result_bind].
    change (e_sig (set_sig ?s ?x)) with s. rewrite verify_sign. cbn [result_bind].
    change (e_aead_alg (set_sig _ (set_payload _ ?x))) with (e_aead_alg x).
    destruct (e_aead_alg e); [by rewrite Hc|]. destruct Hc as (k & aad & -> & Haad & Hs).
    rewrite aad_of_sealed, Haad. cbn [result_bind ok_or].
    change (e_nonce (set_sig _ (set_payload _ ?x))) with (e_nonce x).
    change (e_payload (set_sig _ (set_payload ?y _))) with y. by rewrite (aead_open_seal _ _ _ _ _ Hs).
Qed.

Lemma encode_injective a b x :
  env_wf a → env_wf b → readable_unknown a → readable_unknown b →
  encode_cbor a Nothing = Ok x → encode_cbor b Nothing = Ok x → a = b.
Proof.
  intros Ha Hb Hua Hub Hxa Hxb. pose proof (encode_reads_back _ _ Ha Hua Hxa) as Hra.
  pose proof (encode_reads_back _ _ Hb Hub Hxb) as Hrb. rewrite Hra in Hrb.
  injection Hrb as Heq. destruct (decode_fields_encoded a Ha) as (sa & Hda & _).
  destruct (decode_fields_encoded b Hb) as (sb & Hdb & _). rewrite Heq in Hda. congruence.
Qed.

(** C18: an op's hash names the whole envelope: two well-formed envelopes with
    the same hash are equal, the signature and the fields of newer builds
    included, unless BLAKE3 gives their two encodings the same hash. *)
Theorem op_hash_binds_the_envelope a b h :
  env_wf a → env_wf b → readable_unknown a → readable_unknown b →
  op_hash a = Ok h → op_hash b = Ok h →
  a = b ∨ ∃ x y, encode_cbor a Nothing = Ok x ∧ encode_cbor b Nothing = Ok y ∧ x ≠ y ∧ blake3 x = blake3 y.
Proof.
  intros Ha Hb Hua Hub. unfold op_hash. rewrite !result_bind_Ok.
  intros (x & Hx & [= Hhx]) (y & Hy & [= Hhy]). destruct (decide (x = y)) as [->|Hne].
  - left. by eapply encode_injective.
  - right. exists x, y. split_and!; congruence.
Qed.
End theorems.

Section accepted.
Context `{Ciborium, Crypto}.

(** What the decoder did to accept a buffer. *)
Lemma decode_inv buf e :
  decode_envelope buf = Ok e →
  (MAGIC_LEN ≤ length buf)%nat ∧
  ∃ p entries rest seen,
    decode_prefix (take MAGIC_LEN buf) = Ok p ∧ mp_kind p = Wire.OpEnvelope ∧
    from_reader MAX_VALUE_DEPTH (drop MAGIC_LEN buf) = Ok (VMap entries, rest) ∧
    decode_fields blank [] entries = Ok (e, seen) ∧ first_missing seen = None ∧
    envelope_floor_readable (mp_version p) = true ∧
    envelope_format_readable (mp_version p) (e_v e) = true ∧ DOC_SCHEMA_FLOOR ≤ e_doc_schema_v e ∧
    ¬ (e_aead_alg e = AeadAlgId.None ∧ e_epoch e ≠ 0).
Proof.
  unfold decode_envelope. case_decide; [done|]. destruct (decode_prefix _) as [p|] eqn:Ep; [|done].
  case_match eqn:Hb; [done|]. apply orb_false_iff in Hb as [Hk Hf]. rewrite negb_false_iff in Hk, Hf.
  apply bool_decide_eq_true in Hk. destruct (from_reader _ _) as [[v rest]|] eqn:Er; [|done].
  destruct v as [| | | | | | | |entries]; try done.
  rewrite result_bind_Ok. intros ([e' seen] & Hd & Hr). destruct (first_missing seen) eqn:Em; [done|].
  case_match eqn:Hfm; [done|]. apply negb_false_iff in Hfm. case_decide; [done|]. case_decide; [done|].
  injection Hr as ->. split; [lia|]. exists p, entries, rest, seen. split_and!; try done. lia.
Qed.

Lemma decode_wf buf e : decode_envelope buf = Ok e → env_wf e.
Proof.
  intros (_ & p & l & rest & seen & _ & _ & _ & Hd & _)%decode_inv.
  by apply decode_fields_wf in Hd; [|apply blank_wf].
Qed.

(** C24: every buffer the decoder accepts, whoever wrote it, is a well-formed
    envelope: each field at its width, the heads in order and within their
    bound, no float and no known id among the fields kept as unknown, a format
    and a document version this build reads, and no key epoch on an envelope
    that is not encrypted. *)
Theorem decoded_envelope_is_wf buf e :
  decode_envelope buf = Ok e →
  env_wf e ∧ ENVELOPE_FORMAT_FLOOR ≤ e_v e ∧ DOC_SCHEMA_FLOOR ≤ e_doc_schema_v e ∧
  (e_aead_alg e = AeadAlgId.None → e_epoch e = 0).
Proof.
  intros Hdec. split; [by eapply decode_wf|].
  destruct (decode_inv _ _ Hdec) as (_ & p & l & rest & seen & _ & _ & _ & Hd & _ & _ & Hf & Hdoc & Ha). split.
  - unfold envelope_format_readable in Hf. apply andb_true_iff in Hf as [Hp Hv].
    apply envelope_floor_readable_iff in Hp. apply bool_decide_eq_true in Hv. lia.
  - split; [done|]. intros Hn. destruct (decide (e_epoch e = 0)); [done|]. by destruct Ha.
Qed.

(** ** The relay's header reader beside the decoder *)

(** The header scan agrees with the fields read so far. *)
Definition scanned (h : HeaderScan) (e : OpEnvelope) (seen : list Z) : Prop :=
  hs_v h = (if decide (1 ∈ seen) then Some (e_v e) else None) ∧
  hs_stream h = (if decide (2 ∈ seen) then Some (e_stream_id e) else None) ∧
  hs_device h = (if decide (3 ∈ seen) then Some (e_device_id e) else None) ∧
  hs_seq h = (if decide (4 ∈ seen) then Some (e_seq e) else None).

Lemma bytes16_same v f g b : bytes_n_from 16 v f = Ok b → Wire.bytes16 v g = Ok b.
Proof. intros [-> Hb]%bytes_n_from_Ok. simpl. by rewrite decide_True. Qed.
Lemma u64_same v f g n : u64_from v f = Ok n → Wire.u64_of v g = Ok n.
Proof. intros [-> Hn]%u64_from_Ok. simpl. by rewrite decide_True. Qed.
Lemma u32_same v f g n : u32_from v f = Ok n → Wire.u64_of v g = Ok n.
Proof. intros [-> Hn]%u32_from_Ok. simpl. rewrite decide_True; [done|]. revert Hn. widths. lia. Qed.

(** A field outside the routing ones leaves the routing fields alone. *)
Lemma decode_field_routing e id v e' :
  decode_field e id v = Ok e' → id ∉ [1; 2; 3; 4] →
  e_v e' = e_v e ∧ e_stream_id e' = e_stream_id e ∧ e_device_id e' = e_device_id e ∧ e_seq e' = e_seq e.
Proof.
  intros Hd Hid. destruct (decide (1 ≤ id ≤ 15)) as [Hk|Hk].
  - apply known_id in Hk. rewrite !elem_of_cons in Hk. rewrite !elem_of_cons in Hid. revert Hd.
    destruct_or! Hk; try (by apply not_elem_of_nil in Hk); try tauto; subst id; cbn [decode_field];
      try (rewrite result_bind_Ok; intros (x & Hx & Hr); revert Hr);
      try (rewrite result_bind_Ok; intros (y & Hy & Hr); revert Hr); try (by intros [= <-]).
    destruct v; try done. by intros [= <-].
  - rewrite decode_unknown in Hd by done. unfold put_unknown in Hd. case_decide; [|done].
    case_match; [done|]. by injection Hd as <-.
Qed.

Lemma scan_step h e seen id v e' :
  scanned h e seen → decode_field e id v = Ok e' →
  ∃ h', scan_entry h (Integer id, v) = Ok h' ∧ scanned h' e' (seen ++ [id]).
Proof.
  intros (Hv & Hs & Hdv & Hq) Hd.
  assert (∀ i, i ∈ seen ++ [id] ↔ i ∈ seen ∨ i = id) as Hin by (intros; by rewrite elem_of_app, list_elem_of_singleton).
  assert (∀ (A : Type) i (x y : A), i ≠ id →
    (if decide (i ∈ seen ++ [id]) then x else y) = if decide (i ∈ seen) then x else y) as Hother.
  { intros A i x y Hne. apply decide_ext. rewrite Hin. tauto. }
  assert (∀ (A : Type) (x y : A), (if decide (id ∈ seen ++ [id]) then x else y) = x) as Hself.
  { intros A x y. rewrite decide_True; [done|]. rewrite Hin. by right. }
  unfold scan_entry, FIELD_V, FIELD_STREAM_ID, FIELD_DEVICE_ID, FIELD_SEQ. cbn [fst snd].
  destruct (decide (id = 1)) as [->|]; [|destruct (decide (id = 2)) as [->|];
    [|destruct (decide (id = 3)) as [->|]; [|destruct (decide (id = 4)) as [->|]]]].
  - apply result_bind_Ok in Hd as (x & Hx & [= <-]). erewrite u32_same by done. cbn [result_bind].
    eexists. split; [done|]. unfold scanned. cbn [hs_v hs_stream hs_device hs_seq].
    by rewrite Hself, !Hother by done.
  - apply result_bind_Ok in Hd as (x & Hx & [= <-]). erewrite bytes16_same by done. cbn [result_bind].
    eexists. split; [done|]. unfold scanned. cbn [hs_v hs_stream hs_device hs_seq].
    by rewrite Hself, !Hother by done.
  - apply result_bind_Ok in Hd as (x & Hx & [= <-]). erewrite bytes16_same by done. cbn [result_bind].
    eexists. split; [done|]. unfold scanned. cbn [hs_v hs_stream hs_device hs_seq].
    by rewrite Hself, !Hother by done.
  - apply result_bind_Ok in Hd as (x & Hx & [= <-]). erewrite u64_same by done. cbn [result_bind].
    eexists. split; [done|]. unfold scanned. cbn [hs_v hs_stream hs_device hs_seq].
    by rewrite Hself, !Hother by done.
  - exists h. split; [done|]. unfold scanned. apply decode_field_routing in Hd as (-> & -> & -> & ->).
    + by rewrite !Hother by congruence.
    + rewrite !not_elem_of_cons. split_and!; [done..|apply not_elem_of_nil].
Qed.

Lemma scan_fields h e seen l e' seen' :
  scanned h e seen → decode_fields e seen l = Ok (e', seen') →
  ∃ h', scan_entries h l = Ok h' ∧ scanned h' e' seen'.
Proof.
  revert h e seen. induction l as [|[k v] l IH]; intros h e seen Hs; cbn [decode_fields scan_entries].
  - intros [= <- <-]. by exists h.
  - destruct k as [id| | | | | | | |]; try done. rewrite result_bind_Ok. intros (e1 & H1 & H2).
    destruct (scan_step _ _ _ _ _ _ Hs H1) as (h1 & Hh1 & Hs1). rewrite Hh1. cbn [result_bind].
    by eapply IH.
Qed.

Lemma required_seen seen i :
  first_missing seen = None → i ∈ [1; 2; 3; 4] → i ∈ seen.
Proof.
  unfold first_missing. destruct (find _ REQUIRED) eqn:Ef; [done|]. intros _ Hi.
  assert (∃ w, (i, w) ∈ REQUIRED) as [w Hw].
  { unfold REQUIRED. rewrite !elem_of_cons in Hi.
    destruct_or! Hi; try (by apply not_elem_of_nil in Hi); subst i; eexists; repeat (first [by left|right]). }
  pose proof (find_none _ _ Ef (i, w)) as Hn. specialize (Hn (proj1 (list_elem_of_In _ _) Hw)).
  apply negb_false_iff, bool_decide_eq_true in Hn. done.
Qed.

(** C25: the relay and the client route alike: from every buffer the client's
    decoder accepts, the relay's header reader, which never looks at the
    signature or the payload, gets exactly the stream, the device and the seq
    of the decoded envelope. *)
Theorem relay_routes_what_the_client_reads buf e :
  decode_envelope buf = Ok e →
  decode_envelope_header from_reader buf = Ok (mkEnvelopeHeader (e_stream_id e) (e_device_id e) (e_seq e)).
Proof.
  intros (Hlen & p & l & rest & seen & Hp & Hk & Hr & Hd & Hm & Hfl & Hf & _ & _)%decode_inv.
  unfold decode_envelope_header. rewrite decide_False by lia. rewrite Hp.
  rewrite (bool_decide_eq_true_2 _ Hk), Hfl. cbn [negb orb]. rewrite Hr.
  destruct (scan_fields (mkScan None None None None) blank [] l e seen) as (h & Hh & Hv & Hs & Hdv & Hq); [by split_and!|done|].
  rewrite Hh. cbn [result_bind]. unfold header_of_scan. rewrite Hv, Hs, Hdv, Hq.
  assert (∀ i, i ∈ [1; 2; 3; 4] → i ∈ seen) as Hin by (intros; by apply required_seen).
  rewrite !decide_True by (apply Hin; rewrite !elem_of_cons; tauto). cbn [ok_or result_bind].
  by rewrite Hf.
Qed.
End accepted.

(** ** Errors of sealing *)

Section seal_errors.
Context `{Ciborium, Crypto}.

(** Sealing refuses before it encrypts or signs anything: an unencrypted
    envelope with a key epoch, an encrypted one with no stream key, and heads
    that are too many or out of order are errors, each its own. *)
Theorem seal_refuses e key sk :
  (e_aead_alg e = AeadAlgId.None → e_epoch e ≠ 0 → seal_envelope e key sk = Err InconsistentAead) ∧
  (e_aead_alg e = AeadAlgId.XChaCha20Poly1305 → seal_envelope e None sk = Err InconsistentAead) ∧
  (¬ (e_aead_alg e = AeadAlgId.None ∧ e_epoch e ≠ 0) → (e_aead_alg e = AeadAlgId.XChaCha20Poly1305 → key ≠ None) →
   ((MAX_CHAIN_HEADS < length (e_heads e))%nat ∨
    ∃ i a b, e_heads e !! i = Some a ∧ e_heads e !! S i = Some b ∧ ¬ ch_device_id a ≺ ch_device_id b) →
   seal_envelope e key sk = Err (BadField "heads")).
Proof.
  unfold seal_envelope. split_and!.
  - intros Ha He. by rewrite decide_True.
  - intros Ha. rewrite decide_False by (intros [? _]; congruence). by rewrite decide_True.
  - intros Hep Hkey Hbad. rewrite decide_False by done. rewrite decide_False by tauto.
    assert (check_heads (e_heads e) = Err (BadField "heads")) as ->; [|done].
    unfold check_heads. destruct Hbad as [Hlen|(i & a & b & Ha & Hb & Hab)].
    + by rewrite (bool_decide_eq_true_2 _ Hlen).
    + assert (out_of_order (e_heads e) = true) as ->; [|by rewrite orb_true_r].
      revert i Ha Hb. generalize (e_heads e). intros l. induction l as [|x l IH]; [done|]. intros [|i] Hi Hsi.
      * injection Hi as ->. destruct l as [|y l]; [done|]. injection Hsi as ->. cbn [out_of_order].
        by rewrite (bool_decide_eq_false_2 _ Hab).
      * cbn [lookup list_lookup] in Hi, Hsi. destruct l as [|y l]; [done|].
        change (out_of_order (x :: y :: l))
          with (negb (bool_decide (ch_device_id x ≺ ch_device_id y)) || out_of_order (y :: l)).
        rewrite (IH i Hi Hsi). apply orb_true_r.
Qed.
End seal_errors.

(** ** A codec, primitives and an envelope *)

Lemma tree_reader_Sn f n b : tree_reader (S f) (0 :: n :: b) = Some (Integer n, b).
Proof. done. Qed.

Lemma read_n_reads {A} (read : bytes → option (A * bytes)) (write : A → bytes) l rest :
  (∀ x r, x ∈ l → read (write x ++ r) = Some (x, r)) →
  read_n read (length l) (concat (map write l) ++ rest) = Some (l, rest).
Proof.
  induction l as [|x l IH]; intros Hr; [done|]. cbn [length read_n map concat]. rewrite <-app_assoc.
  rewrite Hr by (by left). cbn [mbind option_bind]. rewrite IH; [done|]. intros y r Hy. apply Hr. by right.
Qed.

Lemma concat_length_ge {A} (w : A → bytes) l x : x ∈ l → (length (w x) ≤ length (concat (map w l)))%nat.
Proof. intros (l1 & l2 & ->)%list_elem_of_split. rewrite map_app, concat_app; simpl. rewrite !length_app. lia. Qed.

Lemma chars_back s :
  String.string_of_list_ascii ((λ z, Ascii.ascii_of_nat (Z.to_nat z)) <$>
    ((λ c, Z.of_nat (Ascii.nat_of_ascii c)) <$> String.list_ascii_of_string s)) = s.
Proof.
  rewrite <-list_fmap_compose.
  rewrite <-(String.string_of_list_ascii_of_string s) at 2. f_equal.
  rewrite <-(list_fmap_id (String.list_ascii_of_string s)) at 2. apply list_fmap_ext. intros _ c _. simpl.
  by rewrite Nat2Z.id, Ascii.ascii_nat_embedding.
Qed.
Lemma length_chars s : length (String.list_ascii_of_string s) = String.length s.
Proof. induction s; simpl; congruence. Qed.

Lemma tree_reads v f rest :
  (length (tree_writer v) ≤ f)%nat → tree_reader f (tree_writer v ++ rest) = Some (v, rest).
Proof.
  revert f rest. induction v as [n|b|b|s|b| |t v IH|l IH|l IH] using Value_ind; intros [|f] rest Hf;
    try (by (simpl in Hf; lia)); cbn [tree_writer app] in *.
  - done.
  - cbn [tree_reader]. by rewrite Nat2Z.id, take_app_length, drop_app_length.
  - done.
  - cbn [tree_reader]. rewrite Nat2Z.id, <-length_chars.
    rewrite <-(length_fmap (λ c, Z.of_nat (Ascii.nat_of_ascii c))) at 1 2.
    rewrite take_app_length, drop_app_length. by rewrite chars_back.
  - cbn [tree_reader]. by destruct b.
  - done.
  - cbn [tree_reader]. rewrite IH by (simpl in Hf; lia). done.
  - cbn [tree_reader]. rewrite Nat2Z.id. rewrite (read_n_reads _ tree_writer); [done|].
    intros x r Hx. rewrite Forall_forall in IH. apply IH; [done|].
    pose proof (concat_length_ge tree_writer l x Hx). simpl in Hf. lia.
  - cbn [tree_reader]. rewrite Nat2Z.id.
    rewrite (read_n_reads _ (λ '(k, v), tree_writer k ++ tree_writer v)); [done|].
    intros [k v] r Hx. rewrite Forall_forall in IH. destruct (IH _ Hx) as [IHk IHv].
    pose proof (concat_length_ge (λ '(k, v), tree_writer k ++ tree_writer v) l _ Hx) as Hl. simpl in Hl, Hf.
    rewrite length_app in Hl. rewrite <-app_assoc, IHk by (simpl; lia). cbn [mbind option_bind].
    rewrite IHv by (simpl; lia). done.
Qed.

#[local] Existing Instance tree_codec.
#[local] Instance tree_codec_laws : CiboriumLaws.
Proof.
  intros limit v out _ _ _ [= <-]. simpl. rewrite <-(app_nil_r (tree_writer v)) at 2. by rewrite tree_reads.
Qed.

(** A hash that keeps its input, a signature that checks by recomputing, and a
    cipher that prepends its key and data. *)
#[local] Instance toy_crypto : Crypto := {|
  blake3 b := b;
  derive_key c b _ := text_bytes c ++ b;
  public_key sk := sk;
  sign sk m := take 64 (sk ++ m ++ replicate 64 0);
  verify_ed25519 pk m s := bool_decide (s = take 64 (pk ++ m ++ replicate 64 0));
  aead_seal_xchacha k n m aad := Some (k ++ n ++ aad ++ m);
  aead_open_xchacha k n c aad :=
    if decide (take (length (k ++ n ++ aad)) c = k ++ n ++ aad) then Some (drop (length (k ++ n ++ aad)) c) else None;
|}.
#[local] Instance toy_crypto_laws : CryptoLaws.
Proof.
  split.
  - intros sk m. change (length (take 64 (sk ++ m ++ replicate 64 0)) = 64%nat). rewrite length_take, !length_app, length_replicate. lia.
  - intros sk m. simpl. by apply bool_decide_eq_true.
  - intros k n m aad c [= <-]. simpl. rewrite !app_assoc.
    rewrite take_app_length, drop_app_length. by rewrite decide_True.
Qed.

Definition example_env : OpEnvelope :=
  mkOpEnvelope 3 (replicate 16 1) (replicate 16 2) 7 (mkHlc 1000 1) AeadAlgId.XChaCha20Poly1305
    SigAlgId.Ed25519 4 (replicate 24 9) [1; 2; 3] (replicate 64 0) 22 (doc_schema_fp_prefix 22)
    (Some (replicate 32 5)) [mkChainHead (replicate 16 3) 4 (replicate 32 6)]
    {[40 := Array [Text "later"; Integer 1]]}.

Lemma example_env_wf : env_wf example_env.
Proof.
  constructor; [by vm_compute|done|done|by vm_compute|by vm_compute|by vm_compute|done|done|by vm_compute| | | | |].
  - intros b [= <-]. by vm_compute.
  - intros b [= <-]. done.
  - repeat constructor; by vm_compute.
  - by vm_compute.
  - intros id v. unfold example_env; cbn [e_unknown]. intros [<- <-]%lookup_singleton_Some.
    split_and!; [by vm_compute|lia|done].
Qed.
Lemma example_env_readable : readable_unknown example_env.
Proof.
  intros id v. unfold example_env; cbn [e_unknown]. intros [<- <-]%lookup_singleton_Some.
  split; [|done]. apply (bool_decide_unpack _). by vm_compute.
Qed.

Lemma sealed_envelope_opens_witness :
  ∃ buf c s,
    seal_envelope example_env (Some [7]) [8; 8] = Ok buf ∧
    decode_envelope buf = Ok (set_sig s (set_payload c example_env)) ∧
    open_envelope (set_sig s (set_payload c example_env)) (public_key [8; 8]) (Some [7]) = Ok [1; 2; 3].
Proof.
  destruct (seal_envelope example_env (Some [7]) [8; 8]) as [buf|] eqn:E; [|vm_compute in E; discriminate].
  destruct (sealed_envelope_opens example_env (Some [7]) [8; 8] buf example_env_wf example_env_readable)
    as (c & s & Hd & Ho); [by vm_compute|by vm_compute|exact E|].
  exists buf, c, s. exact (conj eq_refl (conj Hd Ho)).
Defined.

Lemma op_hash_binds_the_envelope_witness :
  ∃ h, op_hash example_env = Ok h ∧
  (example_env = example_env ∨ ∃ x y, encode_cbor example_env Nothing = Ok x ∧ encode_cbor example_env Nothing = Ok y ∧
     x ≠ y ∧ blake3 x = blake3 y).
Proof.
  destruct (op_hash example_env) as [h|] eqn:E; [|vm_compute in E; discriminate]. exists h. split; [done|].
  exact (op_hash_binds_the_envelope example_env example_env h example_env_wf example_env_wf
    example_env_readable example_env_readable E E).
Defined.

Lemma decoded_envelope_is_wf_witness :
  ∃ buf e, decode_envelope buf = Ok e ∧ env_wf e ∧ ENVELOPE_FORMAT_FLOOR ≤ e_v e ∧
    DOC_SCHEMA_FLOOR ≤ e_doc_schema_v e ∧ (e_aead_alg e = AeadAlgId.None → e_epoch e = 0).
Proof.
  destruct (encode_cbor example_env Nothing) as [out|] eqn:E; [|vm_compute in E; discriminate].
  assert (decode_envelope (OP_PREFIX ++ out) = Ok example_env) as Hd.
  { apply decode_written; [exact example_env_wf|exact example_env_readable|by vm_compute|by vm_compute|by intros [? _]|exact E]. }
  exists (OP_PREFIX ++ out), example_env. split; [exact Hd|].
  exact (decoded_envelope_is_wf (OP_PREFIX ++ out) example_env Hd).
Defined.

Lemma relay_routes_what_the_client_reads_witness :
  ∃ buf, decode_envelope buf = Ok example_env ∧
    decode_envelope_header from_reader buf = Ok (mkEnvelopeHeader (replicate 16 1) (replicate 16 2) 7).
Proof.
  destruct (encode_cbor example_env Nothing) as [out|] eqn:E; [|vm_compute in E; discriminate].
  assert (decode_envelope (OP_PREFIX ++ out) = Ok example_env) as Hd.
  { apply decode_written; [exact example_env_wf|exact example_env_readable|by vm_compute|by vm_compute|by intros [? _]|exact E]. }
  exists (OP_PREFIX ++ out). split; [exact Hd|].
  exact (relay_routes_what_the_client_reads (OP_PREFIX ++ out) example_env Hd).
Defined.

Lemma seal_refuses_witness :
  seal_envelope example_env None [8; 8] = Err InconsistentAead ∧
  seal_envelope (set_heads [mkChainHead (replicate 16 3) 4 []; mkChainHead (replicate 16 3) 5 []] example_env) (Some [7]) [8]
    = Err (BadField "heads").
Proof.
  split.
  - exact (proj1 (proj2 (seal_refuses example_env None [8; 8])) eq_refl).
  - apply (seal_refuses (set_heads [mkChainHead (replicate 16 3) 4 []; mkChainHead (replicate 16 3) 5 []] example_env) (Some [7]) [8]).
    + by intros [? _].
    + done.
    + right. exists 0%nat, (mkChainHead (replicate 16 3) 4 []), (mkChainHead (replicate 16 3) 5 []).
      split_and!; [done|done|]. apply (bool_decide_unpack _). by vm_compute.
Defined.
