(* ===== verification/Chain.v ===== *)
(** * Op chains and the op log (sunrise-core/src/engine/chain.rs, oplog.rs;
    sunrise-storage/src/oplog.rs; sunrise-crypto/src/merkle.rs)

    The log a device keeps of every op it holds, each signed by its writer and
    naming the hash of the op before it; what a receiver records of claims
    that disagree, of ops it knows it misses, and of peers whose frontier it
    cannot check yet; the contiguous prefix of each device and its chain root.

    [Log] holds the tables of these files, a map from primary key to the
    columns the functions read.  A BLOB column of fixed width holds bytes; a
    [u64] stored as an [INTEGER] is clamped by [i64_of].  A transaction's
    error is [None], which rolls it back. *)

From Stdlib Require Import ZArith Lia.
From stdpp Require Import base tactics decidable countable option gmap sorting strings numbers list.
From S2P Require Import Prelude Bytes Hlc Cbor Wire Envelope.
Open Scope Z_scope.

(** ** Roots and digests (merkle.rs) *)

Definition CHAIN_INIT_CONTEXT : string := "sunrise.op_chain.init.v1".
Definition CHAIN_STEP_CONTEXT : string := "sunrise.op_chain.step.v1".
Definition STREAM_DIGEST_CONTEXT : string := "sunrise.stream_digest.v1".

Record FrontierEntry := mkEntry { fe_device_id : bytes; fe_seq : Z; fe_root : bytes }.
#[export] Instance FrontierEntry_eq_dec : EqDecision FrontierEntry. Proof. solve_decision. Defined.

Definition device_le (a b : FrontierEntry) : Prop := fe_device_id a ≼ fe_device_id b.
#[export] Instance device_le_dec : RelDecision device_le.
Proof. intros a b. unfold device_le. apply _. Defined.

Section merkle.
Context `{Crypto}.

Definition chain_root_init (stream_id device_id : bytes) : bytes :=
  derive_key_32 CHAIN_INIT_CONTEXT (stream_id ++ device_id).

Definition chain_root_step (prev op_hash : bytes) : bytes :=
  derive_key_32 CHAIN_STEP_CONTEXT (prev ++ op_hash).

Definition stream_digest (stream_id : bytes) (frontier : list FrontierEntry) : bytes :=
  derive_key_32 STREAM_DIGEST_CONTEXT
    (stream_id ++ (isort device_le frontier ≫= λ e, fe_device_id e ++ be_encode 8 (fe_seq e) ++ fe_root e)).
End merkle.

(** ** The tables *)

(** A device's ops in a stream, and one position among them. *)
Definition Chn : Type := bytes * bytes.
Definition Pos : Type := Chn * Z.

Inductive ForkKind := Seq | Link | Head.
#[export] Instance ForkKind_eq_dec : EqDecision ForkKind. Proof. solve_decision. Defined.
Definition fork_index (k : ForkKind) : Z := match k with Seq => 0 | Link => 1 | Head => 2 end.
#[export] Instance ForkKind_countable : Countable ForkKind.
Proof.
  apply (inj_countable fork_index (λ n, if decide (n = 0) then Some Seq else if decide (n = 1) then Some Link
    else if decide (n = 2) then Some Head else None)). by intros [].
Defined.

(** [ops], keyed by [(stream_id, device_id, seq)]; [op_id] is its own key. *)
Record OpRow := mkRow {
  r_op_id : bytes;
  r_ts_ms : Z;
  r_envelope : bytes;
  r_inner_kind : string;
  r_applied_at : option Z;
  r_op_hash : option bytes;
  r_chain_root : option bytes;
}.
Definition with_hash (h : bytes) (r : OpRow) : OpRow :=
  mkRow (r_op_id r) (r_ts_ms r) (r_envelope r) (r_inner_kind r) (r_applied_at r) (Some h) (r_chain_root r).
Definition with_root (x : bytes) (r : OpRow) : OpRow :=
  mkRow (r_op_id r) (r_ts_ms r) (r_envelope r) (r_inner_kind r) (r_applied_at r) (r_op_hash r) (Some x).
Definition with_kind (k : string) (at_ms : Z) (r : OpRow) : OpRow :=
  mkRow (r_op_id r) (r_ts_ms r) (r_envelope r) k (Some at_ms) (r_op_hash r) (r_chain_root r).

Record Floor := mkFloor { fl_seq : Z; fl_op_hash : bytes; fl_root : bytes; fl_hlc : Hlc }.
Record Evidence := mkEvidence { ev_held_hash : bytes; ev_other_envelope : bytes; ev_recorded_at_ms : Z }.
Record Divergence := mkDivergence {
  dv_seq : Z; dv_peer_root : bytes; dv_held_root : bytes; dv_recorded_at_ms : Z }.

Record Log := mkLog {
  ops : gmap Pos OpRow;
  parked_ops : gset bytes;
  pending_groups : gmap bytes bytes;         (* unapplied members: op id to device *)
  outbox : gmap bytes (option Z);            (* [acked_at_ms] *)
  compaction_floor : gmap Chn Floor;
  sync_cursors : gmap Chn Z;
  chain_heads_sent : gmap Chn Z;
  chain_expected : gmap (Pos * bytes) bytes; (* [named_by] by position and hash *)
  chain_claims : gmap (Chn * bytes) (Z * bytes);
  fork_evidence : gmap (Pos * ForkKind * bytes) Evidence;
  chain_divergence : gmap (Chn * bytes) Divergence;
  peer_frontiers : gmap (bytes * bytes * bytes) (Z * Z);
}.

Definition on_ops (f : gmap Pos OpRow → gmap Pos OpRow) (db : Log) : Log :=
  mkLog (f (ops db)) (parked_ops db) (pending_groups db) (outbox db) (compaction_floor db) (sync_cursors db)
    (chain_heads_sent db) (chain_expected db) (chain_claims db) (fork_evidence db) (chain_divergence db) (peer_frontiers db).
Definition on_parked (f : gset bytes → gset bytes) (db : Log) : Log :=
  mkLog (ops db) (f (parked_ops db)) (pending_groups db) (outbox db) (compaction_floor db) (sync_cursors db)
    (chain_heads_sent db) (chain_expected db) (chain_claims db) (fork_evidence db) (chain_divergence db) (peer_frontiers db).
Definition on_outbox (f : gmap bytes (option Z) → gmap bytes (option Z)) (db : Log) : Log :=
  mkLog (ops db) (parked_ops db) (pending_groups db) (f (outbox db)) (compaction_floor db) (sync_cursors db)
    (chain_heads_sent db) (chain_expected db) (chain_claims db) (fork_evidence db) (chain_divergence db) (peer_frontiers db).
Definition on_floors (f : gmap Chn Floor → gmap Chn Floor) (db : Log) : Log :=
  mkLog (ops db) (parked_ops db) (pending_groups db) (outbox db) (f (compaction_floor db)) (sync_cursors db)
    (chain_heads_sent db) (chain_expected db) (chain_claims db) (fork_evidence db) (chain_divergence db) (peer_frontiers db).
Definition on_cursors (f : gmap Chn Z → gmap Chn Z) (db : Log) : Log :=
  mkLog (ops db) (parked_ops db) (pending_groups db) (outbox db) (compaction_floor db) (f (sync_cursors db))
    (chain_heads_sent db) (chain_expected db) (chain_claims db) (fork_evidence db) (chain_divergence db) (peer_frontiers db).
Definition on_heads_sent (f : gmap Chn Z → gmap Chn Z) (db : Log) : Log :=
  mkLog (ops db) (parked_ops db) (pending_groups db) (outbox db) (compaction_floor db) (sync_cursors db)
    (f (chain_heads_sent db)) (chain_expected db) (chain_claims db) (fork_evidence db) (chain_divergence db) (peer_frontiers db).
Definition on_expected (f : gmap (Pos * bytes) bytes → gmap (Pos * bytes) bytes) (db : Log) : Log :=
  mkLog (ops db) (parked_ops db) (pending_groups db) (outbox db) (compaction_floor db) (sync_cursors db)
    (chain_heads_sent db) (f (chain_expected db)) (chain_claims db) (fork_evidence db) (chain_divergence db) (peer_frontiers db).
Definition on_claims (f : gmap (Chn * bytes) (Z * bytes) → gmap (Chn * bytes) (Z * bytes)) (db : Log) : Log :=
  mkLog (ops db) (parked_ops db) (pending_groups db) (outbox db) (compaction_floor db) (sync_cursors db)
    (chain_heads_sent db) (chain_expected db) (f (chain_claims db)) (fork_evidence db) (chain_divergence db) (peer_frontiers db).
Definition on_forks (f : gmap (Pos * ForkKind * bytes) Evidence → gmap (Pos * ForkKind * bytes) Evidence) (db : Log) : Log :=
  mkLog (ops db) (parked_ops db) (pending_groups db) (outbox db) (compaction_floor db) (sync_cursors db)
    (chain_heads_sent db) (chain_expected db) (chain_claims db) (f (fork_evidence db)) (chain_divergence db) (peer_frontiers db).
Definition on_divergence (f : gmap (Chn * bytes) Divergence → gmap (Chn * bytes) Divergence) (db : Log) : Log :=
  mkLog (ops db) (parked_ops db) (pending_groups db) (outbox db) (compaction_floor db) (sync_cursors db)
    (chain_heads_sent db) (chain_expected db) (chain_claims db) (fork_evidence db) (f (chain_divergence db)) (peer_frontiers db).
Definition on_frontiers (f : gmap (bytes * bytes * bytes) (Z * Z) → gmap (bytes * bytes * bytes) (Z * Z)) (db : Log) : Log :=
  mkLog (ops db) (parked_ops db) (pending_groups db) (outbox db) (compaction_floor db) (sync_cursors db)
    (chain_heads_sent db) (chain_expected db) (chain_claims db) (fork_evidence db) (chain_divergence db) (f (peer_frontiers db)).

(** [i64_of] (engine/ids.rs). *)
Definition i64_of (n : Z) : Z := Z.min n i64_max.

Definition chn (stream_id device_id : bytes) : Chn := (stream_id, device_id).
Definition at_seq (c : Chn) (seq : Z) : Pos := (c, i64_of seq).

(** ** Reading the log *)

(** The row with an op id. *)
Definition op_by_id (db : Log) (op_id : bytes) : option OpRow :=
  head (filter (λ r, r_op_id r = op_id) (map_to_list (ops db)).*2).

(** [floor_of] and [floor_seq] (compaction.rs). *)
Definition floor_of (db : Log) (c : Chn) : option Floor := compaction_floor db !! c.
Definition floor_seq (db : Log) (c : Chn) : Z := from_option fl_seq 0 (floor_of db c).

Definition cursor_of (db : Log) (c : Chn) : Z := default 0 (sync_cursors db !! c).

Section chain.
Context `{Ciborium, Crypto}.

Definition hash_of_stored (stored : bytes) : bytes :=
  match decode_envelope stored with
  | Ok env => match op_hash env with Ok h => h | Err _ => blake3 stored end
  | Err _ => blake3 stored
  end.

(** [UPDATE ops SET op_hash = .. WHERE op_id = ..]. *)
Definition set_op_hash (op_id hash : bytes) (db : Log) : Log :=
  on_ops (fmap (λ r, if decide (r_op_id r = op_id) then with_hash hash r else r)) db.

(** The hash of the op held at a position, and the log with a hash that was
    missing from the row written back. *)
Definition held_op_hash (db : Log) (c : Chn) (seq : Z) : Log * option bytes :=
  match ops db !! at_seq c seq with
  | None =>
      (db, match floor_of db c with
           | Some f => if decide (fl_seq f = seq) then Some (fl_op_hash f) else None
           | None => None
           end)
  | Some r =>
      match r_op_hash r with
      | Some h => (db, Some h)
      | None => let h := hash_of_stored (r_envelope r) in (set_op_hash (r_op_id r) h db, Some h)
      end
  end.

(** ** Evidence and expectations *)

Definition record_fork (pos : Pos) (kind : ForkKind) (held_hash other_hash other_envelope : bytes)
    (now_ms : Z) (db : Log) : Log * bool :=
  match fork_evidence db !! (pos, kind, other_hash) with
  | Some _ => (db, false)
  | None => (on_forks <[(pos, kind, other_hash) := mkEvidence held_hash other_envelope (i64_of now_ms)]> db, true)
  end.

Definition expect (pos : Pos) (hash named_by : bytes) (db : Log) : Log :=
  match chain_expected db !! (pos, hash) with
  | Some _ => db
  | None => on_expected <[(pos, hash) := named_by]> db
  end.

(** The rows of [chain_expected] at a position: the hash each names, and by
    which op. *)
Definition named_at (db : Log) (pos : Pos) : list (bytes * bytes) :=
  omap (λ '((p, h), by_), if decide (p = pos) then Some (h, by_) else None) (map_to_list (chain_expected db)).

(** One of them against the hash of the op that is there. *)
Definition check_named (c : Chn) (seq : Z) (hash : bytes) (now_ms : Z) (db : Log) (named : bytes * bytes) : Log :=
  let '(expected, named_by) := named in
  if decide (expected = hash) then db
  else match op_by_id db named_by with
  | None => db
  | Some namer =>
      let kind := match decode_envelope (r_envelope namer) with
                  | Ok n => if decide (e_device_id n = c.2 ∧ e_seq n = sat_add u64_max seq 1) then Link else Head
                  | Err _ => Head
                  end in
      (record_fork (at_seq c seq) kind hash expected (r_envelope namer) now_ms db).1
  end.

(** What an op says another one hashes to. *)
Definition check_claim (kind : ForkKind) (c : Chn) (seq : Z) (claimed op_id envelope_bytes : bytes)
    (now_ms : Z) (db : Log) : Log :=
  let '(db, held) := held_op_hash db c seq in
  match held with
  | Some h => if decide (h = claimed) then db
              else (record_fork (at_seq c seq) kind h claimed envelope_bytes now_ms db).1
  | None => if decide (seq < floor_seq db c) then db
            else expect (at_seq c seq) claimed op_id db
  end.

Definition check_prev (op_id : bytes) (env : OpEnvelope) (envelope_bytes : bytes) (now_ms : Z) (db : Log) : Log :=
  match e_prev_hash env with
  | Some prev =>
      if decide (1 < e_seq env) then
        check_claim Link (chn (e_stream_id env) (e_device_id env)) (e_seq env - 1) prev op_id envelope_bytes now_ms db
      else db
  | None => db
  end.

Definition check_head (op_id : bytes) (env : OpEnvelope) (envelope_bytes : bytes) (now_ms : Z)
    (db : Log) (head : ChainHead) : Log :=
  if decide (ch_device_id head = e_device_id env ∨ ch_seq head = 0) then db
  else check_claim Head (chn (e_stream_id env) (ch_device_id head)) (ch_seq head) (ch_op_hash head)
         op_id envelope_bytes now_ms db.

Definition check_links (op_id : bytes) (env : OpEnvelope) (envelope_bytes : bytes) (now_ms : Z) (db : Log) : option Log :=
  match op_hash env with
  | Err _ => None
  | Ok hash =>
      let c := chn (e_stream_id env) (e_device_id env) in
      let db := set_op_hash op_id hash db in
      let db := foldl (check_named c (e_seq env) hash now_ms) db (named_at db (at_seq c (e_seq env))) in
      let db := on_expected (filter (λ x, x.1.1 ≠ at_seq c (e_seq env))) db in
      let db := check_prev op_id env envelope_bytes now_ms db in
      Some (foldl (check_head op_id env envelope_bytes now_ms) db (e_heads env))
  end.

Definition check_duplicate (env : OpEnvelope) (envelope_bytes : bytes) (now_ms : Z) (db : Log) : option (Log * bool) :=
  match op_hash env with
  | Err _ => None
  | Ok hash =>
      let c := chn (e_stream_id env) (e_device_id env) in
      let '(db, held) := held_op_hash db c (e_seq env) in
      match held with
      | Some h => if decide (h = hash) then Some (db, false)
                  else Some (record_fork (at_seq c (e_seq env)) Seq h hash envelope_bytes now_ms db)
      | None => Some (db, false)
      end
  end.

Definition check_covered (env : OpEnvelope) (envelope_bytes : bytes) (now_ms : Z) (db : Log) : option (Log * bool) :=
  let c := chn (e_stream_id env) (e_device_id env) in
  match floor_of db c with
  | None => Some (db, false)
  | Some floor =>
      if decide (fl_seq floor < e_seq env) then Some (db, false)
      else match ops db !! at_seq c (e_seq env) with
      | Some _ => Some (db, false)
      | None =>
          if decide (e_seq env = fl_seq floor) then
            match op_hash env with
            | Err _ => None
            | Ok hash =>
                if decide (hash = fl_op_hash floor) then Some (db, true)
                else Some ((record_fork (at_seq c (e_seq env)) Seq (fl_op_hash floor) hash envelope_bytes now_ms db).1, true)
            end
          else Some (db, true)
      end
  end.

(** ** Prefixes and their roots *)

Definition judge (c : Chn) (peer : bytes) (seq : Z) (peer_root held_root : bytes) (now_ms : Z) (db : Log) : Log :=
  if decide (peer_root = held_root) then
    on_divergence (filter (λ x, ¬ (x.1 = (c, peer) ∧ dv_seq x.2 ≤ i64_of seq))) db
  else
    on_divergence <[(c, peer) := mkDivergence (i64_of seq) peer_root held_root (i64_of now_ms)]> db.

Definition root_at (db : Log) (c : Chn) (seq : Z) : option bytes :=
  if decide (seq = 0) then Some (chain_root_init c.1 c.2)
  else
    match ops db !! at_seq c seq ≫= r_chain_root with
    | Some root => Some root
    | None =>
        match floor_of db c with
        | Some f => if decide (fl_seq f = seq) then Some (fl_root f) else None
        | None => None
        end
    end.

(** The seqs of a device's rows satisfying [P]. *)
Definition row_seqs (db : Log) (c : Chn) (P : Z → OpRow → bool) : list Z :=
  omap (λ '((c', n), r), if decide (c' = c) then if P n r then Some n else None else None) (map_to_list (ops db)).

(** [MAX] and [MIN] of a column; [NULL] of no rows. *)
Definition sql_max (l : list Z) : option Z :=
  match l with [] => None | x :: l' => Some (foldr Z.max x l') end.
Definition sql_min (l : list Z) : option Z :=
  match l with [] => None | x :: l' => Some (foldr Z.min x l') end.

(** The highest stored root at or below [prefix]. *)
Definition resume_row (db : Log) (c : Chn) (prefix : Z) : option (Z * bytes) :=
  n ← sql_max (row_seqs db c (λ n r, bool_decide (n ≤ i64_of prefix) && bool_decide (is_Some (r_chain_root r))));
  r ← ops db !! (c, n);
  root ← r_chain_root r;
  Some (n, root).

Definition resume_from (db : Log) (c : Chn) (prefix : Z) : Z * bytes :=
  let floor := f ← floor_of db c; if decide (fl_seq f ≤ prefix) then Some (fl_seq f, fl_root f) else None in
  match resume_row db c prefix, floor with
  | Some s, Some f => if decide (s.1 < f.1) then f else s
  | Some found, None | None, Some found => found
  | None, None => (0, chain_root_init c.1 c.2)
  end.

(** The loop, with the number of steps left. *)
Fixpoint fold_steps (steps : nat) (c : Chn) (seq : Z) (root : bytes) (db : Log) : Log * Z :=
  match steps with
  | O => (db, seq)
  | S steps' =>
      let '(db, h) := held_op_hash db c (seq + 1) in
      match h with
      | None => (db, seq)
      | Some h =>
          let root := chain_root_step root h in
          fold_steps steps' c (seq + 1) root (on_ops (alter (with_root root) (at_seq c (seq + 1))) db)
      end
  end.

(** A device's waiting claims the prefix has reached. *)
Definition claims_up_to (db : Log) (c : Chn) (seq : Z) : list (bytes * (Z * bytes)) :=
  omap (λ '((c', peer), x), if decide (c' = c ∧ x.1 ≤ i64_of seq) then Some (peer, x) else None)
       (map_to_list (chain_claims db)).

Definition settle_claim (c : Chn) (now_ms : Z) (db : Log) (claim : bytes * (Z * bytes)) : Log :=
  let '(peer, (claim_seq, claim_root)) := claim in
  let db := on_claims (delete (c, peer)) db in
  match root_at db c claim_seq with
  | Some held => judge c peer claim_seq claim_root held now_ms db
  | None => db
  end.

Definition fold_chain (c : Chn) (prefix now_ms : Z) (db : Log) : Log :=
  if decide (prefix = 0) then db
  else
    let '(seq, root) := resume_from db c prefix in
    let '(db, seq) := fold_steps (Z.to_nat (prefix - seq)) c seq root db in
    foldl (settle_claim c now_ms) db (claims_up_to db c seq).

(** [ops_run_end] (oplog.rs): [None] is the error of reading a [NULL]. *)
Definition ops_run_end (db : Log) (c : Chn) (start : Z) : option Z :=
  match ops db !! (c, start) with
  | Some _ => sql_min (row_seqs db c (λ n _, bool_decide (start ≤ n) && bool_decide (ops db !! (c, n + 1) = None)))
  | None => Some (start - 1)
  end.

Definition upsert_sync_cursor (c : Chn) (now_ms : Z) (db : Log) : option Log :=
  let start := sat_add u64_max (Z.max (floor_seq db c) (cursor_of db c)) 1 in
  prefix ← ops_run_end db c (if decide (start ≤ i64_max) then start else 1);
  Some (fold_chain c (Z.max prefix 0) now_ms
          (on_cursors <[c := from_option (Z.max prefix) prefix (sync_cursors db !! c)]> db)).

Definition settle_below_floor (c : Chn) (floor : Floor) (now_ms : Z) (db : Log) : Log :=
  let named := filter (λ x, x.1 ≠ fl_op_hash floor) (named_at db (at_seq c (fl_seq floor))) in
  let db := foldl (check_named c (fl_seq floor) (fl_op_hash floor) now_ms) db named in
  let db := on_expected (filter (λ x, ¬ (x.1.1.1 = c ∧ x.1.1.2 ≤ i64_of (fl_seq floor)))) db in
  let claims := omap (λ '((c', peer), x), if decide (c' = c ∧ x.1 = i64_of (fl_seq floor)) then Some (peer, x.2) else None)
                     (map_to_list (chain_claims db)) in
  let db := on_claims (filter (λ x, ¬ (x.1.1 = c ∧ x.2.1 ≤ i64_of (fl_seq floor)))) db in
  foldl (λ db '(peer, root), judge c peer (fl_seq floor) root (fl_root floor) now_ms db) db claims.

(** ** Frontiers and digests *)

Record StreamDigestPayload := mkPayload { sd_frontier : list FrontierEntry; sd_digest : bytes }.

Definition cursor_le (a b : bytes * Z) : Prop := a.1 ≼ b.1.
#[export] Instance cursor_le_dec : RelDecision cursor_le.
Proof. intros a b. unfold cursor_le. apply _. Defined.

(** A stream's devices with a non-empty prefix, by device id. *)
Definition stream_cursors (db : Log) (stream_id : bytes) : list (bytes * Z) :=
  isort cursor_le
    (omap (λ '((s, d), n), if decide (s = stream_id ∧ 0 < n) then Some (d, n) else None) (map_to_list (sync_cursors db))).

Definition frontier_step (stream_id : bytes) (now_ms : Z) (acc : Log * list FrontierEntry) (cur : bytes * Z) :
    Log * list FrontierEntry :=
  let '(db, out) := acc in
  let c := chn stream_id cur.1 in
  match root_at db c cur.2 with
  | Some root => (db, out ++ [mkEntry cur.1 cur.2 root])
  | None =>
      let db := fold_chain c cur.2 now_ms db in
      match root_at db c cur.2 with
      | Some root => (db, out ++ [mkEntry cur.1 cur.2 root])
      | None => (db, out)
      end
  end.

Definition frontier (stream_id : bytes) (now_ms : Z) (db : Log) : Log * list FrontierEntry :=
  foldl (frontier_step stream_id now_ms) (db, []) (stream_cursors db stream_id).

Definition digest_payload (stream_id : bytes) (now_ms : Z) (db : Log) : Log * option StreamDigestPayload :=
  let '(db, entries) := frontier stream_id now_ms db in
  match entries with
  | [] => (db, None)
  | _ => (db, Some (mkPayload entries (stream_digest stream_id entries)))
  end.

(** [record_peer_frontier] (compaction.rs). *)
Definition record_ack (stream_id peer : bytes) (at_ms : Z) (db : Log) (entry : bytes * Z) : Log :=
  on_frontiers (λ m, <[(stream_id, peer, entry.1) :=
     match m !! (stream_id, peer, entry.1) with
     | Some (s, t) => (Z.max s (i64_of entry.2), Z.max t (i64_of at_ms))
     | None => (i64_of entry.2, i64_of at_ms)
     end]> m) db.
Definition record_peer_frontier (stream_id peer : bytes) (entries : list (bytes * Z)) (at_ms : Z) (db : Log) : Log :=
  foldl (record_ack stream_id peer at_ms) db entries.

Definition claim_later (key : Chn * bytes) (seq : Z) (root : bytes) (db : Log) : Log :=
  match chain_claims db !! key with
  | Some (s, _) => if decide (s < i64_of seq) then on_claims <[key := (i64_of seq, root)]> db else db
  | None => on_claims <[key := (i64_of seq, root)]> db
  end.

Definition reconcile_entry (stream_id peer : bytes) (now_ms : Z) (db : Log) (e : FrontierEntry) : Log :=
  if decide (fe_seq e = 0) then db
  else
    let c := chn stream_id (fe_device_id e) in
    let held_seq := Z.max (cursor_of db c) 0 in
    if decide (fe_seq e ≤ held_seq) then
      let db := match root_at db c (fe_seq e) with None => fold_chain c held_seq now_ms db | Some _ => db end in
      match root_at db c (fe_seq e) with
      | Some held => judge c peer (fe_seq e) (fe_root e) held now_ms db
      | None => db
      end
    else claim_later (c, peer) (fe_seq e) (fe_root e) db.

Fixpoint sorted_unique (l : list FrontierEntry) : bool :=
  match l with
  | a :: (b :: _) as rest => bool_decide (fe_device_id a ≺ fe_device_id b) && sorted_unique rest
  | _ => true
  end.

Definition reconcile (stream_id peer : bytes) (payload : StreamDigestPayload) (at_ms now_ms : Z) (db : Log) : Log :=
  let entries := sd_frontier payload in
  if negb (sorted_unique entries) || bool_decide (stream_digest stream_id entries ≠ sd_digest payload) then db
  else
    let db := record_peer_frontier stream_id peer ((λ e, (fe_device_id e, fe_seq e)) <$> entries) at_ms db in
    foldl (reconcile_entry stream_id peer now_ms) db entries.

(** ** Rows in and out of the log (sunrise-storage/src/oplog.rs) *)

(** [OpLog::insert]: the log, and [tx.changes()].  A [seq] SQLite cannot store
    is an error. *)
Definition insert (op_id : bytes) (c : Chn) (seq ts_ms : Z) (envelope : bytes) (inner_kind : string)
    (applied_at_ms : option Z) (db : Log) : option (Log * Z) :=
  if decide (i64_max < seq ∨ i64_max < ts_ms) then None
  else if decide (is_Some (ops db !! (c, seq)) ∨ is_Some (op_by_id db op_id)) then Some (db, 0)
  else Some (on_ops <[(c, seq) := mkRow op_id ts_ms envelope inner_kind applied_at_ms None None]> db, 1).

Definition park (op_id : bytes) (db : Log) : Log := on_parked (λ s, {[op_id]} ∪ s) db.

Definition unpark (op_id envelope : bytes) (inner_kind : string) (applied_at_ms : Z) (db : Log) : Log * bool :=
  if decide (op_id ∈ parked_ops db ∧ (r_envelope <$> op_by_id db op_id) = Some envelope) then
    (on_ops (fmap (λ r, if decide (r_op_id r = op_id) then with_kind inner_kind applied_at_ms r else r))
       (on_parked (.∖ {[op_id]}) db), true)
  else (db, false).

Definition PARKED_KIND : string := "unknown".
Definition DIGEST_KIND : string := "stream.digest".

(** [remote_op_id] (oplog.rs). *)
Definition remote_op_id (stream_id device_id : bytes) (seq : Z) : bytes :=
  derive_key "sunrise.remote_op_id.v1" (stream_id ++ device_id ++ be_encode 8 seq) 16.

(** ** Receiving (engine/sync.rs, engine/park.rs) *)

(** The log's part of [apply_remote]'s transaction, for an envelope that
    verified and opened to an op of this kind: a covered position, the
    idempotence gate, a parked op released, a duplicate; and for an op that
    enters the log or is released its links, a digest's frontier and the
    cursor; with whether the op was applied. *)
Definition apply_remote (buf : bytes) (env : OpEnvelope) (inner_kind : string)
    (digest : option StreamDigestPayload) (now_ms : Z) (db : Log) : option (Log * bool) :=
  let c := chn (e_stream_id env) (e_device_id env) in
  let op_id := remote_op_id (e_stream_id env) (e_device_id env) (e_seq env) in
  '(db, covered) ← check_covered env buf now_ms db;
  if covered : bool then Some (db, false)
  else
    '(db, changes) ← insert op_id c (e_seq env) (physical_ms (e_hlc env)) buf inner_kind (Some now_ms) db;
    let '(db, released) := if decide (changes = 0) then unpark op_id buf inner_kind now_ms db else (db, true) in
    if released : bool then
      db ← check_links op_id env buf now_ms db;
      let db := match digest with
                | Some p => reconcile (e_stream_id env) (e_device_id env) p (physical_ms (e_hlc env)) now_ms db
                | None => db
                end in
      db ← upsert_sync_cursor c now_ms db;
      Some (db, true)
    else
      '(db, _) ← check_duplicate env buf now_ms db;
      Some (db, false).

(** [park_op_as]'s transaction: an op this build cannot apply. *)
Definition park_op_as (buf : bytes) (env : OpEnvelope) (now_ms : Z) (db : Log) : option (Log * bool) :=
  let c := chn (e_stream_id env) (e_device_id env) in
  let op_id := remote_op_id (e_stream_id env) (e_device_id env) (e_seq env) in
  '(db, covered) ← check_covered env buf now_ms db;
  if covered : bool then Some (db, false)
  else
    '(db, changes) ← insert op_id c (e_seq env) (physical_ms (e_hlc env)) buf PARKED_KIND None db;
    if decide (changes = 0) then
      '(db, _) ← check_duplicate env buf now_ms db;
      Some (db, false)
    else
      db ← check_links op_id env buf now_ms db;
      db ← upsert_sync_cursor c now_ms (park op_id db);
      Some (db, true).

(** ** Writing *)

(** [next_seq_tx] (oplog.rs). *)
Definition next_seq (db : Log) (c : Chn) : Z :=
  sat_add u64_max (Z.max (Z.max 0 (default 0 (sql_max (row_seqs db c (λ _ _, true))))) (floor_seq db c)) 1.

(** The other devices whose prefix advanced past what this one last listed,
    lowest id first. *)
Definition unlisted_tips (db : Log) (stream_id me : bytes) : list (bytes * Z) :=
  take MAX_CHAIN_HEADS (isort cursor_le
    (omap (λ '((s, d), n), if decide (s = stream_id ∧ d ≠ me ∧ default 0 (chain_heads_sent db !! (s, d)) < n)
                           then Some (d, n) else None)
       (map_to_list (sync_cursors db)))).

Definition list_tip (stream_id : bytes) (acc : Log * list ChainHead) (tip : bytes * Z) : Log * list ChainHead :=
  let '(db, heads) := acc in
  let '(device_id, n) := tip in
  if decide (n < 0) then (db, heads)
  else
    let '(db, held) := held_op_hash db (chn stream_id device_id) n in
    match held with
    | None => (db, heads)
    | Some h => (on_heads_sent <[(stream_id, device_id) := n]> db, heads ++ [mkChainHead device_id n h])
    end.

Definition writer_links (stream_id me : bytes) (seq : Z) (db : Log) : Log * ChainLinks :=
  let '(db, prev_hash) :=
    if decide (1 < seq) then held_op_hash db (chn stream_id me) (seq - 1) else (db, None) in
  let '(db, heads) := foldl (list_tip stream_id) (db, []) (unlisted_tips db stream_id me) in
  (db, mkChainLinks prev_hash heads).

(** [ops_insert_at], for an op [seal_guard] lets through: seal an op of this
    device at [seq] and append it. *)
Definition ops_insert_at (op_id stream_id me : bytes) (seq : Z) (hlc : Hlc) (inner_op : bytes)
    (inner_kind : string) (applied_at_ms : option Z) (received_at_ms : Z) (epoch : Z)
    (stream_key nonce device_signing : bytes) (db : Log) : option Log :=
  let '(db, links) := writer_links stream_id me seq db in
  match encode_chained_envelope inner_op stream_id me seq hlc AeadAlgId.XChaCha20Poly1305 epoch nonce links
          (Some stream_key) device_signing with
  | Err _ => None
  | Ok envelope =>
      '(db, _) ← insert op_id (chn stream_id me) seq (physical_ms hlc) envelope inner_kind applied_at_ms db;
      let db := set_op_hash op_id (hash_of_stored envelope) db in
      let db := on_outbox (λ m, if decide (is_Some (m !! op_id)) then m else <[op_id := None]> m) db in
      upsert_sync_cursor (chn stream_id me) received_at_ms db
  end.

(** ** The digest's cadence, and the indicator *)

Definition DIGEST_EVERY_OPS : Z := 256.
Definition DIGEST_EVERY_MS : Z := 24 * 60 * 60 * 1000.

(** [due] of [publish_due_stream_digests], from the stamp of this device's
    last digest in the stream and the ops since. *)
Definition digest_due (last : option Z) (since now_ms : Z) : bool :=
  match last with
  | None => bool_decide (0 < since)
  | Some ts => bool_decide (DIGEST_EVERY_OPS ≤ since) ||
               (bool_decide (0 < since) && bool_decide (DIGEST_EVERY_MS ≤ sat_sub now_ms (Z.max ts 0)))
  end.

Record ChainIntegrity := mkIntegrity { forks : Z; divergences : Z; wanted : Z }.
Definition integrity (db : Log) : ChainIntegrity :=
  mkIntegrity (Z.of_nat (size (fork_evidence db))) (Z.of_nat (size (chain_divergence db)))
    (Z.of_nat (size (chain_expected db) + size (chain_claims db))).
End chain.

Definition empty_log : Log := mkLog ∅ ∅ ∅ ∅ ∅ ∅ ∅ ∅ ∅ ∅ ∅ ∅.
