(* ===== verification/ChainFacts.v ===== *)
(** * Evidence: every disagreement between two signed claims is kept

    What an op claims is its own hash and the hashes it names at other
    positions.  [accounted] says of a log that every claim made so far about a
    position it holds agrees or is evidenced, that every one about a position
    it does not hold waits for it, and that it keeps nothing else. *)

From Stdlib Require Import ZArith Lia.
From stdpp Require Import base tactics decidable countable option gmap sorting strings numbers list.
From S2P Require Import Prelude Bytes Hlc Cbor Wire Envelope Chain.
Open Scope Z_scope.

Section facts.
Context `{Ciborium, Crypto}.

(** ** What the chain rules read of a log *)

(** The rows by position: id and envelope. *)
Definition stored (db : Log) : gmap Pos (bytes * bytes) := (λ r, (r_op_id r, r_envelope r)) <$> ops db.

Definition view (db : Log) := (stored db, compaction_floor db, chain_expected db, fork_evidence db).

(** The hash of the op a log holds at a position, be it through a floor. *)
Definition held (db : Log) (p : Pos) : option bytes :=
  match stored db !! p with
  | Some (_, env) => Some (hash_of_stored env)
  | None =>
      match floor_of db p.1 with
      | Some f => if decide (fl_seq f = p.2) then Some (fl_op_hash f) else None
      | None => None
      end
  end.

Definition below (db : Log) (p : Pos) : Prop := p.2 < floor_seq db p.1.
#[export] Instance below_dec db p : Decision (below db p).
Proof. unfold below. apply _. Defined.

(** The row an op id names. *)
Definition named_row (db : Log) (op_id : bytes) (env : bytes) : Prop :=
  ∃ p, stored db !! p = Some (op_id, env).

(** Floors stand strictly below the greatest seq, no two rows share an id, and
    the hash stored beside an envelope is its own. *)
Record log_wf (db : Log) : Prop := {
  lw_floor : ∀ c f, floor_of db c = Some f → 0 < fl_seq f < i64_max;
  lw_ids : ∀ p p' id env env', stored db !! p = Some (id, env) → stored db !! p' = Some (id, env') → p = p';
  lw_hash : ∀ p r h, ops db !! p = Some r → r_op_hash r = Some h → h = hash_of_stored (r_envelope r);
}.

Lemma held_view db db' p : view db = view db' → held db p = held db' p.
Proof. unfold view, held, floor_of. intros [= -> -> _ _]. done. Qed.
Lemma below_view db db' p : view db = view db' → below db p ↔ below db' p.
Proof. unfold view, below, floor_seq, floor_of. intros [= _ -> _ _]. done. Qed.

Lemma stored_lookup db p r : ops db !! p = Some r → stored db !! p = Some (r_op_id r, r_envelope r).
Proof. intros Hr. unfold stored. by rewrite lookup_fmap, Hr. Qed.
Lemma stored_inv db p x : stored db !! p = Some x → ∃ r, ops db !! p = Some r ∧ x = (r_op_id r, r_envelope r).
Proof. unfold stored. rewrite lookup_fmap. destruct (ops db !! p) as [r|]; [|done]. intros [= <-]. eauto. Qed.

(** ** Writing a hash back changes nothing the rules read *)

Lemma stored_fmap db f :
  (∀ r, r_op_id (f r) = r_op_id r ∧ r_envelope (f r) = r_envelope r) → stored (on_ops (fmap f) db) = stored db.
Proof.
  intros Hf. unfold stored. simpl. rewrite <-map_fmap_compose. apply map_fmap_ext. intros p r _. simpl.
  by destruct (Hf r) as [-> ->].
Qed.

Lemma set_op_hash_view id h db : view (set_op_hash id h db) = view db.
Proof.
  unfold view. f_equal; try done. f_equal; try done. f_equal; try done.
  unfold set_op_hash. apply stored_fmap. intros r. by case_decide.
Qed.

Lemma set_op_hash_wf id h db p r :
  log_wf db → ops db !! p = Some r → r_op_id r = id → h = hash_of_stored (r_envelope r) →
  log_wf (set_op_hash id h db).
Proof.
  intros [Hf Hi Hh] Hr Hid ->. pose proof (set_op_hash_view id (hash_of_stored (r_envelope r)) db) as Hv.
  unfold view in Hv. injection Hv as Hs. split.
  - done.
  - rewrite Hs. done.
  - intros q r' h' Hq. unfold set_op_hash in Hq; simpl in Hq. rewrite lookup_fmap in Hq.
    destruct (ops db !! q) as [r0|] eqn:E; [|done]. injection Hq as <-. case_decide as Hd.
    + simpl. intros [= <-]. apply stored_lookup in Hr, E. rewrite Hid in Hr. rewrite Hd in E.
      rewrite (Hi _ _ _ _ _ E Hr) in E. congruence.
    + intros Hx. exact (Hh q r0 h' E Hx).
Qed.

Lemma i64_seq n : n < i64_max → i64_of n = n.
Proof. unfold i64_of. lia. Qed.
Lemma i64_below m n : m < i64_max → (i64_of n < m ↔ n < m) ∧ (m = i64_of n ↔ m = n).
Proof. unfold i64_of. lia. Qed.

(** The source's reading of a position is [held] at its key. *)
Lemma held_op_hash_spec db c seq :
  log_wf db →
  ∃ db', held_op_hash db c seq = (db', held db (at_seq c seq)) ∧ view db' = view db ∧ log_wf db' ∧
         (below db (at_seq c seq) ↔ seq < floor_seq db c).
Proof.
  intros Hwf. assert (below db (at_seq c seq) ↔ seq < floor_seq db c) as Hb.
  { unfold below, at_seq, floor_seq; simpl. destruct (floor_of db c) as [f|] eqn:Ef; simpl.
    - destruct (lw_floor db Hwf _ _ Ef). by apply i64_below.
    - unfold i64_of. split; [|lia]. pose proof eq_refl i64_max as Hm. unfold i64_max in *. lia. }
  unfold held_op_hash, held. destruct (ops db !! at_seq c seq) as [r|] eqn:Er.
  - rewrite (stored_lookup _ _ _ Er). destruct (r_op_hash r) as [h|] eqn:Eh.
    + rewrite (lw_hash db Hwf _ _ _ Er Eh). eauto.
    + eexists. split_and!; [done|apply set_op_hash_view|by apply (set_op_hash_wf _ _ _ (at_seq c seq) r)|done..].
  - assert (stored db !! at_seq c seq = None) as -> by (unfold stored; by rewrite lookup_fmap, Er).
    exists db. split_and!; [|done..]. f_equal. unfold at_seq; simpl.
    destruct (floor_of db c) as [f|] eqn:Ef; [|done]. destruct (lw_floor db Hwf _ _ Ef) as [_ Hlt].
    destruct (i64_below (fl_seq f) seq Hlt) as [_ Heq]. by apply decide_ext.
Qed.

Lemma op_by_id_spec db id env :
  log_wf db → named_row db id env →
  ∃ r, op_by_id db id = Some r ∧ r_op_id r = id ∧ r_envelope r = env.
Proof.
  intros Hwf [p Hp]. apply stored_inv in Hp as (r & Hr & [= -> ->]). unfold op_by_id.
  assert (r ∈ filter (λ x, r_op_id x = r_op_id r) (map_to_list (ops db)).*2) as Hin.
  { apply list_elem_of_filter. split; [done|]. apply list_elem_of_fmap. exists (p, r).
    split; [done|]. by apply elem_of_map_to_list. }
  destruct (filter _ _) as [|r' l] eqn:Ef; [by apply not_elem_of_nil in Hin|].
  assert (r' ∈ filter (λ x, r_op_id x = r_op_id r) (map_to_list (ops db)).*2) as Hin' by (rewrite Ef; by left).
  apply list_elem_of_filter in Hin' as [Hid Hin']. apply list_elem_of_fmap in Hin' as ([p' x] & -> & Hp').
  apply elem_of_map_to_list in Hp'. simpl in *. exists x. split; [done|]. split; [done|].
  apply stored_lookup in Hp'. apply stored_lookup in Hr. rewrite Hid in Hp'.
  rewrite (lw_ids db Hwf _ _ _ _ _ Hp' Hr) in Hp'. congruence.
Qed.

(** ** What an envelope claims *)

Definition own_pos (e : OpEnvelope) : Pos := at_seq (chn (e_stream_id e) (e_device_id e)) (e_seq e).

Definition link_claims (e : OpEnvelope) : list (Pos * bytes) :=
  match e_prev_hash e with
  | Some prev => if decide (1 < e_seq e) then [(at_seq (chn (e_stream_id e) (e_device_id e)) (e_seq e - 1), prev)] else []
  | None => []
  end.

Definition head_claim (e : OpEnvelope) (h : ChainHead) : option (Pos * bytes) :=
  if decide (ch_device_id h = e_device_id e ∨ ch_seq h = 0) then None
  else Some (at_seq (chn (e_stream_id e) (ch_device_id h)) (ch_seq h), ch_op_hash h).
Definition head_claims (e : OpEnvelope) : list (Pos * bytes) := omap (head_claim e) (e_heads e).

Definition claim_of (k : ForkKind) (e : OpEnvelope) (p : Pos) (h : bytes) : Prop :=
  match k with
  | Seq => p = own_pos e ∧ op_hash e = Ok h
  | Link => (p, h) ∈ link_claims e
  | Head => (p, h) ∈ head_claims e
  end.

(** The evidence a log keeps for a set of claims [CL]; at a position of [W],
    where this device wrote its own op over a waiting expectation, the
    expectation may still be all there is. *)
Context {W : Pos → Prop}.
Record accounted (CL : Pos → bytes → Prop) (db : Log) : Prop := {
  ac_found : ∀ p h x, CL p h → held db p = Some x → x ≠ h →
    (∃ k ev, fork_evidence db !! (p, k, h) = Some ev ∧ ev_held_hash ev = x) ∨
    (W p ∧ is_Some (chain_expected db !! (p, h)));
  ac_waits : ∀ p h, CL p h → held db p = None → below db p ∨ ∃ by_, chain_expected db !! (p, h) = Some by_;
  ac_expected : ∀ p h by_, chain_expected db !! (p, h) = Some by_ →
    ((held db p = None ∧ ¬ below db p) ∨ W p) ∧
    ∃ env e k, named_row db by_ env ∧ decode_envelope env = Ok e ∧ k ≠ Seq ∧ claim_of k e p h;
  ac_forks : ∀ p k h ev, fork_evidence db !! (p, k, h) = Some ev →
    ev_held_hash ev ≠ h ∧ (held db p = Some (ev_held_hash ev) ∨ held db p = None ∧ below db p) ∧
    ∃ e, decode_envelope (ev_other_envelope ev) = Ok e ∧ claim_of k e p h;
}.

Definition also (CL : Pos → bytes → Prop) (p : Pos) (h : bytes) (p' : Pos) (h' : bytes) : Prop :=
  CL p' h' ∨ (p' = p ∧ h' = h).

Lemma accounted_iff (CL CL' : Pos → bytes → Prop) db :
  (∀ p h, CL p h ↔ CL' p h) → accounted CL db → accounted CL' db.
Proof.
  intros Hiff []. split; [|intros p h; rewrite <-Hiff; auto|done|done].
  intros p h x. rewrite <-Hiff. auto.
Qed.

Lemma accounted_view CL db db' : view db = view db' → accounted CL db → accounted CL db'.
Proof.
  intros Hv []. pose proof (λ p, held_view _ _ p Hv) as Hh. pose proof (λ p, below_view _ _ p Hv) as Hb.
  unfold view in Hv. injection Hv as Hs Hf He Hk.
  split; intros *; rewrite <-?He, <-?Hk, <-?Hh, <-?Hb; eauto.
  intros Hx. destruct (ac_expected0 _ _ _ Hx) as (? & env & e & k & [q Hq] & ?).
  split; [done|]. exists env, e, k. split; [|done]. exists q. by rewrite <-Hs.
Qed.

Lemma log_wf_view db db' : view db = view db' → (∀ p r h, ops db' !! p = Some r → r_op_hash r = Some h → h = hash_of_stored (r_envelope r)) →
  log_wf db → log_wf db'.
Proof.
  unfold view. intros [= Hs Hf _ _] Hh [H1 H2 _]. split; [|by rewrite <-Hs|done].
  intros c f. unfold floor_of. rewrite <-Hf. apply H1.
Qed.

(** ** Recording evidence *)

Lemma record_fork_frame p k x h env now db :
  let db' := (record_fork p k x h env now db).1 in
  ops db' = ops db ∧ compaction_floor db' = compaction_floor db ∧ chain_expected db' = chain_expected db.
Proof. unfold record_fork. by case_match. Qed.

Lemma held_frame db db' p :
  ops db' = ops db → compaction_floor db' = compaction_floor db → held db' p = held db p.
Proof. intros Ho Hf. unfold held, stored, floor_of. by rewrite Ho, Hf. Qed.
Lemma below_frame db db' p : compaction_floor db' = compaction_floor db → below db' p ↔ below db p.
Proof. intros Hf. unfold below, floor_seq, floor_of. by rewrite Hf. Qed.
Lemma wf_frame db db' :
  ops db' = ops db → compaction_floor db' = compaction_floor db → log_wf db → log_wf db'.
Proof.
  intros Ho Hf []. split; unfold floor_of, stored in *; rewrite ?Ho, ?Hf; auto.
Qed.

Lemma record_fork_accounted CL p k x h env e now db :
  accounted CL db → held db p = Some x → x ≠ h → decode_envelope env = Ok e → claim_of k e p h →
  accounted (also CL p h) (record_fork p k x h env now db).1.
Proof.
  intros [Hf Hw He Hk] Hx Hne Hdec Hcl. destruct (record_fork_frame p k x h env now db) as (Ho & Hfl & Hex).
  set (db' := (record_fork p k x h env now db).1) in *.
  assert (∀ q, held db' q = held db q) as Hh by (intros; by apply held_frame).
  assert (∀ q, below db' q ↔ below db q) as Hb by (intros; by apply below_frame).
  assert (∀ q k' h' ev, fork_evidence db !! (q, k', h') = Some ev → fork_evidence db' !! (q, k', h') = Some ev) as Hmono.
  { intros q k' h' ev Hev. subst db'. unfold record_fork. destruct (fork_evidence db !! (p, k, h)) eqn:E; [done|].
    simpl. rewrite lookup_insert_ne; [done|]. congruence. }
  assert (∃ ev, fork_evidence db' !! (p, k, h) = Some ev ∧ ev_held_hash ev = x) as Hnew.
  { subst db'. unfold record_fork. destruct (fork_evidence db !! (p, k, h)) as [ev|] eqn:E.
    - exists ev. split; [done|]. destruct (Hk _ _ _ _ E) as (_ & [Heq|[Heq _]] & _); congruence.
    - eexists. simpl. split; [apply lookup_insert_eq|done]. }
  split.
  - intros q h' y [Hcl'|[-> ->]]; rewrite Hh; intros Hq Hy.
    + rewrite Hex. destruct (Hf _ _ _ Hcl' Hq Hy) as [(k' & ev & Hev & Heq)|?]; [left; eauto|by right].
    + left. destruct Hnew as (ev & Hev & Heq). exists k, ev. split; [done|]. congruence.
  - intros q h' [Hcl'|[-> ->]]; rewrite Hh, Hb, Hex; intros Hq; [by apply Hw|congruence].
  - intros q h' by_. rewrite Hex, Hh, Hb. intros Hq. destruct (He _ _ _ Hq) as (? & env' & e' & k' & [r Hr] & ?).
    split; [done|]. exists env', e', k'. split; [|done]. exists r. unfold stored. by rewrite Ho.
  - intros q k' h' ev. rewrite Hh, Hb. subst db'. unfold record_fork.
    destruct (fork_evidence db !! (p, k, h)) eqn:E; [apply Hk|]. simpl.
    destruct (decide ((q, k', h') = (p, k, h))) as [[= -> -> ->]|Hd].
    + rewrite lookup_insert_eq. intros [= <-]. simpl. split_and!; [done|by left|]. by exists e.
    + rewrite lookup_insert_ne by congruence. apply Hk.
Qed.

Lemma add_known CL db p h :
  accounted CL db → (∀ x, held db p = Some x → x = h) → (held db p = None → below db p ∨ is_Some (chain_expected db !! (p, h))) →
  accounted (also CL p h) db.
Proof.
  intros [] Hsame Hnone. split; [|intros q h' [?|[-> ->]]|done..].
  - intros q h' x [?|[-> ->]] Hq Hne; [eauto|]. by destruct Hne; apply Hsame.
  - auto.
  - intros Hq. destruct (Hnone Hq) as [?|[by_ ?]]; eauto.
Qed.

(** ** A claim an op in the log makes of another position *)

Lemma expect_accounted CL db p h op_id env e k :
  accounted CL db → held db p = None → ¬ below db p → named_row db op_id env → decode_envelope env = Ok e →
  k ≠ Seq → claim_of k e p h → accounted (also CL p h) (expect p h op_id db).
Proof.
  intros [Hf Hw He Hk] Hp Hb Hn Hd Hks Hcl. unfold expect.
  destruct (chain_expected db !! (p, h)) as [b|] eqn:E.
  - apply add_known; [done|by intros x; rewrite Hp|]. intros _. right. by rewrite E.
  - split; [|intros q h' [?|[-> ->]] Hq|intros q h' by_|done].
    + intros q h' x [Hcl'|[-> ->]] Hq Hne; [|change (held db p = Some x) in Hq; congruence].
      destruct (Hf q h' x Hcl' Hq Hne) as [?|[Hw' [b Hb']]]; [by left|right]. split; [done|]. exists b. simpl.
      rewrite lookup_insert_ne; [done|]. congruence.
    + destruct (Hw q h' ltac:(done) Hq) as [?|[b Hbq]]; [by left|]. right. exists b. simpl.
      rewrite lookup_insert_ne; [done|]. congruence.
    + right. exists op_id. simpl. by rewrite lookup_insert_eq.
    + simpl. destruct (decide ((q, h') = (p, h))) as [[= -> ->]|Hne].
      * rewrite lookup_insert_eq. intros [= <-]. split; [by left|]. by exists env, e, k.
      * rewrite lookup_insert_ne by congruence. apply He.
Qed.

Lemma check_claim_accounted CL k c seq h op_id env e now db :
  log_wf db → accounted CL db → named_row db op_id env → decode_envelope env = Ok e → k ≠ Seq →
  claim_of k e (at_seq c seq) h →
  let db' := check_claim k c seq h op_id env now db in
  log_wf db' ∧ accounted (also CL (at_seq c seq) h) db' ∧ stored db' = stored db ∧ compaction_floor db' = compaction_floor db.
Proof.
  intros Hwf Hac Hn Hd Hks Hcl. unfold check_claim.
  destruct (held_op_hash_spec db c seq Hwf) as (db1 & -> & Hv & Hwf1 & Hb).
  assert (accounted CL db1) as Hac1 by (by eapply accounted_view).
  pose proof (held_view _ _ (at_seq c seq) (eq_sym Hv)) as Hh.
  pose proof (below_view _ _ (at_seq c seq) (eq_sym Hv)) as Hbl.
  assert (stored db1 = stored db ∧ compaction_floor db1 = compaction_floor db) as [Hs Hfl]
    by (unfold view in Hv; by injection Hv).
  rewrite Hh. destruct (held db1 (at_seq c seq)) as [x|] eqn:Ex.
  - case_decide as Hx.
    + split_and!; [done| |done..]. apply add_known; [done|congruence|congruence].
    + destruct (record_fork_frame (at_seq c seq) k x h env now db1) as (Ho & Hf & He). split_and!.
      * by apply (wf_frame db1).
      * by eapply record_fork_accounted.
      * unfold stored. rewrite Ho. apply Hs.
      * by rewrite Hf.
  - assert (floor_seq db1 c = floor_seq db c) as Hfs by (unfold floor_seq, floor_of; by rewrite Hfl).
    rewrite Hfs. case_decide as Hlt.
    + split_and!; [done| |done..]. apply add_known; [done|congruence|]. intros _. left. by rewrite <-Hbl, Hb.
    + assert (¬ below db1 (at_seq c seq)) as Hnb by (by rewrite <-Hbl, Hb).
      assert (named_row db1 op_id env) as Hn1 by (destruct Hn as [q Hq]; exists q; by rewrite Hs).
      pose proof (expect_accounted CL db1 _ h op_id env e k Hac1 Ex Hnb Hn1 Hd Hks Hcl) as Hacc.
      unfold expect in *. destruct (chain_expected db1 !! _) eqn:E; [by split_and!|].
      split_and!; [|done|done|done]. by apply (wf_frame db1).
Qed.

(** ** All the claims of one op *)

Definition plus (CL : Pos → bytes → Prop) (l : list (Pos * bytes)) (p : Pos) (h : bytes) : Prop :=
  CL p h ∨ (p, h) ∈ l.

Lemma plus_nil CL db : accounted CL db → accounted (plus CL []) db.
Proof. apply accounted_iff. intros p h. unfold plus. rewrite elem_of_nil. tauto. Qed.

Lemma check_prev_accounted CL op_id env e now db :
  log_wf db → accounted CL db → named_row db op_id env → decode_envelope env = Ok e →
  let db' := check_prev op_id e env now db in
  log_wf db' ∧ accounted (plus CL (link_claims e)) db' ∧ stored db' = stored db ∧ compaction_floor db' = compaction_floor db.
Proof.
  intros Hwf Hac Hn Hd. unfold check_prev, link_claims.
  destruct (e_prev_hash e) as [prev|] eqn:Ep; [|split_and!; [done|by apply plus_nil|done..]].
  case_decide as Hs; [|split_and!; [done|by apply plus_nil|done..]].
  destruct (check_claim_accounted CL Link (chn (e_stream_id e) (e_device_id e)) (e_seq e - 1) prev op_id env e now db)
    as (Hwf' & Hac' & Hs' & Hf'); [done..| |].
  - simpl. unfold link_claims. rewrite Ep, decide_True by done. by apply list_elem_of_singleton.
  - split_and!; [done| |done..]. eapply accounted_iff; [|exact Hac']. intros p h. unfold also, plus.
    rewrite list_elem_of_singleton. split; [intros [?|[-> ->]]; auto|intros [?|[= -> ->]]; auto].
Qed.

Lemma check_heads_accounted CL op_id env e now l db :
  log_wf db → accounted CL db → named_row db op_id env → decode_envelope env = Ok e → (∀ x, x ∈ l → x ∈ e_heads e) →
  let db' := foldl (check_head op_id e env now) db l in
  log_wf db' ∧ accounted (plus CL (omap (head_claim e) l)) db' ∧ stored db' = stored db ∧
  compaction_floor db' = compaction_floor db.
Proof.
  revert CL db. induction l as [|x l IH]; intros CL db Hwf Hac Hn Hd Hin.
  - simpl. split_and!; [done|by apply plus_nil|done..].
  - cbn [foldl omap list_omap]. change (list_omap _ _ (head_claim e) l) with (omap (head_claim e) l).
    assert (∃ CL', log_wf (check_head op_id e env now db x) ∧ accounted CL' (check_head op_id e env now db x) ∧
      stored (check_head op_id e env now db x) = stored db ∧
      compaction_floor (check_head op_id e env now db x) = compaction_floor db ∧
      ∀ p h, CL' p h ↔ CL p h ∨ Some (p, h) = head_claim e x) as (CL' & Hwf1 & Hac1 & Hs1 & Hf1 & Hcl).
    { unfold check_head, head_claim. case_decide as Hsk.
      - exists CL. split_and!; [done..|]. intros. split; [auto|]. by intros [?|?].
      - destruct (check_claim_accounted CL Head (chn (e_stream_id e) (ch_device_id x)) (ch_seq x) (ch_op_hash x) op_id env e now db)
          as (Hwf' & Hac' & Hs' & Hf'); [done..| |].
        + simpl. unfold head_claims. apply list_elem_of_omap. exists x. split; [apply Hin; by left|].
          unfold head_claim. by rewrite decide_False.
        + exists (also CL (at_seq (chn (e_stream_id e) (ch_device_id x)) (ch_seq x)) (ch_op_hash x)).
          split_and!; [done..|]. intros p h. unfold also.
          split; [intros [?|[-> ->]]; auto|intros [?|[= -> ->]]; auto]. }
    destruct (IH CL' (check_head op_id e env now db x)) as (Hwf2 & Hac2 & Hs2 & Hf2);
      [done|done|by destruct Hn as [q Hq]; exists q; rewrite Hs1|done|intros y ?; apply Hin; by right|].
    split_and!; [done| |congruence..]. eapply accounted_iff; [|exact Hac2]. intros p h. unfold plus.
    rewrite Hcl. destruct (head_claim e x) as [y|].
    + rewrite elem_of_cons. split; [intros [[?|[= ->]]|?]; auto|intros [?|[->|?]]; auto].
    + split; [intros [[?|?]|?]; [auto|done|auto]|intros [?|?]; auto].
Qed.

(** ** An op that enters the log *)

Lemma check_named_expected f c seq x now db n :
  on_expected f (check_named c seq x now db n) = check_named c seq x now (on_expected f db) n.
Proof.
  destruct n as [h by_]. unfold check_named. case_decide; [done|].
  change (op_by_id (on_expected f db) by_) with (op_by_id db by_). case_match; [|done].
  unfold record_fork. simpl. by case_match.
Qed.

Lemma foldl_check_named_expected f c seq x now l db :
  on_expected f (foldl (check_named c seq x now) db l) = foldl (check_named c seq x now) (on_expected f db) l.
Proof. revert db. induction l as [|n l IH]; intros db; [done|]. simpl. by rewrite IH, check_named_expected. Qed.

Lemma elem_of_named db p h by_ : (h, by_) ∈ named_at db p ↔ chain_expected db !! (p, h) = Some by_.
Proof.
  unfold named_at. rewrite list_elem_of_omap. split.
  - intros ([[q h'] b] & Hin%elem_of_map_to_list & Hx). case_decide; [|done]. injection Hx as -> ->. by subst.
  - intros Hx. exists ((p, h), by_). rewrite elem_of_map_to_list. split; [done|]. by rewrite decide_True.
Qed.

Lemma i64_pred a n : n < i64_max → i64_of n = i64_of (a - 1) → a = sat_add u64_max n 1.
Proof. unfold i64_of, sat_add, i64_max, u64_max. lia. Qed.

Lemma link_claim_inv e c seq h :
  (at_seq c seq, h) ∈ link_claims e → e_device_id e = c.2 ∧ i64_of seq = i64_of (e_seq e - 1).
Proof.
  unfold link_claims. destruct (e_prev_hash e); [|by intros ?%not_elem_of_nil].
  case_decide; [|by intros ?%not_elem_of_nil]. intros Hin%list_elem_of_singleton. by injection Hin as -> -> _.
Qed.
Lemma head_claim_inv e c seq h : (at_seq c seq, h) ∈ head_claims e → e_device_id e ≠ c.2.
Proof.
  unfold head_claims. intros (x & _ & Hx)%list_elem_of_omap. unfold head_claim in Hx.
  case_decide as Hd; [done|]. injection Hx as <- _ _. simpl. intros He. apply Hd. by left.
Qed.

(** The kind [check_named] gives a claim is how it was made. *)
Lemma named_kind e k c seq h :
  seq < i64_max → k ≠ Seq → claim_of k e (at_seq c seq) h →
  (if decide (e_device_id e = c.2 ∧ e_seq e = sat_add u64_max seq 1) then Link else Head) = k.
Proof.
  intros Hseq Hk Hcl. destruct k; [done| |].
  - apply link_claim_inv in Hcl as [Hd Hs]. apply i64_pred in Hs; [|done]. by rewrite decide_True.
  - apply head_claim_inv in Hcl. rewrite decide_False; [done|]. by intros [? _].
Qed.

Lemma check_named_accounted CL c seq x now db h by_ env e k :
  seq < i64_max → log_wf db → accounted CL db → held db (at_seq c seq) = Some x →
  named_row db by_ env → decode_envelope env = Ok e → k ≠ Seq → claim_of k e (at_seq c seq) h →
  let db' := check_named c seq x now db (h, by_) in
  log_wf db' ∧ accounted (also CL (at_seq c seq) h) db' ∧ stored db' = stored db ∧ compaction_floor db' = compaction_floor db.
Proof.
  intros Hseq Hwf Hac Hx Hn Hd Hks Hcl. unfold check_named. case_decide as Hh.
  - split_and!; [done| |done..]. apply add_known; [done|congruence|congruence].
  - destruct (op_by_id_spec db by_ env Hwf Hn) as (r & -> & _ & Hr). rewrite Hr, Hd.
    rewrite (named_kind _ k c seq h) by done.
    destruct (record_fork_frame (at_seq c seq) k x h env now db) as (Ho & Hf & He). split_and!.
    + by apply (wf_frame db).
    + by eapply record_fork_accounted.
    + unfold stored. by rewrite Ho.
    + done.
Qed.

Lemma foldl_named_accounted c seq x now l CL db :
  seq < i64_max → log_wf db → accounted CL db → held db (at_seq c seq) = Some x →
  (∀ h by_, (h, by_) ∈ l → ∃ env e k, named_row db by_ env ∧ decode_envelope env = Ok e ∧ k ≠ Seq ∧ claim_of k e (at_seq c seq) h) →
  let db' := foldl (check_named c seq x now) db l in
  log_wf db' ∧ accounted (plus CL ((λ n, (at_seq c seq, n.1)) <$> l)) db' ∧ stored db' = stored db ∧
  compaction_floor db' = compaction_floor db.
Proof.
  intros Hseq. revert CL db. induction l as [|[h by_] l IH]; intros CL db Hwf Hac Hx Hl.
  - simpl. split_and!; [done|by apply plus_nil|done..].
  - destruct (Hl h by_) as (env & e & k & Hn & Hd & Hk & Hcl); [by left|].
    destruct (check_named_accounted CL c seq x now db h by_ env e k) as (Hwf1 & Hac1 & Hs1 & Hf1); [done..|].
    cbn [foldl].
    destruct (IH (also CL (at_seq c seq) h) (check_named c seq x now db (h, by_))) as (Hwf2 & Hac2 & Hs2 & Hf2).
    + done.
    + done.
    + rewrite <-Hx. unfold held, floor_of. by rewrite Hs1, Hf1.
    + intros h' b' Hin. destruct (Hl h' b') as (env' & e' & k' & [q Hq] & Hrest); [by right|].
      exists env', e', k'. split; [|done]. exists q. by rewrite Hs1.
    + split_and!; [done| |congruence..]. eapply accounted_iff; [|exact Hac2]. intros p h'. unfold plus, also.
      rewrite fmap_cons, elem_of_cons. simpl. split.
      * intros [[?|[-> ->]]|?]; auto.
      * intros [?|[[= -> ->]|?]]; auto.
Qed.
End facts.
Arguments accounted {_ _} W CL db.
