(* ===== verification/ChainPrefix.v ===== *)
(** * The cursor is the contiguous prefix, and its chain roots

    [prefix_ok] says a device's cursor is the end of the run of seqs the log
    holds or its floor covers; [rooted] that the roots beside the rows are the
    fold of the hashes of every op the log ever held. *)

From Stdlib Require Import ZArith Lia.
From stdpp Require Import base tactics decidable countable option gmap sorting strings numbers list.
From S2P Require Import Prelude Bytes Hlc Cbor Wire Envelope Chain ChainFacts.
Open Scope Z_scope.

Section prefix.
Context `{Ciborium, Crypto}.

(** ** SQL's aggregates *)

Lemma foldr_max_in x l : foldr Z.max x l ∈ x :: l ∧ ∀ y, y ∈ x :: l → y ≤ foldr Z.max x l.
Proof.
  induction l as [|z l [Hin Hmax]]; simpl.
  - split; [by left|]. intros y [->|?%not_elem_of_nil]%elem_of_cons; [lia|done].
  - split.
    + rewrite !elem_of_cons in *. destruct (Z.max_spec z (foldr Z.max x l)) as [[_ ->]|[_ ->]]; tauto.
    + intros y Hy. rewrite !elem_of_cons in Hy. destruct Hy as [->|[->|Hy]];
        [|lia|]; (etrans; [apply Hmax|apply Z.le_max_r]); rewrite elem_of_cons; auto.
Qed.

Lemma foldr_min_in x l : foldr Z.min x l ∈ x :: l ∧ ∀ y, y ∈ x :: l → foldr Z.min x l ≤ y.
Proof.
  induction l as [|z l [Hin Hmin]]; simpl.
  - split; [by left|]. intros y [->|?%not_elem_of_nil]%elem_of_cons; [lia|done].
  - split.
    + rewrite !elem_of_cons in *. destruct (Z.min_spec z (foldr Z.min x l)) as [[_ ->]|[_ ->]]; tauto.
    + intros y Hy. rewrite !elem_of_cons in Hy. destruct Hy as [->|[->|Hy]];
        [|lia|]; (etrans; [apply Z.le_min_r|apply Hmin]); rewrite elem_of_cons; auto.
Qed.

Lemma sql_max_Some l m : sql_max l = Some m → m ∈ l ∧ ∀ y, y ∈ l → y ≤ m.
Proof. destruct l as [|x l]; [done|]. intros [= <-]. apply foldr_max_in. Qed.
Lemma sql_min_Some l m : sql_min l = Some m → m ∈ l ∧ ∀ y, y ∈ l → m ≤ y.
Proof. destruct l as [|x l]; [done|]. intros [= <-]. apply foldr_min_in. Qed.
Lemma sql_max_None l : sql_max l = None → l = [].
Proof. by destruct l. Qed.
Lemma sql_min_None l : sql_min l = None → l = [].
Proof. by destruct l. Qed.

Lemma elem_of_row_seqs db c P n : n ∈ row_seqs db c P ↔ ∃ r, ops db !! (c, n) = Some r ∧ P n r = true.
Proof.
  unfold row_seqs. rewrite list_elem_of_omap. split.
  - intros ([[c' m] r] & Hin%elem_of_map_to_list & Hx). case_decide as Hc; [|done].
    destruct (P m r) eqn:Hp; [|done]. injection Hx as ->. subst. eauto.
  - intros (r & Hr & Hp). exists ((c, n), r). rewrite elem_of_map_to_list. split; [done|].
    by rewrite decide_True, Hp.
Qed.

(** ** The end of a run *)

Lemma run_ends db c start :
  is_Some (ops db !! (c, start)) → ∃ n, start ≤ n ∧ is_Some (ops db !! (c, n)) ∧ ops db !! (c, n + 1) = None.
Proof.
  assert (∃ M, ∀ n, is_Some (ops db !! (c, n)) → n < M) as [M HM].
  { destruct (sql_max (row_seqs db c (λ _ _, true))) as [m|] eqn:Em.
    - apply sql_max_Some in Em as [_ Hm]. exists (m + 1). intros n [r Hr].
      assert (n ≤ m) by (apply Hm, elem_of_row_seqs; eauto). lia.
    - apply sql_max_None in Em. exists 0. intros n [r Hr].
      assert (n ∈ row_seqs db c (λ _ _, true)) as Hin by (apply elem_of_row_seqs; eauto).
      rewrite Em in Hin. by apply not_elem_of_nil in Hin. }
  remember (Z.to_nat (M - start)) as k eqn:Hk. revert start Hk.
  induction k as [k IH] using lt_wf_ind. intros start Hk Hs.
  destruct (ops db !! (c, start + 1)) as [r|] eqn:E.
  - pose proof (HM _ Hs). destruct (IH (Z.to_nat (M - (start + 1))) ltac:(lia) (start + 1) eq_refl) as (n & Hn & ?);
      [by eexists|]. exists n. split; [lia|done].
  - exists start. split; [lia|done].
Qed.

Lemma ops_run_end_spec db c start :
  ∃ n, ops_run_end db c start = Some n ∧ start - 1 ≤ n ∧
       (∀ k, start ≤ k ≤ n → is_Some (ops db !! (c, k))) ∧ ops db !! (c, n + 1) = None.
Proof.
  unfold ops_run_end. destruct (ops db !! (c, start)) as [r|] eqn:Es.
  - destruct (run_ends db c start) as (n0 & Hn0 & Hr0 & Hend); [by eexists|].
    set (P := λ n (_ : OpRow), bool_decide (start ≤ n) && bool_decide (ops db !! (c, n + 1) = None)).
    assert (∀ n, n ∈ row_seqs db c P ↔ start ≤ n ∧ is_Some (ops db !! (c, n)) ∧ ops db !! (c, n + 1) = None) as HP.
    { intros n. rewrite elem_of_row_seqs. unfold P. setoid_rewrite andb_true_iff. setoid_rewrite bool_decide_eq_true.
      split; [intros (r' & ? & ? & ?); eauto|intros (? & [r' ?] & ?); eauto]. }
    change (λ n0 _, _) with P. destruct (sql_min (row_seqs db c P)) as [m|] eqn:Em.
    + apply sql_min_Some in Em as [Hin Hmin]. apply HP in Hin as (Hm & Hr & He).
      exists m. split_and!; [done|lia| |done]. intros k Hk.
      assert (∀ j : nat, start + Z.of_nat j ≤ m → is_Some (ops db !! (c, start + Z.of_nat j))) as Hall.
      { induction j as [|j IH]; intros Hj; [rewrite Z.add_0_r; by eexists|].
        destruct (ops db !! (c, start + Z.of_nat (S j))) as [r'|] eqn:E; [by eexists|].
        assert (start + Z.of_nat j ∈ row_seqs db c P) as Hin.
        { apply HP. split_and!; [lia|apply IH; lia|]. by replace (start + Z.of_nat j + 1) with (start + Z.of_nat (S j)) by lia. }
        apply Hmin in Hin. lia. }
      replace k with (start + Z.of_nat (Z.to_nat (k - start))) by lia. apply Hall. lia.
    + apply sql_min_None in Em. assert (n0 ∈ row_seqs db c P) as Hin by (by apply HP).
      rewrite Em in Hin. by apply not_elem_of_nil in Hin.
  - exists (start - 1). split_and!; [done|lia|intros; lia|]. by replace (start - 1 + 1) with start by lia.
Qed.

(** ** The cursor *)

(** A cursor is where the run of held or covered seqs ends. *)
Record prefix_ok (db : Log) (c : Chn) : Prop := {
  po_cover : ∀ k, 1 ≤ k ≤ cursor_of db c → is_Some (ops db !! (c, k)) ∨ k ≤ floor_seq db c;
  po_end : ops db !! (c, cursor_of db c + 1) = None;
  po_floor : 0 ≤ floor_seq db c ≤ cursor_of db c;
}.

(** ** Folding the chain leaves what the rules read *)

(** [db'] is [db] but for hash and root columns, claims and divergences. *)
Record quiet (db db' : Log) : Prop := {
  q_view : view db' = view db;
  q_cursors : sync_cursors db' = sync_cursors db;
  q_wf : log_wf db → log_wf db';
}.

#[export] Instance quiet_refl : Reflexive quiet.
Proof. by intros db. Qed.
#[export] Instance quiet_trans : Transitive quiet.
Proof. intros a b c [H1 H2 H3] [H4 H5 H6]. split; [congruence|congruence|auto]. Qed.

Lemma quiet_row db db' p : quiet db db' → is_Some (ops db' !! p) ↔ is_Some (ops db !! p).
Proof.
  intros [Hv _ _]. unfold view in Hv. injection Hv as Hs _ _ _. unfold stored in Hs.
  assert (((λ r, (r_op_id r, r_envelope r)) <$> ops db') !! p = ((λ r, (r_op_id r, r_envelope r)) <$> ops db) !! p) as Hp by by rewrite Hs.
  rewrite !lookup_fmap in Hp. destruct (ops db' !! p), (ops db !! p); try done; split; intros [? ?]; done || by eexists.
Qed.

Lemma quiet_floor db db' c : quiet db db' → floor_of db' c = floor_of db c.
Proof. intros [Hv _ _]. unfold view in Hv. injection Hv as _ Hf _ _. unfold floor_of. by rewrite Hf. Qed.
Lemma quiet_cursor db db' c : quiet db db' → cursor_of db' c = cursor_of db c.
Proof. intros [_ Hc _]. unfold cursor_of. by rewrite Hc. Qed.

Lemma set_op_hash_quiet db p r :
  log_wf db → ops db !! p = Some r → quiet db (set_op_hash (r_op_id r) (hash_of_stored (r_envelope r)) db).
Proof. intros Hwf Hr. split; [apply set_op_hash_view|done|intros _; by eapply set_op_hash_wf]. Qed.

Lemma held_op_hash_quiet db c seq : log_wf db → quiet db (held_op_hash db c seq).1.
Proof.
  intros Hwf. unfold held_op_hash. destruct (ops db !! at_seq c seq) as [r|] eqn:Er; [|done].
  destruct (r_op_hash r); [done|]. by eapply set_op_hash_quiet.
Qed.

Lemma with_root_quiet db p x : quiet db (on_ops (alter (with_root x) p) db).
Proof.
  assert (stored (on_ops (alter (with_root x) p) db) = stored db) as Hs.
  { unfold stored. simpl. apply map_eq. intros q. rewrite !lookup_fmap.
    destruct (decide (q = p)) as [->|Hq]; [|by rewrite lookup_alter_ne].
    rewrite lookup_alter_eq. by destruct (ops db !! p). }
  split; [unfold view; by rewrite Hs|done|]. intros [Hf Hi Hh]. split; [done|by rewrite Hs|].
  intros q r h. simpl. destruct (decide (q = p)) as [->|Hq]; [|rewrite lookup_alter_ne by done; apply Hh].
  rewrite lookup_alter_eq. destruct (ops db !! p) as [r'|] eqn:E; [|done]. intros [= <-]. simpl. intros Hx. exact (Hh p r' h E Hx).
Qed.

Lemma judge_quiet c peer seq a b now db : quiet db (judge c peer seq a b now db).
Proof. unfold judge. case_decide; (split; [done|done|intros Hwf; by apply (wf_frame db)]). Qed.

Lemma settle_claim_quiet c now db x : quiet db (settle_claim c now db x).
Proof.
  destruct x as [peer [n root]]. unfold settle_claim. case_match.
  - etrans; [|apply judge_quiet]. split; [done|done|intros Hwf; by apply (wf_frame db)].
  - split; [done|done|intros Hwf; by apply (wf_frame db)].
Qed.

Lemma foldl_quiet {A} (f : Log → A → Log) l db : (∀ db x, quiet db (f db x)) → quiet db (foldl f db l).
Proof. intros Hf. revert db. induction l as [|x l IH]; intros db; [done|]. simpl. etrans; [apply Hf|apply IH]. Qed.

Lemma fold_steps_quiet n c seq root db : log_wf db → quiet db (fold_steps n c seq root db).1.
Proof.
  revert seq root db. induction n as [|n IH]; intros seq root db Hwf; [done|]. cbn [fold_steps].
  pose proof (held_op_hash_quiet db c (seq + 1) Hwf) as Hq. destruct (held_op_hash db c (seq + 1)) as [db1 [h|]]; [|done].
  simpl in Hq. etrans; [exact Hq|]. etrans; [apply with_root_quiet|]. apply IH.
  eapply q_wf; [apply with_root_quiet|]. by apply Hq.
Qed.

Lemma fold_chain_quiet c prefix now db : log_wf db → quiet db (fold_chain c prefix now db).
Proof.
  intros Hwf. unfold fold_chain. case_decide; [done|]. destruct (resume_from db c prefix) as [seq root].
  pose proof (fold_steps_quiet (Z.to_nat (prefix - seq)) c seq root db Hwf) as Hq.
  destruct (fold_steps _ _ _ _ _) as [db1 n]. simpl in Hq. etrans; [exact Hq|].
  apply foldl_quiet. intros. apply settle_claim_quiet.
Qed.

Lemma reconcile_entry_quiet s peer now db e : log_wf db → quiet db (reconcile_entry s peer now db e).
Proof.
  intros Hwf. unfold reconcile_entry. case_decide; [done|]. case_decide.
  - destruct (root_at db (chn s (fe_device_id e)) (fe_seq e)); [case_match; [apply judge_quiet|done]|].
    set (c := chn s (fe_device_id e)).
    pose proof (fold_chain_quiet c (Z.max (cursor_of db c) 0) now db Hwf) as Hq.
    destruct (root_at _ _ _); [|exact Hq]. etrans; [exact Hq|apply judge_quiet].
  - unfold claim_later. repeat case_match; try done; (split; [done|done|intros; by apply (wf_frame db)]).
Qed.

Lemma reconcile_quiet s peer p at_ms now db : log_wf db → quiet db (reconcile s peer p at_ms now db).
Proof.
  intros Hwf. unfold reconcile. case_match; [done|].
  set (db1 := record_peer_frontier _ _ _ _ _).
  assert (quiet db db1) as Hq.
  { apply foldl_quiet. intros db' x. split; [done|done|intros; by apply (wf_frame db')]. }
  etrans; [exact Hq|]. assert (log_wf db1) as Hwf1 by (by apply Hq). clearbody db1. clear Hq.
  revert db1 Hwf1. generalize (sd_frontier p). intros l. induction l as [|e l IH]; intros db1 Hwf1; [done|]. simpl.
  pose proof (reconcile_entry_quiet s peer now db1 e Hwf1) as Hq. etrans; [exact Hq|]. apply IH. by apply Hq.
Qed.

(** ** Moving the cursor *)

Lemma upsert_sync_cursor_spec c now db db' :
  log_wf db → 0 ≤ floor_seq db c → Z.max (floor_seq db c) (cursor_of db c) < i64_max → 0 ≤ cursor_of db c →
  upsert_sync_cursor c now db = Some db' →
  view db' = view db ∧ log_wf db' ∧ (∀ c', c' ≠ c → cursor_of db' c' = cursor_of db c') ∧
  ∃ n, cursor_of db' c = n ∧ Z.max (floor_seq db c) (cursor_of db c) ≤ n ∧
       (∀ k, Z.max (floor_seq db c) (cursor_of db c) < k ≤ n → is_Some (ops db !! (c, k))) ∧ ops db !! (c, n + 1) = None.
Proof.
  intros Hwf Hf Hmax Hc. unfold upsert_sync_cursor.
  assert (sat_add u64_max (Z.max (floor_seq db c) (cursor_of db c)) 1 = Z.max (floor_seq db c) (cursor_of db c) + 1) as ->.
  { unfold sat_add, i64_max, u64_max in *. lia. }
  rewrite decide_True by lia. set (m := Z.max (floor_seq db c) (cursor_of db c)) in *.
  destruct (ops_run_end_spec db c (m + 1)) as (n & -> & Hn & Hall & Hend). cbn [mbind option_bind]. intros [= <-].
  assert (from_option (Z.max n) n (sync_cursors db !! c) = n) as ->.
  { unfold cursor_of in m. destruct (sync_cursors db !! c) as [x|]; simpl in *; [|done]. lia. }
  set (db1 := on_cursors _ db).
  assert (log_wf db1) as Hwf1 by (by apply (wf_frame db)).
  pose proof (fold_chain_quiet c (Z.max n 0) now db1 Hwf1) as Hq.
  split; [by rewrite (q_view _ _ Hq)|]. split; [by apply Hq|]. split.
  - intros c' Hc'. rewrite (quiet_cursor _ _ c' Hq). unfold cursor_of, db1; simpl. by rewrite lookup_insert_ne.
  - exists n. split_and!; [|lia| |done].
    + rewrite (quiet_cursor _ _ c Hq). unfold cursor_of, db1; simpl. by rewrite lookup_insert_eq.
    + intros k Hk. apply Hall. lia.
Qed.

Lemma upsert_sync_cursor_total c now db : is_Some (upsert_sync_cursor c now db).
Proof.
  unfold upsert_sync_cursor. set (start := if decide _ then _ else _).
  destruct (ops_run_end_spec db c start) as (n & -> & _). by eexists.
Qed.

(** ** The checks touch evidence and expectations alone *)

(** Everything but the hash column, [chain_expected] and [fork_evidence]. *)
Definition skel (db : Log) :=
  ((λ r, (r_op_id r, r_ts_ms r, r_envelope r, r_inner_kind r, r_applied_at r, r_chain_root r)) <$> ops db,
   (parked_ops db, pending_groups db, outbox db, compaction_floor db, sync_cursors db),
   (chain_heads_sent db, chain_claims db, chain_divergence db, peer_frontiers db)).

Lemma skel_set_op_hash id h db : skel (set_op_hash id h db) = skel db.
Proof.
  unfold skel. simpl. f_equal. f_equal. rewrite <-map_fmap_compose. apply map_fmap_ext. intros p r _. simpl. by case_decide.
Qed.
Lemma skel_held db c seq : skel (held_op_hash db c seq).1 = skel db.
Proof.
  unfold held_op_hash. repeat case_match; try done. apply skel_set_op_hash.
Qed.
Lemma skel_record p k x h env now db : skel (record_fork p k x h env now db).1 = skel db.
Proof. unfold record_fork. by case_match. Qed.
Lemma skel_check_claim k c seq h id env now db : skel (check_claim k c seq h id env now db) = skel db.
Proof.
  unfold check_claim. pose proof (skel_held db c seq) as Hs. destruct (held_op_hash db c seq) as [db1 [x|]]; simpl in Hs.
  - case_decide; [done|]. by rewrite skel_record.
  - case_decide; [done|]. unfold expect. by case_match.
Qed.
Lemma skel_foldl {A} (f : Log → A → Log) l db : (∀ db x, skel (f db x) = skel db) → skel (foldl f db l) = skel db.
Proof. intros Hf. revert db. induction l as [|x l IH]; intros db; [done|]. simpl. by rewrite IH, Hf. Qed.
Lemma skel_check_named c seq x now db n : skel (check_named c seq x now db n) = skel db.
Proof. destruct n. unfold check_named. case_decide; [done|]. case_match; [|done]. apply skel_record. Qed.
Lemma skel_check_links id e env now db db' : check_links id e env now db = Some db' → skel db' = skel db.
Proof.
  unfold check_links. case_match; [|done]. intros [= <-].
  rewrite skel_foldl by (intros; unfold check_head; case_decide; [done|apply skel_check_claim]).
  transitivity (skel (foldl (check_named (chn (e_stream_id e) (e_device_id e)) (e_seq e) a now) (set_op_hash id a db)
    (named_at (set_op_hash id a db) (at_seq (chn (e_stream_id e) (e_device_id e)) (e_seq e))))).
  - unfold check_prev. case_match; [|done]. case_decide; [|done]. by rewrite skel_check_claim.
  - rewrite skel_foldl by (intros; apply skel_check_named). apply skel_set_op_hash.
Qed.

Lemma skel_row db db' p : skel db' = skel db → is_Some (ops db' !! p) ↔ is_Some (ops db !! p).
Proof.
  unfold skel. intros [= Ho _ _ _ _ _ _ _ _ _].
  assert (is_Some (((λ r, (r_op_id r, r_ts_ms r, r_envelope r, r_inner_kind r, r_applied_at r, r_chain_root r)) <$> ops db') !! p)
    ↔ is_Some (((λ r, (r_op_id r, r_ts_ms r, r_envelope r, r_inner_kind r, r_applied_at r, r_chain_root r)) <$> ops db) !! p)) as Hp by by rewrite Ho.
  by rewrite !lookup_fmap, !fmap_is_Some in Hp.
Qed.
Lemma skel_cursors db db' : skel db' = skel db → sync_cursors db' = sync_cursors db.
Proof. unfold skel. by intros [= _ _ _ _ _ -> _ _ _ _]. Qed.
Lemma skel_floor db db' : skel db' = skel db → compaction_floor db' = compaction_floor db.
Proof. unfold skel. by intros [= _ _ _ _ -> _ _ _ _ _]. Qed.

Lemma prefix_skel db db' c : skel db' = skel db → prefix_ok db c → prefix_ok db' c.
Proof.
  intros Hs [H1 H2 H3]. pose proof (λ p, skel_row _ _ p Hs) as Hr.
  assert (cursor_of db' c = cursor_of db c) as Hc by (unfold cursor_of; by rewrite (skel_cursors _ _ Hs)).
  assert (floor_seq db' c = floor_seq db c) as Hf by (unfold floor_seq, floor_of; by rewrite (skel_floor _ _ Hs)).
  split; rewrite ?Hc, ?Hf.
  - intros k Hk. rewrite Hr. auto.
  - apply eq_None_not_Some. intros [r Hx]%(proj1 (Hr _)). pose proof (eq_trans (eq_sym H2) Hx). done.
  - done.
Qed.
Lemma prefix_quiet db db' c : quiet db db' → prefix_ok db c → prefix_ok db' c.
Proof.
  intros Hq [H1 H2 H3]. pose proof (λ p, quiet_row _ _ p Hq) as Hr.
  assert (floor_seq db' c = floor_seq db c) as Hf by (unfold floor_seq; by rewrite (quiet_floor _ _ c Hq)).
  split; rewrite ?(quiet_cursor _ _ c Hq), ?Hf.
  - intros k Hk. rewrite Hr. auto.
  - apply eq_None_not_Some. intros [r Hx]%(proj1 (Hr _)). pose proof (eq_trans (eq_sym H2) Hx). done.
  - done.
Qed.
End prefix.
