(* ===== verification/ChainEvidence.v ===== *)
(** * Receiving keeps every disagreement as evidence

    [accounted] through the receive path, and over a whole history of
    deliveries. *)

From Stdlib Require Import ZArith Lia.
From stdpp Require Import base tactics decidable countable option gmap sorting strings numbers list.
From S2P Require Import Prelude Bytes Hlc Cbor Wire Envelope EnvelopeFacts EnvelopeSeal Chain ChainFacts ChainPrefix.
Open Scope Z_scope.

Section evidence.
Context `{Ciborium, Crypto} {W : Pos → Prop}.

Lemma accounted_mono (CL CL' : Pos → bytes → Prop) db :
  (∀ p h, CL' p h → CL p h) → accounted W CL db → accounted W CL' db.
Proof. intros Hsub []. split; [eauto|eauto|done|done]. Qed.

Lemma view_inv db db' :
  view db = view db' → stored db = stored db' ∧ compaction_floor db = compaction_floor db' ∧
  chain_expected db = chain_expected db' ∧ fork_evidence db = fork_evidence db'.
Proof. unfold view. by intros [= -> -> -> ->]. Qed.
Lemma view_intro db db' :
  stored db = stored db' → compaction_floor db = compaction_floor db' →
  chain_expected db = chain_expected db' → fork_evidence db = fork_evidence db' → view db = view db'.
Proof. unfold view. by intros -> -> -> ->. Qed.

Lemma stored_ops db p : stored db !! p = None ↔ ops db !! p = None.
Proof. unfold stored. rewrite lookup_fmap. by destruct (ops db !! p). Qed.
Lemma stored_some db p : is_Some (ops db !! p) ↔ is_Some (stored db !! p).
Proof. unfold stored. by rewrite lookup_fmap, fmap_is_Some. Qed.

(** ** An op the log did not hold *)

Lemma own_pos_small e : e_seq e < i64_max → own_pos e = (chn (e_stream_id e) (e_device_id e), e_seq e).
Proof. intros Hs. unfold own_pos, at_seq. by rewrite i64_seq. Qed.

Lemma hash_of_decoded buf e x : decode_envelope buf = Ok e → op_hash e = Ok x → hash_of_stored buf = x.
Proof. intros Hd Hh. unfold hash_of_stored. by rewrite Hd, Hh. Qed.

Definition new_row (op_id buf : bytes) (ts : Z) (kind : string) (ap : option Z) : OpRow :=
  mkRow op_id ts buf kind ap None None.

Lemma stored_insert p r db : stored (on_ops <[p := r]> db) = <[p := (r_op_id r, r_envelope r)]> (stored db).
Proof. unfold stored. simpl. by rewrite fmap_insert. Qed.

Lemma insert_wf db p op_id buf ts kind ap :
  log_wf db → (∀ env, ¬ named_row db op_id env) → log_wf (on_ops <[p := new_row op_id buf ts kind ap]> db).
Proof.
  intros [Hf Hi Hh] Hfresh. split; [done| |].
  - intros q q' id env env'. rewrite stored_insert. simpl.
    destruct (decide (q = p)) as [->|Hq], (decide (q' = p)) as [->|Hq'];
      rewrite ?lookup_insert_eq, ?lookup_insert_ne by done; try done.
    + intros [= -> ->] Hq'r. destruct (Hfresh env'). by exists q'.
    + intros Hqr [= -> ->]. destruct (Hfresh env). by exists q.
    + apply Hi.
  - intros q r h. simpl. destruct (decide (q = p)) as [->|Hq].
    + rewrite lookup_insert_eq. by intros [= <-].
    + rewrite lookup_insert_ne by done. apply Hh.
Qed.

(** What a new row changes: its own position. *)
Lemma held_insert db p op_id buf ts kind ap q :
  held (on_ops <[p := new_row op_id buf ts kind ap]> db) q =
  if decide (q = p) then Some (hash_of_stored buf) else held db q.
Proof.
  unfold held. rewrite stored_insert. simpl. case_decide as Hq.
  - subst. by rewrite lookup_insert_eq.
  - by rewrite lookup_insert_ne.
Qed.

Lemma entering_accounted CL db p op_id buf ts kind ap :
  log_wf db → accounted W CL db → held db p = None → ¬ below db p → (∀ env, ¬ named_row db op_id env) →
  accounted W (λ q h, CL q h ∧ q ≠ p)
    (on_expected (filter (λ x, x.1.1 ≠ p)) (on_ops <[p := new_row op_id buf ts kind ap]> db)).
Proof.
  intros Hwf [Hf Hw He Hk] Hp Hb Hfresh. set (db' := on_expected _ _).
  assert (∀ q, held db' q = if decide (q = p) then Some (hash_of_stored buf) else held db q) as Hh.
  { intros q. rewrite <-(held_insert db p op_id buf ts kind ap q). done. }
  assert (stored db' = <[p := (op_id, buf)]> (stored db)) as Hs by apply stored_insert.
  assert (stored db !! p = None) as Hnone.
  { unfold held in Hp. destruct (stored db !! p) as [[]|]; done. }
  split.
  - intros q h x [Hcl Hq]. rewrite Hh, decide_False by done. intros Hx Hne.
    destruct (Hf q h x Hcl Hx Hne) as [?|[Hwq [b Hbx]]]; [by left|right]. split; [done|]. exists b. simpl.
    apply map_lookup_filter_Some. by split.
  - intros q h [Hcl Hq]. rewrite Hh, decide_False by done. intros Hn.
    destruct (Hw q h Hcl Hn) as [?|[b Hbx]]; [by left|right]. exists b. simpl.
    apply map_lookup_filter_Some. by split.
  - intros q h b. simpl. intros [Hx Hq]%map_lookup_filter_Some. simpl in Hq. rewrite Hh, decide_False by done.
    destruct (He _ _ _ Hx) as (? & env & e & k & [r Hr] & ?). split; [done|].
    exists env, e, k. split; [|done]. exists r. rewrite Hs, lookup_insert_ne; [done|]. congruence.
  - intros q k h ev Hev. destruct (Hk _ _ _ _ Hev) as (Hne & Hheld & Hcl). rewrite Hh.
    destruct (decide (q = p)) as [->|Hq]; [|by split_and!].
    exfalso. destruct Hheld as [?|[_ ?]]; [congruence|done].
Qed.

Definition own_claims (e : OpEnvelope) : list (Pos * bytes) :=
  match op_hash e with Ok h => [(own_pos e, h)] | Err _ => [] end.
Definition all_claims (e : OpEnvelope) : list (Pos * bytes) := own_claims e ++ link_claims e ++ head_claims e.

(** The checks of an op whose row is in the log, its own position settled. *)
Lemma later_checks CL op_id buf e now db x :
  log_wf db → accounted W CL db → named_row db op_id buf → decode_envelope buf = Ok e →
  op_hash e = Ok x → held db (own_pos e) = Some x →
  let db' := foldl (check_head op_id e buf now) (check_prev op_id e buf now db) (e_heads e) in
  log_wf db' ∧ accounted W (plus CL (all_claims e)) db' ∧ stored db' = stored db ∧ compaction_floor db' = compaction_floor db.
Proof.
  intros Hwf Hac Hn Hd Hx Hheld.
  assert (accounted W (also CL (own_pos e) x) db) as Hac0 by (apply add_known; [done|congruence|congruence]).
  destruct (check_prev_accounted _ op_id buf e now db Hwf Hac0 Hn Hd) as (Hwf1 & Hac1 & Hs1 & Hf1).
  destruct (check_heads_accounted _ op_id buf e now (e_heads e) (check_prev op_id e buf now db) Hwf1 Hac1)
    as (Hwf2 & Hac2 & Hs2 & Hf2); [by destruct Hn as [q Hq]; exists q; rewrite Hs1|done|done|].
  split_and!; [done| |congruence..]. eapply accounted_iff; [|exact Hac2]. intros p h.
  change (omap (head_claim e) (e_heads e)) with (head_claims e).
  unfold plus, also, all_claims, own_claims. rewrite Hx. cbn [app]. rewrite elem_of_cons, elem_of_app. split.
  - intros [[[?|[-> ->]]|?]|?]; auto.
  - intros [?|[[= -> ->]|[?|?]]]; auto.
Qed.

(** The op's own row changes no hash column but its own. *)
Lemma set_own_hash db p op_id buf e x r :
  log_wf db → ops db !! p = Some r → r_op_id r = op_id → r_envelope r = buf →
  decode_envelope buf = Ok e → op_hash e = Ok x →
  log_wf (set_op_hash op_id x db) ∧ view (set_op_hash op_id x db) = view db.
Proof.
  intros Hwf Hr Hid Hb Hd Hx. split; [|apply set_op_hash_view].
  eapply set_op_hash_wf; [done|done|done|]. rewrite Hb. by rewrite (hash_of_decoded _ _ _ Hd Hx).
Qed.

Lemma enter_accounted CL db buf e op_id ts kind ap now db' :
  e_seq e < i64_max → log_wf db → accounted W CL db →
  held db (own_pos e) = None → ¬ below db (own_pos e) → (∀ env, ¬ named_row db op_id env) →
  decode_envelope buf = Ok e →
  check_links op_id e buf now (on_ops <[own_pos e := new_row op_id buf ts kind ap]> db) = Some db' →
  log_wf db' ∧ accounted W (plus CL (all_claims e)) db' ∧
  stored db' = <[own_pos e := (op_id, buf)]> (stored db) ∧ compaction_floor db' = compaction_floor db.
Proof.
  intros Hseq Hwf Hac Hp Hb Hfresh Hd. unfold check_links.
  destruct (op_hash e) as [x|] eqn:Hx; [|done]. intros [= <-].
  set (c := chn (e_stream_id e) (e_device_id e)). change (at_seq c (e_seq e)) with (own_pos e).
  set (db1 := on_ops _ db).
  destruct (set_own_hash db1 (own_pos e) op_id buf e x (new_row op_id buf ts kind ap)) as [Hwf1 Hv1];
    [by apply insert_wf|by apply lookup_insert_eq|done..|].
  set (dbh := set_op_hash op_id x db1) in *.
  set (f := filter (λ x, x.1.1 ≠ own_pos e)). set (named := named_at dbh (own_pos e)).
  rewrite (foldl_check_named_expected f). set (db2 := on_expected f dbh).
  assert (view db2 = view (on_expected f db1)) as Hv2.
  { apply view_inv in Hv1 as (E1 & E2 & E3 & E4). apply view_intro; [exact E1|exact E2|exact (f_equal f E3)|exact E4]. }
  assert (accounted W (λ q h, CL q h ∧ q ≠ own_pos e) db2) as Hac2.
  { eapply accounted_view; [symmetry; exact Hv2|]. by apply entering_accounted. }
  assert (log_wf db2) as Hwf2 by (by apply (wf_frame dbh)).
  assert (stored db2 = <[own_pos e := (op_id, buf)]> (stored db)) as Hs2.
  { apply view_inv in Hv2 as (-> & _). apply stored_insert. }
  assert (compaction_floor db2 = compaction_floor db) as Hf2 by (by apply view_inv in Hv2 as (_ & -> & _)).
  assert (held db2 (own_pos e) = Some x) as Hheld.
  { rewrite (held_view _ _ _ Hv2). rewrite <-(hash_of_decoded _ _ _ Hd Hx).
    rewrite (held_frame db1) by done. unfold db1. rewrite held_insert. by rewrite decide_True. }
  assert (∀ h b, (h, b) ∈ named ↔ chain_expected db !! (own_pos e, h) = Some b) as Hnamed.
  { intros h b. unfold named. rewrite elem_of_named. by apply view_inv in Hv1 as (_ & _ & -> & _). }
  destruct (foldl_named_accounted c (e_seq e) x now named _ db2 Hseq Hwf2 Hac2 Hheld) as (Hwf3 & Hac3 & Hs3 & Hf3).
  { intros h b Hin%Hnamed. destruct (ac_expected _ _ Hac _ _ _ Hin) as (_ & env & e' & k & [q Hq] & Hrest).
    exists env, e', k. split; [|done]. exists q. rewrite Hs2, lookup_insert_ne; [done|]. intros <-.
    unfold held in Hp. by rewrite Hq in Hp. }
  destruct (later_checks _ op_id buf e now _ x Hwf3 Hac3) as (Hwf4 & Hac4 & Hs4 & Hf4).
  { exists (own_pos e). by rewrite Hs3, Hs2, lookup_insert_eq. }
  { done. }
  { done. }
  { rewrite <-Hheld. unfold held, floor_of. by rewrite Hs3, Hf3. }
  split_and!; [done| |congruence..]. eapply accounted_mono; [|exact Hac4]. intros p h [Hcl|Hcl]; [|by right].
  left. unfold plus. destruct (decide (p = own_pos e)) as [->|Hne]; [|by left]. right.
  destruct (ac_waits _ _ Hac _ _ Hcl Hp) as [?|[b Hbx]]; [done|].
  apply list_elem_of_fmap. exists (h, b). split; [done|]. by apply Hnamed.
Qed.

(** ** An op the log already holds *)

(** Dropping the expectations at a held position: what waited there is claimed
    no longer. *)
Lemma drop_expected_accounted CL db p x :
  accounted W CL db → held db p = Some x →
  accounted W (λ q h, CL q h ∧ (q ≠ p ∨ chain_expected db !! (p, h) = None)) (on_expected (filter (λ x, x.1.1 ≠ p)) db).
Proof.
  intros [Hf Hw He Hk] Hp. set (db' := on_expected _ _).
  assert (∀ q, held db' q = held db q) as Hh by (intros; by apply held_frame).
  split.
  - intros q h y [Hcl Hq]. rewrite Hh. intros Hy Hne.
    destruct (Hf q h y Hcl Hy Hne) as [?|[Hwq [b Hbx]]]; [by left|]. destruct Hq as [Hq|Hn]; [right|].
    + split; [done|]. exists b. simpl. apply map_lookup_filter_Some. by split.
    + destruct (decide (q = p)) as [->|Hq]; [by pose proof (eq_trans (eq_sym Hbx) Hn)|right].
      split; [done|]. exists b. simpl. apply map_lookup_filter_Some. by split.
  - intros q h [Hcl _]. rewrite Hh. intros Hq. destruct (Hw q h Hcl Hq) as [?|[b Hbx]]; [by left|right]. exists b. simpl.
    apply map_lookup_filter_Some. split; [done|]. simpl. congruence.
  - intros q h b. simpl. intros [Hx Hq]%map_lookup_filter_Some. rewrite Hh. by apply He.
  - intros q k h ev. rewrite Hh. apply Hk.
Qed.

Lemma recheck_accounted CL db buf e op_id now db' :
  e_seq e < i64_max → log_wf db → accounted W CL db → stored db !! own_pos e = Some (op_id, buf) → decode_envelope buf = Ok e →
  check_links op_id e buf now db = Some db' →
  log_wf db' ∧ accounted W (plus CL (all_claims e)) db' ∧ stored db' = stored db ∧ compaction_floor db' = compaction_floor db.
Proof.
  intros Hseq Hwf Hac Hst Hd. unfold check_links. destruct (op_hash e) as [x|] eqn:Hx; [|done]. intros [= <-].
  set (c := chn (e_stream_id e) (e_device_id e)). change (at_seq c (e_seq e)) with (own_pos e).
  apply stored_inv in Hst as Hr. destruct Hr as (r & Hr & Heq). injection Heq as Hid Hbuf.
  destruct (set_own_hash db (own_pos e) op_id buf e x r) as [Hwf1 Hv1]; [done..|].
  set (dbh := set_op_hash op_id x db) in *.
  assert (held dbh (own_pos e) = Some x) as Hheld.
  { rewrite (held_view _ _ _ Hv1). unfold held. rewrite Hst. by rewrite (hash_of_decoded _ _ _ Hd Hx). }
  assert (accounted W CL dbh) as Hac1 by (by eapply accounted_view).
  set (f := filter (λ x, x.1.1 ≠ own_pos e)). set (named := named_at dbh (own_pos e)).
  rewrite (foldl_check_named_expected f). set (dbd := on_expected f dbh).
  assert (stored dbd = stored db ∧ compaction_floor dbd = compaction_floor db) as [Hsd Hfd]
    by (by apply view_inv in Hv1 as (E1 & E2 & _)).
  pose proof (drop_expected_accounted CL dbh (own_pos e) x Hac1 Hheld) as Hacd. fold f dbd in Hacd.
  destruct (foldl_named_accounted (W := W) c (e_seq e) x now named _ dbd Hseq (wf_frame dbh dbd eq_refl eq_refl Hwf1) Hacd)
    as (Hwf3 & Hac3 & Hs3 & Hf3).
  { by rewrite (held_frame dbh). }
  { intros h b Hin%elem_of_named. destruct (ac_expected _ _ Hac1 _ _ _ Hin) as (_ & env & e' & k & [q Hq] & Hrest).
    exists env, e', k. split; [|done]. by exists q. }
  destruct (later_checks _ op_id buf e now _ x Hwf3 Hac3) as (Hwf4 & Hac4 & Hs4 & Hf4); [|done|done| |].
  { exists (own_pos e). by rewrite Hs3, Hsd. }
  { rewrite <-Hheld. unfold held, floor_of. by rewrite Hs3, Hf3. }
  split_and!; [done| |congruence..]. eapply accounted_mono; [|exact Hac4]. intros p h [Hcl|Hcl]; [|by right].
  left. unfold plus. destruct (decide (p = own_pos e)) as [->|Hne]; [|left; by split; [|left]].
  destruct (chain_expected dbh !! (own_pos e, h)) as [b|] eqn:Eb; [right|left; by split; [|right]].
  apply list_elem_of_fmap. exists (h, b). split; [done|]. by apply elem_of_named.
Qed.

Lemma check_duplicate_accounted CL db buf e now db' b :
  log_wf db → accounted W CL db → held db (own_pos e) ≠ None → decode_envelope buf = Ok e →
  check_duplicate e buf now db = Some (db', b) →
  log_wf db' ∧ accounted W (plus CL (own_claims e)) db' ∧ stored db' = stored db ∧
  compaction_floor db' = compaction_floor db ∧ skel db' = skel db.
Proof.
  intros Hwf Hac Hp Hd. unfold check_duplicate, own_claims. destruct (op_hash e) as [x|] eqn:Hx; [|done].
  set (c := chn (e_stream_id e) (e_device_id e)).
  destruct (held_op_hash_spec db c (e_seq e) Hwf) as (db1 & Heq & Hv & Hwf1 & _).
  pose proof (skel_held db c (e_seq e)) as Hsk. rewrite Heq in *. simpl in Hsk.
  change (at_seq c (e_seq e)) with (own_pos e) in *. apply view_inv in Hv as Hv'. destruct Hv' as (Hs & Hf & _).
  assert (accounted W CL db1) as Hac1 by (by eapply accounted_view).
  assert (∀ db2, accounted W (also CL (own_pos e) x) db2 → accounted W (plus CL [(own_pos e, x)]) db2) as Hplus.
  { intros db2. apply accounted_iff. intros p h. unfold also, plus. rewrite list_elem_of_singleton.
    split; [intros [?|[-> ->]]; auto|intros [?|[= -> ->]]; auto]. }
  rewrite <-(held_view _ _ _ Hv) in *. destruct (held db1 (own_pos e)) as [y|] eqn:Ey; [|done].
  case_decide as Hyx.
  - intros [= <- <-]. split_and!; [done| |done..]. apply Hplus, add_known; [done|congruence|congruence].
  - intros [= Hrec]. apply (f_equal fst) in Hrec. simpl in Hrec. subst db'.
    destruct (record_fork_frame (own_pos e) Seq y x buf now db1) as (Ho & Hfl & _). split_and!.
    + by apply (wf_frame db1).
    + apply Hplus. by eapply record_fork_accounted.
    + unfold stored. by rewrite Ho.
    + by rewrite Hfl.
    + by rewrite skel_record.
Qed.

(** ** The whole of a log's invariant *)

Record log_inv (CL : Pos → bytes → Prop) (db : Log) : Prop := {
  li_wf : log_wf db;
  li_acc : accounted W CL db;
  li_prefix : ∀ c, prefix_ok db c;
  li_room : ∀ c, cursor_of db c < i64_max;
  li_small : ∀ p x, stored db !! p = Some x → p.2 < i64_max;
}.

Lemma inv_mono (CL CL' : Pos → bytes → Prop) db : (∀ p h, CL' p h → CL p h) → log_inv CL db → log_inv CL' db.
Proof. intros Hs []. split; [done|by eapply accounted_mono|done..]. Qed.

Lemma cursor_skel db db' c : skel db' = skel db → cursor_of db' c = cursor_of db c.
Proof. intros Hs. unfold cursor_of. by rewrite (skel_cursors _ _ Hs). Qed.

Lemma inv_skel CL CL' db db' :
  skel db' = skel db → log_wf db' → accounted W CL' db' → log_inv CL db → log_inv CL' db'.
Proof.
  intros Hs Hwf Hac []. split; [done|done|by intros c; eapply prefix_skel| |].
  - intros c. by rewrite (cursor_skel _ _ _ Hs).
  - intros p x Hx. destruct (stored db !! p) as [y|] eqn:E; [by eapply li_small0|].
    assert (is_Some (stored db !! p)) as Hp by (apply stored_some, (skel_row _ _ p Hs), stored_some; by eexists).
    rewrite E in Hp. by destruct Hp.
Qed.

Lemma inv_quiet CL db db' : quiet db db' → log_inv CL db → log_inv CL db'.
Proof.
  intros Hq []. split; [by apply Hq|eapply accounted_view; [symmetry; by apply Hq|done]|by intros c; eapply prefix_quiet| |].
  - intros c. by rewrite (quiet_cursor _ _ c Hq).
  - by destruct (view_inv _ _ (q_view _ _ Hq)) as (-> & _).
Qed.


Lemma check_covered_true CL db buf e now db' :
  e_seq e < i64_max → log_inv CL db → decode_envelope buf = Ok e →
  check_covered e buf now db = Some (db', true) → log_inv (plus CL (own_claims e)) db'.
Proof.
  intros Hseq Hinv Hd. pose proof Hinv as [Hwf Hac _ _]. unfold check_covered.
  set (c := chn (e_stream_id e) (e_device_id e)). change (at_seq c (e_seq e)) with (own_pos e).
  pose proof (own_pos_small e Hseq) as Hpos. fold c in Hpos.
  destruct (floor_of db c) as [f|] eqn:Ef; [|done]. case_decide as Hlt; [done|].
  destruct (ops db !! own_pos e) eqn:Er; [done|]. assert (stored db !! own_pos e = None) as Hst by by apply stored_ops.
  assert (∀ x db2, accounted W (also CL (own_pos e) x) db2 → op_hash e = Ok x → accounted W (plus CL (own_claims e)) db2) as Hplus.
  { intros x db2 Ha Hx. eapply accounted_iff; [|exact Ha]. intros p h. unfold also, plus, own_claims.
    rewrite Hx, list_elem_of_singleton. split; [intros [?|[-> ->]]; auto|intros [?|[= -> ->]]; auto]. }
  assert (held db (own_pos e) = if decide (fl_seq f = e_seq e) then Some (fl_op_hash f) else None) as Hheld.
  { unfold held. rewrite Hst, Hpos. simpl. by rewrite Ef. }
  destruct (decide (e_seq e = fl_seq f)) as [Heq|Heq].
  - rewrite decide_True in Hheld by done. destruct (op_hash e) as [x|] eqn:Hx; [|done]. case_decide as Hxf.
    + intros [= <-]. eapply inv_skel; [done|done| |exact Hinv]. eapply Hplus; [|done].
      apply add_known; [done|congruence|congruence].
    + intros [= Hrec]. subst db'. eapply inv_skel; [apply skel_record| | |exact Hinv].
      * destruct (record_fork_frame (own_pos e) Seq (fl_op_hash f) x buf now db) as (Ho & Hfl & _). by apply (wf_frame db).
      * eapply Hplus; [|done]. by eapply record_fork_accounted.
  - rewrite decide_False in Hheld by done. intros [= <-]. eapply inv_skel; [done|done| |exact Hinv].
    destruct (op_hash e) as [x|] eqn:Hx.
    + eapply Hplus; [|done]. apply add_known; [done|congruence|]. intros _. left.
      unfold below, floor_seq. rewrite Hpos. simpl. rewrite Ef. simpl. lia.
    + unfold own_claims. rewrite Hx. by apply plus_nil.
Qed.

Lemma check_covered_false db buf e now db' :
  0 ≤ e_seq e < i64_max → check_covered e buf now db = Some (db', false) →
  db' = db ∧ (ops db !! own_pos e = None → held db (own_pos e) = None ∧ ¬ below db (own_pos e)).
Proof.
  intros Hseq. unfold check_covered. set (c := chn (e_stream_id e) (e_device_id e)).
  change (at_seq c (e_seq e)) with (own_pos e).
  assert ((own_pos e).1 = c ∧ (own_pos e).2 = e_seq e) as [Hc Hn] by (by rewrite own_pos_small by lia).
  assert (ops db !! own_pos e = None → stored db !! own_pos e = None) as Hst by by apply stored_ops.
  unfold held, below, floor_seq. rewrite Hc, Hn. destruct (floor_of db c) as [f|] eqn:Ef.
  - destruct (decide (fl_seq f < e_seq e)) as [Hlt|Hlt].
    + intros [= <-]. split; [done|]. intros Hx. rewrite Hst by done. rewrite decide_False by lia. split; [done|simpl; lia].
    + destruct (ops db !! own_pos e); [by intros [= <-]|]. repeat case_match; done.
  - intros [= <-]. split; [done|]. intros Hx. rewrite Hst by done. split; [done|]. simpl. lia.
Qed.

(** ** The cursor after rows were added to one device's ops *)


Lemma cursor_moves CL0 CL db db2 db3 c now :
  log_inv CL0 db → log_wf db2 → accounted W CL db2 → (∀ p x, stored db2 !! p = Some x → p.2 < i64_max) →
  (∀ p, is_Some (stored db !! p) → is_Some (stored db2 !! p)) → (∀ p, p.1 ≠ c → stored db2 !! p = stored db !! p) →
  compaction_floor db2 = compaction_floor db → sync_cursors db2 = sync_cursors db →
  upsert_sync_cursor c now db2 = Some db3 → log_inv CL db3.
Proof.
  intros Hinv Hwf Hac Hsmall Hgrow Hother Hfl Hcur Hup. pose proof Hinv as [Hwf0 _ Hpre Hroom _].
  assert (∀ c', floor_seq db2 c' = floor_seq db c') as Hfs by (intros; unfold floor_seq, floor_of; by rewrite Hfl).
  assert (∀ c', cursor_of db2 c' = cursor_of db c') as Hcs by (intros; unfold cursor_of; by rewrite Hcur).
  destruct (Hpre c) as [Hcov Hend Hfloor]. pose proof (Hroom c) as Hrm.
  destruct (upsert_sync_cursor_spec c now db2 db3) as (Hv & Hwf3 & Hne & n & Hn & Hge & Hall & Hstop);
    [done|rewrite Hfs; lia|rewrite Hfs, Hcs; lia|rewrite Hcs; lia|done|].
  destruct (view_inv _ _ Hv) as (Hs & Hf & _ & _).
  assert (∀ p, is_Some (ops db3 !! p) ↔ is_Some (ops db2 !! p)) as Hrow by (intros; by rewrite !stored_some, Hs).
  assert (∀ c', floor_seq db3 c' = floor_seq db c') as Hfs3
    by (intros; unfold floor_seq, floor_of in *; rewrite Hf; apply Hfs).
  rewrite Hfs, Hcs in Hge, Hall. rewrite Z.max_r in Hge, Hall by lia.
  assert (n < i64_max) as Hnroom.
  { destruct (decide (n = cursor_of db c)) as [->|Hnc]; [done|].
    destruct (Hall n ltac:(lia)) as [r Hr]. apply stored_lookup in Hr. by apply Hsmall in Hr. }
  split.
  - done.
  - by eapply accounted_view.
  - intros c'. destruct (decide (c' = c)) as [->|Hc'].
    + split; rewrite ?Hn, ?Hfs3; [|apply eq_None_not_Some; intros [r Hx]%Hrow; by pose proof (eq_trans (eq_sym Hstop) Hx)|lia].
      intros k Hk. destruct (decide (k ≤ cursor_of db c)) as [Hle|Hgt].
      * destruct (Hcov k ltac:(lia)) as [Hk'|?]; [left|by right].
        apply Hrow. rewrite stored_some in Hk' |- *. auto.
      * left. apply Hrow. apply Hall. lia.
    + destruct (Hpre c') as [H1 H2 H3]. split; rewrite ?(Hne c' Hc'), ?Hfs3, ?Hcs; [|apply eq_None_not_Some|done].
      * intros k Hk. destruct (H1 k Hk) as [Hk'|?]; [left|by right]. apply Hrow. rewrite stored_some in Hk' |- *. auto.
      * intros [x Hx]%Hrow%stored_some. rewrite Hother in Hx by done.
        by pose proof (eq_trans (eq_sym (proj2 (stored_ops _ _) H2)) Hx).
  - intros c'. destruct (decide (c' = c)) as [->|Hc']; [by rewrite Hn|]. rewrite Hne by done. by rewrite Hcs.
  - intros p x. rewrite Hs. apply Hsmall.
Qed.

(** No other position's row has this op's id. *)
Definition no_clash (db : Log) (e : OpEnvelope) : Prop :=
  ∀ p env, stored db !! p = Some (remote_op_id (e_stream_id e) (e_device_id e) (e_seq e), env) → p = own_pos e.

Lemma insert_cases op_id c seq ts buf kind ap db db' n :
  insert op_id c seq ts buf kind ap db = Some (db', n) →
  (n = 0 ∧ db' = db ∧ (is_Some (ops db !! (c, seq)) ∨ is_Some (op_by_id db op_id))) ∨
  (n = 1 ∧ ops db !! (c, seq) = None ∧ op_by_id db op_id = None ∧
   db' = on_ops <[(c, seq) := new_row op_id buf ts kind ap]> db).
Proof.
  unfold insert. case_decide; [done|]. case_decide as Hex.
  - intros [= <- <-]. left. done.
  - intros [= <- <-]. right. split; [done|]. split; [|split; [|done]]; apply eq_None_not_Some; tauto.
Qed.

Lemma op_by_id_Some db id r :
  op_by_id db id = Some r → r_op_id r = id ∧ ∃ p, ops db !! p = Some r.
Proof.
  unfold op_by_id. intros Hr. apply head_Some_elem_of in Hr. apply list_elem_of_filter in Hr as [Hid Hin].
  split; [done|]. apply list_elem_of_fmap in Hin as ([p r'] & -> & Hp). apply elem_of_map_to_list in Hp. eauto.
Qed.
Lemma op_by_id_None db id env : log_wf db → op_by_id db id = None → ¬ named_row db id env.
Proof. intros Hwf Hn Hx. destruct (op_by_id_spec db id env Hwf Hx) as (r & Hr & _). congruence. Qed.

(** ** One delivery *)

Definition op_id_of (e : OpEnvelope) : bytes := remote_op_id (e_stream_id e) (e_device_id e) (e_seq e).
Definition chn_of (e : OpEnvelope) : Chn := chn (e_stream_id e) (e_device_id e).

Lemma decode_seq buf e : decode_envelope buf = Ok e → 0 ≤ e_seq e.
Proof. intros Hd. apply decode_wf in Hd. apply (w_seq e Hd). Qed.

(** Entering the log: the op's links are checked and, after anything quiet,
    its device's cursor moves. *)
Lemma entered_inv CL db buf e ts kind ap now db1 db2 db3 :
  e_seq e < i64_max → log_inv CL db → decode_envelope buf = Ok e →
  held db (own_pos e) = None → ¬ below db (own_pos e) → op_by_id db (op_id_of e) = None →
  check_links (op_id_of e) e buf now (on_ops <[own_pos e := new_row (op_id_of e) buf ts kind ap]> db) = Some db1 →
  quiet db1 db2 → upsert_sync_cursor (chn_of e) now db2 = Some db3 →
  log_inv (plus CL (all_claims e)) db3.
Proof.
  intros Hseq Hinv Hd Hp Hb Hid Hcl Hq Hup. pose proof Hinv as [Hwf Hac _ _ Hsmall].
  destruct (enter_accounted CL db buf e (op_id_of e) ts kind ap now db1) as (Hwf1 & Hac1 & Hs1 & Hf1); try done.
  { intros env. by apply op_by_id_None. }
  destruct (view_inv _ _ (q_view _ _ Hq)) as (Hs2 & Hf2 & _).
  apply (cursor_moves CL _ db db2 db3 (chn_of e) now); try done.
  - by apply Hq.
  - eapply accounted_view; [symmetry; by apply Hq|done].
  - intros p x. rewrite Hs2, Hs1. destruct (decide (p = own_pos e)) as [->|Hne].
    + intros _. by rewrite own_pos_small.
    + rewrite lookup_insert_ne by done. apply Hsmall.
  - intros p Hx. rewrite Hs2, Hs1. destruct (decide (p = own_pos e)) as [->|Hne].
    + rewrite lookup_insert_eq. by eexists.
    + by rewrite lookup_insert_ne.
  - intros p Hne. rewrite Hs2, Hs1, lookup_insert_ne; [done|]. intros <-. by rewrite own_pos_small in Hne.
  - by rewrite Hf2, Hf1.
  - rewrite (q_cursors _ _ Hq). rewrite (skel_cursors _ _ (skel_check_links _ _ _ _ _ _ Hcl)). done.
Qed.

Lemma unpark_quiet id buf kind now db : quiet db (unpark id buf kind now db).1.
Proof.
  unfold unpark. case_decide; [|done]. simpl. split; [|done|].
  - apply view_intro; try done. simpl. apply (stored_fmap (on_parked _ db)). intros r. by case_decide.
  - intros [Hf Hi Hh]. assert (stored (on_ops (fmap (λ r, if decide (r_op_id r = id) then with_kind kind now r else r))
      (on_parked (.∖ {[id]}) db)) = stored db) as Hs by (apply (stored_fmap (on_parked _ db)); intros r; by case_decide).
    split; [done|by rewrite Hs|]. intros p r h. simpl. rewrite lookup_fmap.
    destruct (ops db !! p) as [r0|] eqn:E; [|done]. intros [= <-]. case_decide; intros Hx; by apply (Hh p r0 h E).
Qed.

Lemma unpark_released id buf kind now db db' :
  unpark id buf kind now db = (db', true) → ∃ r p, ops db !! p = Some r ∧ r_op_id r = id ∧ r_envelope r = buf.
Proof.
  unfold unpark. case_decide as Hd; [|done]. intros _. destruct Hd as [_ Hd].
  destruct (op_by_id db id) as [r|] eqn:E; [|done]. injection Hd as Hd.
  apply op_by_id_Some in E as [Hid [p Hp]]. eauto.
Qed.

(** A duplicate: at worst one more row of evidence. *)
Lemma duplicate_inv CL db buf e now db' b :
  log_inv CL db → decode_envelope buf = Ok e → is_Some (ops db !! own_pos e) →
  check_duplicate e buf now db = Some (db', b) → log_inv (plus CL (own_claims e)) db'.
Proof.
  intros Hinv Hd [x Hx] Hdup.
  destruct (check_duplicate_accounted CL db buf e now db' b) as (Hwf' & Hac' & Hs' & _ & Hsk); try done.
  - apply Hinv.
  - apply Hinv.
  - unfold held. by rewrite (stored_lookup _ _ _ Hx).
  - by eapply inv_skel.
Qed.

Lemma exists_own db e ap ts kind buf c seq n db' :
  no_clash db e → insert (op_id_of e) c seq ts buf kind ap db = Some (db', n) → own_pos e = (c, seq) →
  (n = 0 ∧ db' = db ∧ is_Some (ops db !! own_pos e)) ∨
  (n = 1 ∧ ops db !! own_pos e = None ∧ op_by_id db (op_id_of e) = None ∧
   db' = on_ops <[own_pos e := new_row (op_id_of e) buf ts kind ap]> db).
Proof.
  intros Hnc Hins Hpos. rewrite Hpos. apply insert_cases in Hins as [(-> & -> & Hex)|Hnew]; [left|by right].
  split; [done|]. split; [done|]. destruct Hex as [?|[r Hr]]; [done|].
  apply op_by_id_Some in Hr as [Hid [p Hp]]. rewrite <-Hpos. rewrite <-(Hnc p (r_envelope r)); [by eexists|].
  apply stored_lookup in Hp. by rewrite Hid in Hp.
Qed.

(** A delivery keeps the invariant, with what it claims added: all of an op
    that was applied, the op itself of one that was not. *)
Lemma apply_remote_inv CL db buf e kind dg now db' b :
  e_seq e < i64_max → log_inv CL db → decode_envelope buf = Ok e → no_clash db e →
  apply_remote buf e kind dg now db = Some (db', b) →
  log_inv (plus CL (if b then all_claims e else own_claims e)) db'.
Proof.
  intros Hseq Hinv Hd Hnc. pose proof (decode_seq _ _ Hd) as Hseq0. unfold apply_remote.
  rewrite bind_Some. intros ([dbc cov] & Hcov & Hrest). destruct cov.
  { injection Hrest as <- <-. by eapply check_covered_true. }
  apply check_covered_false in Hcov as [-> Hfree]; [|done]. apply bind_Some in Hrest as ([dbi n] & Hins & Hrest).
  apply exists_own in Hins; [|done|by apply own_pos_small].
  destruct Hins as [(-> & -> & Hrow)|(-> & Hrow & Hid & ->)].
  - rewrite decide_True in Hrest by done. pose proof (unpark_quiet (op_id_of e) buf kind now db) as Hq.
    change (remote_op_id _ _ _) with (op_id_of e) in Hrest.
    destruct (unpark (op_id_of e) buf kind now db) as [dbu rel] eqn:Hu. simpl in Hq.
    assert (log_inv CL dbu) as Hinvu by (by eapply inv_quiet). destruct rel.
    + destruct (unpark_released _ _ _ _ _ _ Hu) as (r & p & Hp & Hrid & Hrb).
      assert (stored dbu !! own_pos e = Some (op_id_of e, buf)) as Hst.
      { apply stored_lookup in Hp. rewrite Hrid, Hrb in Hp. rewrite <-(Hnc _ _ Hp).
        by destruct (view_inv _ _ (q_view _ _ Hq)) as (-> & _). }
      apply bind_Some in Hrest as (dbl & Hcl & Hrest). apply bind_Some in Hrest as (dbf & Hup & Hrest).
      injection Hrest as <- <-.
      destruct (recheck_accounted CL dbu buf e (op_id_of e) now dbl) as (Hwf1 & Hac1 & Hs1 & Hf1);
        [done|apply Hinvu|apply Hinvu|done..|].
      assert (log_inv (plus CL (all_claims e)) dbl) as Hinvl
        by (eapply inv_skel; [by eapply skel_check_links|done|done|exact Hinvu]).
      set (dbr := match dg with Some p => _ | None => dbl end) in Hup.
      assert (quiet dbl dbr) as Hqr by (subst dbr; destruct dg; [by apply reconcile_quiet|done]).
      assert (log_inv (plus CL (all_claims e)) dbr) as Hinvr by (by eapply inv_quiet).
      eapply (cursor_moves _ _ dbr dbr); [exact Hinvr|apply Hinvr|apply Hinvr|apply Hinvr|done|done|done|done|exact Hup].
    + apply bind_Some in Hrest as ([dbd ?] & Hdup & Hrest). injection Hrest as <- <-.
      eapply duplicate_inv; [exact Hinvu|done| |exact Hdup]. by rewrite (quiet_row _ _ _ Hq).
  - rewrite decide_False in Hrest by done. destruct (Hfree Hrow) as [Hheld Hbelow].
    apply bind_Some in Hrest as (dbl & Hcl & Hrest). apply bind_Some in Hrest as (dbf & Hup & Hrest).
    injection Hrest as <- <-.
    eapply (entered_inv CL db buf e); [done|done|done|done|done|done|exact Hcl| |exact Hup].
    destruct dg; [|done]. apply reconcile_quiet.
    destruct (enter_accounted CL db buf e (op_id_of e) (physical_ms (e_hlc e)) kind (Some now) now dbl) as (Hwf1 & _);
      try done; [apply Hinv|apply Hinv|]. intros env. by apply op_by_id_None; [apply Hinv|].
Qed.

Lemma park_quiet id db : quiet db (park id db).
Proof. split; [done|done|]. intros Hwf. by apply (wf_frame db). Qed.

Lemma park_op_inv CL db buf e now db' b :
  e_seq e < i64_max → log_inv CL db → decode_envelope buf = Ok e → no_clash db e →
  park_op_as buf e now db = Some (db', b) →
  log_inv (plus CL (if b then all_claims e else own_claims e)) db'.
Proof.
  intros Hseq Hinv Hd Hnc. pose proof (decode_seq _ _ Hd) as Hseq0. unfold park_op_as.
  rewrite bind_Some. intros ([dbc cov] & Hcov & Hrest). destruct cov.
  { injection Hrest as <- <-. by eapply check_covered_true. }
  apply check_covered_false in Hcov as [-> Hfree]; [|done]. apply bind_Some in Hrest as ([dbi n] & Hins & Hrest).
  apply exists_own in Hins; [|done|by apply own_pos_small].
  destruct Hins as [(-> & -> & Hrow)|(-> & Hrow & Hid & ->)].
  - rewrite decide_True in Hrest by done. apply bind_Some in Hrest as ([dbd ?] & Hdup & Hrest). injection Hrest as <- <-.
    by eapply duplicate_inv.
  - rewrite decide_False in Hrest by done. destruct (Hfree Hrow) as [Hheld Hbelow].
    apply bind_Some in Hrest as (dbl & Hcl & Hrest). apply bind_Some in Hrest as (dbf & Hup & Hrest).
    injection Hrest as <- <-.
    eapply (entered_inv CL db buf e); [done|done|done|done|done|done|exact Hcl|apply park_quiet|exact Hup].
Qed.
End evidence.
Arguments log_inv {_ _} W CL db.
