(* ===== verification/Compaction.v ===== *)
(** * Compaction of the op log (sunrise-core/src/engine/compaction.rs)

    A floor stands for every op of a device at or below it, so the rows under
    it whose whole effect is in the merge state can go.  The definitions: what
    a floor is raised to, whom that waits for, and which rows are deleted. *)

From Stdlib Require Import ZArith Lia.
From stdpp Require Import base tactics decidable countable option gmap sorting strings numbers list.
From S2P Require Import Prelude Bytes Hlc Cbor Wire Registry Stamp Prune Envelope Chain.
Open Scope Z_scope.

Definition LEGACY_LOCAL_KINDS : list string := ["task.defer"%string].

(** The op-log kinds whose whole effect is in the merge state. *)
Definition compactable_kinds : list string :=
  DIGEST_KIND :: LEGACY_LOCAL_KINDS ++
  (ENTITIES ≫= λ spec,
     if decide (e_merge spec ≠ Lww ∨ storage spec = None) then []
     else (op_inner_kind <$> e_ops spec) ++ [(e_tag spec ++ ".patch")%string]).

Record CompactionPolicy := mkPolicy {
  retention_ms : Z; known_device_window_ms : Z; snapshot_every_ms : Z }.
Definition DAY_MS : Z := 24 * 60 * 60 * 1000.
Definition default_policy : CompactionPolicy := mkPolicy (30 * DAY_MS) (30 * DAY_MS) DAY_MS.

(** The members of the account: [devices] by id with the identity each is
    certified under, and [device_revocations] with when each was recorded. *)
Record Members := mkMembers {
  devices : gmap bytes bytes;
  device_revocations : gmap bytes Z;
}.

Section compaction.
Context `{Ciborium, Crypto}.

Definition raise_floor (c : Chn) (floor : Floor) (db : Log) : Log * bool :=
  if decide (fl_seq floor ≤ floor_seq db c) then (db, false)
  else (on_floors <[c := floor]> db, true).

Definition hlc_le (a b : Hlc) : Prop := b ≼ a.
#[local] Instance hlc_le_dec : RelDecision hlc_le.
Proof. intros a b. unfold hlc_le. apply _. Defined.

Definition max_floor_hlc (db : Log) : option Hlc :=
  head (isort hlc_le ((λ x, fl_hlc x.2) <$> map_to_list (compaction_floor db))).

(** When a device was last heard from: its tips, its floors, its digests. *)
Definition heard_at (db : Log) (device : bytes) : list Z :=
  omap (λ '((s, d), n), if decide (d = device) then r_ts_ms <$> ops db !! ((s, d), n) else None) (map_to_list (sync_cursors db)) ++
  omap (λ '((s, d), f), if decide (d = device) then Some (i64_of (physical_ms (fl_hlc f))) else None) (map_to_list (compaction_floor db)) ++
  omap (λ '((s, p, d), x), if decide (p = device) then Some x.2 else None) (map_to_list (peer_frontiers db)).

Definition last_heard (db : Log) (device : bytes) : option Z :=
  t ← sql_max (heard_at db device); if decide (0 ≤ t) then Some t else None.

(** A device counts as known when it is certified or has written here, is not
    revoked, and was heard from inside the window. *)
Definition is_known (db : Log) (m : Members) (head : bytes) (stream_id : bytes) (horizon : Z) (device identity : bytes) : bool :=
  (bool_decide (identity = head) || bool_decide (is_Some (sync_cursors db !! (stream_id, device)))) &&
  bool_decide (device_revocations m !! device = None) &&
  match last_heard db device with Some t => bool_decide (horizon ≤ t) | None => false end.

#[local] Instance bytes_le_dec : RelDecision (λ a b : bytes, a ≼ b).
Proof. intros a b. apply _. Defined.

Definition known_devices (db : Log) (m : Members) (head me stream_id : bytes) (now_ms window_ms : Z) : list bytes :=
  isort (λ a b : bytes, a ≼ b)
    (me :: omap (λ '(d, i), if decide (d ≠ me) then
                    if is_known db m head stream_id (sat_sub now_ms window_ms) d i then Some d else None else None)
             (map_to_list (devices m))).

(** The highest seq of [device]'s prefix every known device acknowledged. *)
Definition ack_of (db : Log) (stream_id peer device : bytes) : Z :=
  match peer_frontiers db !! (stream_id, peer, device) with Some (n, _) => Z.max n 0 | None => 0 end.
Definition acknowledged (db : Log) (stream_id device me : bytes) (known : list bytes) (own_cursor : Z) : Z :=
  foldl (λ ack k, if decide (k = me) then ack else Z.min ack (ack_of db stream_id k device)) own_cursor known.

(** The rows compaction deletes below a floor of [c] at [target]. *)
Definition removable (db : Log) (c : Chn) (target : Z) (p : Pos) (r : OpRow) : bool :=
  bool_decide (p.1 = c) && bool_decide (p.2 ≤ target) && bool_decide (is_Some (r_applied_at r)) &&
  bool_decide (r_inner_kind r ∈ compactable_kinds) &&
  bool_decide (r_op_id r ∉ parked_ops db) &&
  bool_decide (pending_groups db !! r_op_id r = None) &&
  bool_decide (outbox db !! r_op_id r ≠ Some None) &&
  forallb (λ x, bool_decide (x.2 ≠ r_op_id r)) (map_to_list (chain_expected db)).

Definition delete_rows (c : Chn) (target : Z) (db : Log) : Log * Z :=
  let doomed := filter (λ x, removable db c target x.1 x.2 = true) (ops db) in
  let ids := r_op_id <$> (map_to_list doomed).*2 in
  (on_ops (.∖ doomed) (on_outbox (filter (λ x, x.1 ∉ ids)) db), Z.of_nat (size doomed)).

(** The seq the floor of [c] may rise to: the newest row above it that every
    known device acknowledged, strictly below the tip, past its retention. *)
Definition floor_target (db : Log) (c : Chn) (me : bytes) (known : list bytes) (cursor cutoff : Z) : option Z :=
  let limit := Z.min (acknowledged db c.1 c.2 me known cursor) (sat_sub cursor 1) in
  if decide (limit ≤ floor_seq db c) then None
  else sql_max (row_seqs db c (λ n r, bool_decide (i64_of (floor_seq db c) < n) && bool_decide (n ≤ i64_of limit) &&
                                      bool_decide (r_ts_ms r ≤ i64_of cutoff))).

(** One device of [compact_stream]'s loop: floors raised and rows removed so
    far. *)
Definition compact_device (stream_id me : bytes) (known : list bytes) (cutoff now_ms : Z)
    (acc : Log * Z * Z) (cur : bytes * Z) : Log * Z * Z :=
  let '(db, raised, removed) := acc in
  let c := chn stream_id cur.1 in
  let cursor := Z.max cur.2 0 in
  match floor_target db c me known cursor cutoff with
  | None => acc
  | Some target =>
      let env := from_option r_envelope [] (ops db !! (c, target)) in
      let ts := from_option r_ts_ms 0 (ops db !! (c, target)) in
      let target := Z.max target 0 in
      let db := fold_chain c cursor now_ms db in
      let '(db, h) := held_op_hash db c target in
      match h, root_at db c target with
      | Some op_hash, Some root =>
          let hlc := match decode_envelope env with Ok e => e_hlc e | Err _ => mkHlc (Z.max ts 0) 0 end in
          let '(db, _) := raise_floor c (mkFloor target op_hash root hlc) db in
          let '(db, n) := delete_rows c target db in
          (db, raised + 1, removed + n)
      | _, _ => (db, raised, removed)
      end
  end.

(** Every cursor of a stream, by device. *)
Definition all_cursors (db : Log) (stream_id : bytes) : list (bytes * Z) :=
  isort cursor_le (omap (λ '((s, d), n), if decide (s = stream_id) then Some (d, n) else None) (map_to_list (sync_cursors db))).

Definition compact_stream (m : Members) (head me stream_id : bytes) (policy : CompactionPolicy) (now_ms : Z) (db : Log) :
    Log * Z * Z * bool :=
  let known := known_devices db m head me stream_id now_ms (known_device_window_ms policy) in
  let compactor := bool_decide (hd_error known = Some me) in
  let cutoff := sat_sub now_ms (retention_ms policy) in
  (foldl (compact_device stream_id me known cutoff now_ms) (db, 0, 0) (all_cursors db stream_id), compactor).

(** [Engine::is_stream_compactor]. *)
Definition is_stream_compactor (m : Members) (head me stream_id : bytes) (policy : CompactionPolicy) (now_ms : Z) (db : Log) : bool :=
  bool_decide (hd_error (known_devices db m head me stream_id now_ms (known_device_window_ms policy)) = Some me).

(** [snapshot_due], from when this replica last wrote the stream's snapshot. *)
Definition snapshot_due (policy : CompactionPolicy) (last : option Z) (now_ms : Z) : bool :=
  match last with
  | None => true
  | Some t => bool_decide (snapshot_every_ms policy ≤ sat_sub now_ms (Z.max t 0))
  end.

(** [Engine::passage]: what pruning reads of the log and of the devices, with
    ids as their values.  [deferred_ops] is that table's envelopes. *)
Definition passage (m : Members) (me : bytes) (deferred_ops : list bytes) (now_ms : Z) (policy : CompactionPolicy) (db : Log) : Passage :=
  let id := be_decode in
  let horizon := i64_of (sat_sub now_ms (retention_ms policy)) in
  let stuck : gset Id := list_to_set (
    omap (λ '((s, d, n), r), if decide (r_op_id r ∈ parked_ops db) then Some (id d) else None) (map_to_list (ops db)) ++
    ((λ x, id x.2) <$> map_to_list (pending_groups db)) ++
    omap (λ b, match decode_envelope b with Ok e => Some (id (e_device_id e)) | Err _ => None end) deferred_ops) in
  let writers : gset Id := list_to_set (
    omap (λ '(d, _), match device_revocations m !! d with
                     | Some t => if decide (t ≤ horizon) then None else Some (id d)
                     | None => Some (id d)
                     end) (map_to_list (devices m))) in
  mkPassage
    (list_to_map ((λ '((s, d), f), ((id s, id d), Z.max (fl_seq f) 0)) <$> map_to_list (compaction_floor db)))
    (list_to_map ((λ '((s, d), n), ((id s, id d), Z.max n 0)) <$> map_to_list (sync_cursors db)))
    (list_to_map ((λ '((s, p, d), x), ((id s, id p, id d), Z.max x.1 0)) <$> map_to_list (peer_frontiers db)))
    ((writers ∪ stuck) ∖ {[id me]}) stuck.
End compaction.
