(* ===== verification/ChainHistory.v ===== *)
(** * A device's log over its whole history

    The invariant of [ChainEvidence] through the two other things that change
    a log, compaction and this device's own writes, and what it says of every
    log reachable by any interleaving of deliveries, writes and compactions. *)

From Stdlib Require Import ZArith Lia.
From stdpp Require Import base tactics decidable countable option gmap sorting strings numbers list.
From S2P Require Import Prelude Bytes Hlc Cbor Wire Envelope EnvelopeFacts EnvelopeSeal Chain ChainFacts ChainPrefix ChainEvidence Compaction.
Open Scope Z_scope.

Section history.
Context `{Ciborium, Crypto}.

(** ** A floor rises *)

(** [db'] is [db] with the floor of [c] raised to [f] and rows under it gone. *)
Record compacted (c : Chn) (f : Floor) (db db' : Log) : Prop := {
  cp_floors : compaction_floor db' = <[c := f]> (compaction_floor db);
  cp_expected : chain_expected db' = chain_expected db;
  cp_forks : fork_evidence db' = fork_evidence db;
  cp_cursors : sync_cursors db' = sync_cursors db;
  cp_rows : ∀ p r, ops db' !! p = Some r → ops db !! p = Some r;
  cp_gone : ∀ p r, ops db !! p = Some r → ops db' !! p = None →
    p.1 = c ∧ p.2 ≤ fl_seq f ∧ ∀ q h, chain_expected db !! (q, h) ≠ Some (r_op_id r);
  cp_held : held db (c, fl_seq f) = Some (fl_op_hash f);
  cp_seq : floor_seq db c < fl_seq f < i64_max;
  cp_cursor : fl_seq f ≤ cursor_of db c;
}.

Lemma claim_positive k e buf p h : decode_envelope buf = Ok e → k ≠ Seq → claim_of k e p h → 1 ≤ p.2.
Proof.
  intros Hd Hk Hcl. apply decode_wf in Hd. destruct k; [done| |]; simpl in Hcl.
  - unfold link_claims in Hcl. destruct (e_prev_hash e); [|by apply not_elem_of_nil in Hcl].
    case_decide; [|by apply not_elem_of_nil in Hcl]. apply list_elem_of_singleton in Hcl as [= -> ->].
    simpl. unfold i64_of, i64_max. lia.
  - unfold head_claims in Hcl. apply list_elem_of_omap in Hcl as (x & Hx & Hcl).
    unfold head_claim in Hcl. case_decide as Hd'; [done|]. injection Hcl as <- _. simpl.
    pose proof (w_heads e Hd) as Hw. rewrite Forall_forall in Hw. destruct (Hw x Hx) as [_ [Hs _] _].
    unfold i64_of, i64_max. lia.
Qed.

Lemma held_None db p :
  held db p = None → ops db !! p = None ∧ ∀ g, floor_of db p.1 = Some g → fl_seq g ≠ p.2.
Proof.
  unfold held. destruct (stored db !! p) as [[? ?]|] eqn:E; [done|]. intros Hf. split; [by apply stored_ops|].
  intros g Hg Heq. rewrite Hg in Hf. by rewrite decide_True in Hf.
Qed.

Section compacted.
Context (c : Chn) (f : Floor) (db db' : Log) (Hc : compacted c f db db').

Lemma compacted_floor c' : floor_of db' c' = if decide (c' = c) then Some f else floor_of db c'.
Proof.
  unfold floor_of. rewrite (cp_floors _ _ _ _ Hc). case_decide as Heq; [subst; apply lookup_insert_eq|by apply lookup_insert_ne].
Qed.

Lemma compacted_below p : below db' p ↔ (p.1 = c ∧ p.2 < fl_seq f) ∨ (p.1 ≠ c ∧ below db p).
Proof. unfold below, floor_seq. rewrite compacted_floor. case_decide; simpl; tauto. Qed.

Lemma compacted_held p : held db' p = held db p ∨ (held db' p = None ∧ below db' p).
Proof.
  rewrite compacted_below. pose proof (cp_held _ _ _ _ Hc) as Hh. pose proof (cp_seq _ _ _ _ Hc) as Hseq.
  destruct (ops db' !! p) as [r|] eqn:E'.
  - left. unfold held. rewrite (stored_lookup _ _ _ E'), (stored_lookup _ _ _ (cp_rows _ _ _ _ Hc _ _ E')). done.
  - assert (held db' p = match floor_of db' p.1 with
      | Some g => if decide (fl_seq g = p.2) then Some (fl_op_hash g) else None | None => None end) as Hp'.
    { unfold held. by rewrite (proj2 (stored_ops db' p) E'). }
    rewrite compacted_floor in Hp'. destruct (decide (p.1 = c)) as [Hpc|Hpc].
    + destruct (decide (fl_seq f = p.2)) as [Hps|Hps].
      * left. rewrite Hp'. destruct p as [pc pn]; simpl in *; subst. by rewrite Hh.
      * destruct (decide (p.2 < fl_seq f)) as [Hlt|Hlt]; [right; by split; [|left]|left].
        rewrite Hp'. destruct (ops db !! p) as [r|] eqn:E.
        { destruct (cp_gone _ _ _ _ Hc _ _ E E') as (_ & ? & _). lia. }
        unfold held. rewrite (proj2 (stored_ops db p) E), Hpc. unfold floor_seq in Hseq.
        destruct (floor_of db c) as [g|]; [|done]. simpl in Hseq. by rewrite decide_False by lia.
    + left. rewrite Hp'. destruct (ops db !! p) as [r|] eqn:E.
      { by destruct (cp_gone _ _ _ _ Hc _ _ E E') as (? & _). }
      unfold held. by rewrite (proj2 (stored_ops db p) E).
Qed.

Lemma compacted_none p : held db p = None → held db' p = None.
Proof. intros Hn. destruct (compacted_held p) as [->|[? _]]; done. Qed.

Lemma compacted_inv {W : Pos → Prop} CL : log_inv W CL db → log_inv W CL db'.
Proof.
  intros [[Hfl Hids Hhash] [Hf Hw He Hk] Hpre Hroom Hsmall]. destruct (Hpre c) as [Hcov Hend Hfloor].
  pose proof (cp_seq _ _ _ _ Hc) as Hseq. pose proof (cp_cursor _ _ _ _ Hc) as Hcur.
  assert (∀ p x, stored db' !! p = Some x → stored db !! p = Some x) as Hst.
  { intros p x (r & Hr & ->)%stored_inv. apply stored_lookup, (cp_rows _ _ _ _ Hc), Hr. }
  assert (∀ p, below db p → below db' p) as Hbelow.
  { intros p Hp. rewrite compacted_below. destruct (decide (p.1 = c)) as [Hpc|?]; [left|by right].
    unfold below in Hp. rewrite Hpc in Hp. split; [done|lia]. }
  assert (∀ c', cursor_of db' c' = cursor_of db c') as Hcs by (intros; unfold cursor_of; by rewrite (cp_cursors _ _ _ _ Hc)).
  split.
  - split.
    + intros c' g. rewrite compacted_floor. case_decide; [intros [= <-]; lia|apply Hfl].
    + intros p p' id env env' H1%Hst H2%Hst. eauto.
    + intros p r h Hr. apply (cp_rows _ _ _ _ Hc) in Hr. eauto.
  - split.
    + intros p h x Hcl Hx. rewrite (cp_forks _ _ _ _ Hc). destruct (compacted_held p) as [Heq|[? _]]; [|congruence].
      rewrite Heq in Hx. rewrite (cp_expected _ _ _ _ Hc). eauto.
    + intros p h Hcl Hx. rewrite (cp_expected _ _ _ _ Hc). destruct (compacted_held p) as [Heq|[_ ?]]; [|by left].
      rewrite Heq in Hx. destruct (Hw p h Hcl Hx) as [?|?]; auto.
    + intros p h b. rewrite (cp_expected _ _ _ _ Hc). intros Hx.
      destruct (He _ _ _ Hx) as (Hnb & env & e & k & [q Hq] & Hd & Hk' & Hcl). split.
      * destruct Hnb as [[Hn Hb]|?]; [left; split; [by apply compacted_none|]|by right]. intros [[Hpc Hlt]|[_ ?]]%compacted_below; [|done]. pose proof (claim_positive k e env p h Hd Hk' Hcl).
        destruct p as [pc pn]; simpl in *; subst pc. destruct (Hcov pn ltac:(lia)) as [[r Hr]|Hle].
        -- unfold held in Hn. by rewrite (stored_lookup _ _ _ Hr) in Hn.
        -- destruct (decide (pn = floor_seq db c)) as [Heq|Hne]; [|apply Hb; unfold below; simpl; lia].
           apply held_None in Hn as [_ Hn]. unfold floor_seq in Heq. simpl in Hn.
           destruct (floor_of db c) as [g|]; simpl in Heq; [by destruct (Hn g)|lia].
      * exists env, e, k. split; [|done]. exists q. apply stored_inv in Hq as (r & Hr & [= -> ->]).
        destruct (ops db' !! q) as [r'|] eqn:E.
        -- rewrite (stored_lookup _ _ _ E). apply (cp_rows _ _ _ _ Hc) in E. by assert (r' = r) as -> by congruence.
        -- destruct (cp_gone _ _ _ _ Hc _ _ Hr E) as (_ & _ & Hnn). by destruct (Hnn p h).
    + intros p k h ev. rewrite (cp_forks _ _ _ _ Hc). intros Hev. destruct (Hk _ _ _ _ Hev) as (Hne & Hheld & Hcl).
      split_and!; [done| |done]. destruct Hheld as [Hx|[Hn Hb]].
      * destruct (compacted_held p) as [->|[-> ?]]; [by left|by right].
      * right. split; [by apply compacted_none|auto].
  - intros c'. destruct (Hpre c') as [H1 H2 H3]. assert (ops db' !! (c', cursor_of db c' + 1) = None) as Hend'.
    { destruct (ops db' !! (c', cursor_of db c' + 1)) as [r|] eqn:E; [|done]. apply (cp_rows _ _ _ _ Hc) in E.
      by pose proof (eq_trans (eq_sym H2) E). }
    split; rewrite Hcs; [|done|].
    + intros k Hk'. unfold floor_seq. rewrite compacted_floor. destruct (H1 k Hk') as [[r Hr]|Hle].
      * destruct (ops db' !! (c', k)) as [r'|] eqn:E; [left; by eexists|right].
        destruct (cp_gone _ _ _ _ Hc _ _ Hr E) as (Hpc & Hle & _). simpl in *. by rewrite decide_True.
      * right. case_decide as Heq; [|done]. simpl. subst. lia.
    + unfold floor_seq. rewrite compacted_floor. case_decide as Heq; [|done]. simpl. subst. lia.
  - intros c'. rewrite Hcs. apply Hroom.
  - intros p x Hx%Hst. eauto.
Qed.
End compacted.

(** ** What compaction reads, kept by folding a chain *)

Definition op_of (r : OpRow) := (r_op_id r, r_ts_ms r, r_envelope r, r_inner_kind r, r_applied_at r).
Definition tables (db : Log) :=
  (op_of <$> ops db, (parked_ops db, pending_groups db, outbox db),
   (compaction_floor db, sync_cursors db, chain_expected db, fork_evidence db, peer_frontiers db)).

Lemma tables_set_op_hash id h db : tables (set_op_hash id h db) = tables db.
Proof.
  unfold tables. simpl. f_equal. f_equal. rewrite <-map_fmap_compose. apply map_fmap_ext. intros p r _. simpl. by case_decide.
Qed.
Lemma tables_held db c seq : tables (held_op_hash db c seq).1 = tables db.
Proof. unfold held_op_hash. repeat case_match; try done. apply tables_set_op_hash. Qed.
Lemma tables_root db p x : tables (on_ops (alter (with_root x) p) db) = tables db.
Proof.
  unfold tables. simpl. f_equal. f_equal. apply map_eq. intros q. rewrite !lookup_fmap.
  destruct (decide (q = p)) as [->|Hq]; [|by rewrite lookup_alter_ne].
  rewrite lookup_alter_eq. by destruct (ops db !! p).
Qed.
Lemma tables_settle c now db x : tables (settle_claim c now db x) = tables db.
Proof. destruct x as [? [? ?]]. unfold settle_claim, judge. repeat case_match; done. Qed.
Lemma tables_steps n c seq root db : tables (fold_steps n c seq root db).1 = tables db.
Proof.
  revert seq root db. induction n as [|n IH]; intros seq root db; [done|]. cbn [fold_steps].
  pose proof (tables_held db c (seq + 1)) as Ht. destruct (held_op_hash db c (seq + 1)) as [db1 [h|]]; [|done].
  rewrite IH, tables_root. done.
Qed.
Lemma tables_fold_chain c prefix now db : tables (fold_chain c prefix now db) = tables db.
Proof.
  unfold fold_chain. case_decide; [done|]. destruct (resume_from db c prefix) as [seq root].
  pose proof (tables_steps (Z.to_nat (prefix - seq)) c seq root db) as Ht.
  destruct (fold_steps _ _ _ _ _) as [db1 n]. simpl in Ht. rewrite <-Ht. generalize (claims_up_to db1 c n).
  intros l. clear Ht. revert db1. induction l as [|x l IH]; intros db1; [done|]. simpl. by rewrite IH, tables_settle.
Qed.

Lemma tables_row db db' p r' :
  tables db' = tables db → ops db' !! p = Some r' → ∃ r, ops db !! p = Some r ∧ op_of r = op_of r'.
Proof.
  intros Ht Hr. assert ((op_of <$> ops db') !! p = (op_of <$> ops db) !! p) as Hp by (unfold tables in Ht; congruence).
  rewrite !lookup_fmap, Hr in Hp. destruct (ops db !! p) as [r|]; [|done]. exists r. split; [done|]. simpl in Hp. congruence.
Qed.

(** ** The rows compaction deletes *)

Lemma delete_rows_lookup c t db p r :
  ops (delete_rows c t db).1 !! p = Some r ↔ ops db !! p = Some r ∧ removable db c t p r = false.
Proof.
  unfold delete_rows. simpl. rewrite lookup_difference_Some, map_lookup_filter_None. simpl. split.
  - intros [Hr [Hn|Hn]]; [congruence|]. split; [done|]. apply not_true_is_false. by apply Hn.
  - intros [Hr Hn]. split; [done|]. right. intros x Hx. assert (x = r) as -> by congruence. congruence.
Qed.

Record removed_ok (db : Log) (c : Chn) (t : Z) (p : Pos) (r : OpRow) : Prop := {
  rm_chain : p.1 = c;
  rm_below : p.2 ≤ t;
  rm_applied : is_Some (r_applied_at r);
  rm_kind : r_inner_kind r ∈ compactable_kinds;
  rm_parked : r_op_id r ∉ parked_ops db;
  rm_pending : pending_groups db !! r_op_id r = None;
  rm_outbox : outbox db !! r_op_id r ≠ Some None;
  rm_named : ∀ q h, chain_expected db !! (q, h) ≠ Some (r_op_id r);
}.

Lemma removable_spec db c t p r : removable db c t p r = true → removed_ok db c t p r.
Proof.
  unfold removable. rewrite !andb_true_iff, !bool_decide_eq_true, forallb_forall.
  intros [[[[[[[? ?] ?] ?] ?] ?] ?] Hf]. split; try done. intros q h Hx%elem_of_map_to_list.
  apply list_elem_of_In, Hf in Hx. by apply bool_decide_eq_true in Hx.
Qed.
End history.
