(* ===== verification/CompactionFacts.v ===== *)
(** * What compaction may take away

    One pass of [compact_stream] as a relation between the log before and the
    log after: a floor rises only to an op every known device acknowledged,
    below the tip and past its retention, and a row goes only under a floor,
    when it is applied, of a kind the merge state holds whole, and nothing
    waits for it. *)

From Stdlib Require Import ZArith Lia.
From stdpp Require Import base tactics decidable countable option gmap sorting strings numbers list.
From S2P Require Import Prelude Bytes Hlc Cbor Wire Envelope EnvelopeFacts EnvelopeSeal Chain ChainFacts ChainPrefix ChainEvidence Compaction ChainHistory.
Open Scope Z_scope.
#[local] Opaque compactable_kinds removable.

Section pass.
Context `{Ciborium, Crypto} {W : Pos → Prop}.
Context (stream me : bytes) (known : list bytes) (cutoff now : Z).

Record raised (db : Log) (c : Chn) (f : Floor) : Prop := {
  ra_stream : c.1 = stream;
  ra_above : floor_seq db c < fl_seq f < cursor_of db c;
  ra_acked : ∀ k, k ∈ known → k ≠ me → fl_seq f ≤ ack_of db stream k c.2;
  ra_row : ∃ r, ops db !! (c, fl_seq f) = Some r ∧ r_ts_ms r ≤ cutoff ∧ fl_op_hash f = hash_of_stored (r_envelope r);
}.

(** [db'] is [db] with some floors raised and some covered rows gone. *)
Record shrunk (db db' : Log) : Prop := {
  sh_cursors : sync_cursors db' = sync_cursors db;
  sh_frontiers : peer_frontiers db' = peer_frontiers db;
  sh_parked : parked_ops db' = parked_ops db;
  sh_pending : pending_groups db' = pending_groups db;
  sh_outbox : ∀ id, outbox db' !! id = Some None ↔ outbox db !! id = Some None;
  sh_rows : ∀ p r', ops db' !! p = Some r' → ∃ r, ops db !! p = Some r ∧ op_of r = op_of r';
  sh_floor : ∀ c, floor_of db' c = floor_of db c ∨ ∃ f, floor_of db' c = Some f ∧ raised db c f;
  sh_gone : ∀ p r, ops db !! p = Some r → ops db' !! p = None →
    p.1.1 = stream ∧ p.2 ≤ floor_seq db' p.1 ∧ r_inner_kind r ∈ compactable_kinds ∧ is_Some (r_applied_at r) ∧
    (r_op_id r ∉ parked_ops db) ∧ pending_groups db !! r_op_id r = None ∧ outbox db !! r_op_id r ≠ Some None;
}.

Lemma shrunk_tables db db' : tables db' = tables db → shrunk db db'.
Proof.
  intros Ht. pose proof Ht as Ht'. unfold tables in Ht'. injection Ht' as Ho Hp Hg Hx Hf Hc He Hk Hr.
  split; try done.
  - intros id. by rewrite Hx.
  - intros p r'. by apply tables_row.
  - intros c. left. unfold floor_of. by rewrite Hf.
  - intros p r Hrow Hn. destruct (tables_row db' db p r (eq_sym Ht) Hrow) as (r' & Hr' & _).
    by pose proof (eq_trans (eq_sym Hr') Hn).
Qed.

Lemma shrunk_floor_seq db db' c : shrunk db db' → floor_seq db c ≤ floor_seq db' c.
Proof.
  intros Hs. unfold floor_seq. destruct (sh_floor _ _ Hs c) as [->|(f & -> & Hf)]; [done|].
  pose proof (ra_above _ _ _ Hf) as Ha. unfold floor_seq in Ha. simpl. lia.
Qed.
Lemma shrunk_cursor db db' c : shrunk db db' → cursor_of db' c = cursor_of db c.
Proof. intros Hs. unfold cursor_of. by rewrite (sh_cursors _ _ Hs). Qed.
Lemma shrunk_ack db db' s k d : shrunk db db' → ack_of db' s k d = ack_of db s k d.
Proof. intros Hs. unfold ack_of. by rewrite (sh_frontiers _ _ Hs). Qed.

Lemma raised_earlier db db' c f : shrunk db db' → raised db' c f → raised db c f.
Proof.
  intros Hs [H1 H2 H3 (r' & Hr' & Hts & Hh)]. rewrite (shrunk_cursor _ _ c Hs) in H2. pose proof (shrunk_floor_seq _ _ c Hs).
  split; [done|lia| |].
  - intros k. rewrite <-(shrunk_ack _ _ stream k c.2 Hs). auto.
  - destruct (sh_rows _ _ Hs _ _ Hr') as (r & Hr & Hop). unfold op_of in Hop. injection Hop as _ Ht He _ _.
    exists r. rewrite Ht, He. done.
Qed.

#[export] Instance shrunk_refl : Reflexive shrunk.
Proof. intros db. by apply shrunk_tables. Qed.
#[export] Instance shrunk_trans : Transitive shrunk.
Proof.
  intros db db1 db2 H1 H2. split.
  - by rewrite (sh_cursors _ _ H2), (sh_cursors _ _ H1).
  - by rewrite (sh_frontiers _ _ H2), (sh_frontiers _ _ H1).
  - by rewrite (sh_parked _ _ H2), (sh_parked _ _ H1).
  - by rewrite (sh_pending _ _ H2), (sh_pending _ _ H1).
  - intros id. by rewrite (sh_outbox _ _ H2), (sh_outbox _ _ H1).
  - intros p r2 Hr2. destruct (sh_rows _ _ H2 _ _ Hr2) as (r1 & Hr1 & E1). destruct (sh_rows _ _ H1 _ _ Hr1) as (r & Hr & E).
    exists r. split; [done|congruence].
  - intros c. destruct (sh_floor _ _ H2 c) as [E2|(f & E2 & Hf)].
    + rewrite E2. by apply sh_floor.
    + right. exists f. split; [done|]. by eapply raised_earlier.
  - intros p r Hr Hn. destruct (ops db1 !! p) as [r1|] eqn:E1.
    + destruct (sh_rows _ _ H1 _ _ E1) as (r' & Hr' & Hop). assert (r' = r) as -> by (pose proof (eq_trans (eq_sym Hr') Hr); congruence).
      unfold op_of in Hop. injection Hop as Hid _ _ Hk Ha.
      destruct (sh_gone _ _ H2 _ _ E1 Hn) as (? & ? & ? & ? & Hp & Hg & Ho). rewrite Hid, Hk, Ha.
      rewrite (sh_parked _ _ H1) in Hp. rewrite (sh_pending _ _ H1) in Hg. rewrite (sh_outbox _ _ H1) in Ho. done.
    + destruct (sh_gone _ _ H1 _ _ Hr E1) as (? & Hle & ?). pose proof (shrunk_floor_seq _ _ p.1 H2).
      split; [done|]. split; [lia|done].
Qed.

(** ** The floor a device's ops may be raised to *)

Lemma acknowledged_le db c cursor :
  acknowledged db stream c me known cursor ≤ cursor ∧
  ∀ k, k ∈ known → k ≠ me → acknowledged db stream c me known cursor ≤ ack_of db stream k c.
Proof.
  unfold acknowledged. generalize cursor. induction known as [|x l IH]; intros n; simpl.
  - split; [done|]. by intros k ?%not_elem_of_nil.
  - destruct (IH (if decide (x = me) then n else Z.min n (ack_of db stream x c))) as [Hn Hk]. split.
    + case_decide; lia.
    + intros k [->|Hin]%elem_of_cons Hne; [|by apply Hk]. rewrite decide_False in * by done. lia.
Qed.

Lemma floor_target_spec CL db d cursor t :
  log_inv W CL db → cursor = cursor_of db (chn stream d) →
  floor_target db (chn stream d) me known cursor cutoff = Some t →
  floor_seq db (chn stream d) < t < cursor ∧ (∀ k, k ∈ known → k ≠ me → t ≤ ack_of db stream k d) ∧
  ∃ r, ops db !! (chn stream d, t) = Some r ∧ r_ts_ms r ≤ cutoff.
Proof.
  intros Hinv Hc. unfold floor_target. case_decide as Hlim; [done|]. intros [Hin _]%sql_max_Some.
  apply elem_of_row_seqs in Hin as (r & Hr & HP). rewrite !andb_true_iff, !bool_decide_eq_true in HP.
  destruct HP as [[Hlo Hhi] Hts]. destruct (acknowledged_le db d cursor) as [_ Hack]. simpl in *.
  pose proof (po_floor _ _ (li_prefix _ _ Hinv (chn stream d))) as Hpf. pose proof (li_room _ _ Hinv (chn stream d)) as Hroom.
  unfold i64_of, sat_sub in *. split_and!; [lia|lia| |].
  - intros k Hk Hne. specialize (Hack k Hk Hne). lia.
  - exists r. split; [done|lia].
Qed.

(** ** One device of the pass *)

(** Raising a floor and deleting under it. *)
Definition lowered (c : Chn) (f : Floor) (db : Log) : Log := (delete_rows c (fl_seq f) (on_floors <[c := f]> db)).1.

Lemma lowered_floor c f db c' : floor_of (lowered c f db) c' = if decide (c' = c) then Some f else floor_of db c'.
Proof.
  unfold lowered, delete_rows, floor_of. simpl. case_decide; [subst; apply lookup_insert_eq|by apply lookup_insert_ne].
Qed.

Lemma lowered_gone c f db p r :
  ops db !! p = Some r → ops (lowered c f db) !! p = None → removed_ok (on_floors <[c := f]> db) c (fl_seq f) p r.
Proof.
  intros Hr Hn. apply removable_spec. destruct (removable _ c (fl_seq f) p r) eqn:E; [done|].
  assert (ops (lowered c f db) !! p = Some r) as Hx by (by apply delete_rows_lookup).
  by pose proof (eq_trans (eq_sym Hx) Hn).
Qed.
Lemma lowered_row c f db p r : ops (lowered c f db) !! p = Some r → ops db !! p = Some r.
Proof. intros Hx. exact (proj1 (proj1 (delete_rows_lookup c (fl_seq f) _ p r) Hx)). Qed.

Lemma lowered_compacted c f db :
  held db (c, fl_seq f) = Some (fl_op_hash f) → floor_seq db c < fl_seq f < i64_max → fl_seq f ≤ cursor_of db c →
  compacted c f db (lowered c f db).
Proof.
  intros Hh Hs Hc. split; try done.
  - apply lowered_row.
  - intros p r Hr Hn. by destruct (lowered_gone _ _ _ _ _ Hr Hn).
Qed.

Lemma lowered_outbox c f db id : outbox (lowered c f db) !! id = Some None ↔ outbox db !! id = Some None.
Proof.
  unfold lowered, delete_rows. simpl. rewrite map_lookup_filter_Some. split; [by intros [? _]|].
  intros Hid. split; [done|]. simpl. intros Hin. apply list_elem_of_fmap in Hin as (r & -> & Hin).
  apply list_elem_of_fmap in Hin as ([p r'] & -> & Hin). apply elem_of_map_to_list, map_lookup_filter_Some in Hin as [Hp Hrm].
  simpl in *. by destruct (removable_spec _ _ _ _ _ Hrm).
Qed.

Lemma lowered_shrunk c f db : c.1 = stream → raised db c f → shrunk db (lowered c f db).
Proof.
  intros Hcs Hra. split; try done.
  - intros id. apply lowered_outbox.
  - intros p r' Hr'%lowered_row. by exists r'.
  - intros c'. rewrite lowered_floor. case_decide; [subst|by left]. right. by exists f.
  - intros p r Hr Hn. destruct (lowered_gone _ _ _ _ _ Hr Hn) as [Hpc Hle Ha Hk Hpk Hpg Hob _].
    rewrite <-Hpc in Hcs. unfold floor_seq. rewrite lowered_floor, decide_True by done. done.
Qed.

(** What one device's step does: nothing, a fold of its chain, or that and a
    floor raised to an acknowledged op. *)
Inductive device_step (c : Chn) (n : Z) (db : Log) : Log → Prop :=
| step_none : device_step c n db db
| step_folded t : device_step c n db (held_op_hash (fold_chain c n now db) c t).1
| step_raised f :
    let mid := (held_op_hash (fold_chain c n now db) c (fl_seq f)).1 in
    raised db c f → held mid (c, fl_seq f) = Some (fl_op_hash f) → root_at mid c (fl_seq f) = Some (fl_root f) →
    device_step c n db (lowered c f mid).

Lemma compact_device_cases CL db d n a b :
  log_inv W CL db → sync_cursors db !! chn stream d = Some n →
  device_step (chn stream d) n db (compact_device stream me known cutoff now (db, a, b) (d, n)).1.1.
Proof.
  intros Hinv Hcur. unfold compact_device. simpl. set (c := chn stream d).
  assert (cursor_of db c = n) as Hcn by (unfold cursor_of, c; by rewrite Hcur).
  pose proof (po_floor _ _ (li_prefix _ _ Hinv c)) as Hpf. pose proof (li_room _ _ Hinv c) as Hroom.
  rewrite (Z.max_l n 0) by lia.
  destruct (floor_target db c me known n cutoff) as [t|] eqn:Et; [|apply step_none].
  destruct (floor_target_spec CL db d n t Hinv (eq_sym Hcn) Et) as (Hbetween & Hack & r & Hr & Hts). fold c in Hbetween, Hr.
  rewrite (Z.max_l t 0) by lia.
  pose proof (fold_chain_quiet c n now db (li_wf _ _ Hinv)) as Hq1. pose proof (step_folded c n db t) as Hfolded.
  pose proof (step_raised c n db) as Hraised. set (db1 := fold_chain c n now db) in *.
  pose proof (inv_quiet _ _ _ Hq1 Hinv) as Hinv1.
  destruct (held_op_hash_spec db1 c t (li_wf _ _ Hinv1)) as (db2 & Heq & Hv2 & _ & _). rewrite Heq in *. cbn [fst] in *.
  assert (held db (c, t) = Some (hash_of_stored (r_envelope r))) as Hh by (unfold held; by rewrite (stored_lookup _ _ _ Hr)).
  assert (held db1 (at_seq c t) = Some (hash_of_stored (r_envelope r))) as Hh1.
  { rewrite (held_view db1 db) by (by apply Hq1). unfold at_seq. by rewrite i64_seq by lia. }
  rewrite Hh1. destruct (root_at db2 c t) as [root|] eqn:Eroot; [|exact Hfolded].
  set (f := mkFloor t _ root _). unfold raise_floor. change (fl_seq f) with t.
  assert (floor_seq db2 c = floor_seq db c) as Hfs2.
  { unfold floor_seq, floor_of. destruct (view_inv _ _ Hv2) as (_ & -> & _). destruct (view_inv _ _ (q_view _ _ Hq1)) as (_ & -> & _). done. }
  rewrite decide_False by lia. specialize (Hraised f). change (fl_seq f) with t in Hraised. rewrite Heq in Hraised. simpl in Hraised.
  unfold lowered in Hraised. change (fl_seq f) with t in Hraised.
  cbn [fst]. apply Hraised; [|..|exact Eroot].
  - split; simpl; [done|lia|done|]. by exists r.
  - rewrite (held_view db2 db); [done|]. by rewrite Hv2, (q_view _ _ Hq1).
Qed.

Lemma device_mid CL db c n t :
  log_inv W CL db → let mid := (held_op_hash (fold_chain c n now db) c t).1 in tables mid = tables db ∧ quiet db mid.
Proof.
  intros Hinv. simpl. pose proof (fold_chain_quiet c n now db (li_wf _ _ Hinv)) as Hq. split.
  - by rewrite tables_held, tables_fold_chain.
  - etrans; [exact Hq|]. apply held_op_hash_quiet. apply Hq, Hinv.
Qed.

Lemma raised_compacted CL db c f mid :
  log_inv W CL db → quiet db mid → raised db c f → held mid (c, fl_seq f) = Some (fl_op_hash f) →
  compacted c f mid (lowered c f mid).
Proof.
  intros Hinv Hq Hra Hh. pose proof (ra_above _ _ _ Hra). pose proof (li_room _ _ Hinv c).
  apply lowered_compacted; [done| |rewrite (quiet_cursor _ _ c Hq); lia].
  unfold floor_seq in *. rewrite (quiet_floor _ _ c Hq). lia.
Qed.

Lemma device_step_spec CL db c n db' :
  log_inv W CL db → device_step c n db db' → log_inv W CL db' ∧ shrunk db db'.
Proof.
  intros Hinv [|t|f mid Hra Hh Hroot]; [by split| |].
  - destruct (device_mid CL db c n t Hinv) as [Ht Hq]. split; [by eapply inv_quiet|by apply shrunk_tables].
  - destruct (device_mid CL db c n (fl_seq f) Hinv) as [Ht Hq]. fold mid in Ht, Hq. split.
    + eapply (compacted_inv c f mid); [by eapply raised_compacted|by eapply inv_quiet].
    + etrans; [by apply shrunk_tables|]. apply lowered_shrunk; [by apply Hra|].
      eapply (raised_earlier mid db); [by apply shrunk_tables|done].
Qed.

Lemma compact_devices_spec CL l db a b :
  log_inv W CL db → (∀ d n, (d, n) ∈ l → sync_cursors db !! chn stream d = Some n) →
  let db' := (foldl (compact_device stream me known cutoff now) (db, a, b) l).1.1 in log_inv W CL db' ∧ shrunk db db'.
Proof.
  revert db a b. induction l as [|[d n] l IH]; intros db a b Hinv Hl; [done|]. cbn [foldl].
  pose proof (compact_device_cases CL db d n a b Hinv (Hl d n ltac:(by left))) as Hstep.
  destruct (device_step_spec CL db _ _ _ Hinv Hstep) as [Hinv1 Hsh1]. clear Hstep.
  destruct (compact_device _ _ _ _ _ _ _) as [[db1 a1] b1]. simpl in Hinv1, Hsh1.
  destruct (IH db1 a1 b1 Hinv1) as [Hinv2 Hsh2].
  - intros d' n' Hin. rewrite (sh_cursors _ _ Hsh1). apply Hl. by right.
  - split; [done|by etrans].
Qed.
End pass.

Section stream.
Context `{Ciborium, Crypto} {W : Pos → Prop}.

Lemma elem_of_all_cursors db stream d n : (d, n) ∈ all_cursors db stream → sync_cursors db !! chn stream d = Some n.
Proof.
  unfold all_cursors. rewrite elem_of_isort, list_elem_of_omap. intros ([[s d'] m] & Hin & Hx). apply elem_of_map_to_list in Hin.
  case_decide; [|done]. injection Hx as <- <-. by subst.
Qed.

Lemma compact_stream_spec CL m head me stream policy now db :
  log_inv W CL db →
  let db' := (compact_stream m head me stream policy now db).1.1.1 in
  let known := known_devices db m head me stream now (known_device_window_ms policy) in
  log_inv W CL db' ∧ shrunk stream me known (sat_sub now (retention_ms policy)) db db'.
Proof. intros Hinv. unfold compact_stream. simpl. apply compact_devices_spec; [done|]. apply elem_of_all_cursors. Qed.
End stream.
