(* ===== verification/ChainReach.v ===== *)
(** * Every log a device can reach

    A device's own writes keep the invariant of [ChainEvidence], and the logs
    reachable from the empty one by deliveries, parked deliveries, writes and
    compactions, in any order, all have it. *)

From Stdlib Require Import ZArith Lia.
From stdpp Require Import base tactics decidable countable option gmap sorting strings numbers list.
From S2P Require Import Prelude Bytes Hlc Cbor Wire Registry Envelope EnvelopeFacts EnvelopeSeal Chain ChainFacts ChainPrefix ChainEvidence Compaction ChainHistory CompactionFacts.
Open Scope Z_scope.

Section reach.
Context `{Ciborium, Crypto}.
Implicit Types W : Pos → Prop.

(** ** This device's own writes *)

Lemma list_tip_quiet s acc tip : log_wf acc.1 → quiet acc.1 (list_tip s acc tip).1.
Proof.
  destruct acc as [db hs], tip as [d n]. intros Hwf. unfold list_tip. case_decide; [done|].
  pose proof (held_op_hash_quiet db (chn s d) n Hwf) as Hq. destruct (held_op_hash db (chn s d) n) as [db1 [h|]]; [|done].
  simpl in *. etrans; [exact Hq|]. split; [done|done|]. intros Hwf1. by apply (wf_frame db1).
Qed.
Lemma list_tips_quiet s l acc : log_wf acc.1 → quiet acc.1 (foldl (list_tip s) acc l).1.
Proof.
  revert acc. induction l as [|x l IH]; intros acc Hwf; [done|]. simpl. pose proof (list_tip_quiet s acc x Hwf) as Hq.
  etrans; [exact Hq|]. apply IH. by apply Hq.
Qed.
Lemma writer_links_quiet s me seq db : log_wf db → quiet db (writer_links s me seq db).1.
Proof.
  intros Hwf. unfold writer_links. set (first := if decide (1 < seq) then _ else _).
  assert (quiet db first.1) as Hq by (subst first; case_decide; [by apply held_op_hash_quiet|done]).
  destruct first as [db1 prev]. simpl in Hq. pose proof (list_tips_quiet s (unlisted_tips db1 s me) (db1, [])) as Hq2.
  destruct (foldl _ _ _) as [db2 hs]. simpl in *. etrans; [exact Hq|]. apply Hq2. by apply Hq.
Qed.

(** The next seq is above every row of the device and its floor. *)
Lemma next_seq_spec db c :
  next_seq db c < i64_max → ops db !! (c, next_seq db c) = None ∧ 1 ≤ next_seq db c ∧ floor_seq db c < next_seq db c.
Proof.
  intros Hlt. unfold next_seq in *. set (m := sql_max (row_seqs db c (λ _ _, true))) in *.
  assert (u64_max = 18446744073709551615 ∧ i64_max = 9223372036854775807) as [Hu Hi] by done.
  unfold sat_add in *. split; [|lia]. apply eq_None_not_Some. intros [r Hr].
  assert (∀ n, n ∈ row_seqs db c (λ _ _, true) → n ≤ default 0 m) as Hm.
  { intros n Hn. destruct m as [x|] eqn:E; [by apply sql_max_Some in E as [_ ?]; auto|].
    apply sql_max_None in E. rewrite E in Hn. by apply not_elem_of_nil in Hn. }
  specialize (Hm _ (proj2 (elem_of_row_seqs db c _ _) (ex_intro _ r (conj Hr eq_refl)))). lia.
Qed.

(** Writing at [p] over what waits there: no one checks it. *)
Definition overwritten W db p : Pos → Prop :=
  λ q, W q ∨ (q = p ∧ ∃ h, is_Some (chain_expected db !! (p, h))).

Lemma inv_over W W' CL db : (∀ p, W p → W' p) → log_inv W CL db → log_inv W' CL db.
Proof.
  intros Hsub [Hwf [Hf Hw He Hk] Hpre Hroom Hsm]. split; [done| |done..]. split; [|done| |done].
  - intros p h x Hcl Hx Hne. destruct (Hf p h x Hcl Hx Hne) as [?|[? ?]]; auto.
  - intros p h b Hx. destruct (He p h b Hx) as [[?|?] ?]; auto.
Qed.

Lemma own_row_accounted W CL db p op_id buf ts kind ap :
  log_wf db → accounted W CL db → ops db !! p = None → floor_seq db p.1 < p.2 → op_by_id db op_id = None →
  let db' := on_ops <[p := new_row op_id buf ts kind ap]> db in
  log_wf db' ∧ accounted (overwritten W db p) (also CL p (hash_of_stored buf)) db'.
Proof.
  intros Hwf [Hf Hw He Hk] Hr Hfl Hid db'. assert (held db p = None) as Hn.
  { unfold held. rewrite (proj2 (stored_ops db p) Hr). unfold floor_seq in Hfl. destruct (floor_of db p.1) as [f|]; [|done].
    simpl in Hfl. by rewrite decide_False by lia. }
  assert (¬ below db p) as Hb by (unfold below; lia).
  assert (∀ env, ¬ named_row db op_id env) as Hfresh by (intros; by apply op_by_id_None).
  assert (∀ q, held db' q = if decide (q = p) then Some (hash_of_stored buf) else held db q) as Hh by (intros; apply held_insert).
  assert (stored db' = <[p := (op_id, buf)]> (stored db)) as Hs by apply stored_insert.
  assert (stored db !! p = None) as Hnone by by apply stored_ops.
  split; [by apply insert_wf|]. split.
  - intros q h y Hcl. rewrite Hh. case_decide as Hq.
    + intros [= <-] Hne. subst q. destruct Hcl as [Hcl|[_ ?]]; [|congruence].
      destruct (Hw p h Hcl Hn) as [?|[b Hbx]]; [done|]. right. split; [|by exists b]. right. split; [done|].
      exists h. by exists b.
    + intros Hy Hne. destruct Hcl as [Hcl|[? _]]; [|done].
      destruct (Hf q h y Hcl Hy Hne) as [?|[? ?]]; [by left|right]. split; [by left|done].
  - intros q h Hcl. rewrite Hh. case_decide as Hq; [done|]. destruct Hcl as [Hcl|[? _]]; [|done]. by apply Hw.
  - intros q h b Hx. destruct (He q h b Hx) as (Hqb & env & e & k & [r Hrow] & Hrest). split.
    + rewrite Hh. case_decide as Hq; [right|destruct Hqb as [?|?]; [by left|right; by left]].
      subst q. right. split; [done|]. exists h. by exists b.
    + exists env, e, k. split; [|done]. exists r. rewrite Hs, lookup_insert_ne; [done|]. intros <-. by pose proof (eq_trans (eq_sym Hrow) Hnone).
  - intros q k h ev Hev. destruct (Hk _ _ _ _ Hev) as (Hne & Hheld & Hcl). rewrite Hh.
    destruct (decide (q = p)) as [->|Hq]; [|by split_and!].
    exfalso. destruct Hheld as [?|[_ ?]]; [congruence|done].
Qed.

Lemma ops_insert_at_inv W CL op_id s me seq hlc inner kind ap rcv epoch key nonce sk db db' :
  log_inv W CL db → seq = next_seq db (chn s me) → seq < i64_max → op_by_id db op_id = None →
  ops_insert_at op_id s me seq hlc inner kind ap rcv epoch key nonce sk db = Some db' →
  ∃ env, stored db' !! (chn s me, seq) = Some (op_id, env) ∧
         log_inv (overwritten W db (chn s me, seq)) (also CL (chn s me, seq) (hash_of_stored env)) db'.
Proof.
  intros Hinv Hseq Hroom Hid. unfold ops_insert_at. set (c := chn s me) in *.
  pose proof (writer_links_quiet s me seq db (li_wf _ _ Hinv)) as Hq. destruct (writer_links s me seq db) as [db1 links].
  simpl in Hq. pose proof (inv_quiet _ _ _ Hq Hinv) as Hinv1.
  destruct (encode_chained_envelope _ _ _ _ _ _ _ _ _ _ _) as [buf|]; [|done].
  destruct (next_seq_spec db c) as (Hnone & Hge & Hfloor); [lia|]. rewrite <-Hseq in *.
  assert (ops db1 !! (c, seq) = None) as Hnone1.
  { apply eq_None_not_Some. rewrite (quiet_row _ _ _ Hq). by intros [r ?%(λ H, eq_trans (eq_sym H) Hnone)]. }
  assert (op_by_id db1 op_id = None) as Hid1.
  { destruct (op_by_id db1 op_id) as [r|] eqn:E; [|done]. apply op_by_id_Some in E as [Hrid [p Hp]].
    apply stored_lookup in Hp. destruct (view_inv _ _ (q_view _ _ Hq)) as (Hs & _). rewrite Hs in Hp.
    rewrite Hrid in Hp. exfalso. eapply (op_by_id_None db op_id (r_envelope r)); [apply Hinv|done|by exists p]. }
  rewrite bind_Some. intros ([db2 ?] & Hins & Hup). apply insert_cases in Hins as [(_ & _ & Hex)|(_ & _ & _ & ->)].
  { exfalso. destruct Hex as [[r Hr]|[r Hr]]; [by pose proof (eq_trans (eq_sym Hr) Hnone1)|congruence]. }
  destruct (view_inv _ _ (q_view _ _ Hq)) as (_ & Hf1 & He1 & _).
  destruct (own_row_accounted W CL db1 (c, seq) op_id buf (physical_ms hlc) kind ap) as [Hwf2 Hac2];
    [apply Hinv1|apply Hinv1|done| |done|].
  { simpl. unfold floor_seq. rewrite (quiet_floor _ _ c Hq). exact Hfloor. }
  assert (overwritten W db1 (c, seq) = overwritten W db (c, seq)) as Hov by (unfold overwritten; by rewrite He1).
  rewrite Hov in Hac2.
  set (db2 := on_ops _ db1) in *. set (db3 := set_op_hash op_id (hash_of_stored buf) db2) in *.
  set (db4 := on_outbox _ db3) in *.
  assert (log_wf db3) as Hwf3.
  { eapply (set_op_hash_wf _ _ _ (c, seq) (new_row op_id buf (physical_ms hlc) kind ap)); [done| |done|done].
    unfold db2. simpl. by rewrite lookup_insert_eq. }
  assert (view db4 = view db2) as Hv4 by apply set_op_hash_view.
  assert (stored db4 = <[(c, seq) := (op_id, buf)]> (stored db1)) as Hs4
    by (destruct (view_inv _ _ Hv4) as (-> & _); apply stored_insert).
  assert (log_inv (overwritten W db (c, seq)) (also CL (c, seq) (hash_of_stored buf)) db') as Hinv'.
  { pose proof (inv_over W (overwritten W db (c, seq)) CL db1 (λ p, @or_introl _ _) Hinv1) as Hinv2.
    apply (cursor_moves CL _ db1 db4 db' c rcv); try done.
    - by apply (wf_frame db3).
    - by eapply accounted_view; [symmetry; exact Hv4|].
    - intros p x. rewrite Hs4. destruct (decide (p = (c, seq))) as [->|Hne]; [done|].
      rewrite lookup_insert_ne by done. apply Hinv1.
    - intros p Hp. rewrite Hs4. destruct (decide (p = (c, seq))) as [->|Hne]; [rewrite lookup_insert_eq; by eexists|].
      by rewrite lookup_insert_ne.
    - intros p Hp. rewrite Hs4, lookup_insert_ne; [done|]. by intros <-. }
  exists buf. split; [|done].
  destruct (upsert_sync_cursor_spec c rcv db4 db') as (Hv & _).
  - by apply (wf_frame db3).
  - pose proof (po_floor _ _ (li_prefix _ _ Hinv1 c)). unfold floor_seq, floor_of in *. change (compaction_floor db4) with (compaction_floor db1). lia.
  - pose proof (po_floor _ _ (li_prefix _ _ Hinv1 c)). pose proof (li_room _ _ Hinv1 c).
    unfold floor_seq, floor_of in *. change (compaction_floor db4) with (compaction_floor db1).
    change (cursor_of db4 c) with (cursor_of db1 c). lia.
  - pose proof (po_floor _ _ (li_prefix _ _ Hinv1 c)). change (cursor_of db4 c) with (cursor_of db1 c). lia.
  - done.
  - destruct (view_inv _ _ Hv) as (-> & _). rewrite Hs4. apply lookup_insert_eq.
Qed.

(** ** Histories *)

(** [history me CL W db]: device [me] came to hold [db], from nothing, and
    what it received and wrote claims [CL]: for each position, the hashes some
    op has there by its own content or that an op in the log names there.  [W]
    are the positions it wrote an op of its own at while another's op, naming
    that position, was waiting to be checked against it. *)
Inductive history (me : bytes) : (Pos → bytes → Prop) → (Pos → Prop) → Log → Prop :=
| history_empty : history me (λ _ _, False) (λ _, False) empty_log
| history_applied CL W db buf e kind dg now db' b :
    history me CL W db → decode_envelope buf = Ok e → e_seq e < i64_max → no_clash db e →
    apply_remote buf e kind dg now db = Some (db', b) →
    history me (plus CL (if b then all_claims e else own_claims e)) W db'
| history_parked CL W db buf e now db' b :
    history me CL W db → decode_envelope buf = Ok e → e_seq e < i64_max → no_clash db e →
    park_op_as buf e now db = Some (db', b) →
    history me (plus CL (if b then all_claims e else own_claims e)) W db'
| history_written CL W db op_id s hlc inner kind ap rcv epoch key nonce sk db' env :
    history me CL W db → next_seq db (chn s me) < i64_max → op_by_id db op_id = None →
    ops_insert_at op_id s me (next_seq db (chn s me)) hlc inner kind ap rcv epoch key nonce sk db = Some db' →
    stored db' !! (chn s me, next_seq db (chn s me)) = Some (op_id, env) →
    history me (also CL (chn s me, next_seq db (chn s me)) (hash_of_stored env))
      (overwritten W db (chn s me, next_seq db (chn s me))) db'
| history_compacted CL W db m head stream policy now :
    history me CL W db → history me CL W (compact_stream m head me stream policy now db).1.1.1.

Lemma empty_inv W : log_inv W (λ _ _, False) empty_log.
Proof.
  split.
  - split; intros *; unfold floor_of, stored; simpl; rewrite ?fmap_empty, ?lookup_empty; done.
  - split; intros *; simpl; rewrite ?lookup_empty; done.
  - intros c. split; unfold cursor_of, floor_seq, floor_of; simpl; rewrite ?lookup_empty; simpl; [lia|done|lia].
  - intros c. done.
  - intros p x. unfold stored. simpl. by rewrite fmap_empty, lookup_empty.
Qed.

Lemma history_inv me CL W db : history me CL W db → log_inv W CL db.
Proof.
  induction 1 as [|CL W db buf e kind dg now db' b _ IH Hd Hs Hn Ha|CL W db buf e now db' b _ IH Hd Hs Hn Ha
    |CL W db op_id s hlc inner kind ap rcv epoch key nonce sk db' env _ IH Hs Hid Hw Hst|CL W db m head stream policy now _ IH].
  - apply empty_inv.
  - by eapply apply_remote_inv.
  - by eapply park_op_inv.
  - destruct (ops_insert_at_inv _ _ _ _ _ _ _ _ _ _ _ _ _ _ _ _ _ IH eq_refl Hs Hid Hw) as (env' & Hst' & Hinv).
    pose proof (eq_trans (eq_sym Hst') Hst) as [= ->]. exact Hinv.
  - by apply compact_stream_spec.
Qed.

(** Only positions this device wrote are overwritten. *)
Lemma history_overwritten me CL W db p : history me CL W db → W p → p.1.2 = me.
Proof. induction 1; try done. intros [?|[-> _]]; auto. Qed.

(** A seq is not handed out twice, as long as rows go under a floor only. *)
Lemma next_seq_mono db db' c :
  floor_seq db c ≤ floor_seq db' c →
  (∀ n, is_Some (ops db !! (c, n)) → is_Some (ops db' !! (c, n)) ∨ n ≤ floor_seq db' c) → next_seq db c ≤ next_seq db' c.
Proof.
  intros Hf Hr. unfold next_seq. assert (Z.max 0 (default 0 (sql_max (row_seqs db c (λ _ _, true)))) ≤
    Z.max (Z.max 0 (default 0 (sql_max (row_seqs db' c (λ _ _, true))))) (floor_seq db' c)) as Hm.
  { destruct (sql_max (row_seqs db c (λ _ _, true))) as [n|] eqn:E; simpl; [|lia]. apply sql_max_Some in E as [Hin _].
    apply elem_of_row_seqs in Hin as (r & Hrow & _). destruct (Hr n) as [[r' Hr']|?]; [by eexists| |lia].
    assert (n ∈ row_seqs db' c (λ _ _, true)) as Hin' by (apply elem_of_row_seqs; by exists r').
    destruct (sql_max (row_seqs db' c (λ _ _, true))) as [x|] eqn:E'.
    - apply sql_max_Some in E' as [_ Hle]. specialize (Hle _ Hin'). simpl. lia.
    - apply sql_max_None in E'. rewrite E' in Hin'. by apply not_elem_of_nil in Hin'. }
  unfold sat_add. lia.
Qed.
End reach.
