(* ===== verification/ChainRoots.v ===== *)
(** * Chain roots are folds of the ops below them

    Every stored root, of a row or of a compaction floor, is the fold of the
    hashes of the ops at its position and before it, and stays so when those
    rows are gone. *)

From Stdlib Require Import ZArith Lia.
From stdpp Require Import base tactics decidable countable option gmap sorting strings numbers list.
From S2P Require Import Prelude Bytes Hlc Cbor Wire Registry Envelope EnvelopeFacts EnvelopeSeal Chain ChainFacts ChainPrefix ChainEvidence Compaction ChainHistory CompactionFacts ChainReach.
Open Scope Z_scope.
#[local] Opaque compactable_kinds removable.

Section roots.
Context `{Ciborium, Crypto} {W : Pos → Prop}.

(** The root of the first [n] ops of a device, by what was once held at each
    position. *)
Fixpoint chain_fold (G : Pos → bytes) (c : Chn) (n : nat) : bytes :=
  match n with
  | O => chain_root_init c.1 c.2
  | S m => chain_root_step (chain_fold G c m) (G (c, Z.of_nat n))
  end.

Lemma chain_fold_ext G G' c n :
  (∀ k, 1 ≤ k ≤ Z.of_nat n → G (c, k) = G' (c, k)) → chain_fold G c n = chain_fold G' c n.
Proof.
  induction n as [|n IH]; intros Hk; [done|]. simpl. rewrite IH by (intros; apply Hk; lia).
  f_equal. apply Hk. lia.
Qed.
Lemma chain_fold_next G c seq : 0 ≤ seq → chain_root_step (chain_fold G c (Z.to_nat seq)) (G (c, seq + 1)) = chain_fold G c (Z.to_nat (seq + 1)).
Proof. intros Hs. rewrite Z2Nat.inj_add by lia. rewrite Nat.add_comm. simpl. do 2 f_equal. f_equal. lia. Qed.

(** Equal roots are folds of equal hashes, or two inputs of the step collide. *)
Lemma chain_fold_inj G G' c n :
  (∀ p, length (G p) = 32%nat) → (∀ p, length (G' p) = 32%nat) → chain_fold G c n = chain_fold G' c n →
  (∀ k, 1 ≤ k ≤ Z.of_nat n → G (c, k) = G' (c, k)) ∨
  ∃ a b, a ≠ b ∧ derive_key_32 CHAIN_STEP_CONTEXT a = derive_key_32 CHAIN_STEP_CONTEXT b.
Proof.
  intros Hl Hl'. induction n as [|n IH]; intros Heq; [left; intros k Hk; lia|].
  cbn [chain_fold] in Heq. unfold chain_root_step in Heq.
  set (a := chain_fold G c n ++ _) in Heq. set (b := chain_fold G' c n ++ _) in Heq.
  destruct (decide (a = b)) as [Hab|Hab]; [|right; by exists a, b].
  apply app_inj_2 in Hab as [Hf Hh]; [|by rewrite Hl, Hl']. destruct (IH Hf) as [Hk|?]; [left|by right].
  intros k Hkn. destruct (decide (k = Z.of_nat (S n))) as [->|Hne]; [done|]. apply Hk. lia.
Qed.

Record rooted (G : Pos → bytes) (db : Log) : Prop := {
  rt_held : ∀ p x, held db p = Some x → G p = x;
  rt_rows : ∀ c n r root, ops db !! (c, n) = Some r → r_chain_root r = Some root →
    1 ≤ n ≤ cursor_of db c ∧ root = chain_fold G c (Z.to_nat n);
  rt_floor : ∀ c f, floor_of db c = Some f → fl_root f = chain_fold G c (Z.to_nat (fl_seq f));
}.

(** What [rooted] reads. *)
Definition root_row (r : OpRow) := (r_op_id r, r_envelope r, r_chain_root r).
Definition rview (db : Log) := (root_row <$> ops db, compaction_floor db, sync_cursors db).

Lemma rview_inv db db' : rview db' = rview db →
  root_row <$> ops db' = root_row <$> ops db ∧ compaction_floor db' = compaction_floor db ∧ sync_cursors db' = sync_cursors db.
Proof. unfold rview. by intros [= -> -> ->]. Qed.
Lemma rview_row db db' p r' :
  rview db' = rview db → ops db' !! p = Some r' → ∃ r, ops db !! p = Some r ∧ root_row r = root_row r'.
Proof.
  intros (Ho & _ & _)%rview_inv Hr. assert ((root_row <$> ops db') !! p = (root_row <$> ops db) !! p) as Hp by by rewrite Ho.
  rewrite !lookup_fmap, Hr in Hp. destruct (ops db !! p) as [r|]; [|done]. exists r. split; [done|]. simpl in Hp. congruence.
Qed.
Lemma rview_stored db db' : rview db' = rview db → stored db' = stored db.
Proof.
  intros (Ho & _ & _)%rview_inv. unfold stored.
  assert (∀ m : gmap Pos OpRow, (λ r, (r_op_id r, r_envelope r)) <$> m = fst <$> (root_row <$> m)) as Hf
    by (intros m; by rewrite <-map_fmap_compose).
  by rewrite !Hf, Ho.
Qed.
Lemma rview_held db db' p : rview db' = rview db → held db' p = held db p.
Proof. intros Hv. unfold held, floor_of. rewrite (rview_stored _ _ Hv). by destruct (rview_inv _ _ Hv) as (_ & -> & _). Qed.

Lemma rooted_frame G db db' : rview db' = rview db → rooted G db → rooted G db'.
Proof.
  intros Hv [Hh Hr Hf]. destruct (rview_inv _ _ Hv) as (_ & Hfl & Hc). split.
  - intros p x. rewrite (rview_held _ _ _ Hv). apply Hh.
  - intros c n r' root Hrow Hroot. destruct (rview_row _ _ _ _ Hv Hrow) as (r & Hrow' & Heq).
    unfold cursor_of. rewrite Hc. apply (Hr c n r root Hrow'). unfold root_row in Heq. congruence.
  - intros c f. unfold floor_of. rewrite Hfl. apply Hf.
Qed.

(** ** What leaves it be *)

Lemma rview_skel db db' : skel db' = skel db → rview db' = rview db.
Proof.
  intros Hs. unfold rview. rewrite (skel_floor _ _ Hs), (skel_cursors _ _ Hs). f_equal. f_equal.
  assert (∀ m : gmap Pos OpRow, root_row <$> m =
    (λ t, let '(i, _, e, _, _, x) := t in (i, e, x)) <$> ((λ r, (r_op_id r, r_ts_ms r, r_envelope r, r_inner_kind r, r_applied_at r, r_chain_root r)) <$> m)) as Hm
    by (intros m; by rewrite <-map_fmap_compose).
  unfold skel in Hs. injection Hs as Ho _ _ _ _ _ _ _ _ _. by rewrite !Hm, Ho.
Qed.
Lemma rview_held_op_hash db c seq : rview (held_op_hash db c seq).1 = rview db.
Proof. apply rview_skel, skel_held. Qed.
Lemma rview_judge c peer seq a b now db : rview (judge c peer seq a b now db) = rview db.
Proof. unfold judge. by case_decide. Qed.
Lemma rview_settle c now db x : rview (settle_claim c now db x) = rview db.
Proof. destruct x as [? [? ?]]. unfold settle_claim. case_match; [by rewrite rview_judge|done]. Qed.
Lemma rview_foldl {A} (f : Log → A → Log) l db : (∀ db x, rview (f db x) = rview db) → rview (foldl f db l) = rview db.
Proof. intros Hf. revert db. induction l as [|x l IH]; intros db; [done|]. simpl. etrans; [apply IH|apply Hf]. Qed.
Lemma rview_ack s peer t db x : rview (record_ack s peer t db x) = rview db.
Proof. done. Qed.
Lemma rview_claim_later k n r db : rview (claim_later k n r db) = rview db.
Proof. unfold claim_later. repeat case_match; done. Qed.
Lemma rview_unpark id buf kind now db : rview (unpark id buf kind now db).1 = rview db.
Proof.
  unfold unpark. case_decide; [|done]. unfold rview. simpl. f_equal. f_equal. rewrite <-map_fmap_compose.
  apply map_fmap_ext. intros p r _. simpl. by case_decide.
Qed.
Lemma rview_list_tip s acc tip : rview (list_tip s acc tip).1 = rview acc.1.
Proof.
  destruct acc as [db hs], tip as [d n]. unfold list_tip. case_decide; [done|].
  pose proof (rview_held_op_hash db (chn s d) n) as Hv. by destruct (held_op_hash db (chn s d) n) as [db1 [h|]].
Qed.
Lemma rview_writer_links s me seq db : rview (writer_links s me seq db).1 = rview db.
Proof.
  unfold writer_links. set (first := if decide (1 < seq) then _ else _).
  assert (rview first.1 = rview db) as Hv by (subst first; case_decide; [apply rview_held_op_hash|done]).
  destruct first as [db1 prev]. simpl in Hv. rewrite <-Hv. clear Hv.
  assert (∀ l acc, rview (foldl (list_tip s) acc l).1 = rview acc.1) as Hl.
  { induction l as [|x l IH]; intros acc; [done|]. simpl. by rewrite IH, rview_list_tip. }
  pose proof (Hl (unlisted_tips db1 s me) (db1, [])) as Hx. by destruct (foldl _ _ _).
Qed.

(** ** Folding a chain *)

Lemma root_at_rooted G db c n root :
  rooted G db → 0 ≤ n < i64_max → root_at db c n = Some root → root = chain_fold G c (Z.to_nat n).
Proof.
  intros [_ Hr Hf] Hn. unfold root_at. case_decide as Hz.
  - subst. by intros [= <-].
  - destruct (ops db !! at_seq c n) as [r|] eqn:Er; simpl; unfold at_seq in Er; rewrite i64_seq in Er by lia.
    + destruct (r_chain_root r) as [x|] eqn:Ex.
      * intros [= <-]. by destruct (Hr _ _ _ _ Er Ex).
      * destruct (floor_of db c) as [f|] eqn:Ef; [|done]. case_decide; [|done]. intros [= <-]. subst. by apply Hf.
    + destruct (floor_of db c) as [f|] eqn:Ef; [|done]. case_decide; [|done]. intros [= <-]. subst. by apply Hf.
Qed.

Lemma write_root G db c n :
  rooted G db → 1 ≤ n ≤ cursor_of db c → rooted G (on_ops (alter (with_root (chain_fold G c (Z.to_nat n))) (c, n)) db).
Proof.
  intros Hg Hn. destruct Hg as [Hh Hr Hf]. pose proof (with_root_quiet db (c, n) (chain_fold G c (Z.to_nat n))) as Hq. split.
  - intros p x. rewrite (held_view _ db) by (by apply Hq). apply Hh.
  - intros c' n' r root. simpl. destruct (decide ((c', n') = (c, n))) as [[= -> ->]|Hne].
    + rewrite lookup_alter_eq. destruct (ops db !! (c, n)) as [r0|] eqn:E; [|done]. simpl. intros [= <-] [= <-].
      change (cursor_of (on_ops _ db) c) with (cursor_of db c). done.
    + rewrite lookup_alter_ne by done. apply Hr.
  - apply Hf.
Qed.

Lemma fold_steps_rooted G k c seq db :
  rooted G db → log_wf db → 0 ≤ seq → seq + Z.of_nat k ≤ cursor_of db c → seq + Z.of_nat k < i64_max →
  rooted G (fold_steps k c seq (chain_fold G c (Z.to_nat seq)) db).1.
Proof.
  revert seq db. induction k as [|k IH]; intros seq db Hg Hwf Hs Hk Hm; [done|]. cbn [fold_steps].
  destruct (held_op_hash_spec db c (seq + 1) Hwf) as (db1 & Heq & Hv & Hwf1 & _).
  pose proof (rview_held_op_hash db c (seq + 1)) as Hrv. pose proof (held_op_hash_quiet db c (seq + 1) Hwf) as Hq1.
  rewrite Heq in *. simpl in Hrv, Hq1.
  assert (rooted G db1) as Hg1 by (by eapply rooted_frame). unfold at_seq in *. rewrite i64_seq in * by lia.
  destruct (held db (c, seq + 1)) as [h|] eqn:Eh; [|done].
  rewrite <-(rt_held _ _ Hg _ _ Eh), chain_fold_next by done. rewrite <-(quiet_cursor _ _ c Hq1) in Hk.
  apply IH.
  - apply write_root; [done|lia].
  - eapply q_wf; [apply with_root_quiet|done].
  - lia.
  - change (cursor_of (on_ops _ db1) c) with (cursor_of db1 c). lia.
  - lia.
Qed.

Lemma resume_rooted G db c prefix :
  rooted G db → log_wf db → 0 ≤ prefix < i64_max →
  ∃ n, resume_from db c prefix = (n, chain_fold G c (Z.to_nat n)) ∧ 0 ≤ n ≤ prefix.
Proof.
  intros Hg Hwf Hp. unfold resume_from.
  assert (∀ n root, resume_row db c prefix = Some (n, root) → root = chain_fold G c (Z.to_nat n) ∧ 0 ≤ n ≤ prefix) as Hrow.
  { intros n root. unfold resume_row. rewrite bind_Some. intros (m & Hm & Hx).
    apply bind_Some in Hx as (r & Hr & Hx). apply bind_Some in Hx as (root' & Hroot & [= -> ->]).
    apply sql_max_Some in Hm as [Hin _]. apply elem_of_row_seqs in Hin as (r' & _ & HP).
    apply andb_true_iff in HP as [Hle%bool_decide_eq_true _]. rewrite i64_seq in Hle by lia.
    destruct (rt_rows _ _ Hg _ _ _ _ Hr Hroot) as [? ->]. split; [done|lia]. }
  set (floor := f ← floor_of db c; _).
  assert (∀ n root, floor = Some (n, root) → root = chain_fold G c (Z.to_nat n) ∧ 0 ≤ n ≤ prefix) as Hfl.
  { intros n root. unfold floor. destruct (floor_of db c) as [f|] eqn:Ef; [|done]. simpl. case_decide; [|done]. intros [= <- <-].
    split; [by apply (rt_floor _ _ Hg)|]. pose proof (lw_floor _ Hwf _ _ Ef). lia. }
  destruct (resume_row db c prefix) as [[sn sr]|], floor as [[fn fr]|]; simpl.
  - destruct (Hrow _ _ eq_refl) as [-> ?], (Hfl _ _ eq_refl) as [-> ?]. case_decide; eauto.
  - destruct (Hrow _ _ eq_refl) as [-> ?]. eauto.
  - destruct (Hfl _ _ eq_refl) as [-> ?]. eauto.
  - exists 0. split; [done|lia].
Qed.

Lemma fold_chain_rooted G db c prefix now :
  rooted G db → log_wf db → 0 ≤ prefix ≤ cursor_of db c → prefix < i64_max → rooted G (fold_chain c prefix now db).
Proof.
  intros Hg Hwf Hp Hm. unfold fold_chain. case_decide; [done|].
  destruct (resume_rooted G db c prefix Hg Hwf) as (n & -> & Hn); [lia|].
  pose proof (fold_steps_rooted G (Z.to_nat (prefix - n)) c n db Hg Hwf) as Hs.
  destruct (fold_steps _ _ _ _ _) as [db1 m]. simpl in Hs.
  eapply rooted_frame; [apply rview_foldl; intros; apply rview_settle|]. apply Hs; lia.
Qed.

(** ** The rest of a delivery *)

Lemma upsert_rooted G db c now db' :
  rooted G db → log_wf db → 0 ≤ floor_seq db c ≤ cursor_of db c → cursor_of db c < i64_max →
  (∀ p x, stored db !! p = Some x → p.2 < i64_max) →
  upsert_sync_cursor c now db = Some db' → rooted G db'.
Proof.
  intros Hg Hwf Hf Hc Hsm. unfold upsert_sync_cursor.
  assert (u64_max = 18446744073709551615 ∧ i64_max = 9223372036854775807) as [Hu Hi] by done.
  rewrite (decide_True (P := sat_add u64_max _ 1 ≤ i64_max)) by (unfold sat_add; lia).
  set (start := sat_add _ _ _). assert (start = cursor_of db c + 1) as Hst by (unfold start, sat_add; lia).
  destruct (ops_run_end_spec db c start) as (n & -> & Hn & Hall & _). cbn [mbind option_bind]. intros [= <-].
  set (db1 := on_cursors _ db). assert (cursor_of db1 c = Z.max (cursor_of db c) n) as Hc1.
  { unfold cursor_of, db1. simpl. rewrite lookup_insert_eq. simpl. unfold cursor_of in *.
    destruct (sync_cursors db !! c); simpl in *; lia. }
  assert (∀ c', cursor_of db c' ≤ cursor_of db1 c') as Hgrow.
  { intros c'. destruct (decide (c' = c)) as [->|Hne]; [rewrite Hc1; lia|].
    unfold cursor_of, db1. simpl. by rewrite lookup_insert_ne. }
  apply fold_chain_rooted.
  - destruct Hg as [Hh Hr Hfl]. split; [exact Hh| |exact Hfl]. intros c' m r root Hrow Hroot.
    destruct (Hr _ _ _ _ Hrow Hroot) as [? ->]. specialize (Hgrow c'). split; [lia|done].
  - by apply (wf_frame db).
  - rewrite Hc1. lia.
  - destruct (decide (n ≤ cursor_of db c)); [lia|]. destruct (Hall n ltac:(lia)) as [r Hr]. apply stored_lookup in Hr.
    apply Hsm in Hr. simpl in Hr. lia.
Qed.

Lemma reconcile_entry_rooted G s peer now db e :
  rooted G db → log_wf db → (∀ c, cursor_of db c < i64_max) → rooted G (reconcile_entry s peer now db e).
Proof.
  intros Hg Hwf Hroom. unfold reconcile_entry. case_decide; [done|]. set (c := chn s (fe_device_id e)). case_decide.
  - set (db1 := match root_at db c (fe_seq e) with None => _ | Some _ => db end).
    assert (rooted G db1) as Hg1.
    { unfold db1. case_match; [done|]. destruct (decide (0 ≤ cursor_of db c)).
      - apply fold_chain_rooted; [done|done|lia|]. specialize (Hroom c). lia.
      - rewrite Z.max_r by lia. done. }
    case_match; [|done]. eapply rooted_frame; [apply rview_judge|done].
  - eapply rooted_frame; [apply rview_claim_later|done].
Qed.

Lemma reconcile_rooted G s peer p at_ms now db :
  rooted G db → log_wf db → (∀ c, cursor_of db c < i64_max) → rooted G (reconcile s peer p at_ms now db).
Proof.
  intros Hg Hwf Hroom. unfold reconcile. case_match; [done|]. set (db1 := record_peer_frontier _ _ _ _ _).
  assert (quiet db db1 ∧ rview db1 = rview db) as [Hq Hv].
  { unfold db1, record_peer_frontier. split; [|apply rview_foldl; intros; apply rview_ack].
    apply foldl_quiet. intros db' x. split; [done|done|intros; by apply (wf_frame db')]. }
  assert (rooted G db1) as Hg1 by (by eapply rooted_frame). assert (log_wf db1) as Hwf1 by (by apply Hq).
  assert (∀ c, cursor_of db1 c < i64_max) as Hr1 by (intros c; by rewrite (quiet_cursor _ _ c Hq)).
  clearbody db1. clear Hv Hq. revert db1 Hg1 Hwf1 Hr1. generalize (sd_frontier p). intros l.
  induction l as [|e l IH]; intros db1 Hg1 Hwf1 Hr1; [done|]. simpl.
  pose proof (reconcile_entry_quiet s peer now db1 e Hwf1) as Hq. apply IH.
  - by apply reconcile_entry_rooted.
  - by apply Hq.
  - intros c. by rewrite (quiet_cursor _ _ c Hq).
Qed.

(** ** An op that enters the log *)

Definition extend (G : Pos → bytes) (p : Pos) (h : bytes) (q : Pos) : bytes := if decide (q = p) then h else G q.

(** The position of an op that was not held is in no prefix. *)
Lemma extend_fold G db p h c n :
  held db p = None → ¬ below db p → (∀ c, prefix_ok db c) → n ≤ cursor_of db c →
  chain_fold (extend G p h) c (Z.to_nat n) = chain_fold G c (Z.to_nat n).
Proof.
  intros [Hr Hf]%held_None Hb Hpre Hn. apply chain_fold_ext. intros k Hk. unfold extend. rewrite decide_False; [done|].
  intros <-. destruct (po_cover _ _ (Hpre c) k ltac:(lia)) as [[r Hx]|Hle].
  - by pose proof (eq_trans (eq_sym Hx) Hr).
  - unfold below, floor_seq in *. simpl in *. destruct (floor_of db c) as [f|]; simpl in *; [|lia].
    apply (Hf f eq_refl). lia.
Qed.

Lemma insert_rooted G db p op_id buf ts kind ap :
  rooted G db → held db p = None → ¬ below db p → (∀ c, prefix_ok db c) →
  rooted (extend G p (hash_of_stored buf)) (on_ops <[p := new_row op_id buf ts kind ap]> db).
Proof.
  intros [Hh Hr Hf] Hp Hb Hpre. split.
  - intros q x. rewrite held_insert. unfold extend. case_decide; [by intros [= <-]|apply Hh].
  - intros c n r root. simpl. destruct (decide ((c, n) = p)) as [<-|Hne].
    + rewrite lookup_insert_eq. by intros [= <-].
    + rewrite lookup_insert_ne by done. intros Hrow Hroot. destruct (Hr _ _ _ _ Hrow Hroot) as [Hn ->].
      change (cursor_of (on_ops _ db) c) with (cursor_of db c). split; [done|].
      symmetry. apply (extend_fold G db); [done|done|done|lia].
  - intros c f Hfl. change (floor_of db c = Some f) in Hfl. rewrite (Hf _ _ Hfl). symmetry.
    apply (extend_fold G db); [done|done|done|]. pose proof (po_floor _ _ (Hpre c)) as Hx. unfold floor_seq in Hx.
    rewrite Hfl in Hx. simpl in Hx. lia.
Qed.

Lemma skel_check_covered e buf now db db' b : check_covered e buf now db = Some (db', b) → skel db' = skel db.
Proof.
  unfold check_covered. destruct (floor_of _ _) as [f|]; [|by intros [= <- _]]. case_decide; [by intros [= <- _]|].
  destruct (ops db !! _); [by intros [= <- _]|]. case_decide; [|by intros [= <- _]].
  destruct (op_hash e); [|done]. case_decide; [by intros [= <- _]|]. intros [= <- _]. apply skel_record.
Qed.
Lemma skel_check_duplicate e buf now db db' b : check_duplicate e buf now db = Some (db', b) → skel db' = skel db.
Proof.
  unfold check_duplicate. destruct (op_hash e); [|done].
  pose proof (skel_held db (chn (e_stream_id e) (e_device_id e)) (e_seq e)) as Hs.
  destruct (held_op_hash _ _ _) as [db1 [h|]]; simpl in Hs; [|by intros [= <- _]]. case_decide; [by intros [= <- _]|].
  intros [= Hr]. rewrite <-Hs, <-(skel_record (at_seq (chn (e_stream_id e) (e_device_id e)) (e_seq e)) Seq h a buf now db1).
  by rewrite Hr.
Qed.

(** The cursor moves after rows entered or were re-checked. *)
Lemma upsert_after G CL db db2 c now db3 :
  log_inv W CL db → rooted G db2 → log_wf db2 → compaction_floor db2 = compaction_floor db → sync_cursors db2 = sync_cursors db →
  (∀ p x, stored db2 !! p = Some x → p.2 < i64_max) → upsert_sync_cursor c now db2 = Some db3 → rooted G db3.
Proof.
  intros Hinv Hg Hwf Hfl Hc Hsm. pose proof (po_floor _ _ (li_prefix _ _ Hinv c)) as Hp. pose proof (li_room _ _ Hinv c) as Hr.
  apply upsert_rooted; [done|done| | |done]; unfold floor_seq, floor_of, cursor_of in *; rewrite ?Hfl, Hc; done.
Qed.

Lemma entered_rooted G CL db buf e ts kind ap now db1 db2 db3 :
  e_seq e < i64_max → log_inv W CL db → rooted G db → decode_envelope buf = Ok e →
  held db (own_pos e) = None → ¬ below db (own_pos e) → op_by_id db (op_id_of e) = None →
  check_links (op_id_of e) e buf now (on_ops <[own_pos e := new_row (op_id_of e) buf ts kind ap]> db) = Some db1 →
  quiet db1 db2 → (rooted (extend G (own_pos e) (hash_of_stored buf)) db1 → rooted (extend G (own_pos e) (hash_of_stored buf)) db2) →
  upsert_sync_cursor (chn_of e) now db2 = Some db3 → rooted (extend G (own_pos e) (hash_of_stored buf)) db3.
Proof.
  intros Hseq Hinv Hg Hd Hp Hb Hid Hcl Hq Hstep Hup. pose proof Hinv as [Hwf Hac Hpre _ Hsmall].
  destruct (enter_accounted (W := W) CL db buf e (op_id_of e) ts kind ap now db1) as (Hwf1 & _ & Hs1 & Hf1); try done.
  { intros env. by apply op_by_id_None. }
  destruct (view_inv _ _ (q_view _ _ Hq)) as (Hs2 & Hf2 & _). pose proof (skel_check_links _ _ _ _ _ _ Hcl) as Hsk.
  eapply (upsert_after _ CL db db2); [done| |by apply Hq|congruence| | |exact Hup].
  - apply Hstep. eapply rooted_frame; [by apply rview_skel|]. by apply insert_rooted.
  - rewrite (q_cursors _ _ Hq), (skel_cursors _ _ Hsk). done.
  - intros p x. rewrite Hs2, Hs1. destruct (decide (p = own_pos e)) as [->|Hne]; [by rewrite own_pos_small|].
    rewrite lookup_insert_ne by done. apply Hsmall.
Qed.

Definition grown (G G' : Pos → bytes) (buf : bytes) : Prop := G' = G ∨ ∃ p, G' = extend G p (hash_of_stored buf).

Lemma apply_remote_rooted G CL db buf e kind dg now db' b :
  e_seq e < i64_max → log_inv W CL db → rooted G db → decode_envelope buf = Ok e → no_clash db e →
  apply_remote buf e kind dg now db = Some (db', b) → ∃ G', rooted G' db' ∧ grown G G' buf.
Proof.
  intros Hseq Hinv Hg Hd Hnc. pose proof (decode_seq _ _ Hd) as Hseq0. unfold apply_remote.
  rewrite bind_Some. intros ([dbc cov] & Hcov & Hrest). destruct cov.
  { injection Hrest as <- <-. exists G. split; [|by left].
    eapply rooted_frame; [eapply rview_skel, skel_check_covered; exact Hcov|done]. }
  apply check_covered_false in Hcov as [-> Hfree]; [|done]. apply bind_Some in Hrest as ([dbi n] & Hins & Hrest).
  apply exists_own in Hins; [|done|by apply own_pos_small].
  destruct Hins as [(-> & -> & Hrow)|(-> & Hrow & Hid & ->)].
  - rewrite decide_True in Hrest by done. exists G. split; [|by left].
    pose proof (unpark_quiet (op_id_of e) buf kind now db) as Hq. pose proof (rview_unpark (op_id_of e) buf kind now db) as Hv.
    change (remote_op_id _ _ _) with (op_id_of e) in Hrest.
    destruct (unpark (op_id_of e) buf kind now db) as [dbu rel] eqn:Hu. simpl in Hq, Hv.
    assert (log_inv W CL dbu) as Hinvu by (by eapply inv_quiet). assert (rooted G dbu) as Hgu by (by eapply rooted_frame).
    destruct rel.
    + destruct (unpark_released _ _ _ _ _ _ Hu) as (r & p & Hp & Hrid & Hrb).
      assert (stored dbu !! own_pos e = Some (op_id_of e, buf)) as Hst.
      { apply stored_lookup in Hp. rewrite Hrid, Hrb in Hp. rewrite <-(Hnc _ _ Hp).
        by destruct (view_inv _ _ (q_view _ _ Hq)) as (-> & _). }
      apply bind_Some in Hrest as (dbl & Hcl & Hrest). apply bind_Some in Hrest as (dbf & Hup & Hrest).
      injection Hrest as <- <-. pose proof (skel_check_links _ _ _ _ _ _ Hcl) as Hsk.
      destruct (recheck_accounted (W := W) CL dbu buf e (op_id_of e) now dbl) as (Hwf1 & Hac1 & _);
        [done|apply Hinvu|apply Hinvu|done..|].
      assert (log_inv W (plus CL (all_claims e)) dbl) as Hinvl by (by eapply inv_skel).
      assert (rooted G dbl) as Hgl by (by eapply rooted_frame; [apply rview_skel|]).
      set (dbr := match dg with Some p => _ | None => dbl end) in Hup.
      assert (quiet dbl dbr) as Hqr by (subst dbr; destruct dg; [by apply reconcile_quiet|done]).
      assert (log_inv W (plus CL (all_claims e)) dbr) as Hinvr by (by eapply inv_quiet).
      eapply (upsert_after G _ dbr dbr); [exact Hinvr| |apply Hinvr|done|done|apply Hinvr|exact Hup].
      subst dbr. destruct dg; [|done]. apply reconcile_rooted; [done|done|apply Hinvl].
    + apply bind_Some in Hrest as ([dbd ?] & Hdup & Hrest). injection Hrest as <- <-.
      eapply rooted_frame; [eapply rview_skel, skel_check_duplicate; exact Hdup|done].
  - rewrite decide_False in Hrest by done. destruct (Hfree Hrow) as [Hheld Hbelow].
    apply bind_Some in Hrest as (dbl & Hcl & Hrest). apply bind_Some in Hrest as (dbf & Hup & Hrest).
    injection Hrest as <- <-. exists (extend G (own_pos e) (hash_of_stored buf)). split; [|right; by eexists].
    destruct (enter_accounted (W := W) CL db buf e (op_id_of e) (physical_ms (e_hlc e)) kind (Some now) now dbl) as (Hwf1 & _);
      try done; [apply Hinv|apply Hinv|intros env; by apply op_by_id_None; [apply Hinv|]|].
    eapply (entered_rooted G CL db buf e); [done|done|done|done|done|done|done|exact Hcl| | |exact Hup].
    + destruct dg; [|done]. by apply reconcile_quiet.
    + intros Hg1. destruct dg; [|done]. apply reconcile_rooted; [done|done|]. intros c. pose proof (li_room _ _ Hinv c).
      unfold cursor_of in *. by rewrite (skel_cursors _ _ (skel_check_links _ _ _ _ _ _ Hcl)).
Qed.

Lemma park_op_rooted G CL db buf e now db' b :
  e_seq e < i64_max → log_inv W CL db → rooted G db → decode_envelope buf = Ok e → no_clash db e →
  park_op_as buf e now db = Some (db', b) → ∃ G', rooted G' db' ∧ grown G G' buf.
Proof.
  intros Hseq Hinv Hg Hd Hnc. pose proof (decode_seq _ _ Hd) as Hseq0. unfold park_op_as.
  rewrite bind_Some. intros ([dbc cov] & Hcov & Hrest). destruct cov.
  { injection Hrest as <- <-. exists G. split; [|by left].
    eapply rooted_frame; [eapply rview_skel, skel_check_covered; exact Hcov|done]. }
  apply check_covered_false in Hcov as [-> Hfree]; [|done]. apply bind_Some in Hrest as ([dbi n] & Hins & Hrest).
  apply exists_own in Hins; [|done|by apply own_pos_small].
  destruct Hins as [(-> & -> & Hrow)|(-> & Hrow & Hid & ->)].
  - rewrite decide_True in Hrest by done. exists G. split; [|by left].
    apply bind_Some in Hrest as ([dbd ?] & Hdup & Hrest). injection Hrest as <- <-.
    eapply rooted_frame; [eapply rview_skel, skel_check_duplicate; exact Hdup|done].
  - rewrite decide_False in Hrest by done. destruct (Hfree Hrow) as [Hheld Hbelow].
    apply bind_Some in Hrest as (dbl & Hcl & Hrest). apply bind_Some in Hrest as (dbf & Hup & Hrest).
    injection Hrest as <- <-. exists (extend G (own_pos e) (hash_of_stored buf)). split; [|right; by eexists].
    eapply (entered_rooted G CL db buf e); [done|done|done|done|done|done|done|exact Hcl|apply park_quiet| |exact Hup].
    intros Hg1. eapply rooted_frame; [|exact Hg1]. done.
Qed.

(** ** Compaction and this device's own writes *)

Lemma lowered_rooted G c f db :
  rooted G db → compacted c f db (lowered c f db) → fl_root f = chain_fold G c (Z.to_nat (fl_seq f)) → rooted G (lowered c f db).
Proof.
  intros [Hh Hr Hfl] Hc Hroot. split.
  - intros p x. destruct (compacted_held c f db _ Hc p) as [->|[-> _]]; [apply Hh|done].
  - intros c' n r root Hrow%lowered_row Hx. unfold cursor_of. rewrite (cp_cursors _ _ _ _ Hc). eauto.
  - intros c' g. rewrite lowered_floor. case_decide; [subst; by intros [= <-]|apply Hfl].
Qed.

Lemma mid_rooted G CL db c n t now :
  log_inv W CL db → rooted G db → 0 ≤ n ≤ cursor_of db c → rooted G (held_op_hash (fold_chain c n now db) c t).1.
Proof.
  intros Hinv Hg Hn. pose proof (li_room _ _ Hinv c). eapply rooted_frame; [apply rview_held_op_hash|].
  apply fold_chain_rooted; [done|apply Hinv|done|lia].
Qed.

Lemma compact_devices_rooted G CL s me known cutoff now l db a b :
  log_inv W CL db → rooted G db → (∀ d n, (d, n) ∈ l → sync_cursors db !! chn s d = Some n) →
  rooted G (foldl (compact_device s me known cutoff now) (db, a, b) l).1.1.
Proof.
  revert db a b. induction l as [|[d n] l IH]; intros db a b Hinv Hg Hl; [done|]. cbn [foldl].
  assert (sync_cursors db !! chn s d = Some n) as Hcur by (by apply Hl; left).
  pose proof (compact_device_cases s me known cutoff now CL db d n a b Hinv Hcur) as Hstep.
  destruct (device_step_spec s me known cutoff now CL db _ _ _ Hinv Hstep) as [Hinv1 Hsh1].
  destruct (compact_device _ _ _ _ _ _ _) as [[db1 a1] b1]. simpl in Hinv1, Hsh1, Hstep.
  apply (IH db1 a1 b1 Hinv1).
  - pose proof (po_floor _ _ (li_prefix _ _ Hinv (chn s d))) as Hpf. pose proof (li_room _ _ Hinv (chn s d)).
    assert (cursor_of db (chn s d) = n) as Hcn by (unfold cursor_of; by rewrite Hcur).
    inversion Hstep as [E|t E|f mid Hra Hh Hroot E]; [by subst|apply (mid_rooted G CL); [done|done|lia]|].
    pose proof (ra_above _ _ _ _ _ _ _ Hra) as Hab.
    assert (rooted G mid) as Hmid by (apply (mid_rooted G CL); [done|done|lia]).
    destruct (device_mid now CL db (chn s d) n (fl_seq f) Hinv) as [_ Hq]. fold mid in Hq. apply lowered_rooted; [done| |].
    + exact (raised_compacted s me known cutoff CL db (chn s d) f mid Hinv Hq Hra Hh).
    + apply (root_at_rooted G mid); [done|lia|done].
  - intros d' n' Hin. rewrite (sh_cursors _ _ _ _ _ _ Hsh1). apply Hl. by right.
Qed.

Lemma ops_insert_at_rooted G CL op_id s me seq hlc inner kind ap rcv epoch key nonce sk db db' :
  log_inv W CL db → rooted G db → seq = next_seq db (chn s me) → seq < i64_max → op_by_id db op_id = None →
  ops_insert_at op_id s me seq hlc inner kind ap rcv epoch key nonce sk db = Some db' →
  ∃ G' buf, rooted G' db' ∧ grown G G' buf.
Proof.
  intros Hinv Hg Hseq Hroom Hid. unfold ops_insert_at. set (c := chn s me) in *.
  pose proof (writer_links_quiet s me seq db (li_wf _ _ Hinv)) as Hq. pose proof (rview_writer_links s me seq db) as Hv.
  destruct (writer_links s me seq db) as [db1 links]. simpl in Hq, Hv.
  pose proof (inv_quiet _ _ _ Hq Hinv) as Hinv1. assert (rooted G db1) as Hg1 by (by eapply rooted_frame).
  destruct (encode_chained_envelope _ _ _ _ _ _ _ _ _ _ _) as [buf|]; [|done].
  destruct (next_seq_spec db c) as (Hnone & Hge & Hfloor); [lia|]. rewrite <-Hseq in *.
  assert (ops db1 !! (c, seq) = None) as Hnone1.
  { apply eq_None_not_Some. rewrite (quiet_row _ _ _ Hq). by intros [r ?%(λ H, eq_trans (eq_sym H) Hnone)]. }
  rewrite bind_Some. intros ([db2 ?] & Hins & Hup). apply insert_cases in Hins as [(_ & -> & Hex)|(_ & _ & Hid1 & ->)].
  { exists G, buf. split; [|by left]. destruct Hex as [[r Hr]|[r Hr]]; [by pose proof (eq_trans (eq_sym Hr) Hnone1)|].
    exfalso. apply op_by_id_Some in Hr as [Hrid [p Hp]]. apply stored_lookup in Hp.
    destruct (view_inv _ _ (q_view _ _ Hq)) as (Hs & _). rewrite Hs, Hrid in Hp.
    eapply (op_by_id_None db op_id (r_envelope r)); [apply Hinv|done|by exists p]. }
  exists (extend G (c, seq) (hash_of_stored buf)), buf. split; [|right; by eexists].
  assert (held db1 (c, seq) = None ∧ ¬ below db1 (c, seq)) as [Hh Hb].
  { unfold held, below, floor_seq in *. simpl. rewrite (proj2 (stored_ops db1 _) Hnone1), (quiet_floor _ _ c Hq).
    destruct (floor_of db c) as [f|]; simpl in *; [rewrite decide_False by lia; split; [done|lia]|split; [done|lia]]. }
  pose proof (insert_rooted G db1 (c, seq) op_id buf (physical_ms hlc) kind ap Hg1 Hh Hb (li_prefix _ _ Hinv1)) as Hg2.
  assert (log_wf (on_ops <[(c, seq) := new_row op_id buf (physical_ms hlc) kind ap]> db1)) as Hwf2.
  { apply insert_wf; [apply Hinv1|]. intros env. by apply op_by_id_None; [apply Hinv1|]. }
  set (db2 := on_ops _ db1) in *. set (db3 := set_op_hash op_id (hash_of_stored buf) db2) in *.
  assert (log_wf db3) as Hwf3.
  { eapply (set_op_hash_wf _ _ _ (c, seq) (new_row op_id buf (physical_ms hlc) kind ap)); [done| |done|done].
    unfold db2. simpl. by rewrite lookup_insert_eq. }
  assert (rooted (extend G (c, seq) (hash_of_stored buf)) db3) as Hg3
    by (eapply rooted_frame; [apply rview_skel, skel_set_op_hash|done]).
  eapply (upsert_after _ CL db1); [exact Hinv1| | | | | |exact Hup].
  - by eapply rooted_frame; [|exact Hg3].
  - by apply (wf_frame db3).
  - done.
  - done.
  - intros p x. change (stored (on_outbox _ db3)) with (stored db3).
    destruct (view_inv _ _ (set_op_hash_view op_id (hash_of_stored buf) db2)) as (Hs & _). fold db3 in Hs. rewrite Hs.
    unfold db2. rewrite stored_insert. destruct (decide (p = (c, seq))) as [->|Hne]; [done|].
    rewrite lookup_insert_ne by done. apply Hinv1.
Qed.

End roots.

Section histories.
Context `{Ciborium, Crypto}.

(** ** Histories *)

Lemma hash_length buf : (∀ b, length (blake3 b) = 32%nat) → length (hash_of_stored buf) = 32%nat.
Proof.
  intros Hl. unfold hash_of_stored. destruct (decode_envelope buf) as [e|]; [|done].
  unfold op_hash. destruct (encode_cbor e Nothing); simpl; done.
Qed.

Lemma grown_length G G' buf :
  (∀ b, length (blake3 b) = 32%nat) → grown G G' buf → (∀ p, length (G p) = 32%nat) → ∀ p, length (G' p) = 32%nat.
Proof.
  intros Hl [->|[q ->]] Hg p; [done|]. unfold extend. case_decide; [by apply hash_length|done].
Qed.

Lemma history_rooted me CL V db :
  (∀ b, length (blake3 b) = 32%nat) → history me CL V db → ∃ G, rooted G db ∧ ∀ p, length (G p) = 32%nat.
Proof.
  intros Hl. induction 1 as [|CL U db buf e kind dg now db' b Hist (G & Hg & Hlen) Hd Hs Hn Ha
    |CL U db buf e now db' b Hist (G & Hg & Hlen) Hd Hs Hn Ha
    |CL U db op_id s hlc inner kind ap rcv epoch key nonce sk db' env Hist (G & Hg & Hlen) Hs Hid Hw Hst
    |CL U db m head stream policy now Hist (G & Hg & Hlen)].
  - exists (λ _, replicate 32 0). split; [|intros; by rewrite length_replicate].
    split; intros *; unfold held, stored, floor_of; simpl; rewrite ?fmap_empty, ?lookup_empty; done.
  - destruct (apply_remote_rooted (W := U) G CL db buf e kind dg now db' b) as (G' & Hg' & Hgr); try done; [by eapply history_inv|].
    exists G'. split; [done|by eapply grown_length].
  - destruct (park_op_rooted (W := U) G CL db buf e now db' b) as (G' & Hg' & Hgr); try done; [by eapply history_inv|].
    exists G'. split; [done|by eapply grown_length].
  - apply history_inv in Hist.
    destruct (ops_insert_at_rooted G CL _ _ _ _ _ _ _ _ _ _ _ _ _ _ _ Hist Hg eq_refl Hs Hid Hw) as (G' & buf & Hg' & Hgr).
    exists G'. split; [done|by eapply grown_length].
  - exists G. split; [|done]. unfold compact_stream. simpl. apply (compact_devices_rooted (W := U) G CL); [by eapply history_inv|done|].
    apply elem_of_all_cursors.
Qed.
End histories.
