(* ===== verification/ChainClaims.v ===== *)
(** * What a device can rely on of its op log

    The theorems about op chains, over every history of deliveries, writes and
    compactions, each with a run of the codec and primitives of [EnvelopeSeal]
    as its example. *)

From Stdlib Require Import ZArith Lia.
From stdpp Require Import base tactics decidable countable option gmap sorting strings numbers list.
From S2P Require Import Prelude Bytes Hlc Cbor Wire Registry Snapshot SnapshotDoc Envelope EnvelopeFacts EnvelopeSeal Chain ChainFacts ChainPrefix ChainEvidence Compaction ChainHistory CompactionFacts ChainReach ChainRoots.
Open Scope Z_scope.
#[local] Opaque compactable_kinds.

Section claims.
Context `{Ciborium, Crypto}.

(** C7: whatever a device received and wrote, in any order and across any
    number of compactions (no two ops sharing an id, and seqs below 2^63 - 1),
    no disagreement is lost: where a claimed hash is not that of the op it holds
    there, [fork_evidence] has it against that op, or the op is one this device
    wrote itself while the claim waited ([W]), which the code does not check,
    and then the claim waits in [chain_expected] still; where it holds no op,
    the claim is either below the compaction floor or waits in [chain_expected];
    and there is no false evidence: each row of [fork_evidence] holds an op that
    decodes and claims, in the row's own way, a hash other than the held one,
    and each expectation is named by an op this device holds, of an op it does
    not hold or of one it wrote so. *)
Theorem every_disagreement_is_evidence me CL W db :
  history me CL W db →
  (∀ p h x, CL p h → held db p = Some x → x ≠ h →
     (∃ k ev, fork_evidence db !! (p, k, h) = Some ev ∧ ev_held_hash ev = x) ∨
     (W p ∧ p.1.2 = me ∧ is_Some (chain_expected db !! (p, h)))) ∧
  (∀ p h, CL p h → held db p = None → below db p ∨ is_Some (chain_expected db !! (p, h))) ∧
  (∀ p k h ev, fork_evidence db !! (p, k, h) = Some ev →
     ev_held_hash ev ≠ h ∧ (held db p = Some (ev_held_hash ev) ∨ held db p = None ∧ below db p) ∧
     ∃ e, decode_envelope (ev_other_envelope ev) = Ok e ∧ claim_of k e p h) ∧
  (∀ p h by_, chain_expected db !! (p, h) = Some by_ →
     (held db p = None ∧ ¬ below db p ∨ W p) ∧
     ∃ env e, named_row db by_ env ∧ decode_envelope env = Ok e ∧ (claim_of Link e p h ∨ claim_of Head e p h)).
Proof.
  intros Hi. pose proof Hi as [_ [Hf Hw He Hk] _ _ _]%history_inv. split_and!; [|done|done|].
  - intros p h x Hcl Hx Hne. destruct (Hf p h x Hcl Hx Hne) as [?|[HW ?]]; [by left|right].
    split_and!; [done|by eapply history_overwritten|done].
  - intros p h b Hx. destruct (He _ _ _ Hx) as (? & env & e & k & ? & ? & ? & ?). split; [done|].
    exists env, e. split_and!; [done..|]. destruct k; [done|by left|by right].
Qed.

(** C9: a device's cursor in a stream is exactly how far its ops are held
    without a hole: every position up to it has its op or is covered by the
    compaction floor, the position after it has none, and the floor is never
    above it.  So what the Subscribe frame claims to have, the device has. *)
Theorem cursor_is_the_held_prefix me CL W db c :
  history me CL W db →
  (∀ k, 1 ≤ k ≤ cursor_of db c → is_Some (ops db !! (c, k)) ∨ k ≤ floor_seq db c) ∧
  ops db !! (c, cursor_of db c + 1) = None ∧ 0 ≤ floor_seq db c ≤ cursor_of db c ∧ cursor_of db c < i64_max.
Proof.
  intros Hinv%history_inv. destruct (li_prefix _ _ Hinv c). pose proof (li_room _ _ Hinv c). split_and!; done || lia.
Qed.

(** C10: compacting a stream raises a floor only to an op of that stream that is
    past its retention, below its device's tip and acknowledged by every known
    device, under that op's own hash; it deletes a row only at or below the
    floor, when it is applied, of a kind whose effect the merge state holds,
    neither parked nor part of a waiting group nor unsent; it changes no other
    row and no cursor, and no seq of the device is handed out again. *)
Theorem compaction_keeps_what_is_not_acknowledged me CL W db m head stream policy now db' :
  history me CL W db → (compact_stream m head me stream policy now db).1.1.1 = db' →
  (∀ c f, floor_of db' c = Some f → floor_of db c = Some f ∨
     c.1 = stream ∧ floor_seq db c < fl_seq f < cursor_of db c ∧
     (∀ k, k ∈ known_devices db m head me stream now (known_device_window_ms policy) → k ≠ me →
        fl_seq f ≤ ack_of db stream k c.2) ∧
     ∃ r, ops db !! (c, fl_seq f) = Some r ∧ r_ts_ms r ≤ sat_sub now (retention_ms policy) ∧
          fl_op_hash f = hash_of_stored (r_envelope r)) ∧
  (∀ p r, ops db !! p = Some r → ops db' !! p = None →
     p.1.1 = stream ∧ p.2 ≤ floor_seq db' p.1 ∧ r_inner_kind r ∈ compactable_kinds ∧ is_Some (r_applied_at r) ∧
     (r_op_id r ∉ parked_ops db) ∧ pending_groups db !! r_op_id r = None ∧ outbox db !! r_op_id r ≠ Some None) ∧
  (∀ p r', ops db' !! p = Some r' → ∃ r, ops db !! p = Some r ∧ op_of r = op_of r') ∧
  ∀ c, cursor_of db' c = cursor_of db c ∧ next_seq db c ≤ next_seq db' c.
Proof.
  intros Hinv%history_inv <-. destruct (compact_stream_spec CL m head me stream policy now db Hinv) as [_ Hsh].
  set (db' := (compact_stream _ _ _ _ _ _ _).1.1.1) in *. split_and!.
  - intros c f Hf. destruct (sh_floor _ _ _ _ _ _ Hsh c) as [Heq|(f' & Hf' & [])]; [left; by rewrite <-Heq|right].
    assert (f' = f) as -> by congruence. done.
  - intros p r Hr Hn. exact (sh_gone _ _ _ _ _ _ Hsh p r Hr Hn).
  - exact (sh_rows _ _ _ _ _ _ Hsh).
  - intros c. split; [eapply shrunk_cursor; exact Hsh|]. apply next_seq_mono; [eapply shrunk_floor_seq; exact Hsh|].
    intros n [r Hr]. destruct (ops db' !! (c, n)) as [r'|] eqn:E; [left; by eexists|right].
    exact (proj1 (proj2 (sh_gone _ _ _ _ _ _ Hsh (c, n) r Hr E))).
Qed.

(** C26: delivery may repeat: an op the log holds and has applied is not applied
    again, leaves no evidence, and changes neither what the chain rules read
    nor a cursor. *)
Theorem redelivery_changes_nothing me CL W db buf e h kind digest now :
  history me CL W db → decode_envelope buf = Ok e → op_hash e = Ok h → e_seq e < i64_max →
  physical_ms (e_hlc e) ≤ i64_max →
  stored db !! own_pos e = Some (op_id_of e, buf) → op_id_of e ∉ parked_ops db →
  ∃ db', apply_remote buf e kind digest now db = Some (db', false) ∧
         view db' = view db ∧ sync_cursors db' = sync_cursors db.
Proof.
  intros Hinv%history_inv Hd Hh Hseq Hts Hst Hpk. pose proof (li_wf _ _ Hinv) as Hwf.
  pose proof (own_pos_small e Hseq) as Hpos. destruct (stored_inv _ _ _ Hst) as (r & Hr & _).
  assert (check_covered e buf now db = Some (db, false)) as Hcov.
  { unfold check_covered. change (at_seq _ (e_seq e)) with (own_pos e). rewrite Hr. by repeat case_match. }
  unfold apply_remote. rewrite Hcov. cbn [mbind option_bind]. unfold insert.
  rewrite decide_False by lia. rewrite decide_True by (left; rewrite <-Hpos; by eexists). cbn [mbind option_bind].
  rewrite decide_True by done. unfold unpark. rewrite decide_False by tauto. unfold check_duplicate. rewrite Hh.
  destruct (held_op_hash_spec db (chn (e_stream_id e) (e_device_id e)) (e_seq e) Hwf) as (db1 & Heq & Hv & _).
  change (at_seq _ (e_seq e)) with (own_pos e) in Heq.
  assert (held db (own_pos e) = Some h) as Hheld by (unfold held; rewrite Hst; by rewrite (hash_of_decoded _ _ _ Hd Hh)).
  pose proof (held_op_hash_quiet db (chn (e_stream_id e) (e_device_id e)) (e_seq e) Hwf) as Hq.
  rewrite Heq in Hq |- *. rewrite Hheld, decide_True by done. exists db1. split_and!; [done|done|apply Hq].
Qed.

(** C8: what a stream digest compares.  Two devices, whatever each received,
    wrote and compacted, in whatever order, that store the same root for a
    device's first [n] ops hold the same op wherever both hold one of them, or
    two inputs of the chain step collide; and if they hold the same ops up to
    [n] their roots agree, so no divergence is reported between equal logs. *)
Theorem equal_roots_mean_equal_ops me1 me2 CL1 CL2 W1 W2 db1 db2 c n r1 r2 :
  (∀ b, length (blake3 b) = 32%nat) →
  history me1 CL1 W1 db1 → history me2 CL2 W2 db2 → 0 ≤ n < i64_max →
  root_at db1 c n = Some r1 → root_at db2 c n = Some r2 →
  (r1 = r2 →
   (∀ k x y, 1 ≤ k ≤ n → held db1 (c, k) = Some x → held db2 (c, k) = Some y → x = y) ∨
   ∃ a b, a ≠ b ∧ derive_key_32 CHAIN_STEP_CONTEXT a = derive_key_32 CHAIN_STEP_CONTEXT b) ∧
  ((∀ k, 1 ≤ k ≤ n → ∃ x, held db1 (c, k) = Some x ∧ held db2 (c, k) = Some x) → r1 = r2).
Proof.
  intros Hl H1 H2 Hn Hr1 Hr2. destruct (history_rooted _ _ _ _ Hl H1) as (G1 & Hg1 & Hl1).
  destruct (history_rooted _ _ _ _ Hl H2) as (G2 & Hg2 & Hl2).
  rewrite (root_at_rooted G1 db1 c n r1 Hg1 Hn Hr1), (root_at_rooted G2 db2 c n r2 Hg2 Hn Hr2). split.
  - intros Heq. destruct (chain_fold_inj G1 G2 c _ Hl1 Hl2 Heq) as [Hk|?]; [left|by right].
    intros k x y Hkn Hx Hy. rewrite <-(rt_held _ _ Hg1 _ _ Hx), <-(rt_held _ _ Hg2 _ _ Hy). apply Hk. lia.
  - intros Hall. apply chain_fold_ext. intros k Hk. destruct (Hall k) as (x & Hx & Hy); [lia|].
    by rewrite (rt_held _ _ Hg1 _ _ Hx), (rt_held _ _ Hg2 _ _ Hy).
Qed.
End claims.

(** ** A run *)

#[local] Existing Instance tree_codec.

(** The primitives of [EnvelopeSeal] with a hash of 32 bytes, a checksum. *)
#[local] Instance demo_crypto : Crypto := {|
  blake3 b := replicate 32 (foldl (λ a x, (a * 31 + x) mod 251) 7 b);
  derive_key := @derive_key toy_crypto;
  public_key := @public_key toy_crypto;
  sign := @sign toy_crypto;
  verify_ed25519 := @verify_ed25519 toy_crypto;
  aead_seal_xchacha := @aead_seal_xchacha toy_crypto;
  aead_open_xchacha := @aead_open_xchacha toy_crypto;
|}.

Definition demo_stream : bytes := replicate 16 1.
Definition demo_peer : bytes := replicate 16 2.
Definition demo_me : bytes := replicate 16 9.

Definition demo_env (seq : Z) (prev : option bytes) : OpEnvelope :=
  mkOpEnvelope 3 demo_stream demo_peer seq (mkHlc (1000 * seq) 0) AeadAlgId.XChaCha20Poly1305
    SigAlgId.Ed25519 1 (replicate 24 9) [seq] (replicate 64 0) 22 (doc_schema_fp_prefix 22) prev [] ∅.
Definition demo_buf (seq : Z) (prev : option bytes) : bytes :=
  match seal_envelope (demo_env seq prev) (Some [7]) [8] with Ok b => b | Err _ => [] end.
Definition demo_read (b : bytes) : OpEnvelope := match decode_envelope b with Ok e => e | Err _ => blank end.

(** The peer's first three ops, the second naming a first op it is not. *)
Definition demo_kind (seq : Z) : string := if decide (seq = 1) then DIGEST_KIND else "task.create"%string.
Definition demo_bufs : list bytes := [demo_buf 1 None; demo_buf 2 (Some (replicate 32 5)); demo_buf 3 None].
Definition demo_step (db : Log) (b : bytes) : Log :=
  match apply_remote b (demo_read b) (demo_kind (e_seq (demo_read b))) None 5000 db with Some (db', _) => db' | None => db end.
Definition demo_log : Log := foldl demo_step empty_log demo_bufs.

Definition demo_claims (CL : Pos → bytes → Prop) (b : bytes) : Pos → bytes → Prop := plus CL (all_claims (demo_read b)).

(** [no_clash], as a check of the rows. *)
Definition clash_free (db : Log) (e : OpEnvelope) : bool :=
  forallb (λ '(p, r), bool_decide (r_op_id r = op_id_of e → p = own_pos e)) (map_to_list (ops db)).
Lemma clash_free_sound db e : clash_free db e = true → no_clash db e.
Proof.
  unfold clash_free. rewrite forallb_forall. intros Hall p env Hp. apply stored_inv in Hp as (r & Hr & [= Hid ->]).
  apply elem_of_map_to_list in Hr. apply list_elem_of_In, Hall, bool_decide_eq_true in Hr. by apply Hr.
Qed.

(** Delivering [b] applies it. *)
Definition applies (db : Log) (b : bytes) : bool :=
  match decode_envelope b with Ok _ => true | Err _ => false end &&
  bool_decide (e_seq (demo_read b) < i64_max) && clash_free db (demo_read b) &&
  match apply_remote b (demo_read b) (demo_kind (e_seq (demo_read b))) None 5000 db with Some (_, b) => b | None => false end.
Lemma applies_history CL W db b :
  applies db b = true → history demo_me CL W db → history demo_me (demo_claims CL b) W (demo_step db b).
Proof.
  unfold applies, demo_step, demo_claims. rewrite !andb_true_iff, bool_decide_eq_true. intros [[[Hd Hs] Hc] Ha] Hh.
  destruct (apply_remote _ _ _ _ _ _) as [[db' []]|] eqn:E; try done.
  eapply (history_applied demo_me CL W db b (demo_read b) _ None 5000 db' true); [done| |done|by apply clash_free_sound|done].
  unfold demo_read in *. by destruct (decode_envelope b).
Qed.

Lemma demo_history : history demo_me (foldl demo_claims (λ _ _, False) demo_bufs) (λ _, False) demo_log.
Proof.
  unfold demo_log, demo_bufs. simpl. apply applies_history; [by vm_compute|].
  apply applies_history; [by vm_compute|]. apply applies_history; [by vm_compute|]. apply history_empty.
Qed.

Definition demo_pos : Pos := (chn demo_stream demo_peer, 1).

(** The peer named [5..] at its seq 1, where this device holds another op. *)
Lemma every_disagreement_is_evidence_witness :
  foldl demo_claims (λ _ _, False) demo_bufs demo_pos (replicate 32 5) ∧
  ∃ k ev, fork_evidence demo_log !! (demo_pos, k, replicate 32 5) = Some ev ∧
          Some (ev_held_hash ev) = held demo_log demo_pos.
Proof.
  assert (foldl demo_claims (λ _ _, False) demo_bufs demo_pos (replicate 32 5)) as Hcl.
  { left. right. apply (bool_decide_unpack _). by vm_compute. }
  split; [exact Hcl|]. destruct (held demo_log demo_pos) as [x|] eqn:E; [|vm_compute in E; discriminate].
  destruct (proj1 (every_disagreement_is_evidence _ _ _ _ demo_history) demo_pos (replicate 32 5) x Hcl E) as [(k & ev & Hev & Hx)|[[] _]].
  - vm_compute in E. injection E as <-. discriminate.
  - exists k, ev. split; [exact Hev|by rewrite Hx].
Defined.

Lemma cursor_is_the_held_prefix_witness :
  cursor_of demo_log (chn demo_stream demo_peer) = 3 ∧ ops demo_log !! (chn demo_stream demo_peer, 3 + 1) = None.
Proof.
  assert (cursor_of demo_log (chn demo_stream demo_peer) = 3) as Hc by by vm_compute.
  split; [exact Hc|]. rewrite <-Hc at 1.
  exact (proj1 (proj2 (cursor_is_the_held_prefix _ _ _ _ (chn demo_stream demo_peer) demo_history))).
Defined.

(** With no other member, the first op is a digest past a retention of zero and
    below the tip. *)
Definition demo_compacted : Log :=
  (compact_stream (mkMembers ∅ ∅) [] demo_me demo_stream (mkPolicy 4000 0 0) 5000 demo_log).1.1.1.

Lemma compaction_keeps_what_is_not_acknowledged_witness :
  floor_seq demo_compacted (chn demo_stream demo_peer) = 1 ∧ ops demo_compacted !! demo_pos = None ∧
  ∃ r, ops demo_log !! demo_pos = Some r ∧ r_inner_kind r ∈ compactable_kinds ∧ demo_pos.2 ≤ floor_seq demo_compacted demo_pos.1.
Proof.
  assert (ops demo_compacted !! demo_pos = None) as Hn by by vm_compute.
  split; [by vm_compute|]. split; [exact Hn|].
  destruct (ops demo_log !! demo_pos) as [r|] eqn:E; [|vm_compute in E; discriminate]. exists r. split; [done|].
  destruct (compaction_keeps_what_is_not_acknowledged _ _ _ _ (mkMembers ∅ ∅) [] demo_stream (mkPolicy 4000 0 0) 5000 demo_compacted
    demo_history eq_refl) as (_ & Hgone & _).
  destruct (Hgone demo_pos r E Hn) as (_ & Hle & Hk & _). exact (conj Hk Hle).
Defined.

Lemma redelivery_changes_nothing_witness :
  ∃ db', apply_remote (demo_buf 1 None) (demo_read (demo_buf 1 None)) DIGEST_KIND None 6000 demo_log = Some (db', false) ∧
         view db' = view demo_log ∧ sync_cursors db' = sync_cursors demo_log.
Proof.
  destruct (op_hash (demo_read (demo_buf 1 None))) as [h|] eqn:E; [|vm_compute in E; discriminate].
  apply (redelivery_changes_nothing demo_me _ _ demo_log (demo_buf 1 None) (demo_read (demo_buf 1 None)) h _ None 6000 demo_history).
  - by vm_compute.
  - exact E.
  - by vm_compute.
  - by vm_compute.
  - by vm_compute.
  - by vm_compute.
Defined.

(** Another device, which received the three ops last first. *)
Definition demo_log_late : Log := foldl demo_step empty_log (rev demo_bufs).
Lemma demo_history_late : history demo_me (foldl demo_claims (λ _ _, False) (rev demo_bufs)) (λ _, False) demo_log_late.
Proof.
  unfold demo_log_late, demo_bufs. cbn [rev app foldl]. apply applies_history; [by vm_compute|].
  apply applies_history; [by vm_compute|]. apply applies_history; [by vm_compute|]. apply history_empty.
Qed.

Lemma equal_roots_mean_equal_ops_witness :
  ∃ r, root_at demo_log (chn demo_stream demo_peer) 3 = Some r ∧ root_at demo_log_late (chn demo_stream demo_peer) 3 = Some r ∧
  ((∀ k x y, 1 ≤ k ≤ 3 → held demo_log (chn demo_stream demo_peer, k) = Some x →
      held demo_log_late (chn demo_stream demo_peer, k) = Some y → x = y) ∨
   ∃ a b, a ≠ b ∧ derive_key_32 CHAIN_STEP_CONTEXT a = derive_key_32 CHAIN_STEP_CONTEXT b).
Proof.
  destruct (root_at demo_log (chn demo_stream demo_peer) 3) as [r1|] eqn:E1; [|vm_compute in E1; discriminate].
  destruct (root_at demo_log_late (chn demo_stream demo_peer) 3) as [r2|] eqn:E2; [|vm_compute in E2; discriminate].
  assert (r1 = r2) as Hr by (vm_compute in E1, E2; congruence).
  exists r1. split; [done|]. split; [by rewrite Hr|].
  refine (proj1 (equal_roots_mean_equal_ops _ _ _ _ _ _ demo_log demo_log_late _ 3 r1 r2 _ demo_history demo_history_late _ E1 E2) Hr).
  - intros b. apply length_replicate.
  - split; [lia|by vm_compute].
Defined.

(** ** A write of this device's own is not checked *)

(** The peer's first op lists an op of this device at its seq 1. *)
Definition demo_heads_buf : bytes :=
  match seal_envelope (set_heads [mkChainHead demo_me 1 (replicate 32 6)] (demo_env 1 None)) (Some [7]) [8] with
  | Ok b => b | Err _ => [] end.
Definition demo_named_log : Log := demo_step empty_log demo_heads_buf.
Definition demo_written : option Log :=
  ops_insert_at (replicate 16 4) demo_stream demo_me (next_seq demo_named_log (chn demo_stream demo_me)) (mkHlc 9000 0) [1]
    "task.create" (Some 9000) 9000 1 [7] (replicate 24 9) [8] demo_named_log.

(** A device that lost its own first op writes another one there: the
    expectation a peer's op left stays, beside an op that is not the expected
    one, and nothing records that they disagree. *)
Example local_write_is_not_checked :
  match demo_written with
  | Some db =>
      match held db (chn demo_stream demo_me, 1) with
      | Some x => bool_decide (x ≠ replicate 32 6) &&
                  bool_decide (is_Some (chain_expected db !! ((chn demo_stream demo_me, 1), replicate 32 6))) &&
                  bool_decide (fork_evidence db = ∅)
      | None => false
      end
  | None => false
  end = true.
Proof. by vm_compute. Qed.
