(* ===== verification/CanonFacts.v ===== *)
(** * Canonical bytes are read back

    What ciborium's reader finds in bytes the canonical encoder wrote: the
    tree in canonical form, at the depth and with the contents it had. *)

From Stdlib Require Import ZArith Lia.
From stdpp Require Import base tactics decidable countable option gmap sorting strings numbers list.
From S2P Require Import Prelude Bytes Cbor Wire Envelope EnvelopeFacts.
Open Scope Z_scope.

#[export] Instance list_max_perm : Proper ((≡ₚ) ==> (=)) list_max.
Proof. induction 1; simpl; try done; [by f_equal|lia|congruence]. Qed.

Lemma forallb_perm {A} (f : A → bool) l k : l ≡ₚ k → forallb f l = forallb f k.
Proof. induction 1; simpl; [done|by f_equal| |congruence]. by rewrite !andb_assoc, (andb_comm (f y)). Qed.

Section canonical.
Context `{Ciborium}.
Local Abbreviation canonicalize := (canonicalize into_writer).

Lemma depth_canonicalize v : depth (canonicalize v) = depth v.
Proof.
  induction v as [| | | | | |t v IH|l IH|l IH] using Value_ind; try done; simpl; f_equal; try done.
  - f_equal. rewrite map_map. apply map_ext_in. intros x Hx%list_elem_of_In.
    rewrite Forall_forall in IH. by apply IH.
  - rewrite isort_Permutation, map_map. f_equal. apply map_ext_in. intros [k x] Hx%list_elem_of_In.
    rewrite Forall_forall in IH. f_equal. exact (proj2 (IH _ Hx)).
Qed.

Lemma no_bignum_canonicalize v : no_bignum (canonicalize v) = no_bignum v.
Proof.
  induction v as [| | | | | |t v IH|l IH|l IH] using Value_ind; try done; simpl; [by f_equal| |].
  - induction IH as [|x l Hx _ IH]; [done|]. simpl. by rewrite Hx, IH.
  - rewrite (forallb_perm _ _ _ (isort_Permutation _ _)).
    induction IH as [|[k x] l [_ Hx] _ IH]; [done|]. simpl in *. by rewrite Hx, IH.
Qed.

(** Two maps with one canonical form hold the same entries. *)
Lemma canonical_entries l k e :
  canonicalize (VMap l) = canonicalize (VMap k) →
  e ∈ map (λ '(k, v), (k, canonicalize v)) l → e ∈ map (λ '(k, v), (k, canonicalize v)) k.
Proof.
  cbn [Cbor.canonicalize]. intros Heq%(f_equal as_map)%(inj Some).
  by rewrite <-(elem_of_isort (entry_le into_writer) e), Heq, elem_of_isort.
Qed.

Context `{!CiboriumLaws}.

Lemma encoded_reads_back limit v out :
  (depth v ≤ limit)%nat → no_bignum v = true → contains_float v = false →
  encode_canonical into_writer Some v = Ok out → from_reader limit out = Ok (canonicalize v, []).
Proof.
  intros Hd Hb Hf. unfold encode_canonical, write. simpl. destruct (into_writer _) as [o []] eqn:E; [|done].
  intros [= <-]. apply reads_back; [by rewrite depth_canonicalize|by rewrite no_bignum_canonicalize| |done].
  by rewrite contains_float_canonicalize.
Qed.

(** The strict decoder gives back what the canonical encoder wrote. *)
Lemma canonical_decodes v out :
  (depth v ≤ MAX_DOC_DEPTH)%nat → no_bignum v = true → contains_float v = false →
  encode_canonical into_writer Some v = Ok out →
  decode_canonical into_writer Some from_reader out = Ok (canonicalize v).
Proof.
  intros Hd Hb Hf He. unfold decode_canonical. apply decode_canonical_within_Ok. split.
  - unfold decode_bounded. by rewrite (encoded_reads_back MAX_DOC_DEPTH v).
  - revert He. unfold encode_canonical. simpl.
    by rewrite (canonicalize_id into_writer (canonicalize v)) by apply canonicalize_is_canonical.
Qed.

(** Two trees with the same canonical bytes have the same canonical form. *)
Lemma encoded_inj v w out :
  (depth v ≤ MAX_DOC_DEPTH)%nat → no_bignum v = true → contains_float v = false →
  (depth w ≤ MAX_DOC_DEPTH)%nat → no_bignum w = true → contains_float w = false →
  encode_canonical into_writer Some v = Ok out → encode_canonical into_writer Some w = Ok out →
  canonicalize v = canonicalize w.
Proof.
  intros ? ? ? ? ? ? Hv Hw. apply (encoded_reads_back MAX_DOC_DEPTH) in Hv, Hw; try done. congruence.
Qed.
End canonical.
