(* ===== verification/DeviceCert.v ===== *)
(** * Device certificates (sunrise-crypto/src/device_cert, identity.rs)

    The certificate an identity signs for each of its devices.  Its body
    travels as a byte string, and the signature covers those bytes. *)

From Stdlib Require Import ZArith Lia.
From stdpp Require Import base tactics decidable countable option gmap strings numbers list.
From S2P Require Import Prelude Bytes Cbor Envelope EnvelopeFacts.
Open Scope Z_scope.

Definition DEVICE_CERT_DOMAIN : bytes := text_bytes "sunrise.device_cert.v1".
Definition MAX_NICKNAME_BYTES : nat := 64.

Record DeviceCertInner := mkInner {
  dc_v : Z;
  dc_device_id : bytes;
  dc_d_s_pub : bytes;
  dc_d_d_pub : bytes;
  dc_identity_id : bytes;
  dc_created_at_ms : Z;
  dc_nickname : string;
  dc_platform : string;
}.

Record DeviceCert := mkCert { dc_body : DeviceCertInner; dc_sig : bytes; dc_body_bytes : bytes }.

Module CertError.
Inductive t := Cbor | BadField (what : string) | SigVerify | IdentityMismatch | Validation (what : string).
End CertError.

(** A fixed-width array read from a slice: [try_into]. *)
Definition fixed_width (n : nat) (b : bytes) : option bytes :=
  if decide (length b = n) then Some b else None.

Section ids.
Context `{Crypto}.
Definition identity_id_from_pub (id_s_pub : bytes) : bytes := derive_key "sunrise.identity_id.v1" id_s_pub 16.
Definition device_id_from_pub (d_s_pub : bytes) : bytes := derive_key "sunrise.device_id.v1" d_s_pub 16.
End ids.

(** ** The body's fields (codec.rs) *)

Definition bad_nickname (s : string) : bool :=
  bool_decide (s = ""%string) || bool_decide (MAX_NICKNAME_BYTES < String.length s)%nat.

Definition body_fields (body : DeviceCertInner) : list (Value * Value) :=
  [(Integer 1, Integer (dc_v body)); (Integer 2, Bytes (dc_device_id body));
   (Integer 3, Bytes (dc_d_s_pub body)); (Integer 4, Bytes (dc_d_d_pub body));
   (Integer 5, Bytes (dc_identity_id body)); (Integer 6, Integer (dc_created_at_ms body));
   (Integer 7, Text (dc_nickname body)); (Integer 8, Text (dc_platform body))].

Definition empty_inner : DeviceCertInner :=
  mkInner 0 (replicate 16 0) (replicate 32 0) (replicate 32 0) (replicate 16 0) 0 "" "".

(** One entry of the body's map: the new body, and the field it filled in.
    A field the code does not know changes nothing. *)
Definition body_field (b : DeviceCertInner) (id : Z) (v : Value) :
    result CertError.t (DeviceCertInner * option Z) :=
  let shape := Err (CertError.BadField "body field shape") in
  match id, v with
  | 1, Integer raw =>
      if decide (0 ≤ raw ≤ u32_max) then
        Ok (mkInner raw (dc_device_id b) (dc_d_s_pub b) (dc_d_d_pub b) (dc_identity_id b)
              (dc_created_at_ms b) (dc_nickname b) (dc_platform b), Some 1)
      else Err (CertError.BadField "v")
  | 2, Bytes x =>
      if decide (length x = 16%nat) then
        Ok (mkInner (dc_v b) x (dc_d_s_pub b) (dc_d_d_pub b) (dc_identity_id b)
              (dc_created_at_ms b) (dc_nickname b) (dc_platform b), Some 2)
      else shape
  | 3, Bytes x =>
      if decide (length x = 32%nat) then
        Ok (mkInner (dc_v b) (dc_device_id b) x (dc_d_d_pub b) (dc_identity_id b)
              (dc_created_at_ms b) (dc_nickname b) (dc_platform b), Some 3)
      else shape
  | 4, Bytes x =>
      if decide (length x = 32%nat) then
        Ok (mkInner (dc_v b) (dc_device_id b) (dc_d_s_pub b) x (dc_identity_id b)
              (dc_created_at_ms b) (dc_nickname b) (dc_platform b), Some 4)
      else shape
  | 5, Bytes x =>
      if decide (length x = 16%nat) then
        Ok (mkInner (dc_v b) (dc_device_id b) (dc_d_s_pub b) (dc_d_d_pub b) x
              (dc_created_at_ms b) (dc_nickname b) (dc_platform b), Some 5)
      else shape
  | 6, Integer raw =>
      if decide (0 ≤ raw ≤ u64_max) then
        Ok (mkInner (dc_v b) (dc_device_id b) (dc_d_s_pub b) (dc_d_d_pub b) (dc_identity_id b)
              raw (dc_nickname b) (dc_platform b), Some 6)
      else Err (CertError.BadField "created_at")
  | 7, Text s =>
      Ok (mkInner (dc_v b) (dc_device_id b) (dc_d_s_pub b) (dc_d_d_pub b) (dc_identity_id b)
            (dc_created_at_ms b) s (dc_platform b), Some 7)
  | 8, Text s =>
      Ok (mkInner (dc_v b) (dc_device_id b) (dc_d_s_pub b) (dc_d_d_pub b) (dc_identity_id b)
            (dc_created_at_ms b) (dc_nickname b) s, Some 8)
  | id, _ => if decide (1 ≤ id ≤ 8) then shape else Ok (b, None)
  end.

Fixpoint body_entries (b : DeviceCertInner) (got : list Z) (map : list (Value * Value)) :
    result CertError.t (DeviceCertInner * list Z) :=
  match map with
  | [] => Ok (b, got)
  | (Integer id, v) :: map' =>
      try (b', filled) <- body_field b id v;
      body_entries b' (got ++ option_list filled) map'
  | _ :: _ => Err CertError.Cbor
  end.

(** The outer map's entries: the body's bytes and the signature. *)
Fixpoint cert_entries (body_bytes sig : option bytes) (map : list (Value * Value)) :
    result CertError.t (option bytes * option bytes) :=
  match map with
  | [] => Ok (body_bytes, sig)
  | (Integer id, v) :: map' =>
      match id, v with
      | 1, Bytes b => cert_entries (Some b) sig map'
      | 2, Bytes b =>
          if decide (length b = 64%nat) then cert_entries body_bytes (Some b) map'
          else Err (CertError.BadField "device cert outer")
      | id, _ =>
          if decide (1 ≤ id ≤ 2) then Err (CertError.BadField "device cert outer")
          else cert_entries body_bytes sig map'
      end
  | _ :: _ => Err CertError.Cbor
  end.

Section cert.
Context `{Ciborium, Crypto}.

(** One whole item that is a map ([decode_value], then nothing left). *)
Definition whole_map (input : bytes) : result CertError.t (list (Value * Value)) :=
  match from_reader MAX_VALUE_DEPTH input with
  | Ok (VMap m, []) => Ok m
  | _ => Err CertError.Cbor
  end.

Definition write_map (m : list (Value * Value)) : result CertError.t bytes :=
  match into_writer (VMap m) with
  | (out, true) => Ok out
  | (_, false) => Err CertError.Cbor
  end.

Definition body_to_cbor (body : DeviceCertInner) : result CertError.t bytes :=
  if bad_nickname (dc_nickname body) then Err (CertError.Validation "nickname length")
  else write_map (body_fields body).

Definition body_from_cbor (input : bytes) : result CertError.t DeviceCertInner :=
  try m <- whole_map input;
  try (b, got) <- body_entries empty_inner [] m;
  if decide (Forall (λ id, id ∈ got) [1; 2; 3; 4; 5; 6; 7; 8]) then
    if bad_nickname (dc_nickname b) then Err (CertError.Validation "nickname length") else Ok b
  else Err (CertError.BadField "missing body field").

Definition cert_sig_input (body_bytes : bytes) : bytes := DEVICE_CERT_DOMAIN ++ blake3 body_bytes.

Definition issue (body : DeviceCertInner) (identity_signing : bytes) : result CertError.t DeviceCert :=
  try body_bytes <- body_to_cbor body;
  Ok (mkCert body (sign identity_signing (cert_sig_input body_bytes)) body_bytes).

Definition verify_cert (c : DeviceCert) (id_s_pub : bytes) : result CertError.t unit :=
  if verify_ed25519 id_s_pub (cert_sig_input (dc_body_bytes c)) (dc_sig c) then Ok tt
  else Err CertError.SigVerify.

Definition verify_binding (c : DeviceCert) (id_s_pub expected_identity_id : bytes) : result CertError.t unit :=
  try _ <- verify_cert c id_s_pub;
  let derived := identity_id_from_pub id_s_pub in
  if decide (derived = dc_identity_id (dc_body c) ∧ derived = expected_identity_id) then Ok tt
  else Err CertError.IdentityMismatch.

Definition cert_to_cbor (c : DeviceCert) : result CertError.t bytes :=
  write_map [(Integer 1, Bytes (dc_body_bytes c)); (Integer 2, Bytes (dc_sig c))].

Definition cert_from_cbor (input : bytes) : result CertError.t DeviceCert :=
  try m <- whole_map input;
  try (body_bytes, sig) <- cert_entries None None m;
  try body_bytes <- ok_or body_bytes (CertError.BadField "body");
  try body <- body_from_cbor body_bytes;
  try sig <- ok_or sig (CertError.BadField "sig");
  Ok (mkCert body sig body_bytes).
End cert.

(** ** What is issued is read back, and verifies under its issuer *)

Record inner_wf (b : DeviceCertInner) : Prop := {
  iw_v : in_u32 (dc_v b);
  iw_device : length (dc_device_id b) = 16%nat;
  iw_ds : length (dc_d_s_pub b) = 32%nat;
  iw_dd : length (dc_d_d_pub b) = 32%nat;
  iw_identity : length (dc_identity_id b) = 16%nat;
  iw_created : in_u64 (dc_created_at_ms b);
}.

Section facts.
Context `{Ciborium, !CiboriumLaws, Crypto, !CryptoLaws}.

Lemma whole_map_written m out :
  (depth (VMap m) ≤ MAX_VALUE_DEPTH)%nat → no_bignum (VMap m) = true → contains_float (VMap m) = false →
  write_map m = Ok out → whole_map out = Ok m.
Proof.
  intros Hd Hb Hf. unfold write_map, whole_map. destruct (into_writer _) as [o []] eqn:E; [|done].
  intros [= <-]. by rewrite (reads_back _ _ _ Hd Hb Hf E).
Qed.

Lemma body_reads_back b out : inner_wf b → body_to_cbor b = Ok out → body_from_cbor out = Ok b.
Proof.
  intros [Hv Hd Hs Hdd Hi Hc]. unfold body_to_cbor, body_from_cbor.
  destruct (bad_nickname (dc_nickname b)) eqn:En; [done|]. intros Hw.
  rewrite (whole_map_written (body_fields b)) by (done || (vm_compute; lia)).
  unfold body_fields. simpl. rewrite (decide_True (P := 0 ≤ dc_v b ≤ u32_max)) by exact Hv. simpl.
  rewrite (decide_True (P := length (dc_device_id b) = 16%nat)) by done. simpl.
  rewrite (decide_True (P := length (dc_d_s_pub b) = 32%nat)) by done. simpl.
  rewrite (decide_True (P := length (dc_d_d_pub b) = 32%nat)) by done. simpl.
  rewrite (decide_True (P := length (dc_identity_id b) = 16%nat)) by done. simpl.
  rewrite (decide_True (P := 0 ≤ dc_created_at_ms b ≤ u64_max)) by exact Hc. simpl.
  rewrite En. by destruct b.
Qed.

(** A certificate an identity issues is read back as it was issued, verifies
    under that identity's key, and is bound to the identity exactly when its
    body names it. *)
Lemma issued_cert_reads_back b sk c out :
  inner_wf b → issue b sk = Ok c → cert_to_cbor c = Ok out →
  cert_from_cbor out = Ok c ∧ verify_cert c (public_key sk) = Ok tt ∧
  (verify_binding c (public_key sk) (dc_identity_id b) = Ok tt ↔
   dc_identity_id b = identity_id_from_pub (public_key sk)).
Proof.
  intros Hb. unfold issue. destruct (body_to_cbor b) as [bb|] eqn:Eb; simpl; [|done]. intros [= <-] Ho.
  assert (verify_cert (mkCert b (sign sk (cert_sig_input bb)) bb) (public_key sk) = Ok tt) as Hv
    by (unfold verify_cert; simpl; by rewrite verify_sign).
  split_and!; [|done|].
  - unfold cert_from_cbor, cert_to_cbor in *.
    apply whole_map_written in Ho as ->; [|vm_compute; lia|done|done]. simpl.
    rewrite (decide_True (P := length _ = 64%nat)) by apply length_sign. simpl.
    by rewrite (body_reads_back b bb).
  - unfold verify_binding. rewrite Hv. simpl. case_decide; naive_solver.
Qed.
End facts.

(** What the decoder accepts has a body of the widths the types give it. *)
Lemma body_field_wf b id v b' f : inner_wf b → body_field b id v = Ok (b', f) → inner_wf b'.
Proof.
  intros Hb Hf. destruct Hb. unfold body_field in Hf.
  repeat (case_match; simplify_eq; try done); by constructor.
Qed.
Lemma body_entries_wf b got m b' got' : inner_wf b → body_entries b got m = Ok (b', got') → inner_wf b'.
Proof.
  revert b got. induction m as [|[k v] m IH]; intros b got Hb; simpl; [by intros [= <- _]|].
  destruct k; try done. destruct (body_field b n v) as [[b1 f]|] eqn:E; simpl; [|done].
  apply IH. by eapply body_field_wf.
Qed.
Lemma cert_from_cbor_wf `{Ciborium} input c : cert_from_cbor input = Ok c → inner_wf (dc_body c).
Proof.
  unfold cert_from_cbor, body_from_cbor. destruct (whole_map input) as [m|]; simpl; [|done].
  destruct (cert_entries None None m) as [[[bb|] sig]|]; simpl; try done.
  destruct (whole_map bb) as [m2|]; simpl; [|done].
  destruct (body_entries empty_inner [] m2) as [[b got]|] eqn:E; simpl; [|done].
  case_decide; [|done]. case_match; [done|]. simpl. destruct sig; simpl; [|done]. intros [= <-]. simpl.
  eapply body_entries_wf; [|exact E]. by constructor; vm_compute.
Qed.
