(* ===== verification/Transition.v ===== *)
(** * Identity transitions (sunrise-crypto/src/identity_transition.rs)

    The signed hand-over from an identity to its successor: the body, the
    digests by which it commits to the roster and to the sealed shares, and
    the two signatures taken over it, one after the other. *)

From Stdlib Require Import ZArith Lia.
From stdpp Require Import base tactics decidable countable option gmap sorting strings numbers list.
From S2P Require Import Prelude Bytes Cbor Envelope DeviceCert.
Open Scope Z_scope.

Definition PREV_DOMAIN : bytes := text_bytes "sunrise.identity_transition.v1".
Definition SUCC_DOMAIN : bytes := text_bytes "sunrise.identity_transition.succ.v1".
Definition ROSTER_DOMAIN : bytes := text_bytes "sunrise.identity_roster.v1".
Definition SHARES_DOMAIN : bytes := text_bytes "sunrise.identity_shares.v1".

Definition HPKE_ENC_LEN : nat := 32.
Definition HPKE_TAG_LEN : nat := 16.
Definition DEVICE_SHARE_LEN : nat := HPKE_ENC_LEN + 32 + HPKE_TAG_LEN.
Definition IDENTITY_SHARE_LEN : nat := HPKE_ENC_LEN + 64 + HPKE_TAG_LEN.

Record IdentityTransitionBody := mkBody {
  tb_from : bytes;
  tb_to : bytes;
  tb_to_id_s_pub : bytes;
  tb_to_id_d_pub : bytes;
  tb_roster_digest : bytes;
  tb_shares_digest : bytes;
}.
#[export] Instance IdentityTransitionBody_eq_dec : EqDecision IdentityTransitionBody.
Proof. solve_decision. Defined.

Record IdentityTransitionSigs := mkSigs { prev_sig : bytes; next_sig : bytes }.
#[export] Instance IdentityTransitionSigs_eq_dec : EqDecision IdentityTransitionSigs.
Proof. solve_decision. Defined.

Module TransitionError.
Inductive t :=
  | Cbor
  | RosterCert (index : nat)
  | RosterDuplicate (device : bytes)
  | RosterTooLarge
  | ShareLen (device : bytes) (len : nat)
  | ShareDuplicate (device : bytes)
  | IdentityShareLen (len : nat)
  | FromIdentityMismatch
  | ToIdentityMismatch
  | NotATransition
  | PrevSigVerify
  | NextSigVerify.
End TransitionError.
Import TransitionError.

(** Four bytes in lower-case hexadecimal, as their ASCII codes. *)
Definition hex_digit (n : Z) : Z := if decide (n < 10) then 48 + n else 97 + (n - 10).
Definition hex16 (id : bytes) : bytes := take 4 id ≫= λ b, [hex_digit (b / 16); hex_digit (b mod 16)].

(** ** The digests *)

(** Entries in the order of their device ids. *)
Definition entry_id_le (a b : bytes * bytes) : Prop := a.1 ≼ b.1.
#[export] Instance entry_id_le_dec : RelDecision entry_id_le.
Proof. intros a b. unfold entry_id_le. apply _. Defined.

(** The first of two neighbours with one device id ([windows(2)]). *)
Fixpoint repeated (entries : list (bytes * bytes)) : option bytes :=
  match entries with
  | a :: (b :: _) as rest => if decide (a.1 = b.1) then Some a.1 else repeated rest
  | _ => None
  end.

(** A length in four big-endian bytes, when it fits ([u32::try_from]). *)
Definition u32_be (n : nat) : option bytes :=
  if decide (Z.of_nat n ≤ u32_max) then Some (be_encode 4 (Z.of_nat n)) else None.

Fixpoint roster_records (entries : list (bytes * bytes)) : result TransitionError.t bytes :=
  match entries with
  | [] => Ok []
  | (device_id, cert) :: entries' =>
      try len <- ok_or (u32_be (length cert)) RosterTooLarge;
      try rest <- roster_records entries';
      Ok (device_id ++ len ++ cert ++ rest)
  end.

Fixpoint share_entries (shares : list (bytes * bytes)) : result TransitionError.t (list (bytes * bytes)) :=
  match shares with
  | [] => Ok []
  | (device_id, ct) :: shares' =>
      if decide (length ct ≠ DEVICE_SHARE_LEN) then Err (ShareLen (hex16 device_id) (length ct))
      else try rest <- share_entries shares'; Ok ((device_id, ct) :: rest)
  end.

Definition share_records (entries : list (bytes * bytes)) : bytes := entries ≫= λ e, e.1 ++ e.2.

Section digests.
Context `{Ciborium, Crypto}.

(** Each blob with the device its certificate is for. *)
Fixpoint roster_entries (index : nat) (certs : list bytes) : result TransitionError.t (list (bytes * bytes)) :=
  match certs with
  | [] => Ok []
  | blob :: certs' =>
      match cert_from_cbor blob with
      | Ok cert =>
          try rest <- roster_entries (S index) certs';
          Ok ((dc_device_id (dc_body cert), blob) :: rest)
      | Err _ => Err (RosterCert index)
      end
  end.

(** What the roster's hasher is fed. *)
Definition roster_input (certs : list bytes) : result TransitionError.t bytes :=
  try entries <- roster_entries 0 certs;
  let entries := isort entry_id_le entries in
  match repeated entries with
  | Some device => Err (RosterDuplicate (hex16 device))
  | None =>
      try count <- ok_or (u32_be (length entries)) RosterTooLarge;
      try records <- roster_records entries;
      Ok (ROSTER_DOMAIN ++ count ++ records)
  end.
Definition roster_digest (certs : list bytes) : result TransitionError.t bytes :=
  try input <- roster_input certs; Ok (blake3 input).

(** What the shares' hasher is fed. *)
Definition shares_input (device_shares : list (bytes * bytes)) (identity_share : option bytes) :
    result TransitionError.t bytes :=
  try entries <- share_entries device_shares;
  let entries := isort entry_id_le entries in
  match repeated entries with
  | Some device => Err (ShareDuplicate (hex16 device))
  | None =>
      try tail <- match identity_share with
                  | None => Ok [0]
                  | Some share =>
                      if decide (length share ≠ IDENTITY_SHARE_LEN) then Err (IdentityShareLen (length share))
                      else Ok (1 :: share)
                  end;
      Ok (SHARES_DOMAIN ++ share_records entries ++ tail)
  end.
Definition shares_digest (device_shares : list (bytes * bytes)) (identity_share : option bytes) :
    result TransitionError.t bytes :=
  try input <- shares_input device_shares identity_share; Ok (blake3 input).

(** ** The signatures *)

(** The body as serde serializes it: a map from field names to byte strings. *)
Definition body_value (b : IdentityTransitionBody) : Value :=
  VMap [(Text "from_identity_id", Bytes (tb_from b)); (Text "to_identity_id", Bytes (tb_to b));
        (Text "to_id_s_pub", Bytes (tb_to_id_s_pub b)); (Text "to_id_d_pub", Bytes (tb_to_id_d_pub b));
        (Text "roster_digest", Bytes (tb_roster_digest b));
        (Text "shares_digest", Bytes (tb_shares_digest b))].

Definition body_hash (b : IdentityTransitionBody) : result TransitionError.t bytes :=
  match encode_canonical into_writer (λ b, Some (body_value b)) b with
  | Ok cbor => Ok (blake3 cbor)
  | Err _ => Err Cbor
  end.

Definition prev_sig_input (hash : bytes) : bytes := PREV_DOMAIN ++ hash.
Definition next_sig_input (hash prev_sig : bytes) : bytes := SUCC_DOMAIN ++ hash ++ prev_sig.

Definition check_identity_binding (b : IdentityTransitionBody) (from_id_s_pub : bytes) :
    result TransitionError.t unit :=
  let from_derived := identity_id_from_pub from_id_s_pub in
  if decide (from_derived ≠ tb_from b) then Err FromIdentityMismatch
  else
    let to_derived := identity_id_from_pub (tb_to_id_s_pub b) in
    if decide (to_derived ≠ tb_to b) then Err ToIdentityMismatch
    else if decide (from_derived = to_derived) then Err NotATransition
    else Ok tt.

Definition sign_identity_transition (b : IdentityTransitionBody) (from_signing to_signing : bytes) :
    result TransitionError.t IdentityTransitionSigs :=
  try _ <- check_identity_binding b (public_key from_signing);
  if decide (public_key to_signing ≠ tb_to_id_s_pub b) then Err ToIdentityMismatch
  else
    try hash <- body_hash b;
    let prev := sign from_signing (prev_sig_input hash) in
    let next := sign to_signing (next_sig_input hash prev) in
    Ok (mkSigs prev next).

Definition verify_identity_transition (b : IdentityTransitionBody) (from_id_s_pub : bytes)
    (sigs : IdentityTransitionSigs) : result TransitionError.t unit :=
  try _ <- check_identity_binding b from_id_s_pub;
  try hash <- body_hash b;
  if negb (verify_ed25519 from_id_s_pub (prev_sig_input hash) (prev_sig sigs)) then Err PrevSigVerify
  else if negb (verify_ed25519 (tb_to_id_s_pub b) (next_sig_input hash (prev_sig sigs)) (next_sig sigs))
  then Err NextSigVerify
  else Ok tt.

Definition verify_successor_signature (b : IdentityTransitionBody) (sigs : IdentityTransitionSigs) :
    result TransitionError.t unit :=
  if decide (identity_id_from_pub (tb_to_id_s_pub b) ≠ tb_to b) then Err ToIdentityMismatch
  else
    try hash <- body_hash b;
    if negb (verify_ed25519 (tb_to_id_s_pub b) (next_sig_input hash (prev_sig sigs)) (next_sig sigs))
    then Err NextSigVerify
    else Ok tt.
End digests.
