(* ===== verification/TransitionFacts.v ===== *)
(** * What a transition's signatures cover

    The two digests determine the roster and the shares they were computed
    from, the body's hash determines the body, and so one signed hash stands
    for one hand-over, up to a BLAKE3 collision. *)

From Stdlib Require Import ZArith Lia.
From stdpp Require Import base tactics decidable countable option gmap sorting strings numbers list.
From S2P Require Import Prelude Bytes Cbor Wire Envelope EnvelopeFacts CanonFacts DeviceCert Transition.
Import TransitionError.
Open Scope Z_scope.
#[local] Opaque ROSTER_DOMAIN SHARES_DOMAIN.

(** ** Reading the records back *)

Lemma u32_be_inj n m l : u32_be n = Some l → u32_be m = Some l → n = m.
Proof.
  unfold u32_be. do 2 case_decide; try done. intros <-%(inj Some) Hm%(inj Some). apply (f_equal be_decode) in Hm.
  rewrite !be_decode_encode in Hm by (unfold u32_max in *; simpl; lia). lia.
Qed.
Lemma length_u32_be n l : u32_be n = Some l → length l = 4%nat.
Proof. unfold u32_be. case_decide; [|done]. by intros [= <-]. Qed.

Lemma roster_records_inj e1 e2 r :
  length e1 = length e2 →
  Forall (λ e, length e.1 = 16%nat) e1 → Forall (λ e, length e.1 = 16%nat) e2 →
  roster_records e1 = Ok r → roster_records e2 = Ok r → e1 = e2.
Proof.
  revert e2 r. induction e1 as [|[d1 c1] e1 IH]; intros [|[d2 c2] e2] r Hlen H1 H2; try done.
  simpl. destruct (u32_be (length c1)) as [l1|] eqn:E1; simpl; [|done].
  destruct (roster_records e1) as [r1|] eqn:R1; simpl; [|done]. intros [= <-].
  destruct (u32_be (length c2)) as [l2|] eqn:E2; simpl; [|done].
  destruct (roster_records e2) as [r2|] eqn:R2; simpl; [|done]. intros [= Heq].
  apply Forall_cons in H1 as [Hd1 H1], H2 as [Hd2 H2]. simpl in *.
  apply app_inj_1 in Heq as [-> Heq]; [|congruence].
  apply app_inj_1 in Heq as [-> Heq]; [|by rewrite (length_u32_be _ _ E1), (length_u32_be _ _ E2)].
  apply app_inj_1 in Heq as [-> ->]; [|symmetry; by eapply u32_be_inj].
  f_equal. apply (IH _ r1); try done. lia.
Qed.

Definition share_fits (e : bytes * bytes) : Prop := length e.1 = 16%nat ∧ length e.2 = DEVICE_SHARE_LEN.

Lemma length_share_records e : Forall share_fits e → length (share_records e) = (96 * length e)%nat.
Proof.
  induction 1 as [|[d c] e [Hd Hc] _ IH]; [done|].
  change (share_records ((d, c) :: e)) with ((d ++ c) ++ share_records e). simpl in *. rewrite !length_app, IH, Hd, Hc. unfold DEVICE_SHARE_LEN, HPKE_ENC_LEN, HPKE_TAG_LEN. lia.
Qed.

(** The tail's first byte says whether the carry-forward share follows, and
    the two lengths differ by no multiple of a record's. *)
Definition tail_fits (t : bytes) : Prop :=
  t = [0] ∨ ∃ s, t = 1 :: s ∧ length s = IDENTITY_SHARE_LEN.

Lemma share_records_inj e1 e2 t1 t2 :
  Forall share_fits e1 → Forall share_fits e2 → tail_fits t1 → tail_fits t2 →
  share_records e1 ++ t1 = share_records e2 ++ t2 → e1 = e2 ∧ t1 = t2.
Proof.
  intros H1 H2 T1 T2 Heq.
  assert (length e1 = length e2) as Hlen.
  { apply (f_equal length) in Heq. rewrite !length_app, !length_share_records in Heq by done.
    destruct T1 as [->|(s1 & -> & L1)], T2 as [->|(s2 & -> & L2)]; cbn [length] in Heq;
      rewrite ?L1, ?L2 in Heq; unfold IDENTITY_SHARE_LEN, HPKE_ENC_LEN, HPKE_TAG_LEN in Heq; lia. }
  revert e2 Hlen H2 Heq. induction e1 as [|[d1 c1] e1 IH]; intros [|[d2 c2] e2] Hlen H2 Heq; try done.
  apply Forall_cons in H1 as [[Hd1 Hc1] H1], H2 as [[Hd2 Hc2] H2].
  change (share_records ((d1, c1) :: e1)) with ((d1 ++ c1) ++ share_records e1) in Heq.
  change (share_records ((d2, c2) :: e2)) with ((d2 ++ c2) ++ share_records e2) in Heq. simpl in *.
  rewrite <-!app_assoc in Heq. apply app_inj_1 in Heq as [-> Heq]; [|congruence].
  apply app_inj_1 in Heq as [-> Heq]; [|congruence].
  destruct (IH H1 e2) as [-> ->]; [lia|done|done|done].
Qed.

(** ** Equal inputs *)

Section inputs.
Context `{Ciborium, Crypto}.

Lemma roster_entries_spec i certs entries :
  roster_entries i certs = Ok entries → certs = entries.*2 ∧ Forall (λ e, length e.1 = 16%nat) entries.
Proof.
  revert i entries. induction certs as [|b certs IH]; intros i entries; simpl; [by intros [= <-]|].
  destruct (cert_from_cbor b) as [c|] eqn:E; [|done].
  destruct (roster_entries (S i) certs) as [rest|] eqn:R; simpl; [|done]. intros [= <-].
  destruct (IH _ _ R) as [-> Hf]. split; [done|]. constructor; [|done]. simpl.
  by destruct (cert_from_cbor_wf _ _ E).
Qed.

Lemma roster_input_inj certs1 certs2 i :
  roster_input certs1 = Ok i → roster_input certs2 = Ok i → certs1 ≡ₚ certs2.
Proof.
  unfold roster_input. intros H1 H2.
  destruct (roster_entries 0 certs1) as [e1|] eqn:E1; simpl in H1; [|done].
  destruct (roster_entries 0 certs2) as [e2|] eqn:E2; simpl in H2; [|done].
  apply roster_entries_spec in E1 as [-> F1], E2 as [-> F2].
  destruct (repeated (isort _ e1)); [done|]. destruct (repeated (isort _ e2)); [done|].
  destruct (u32_be (length (isort _ e1))) as [n1|] eqn:N1; simpl in H1; [|done].
  destruct (u32_be (length (isort _ e2))) as [n2|] eqn:N2; simpl in H2; [|done].
  destruct (roster_records (isort _ e1)) as [r1|] eqn:R1; simpl in H1; [|done].
  destruct (roster_records (isort _ e2)) as [r2|] eqn:R2; simpl in H2; [|done].
  injection H1 as <-. injection H2 as H2.
  apply app_inj_1 in H2 as [-> ->]; [|by rewrite (length_u32_be _ _ N1), (length_u32_be _ _ N2)].
  assert (isort entry_id_le e1 = isort entry_id_le e2) as Hs.
  { eapply roster_records_inj; [by eapply u32_be_inj|by rewrite isort_Permutation|by rewrite isort_Permutation|done|done]. }
  by rewrite <-(isort_Permutation entry_id_le e1), Hs, isort_Permutation.
Qed.

Lemma share_entries_spec shares entries :
  share_entries shares = Ok entries → entries = shares ∧ Forall (λ e, length e.2 = DEVICE_SHARE_LEN) shares.
Proof.
  revert entries. induction shares as [|[d c] shares IH]; intros entries; simpl; [by intros [= <-]|].
  case_decide as Hl; [done|]. destruct (share_entries shares) as [rest|]; simpl; [|done]. intros [= <-].
  destruct (IH _ eq_refl) as [-> Hf]. split; [done|]. constructor; [|done]. simpl.
  by destruct (decide (length c = DEVICE_SHARE_LEN)).
Qed.

Lemma shares_input_inj shares1 shares2 carry1 carry2 i :
  Forall (λ e, length e.1 = 16%nat) shares1 → Forall (λ e, length e.1 = 16%nat) shares2 →
  shares_input shares1 carry1 = Ok i → shares_input shares2 carry2 = Ok i →
  shares1 ≡ₚ shares2 ∧ carry1 = carry2.
Proof.
  assert (∀ shares carry i, Forall (λ e, length e.1 = 16%nat) shares → shares_input shares carry = Ok i →
    ∃ t, i = SHARES_DOMAIN ++ share_records (isort entry_id_le shares) ++ t ∧ tail_fits t ∧
      Forall share_fits (isort entry_id_le shares) ∧ t = match carry with None => [0] | Some s => 1 :: s end) as Hspec.
  { clear. intros shares carry i F. unfold shares_input.
    destruct (share_entries shares) as [e|] eqn:E; simpl; [|done]. apply share_entries_spec in E as [-> G].
    destruct (repeated _); [done|].
    assert (Forall share_fits (isort entry_id_le shares)) as Hfit.
    { rewrite isort_Permutation. apply Forall_and. done. }
    destruct carry as [s|]; simpl.
    - case_decide as Hl; [done|]. simpl. intros [= <-]. exists (1 :: s). split_and!; try done. right.
      exists s. split; [done|]. by destruct (decide (length s = IDENTITY_SHARE_LEN)).
    - intros [= <-]. exists [0]. split_and!; try done. by left. }
  intros F1 F2 H1 H2. apply Hspec in H1 as (t1 & -> & T1 & G1 & C1), H2 as (t2 & Heq & T2 & G2 & C2); [|done..].
  apply app_inj_1 in Heq as [_ Heq]; [|done]. apply share_records_inj in Heq as [Hs Ht]; [|done..].
  split; [by rewrite <-(isort_Permutation entry_id_le shares1), Hs, isort_Permutation|].
  subst t1 t2. destruct carry1, carry2; congruence.
Qed.

(** The entry of a field, found among the other tree's entries. *)
Ltac field k :=
  match goal with Hin : ∀ e, e ∈ _ → _ |- ?x = _ =>
    let He := fresh in pose proof (Hin (Text k, Bytes x)) as He;
    rewrite !elem_of_cons, elem_of_nil in He; naive_solver
  end.

Lemma body_tree_shallow b limit :
  (1 ≤ limit)%nat → (depth (body_value b) ≤ limit)%nat ∧ no_bignum (body_value b) = true ∧
  contains_float (body_value b) = false.
Proof. intros. split_and!; [by simpl|done|done]. Qed.

Lemma body_value_inj b1 b2 :
  canonicalize into_writer (body_value b1) = canonicalize into_writer (body_value b2) → b1 = b2.
Proof.
  intros Heq. pose proof (λ e, canonical_entries _ _ e Heq) as Hin. clear Heq. destruct b1, b2; simpl in *.
  f_equal; [field "from_identity_id"%string|field "to_identity_id"%string|field "to_id_s_pub"%string
    |field "to_id_d_pub"%string|field "roster_digest"%string|field "shares_digest"%string].
Qed.
End inputs.

(** ** The signatures *)

Section signatures.
Context `{Ciborium, Crypto}.

Lemma Ok_exists {E A} (h : A) (P : A → Prop) : (∃ h', @Ok E A h = Ok h' ∧ P h') ↔ P h.
Proof. split; [by intros (? & [= <-] & ?)|eauto]. Qed.
Lemma Err_exists {E A} (e : E) (P : A → Prop) : (∃ h', @Err E A e = Ok h' ∧ P h') ↔ False.
Proof. split; [by intros (? & ? & _)|done]. Qed.

(** The ids are the keys' own, and they differ. *)
Definition binds (b : IdentityTransitionBody) (from_id_s_pub : bytes) : Prop :=
  identity_id_from_pub from_id_s_pub = tb_from b ∧
  identity_id_from_pub (tb_to_id_s_pub b) = tb_to b ∧ tb_from b ≠ tb_to b.

Lemma check_identity_binding_ok b pk : check_identity_binding b pk = Ok tt ↔ binds b pk.
Proof.
  unfold check_identity_binding, binds. destruct (decide (_ ≠ tb_from b)) as [|Hf]; [naive_solver|].
  apply dec_stable in Hf. destruct (decide (_ ≠ tb_to b)) as [|Ht]; [naive_solver|].
  apply dec_stable in Ht. rewrite Hf, Ht. case_decide; naive_solver.
Qed.

Lemma verify_transition_ok b pk s :
  verify_identity_transition b pk s = Ok tt ↔
  binds b pk ∧ ∃ h, body_hash b = Ok h ∧
    verify_ed25519 pk (prev_sig_input h) (prev_sig s) = true ∧
    verify_ed25519 (tb_to_id_s_pub b) (next_sig_input h (prev_sig s)) (next_sig s) = true.
Proof.
  unfold verify_identity_transition. rewrite <-check_identity_binding_ok.
  destruct (check_identity_binding b pk) as [[]|]; simpl; [|naive_solver].
  destruct (body_hash b) as [h|]; simpl; [rewrite Ok_exists|rewrite Err_exists; naive_solver].
  destruct (verify_ed25519 pk _ _), (verify_ed25519 _ _ (next_sig s)); naive_solver.
Qed.

Lemma verify_successor_ok b s :
  verify_successor_signature b s = Ok tt ↔
  identity_id_from_pub (tb_to_id_s_pub b) = tb_to b ∧ ∃ h, body_hash b = Ok h ∧
    verify_ed25519 (tb_to_id_s_pub b) (next_sig_input h (prev_sig s)) (next_sig s) = true.
Proof.
  unfold verify_successor_signature. destruct (decide (_ ≠ tb_to b)) as [|Ht]; [naive_solver|].
  apply dec_stable in Ht.
  destruct (body_hash b) as [h|]; simpl; [rewrite Ok_exists|rewrite Err_exists; naive_solver].
  destruct (verify_ed25519 _ _ (next_sig s)); naive_solver.
Qed.

Lemma verified_successor b pk s : verify_identity_transition b pk s = Ok tt → verify_successor_signature b s = Ok tt.
Proof. rewrite verify_transition_ok, verify_successor_ok. intros [(_ & ? & _) (h & ? & _ & ?)]. eauto. Qed.

Lemma sign_transition_ok b sk sk' s :
  sign_identity_transition b sk sk' = Ok s ↔
  binds b (public_key sk) ∧ public_key sk' = tb_to_id_s_pub b ∧ ∃ h, body_hash b = Ok h ∧
    s = mkSigs (sign sk (prev_sig_input h)) (sign sk' (next_sig_input h (sign sk (prev_sig_input h)))).
Proof.
  unfold sign_identity_transition. rewrite <-check_identity_binding_ok.
  destruct (check_identity_binding b _) as [[]|]; simpl; [|naive_solver].
  destruct (decide (_ ≠ tb_to_id_s_pub b)) as [|Ht]; [naive_solver|]. apply dec_stable in Ht.
  destruct (body_hash b) as [h|]; simpl; [rewrite Ok_exists|rewrite Err_exists]; naive_solver.
Qed.

(** The two signatures are over different texts, whatever they cover. *)
Lemma inputs_apart h h' p : prev_sig_input h ≠ next_sig_input h' p.
Proof. unfold prev_sig_input, next_sig_input. intros Heq%(f_equal (take 29)). by vm_compute in Heq. Qed.
End signatures.

(** ** One hash, one hand-over *)

(** Two texts BLAKE3 cannot tell apart. *)
Definition collide `{Crypto} (x y : bytes) : Prop := x ≠ y ∧ blake3 x = blake3 y.

Section handover.
Context `{Ciborium, !CiboriumLaws, Crypto}.

Lemma blake3_eq x y : blake3 x = blake3 y → x = y ∨ collide x y.
Proof. intros. destruct (decide (x = y)); [by left|by right]. Qed.

Lemma body_hash_inj b1 b2 h :
  body_hash b1 = Ok h → body_hash b2 = Ok h →
  b1 = b2 ∨ ∃ x y, encode_canonical into_writer Some (body_value b1) = Ok x ∧
    encode_canonical into_writer Some (body_value b2) = Ok y ∧ collide x y.
Proof.
  unfold body_hash, encode_canonical. simpl. intros Hx Hy.
  destruct (write into_writer _) as [x|] eqn:E1 in Hx; [|done]. injection Hx as <-.
  destruct (write into_writer _) as [y|] eqn:E2 in Hy; [|done]. injection Hy as Hy.
  destruct (blake3_eq y x Hy) as [->|[Hne Hc]]; [left|right; eexists _, _; split_and!; [done|done|by split]].
  apply body_value_inj. destruct (body_tree_shallow b1 MAX_DOC_DEPTH) as (? & ? & ?); [unfold MAX_DOC_DEPTH; lia|].
  destruct (body_tree_shallow b2 MAX_DOC_DEPTH) as (? & ? & ?); [unfold MAX_DOC_DEPTH; lia|].
  by apply (encoded_inj _ _ x).
Qed.

(** What a transition hands over: the devices the roster certifies, the
    sealed shares and the carry-forward share. *)
Definition handover (certs : list bytes) (shares : list (bytes * bytes)) (carry : option bytes)
    (b : IdentityTransitionBody) : Prop :=
  Forall (λ e, length e.1 = 16%nat) shares ∧
  roster_digest certs = Ok (tb_roster_digest b) ∧ shares_digest shares carry = Ok (tb_shares_digest b).

Lemma handover_inj certs1 certs2 shares1 shares2 carry1 carry2 b :
  handover certs1 shares1 carry1 b → handover certs2 shares2 carry2 b →
  (certs1 ≡ₚ certs2 ∧ shares1 ≡ₚ shares2 ∧ carry1 = carry2) ∨
  (∃ x y, roster_input certs1 = Ok x ∧ roster_input certs2 = Ok y ∧ collide x y) ∨
  (∃ x y, shares_input shares1 carry1 = Ok x ∧ shares_input shares2 carry2 = Ok y ∧ collide x y).
Proof.
  unfold handover, roster_digest, shares_digest. intros (F1 & R1 & S1) (F2 & R2 & S2).
  destruct (roster_input certs1) as [r1|] eqn:Er1; simpl in R1; [|done].
  destruct (roster_input certs2) as [r2|] eqn:Er2; simpl in R2; [|done].
  destruct (shares_input shares1 carry1) as [s1|] eqn:Es1; simpl in S1; [|done].
  destruct (shares_input shares2 carry2) as [s2|] eqn:Es2; simpl in S2; [|done].
  destruct (blake3_eq r1 r2) as [->|Hr]; [congruence| |naive_solver].
  destruct (blake3_eq s1 s2) as [->|Hs]; [congruence| |naive_solver].
  left. split; [by eapply roster_input_inj|by eapply shares_input_inj].
Qed.
End handover.
