(* ===== verification/IdentityChain.v ===== *)
(** * The identity chain record (sunrise-crypto/src/identity_chain.rs)

    The account's transitions, from its first identity to the one in force,
    as the record the relay keeps beside the recovery blob: its encoding, its
    verification, and the walk along the carry shares a recovery makes. *)

From Stdlib Require Import ZArith Lia.
From stdpp Require Import base tactics decidable countable option gmap sorting strings numbers list.
From S2P Require Import Prelude Bytes Cbor Wire Envelope EnvelopeFacts CanonFacts DeviceCert Transition.
Open Scope Z_scope.

Definition IDENTITY_CHAIN_FORMAT_V : Z := 1.
Definition MAX_CHAIN_LINKS : nat := 4096.
Definition MAX_CHAIN_BYTES : Z := 2 * 1024 * 1024.

Record ChainLink := mkLink {
  cl_body : IdentityTransitionBody;
  cl_sigs : IdentityTransitionSigs;
  cl_meta_epoch : Z;
  cl_hlc_physical_ms : Z;
  cl_hlc_logical : Z;
  cl_emitter : bytes;
  cl_carry_share : option bytes;
}.

Record IdentityChain := mkChain { genesis_id_s_pub : bytes; links : list ChainLink }.

Module ChainError.
Inductive t := Malformed (what : string) | OtherAccount | BadLink (i : nat).
End ChainError.
Import ChainError.

Inductive CarryWalk := NotOnChain | Reaches (links : nat) | Retired (at_link : nat).

(** X25519 and RFC 9180's open, under the account's own key. *)
Class Hpke := {
  dh_public : bytes → bytes;
  hpke_open_identity : bytes → bytes → bytes → bytes → option bytes;
}.

Definition IDENTITY_CARRY_INFO_PREFIX : bytes := text_bytes "sunrise.identity_carry.v1".
Definition identity_carry_info (to_identity_id : bytes) : bytes := IDENTITY_CARRY_INFO_PREFIX ++ to_identity_id.

(** ** One link as a tree *)

Definition link_value (l : ChainLink) : Value :=
  Array [Bytes (tb_to (cl_body l)); Bytes (tb_to_id_s_pub (cl_body l)); Bytes (tb_to_id_d_pub (cl_body l));
         Bytes (tb_roster_digest (cl_body l)); Bytes (tb_shares_digest (cl_body l));
         Bytes (prev_sig (cl_sigs l)); Bytes (next_sig (cl_sigs l));
         Integer (cl_meta_epoch l); Integer (cl_hlc_physical_ms l); Integer (cl_hlc_logical l);
         Bytes (cl_emitter l);
         match cl_carry_share l with None => Null | Some b => Bytes b end].

Definition fixed (n : nat) (v : Value) : option bytes := b ← as_bytes v; fixed_width n b.
Definition int_upto (top : Z) (v : Value) : option Z :=
  n ← as_integer v; if decide (0 ≤ n ≤ top) then Some n else None.

Definition carry_of (v : Value) : option (option bytes) :=
  match v with
  | Null => Some None
  | Bytes b => if decide (length b = IDENTITY_SHARE_LEN) then Some (Some b) else None
  | _ => None
  end.

Definition decode_link (v : Value) : option ChainLink :=
  items ← as_array v;
  match items with
  | [to_id; to_s; to_d; roster; shares; prev; next; epoch; ms; logical; emitter; carry] =>
      carry_share ← carry_of carry;
      to_id ← fixed 16 to_id; to_s ← fixed 32 to_s; to_d ← fixed 32 to_d;
      roster ← fixed 32 roster; shares ← fixed 32 shares;
      prev ← fixed 64 prev; next ← fixed 64 next;
      epoch ← int_upto u32_max epoch; ms ← int_upto u64_max ms; logical ← int_upto u32_max logical;
      emitter ← fixed 16 emitter;
      Some (mkLink (mkBody (replicate 16 0) to_id to_s to_d roster shares) (mkSigs prev next)
              epoch ms logical emitter carry_share)
  | _ => None
  end.

(** A link's predecessor is the identity before it. *)
Definition with_from (from : bytes) (l : ChainLink) : ChainLink :=
  let b := cl_body l in
  mkLink (mkBody from (tb_to b) (tb_to_id_s_pub b) (tb_to_id_d_pub b) (tb_roster_digest b) (tb_shares_digest b))
    (cl_sigs l) (cl_meta_epoch l) (cl_hlc_physical_ms l) (cl_hlc_logical l) (cl_emitter l) (cl_carry_share l).
Fixpoint positional (from : bytes) (ls : list ChainLink) : list ChainLink :=
  match ls with
  | [] => []
  | l :: ls' => with_from from l :: positional (tb_to (cl_body l)) ls'
  end.

(** ** The record *)

Definition record_value (c : IdentityChain) : Value :=
  VMap [(Integer 1, Bytes (genesis_id_s_pub c)); (Integer 2, Array (link_value <$> links c))].

(** The entries of the decoded map: each of the two fields once. *)
Fixpoint record_entries (genesis : option bytes) (ls : option (list ChainLink)) (entries : list (Value * Value)) :
    result ChainError.t (option bytes * option (list ChainLink)) :=
  match entries with
  | [] => Ok (genesis, ls)
  | (k, v) :: entries' =>
      match int_upto u8_max k, genesis, ls with
      | Some 1, None, _ =>
          try g <- ok_or (fixed 32 v) (Malformed "genesis_id_s_pub");
          record_entries (Some g) ls entries'
      | Some 2, _, None =>
          try items <- ok_or (as_array v) (Malformed "links");
          if decide (MAX_CHAIN_LINKS < length items)%nat then Err (Malformed "too many links")
          else match mapM decode_link items with
               | Some ls' => record_entries genesis (Some ls') entries'
               | None => Err (Malformed "link")
               end
      | _, _, _ => Err (Malformed "unknown or duplicate field")
      end
  end.

Definition CHAIN_PREFIX : option bytes :=
  fst <$> write_prefix (replicate MAGIC_LEN 0) Wire.IdentityChain IDENTITY_CHAIN_FORMAT_V.

Section record.
Context `{Ciborium, Crypto}.

Definition genesis_identity_id (c : IdentityChain) : bytes := identity_id_from_pub (genesis_id_s_pub c).

Definition head (c : IdentityChain) : bytes * bytes :=
  match last (links c) with
  | None => (genesis_identity_id c, genesis_id_s_pub c)
  | Some l => (tb_to (cl_body l), tb_to_id_s_pub (cl_body l))
  end.

Definition encode (c : IdentityChain) : result ChainError.t bytes :=
  if decide (MAX_CHAIN_LINKS < length (links c))%nat then Err (Malformed "too many links")
  else match CHAIN_PREFIX, encode_canonical into_writer Some (record_value c) with
       | Some prefix, Ok cbor => Ok (prefix ++ cbor)
       | _, _ => Err (Malformed "encode")
       end.

Definition decode (raw : bytes) : result ChainError.t IdentityChain :=
  if decide (MAX_CHAIN_BYTES < Z.of_nat (length raw)) then Err (Malformed "too large")
  else match decode_prefix raw with
  | Ok (mkMagicPrefix Wire.IdentityChain 1) =>
      match decode_canonical into_writer Some from_reader (drop MAGIC_LEN raw) with
      | Err _ => Err (Malformed "not canonical CBOR")
      | Ok (VMap entries) =>
          try (genesis, ls) <- record_entries None None entries;
          try genesis <- ok_or genesis (Malformed "missing genesis_id_s_pub");
          try ls <- ok_or ls (Malformed "missing links");
          Ok (mkChain genesis (positional (identity_id_from_pub genesis) ls))
      | Ok _ => Err (Malformed "not a map")
      end
  | _ => Err (Malformed "magic prefix")
  end.

Fixpoint verify_links (i : nat) (from_pub : bytes) (ls : list ChainLink) : result ChainError.t unit :=
  match ls with
  | [] => Ok tt
  | l :: ls' =>
      match verify_identity_transition (cl_body l) from_pub (cl_sigs l) with
      | Ok _ => verify_links (S i) (tb_to_id_s_pub (cl_body l)) ls'
      | Err _ => Err (BadLink i)
      end
  end.

Definition verify (c : IdentityChain) (genesis : bytes) : result ChainError.t unit :=
  if decide (genesis_identity_id c ≠ genesis) then Err OtherAccount
  else verify_links 0 (genesis_id_s_pub c) (links c).

(** ** The carry shares *)

Context `{Hpke}.

Definition open_carry (dh : bytes) (b : IdentityTransitionBody) (share : bytes) : option bytes :=
  if decide (length share ≠ IDENTITY_SHARE_LEN) then None
  else
    opened ← hpke_open_identity dh (identity_carry_info (tb_to b)) share [];
    if decide (length opened ≠ 64%nat) then None
    else
      let s := take 32 opened in
      let d := drop 32 opened in
      if decide (public_key s = tb_to_id_s_pub b ∧ dh_public d = tb_to_id_d_pub b) then Some d else None.

Fixpoint walk_carries (i : nat) (dh : bytes) (ls : list ChainLink) : option nat :=
  match ls with
  | [] => None
  | l :: ls' =>
      match share ← cl_carry_share l; open_carry dh (cl_body l) share with
      | Some next => walk_carries (S i) next ls'
      | None => Some i
      end
  end.

(** Where the walk starts: after the link that reaches the identity. *)
Definition carry_start (c : IdentityChain) (identity_id : bytes) : option nat :=
  if decide (genesis_identity_id c = identity_id) then Some 0%nat
  else (λ x, S x.1) <$> list_find (λ l, tb_to (cl_body l) = identity_id) (links c).

Definition carry_walk (c : IdentityChain) (identity_id id_d_priv : bytes) : CarryWalk :=
  match carry_start c identity_id with
  | None => NotOnChain
  | Some start =>
      match walk_carries start id_d_priv (drop start (links c)) with
      | Some at_link => Retired at_link
      | None => Reaches (length (links c) - start)
      end
  end.
End record.

(** ** Reading a record back *)

Record link_wf (l : ChainLink) : Prop := {
  lw_to : length (tb_to (cl_body l)) = 16%nat;
  lw_to_s : length (tb_to_id_s_pub (cl_body l)) = 32%nat;
  lw_to_d : length (tb_to_id_d_pub (cl_body l)) = 32%nat;
  lw_roster : length (tb_roster_digest (cl_body l)) = 32%nat;
  lw_shares : length (tb_shares_digest (cl_body l)) = 32%nat;
  lw_prev : length (prev_sig (cl_sigs l)) = 64%nat;
  lw_next : length (next_sig (cl_sigs l)) = 64%nat;
  lw_epoch : in_u32 (cl_meta_epoch l);
  lw_ms : in_u64 (cl_hlc_physical_ms l);
  lw_logical : in_u32 (cl_hlc_logical l);
  lw_emitter : length (cl_emitter l) = 16%nat;
  lw_carry : ∀ b, cl_carry_share l = Some b → length b = IDENTITY_SHARE_LEN;
}.

Lemma fixed_Bytes n b : length b = n → fixed n (Bytes b) = Some b.
Proof. intros. unfold fixed, fixed_width. simpl. by rewrite decide_True. Qed.
Lemma int_upto_Integer top n : 0 ≤ n ≤ top → int_upto top (Integer n) = Some n.
Proof. intros. unfold int_upto. simpl. by rewrite decide_True. Qed.

Lemma decode_link_value l : link_wf l → decode_link (link_value l) = Some (with_from (replicate 16 0) l).
Proof.
  intros [H1 H2 H3 H4 H5 H6 H7 H8 H9 H10 H11 H12]. unfold decode_link, link_value. cbn [as_array mbind option_bind].
  assert (carry_of (match cl_carry_share l with None => Null | Some b => Bytes b end) = Some (cl_carry_share l)) as ->.
  { destruct (cl_carry_share l) as [b|]; [|done]. simpl. by rewrite decide_True by auto. }
  cbn [mbind option_bind]. rewrite !fixed_Bytes by done. rewrite !int_upto_Integer by done.
  cbn [mbind option_bind]. unfold with_from. by destruct l as [[] []].
Qed.

Lemma decode_link_wf v l : decode_link v = Some l → link_wf l.
Proof.
  assert (∀ n v b, fixed n v = Some b → length b = n) as Hf.
  { intros n w b. unfold fixed, fixed_width. destruct (as_bytes w); simpl; [|done]. case_decide; naive_solver. }
  assert (∀ t v n, int_upto t v = Some n → 0 ≤ n ≤ t) as Hi.
  { intros t w b. unfold int_upto. destruct (as_integer w); simpl; [|done]. case_decide; naive_solver. }
  assert (∀ v c, carry_of v = Some c → ∀ b, c = Some b → length b = IDENTITY_SHARE_LEN) as Hc.
  { intros [] c; simpl; try done; [case_decide; naive_solver|naive_solver]. }
  unfold decode_link. destruct (as_array v) as [items|]; simpl; [|done].
  do 13 (destruct items as [|? items]; try done).
  intros Hl. repeat (apply bind_Some in Hl as (? & ? & Hl)). injection Hl as <-.
  constructor; simpl; by (eauto || (eapply Hi; eassumption)).
Qed.

Lemma mapM_decode_links ls :
  Forall link_wf ls → mapM decode_link (link_value <$> ls) = Some (with_from (replicate 16 0) <$> ls).
Proof.
  induction 1 as [|l ls Hl _ IH]; [done|]. cbn [fmap list_fmap mapM].
  by rewrite (decode_link_value l Hl), IH.
Qed.

Lemma positional_blank f from ls : positional from (with_from f <$> ls) = positional from ls.
Proof. revert from. induction ls as [|l ls IH]; intros from; [done|]. simpl. by rewrite IH. Qed.

Section roundtrip.
Context `{Ciborium, !CiboriumLaws, Crypto}.

(** Every link names the identity before it. *)
Definition in_sequence (c : IdentityChain) : Prop := positional (genesis_identity_id c) (links c) = links c.

Lemma link_tree l :
  (depth (link_value l) = 1)%nat ∧ no_bignum (link_value l) = true ∧ contains_float (link_value l) = false ∧
  canonicalize into_writer (link_value l) = link_value l.
Proof. unfold link_value. by destruct (cl_carry_share l). Qed.

Lemma record_tree c :
  (depth (record_value c) ≤ MAX_DOC_DEPTH)%nat ∧ no_bignum (record_value c) = true ∧
  contains_float (record_value c) = false.
Proof.
  unfold record_value. split_and!.
  - assert (list_max (map depth (link_value <$> links c)) ≤ 1)%nat as Hd.
    { induction (links c) as [|l ls IH]; [simpl; lia|]. cbn [fmap list_fmap map list_max foldr] in *.
      destruct (link_tree l) as (-> & _). unfold list_max in IH. lia. }
    simpl in *. unfold MAX_DOC_DEPTH. lia.
  - simpl. rewrite andb_true_r. apply forallb_forall. intros x Hx%list_elem_of_In.
    apply list_elem_of_fmap in Hx as (l & -> & _). apply link_tree.
  - simpl. rewrite orb_false_r. apply not_true_iff_false. rewrite existsb_exists.
    intros (x & Hx%list_elem_of_In & Hf). apply list_elem_of_fmap in Hx as (l & -> & _).
    destruct (link_tree l) as (_ & _ & Hn & _). congruence.
Qed.

(** Whichever of its two keys a writer sorts first, the record reads the same. *)
Lemma record_entries_read c es :
  (length (links c) ≤ MAX_CHAIN_LINKS)%nat → length (genesis_id_s_pub c) = 32%nat → Forall link_wf (links c) →
  canonicalize into_writer (record_value c) = VMap es →
  record_entries None None es = Ok (Some (genesis_id_s_pub c), Some (with_from (replicate 16 0) <$> links c)).
Proof.
  intros Hn Hg Hw. unfold record_value. cbn [canonicalize map].
  assert (map (canonicalize into_writer) (link_value <$> links c) = link_value <$> links c) as ->.
  { induction (links c) as [|l ls IH]; [done|]. cbn [fmap list_fmap map] in *.
    apply Forall_cons in Hw as [_ Hw]. rewrite (proj2 (proj2 (proj2 (link_tree l)))). f_equal. apply IH; [|done].
    simpl in Hn. lia. }
  cbn [isort foldr insert_sorted]. case_decide; intros [= <-]; simpl;
    rewrite ?(fixed_Bytes 32 _ Hg), ?length_fmap; simpl; rewrite ?decide_False by lia;
    by rewrite mapM_decode_links, ?(fixed_Bytes 32 _ Hg).
Qed.

Lemma decode_encode c raw :
  length (genesis_id_s_pub c) = 32%nat → Forall link_wf (links c) → in_sequence c →
  Z.of_nat (length raw) ≤ MAX_CHAIN_BYTES → encode c = Ok raw → decode raw = Ok c.
Proof.
  intros Hg Hw Hs Hlen. unfold encode. case_decide as Hn; [done|].
  destruct (encode_canonical into_writer Some (record_value c)) as [cbor|] eqn:Ee; [|done].
  change CHAIN_PREFIX with (Some [83; 82; 9; 0; 1]). cbv iota. intros [= <-].
  unfold decode. rewrite decide_False by lia.
  change (decode_prefix (83 :: 82 :: 9 :: 0 :: 1 :: cbor)) with (@Ok MagicError _ (mkMagicPrefix Wire.IdentityChain 1)).
  change (drop MAGIC_LEN (83 :: 82 :: 9 :: 0 :: 1 :: cbor)) with cbor. cbv iota beta.
  destruct (record_tree c) as (Hd & Hb & Hf). rewrite (canonical_decodes _ _ Hd Hb Hf Ee).
  destruct (canonicalize into_writer (record_value c)) as [| | | | | | | |es] eqn:Ec; try done.
  rewrite (record_entries_read c es) by (done || lia). simpl.
  rewrite positional_blank. fold (genesis_identity_id c). rewrite Hs. by destruct c.
Qed.

(** What decodes: at most the bounded number of links, each of the declared
    widths, each naming the identity before it. *)
Lemma record_entries_wf g ls es g' ls' :
  (∀ x, g = Some x → length x = 32%nat) →
  (∀ l, ls = Some l → (length l ≤ MAX_CHAIN_LINKS)%nat ∧ Forall link_wf l) →
  record_entries g ls es = Ok (g', ls') →
  (∀ x, g' = Some x → length x = 32%nat) ∧
  (∀ l, ls' = Some l → (length l ≤ MAX_CHAIN_LINKS)%nat ∧ Forall link_wf l).
Proof.
  revert g ls. induction es as [|[k v] es IH]; intros g ls Hg Hl; simpl; [by intros [= <- <-]|].
  assert (∀ x, fixed 32 v = Some x → length x = 32%nat) as Hx.
  { intros x. unfold fixed, fixed_width. destruct (as_bytes v); simpl; [|done]. case_decide; naive_solver. }
  assert (∀ items l, as_array v = Some items → ¬ (MAX_CHAIN_LINKS < length items)%nat →
    mapM decode_link items = Some l → (length l ≤ MAX_CHAIN_LINKS)%nat ∧ Forall link_wf l) as Hm.
  { intros items l _ Hn Hm. split; [rewrite <-(length_mapM _ _ _ Hm); lia|].
    apply mapM_Some_1 in Hm. apply Forall_forall. intros x Hin.
    apply list_elem_of_lookup in Hin as [i Hi]. destruct (Forall2_lookup_r _ _ _ _ _ Hm Hi) as (y & _ & Hy).
    by eapply decode_link_wf. }
  destruct (int_upto u8_max k) as [[|[|[]|]|]|] eqn:Ek; try done.
  - destruct ls; [done|]. destruct (as_array v) as [items|] eqn:Ea; simpl; [|done]. case_decide; [done|].
    destruct (mapM decode_link items) as [l|] eqn:El; [|done]. apply IH; [done|]. intros ? [= <-]. by eapply Hm.
  - destruct g; [done|]. destruct (fixed 32 v) as [x|] eqn:Ex; simpl; [|done]. apply IH; [|done].
    intros ? [= <-]. by apply Hx.
Qed.
End roundtrip.
