(* ===== verification/Identity.v ===== *)
(** * The account's identity (sunrise-core/src/engine/identity.rs,
    identity_chain.rs, the transition arm of sync.rs)

    The transitions a replica holds, the fold that walks them from the
    account's first identity to the one in force, which rows one identity
    keeps as its successors, absorbing a transition op, publishing the chain
    as a record and seeding a vault from one, and the roster of the transition
    in force.  Adopting a successor's keys is the keychain's and not here. *)

From Stdlib Require Import ZArith Lia.
From stdpp Require Import base tactics decidable countable option gmap sorting strings numbers list.
From S2P Require Import Prelude Bytes Hlc Cbor Wire Envelope DeviceCert Transition IdentityChain.
Open Scope Z_scope.

Definition MAX_SIBLING_CANDIDATES : nat := 16.
Definition MAX_SIBLINGS_PER_PREDECESSOR : nat := 16.
Definition MAX_ROSTER_ENTRIES : nat := 256.

(** ** The table [identity_transitions] *)

(** A row's columns; its key is [to_identity_id]. *)
Record Row := mkRow {
  r_from : bytes;
  r_to_id_s_pub : bytes;
  r_to_id_d_pub : bytes;
  r_meta_epoch : Z;
  r_hlc_physical_ms : Z;
  r_hlc_logical : Z;
  r_emitter : bytes;
  r_payload : bytes;
  r_prev_sig : bytes;
  r_next_sig : bytes;
  r_roster_digest : bytes;
  r_shares_digest : bytes;
}.
#[export] Instance Row_eq_dec : EqDecision Row. Proof. solve_decision. Defined.

Abbreviation Table := (gmap bytes Row).

(** [SiblingRank], compared field by field in this order. *)
Record SiblingRank := mkRank {
  k_meta_epoch : Z;
  k_hlc_physical_ms : Z;
  k_hlc_logical : Z;
  k_emitter : bytes;
  k_to_identity_id : bytes;
}.
Definition rank_key (k : SiblingRank) : Z * (Z * (Z * (bytes * bytes))) :=
  (k_meta_epoch k, (k_hlc_physical_ms k, (k_hlc_logical k, (k_emitter k, k_to_identity_id k)))).
#[export] Instance SiblingRank_cmp : Cmp SiblingRank := cmp_on rank_key.
#[export] Instance SiblingRank_cmp_laws : CmpLaws SiblingRank.
Proof. apply (cmp_on_laws rank_key). intros [] []. unfold rank_key. simpl. by intros [= -> -> -> -> ->]. Qed.

Definition rank_of (r : bytes * Row) : SiblingRank :=
  mkRank (r_meta_epoch r.2) (r_hlc_physical_ms r.2) (r_hlc_logical r.2) (r_emitter r.2) r.1.

(** [SIBLING_ORDER_DESC]. *)
Definition sibling_ge (a b : bytes * Row) : Prop := rank_of b ≼ rank_of a.
#[export] Instance sibling_ge_dec : RelDecision sibling_ge.
Proof. intros a b. unfold sibling_ge. apply _. Defined.

Definition siblings (T : Table) (from : bytes) : list (bytes * Row) :=
  isort sibling_ge (filter (λ r, r_from r.2 = from) (map_to_list T)).

(** [TransitionLink::from_row]. *)
Definition from_row (from : bytes) (r : bytes * Row) : option (IdentityTransitionBody * IdentityTransitionSigs) :=
  to_id ← fixed_width 16 r.1;
  to_s ← fixed_width 32 (r_to_id_s_pub r.2);
  to_d ← fixed_width 32 (r_to_id_d_pub r.2);
  roster ← fixed_width 32 (r_roster_digest r.2);
  shares ← fixed_width 32 (r_shares_digest r.2);
  prev ← fixed_width 64 (r_prev_sig r.2);
  next ← fixed_width 64 (r_next_sig r.2);
  Some (mkBody from to_id to_s to_d roster shares, mkSigs prev next).

Definition insert_or_ignore (to : bytes) (r : Row) (T : Table) : Table :=
  match T !! to with Some _ => T | None => <[to := r]> T end.

(** ** Admitting a successor *)

Definition admit_sibling (T : Table) (from : bytes) (rank : SiblingRank) : option Table :=
  let others := filter (λ r, r.1 ≠ k_to_identity_id rank) (siblings T from) in
  if decide (length others < MAX_SIBLINGS_PER_PREDECESSOR)%nat then Some T
  else
    weakest ← others !! (MAX_SIBLINGS_PER_PREDECESSOR - 1)%nat;
    if decide (rank ≼ rank_of weakest) then None else Some (delete weakest.1 T).

(** A row that is admitted and stored, or refused. *)
Definition offer_row (T : Table) (to : bytes) (r : Row) : option Table :=
  T ← admit_sibling T (r_from r) (rank_of (to, r)); Some (insert_or_ignore to r T).

(** ** The fold *)

Fixpoint find_map {A B} (f : A → option B) (l : list A) : option B :=
  match l with
  | [] => None
  | x :: l' => match f x with Some y => Some y | None => find_map f l' end
  end.

(** Where the chain starts: the stored genesis, or the identity the keychain
    was constructed at. *)
Definition genesis_start (row : option (bytes * option bytes)) (constructed_at : bytes * bytes) : bytes * bytes :=
  default constructed_at
    ('(id, pk) ← row; id ← fixed_width 16 id; pk ← pk; pk ← fixed_width 32 pk; Some (id, pk)).

(** [Result::is_ok]. *)
Definition is_ok {E A} (r : result E A) : bool := match r with Ok _ => true | Err _ => false end.

Section fold.
Context `{Ciborium, Crypto}.

(** A row as a link after the identity [(from_id, from_pub)]. *)
Definition verified_row (from : bytes * bytes) (r : bytes * Row) : bool :=
  match from_row from.1 r with
  | Some (b, s) => is_ok (verify_identity_transition b from.2 s)
  | None => false
  end.

Definition candidate (seen : gset bytes) (from : bytes * bytes) (r : bytes * Row) : option (bytes * bytes) :=
  link ← from_row from.1 r;
  if decide (tb_to link.1 ∈ seen) then None
  else match verify_identity_transition link.1 from.2 link.2 with
       | Ok _ => Some (tb_to link.1, tb_to_id_s_pub link.1)
       | Err _ => None
       end.

Definition next_link (T : Table) (seen : gset bytes) (from : bytes * bytes) : option (bytes * bytes) :=
  find_map (candidate seen from) (take MAX_SIBLING_CANDIDATES (siblings T from.1)).

Fixpoint chain_loop (fuel : nat) (T : Table) (seen : gset bytes) (from : bytes * bytes) :
    option (list (bytes * bytes)) :=
  match fuel with
  | O => None
  | S fuel' =>
      match next_link T seen from with
      | None => Some []
      | Some next => rest ← chain_loop fuel' T ({[next.1]} ∪ seen) next; Some (next :: rest)
      end
  end.

Definition chain_identities (T : Table) (start : bytes * bytes) : option (list (bytes * bytes)) :=
  rest ← chain_loop (S (size T)) T {[start.1]} start; Some (start :: rest).

Definition current_identity (T : Table) (start : bytes * bytes) : option (bytes * bytes) :=
  chain ← chain_identities T start; last chain.

(** ** Sweeping the rows an established identity never signed *)

Definition purge_unverifiable_siblings (T : Table) (from : bytes * bytes) : Table * nat :=
  foldr (λ r acc, if verified_row from r then acc else (delete r.1 acc.1, S acc.2)) (T, O)
    (filter (λ r, r_from r.2 = from.1) (map_to_list T)).

(** ** The payload of a transition op (control_op.rs) *)

Record IdentityTransitionPayload := mkPayload {
  p_from : bytes;
  p_to : bytes;
  p_to_id_s_pub : bytes;
  p_to_id_d_pub : bytes;
  p_roster : list bytes;
  p_device_shares : list (bytes * bytes);
  p_identity_share : option bytes;
  p_prev_sig : bytes;
  p_next_sig : bytes;
}.

(** The codec serde derives for the op that carries it, through ciborium. *)
Class TransitionCodec := {
  encode_inner_op : IdentityTransitionPayload → option bytes;
  decode_inner_op : bytes → option IdentityTransitionPayload;
}.
Context `{TransitionCodec}.

Definition is_seeded_payload (payload : bytes) : bool :=
  match decode_inner_op payload with
  | Some p => bool_decide (p_roster p = [])
  | None => false
  end.

Definition i64_or_max (n : Z) : Z := if decide (n ≤ i64_max) then n else i64_max.

(** A certificate the successor did not issue. *)
Definition bad_binding (id_s_pub identity_id cert : bytes) : bool :=
  match cert_from_cbor cert with
  | Ok c => negb (is_ok (verify_binding c id_s_pub identity_id))
  | Err _ => true
  end.

(** The row that carries the op's own rank and payload, where it was seeded
    from the same signed body. *)
Definition fill_seeded (to : bytes) (r : Row) (T : Table) : Table :=
  match T !! to with
  | Some held =>
      if is_seeded_payload (r_payload held) &&
         bool_decide (r_roster_digest held = r_roster_digest r ∧ r_shares_digest held = r_shares_digest r ∧
                      r_prev_sig held = r_prev_sig r ∧ r_next_sig held = r_next_sig r)
      then <[to := mkRow (r_from held) (r_to_id_s_pub held) (r_to_id_d_pub held) (r_meta_epoch r)
                     (r_hlc_physical_ms r) (r_hlc_logical r) (r_emitter r) (r_payload r) (r_prev_sig held)
                     (r_next_sig held) (r_roster_digest held) (r_shares_digest held)]> T
      else T
  | None => T
  end.

(** Every identity the chain reaches now and did not before is swept. *)
Definition sweep_reached (established : list (bytes * bytes)) (reached : list (bytes * bytes)) (T : Table) : Table :=
  foldl (λ T link, (purge_unverifiable_siblings T link).1) T
    (filter (λ link, link.1 ∉ established.*1) reached).

(** Storing a transition whose payload has passed its checks; [false] where
    every place is held by a row that outranks it. *)
Definition store_transition (T : Table) (start : bytes * bytes) (chain : list (bytes * bytes))
    (to : bytes) (r : Row) (has_roster : bool) : option (Table * bool) :=
  match offer_row T to r with
  | None => Some (T, false)
  | Some T =>
      let T := if has_roster then fill_seeded to r T else T in
      reached ← chain_identities T start;
      Some (sweep_reached chain reached T, true)
  end.

(** What the op's own bytes establish: its row, or the refusal. *)
Definition checked_row (p : IdentityTransitionPayload) (meta_epoch : Z) (hlc : Hlc) (sender payload : bytes) :
    option (IdentityTransitionBody * IdentityTransitionSigs * Row) :=
  if decide (identity_id_from_pub (p_to_id_s_pub p) ≠ p_to p) then None
  else if decide (MAX_ROSTER_ENTRIES < length (p_roster p) ∨
                  MAX_ROSTER_ENTRIES < length (p_device_shares p))%nat then None
  else match roster_digest (p_roster p), shares_digest (p_device_shares p) (p_identity_share p) with
  | Ok roster, Ok shares =>
      if existsb (bad_binding (p_to_id_s_pub p) (p_to p)) (p_roster p) then None
      else
        let body := mkBody (p_from p) (p_to p) (p_to_id_s_pub p) (p_to_id_d_pub p) roster shares in
        let sigs := mkSigs (p_prev_sig p) (p_next_sig p) in
        match verify_successor_signature body sigs with
        | Err _ => None
        | Ok _ =>
            Some (body, sigs, mkRow (p_from p) (p_to_id_s_pub p) (p_to_id_d_pub p) meta_epoch
                    (i64_or_max (physical_ms hlc)) (logical hlc) sender payload (p_prev_sig p) (p_next_sig p)
                    roster shares)
        end
  | _, _ => None
  end.

(** The transition arm of [apply_control_op] as far as the table goes: what
    it leaves, and whether the arm ran to its end. *)
Definition absorb_transition (T : Table) (start : bytes * bytes) (p : IdentityTransitionPayload)
    (meta_epoch : Z) (hlc : Hlc) (sender : bytes) : option (Table * bool) :=
  match checked_row p meta_epoch hlc sender (default [] (encode_inner_op p)) with
  | None => Some (T, false)
  | Some (body, sigs, r) =>
      chain ← chain_identities T start;
      let store T :=
        match encode_inner_op p with
        | None => Some (default T (admit_sibling T (p_from p) (rank_of (p_to p, r))), false)
        | Some _ => store_transition T start chain (p_to p) r (negb (bool_decide (p_roster p = [])))
        end in
      match find (λ link, bool_decide (link.1 = p_from p)) chain with
      | None => store T
      | Some link =>
          if is_ok (verify_identity_transition body link.2 sigs)
          then store (purge_unverifiable_siblings T (p_from p, link.2)).1
          else Some (T, false)
      end
  end.

(** ** The roster of the transition in force *)

Record DeviceRow := mkDevice {
  d_cert_blob : bytes;
  d_nickname : string;
  d_platform : string;
  d_created_at_ms : Z;
  d_identity_id : option bytes;
  d_d_d_pub : option bytes;
}.

Definition roster_entry (to : bytes) (devices : gmap bytes DeviceRow) (cert_bytes : bytes) : gmap bytes DeviceRow :=
  match cert_from_cbor cert_bytes with
  | Err _ => devices
  | Ok c =>
      let b := dc_body c in
      let stored := devices !! dc_device_id b in
      match stored ≫= d_d_d_pub with
      | Some key =>
          if decide (key ≠ dc_d_d_pub b) then devices
          else <[dc_device_id b := mkDevice cert_bytes (dc_nickname b) (dc_platform b)
                   (default 0 (d_created_at_ms <$> stored)) (Some to) (Some key)]> devices
      | None =>
          <[dc_device_id b := mkDevice cert_bytes (dc_nickname b) (dc_platform b)
              (default (i64_or_max (dc_created_at_ms b)) (d_created_at_ms <$> stored)) (Some to)
              (Some (dc_d_d_pub b))]> devices
      end
  end.
Definition apply_roster (roster : list bytes) (to : bytes) (devices : gmap bytes DeviceRow) : gmap bytes DeviceRow :=
  foldl (roster_entry to) devices roster.

(** The whole arm but the adoption ([recompute_identity_head]): a roster
    counts only when its transition is the one in force. *)
Definition apply_identity_transition (T : Table) (devices : gmap bytes DeviceRow) (start : bytes * bytes)
    (p : IdentityTransitionPayload) (meta_epoch : Z) (hlc : Hlc) (sender : bytes) :
    option (Table * gmap bytes DeviceRow) :=
  '(T', ran) ← absorb_transition T start p meta_epoch hlc sender;
  head ← current_identity T' start;
  Some (T', if ran && bool_decide (head.1 = p_to p) then apply_roster (p_roster p) (p_to p) devices else devices).

(** ** The chain as a record (engine/identity_chain.rs) *)

Definition int_in (top n : Z) : option Z := if decide (0 ≤ n ≤ top) then Some n else None.

Definition record_link (T : Table) (from : bytes) (to : bytes * bytes) : option ChainLink :=
  r ← T !! to.1;
  let carry := p ← decode_inner_op (r_payload r); p_identity_share p in
  d ← fixed_width 32 (r_to_id_d_pub r);
  roster ← fixed_width 32 (r_roster_digest r);
  shares ← fixed_width 32 (r_shares_digest r);
  prev ← fixed_width 64 (r_prev_sig r);
  next ← fixed_width 64 (r_next_sig r);
  epoch ← int_in u32_max (r_meta_epoch r);
  ms ← int_in u64_max (r_hlc_physical_ms r);
  logical ← int_in u32_max (r_hlc_logical r);
  emitter ← fixed_width 16 (r_emitter r);
  Some (mkLink (mkBody from to.1 to.2 d roster shares) (mkSigs prev next) epoch ms logical emitter carry).

Fixpoint record_links (T : Table) (from : bytes) (chain : list (bytes * bytes)) : option (list ChainLink) :=
  match chain with
  | [] => Some []
  | to :: chain' => l ← record_link T from to; ls ← record_links T to.1 chain'; Some (l :: ls)
  end.

(** [identity_chain_plan]: [Ok None] where there is nothing to publish. *)
Definition identity_chain_plan (T : Table) (start : bytes * bytes) (own : bytes) (revoked read_bounded : bool) :
    result ChainError.t (option bytes) :=
  match chain_identities T start with
  | Some (genesis :: (_ :: _) as rest) =>
      if decide (fst <$> last rest = Some own) then
        if revoked || read_bounded then Ok None
        else match record_links T genesis.1 rest with
             | None => Ok None
             | Some ls => try raw <- encode (mkChain genesis.2 ls); Ok (Some raw)
             end
      else Ok None
  | _ => Ok None
  end.

(** [seed_identity_chain]'s row for a link: the link, with no roster. *)
Definition seeded_row (l : ChainLink) (payload : bytes) : Row :=
  let b := cl_body l in
  mkRow (tb_from b) (tb_to_id_s_pub b) (tb_to_id_d_pub b) (cl_meta_epoch l) (i64_or_max (cl_hlc_physical_ms l))
    (cl_hlc_logical l) (cl_emitter l) payload (prev_sig (cl_sigs l)) (next_sig (cl_sigs l))
    (tb_roster_digest b) (tb_shares_digest b).
Definition stub (l : ChainLink) : IdentityTransitionPayload :=
  let b := cl_body l in
  mkPayload (tb_from b) (tb_to b) (tb_to_id_s_pub b) (tb_to_id_d_pub b) [] [] (cl_carry_share l)
    (prev_sig (cl_sigs l)) (next_sig (cl_sigs l)).

Definition seed_link (acc : Table * nat) (l : ChainLink) : option (Table * nat) :=
  match admit_sibling acc.1 (tb_from (cl_body l)) (rank_of (tb_to (cl_body l), seeded_row l [])) with
  | None => Some acc
  | Some T =>
      payload ← encode_inner_op (stub l);
      Some (insert_or_ignore (tb_to (cl_body l)) (seeded_row l payload) T,
            if decide (is_Some (T !! tb_to (cl_body l))) then acc.2 else S acc.2)
  end.

(** The table it leaves, and how many links were stored; the device then
    adopts what it can. *)
Definition seed_identity_chain (T : Table) (genesis : bytes) (raw : bytes) : option (Table * nat) :=
  match decode raw with
  | Err _ => None
  | Ok c =>
      match verify c genesis with
      | Err _ => None
      | Ok _ => foldm seed_link (T, O) (links c)
      end
  end.
End fold.
