(* ===== verification/IdentitySiblings.v ===== *)
(** * Which successors a predecessor keeps

    The rows held for one predecessor are the greatest of those ever offered
    for it, in the order the fold reads them, whatever the order of arrival. *)

From Stdlib Require Import ZArith Lia.
From stdpp Require Import base tactics decidable countable option gmap sorting strings numbers list.
From S2P Require Import Prelude Bytes Hlc Cbor Wire Envelope DeviceCert Transition IdentityChain Identity.
Open Scope Z_scope.

(** ** Sorted insertion, cut short *)

Section insertion.
Context {A : Type} (R : A → A → Prop) `{!RelDecision R}.

Lemma insert_sorted_below x l : (∀ y, y ∈ l → ¬ R x y) → insert_sorted R x l = l ++ [x].
Proof.
  induction l as [|y l IH]; intros Hl; [done|]. simpl. rewrite decide_False by (apply Hl; left).
  f_equal. apply IH. intros z Hz. apply Hl. by right.
Qed.
Lemma insert_sorted_snoc x l y : R x y → insert_sorted R x (l ++ [y]) = insert_sorted R x l ++ [y].
Proof.
  intros Hxy. induction l as [|z l IH]; simpl; [by rewrite decide_True|]. case_decide; [done|]. by rewrite IH.
Qed.
Lemma take_insert_sorted n x l : take n (insert_sorted R x (take n l)) = take n (insert_sorted R x l).
Proof.
  revert n. induction l as [|y l IH]; intros n; [by rewrite take_nil|].
  destruct n as [|n]; [by rewrite !take_0|]. simpl. case_decide; simpl.
  - f_equal. destruct n as [|n]; [done|]. simpl. f_equal. rewrite take_take. f_equal. lia.
  - f_equal. apply IH.
Qed.
Lemma length_insert_sorted x l : length (insert_sorted R x l) = S (length l).
Proof. by rewrite insert_sorted_Permutation. Qed.
End insertion.

(** ** The rows of one predecessor *)

#[export] Instance sibling_ge_trans : Transitive sibling_ge.
Proof. intros a b c Hab Hbc. unfold sibling_ge in *. by eapply tle_trans. Qed.
#[export] Instance sibling_ge_total : Total sibling_ge.
Proof. intros a b. unfold sibling_ge. apply tle_total. Qed.

Lemma sibling_ge_key a b : sibling_ge a b → sibling_ge b a → a.1 = b.1.
Proof. intros Hab Hba. by pose proof (f_equal k_to_identity_id (tle_antisymm _ _ Hba Hab)). Qed.

Lemma elem_of_siblings T f r : r ∈ siblings T f ↔ T !! r.1 = Some r.2 ∧ r_from r.2 = f.
Proof.
  unfold siblings. rewrite elem_of_isort, list_elem_of_filter. destruct r as [k r].
  rewrite elem_of_map_to_list. simpl. tauto.
Qed.
Lemma siblings_sorted T f : StronglySorted sibling_ge (siblings T f).
Proof. apply (isort_StronglySorted _). Qed.
Lemma NoDup_siblings T f : NoDup (siblings T f).
Proof. unfold siblings. rewrite isort_Permutation. apply NoDup_filter, NoDup_map_to_list. Qed.

(** Any sorted list of the same rows is the same list. *)
Lemma siblings_unique T f l : StronglySorted sibling_ge l → l ≡ₚ siblings T f → l = siblings T f.
Proof.
  intros Hs Hp. rewrite <-(isort_id sibling_ge l) by (by apply StronglySorted_Sorted).
  unfold siblings. apply (isort_unique _).
  - intros a b Ha Hb Hab Hba. rewrite Hp, elem_of_siblings in Ha, Hb. pose proof (sibling_ge_key _ _ Hab Hba) as Hk.
    destruct a, b. simpl in *. destruct Ha as [Ha _], Hb as [Hb _]. congruence.
  - rewrite Hp. unfold siblings. by rewrite isort_Permutation.
Qed.

Lemma siblings_eq T T' f :
  (∀ k r, r_from r = f → T !! k = Some r ↔ T' !! k = Some r) → siblings T f = siblings T' f.
Proof.
  intros HT. apply siblings_unique; [apply siblings_sorted|].
  apply NoDup_Permutation; [apply NoDup_siblings|apply NoDup_siblings|]. intros [k r].
  rewrite !elem_of_siblings. simpl. naive_solver.
Qed.

Lemma siblings_insert T k r :
  T !! k = None → siblings (<[k := r]> T) (r_from r) = insert_sorted sibling_ge (k, r) (siblings T (r_from r)).
Proof.
  intros Hk. symmetry. apply siblings_unique.
  - apply Sorted_StronglySorted; [apply _|]. apply (insert_sorted_Sorted _), StronglySorted_Sorted, siblings_sorted.
  - rewrite insert_sorted_Permutation. unfold siblings. rewrite !isort_Permutation.
    rewrite map_to_list_insert by done. by rewrite filter_cons_True.
Qed.
Lemma siblings_insert_other T k r f : T !! k = None → r_from r ≠ f → siblings (<[k := r]> T) f = siblings T f.
Proof.
  intros Hk Hf. apply siblings_eq. intros k' r' <-. rewrite lookup_insert_Some. split; [|naive_solver].
  by intros [[<- <-]|[_ ?]].
Qed.
Lemma siblings_delete_other T k r f : T !! k = Some r → r_from r ≠ f → siblings (delete k T) f = siblings T f.
Proof.
  intros Hk Hf. apply siblings_eq. intros k' r' <-. rewrite lookup_delete_Some. split; [naive_solver|].
  intros Hk'. split; [|done]. intros <-. congruence.
Qed.
Lemma siblings_delete_last T f l w : siblings T f = l ++ [w] → siblings (delete w.1 T) f = l.
Proof.
  intros Hl. assert (w ∈ siblings T f) as [Hw Hf]%elem_of_siblings by (rewrite Hl; apply elem_of_app; right; by left).
  symmetry. apply siblings_unique.
  - eapply StronglySorted_sublist; [|apply (siblings_sorted T f)]. rewrite Hl. by apply sublist_inserts_r.
  - apply (Permutation_cons_inv (a := w)). rewrite (Permutation_cons_append l w), <-Hl.
    unfold siblings. rewrite !isort_Permutation.
    rewrite <-(insert_delete_id T w.1 w.2 Hw) at 1. rewrite map_to_list_insert by apply lookup_delete_eq.
    rewrite filter_cons_True by done. by destruct w.
Qed.

(** ** One offer *)

Definition offer (T : Table) (r : bytes * Row) : Table := default T (offer_row T r.1 r.2).
Definition bounded (T : Table) : Prop := ∀ f, (length (siblings T f) ≤ MAX_SIBLINGS_PER_PREDECESSOR)%nat.

Lemma filter_other T f k : T !! k = None → filter (λ r, r.1 ≠ k) (siblings T f) = siblings T f.
Proof.
  intros Hk. apply filter_all. intros x [Hx _]%elem_of_siblings Hk'. congruence.
Qed.

Lemma offer_held T r : bounded T → T !! r.1 = Some r.2 → offer T r = T.
Proof.
  intros Hb Hr. unfold offer, offer_row, admit_sibling. simpl.
  assert (length (filter (λ x, x.1 ≠ r.1) (siblings T (r_from r.2))) < length (siblings T (r_from r.2)))%nat as Hlt.
  { apply (length_filter_lt _ _ r); [|intros Hn; by apply Hn]. by apply elem_of_siblings. }
  specialize (Hb (r_from r.2)). rewrite decide_True by lia. simpl. unfold insert_or_ignore. by rewrite Hr.
Qed.

Lemma offer_new T r :
  bounded T → T !! r.1 = None →
  siblings (offer T r) (r_from r.2) =
    take MAX_SIBLINGS_PER_PREDECESSOR (insert_sorted sibling_ge r (siblings T (r_from r.2))) ∧
  ∀ f, r_from r.2 ≠ f → siblings (offer T r) f = siblings T f.
Proof.
  intros Hb Hr. set (f0 := r_from r.2). unfold offer, offer_row, admit_sibling. simpl. fold f0.
  rewrite filter_other by done. specialize (Hb f0).
  case_decide as Hlen; simpl.
  { unfold insert_or_ignore. rewrite Hr. split; [|intros; by apply siblings_insert_other].
    unfold f0. rewrite siblings_insert by done. rewrite <-surjective_pairing.
    rewrite take_ge; [done|]. rewrite length_insert_sorted. fold f0. lia. }
  destruct (siblings T f0) as [|w l _] eqn:Es using rev_ind; [simpl in Hlen; unfold MAX_SIBLINGS_PER_PREDECESSOR in Hlen; lia|].
  rewrite length_app in Hlen, Hb. simpl in Hlen, Hb.
  assert (length l = 15%nat) as Hl by (unfold MAX_SIBLINGS_PER_PREDECESSOR in *; lia).
  change (MAX_SIBLINGS_PER_PREDECESSOR - 1)%nat with 15%nat. rewrite <-Hl, list_lookup_middle by done. simpl.
  assert (∀ y, y ∈ l ++ [w] → sibling_ge y w) as Hge.
  { intros y Hy. pose proof (siblings_sorted T f0) as Hs. rewrite Es in Hs.
    apply elem_of_app in Hy as [Hy| ->%list_elem_of_singleton]; [|unfold sibling_ge; apply tle_refl].
    eapply StronglySorted_app_1_elem_of; [exact Hs|done|by left]. }
  assert (w ∈ siblings T f0) as [Hw Hwf]%elem_of_siblings by (rewrite Es; apply elem_of_app; right; by left).
  case_decide as Hrank; simpl.
  - split; [|done]. rewrite Es. rewrite (insert_sorted_below sibling_ge r (l ++ [w])).
    { rewrite take_app_length'; [done|]. rewrite length_app, Hl. done. }
    intros y Hy Hxy. assert (sibling_ge r w) as Hrw by (by etrans; [|by apply Hge]).
    assert (r.1 = w.1) as Hk by (apply sibling_ge_key; [done|exact Hrank]). congruence.
  - assert (T !! w.1 = Some w.2 ∧ r.1 ≠ w.1) as [_ Hne] by (split; [done|congruence]).
    unfold insert_or_ignore. rewrite lookup_delete_ne by done. rewrite Hr. simpl. split.
    + unfold f0. rewrite siblings_insert by (by rewrite lookup_delete_ne). rewrite <-surjective_pairing. fold f0.
      rewrite (siblings_delete_last T f0 l w Es). rewrite insert_sorted_snoc.
      * rewrite take_app_length'; [done|]. by rewrite length_insert_sorted, Hl.
      * unfold sibling_ge. apply tlt_tle. by apply not_tle.
    + intros f Hf. rewrite siblings_insert_other by (done || by rewrite lookup_delete_ne).
      apply (siblings_delete_other _ _ w.2); [done|congruence].
Qed.

(** ** Every offer *)

(** One successor id, one row. *)
Definition one_row_each (l : list (bytes * Row)) : Prop := ∀ a b, a ∈ l → b ∈ l → a.1 = b.1 → a = b.

Lemma lookup_offered l k r : one_row_each l → (list_to_map l : Table) !! k = Some r ↔ (k, r) ∈ l.
Proof.
  intros Hl. split; [apply elem_of_list_to_map_2|]. intros Hin. apply elem_of_list_to_map_1'; [|done].
  intros r' Hr'. pose proof (Hl _ _ Hin Hr' eq_refl). congruence.
Qed.

(** A row offered before under the same successor is the same row. *)
Lemma same_row l r x : one_row_each (l ++ [r]) → (r.1, x) ∈ l → (r.1, x) = r.
Proof. intros Hl Hx. apply Hl; [apply elem_of_app; by left|apply elem_of_app; right; by left|done]. Qed.

Lemma lookup_offered_snoc l r k x :
  one_row_each (l ++ [r]) → (list_to_map (l ++ [r]) : Table) !! k = Some x ↔ (k, x) ∈ l ∨ (k, x) = r.
Proof. intros Hl. rewrite lookup_offered by done. by rewrite elem_of_app, list_elem_of_singleton. Qed.

(** What the register holds of the rows offered so far. *)
Definition holds_greatest (T : Table) (l : list (bytes * Row)) : Prop :=
  ∀ f, siblings T f = take MAX_SIBLINGS_PER_PREDECESSOR (siblings (list_to_map l) f).

Lemma holds_bounded T l : holds_greatest T l → bounded T.
Proof. intros HT f. rewrite HT, length_take. lia. Qed.
Lemma holds_offered T l k x : one_row_each l → holds_greatest T l → T !! k = Some x → (k, x) ∈ l.
Proof.
  intros Hl HT Hx. assert ((k, x) ∈ siblings T (r_from x)) as Hin by (by apply elem_of_siblings).
  rewrite HT in Hin. apply elem_of_take in Hin as (i & Hi & _). apply list_elem_of_lookup_2 in Hi.
  apply elem_of_siblings in Hi as [Hi _]. by apply lookup_offered in Hi.
Qed.

(** A row that was offered and is not held stays out: all that are held
    outrank it. *)
Lemma evicted_stays_out T l r :
  one_row_each l → holds_greatest T l → r ∈ l → T !! r.1 = None →
  take MAX_SIBLINGS_PER_PREDECESSOR (insert_sorted sibling_ge r (siblings T (r_from r.2))) = siblings T (r_from r.2).
Proof.
  intros Hl HT Hin Ex. set (f := r_from r.2). pose proof (HT f) as Hf. set (F := siblings (list_to_map l) f) in *.
  assert (r ∈ F) as HF. { apply elem_of_siblings. split; [|done]. apply lookup_offered; [done|]. by destruct r. }
  assert (r ∉ siblings T f) as HnT by (intros [? _]%elem_of_siblings; congruence). rewrite Hf in HnT |- *.
  rewrite (insert_sorted_below sibling_ge r).
  - rewrite take_app_le; [by rewrite take_take, Nat.min_id|]. rewrite length_take. apply Nat.min_glb; [done|].
    destruct (decide (length F < MAX_SIBLINGS_PER_PREDECESSOR)%nat); [|lia]. rewrite take_ge in HnT by lia. done.
  - intros y Hy Hry. apply HnT. assert (sibling_ge y r) as Hyr.
    { rewrite <-(take_drop MAX_SIBLINGS_PER_PREDECESSOR F) in HF. apply elem_of_app in HF as [?|HF]; [done|].
      pose proof (siblings_sorted (list_to_map l) f) as HS. fold F in HS.
      rewrite <-(take_drop MAX_SIBLINGS_PER_PREDECESSOR F) in HS. by eapply StronglySorted_app_1_elem_of. }
    assert (r = y) as ->; [|done]. apply Hl; [done| |by apply sibling_ge_key].
    rewrite <-Hf, elem_of_siblings in Hy. destruct Hy as [Hy _]. apply (holds_offered T l) in Hy; [|done..].
    by destruct y.
Qed.

Lemma offer_holds T l r : one_row_each (l ++ [r]) → holds_greatest T l → holds_greatest (offer T r) (l ++ [r]).
Proof.
  intros Hl HT f. pose proof (holds_bounded _ _ HT) as Hb.
  assert (one_row_each l) as Hl' by (intros a b Ha Hb'; apply Hl; apply elem_of_app; by left).
  destruct (decide (r ∈ l)) as [Hin|Hnin].
  - assert (siblings (list_to_map (l ++ [r])) f = siblings (list_to_map l) f) as ->.
    { apply siblings_eq. intros k x _. rewrite lookup_offered_snoc, lookup_offered by done. split; [|by left].
      by intros [?|<-]. }
    rewrite <-HT. destruct (T !! r.1) as [x|] eqn:Ex.
    + rewrite offer_held; [done|done|]. rewrite Ex.
      by rewrite <-(same_row l r x Hl (holds_offered _ _ _ _ Hl' HT Ex)).
    + destruct (offer_new T r Hb Ex) as [Hs Ho]. destruct (decide (r_from r.2 = f)) as [<-|Hf]; [|by apply Ho].
      rewrite Hs. by apply (evicted_stays_out T l).
  - assert (∀ x, (r.1, x) ∉ l) as Hnew by (intros x Hx; apply Hnin; by rewrite <-(same_row l r x Hl Hx)).
    assert (T !! r.1 = None) as Ex.
    { destruct (T !! r.1) as [x|] eqn:Ex; [|done]. destruct (Hnew x). by apply (holds_offered T). }
    assert ((list_to_map l : Table) !! r.1 = None) as El.
    { destruct ((list_to_map l : Table) !! r.1) as [x|] eqn:Ey; [|done]. destruct (Hnew x). by apply lookup_offered. }
    assert (list_to_map (l ++ [r]) = <[r.1 := r.2]> (list_to_map l : Table)) as ->.
    { apply map_eq. intros k. apply option_eq. intros x.
      rewrite lookup_offered_snoc, lookup_insert_Some, lookup_offered by done.
      destruct r as [k' r']. simpl in *. split; [|naive_solver]. intros [Hx|[= -> ->]]; [|by left].
      right. split; [|done]. intros <-. by apply (Hnew x). }
    destruct (offer_new T r Hb Ex) as [Hs Ho]. destruct (decide (r_from r.2 = f)) as [<-|Hf].
    + rewrite Hs, siblings_insert by done. rewrite <-surjective_pairing, HT. apply (take_insert_sorted _).
    + rewrite Ho by done. by rewrite siblings_insert_other.
Qed.

Lemma kept_rows l : one_row_each l → holds_greatest (foldl offer ∅ l) l.
Proof.
  induction l as [|r l IH] using rev_ind; intros Hl.
  { intros f. simpl. unfold siblings. by rewrite map_to_list_empty. }
  rewrite foldl_app. simpl. apply offer_holds; [done|]. apply IH.
  intros a b Ha Hb. apply Hl; apply elem_of_app; by left.
Qed.
