(* ===== verification/IdentityFold.v ===== *)
(** * The fold over the transitions

    The walk ends, on any table; every step of it is a transition the identity
    before authorised and the one after accepted, and the greatest such; what
    it depends on is, for each identity, the rows it reads. *)

From Stdlib Require Import ZArith Lia.
From stdpp Require Import base tactics decidable countable option gmap sorting strings numbers list.
From S2P Require Import Prelude Bytes Hlc Cbor Wire Envelope DeviceCert Transition TransitionFacts IdentityChain Identity IdentitySiblings.
Open Scope Z_scope.

Lemma find_map_Some {A B} (f : A → option B) l y :
  find_map f l = Some y ↔ ∃ l1 x l2, l = l1 ++ x :: l2 ∧ f x = Some y ∧ Forall (λ z, f z = None) l1.
Proof.
  split.
  - induction l as [|z l IH]; [done|]. simpl. destruct (f z) as [y'|] eqn:E.
    + intros [= <-]. by exists [], z, l.
    + intros (l1 & x & l2 & -> & Hx & Hn)%IH. exists (z :: l1), x, l2. split_and!; [done|done|by constructor].
  - intros (l1 & x & l2 & -> & Hx & Hn). induction Hn as [|z l1 Hz _ IH]; simpl; [by rewrite Hx|by rewrite Hz].
Qed.
Lemma find_map_None {A B} (f : A → option B) l : find_map f l = None ↔ Forall (λ z, f z = None) l.
Proof.
  split.
  - induction l as [|z l IH]; [by constructor|]. simpl. destruct (f z) eqn:E; [done|]. intros. constructor; auto.
  - induction 1 as [|z l Hz _ IH]; [done|]. simpl. by rewrite Hz.
Qed.
(** Passing over elements that give nothing changes nothing. *)
Lemma find_map_filter {A B} (f : A → option B) (P : A → Prop) `{!∀ x, Decision (P x)} l :
  (∀ x, x ∈ l → ¬ P x → f x = None) → find_map f (filter P l) = find_map f l.
Proof.
  induction l as [|x l IH]; intros Hf; [done|]. rewrite filter_cons. simpl.
  assert (find_map f (filter P l) = find_map f l) as E by (apply IH; intros; apply Hf; [by right|done]).
  case_decide as Hp; simpl; [by rewrite E|]. rewrite (Hf x) by (done || by left). done.
Qed.

Section fold.
Context `{Ciborium, Crypto}.
Implicit Types (T : Table) (seen : gset bytes) (a b : bytes * bytes).

(** The row [r] carries the identity [a] to [b]. *)
Definition succeeds a b (r : Row) : Prop :=
  r_from r = a.1 ∧ ∃ body sigs, from_row a.1 (b.1, r) = Some (body, sigs) ∧
    verify_identity_transition body a.2 sigs = Ok tt ∧ tb_to_id_s_pub body = b.2.

Lemma from_row_fields from k r body s :
  from_row from (k, r) = Some (body, s) →
  tb_from body = from ∧ tb_to body = k ∧ tb_to_id_s_pub body = r_to_id_s_pub r ∧ tb_to_id_d_pub body = r_to_id_d_pub r ∧
  tb_roster_digest body = r_roster_digest r ∧ tb_shares_digest body = r_shares_digest r ∧
  prev_sig s = r_prev_sig r ∧ next_sig s = r_next_sig r ∧
  length k = 16%nat ∧ length (r_to_id_s_pub r) = 32%nat ∧ length (r_to_id_d_pub r) = 32%nat ∧
  length (r_roster_digest r) = 32%nat ∧ length (r_shares_digest r) = 32%nat ∧
  length (r_prev_sig r) = 64%nat ∧ length (r_next_sig r) = 64%nat.
Proof.
  unfold from_row, fixed_width. simpl. intros Hr.
  repeat case_decide; simpl in Hr; try done. injection Hr as <- <-. by split_and!.
Qed.

Lemma succeeds_id a b r : succeeds a b r → b.1 = identity_id_from_pub b.2 ∧ a.1 ≠ b.1 ∧ r_to_id_s_pub r = b.2.
Proof.
  intros (_ & body & sigs & (Hf & Ht & Hs & _)%from_row_fields & ((_ & Hb & Hne) & _)%verify_transition_ok & <-).
  rewrite Ht in Hb. rewrite Hf, Ht in Hne. done.
Qed.

Lemma verified_row_succeeds a k r :
  r_from r = a.1 → (verified_row a (k, r) = true) ↔ succeeds a (k, r_to_id_s_pub r) r.
Proof.
  intros Hf. unfold verified_row, succeeds. simpl. destruct (from_row a.1 (k, r)) as [[body s]|] eqn:E.
  - pose proof (from_row_fields _ _ _ _ _ E) as (_ & _ & Hs & _).
    destruct (verify_identity_transition body a.2 s) as [[]|] eqn:Ev; simpl; split; try done.
    + intros _. split; [done|]. by exists body, s.
    + intros (_ & ? & ? & [= <- <-] & Hv & _). congruence.
  - split; [done|]. by intros (_ & ? & ? & ? & _).
Qed.

Lemma candidate_Some T seen a x b :
  x ∈ siblings T a.1 →
  (candidate seen a x = Some b) ↔ x.1 = b.1 ∧ b.1 ∉ seen ∧ succeeds a b x.2.
Proof.
  intros [_ Hf]%elem_of_siblings. destruct x as [k r]. unfold candidate, succeeds. simpl in *.
  destruct (from_row a.1 (k, r)) as [[body s]|] eqn:E; simpl.
  - pose proof (from_row_fields _ _ _ _ _ E) as (_ & Ht & Hs & _). rewrite Ht.
    destruct b as [b1 b2]. simpl. split.
    + case_decide; [done|]. destruct (verify_identity_transition _ _ _) as [[]|] eqn:Ev; [|done].
      intros [= <- <-]. split_and!; [done|done|done|]. by exists body, s.
    + intros (-> & Hn & _ & body' & s' & E' & Ev & <-). rewrite E in E'. injection E' as <- <-.
      by rewrite decide_False, Ev by done.
  - split; [done|]. intros (<- & _ & _ & ? & ? & ? & _). simpl in *. congruence.
Qed.

Lemma candidate_None T seen a x :
  x ∈ siblings T a.1 → candidate seen a x = None → ∀ b, x.1 = b.1 → succeeds a b x.2 → b.1 ∈ seen.
Proof.
  intros Hx Hn b Hb Hs. destruct (decide (b.1 ∈ seen)) as [|Hns]; [done|].
  pose proof (proj2 (candidate_Some T seen a x b Hx) (conj Hb (conj Hns Hs))). congruence.
Qed.

(** ** One step *)

Definition read (T : Table) (from : bytes) : list (bytes * Row) :=
  take MAX_SIBLING_CANDIDATES (siblings T from).

Lemma elem_of_read T f x : x ∈ read T f → x ∈ siblings T f.
Proof. intros (i & Hi & _)%elem_of_take. by apply list_elem_of_lookup_2 in Hi. Qed.

(** The next link: the greatest row that verifies and is not on the chain. *)
Lemma next_link_Some T seen a b :
  next_link T seen a = Some b →
  b.1 ∉ seen ∧ ∃ r, T !! b.1 = Some r ∧ (b.1, r) ∈ read T a.1 ∧ succeeds a b r ∧
    ∀ c rc, (c.1, rc) ∈ read T a.1 → succeeds a c rc → rank_of (b.1, r) ≺ rank_of (c.1, rc) → c.1 ∈ seen.
Proof.
  unfold next_link. fold (read T a.1). intros (l1 & [k r] & l2 & El & Hc & Hn)%find_map_Some.
  assert ((k, r) ∈ read T a.1) as Hin by (rewrite El; apply elem_of_app; right; by left).
  pose proof (elem_of_read _ _ _ Hin) as Hs. apply (candidate_Some T) in Hc as (Hk & Hns & Hsu); [|done].
  simpl in *. subst k. split; [done|]. exists r. split_and!; [by apply elem_of_siblings in Hs as [? _]|done|done|].
  intros c rc Hcin Hcs Hlt. rewrite El in Hcin. apply elem_of_app in Hcin as [Hc|Hc].
  - rewrite Forall_forall in Hn. pose proof (Hn _ Hc) as Hcn.
    eapply (candidate_None T seen a (c.1, rc)); [|done|done|done]. apply elem_of_read. rewrite El. apply elem_of_app. by left.
  - exfalso. assert (StronglySorted sibling_ge ((b.1, r) :: l2)) as [_ Hall]%StronglySorted_inv.
    { eapply (StronglySorted_app_1_r _ l1). rewrite <-El. unfold read.
      eapply StronglySorted_sublist; [|apply (siblings_sorted T a.1)]. apply sublist_take. }
    apply elem_of_cons in Hc as [Heq|Hc].
    + rewrite Heq in Hlt. by apply tlt_irrefl in Hlt.
    + rewrite Forall_forall in Hall. by apply (Hall _ Hc).
Qed.

Lemma next_link_None T seen a :
  next_link T seen a = None → ∀ c r, (c.1, r) ∈ read T a.1 → succeeds a c r → c.1 ∈ seen.
Proof.
  unfold next_link. fold (read T a.1). intros Hn%find_map_None c r Hin Hs. rewrite Forall_forall in Hn.
  eapply (candidate_None T); [|by apply Hn| |done]; [by apply elem_of_read|done].
Qed.

(** ** The walk *)

Inductive walks (T : Table) : gset bytes → bytes * bytes → list (bytes * bytes) → Prop :=
  | walk_stop seen a : next_link T seen a = None → walks T seen a []
  | walk_step seen a b rest :
      next_link T seen a = Some b → walks T ({[b.1]} ∪ seen) b rest → walks T seen a (b :: rest).

Lemma walks_det T seen a l l' : walks T seen a l → walks T seen a l' → l = l'.
Proof.
  intros Hw. revert l'. induction Hw as [seen a Hn|seen a b rest Hn _ IH]; intros l' Hw'.
  - inversion Hw' as [|? ? c rest' Hn']; [done|congruence].
  - inversion Hw' as [? ? Hn'|? ? c rest' Hn' Hr']; [congruence|].
    assert (b = c) as <- by congruence. f_equal. by apply IH.
Qed.

Lemma chain_loop_walks fuel T seen a l : chain_loop fuel T seen a = Some l → walks T seen a l.
Proof.
  revert seen a l. induction fuel as [|fuel IH]; intros seen a l; [done|]. simpl.
  destruct (next_link T seen a) as [b|] eqn:E; [|by intros [= <-]; constructor].
  destruct (chain_loop fuel T _ b) as [rest|] eqn:Er; simpl; [|done]. intros [= <-].
  econstructor; [done|]. by apply IH.
Qed.

(** Every step uses up a row of the table. *)
Lemma chain_loop_total fuel T seen a : (size (dom T ∖ seen) < fuel)%nat → is_Some (chain_loop fuel T seen a).
Proof.
  revert seen a. induction fuel as [|fuel IH]; intros seen a Hf; [lia|]. simpl.
  destruct (next_link T seen a) as [b|] eqn:E; [|done].
  apply next_link_Some in E as (Hns & r & Hr & _).
  apply elem_of_dom_2 in Hr.
  assert (size (dom T ∖ ({[b.1]} ∪ seen)) < size (dom T ∖ seen))%nat by (apply subset_size; set_solver).
  destruct (IH ({[b.1]} ∪ seen) b) as [rest ->]; [lia|by eexists].
Qed.

Lemma walks_exists T seen a : ∃ l, walks T seen a l.
Proof.
  destruct (chain_loop_total (S (size (dom T ∖ seen))) T seen a) as [l Hl]; [lia|].
  exists l. by eapply chain_loop_walks.
Qed.

Lemma chain_identities_walks T start l :
  chain_identities T start = Some l ↔ ∃ rest, l = start :: rest ∧ walks T {[start.1]} start rest.
Proof.
  unfold chain_identities. destruct (chain_loop_total (S (size T)) T {[start.1]} start) as [rest Hr].
  { rewrite <-(size_dom T). apply Nat.lt_succ_r. apply subseteq_size. set_solver. }
  rewrite Hr. simpl. apply chain_loop_walks in Hr. split; [intros [= <-]; eauto|].
  intros (rest' & -> & Hw). do 2 f_equal. by eapply walks_det.
Qed.
Lemma chain_identities_total T start : ∃ rest, chain_identities T start = Some (start :: rest).
Proof.
  destruct (walks_exists T {[start.1]} start) as [rest Hw]. exists rest. apply chain_identities_walks. eauto.
Qed.

(** Tables whose reads agree have the same chain. *)
Lemma walks_read T T' seen a l : (∀ f, read T f = read T' f) → walks T seen a l → walks T' seen a l.
Proof.
  intros HT. induction 1 as [seen a Hn|seen a b rest Hn _ IH]; [apply walk_stop|eapply walk_step; [|done]];
    revert Hn; unfold next_link; fold (read T a.1) (read T' a.1); by rewrite HT.
Qed.
Lemma chain_read T T' start : (∀ f, read T f = read T' f) → chain_identities T start = chain_identities T' start.
Proof.
  intros HT. destruct (chain_identities_total T start) as [l Hl]. rewrite Hl. symmetry.
  apply chain_identities_walks in Hl as (rest & [= <-] & Hw). apply chain_identities_walks.
  exists l. split; [done|]. by eapply walks_read.
Qed.

(** ** What a walk is *)

Lemma walks_NoDup T seen a l : walks T seen a l → NoDup l.*1 ∧ ∀ b, b ∈ l → b.1 ∉ seen.
Proof.
  induction 1 as [seen a Hn|seen a b rest Hn _ [IHn IHs]]; [split; [constructor|by intros b ?%elem_of_nil]|].
  apply next_link_Some in Hn as [Hns _]. split.
  - cbn [fmap list_fmap]. constructor; [|done]. intros (c & Hc & Hin)%list_elem_of_fmap.
    apply IHs in Hin. set_solver.
  - intros c [->|Hc]%elem_of_cons; [done|]. apply IHs in Hc. set_solver.
Qed.

Lemma walks_length T seen a l : walks T seen a l → (length l ≤ size T)%nat.
Proof.
  intros Hw. pose proof (walks_NoDup _ _ _ _ Hw) as [Hnd _].
  assert (∀ b, b ∈ l → b.1 ∈ dom T) as Hd.
  { clear Hnd. induction Hw as [|seen a b rest Hn _ IH]; intros c Hc; [by apply elem_of_nil in Hc|].
    apply next_link_Some in Hn as (_ & r & Hr & _). apply elem_of_cons in Hc as [->|Hc]; [by eapply elem_of_dom_2|auto]. }
  rewrite <-(length_fmap fst l), <-(size_list_to_set (C := gset bytes) l.*1) by done. rewrite <-(size_dom T).
  apply subseteq_size. intros k. rewrite elem_of_list_to_set, list_elem_of_fmap. intros (b & -> & Hb). by apply Hd.
Qed.

(** Each step of a chain, with the identities reached before it. *)
Lemma walks_steps T seen a l i x y :
  walks T seen a l → (a :: l) !! i = Some x → (a :: l) !! S i = Some y →
  next_link T (list_to_set (take i l.*1) ∪ seen) x = Some y.
Proof.
  intros Hw. revert i. induction Hw as [seen a Hn|seen a b rest Hn _ IH]; intros i Hx Hy; [by destruct i|].
  destruct i as [|i]; simpl in *; simplify_eq.
  - by rewrite union_empty_l_L.
  - rewrite <-(IH i) by done. f_equal. set_solver.
Qed.
Lemma walks_end T seen a l x :
  walks T seen a l → last (a :: l) = Some x → next_link T (list_to_set l.*1 ∪ seen) x = None.
Proof.
  induction 1 as [seen a Hn|seen a b rest Hn _ IH]; intros Hx.
  - injection Hx as <-. simpl. by rewrite union_empty_l_L.
  - rewrite last_cons_cons in Hx. rewrite <-(IH Hx). f_equal. set_solver.
Qed.

Lemma chain_NoDup T start l : chain_identities T start = Some l → NoDup l.*1.
Proof.
  intros (rest & -> & Hw)%chain_identities_walks. apply walks_NoDup in Hw as [Hn Hs].
  cbn [fmap list_fmap]. constructor; [|done]. intros (b & Hb1 & Hin)%list_elem_of_fmap. apply Hs in Hin. set_solver.
Qed.

(** One identity, one link. *)
Lemma same_id (l : list (bytes * bytes)) a b : NoDup l.*1 → a ∈ l → b ∈ l → a.1 = b.1 → a = b.
Proof.
  intros Hnd [i Hi]%list_elem_of_lookup [j Hj]%list_elem_of_lookup Hab.
  assert (i = j) as ->; [|congruence].
  apply (NoDup_lookup _ _ _ a.1 Hnd); rewrite list_lookup_fmap; [by rewrite Hi|rewrite Hj; simpl; congruence].
Qed.

(** Every link but the first is a row of the table. *)
Lemma chain_member T start l b :
  chain_identities T start = Some l → b ∈ l → b = start ∨ ∃ r, T !! b.1 = Some r ∧ r_to_id_s_pub r = b.2.
Proof.
  intros (rest & -> & Hw)%chain_identities_walks. intros [->|Hb]%elem_of_cons; [by left|right].
  induction Hw as [seen a Hn|seen a c rest Hn _ IH]; [by apply elem_of_nil in Hb|].
  apply elem_of_cons in Hb as [->|Hb]; [|auto].
  apply next_link_Some in Hn as (_ & r & Hr & _ & Hs & _). exists r. split; [done|]. by eapply succeeds_id.
Qed.
End fold.
