(* ===== verification/IdentityInv.v ===== *)
(** * The rows held under an established identity

    Absorbing transitions keeps every predecessor within its places, keeps
    only rows their successors signed, and leaves no row under an identity of
    the chain that the identity did not authorise. *)

From Stdlib Require Import ZArith Lia.
From stdpp Require Import base tactics decidable countable option gmap sorting strings numbers list.
From S2P Require Import Prelude Bytes Hlc Cbor Wire Envelope DeviceCert Transition TransitionFacts IdentityChain Identity IdentitySiblings IdentityFold.
Open Scope Z_scope.

(** The widths of the hashes. *)
Class HashWidths `{Crypto} : Prop := {
  length_blake3 b : length (blake3 b) = 32%nat;
  length_derive_key c m n : length (derive_key c m n) = n;
}.

(** ** Rows that differ in rank and payload only *)

Record same_link (r r' : Row) : Prop := {
  sl_from : r_from r = r_from r';
  sl_to_s : r_to_id_s_pub r = r_to_id_s_pub r';
  sl_to_d : r_to_id_d_pub r = r_to_id_d_pub r';
  sl_prev : r_prev_sig r = r_prev_sig r';
  sl_next : r_next_sig r = r_next_sig r';
  sl_roster : r_roster_digest r = r_roster_digest r';
  sl_shares : r_shares_digest r = r_shares_digest r';
}.
Lemma same_link_refl r : same_link r r.
Proof. done. Qed.
Lemma from_row_same f k r r' : same_link r r' → from_row f (k, r) = from_row f (k, r').
Proof. intros [_ Hs Hd Hp Hn Hr Hh]. unfold from_row. simpl. by rewrite Hs, Hd, Hp, Hn, Hr, Hh. Qed.

(** Every row of [T'] is a row of [T], up to rank and payload. *)
Definition drawn_from (T T' : Table) : Prop :=
  ∀ k r', T' !! k = Some r' → ∃ r, T !! k = Some r ∧ same_link r r'.

Lemma NoDup_sibling_keys T f : NoDup (siblings T f).*1.
Proof.
  apply (NoDup_fmap_2_strong fst); [|apply NoDup_siblings].
  intros [k r] [k' r'] [Hk _]%elem_of_siblings [Hk' _]%elem_of_siblings. simpl in *. intros <-. congruence.
Qed.
Lemma drawn_length T T' f : drawn_from T T' → (length (siblings T' f) ≤ length (siblings T f))%nat.
Proof.
  intros HT. rewrite <-(length_fmap fst (siblings T' f)), <-(length_fmap fst (siblings T f)).
  apply submseteq_length, NoDup_submseteq; [apply NoDup_sibling_keys|].
  intros k ([k' r'] & -> & [Hk Hf]%elem_of_siblings)%list_elem_of_fmap. simpl in *.
  apply HT in Hk as (r & Hr & []). apply list_elem_of_fmap. exists (k', r). split; [done|].
  apply elem_of_siblings. simpl. split; [done|congruence].
Qed.
Lemma drawn_bounded T T' : bounded T → drawn_from T T' → bounded T'.
Proof. intros Hb HT f. etrans; [by apply drawn_length|apply Hb]. Qed.

(** ** What each operation leaves *)

Lemma offer_lookup T T' to r :
  offer_row T to r = Some T' →
  (∀ k x, T' !! k = Some x → T !! k = Some x ∨ (k = to ∧ x = r ∧ T !! k = None)) ∧
  (∀ x, T !! to = Some x → T' !! to = Some x).
Proof.
  unfold offer_row, admit_sibling. simpl. intros Ho.
  assert (∃ T1, (T1 = T ∨ ∃ w, w ≠ to ∧ T1 = delete w T) ∧ T' = insert_or_ignore to r T1) as (T1 & HT & ->).
  { case_decide; simpl in Ho; [injection Ho as <-; eauto|].
    destruct (filter _ _ !! _) as [w|] eqn:Ew; simpl in Ho; [|done].
    case_decide; simpl in Ho; [done|]. injection Ho as <-. eexists. split; [|done]. right. exists w.1. split; [|done].
    apply list_elem_of_lookup_2, list_elem_of_filter in Ew as [Hne _]. exact Hne. }
  assert (∀ k x, T1 !! k = Some x → T !! k = Some x) as Hsub.
  { destruct HT as [->|(w & Hw & ->)]; [done|]. intros k x [_ ?]%lookup_delete_Some. done. }
  assert (T1 !! to = T !! to) as Hto by (destruct HT as [->|(w & Hw & ->)]; [done|by rewrite lookup_delete_ne]).
  unfold insert_or_ignore. rewrite Hto. destruct (T !! to) as [y|] eqn:Ey.
  - split; [naive_solver|]. intros x [= <-]. by rewrite Hto.
  - split; [|done]. intros k x [[<- <-]|[_ Hx]]%lookup_insert_Some; [by right|left; auto].
Qed.

Lemma offer_bounded T T' to r : bounded T → offer_row T to r = Some T' → bounded T'.
Proof.
  intros Hb Ho. destruct (T !! to) as [x|] eqn:Ex.
  - eapply drawn_bounded; [done|]. intros k y Hy. exists y. split; [|done].
    destruct (proj1 (offer_lookup _ _ _ _ Ho) k y Hy) as [?|(-> & _ & ?)]; [done|congruence].
  - destruct (offer_new T (to, r) Hb Ex) as [Hs Hot]. unfold offer in *. simpl in *. rewrite Ho in Hs, Hot. simpl in *.
    intros f. destruct (decide (r_from r = f)) as [<-|Hf]; [|rewrite Hot by done; apply Hb].
    rewrite Hs, length_take. lia.
Qed.

Lemma fill_lookup `{TransitionCodec} to r T k :
  (∀ x, T !! k = Some x → ∃ x', fill_seeded to r T !! k = Some x' ∧ same_link x x') ∧
  (∀ x', fill_seeded to r T !! k = Some x' → ∃ x, T !! k = Some x ∧ same_link x x').
Proof.
  assert (∀ r', ∀ T' : Table, T' !! k = Some r' → ∃ r, T' !! k = Some r ∧ same_link r' r) as Hrefl by (intros; by eexists).
  assert (∀ r', ∀ T' : Table, T' !! k = Some r' → ∃ r, T' !! k = Some r ∧ same_link r r') as Hrefl' by (intros; by eexists).
  unfold fill_seeded. destruct (T !! to) as [held|] eqn:Eh; [|by split; auto].
  destruct (_ && _); [|by split; auto]. destruct (decide (k = to)) as [->|Hk].
  - rewrite lookup_insert_eq, Eh. split; intros ? [= <-]; eexists; by split.
  - rewrite lookup_insert_ne by done. by split; auto.
Qed.

Section sweeping.
Context `{Ciborium, Crypto}.

Lemma purge_lookup T a k r :
  (purge_unverifiable_siblings T a).1 !! k = Some r ↔
  T !! k = Some r ∧ (r_from r = a.1 → verified_row a (k, r) = true).
Proof.
  unfold purge_unverifiable_siblings.
  assert (∀ l n, (∀ x, x ∈ l → T !! x.1 = Some x.2) →
    (foldr (λ x acc, if verified_row a x then acc else (delete x.1 acc.1, S acc.2)) (T, n) l).1 !! k = Some r ↔
    T !! k = Some r ∧ ((k, r) ∈ l → verified_row a (k, r) = true)) as Hl.
  { intros l n. induction l as [|x l IH]; intros Hin; simpl.
    - split; [intros; split; [done|by intros ?%elem_of_nil]|by intros [? _]].
    - assert (∀ y, y ∈ l → T !! y.1 = Some y.2) as Hin' by (intros; apply Hin; by right).
      specialize (IH Hin'). destruct (verified_row a x) eqn:Ev; simpl.
      + rewrite IH. split; intros [Hk Hv]; (split; [done|]); intros Hx; [|apply Hv; by right].
        apply elem_of_cons in Hx as [->|Hx]; auto.
      + rewrite lookup_delete_Some, IH. split.
        * intros (Hne & Hk & Hv). split; [done|]. intros [<-|Hx]%elem_of_cons; [done|auto].
        * intros [Hk Hv]. split_and!; [|done|intros; apply Hv; by right].
          intros <-. assert (x = (x.1, r)) as Hx.
          { specialize (Hin x ltac:(by left)). destruct x. simpl in *. congruence. }
          rewrite <-Hx in Hv. rewrite Hv in Ev by by left. done. }
  rewrite Hl.
  - split; (intros [Hk Hv]; split; [done|]).
    + intros Hf. apply Hv, list_elem_of_filter. split; [done|]. by apply elem_of_map_to_list.
    + intros [Hf _]%list_elem_of_filter. by apply Hv.
  - intros [k' r'] [_ Hx]%list_elem_of_filter. by apply elem_of_map_to_list in Hx.
Qed.

Lemma sweep_lookup old reached T k r :
  sweep_reached old reached T !! k = Some r ↔
  T !! k = Some r ∧ ∀ a, a ∈ reached → a.1 ∉ old.*1 → r_from r = a.1 → verified_row a (k, r) = true.
Proof.
  unfold sweep_reached.
  assert (∀ l T, foldl (λ T link, (purge_unverifiable_siblings T link).1) T l !! k = Some r ↔
    T !! k = Some r ∧ ∀ a, a ∈ l → r_from r = a.1 → verified_row a (k, r) = true) as Hl.
  { clear T. intros l. induction l as [|b l IH]; intros T; simpl.
    - split; [intros; split; [done|by intros ? ?%elem_of_nil]|by intros [? _]].
    - rewrite IH, purge_lookup. split.
      + intros [[Hk Hb] Hv]. split; [done|]. intros a [->|Ha]%elem_of_cons; auto.
      + intros [Hk Hv]. split_and!; [done| |]; intros; apply Hv; [by left|done|by right|done]. }
  rewrite Hl. apply and_iff_compat_l. split; intros Hv a.
  - intros Ha Ho. apply Hv. by apply list_elem_of_filter.
  - intros [Ho Ha]%list_elem_of_filter. by apply Hv.
Qed.

(** Deleting rows a link never signed leaves its next link as it was. *)
Lemma next_link_kept T T' seen a :
  bounded T → (∀ k r, T' !! k = Some r → T !! k = Some r) →
  (∀ k r, T !! k = Some r → r_from r = a.1 → verified_row a (k, r) = true → T' !! k = Some r) →
  next_link T' seen a = next_link T seen a.
Proof.
  intros Hb Hsub Hkeep. unfold next_link.
  assert (drawn_from T T') as Hd by (intros k r Hr; exists r; split; [auto|done]).
  rewrite !take_ge by (apply Hb || (eapply drawn_bounded; [exact Hb|done])).
  assert (filter (λ x, T' !! x.1 = Some x.2) (siblings T a.1) = siblings T' a.1) as <-.
  { apply siblings_unique; [eapply StronglySorted_sublist; [apply sublist_filter|apply siblings_sorted]|].
    apply NoDup_Permutation; [apply NoDup_filter, NoDup_siblings|apply NoDup_siblings|].
    intros [k r]. rewrite list_elem_of_filter, !elem_of_siblings. simpl. naive_solver. }
  apply find_map_filter. intros [k r] Hx Hn. destruct (candidate seen a (k, r)) as [b|] eqn:Ec; [|done].
  destruct Hn. simpl in *. pose proof Hx as [Hk Hf]%elem_of_siblings. simpl in *.
  apply (candidate_Some T) in Ec as (Hkb & _ & Hs); [|done]. simpl in *. subst k. apply Hkeep; [done|done|].
  apply verified_row_succeeds; [done|]. pose proof (succeeds_id _ _ _ Hs) as (_ & _ & ->). by destruct b.
Qed.

Lemma walks_kept T T' seen a l :
  bounded T → (∀ k r, T' !! k = Some r → T !! k = Some r) →
  (∀ b, b ∈ a :: l → ∀ k r, T !! k = Some r → r_from r = b.1 → verified_row b (k, r) = true → T' !! k = Some r) →
  walks T seen a l → walks T' seen a l.
Proof.
  intros Hb Hsub Hkeep Hw. induction Hw as [seen a Hn|seen a b rest Hn Hw IH].
  - apply walk_stop. rewrite next_link_kept with (T := T); [done|done|done|]. apply Hkeep. by left.
  - eapply walk_step.
    + rewrite next_link_kept with (T := T); [exact Hn|done|done|]. apply Hkeep. by left.
    + apply IH. intros c Hc. apply Hkeep. by right.
Qed.

(** The sweep does not move the chain it sweeps. *)
Lemma chain_swept T start old reached :
  bounded T → chain_identities T start = Some reached →
  chain_identities (sweep_reached old reached T) start = Some reached.
Proof.
  intros Hb Hc. pose proof (chain_NoDup _ _ _ Hc) as Hnd. revert Hc Hnd.
  intros (rest & -> & Hw)%chain_identities_walks Hnd. apply chain_identities_walks. exists rest. split; [done|].
  apply (walks_kept T); [done| | |done].
  - intros k r [? _]%sweep_lookup. done.
  - intros b Hbin k r Hr Hf Hv. apply sweep_lookup. split; [done|]. intros a Ha _ Hfa.
    assert (a = b) as ->; [|done]. eapply same_id; [done|done|done|congruence].
Qed.
End sweeping.

(** ** Absorbing a transition *)

(** The codec reads what it wrote, and writes every payload. *)
Class TransitionCodecLaws `{TransitionCodec} : Prop := {
  encode_total p : is_Some (encode_inner_op p);
  decode_encoded_op p b : encode_inner_op p = Some b → decode_inner_op b = Some p;
}.

(** The arrays of a payload have the widths of their types. *)
Record payload_wf (p : IdentityTransitionPayload) : Prop := {
  pw_to : length (p_to p) = 16%nat;
  pw_to_s : length (p_to_id_s_pub p) = 32%nat;
  pw_to_d : length (p_to_id_d_pub p) = 32%nat;
  pw_prev : length (p_prev_sig p) = 64%nat;
  pw_next : length (p_next_sig p) = 64%nat;
}.

Section absorb.
Context `{Ciborium, Crypto, !HashWidths, TransitionCodec, !TransitionCodecLaws}.

Definition carry_fits (r : Row) : Prop :=
  ∀ p share, decode_inner_op (r_payload r) = Some p → p_identity_share p = Some share →
    length share = IDENTITY_SHARE_LEN.

(** What the table keeps true. *)
Record table_inv (T : Table) (start : bytes * bytes) : Prop := {
  ti_bounded : bounded T;
  ti_signed : ∀ k r, T !! k = Some r → ∃ body sigs,
    from_row (r_from r) (k, r) = Some (body, sigs) ∧ verify_successor_signature body sigs = Ok tt;
  ti_carry : ∀ k r, T !! k = Some r → carry_fits r;
  ti_established : ∀ chain a k r,
    chain_identities T start = Some chain → a ∈ chain → T !! k = Some r → r_from r = a.1 →
    verified_row a (k, r) = true;
}.

Lemma empty_table_inv start : table_inv ∅ start.
Proof.
  split; try (intros; by rewrite lookup_empty in *).
  intros f. unfold siblings. rewrite map_to_list_empty. simpl. lia.
Qed.

Lemma shares_digest_carry shares carry d share :
  shares_digest shares carry = Ok d → carry = Some share → length share = IDENTITY_SHARE_LEN.
Proof.
  intros Hd ->. revert Hd. unfold shares_digest, shares_input. destruct (share_entries _); simpl; [|done].
  destruct (repeated _); [done|]. by case_decide.
Qed.

Lemma digest_widths certs shares carry rd sd :
  roster_digest certs = Ok rd → shares_digest shares carry = Ok sd → length rd = 32%nat ∧ length sd = 32%nat.
Proof.
  unfold roster_digest, shares_digest. destruct (roster_input certs); simpl; [|done]. intros [= <-].
  destruct (shares_input shares carry); simpl; [|done]. intros [= <-]. split; apply length_blake3.
Qed.

Lemma checked_row_spec p e h s payload body sigs r :
  payload_wf p → checked_row p e h s payload = Some (body, sigs, r) →
  r_from r = p_from p ∧ r_payload r = payload ∧ from_row (p_from p) (p_to p, r) = Some (body, sigs) ∧
  verify_successor_signature body sigs = Ok tt ∧
  (∀ share, p_identity_share p = Some share → length share = IDENTITY_SHARE_LEN).
Proof.
  intros [Hto Hs Hd Hp Hn]. unfold checked_row. case_decide; [done|]. case_decide; [done|].
  destruct (roster_digest (p_roster p)) as [rd|] eqn:Er; [|done].
  destruct (shares_digest _ _) as [sd|] eqn:Es; [|done]. destruct (existsb _ _); [done|].
  destruct (verify_successor_signature _ _) as [[]|] eqn:Ev; [|done]. intros [= <- <- <-]. simpl.
  destruct (digest_widths _ _ _ _ _ Er Es) as [Hrd Hsd].
  split_and!; [done|done| |done|intros; by eapply shares_digest_carry].
  unfold from_row, fixed_width. simpl. by repeat (rewrite decide_True by done; simpl).
Qed.
(** Sweeping under a link of the chain finds nothing to delete. *)
Lemma purge_established T start chain a :
  table_inv T start → chain_identities T start = Some chain → a ∈ chain →
  (purge_unverifiable_siblings T a).1 = T.
Proof.
  intros Hi Hc Ha. apply map_eq. intros k. apply option_eq. intros r. rewrite purge_lookup. split; [by intros [? _]|].
  intros Hk. split; [done|]. intros Hf. by eapply ti_established.
Qed.

(** A table got by storing one checked row, before it is swept. *)
Record stored (T T' : Table) (to : bytes) (r : Row) : Prop := {
  st_bounded : bounded T';
  st_rows k x' : T' !! k = Some x' →
    (∃ x, T !! k = Some x ∧ same_link x x') ∨ (k = to ∧ same_link r x' ∧ T !! k = None);
  st_carry k x' : T' !! k = Some x' → carry_fits x';
}.

Lemma offer_stored T T' to r :
  bounded T → (∀ k x, T !! k = Some x → carry_fits x) → carry_fits r → offer_row T to r = Some T' →
  stored T T' to r.
Proof.
  intros Hb Hc Hr Ho. destruct (offer_lookup _ _ _ _ Ho) as [Hl _]. split.
  - by eapply offer_bounded.
  - intros k x [Hx|(-> & -> & Hn)]%Hl; [left; by eexists|by right].
  - intros k x [Hx|(-> & -> & _)]%Hl; [by eapply Hc|done].
Qed.

Lemma fill_stored T T' to r : carry_fits r → stored T T' to r → stored T (fill_seeded to r T') to r.
Proof.
  intros Hr [Hb Hl Hc]. split.
  - eapply drawn_bounded; [exact Hb|]. intros k x' Hx'. by apply fill_lookup in Hx'.
  - intros k x' Hx'. apply fill_lookup in Hx' as (x & Hx & Hs). apply Hl in Hx as [(y & Hy & Hys)|(-> & Hrs & Hn)].
    + left. exists y. split; [done|]. destruct Hys, Hs. split; congruence.
    + right. split_and!; [done| |done]. destruct Hrs, Hs. split; congruence.
  - intros k x'. unfold fill_seeded. destruct (T' !! to) as [held|] eqn:Eh; [|apply Hc].
    destruct (_ && _); [|apply Hc]. intros [[<- <-]|[_ Hx]]%lookup_insert_Some; [exact Hr|by eapply Hc].
Qed.

Lemma same_link_verified a k x y : same_link x y → verified_row a (k, x) = verified_row a (k, y).
Proof. intros Hs. unfold verified_row. by rewrite (from_row_same _ _ _ _ Hs). Qed.

(** A link of the old chain that the new one has too has the key it had. *)
Lemma same_key T T' start old reached to r a b :
  table_inv T start → stored T T' to r →
  chain_identities T start = Some old → chain_identities T' start = Some reached →
  a ∈ old → b ∈ reached → a.1 = b.1 → a = b.
Proof.
  intros Hi Hst Ho Hr Ha Hb Hab.
  destruct (chain_member _ _ _ _ Ho Ha) as [->|(ra & Hra & Hka)], (chain_member _ _ _ _ Hr Hb) as [->|(rb & Hrb & Hkb)].
  - done.
  - eapply same_id; [by eapply chain_NoDup| |exact Hb|done].
    apply chain_identities_walks in Hr as (? & -> & _). by left.
  - eapply same_id; [by eapply (chain_NoDup T)|exact Ha| |done].
    apply chain_identities_walks in Ho as (? & -> & _). by left.
  - destruct (st_rows _ _ _ _ Hst _ _ Hrb) as [(x & Hx & Hs)|(Hk & _ & Hn)].
    2:{ by rewrite Hab, Hn in Hra. }
    destruct a as [a1 a2], b as [b1 b2]. simpl in *. subst a1. destruct Hs. f_equal. congruence.
Qed.

Lemma swept_inv T T' start old reached to r body sigs :
  table_inv T start → stored T T' to r →
  chain_identities T start = Some old → chain_identities T' start = Some reached →
  from_row (r_from r) (to, r) = Some (body, sigs) → verify_successor_signature body sigs = Ok tt →
  (∀ a, a ∈ old → a.1 = r_from r → verified_row a (to, r) = true) →
  table_inv (sweep_reached old reached T') start.
Proof.
  intros Hi Hst Ho Hr Hrow Hsig Hver. split.
  - eapply drawn_bounded; [by eapply st_bounded|]. intros k x [Hx _]%sweep_lookup. by eexists.
  - intros k x [Hx _]%sweep_lookup. destruct (st_rows _ _ _ _ Hst _ _ Hx) as [(y & Hy & Hs)|(-> & Hs & _)].
    + destruct (ti_signed _ _ Hi _ _ Hy) as (b & s & Hb & Hv). exists b, s. split; [|done].
      rewrite <-(from_row_same _ _ _ _ Hs). destruct Hs. congruence.
    + exists body, sigs. split; [|done]. rewrite <-(from_row_same _ _ _ _ Hs). destruct Hs. congruence.
  - intros k x [Hx _]%sweep_lookup. by eapply st_carry.
  - intros chain a k x Hc Ha Hx Hf. apply sweep_lookup in Hx as [Hx Hv].
    rewrite (chain_swept _ _ _ _ (st_bounded _ _ _ _ Hst) Hr) in Hc. injection Hc as <-.
    destruct (decide (a.1 ∈ old.*1)) as [Hin|Hnin]; [|by apply Hv].
    apply list_elem_of_fmap in Hin as (b & Hab & Hb).
    assert (b = a) as -> by (eapply same_key; [exact Hi|exact Hst|done..]).
    destruct (st_rows _ _ _ _ Hst _ _ Hx) as [(y & Hy & Hs)|(-> & Hs & _)].
    + rewrite <-(same_link_verified _ _ _ _ Hs). eapply ti_established; [done|exact Ho|done|done|]. destruct Hs. congruence.
    + rewrite <-(same_link_verified _ _ _ _ Hs). apply Hver; [done|]. destruct Hs. congruence.
Qed.

Lemma store_inv T start old to r rost T' ran body sigs :
  table_inv T start → chain_identities T start = Some old → carry_fits r →
  from_row (r_from r) (to, r) = Some (body, sigs) → verify_successor_signature body sigs = Ok tt →
  (∀ a, a ∈ old → a.1 = r_from r → verified_row a (to, r) = true) →
  store_transition T start old to r rost = Some (T', ran) → table_inv T' start.
Proof.
  intros Hi Ho Hcar Hrow Hsig Hver. unfold store_transition.
  destruct (offer_row T to r) as [T1|] eqn:E1; [|by intros [= <- <-]].
  assert (stored T (if rost then fill_seeded to r T1 else T1) to r) as Hst.
  { assert (stored T T1 to r) as Hst by (apply offer_stored; [apply Hi|apply Hi|done|done]).
    destruct rost; [by apply fill_stored|done]. }
  destruct (chain_identities (if rost then _ else T1) start) as [reached|] eqn:Er; simpl; [|done].
  intros [= <- _]. by eapply swept_inv.
Qed.

Lemma absorb_inv T start p e h sender T' ran :
  payload_wf p → table_inv T start → absorb_transition T start p e h sender = Some (T', ran) → table_inv T' start.
Proof.
  intros Hp Hi. unfold absorb_transition. destruct (encode_total p) as [payload Epay]. rewrite Epay. simpl.
  destruct (checked_row p e h sender payload) as [[[body sigs] r]|] eqn:Er; [|by intros [= <- <-]].
  destruct (checked_row_spec _ _ _ _ _ _ _ _ Hp Er) as (Hf & Hpay & Hrow & Hsig & Hshare).
  assert (carry_fits r) as Hcar.
  { intros q share Hq Hs. rewrite Hpay, (decode_encoded_op _ _ Epay) in Hq. injection Hq as <-. by apply Hshare. }
  rewrite <-Hf in Hrow. destruct (chain_identities T start) as [chain|] eqn:Ec; simpl; [|done].
  destruct (find _ chain) as [link|] eqn:El.
  - apply find_some in El as [Hlin%list_elem_of_In Hl%bool_decide_eq_true].
    destruct (is_ok _) eqn:Ev; [|by intros [= <- <-]].
    replace (p_from p, link.2) with link by (destruct link; simpl in *; congruence).
    rewrite (purge_established T start chain link) by done.
    apply (store_inv T start chain (p_to p) r _ T' ran body sigs); [done|done|done|done|done|].
    intros a Ha Haf. assert (a = link) as -> by (eapply same_id; [by eapply chain_NoDup|done|done|congruence]).
    unfold verified_row. by rewrite Haf, Hrow.
  - apply (store_inv T start chain (p_to p) r _ T' ran body sigs); [done|done|done|done|done|].
    intros a Ha Haf. pose proof (find_none _ _ El a (proj1 (list_elem_of_In _ _) Ha)) as Hn.
    apply bool_decide_eq_false in Hn. congruence.
Qed.
End absorb.
