(* ===== verification/IdentityPublish.v ===== *)
(** * Publishing the chain and following it

    The record a replica publishes of its chain decodes, verifies, and seeds
    an empty vault with rows that fold to the same chain. *)

From Stdlib Require Import ZArith Lia.
From stdpp Require Import base tactics decidable countable option gmap sorting strings numbers list.
From S2P Require Import Prelude Bytes Hlc Cbor Wire Envelope EnvelopeFacts DeviceCert Transition TransitionFacts IdentityChain Identity IdentitySiblings IdentityFold IdentityInv.
Open Scope Z_scope.

Section publish.
Context `{Ciborium, !CiboriumLaws, Crypto, !HashWidths, TransitionCodec, !TransitionCodecLaws}.

(** The links [ls] lead from [a] along [rest], each verified by the one before. *)
Fixpoint linked (a : bytes * bytes) (rest : list (bytes * bytes)) (ls : list ChainLink) : Prop :=
  match rest, ls with
  | [], [] => True
  | b :: rest', l :: ls' =>
      (tb_from (cl_body l) = a.1 ∧ tb_to (cl_body l) = b.1 ∧ tb_to_id_s_pub (cl_body l) = b.2 ∧
       verify_identity_transition (cl_body l) a.2 (cl_sigs l) = Ok tt ∧ link_wf l) ∧
      linked b rest' ls'
  | _, _ => False
  end.

Lemma int_in_Some top n m : int_in top n = Some m → n = m ∧ 0 ≤ m ≤ top.
Proof. unfold int_in. case_decide; naive_solver. Qed.
Lemma fixed_width_Some n b c : fixed_width n b = Some c → b = c ∧ length c = n.
Proof. unfold fixed_width. case_decide; naive_solver. Qed.

Lemma record_link_linked T a b l r :
  T !! b.1 = Some r → carry_fits r → succeeds a b r → record_link T a.1 b = Some l →
  tb_from (cl_body l) = a.1 ∧ tb_to (cl_body l) = b.1 ∧ tb_to_id_s_pub (cl_body l) = b.2 ∧
  verify_identity_transition (cl_body l) a.2 (cl_sigs l) = Ok tt ∧ link_wf l.
Proof.
  intros Hr Hcar (_ & body & sigs & Hrow & Hv & Hs) Hl. destruct (from_row_fields _ _ _ _ _ Hrow)
    as (E1 & E2 & E3 & E4 & E5 & E6 & E7 & E8 & L1 & L2 & L3 & L4 & L5 & L6 & L7).
  unfold record_link in Hl. rewrite Hr in Hl. simpl in Hl.
  repeat (apply bind_Some in Hl as (? & ?%fixed_width_Some & Hl)).
  apply bind_Some in Hl as (? & Hep%int_in_Some & Hl). apply bind_Some in Hl as (? & Hms%int_in_Some & Hl).
  apply bind_Some in Hl as (? & Hlo%int_in_Some & Hl). apply bind_Some in Hl as (? & Hem%fixed_width_Some & Hl).
  injection Hl as <-. simpl. destruct_and!. simplify_eq.
  assert (mkBody a.1 b.1 b.2 (r_to_id_d_pub r) (r_roster_digest r) (r_shares_digest r) = body) as ->
    by (destruct body; simpl in *; congruence).
  assert (mkSigs (r_prev_sig r) (r_next_sig r) = sigs) as -> by (destruct sigs; simpl in *; congruence).
  split_and!; [done|done|done|done|]. constructor; simpl; try congruence; try done.
  intros share Hsh. apply bind_Some in Hsh as (p & Hp & Hsh). by eapply Hcar.
Qed.

Lemma record_links_linked T seen a rest ls :
  (∀ k r, T !! k = Some r → carry_fits r) → walks T seen a rest → record_links T a.1 rest = Some ls →
  linked a rest ls.
Proof.
  intros Hc Hw. revert ls. induction Hw as [seen a Hn|seen a b rest Hn _ IH]; intros ls; simpl; [by intros [= <-]|].
  intros Hl. apply bind_Some in Hl as (l & Hl & Hls). apply bind_Some in Hls as (ls' & Hls & [= <-]).
  apply next_link_Some in Hn as (_ & r & Hr & _ & Hs & _). split; [|by apply IH].
  by eapply record_link_linked; [exact Hr|eapply Hc| |].
Qed.

(** ** What is linked is a record that verifies *)

Lemma linked_positional a rest ls : linked a rest ls → positional a.1 ls = ls.
Proof.
  revert a ls. induction rest as [|b rest IH]; intros a [|l ls]; simpl; try done.
  intros [(Hf & Ht & _) Hl]. rewrite Ht, (IH _ _ Hl). f_equal. unfold with_from. rewrite <-Hf. by destruct l as [[] ? ? ? ? ? ?].
Qed.
Lemma linked_verifies i a rest ls : linked a rest ls → verify_links i a.2 ls = Ok tt.
Proof.
  revert i a ls. induction rest as [|b rest IH]; intros i a [|l ls]; simpl; try done.
  intros [(_ & _ & Hs & -> & _) Hl]. rewrite Hs. by apply IH.
Qed.
Lemma linked_wf a rest ls : linked a rest ls → Forall link_wf ls.
Proof.
  revert a ls. induction rest as [|b rest IH]; intros a [|l ls]; simpl; try done.
  intros [(_ & _ & _ & _ & Hw) Hl]. constructor; [done|]. by eapply IH.
Qed.
Lemma linked_ids a rest ls : linked a rest ls →
  (λ l, tb_to (cl_body l)) <$> ls = rest.*1 ∧ length ls = length rest ∧
  ∀ l, l ∈ ls → tb_from (cl_body l) ∈ (a :: rest).*1.
Proof.
  revert a ls. induction rest as [|b rest IH]; intros a [|l ls]; simpl; try done.
  { intros _. split_and!; [done|done|by intros ? ?%elem_of_nil]. }
  intros [(Hf & Ht & _) Hl]. destruct (IH _ _ Hl) as (Hto & Hlen & Hfrom). split_and!; [f_equal; [exact Ht|exact Hto]|by rewrite Hlen|].
  intros x [->|Hx]%elem_of_cons; [rewrite Hf; by left|right; by apply Hfrom].
Qed.

Lemma decode_published start ls raw :
  length start.2 = 32%nat → start.1 = identity_id_from_pub start.2 →
  Forall link_wf ls → positional start.1 ls = ls → Z.of_nat (length raw) ≤ MAX_CHAIN_BYTES →
  encode (mkChain start.2 ls) = Ok raw → decode raw = Ok (mkChain start.2 ls).
Proof.
  intros Hg Hid Hw Hp Hlen He. apply decode_encode; [done|done| |done|done].
  unfold in_sequence, genesis_identity_id. simpl. by rewrite <-Hid.
Qed.

(** ** Seeding an empty vault *)

(** A row seeded from a link. *)
Definition seeds (l : ChainLink) (k : bytes) (r : Row) : Prop :=
  k = tb_to (cl_body l) ∧ ∃ payload, encode_inner_op (stub l) = Some payload ∧ r = seeded_row l payload.

Lemma seed_one T n l :
  T !! tb_to (cl_body l) = None → (∀ k r, T !! k = Some r → r_from r ≠ tb_from (cl_body l)) →
  ∃ r, seeds l (tb_to (cl_body l)) r ∧ seed_link (T, n) l = Some (<[tb_to (cl_body l) := r]> T, S n).
Proof.
  intros Hto Hfrom. destruct (encode_total (stub l)) as [payload Hp].
  exists (seeded_row l payload). split; [split; [done|by exists payload]|].
  unfold seed_link, admit_sibling. simpl.
  assert (siblings T (tb_from (cl_body l)) = []) as ->.
  { destruct (siblings T (tb_from (cl_body l))) as [|x s] eqn:Es; [done|].
    assert (x ∈ siblings T (tb_from (cl_body l))) as [Hx Hf]%elem_of_siblings by (rewrite Es; by left).
    by destruct (Hfrom _ _ Hx). }
  simpl. rewrite Hp. simpl. unfold insert_or_ignore. rewrite Hto. by rewrite decide_False by (by intros [? ?]).
Qed.

Lemma seed_all ls T n :
  (∀ l, l ∈ ls → T !! tb_to (cl_body l) = None) →
  (∀ l k r, l ∈ ls → T !! k = Some r → r_from r ≠ tb_from (cl_body l)) →
  NoDup ((λ l, tb_to (cl_body l)) <$> ls) → NoDup ((λ l, tb_from (cl_body l)) <$> ls) →
  ∃ T', foldm seed_link (T, n) ls = Some (T', (n + length ls)%nat) ∧
    (∀ k r, T' !! k = Some r → T !! k = Some r ∨ ∃ l, l ∈ ls ∧ seeds l k r) ∧
    (∀ k r, T !! k = Some r → T' !! k = Some r) ∧
    (∀ l, l ∈ ls → ∃ r, seeds l (tb_to (cl_body l)) r ∧ T' !! tb_to (cl_body l) = Some r).
Proof.
  revert T n. induction ls as [|l ls IH]; intros T n Hto Hfrom Hnt Hnf.
  { exists T. split_and!; [simpl; by rewrite Nat.add_0_r|by left|done|by intros ? ?%elem_of_nil]. }
  cbn [fmap list_fmap] in Hnt, Hnf. apply NoDup_cons in Hnt as [Ht Hnt], Hnf as [Hf Hnf].
  destruct (seed_one T n l) as (r & Hr & Hs); [apply Hto; by left|intros k r Hk; apply (Hfrom l k r); [by left|done]|].
  destruct (IH (<[tb_to (cl_body l) := r]> T) (S n)) as (T' & HT' & Hin & Hkeep & Hall); [| |done|done|].
  - intros l' Hl'. apply lookup_insert_None. split; [apply Hto; by right|]. intros Heq. apply Ht.
    apply list_elem_of_fmap. by exists l'.
  - intros l' k x Hl' [[<- <-]|[_ Hx]]%lookup_insert_Some; [|by eapply Hfrom; [right|]].
    destruct Hr as (_ & payload & _ & ->). simpl. intros Heq. apply Hf, list_elem_of_fmap. by exists l'.
  - exists T'. assert (T !! tb_to (cl_body l) = None) as Hn by (apply Hto; by left). split_and!.
    + simpl. rewrite Hs. simpl. rewrite HT'. f_equal. f_equal. lia.
    + intros k x Hx. apply Hin in Hx as [[[<- <-]|[_ Hx]]%lookup_insert_Some|(l' & Hl' & Hx)].
      * right. exists l. split; [by left|done].
      * by left.
      * right. exists l'. split; [by right|done].
    + intros k x Hx. apply Hkeep. rewrite lookup_insert_ne; [done|]. intros <-. congruence.
    + intros l' [->|Hl']%elem_of_cons; [|by apply Hall]. exists r. split; [done|]. apply Hkeep, lookup_insert_eq.
Qed.

Lemma seeded_succeeds a b l k r :
  seeds l k r → tb_from (cl_body l) = a.1 → tb_to (cl_body l) = b.1 → tb_to_id_s_pub (cl_body l) = b.2 →
  verify_identity_transition (cl_body l) a.2 (cl_sigs l) = Ok tt → link_wf l → succeeds a b r.
Proof.
  intros (_ & payload & _ & ->) Hf Ht Hs Hv []. split; [done|]. exists (cl_body l), (cl_sigs l).
  split_and!; [|done|done]. unfold from_row, fixed_width. simpl. rewrite <-Ht.
  repeat (rewrite decide_True by done; simpl). rewrite <-Hf. by destruct l as [[] [] ? ? ? ? ?].
Qed.

(** The rows of the links, and no other row under any identity of the chain. *)
Definition seeded_with (T : Table) (a : bytes * bytes) (rest : list (bytes * bytes)) (ls : list ChainLink) : Prop :=
  (∀ k r, T !! k = Some r → r_from r ∈ (a :: rest).*1 → ∃ l, l ∈ ls ∧ seeds l k r) ∧
  (∀ l, l ∈ ls → ∃ r, seeds l (tb_to (cl_body l)) r ∧ T !! tb_to (cl_body l) = Some r).

Lemma seeds_from l k r : seeds l k r → r_from r = tb_from (cl_body l).
Proof. by intros (_ & payload & _ & ->). Qed.

Lemma seeded_next T a b rest l ls seen :
  linked a (b :: rest) (l :: ls) → NoDup (a :: b :: rest).*1 → b.1 ∉ seen → seeded_with T a (b :: rest) (l :: ls) →
  next_link T seen a = Some b.
Proof.
  intros [(Hf & Ht & Hs & Hv & Hw) Hl] Hnd Hb [Hrows Hall].
  destruct (Hall l) as (r & Hr & Hk); [by left|]. rewrite Ht in Hk, Hr.
  assert ([(b.1, r)] = siblings T a.1) as Hsib.
  { apply siblings_unique; [by repeat constructor|]. apply NoDup_Permutation; [apply NoDup_singleton|apply NoDup_siblings|].
    intros [k x]. rewrite list_elem_of_singleton, elem_of_siblings. simpl. split.
    - intros [= -> ->]. split; [done|]. by rewrite (seeds_from _ _ _ Hr).
    - intros [Hx Hxf]. destruct (Hrows k x Hx) as (l' & Hl' & Hs'); [rewrite Hxf; by left|].
      apply elem_of_cons in Hl' as [->|Hl'].
      + destruct Hs' as (Hk' & _). rewrite Ht in Hk'. subst k. congruence.
      + exfalso. apply linked_ids in Hl as (_ & _ & Hfr). apply Hfr in Hl'.
        rewrite <-(seeds_from _ _ _ Hs'), Hxf in Hl'. by apply NoDup_cons in Hnd as [? _]. }
  unfold next_link. rewrite <-Hsib. simpl.
  assert (candidate seen a (b.1, r) = Some b) as ->; [|done].
  apply (candidate_Some T); [rewrite <-Hsib; by left|]. split_and!; [done|done|]. by eapply seeded_succeeds.
Qed.

Lemma seeded_walks T seen a rest ls :
  linked a rest ls → NoDup (a :: rest).*1 → (∀ b, b ∈ rest → b.1 ∉ seen) → seeded_with T a rest ls →
  walks T seen a rest.
Proof.
  revert seen a ls. induction rest as [|b rest IH]; intros seen a [|l ls] Hl Hnd Hseen Hw; try done.
  - apply walk_stop. unfold next_link. assert ([] = siblings T a.1) as <-; [|done].
    apply siblings_unique; [constructor|]. apply NoDup_Permutation; [constructor|apply NoDup_siblings|].
    intros [k x]. rewrite elem_of_siblings. simpl. split; [by intros ?%elem_of_nil|]. intros [Hx Hf].
    destruct (proj1 Hw k x Hx) as (l & Hlin & _); [rewrite Hf; by left|]. by apply elem_of_nil in Hlin.
  - eapply walk_step; [eapply seeded_next; [exact Hl|done|apply Hseen; by left|done]|].
    pose proof Hnd as [Ha Hnd']%NoDup_cons. destruct Hl as [(Hf & _) Hl]. apply (IH _ _ ls); [done|done| |].
    + intros c Hc. rewrite not_elem_of_union, not_elem_of_singleton. split; [|apply Hseen; by right].
      intros Heq. apply NoDup_cons in Hnd' as [Hb _]. apply Hb, list_elem_of_fmap. by exists c.
    + destruct Hw as [Hrows Hall]. split; [|intros l' Hl'; apply Hall; by right].
      intros k x Hx Hfx. destruct (Hrows k x Hx) as (l' & Hl' & Hs); [by right|].
      apply elem_of_cons in Hl' as [->|Hl']; [|eauto]. exfalso. apply Ha. by rewrite <-Hf, <-(seeds_from _ _ _ Hs).
Qed.

Lemma linked_froms a rest ls :
  linked a rest ls → NoDup (a :: rest).*1 → NoDup ((λ l, tb_from (cl_body l)) <$> ls).
Proof.
  revert a ls. induction rest as [|b rest IH]; intros a [|l ls]; try done; [constructor|].
  intros [(Hf & _) Hl] [Ha Hnd]%NoDup_cons. cbn [fmap list_fmap]. constructor; [|by eapply IH].
  intros (l' & Heq & Hl')%list_elem_of_fmap. apply linked_ids in Hl as (_ & _ & Hfr). apply Hfr in Hl'.
  apply Ha. by rewrite <-Hf, Heq.
Qed.

Lemma seed_linked start rest ls :
  linked start rest ls → NoDup (start :: rest).*1 →
  ∃ T', foldm seed_link (∅, O) ls = Some (T', length rest) ∧ chain_identities T' start = Some (start :: rest).
Proof.
  intros Hl Hnd. destruct (linked_ids _ _ _ Hl) as (Hto & Hlen & _).
  destruct (seed_all ls ∅ O) as (T' & HT' & Hin & _ & Hall).
  - done.
  - intros l k r _. by rewrite lookup_empty.
  - rewrite Hto. by apply NoDup_cons in Hnd as [_ ?].
  - by eapply linked_froms.
  - exists T'. split; [by rewrite HT', Hlen|]. apply chain_identities_walks. exists rest. split; [done|].
    eapply seeded_walks; [done|done| |split; [|done]].
    + intros b Hb. rewrite not_elem_of_singleton. intros Heq. apply NoDup_cons in Hnd as [Hs _].
      apply Hs. rewrite <-Heq. apply list_elem_of_fmap. by exists b.
    + intros k r Hk _. apply Hin in Hk as [Hk|Hk]; [by rewrite lookup_empty in Hk|done].
Qed.
End publish.
