(* ===== verification/IdentityClaims.v ===== *)
(** * The identity chain: what holds of it

    What a signed transition stands for, what the fold returns, which rows a
    replica keeps, what the roster in force does, and that a chain one replica
    publishes is the chain another follows; with the examples. *)

From Stdlib Require Import ZArith Lia.
From stdpp Require Import base tactics decidable countable option gmap sorting strings numbers list.
From S2P Require Import Prelude Bytes Hlc Cbor Wire SnapshotDoc Envelope EnvelopeFacts EnvelopeSeal DeviceCert Transition TransitionFacts IdentityChain Identity IdentitySiblings IdentityFold IdentityInv IdentityPublish.
Open Scope Z_scope.

Section claims.
Context `{Ciborium, !CiboriumLaws, Crypto, !HashWidths, TransitionCodec, !TransitionCodecLaws}.

(** C12: the chain a replica folds is a chain of authorised hand-overs, on any
    table: the walk ends, within one link for each row; no identity comes
    twice; every link is a stored transition that the identity before it
    signed and the new one accepted, under an id derived from its key, and no
    verifying row that ranks higher was passed over unless its identity is on
    the chain already; and it stops only where no row the fold reads leads on
    to a new identity. *)
Theorem chain_is_authorised (T : Table) (start : bytes * bytes) :
  ∃ chain, chain_identities T start = Some chain ∧
    chain !! 0%nat = Some start ∧ NoDup chain.*1 ∧ (length chain ≤ S (size T))%nat ∧
    (∀ i a b, chain !! i = Some a → chain !! S i = Some b →
       b.1 = identity_id_from_pub b.2 ∧ ∃ r, T !! b.1 = Some r ∧ succeeds a b r ∧
       ∀ c rc, (c.1, rc) ∈ read T a.1 → succeeds a c rc → rank_of (b.1, r) ≺ rank_of (c.1, rc) →
         c.1 ∈ (take (S i) chain).*1) ∧
    (∀ a c r, last chain = Some a → (c.1, r) ∈ read T a.1 → succeeds a c r → c.1 ∈ chain.*1).
Proof.
  destruct (chain_identities_total T start) as [rest Hc]. exists (start :: rest).
  pose proof (chain_NoDup _ _ _ Hc) as Hnd. pose proof Hc as (rest' & [= <-] & Hw)%chain_identities_walks.
  split_and!; [done|done|done|simpl; apply le_n_S; by eapply walks_length| |].
  - intros i a b Ha Hb. pose proof (walks_steps _ _ _ _ _ _ _ Hw Ha Hb) as (_ & r & Hr & _ & Hs & Hgr)%next_link_Some.
    split; [by eapply succeeds_id|]. exists r. split_and!; [done|done|]. intros c rc Hin Hcs Hlt.
    specialize (Hgr c rc Hin Hcs Hlt). simpl. rewrite elem_of_union, elem_of_list_to_set, elem_of_singleton in Hgr.
    rewrite <-fmap_take in Hgr. destruct Hgr as [Hin'|Heq]; [by right|rewrite Heq; by left].
  - intros a c r Ha Hin Hs. pose proof (next_link_None _ _ _ (walks_end _ _ _ _ _ Hw Ha) c r Hin Hs) as Hcn.
    rewrite elem_of_union, elem_of_list_to_set, elem_of_singleton in Hcn. simpl.
    destruct Hcn as [Hcn|Heq]; [by right|rewrite Heq; by left].
Qed.

(** C13: which successors a predecessor keeps does not depend on arrival: where
    each successor id comes with one row, after any sequence of offers, with
    repetitions, a predecessor's register holds the sixteen greatest rows ever
    offered for it in the order the fold reads them; the fold over the bounded
    table is the fold over all the rows; and any other order leaves the same
    table. *)
Theorem kept_successors_are_the_greatest (l : list (bytes * Row)) :
  one_row_each l →
  (∀ f, siblings (foldl offer ∅ l) f = take MAX_SIBLINGS_PER_PREDECESSOR (siblings (list_to_map l) f)) ∧
  (∀ start, chain_identities (foldl offer ∅ l) start = chain_identities (list_to_map l) start) ∧
  (∀ l', l ≡ₚ l' → foldl offer ∅ l' = foldl offer ∅ l).
Proof.
  intros Hl. split_and!; [by apply kept_rows| |].
  - intros start. apply chain_read. intros f. unfold read. rewrite (kept_rows l Hl f).
    unfold MAX_SIBLING_CANDIDATES, MAX_SIBLINGS_PER_PREDECESSOR. by rewrite take_take.
  - intros l' Hp. assert (one_row_each l') as Hl' by (intros a b; rewrite <-!Hp; apply Hl).
    assert (∀ f, siblings (list_to_map l' : Table) f = siblings (list_to_map l) f) as Hfull.
    { intros f. apply siblings_eq. intros k r _. rewrite !lookup_offered by done. by rewrite Hp. }
    assert (∀ f, siblings (foldl offer ∅ l') f = siblings (foldl offer ∅ l) f) as Hs.
    { intros f. rewrite (kept_rows l' Hl' f), (kept_rows l Hl f). by rewrite Hfull. }
    apply map_eq. intros k. apply option_eq. intros r.
    assert (∀ T : Table, T !! k = Some r ↔ (k, r) ∈ siblings T (r_from r)) as Hmem
      by (intros T; rewrite elem_of_siblings; simpl; tauto).
    by rewrite !Hmem, Hs.
Qed.

(** The tables a replica reaches by absorbing transitions, from none. *)
Inductive holdings (start : bytes * bytes) : Table → Prop :=
  | holds_none : holdings start ∅
  | holds_more T p meta_epoch hlc sender T' ran :
      holdings start T → payload_wf p → absorb_transition T start p meta_epoch hlc sender = Some (T', ran) →
      holdings start T'.

Lemma holdings_inv start T : holdings start T → table_inv T start.
Proof. induction 1; [apply empty_table_inv|by eapply absorb_inv]. Qed.

(** C11: whatever transitions a replica absorbs, honest or forged and in any
    order, absorbing never fails, no predecessor has more than sixteen rows,
    every row is signed by the successor it names, and no row under an
    identity of the chain lacks that identity's own signature, so a forged row
    holds a place only while its predecessor is unknown. *)
Theorem established_successors_verify (start : bytes * bytes) (T : Table) :
  holdings start T →
  (∀ p meta_epoch hlc sender, is_Some (absorb_transition T start p meta_epoch hlc sender)) ∧
  (∀ f, (length (siblings T f) ≤ 16)%nat) ∧
  (∀ k r, T !! k = Some r → ∃ body sigs,
     from_row (r_from r) (k, r) = Some (body, sigs) ∧ verify_successor_signature body sigs = Ok tt) ∧
  (∀ chain a k r, chain_identities T start = Some chain → a ∈ chain → T !! k = Some r → r_from r = a.1 →
     succeeds a (k, r_to_id_s_pub r) r).
Proof.
  intros Hi%holdings_inv. split_and!; [|apply Hi|apply Hi|].
  - intros p e h s. unfold absorb_transition. destruct (checked_row _ _ _ _ _) as [[[body sigs] r]|]; [|by eexists].
    assert (∀ T1 chain to r' b, is_Some (store_transition T1 start chain to r' b)) as Hstore.
    { intros T1 chain to r' b. unfold store_transition. destruct (offer_row T1 to r') as [T2|]; [|by eexists].
      destruct (chain_identities_total (if b then fill_seeded to r' T2 else T2) start) as [rest ->]. by eexists. }
    destruct (chain_identities_total T start) as [rest ->]. simpl. destruct (encode_total p) as [payload ->].
    destruct (bool_decide (start.1 = p_from p)); [destruct (is_ok _); [apply Hstore|by eexists]|].
    destruct (find _ rest); [destruct (is_ok _); [apply Hstore|by eexists]|apply Hstore].
  - intros chain a k r Hc Ha Hk Hf. apply verified_row_succeeds; [done|]. by eapply ti_established.
Qed.

(** C15: one signed hash stands for one hand-over: if two transitions have the
    same hash under their signatures then they are the same body, and the
    rosters and shares their digests were computed from are the same devices'
    certificates and shares in some order, with the same carry-forward share,
    unless BLAKE3 was given two different texts with one hash, which are among
    the encoded bodies, the rosters' inputs and the shares' inputs. *)
Theorem signed_hash_fixes_the_handover b1 b2 h certs1 certs2 shares1 shares2 carry1 carry2 :
  body_hash b1 = Ok h → body_hash b2 = Ok h →
  handover certs1 shares1 carry1 b1 → handover certs2 shares2 carry2 b2 →
  (b1 = b2 ∧ certs1 ≡ₚ certs2 ∧ shares1 ≡ₚ shares2 ∧ carry1 = carry2) ∨
  ∃ x y, collide x y ∧
    ((encode_canonical into_writer Some (body_value b1) = Ok x ∧
      encode_canonical into_writer Some (body_value b2) = Ok y) ∨
     (roster_input certs1 = Ok x ∧ roster_input certs2 = Ok y) ∨
     (shares_input shares1 carry1 = Ok x ∧ shares_input shares2 carry2 = Ok y)).
Proof.
  intros Hb1 Hb2 Ho1 Ho2. destruct (body_hash_inj b1 b2 h Hb1 Hb2) as [->|(x & y & Hx & Hy & Hc)]; [|naive_solver].
  destruct (handover_inj _ _ _ _ _ _ _ Ho1 Ho2) as [?|[(x & y & ? & ? & ?)|(x & y & ? & ? & ?)]]; naive_solver.
Qed.

(** ** One entry of a roster *)

Definition names (blob d : bytes) : Prop := ∃ c, cert_from_cbor blob = Ok c ∧ dc_device_id (dc_body c) = d.

Lemma entry_other to D blob d : ¬ names blob d → roster_entry to D blob !! d = D !! d.
Proof.
  intros Hn. unfold roster_entry. destruct (cert_from_cbor blob) as [c|] eqn:E; [|done].
  assert (dc_device_id (dc_body c) ≠ d) as Hd by (intros Hd; apply Hn; by exists c).
  destruct (_ ≫= d_d_d_pub) as [key|]; [case_decide; [done|]|]; by rewrite lookup_insert_ne.
Qed.

Lemma entry_key to D blob d row key :
  D !! d = Some row → d_d_d_pub row = Some key →
  ∃ row', roster_entry to D blob !! d = Some row' ∧ d_d_d_pub row' = Some key.
Proof.
  intros Hr Hk. unfold roster_entry. destruct (cert_from_cbor blob) as [c|] eqn:E; [|eauto].
  destruct (decide (dc_device_id (dc_body c) = d)) as [<-|Hd].
  - rewrite Hr. simpl. rewrite Hk. case_decide; [eauto|]. rewrite lookup_insert_eq. eauto.
  - destruct (_ ≫= d_d_d_pub) as [k|]; [case_decide; [eauto|]|]; rewrite lookup_insert_ne by done; eauto.
Qed.

Lemma roster_other roster to D d :
  (∀ blob, blob ∈ roster → ¬ names blob d) → apply_roster roster to D !! d = D !! d.
Proof.
  unfold apply_roster. revert D. induction roster as [|blob roster IH]; intros D Hn; [done|]. simpl.
  rewrite IH by (intros; apply Hn; by right). apply entry_other, Hn. by left.
Qed.

Lemma roster_key roster to D d row key :
  D !! d = Some row → d_d_d_pub row = Some key →
  ∃ row', apply_roster roster to D !! d = Some row' ∧ d_d_d_pub row' = Some key.
Proof.
  unfold apply_roster. revert D row. induction roster as [|blob roster IH]; intros D row Hr Hk; [eauto|]. simpl.
  destruct (entry_key to D blob d row key Hr Hk) as (row' & Hr' & Hk'). by eapply IH.
Qed.

(** The one entry that names a device decides its row. *)
Lemma roster_at roster to D i blob d :
  roster !! i = Some blob → (∀ j b', roster !! j = Some b' → names b' d → j = i) →
  apply_roster roster to D !! d = roster_entry to D blob !! d.
Proof.
  intros Hi Hu. rewrite <-(take_drop_middle _ _ _ Hi). unfold apply_roster. rewrite foldl_app. simpl.
  change (apply_roster (drop (S i) roster) to (roster_entry to (apply_roster (take i roster) to D) blob) !! d =
    roster_entry to D blob !! d). rewrite roster_other.
  - assert (apply_roster (take i roster) to D !! d = D !! d) as Hd.
    { apply roster_other. intros b' (j & Hj & Hlt)%elem_of_take Hn. specialize (Hu _ _ Hj Hn). lia. }
    destruct (cert_from_cbor blob) as [c|] eqn:E; [|unfold roster_entry; by rewrite E].
    destruct (decide (dc_device_id (dc_body c) = d)) as [<-|Hne].
    + unfold roster_entry. rewrite E, Hd. destruct (_ ≫= d_d_d_pub); [case_decide; [done|]|]; by rewrite !lookup_insert_eq.
    + rewrite !entry_other; [done|by intros (c' & E' & ?); congruence..].
  - intros b' [j Hj]%list_elem_of_lookup Hn. rewrite lookup_drop in Hj. specialize (Hu _ _ Hj Hn). lia.
Qed.

(** C14: the roster in force moves exactly the devices it names, and rebinds
    none: a device no certificate of it names keeps its row; a device named,
    with no stored key or the same one, gets that certificate, the successor
    identity and its key; one named under another key keeps its row, and no
    stored key ever changes. *)
Theorem roster_moves_whom_it_names (roster : list bytes) (to : bytes) (devices : gmap bytes DeviceRow) :
  let devices' := apply_roster roster to devices in
  (∀ d, (∀ blob c, blob ∈ roster → cert_from_cbor blob = Ok c → dc_device_id (dc_body c) ≠ d) →
     devices' !! d = devices !! d) ∧
  (∀ d row key, devices !! d = Some row → d_d_d_pub row = Some key →
     ∃ row', devices' !! d = Some row' ∧ d_d_d_pub row' = Some key) ∧
  (∀ i blob c, roster !! i = Some blob → cert_from_cbor blob = Ok c →
     (∀ j blob' c', roster !! j = Some blob' → cert_from_cbor blob' = Ok c' →
        dc_device_id (dc_body c') = dc_device_id (dc_body c) → j = i) →
     let d := dc_device_id (dc_body c) in
     match devices !! d ≫= d_d_d_pub with
     | Some key =>
         if decide (key = dc_d_d_pub (dc_body c)) then
           ∃ row, devices' !! d = Some row ∧ d_cert_blob row = blob ∧ d_identity_id row = Some to ∧
             d_d_d_pub row = Some key
         else devices' !! d = devices !! d
     | None => ∃ row, devices' !! d = Some row ∧ d_cert_blob row = blob ∧ d_identity_id row = Some to ∧
         d_d_d_pub row = Some (dc_d_d_pub (dc_body c))
     end).
Proof.
  intros devices'. split_and!.
  - intros d Hn. apply roster_other. intros blob Hb (c & Hc & Hd). by apply (Hn blob c).
  - intros d row key. apply roster_key.
  - intros i blob c Hi Hc Hu d. unfold devices'. rewrite (roster_at _ _ _ i blob d Hi).
    2:{ intros j b' Hj (c' & Hc' & Hd). by apply (Hu j b' c'). }
    unfold roster_entry. rewrite Hc. fold d. destruct (devices !! d ≫= d_d_d_pub) as [key|].
    + case_decide as Hk; case_decide as Hk'; try done.
      rewrite lookup_insert_eq. by eexists.
    + rewrite lookup_insert_eq. by eexists.
Qed.

(** C16: a chain one replica publishes is the chain another follows: the record
    is published only by a device in force that is neither revoked nor
    read-bounded, and it decodes, verifies under the account's first identity,
    and seeds an empty vault with one row for each link, whose fold is the
    publisher's chain, head and all. *)
Theorem published_chain_is_followed (start : bytes * bytes) (T : Table) (own : bytes) (revoked read_bounded : bool)
    (raw : bytes) :
  holdings start T → length start.2 = 32%nat → start.1 = identity_id_from_pub start.2 →
  Z.of_nat (length raw) ≤ MAX_CHAIN_BYTES →
  identity_chain_plan T start own revoked read_bounded = Ok (Some raw) →
  revoked = false ∧ read_bounded = false ∧ ∃ rest T',
    chain_identities T start = Some (start :: rest) ∧ fst <$> last rest = Some own ∧
    seed_identity_chain ∅ start.1 raw = Some (T', length rest) ∧
    chain_identities T' start = Some (start :: rest).
Proof.
  intros Hi%holdings_inv Hg Hid Hlen. unfold identity_chain_plan.
  destruct (chain_identities_total T start) as [rest Hc]. rewrite Hc.
  destruct rest as [|b rest]; [done|]. case_decide as Hown; [|done].
  destruct revoked; [done|]. destruct read_bounded; [done|]. cbn [orb].
  destruct (record_links T start.1 (b :: rest)) as [ls|] eqn:El; [|done].
  destruct (encode _) as [raw'|] eqn:Ee; simpl; [|done]. intros [= <-].
  pose proof Hc as (? & [= <-] & Hw)%chain_identities_walks.
  assert (linked start (b :: rest) ls) as Hl by (eapply record_links_linked; [apply Hi|done|done]).
  split_and!; [done|done|]. destruct (seed_linked start (b :: rest) ls Hl (chain_NoDup _ _ _ Hc)) as (T' & Hs & Hc').
  exists (b :: rest), T'. split_and!; [done|done| |done]. unfold seed_identity_chain.
  rewrite (decode_published start ls); [|done|done|by eapply linked_wf|by eapply linked_positional|done|done].
  unfold verify. rewrite decide_False by (intros Hn; apply Hn; symmetry; exact Hid). simpl.
  by rewrite (linked_verifies 0 start (b :: rest) ls Hl).
Qed.
End claims.

(** ** Concrete primitives, and the examples *)

(** Hashes of a fixed width, and signatures checked by recomputing them. *)
Definition fit (n : nat) (b : bytes) : bytes := take n (b ++ replicate n 0).
Lemma length_fit n b : length (fit n b) = n.
Proof. unfold fit. rewrite length_take, length_app, length_replicate. lia. Qed.

#[local] Existing Instance SnapshotDoc.tree_codec.
#[local] Existing Instance EnvelopeSeal.tree_codec_laws.
#[local] Instance wide_crypto : Crypto := {|
  blake3 := fit 32;
  derive_key _ m n := fit n m;
  public_key sk := sk;
  sign sk m := fit 64 (sk ++ m);
  verify_ed25519 pk m s := bool_decide (s = fit 64 (pk ++ m));
  aead_seal_xchacha _ _ m _ := Some m;
  aead_open_xchacha _ _ c _ := Some c;
|}.
#[local] Instance wide_widths : HashWidths.
Proof. split; intros; apply length_fit. Qed.

(** A payload as its fields, each behind its length. *)
Definition put_bytes (b : bytes) : bytes := Z.of_nat (length b) :: b.
Definition get_bytes (i : bytes) : option (bytes * bytes) :=
  match i with n :: r => Some (take (Z.to_nat n) r, drop (Z.to_nat n) r) | [] => None end.
Definition put_list {A} (put : A → bytes) (l : list A) : bytes := Z.of_nat (length l) :: concat (map put l).
Definition get_list {A} (get : bytes → option (A * bytes)) (i : bytes) : option (list A * bytes) :=
  match i with n :: r => read_n get (Z.to_nat n) r | [] => None end.

Lemma get_put_bytes b r : get_bytes (put_bytes b ++ r) = Some (b, r).
Proof. unfold get_bytes, put_bytes. simpl. by rewrite Nat2Z.id, take_app_length, drop_app_length. Qed.
Lemma get_put_list {A} (put : A → bytes) get (l : list A) r :
  (∀ x r, get (put x ++ r) = Some (x, r)) → get_list get (put_list put l ++ r) = Some (l, r).
Proof. intros Hx. unfold get_list, put_list. simpl. rewrite Nat2Z.id. apply read_n_reads. auto. Qed.

Definition put_share (s : bytes * bytes) : bytes := put_bytes s.1 ++ put_bytes s.2.
Definition get_share (i : bytes) : option ((bytes * bytes) * bytes) :=
  '(d, i) ← get_bytes i; '(c, i) ← get_bytes i; Some ((d, c), i).
Lemma get_put_share s r : get_share (put_share s ++ r) = Some (s, r).
Proof.
  unfold get_share, put_share. rewrite <-app_assoc, get_put_bytes. cbn [mbind option_bind].
  rewrite get_put_bytes. by destruct s.
Qed.

Definition put_payload (p : IdentityTransitionPayload) : bytes :=
  put_bytes (p_from p) ++ put_bytes (p_to p) ++ put_bytes (p_to_id_s_pub p) ++ put_bytes (p_to_id_d_pub p) ++
  put_list put_bytes (p_roster p) ++ put_list put_share (p_device_shares p) ++
  put_list put_bytes (option_list (p_identity_share p)) ++ put_bytes (p_prev_sig p) ++ put_bytes (p_next_sig p).
Definition get_payload (i : bytes) : option IdentityTransitionPayload :=
  '(a, i) ← get_bytes i; '(b, i) ← get_bytes i; '(c, i) ← get_bytes i; '(d, i) ← get_bytes i;
  '(ro, i) ← get_list get_bytes i; '(sh, i) ← get_list get_share i; '(ca, i) ← get_list get_bytes i;
  '(pr, i) ← get_bytes i; '(ne, i) ← get_bytes i;
  Some (mkPayload a b c d ro sh (List.hd_error ca) pr ne).
Lemma get_put_payload p : get_payload (put_payload p) = Some p.
Proof.
  unfold get_payload, put_payload. rewrite <-(app_nil_r (put_bytes (p_next_sig p))).
  repeat first [ rewrite get_put_bytes | rewrite get_put_list by apply get_put_bytes
               | rewrite get_put_list by apply get_put_share | progress cbn [mbind option_bind] ].
  destruct p as [? ? ? ? ? ? carry]. simpl. by destruct carry.
Qed.

#[local] Instance field_codec : TransitionCodec := {|
  encode_inner_op p := Some (put_payload p);
  decode_inner_op := get_payload;
|}.
#[local] Instance field_codec_laws : TransitionCodecLaws.
Proof. split; [by eexists|]. intros p b [= <-]. apply get_put_payload. Qed.

(** The identity whose keys are made of [n], and its transition to [m], signed
    by [signer] in the predecessor's name. *)
Definition id_of (n : Z) : bytes := replicate 16 n.
Definition key_of (n : Z) : bytes := replicate 32 n.
Definition link_of (n : Z) : bytes * bytes := (id_of n, key_of n).
Definition no_roster : bytes := match roster_digest [] with Ok d => d | Err _ => [] end.
Definition no_shares : bytes := match shares_digest [] None with Ok d => d | Err _ => [] end.
Definition body_of (n m : Z) : IdentityTransitionBody :=
  mkBody (id_of n) (id_of m) (key_of m) (key_of (m + 1)) no_roster no_shares.
Definition hash_of (n m : Z) : bytes := match body_hash (body_of n m) with Ok h => h | Err _ => [] end.
Definition sigs_of (signer n m : Z) : IdentityTransitionSigs :=
  let prev := sign (key_of signer) (prev_sig_input (hash_of n m)) in
  mkSigs prev (sign (key_of m) (next_sig_input (hash_of n m) prev)).
Definition payload_of (signer n m : Z) : IdentityTransitionPayload :=
  let s := sigs_of signer n m in
  mkPayload (id_of n) (id_of m) (key_of m) (key_of (m + 1)) [] [] None (prev_sig s) (next_sig s).
Definition sent (o : Table) (e : Z * (Z * Z * Z)) : Table :=
  let '(epoch, (signer, n, m)) := e in
  match absorb_transition o (link_of 1) (payload_of signer n m) epoch (mkHlc epoch 0) (id_of 9) with
  | Some (T, _) => T
  | None => o
  end.

Lemma payload_of_wf signer n m : payload_wf (payload_of signer n m).
Proof.
  split; [done|done|done|apply length_fit|apply length_fit].
Qed.
Lemma sent_holds T e : holdings (link_of 1) T → holdings (link_of 1) (sent T e).
Proof.
  intros HT. destruct e as [epoch [[signer n] m]]. unfold sent.
  destruct (absorb_transition _ _ _ _ _ _) as [[T' ran]|] eqn:E; [|done].
  eapply holds_more; [exact HT|apply payload_of_wf|exact E].
Qed.

Lemma sent_all_hold es T : holdings (link_of 1) T → holdings (link_of 1) (foldl sent T es).
Proof. revert T. induction es as [|e es IH]; intros T HT; [done|]. simpl. by apply IH, sent_holds. Qed.

(** Three identities, the second link sealed in a later epoch, delivered the
    last link first. *)
Definition two_links : Table := foldl sent ∅ [(2, (5, 5, 7)); (1, (1, 1, 5))].
Lemma two_links_hold : holdings (link_of 1) two_links.
Proof. apply sent_all_hold, holds_none. Qed.

Example two_links_chain : chain_identities two_links (link_of 1) = Some [link_of 1; link_of 5; link_of 7].
Proof. by vm_compute. Qed.

(** Sixteen transitions from the second identity, signed by another in its
    name, each sealed at a higher epoch than the honest one. *)
Definition forged : list (Z * (Z * Z * Z)) := (λ m : nat, (3, (99, 5, Z.of_nat m + 100))) <$> seq 0 16.
Definition honest : list (Z * (Z * Z * Z)) := [(2, (5, 5, 7))].
Definition first_link : list (Z * (Z * Z * Z)) := [(1, (1, 1, 5))].

(** The same ops in two orders.  When the predecessor is known first, the
    forgeries are refused and the honest successor is in force.  When they
    come first they take all sixteen places, the honest row is turned away,
    and sweeping them afterwards does not bring it back: the head differs. *)
Example arrival_order_still_matters :
  (first_link ++ forged ++ honest ≡ₚ forged ++ honest ++ first_link) ∧
  current_identity (foldl sent ∅ (first_link ++ forged ++ honest)) (link_of 1) = Some (link_of 7) ∧
  current_identity (foldl sent ∅ (forged ++ honest ++ first_link)) (link_of 1) = Some (link_of 5) ∧
  size (foldl sent ∅ (forged ++ honest ++ first_link)) = 1%nat.
Proof. split; [by rewrite Permutation_app_comm, <-app_assoc|by vm_compute]. Qed.

(** Seventeen successors offered for one identity. *)
Definition row_from (n m : Z) : Row :=
  mkRow (id_of n) (key_of m) (key_of m) m 0 0 (id_of 9) [] [] [] no_roster no_shares.
Definition seventeen : list (bytes * Row) := (λ m : nat, (id_of (Z.of_nat m), row_from 50 (Z.of_nat m))) <$> seq 1 17.

Lemma kept_successors_are_the_greatest_witness :
  one_row_each seventeen ∧
  (siblings (foldl offer ∅ seventeen) (id_of 50)).*1 = (λ m : nat, id_of (Z.of_nat m)) <$> reverse (seq 2 16) ∧
  foldl offer ∅ (reverse seventeen) = foldl offer ∅ seventeen.
Proof.
  assert (one_row_each seventeen) as Hone.
  { assert (Forall (λ a, Forall (λ b, a.1 = b.1 → a = b) seventeen) seventeen) as Hall
      by (apply (bool_decide_unpack _); vm_compute; exact I).
    intros a b Ha Hb. rewrite Forall_forall in Hall. specialize (Hall a Ha). rewrite Forall_forall in Hall. by apply Hall. }
  destruct (kept_successors_are_the_greatest seventeen Hone) as (_ & _ & Hperm).
  split; [exact Hone|]. split; [by vm_compute|]. apply Hperm. symmetry. apply reverse_Permutation.
Defined.

Lemma established_successors_verify_witness :
  holdings (link_of 1) two_links ∧ ∃ r, two_links !! id_of 7 = Some r ∧ succeeds (link_of 5) (id_of 7, r_to_id_s_pub r) r.
Proof.
  split; [exact two_links_hold|].
  assert (r_from <$> (two_links !! id_of 7) = Some (id_of 5)) as Hf by (vm_compute; reflexivity).
  destruct (two_links !! id_of 7) as [r|] eqn:E; [|discriminate]. injection Hf as Hf. exists r. split; [done|].
  destruct (established_successors_verify (link_of 1) two_links two_links_hold) as (_ & _ & _ & Hest).
  apply (Hest _ (link_of 5) (id_of 7) r two_links_chain); [right; left|exact E|exact Hf].
Defined.

Lemma signed_hash_fixes_the_handover_witness :
  ∃ h, body_hash (body_of 1 5) = Ok h ∧ handover [] [] None (body_of 1 5) ∧
  ((body_of 1 5 = body_of 1 5 ∧ @nil bytes ≡ₚ [] ∧ @nil (bytes * bytes) ≡ₚ [] ∧ @None bytes = None) ∨
   ∃ x y, collide x y ∧
    ((encode_canonical into_writer Some (body_value (body_of 1 5)) = Ok x ∧
      encode_canonical into_writer Some (body_value (body_of 1 5)) = Ok y) ∨
     (roster_input [] = Ok x ∧ roster_input [] = Ok y) ∨
     (shares_input [] None = Ok x ∧ shares_input [] None = Ok y))).
Proof.
  destruct (body_hash (body_of 1 5)) as [h|] eqn:E; [|vm_compute in E; discriminate]. exists h. split; [done|].
  assert (handover [] [] None (body_of 1 5)) as Hh by (split; [constructor|by vm_compute]).
  split; [exact Hh|]. exact (signed_hash_fixes_the_handover _ _ h _ _ _ _ _ _ E E Hh Hh).
Defined.

Lemma published_chain_is_followed_witness :
  ∃ raw T', identity_chain_plan two_links (link_of 1) (id_of 7) false false = Ok (Some raw) ∧
    seed_identity_chain ∅ (id_of 1) raw = Some (T', 2%nat) ∧
    chain_identities T' (link_of 1) = Some [link_of 1; link_of 5; link_of 7].
Proof.
  destruct (identity_chain_plan two_links (link_of 1) (id_of 7) false false) as [[raw|]|] eqn:E;
    [|vm_compute in E; discriminate|vm_compute in E; discriminate].
  assert (Z.of_nat (length raw) ≤ MAX_CHAIN_BYTES) as Hlen.
  { assert ((Z.of_nat ∘ length) <$> (match identity_chain_plan two_links (link_of 1) (id_of 7) false false with
      Ok o => o | Err _ => None end) = Some 673) as Hl by (vm_compute; reflexivity).
    rewrite E in Hl. simpl in Hl. injection Hl as ->. unfold MAX_CHAIN_BYTES. lia. }
  destruct (published_chain_is_followed (link_of 1) two_links (id_of 7) false false raw two_links_hold
    eq_refl eq_refl Hlen E) as (_ & _ & rest & T' & Hc & _ & Hs & Hc').
  rewrite two_links_chain in Hc. injection Hc as <-. exists raw, T'. split; [done|]. split; [exact Hs|exact Hc'].
Defined.
